(* ===== verification/_CoqProject ===== *)
-Q . S2P
Prelude.v
Effects.v
Ranges.v
Varint.v
QuicFrame.v
QuicAck.v
QuicReceived.v
QuicPacket.v
QuicHeader.v
QuicTransport.v
QuicRecvStream.v
QuicSendStream.v
QuicRecovery.v
QuicStreams.v
QuicStreamsInv.v
QuicStreamsRun.v
QuicConn.v
QuicConnSample.v
QuicConnTimers.v
QuicConnRun.v
QuicConnSafe.v
QuicConnHistory.v
QuicConnTotal.v
QuicConnApp.v
QuicConnPeer.v
Inflight.v
Status.v
Stats.v
Http1Parse.v
Http1Reference.v
PrefixInt.v
Target.v
Hpack.v
Qpack.v
Incremental.v
H3Proto.v
Requests.v
Http2Conn.v
Http2Frames.v
Uring.v
UringRun.v
UringConn.v
Tls.v
TlsHandshake.v
Http1Worker.v
Http1WorkerInv.v
Http1WorkerRun.v
Http1WorkerLoop.v
Http1WorkerTheorems.v
Http2Worker.v
Http2WorkerInv.v
Http2WorkerRun.v
Http2WorkerLoop.v
Http2WorkerTheorems.v
Http3Recv.v
Http3Worker.v
Http3Batches.v
Http3WorkerInv.v
Http3WorkerRun.v
Http3WorkerTurn.v
Http3WorkerRing.v
Http3WorkerLoop.v
Http3WorkerEnd.v
Http3WorkerTheorems.v
