(* ===== verification/Prelude.v ===== *)
(** * shb: a verification library for the benchmarker

    shb is an HTTP load generator: it keeps a number of requests in flight
    over HTTP/1.1, HTTP/2 or HTTP/3 and reports status codes and latencies.
    Everything a result depends on is written in the repository itself, apart
    from TLS: the response parsers, HPACK and QPACK, the HTTP/2 connection, a
    whole QUIC client, and the three event loops over io_uring.  This library
    models all of that, definition by definition from [src/src/], and proves
    what makes it correct.

    ** The parts of the program and how they interact

    [target.rs] turns the command line into the one request a run sends.  A
    worker ([http1.rs], [http2.rs], [http3.rs]) is one thread with one io_uring
    ([uring.rs], [buf_ring.rs]); it opens connections, hands received bytes to a
    protocol state machine, which never performs I/O itself, sends what that has
    to say, perhaps through a TLS session ([tls.rs]), and counts what ends:
    - HTTP/1.1: [http1/parse.rs] scans responses out of arbitrary receives;
    - HTTP/2: [http2/conn.rs] reads frames, answers them and sends request
      bodies, finding each stream in the ring of [inflight.rs] and each status
      with [http2/hpack.rs];
    - HTTP/3: [http3/recv.rs] cuts joined datagrams apart, [http3/proto.rs]
      reads the streams of a QUIC connection, whose statuses [http3/qpack.rs]
      finds;
    - QUIC: [quic/conn.rs] composes headers ([header.rs]), packet numbers and
      header protection ([packet.rs]), frames ([frame.rs]), acknowledgements
      ([ack.rs], [received.rs]), loss recovery ([recovery.rs]), the two halves
      of a stream ([stream.rs]) and transport parameters ([transport.rs]).
    Results go to [stats.rs]; [budget.rs] says when a worker stops.

    ** Which file models what

    Foundations:
    - [Prelude]: outcomes ([res]: [Bail] for an error the program reports,
      [Panic] for what the Rust runtime would raise), machine widths, checked
      indexing and slicing, byte strings, tactics and hint databases;
      [Effects]: methods that change an object and can fail, and the ways of
      reasoning about them; [Ranges]: descending packet-number ranges;
      [Incremental]: the interface of a reader that takes a stream in pieces.
    QUIC:
    - [Varint] (quic/varint.rs), [QuicFrame] (quic/frame.rs), [QuicAck]
      (quic/ack.rs), [QuicReceived] (quic/received.rs), [QuicPacket]
      (quic/packet.rs), [QuicHeader] (quic/header.rs), [QuicTransport]
      (quic/transport.rs), [QuicRecvStream] and [QuicSendStream]
      (quic/stream.rs), [QuicRecovery] (quic/recovery.rs).
    - quic/conn.rs is in two: [QuicStreams] holds the stream tables and flow
      control, with its invariant in [QuicStreamsInv] and its executions in
      [QuicStreamsRun]; [QuicConn] holds the rest of [Connection] and
      quic/crypto.rs.  What is proved of whole connections is in
      [QuicConnTimers] (timers and losses), [QuicConnRun] (the invariant of
      every execution), [QuicConnSafe] (its consequences), [QuicConnHistory]
      (what only moves forward), [QuicConnTotal] (panics), [QuicConnApp] (what
      the network leaves alone) and [QuicConnPeer] (key updates, connection ids,
      forgery).  [QuicConnSample] is a concrete handshake and AEAD to evaluate
      exchanges with.
    HTTP:
    - [Inflight] (inflight.rs), [Status] (status.rs), [Stats] (budget.rs and
      stats.rs), [Target] (target.rs), [Http1Parse] (http1/parse.rs),
      [Http1Reference] (http1/parse/reference.rs, the repository's own oracle),
      [PrefixInt] with [Hpack] and [Qpack] (http2/hpack.rs, http3/qpack.rs),
      [H3Proto] (http3/proto.rs), [Requests] (the field blocks of http2.rs and
      http3.rs), [Http2Conn] (http2/conn.rs) with [Http2Frames] (what it puts on
      the wire), [Tls] and [TlsHandshake] (tls.rs), [Http3Recv] (http3/recv.rs).
    The ring and the workers:
    - [Uring] (uring.rs, buf_ring.rs, the flag of shutdown.rs); [UringRun] and
      [UringConn]: what the theorems about the three workers share.
    - [Http1Worker] (http1.rs), [Http2Worker] (http2.rs), [Http3Worker]
      (http3.rs), each followed by the files of its proof: the invariant of one
      connection ([..Inv]), the handlers ([..Run], and [Http3WorkerTurn]), the
      loop ([..Loop]), the properties ([..Theorems]); for HTTP/3 also the
      batches it sends ([Http3Batches]), the memory the kernel holds
      ([Http3WorkerRing]) and the end of the run ([Http3WorkerEnd]).
    Each file that models code holds one [Module] named after the Rust module;
    records carry the Rust fields, one definition models one function.

    ** Conventions

    A [u64] or any width that can wrap is a [Z] with [u8], [u16], [u32], [u64]
    written where the code computes; a [usize] used as an index is a [nat].
    Instants and durations are nanoseconds.  A mutating method takes the state
    and returns the new one, a fallible one returns [res], and one that is both
    is an [eff].  Buffers that exist only to keep their capacity ([spare],
    [recycle], pooled buffers) are not part of any state.  The messages of
    [Bail] keep the code's words but not the values interpolated into them.

    The kernel sees a history of events ([Uring.World]): operations pushed,
    submissions, completions reaped.  An operation is outstanding from its push
    to its last completion, and [wire] is what the kernel has taken of the sends
    under one id.  One event, [Asked], is a note of the model and of no
    consequence for the run: the HTTP/1.1 worker leaves it where it asks a
    connection for a request, so that a theorem can speak of when that was.

    ** Fuel

    Loops the code writes without an evident measure carry fuel, in general a
    length that is in the state or the input (the bytes left, the streams in
    the table, the queue); every theorem about such a loop shows that the fuel
    suffices, since running out is a [Panic] and the theorems exclude it or
    name the result.  Three bounds are of another kind.  A worker is given the
    number of turns of its loop, and the theorems hold for every number.  The
    loops that wait for the kernel, which may interrupt them any number of times,
    are given a number of attempts ([patience]), and the timers of one QUIC
    connection are run at most [TIMER_TURNS] = 64 times in one pass, where the
    code has no bound; a run that needs more ends with an error in the model,
    and the theorems about workers speak of runs that go on or return.

    ** What the theorems show

    - Requests: the bytes sent are the request the command line asked for, in
      the three encodings ([request_reads_back], [encodings_agree]).
    - Accounts: when a worker of any protocol returns, the requests completed,
      failed and still owed are the requests started, and no more than the
      budget ([http1_accounts], [h2_accounts], [h3_accounts]).
    - The wire: on every socket the kernel accepted whole requests or frames in
      order, however sends were cut ([http1_wire], [h2_wire], [h3_batches]), and
      it reads from memory the worker still owns ([h3_sends_owned]).
    - Progress: a worker never waits for nothing ([http1_never_stuck],
      [h2_never_stuck], [h3_never_stuck]); a QUIC connection never forgets what
      is not acknowledged ([conn_never_stalls], [conn_no_lost_wakeup]).
    - Refinement: the scanner of HTTP/1.1 is a machine that takes one byte at a
      time and agrees with the repository's oracle ([feed_refines_bytes],
      [scanner_matches_reference]); the in-flight ring is a finite map
      ([ring_refines_map]); the packets of a QUIC connection are those of an
      abstract sender ([conn_packets_refine]); the HTTP/3 worker uses QUIC only
      as its theorems allow ([h3_quic_reachable]).
    - Totality: no datagram, frame or chunk makes a reader panic or loop; the
      one way to make a QUIC connection panic is characterised by
      [conn_never_panics] and [ack_panic].
    - Integrity of streams, exact flow control, loss recovery, timers, key
      updates, connection ids, TLS sessions, buffers and round trips of frames.

    ** Assumptions

    Third-party and unspecified behaviour enters as type classes with laws,
    each with an instance that shows the laws can be met: [Kernel] (io_uring,
    sockets and the clock; the laws are the predicate [legal] on histories, and
    for HTTP/2 progress [sustained]: a receive that brought data goes on),
    [Client] with [ClientLaws] and [HandshakeLaws] (a TLS connection of rustls),
    [Rustls] with [RustlsLaws] and [HeaderProtectionKey] (its QUIC keys and
    handshake), [Octets] and [BufferOctets] (what the kernel and rustls hand
    over are bytes), [RecvMsg] (the io_uring crate's reading of receive
    metadata), [Entropy] (random connection ids), [Resolver] (name resolution),
    [Memchr] (the memchr crate), [VecGrowth], [UnstableSort] and [SelectNth]
    (standard library routines whose result is not determined).

    Runs are [sound]: the kernel keeps its laws, and the run is so short that no
    connection's generation, a number of [GENERATION_BITS] bits, comes round.

    ** Limits of the model

    Nanoseconds are unbounded, so that the overflow panics of [Duration] and
    [Instant] are not seen; the byte totals of a QUIC connection and the [i64]
    send windows of HTTP/2 are unbounded too (the latter would need some 2^32
    window updates to wrap); [encode_str] of HPACK casts a length to [u32],
    which the model leaves out (the theorems assume fields below 2^28 bytes).  A
    send captures its bytes when it is pushed: that the memory is not reused
    while the kernel holds it is proved for HTTP/3 as ownership
    ([h3_sends_owned]), and for the others follows from the offsets being moved
    only by completions.

    ** Not modelled

    Building and registering a ring and tuning sockets: sequences of system
    calls.  The choice of TLS options ([client_config], [TrustAll]).  The command
    line and thread start-up ([main.rs]), [clock.rs] and the signal handler,
    [report.rs] and the conversions to floating-point seconds; [narrate], which
    only prints; [probe_gso], whose answer is a parameter of the HTTP/3 worker. *)

From stdpp Require Export base numbers list strings.
From Stdlib Require Export ZArith Lia.

#[global] Open Scope Z_scope.
#[global] Set Default Goal Selector "!".

(** ** Outcomes

    [Bail] is an [anyhow::bail!] (or [ok_or_else]) with its message, [Panic]
    is what the Rust runtime raises for an out-of-range index or slice.  A
    model that goes through [index]/[slice] keeps the two apart, so that
    "this parser cannot be made to panic" is a statement of its own. *)

Inductive error : Type :=
| Bail (msg : string)
| Panic (msg : string).

#[global] Instance error_eq_dec : EqDecision error.
Proof. solve_decision. Defined.

Inductive result (E A : Type) : Type :=
| Ok (a : A)
| Err (e : E).
Arguments Ok {E A} a.
Arguments Err {E A} e.

#[global] Instance result_ret {E} : MRet (result E) := fun A a => Ok a.
#[global] Instance result_bind {E} : MBind (result E) := fun A B f r =>
  match r with Ok a => f a | Err e => Err e end.
#[global] Instance result_fmap {E} : FMap (result E) := fun A B f r =>
  match r with Ok a => Ok (f a) | Err e => Err e end.

#[global] Instance result_eq_dec {E A} `{EqDecision E, EqDecision A} :
  EqDecision (result E A).
Proof. solve_decision. Defined.

Abbreviation res := (result error).

Definition bail {A} (msg : string) : res A := Err (Bail msg).
Definition panic {A} (msg : string) : res A := Err (Panic msg).
Definition is_ok {E A} (r : result E A) : bool :=
  match r with Ok _ => true | Err _ => false end.

(** [ok_or msg o] is Rust's [o.ok_or_else(|| anyhow!(msg))]. *)
Definition ok_or {A} (msg : string) (o : option A) : res A :=
  match o with Some a => Ok a | None => bail msg end.

Lemma Ok_inj {E A} (a b : A) : @Ok E A a = Ok b → a = b.
Proof. congruence. Qed.

Lemma bind_Ok {E A B} (f : A → result E B) (r : result E A) b :
  (r ≫= f) = Ok b ↔ ∃ a, r = Ok a ∧ f a = Ok b.
Proof. unfold mbind, result_bind. destruct r; naive_solver. Qed.

Lemma bind_Err {E A B} (f : A → result E B) (r : result E A) e :
  (r ≫= f) = Err e ↔ r = Err e ∨ ∃ a, r = Ok a ∧ f a = Err e.
Proof. destruct r; cbn; naive_solver. Qed.

Lemma ok_or_Ok {A} msg (o : option A) a : ok_or msg o = Ok a ↔ o = Some a.
Proof. destruct o; cbn; naive_solver. Qed.

(** [wp r P]: the computation does not panic, and what it returns satisfies [P]. *)
Definition wp {A} (r : res A) (P : A → Prop) : Prop :=
  match r with Ok a => P a | Err (Bail _) => True | Err (Panic _) => False end.

(** A computation never panics. *)
Definition no_panic {A} (r : res A) : Prop := ∀ msg, r ≠ Err (Panic msg).

Lemma wp_Ok {A} (a : A) (P : A → Prop) : P a → wp (Ok a) P.
Proof. done. Qed.
Lemma wp_bail {A} msg (P : A → Prop) : wp (bail msg) P.
Proof. done. Qed.
Lemma wp_mono {A} (r : res A) (P Q : A → Prop) : wp r P → (∀ a, P a → Q a) → wp r Q.
Proof. destruct r as [|[]]; cbn; auto. Qed.
Lemma wp_bind {A B} (r : res A) (f : A → res B) P :
  wp r (λ a, wp (f a) P) → wp (r ≫= f) P.
Proof. by destruct r as [|[]]. Qed.
Lemma wp_ok_or {A} msg (o : option A) (P : A → Prop) :
  (∀ a, o = Some a → P a) → wp (ok_or msg o) P.
Proof. destruct o; cbn; auto. Qed.
Lemma wp_elim {A} (r : res A) P a : wp r P → r = Ok a → P a.
Proof. by intros ? ->. Qed.
Lemma wp_no_panic {A} (r : res A) P : wp r P → no_panic r.
Proof. by intros Hwp msg ->. Qed.

(** ** Bytes, indices and slices

    A [u8] is a [Z] in [0, 256); a [Vec<u8>] or [&[u8]] is a list of them.
    A [usize] that indexes a buffer is a [nat]. *)

Abbreviation bytes := (list Z).

Definition byte_ok (b : Z) : Prop := 0 ≤ b < 256.
Definition bytes_ok (l : bytes) : Prop := Forall byte_ok l.

#[global] Instance byte_ok_dec b : Decision (byte_ok b).
Proof. unfold byte_ok. apply _. Defined.
#[global] Instance bytes_ok_dec l : Decision (bytes_ok l).
Proof. unfold bytes_ok. apply _. Defined.

(** [zlen l] is [l.len() as u64]. *)
Definition zlen {A} (l : list A) : Z := Z.of_nat (length l).

(** [b"..."] literals. *)
Definition bstr (s : string) : bytes :=
  (λ a, Z.of_N (Ascii.N_of_ascii a)) <$> String.list_ascii_of_string s.

(** [l[i]], [l[a..b]] and [l[a..]], panicking out of range. *)
Definition index (l : bytes) (i : nat) : res Z :=
  match l !! i with Some b => Ok b | None => panic "index out of bounds" end.
Definition slice (l : bytes) (a b : nat) : res bytes :=
  if decide (a ≤ b ∧ b ≤ length l)%nat
  then Ok (take (b - a) (drop a l))
  else panic "slice index out of range".
Definition slice_from (l : bytes) (a : nat) : res bytes := slice l a (length l).

(** [&a == b] on byte strings. *)
Definition bytes_eqb (a b : bytes) : bool := bool_decide (a = b).

Lemma zlen_nonneg {A} (l : list A) : 0 ≤ zlen l.
Proof. unfold zlen. lia. Qed.
Lemma zlen_app {A} (l k : list A) : zlen (l ++ k) = zlen l + zlen k.
Proof. unfold zlen. rewrite length_app. lia. Qed.
Lemma zlen_cons {A} (x : A) l : zlen (x :: l) = 1 + zlen l.
Proof. unfold zlen. cbn [length]. lia. Qed.
Lemma zlen_nil {A} : zlen (@nil A) = 0.
Proof. done. Qed.

Lemma bytes_ok_app l k : bytes_ok (l ++ k) ↔ bytes_ok l ∧ bytes_ok k.
Proof. apply Forall_app. Qed.
Lemma bytes_ok_cons b l : bytes_ok (b :: l) ↔ byte_ok b ∧ bytes_ok l.
Proof. apply Forall_cons. Qed.
Lemma bytes_ok_nil : bytes_ok [].
Proof. constructor. Qed.
Lemma bytes_ok_drop n l : bytes_ok l → bytes_ok (drop n l).
Proof. apply Forall_drop. Qed.
Lemma bytes_ok_take n l : bytes_ok l → bytes_ok (take n l).
Proof. apply Forall_take. Qed.
Lemma bytes_ok_lookup l i b : bytes_ok l → l !! i = Some b → byte_ok b.
Proof. intros Hl Hi. eapply Forall_lookup_1 in Hl; eauto. Qed.

Lemma index_app_length l b k : index (l ++ b :: k) (length l) = Ok b.
Proof. unfold index. by rewrite list_lookup_middle. Qed.
Lemma slice_app pre mid post :
  slice (pre ++ mid ++ post) (length pre) (length pre + length mid) = Ok mid.
Proof.
  unfold slice. rewrite decide_True by (rewrite !length_app; lia).
  rewrite drop_app_length, Nat.add_comm, Nat.add_sub. by rewrite take_app_length.
Qed.
Lemma slice_from_app pre post : slice_from (pre ++ post) (length pre) = Ok post.
Proof.
  unfold slice_from, slice. rewrite decide_True by (rewrite length_app; lia).
  rewrite drop_app_length, firstn_all2; [done|rewrite length_app; lia].
Qed.
Lemma slice_Ok l a b s :
  slice l a b = Ok s ↔ (a ≤ b ∧ b ≤ length l)%nat ∧ s = take (b - a) (drop a l).
Proof. unfold slice, panic. case_decide; naive_solver. Qed.
Lemma slice_length l a b s : slice l a b = Ok s → length s = (b - a)%nat.
Proof. intros [? ->]%slice_Ok. rewrite length_take, length_drop. lia. Qed.
Lemma slice_from_le l a : (a ≤ length l)%nat → slice_from l a = Ok (drop a l).
Proof.
  intros. unfold slice_from, slice. rewrite decide_True by lia.
  rewrite firstn_all2; [done|rewrite length_drop; lia].
Qed.
Lemma slice_in_range l a b :
  (a ≤ b)%nat → (b ≤ length l)%nat → slice l a b = Ok (take (b - a) (drop a l)).
Proof. intros. unfold slice. by rewrite decide_True. Qed.

(** ** [Vec] operations by index *)

(** [Vec::insert(i, x)] for [i <= len]. *)
Definition vec_insert {A} (i : nat) (x : A) (l : list A) : list A := take i l ++ x :: drop i l.
(** [Vec::pop()], the popped element dropped. *)
Definition vec_pop {A} (l : list A) : list A := take (length l - 1) l.

Lemma vec_pop_app {A} (l k : list A) : k ≠ [] → vec_pop (l ++ k) = l ++ vec_pop k.
Proof.
  intros Hk. unfold vec_pop. destruct k as [|x k]; [done|]. rewrite length_app. cbn [length].
  rewrite take_app_ge by lia. f_equal. f_equal. lia.
Qed.

Lemma vec_insert_app {A} (x : A) pre suf : vec_insert (length pre) x (pre ++ suf) = pre ++ x :: suf.
Proof. unfold vec_insert. by rewrite take_app_length, drop_app_length. Qed.

Lemma lookup_at_length {A} (pre suf : list A) : (pre ++ suf) !! length pre = head suf.
Proof. rewrite lookup_app_r by lia. rewrite Nat.sub_diag. by destruct suf. Qed.

Lemma insert_middle {A} (x y : A) pre suf : <[length pre := x]> (pre ++ y :: suf) = pre ++ x :: suf.
Proof. by rewrite insert_app_r_alt, Nat.sub_diag by lia. Qed.
Lemma vec_pop_snoc {A} (x : A) l : vec_pop (l ++ [x]) = l.
Proof. rewrite vec_pop_app by done. cbn. by rewrite app_nil_r. Qed.

(** ** Machine words

    [u64 x], [u32 x], [u8 x] are what a release build leaves of an exact
    result [x]: addition, subtraction, multiplication and shifts wrap. *)

Definition u8 (x : Z) : Z := x mod 2 ^ 8.
Definition u16 (x : Z) : Z := x mod 2 ^ 16.
Definition u32 (x : Z) : Z := x mod 2 ^ 32.
Definition u64 (x : Z) : Z := x mod 2 ^ 64.
Definition U64_MAX : Z := 2 ^ 64 - 1.
Definition U32_MAX : Z := 2 ^ 32 - 1.

Definition in_u64 (x : Z) : Prop := 0 ≤ x < 2 ^ 64.
Definition in_u32 (x : Z) : Prop := 0 ≤ x < 2 ^ 32.

Definition checked_add (a b : Z) : option Z :=
  if decide (a + b < 2 ^ 64) then Some (a + b) else None.
Definition checked_sub (a b : Z) : option Z :=
  if decide (b ≤ a) then Some (a - b) else None.
Definition checked_mul (a b : Z) : option Z :=
  if decide (a * b < 2 ^ 64) then Some (a * b) else None.
Definition saturating_sub (a b : Z) : Z := Z.max 0 (a - b).

#[global] Arguments u8 : simpl never.
#[global] Arguments u16 : simpl never.
#[global] Arguments u32 : simpl never.
#[global] Arguments u64 : simpl never.
#[global] Arguments zlen : simpl never.

Lemma u64_small x : 0 ≤ x < 2 ^ 64 → u64 x = x.
Proof. apply Z.mod_small. Qed.
Lemma u32_small x : 0 ≤ x < 2 ^ 32 → u32 x = x.
Proof. apply Z.mod_small. Qed.
Lemma u16_small x : 0 ≤ x < 2 ^ 16 → u16 x = x.
Proof. apply Z.mod_small. Qed.
Lemma u8_small x : 0 ≤ x < 2 ^ 8 → u8 x = x.
Proof. apply Z.mod_small. Qed.
Lemma u64_range x : 0 ≤ u64 x < 2 ^ 64.
Proof. by apply Z.mod_pos_bound. Qed.
Lemma u32_range x : 0 ≤ u32 x < 2 ^ 32.
Proof. by apply Z.mod_pos_bound. Qed.
Lemma u8_range x : 0 ≤ u8 x < 2 ^ 8.
Proof. by apply Z.mod_pos_bound. Qed.

(** ** Bits as arithmetic *)

Lemma land_shifted_0 a c n : 0 ≤ n → 0 ≤ a < 2 ^ n → Z.land a (c * 2 ^ n) = 0.
Proof.
  intros Hn Ha. apply Z.bits_inj'. intros i Hi. rewrite Z.land_spec, Z.bits_0.
  destruct (decide (i < n)).
  - rewrite (Z.mul_pow2_bits_low c n i) by lia. apply andb_false_r.
  - destruct (decide (a = 0)) as [->|]; [by rewrite Z.bits_0|].
    rewrite (Z.bits_above_log2 a i); [done|lia|].
    apply Z.log2_lt_pow2; [lia|]. eapply Z.lt_le_trans; [apply Ha|].
    apply Z.pow_le_mono_r; lia.
Qed.

Lemma lor_disjoint a c n : 0 ≤ n → 0 ≤ a < 2 ^ n → Z.lor a (c * 2 ^ n) = a + c * 2 ^ n.
Proof. intros. symmetry. apply Z.add_nocarry_lor. by apply land_shifted_0. Qed.

Lemma lor_shiftl_byte v b : 0 ≤ b < 256 → Z.lor (Z.shiftl v 8) b = v * 256 + b.
Proof.
  intros. rewrite Z.shiftl_mul_pow2 by lia. rewrite Z.lor_comm.
  rewrite (lor_disjoint b v 8) by lia. lia.
Qed.

Lemma land_mask a n : 0 ≤ n → Z.land a (2 ^ n - 1) = a mod 2 ^ n.
Proof. intros. rewrite <- Z.land_ones by lia. f_equal. rewrite Z.ones_equiv. lia. Qed.

Lemma shiftr_div a n : 0 ≤ n → Z.shiftr a n = a / 2 ^ n.
Proof. apply Z.shiftr_div_pow2. Qed.

(** A mask that keeps one bit is nonzero exactly when the bit is set. *)
Lemma land_bit_eqb a n : 0 ≤ n → (Z.land a (2 ^ n) =? 0) = negb (Z.testbit a n).
Proof.
  intros Hn. destruct (Z.testbit a n) eqn:Hb; cbn.
  - apply Z.eqb_neq. intros H0. apply (f_equal (λ z, Z.testbit z n)) in H0.
    by rewrite Z.land_spec, Z.pow2_bits_true, Hb, Z.bits_0 in H0 by lia.
  - apply Z.eqb_eq, Z.bits_inj'. intros i Hi. rewrite Z.land_spec, Z.bits_0.
    destruct (decide (i = n)) as [->|]; [by rewrite Hb|].
    rewrite Z.pow2_bits_false by lia. apply andb_false_r.
Qed.

(** ** Big-endian integers: [to_be_bytes] and [from_be_bytes] *)

Fixpoint be_bytes (n : nat) (v : Z) : bytes :=
  match n with
  | O => []
  | S n' => Z.land (Z.shiftr v (8 * Z.of_nat n')) 255 :: be_bytes n' v
  end.

Definition be_acc (acc b : Z) : Z := Z.lor (Z.shiftl acc 8) b.
Definition be_value (l : bytes) : Z := foldl be_acc 0 l.

Lemma be_acc_eq acc b : byte_ok b → be_acc acc b = acc * 256 + b.
Proof. apply lor_shiftl_byte. Qed.

Lemma byte_of_shift v k : 0 ≤ k → Z.land (Z.shiftr v k) 255 = (v / 2 ^ k) mod 256.
Proof. intros. rewrite (land_mask _ 8) by lia. by rewrite shiftr_div. Qed.

Lemma length_be_bytes n v : length (be_bytes n v) = n.
Proof. induction n; cbn [be_bytes length]; congruence. Qed.

Lemma be_bytes_ok n v : bytes_ok (be_bytes n v).
Proof.
  induction n; cbn [be_bytes]; constructor; [|done].
  rewrite byte_of_shift by lia. unfold byte_ok. apply Z.mod_pos_bound. lia.
Qed.

Lemma foldl_be_acc acc l :
  bytes_ok l → foldl be_acc acc l = acc * 256 ^ zlen l + be_value l.
Proof.
  revert acc. induction l as [|b l IH]; intros acc Hl.
  - change (zlen []) with 0. cbn. lia.
  - apply bytes_ok_cons in Hl as [Hb Hl]. unfold be_value. cbn [foldl].
    rewrite (IH (be_acc acc b)), (IH (be_acc 0 b)) by done.
    rewrite !be_acc_eq by done.
    rewrite zlen_cons, Z.pow_add_r by (pose proof (zlen_nonneg l); lia). lia.
Qed.

Lemma be_value_cons b l :
  byte_ok b → bytes_ok l → be_value (b :: l) = b * 256 ^ zlen l + be_value l.
Proof.
  intros Hb Hl. unfold be_value. cbn [foldl]. rewrite foldl_be_acc by done.
  rewrite be_acc_eq by done. unfold be_value. lia.
Qed.

Lemma be_value_be_bytes n v : be_value (be_bytes n v) = v mod 256 ^ Z.of_nat n.
Proof.
  induction n as [|n IH]; cbn [be_bytes].
  - by rewrite Z.mod_1_r.
  - pose proof (be_bytes_ok (S n) v) as Hok. cbn [be_bytes] in Hok.
    apply bytes_ok_cons in Hok as [Hb Hl].
    rewrite be_value_cons by done. rewrite IH. unfold zlen.
    rewrite length_be_bytes, byte_of_shift by lia.
    rewrite Z.pow_mul_r by lia. change (2 ^ 8) with 256.
    rewrite Nat2Z.inj_succ, Z.pow_succ_r by lia.
    rewrite (Z.mul_comm 256 (256 ^ _)).
    rewrite Z.rem_mul_r by lia. lia.
Qed.

Lemma be_value_bound l : bytes_ok l → 0 ≤ be_value l < 256 ^ zlen l.
Proof.
  induction l as [|b l IH]; intros Hl; [done|].
  apply bytes_ok_cons in Hl as [Hb Hl]. rewrite be_value_cons by done.
  specialize (IH Hl). unfold byte_ok in Hb. rewrite zlen_cons.
  rewrite Z.pow_add_r by (pose proof (zlen_nonneg l); lia). nia.
Qed.

(** ** Automation *)

Create HintDb shb discriminated.
#[export] Hint Resolve wp_bail : shb.
#[export] Hint Resolve bytes_ok_nil bytes_ok_drop bytes_ok_take be_bytes_ok : shb.
#[export] Hint Resolve zlen_nonneg : shb.

Create Rewrite HintDb lens.
#[export] Hint Rewrite @length_cons @length_nil @length_app @length_drop @length_take @length_insert
  length_be_bytes @length_fmap @length_replicate : lens.

(** Push [length] through list operations, then call [lia]. *)
Ltac llia := unfold zlen in *; cbn [length] in *; autorewrite with lens in *; cbn [length] in *; lia.

(** Invert one step of a computation known to have succeeded. *)
Ltac inv_ok :=
  repeat match goal with
    | H : mbind _ _ = Ok _ |- _ =>
        let x := fresh "x" in let Hx := fresh "Hx" in
        apply bind_Ok in H as (x & Hx & H);
        match type of x with (_ * _)%type => destruct x as [? ?] | _ => idtac end;
        cbv beta iota in H
    | H : Ok _ = Ok _ |- _ => injection H as H; try subst
    | H : bail _ = Ok _ |- _ => discriminate H
    | H : panic _ = Ok _ |- _ => discriminate H
    | H : Err _ = Ok _ |- _ => discriminate H
    | H : ok_or _ _ = Ok _ |- _ => apply ok_or_Ok in H
    end.

Lemma wp_index l i (P : Z → Prop) :
  (i < length l)%nat → (∀ b, l !! i = Some b → P b) → wp (index l i) P.
Proof.
  intros Hi HP. unfold index. destruct (lookup_lt_is_Some_2 l i Hi) as [b Hb].
  rewrite Hb. by apply HP.
Qed.
Lemma wp_slice l a b (P : bytes → Prop) :
  (a ≤ b)%nat → (b ≤ length l)%nat → P (take (b - a) (drop a l)) → wp (slice l a b) P.
Proof. intros. by rewrite slice_in_range. Qed.
Lemma wp_slice_from l a (P : bytes → Prop) :
  (a ≤ length l)%nat → P (drop a l) → wp (slice_from l a) P.
Proof. intros. by rewrite slice_from_le. Qed.

(** Walk through a computation whose panics are to be excluded. *)
Ltac wp_step :=
  match goal with
  | |- wp (mbind _ _) _ => apply wp_bind
  | |- wp (Ok _) _ => apply wp_Ok
  | |- wp (bail _) _ => apply wp_bail
  | |- wp (if ?b then _ else _) _ => destruct b eqn:?
  | |- wp (ok_or _ _) _ => apply wp_ok_or; intros
  end.

(** Settle a closed decidable goal by evaluating its decision procedure. *)
Ltac by_decide :=
  match goal with |- ?P => refine (bool_decide_unpack P _); vm_compute; exact I end.
