(* ===== verification/Effects.v ===== *)
(** * Stateful code that can fail, and updates of one field

    The methods of a Rust object that take [&mut self] and return a [Result]
    change the object and keep the changes when they fail: [eff S E A] is such
    a method over an object of type [S].  Two ways of reasoning about it are
    used: [keeps I m] (the method preserves an invariant, failing or not) and
    [evolves R m] (it only moves the object along a preorder [R]); [holds]
    gives the outcome itself.

    [c <| f := v |>] is the object [c] with the field [f] replaced, for a
    record with an [Eta] instance. *)

From S2P Require Import Prelude.

(** ** Field update *)

Class Eta (R : Type) := eta : R → R.
Class Setter {R E : Type} (proj : R → E) := update_field : (E → E) → R → R.
Arguments update_field {R E} proj {Setter} f x /.

Ltac derive_setter R E proj :=
  exact (λ (f : E → E) (x : R),
    ltac:(let b := eval hnf in (@eta R _ x) in
          match b with
          | context C [proj x] => let b' := context C [f (proj x)] in exact b'
          end)).

#[global] Hint Extern 0 (@Setter ?R ?E ?proj) => derive_setter R E proj : typeclass_instances.

Declare Scope update_scope.
#[global] Open Scope update_scope.
Notation "x <| proj := v |>" := (update_field proj (λ _, v) x)
  (at level 12, left associativity, proj at level 9, v at level 99,
   format "x  <|  proj  :=  v  |>") : update_scope.

(** ** Methods *)

Definition eff (S E A : Type) : Type := S → result E A * S.

#[global] Instance eff_ret {S E} : MRet (eff S E) := λ A a s, (Ok a, s).
#[global] Instance eff_bind {S E} : MBind (eff S E) := λ A B f m s,
  match m s with
  | (Ok a, s') => f a s'
  | (Err e, s') => (Err e, s')
  end.

Section methods.
Context {S E : Type}.

(** [self], an assignment to it, and an outcome that does not touch it *)
Definition get : eff S E S := λ s, (Ok s, s).
Definition modify (f : S → S) : eff S E unit := λ s, (Ok tt, f s).
Definition lift {A} (r : result E A) : eff S E A := λ s, (r, s).
Definition when (b : bool) (m : eff S E unit) : eff S E unit := if b then m else mret tt.

(** [for x in l] *)
Fixpoint for_each {A} (l : list A) (body : A → eff S E unit) : eff S E unit :=
  match l with
  | [] => mret tt
  | x :: l' => _ ← body x; for_each l' body
  end.

Lemma bind_run {A B} (m : eff S E A) (f : A → eff S E B) s :
  (m ≫= f) s = match m s with (Ok a, s') => f a s' | (Err e, s') => (Err e, s') end.
Proof. reflexivity. Qed.

(** ** What a method leaves behind *)

Definition holds {A} (m : eff S E A) (s : S) (Q : A → S → Prop) (R : E → S → Prop) : Prop :=
  match m s with (Ok a, s') => Q a s' | (Err e, s') => R e s' end.

Lemma holds_bind {A B} (m : eff S E A) (f : A → eff S E B) s Q R :
  holds m s (λ a s', holds (f a) s' Q R) R → holds (m ≫= f) s Q R.
Proof. unfold holds. rewrite bind_run. by destruct (m s) as [[a|e] s']. Qed.

Lemma holds_mono {A} (m : eff S E A) s (Q Q' : A → S → Prop) (R R' : E → S → Prop) :
  holds m s Q R → (∀ a s', Q a s' → Q' a s') → (∀ e s', R e s' → R' e s') → holds m s Q' R'.
Proof. unfold holds. destruct (m s) as [[a|e] s']; auto. Qed.

Lemma holds_ret {A} (a : A) s (Q : A → S → Prop) (R : E → S → Prop) : Q a s → holds (mret a) s Q R.
Proof. done. Qed.
Lemma holds_get s (Q : S → S → Prop) (R : E → S → Prop) : Q s s → holds get s Q R.
Proof. done. Qed.
Lemma holds_modify f s (Q : unit → S → Prop) (R : E → S → Prop) : Q tt (f s) → holds (modify f) s Q R.
Proof. done. Qed.
Lemma holds_lift {A} (r : result E A) s (Q : A → S → Prop) (R : E → S → Prop) :
  (∀ a, r = Ok a → Q a s) → (∀ e, r = Err e → R e s) → holds (lift r) s Q R.
Proof. unfold holds, lift. destruct r; auto. Qed.

Lemma when_true b m : b = true → when b m = m.
Proof. by intros ->. Qed.
Lemma when_false b m : b = false → when b m = mret tt.
Proof. by intros ->. Qed.

(** ** Invariants *)

Definition keeps {A} (I : S → Prop) (m : eff S E A) : Prop := ∀ s, I s → I (m s).2.

Lemma keeps_bind {A B} I (m : eff S E A) (f : A → eff S E B) :
  keeps I m → (∀ a, keeps I (f a)) → keeps I (m ≫= f).
Proof.
  intros Hm Hf s Hs. rewrite bind_run. specialize (Hm s Hs).
  destruct (m s) as [[a|e] s']; [by apply Hf|done].
Qed.
Lemma keeps_ret {A} I (a : A) : keeps I (mret a : eff S E A).
Proof. by intros s. Qed.
Lemma keeps_get I : keeps I get.
Proof. by intros s. Qed.
Lemma keeps_lift {A} I (r : result E A) : keeps I (lift r).
Proof. by intros s. Qed.
Lemma keeps_modify (I : S → Prop) f : (∀ s, I s → I (f s)) → keeps I (modify f).
Proof. by intros H s Hs; apply H. Qed.
Lemma keeps_when I b m : keeps I m → keeps I (when b m).
Proof. destruct b; [done|intros; apply keeps_ret]. Qed.
Lemma keeps_for_each {A} I (l : list A) body : (∀ x, keeps I (body x)) → keeps I (for_each l body).
Proof.
  intros Hb. induction l as [|x l IH]; [apply keeps_ret|].
  by apply keeps_bind; [apply Hb|intros _].
Qed.

(** Where the continuation depends on the object read first. *)
Lemma keeps_bind_get {B} (I : S → Prop) (f : S → eff S E B) :
  (∀ s, I s → I (f s s).2) → keeps I (get ≫= f).
Proof. intros Hf s Hs. rewrite bind_run. by apply Hf. Qed.

(** ** Movement along a preorder *)

Definition evolves {A} (R : S → S → Prop) (m : eff S E A) : Prop := ∀ s, R s (m s).2.

Section preorder.
Context (R : S → S → Prop) `{!PreOrder R}.

Lemma evolves_bind {A B} (m : eff S E A) (f : A → eff S E B) :
  evolves R m → (∀ a, evolves R (f a)) → evolves R (m ≫= f).
Proof.
  intros Hm Hf s. rewrite bind_run. specialize (Hm s).
  destruct (m s) as [[a|e] s']; [|done]. etrans; [exact Hm|apply Hf].
Qed.
Lemma moves_bind {A B} (m : eff S E A) (f : A → eff S E B) s :
  R s (m s).2 → (∀ a, evolves R (f a)) → R s ((m ≫= f) s).2.
Proof.
  intros Hm Hf. rewrite bind_run. destruct (m s) as [[a|e] s']; [|done]. etrans; [exact Hm|apply Hf].
Qed.
Lemma holds_evolves {A} (m : eff S E A) s (Q : A → S → Prop) (F : E → S → Prop) :
  holds m s Q F → evolves R m → holds m s (λ a s', Q a s' ∧ R s s') F.
Proof. intros Hm Hr. specialize (Hr s). unfold holds in *. by destruct (m s) as [[a|e] s']. Qed.
Lemma evolves_ret {A} (a : A) : evolves R (mret a : eff S E A).
Proof. intros s. reflexivity. Qed.
Lemma evolves_get : evolves R get.
Proof. intros s. reflexivity. Qed.
Lemma evolves_lift {A} (r : result E A) : evolves R (lift r).
Proof. intros s. reflexivity. Qed.
Lemma evolves_modify f : (∀ s, R s (f s)) → evolves R (modify f).
Proof. intros H s. apply H. Qed.
Lemma evolves_when b m : evolves R m → evolves R (when b m).
Proof. destruct b; [done|intros; apply evolves_ret]. Qed.
Lemma evolves_for_each {A} (l : list A) body :
  (∀ x, evolves R (body x)) → evolves R (for_each l body).
Proof.
  intros Hb. induction l as [|x l IH]; [apply evolves_ret|].
  by apply evolves_bind; [apply Hb|intros _].
Qed.
Lemma evolves_bind_get {B} (f : S → eff S E B) : (∀ s, R s (f s s).2) → evolves R (get ≫= f).
Proof. intros Hf s. rewrite bind_run. apply Hf. Qed.
End preorder.
End methods.

Create HintDb effects.
#[export] Hint Resolve keeps_bind keeps_ret keeps_get keeps_lift keeps_modify keeps_when keeps_for_each : effects.
#[export] Hint Resolve evolves_bind evolves_ret evolves_get evolves_lift evolves_modify evolves_when
  evolves_for_each : effects.

(** Walks through a method, leaving the updates it makes and the methods it
    calls. *)
Ltac evolve :=
  cbv zeta;
  repeat (cbv beta; lazymatch goal with
  | |- evolves _ (_ ≫= _) => apply evolves_bind; [apply _| |intros ?]
  | |- evolves _ (mret _) => apply evolves_ret; apply _
  | |- evolves _ get => apply evolves_get; apply _
  | |- evolves _ (lift _) => apply evolves_lift; apply _
  | |- evolves _ (when _ _) => apply evolves_when; [apply _|]
  | |- evolves _ (modify _) => apply evolves_modify; intros ?
  | |- evolves _ (match ?x with _ => _ end) => destruct x
  | |- evolves _ (if ?x then _ else _) => destruct x
  end).
