(* ===== verification/Ranges.v ===== *)
(** * Lists of inclusive packet-number ranges, largest first

    The shape [src/quic/ack.rs], [src/quic/received.rs] and the ACK frames of
    [src/quic/frame.rs] share: [(smallest, largest)] pairs, descending, never
    touching.  Also the two slice searches the range code uses. *)

From S2P Require Import Prelude.

Abbreviation range := (Z * Z)%type.

(** Descending, non-empty, a gap of at least one number between neighbours,
    everything below [hi - 1]. *)
Fixpoint ranges_below (hi : Z) (l : list range) : Prop :=
  match l with
  | [] => True
  | (s, e) :: l' => 0 ≤ s ∧ s ≤ e ∧ e + 1 < hi ∧ ranges_below s l'
  end.

Fixpoint ranges_below_dec hi l : Decision (ranges_below hi l).
Proof. destruct l as [|[s e] l]; cbn; apply _. Defined.
#[global] Existing Instance ranges_below_dec.

(** The numbers a range list stands for. *)
Definition in_range (x : Z) (r : range) : Prop := fst r ≤ x ≤ snd r.
Definition in_ranges (x : Z) (l : list range) : Prop := Exists (in_range x) l.

#[global] Instance in_ranges_dec x l : Decision (in_ranges x l).
Proof. unfold in_ranges, in_range. apply _. Defined.

(** [slice::partition_point] on a slice partitioned by [f]: how many elements
    the prefix on which [f] holds has. *)
Fixpoint partition_point {A} (f : A → bool) (l : list A) : nat :=
  match l with
  | [] => 0
  | x :: l' => if f x then S (partition_point f l') else 0
  end.

Lemma partition_point_app {A} (f : A → bool) l1 l2 :
  Forall f l1 → partition_point f (l1 ++ l2) = (length l1 + partition_point f l2)%nat.
Proof. induction 1 as [|x l Hx Hl IH]; cbn; [done|]. destruct (f x); [by rewrite IH|done]. Qed.

Lemma in_ranges_nil x : ¬ in_ranges x [].
Proof. by intros ?%Exists_nil. Qed.
Lemma in_ranges_cons x r l : in_ranges x (r :: l) ↔ in_range x r ∨ in_ranges x l.
Proof. apply Exists_cons. Qed.
Lemma in_ranges_app x l k : in_ranges x (l ++ k) ↔ in_ranges x l ∨ in_ranges x k.
Proof. apply Exists_app. Qed.

Lemma ranges_below_mono hi hi' l : hi ≤ hi' → ranges_below hi l → ranges_below hi' l.
Proof. destruct l as [|[s e] l]; cbn; [done|]. intuition lia. Qed.

Lemma ranges_below_in hi l x : ranges_below hi l → in_ranges x l → 0 ≤ x ∧ x + 1 < hi.
Proof.
  revert hi. induction l as [|[s e] l IH]; intros hi H Hx; [by apply in_ranges_nil in Hx|].
  cbn in H. destruct H as (?&?&?&Hl). apply in_ranges_cons in Hx as [[? ?]|Hx]; cbn in *; [lia|].
  apply (IH s) in Hx; [lia|done].
Qed.

(** The lower bound a prefix leaves for what follows it. *)
Definition floor_of (hi : Z) (l : list range) : Z :=
  match last l with Some (s, _) => s | None => hi end.

Lemma floor_of_snoc hi l r : floor_of hi (l ++ [r]) = fst r.
Proof. unfold floor_of. rewrite last_snoc. by destruct r. Qed.
Lemma floor_of_cons hi r l : floor_of hi (r :: l) = floor_of (fst r) l.
Proof. unfold floor_of. destruct r as [s e]. rewrite last_cons. by destruct (last l) as [[]|]. Qed.
Lemma floor_of_le hi l : ranges_below hi l → floor_of hi l ≤ hi.
Proof.
  revert hi. induction l as [|[s e] l IH]; intros hi H; [done|].
  rewrite floor_of_cons. cbn in H. destruct H as (?&?&?&H). apply IH in H. cbn. lia.
Qed.

Lemma ranges_below_app hi l k :
  ranges_below hi (l ++ k) ↔ ranges_below hi l ∧ ranges_below (floor_of hi l) k.
Proof.
  revert hi. induction l as [|[s e] l IH]; intros hi; [cbn; tauto|].
  rewrite floor_of_cons. cbn. rewrite IH. tauto.
Qed.

Lemma ranges_above_floor hi l x : ranges_below hi l → in_ranges x l → floor_of hi l ≤ x.
Proof.
  revert hi. induction l as [|[s e] l IH]; intros hi H Hx; [by apply in_ranges_nil in Hx|].
  rewrite floor_of_cons. cbn in H. destruct H as (?&?&?&H).
  apply in_ranges_cons in Hx as [[? ?]|Hx].
  - apply floor_of_le in H. cbn in *. lia.
  - by apply IH.
Qed.

Lemma ranges_below_take hi n l : ranges_below hi l → ranges_below hi (take n l).
Proof.
  intros H. rewrite <- (take_drop n l) in H. by apply ranges_below_app in H as [H _].
Qed.

Lemma in_ranges_take x n l : in_ranges x (take n l) → in_ranges x l.
Proof. intros H. rewrite <- (take_drop n l). apply in_ranges_app. by left. Qed.

Lemma in_ranges_single x r l : in_range x r → in_ranges x (r :: l).
Proof. intros. apply in_ranges_cons. by left. Qed.
