(* ===== verification/Varint.v ===== *)
(** * QUIC variable-length integers — [src/quic/varint.rs]

    [put_varint] picks the shortest of the four widths, [get_varint] reads any
    of them.  HTTP/3 frames and QUIC transport parameters reuse both. *)

From S2P Require Import Prelude.

(** [put_varint(out, value)] appends; the model returns what is appended. *)
Definition put_varint (value : Z) : bytes :=
  if value <=? 0x3f then [u8 value]
  else if value <=? 0x3fff then be_bytes 2 (Z.lor (u16 value) 0x4000)
  else if value <=? 0x3fffffff then be_bytes 4 (Z.lor (u32 value) 0x80000000)
  else be_bytes 8 (Z.lor value 0xc000000000000000).

(** One step of the accumulation loop, [value = (value << 8) | byte] on u64. *)
Definition varint_acc (value byte : Z) : Z := Z.lor (u64 (Z.shiftl value 8)) byte.

Definition get_varint (buf : bytes) : option (Z * nat) :=
  match buf with
  | [] => None
  | first :: _ =>
      let len := Z.to_nat (Z.shiftl 1 (Z.shiftr first 6)) in
      if (length buf <? len)%nat then None
      else Some (foldl varint_acc (Z.land first 0x3f) (take (len - 1) (drop 1 buf)), len)
  end.

#[global] Arguments put_varint : simpl never.
#[global] Arguments get_varint : simpl never.

(** ** Reference: the width is a power of two chosen by two bits, the value is
    the big-endian integer of the rest. *)

Definition varint_max : Z := 2 ^ 62.

(** How many bytes [put_varint] writes. *)
Definition varint_width (value : Z) : nat :=
  if value <=? 0x3f then 1 else if value <=? 0x3fff then 2
  else if value <=? 0x3fffffff then 4 else 8.

(** The tag in the top two bits, by width. *)
Definition varint_tag (w : nat) : Z :=
  match w with 1%nat => 0 | 2%nat => 1 | 4%nat => 2 | _ => 3 end.

Lemma put_varint_be v :
  0 ≤ v < 2 ^ 62 →
  put_varint v =
    let w := varint_width v in be_bytes w (v + varint_tag w * 2 ^ (8 * Z.of_nat w - 2)).
Proof.
  intros Hv. unfold put_varint, varint_width. destruct (Z.leb_spec v 0x3f).
  - cbn [be_bytes varint_tag]. rewrite byte_of_shift by lia. unfold u8.
    do 2 f_equal. cbn. rewrite Z.div_1_r. lia.
  - destruct (Z.leb_spec v 0x3fff); [|destruct (Z.leb_spec v 0x3fffffff)]; cbv zeta.
    + rewrite u16_small by lia. f_equal. apply (lor_disjoint v 1 14); lia.
    + rewrite u32_small by lia. f_equal. apply (lor_disjoint v 2 30); lia.
    + f_equal. apply (lor_disjoint v 3 62); lia.
Qed.

(** The width a first byte announces. *)
Definition announced (first : Z) : nat :=
  match (first / 64)%Z with 0%Z => 1 | 1%Z => 2 | 2%Z => 4 | _ => 8 end.

Lemma announced_shift first :
  byte_ok first → Z.to_nat (Z.shiftl 1 (Z.shiftr first 6)) = announced first.
Proof.
  intros Hb. unfold byte_ok in Hb. rewrite shiftr_div by lia. change (2 ^ 6) with 64.
  unfold announced.
  assert (0 ≤ first / 64 < 4) as Hq
    by (split; [apply Z.div_pos|apply Z.div_lt_upper_bound]; lia).
  destruct (first / 64) as [|[p|[|p|]|]|] eqn:E; try lia; try done.
  destruct p; try lia; done.
Qed.

Lemma announced_cases first :
  announced first = 1%nat ∨ announced first = 2%nat ∨ announced first = 4%nat ∨
  announced first = 8%nat.
Proof.
  unfold announced. destruct (first / 64) as [|[p|p|]|]; try tauto; destruct p; tauto.
Qed.

Lemma foldl_varint_acc a l :
  bytes_ok l → 0 ≤ a → (a + 1) * 256 ^ zlen l ≤ 2 ^ 64 →
  foldl varint_acc a l = a * 256 ^ zlen l + be_value l.
Proof.
  revert a. induction l as [|b l IH]; intros a Hl Ha Hbound.
  { unfold be_value. rewrite zlen_nil. cbn [foldl]. lia. }
  apply bytes_ok_cons in Hl as [Hb Hl]. unfold byte_ok in *. cbn [foldl].
  rewrite zlen_cons, Z.pow_add_r in Hbound by (pose proof (zlen_nonneg l); lia).
  assert (1 ≤ 256 ^ zlen l) by (pose proof (zlen_nonneg l); lia).
  assert (varint_acc a b = a * 256 + b) as ->.
  { unfold varint_acc. rewrite u64_small; [by apply lor_shiftl_byte|].
    rewrite Z.shiftl_mul_pow2 by lia. nia. }
  rewrite IH by (done || nia). rewrite be_value_cons by done.
  rewrite zlen_cons, Z.pow_add_r by (pose proof (zlen_nonneg l); lia). lia.
Qed.

(** The parser against the big-endian reading of the bytes it consumes. *)
Lemma get_varint_ref first rest :
  bytes_ok (first :: rest) →
  let n := announced first in
  get_varint (first :: rest) =
    if (length (first :: rest) <? n)%nat then None
    else Some (be_value (take n (first :: rest)) mod 2 ^ (8 * Z.of_nat n - 2), n).
Proof.
  intros Hok n. unfold get_varint.
  apply bytes_ok_cons in Hok as [Hb Hl]. rewrite announced_shift by done. fold n.
  destruct (Nat.ltb_spec (length (first :: rest)) n) as [|Hlen]; [done|].
  do 2 f_equal. cbn [length] in Hlen.
  change 0x3f with (2 ^ 6 - 1). rewrite land_mask by lia.
  assert (n = announced first) as Hn by done. clearbody n.
  assert (1 ≤ n ≤ 8)%nat as Hn8 by (destruct (announced_cases first) as [|[|[|]]]; lia).
  destruct n as [|m]; [lia|]. rewrite Nat.sub_succ, Nat.sub_0_r. cbn [drop firstn].
  assert (zlen (take m rest) = Z.of_nat m) as Hzl by llia.
  assert (bytes_ok (take m rest)) as Hok' by (by apply bytes_ok_take).
  pose proof (Z.mod_pos_bound first (2 ^ 6) eq_refl) as Hmod.
  assert (256 ^ Z.of_nat m ≤ 256 ^ 7) by (apply Z.pow_le_mono_r; lia).
  assert (0 < 256 ^ Z.of_nat m) by lia. rewrite drop_0.
  rewrite foldl_varint_acc; [|done|lia|rewrite Hzl; change (2 ^ 64) with (2 ^ 8 * 256 ^ 7); nia].
  rewrite be_value_cons by done. rewrite Hzl.
  pose proof (be_value_bound (take m rest) Hok') as Hbv. rewrite Hzl in Hbv.
  replace (8 * Z.of_nat (S m) - 2) with (6 + 8 * Z.of_nat m) by lia.
  rewrite Z.pow_add_r by lia. rewrite (Z.pow_mul_r 2 8) by lia. change (2 ^ 8) with 256.
  rewrite (Z.mul_comm (2 ^ 6)). rewrite Z.rem_mul_r by lia.
  rewrite (Z.add_comm (first * _)), Z.mod_add, Z.div_add by lia.
  rewrite (Z.mod_small (be_value _)), (Z.div_small (be_value _)) by lia.
  rewrite Z.add_0_l. ring.
Qed.

Lemma get_varint_bounds buf v n :
  bytes_ok buf → get_varint buf = Some (v, n) →
  (n = 1 ∨ n = 2 ∨ n = 4 ∨ n = 8)%nat ∧ (n ≤ length buf)%nat ∧
  0 ≤ v < 2 ^ (8 * Z.of_nat n - 2).
Proof.
  intros Hok H. destruct buf as [|first rest]; [done|].
  rewrite get_varint_ref in H by done. cbv zeta in H.
  destruct (Nat.ltb_spec (length (first :: rest)) (announced first)); [done|].
  injection H as <- <-. split; [apply announced_cases|]. split; [done|].
  apply Z.mod_pos_bound. destruct (announced_cases first) as [->|[->|[->| ->]]]; done.
Qed.

Lemma get_varint_lt buf v n :
  bytes_ok buf → get_varint buf = Some (v, n) → 0 ≤ v < 2 ^ 62.
Proof.
  intros Hok H. apply get_varint_bounds in H as (Hn & _ & Hv); [|done].
  assert (2 ^ (8 * Z.of_nat n - 2) ≤ 2 ^ 62) by (apply Z.pow_le_mono_r; lia). lia.
Qed.

Lemma put_varint_width v : 0 ≤ v < 2 ^ 62 → length (put_varint v) = varint_width v.
Proof. intros. rewrite put_varint_be by done. apply length_be_bytes. Qed.

Lemma put_varint_ok v : 0 ≤ v → bytes_ok (put_varint v).
Proof.
  intros. unfold put_varint. repeat case_match; auto with shb.
  repeat constructor; apply Z.mod_pos_bound; lia.
Qed.

Lemma varint_width_fits v :
  0 ≤ v < 2 ^ 62 →
  (1 ≤ varint_width v ≤ 8)%nat ∧ v < 2 ^ (8 * Z.of_nat (varint_width v) - 2).
Proof. intros. unfold varint_width. repeat case_match; lia. Qed.

Lemma top_bits w x b0 tl :
  (1 ≤ w)%nat → 0 ≤ x < 2 ^ (8 * Z.of_nat w) → be_bytes w x = b0 :: tl →
  b0 / 64 = x / 2 ^ (8 * Z.of_nat w - 2).
Proof.
  intros Hw Hx Hbe. destruct w as [|w]; [lia|]. cbn [be_bytes] in Hbe.
  injection Hbe as <- _. rewrite byte_of_shift by lia.
  replace (8 * Z.of_nat (S w)) with (8 * Z.of_nat w + 8) in * by lia.
  rewrite Z.pow_add_r in Hx by lia. rewrite Z.mod_small.
  - rewrite Z.div_div by lia. f_equal. change 64 with (2 ^ 6).
    rewrite <- Z.pow_add_r by lia. f_equal. lia.
  - split; [apply Z.div_pos; lia|]. apply Z.div_lt_upper_bound; lia.
Qed.

(** Any of the four widths reads back, whether or not it is the shortest. *)
Lemma get_varint_width w v rest :
  (w = 1 ∨ w = 2 ∨ w = 4 ∨ w = 8)%nat → 0 ≤ v < 2 ^ (8 * Z.of_nat w - 2) → bytes_ok rest →
  get_varint (be_bytes w (v + varint_tag w * 2 ^ (8 * Z.of_nat w - 2)) ++ rest) = Some (v, w).
Proof.
  intros Hw Hv Hrest. set (x := v + varint_tag w * 2 ^ (8 * Z.of_nat w - 2)).
  assert (0 ≤ x < 2 ^ (8 * Z.of_nat w)) as Hx.
  { unfold x. destruct Hw as [->|[->|[->| ->]]]; cbn in *; lia. }
  destruct (be_bytes w x) as [|b0 tl] eqn:Hbe.
  { pose proof (length_be_bytes w x) as Hl. rewrite Hbe in Hl. cbn in Hl. lia. }
  pose proof (be_bytes_ok w x) as Hok. rewrite Hbe in Hok.
  assert (announced b0 = w) as Hann.
  { unfold announced. rewrite (top_bits w x b0 tl) by (done || lia). unfold x.
    rewrite Z.div_add, Z.div_small by lia. rewrite Z.add_0_l.
    by destruct Hw as [->|[->|[->| ->]]]. }
  cbn [app]. rewrite get_varint_ref by (apply (bytes_ok_app (b0 :: tl)); auto). cbv zeta. rewrite Hann.
  change (b0 :: tl ++ rest) with ((b0 :: tl) ++ rest). rewrite <- Hbe.
  destruct (Nat.ltb_spec (length (be_bytes w x ++ rest)) w); [llia|].
  rewrite take_app_length' by (by rewrite length_be_bytes).
  rewrite be_value_be_bytes. f_equal. f_equal.
  rewrite (Z.mod_small x) by (rewrite Z.pow_mul_r in Hx by lia; exact Hx).
  subst x. rewrite Z.mod_add by lia. apply Z.mod_small. lia.
Qed.

(** Decoding what the encoder wrote, with anything behind it. *)
Lemma get_put_varint v rest :
  0 ≤ v < 2 ^ 62 → bytes_ok rest →
  get_varint (put_varint v ++ rest) = Some (v, length (put_varint v)).
Proof.
  intros Hv Hrest. rewrite put_varint_width, put_varint_be by done.
  destruct (varint_width_fits v Hv) as [Hw8 Hvw].
  apply get_varint_width; [|lia|done]. unfold varint_width. repeat case_match; tauto.
Qed.

Lemma get_put_varint_nil v :
  0 ≤ v < 2 ^ 62 → get_varint (put_varint v) = Some (v, length (put_varint v)).
Proof.
  intros. rewrite <- (app_nil_r (put_varint v)) at 1. apply get_put_varint; auto with shb.
Qed.

(** What has been read does not depend on what follows it. *)
Lemma get_varint_app buf v n more :
  get_varint buf = Some (v, n) → get_varint (buf ++ more) = Some (v, n).
Proof.
  destruct buf as [|b buf]; [done|]. cbn [app]. unfold get_varint. cbv zeta.
  set (w := Z.to_nat _). change (b :: buf ++ more) with ((b :: buf) ++ more).
  destruct (Nat.ltb_spec (length (b :: buf)) w) as [|Hl]; [done|]. intros <-.
  destruct (Nat.ltb_spec (length ((b :: buf) ++ more)) w); [llia|].
  do 3 f_equal. rewrite drop_app_le by (cbn; lia). rewrite take_app_le; [done|llia].
Qed.

(** An incomplete integer stays incomplete until its last byte. *)
Lemma get_varint_prefix buf v n k :
  get_varint buf = Some (v, n) → (k < n)%nat → get_varint (take k buf) = None.
Proof.
  destruct buf as [|b buf]; [done|]. destruct k as [|k]; [done|].
  unfold get_varint at 1. destruct (Nat.ltb_spec (length (b :: buf))
    (Z.to_nat (Z.shiftl 1 (Z.shiftr b 6)))) as [|Hl]; [done|].
  intros [= _ <-] Hk. cbn [firstn]. unfold get_varint.
  destruct (Nat.ltb_spec (length (b :: take k buf))
    (Z.to_nat (Z.shiftl 1 (Z.shiftr b 6)))); [done|llia].
Qed.

Lemma varint_width_minimal v n :
  (n = 1 ∨ n = 2 ∨ n = 4 ∨ n = 8)%nat → v < 2 ^ (8 * Z.of_nat n - 2) →
  (varint_width v ≤ n)%nat.
Proof. intros Hn Hv. unfold varint_width. repeat case_match; destruct Hn as [->|[->|[->| ->]]]; cbn in *; lia. Qed.

(** The variable-length integer codec is exact.  For every value the
    format can carry (below 2^62) and whatever bytes follow, [get_varint]
    returns the value and the number of bytes [put_varint] wrote; every proper
    prefix of the encoding is reported as incomplete; and no other byte string
    that decodes to the value is shorter, so the encoder always picks the
    shortest form. *)
Theorem varint_roundtrip v rest :
  0 ≤ v < 2 ^ 62 → bytes_ok rest →
  get_varint (put_varint v ++ rest) = Some (v, length (put_varint v)) ∧
  (∀ k, (k < length (put_varint v))%nat → get_varint (take k (put_varint v)) = None) ∧
  (∀ buf n, bytes_ok buf → get_varint buf = Some (v, n) → (length (put_varint v) ≤ n)%nat).
Proof.
  intros Hv Hrest. split; [by apply get_put_varint|]. split.
  - intros k Hk. eapply get_varint_prefix; [by apply get_put_varint_nil|done].
  - intros buf n Hok Hget. apply get_varint_bounds in Hget as (Hn & _ & Hb); [|done].
    rewrite put_varint_width by done. apply varint_width_minimal; [done|lia].
Qed.

(** The two-byte example of RFC 9000 Appendix A.1. *)
Lemma varint_roundtrip_witness :
  put_varint 15293 = [0x7b; 0xbd] ∧
  get_varint ([0x7b; 0xbd] ++ [1; 2]) = Some (15293, 2%nat).
Proof.
  split; [vm_compute; reflexivity|].
  apply (varint_roundtrip 15293 [1; 2]); [lia|]. repeat constructor; cbv; done.
Defined.
