(* ===== verification/QuicFrame.v ===== *)
(** * QUIC frames — [src/quic/frame.rs]

    The cursor over a decrypted payload ([Iter]), the frame parser, the walk
    over the ranges of an ACK frame ([AckRanges]) and the encoders. *)

From S2P Require Import Prelude Ranges Varint.

Module frame.

Definition PADDING : Z := 0x00.
Definition PING : Z := 0x01.
Definition ACK : Z := 0x02.
Definition ACK_ECN : Z := 0x03.
Definition RESET_STREAM : Z := 0x04.
Definition STOP_SENDING : Z := 0x05.
Definition CRYPTO : Z := 0x06.
Definition NEW_TOKEN : Z := 0x07.
Definition STREAM_BASE : Z := 0x08.
Definition STREAM_MAX : Z := 0x0f.
Definition MAX_DATA : Z := 0x10.
Definition MAX_STREAM_DATA : Z := 0x11.
Definition MAX_STREAMS_BIDI : Z := 0x12.
Definition MAX_STREAMS_UNI : Z := 0x13.
Definition DATA_BLOCKED : Z := 0x14.
Definition STREAM_DATA_BLOCKED : Z := 0x15.
Definition STREAMS_BLOCKED_BIDI : Z := 0x16.
Definition STREAMS_BLOCKED_UNI : Z := 0x17.
Definition NEW_CONNECTION_ID : Z := 0x18.
Definition RETIRE_CONNECTION_ID : Z := 0x19.
Definition PATH_CHALLENGE : Z := 0x1a.
Definition PATH_RESPONSE : Z := 0x1b.
Definition CONNECTION_CLOSE_QUIC : Z := 0x1c.
Definition CONNECTION_CLOSE_APP : Z := 0x1d.
Definition HANDSHAKE_DONE : Z := 0x1e.
Definition APPLICATION_ERROR : Z := 0x0c.
Definition STREAM_FIN : Z := 0x01.
Definition STREAM_LEN : Z := 0x02.
Definition STREAM_OFF : Z := 0x04.
Definition MAX_CID_LEN : Z := 20.

Inductive Frame : Type :=
| Padding
| Ping
| Ack (largest delay first_range : Z) (ranges : bytes) (range_count : Z)
| ResetStream (id error final_size : Z)
| StopSending (id error : Z)
| Crypto (offset : Z) (data : bytes)
| NewToken
| Stream (id offset : Z) (fin : bool) (data : bytes)
| MaxData (limit : Z)
| MaxStreamData (id limit : Z)
| MaxStreams (uni : bool) (limit : Z)
| DataBlocked (limit : Z)
| StreamDataBlocked (id limit : Z)
| StreamsBlocked (uni : bool) (limit : Z)
| NewConnectionId (seq retire_prior_to : Z) (cid reset_token : bytes)
| RetireConnectionId (seq : Z)
| PathChallenge (data : bytes)
| PathResponse (data : bytes)
| Close (app : bool) (error : Z) (reason : bytes)
| HandshakeDone.

#[global] Instance Frame_eq_dec : EqDecision Frame.
Proof. solve_decision. Defined.

(** [Frame::ack_eliciting] *)
Definition ack_eliciting (f : Frame) : bool :=
  match f with Padding | Ack _ _ _ _ _ | Close _ _ _ => false | _ => true end.

(** ** The cursor *)

Record Iter := mkIter { it_buf : bytes; it_pos : nat }.

Definition new (buf : bytes) : Iter := mkIter buf 0.

(** [self.pos += n] *)
Definition advance (it : Iter) (n : nat) : Iter := mkIter (it_buf it) (it_pos it + n).

(** [Iter::varint], one-byte fast path included. *)
Definition varint (it : Iter) : res (Z * Iter) :=
  match it_buf it !! it_pos it with
  | Some b =>
      if b <? 0x40 then Ok (b, advance it 1)
      else
        suffix ← slice_from (it_buf it) (it_pos it);
        match get_varint suffix with
        | None => bail "truncated varint in frame"
        | Some (v, n) => Ok (v, advance it n)
        end
  | None =>
      suffix ← slice_from (it_buf it) (it_pos it);
      match get_varint suffix with
      | None => bail "truncated varint in frame"
      | Some (v, n) => Ok (v, advance it n)
      end
  end.

(** [Iter::take] *)
Definition take_bytes (it : Iter) (n : Z) : res (bytes * Iter) :=
  if zlen (it_buf it) - Z.of_nat (it_pos it) <? n
  then bail "frame runs past the end of the packet"
  else
    out ← slice (it_buf it) (it_pos it) (it_pos it + Z.to_nat n);
    Ok (out, advance it (Z.to_nat n)).

(** How many zero bytes a buffer starts with: the [PADDING] loop. *)
Fixpoint zero_run (l : bytes) : nat :=
  match l with
  | b :: l' => if b =? 0 then S (zero_run l') else 0
  | [] => 0
  end.

(** [for _ in 0..range_count { varint; varint }]; [fuel] bounds the loop by the
    bytes there are, since every pass consumes some. *)
Fixpoint skip_ranges (fuel : nat) (count : Z) (it : Iter) : res Iter :=
  if count <=? 0 then Ok it else
  match fuel with
  | O => panic "out of fuel"
  | S fuel' =>
      '(_, it) ← varint it;
      '(_, it) ← varint it;
      skip_ranges fuel' (count - 1) it
  end.

(** [Iter::rare_frame] *)
Definition rare_frame (kind : Z) (it : Iter) : res (Frame * Iter) :=
  if kind =? RESET_STREAM then
    '(id, it) ← varint it;
    '(error, it) ← varint it;
    '(final_size, it) ← varint it;
    Ok (ResetStream id error final_size, it)
  else if kind =? STOP_SENDING then
    '(id, it) ← varint it;
    '(error, it) ← varint it;
    Ok (StopSending id error, it)
  else if kind =? CRYPTO then
    '(offset, it) ← varint it;
    '(len, it) ← varint it;
    '(data, it) ← take_bytes it len;
    Ok (Crypto offset data, it)
  else if kind =? NEW_TOKEN then
    '(len, it) ← varint it;
    '(_, it) ← take_bytes it len;
    Ok (NewToken, it)
  else if kind =? MAX_STREAM_DATA then
    '(id, it) ← varint it;
    '(limit, it) ← varint it;
    Ok (MaxStreamData id limit, it)
  else if kind =? DATA_BLOCKED then
    '(limit, it) ← varint it;
    Ok (DataBlocked limit, it)
  else if kind =? STREAM_DATA_BLOCKED then
    '(id, it) ← varint it;
    '(limit, it) ← varint it;
    Ok (StreamDataBlocked id limit, it)
  else if (kind =? STREAMS_BLOCKED_BIDI) || (kind =? STREAMS_BLOCKED_UNI) then
    '(limit, it) ← varint it;
    Ok (StreamsBlocked (kind =? STREAMS_BLOCKED_UNI) limit, it)
  else if kind =? NEW_CONNECTION_ID then
    '(seq, it) ← varint it;
    '(retire_prior_to, it) ← varint it;
    '(one, it) ← take_bytes it 1;
    len ← index one 0;
    if MAX_CID_LEN <? len then bail "NEW_CONNECTION_ID with an oversized connection ID"
    else
      '(cid, it) ← take_bytes it len;
      '(reset_token, it) ← take_bytes it 16;
      Ok (NewConnectionId seq retire_prior_to cid reset_token, it)
  else if kind =? RETIRE_CONNECTION_ID then
    '(seq, it) ← varint it;
    Ok (RetireConnectionId seq, it)
  else if kind =? PATH_CHALLENGE then
    '(data, it) ← take_bytes it 8;
    Ok (PathChallenge data, it)
  else if kind =? PATH_RESPONSE then
    '(data, it) ← take_bytes it 8;
    Ok (PathResponse data, it)
  else if (kind =? CONNECTION_CLOSE_QUIC) || (kind =? CONNECTION_CLOSE_APP) then
    '(error, it) ← varint it;
    it ← (if kind =? CONNECTION_CLOSE_QUIC
          then '(_, it) ← varint it; Ok it else Ok it);
    '(len, it) ← varint it;
    '(reason, it) ← take_bytes it len;
    Ok (Close (kind =? CONNECTION_CLOSE_APP) error reason, it)
  else if kind =? HANDSHAKE_DONE then Ok (HandshakeDone, it)
  else bail "unknown frame type".

(** [Iter::next_frame] *)
Definition next_frame (it : Iter) : res (Frame * Iter) :=
  '(kind, it) ← varint it;
  if kind =? PADDING then
    Ok (Padding, advance it (zero_run (drop (it_pos it) (it_buf it))))
  else if kind =? PING then Ok (Ping, it)
  else if (kind =? ACK) || (kind =? ACK_ECN) then
    '(largest, it) ← varint it;
    '(delay, it) ← varint it;
    '(range_count, it) ← varint it;
    '(first_range, it) ← varint it;
    let start := it_pos it in
    it ← skip_ranges (length (it_buf it)) range_count it;
    ranges ← slice (it_buf it) start (it_pos it);
    it ← (if kind =? ACK_ECN
          then '(_, it) ← varint it; '(_, it) ← varint it; '(_, it) ← varint it; Ok it
          else Ok it);
    Ok (Ack largest delay first_range ranges range_count, it)
  else if (STREAM_BASE <=? kind) && (kind <=? STREAM_MAX) then
    '(id, it) ← varint it;
    '(offset, it) ← (if Z.land kind STREAM_OFF =? 0 then Ok (0, it) else varint it);
    '(data, it) ← (if Z.land kind STREAM_LEN =? 0
                   then take_bytes it (zlen (it_buf it) - Z.of_nat (it_pos it))
                   else '(len, it) ← varint it; take_bytes it len);
    Ok (Stream id offset (negb (Z.land kind STREAM_FIN =? 0)) data, it)
  else if kind =? MAX_DATA then
    '(limit, it) ← varint it;
    Ok (MaxData limit, it)
  else if (kind =? MAX_STREAMS_BIDI) || (kind =? MAX_STREAMS_UNI) then
    '(limit, it) ← varint it;
    Ok (MaxStreams (kind =? MAX_STREAMS_UNI) limit, it)
  else rare_frame kind it.

(** [Iterator::next] for [Iter]: an error also ends the walk. *)
Definition next (it : Iter) : option (res Frame) * Iter :=
  if (length (it_buf it) <=? it_pos it)%nat then (None, it)
  else match next_frame it with
       | Ok (f, it') => (Some (Ok f), it')
       | Err e => (Some (Err e), mkIter (it_buf it) (length (it_buf it)))
       end.

(** [Iter::new(payload).collect()]: what a [for] loop over the frames sees. *)
Fixpoint collect (fuel : nat) (it : Iter) : list (res Frame) :=
  match fuel with
  | O => []
  | S fuel' => match next it with
               | (None, _) => []
               | (Some r, it') => r :: collect fuel' it'
               end
  end.
Definition frames (payload : bytes) : list (res Frame) :=
  collect (S (length payload)) (new payload).


(** ** The ranges of an ACK frame, largest first *)

Record AckRanges := mkAckRanges {
  ar_largest : Z;
  ar_first_range : Z;
  ar_ranges : bytes;
  ar_pos : nat;
  ar_done_first : bool;
  ar_next_largest : Z;
}.

(** [AckRanges::new] *)
Definition ack_ranges_new (largest first_range : Z) (ranges : bytes) : AckRanges :=
  mkAckRanges largest first_range ranges 0 false largest.

(** [Iterator::next] for [AckRanges]: [None] ends the walk, [?] included. *)
Definition ack_ranges_next (a : AckRanges) : option ((Z * Z) * AckRanges) :=
  let '(mkAckRanges largest first_range ranges pos done_first next_largest) := a in
  if negb done_first then
    smallest ← checked_sub largest first_range;
    Some ((smallest, largest), mkAckRanges largest first_range ranges pos true smallest)
  else if (length ranges <=? pos)%nat then None
  else
    '(gap, n) ← get_varint (drop pos ranges);
    let pos := (pos + n)%nat in
    '(len, n) ← get_varint (drop pos ranges);
    let pos := (pos + n)%nat in
    top ← checked_sub next_largest (u64 (gap + 2));
    smallest ← checked_sub top len;
    Some ((smallest, top), mkAckRanges largest first_range ranges pos true smallest).

Fixpoint ack_ranges_collect (fuel : nat) (a : AckRanges) : list (Z * Z) :=
  match fuel with
  | O => []
  | S fuel' => match ack_ranges_next a with
               | None => []
               | Some (r, a') => r :: ack_ranges_collect fuel' a'
               end
  end.

(** [AckRanges::new(largest, first_range, ranges).collect()] *)
Definition ack_ranges (largest first_range : Z) (ranges : bytes) : list (Z * Z) :=
  ack_ranges_collect (S (length ranges)) (ack_ranges_new largest first_range ranges).

(** ** Encoders; each returns what the source appends to [out] *)

Definition put_ping : bytes := [u8 PING].
Definition put_crypto (offset : Z) (data : bytes) : bytes :=
  put_varint CRYPTO ++ put_varint offset ++ put_varint (zlen data) ++ data.
Definition put_stream (id offset : Z) (fin : bool) (data : bytes) : bytes :=
  let kind := Z.lor STREAM_BASE STREAM_LEN in
  let kind := if negb (offset =? 0) then Z.lor kind STREAM_OFF else kind in
  let kind := if fin then Z.lor kind STREAM_FIN else kind in
  put_varint kind ++ put_varint id
  ++ (if negb (offset =? 0) then put_varint offset else [])
  ++ put_varint (zlen data) ++ data.
Definition put_max_data (limit : Z) : bytes := put_varint MAX_DATA ++ put_varint limit.
Definition put_max_stream_data (id limit : Z) : bytes :=
  put_varint MAX_STREAM_DATA ++ put_varint id ++ put_varint limit.
Definition put_reset_stream (id error final_size : Z) : bytes :=
  put_varint RESET_STREAM ++ put_varint id ++ put_varint error ++ put_varint final_size.
Definition put_retire_connection_id (seq : Z) : bytes :=
  put_varint RETIRE_CONNECTION_ID ++ put_varint seq.
Definition put_path_response (data : bytes) : bytes := put_varint PATH_RESPONSE ++ data.
Definition put_close (error : Z) (reason : bytes) : bytes :=
  put_varint CONNECTION_CLOSE_APP ++ put_varint error ++ put_varint (zlen reason) ++ reason.
Definition put_transport_close (error : Z) : bytes :=
  put_varint CONNECTION_CLOSE_QUIC ++ put_varint error ++ put_varint PADDING ++ put_varint 0.

(** The gap/length pairs behind the first range. *)
Fixpoint put_ack_tail (prev_smallest : Z) (ranges : list (Z * Z)) : bytes :=
  match ranges with
  | [] => []
  | (smallest, largest) :: rest =>
      put_varint (u64 (prev_smallest - largest - 2)) ++ put_varint (u64 (largest - smallest))
      ++ put_ack_tail smallest rest
  end.

(** [put_ack]; [ranges[0]] panics on an empty slice. *)
Definition put_ack (ranges : list (Z * Z)) (delay : Z) : res bytes :=
  match ranges with
  | [] => panic "index out of bounds"
  | (smallest, largest) :: rest =>
      Ok (put_varint ACK ++ put_varint largest ++ put_varint delay
          ++ put_varint (u64 (zlen ranges - 1)) ++ put_varint (u64 (largest - smallest))
          ++ put_ack_tail smallest rest)
  end.

(** ** Reading through the cursor is reading the bytes that remain *)

Definition remaining (it : Iter) : bytes := drop (it_pos it) (it_buf it).

Definition iter_ok (it : Iter) : Prop :=
  (it_pos it ≤ length (it_buf it))%nat ∧ bytes_ok (it_buf it).

Lemma remaining_advance it n : remaining (advance it n) = drop n (remaining it).
Proof. unfold remaining, advance. cbn. by rewrite drop_drop. Qed.

Lemma remaining_advance_app it a b :
  remaining it = a ++ b → remaining (advance it (length a)) = b.
Proof. intros H. by rewrite remaining_advance, H, drop_app_length. Qed.

Lemma remaining_ok it : iter_ok it → bytes_ok (remaining it).
Proof. intros []. by apply bytes_ok_drop. Qed.

Lemma length_remaining it :
  length (remaining it) = (length (it_buf it) - it_pos it)%nat.
Proof. apply length_drop. Qed.

Lemma iter_ok_advance it n :
  iter_ok it → (n ≤ length (remaining it))%nat → iter_ok (advance it n).
Proof. rewrite length_remaining. intros [] ?. split; [cbn; lia|done]. Qed.

Lemma advance_buf it n : it_buf (advance it n) = it_buf it.
Proof. done. Qed.

Lemma get_varint_small b l : byte_ok b → b < 0x40 → get_varint (b :: l) = Some (b, 1%nat).
Proof.
  intros [? ?] ?. unfold get_varint. rewrite shiftr_div by lia. change (2 ^ 6) with 64.
  rewrite Z.div_small by lia. cbn. do 2 f_equal.
  change 63 with (2 ^ 6 - 1). rewrite land_mask by lia. apply Z.mod_small. lia.
Qed.

(** The one-byte fast path changes nothing. *)
Lemma varint_eq it :
  iter_ok it →
  varint it = match get_varint (remaining it) with
              | Some (v, n) => Ok (v, advance it n)
              | None => bail "truncated varint in frame"
              end.
Proof.
  intros [Hpos Hok]. unfold varint. rewrite slice_from_le by done. fold (remaining it).
  destruct (it_buf it !! it_pos it) as [b|] eqn:Hb; [|done].
  destruct (Z.ltb_spec b 0x40); [|done].
  assert (remaining it = b :: drop (S (it_pos it)) (it_buf it)) as ->
    by (unfold remaining; by erewrite drop_S by done).
  rewrite get_varint_small; [done| |done]. by eapply bytes_ok_lookup.
Qed.

Lemma take_bytes_eq it n :
  iter_ok it → 0 ≤ n →
  take_bytes it n =
    if zlen (remaining it) <? n then bail "frame runs past the end of the packet"
    else Ok (take (Z.to_nat n) (remaining it), advance it (Z.to_nat n)).
Proof.
  intros [Hpos Hok] Hn. unfold take_bytes.
  assert (zlen (remaining it) = zlen (it_buf it) - Z.of_nat (it_pos it)) as Hz
    by (unfold zlen; rewrite length_remaining; lia).
  rewrite Hz. destruct (Z.ltb_spec (zlen (it_buf it) - Z.of_nat (it_pos it)) n); [done|].
  rewrite slice_in_range by (unfold zlen in *; lia). cbn.
  do 3 f_equal. lia.
Qed.

Lemma varint_at it v rest :
  iter_ok it → 0 ≤ v < 2 ^ 62 → remaining it = put_varint v ++ rest →
  varint it = Ok (v, advance it (length (put_varint v))).
Proof.
  intros Hit Hv Hr. rewrite varint_eq, Hr by done. rewrite get_put_varint; [done..|].
  apply remaining_ok in Hit. rewrite Hr in Hit. by apply bytes_ok_app in Hit as [_ ?].
Qed.

Lemma take_bytes_at it data rest :
  iter_ok it → remaining it = data ++ rest →
  take_bytes it (zlen data) = Ok (data, advance it (length data)).
Proof.
  intros Hit Hr. rewrite take_bytes_eq by auto with shb. rewrite Hr, zlen_app.
  destruct (Z.ltb_spec (zlen data + zlen rest) (zlen data)) as [Hlt|];
    [pose proof (zlen_nonneg rest); lia|].
  unfold zlen. by rewrite Nat2Z.id, take_app_length.
Qed.

Lemma advance_at it a b :
  iter_ok it → remaining it = a ++ b →
  iter_ok (advance it (length a)) ∧ remaining (advance it (length a)) = b.
Proof.
  intros Hok Hr. split; [|by apply remaining_advance_app].
  apply iter_ok_advance; [done|]. rewrite Hr. llia.
Qed.

Lemma advance_advance it a b : advance (advance it a) b = advance it (a + b).
Proof. unfold advance. cbn. f_equal. lia. Qed.

(** Evaluate the tests on frame kinds, which are closed terms. *)
Ltac decide_kind :=
  repeat match goal with
    | |- context [if ?b then _ else _] =>
        let b' := eval vm_compute in b in
        match b' with
        | true => change b with true
        | false => change b with false
        end; cbv iota
    end.

(** Read the varint or the bytes at the front of what remains. *)
Ltac read_at :=
  match goal with
  | Hok : iter_ok ?it, Hr : remaining ?it = put_varint ?v ++ ?rest |- context [varint ?it] =>
      rewrite (varint_at it v rest Hok) by (done || lia);
      let Hok' := fresh "Hok" in let Hr' := fresh "Hr" in
      destruct (advance_at it _ _ Hok Hr) as [Hok' Hr']
  | Hok : iter_ok ?it, Hr : remaining ?it = ?data ++ ?rest |- context [take_bytes ?it _] =>
      rewrite (take_bytes_at it data rest Hok Hr);
      let Hok' := fresh "Hok" in let Hr' := fresh "Hr" in
      destruct (advance_at it _ _ Hok Hr) as [Hok' Hr']
  end; cbn [mbind result_bind].

Ltac read_all := repeat (read_at; decide_kind); rewrite ?advance_advance.

(** ** What the encoders write, the parser reads back *)

Definition varint_ok (v : Z) : Prop := 0 ≤ v < 2 ^ 62.
Definition data_ok (d : bytes) : Prop := bytes_ok d ∧ varint_ok (zlen d).

(** Packet numbers stay below 2^62. *)
Definition ack_ranges_ok (l : list (Z * Z)) : Prop := ranges_below (2 ^ 62 + 1) l.

(** [encodes b f]: the encoders of this module write [b] for frame [f]. *)
Inductive encodes : bytes → Frame → Prop :=
| enc_ping : encodes put_ping Ping
| enc_crypto offset data :
    varint_ok offset → data_ok data →
    encodes (put_crypto offset data) (Crypto offset data)
| enc_stream id offset fin data :
    varint_ok id → varint_ok offset → data_ok data →
    encodes (put_stream id offset fin data) (Stream id offset fin data)
| enc_max_data limit :
    varint_ok limit → encodes (put_max_data limit) (MaxData limit)
| enc_max_stream_data id limit :
    varint_ok id → varint_ok limit →
    encodes (put_max_stream_data id limit) (MaxStreamData id limit)
| enc_reset_stream id error final_size :
    varint_ok id → varint_ok error → varint_ok final_size →
    encodes (put_reset_stream id error final_size) (ResetStream id error final_size)
| enc_retire_connection_id seq :
    varint_ok seq → encodes (put_retire_connection_id seq) (RetireConnectionId seq)
| enc_path_response data :
    data_ok data → length data = 8%nat →
    encodes (put_path_response data) (PathResponse data)
| enc_close error reason :
    varint_ok error → data_ok reason →
    encodes (put_close error reason) (Close true error reason)
| enc_transport_close error :
    varint_ok error → encodes (put_transport_close error) (Close false error [])
| enc_ack smallest largest rest delay b :
    varint_ok delay → ack_ranges_ok ((smallest, largest) :: rest) →
    varint_ok (zlen rest) →
    put_ack ((smallest, largest) :: rest) delay = Ok b →
    encodes b (Ack largest delay (largest - smallest)
                   (put_ack_tail smallest rest) (zlen rest)).

Lemma next_frame_stream it id offset fin data tail :
  varint_ok id → varint_ok offset → data_ok data → iter_ok it →
  remaining it = put_stream id offset fin data ++ tail →
  next_frame it =
    Ok (Stream id offset fin data, advance it (length (put_stream id offset fin data))).
Proof.
  unfold varint_ok, put_stream. intros Hid Hoff [Hd Hlen] Hok Hr. unfold varint_ok in *.
  unfold next_frame. destruct (Z.eqb_spec offset 0) as [->|Hne], fin;
    cbn [negb] in Hr |- *; rewrite ?app_nil_l in Hr |- *; rewrite <- ?app_assoc in Hr; read_all;
    do 3 f_equal; llia.
Qed.

(** *** ACK frames *)

Lemma put_varint_pos v : varint_ok v → (1 ≤ length (put_varint v))%nat.
Proof. intros. rewrite put_varint_width by done. destruct (varint_width_fits v); [done|lia]. Qed.

Lemma put_ack_tail_length prev rest :
  ranges_below prev rest → prev ≤ 2 ^ 62 →
  (2 * length rest ≤ length (put_ack_tail prev rest))%nat.
Proof.
  revert prev. induction rest as [|[s e] rest IH]; intros prev Hb Hp; [cbn; lia|].
  cbn [put_ack_tail ranges_below] in *. destruct Hb as (?&?&?&Hb).
  specialize (IH s Hb ltac:(lia)). rewrite !u64_small by lia.
  pose proof (put_varint_pos (prev - e - 2) ltac:(unfold varint_ok; lia)).
  pose proof (put_varint_pos (e - s) ltac:(unfold varint_ok; lia)). llia.
Qed.

Lemma skip_ranges_at rest prev it fuel tail :
  ranges_below prev rest → prev ≤ 2 ^ 62 → iter_ok it →
  remaining it = put_ack_tail prev rest ++ tail → (length rest ≤ fuel)%nat →
  skip_ranges fuel (zlen rest) it = Ok (advance it (length (put_ack_tail prev rest))).
Proof.
  revert prev it fuel. induction rest as [|[s e] rest IH]; intros prev it fuel Hb Hp Hok Hr Hf.
  - destruct fuel; cbn; unfold advance; rewrite Nat.add_0_r; by destruct it.
  - cbn [put_ack_tail ranges_below length] in *. destruct Hb as (?&?&?&Hb).
    destruct fuel as [|fuel]; [lia|]. cbn [skip_ranges].
    destruct (Z.leb_spec (zlen ((s, e) :: rest)) 0) as [Hle|_];
      [rewrite zlen_cons in Hle; pose proof (zlen_nonneg rest); lia|].
    rewrite !u64_small in * by lia. rewrite <- !app_assoc in Hr.
    read_at. read_at.
    replace (zlen ((s, e) :: rest) - 1) with (zlen rest) by (rewrite zlen_cons; lia).
    rewrite (IH s) by (done || lia). rewrite !advance_advance. do 2 f_equal. llia.
Qed.

Lemma next_frame_ack it smallest largest rest delay b tail :
  varint_ok delay → ack_ranges_ok ((smallest, largest) :: rest) → varint_ok (zlen rest) →
  put_ack ((smallest, largest) :: rest) delay = Ok b → iter_ok it →
  remaining it = b ++ tail →
  next_frame it = Ok (Ack largest delay (largest - smallest)
                        (put_ack_tail smallest rest) (zlen rest), advance it (length b)).
Proof.
  unfold put_ack. intros Hd (?&?&?&Hb) Hn <-%Ok_inj Hok Hr. unfold varint_ok in *.
  rewrite zlen_cons in *. rewrite !u64_small in * by lia.
  replace (1 + zlen rest - 1) with (zlen rest) in * by lia.
  rewrite <- !app_assoc in Hr. unfold next_frame. do 5 (read_at; decide_kind).
  match goal with |- context [skip_ranges _ _ ?i] => set (it0 := i) in * end.
  match goal with H : remaining it0 = _ |- _ => rename H into HR end.
  match goal with H : iter_ok it0 |- _ => rename H into HOK end.
  rewrite (skip_ranges_at rest smallest it0 _ tail); [|done|lia|done|done|].
  2: { pose proof (put_ack_tail_length smallest rest Hb ltac:(lia)).
       apply (f_equal length) in HR. rewrite length_remaining in HR. llia. }
  cbn [mbind result_bind]. rewrite advance_buf.
  rewrite slice_in_range by (destruct (advance_at it0 _ _ HOK HR) as [[? _] _]; cbn in *; lia).
  cbn [mbind result_bind it_pos advance]. fold (remaining it0).
  rewrite Nat.add_comm, Nat.add_sub, HR, take_app_length.
  unfold it0. rewrite !advance_advance. do 3 f_equal. llia.
Qed.

Lemma collect_put_ack_tail rest prev largest first raw pos fuel :
  ranges_below prev rest → prev ≤ 2 ^ 62 → drop pos raw = put_ack_tail prev rest →
  (length rest ≤ fuel)%nat →
  ack_ranges_collect fuel (mkAckRanges largest first raw pos true prev) = rest.
Proof.
  revert prev pos fuel. induction rest as [|[s e] rest IH]; intros prev pos fuel Hb Hp Hd Hf.
  - destruct fuel; [done|]. cbn in Hd |- *.
    destruct (Nat.leb_spec (length raw) pos) as [|Hlt]; [done|].
    apply (f_equal length) in Hd. rewrite length_drop in Hd. cbn in Hd. lia.
  - destruct fuel as [|fuel]; [cbn in Hf; lia|]. cbn [put_ack_tail ranges_below length] in *.
    destruct Hb as (?&?&?&Hb). rewrite !u64_small in Hd by lia.
    assert (bytes_ok (put_ack_tail s rest)) as Htail.
    { clear. revert s. induction rest as [|[s' e'] rest IH]; intros s; cbn; auto with shb.
      rewrite !bytes_ok_app.
      repeat split; [apply put_varint_ok, u64_range..|apply IH]. }
    cbn [ack_ranges_collect ack_ranges_next negb].
    destruct (Nat.leb_spec (length raw) pos) as [Hle|_].
    { rewrite drop_ge in Hd by done.
      pose proof (put_varint_pos (prev - e - 2) ltac:(unfold varint_ok; lia)).
      apply (f_equal length) in Hd. llia. }
    rewrite Hd, get_put_varint; [|lia|apply bytes_ok_app; split; [apply put_varint_ok; lia|done]].
    cbn [mbind option_bind]. rewrite <- drop_drop, Hd, drop_app_length.
    rewrite get_put_varint by (done || lia). cbn [mbind option_bind].
    unfold checked_sub. rewrite u64_small by lia. rewrite decide_True by lia.
    cbn [mbind option_bind]. rewrite decide_True by lia. cbn [mbind option_bind].
    rewrite (IH (prev - (prev - e - 2 + 2) - (e - s))).
    + do 2 f_equal; lia.
    + by replace (prev - (prev - e - 2 + 2) - (e - s)) with s by lia.
    + lia.
    + rewrite <- !drop_drop, Hd, !drop_app_length. f_equal. lia.
    + lia.
Qed.

Lemma ack_ranges_put_ack smallest largest rest :
  ack_ranges_ok ((smallest, largest) :: rest) →
  ack_ranges largest (largest - smallest) (put_ack_tail smallest rest)
    = (smallest, largest) :: rest.
Proof.
  intros (?&?&?&Hb). unfold ack_ranges, ack_ranges_new. cbn [ack_ranges_collect ack_ranges_next negb].
  unfold checked_sub. rewrite decide_True by lia. cbn [mbind option_bind].
  replace (largest - (largest - smallest)) with smallest by lia. f_equal.
  apply collect_put_ack_tail; [done|lia|done|].
  pose proof (put_ack_tail_length smallest rest Hb ltac:(lia)). lia.
Qed.

Lemma next_frame_encodes b f it tail :
  encodes b f → iter_ok it → remaining it = b ++ tail →
  next_frame it = Ok (f, advance it (length b)).
Proof.
  intros Henc Hok Hr. destruct Henc; unfold varint_ok, data_ok in *.
  3: { by eapply next_frame_stream. }
  10: { by eapply next_frame_ack. }
  all: destruct_and?; unfold next_frame.
  7: { unfold put_path_response in *. rewrite <- !app_assoc in Hr. read_at. decide_kind.
       unfold rare_frame. decide_kind. replace 8 with (zlen data) by (unfold zlen; lia).
       read_all. do 3 f_equal; llia. }
  8: { unfold put_transport_close in *. rewrite <- !app_assoc in Hr. read_at. decide_kind.
       unfold rare_frame. decide_kind. do 3 (read_at; decide_kind).
       change 0 with (@zlen Z []) at 2. erewrite (take_bytes_at _ [] tail) by done.
       cbn [mbind result_bind]. rewrite ?advance_advance. do 3 f_equal; llia. }
  all: unfold put_ping, put_crypto, put_max_data, put_max_stream_data, put_reset_stream,
    put_retire_connection_id, put_close, put_transport_close in *;
    try change [u8 PING] with (put_varint PING) in *;
    rewrite <- ?app_assoc in Hr; unfold varint_ok in *; read_at; decide_kind;
    unfold rare_frame; decide_kind; read_all; do 3 f_equal; llia.
Qed.

Lemma put_varint_app_pos v l : varint_ok v → (1 ≤ length (put_varint v ++ l))%nat.
Proof. intros Hv%put_varint_pos. llia. Qed.

Lemma encodes_nonempty b f : encodes b f → (1 ≤ length b)%nat.
Proof.
  intros []; unfold put_stream, data_ok in *; destruct_and?; [done|..].
  all: try match goal with H : put_ack _ _ = Ok _ |- _ => apply Ok_inj in H; subst end.
  all: apply put_varint_app_pos; repeat case_match; cbv; done.
Qed.

Lemma encodes_ok b f : encodes b f → bytes_ok b.
Proof.
  assert (∀ prev rest, bytes_ok (put_ack_tail prev rest)) as Htail.
  { intros prev rest. revert prev. induction rest as [|[s' e'] rest IH]; intros s; cbn; auto with shb.
    rewrite !bytes_ok_app. repeat split; [apply put_varint_ok, u64_range..|apply IH]. }
  intros []; unfold varint_ok, data_ok, ack_ranges_ok in *; cbn [ranges_below] in *; destruct_and?.
  all: unfold put_ping, put_crypto, put_stream, put_max_data, put_max_stream_data,
    put_reset_stream, put_retire_connection_id, put_path_response, put_close,
    put_transport_close in *; unfold varint_ok in *.
  all: try match goal with H : put_ack _ _ = Ok _ |- _ => apply Ok_inj in H; subst end.
  all: rewrite ?bytes_ok_app; repeat split; try done;
    repeat case_match; auto with shb; try (apply put_varint_ok; first [done | lia | apply u64_range]).
  repeat constructor; done.
Qed.

Lemma collect_encodes bs fs it fuel :
  Forall2 encodes bs fs → iter_ok it → remaining it = concat bs → (length fs < fuel)%nat →
  collect fuel it = Ok <$> fs.
Proof.
  intros Henc. revert it fuel. induction Henc as [|b f bs fs Hbf Henc IH];
    intros it fuel Hok Hr Hf.
  - destruct fuel; [done|]. cbn in Hr |- *. unfold next.
    apply (f_equal length) in Hr. rewrite length_remaining in Hr. cbn in Hr.
    destruct (Nat.leb_spec (length (it_buf it)) (it_pos it)); [done|lia].
  - destruct fuel as [|fuel]; [lia|]. cbn [concat] in Hr. cbn [collect]. unfold next.
    pose proof (encodes_nonempty _ _ Hbf).
    destruct (Nat.leb_spec (length (it_buf it)) (it_pos it)) as [Hle|_].
    { apply (f_equal length) in Hr. rewrite length_remaining in Hr. llia. }
    rewrite (next_frame_encodes b f it (concat bs)) by done.
    destruct (advance_at it _ _ Hok Hr) as [Hok' Hr']. cbn [fmap list_fmap]. f_equal.
    apply IH; [done|done|]. cbn [length] in Hf. lia.
Qed.

Lemma frames_encodes bs fs : Forall2 encodes bs fs → frames (concat bs) = Ok <$> fs.
Proof.
  intros Henc. unfold frames. apply (collect_encodes bs); [done| | done |].
  - split; cbn; [lia|]. clear -Henc. induction Henc as [|b f bs fs Hb Henc IH]; cbn; auto with shb.
    apply bytes_ok_app. split; [by eapply encodes_ok|done].
  - clear -Henc. induction Henc as [|b f bs fs Hb Henc IH]; cbn; [lia|].
    apply encodes_nonempty in Hb. rewrite length_app. lia.
Qed.

(** C37: any payload assembled by the encoders — PING, CRYPTO, STREAM, the two
    flow-control frames, RESET_STREAM, RETIRE_CONNECTION_ID, PATH_RESPONSE,
    both closes and ACK, in any order and number — is parsed back, frame by
    frame, with no error, into exactly the frames it was built from. *)
Theorem frames_roundtrip bs fs :
  Forall2 encodes bs fs → frames (concat bs) = Ok <$> fs.
Proof. apply frames_encodes. Qed.

Lemma frames_roundtrip_witness :
  frames (concat [put_max_data 70000; put_stream 4 10 true [1; 2; 3]; put_ping]) =
  [Ok (MaxData 70000); Ok (Stream 4 10 true [1; 2; 3]); Ok Ping].
Proof.
  apply (frames_roundtrip [_; _; _] [_; _; _]).
  repeat constructor; cbv; done.
Defined.

(** ** Whatever the peer sends *)

(** [it'] is [it] moved forward by at least [k] bytes, still in bounds. *)
Definition moved (k : nat) (it it' : Iter) : Prop :=
  iter_ok it' ∧ it_buf it' = it_buf it ∧ (it_pos it + k ≤ it_pos it')%nat.

Lemma moved_refl it : iter_ok it → moved 0 it it.
Proof. unfold moved. intros; repeat split; try done; try apply H; lia. Qed.

Lemma moved_trans j k it1 it2 it3 : moved j it1 it2 → moved k it2 it3 → moved (j + k) it1 it3.
Proof. intros (?&?&?) (?&?&?). split; [done|]. split; [congruence|lia]. Qed.

Lemma moved_weaken k it it' : moved k it it' → moved 0 it it'.
Proof. intros (?&?&?). split; [done|]. split; [done|lia]. Qed.

Lemma wp_varint it (P : Z * Iter → Prop) :
  iter_ok it → (∀ v it', moved 1 it it' → 0 ≤ v < 2 ^ 62 → P (v, it')) → wp (varint it) P.
Proof.
  intros Hok HP. rewrite varint_eq by done. pose proof (remaining_ok it Hok) as Hrok.
  destruct (get_varint (remaining it)) as [[v n]|] eqn:Hg; [|done].
  apply HP; [|by eapply get_varint_lt].
  apply get_varint_bounds in Hg as (Hn & Hlen & _); [|done].
  split; [by apply iter_ok_advance|]. split; [done|]. cbn. lia.
Qed.

Lemma wp_take_bytes it n (P : bytes * Iter → Prop) :
  iter_ok it → 0 ≤ n →
  (∀ d it', moved (Z.to_nat n) it it' → length d = Z.to_nat n → bytes_ok d → P (d, it')) →
  wp (take_bytes it n) P.
Proof.
  intros Hok Hn HP. rewrite take_bytes_eq by done.
  destruct (Z.ltb_spec (zlen (remaining it)) n); [done|].
  apply HP; [|llia|by apply bytes_ok_take, remaining_ok].
  split; [apply iter_ok_advance; [done|llia]|]. split; [done|]. cbn. lia.
Qed.

Lemma wp_skip_ranges fuel count it (P : Iter → Prop) :
  iter_ok it → (length (remaining it) < 2 * fuel)%nat →
  (∀ it', moved 0 it it' → P it') → wp (skip_ranges fuel count it) P.
Proof.
  revert count it P. induction fuel as [|fuel IH]; intros count it P Hok Hf HP; [lia|].
  cbn [skip_ranges]. destruct (count <=? 0); [by apply HP, moved_refl|].
  apply wp_bind, wp_varint; [done|]. intros v1 it1 H1 _.
  apply wp_bind, wp_varint; [apply H1|]. intros v2 it2 H2 _.
  apply IH; [apply H2| |].
  - rewrite length_remaining in *. destruct H1 as (?&E1&?), H2 as ([Hp _]&E2&?).
    rewrite E2, E1 in *. lia.
  - intros it3 H3. apply HP. eapply moved_weaken, moved_trans; [exact H1|].
    by eapply moved_trans.
Qed.

(** The same facts relative to one starting point [it0], for the tactic below. *)
Lemma moved_step j k it0 it it' : moved k it0 it → moved j it it' → moved k it0 it'.
Proof. intros (?&?&?) (?&?&?). split; [done|]. split; [congruence|lia]. Qed.

Lemma wp_varint_from k it0 it (P : Z * Iter → Prop) :
  moved k it0 it → (∀ v it', moved k it0 it' → 0 ≤ v < 2 ^ 62 → P (v, it')) → wp (varint it) P.
Proof. intros H HP. apply wp_varint; [apply H|]. intros. apply HP; [|done]. by eapply moved_step. Qed.

Lemma wp_take_bytes_from k it0 it n (P : bytes * Iter → Prop) :
  moved k it0 it → 0 ≤ n →
  (∀ d it', moved k it0 it' → length d = Z.to_nat n → bytes_ok d → P (d, it')) →
  wp (take_bytes it n) P.
Proof. intros H Hn HP. apply wp_take_bytes; [apply H|done|]. intros. apply HP; try done. by eapply moved_step. Qed.

(** Step through the frame parser. *)
Ltac parse_step :=
  first
    [ wp_step
    | match goal with
      | H : moved _ _ ?it |- wp (varint ?it) _ =>
          apply (wp_varint_from _ _ _ _ H); clear H; intros ? ? ? ?
      | H : moved _ _ ?it |- wp (take_bytes ?it _) _ =>
          apply (wp_take_bytes_from _ _ _ _ _ H);
            [first [lia | destruct H as ([? _] & _); llia]|]; clear H; intros ? ? ? ? ?
      | |- moved _ _ _ => eassumption
      end ].

(** What every frame read from bytes satisfies, whoever wrote it: its integers
    are varints and its fixed-size fields have their size. *)
Definition wire_ok (f : Frame) : Prop :=
  match f with
  | Ack largest delay first_range ranges _ =>
      varint_ok largest ∧ varint_ok delay ∧ varint_ok first_range ∧ bytes_ok ranges
  | ResetStream id error final_size => varint_ok id ∧ varint_ok error ∧ varint_ok final_size
  | StopSending id error => varint_ok id ∧ varint_ok error
  | Crypto offset data => varint_ok offset ∧ bytes_ok data
  | Stream id offset _ data => varint_ok id ∧ varint_ok offset ∧ bytes_ok data
  | MaxData limit | MaxStreams _ limit => varint_ok limit
  | MaxStreamData id limit => varint_ok id ∧ varint_ok limit
  | NewConnectionId seq retire cid token =>
      varint_ok seq ∧ varint_ok retire ∧ bytes_ok cid ∧ bytes_ok token ∧ length token = 16%nat
  | PathChallenge data => length data = 8%nat
  | _ => True
  end.

Ltac wire := split; [eassumption|]; repeat split; (assumption || lia || done).

Lemma wp_rare_frame kind it0 it :
  moved 1 it0 it → wp (rare_frame kind it) (λ '(f, it'), moved 1 it0 it' ∧ wire_ok f).
Proof.
  intros H. unfold rare_frame. repeat parse_step; try wire.
  apply wp_index; [lia|]. intros b Hb. assert (byte_ok b) as [? _] by (by eapply bytes_ok_lookup).
  repeat parse_step; wire.
Qed.

Lemma zero_run_le l : (zero_run l ≤ length l)%nat.
Proof. induction l as [|b l IH]; cbn; [lia|]. case_match; lia. Qed.

Lemma wp_next_frame it :
  iter_ok it → wp (next_frame it) (λ '(f, it'), moved 1 it it' ∧ wire_ok f).
Proof.
  intros Hok. unfold next_frame. apply wp_bind, wp_varint; [done|]. intros kind it0 H0 Hk.
  repeat parse_step; try wire.
  - (* PADDING swallows the zero bytes that follow *)
    pose proof (zero_run_le (remaining it0)).
    destruct H0 as (H0 & E0 & ?). unfold remaining in *.
    split; [|done]. split; [apply iter_ok_advance; [done|]; unfold remaining; lia|]. split; [done|]. cbn. lia.
  - (* ACK *)
    match goal with H : moved 1 it ?i |- _ => rename i into it4, H into H4 end.
    apply wp_skip_ranges; [apply H4| |].
    { rewrite length_remaining. destruct H4 as ([? _] & ? & ?). lia. }
    intros it5 H5. pose proof (moved_step _ _ _ _ _ H4 H5). apply wp_bind, wp_slice.
    + destruct H5 as (_ & _ & ?). lia.
    + apply H5.
    + assert (bytes_ok (take (it_pos it5 - it_pos it4) (drop (it_pos it4) (it_buf it5))))
        by (apply bytes_ok_take, bytes_ok_drop, H5).
      clear H4 H5. repeat parse_step; wire.
  - by apply wp_rare_frame.
Qed.

Lemma collect_frames fuel fuel' it :
  iter_ok it → (length (remaining it) < fuel)%nat → (fuel ≤ fuel')%nat →
  collect fuel' it = collect fuel it ∧
  ∃ fs tail, collect fuel it = (Ok <$> fs) ++ tail ∧ (tail = [] ∨ ∃ m, tail = [Err (Bail m)]).
Proof.
  revert fuel' it. induction fuel as [|fuel IH]; intros fuel' it Hok Hf Hle; [lia|].
  destruct fuel' as [|fuel']; [lia|]. cbn [collect]. unfold next.
  destruct (Nat.leb_spec (length (it_buf it)) (it_pos it)).
  { split; [done|]. exists [], []. auto. }
  pose proof (wp_next_frame it Hok) as Hwp.
  destruct (next_frame it) as [[f it']|[m|m]]; cbn in Hwp; [destruct Hwp as [Hwp _]| |done].
  - destruct (IH fuel' it') as [Heq (fs & tail & Hfs & Htail)]; [apply Hwp| |lia|].
    { rewrite length_remaining in *. destruct Hwp as ([? _] & E & ?). rewrite E in *. lia. }
    rewrite Heq. split; [done|]. exists (f :: fs), tail. by rewrite Hfs.
  - split.
    + f_equal. destruct fuel, fuel'; cbn [collect]; try done; unfold next; cbn [it_buf it_pos];
        rewrite ?Nat.leb_refl; done.
    + exists [], [Err (Bail m)]. split; [|eauto]. cbn. f_equal.
      destruct fuel; [done|]. cbn [collect]. unfold next. cbn [it_buf it_pos]. by rewrite Nat.leb_refl.
Qed.

Lemma collect_wire fuel it f : iter_ok it → Ok f ∈ collect fuel it → wire_ok f.
Proof.
  revert it. induction fuel as [|fuel IH]; intros it Hok; cbn [collect]; [by intros []%not_elem_of_nil|].
  unfold next. destruct (_ <=? _)%nat; [by intros []%not_elem_of_nil|].
  pose proof (wp_next_frame it Hok) as Hwp. destruct (next_frame it) as [[g it']|[m|m]]; cbn in Hwp; [| |done].
  - destruct Hwp as [Hm Hg]. rewrite elem_of_cons. intros [[= ->]|Hin]; [done|]. by eapply IH; [apply Hm|].
  - rewrite elem_of_cons. intros [[=]|Hin].
    destruct fuel; [by apply not_elem_of_nil in Hin|]. cbn [collect] in Hin. unfold next in Hin.
    cbn [it_buf it_pos] in Hin. rewrite Nat.leb_refl in Hin. by apply not_elem_of_nil in Hin.
Qed.

Lemma frames_wire payload f : bytes_ok payload → Ok f ∈ frames payload → wire_ok f.
Proof. intros Hok. apply collect_wire. split; [cbn; lia|done]. Qed.

(** C40: no payload, however malformed, makes the frame walk panic (every index
    and slice it takes is in range) or fail to end: more iterations than the
    payload has bytes change nothing, the walk is a run of frames, and a
    malformed payload shows up as exactly one parse error in last place. *)
Theorem frames_total payload extra :
  bytes_ok payload →
  collect (S (length payload) + extra) (new payload) = frames payload ∧
  ∃ fs tail, frames payload = (Ok <$> fs) ++ tail ∧ (tail = [] ∨ ∃ m, tail = [Err (Bail m)]).
Proof.
  intros Hok. apply collect_frames.
  - split; [cbn; lia|done].
  - rewrite length_remaining. cbn. lia.
  - lia.
Qed.

(** A STREAM frame that announces more data than the packet holds. *)
Lemma frames_total_witness :
  ∃ fs tail, frames [1; 0x0a; 4; 9; 1] = (Ok <$> fs) ++ tail ∧
             (tail = [] ∨ ∃ m, tail = [Err (Bail m)]).
Proof. apply (frames_total [1; 0x0a; 4; 9; 1] 0). repeat constructor; cbv; done. Defined.

(** ** ACK ranges from the wire *)

Lemma ack_ranges_collect_sound fuel largest first raw pos next_largest :
  bytes_ok raw → 0 ≤ next_largest →
  ranges_below next_largest
    (ack_ranges_collect fuel (mkAckRanges largest first raw pos true next_largest)).
Proof.
  intros Hok. revert pos next_largest. induction fuel as [|fuel IH]; intros pos nl Hnl; [done|].
  cbn [ack_ranges_collect ack_ranges_next negb].
  destruct (length raw <=? pos)%nat; [done|].
  destruct (get_varint (drop pos raw)) as [[gap n]|] eqn:Hg; [|done].
  cbn [mbind option_bind].
  apply get_varint_lt in Hg; [|by apply bytes_ok_drop].
  destruct (get_varint (drop (pos + n) raw)) as [[len m]|] eqn:Hl; [|done].
  cbn [mbind option_bind]. apply get_varint_lt in Hl; [|by apply bytes_ok_drop].
  rewrite u64_small by lia. unfold checked_sub.
  case_decide; cbn [mbind option_bind]; [|done].
  case_decide; cbn [mbind option_bind]; [|done].
  cbn [ranges_below]. repeat split; [lia..|]. apply IH. lia.
Qed.

Lemma ack_ranges_collect_fuel fuel fuel' largest first raw pos nl :
  bytes_ok raw → (length raw - pos ≤ fuel)%nat → (fuel ≤ fuel')%nat →
  ack_ranges_collect fuel' (mkAckRanges largest first raw pos true nl) =
  ack_ranges_collect fuel (mkAckRanges largest first raw pos true nl).
Proof.
  intros Hok. revert fuel' pos nl. induction fuel as [|fuel IH]; intros fuel' pos nl Hf Hle.
  { destruct fuel'; [done|]. cbn [ack_ranges_collect ack_ranges_next negb].
    destruct (Nat.leb_spec (length raw) pos); [done|lia]. }
  destruct fuel' as [|fuel']; [lia|]. cbn [ack_ranges_collect ack_ranges_next negb].
  destruct (Nat.leb_spec (length raw) pos); [done|].
  destruct (get_varint (drop pos raw)) as [[gap n]|] eqn:Hg; cbn [mbind option_bind]; [|done].
  apply get_varint_bounds in Hg as (Hn & _); [|by apply bytes_ok_drop].
  destruct (get_varint (drop (pos + n) raw)) as [[len m]|]; cbn [mbind option_bind]; [|done].
  destruct (checked_sub nl _); cbn [mbind option_bind]; [|done].
  destruct (checked_sub _ len); cbn [mbind option_bind]; [|done].
  f_equal. apply IH; lia.
Qed.

(** The ranges an ACK frame is taken to acknowledge are always a proper
    descending list — every range is non-empty, non-negative, at most the
    frame's largest packet number, and separated from the next by a gap — for
    every byte string a peer can put in the frame; the walk ends within the
    bytes there are; and for a frame the encoder wrote it is the list that was
    encoded. *)
Theorem ack_ranges_sound largest first raw extra :
  bytes_ok raw → 0 ≤ largest → 0 ≤ first →
  ranges_below (largest + 2) (ack_ranges largest first raw) ∧
  ack_ranges_collect (S (length raw) + extra) (ack_ranges_new largest first raw)
    = ack_ranges largest first raw ∧
  (∀ smallest rest, raw = put_ack_tail smallest rest → first = largest - smallest →
     ack_ranges_ok ((smallest, largest) :: rest) →
     ack_ranges largest first raw = (smallest, largest) :: rest).
Proof.
  intros Hok Hl Hf. split; [|split].
  - unfold ack_ranges, ack_ranges_new. cbn [ack_ranges_collect ack_ranges_next negb].
    unfold checked_sub. case_decide; cbn [mbind option_bind]; [|done].
    cbn [ranges_below]. repeat split; [lia..|]. by apply ack_ranges_collect_sound; [|lia].
  - unfold ack_ranges, ack_ranges_new. cbn [Nat.add ack_ranges_collect ack_ranges_next negb].
    destruct (checked_sub largest first); cbn [mbind option_bind]; [|done]. f_equal.
    apply ack_ranges_collect_fuel; [done|lia|lia].
  - intros s rest -> -> Hr. by apply ack_ranges_put_ack.
Qed.

Lemma ack_ranges_sound_witness :
  put_ack [(90, 100); (80, 85); (3, 3)] 7 = Ok ([2; 0x40; 100; 7; 2; 10] ++ [3; 5; 0x40; 75; 0]) ∧
  ack_ranges 100 10 [3; 5; 0x40; 75; 0] = [(90, 100); (80, 85); (3, 3)].
Proof.
  split; [vm_compute; reflexivity|].
  apply (ack_ranges_sound 100 10 [3; 5; 0x40; 75; 0] 0).
  1: repeat constructor; cbv; done.
  1,2: lia.
  - vm_compute. reflexivity.
  - reflexivity.
  - cbv. repeat split; done.
Defined.
End frame.
