(* ===== verification/QuicAck.v ===== *)
(** * What to acknowledge — [src/quic/ack.rs] ([AckState])

    Received packet numbers as ranges, largest first, at most [MAX_RANGES] of
    them.  Instants are nanoseconds. *)

From S2P Require Import Prelude Ranges Varint QuicFrame.

Module ack.

Record AckState := mkAckState {
  ranges : list range;
  ack_eliciting_pending : bool;
  largest_received_at : option Z;
}.

(** [AckState::default()] *)
Definition default : AckState := mkAckState [] false None.

Definition MAX_RANGES : nat := 32.

(** The [for i in 0..self.ranges.len()] loop of [AckState::insert]; [left] is
    how many iterations remain. *)
Fixpoint insert_loop (left i : nat) (ranges : list range) (pn : Z) : list range :=
  match left with
  | O =>
      if (length ranges <? MAX_RANGES)%nat then ranges ++ [(pn, pn)] else ranges
  | S left' =>
      match ranges !! i with
      | None => ranges
      | Some (smallest, largest) =>
          if (smallest <=? pn) && (pn <=? largest) then ranges
          else if pn =? u64 (largest + 1) then
            let ranges := <[i := (smallest, pn)]> ranges in
            match i with
            | O => ranges
            | S j =>
                match ranges !! j with
                | Some (s0, e0) =>
                    if s0 =? u64 (pn + 1) then delete j (<[i := (smallest, e0)]> ranges)
                    else ranges
                | None => ranges
                end
            end
          else if (0 <? smallest) && (pn =? smallest - 1) then
            let ranges := <[i := (pn, largest)]> ranges in
            match ranges !! S i with
            | Some (s1, e1) =>
                if u64 (e1 + 1) =? pn then delete (S i) (<[i := (s1, largest)]> ranges)
                else ranges
            | None => ranges
            end
          else if largest <? pn then
            let ranges := if (length ranges =? MAX_RANGES)%nat then vec_pop ranges else ranges in
            vec_insert i (pn, pn) ranges
          else insert_loop left' (S i) ranges pn
      end
  end.

(** [AckState::insert] *)
Definition insert (ranges : list range) (pn : Z) : list range :=
  insert_loop (length ranges) 0 ranges pn.

(** [AckState::record] *)
Definition record (st : AckState) (pn : Z) (ack_eliciting : bool) (now : Z) : AckState :=
  let pending := if ack_eliciting then true else ack_eliciting_pending st in
  let at' :=
    match ranges st with
    | [] => Some now
    | (_, largest) :: _ => if largest <? pn then Some now else largest_received_at st
    end in
  mkAckState (insert (ranges st) pn) pending at'.

(** [AckState::delay]: microseconds since the largest arrived, scaled. *)
Definition delay (st : AckState) (now exponent : Z) : Z :=
  match largest_received_at st with
  | None => 0
  | Some at' => Z.shiftr (u64 (Z.max 0 (now - at') / 1000)) exponent
  end.

(** [AckState::trim_below] *)
Definition trim_below (st : AckState) (largest_acked_by_peer : Z) : AckState :=
  mkAckState (base.filter (λ r : range, largest_acked_by_peer < snd r) (ranges st))
             (ack_eliciting_pending st) (largest_received_at st).

(** [AckState::take_pending] *)
Definition take_pending (st : AckState) : bool * AckState :=
  (ack_eliciting_pending st, mkAckState (ranges st) false (largest_received_at st)).

(** ** The loop, one range at a time

    Walking down the list, [insert] has already established that [pn] is below
    everything in [pre] and does not touch it. *)

Definition pn_ok (pn : Z) : Prop := 0 ≤ pn < 2 ^ 62.

(** What one call does to the list, on the ranges still to visit. *)
Inductive inserted (pn : Z) : nat → list range → list range → Prop :=
| ins_present n s e l : s ≤ pn ≤ e → inserted pn n ((s, e) :: l) ((s, e) :: l)
| ins_extend_up n s e l : pn = e + 1 → inserted pn n ((s, e) :: l) ((s, pn) :: l)
| ins_extend_down n s e l :
    pn = s - 1 → (∀ s1 e1 l', l = (s1, e1) :: l' → e1 + 1 ≠ pn) →
    inserted pn n ((s, e) :: l) ((pn, e) :: l)
| ins_bridge n s e s1 e1 l :
    pn = s - 1 → e1 + 1 = pn → inserted pn n ((s, e) :: (s1, e1) :: l) ((s1, e) :: l)
| ins_new n s e l :
    e + 1 < pn → (n + length ((s, e) :: l) ≠ MAX_RANGES)%nat →
    inserted pn n ((s, e) :: l) ((pn, pn) :: (s, e) :: l)
| ins_new_full n s e l :
    e + 1 < pn → (n + length ((s, e) :: l) = MAX_RANGES)%nat →
    inserted pn n ((s, e) :: l) ((pn, pn) :: vec_pop ((s, e) :: l))
| ins_below n s e l l' :
    pn + 1 < s → inserted pn (S n) l l' → inserted pn n ((s, e) :: l) ((s, e) :: l')
| ins_end n : (n < MAX_RANGES)%nat → inserted pn n [] [(pn, pn)]
| ins_end_full n : (MAX_RANGES ≤ n)%nat → inserted pn n [] [].

Lemma insert_loop_inserted pre suf pn hi :
  pn_ok pn → ranges_below hi (pre ++ suf) → hi ≤ 2 ^ 62 + 1 → pn + 1 < floor_of (2 ^ 63) pre →
  ∃ suf', insert_loop (length suf) (length pre) (pre ++ suf) pn = pre ++ suf' ∧
          inserted pn (length pre) suf suf'.
Proof.
  intros Hpn. unfold pn_ok in Hpn. revert pre. induction suf as [|[s e] suf IH]; intros pre Hb Hhi Hfl.
  - cbn [insert_loop length]. rewrite app_nil_r.
    destruct (Nat.ltb_spec (length pre) MAX_RANGES).
    + eexists. split; [done|]. by constructor.
    + exists []. split; [by rewrite app_nil_r|]. by constructor.
  - cbn [insert_loop length]. rewrite list_lookup_middle by done.
    pose proof Hb as Hb'. apply ranges_below_app in Hb' as [Hpre (?&?&He&Hsuf)].
    pose proof (floor_of_le _ _ Hpre).
    rewrite !u64_small by lia.
    destruct (Z.leb_spec s pn), (Z.leb_spec pn e); cbn [andb]; [| | |lia].
    { eexists. split; [done|]. by constructor. }
    + destruct (Z.eqb_spec pn (e + 1)) as [Hup|]; [|destruct (Z.eqb_spec pn (s - 1)); [lia|]].
      * (* extend upwards; the range above cannot touch *)
        rewrite insert_app_r_alt, Nat.sub_diag by lia. cbn.
        eexists. split; [|by apply ins_extend_up].
        destruct pre as [|[s0 e0] pre _] using rev_ind; [done|].
        rewrite floor_of_snoc in Hfl. cbn in Hfl.
        rewrite length_app, Nat.add_1_r, <- app_assoc. cbn [app length].
        rewrite list_lookup_middle by done.
        by destruct (Z.eqb_spec s0 (pn + 1)); [lia|].
      * (* a new range above this one *)
        rewrite andb_false_r. destruct (Z.ltb_spec e pn); [|lia].
        destruct (Nat.eqb_spec (length (pre ++ (s, e) :: suf)) MAX_RANGES) as [Hfull|Hfull];
          rewrite length_app in Hfull.
        -- rewrite vec_pop_app by done. unfold vec_insert.
           rewrite take_app_length, drop_app_length.
           eexists. split; [done|]. apply ins_new_full; [lia|done].
        -- unfold vec_insert. rewrite take_app_length, drop_app_length.
           eexists. split; [done|]. apply ins_new; [lia|done].
    + destruct (Z.eqb_spec pn (e + 1)); [lia|].
      destruct (Z.ltb_spec 0 s); [cbn [andb]|lia].
      destruct (Z.eqb_spec pn (s - 1)) as [Hdown|].
      * rewrite insert_app_r_alt, Nat.sub_diag by lia. cbn.
        rewrite lookup_app_r by lia. replace (S (length pre) - length pre)%nat with 1%nat by lia.
        destruct suf as [|[s1 e1] suf]; cbn.
        { eexists. split; [done|]. by apply ins_extend_down. }
        cbn in Hsuf. rewrite u64_small by lia. destruct (Z.eqb_spec (e1 + 1) pn).
        -- rewrite insert_app_r_alt, Nat.sub_diag by lia. cbn.
           eexists. split; [|by apply ins_bridge].
           rewrite delete_take_drop. rewrite take_app_ge, drop_app_ge by lia.
           replace (S (length pre) - length pre)%nat with 1%nat by lia.
           replace (S (S (length pre)) - length pre)%nat with 2%nat by lia. cbn.
           by rewrite <- app_assoc.
        -- eexists. split; [done|]. apply ins_extend_down; [done|]. naive_solver.
      * destruct (Z.ltb_spec e pn); [lia|].
        destruct (IH (pre ++ [(s, e)])) as (suf' & Heq & Hins).
        { by rewrite <- app_assoc. }
        { done. }
        { rewrite floor_of_snoc. cbn. lia. }
        rewrite length_app, Nat.add_1_r, <- app_assoc in *. cbn [app] in *.
        exists ((s, e) :: suf'). rewrite Heq. split; [by rewrite <- app_assoc|].
        apply ins_below; [lia|done].
Qed.

Lemma inserted_below pn n l l' hi :
  inserted pn n l l' → 0 ≤ pn → pn + 1 < hi → ranges_below hi l → ranges_below hi l'.
Proof.
  intros Hins H0. revert hi. induction Hins; intros hi Hhi Hb;
    cbn [ranges_below] in *; intuition (try lia).
  - destruct l as [|[s1 e1] l]; [done|]. cbn in *.
    assert (e1 + 1 ≠ pn) by (intros ?; by eapply H1). intuition lia.
  - apply ranges_below_take. cbn [ranges_below]. intuition lia.
  - apply IHHins; [lia|done].
Qed.

(** Nothing is acknowledged that did not arrive. *)
Lemma inserted_sound pn n l l' x :
  inserted pn n l l' → in_ranges x l' → x = pn ∨ in_ranges x l.
Proof.
  intros Hins. induction Hins; rewrite ?in_ranges_cons; unfold in_range; cbn [fst snd];
    try (intuition lia).
  intros [?|H1%in_ranges_take]; [left; lia|]. rewrite in_ranges_cons in H1. auto.
Qed.

(** Below the bound nothing that arrived is forgotten. *)
Lemma inserted_complete pn n l l' x hi :
  inserted pn n l l' → ranges_below hi l → (n + length l < MAX_RANGES)%nat →
  x = pn ∨ in_ranges x l → in_ranges x l'.
Proof.
  intros Hins. revert hi. induction Hins; intros hi Hb; cbn [length ranges_below] in *;
    rewrite ?in_ranges_cons;
    unfold in_range; cbn [fst snd]; intros Hlen Hx; try (intuition lia).
  destruct Hx as [->|[?|Hx]]; [|by left|]; right; eapply IHHins; intuition eauto; lia.
Qed.

(** At the bound only numbers older than everything kept are forgotten. *)
Lemma inserted_newest pn n l l' x hi :
  inserted pn n l l' → ranges_below hi l → x = pn ∨ in_ranges x l → ¬ in_ranges x l' →
  ∀ y, in_ranges y l' → x < y.
Proof.
  intros Hins. revert hi. induction Hins; intros hi Hb Hx Hnx y;
    rewrite ?in_ranges_cons in *; unfold in_range in *; cbn [fst snd ranges_below] in *.
  1-5: exfalso; intuition lia.
  - (* the oldest range made room *)
    destruct Hb as (?&?&?&Hb).
    assert (in_ranges x ((s, e) :: l)) as Hxin.
    { rewrite in_ranges_cons. unfold in_range. cbn. intuition lia. }
    set (k := (s, e) :: l) in *.
    assert (ranges_below (e + 2) k) as Hk by (cbn; intuition lia).
    unfold vec_pop in *. pose proof Hxin as Hxin'.
    rewrite <- (take_drop (length k - 1) k) in Hk, Hxin.
    apply in_ranges_app in Hxin as [Hxin|Hxin]; [tauto|].
    apply ranges_below_app in Hk as [Hk1 Hk2].
    pose proof (ranges_below_in _ _ _ Hk2 Hxin).
    intros [Hy|Hy].
    + apply (ranges_below_in (e + 2)) in Hxin'; [lia|]. cbn. intuition lia.
    + pose proof (ranges_above_floor _ _ _ Hk1 Hy). lia.
  - destruct Hb as (?&?&?&Hb). destruct Hx as [->|[?|Hx]]; [|tauto|].
    + intros [?|Hy]; [lia|]. eapply IHHins; eauto.
    + pose proof (ranges_below_in _ _ _ Hb Hx). intros [?|Hy]; [lia|]. eapply IHHins; eauto.
  - exfalso. destruct Hx as [->|Hx]; [apply Hnx; left; lia|by apply in_ranges_nil in Hx].
  - intros Hy. by apply in_ranges_nil in Hy.
Qed.

Lemma inserted_length pn n l l' :
  inserted pn n l l' → (n + length l ≤ MAX_RANGES)%nat → (n + length l' ≤ MAX_RANGES)%nat.
Proof.
  intros Hins. induction Hins; cbn [length] in *; try lia.
  unfold vec_pop. rewrite length_take. cbn [length]. lia.
Qed.

Lemma insert_inserted l pn :
  pn_ok pn → frame.ack_ranges_ok l → inserted pn 0 l (insert l pn).
Proof.
  intros Hpn Hl. destruct (insert_loop_inserted [] l pn (2 ^ 62 + 1)) as (l' & Heq & Hins);
    [done|done|lia|unfold pn_ok in Hpn; cbn; lia|].
  unfold insert. cbn [app length] in Heq. by rewrite Heq.
Qed.

(** ** Any sequence of operations *)

Inductive op : Type :=
| Record_ (pn : Z) (ack_eliciting : bool) (now : Z)
| Trim (largest_acked_by_peer : Z)
| Take.

Definition step (st : AckState) (o : op) : AckState :=
  match o with
  | Record_ pn ack_eliciting now => record st pn ack_eliciting now
  | Trim largest => trim_below st largest
  | Take => snd (take_pending st)
  end.
Definition run (st : AckState) (ops : list op) : AckState := foldl step st ops.

Definition op_ok (o : op) : Prop :=
  match o with Record_ pn _ _ => pn_ok pn | _ => True end.
#[global] Instance op_ok_dec o : Decision (op_ok o).
Proof. destruct o; unfold op_ok, pn_ok; apply _. Defined.

(** The packet numbers a sequence of operations reports. *)
Definition recorded (ops : list op) : list Z :=
  omap (λ o, match o with Record_ pn _ _ => Some pn | _ => None end) ops.

Lemma ranges_below_filter hi l (P : range → Prop) `{∀ r, Decision (P r)} :
  ranges_below hi l → ranges_below hi (base.filter P l).
Proof.
  revert hi. induction l as [|[s e] l IH]; intros hi Hl; [done|].
  destruct Hl as (?&?&?&Hl). rewrite filter_cons. case_decide.
  - cbn. auto.
  - apply IH. eapply ranges_below_mono; [|done]. lia.
Qed.
Lemma in_ranges_filter x l (P : range → Prop) `{∀ r, Decision (P r)} :
  in_ranges x (base.filter P l) → in_ranges x l.
Proof.
  unfold in_ranges. rewrite !Exists_exists.
  intros (r & [_ Hr]%list_elem_of_filter & Hx). eauto.
Qed.

Definition ack_inv (st : AckState) : Prop :=
  frame.ack_ranges_ok (ranges st) ∧ (length (ranges st) ≤ MAX_RANGES)%nat.

#[global] Instance ack_inv_dec st : Decision (ack_inv st).
Proof. unfold ack_inv, frame.ack_ranges_ok. apply _. Defined.

Lemma step_inv st o : op_ok o → ack_inv st → ack_inv (step st o).
Proof.
  intros Ho [Hr Hlen]. destruct o as [pn el now|la|]; cbn in *; [| |done].
  - pose proof (insert_inserted _ _ Ho Hr) as Hins. unfold pn_ok in Ho. split.
    + by eapply (inserted_below pn 0 (ranges st)); [|lia..|].
    + by apply (inserted_length _ _ _ _ Hins).
  - split; cbn.
    + by apply ranges_below_filter.
    + etrans; [apply length_filter|done].
Qed.

Lemma step_sound st o x :
  op_ok o → ack_inv st → in_ranges x (ranges (step st o)) →
  in_ranges x (ranges st) ∨ ∃ b now, o = Record_ x b now.
Proof.
  intros Ho [Hr Hlen]. destruct o as [pn el now|la|]; cbn in *; [| |by auto].
  - intros [->|Hx]%(inserted_sound _ _ _ _ _ (insert_inserted _ _ Ho Hr)); eauto.
  - intros ?%in_ranges_filter. auto.
Qed.

Lemma run_facts ops : Forall op_ok ops →
  ack_inv (run default ops) ∧
  (∀ x, in_ranges x (ranges (run default ops)) → x ∈ recorded ops).
Proof.
  unfold run. induction ops as [|o ops IH] using rev_ind.
  - intros _. split; [split; cbn; [done|unfold MAX_RANGES; lia]|].
    intros x Hx. by apply in_ranges_nil in Hx.
  - intros [Hops [Ho _]%Forall_cons]%Forall_app. destruct (IH Hops) as [Hinv Hsound].
    rewrite foldl_snoc. split; [by apply step_inv|].
    intros x Hx. unfold recorded. rewrite omap_app.
    apply elem_of_app. apply step_sound in Hx as [Hx|(b & now & ->)]; [| |done..].
    + left. by apply Hsound.
    + right. cbn. by apply list_elem_of_singleton.
Qed.

(** However packets arrive, are acknowledged and trimmed, the state keeps
    at most 32 descending, non-touching ranges, and every number in them is one
    that was recorded: nothing is ever acknowledged that did not arrive. *)
Theorem ack_state_sound (ops : list op) (Hops : Forall op_ok ops) :
  frame.ack_ranges_ok (ranges (run default ops)) ∧
  (length (ranges (run default ops)) ≤ MAX_RANGES)%nat ∧
  (∀ x, in_ranges x (ranges (run default ops)) → x ∈ recorded ops).
Proof. by destruct (run_facts ops Hops) as [[? ?] ?]. Qed.

Lemma ack_state_sound_witness :
  let ops := [Record_ 5 true 10; Record_ 7 false 20; Record_ 6 true 30; Trim 3; Take] in
  ranges (run default ops) = [(5, 7)] ∧
  frame.ack_ranges_ok (ranges (run default ops)) ∧
  (length (ranges (run default ops)) ≤ MAX_RANGES)%nat ∧
  (∀ x, in_ranges x (ranges (run default ops)) → x ∈ recorded ops).
Proof.
  split; [reflexivity|].
  apply (ack_state_sound [Record_ 5 true 10; Record_ 7 false 20; Record_ 6 true 30; Trim 3; Take]).
  by_decide.
Defined.

(** Recording a packet forgets nothing while fewer than 32 ranges are
    held; at the bound, whatever is no longer covered afterwards is older than
    every number still covered. *)
Theorem record_keeps_newest (st : AckState) (pn : Z) (b : bool) (now x : Z)
    (Hpn : pn_ok pn) (Hst : ack_inv st)
    (Hx : x = pn ∨ in_ranges x (ranges st)) :
  let st' := record st pn b now in
  ((length (ranges st) < MAX_RANGES)%nat → in_ranges x (ranges st')) ∧
  (in_ranges x (ranges st') ∨ ∀ y, in_ranges y (ranges st') → x < y).
Proof.
  destruct Hst as [Hr Hlen]. cbn. pose proof (insert_inserted _ _ Hpn Hr) as Hins. split.
  - intros. by eapply inserted_complete.
  - destruct (decide (in_ranges x (insert (ranges st) pn))); [by left|right].
    intros y Hy. eapply inserted_newest; eauto.
Qed.

Lemma record_keeps_newest_witness :
  let st := mkAckState [(8, 9); (2, 3)] false None in
  let st' := record st 5 true 7 in
  ranges st' = [(8, 9); (5, 5); (2, 3)] ∧
  ((length (ranges st) < MAX_RANGES)%nat → in_ranges 2 (ranges st')) ∧
  (in_ranges 2 (ranges st') ∨ ∀ y, in_ranges y (ranges st') → 2 < y).
Proof.
  split; [reflexivity|].
  apply (record_keeps_newest (mkAckState [(8, 9); (2, 3)] false None) 5 true 7 2);
    by_decide.
Defined.

(** A reported delay scaled by at least two bits always fits a varint. *)
Lemma delay_varint_ok st now exponent : 2 ≤ exponent → frame.varint_ok (delay st now exponent).
Proof.
  intros He. unfold delay, frame.varint_ok. destruct (largest_received_at st) as [t|]; [|lia].
  pose proof (u64_range (Z.max 0 (now - t) / 1000)) as [H0 H1].
  rewrite shiftr_div by lia. split; [apply Z.div_pos; lia|].
  apply Z.div_lt_upper_bound; [lia|].
  assert (2 ^ 2 ≤ 2 ^ exponent) by (apply Z.pow_le_mono_r; lia). lia.
Qed.

(** The ACK frame written from any reachable, non-empty state, with the
    delay the state reports, reads back through the frame iterator and the range
    iterator as exactly that delay and the ranges the state holds. *)
Theorem ack_frame_of_state (ops : list op) (now exponent : Z)
    (Hops : Forall op_ok ops) (Hexp : 2 ≤ exponent)
    (Hne : ranges (run default ops) ≠ []) :
  let st := run default ops in
  ∃ b largest first raw count,
    frame.put_ack (ranges st) (delay st now exponent) = Ok b ∧
    frame.frames b = [Ok (frame.Ack largest (delay st now exponent) first raw count)] ∧
    frame.ack_ranges largest first raw = ranges st.
Proof.
  intros st. destruct (run_facts ops Hops) as [[Hok Hlen] _]. fold st in Hne, Hok, Hlen.
  pose proof (delay_varint_ok st now exponent Hexp) as Hd.
  destruct (ranges st) as [|[s e] rest] eqn:Heq; [done|].
  eexists _, e, (e - s), (frame.put_ack_tail s rest), (zlen rest). split; [reflexivity|].
  split; [|by apply frame.ack_ranges_put_ack].
  match goal with |- frame.frames ?b = _ => rewrite <- (app_nil_r b) end.
  apply (frame.frames_encodes [_] [_]). constructor; [|done].
  econstructor; [done|done| |reflexivity].
  unfold MAX_RANGES in Hlen. unfold frame.varint_ok. llia.
Qed.

Lemma ack_frame_of_state_witness :
  let st := run default [Record_ 5 true 10; Record_ 9 false 20] in
  ∃ b largest first raw count,
    frame.put_ack (ranges st) (delay st 90020 3) = Ok b ∧
    frame.frames b = [Ok (frame.Ack largest (delay st 90020 3) first raw count)] ∧
    frame.ack_ranges largest first raw = ranges st.
Proof.
  apply (ack_frame_of_state [Record_ 5 true 10; Record_ 9 false 20] 90020 3).
  - by_decide.
  - lia.
  - done.
Defined.
End ack.
