(* ===== verification/QuicReceived.v ===== *)
(** * Duplicate suppression — [src/quic/received.rs] ([ReceivedPackets]) *)

From S2P Require Import Prelude Ranges.

Module received.

Record ReceivedPackets := mkReceivedPackets {
  ranges : list range;
  minimum : Z;
}.

(** [ReceivedPackets::default()] *)
Definition default : ReceivedPackets := mkReceivedPackets [] 0.

Definition MAX_RANGES : nat := 256.

(** The [match (above, below)] of [ReceivedPackets::insert]. *)
Definition insert_at (st : ReceivedPackets) (pn : Z) (at' : nat) (above below : bool)
    : bool * ReceivedPackets :=
  let rs := ranges st in
  match above, below with
  | true, true =>
      match rs !! (at' - 1)%nat, rs !! at' with
      | Some (_, e0), Some (s1, _) =>
          (true, mkReceivedPackets (delete at' (<[(at' - 1)%nat := (s1, e0)]> rs)) (minimum st))
      | _, _ => (true, st)
      end
  | true, false =>
      match rs !! (at' - 1)%nat with
      | Some (_, e0) => (true, mkReceivedPackets (<[(at' - 1)%nat := (pn, e0)]> rs) (minimum st))
      | None => (true, st)
      end
  | false, true =>
      match rs !! at' with
      | Some (s1, _) => (true, mkReceivedPackets (<[at' := (s1, pn)]> rs) (minimum st))
      | None => (true, st)
      end
  | false, false =>
      if (length rs =? MAX_RANGES)%nat then
        if (at' =? MAX_RANGES)%nat then (false, mkReceivedPackets rs (u64 (pn + 1)))
        else
          let min' := match last rs with Some (_, e) => u64 (e + 1) | None => minimum st end in
          (true, mkReceivedPackets (vec_insert at' (pn, pn) (vec_pop rs)) min')
      else (true, mkReceivedPackets (vec_insert at' (pn, pn) rs) (minimum st))
  end.

(** [ReceivedPackets::insert] *)
Definition insert (st : ReceivedPackets) (pn : Z) : bool * ReceivedPackets :=
  if pn <? minimum st then (false, st)
  else
    let at' := partition_point (λ r : range, pn <? fst r) (ranges st) in
    if match ranges st !! at' with Some r => pn <=? snd r | None => false end
    then (false, st)
    else
      let above :=
        (0 <? at')%nat &&
        match ranges st !! (at' - 1)%nat with
        | Some r => bool_decide (checked_sub (fst r) 1 = Some pn)
        | None => false
        end in
      let below :=
        match ranges st !! at' with
        | Some r => bool_decide (checked_add (snd r) 1 = Some pn)
        | None => false
        end in
      insert_at st pn at' above below.

(** ** The set of numbers that will not be accepted again *)

Definition seen (st : ReceivedPackets) (x : Z) : Prop := x < minimum st ∨ in_ranges x (ranges st).
#[global] Instance seen_dec st x : Decision (seen st x).
Proof. unfold seen. apply _. Defined.

Definition pn_ok (pn : Z) : Prop := 0 ≤ pn < 2 ^ 62.
#[global] Instance pn_ok_dec pn : Decision (pn_ok pn).
Proof. unfold pn_ok. apply _. Defined.

Definition inv (st : ReceivedPackets) : Prop :=
  ranges_below (2 ^ 62 + 1) (ranges st) ∧ (length (ranges st) ≤ MAX_RANGES)%nat ∧
  0 ≤ minimum st ∧ Forall (λ r, minimum st ≤ fst r) (ranges st).

(** Where [partition_point] splits the ranges. *)
Lemma partition_split hi l pn :
  ranges_below hi l →
  ∃ pre suf, l = pre ++ suf ∧ partition_point (λ r : range, pn <? fst r) l = length pre ∧
    pn < floor_of (Z.max hi (pn + 1)) pre ∧
    match suf with [] => True | (s, _) :: _ => s ≤ pn end.
Proof.
  revert hi. induction l as [|[s e] l IH]; intros hi Hl.
  - exists [], []. cbn. repeat split; lia.
  - cbn [partition_point fst]. destruct Hl as (?&?&?&Hl). destruct (Z.ltb_spec pn s).
    + destruct (IH s Hl) as (pre & suf & -> & Hp & Hf & Hs).
      exists ((s, e) :: pre), suf. rewrite floor_of_cons. cbn [fst length].
      replace (Z.max s (pn + 1)) with s in Hf by lia. repeat split; try done. by rewrite Hp.
    + exists [], ((s, e) :: l). cbn. repeat split; lia.
Qed.

(** What [insert] does to the list around the split point. *)
Inductive inserted (st : ReceivedPackets) (pn : Z) : bool → ReceivedPackets → Prop :=
| ins_dup : seen st pn → inserted st pn false st
| ins_bridge pre s0 e0 s1 e1 suf :
    ranges st = pre ++ (s0, e0) :: (s1, e1) :: suf → s0 = pn + 1 → e1 + 1 = pn →
    inserted st pn true (mkReceivedPackets (pre ++ (s1, e0) :: suf) (minimum st))
| ins_down pre s0 e0 suf :
    ranges st = pre ++ (s0, e0) :: suf → s0 = pn + 1 →
    match suf with [] => True | (_, e1) :: _ => e1 + 1 < pn end →
    inserted st pn true (mkReceivedPackets (pre ++ (pn, e0) :: suf) (minimum st))
| ins_up pre s1 e1 suf :
    ranges st = pre ++ (s1, e1) :: suf → e1 + 1 = pn → pn + 1 < floor_of (2 ^ 62 + 1) pre →
    inserted st pn true (mkReceivedPackets (pre ++ (s1, pn) :: suf) (minimum st))
| ins_new pre suf :
    ranges st = pre ++ suf → (length (ranges st) < MAX_RANGES)%nat →
    pn + 1 < floor_of (2 ^ 62 + 1) pre → match suf with [] => True | (_, e1) :: _ => e1 + 1 < pn end →
    inserted st pn true (mkReceivedPackets (pre ++ (pn, pn) :: suf) (minimum st))
| ins_evict pre suf s e :
    ranges st = pre ++ suf ++ [(s, e)] → length (ranges st) = MAX_RANGES →
    pn + 1 < floor_of (2 ^ 62 + 1) pre →
    match suf ++ [(s, e)] with [] => True | (_, e1) :: _ => e1 + 1 < pn end →
    inserted st pn true (mkReceivedPackets (pre ++ (pn, pn) :: suf) (e + 1))
| ins_too_old :
    length (ranges st) = MAX_RANGES → pn + 1 < floor_of (2 ^ 62 + 1) (ranges st) → minimum st ≤ pn →
    inserted st pn false (mkReceivedPackets (ranges st) (pn + 1)).

Lemma insert_above st pre s0 e0 suf pn :
  ranges st = (pre ++ [(s0, e0)]) ++ suf → ranges_below (2 ^ 62 + 1) (ranges st) →
  pn = s0 - 1 → match suf with [] => True | (_, e1) :: _ => e1 < pn end →
  inserted st pn
    (fst (insert_at st pn (length (pre ++ [(s0, e0)])) true
            match suf with [] => false | (_, e1) :: _ => bool_decide (e1 + 1 = pn) end))
    (snd (insert_at st pn (length (pre ++ [(s0, e0)])) true
            match suf with [] => false | (_, e1) :: _ => bool_decide (e1 + 1 = pn) end)).
Proof.
  intros Hr Hb -> Hs. unfold insert_at. rewrite Hr in *.
  rewrite lookup_at_length, length_app, Nat.add_sub, <- app_assoc. cbn [app length].
  rewrite list_lookup_middle by done. rewrite <- app_assoc in Hr. cbn [app] in Hr.
  destruct suf as [|[s1 e1] suf]; [|case_bool_decide]; cbn [head fst snd].
  - rewrite insert_middle. apply ins_down with s0; [done|lia|done].
  - rewrite insert_middle. rewrite Nat.add_1_r.
    rewrite (delete_take_drop _ (S (length pre))).
    rewrite take_app_ge, drop_app_ge by lia.
    replace (S (length pre) - length pre)%nat with 1%nat by lia.
    replace (S (S (length pre)) - length pre)%nat with 2%nat by lia. cbn [take drop].
    rewrite <- app_assoc. apply ins_bridge with s0 e1; [done|lia|done].
  - rewrite insert_middle. apply ins_down with s0; [done|lia|lia].
Qed.

Lemma insert_not_above st pre suf pn :
  ranges st = pre ++ suf → inv st → pn_ok pn → minimum st ≤ pn →
  pn + 1 < floor_of (2 ^ 62 + 1) pre → match suf with [] => True | (_, e1) :: _ => e1 < pn end →
  inserted st pn
    (fst (insert_at st pn (length pre) false
            match suf with [] => false | (_, e1) :: _ => bool_decide (e1 + 1 = pn) end))
    (snd (insert_at st pn (length pre) false
            match suf with [] => false | (_, e1) :: _ => bool_decide (e1 + 1 = pn) end)).
Proof.
  intros Hr (Hb & Hlen & Hm & Hmin) Hpn Hmpn Hfl Hs. unfold pn_ok in Hpn.
  unfold insert_at. rewrite Hr, lookup_at_length.
  destruct suf as [|[s1 e1] suf]; [|case_bool_decide]; cbn [head].
  - rewrite app_nil_r in *. destruct (Nat.eqb_spec (length pre) MAX_RANGES) as [Hf|Hf]; cbn [fst snd].
    + rewrite u64_small by lia. rewrite <- Hr. apply ins_too_old; rewrite ?Hr; done.
    + rewrite <- (app_nil_r pre) at 2. rewrite vec_insert_app.
      apply ins_new; rewrite ?app_nil_r; [done|rewrite Hr in *; lia|done|done].
  - rewrite insert_middle. cbn [fst snd]. by apply ins_up with e1.
  - destruct (Nat.eqb_spec (length (pre ++ (s1, e1) :: suf)) MAX_RANGES) as [Hf|Hf]; cbn [fst snd].
    + destruct (Nat.eqb_spec (length pre) MAX_RANGES); [llia|cbn [fst snd]].
      rewrite vec_pop_app by done. rewrite vec_insert_app, last_app_cons.
      destruct (exists_last (l := (s1, e1) :: suf)) as (suf' & [s e] & Heq); [done|].
      rewrite Heq in *. rewrite last_snoc. cbn [fst snd].
      assert (0 ≤ e ∧ e + 1 < 2 ^ 62 + 1) as [? ?].
      { rewrite Hr, app_assoc in Hb. apply ranges_below_app in Hb as [Hb1 Hb2].
        apply floor_of_le in Hb1. cbn in Hb2. lia. }
      rewrite u64_small by lia. rewrite vec_pop_snoc.
      apply ins_evict with s; [done|by rewrite Hr|done|].
      rewrite <- Heq. lia.
    + rewrite vec_insert_app. cbn [fst snd]. apply ins_new; [done| |done|lia].
      rewrite Hr in *. lia.
Qed.

Lemma received_insert_inserted st pn :
  inv st → pn_ok pn → inserted st pn (fst (insert st pn)) (snd (insert st pn)).
Proof.
  intros Hinv Hpn. pose proof Hinv as (Hb & Hlen & Hm & Hmin). pose proof Hpn as [? ?].
  unfold insert. destruct (Z.ltb_spec pn (minimum st)); [apply ins_dup; by left|].
  destruct (partition_split _ _ pn Hb) as (pre & suf & Hr & -> & Hfl & Hsuf).
  rewrite Z.max_l in Hfl by lia. rewrite Hr. rewrite lookup_at_length.
  destruct (match head suf with Some r => pn <=? snd r | None => false end) eqn:Hin; cbn [fst snd].
  { apply ins_dup. right. rewrite Hr, in_ranges_app. right.
    destruct suf as [|[s e] suf]; [done|]. cbn in Hin. apply Z.leb_le in Hin.
    by apply in_ranges_single. }
  assert (match suf with [] => True | (_, e1) :: _ => e1 < pn end) as Hs.
  { destruct suf as [|[s e] suf]; [done|]. cbn in Hin. by apply Z.leb_gt in Hin. }
  assert (match head suf with
          | Some r => bool_decide (checked_add (snd r) 1 = Some pn)
          | None => false end =
          match suf with [] => false | (_, e1) :: _ => bool_decide (e1 + 1 = pn) end) as ->.
  { destruct suf as [|[s e] suf]; [done|]. cbn. apply bool_decide_ext.
    rewrite Hr in Hb. apply ranges_below_app in Hb as [Hb1 Hb2].
    apply floor_of_le in Hb1. cbn in Hb2. unfold checked_add. case_decide; [naive_solver|lia]. }
  rewrite <- Hr. destruct pre as [|[s0 e0] pre _] using rev_ind.
  - apply insert_not_above; [done|done|done|lia|cbn; lia|done].
  - assert (0 <? length (pre ++ [(s0, e0)]) = true)%nat as -> by (apply Nat.ltb_lt; llia).
    assert (ranges st !! (length (pre ++ [(s0, e0)]) - 1)%nat = Some (s0, e0)) as ->.
    { rewrite Hr, length_app, <- app_assoc. cbn [length app]. rewrite Nat.add_sub.
      by apply list_lookup_middle. }
    rewrite floor_of_snoc in Hfl. cbn [fst andb] in *.
    unfold checked_sub. rewrite decide_True by lia.
    destruct (decide (pn = s0 - 1)) as [Heq|Hne].
    + rewrite bool_decide_true by (by f_equal). by apply insert_above.
    + rewrite bool_decide_false by naive_solver.
      apply insert_not_above; [done|done|done|lia|rewrite floor_of_snoc; cbn; lia|done].
Qed.

Lemma insert_ge st pn : fst (insert st pn) = true → minimum st ≤ pn.
Proof. unfold insert. by destruct (Z.ltb_spec pn (minimum st)). Qed.

(** The range list at a split point. *)
Lemma Forall_ranges_below m hi l : 
  ranges_below hi l → m ≤ floor_of hi l → Forall (λ r : range, m ≤ fst r) l.
Proof.
  revert hi. induction l as [|[s e] l IH]; intros hi Hb Hm; [done|].
  destruct Hb as (?&?&?&Hb). rewrite floor_of_cons in Hm. cbn [fst] in Hm.
  pose proof (floor_of_le _ _ Hb). constructor; [cbn; lia|]. by eapply IH.
Qed.

Lemma inserted_inv st pn b st' :
  inv st → pn_ok pn → (b = true → minimum st ≤ pn) → inserted st pn b st' → inv st'.
Proof.
  intros (Hb & Hlen & Hm & Hmin) Hpn Hge Hins. unfold pn_ok in Hpn.
  destruct Hins as [|? ? ? ? ? ? Hr|? ? ? ? Hr|? ? ? ? Hr|? ? Hr|? ? ? ? Hr|];
    [done|unfold inv; cbn [ranges minimum]; try rewrite Hr in *..].
  1-5: rewrite ?Forall_app, ?Forall_cons, ?ranges_below_app in *;
    cbn [ranges_below fst length] in *; autorewrite with lens in *; cbn [length] in *.
  1: intuition lia.
  1: { repeat split; intuition (try lia). destruct suf as [|[]]; cbn in *; intuition lia. }
  1: intuition lia.
  1: { repeat split; intuition (try lia). destruct suf as [|[]]; cbn in *; intuition lia. }
  - destruct Hb as (Hpre & Hsuf & ? & ? & Hse & _).
    assert (ranges_below pn suf) as Hpn'.
    { destruct suf as [|[]]; [done|]. cbn in *. intuition lia. }
    assert (e + 1 ≤ floor_of pn suf) as Hfl.
    { destruct suf as [|[] ]; [cbn in *; lia|]. rewrite floor_of_cons in *. lia. }
    pose proof (floor_of_le _ _ Hpn'). pose proof (floor_of_le _ _ Hsuf).
    repeat split; try done; try lia.
    + eapply Forall_ranges_below; [done|lia].
    + by eapply Forall_ranges_below.
  - repeat split; [done|lia|lia|]. eapply Forall_ranges_below; [done|lia].
Qed.

(** ** What a call means for the numbers already seen *)

Lemma in_range_lt_floor hi l x y : ranges_below hi l → in_ranges y l → x < floor_of hi l → x < y.
Proof. intros Hb Hy ?. pose proof (ranges_above_floor _ _ _ Hb Hy). lia. Qed.

Lemma inserted_seen st pn b st' x :
  inv st → pn_ok pn → (b = true → minimum st ≤ pn) → inserted st pn b st' →
  seen st x ∨ x = pn → seen st' x.
Proof.
  intros (Hb & Hlen & Hm & Hmin) Hpn Hge Hins.
  destruct Hins as [|? ? ? ? ? ? Hr|? ? ? ? Hr|? ? ? ? Hr|? ? Hr|? ? ? ? Hr|];
    [naive_solver|unfold seen in *; cbn [ranges minimum]; try rewrite Hr in *..];
    rewrite ?in_ranges_app, ?in_ranges_cons, ?ranges_below_app in *;
    unfold in_range; cbn [fst snd ranges_below] in *.
  1-4: intuition lia.
  - destruct Hb as (Hpre & Hsuf & ? & ? & Hse & _).
    apply Forall_app in Hmin as [_ [_ [Hms _]%Forall_cons]%Forall_app]. cbn in Hms.
    intros [[?|[?|[?|[?|Hn]]]]|?]; [left; lia|auto|auto|left; lia|by apply in_ranges_nil in Hn|].
    right. right. left. lia.
  - intuition lia.
Qed.

(** Away from the bound nothing but [pn] becomes seen. *)
Lemma inserted_exact st pn b st' x :
  inv st → pn_ok pn → inserted st pn b st' → minimum st' = minimum st →
  seen st' x → seen st x ∨ x = pn.
Proof.
  intros (Hb & Hlen & Hm & Hmin) Hpn Hins.
  destruct Hins as [|? ? ? ? ? ? Hr|? ? ? ? Hr|? ? ? ? Hr|? ? Hr|? ? ? ? Hr|];
    [naive_solver|unfold seen in *; cbn [ranges minimum]; try rewrite Hr in *..];
    rewrite ?in_ranges_app, ?in_ranges_cons, ?ranges_below_app in *;
    unfold in_range; cbn [fst snd ranges_below] in *.
  all: intros; intuition lia.
Qed.

(** A number strictly between two neighbouring ranges is in neither side. *)
Lemma gap_not_in hi pre suf x :
  ranges_below hi (pre ++ suf) → x < floor_of hi pre →
  match suf with [] => True | (_, e1) :: _ => e1 < x end → ¬ in_ranges x (pre ++ suf).
Proof.
  rewrite ranges_below_app, in_ranges_app. intros [Hpre Hsuf] Hx Hs [Hin|Hin].
  - pose proof (ranges_above_floor _ _ _ Hpre Hin). lia.
  - destruct suf as [|[s1 e1] suf]; [by apply in_ranges_nil in Hin|].
    cbn in Hsuf. destruct Hsuf as (?&?&?&Hsuf).
    apply in_ranges_cons in Hin as [[? ?]|Hin]; cbn in *; [lia|].
    pose proof (ranges_below_in _ _ _ Hsuf Hin). lia.
Qed.

(** A number that is accepted had not been seen. *)
Lemma inserted_fresh st pn st' :
  inv st → minimum st ≤ pn → inserted st pn true st' → ¬ seen st pn.
Proof.
  intros (Hb & Hlen & Hm & Hmin) Hge Hins [?|Hin]; [lia|]. revert Hin.
  inversion Hins as [|pre s0 e0 s1 e1 suf Hr|pre s0 e0 suf Hr|pre s1 e1 suf Hr|
                      pre suf Hr|pre suf s1 e1 Hr|]; subst; rewrite Hr in *.
  - rewrite (cons_middle (_, e0)), app_assoc in Hb |- *. eapply gap_not_in; [done| |lia].
    rewrite floor_of_snoc. cbn. lia.
  - rewrite (cons_middle (_, e0)), app_assoc in Hb |- *. eapply gap_not_in; [done| |].
    + rewrite floor_of_snoc. cbn. lia.
    + destruct suf as [|[]]; [done|lia].
  - eapply gap_not_in; [done|lia|lia].
  - eapply gap_not_in; [done|lia|]. destruct suf as [|[]]; [done|lia].
  - eapply gap_not_in; [done|lia|]. by destruct suf as [|[]]; cbn in *; lia.
Qed.

Lemma inserted_monotone_min st pn b st' :
  inv st → pn_ok pn → (b = true → minimum st ≤ pn) → inserted st pn b st' → minimum st ≤ minimum st'.
Proof.
  intros (Hb & Hlen & Hm & Hmin) Hpn Hge [|? ? ? ? ? ? Hr|? ? ? ? Hr|? ? ? ? Hr|? ? Hr|? ? s e Hr|];
    cbn; try lia.
  rewrite Hr in Hmin, Hb. apply Forall_app in Hmin as [_ [_ [Hms _]%Forall_cons]%Forall_app].
  rewrite !ranges_below_app in Hb. cbn in *. lia.
Qed.

(** ** Any sequence of packets *)

(** The packets accepted, in order, and the final history. *)
Fixpoint run (st : ReceivedPackets) (pns : list Z) : list Z * ReceivedPackets :=
  match pns with
  | [] => ([], st)
  | pn :: pns' =>
      let '(b, st1) := insert st pn in
      let '(acc, st2) := run st1 pns' in
      (if b then pn :: acc else acc, st2)
  end.

Lemma insert_facts st pn : inv st → pn_ok pn →
  let '(b, st') := insert st pn in
  inv st' ∧ minimum st ≤ minimum st' ∧ (b = true → ¬ seen st pn) ∧
  (∀ x, seen st x ∨ x = pn → seen st' x) ∧
  (minimum st' = minimum st → ∀ x, seen st' x → seen st x ∨ x = pn) ∧
  (b = false → minimum st' = minimum st → seen st pn).
Proof.
  intros Hinv Hpn. pose proof (received_insert_inserted _ _ Hinv Hpn) as Hins.
  pose proof (insert_ge st pn) as Hge. destruct (insert st pn) as [b st']. cbn in *.
  split; [by eapply inserted_inv|]. repeat split.
  - by eapply inserted_monotone_min.
  - intros ->. eapply inserted_fresh; eauto.
  - intros x. by eapply inserted_seen.
  - intros ? x. by eapply inserted_exact.
  - intros ->. inversion Hins; subst; cbn; [done|lia].
Qed.

Lemma received_run_facts pns st : inv st → Forall pn_ok pns →
  let '(acc, st') := run st pns in
  inv st' ∧ minimum st ≤ minimum st' ∧ NoDup acc ∧
  (∀ x, x ∈ acc → ¬ seen st x ∧ x ∈ pns) ∧ (∀ x, seen st x ∨ x ∈ pns → seen st' x) ∧
  (minimum st' = minimum st → ∀ x, x ∈ pns → seen st x ∨ x ∈ acc).
Proof.
  revert st. induction pns as [|pn pns IH]; intros st Hinv Hall; cbn [run].
  { split; [done|]. split; [lia|]. split; [constructor|].
    split; [|split; [|intros _]]; intros x; rewrite elem_of_nil; tauto. }
  apply Forall_cons in Hall as [Hpn Hall].
  pose proof (insert_facts st pn Hinv Hpn) as Hf. destruct (insert st pn) as [b st1].
  destruct Hf as (Hinv1 & Hmin & Hfresh & Hseen & Hexact & Hrej).
  specialize (IH st1 Hinv1 Hall). destruct (run st1 pns) as [acc st2].
  destruct IH as (? & ? & Hnd & Hacc & Hall' & Hex). split; [done|]. split; [lia|]. split; [|split; [|split]].
  - destruct b; [|done]. constructor; [|done]. intros [Hns _]%Hacc. apply Hns, Hseen. auto.
  - intros x Hx. assert (x = pn ∧ b = true ∨ x ∈ acc) as [[-> ->]|[Hns ?]%Hacc].
    { destruct b; [|auto]. apply elem_of_cons in Hx. tauto. }
    + split; [by apply Hfresh|]. apply elem_of_cons. auto.
    + split; [|apply elem_of_cons; auto]. intros Hs. apply Hns, Hseen. auto.
  - intros x [Hx|[->|Hx]%elem_of_cons]; apply Hall'; [left|left|right; done]; apply Hseen; auto.
  - intros Heq x [->|Hx]%elem_of_cons.
    + destruct b; [right; apply elem_of_cons; auto|left]. apply Hrej; [done|lia].
    + destruct (Hex ltac:(lia) x Hx) as [Hs|Ha].
      * apply Hexact in Hs as [Hs| ->]; [by left| |lia].
        destruct b; [right; apply elem_of_cons; auto|left]. apply Hrej; [done|lia].
      * right. destruct b; [apply elem_of_cons|]; auto.
Qed.

Lemma inv_default : inv default.
Proof. repeat split; cbn; try done. unfold MAX_RANGES. lia. Qed.

(** No packet number is ever accepted twice, however packets are reordered,
    duplicated and forgotten: what a connection processes from any sequence of
    arrivals has no duplicates and contains only numbers that arrived; the
    history stays within 256 descending, non-touching ranges. *)
Theorem received_at_most_once (pns : list Z) (Hpns : Forall pn_ok pns) :
  let '(acc, st) := run default pns in
  NoDup acc ∧ (∀ x, x ∈ acc → x ∈ pns) ∧
  ranges_below (2 ^ 62 + 1) (ranges st) ∧ (length (ranges st) ≤ MAX_RANGES)%nat.
Proof.
  pose proof (received_run_facts pns default inv_default Hpns) as Hf.
  destruct (run default pns) as [acc st].
  destruct Hf as ((? & ? & ?) & ? & ? & Hacc & _). repeat split; try done.
  intros x Hx. by apply Hacc.
Qed.

Lemma received_at_most_once_witness :
  let '(acc, st) := run default [3; 1; 3; 2; 1; 9] in
  NoDup acc ∧ (∀ x, x ∈ acc → x ∈ [3; 1; 3; 2; 1; 9]) ∧
  ranges_below (2 ^ 62 + 1) (ranges st) ∧ (length (ranges st) ≤ MAX_RANGES)%nat.
Proof. apply (received_at_most_once [3; 1; 3; 2; 1; 9]). by_decide. Defined.

(** While the history has not overflowed (its floor is still zero), every
    number that arrived has been accepted: no new packet is mistaken for a
    duplicate. *)
Theorem received_complete (pns : list Z) (acc : list Z) (st : ReceivedPackets)
    (Hpns : Forall pn_ok pns) (Hrun : run default pns = (acc, st)) (Hmin : minimum st = 0)
    (x : Z) :
  x ∈ acc ↔ x ∈ pns.
Proof.
  pose proof (received_run_facts pns default inv_default Hpns) as Hf. rewrite Hrun in Hf.
  destruct Hf as (_ & _ & _ & Hacc & _ & Hex). split; [intros; by apply Hacc|].
  intros Hx. destruct (Hex Hmin x Hx) as [[Hs|Hs]|]; [|by apply in_ranges_nil in Hs|done].
  apply (list_elem_of_In) in Hx. cbn in Hs.
  rewrite List.Forall_forall in Hpns. specialize (Hpns x Hx). unfold pn_ok in Hpns. lia.
Qed.

Lemma received_complete_witness :
  run default [3; 1; 3; 2; 1; 9] =
    ([3; 1; 2; 9], mkReceivedPackets [(9, 9); (1, 3)] 0) ∧
  (2 ∈ [3; 1; 2; 9] ↔ 2 ∈ [3; 1; 3; 2; 1; 9]).
Proof.
  split; [reflexivity|].
  apply (received_complete [3; 1; 3; 2; 1; 9] [3; 1; 2; 9] (mkReceivedPackets [(9, 9); (1, 3)] 0));
    [by_decide|reflexivity|reflexivity].
Defined.
End received.
