(* ===== verification/QuicPacket.v ===== *)
(** * Packet numbers, connection IDs and header protection —
    [src/quic/packet.rs]

    The header-protection key belongs to rustls; it is a type class here, with
    the documented behaviour the code relies on as laws. *)

From S2P Require Import Prelude.

Module packet.

Definition MAX_CID_LEN : nat := 20.

(** [ConnectionId]: a length and twenty inline bytes. *)
Record ConnectionId := mkConnectionId {
  cid_len : Z;
  cid_bytes : bytes;
}.

#[global] Instance ConnectionId_eq_dec : EqDecision ConnectionId.
Proof. solve_decision. Defined.

(** [ConnectionId::new] *)
Definition cid_new (slice : bytes) : res ConnectionId :=
  if (MAX_CID_LEN <? length slice)%nat then bail "connection ID longer than 20 bytes"
  else Ok (mkConnectionId (u8 (zlen slice))
             (slice ++ drop (length slice) (replicate MAX_CID_LEN 0))).

(** [ConnectionId::random], the eight random bytes given. *)
Definition cid_random (rnd : bytes) : ConnectionId :=
  mkConnectionId 8 (take 8 rnd ++ drop 8 (replicate MAX_CID_LEN 0)).

(** [ConnectionId::as_slice] *)
Definition as_slice (c : ConnectionId) : bytes := take (Z.to_nat (cid_len c)) (cid_bytes c).

(** [ConnectionId::len] *)
Definition len (c : ConnectionId) : nat := Z.to_nat (cid_len c).

(** [Space] *)
Inductive Space := Initial | Handshake | Data.
#[global] Instance Space_eq_dec : EqDecision Space.
Proof. solve_decision. Defined.
Definition ALL : list Space := [Initial; Handshake; Data].

(** [encode_packet_number]: the truncated number and its length in bytes. *)
Definition encode_packet_number (pn : Z) (largest_acked : option Z) : Z * Z :=
  let range :=
    match largest_acked with
    | Some acked => u64 (u64 (pn - acked) * 2)
    | None => u64 (pn + 1)
    end in
  let len :=
    if range <=? 0xff then 1
    else if range <=? 0xffff then 2
    else if range <=? 0xffffff then 3
    else 4 in
  (Z.land pn (Z.shiftr U64_MAX (64 - len * 8)), len).

(** [decode_packet_number]; [expected & !mask] is [Z.ldiff]. *)
Definition decode_packet_number (largest_pn truncated pn_nbits : Z) : Z :=
  let expected := u64 (largest_pn + 1) in
  let win := u64 (Z.shiftl 1 pn_nbits) in
  let hwin := win / 2 in
  let mask := u64 (win - 1) in
  let candidate := Z.lor (Z.ldiff expected mask) truncated in
  if (u64 (candidate + hwin) <=? expected) && (u64 (candidate + win) <? Z.shiftl 1 62)
  then u64 (candidate + win)
  else if (u64 (expected + hwin) <? candidate) && (win <=? candidate)
  then u64 (candidate - win)
  else candidate.

Definition SAMPLE_OFFSET : nat := 4.
Definition SAMPLE_LEN : nat := 16.

(** [rustls::quic::HeaderProtectionKey]: both calls take the sample, the first
    byte and the packet-number bytes and give the latter two back masked. *)
Class HeaderProtectionKey (K : Type) := {
  encrypt_in_place : K → bytes → Z → bytes → res (Z * bytes);
  decrypt_in_place : K → bytes → Z → bytes → res (Z * bytes);
}.

(** Write [pn] over the packet at [pn_offset] and [first] over its first byte:
    what the two [&mut] borrows leave behind. *)
Definition write_header (packet : bytes) (pn_offset : nat) (first : Z) (pn : bytes) : bytes :=
  first :: take (pn_offset - 1) (drop 1 packet) ++ pn ++ drop (pn_offset + length pn) packet.

Section protection.
Context {K : Type} `{HeaderProtectionKey K}.

(** [protect_header] *)
Definition protect_header (hp : K) (packet : bytes) (pn_offset pn_len : nat) : res bytes :=
  let sample_start := (pn_offset + SAMPLE_OFFSET)%nat in
  if (length packet <? sample_start + SAMPLE_LEN)%nat
  then bail "packet too short to sample for header protection"
  else
    sample ← slice packet sample_start (sample_start + SAMPLE_LEN);
    first ← index packet 0;
    rest ← slice_from packet 1;
    _ ← (if (pn_offset =? 0)%nat then panic "attempt to subtract with overflow" else Ok tt);
    pn ← slice rest (pn_offset - 1) (pn_offset - 1 + pn_len);
    '(first', pn') ← encrypt_in_place hp sample first pn;
    Ok (write_header packet pn_offset first' pn').

(** [unprotect_header]: the unmasked first byte, the packet-number length, and
    the packet as it is left. *)
Definition unprotect_header (hp : K) (packet : bytes) (pn_offset : nat)
    : res (Z * nat * bytes) :=
  let sample_start := (pn_offset + SAMPLE_OFFSET)%nat in
  if (length packet <? sample_start + SAMPLE_LEN)%nat
  then bail "packet too short to sample for header protection"
  else
    sample ← slice packet sample_start (sample_start + SAMPLE_LEN);
    first ← index packet 0;
    rest ← slice_from packet 1;
    _ ← (if (pn_offset =? 0)%nat then panic "attempt to subtract with overflow" else Ok tt);
    pn ← slice rest (pn_offset - 1) (pn_offset - 1 + 4);
    '(first', pn') ← decrypt_in_place hp sample first pn;
    Ok (first', (Z.to_nat (Z.land first' 3) + 1)%nat, write_header packet pn_offset first' pn').
End protection.

(** ** Connection IDs *)

Lemma as_slice_new slice c : cid_new slice = Ok c → as_slice c = slice ∧ len c = length slice.
Proof.
  unfold cid_new. destruct (Nat.ltb_spec MAX_CID_LEN (length slice)) as [|Hle]; [done|].
  intros <-%Ok_inj. unfold MAX_CID_LEN in Hle. unfold as_slice, len. cbn [cid_len cid_bytes].
  rewrite u8_small by llia. unfold zlen. rewrite Nat2Z.id. split; [|done]. by rewrite take_app_length.
Qed.

(** ** Packet numbers *)

(** The four windows a packet number may be truncated to. *)
Definition pn_width (n : Z) : Prop := n = 8 ∨ n = 16 ∨ n = 24 ∨ n = 32.

Lemma decode_in_window largest pn n :
  pn_width n → 0 ≤ pn < 2 ^ 62 → 0 ≤ largest < 2 ^ 62 →
  largest + 1 < pn + 2 ^ (n - 1) →
  pn ≤ largest + 1 + 2 ^ (n - 1) ∨ pn < 2 ^ n →
  decode_packet_number largest (pn mod 2 ^ n) n = pn.
Proof.
  intros Hn Hpn Hl Hlo Hhi. unfold decode_packet_number.
  rewrite (u64_small (largest + 1)) by lia.
  assert (u64 (Z.shiftl 1 n) = 2 ^ n) as ->.
  { rewrite Z.shiftl_1_l. apply u64_small. destruct Hn as [->|[->|[->| ->]]]; lia. }
  assert (2 ^ n / 2 = 2 ^ (n - 1)) as -> by (by destruct Hn as [->|[->|[->| ->]]]).
  rewrite (u64_small (2 ^ n - 1)) by (destruct Hn as [->|[->|[->| ->]]]; lia).
  assert (Z.lor (Z.ldiff (largest + 1) (2 ^ n - 1)) (pn mod 2 ^ n)
          = (largest + 1) / 2 ^ n * 2 ^ n + pn mod 2 ^ n) as ->.
  { replace (2 ^ n - 1) with (Z.ones n) by (rewrite Z.ones_equiv; lia).
    rewrite Z.ldiff_ones_r by (destruct Hn; lia).
    rewrite Z.shiftl_mul_pow2, Z.shiftr_div_pow2 by (destruct Hn; lia).
    rewrite Z.lor_comm, lor_disjoint; [lia|destruct Hn; lia|].
    apply Z.mod_pos_bound. destruct Hn as [->|[->|[->| ->]]]; lia. }
  rewrite Z.shiftl_1_l.
  destruct Hn as [->|[->|[->| ->]]]; cbn in Hlo, Hhi |- *;
    unfold u64; repeat case_match; Z.to_euclidean_division_equations; lia.
Qed.

Lemma encode_width pn acked :
  0 ≤ pn < 2 ^ 62 →
  let '(t, l) := encode_packet_number pn acked in
  pn_width (8 * l) ∧ t = pn mod 2 ^ (8 * l) ∧
  match acked with
  | Some a => 0 ≤ a ≤ pn → pn - a < 2 ^ 31 → pn - a < 2 ^ (8 * l - 1)
  | None => pn + 1 < 2 ^ 32 → pn < 2 ^ (8 * l)
  end.
Proof.
  intros Hpn. unfold encode_packet_number, pn_width, U64_MAX.
  set (range := match acked with Some _ => _ | None => _ end).
  assert (match acked with
          | Some a => 0 ≤ a ≤ pn → pn - a < 2 ^ 31 → range = (pn - a) * 2
          | None => pn + 1 < 2 ^ 32 → range = pn + 1
          end) as Hrange.
  { destruct acked; intros; unfold range; rewrite !u64_small; rewrite ?u64_small; lia. }
  clearbody range.
  destruct (Z.leb_spec range 0xff); [|destruct (Z.leb_spec range 0xffff);
    [|destruct (Z.leb_spec range 0xffffff)]].
  all: split; [lia|]; split.
  1: change (Z.shiftr _ _) with (2 ^ 8 - 1). 3: change (Z.shiftr _ _) with (2 ^ 16 - 1).
  5: change (Z.shiftr _ _) with (2 ^ 24 - 1). 7: change (Z.shiftr _ _) with (2 ^ 32 - 1).
  1,3,5,7: by apply land_mask.
  all: destruct acked; intros; cbn; intuition lia.
Qed.

(** The truncated packet number a sender writes is decoded to the full
    number by any receiver that has seen at least what it acknowledged, unless
    the packet is overtaken by half a window of newer ones. *)
Theorem packet_number_roundtrip (pn : Z) (acked : option Z) (largest truncated len : Z)
    (Hpn : 0 ≤ pn < 2 ^ 62) (Hlargest : 0 ≤ largest < 2 ^ 62)
    (Henc : encode_packet_number pn acked = (truncated, len))
    (Hacked : match acked with
              | Some a => 0 ≤ a ≤ pn ∧ a ≤ largest ∧ pn - a < 2 ^ 31
              | None => pn + 1 < 2 ^ 32
              end)
    (Hreorder : largest + 1 < pn + 2 ^ (8 * len - 1)) :
  1 ≤ len ≤ 4 ∧ 0 ≤ truncated < 2 ^ (8 * len) ∧
  decode_packet_number largest truncated (8 * len) = pn.
Proof.
  pose proof (encode_width pn acked Hpn) as Hw. rewrite Henc in Hw.
  destruct Hw as (Hn & -> & Hb). assert (1 ≤ len ≤ 4) by (unfold pn_width in Hn; lia).
  split; [done|]. split; [apply Z.mod_pos_bound; lia|].
  apply decode_in_window; try done. destruct acked; [left; intuition lia|right; auto].
Qed.

Lemma packet_number_roundtrip_witness :
  encode_packet_number 0xac5c02 (Some 0xabe8bc) = (0x5c02, 2) ∧
  1 ≤ 2 ≤ 4 ∧ 0 ≤ 0x5c02 < 2 ^ (8 * 2) ∧
  decode_packet_number 0xabe8bc 0x5c02 (8 * 2) = 0xac5c02.
Proof.
  split; [reflexivity|].
  apply (packet_number_roundtrip 0xac5c02 (Some 0xabe8bc)); [lia|lia|reflexivity|lia|lia].
Defined.

(** ** Header protection *)

(** What RFC 9001 Section 5.4.1 says of a key: masking keeps the length of the
    packet number, and unmasking undoes it, touching only as many bytes as the
    first byte says the number has. *)
Class HeaderProtectionLaws (K : Type) `{HeaderProtectionKey K} := {
  encrypt_length hp sample first pn first' pn' :
    encrypt_in_place hp sample first pn = Ok (first', pn') → length pn' = length pn;
  decrypt_encrypt hp sample first pn first' pn' extra :
    length sample = SAMPLE_LEN → length pn = (Z.to_nat (Z.land first 3) + 1)%nat →
    length (pn ++ extra) = 4%nat →
    encrypt_in_place hp sample first pn = Ok (first', pn') →
    decrypt_in_place hp sample first' (pn' ++ extra) = Ok (first, pn ++ extra);
}.

(** Cut a list into four pieces. *)
Lemma cut4 {A} (l : list A) a b c :
  l = take a l ++ take b (drop a l) ++ take c (drop (a + b) l) ++ drop (a + b + c) l.
Proof.
  rewrite <- !drop_drop. rewrite take_drop, take_drop, take_drop. done.
Qed.

Section protection_facts.
Context {K : Type} `{HeaderProtectionLaws K}.

(** A packet with its packet number singled out. *)
Definition laid_out (first : Z) (head pn tail : bytes) : bytes := first :: head ++ pn ++ tail.

Lemma write_header_laid_out first head pn tail first' pn' :
  length pn' = length pn →
  write_header (laid_out first head pn tail) (S (length head)) first' pn' =
    laid_out first' head pn' tail.
Proof.
  intros Hlen. unfold write_header, laid_out. cbn [drop Nat.add]. rewrite drop_0. f_equal.
  replace (S (length head) - 1)%nat with (length head) by lia.
  rewrite take_app_length.
  rewrite drop_app_ge by lia. rewrite Nat.add_comm, Nat.add_sub, Hlen. by rewrite drop_app_length.
Qed.

Lemma index_laid_out first head pn tail : index (laid_out first head pn tail) 0 = Ok first.
Proof. done. Qed.
Lemma rest_laid_out first head pn tail :
  slice_from (laid_out first head pn tail) 1 = Ok (head ++ pn ++ tail).
Proof. rewrite slice_from_le by (cbn; lia). unfold laid_out. cbn [drop]. by rewrite drop_0. Qed.

Lemma sample_laid_out first head pn tail :
  drop (S (length head) + SAMPLE_OFFSET) (laid_out first head pn tail) =
  drop (SAMPLE_OFFSET - length pn) tail ∨ (SAMPLE_OFFSET < length pn)%nat.
Proof.
  destruct (decide (length pn ≤ SAMPLE_OFFSET)%nat); [left|right; lia].
  unfold laid_out. cbn [drop Nat.add]. rewrite drop_app_ge by lia.
  rewrite drop_app_ge by lia. f_equal. lia.
Qed.

Lemma slice_rest head pn tail :
  slice (head ++ pn ++ tail) (S (length head) - 1) (S (length head) - 1 + length pn) = Ok pn.
Proof. replace (S (length head) - 1)%nat with (length head) by lia. apply slice_app. Qed.

Lemma protect_laid_out hp first head pn tail p' :
  protect_header hp (laid_out first head pn tail) (S (length head)) (length pn) = Ok p' →
  (length pn ≤ SAMPLE_OFFSET)%nat →
  ∃ first' pn', p' = laid_out first' head pn' tail ∧ length pn' = length pn ∧
    (SAMPLE_OFFSET + SAMPLE_LEN ≤ length (pn ++ tail))%nat ∧
    encrypt_in_place hp (take SAMPLE_LEN (drop (SAMPLE_OFFSET - length pn) tail)) first pn
      = Ok (first', pn').
Proof.
  unfold protect_header. destruct (Nat.ltb_spec (length (laid_out first head pn tail))
    (S (length head) + SAMPLE_OFFSET + SAMPLE_LEN)) as [|Hlen]; [done|].
  intros Hp Hpn. inv_ok. apply slice_Ok in Hx as [_ ->].
  destruct (sample_laid_out first head pn tail) as [Hs|]; [|lia]. rewrite Hs in Hx4.
  rewrite Nat.add_comm, Nat.add_sub in Hx4.
  rewrite index_laid_out in Hx0. apply Ok_inj in Hx0 as <-.
  rewrite rest_laid_out in Hx1. apply Ok_inj in Hx1 as <-.
  rewrite slice_rest in Hx3. apply Ok_inj in Hx3 as <-.
  pose proof (encrypt_length _ _ _ _ _ _ Hx4) as Hl.
  eexists _, _. split; [by apply write_header_laid_out|].
  split; [done|]. split; [|done]. unfold laid_out in Hlen. llia.
Qed.

Lemma unprotect_laid_out hp first head pn tail first' pn' :
  length pn = 4%nat → (SAMPLE_LEN ≤ length tail)%nat → length pn' = length pn →
  decrypt_in_place hp (take SAMPLE_LEN tail) first pn = Ok (first', pn') →
  unprotect_header hp (laid_out first head pn tail) (S (length head)) =
    Ok (first', (Z.to_nat (Z.land first' 3) + 1)%nat, laid_out first' head pn' tail).
Proof.
  intros Hpn Ht Hl Hdec. unfold unprotect_header. rewrite (proj2 (Nat.ltb_ge _ _))
    by (unfold laid_out, SAMPLE_OFFSET; llia).
  rewrite slice_in_range by (unfold laid_out, SAMPLE_OFFSET; llia). cbn [mbind result_bind].
  destruct (sample_laid_out first head pn tail) as [->|]; [|unfold SAMPLE_OFFSET in *; lia].
  rewrite index_laid_out, rest_laid_out, <- Hpn. cbn [mbind result_bind Nat.eqb].
  rewrite slice_rest.
  cbn [mbind result_bind].
  rewrite (Nat.add_comm (_ + _) SAMPLE_LEN), Nat.add_sub, Hpn. change (SAMPLE_OFFSET - 4)%nat with 0%nat.
  rewrite drop_0, Hdec. cbn [mbind result_bind]. by rewrite write_header_laid_out.
Qed.
End protection_facts.

(** Removing header protection from a packet it was applied to gives back
    the first byte, the packet-number length and the packet itself, bit for
    bit, for every key that behaves as RFC 9001 describes. *)
Theorem header_protection_roundtrip {K : Type} `{HeaderProtectionLaws K}
    (hp : K) (packet p' : bytes) (pn_offset pn_len : nat) (first : Z)
    (Hoff : (1 ≤ pn_offset)%nat) (Hfirst : packet !! 0%nat = Some first)
    (Hlen : pn_len = (Z.to_nat (Z.land first 3) + 1)%nat)
    (Hp : protect_header hp packet pn_offset pn_len = Ok p') :
  unprotect_header hp p' pn_offset = Ok (first, pn_len, packet).
Proof.
  destruct packet as [|b rest]; [done|]. injection Hfirst as ->.
  assert (pn_len ≤ 4)%nat as Hle.
  { change 3 with (2 ^ 2 - 1) in Hlen. rewrite land_mask in Hlen by lia. pose proof (Z.mod_pos_bound first (2 ^ 2)). lia. }
  assert (pn_offset + 20 ≤ S (length rest))%nat as Hfit.
  { unfold protect_header in Hp. cbn [length] in Hp.
    destruct (Nat.ltb_spec (S (length rest)) (pn_offset + SAMPLE_OFFSET + SAMPLE_LEN)); [done|].
    unfold SAMPLE_OFFSET, SAMPLE_LEN in *. lia. }
  pose proof (cut4 rest (pn_offset - 1) pn_len (4 - pn_len)) as Hrest.
  set (head := take (pn_offset - 1) rest) in *.
  set (pn := take pn_len (drop (pn_offset - 1) rest)) in *.
  set (extra := take (4 - pn_len) (drop (pn_offset - 1 + pn_len) rest)) in *.
  set (tail := drop (_ + _ + _) rest) in *.
  assert (length head = (pn_offset - 1)%nat) as Hh by (unfold head; llia).
  assert (length pn = pn_len) as Hpn by (unfold pn; llia).
  assert (length (pn ++ extra) = 4%nat) as Hex by (unfold pn, extra; llia).
  clearbody head pn extra tail. subst rest.
  replace pn_offset with (S (length head)) in * by lia. rewrite <- Hpn in Hp.
  apply (protect_laid_out hp first head pn (extra ++ tail)) in Hp
    as (first' & pn' & -> & Hl & Hlong & Henc); [|unfold SAMPLE_OFFSET; lia].
  replace (drop (SAMPLE_OFFSET - length pn) (extra ++ tail)) with tail in Henc.
  2: { replace (SAMPLE_OFFSET - length pn)%nat with (length extra)
         by (unfold SAMPLE_OFFSET; llia). by rewrite drop_app_length. }
  assert (SAMPLE_LEN ≤ length tail)%nat as Hsl by (unfold SAMPLE_OFFSET in *; llia).
  unfold laid_out. rewrite (app_assoc pn'), (app_assoc pn).
  fold (laid_out first' head (pn' ++ extra) tail). fold (laid_out first head (pn ++ extra) tail).
  eapply decrypt_encrypt in Henc; [|llia|by rewrite Hpn|done].
  rewrite (unprotect_laid_out _ _ _ _ _ first (pn ++ extra)); [|llia|done|llia|done].
  by rewrite <- Hlen.
Qed.

(** A key that masks with its own bytes and the sample's: an instance of the
    laws. *)
#[local] Instance toy_key : HeaderProtectionKey Z := {
  encrypt_in_place hp sample first pn :=
    Ok (Z.lxor first (Z.land hp 12), Z.lxor hp <$> pn);
  decrypt_in_place hp sample first pn :=
    let first' := Z.lxor first (Z.land hp 12) in
    let n := (Z.to_nat (Z.land first' 3) + 1)%nat in
    Ok (first', (Z.lxor hp <$> take n pn) ++ drop n pn);
}.

#[local] Instance toy_laws : HeaderProtectionLaws Z.
Proof.
  split; cbn.
  - intros ???????. simplify_eq. by rewrite length_fmap.
  - intros hp sample first pn first' pn' extra _ Hn _ Henc. simplify_eq.
    rewrite Z.lxor_assoc, Z.lxor_nilpotent, Z.lxor_0_r.
    rewrite <- Hn. rewrite <- (length_fmap (Z.lxor hp) pn), take_app_length, drop_app_length.
    do 3 f_equal. rewrite <- list_fmap_compose. rewrite <- (list_fmap_id pn) at 2.
    apply list_fmap_ext. intros i x _. cbn. by rewrite <- Z.lxor_assoc, Z.lxor_nilpotent.
Qed.

Lemma header_protection_roundtrip_witness :
  let packet := [0x41; 9; 9; 7; 8] ++ replicate 30 5 in
  protect_header 0xaa packet 3 2 = Ok ([0x49; 9; 9; 0xad; 0xa2] ++ replicate 30 5) ∧
  unprotect_header 0xaa ([0x49; 9; 9; 0xad; 0xa2] ++ replicate 30 5) 3 =
    Ok (0x41, 2%nat, [0x41; 9; 9; 7; 8] ++ replicate 30 5).
Proof.
  split; [vm_compute; reflexivity|].
  apply (header_protection_roundtrip 0xaa ([0x41; 9; 9; 7; 8] ++ replicate 30 5));
    [lia|reflexivity|reflexivity|vm_compute; reflexivity].
Defined.
End packet.
