(* ===== verification/QuicHeader.v ===== *)
(** * Packet headers — [src/quic/header.rs]

    The framing of one packet inside a datagram: [decode_header] on the way in,
    [LongHeader::put] and [put_short_header] on the way out. *)

From S2P Require Import Prelude Varint QuicPacket.
Import packet.

Module header.

Definition VERSION_1 : Z := 1.
Definition FORM_LONG : Z := 0x80.
Definition FIXED_BIT : Z := 0x40.
Definition LONG_TYPE_MASK : Z := 0x30.
Definition TYPE_INITIAL : Z := 0x00.
Definition TYPE_HANDSHAKE : Z := 0x20.
Definition TYPE_RETRY : Z := 0x30.

(** [Incoming] *)
Inductive Incoming : Type :=
| Long (space : Space) (scid : ConnectionId) (pn_offset end_ : nat)
| Short (pn_offset end_ : nat)
| Retry (dcid scid : ConnectionId) (token : bytes)
| VersionNegotiation (dcid scid : ConnectionId) (versions : bytes).

#[global] Instance Incoming_eq_dec : EqDecision Incoming.
Proof. solve_decision. Defined.

(** One connection ID of a long header: a length byte at [pos], then the ID.
    [slack] is the byte the first of the two also has to leave behind it. *)
Definition take_cid (buf : bytes) (pos slack : nat) (msg : string) : res (ConnectionId * nat) :=
  cid_len ← index buf pos;
  let cid_len := Z.to_nat cid_len in
  let pos := S pos in
  if (MAX_CID_LEN <? cid_len)%nat || (length buf <? pos + cid_len + slack)%nat then bail msg
  else
    sl ← slice buf pos (pos + cid_len);
    cid ← cid_new sl;
    Ok (cid, (pos + cid_len)%nat).

(** The token an Initial packet carries, stepped over. *)
Definition skip_token (buf : bytes) (pos : nat) : res nat :=
  rest ← slice_from buf pos;
  '(len, n) ← ok_or "truncated token length" (get_varint rest);
  let pos := (pos + n)%nat in
  if zlen buf <? Z.of_nat pos + len then bail "token runs past the end"
  else Ok (pos + Z.to_nat len)%nat.

(** The length field and what it delimits: where the packet number starts and
    where the packet ends. *)
Definition take_length (buf : bytes) (pos : nat) : res (nat * nat) :=
  rest ← slice_from buf pos;
  '(len, n) ← ok_or "truncated length field" (get_varint rest);
  let pos := (pos + n)%nat in
  if zlen buf <? Z.of_nat pos + len then bail "packet length runs past the datagram"
  else Ok (pos, (pos + Z.to_nat len)%nat).

(** The [match first & LONG_TYPE_MASK] that ends [decode_header]. *)
Definition decode_kind (buf : bytes) (first : Z) (pos : nat) (dcid scid : ConnectionId)
    : res Incoming :=
  let kind := Z.land first LONG_TYPE_MASK in
  if kind =? TYPE_RETRY then
    if (length buf <? pos + 16)%nat then bail "Retry packet is truncated"
    else
      token ← slice buf pos (length buf - 16);
      Ok (Retry dcid scid token)
  else if (kind =? TYPE_INITIAL) || (kind =? TYPE_HANDSHAKE) then
    pos ← (if kind =? TYPE_INITIAL then skip_token buf pos else Ok pos);
    '(pn_offset, end_) ← take_length buf pos;
    Ok (Long (if kind =? TYPE_INITIAL then Initial else Handshake) scid pn_offset end_)
  else bail "unexpected 0-RTT packet".

(** [decode_header] *)
Definition decode_header (buf : bytes) (local_cid_len : nat) : res Incoming :=
  match buf with
  | [] => bail "empty datagram"
  | first :: _ =>
      if Z.land first FORM_LONG =? 0 then
        let pn_offset := (1 + local_cid_len)%nat in
        if (length buf <? pn_offset + 4)%nat then bail "short header packet is truncated"
        else Ok (Short pn_offset (length buf))
      else if (length buf <? 6)%nat then bail "long header packet is truncated"
      else
        vbytes ← slice buf 1 5;
        let version := be_value vbytes in
        '(dcid, pos) ← take_cid buf 5 1 "long header destination connection ID is bad";
        '(scid, pos) ← take_cid buf pos 0 "long header source connection ID is bad";
        if version =? 0 then
          versions ← slice buf pos (length buf - (length buf - pos) mod 4);
          Ok (VersionNegotiation dcid scid versions)
        else if negb (version =? VERSION_1) then bail "unsupported QUIC version"
        else
          decode_kind buf first pos dcid scid
  end.

(** [LongHeader] *)
Record LongHeader := mkLongHeader {
  lh_space : Space;
  lh_dcid : ConnectionId;
  lh_scid : ConnectionId;
  lh_token : bytes;
}.

(** [put_varint_fixed4] *)
Definition put_varint_fixed4 (value : Z) : bytes := be_bytes 4 (Z.lor (u32 value) 0x80000000).

(** [set_varint_fixed4]: [buf[at..at + 4].copy_from_slice(..)] *)
Definition set_varint_fixed4 (buf : bytes) (at' : nat) (value : Z) : res bytes :=
  if (length buf <? at' + 4)%nat then panic "range end index out of range"
  else Ok (take at' buf ++ put_varint_fixed4 value ++ drop (at' + 4) buf).

(** [LongHeader::put]: the bytes appended. *)
Definition long_put (h : LongHeader) (pn_len payload_len : nat) : res bytes :=
  kind ← match lh_space h with
         | Initial => Ok TYPE_INITIAL
         | Handshake => Ok TYPE_HANDSHAKE
         | Data => panic "1-RTT packets use a short header"
         end;
  Ok ([Z.lor (Z.lor (Z.lor FORM_LONG FIXED_BIT) kind) (u8 (u8 (Z.of_nat pn_len) - 1))]
      ++ be_bytes 4 VERSION_1
      ++ [u8 (Z.of_nat (len (lh_dcid h)))] ++ as_slice (lh_dcid h)
      ++ [u8 (Z.of_nat (len (lh_scid h)))] ++ as_slice (lh_scid h)
      ++ (if decide (lh_space h = Initial)
          then put_varint (zlen (lh_token h)) ++ lh_token h else [])
      ++ put_varint_fixed4 (Z.of_nat payload_len)).

(** [put_short_header] *)
Definition put_short_header (dcid : ConnectionId) (pn_len : nat) (key_phase : bool) : bytes :=
  let first := Z.lor FIXED_BIT (u8 (u8 (Z.of_nat pn_len) - 1)) in
  (if key_phase then Z.lor first 4 else first) :: as_slice dcid.

(** ** Safety on arbitrary input *)

Lemma cid_new_no_panic sl (P : ConnectionId → Prop) :
  (∀ c, cid_new sl = Ok c → P c) → wp (cid_new sl) P.
Proof. unfold cid_new. intros HP. case_match; [done|]. by apply HP. Qed.

Lemma take_cid_wp buf pos slack msg (P : ConnectionId * nat → Prop) :
  bytes_ok buf → (pos < length buf)%nat →
  (∀ c pos', (pos < pos' ∧ pos' + slack ≤ length buf)%nat → (len c ≤ MAX_CID_LEN)%nat →
     P (c, pos')) →
  wp (take_cid buf pos slack msg) P.
Proof.
  intros Hok Hpos HP. unfold take_cid. wp_step. apply wp_index; [done|]. intros b Hb.
  cbv zeta. wp_step; [done|]. apply orb_false_iff in Heqb0 as [H1 H2].
  apply Nat.ltb_ge in H1, H2. wp_step. apply wp_slice; [lia..|].
  wp_step. apply cid_new_no_panic. intros c Hc. apply as_slice_new in Hc as [_ Hl].
  apply HP; [lia|]. rewrite Hl. llia.
Qed.

Lemma skip_token_wp buf pos (P : nat → Prop) :
  bytes_ok buf → (pos ≤ length buf)%nat →
  (∀ pos', (pos < pos' ≤ length buf)%nat → P pos') → wp (skip_token buf pos) P.
Proof.
  intros Hok Hpos HP. unfold skip_token. wp_step. apply wp_slice_from; [done|].
  wp_step. wp_step. destruct a as [l n].
  apply get_varint_bounds in H as (Hn & Hle & Hv); [|auto with shb].
  cbv zeta. destruct (Z.ltb_spec (zlen buf) (Z.of_nat (pos + n) + l)) as [|Hl]; [done|].
  apply HP. unfold zlen in Hl. lia.
Qed.

Lemma take_length_wp buf pos (P : nat * nat → Prop) :
  bytes_ok buf → (pos ≤ length buf)%nat →
  (∀ pn_offset end_, (pos < pn_offset ≤ end_)%nat → (end_ ≤ length buf)%nat → P (pn_offset, end_)) →
  wp (take_length buf pos) P.
Proof.
  intros Hok Hpos HP. unfold take_length. wp_step. apply wp_slice_from; [done|].
  wp_step. wp_step. destruct a as [l n].
  apply get_varint_bounds in H as (Hn & Hle & Hv); [|auto with shb].
  cbv zeta. destruct (Z.ltb_spec (zlen buf) (Z.of_nat (pos + n) + l)) as [|Hl]; [done|].
  unfold zlen in Hl. apply HP; lia.
Qed.

(** What every decoded header promises the code that decrypts the packet. *)
Definition incoming_ok (buf : bytes) (inc : Incoming) : Prop :=
  match inc with
  | Long space scid pn_offset end_ =>
      space ≠ Data ∧ (len scid ≤ MAX_CID_LEN)%nat ∧ (7 < pn_offset ≤ end_)%nat ∧
      (end_ ≤ length buf)%nat
  | Short pn_offset end_ => (1 ≤ pn_offset ∧ pn_offset + 4 ≤ end_)%nat ∧ end_ = length buf
  | Retry dcid scid token => (length token + 16 ≤ length buf)%nat
  | VersionNegotiation dcid scid versions =>
      (length versions ≤ length buf)%nat ∧ (length versions mod 4 = 0)%nat
  end.

Lemma decode_kind_wp buf first pos dcid scid :
  bytes_ok buf → (7 ≤ pos ≤ length buf)%nat → (len scid ≤ MAX_CID_LEN)%nat →
  wp (decode_kind buf first pos dcid scid) (incoming_ok buf).
Proof.
  intros Hok Hpos Hscid. unfold decode_kind. cbv zeta. wp_step.
  { destruct (Nat.ltb_spec (length buf) (pos + 16)); [done|]. wp_step.
    apply wp_slice; [lia..|]. cbn [wp incoming_ok]. autorewrite with lens. lia. }
  wp_step; [|done]. wp_step.
  assert (∀ pos2, (pos ≤ pos2 ≤ length buf)%nat →
    wp ('(pn_offset, end_) ← take_length buf pos2;
        Ok (Long (if Z.land first LONG_TYPE_MASK =? TYPE_INITIAL then Initial else Handshake)
              scid pn_offset end_)) (incoming_ok buf)) as Hrest.
  { intros pos2 Hpos2. wp_step. apply take_length_wp; [done|lia|].
    intros pn_offset end_ ? ?. cbn [wp incoming_ok]. repeat split; try lia. by case_match. }
  destruct (_ =? TYPE_INITIAL); cbn [wp].
  - apply skip_token_wp; [done|lia|]. intros. apply Hrest. lia.
  - apply Hrest. lia.
Qed.

Lemma decode_header_wp buf n : bytes_ok buf → wp (decode_header buf n) (incoming_ok buf).
Proof.
  intros Hok. unfold decode_header. destruct buf as [|first rest]; [done|].
  set (buf := first :: rest) in *.
  wp_step. { destruct (Nat.ltb_spec (length buf) (1 + n + 4)); [done|]. cbn [wp incoming_ok]. lia. }
  destruct (Nat.ltb_spec (length buf) 6); [done|].
  wp_step. apply wp_slice; [lia..|]. cbv zeta. wp_step.
  apply take_cid_wp; [done|lia|]. intros dcid pos Hpos _. wp_step.
  apply take_cid_wp; [done|lia|]. intros scid pos' Hpos' Hscid.
  wp_step.
  { wp_step. pose proof (Nat.Div0.mod_le (length buf - pos') 4).
    apply wp_slice; [lia..|]. cbn [wp incoming_ok].
    autorewrite with lens. pose proof (Nat.div_mod (length buf - pos') 4 ltac:(lia)).
    split; [lia|].
    replace (_ `min` _)%nat with ((length buf - pos') / 4 * 4)%nat by lia.
    apply Nat.Div0.mod_mul. }
  wp_step; [done|]. apply decode_kind_wp; [done|lia|done].
Qed.

(** ** What is written is read back *)

Lemma get_varint_fixed4 v rest :
  0 ≤ v < 2 ^ 30 → bytes_ok rest →
  get_varint (put_varint_fixed4 v ++ rest) = Some (v, 4%nat).
Proof.
  intros Hv Hrest. unfold put_varint_fixed4. rewrite u32_small by lia.
  change 0x80000000 with (2 * 2 ^ 30). rewrite lor_disjoint by lia. apply (get_varint_width 4); [tauto|done|done].
Qed.

(** A connection ID as [ConnectionId::new] makes it. *)
Definition cid_ok (c : ConnectionId) : Prop :=
  bytes_ok (as_slice c) ∧ (length (as_slice c) ≤ MAX_CID_LEN)%nat ∧ cid_new (as_slice c) = Ok c.

Lemma take_cid_at buf pre c post pos slack msg :
  cid_ok c → buf = pre ++ u8 (Z.of_nat (len c)) :: as_slice c ++ post →
  pos = length pre → (slack ≤ length post)%nat →
  take_cid buf pos slack msg = Ok (c, (pos + 1 + length (as_slice c))%nat).
Proof.
  intros (Hb & Hl & Hnew) -> -> Hs. unfold MAX_CID_LEN in Hl.
  pose proof (as_slice_new _ _ Hnew) as [_ Hlen]. unfold take_cid.
  rewrite index_app_length, Hlen. cbn [mbind result_bind].
  rewrite u8_small, Nat2Z.id by lia. cbv zeta.
  rewrite orb_false_intro; [|apply Nat.ltb_ge; unfold MAX_CID_LEN; lia|apply Nat.ltb_ge; llia].
  replace (S (length pre)) with (length (pre ++ [Z.of_nat (length (as_slice c))])) by llia.
  replace (pre ++ _ :: as_slice c ++ post) with
    ((pre ++ [Z.of_nat (length (as_slice c))]) ++ as_slice c ++ post) by (by rewrite <- app_assoc).
  rewrite slice_app. cbn [mbind result_bind]. rewrite Hnew. cbn [mbind result_bind].
  do 2 f_equal. llia.
Qed.

Lemma take_length_at buf pre v post pos :
  0 ≤ v < 2 ^ 30 → bytes_ok post → v ≤ zlen post → buf = pre ++ put_varint_fixed4 v ++ post →
  pos = length pre →
  take_length buf pos = Ok ((pos + 4)%nat, (pos + 4 + Z.to_nat v)%nat).
Proof.
  intros Hv Hok Hlen -> ->. unfold take_length. rewrite slice_from_app. cbn [mbind result_bind].
  rewrite get_varint_fixed4 by done. cbn [ok_or mbind result_bind].
  destruct (Z.ltb_spec (zlen (pre ++ put_varint_fixed4 v ++ post)) (Z.of_nat (length pre + 4) + v));
    [|done].
  assert (length (put_varint_fixed4 v) = 4%nat) by apply length_be_bytes. llia.
Qed.

Lemma skip_token_at buf pre token post pos :
  zlen token < 2 ^ 62 → bytes_ok (token ++ post) →
  buf = pre ++ put_varint (zlen token) ++ token ++ post → pos = length pre →
  skip_token buf pos = Ok (pos + length (put_varint (zlen token)) + length token)%nat.
Proof.
  intros Hv Hok -> ->. unfold skip_token. rewrite slice_from_app. cbn [mbind result_bind].
  pose proof (zlen_nonneg token).
  rewrite get_put_varint by done. cbn [ok_or mbind result_bind]. cbv zeta.
  destruct (Z.ltb_spec (zlen (pre ++ put_varint (zlen token) ++ token ++ post))
    (Z.of_nat (length pre + length (put_varint (zlen token))) + zlen token)); [llia|].
  f_equal. llia.
Qed.

(** A header the connection can write: an Initial or Handshake packet with
    connection IDs of legal length and a token of bytes. *)
Definition long_ok (h : LongHeader) : Prop :=
  lh_space h ≠ Data ∧ cid_ok (lh_dcid h) ∧ cid_ok (lh_scid h) ∧
  bytes_ok (lh_token h) ∧ zlen (lh_token h) < 2 ^ 62.

(** The first byte of a long header by kind and packet-number length. *)
Lemma long_first kind pn_len :
  kind = TYPE_INITIAL ∨ kind = TYPE_HANDSHAKE → (1 ≤ pn_len ≤ 4)%nat →
  let first := Z.lor (Z.lor (Z.lor FORM_LONG FIXED_BIT) kind) (u8 (u8 (Z.of_nat pn_len) - 1)) in
  byte_ok first ∧ Z.land first FORM_LONG =? 0 = false ∧ Z.land first LONG_TYPE_MASK = kind ∧
  (Z.to_nat (Z.land first 3) + 1)%nat = pn_len.
Proof.
  intros Hk Hp. assert (pn_len = 1 ∨ pn_len = 2 ∨ pn_len = 3 ∨ pn_len = 4)%nat
    as [->|[->|[->| ->]]] by lia; destruct Hk as [->| ->]; cbv zeta; by_decide.
Qed.

(** The token field of an Initial packet, nothing for a Handshake packet. *)
Definition token_field (h : LongHeader) : bytes :=
  if decide (lh_space h = Initial) then put_varint (zlen (lh_token h)) ++ lh_token h else [].

Definition long_kind (h : LongHeader) : Z :=
  if decide (lh_space h = Initial) then TYPE_INITIAL else TYPE_HANDSHAKE.

Lemma decode_kind_at h buf pre first payload_len tail :
  long_ok h → Z.land first LONG_TYPE_MASK = long_kind h → Z.of_nat payload_len < 2 ^ 30 →
  bytes_ok tail → (payload_len ≤ length tail)%nat →
  buf = pre ++ token_field h ++ put_varint_fixed4 (Z.of_nat payload_len) ++ tail →
  decode_kind buf first (length pre) (lh_dcid h) (lh_scid h) =
    let hd := (length pre + length (token_field h) + 4)%nat in
    Ok (Long (lh_space h) (lh_scid h) hd (hd + payload_len)).
Proof.
  intros (Hsp & _ & _ & Htok & Htl) Htype Hpl Htail Hlen ->.
  assert (bytes_ok (put_varint_fixed4 (Z.of_nat payload_len) ++ tail)) as Hok4
    by (apply bytes_ok_app; split; [apply be_bytes_ok|done]).
  unfold decode_kind. rewrite Htype. unfold long_kind, token_field. cbv zeta.
  destruct (lh_space h); [| |done];
    [rewrite !decide_True by done|rewrite !decide_False by done];
    cbn [mbind result_bind Z.eqb orb TYPE_INITIAL TYPE_RETRY TYPE_HANDSHAKE Pos.eqb].
  - rewrite <- !app_assoc.
    erewrite skip_token_at; [|exact Htl| |reflexivity|done]; [|by apply bytes_ok_app].
    cbn [mbind result_bind].
    erewrite (take_length_at _ (pre ++ put_varint (zlen (lh_token h)) ++ lh_token h));
      [| |exact Htail| |by rewrite <- !app_assoc|llia]; [|lia|llia].
    cbn [mbind result_bind]. do 2 f_equal; llia.
  - erewrite take_length_at; [| |exact Htail| |reflexivity|done]; [|lia|llia].
    cbn [mbind result_bind app]. do 2 f_equal; llia.
Qed.

Lemma decode_long_at h pn_len payload_len hd tail n :
  long_ok h → (1 ≤ pn_len ≤ 4)%nat → Z.of_nat payload_len < 2 ^ 30 →
  long_put h pn_len payload_len = Ok hd → bytes_ok tail → (payload_len ≤ length tail)%nat →
  decode_header (hd ++ tail) n =
    Ok (Long (lh_space h) (lh_scid h) (length hd) (length hd + payload_len)%nat).
Proof.
  intros Hok Hpn Hpl Hput Htail Hlen. pose proof Hok as (Hsp & Hd & Hs & _).
  unfold long_put in Hput. fold (token_field h) in Hput. apply bind_Ok in Hput as (kind & Hkind & Hput).
  assert (kind = long_kind h) as ->.
  { unfold long_kind. destruct (lh_space h); [by apply Ok_inj in Hkind..|done]. }
  destruct (long_first (long_kind h) pn_len) as (Hfb & Hform & Htype & _);
    [unfold long_kind; case_decide; tauto|done|].
  set (first := Z.lor _ (u8 (u8 (Z.of_nat pn_len) - 1))) in *. apply Ok_inj in Hput.
  pose proof (length_be_bytes 4 VERSION_1) as Hvl.
  set (pre := first :: be_bytes 4 VERSION_1).
  set (pre2 := pre ++ u8 (Z.of_nat (len (lh_dcid h))) :: as_slice (lh_dcid h)).
  set (pre3 := pre2 ++ u8 (Z.of_nat (len (lh_scid h))) :: as_slice (lh_scid h)).
  set (post := token_field h ++ put_varint_fixed4 (Z.of_nat payload_len) ++ tail).
  set (buf := hd ++ tail).
  assert (buf = pre3 ++ post) as Hbuf.
  { unfold buf, pre3, pre2, pre, post. subst hd. repeat (cbn [app] || rewrite <- !app_assoc). done. }
  assert (length hd = length pre3 + length (token_field h) + 4)%nat as Hhd.
  { subst hd. unfold pre3, pre2, pre. autorewrite with lens. unfold put_varint_fixed4.
    rewrite !length_be_bytes. lia. }
  assert (buf = first :: drop 1 buf) as Hfirst by (by rewrite Hbuf).
  clearbody buf. unfold decode_header. rewrite Hfirst at 1. rewrite Hform.
  destruct (Nat.ltb_spec (length buf) 6); [rewrite Hbuf in *; unfold pre3, pre2, pre in *; llia|].
  assert (slice buf 1 5 = Ok (be_bytes 4 VERSION_1)) as ->.
  { rewrite Hbuf. unfold pre3, pre2, pre. rewrite <- !app_assoc.
    apply (slice_app [first] (be_bytes 4 VERSION_1)). }
  cbn [mbind result_bind]. rewrite be_value_be_bytes. change (VERSION_1 mod _) with VERSION_1.
  rewrite (take_cid_at buf pre (lh_dcid h) (u8 (Z.of_nat (len (lh_scid h))) :: as_slice (lh_scid h) ++ post));
    [|done|rewrite Hbuf; unfold pre3, pre2; by repeat (cbn [app] || rewrite <- !app_assoc)|done|cbn; lia].
  cbn [mbind result_bind].
  rewrite (take_cid_at buf pre2 (lh_scid h) post);
    [|done|rewrite Hbuf; unfold pre3; by rewrite <- !app_assoc|unfold pre2, pre; llia|lia].
  cbn [mbind result_bind Z.eqb negb VERSION_1 Pos.eqb].
  replace (5 + 1 + length (as_slice (lh_dcid h)) + 1 + length (as_slice (lh_scid h)))%nat
    with (length pre3) by (unfold pre3, pre2, pre; llia).
  rewrite (decode_kind_at h buf pre3 first payload_len tail); [|done..]. by rewrite Hhd.
Qed.

(** No datagram makes the header parser panic, and whatever it accepts is
    within the datagram: packet number before packet end, packet end before
    datagram end, and a Long packet always advances past its header. *)
Theorem decode_header_safe (buf : bytes) (local_cid_len : nat) (Hok : bytes_ok buf) :
  no_panic (decode_header buf local_cid_len) ∧
  ∀ inc, decode_header buf local_cid_len = Ok inc → incoming_ok buf inc.
Proof.
  pose proof (decode_header_wp buf local_cid_len Hok) as Hwp.
  split; [by eapply wp_no_panic|]. intros inc. by apply wp_elim.
Qed.

Lemma decode_header_safe_witness :
  no_panic (decode_header [0xc3; 0; 0; 0; 1; 0; 0; 0; 0x40] 8) ∧
  ∀ inc, decode_header [0xc3; 0; 0; 0; 1; 0; 0; 0; 0x40] 8 = Ok inc →
    incoming_ok [0xc3; 0; 0; 0; 1; 0; 0; 0; 0x40] inc.
Proof. apply (decode_header_safe [0xc3; 0; 0; 0; 1; 0; 0; 0; 0x40] 8). by_decide. Defined.

(** A long header written for a payload, with anything coalesced behind
    it, decodes to the packet's space and source connection ID, a packet number
    right behind the header and an end exactly [payload_len] bytes later; and
    the first byte carries the packet-number length. *)
Theorem long_header_roundtrip (h : LongHeader) (pn_len payload_len n : nat) (tail : bytes)
    (Hh : long_ok h) (Hpn : (1 ≤ pn_len ≤ 4)%nat) (Hpl : Z.of_nat payload_len < 2 ^ 30)
    (Htail : bytes_ok tail) (Hlen : (payload_len ≤ length tail)%nat) :
  ∃ first rest,
    long_put h pn_len payload_len = Ok (first :: rest) ∧
    (Z.to_nat (Z.land first 3) + 1)%nat = pn_len ∧
    decode_header ((first :: rest) ++ tail) n =
      Ok (Long (lh_space h) (lh_scid h) (length (first :: rest))
            (length (first :: rest) + payload_len)).
Proof.
  assert (∃ kind, (kind = TYPE_INITIAL ∨ kind = TYPE_HANDSHAKE) ∧
    ∃ rest, long_put h pn_len payload_len =
      Ok (Z.lor (Z.lor (Z.lor FORM_LONG FIXED_BIT) kind) (u8 (u8 (Z.of_nat pn_len) - 1)) :: rest))
    as (kind & Hk & rest & Hput).
  { destruct Hh as [Hsp _]. unfold long_put. destruct (lh_space h); [| |done]; cbn [mbind result_bind].
    - eexists. split; [by left|]. by eexists.
    - eexists. split; [by right|]. by eexists. }
  eexists _, _. split; [exact Hput|]. split; [by apply long_first|].
  by eapply decode_long_at.
Qed.

Lemma long_header_roundtrip_witness :
  let cid := mkConnectionId 3 [1; 2; 3; 0; 0; 0; 0; 0; 0; 0; 0; 0; 0; 0; 0; 0; 0; 0; 0; 0] in
  let h := mkLongHeader Initial cid cid [7; 7] in
  ∃ first rest,
    long_put h 2 30 = Ok (first :: rest) ∧
    (Z.to_nat (Z.land first 3) + 1)%nat = 2%nat ∧
    decode_header ((first :: rest) ++ replicate 40 9) 8 =
      Ok (Long (lh_space h) (lh_scid h) (length (first :: rest))
            (length (first :: rest) + 30)).
Proof.
  apply long_header_roundtrip.
  - unfold long_ok, cid_ok. by_decide.
  - lia.
  - lia.
  - by_decide.
  - cbn. lia.
Defined.

(** A short header followed by at least four bytes decodes to a packet
    number right behind the connection ID, running to the end of the datagram;
    its first byte carries the packet-number length and the key phase. *)
Theorem short_header_roundtrip (dcid : ConnectionId) (pn_len : nat) (key_phase : bool) (tail : bytes)
    (Hpn : (1 ≤ pn_len ≤ 4)%nat) (Htail : (4 ≤ length tail)%nat) :
  let hd := put_short_header dcid pn_len key_phase in
  decode_header (hd ++ tail) (length (as_slice dcid)) =
    Ok (Short (length hd) (length (hd ++ tail))) ∧
  ∃ first, hd !! 0%nat = Some first ∧ (Z.to_nat (Z.land first 3) + 1)%nat = pn_len ∧
           negb (Z.land first 4 =? 0) = key_phase.
Proof.
  unfold put_short_header.
  assert (∃ first, (if key_phase then Z.lor (Z.lor FIXED_BIT (u8 (u8 (Z.of_nat pn_len) - 1))) 4
                    else Z.lor FIXED_BIT (u8 (u8 (Z.of_nat pn_len) - 1))) = first ∧
          Z.land first FORM_LONG = 0 ∧ (Z.to_nat (Z.land first 3) + 1)%nat = pn_len ∧
          negb (Z.land first 4 =? 0) = key_phase) as (first & -> & Hform & H3 & H4).
  { eexists. split; [reflexivity|]. assert (pn_len = 1 ∨ pn_len = 2 ∨ pn_len = 3 ∨ pn_len = 4)%nat
      as [->|[->|[->| ->]]] by lia; destruct key_phase; by_decide. }
  cbn [app length]. unfold decode_header. rewrite Hform. cbn [Z.eqb].
  destruct (Nat.ltb_spec (length (first :: as_slice dcid ++ tail)) (1 + length (as_slice dcid) + 4));
    [llia|]. split; [done|]. by exists first.
Qed.

Lemma short_header_roundtrip_witness :
  let cid := mkConnectionId 3 [1; 2; 3; 0; 0; 0; 0; 0; 0; 0; 0; 0; 0; 0; 0; 0; 0; 0; 0; 0] in
  let hd := put_short_header cid 2 true in
  decode_header (hd ++ [1; 2; 3; 4; 5]) (length (as_slice cid)) =
    Ok (Short (length hd) (length (hd ++ [1; 2; 3; 4; 5]))) ∧
  ∃ first, hd !! 0%nat = Some first ∧ (Z.to_nat (Z.land first 3) + 1)%nat = 2%nat ∧
           negb (Z.land first 4 =? 0) = true.
Proof. apply short_header_roundtrip; cbn; lia. Defined.
End header.
