(* ===== verification/QuicTransport.v ===== *)
(** * Transport parameters — [src/quic/transport.rs] *)

From S2P Require Import Prelude Varint QuicPacket QuicHeader.
Import packet.

Module transport.

Definition MAX_IDLE_TIMEOUT : Z := 0x01.
Definition STATELESS_RESET_TOKEN : Z := 0x02.
Definition MAX_UDP_PAYLOAD_SIZE : Z := 0x03.
Definition INITIAL_MAX_DATA : Z := 0x04.
Definition INITIAL_MAX_STREAM_DATA_BIDI_LOCAL : Z := 0x05.
Definition INITIAL_MAX_STREAM_DATA_BIDI_REMOTE : Z := 0x06.
Definition INITIAL_MAX_STREAM_DATA_UNI : Z := 0x07.
Definition INITIAL_MAX_STREAMS_BIDI : Z := 0x08.
Definition INITIAL_MAX_STREAMS_UNI : Z := 0x09.
Definition ACK_DELAY_EXPONENT : Z := 0x0a.
Definition MAX_ACK_DELAY : Z := 0x0b.
Definition ORIGINAL_DESTINATION_CONNECTION_ID : Z := 0x00.
Definition ACTIVE_CONNECTION_ID_LIMIT_ID : Z := 0x0e.
Definition INITIAL_SOURCE_CONNECTION_ID : Z := 0x0f.
Definition RETRY_SOURCE_CONNECTION_ID : Z := 0x10.
Definition ACTIVE_CONNECTION_ID_LIMIT : Z := 2.

Record Params := mkParams {
  max_idle_timeout_ms : Z;
  max_udp_payload_size : Z;
  initial_max_data : Z;
  initial_max_stream_data_bidi_remote : Z;
  initial_max_stream_data_bidi_local : Z;
  initial_max_stream_data_uni : Z;
  initial_max_streams_bidi : Z;
  initial_max_streams_uni : Z;
  ack_delay_exponent : Z;
  max_ack_delay_ms : Z;
  active_connection_id_limit : Z;
  initial_source_connection_id : option ConnectionId;
  original_destination_connection_id : option ConnectionId;
  retry_source_connection_id : option ConnectionId;
  stateless_reset_token : option bytes;
}.

#[global] Instance Params_eq_dec : EqDecision Params.
Proof. solve_decision. Defined.

(** [Params::default()] *)
Definition default : Params := {|
  max_idle_timeout_ms := 0;
  max_udp_payload_size := 65527;
  initial_max_data := 0;
  initial_max_stream_data_bidi_remote := 0;
  initial_max_stream_data_bidi_local := 0;
  initial_max_stream_data_uni := 0;
  initial_max_streams_bidi := 0;
  initial_max_streams_uni := 0;
  ack_delay_exponent := 3;
  max_ack_delay_ms := 25;
  active_connection_id_limit := 2;
  initial_source_connection_id := None;
  original_destination_connection_id := None;
  retry_source_connection_id := None;
  stateless_reset_token := None;
|}.

(** Field assignments, [out.f = v]. *)
Definition set_max_idle_timeout_ms v '(mkParams a b c d e f g h i j k l m n o) :=
  mkParams v b c d e f g h i j k l m n o.
Definition set_max_udp_payload_size v '(mkParams a b c d e f g h i j k l m n o) :=
  mkParams a v c d e f g h i j k l m n o.
Definition set_initial_max_data v '(mkParams a b c d e f g h i j k l m n o) :=
  mkParams a b v d e f g h i j k l m n o.
Definition set_bidi_remote v '(mkParams a b c d e f g h i j k l m n o) :=
  mkParams a b c v e f g h i j k l m n o.
Definition set_bidi_local v '(mkParams a b c d e f g h i j k l m n o) :=
  mkParams a b c d v f g h i j k l m n o.
Definition set_uni v '(mkParams a b c d e f g h i j k l m n o) :=
  mkParams a b c d e v g h i j k l m n o.
Definition set_streams_bidi v '(mkParams a b c d e f g h i j k l m n o) :=
  mkParams a b c d e f v h i j k l m n o.
Definition set_streams_uni v '(mkParams a b c d e f g h i j k l m n o) :=
  mkParams a b c d e f g v i j k l m n o.
Definition set_ack_delay_exponent v '(mkParams a b c d e f g h i j k l m n o) :=
  mkParams a b c d e f g h v j k l m n o.
Definition set_max_ack_delay_ms v '(mkParams a b c d e f g h i j k l m n o) :=
  mkParams a b c d e f g h i v k l m n o.
Definition set_active_connection_id_limit v '(mkParams a b c d e f g h i j k l m n o) :=
  mkParams a b c d e f g h i j v l m n o.
Definition set_initial_scid v '(mkParams a b c d e f g h i j k l m n o) :=
  mkParams a b c d e f g h i j k v m n o.
Definition set_original_dcid v '(mkParams a b c d e f g h i j k l m n o) :=
  mkParams a b c d e f g h i j k l v n o.
Definition set_retry_scid v '(mkParams a b c d e f g h i j k l m n o) :=
  mkParams a b c d e f g h i j k l m v o.
Definition set_reset_token v '(mkParams a b c d e f g h i j k l m n o) :=
  mkParams a b c d e f g h i j k l m n v.

(** The [int] closure of [Params::decode]. *)
Definition int (value : bytes) : res Z :=
  '(v, n) ← ok_or "transport parameter is not a varint" (get_varint value);
  if negb (n =? length value)%nat then bail "transport parameter has trailing bytes"
  else Ok v.

(** A connection-ID-valued parameter. *)
Definition cid_param (value : bytes) (msg : string) : res ConnectionId :=
  if (MAX_CID_LEN <? length value)%nat then bail msg else cid_new value.

(** The [match id] of [Params::decode]. *)
Definition apply_param (out : Params) (id : Z) (value : bytes) : res Params :=
  if id =? MAX_IDLE_TIMEOUT then v ← int value; Ok (set_max_idle_timeout_ms v out)
  else if id =? MAX_UDP_PAYLOAD_SIZE then v ← int value; Ok (set_max_udp_payload_size v out)
  else if id =? INITIAL_MAX_DATA then v ← int value; Ok (set_initial_max_data v out)
  else if id =? INITIAL_MAX_STREAM_DATA_BIDI_LOCAL then v ← int value; Ok (set_bidi_local v out)
  else if id =? INITIAL_MAX_STREAM_DATA_BIDI_REMOTE then v ← int value; Ok (set_bidi_remote v out)
  else if id =? INITIAL_MAX_STREAM_DATA_UNI then v ← int value; Ok (set_uni v out)
  else if id =? INITIAL_MAX_STREAMS_BIDI then v ← int value; Ok (set_streams_bidi v out)
  else if id =? INITIAL_MAX_STREAMS_UNI then v ← int value; Ok (set_streams_uni v out)
  else if id =? ACK_DELAY_EXPONENT then
    v ← int value;
    if 20 <? v then bail "ack_delay_exponent above the 20 RFC 9000 allows"
    else Ok (set_ack_delay_exponent (u32 v) out)
  else if id =? MAX_ACK_DELAY then
    v ← int value;
    if Z.shiftl 1 14 <=? v then bail "max_ack_delay is out of range"
    else Ok (set_max_ack_delay_ms v out)
  else if id =? ACTIVE_CONNECTION_ID_LIMIT_ID then
    v ← int value;
    if v <? 2 then bail "active_connection_id_limit below the minimum of 2"
    else Ok (set_active_connection_id_limit v out)
  else if id =? INITIAL_SOURCE_CONNECTION_ID then
    c ← cid_param value "initial_source_connection_id is too long";
    Ok (set_initial_scid (Some c) out)
  else if id =? ORIGINAL_DESTINATION_CONNECTION_ID then
    c ← cid_param value "original_destination_connection_id is too long";
    Ok (set_original_dcid (Some c) out)
  else if id =? RETRY_SOURCE_CONNECTION_ID then
    c ← cid_param value "retry_source_connection_id is too long";
    Ok (set_retry_scid (Some c) out)
  else if id =? STATELESS_RESET_TOKEN then
    if negb (length value =? 16)%nat then bail "stateless_reset_token is not 16 bytes"
    else Ok (set_reset_token (Some value) out)
  else Ok out.

(** The loop of [Params::decode]; every iteration consumes at least two bytes. *)
Fixpoint decode_loop (fuel : nat) (out : Params) (buf : bytes) : res Params :=
  match buf with
  | [] => Ok out
  | _ =>
      match fuel with
      | O => panic "out of fuel"
      | S fuel' =>
          '(id, n) ← ok_or "truncated transport parameter id" (get_varint buf);
          buf ← slice_from buf n;
          '(len, n) ← ok_or "truncated transport parameter length" (get_varint buf);
          buf ← slice_from buf n;
          if zlen buf <? len then bail "transport parameter runs past the end"
          else
            value ← slice buf 0 (Z.to_nat len);
            rest ← slice_from buf (Z.to_nat len);
            out ← apply_param out id value;
            decode_loop fuel' out rest
      end
  end.

(** [Params::decode] *)
Definition decode (buf : bytes) : res Params := decode_loop (length buf) default buf.

(** [LocalParams] *)
Record LocalParams := mkLocalParams {
  lp_initial_max_data : Z;
  lp_initial_max_stream_data_bidi_local : Z;
  lp_initial_max_stream_data_uni : Z;
  lp_initial_max_streams_uni : Z;
  lp_max_idle_timeout_ms : Z;
  lp_max_udp_payload_size : Z;
  lp_source_connection_id : ConnectionId;
}.

(** The [put] closure of [LocalParams::encode]. *)
Definition put (id value : Z) : bytes :=
  let tmp := put_varint value in
  put_varint id ++ put_varint (zlen tmp) ++ tmp.

(** [LocalParams::encode] *)
Definition encode (p : LocalParams) : bytes :=
  put INITIAL_MAX_DATA (lp_initial_max_data p)
  ++ put INITIAL_MAX_STREAM_DATA_BIDI_LOCAL (lp_initial_max_stream_data_bidi_local p)
  ++ put INITIAL_MAX_STREAM_DATA_UNI (lp_initial_max_stream_data_uni p)
  ++ put INITIAL_MAX_STREAMS_UNI (lp_initial_max_streams_uni p)
  ++ put INITIAL_MAX_STREAMS_BIDI 0
  ++ put MAX_IDLE_TIMEOUT (lp_max_idle_timeout_ms p)
  ++ put MAX_UDP_PAYLOAD_SIZE (lp_max_udp_payload_size p)
  ++ put MAX_ACK_DELAY 0
  ++ put ACTIVE_CONNECTION_ID_LIMIT_ID ACTIVE_CONNECTION_ID_LIMIT
  ++ put_varint INITIAL_SOURCE_CONNECTION_ID
  ++ put_varint (Z.of_nat (len (lp_source_connection_id p)))
  ++ as_slice (lp_source_connection_id p).

(** ** Limits of what is accepted *)

Definition params_ok (p : Params) : Prop :=
  0 ≤ ack_delay_exponent p ≤ 20 ∧ 0 ≤ max_ack_delay_ms p < 2 ^ 14 ∧
  2 ≤ active_connection_id_limit p ∧
  0 ≤ initial_max_data p < 2 ^ 62 ∧ 0 ≤ initial_max_stream_data_bidi_remote p < 2 ^ 62 ∧
  0 ≤ initial_max_streams_bidi p < 2 ^ 62 ∧ 0 ≤ initial_max_stream_data_uni p < 2 ^ 62 ∧
  0 ≤ initial_max_streams_uni p < 2 ^ 62 ∧ 0 ≤ max_idle_timeout_ms p < 2 ^ 62 ∧
  match stateless_reset_token p with Some t => length t = 16%nat | None => True end.

Lemma int_wp value (P : Z → Prop) :
  bytes_ok value → (∀ v, 0 ≤ v < 2 ^ 62 → P v) → wp (int value) P.
Proof.
  intros Hok HP. unfold int. wp_step. wp_step. destruct a as [v n].
  apply get_varint_lt in H; [|done]. by wp_step; [done|]; apply HP.
Qed.

Lemma apply_param_wp out id value :
  bytes_ok value → params_ok out → wp (apply_param out id value) params_ok.
Proof.
  intros Hok Hp. unfold apply_param, cid_param.
  repeat first [wp_step | apply int_wp; [done|] | apply header.cid_new_no_panic | intros ? ?].
  all: destruct out; unfold params_ok in *; cbn in *; rewrite ?Z.ltb_ge, ?Z.leb_gt in *.
  all: destruct Hp as (?&?&?&?&?&?&?&?&?&?); try rewrite u32_small by lia.
  all: rewrite ?negb_false_iff, ?Nat.eqb_eq in *; split_and!; first [assumption | done | lia].
Qed.

Lemma decode_loop_wp fuel out buf :
  bytes_ok buf → (length buf ≤ fuel)%nat → params_ok out → wp (decode_loop fuel out buf) params_ok.
Proof.
  revert out buf. induction fuel as [|fuel IH]; intros out buf Hok Hf Hp; destruct buf as [|b buf];
    try done; [cbn in Hf; lia|].
  cbn [decode_loop]. wp_step. wp_step. destruct a as [id n].
  apply get_varint_bounds in H as (Hn & Hle & _); [|done].
  wp_step. apply wp_slice_from; [done|]. wp_step. wp_step. destruct a as [l n'].
  apply get_varint_bounds in H as (Hn' & Hle' & Hl); [|auto with shb].
  wp_step. apply wp_slice_from; [done|].
  destruct (Z.ltb_spec (zlen (drop n' (drop n (b :: buf)))) l) as [|Hz]; [done|].
  unfold zlen in Hz. wp_step. apply wp_slice; [lia..|]. wp_step. apply wp_slice_from; [lia|].
  wp_step. eapply wp_mono; [apply apply_param_wp; [auto with shb|done]|].
  intros out' Hout'. apply IH; [auto with shb| |done]. llia.
Qed.

(** ** What shb sends, read back *)

Lemma decode_loop_step fuel out out' id value tail :
  0 ≤ id < 2 ^ 62 → zlen value < 2 ^ 62 → bytes_ok (value ++ tail) →
  apply_param out id value = Ok out' →
  decode_loop (S fuel) out (put_varint id ++ put_varint (zlen value) ++ value ++ tail) =
    decode_loop fuel out' tail.
Proof.
  intros Hid Hv Hok Happ. pose proof (zlen_nonneg value).
  assert (bytes_ok (put_varint (zlen value) ++ value ++ tail)) as Hok2
    by (apply bytes_ok_app; split; [by apply put_varint_ok|done]).
  destruct (put_varint id ++ put_varint (zlen value) ++ value ++ tail) as [|b l] eqn:Hb.
  { apply (f_equal length) in Hb. autorewrite with lens in Hb.
    rewrite put_varint_width in Hb by done. destruct (varint_width_fits id Hid). lia. }
  cbn [decode_loop]. rewrite <- Hb. clear b l Hb.
  rewrite get_put_varint by done. cbn [ok_or mbind result_bind].
  rewrite slice_from_app. cbn [mbind result_bind].
  rewrite get_put_varint by done. cbn [ok_or mbind result_bind].
  rewrite slice_from_app. cbn [mbind result_bind].
  destruct (Z.ltb_spec (zlen (value ++ tail)) (zlen value)); [llia|].
  unfold zlen at 1 2. rewrite Nat2Z.id.
  pose proof (slice_app [] value tail) as Hs. cbn [app length Nat.add] in Hs. rewrite Hs.
  cbn [mbind result_bind]. rewrite slice_from_app. cbn [mbind result_bind].
  by rewrite Happ.
Qed.

Lemma int_put_varint v : 0 ≤ v < 2 ^ 62 → int (put_varint v) = Ok v.
Proof.
  intros. unfold int. rewrite get_put_varint_nil by done. cbn [ok_or mbind result_bind].
  by rewrite Nat.eqb_refl.
Qed.

Lemma put_ok id v : 0 ≤ id < 2 ^ 62 → 0 ≤ v < 2 ^ 62 → bytes_ok (put id v).
Proof.
  intros. unfold put. rewrite !bytes_ok_app.
  repeat split; apply put_varint_ok; try lia. apply zlen_nonneg.
Qed.

Lemma decode_loop_put fuel out out' id v tail :
  0 ≤ id < 2 ^ 62 → 0 ≤ v < 2 ^ 62 → bytes_ok tail →
  apply_param out id (put_varint v) = Ok out' →
  decode_loop (S fuel) out (put id v ++ tail) = decode_loop fuel out' tail.
Proof.
  intros Hid Hv Htail Happ. unfold put. rewrite <- !app_assoc. apply decode_loop_step; try done.
  - unfold zlen. rewrite put_varint_width by done. destruct (varint_width_fits v Hv). lia.
  - apply bytes_ok_app. split; [apply put_varint_ok; lia|done].
Qed.

(** Values QUIC can carry. *)
Definition local_ok (p : LocalParams) : Prop :=
  0 ≤ lp_initial_max_data p < 2 ^ 62 ∧ 0 ≤ lp_initial_max_stream_data_bidi_local p < 2 ^ 62 ∧
  0 ≤ lp_initial_max_stream_data_uni p < 2 ^ 62 ∧ 0 ≤ lp_initial_max_streams_uni p < 2 ^ 62 ∧
  0 ≤ lp_max_idle_timeout_ms p < 2 ^ 62 ∧ 0 ≤ lp_max_udp_payload_size p < 2 ^ 62 ∧
  header.cid_ok (lp_source_connection_id p).

(** What a peer learns from them. *)
Definition announced (p : LocalParams) : Params := {|
  max_idle_timeout_ms := lp_max_idle_timeout_ms p;
  max_udp_payload_size := lp_max_udp_payload_size p;
  initial_max_data := lp_initial_max_data p;
  initial_max_stream_data_bidi_remote := 0;
  initial_max_stream_data_bidi_local := lp_initial_max_stream_data_bidi_local p;
  initial_max_stream_data_uni := lp_initial_max_stream_data_uni p;
  initial_max_streams_bidi := 0;
  initial_max_streams_uni := lp_initial_max_streams_uni p;
  ack_delay_exponent := 3;
  max_ack_delay_ms := 0;
  active_connection_id_limit := ACTIVE_CONNECTION_ID_LIMIT;
  initial_source_connection_id := Some (lp_source_connection_id p);
  original_destination_connection_id := None;
  retry_source_connection_id := None;
  stateless_reset_token := None;
|}.

Lemma put_length id v : 0 ≤ id < 2 ^ 62 → 0 ≤ v < 2 ^ 62 → (1 ≤ length (put id v))%nat.
Proof.
  intros Hid Hv. unfold put. autorewrite with lens. rewrite (put_varint_width id) by done.
  destruct (varint_width_fits id Hid). lia.
Qed.

Ltac put_step :=
  erewrite decode_loop_put;
    [|done|done|rewrite ?bytes_ok_app; repeat split; try (by apply put_ok); try done
     |unfold apply_param; rewrite int_put_varint by done; reflexivity].

Lemma decode_encode p : local_ok p → decode (encode p) = Ok (announced p).
Proof.
  intros (H1 & H2 & H3 & H4 & H5 & H6 & Hok & Hl & Hnew).
  pose proof (as_slice_new _ _ Hnew) as [_ Hlen]. unfold decode.
  set (cid := put_varint INITIAL_SOURCE_CONNECTION_ID ++
     put_varint (Z.of_nat (len (lp_source_connection_id p))) ++ as_slice (lp_source_connection_id p)).
  assert (bytes_ok cid) as Hcid.
  { unfold cid. rewrite !bytes_ok_app. repeat split; [apply put_varint_ok; unfold INITIAL_SOURCE_CONNECTION_ID; lia
      |apply put_varint_ok; lia|done]. }
  assert (10 ≤ length (encode p))%nat as Hfuel.
  { unfold encode. rewrite !length_app.
    repeat match goal with |- context [length (put ?i ?v)] =>
      pose proof (put_length i v ltac:(done) ltac:(done)); generalize dependent (length (put i v)); intros end.
    change (length (put_varint INITIAL_SOURCE_CONNECTION_ID)) with 1%nat. lia. }
  destruct (Nat.le_exists_sub _ _ Hfuel) as (k & -> & _). rewrite (Nat.add_comm k). cbn [Nat.add].
  unfold encode. fold cid.
  do 9 put_step. unfold cid. unfold zlen. rewrite Hlen. fold (zlen (as_slice (lp_source_connection_id p))).
  rewrite <- (app_nil_r (as_slice _)) at 2.
  erewrite decode_loop_step; [by destruct k|done|unfold MAX_CID_LEN in Hl; llia|by rewrite app_nil_r|].
  unfold apply_param, cid_param. cbn [Z.eqb]. rewrite (proj2 (Nat.ltb_ge _ _)) by done.
  by rewrite Hnew.
Qed.

Lemma decode_wp buf : bytes_ok buf → wp (decode buf) params_ok.
Proof. intros Hok. apply decode_loop_wp; [done|lia|]. unfold params_ok; cbn; lia. Qed.

(** No transport-parameter block makes the decoder panic or loop, and
    the parameters it accepts obey the limits of RFC 9000 Section 18.2. *)
Theorem params_decode_safe (buf : bytes) (Hok : bytes_ok buf) :
  no_panic (decode buf) ∧ ∀ p, decode buf = Ok p → params_ok p.
Proof.
  split; [by eapply wp_no_panic, decode_wp|]. intros p. by apply wp_elim, decode_wp.
Qed.

Lemma params_decode_safe_witness :
  decode [0x0a; 1; 21] = bail "ack_delay_exponent above the 20 RFC 9000 allows" ∧
  no_panic (decode [0x0a; 1; 20]) ∧ ∀ p, decode [0x0a; 1; 20] = Ok p → params_ok p.
Proof.
  split; [vm_compute; reflexivity|]. apply (params_decode_safe [0x0a; 1; 20]). by_decide.
Defined.

(** The parameters shb announces decode to exactly what it meant: its
    own limits, RFC defaults for the rest, and its source connection ID. *)
Theorem params_roundtrip (p : LocalParams) (Hp : local_ok p) :
  decode (encode p) = Ok (announced p).
Proof. by apply decode_encode. Qed.

Lemma params_roundtrip_witness :
  let cid := mkConnectionId 3 [1; 2; 3; 0; 0; 0; 0; 0; 0; 0; 0; 0; 0; 0; 0; 0; 0; 0; 0; 0] in
  let p := mkLocalParams 1000000 65536 65536 3 30000 1472 cid in
  decode (encode p) = Ok (announced p).
Proof. apply params_roundtrip. unfold local_ok, header.cid_ok. by_decide. Defined.
End transport.
