(* ===== verification/QuicRecvStream.v ===== *)
(** * The receiving half of a stream — [RecvStream] of [src/quic/stream.rs]

    Reassembly of STREAM (and CRYPTO) frames that arrive in any order, with
    overlaps and duplicates, and the flow-control limits they are checked
    against. *)

From S2P Require Import Prelude.
From Stdlib Require Import Sorting.Sorted.

(** [slice::sort_unstable_by_key]: some permutation in key order.  Elements
    with equal keys may come out either way, so the theorems hold for every
    implementation. *)
Class UnstableSort (A : Type) := sort_unstable_by_key : (A → Z) → list A → list A.
Class UnstableSortLaws (A : Type) `{UnstableSort A} := {
  sort_perm key (l : list A) : sort_unstable_by_key key l ≡ₚ l;
  sort_sorted key (l : list A) : StronglySorted (λ a b, key a ≤ key b) (sort_unstable_by_key key l);
}.

Module stream_ids.

(** [Dir] *)
Inductive Dir := Bi | Uni.
#[global] Instance Dir_eq_dec : EqDecision Dir.
Proof. solve_decision. Defined.

Definition stream_dir (id : Z) : Dir := if Z.land id 2 =? 0 then Bi else Uni.
Definition is_client_initiated (id : Z) : bool := Z.land id 1 =? 0.
Definition client_stream_id (dir : Dir) (n : Z) : Z :=
  match dir with Bi => u64 (n * 4) | Uni => u64 (u64 (n * 4) + 2) end.
End stream_ids.

Module recv_stream.

(** [RecvError] *)
Inductive RecvError := FlowControl | StreamLimit | FinalSize | FrameEncoding.
#[global] Instance RecvError_eq_dec : EqDecision RecvError.
Proof. solve_decision. Defined.

(** [RecvError::code] *)
Definition code (e : RecvError) : Z :=
  match e with FlowControl => 0x03 | StreamLimit => 0x04 | FinalSize => 0x06 | FrameEncoding => 0x07 end.

Record RecvStream := mkRecvStream {
  ready : bytes;
  read_offset : Z;
  pending : list (Z * bytes);
  final_size : option Z;
  received : Z;
  max_data : Z;
}.

(** [RecvStream::with_buf] (the buffer is cleared) and [RecvStream::new] *)
Definition with_buf (window : Z) : RecvStream := mkRecvStream [] 0 [] None 0 window.
Definition new (window : Z) : RecvStream := with_buf window.
(** [RecvStream::default()] *)
Definition default : RecvStream := new U64_MAX.

(** [self.read_offset + self.ready.len() as u64] *)
Definition head_of (read_offset : Z) (ready : bytes) : Z := u64 (read_offset + zlen ready).
Definition head (st : RecvStream) : Z := head_of (read_offset st) (ready st).

(** [size_known], [is_finished], [has_data] *)
Definition size_known (st : RecvStream) : bool :=
  match final_size st with Some _ => true | None => false end.
Definition is_finished (st : RecvStream) : bool :=
  match final_size st with Some size => size <=? head st | None => false end.
Definition has_data (st : RecvStream) : bool := negb (length (ready st) =? 0)%nat.

(** [wants_credit] *)
Definition wants_credit (st : RecvStream) (window : Z) : bool :=
  negb (size_known st) && (max_data st <=? u64 (read_offset st + window / 2)).

(** [grant] *)
Definition grant (st : RecvStream) (window : Z) : Z * RecvStream :=
  let m := Z.max (max_data st) (u64 (read_offset st + window)) in
  (m, mkRecvStream (ready st) (read_offset st) (pending st) (final_size st) (received st) m).

(** [check_end] *)
Definition check_end (st : RecvStream) (end_ : Z) (is_final : bool) (connection_credit : Z)
    : result RecvError Z :=
  if match final_size st with
     | Some size => (size <? end_) || (is_final && negb (end_ =? size))
     | None => false
     end || (is_final && (end_ <? received st))
  then Err FinalSize
  else
    let new := saturating_sub end_ (received st) in
    if (max_data st <? end_) || (connection_credit <? new) then Err FlowControl else Ok new.

(** What one in-order piece adds to [ready]: [&data[skip..]] when [skip] is
    short of the end. *)
Definition absorb (read_offset : Z) (ready : bytes) (offset : Z) (data : bytes) : bytes :=
  let skip := head_of read_offset ready - offset in
  if skip <? zlen data then ready ++ drop (Z.to_nat skip) data else ready.

(** [drain_pending] on the two buffers it touches. *)
Fixpoint drain_pending (read_offset : Z) (ready : bytes) (pending : list (Z * bytes))
    : bytes * list (Z * bytes) :=
  match pending with
  | [] => (ready, [])
  | (offset, data) :: rest =>
      if head_of read_offset ready <? offset then (ready, pending)
      else drain_pending read_offset (absorb read_offset ready offset data) rest
  end.

(** [consume]: [f] sees everything that is ready and decides whether it goes. *)
Definition consume (st : RecvStream) (f : bytes → res unit) : res (nat * RecvStream) :=
  if (length (ready st) =? 0)%nat then Ok (0%nat, st)
  else
    _ ← f (ready st);
    Ok (length (ready st),
        mkRecvStream [] (u64 (read_offset st + zlen (ready st))) (pending st) (final_size st)
          (received st) (max_data st)).

(** [reset] *)
Definition reset (st : RecvStream) (fsize connection_credit : Z) : result RecvError (Z * RecvStream) :=
  new ← check_end st fsize true connection_credit;
  Ok (new, mkRecvStream (ready st) (read_offset st) (pending st) (Some fsize) fsize (max_data st)).

Section push.
Context `{UnstableSort (Z * bytes)}.

(** [push_with_credit] *)
Definition push_with_credit (st : RecvStream) (offset : Z) (data : bytes) (fin : bool)
    (connection_credit : Z) : result RecvError (Z * RecvStream) :=
  end_ ← match checked_add offset (zlen data) with
         | Some e => if e <? Z.shiftl 1 62 then Ok e else Err FrameEncoding
         | None => Err FrameEncoding
         end;
  new ← check_end st end_ fin connection_credit;
  let final_size := if fin then Some end_ else final_size st in
  let received := Z.max (received st) end_ in
  if offset <=? head st then
    let '(ready', pending') :=
      drain_pending (read_offset st) (absorb (read_offset st) (ready st) offset data) (pending st) in
    Ok (new, mkRecvStream ready' (read_offset st) pending' final_size received (max_data st))
  else if negb (length data =? 0)%nat then
    Ok (new, mkRecvStream (ready st) (read_offset st)
               (sort_unstable_by_key fst (pending st ++ [(offset, data)]))
               final_size received (max_data st))
  else Ok (new, mkRecvStream (ready st) (read_offset st) (pending st) final_size received (max_data st)).

(** [push] *)
Definition push (st : RecvStream) (offset : Z) (data : bytes) (fin : bool)
    : result RecvError (Z * RecvStream) :=
  push_with_credit st offset data fin U64_MAX.
End push.

(** ** The specification: one byte stream

    [S x] is the byte the peer put at offset [x].  A frame agrees with the
    stream when its bytes are the stream's; frames cover offsets. *)

Definition agrees (S : Z → Z) (o : Z) (d : bytes) : Prop := d = S <$> seqZ o (zlen d).
Definition prefix (S : Z → Z) (n : Z) : bytes := S <$> seqZ 0 n.
Definition covers (f : Z * bytes) (x : Z) : Prop := fst f ≤ x < fst f + zlen (snd f).
Definition covered (fs : list (Z * bytes)) (x : Z) : Prop := Exists (λ f, covers f x) fs.

Lemma agrees_drop S o d k :
  agrees S o d → (k ≤ length d)%nat → agrees S (o + Z.of_nat k) (drop k d).
Proof.
  unfold agrees. intros Hd Hk. rewrite Hd at 1. rewrite <- fmap_drop. f_equal.
  assert (zlen d = Z.of_nat k + zlen (drop k d)) as -> by llia.
  rewrite seqZ_app by llia. rewrite drop_app_ge by (rewrite length_seqZ; lia).
  rewrite length_seqZ, Nat2Z.id, Nat.sub_diag. by rewrite drop_0.
Qed.

Lemma agrees_app S o d e : agrees S o d → agrees S (o + zlen d) e → agrees S o (d ++ e).
Proof.
  unfold agrees. intros Hd He. rewrite zlen_app, seqZ_app by auto with shb.
  rewrite fmap_app. by f_equal.
Qed.

(** Absorbing a piece that starts at or before the head keeps the buffer equal
    to the stream and moves the head to the end of the piece, if that is
    further. *)
Lemma absorb_agrees S ro rd o d :
  agrees S ro rd → agrees S o d → 0 ≤ ro → 0 ≤ o → ro + zlen rd < 2 ^ 62 → o ≤ ro + zlen rd →
  agrees S ro (absorb ro rd o d) ∧
  zlen (absorb ro rd o d) = Z.max (zlen rd) (o + zlen d - ro).
Proof.
  intros Hrd Hd Hro Ho Hb Hle. unfold absorb, head_of. pose proof (zlen_nonneg rd).
  rewrite u64_small by lia. destruct (Z.ltb_spec (ro + zlen rd - o) (zlen d)) as [Hs|Hs].
  - set (k := Z.to_nat (ro + zlen rd - o)). assert (Z.of_nat k = ro + zlen rd - o) as Hk by lia.
    split; [|unfold zlen in *; rewrite length_app, length_drop; lia].
    apply agrees_app; [done|].
    replace (ro + zlen rd) with (o + Z.of_nat k) by lia. apply agrees_drop; [done|].
    clearbody k. llia.
  - split; [done|lia].
Qed.

(** A buffered piece: bytes of the stream, within what has been accounted. *)
Definition piece_ok (S : Z → Z) (bound : Z) (f : Z * bytes) : Prop :=
  0 ≤ fst f ∧ agrees S (fst f) (snd f) ∧ fst f + zlen (snd f) ≤ bound.

Abbreviation by_offset := (StronglySorted (λ a b : Z * bytes, fst a ≤ fst b)).

Lemma covered_cons f fs x : covered (f :: fs) x ↔ covers f x ∨ covered fs x.
Proof. apply Exists_cons. Qed.
Lemma covered_nil x : ¬ covered [] x.
Proof. by intros ?%Exists_nil. Qed.

Lemma drain_pending_spec S ro rd ps bound rd' ps' :
  agrees S ro rd → 0 ≤ ro → ro + zlen rd ≤ bound → bound < 2 ^ 62 →
  by_offset ps → Forall (piece_ok S bound) ps →
  drain_pending ro rd ps = (rd', ps') →
  agrees S ro rd' ∧ zlen rd ≤ zlen rd' ∧ ro + zlen rd' ≤ bound ∧
  by_offset ps' ∧ Forall (piece_ok S bound) ps' ∧ Forall (λ f, ro + zlen rd' < fst f) ps' ∧
  (∀ x, ro + zlen rd' ≤ x → covered ps x → covered ps' x).
Proof.
  intros Hrd Hro Hb H62 Hs Hps. revert rd Hrd Hb. induction ps as [|[o d] ps IH]; intros rd Hrd Hb Hdr.
  - cbn in Hdr. simplify_eq. repeat split; try done; constructor.
  - cbn [drain_pending] in Hdr. pose proof (zlen_nonneg rd). unfold head_of in Hdr.
    rewrite u64_small in Hdr by lia.
    pose proof Hs as [Hs' Hall]%StronglySorted_inv. pose proof Hps as [(?&Hd&He) Hps']%Forall_cons.
    cbn [fst snd] in *. destruct (Z.ltb_spec (ro + zlen rd) o).
    + simplify_eq. repeat split; try done; try lia. constructor; [cbn; lia|].
      eapply Forall_impl; [exact Hall|]. intros f Hf. cbn in Hf. lia.
    + destruct (absorb_agrees S ro rd o d) as [Ha Hz]; try done; try lia.
      destruct (IH Hs' Hps' (absorb ro rd o d) Ha ltac:(lia) Hdr) as (?&?&?&?&?&?&Hcov).
      repeat split; try done; try lia. intros x Hx [Hc|Hc]%covered_cons; [|by apply Hcov].
      unfold covers in Hc. cbn in Hc. lia.
Qed.

(** ** The shape of a stream, whatever its bytes

    A peer may send contradictory bytes at one offset; offsets and totals stay
    consistent all the same. *)

Definition geom (st : RecvStream) : Prop :=
  0 ≤ read_offset st ∧ read_offset st + zlen (ready st) ≤ received st < 2 ^ 62 ∧
  Forall (λ f, 0 ≤ fst f ∧ fst f + zlen (snd f) ≤ received st) (pending st) ∧
  received st ≤ max_data st.

Lemma new_geom window : 0 ≤ window → geom (new window).
Proof. intros. unfold geom. cbn. change (zlen []) with 0. repeat split; try lia. constructor. Qed.

Lemma absorb_zlen ro rd o d :
  0 ≤ ro → o ≤ ro + zlen rd < 2 ^ 62 → zlen (absorb ro rd o d) = Z.max (zlen rd) (o + zlen d - ro).
Proof.
  intros Hro Ho. unfold absorb, head_of. pose proof (zlen_nonneg rd). rewrite u64_small by lia.
  destruct (Z.ltb_spec (ro + zlen rd - o) (zlen d)); [|lia].
  unfold zlen in *. rewrite length_app, length_drop. lia.
Qed.

Lemma drain_geom ro rd ps bound rd' ps' :
  0 ≤ ro → ro + zlen rd ≤ bound < 2 ^ 62 →
  Forall (λ f : Z * bytes, 0 ≤ fst f ∧ fst f + zlen (snd f) ≤ bound) ps →
  drain_pending ro rd ps = (rd', ps') →
  ro + zlen rd' ≤ bound ∧ Forall (λ f : Z * bytes, 0 ≤ fst f ∧ fst f + zlen (snd f) ≤ bound) ps'.
Proof.
  intros Hro Hb Hps. revert rd Hb. induction Hps as [|[o d] ps [Ho Hd] Hps IH]; intros rd Hb Hdr.
  - cbn in Hdr. simplify_eq. by split; [lia|].
  - cbn [drain_pending] in Hdr. pose proof (zlen_nonneg rd). cbn [fst snd] in *.
    unfold head_of in Hdr. rewrite u64_small in Hdr by lia.
    destruct (Z.ltb_spec (ro + zlen rd) o).
    + simplify_eq. split; [lia|]. by constructor.
    + apply IH in Hdr; [done|]. rewrite absorb_zlen by lia. lia.
Qed.

(** ** Traces *)

Inductive op : Type :=
| Push (offset : Z) (data : bytes) (fin : bool) (credit : Z)
| Consume (accept : bool)
| Reset (fsize credit : Z)
| Grant (window : Z).

(** The stream with what the application has been given so far, the frames
    accepted, and the connection credit they have spent. *)
Record ghost := mkGhost {
  g_st : RecvStream;
  g_delivered : bytes;
  g_accepted : list (Z * bytes);
  g_spent : Z;
}.

Section traces.
Context `{UnstableSortLaws (Z * bytes)}.

Definition step (g : ghost) (o : op) : ghost :=
  match o with
  | Push offset data fin credit =>
      match push_with_credit (g_st g) offset data fin credit with
      | Ok (n, st') => mkGhost st' (g_delivered g) ((offset, data) :: g_accepted g) (g_spent g + n)
      | Err _ => g
      end
  | Consume accept =>
      match consume (g_st g) (λ _, if accept then Ok tt else bail "rejected") with
      | Ok (n, st') => mkGhost st' (g_delivered g ++ take n (ready (g_st g))) (g_accepted g) (g_spent g)
      | Err _ => g
      end
  | Reset fsize credit =>
      match reset (g_st g) fsize credit with
      | Ok (n, st') => mkGhost st' (g_delivered g) (g_accepted g) (g_spent g + n)
      | Err _ => g
      end
  | Grant window => mkGhost (snd (grant (g_st g) window)) (g_delivered g) (g_accepted g) (g_spent g)
  end.

Definition start (window : Z) : ghost := mkGhost (new window) [] [] 0.
Definition run (window : Z) (ops : list op) : ghost := foldl step (start window) ops.

(** Every frame of the trace carries bytes of the stream [S]; lengths and
    offsets are what the frame parser can produce. *)
Definition op_ok (S : Z → Z) (o : op) : Prop :=
  match o with
  | Push offset data _ _ => 0 ≤ offset < 2 ^ 62 ∧ agrees S offset data ∧ zlen data < 2 ^ 62
  | Reset fsize _ => 0 ≤ fsize < 2 ^ 62
  | _ => True
  end.

Definition inv (S : Z → Z) (g : ghost) : Prop :=
  let st := g_st g in
  0 ≤ read_offset st ∧ agrees S (read_offset st) (ready st) ∧
  g_delivered g = prefix S (read_offset st) ∧
  read_offset st + zlen (ready st) ≤ received st < 2 ^ 62 ∧
  by_offset (pending st) ∧ Forall (piece_ok S (received st)) (pending st) ∧
  Forall (λ f, read_offset st + zlen (ready st) < fst f) (pending st) ∧
  (∀ x, read_offset st + zlen (ready st) ≤ x → covered (g_accepted g) x → covered (pending st) x) ∧
  g_spent g = received st ∧ received st ≤ max_data st ∧
  (∀ f, final_size st = Some f → received st = f).

Lemma check_end_Ok st e fin credit n :
  check_end st e fin credit = Ok n →
  n = Z.max 0 (e - received st) ∧ e ≤ max_data st ∧ n ≤ credit ∧
  (fin = true → received st ≤ e) ∧
  (∀ size, final_size st = Some size → e ≤ size ∧ (fin = true → e = size)).
Proof.
  unfold check_end, saturating_sub. intros Hc.
  destruct (match final_size st with Some _ => _ | None => _ end || _) eqn:Hf; [done|].
  apply orb_false_iff in Hf as [Hf1 Hf2].
  destruct ((max_data st <? e) || _) eqn:Hm; [done|]. apply orb_false_iff in Hm as [?%Z.ltb_ge ?%Z.ltb_ge].
  apply Ok_inj in Hc as <-. split; [done|]. split; [lia|]. split; [done|]. split.
  - intros ->. cbn in Hf2. by apply Z.ltb_ge.
  - intros size Hs. rewrite Hs in Hf1. apply orb_false_iff in Hf1 as [?%Z.ltb_ge Hne]. split; [done|].
    intros ->. apply negb_false_iff in Hne. by apply Z.eqb_eq.
Qed.

Lemma push_geom st offset data fin credit n st' :
  push_with_credit st offset data fin credit = Ok (n, st') → 0 ≤ offset → geom st →
  geom st' ∧ received st' = received st + n ∧ 0 ≤ n ≤ credit ∧
  read_offset st' = read_offset st ∧ max_data st' = max_data st ∧
  (size_known st = true → size_known st' = true).
Proof.
  intros Hp Ho (Hro & Hhd & Hps & Hmax). pose proof (zlen_nonneg (ready st)). pose proof (zlen_nonneg data).
  unfold push_with_credit in Hp. apply bind_Ok in Hp as (e & He & Hp).
  assert (e = offset + zlen data ∧ e < 2 ^ 62) as [-> He62].
  { unfold checked_add in He. case_decide; [|done]. rewrite Z.shiftl_1_l in He.
    destruct (Z.ltb_spec (offset + zlen data) (2 ^ 62)); [|done]. by apply Ok_inj in He as <-. }
  apply bind_Ok in Hp as (n' & Hc & Hp). apply check_end_Ok in Hc as (-> & Hemax & Hcr & Hge & Hfe).
  assert (∀ rcv, Z.max (received st) (offset + zlen data) = rcv → rcv = received st + Z.max 0 (offset + zlen data - received st)) as Hrcv by lia.
  set (rcv := Z.max (received st) _) in *.
  assert (Forall (λ f : Z * bytes, 0 ≤ fst f ∧ fst f + zlen (snd f) ≤ rcv) (pending st)) as Hps'
    by (eapply Forall_impl; [exact Hps|]; cbn; intros; lia).
  assert (∀ rd ps, size_known st = true →
    size_known (mkRecvStream rd (read_offset st) ps (if fin then Some (offset + zlen data) else final_size st) rcv
      (max_data st)) = true) as Hsk by (intros rd ps; unfold size_known; cbn; by destruct fin).
  unfold head, head_of in Hp. rewrite u64_small in Hp by lia.
  destruct (Z.leb_spec offset (read_offset st + zlen (ready st))).
  - destruct (drain_pending _ _ _) as [rd' ps'] eqn:Hdr.
    apply (drain_geom _ _ _ rcv) in Hdr as [? ?]; [|done| |done].
    2: { rewrite absorb_zlen by lia. lia. }
    injection Hp as <- <-. unfold geom. cbn. repeat split; try done; try lia. apply Hsk.
  - destruct (negb _); injection Hp as <- <-; unfold geom; cbn; repeat split; try done; try lia; try apply Hsk.
    rewrite sort_perm. apply Forall_app. split; [done|]. repeat constructor; cbn; lia.
Qed.

Lemma reset_geom st fsize credit n st' :
  reset st fsize credit = Ok (n, st') → 0 ≤ fsize < 2 ^ 62 → geom st →
  geom st' ∧ received st' = received st + n ∧ 0 ≤ n ≤ credit ∧ size_known st' = true.
Proof.
  intros Hr Hf (Hro & Hhd & Hps & Hmax). unfold reset in Hr. apply bind_Ok in Hr as (n' & Hc & Hr).
  apply check_end_Ok in Hc as (-> & Hemax & Hcr & Hge & Hfe). specialize (Hge eq_refl).
  injection Hr as <- <-. unfold geom. cbn. repeat split; try done; try lia.
  eapply Forall_impl; [exact Hps|]. cbn. intros. lia.
Qed.

Lemma consume_geom st f n st' :
  consume st f = Ok (n, st') → geom st → geom st' ∧ received st' = received st.
Proof.
  unfold consume. intros Hc (Hro & Hhd & Hps & Hmax). pose proof (zlen_nonneg (ready st)).
  destruct (length (ready st) =? 0)%nat.
  - injection Hc as <- <-. done.
  - apply bind_Ok in Hc as (? & _ & Hc). injection Hc as <- <-. unfold geom. cbn -[u64].
    rewrite u64_small by lia. change (zlen []) with 0. repeat split; try done; try lia.
Qed.

(** Granting a window leaves no more credit owed. *)
Lemma grant_geom st window limit st' :
  grant st window = (limit, st') → 0 < window < 2 ^ 62 → geom st →
  geom st' ∧ received st' = received st ∧ wants_credit st' window = false.
Proof.
  unfold grant. intros [= <- <-] Hw (Hro & Hhd & Hps & Hmax). pose proof (zlen_nonneg (ready st)).
  unfold geom, wants_credit. cbn. repeat split; try done; try lia.
  pose proof (Z.div_lt window 2 ltac:(lia) ltac:(lia)). pose proof (Z.div_pos window 2 ltac:(lia) ltac:(lia)).
  apply andb_false_iff. right. apply Z.leb_gt. rewrite !u64_small by lia. lia.
Qed.

Lemma piece_ok_mono S b b' f : b ≤ b' → piece_ok S b f → piece_ok S b' f.
Proof. unfold piece_ok. intuition lia. Qed.

Lemma covered_perm fs fs' x : fs ≡ₚ fs' → covered fs x → covered fs' x.
Proof.
  unfold covered. rewrite !Exists_exists. intros Hp (f & Hf & Hx). exists f. split; [|done].
  by rewrite <- Hp.
Qed.

(** Accepting a frame: the two ways data is stored. *)
Lemma push_inv S g offset data fin credit :
  op_ok S (Push offset data fin credit) → inv S g → inv S (step g (Push offset data fin credit)).
Proof.
  intros (Ho & Hd & Hdl) Hinv.
  pose proof Hinv as (Hro & Hrd & Hdel & Hhd & Hsort & Hps & Hgt & Hcov & Hsp & Hmax & Hfin).
  pose proof (zlen_nonneg (ready (g_st g))). pose proof (zlen_nonneg data).
  cbn [step]. unfold push_with_credit, checked_add. rewrite decide_True by lia.
  rewrite Z.shiftl_1_l. destruct (Z.ltb_spec (offset + zlen data) (2 ^ 62)) as [He|]; [|done].
  cbn [mbind result_bind]. set (e := offset + zlen data) in *.
  destruct (check_end (g_st g) e fin credit) as [n|] eqn:Hc; [|done]. cbn [mbind result_bind].
  apply check_end_Ok in Hc as (-> & Hemax & _ & Hge & Hfe).
  set (rcv := Z.max (received (g_st g)) e).
  assert (Forall (piece_ok S rcv) (pending (g_st g))) as Hps'
    by (eapply Forall_impl; [exact Hps|]; intros; eapply piece_ok_mono; [|done]; lia).
  assert (∀ f, (if fin then Some e else final_size (g_st g)) = Some f → rcv = f) as Hfin'.
  { intros f Hf. destruct fin; [injection Hf as <-; specialize (Hge eq_refl); lia|].
    specialize (Hfin f Hf). specialize (Hfe f Hf). lia. }
  unfold head, head_of. rewrite u64_small by lia.
  destruct (Z.leb_spec offset (read_offset (g_st g) + zlen (ready (g_st g)))) as [Hle|Hgt'].
  - destruct (absorb_agrees S (read_offset (g_st g)) (ready (g_st g)) offset data) as [Ha Hz]; [done|done|lia..|].
    destruct (drain_pending _ _ _) as [rd' ps'] eqn:Hdr.
    eapply (drain_pending_spec S _ _ _ rcv) in Hdr as (?&?&?&?&?&?&Hc); [|done|lia|lia|lia|done|done].
    unfold inv. cbn. repeat split; try done; try lia.
    intros x Hx [Hx'|Hx']%covered_cons.
    + unfold covers in Hx'. cbn in Hx'. lia.
    + apply Hc; [done|]. apply Hcov; [lia|done].
  - destruct (Nat.eqb_spec (length data) 0) as [Hz|Hz]; cbn [negb]; unfold inv; cbn.
    + repeat split; try done; try lia. intros x Hx [Hx'|Hx']%covered_cons; [|by apply Hcov].
      unfold covers, zlen in Hx'. cbn in Hx'. lia.
    + pose proof (sort_perm fst (pending (g_st g) ++ [(offset, data)])) as Hp.
      repeat split; try done; try lia.
      * apply sort_sorted.
      * rewrite Hp. apply Forall_app. split; [done|]. repeat constructor; cbn; try lia; try done.
      * rewrite Hp. apply Forall_app. split; [done|]. by repeat constructor.
      * intros x Hx Hx'. eapply covered_perm; [symmetry; exact Hp|]. unfold covered. rewrite Exists_app.
        apply covered_cons in Hx' as [Hx'|Hx']; [right; by constructor|left; by apply Hcov].
Qed.

Lemma recv_step_inv S g o : op_ok S o → inv S g → inv S (step g o).
Proof.
  intros Ho Hinv. pose proof Hinv as (Hro & Hrd & Hdel & Hhd & Hsort & Hps & Hgt & Hcov & Hsp & Hmax & Hfin).
  pose proof (zlen_nonneg (ready (g_st g))).
  destruct o as [offset data fin credit|accept|fsize credit|window]; cbn [step].
  - by apply push_inv.
  - unfold consume. destruct (Nat.eqb_spec (length (ready (g_st g))) 0) as [Hz|Hz].
    + cbn. rewrite app_nil_r. by destruct g.
    + destruct accept; [|done]. cbn [mbind result_bind bail].
      rewrite firstn_all. unfold inv. cbn -[u64]. rewrite u64_small by lia.
      change (zlen []) with 0.
      repeat split; try done; try lia.
      * rewrite Hdel. unfold prefix. rewrite seqZ_app, fmap_app by lia. cbn. by rewrite <- Hrd.
      * eapply Forall_impl; [exact Hgt|]. intros f. cbn. lia.
      * intros x Hx. apply Hcov. lia.
  - unfold reset. destruct (check_end _ _ _ _) as [n|] eqn:Hc; [|done]. cbn [mbind result_bind].
    apply check_end_Ok in Hc as (-> & ? & ? & Hge & Hf). specialize (Hge eq_refl). cbn in Ho.
    unfold inv. cbn. repeat split; try done; try lia.
    + eapply Forall_impl; [exact Hps|]. intros f. by apply piece_ok_mono.
    + intros f [= <-]. done.
  - unfold inv. cbn. repeat split; try done; try lia.
Qed.

Lemma recv_run_inv S window ops :
  0 ≤ window → Forall (op_ok S) ops → inv S (run window ops).
Proof.
  intros Hw. unfold run. induction ops as [|o ops IH] using rev_ind; intros Hops.
  - cbn. unfold inv. cbn. repeat split; try done; try constructor; try lia.
  - apply Forall_app in Hops as [Hops [Ho _]%Forall_cons]. rewrite foldl_snoc. apply recv_step_inv; auto.
Qed.

(** C31: Whatever order, overlap or duplication the frames of a stream arrive
    in, what the application has been handed, followed by what is ready for it,
    is exactly the stream's first [head] bytes; and [head] reaches [n] as soon
    as the accepted frames cover the first [n] offsets: no byte is corrupted,
    reordered, delivered twice or withheld. *)
Theorem recv_reassembles (S : Z → Z) (window : Z) (ops : list op)
    (Hw : 0 ≤ window) (Hops : Forall (op_ok S) ops) :
  let g := run window ops in
  g_delivered g ++ ready (g_st g) = prefix S (head (g_st g)) ∧
  (∀ n, (∀ x, 0 ≤ x < n → covered (g_accepted g) x) → n ≤ head (g_st g)) ∧
  (∀ f, final_size (g_st g) = Some f → is_finished (g_st g) = true →
     g_delivered g ++ ready (g_st g) = prefix S f).
Proof.
  pose proof (recv_run_inv S window ops Hw Hops) as Hinv. intros g. fold g in Hinv.
  destruct Hinv as (Hro & Hrd & Hdel & Hhd & Hsort & Hps & Hgt & Hcov & Hsp & Hmax & Hfin).
  pose proof (zlen_nonneg (ready (g_st g))).
  assert (head (g_st g) = read_offset (g_st g) + zlen (ready (g_st g))) as Hhead
    by (unfold head, head_of; rewrite u64_small; lia).
  assert (g_delivered g ++ ready (g_st g) = prefix S (head (g_st g))) as Heq.
  { rewrite Hdel, Hhead. unfold prefix. rewrite seqZ_app, fmap_app by lia. cbn. by rewrite <- Hrd. }
  split; [done|]. split.
  - intros n Hn. destruct (decide (n ≤ head (g_st g))); [done|].
    assert (covered (pending (g_st g)) (head (g_st g))) as Hc.
    { apply Hcov; [lia|]. apply Hn. lia. }
    apply Exists_exists in Hc as (f & Hf & Hx). rewrite Forall_forall in Hgt.
    specialize (Hgt f Hf). unfold covers in Hx. lia.
  - intros f Hf Hfinished. unfold is_finished in Hfinished. rewrite Hf in Hfinished.
    apply Z.leb_le in Hfinished. specialize (Hfin f Hf). rewrite Heq. f_equal. lia.
Qed.

(** Flow control is exact: the credit charged to the connection over any
    sequence of frames and resets is the highest offset the peer has used, the
    stream never holds data past the limit it advertised, and a known final
    size is that highest offset. *)
Theorem recv_flow_control (S : Z → Z) (window : Z) (ops : list op)
    (Hw : 0 ≤ window) (Hops : Forall (op_ok S) ops) :
  let g := run window ops in
  g_spent g = received (g_st g) ∧
  head (g_st g) ≤ received (g_st g) ∧ received (g_st g) ≤ max_data (g_st g) ∧
  Forall (λ f, fst f + zlen (snd f) ≤ received (g_st g)) (pending (g_st g)) ∧
  (∀ f, final_size (g_st g) = Some f → received (g_st g) = f).
Proof.
  pose proof (recv_run_inv S window ops Hw Hops) as Hinv. intros g. fold g in Hinv.
  destruct Hinv as (Hro & Hrd & Hdel & Hhd & Hsort & Hps & Hgt & Hcov & Hsp & Hmax & Hfin).
  pose proof (zlen_nonneg (ready (g_st g))). repeat split; try done.
  - unfold head, head_of. rewrite u64_small by lia. lia.
  - eapply Forall_impl; [exact Hps|]. by intros f (_ & _ & ?).
Qed.
End traces.

(** ** An instance: insertion sort *)

Fixpoint insert_by {A} (key : A → Z) (x : A) (l : list A) : list A :=
  match l with
  | [] => [x]
  | y :: l' => if key x <=? key y then x :: y :: l' else y :: insert_by key x l'
  end.

#[export] Instance insertion_sort {A} : UnstableSort A := λ key l, foldr (insert_by key) [] l.

Lemma insert_by_perm {A} key (x : A) l : insert_by key x l ≡ₚ x :: l.
Proof.
  induction l as [|y l IH]; cbn; [done|]. case_match; [done|]. rewrite IH. constructor.
Qed.

#[export] Instance insertion_sort_laws {A} : UnstableSortLaws A.
Proof.
  split; unfold sort_unstable_by_key, insertion_sort.
  - intros key l. induction l as [|x l IH]; cbn; [done|]. by rewrite insert_by_perm, IH.
  - intros key l. induction l as [|x l IH]; cbn; [constructor|].
    generalize dependent (foldr (insert_by key) [] l). clear l. intros l Hl.
    induction Hl as [|y l Hl IH Hy]; cbn; [by repeat constructor|].
    destruct (Z.leb_spec (key x) (key y)) as [Hle|Hlt].
    + repeat constructor; [done|done|lia|]. eapply Forall_impl; [exact Hy|]. cbn. lia.
    + constructor; [done|]. rewrite insert_by_perm. constructor; [lia|done].
Qed.

(** Bytes 10, 11, 12, ... arriving out of order with an overlap. *)
Definition sample_stream (x : Z) : Z := 10 + x.
Definition sample_ops : list op :=
  [Push 3 [13; 14] true 100; Push 0 [10; 11] false 100; Consume true;
   Push 1 [11; 12; 13] false 100].

Lemma sample_ops_ok : Forall (op_ok sample_stream) sample_ops.
Proof. repeat constructor; done. Qed.

Lemma recv_reassembles_witness :
  let g := run 100 sample_ops in
  g_delivered g = [10; 11] ∧ ready (g_st g) = [12; 13; 14] ∧
  g_delivered g ++ ready (g_st g) = prefix sample_stream (head (g_st g)) ∧
  (∀ n, (∀ x, 0 ≤ x < n → covered (g_accepted g) x) → n ≤ head (g_st g)) ∧
  (∀ f, final_size (g_st g) = Some f → is_finished (g_st g) = true →
     g_delivered g ++ ready (g_st g) = prefix sample_stream f).
Proof.
  split; [reflexivity|]. split; [reflexivity|].
  apply (recv_reassembles sample_stream 100 sample_ops); [lia|apply sample_ops_ok].
Defined.

Lemma recv_flow_control_witness :
  let g := run 100 sample_ops in
  received (g_st g) = 5 ∧ g_spent g = received (g_st g) ∧
  head (g_st g) ≤ received (g_st g) ∧ received (g_st g) ≤ max_data (g_st g) ∧
  Forall (λ f, fst f + zlen (snd f) ≤ received (g_st g)) (pending (g_st g)) ∧
  (∀ f, final_size (g_st g) = Some f → received (g_st g) = f).
Proof.
  split; [reflexivity|].
  apply (recv_flow_control sample_stream 100 sample_ops); [lia|apply sample_ops_ok].
Defined.
End recv_stream.
