(* ===== verification/QuicSendStream.v ===== *)
(** * The sending half of a stream — [SendStream] of [src/quic/stream.rs]

    One contiguous buffer whose acknowledged prefix is released lazily, runs to
    send again, acknowledged runs beyond the released prefix, and the FIN.

    A [usize] is a [nat], a [u64] stream offset is a [Z]: offsets stay below the
    peer's limit, which is a varint, so their sums do not reach 2^64; the one
    difference that could be negative, [offset - base_offset], keeps its wrap. *)

From S2P Require Import Prelude Ranges.

Module send_stream.

Record SendStream := mkSendStream {
  buf : bytes;
  buf_start : nat;
  base_offset : Z;
  sent : nat;
  lost : list (nat * nat);
  acked : list (Z * Z);
  limit : Z;
  fin : bool;
  fin_sent : bool;
  fin_acked : bool;
  is_reset : bool;
  reset_acked : bool;
}.

(** [SendStream::with_buf] (the pooled buffer is cleared) and [SendStream::new] *)
Definition with_buf (limit : Z) : SendStream :=
  mkSendStream [] 0 0 0 [] [] limit false false false false false.
Definition new (limit : Z) : SendStream := with_buf limit.

(** Field updates. *)
Definition set_buf b bs '(mkSendStream _ _ bo s l a li f fs fa r ra) :=
  mkSendStream b bs bo s l a li f fs fa r ra.
Definition set_base bo '(mkSendStream b bs _ s l a li f fs fa r ra) :=
  mkSendStream b bs bo s l a li f fs fa r ra.
Definition set_sent s '(mkSendStream b bs bo _ l a li f fs fa r ra) :=
  mkSendStream b bs bo s l a li f fs fa r ra.
Definition set_lost l '(mkSendStream b bs bo s _ a li f fs fa r ra) :=
  mkSendStream b bs bo s l a li f fs fa r ra.
Definition set_acked a '(mkSendStream b bs bo s l _ li f fs fa r ra) :=
  mkSendStream b bs bo s l a li f fs fa r ra.
Definition set_fin_sent fs '(mkSendStream b bs bo s l a li f _ fa r ra) :=
  mkSendStream b bs bo s l a li f fs fa r ra.
Definition set_fin_acked fa '(mkSendStream b bs bo s l a li f fs _ r ra) :=
  mkSendStream b bs bo s l a li f fs fa r ra.

(** The bytes written and not yet released, [&self.buf[self.buf_start..]]. *)
Definition live (st : SendStream) : bytes := drop (buf_start st) (buf st).
Definition live_len (st : SendStream) : nat := (length (buf st) - buf_start st)%nat.

(** [writable] *)
Definition writable (st : SendStream) : Z :=
  if is_reset st then 0
  else saturating_sub (limit st) (base_offset st + Z.of_nat (live_len st)).

(** [write]: how many bytes were taken. *)
Definition write (st : SendStream) (data : bytes) : nat * SendStream :=
  let room := Z.to_nat (Z.min (writable st) (zlen data)) in
  let live := live_len st in
  let st :=
    if negb (room =? 0)%nat && negb (buf_start st =? 0)%nat && (live <=? buf_start st)%nat
    then set_buf (take live (drop (buf_start st) (buf st))) 0 st
    else st in
  (room, set_buf (buf st ++ take room data) (buf_start st) st).

(** [finish], [set_limit], [on_reset_acked], [take_buf] *)
Definition finish '(mkSendStream b bs bo s l a li _ fs fa r ra) :=
  mkSendStream b bs bo s l a li true fs fa r ra.
Definition set_limit (lim : Z) '(mkSendStream b bs bo s l a li f fs fa r ra) :=
  mkSendStream b bs bo s l a (Z.max li lim) f fs fa r ra.
Definition on_reset_acked '(mkSendStream b bs bo s l a li f fs fa r _) :=
  mkSendStream b bs bo s l a li f fs fa r true.
Definition take_buf (st : SendStream) : bytes * SendStream := (buf st, set_buf [] 0 st).

(** [has_pending], [fully_sent], [is_settled] *)
Definition has_pending (st : SendStream) : bool :=
  negb (is_reset st) &&
  (negb (length (lost st) =? 0)%nat || (sent st <? live_len st)%nat || (fin st && negb (fin_sent st))).
Definition fully_sent (st : SendStream) : bool :=
  fin st && fin_sent st && (live_len st <=? sent st)%nat.
Definition is_settled (st : SendStream) : bool :=
  if is_reset st then reset_acked st
  else fin st && fin_acked st && (buf_start st =? length (buf st))%nat.

(** [next_send] *)
Definition next_send (st : SendStream) (max : nat) (credit : Z) : res (option (Z * bytes * bool)) :=
  if is_reset st then Ok None
  else
    b ← slice_from (buf st) (buf_start st);
    match lost st with
    | (start, end_) :: _ =>
        if (max =? 0)%nat then Ok None
        else
          let end_ := (start + Nat.min (end_ - start) max)%nat in
          data ← slice b start end_;
          Ok (Some (base_offset st + Z.of_nat start, data, false))
    | [] =>
        let max := Z.to_nat (Z.min (Z.of_nat max) credit) in
        let end_ := (sent st + Nat.min (length b - sent st) max)%nat in
        if (sent st <? end_)%nat then
          data ← slice b (sent st) end_;
          Ok (Some (base_offset st + Z.of_nat (sent st), data, fin st && (end_ =? length b)%nat))
        else if fin st && negb (fin_sent st) && (length b <=? sent st)%nat
        then Ok (Some (base_offset st + Z.of_nat (length b), [], true))
        else Ok None
    end.

(** [self.lost.iter().position(|&(s, e)| s == start && e > start)] *)
Fixpoint lost_position (start : nat) (l : list (nat * nat)) : option nat :=
  match l with
  | [] => None
  | (s, e) :: l' =>
      if (s =? start)%nat && (start <? e)%nat then Some 0%nat
      else S <$> lost_position start l'
  end.

(** [on_sent]: how many of the bytes went out for the first time. *)
Definition on_sent (st : SendStream) (offset : Z) (len : nat) (f : bool) : nat * SendStream :=
  let start := Z.to_nat (u64 (offset - base_offset st)) in
  let '(new, st) :=
    match lost_position start (lost st) with
    | Some pos =>
        match lost st !! pos with
        | Some (s, e) =>
            (0%nat, if (e <=? s + len)%nat then set_lost (delete pos (lost st)) st
                    else set_lost (<[pos := ((s + len)%nat, e)]> (lost st)) st)
        | None => (0%nat, st)
        end
    | None =>
        if (0 <? len)%nat then
          let end_ := (start + len)%nat in
          ((end_ - sent st)%nat, set_sent (Nat.max (sent st) end_) st)
        else (0%nat, st)
    end in
  (new, if f then set_fin_sent true st else st).

(** [self.lost.sort_unstable()]: pairs are compared lexicographically, so equal
    elements are identical and the result is determined. *)
Definition pair_leb (x y : nat * nat) : bool :=
  (fst x <? fst y)%nat || ((fst x =? fst y)%nat && (snd x <=? snd y)%nat).
Fixpoint insert_pair (x : nat * nat) (l : list (nat * nat)) : list (nat * nat) :=
  match l with
  | [] => [x]
  | y :: l' => if pair_leb x y then x :: y :: l' else y :: insert_pair x l'
  end.
Definition sort_unstable (l : list (nat * nat)) : list (nat * nat) := foldr insert_pair [] l.

(** The loop of [acknowledge_lost], on the runs from index [i] on. *)
Fixpoint acknowledge_runs (l : list (nat * nat)) (start end_ : nat) : list (nat * nat) :=
  match l with
  | [] => []
  | (lo, hi) :: l' =>
      if (hi <=? start)%nat || (end_ <=? lo)%nat then (lo, hi) :: acknowledge_runs l' start end_
      else if (lo <? start)%nat then
        (lo, start) :: (if (end_ <? hi)%nat then [(end_, hi)] else [])
        ++ acknowledge_runs l' start end_
      else if (end_ <? hi)%nat then (end_, hi) :: acknowledge_runs l' start end_
      else acknowledge_runs l' start end_
  end.

(** [acknowledge_lost] *)
Definition acknowledge_lost (st : SendStream) (start end_ : nat) : SendStream :=
  set_lost (sort_unstable (acknowledge_runs (lost st) start end_)) st.

(** The loop of [on_acked] over runs an in-order acknowledgement reaches: the
    new end, and the runs it did not consume. *)
Fixpoint consume_acked (l : list (Z * Z)) (end_ : Z) : Z * list (Z * Z) :=
  match l with
  | [] => (end_, [])
  | (start, stop) :: l' =>
      if end_ <? start then (end_, l) else consume_acked l' (Z.max end_ stop)
  end.

(** The [while let] of [on_acked] that merges a run with those it touches; the
    runs from index [last] on. *)
Fixpoint merge_acked (l : list (Z * Z)) (start end_ : Z) : Z * Z * list (Z * Z) :=
  match l with
  | [] => (start, end_, [])
  | (lo, hi) :: l' =>
      if end_ <? lo then (start, end_, l) else merge_acked l' (Z.min start lo) (Z.max end_ hi)
  end.

(** [on_acked] *)
Definition on_acked (st : SendStream) (offset : Z) (len : nat) (f : bool) : SendStream :=
  if is_reset st then st
  else
    let st := if f then set_fin_sent true (set_fin_acked true st) else st in
    let end_ := offset + Z.of_nat len in
    if (len =? 0)%nat || (end_ <=? base_offset st) then st
    else if offset <=? base_offset st then
      let '(end_, acked') := consume_acked (acked st) end_ in
      let drop := Nat.min (Z.to_nat (end_ - base_offset st)) (live_len st) in
      let bs := (buf_start st + drop)%nat in
      let '(b', bs') := if (bs =? length (buf st))%nat then ([], 0%nat) else (buf st, bs) in
      let lost' := base.filter (λ r : nat * nat, (fst r < snd r)%nat)
                     ((λ r, ((fst r - drop)%nat, (snd r - drop)%nat)) <$> lost st) in
      set_lost lost' (set_sent (sent st - drop) (set_base (base_offset st + Z.of_nat drop)
        (set_buf b' bs' (set_acked acked' st))))
    else
      let first := partition_point (λ r : Z * Z, snd r <? offset) (acked st) in
      let '(start, end_, rest) := merge_acked (drop first (acked st)) offset end_ in
      let acked' := take first (acked st) ++ (start, end_) :: rest in
      acknowledge_lost (set_acked acked' st)
        (Z.to_nat (start - base_offset st)) (Z.to_nat (end_ - base_offset st)).

(** The loop of [on_lost]: the runs of [start, end) not acknowledged yet, and
    where the scan stopped. *)
Fixpoint lost_runs (acked : list (Z * Z)) (start end_ : Z) : list (Z * Z) * Z :=
  match acked with
  | [] => ([], start)
  | (lo, hi) :: acked' =>
      if end_ <=? lo then ([], start)
      else if hi <=? start then lost_runs acked' start end_
      else
        let '(runs, start') := lost_runs acked' (Z.max start hi) end_ in
        (if start <? lo then (start, lo) :: runs else runs, start')
  end.

(** [on_lost] *)
Definition on_lost (st : SendStream) (offset : Z) (len : nat) (f : bool) : SendStream :=
  if is_reset st then st
  else
    let st := if f && negb (fin_acked st) then set_fin_sent false st else st in
    if offset + Z.of_nat len <=? base_offset st then st
    else
      let start := Z.max offset (base_offset st) in
      let end_ := Z.min (offset + Z.of_nat len)
                    (base_offset st + Z.of_nat (Nat.min (sent st) (live_len st))) in
      let '(runs, start) := lost_runs (acked st) start end_ in
      let runs := if start <? end_ then runs ++ [(start, end_)] else runs in
      let rel := (λ r : Z * Z, (Z.to_nat (fst r - base_offset st), Z.to_nat (snd r - base_offset st))) in
      set_lost (sort_unstable (lost st ++ (rel <$> runs))) st.

(** [reset]: the final size a RESET_STREAM carries. *)
Definition reset '(mkSendStream b bs bo s l a li f fs fa r ra) : Z * SendStream :=
  (bo + Z.of_nat s, mkSendStream [] 0 bo s [] [] li f fs fa true ra).

#[global] Arguments write : simpl never.
#[global] Arguments next_send : simpl never.
#[global] Arguments on_sent : simpl never.
#[global] Arguments on_acked : simpl never.
#[global] Arguments on_lost : simpl never.

(** ** Runs of offsets *)

Definition in_run (x : Z) (r : Z * Z) : Prop := fst r ≤ x < snd r.
Definition in_runs (x : Z) (l : list (Z * Z)) : Prop := Exists (in_run x) l.

(** Lost runs are relative to the base offset. *)
Definition abs_run (base : Z) (r : nat * nat) : Z * Z :=
  (base + Z.of_nat (fst r), base + Z.of_nat (snd r)).

Lemma in_runs_cons x r l : in_runs x (r :: l) ↔ in_run x r ∨ in_runs x l.
Proof. apply Exists_cons. Qed.
Lemma in_runs_nil x : ¬ in_runs x [].
Proof. by intros ?%Exists_nil. Qed.
Lemma in_runs_app x l k : in_runs x (l ++ k) ↔ in_runs x l ∨ in_runs x k.
Proof. apply Exists_app. Qed.
Lemma in_runs_perm x l k : l ≡ₚ k → in_runs x l → in_runs x k.
Proof.
  unfold in_runs. rewrite !Exists_exists. intros Hp (r & Hr & Hx). exists r. by rewrite <- Hp.
Qed.

(** Acknowledged runs: ascending, non-empty, not touching. *)
Fixpoint acked_ok (lo : Z) (l : list (Z * Z)) : Prop :=
  match l with [] => True | (s, e) :: l' => lo < s ∧ s < e ∧ acked_ok e l' end.

Definition last_stop (lo : Z) (l : list (Z * Z)) : Z := match last l with Some r => snd r | None => lo end.

Lemma last_stop_cons lo r l : last_stop lo (r :: l) = last_stop (snd r) l.
Proof. unfold last_stop. rewrite last_cons. by destruct (last l). Qed.

Lemma acked_ok_app lo l k : acked_ok lo (l ++ k) ↔ acked_ok lo l ∧ acked_ok (last_stop lo l) k.
Proof.
  revert lo. induction l as [|[s e] l IH]; intros lo; [cbn; tauto|].
  rewrite last_stop_cons. cbn. rewrite IH. tauto.
Qed.
Lemma acked_ok_mono lo lo' l : lo' ≤ lo → acked_ok lo l → acked_ok lo' l.
Proof. destruct l as [|[]]; cbn; [done|]. intuition lia. Qed.
Lemma acked_ok_in lo l x : acked_ok lo l → in_runs x l → lo < x.
Proof.
  revert lo. induction l as [|[s e] l IH]; intros lo Hl Hx; [by apply in_runs_nil in Hx|].
  destruct Hl as (?&?&Hl). apply in_runs_cons in Hx as [Hx|Hx].
  - unfold in_run in Hx. cbn in Hx. lia.
  - apply (IH e) in Hx; [lia|done].
Qed.

Lemma consume_acked_spec l lo e0 e l' B :
  consume_acked l e0 = (e, l') → acked_ok lo l → Forall (λ r, snd r ≤ B) l → e0 ≤ B →
  e0 ≤ e ≤ B ∧ acked_ok e l' ∧ Forall (λ r, snd r ≤ B) l' ∧
  (∀ x, e ≤ x → in_runs x l → in_runs x l') ∧
  (∀ x, x < e → x < e0 ∨ in_runs x l) ∧ (∀ x, in_runs x l' → in_runs x l).
Proof.
  revert lo e0. induction l as [|[s t] l IH]; intros lo e0 Hc Hl HB He0; cbn in Hc.
  - simplify_eq. repeat split; try done; try lia.
  - apply Forall_cons in HB as [Ht HB]. destruct Hl as (?&?&Hl). cbn in Ht.
    destruct (Z.ltb_spec e0 s).
    + simplify_eq. repeat split; try done; try lia. by constructor.
    + destruct (IH t (Z.max e0 t) Hc Hl HB ltac:(lia)) as (?&?&?&HX1&HX2&HX3).
      split; [lia|]. split; [done|]. split; [done|]. split; [|split].
      * intros x Hx [Hx'|Hx']%in_runs_cons; [|by apply HX1].
        unfold in_run in Hx'. cbn in Hx'. lia.
      * intros x Hx. rewrite in_runs_cons. unfold in_run. cbn.
        destruct (HX2 x Hx) as [?|?]; [|tauto]. lia.
      * intros x Hx. rewrite in_runs_cons. auto.
Qed.

Lemma merge_acked_spec l lo s0 e0 s e rest B :
  merge_acked l s0 e0 = (s, e, rest) → acked_ok lo l → s0 < e0 → Forall (λ r, snd r ≤ B) l → e0 ≤ B →
  match l with [] => True | r :: _ => s0 ≤ snd r end →
  s ≤ s0 ∧ e0 ≤ e ≤ B ∧ Z.min s0 (lo + 1) ≤ s ∧ acked_ok e rest ∧ Forall (λ r, snd r ≤ B) rest ∧
  (∀ x, in_runs x l → s ≤ x < e ∨ in_runs x rest) ∧
  (∀ x, s ≤ x < e → s0 ≤ x < e0 ∨ in_runs x l) ∧ (∀ x, in_runs x rest → in_runs x l).
Proof.
  revert lo s0 e0. induction l as [|[a b] l IH]; intros lo s0 e0 Hm Hl Hse HB He0 Ht; cbn in Hm.
  - simplify_eq. repeat split; try done; try lia; auto.
  - apply Forall_cons in HB as [Hb HB]. destruct Hl as (?&?&Hl). cbn in Hb, Ht.
    destruct (Z.ltb_spec e0 a).
    + simplify_eq. repeat split; try done; try lia; auto; by constructor.
    + apply (IH b) in Hm as (?&?&?&?&?&HX1&HX2&HX3); [|done|lia|done|lia|].
      * split; [lia|]. split; [lia|]. split; [lia|]. split; [done|]. split; [done|]. split; [|split].
        -- intros x [Hx|Hx]%in_runs_cons; [|by apply HX1]. unfold in_run in Hx. cbn in Hx. left; lia.
        -- intros x Hx. rewrite in_runs_cons. unfold in_run. cbn. destruct (HX2 x Hx); [|tauto]. lia.
        -- intros x Hx. rewrite in_runs_cons. auto.
      * destruct l as [|[c d] l]; [done|]. cbn in *. lia.
Qed.

Lemma partition_acked lo l offset :
  acked_ok lo l →
  let first := partition_point (λ r : Z * Z, snd r <? offset) l in
  (last_stop lo (take first l) < offset ∨ take first l = []) ∧
  match drop first l with [] => True | r :: _ => offset ≤ snd r end.
Proof.
  revert lo. induction l as [|[s e] l IH]; intros lo Hl; cbn; [auto|].
  destruct Hl as (?&?&Hl). destruct (Z.ltb_spec e offset); cbn [take drop].
  - destruct (IH e Hl) as [[Hs|Hs] Hd]; split; try done; left; rewrite last_stop_cons; cbn [snd];
      [done|]. by rewrite Hs.
  - split; [by right|done].
Qed.

Lemma sort_unstable_perm l : sort_unstable l ≡ₚ l.
Proof.
  assert (∀ x k, insert_pair x k ≡ₚ x :: k) as Hins.
  { intros x k. induction k as [|y k IH]; cbn; [done|]. case_match; [done|]. rewrite IH. constructor. }
  induction l as [|x l IH]; cbn; [done|]. by rewrite Hins, IH.
Qed.

(** A run to send again: non-empty and within what was sent. *)
Definition lost_ok (sent : nat) (r : nat * nat) : Prop := (fst r < snd r ≤ sent)%nat.

Lemma acknowledge_runs_spec l base start end_ n :
  (start < end_)%nat → Forall (lost_ok n) l →
  let l' := acknowledge_runs l start end_ in
  Forall (lost_ok n) l' ∧
  (∀ x, in_runs x (abs_run base <$> l) →
     in_runs x (abs_run base <$> l') ∨ base + Z.of_nat start ≤ x < base + Z.of_nat end_).
Proof.
  intros Hse Hl. induction Hl as [|[lo hi] l Hr Hl IH]; cbn [acknowledge_runs]; [by split; [|left]|].
  destruct IH as [IH1 IH2]. unfold lost_ok in Hr. cbn in Hr. cbv zeta.
  destruct (Nat.leb_spec hi start); cbn [orb].
  { split; [by constructor|]. intros x. cbn [fmap list_fmap]. rewrite !in_runs_cons. naive_solver. }
  destruct (Nat.leb_spec end_ lo).
  { split; [by constructor|]. intros x. cbn [fmap list_fmap]. rewrite !in_runs_cons. naive_solver. }
  destruct (Nat.ltb_spec lo start), (Nat.ltb_spec end_ hi); cbn [app]; split.
  all: try (repeat constructor; unfold lost_ok; cbn; try lia; done).
  all: intros x; cbn [fmap list_fmap]; rewrite ?in_runs_cons; unfold in_run, abs_run; cbn [fst snd].
  all: intros [Hx|Hx]; [lia|]; destruct (IH2 x Hx); auto.
Qed.

Lemma lost_runs_spec l lo start end_ runs s' :
  lost_runs l start end_ = (runs, s') → acked_ok lo l →
  start ≤ s' ∧ Forall (λ r, start ≤ fst r ∧ fst r < snd r ∧ snd r ≤ end_) runs ∧
  (∀ x, start ≤ x < end_ → in_runs x l ∨ in_runs x runs ∨ s' ≤ x).
Proof.
  revert lo start runs s'. induction l as [|[a b] l IH]; intros lo start runs s' Hr Hl; cbn in Hr.
  - simplify_eq. repeat split; try done; lia.
  - destruct Hl as (?&?&Hl). destruct (Z.leb_spec end_ a).
    { simplify_eq. repeat split; try done; lia. }
    destruct (Z.leb_spec b start).
    { apply (IH b) in Hr as (?&?&Hc); [|done]. repeat split; try done.
      intros x Hx. rewrite in_runs_cons. destruct (Hc x Hx) as [|[|]]; auto. }
    destruct (lost_runs l (Z.max start b) end_) as [runs' s1] eqn:Hrec.
    apply (IH b) in Hrec as (?&Hf&Hc); [|done].
    assert (Forall (λ r : Z * Z, start ≤ fst r ∧ fst r < snd r ∧ snd r ≤ end_) runs') as Hf'.
    { eapply Forall_impl; [exact Hf|]. cbn. intros; lia. }
    simplify_eq. split; [lia|]. split.
    + destruct (Z.ltb_spec start a); [constructor; [cbn; lia|done]|done].
    + intros x Hx. rewrite in_runs_cons. unfold in_run at 1. cbn.
      destruct (decide (a ≤ x < b)); [auto|]. destruct (decide (x < a)).
      * right; left. destruct (Z.ltb_spec start a); [|lia]. apply in_runs_cons. left.
        unfold in_run. cbn. lia.
      * destruct (Hc x ltac:(lia)) as [?|[?|?]]; [auto| |auto].
        right; left. destruct (Z.ltb_spec start a); [apply in_runs_cons|]; auto.
Qed.

(** ** Executions

    Everything a connection does with a stream: each frame sent is later
    reported either acknowledged or lost, once. *)

Record ghost := mkGhost {
  g_st : SendStream;
  g_written : bytes;                          (** what the application wrote *)
  g_inflight : list (Z * nat * bool);         (** frames sent, outcome unknown *)
  g_log : list (Z * bytes * bool);            (** every frame put on the wire *)
  g_acked : list (Z * Z);                     (** runs the peer acknowledged *)
  g_spent : Z;                                (** connection credit charged *)
}.

Inductive op : Type :=
| Write (data : bytes) | Finish | SetLimit (lim : Z) | Send (max : nat) (credit : Z)
| Acked (i : nat) | Lost (i : nat) | Reset | ResetAcked.

Definition step (g : ghost) (o : op) : ghost :=
  let '(mkGhost st w fl lg ak sp) := g in
  match o with
  | Write data => let '(n, st') := write st data in mkGhost st' (w ++ take n data) fl lg ak sp
  | Finish => mkGhost (finish st) w fl lg ak sp
  | SetLimit lim => mkGhost (set_limit lim st) w fl lg ak sp
  | Send max credit =>
      match next_send st max credit with
      | Ok (Some (offset, data, f)) =>
          let '(n, st') := on_sent st offset (length data) f in
          mkGhost st' w ((offset, length data, f) :: fl) ((offset, data, f) :: lg) ak (sp + Z.of_nat n)
      | _ => g
      end
  | Acked i =>
      match fl !! i with
      | Some (offset, len, f) =>
          mkGhost (on_acked st offset len f) w (delete i fl) lg
            ((offset, offset + Z.of_nat len) :: ak) sp
      | None => g
      end
  | Lost i =>
      match fl !! i with
      | Some (offset, len, f) => mkGhost (on_lost st offset len f) w (delete i fl) lg ak sp
      | None => g
      end
  | Reset => mkGhost (snd (reset st)) w fl lg ak sp
  | ResetAcked => mkGhost (on_reset_acked st) w fl lg ak sp
  end.

Definition start (lim : Z) : ghost := mkGhost (new lim) [] [] [] [] 0.

(** An application stops writing once it has finished the stream, and limits
    arrive as varints. *)
Definition allowed (g : ghost) (o : op) : Prop :=
  match o with
  | Write _ => fin (g_st g) = false
  | SetLimit lim => lim < 2 ^ 62
  | _ => True
  end.

Inductive reachable (lim : Z) : ghost → Prop :=
| reach_start : reachable lim (start lim)
| reach_step g o : reachable lim g → allowed g o → reachable lim (step g o).

Definition frame_run (f : Z * nat * bool) : Z * Z :=
  let '(offset, len, _) := f in (offset, offset + Z.of_nat len).

(** A logged frame carries the written bytes at its offset, and a FIN only at
    the very end. *)
Definition log_ok (g : ghost) (f : Z * bytes * bool) : Prop :=
  let '(offset, data, b) := f in
  0 ≤ offset ∧ data = take (length data) (drop (Z.to_nat offset) (g_written g)) ∧
  offset + zlen data ≤ base_offset (g_st g) + Z.of_nat (sent (g_st g)) ∧
  (b = true → fin (g_st g) = true ∧ offset + zlen data = zlen (g_written g)).

(** What always holds. *)
Definition inv_common (g : ghost) : Prop :=
  let st := g_st g in
  (buf_start st ≤ length (buf st))%nat ∧ 0 ≤ base_offset st ∧ g_spent g = base_offset st + Z.of_nat (sent st) ∧
  base_offset st + Z.of_nat (sent st) ≤ zlen (g_written g) ∧ zlen (g_written g) ≤ limit st < 2 ^ 62 ∧
  Forall (log_ok g) (g_log g).

(** What holds until the stream is reset. *)
Definition inv_live (g : ghost) : Prop :=
  let st := g_st g in
  live st = drop (Z.to_nat (base_offset st)) (g_written g) ∧
  base_offset st + Z.of_nat (live_len st) = zlen (g_written g) ∧
  Forall (lost_ok (sent st)) (lost st) ∧
  acked_ok (base_offset st) (acked st) ∧
  Forall (λ r, snd r ≤ base_offset st + Z.of_nat (sent st)) (acked st) ∧
  Forall (λ f, 0 ≤ fst (frame_run f) ∧
               snd (frame_run f) ≤ base_offset st + Z.of_nat (sent st)) (g_inflight g) ∧
  (∀ x, base_offset st ≤ x < base_offset st + Z.of_nat (sent st) →
     in_runs x (acked st) ∨ in_runs x (abs_run (base_offset st) <$> lost st) ∨
     in_runs x (frame_run <$> g_inflight g)) ∧
  (∀ x, 0 ≤ x < base_offset st ∨ in_runs x (acked st) → in_runs x (g_acked g)) ∧
  (fin_sent st = true → fin_acked st = false → Exists (λ f, snd f = true) (g_inflight g)) ∧
  (Exists (λ f, snd f = true) (g_inflight g) → fin st = true).

Definition inv (g : ghost) : Prop :=
  inv_common g ∧ (is_reset (g_st g) = false → inv_live g).

(** ** One lemma per operation *)

Lemma take_drop_app_more (d w e : bytes) o :
  d = take (length d) (drop o w) → d = take (length d) (drop o (w ++ e)).
Proof.
  intros Hd. destruct (decide (length d = 0)%nat) as [Hz|Hz]; [rewrite Hz; by destruct d|].
  pose proof (f_equal length Hd) as Hlen. rewrite length_take, length_drop in Hlen.
  rewrite drop_app_le by lia. rewrite take_app_le by (rewrite length_drop; lia). done.
Qed.

Lemma log_ok_mono g g' d f :
  log_ok g f → g_written g' = g_written g ++ d →
  base_offset (g_st g) + Z.of_nat (sent (g_st g)) ≤ base_offset (g_st g') + Z.of_nat (sent (g_st g')) →
  (d = [] ∧ (fin (g_st g) = true → fin (g_st g') = true)) ∨ fin (g_st g) = false →
  log_ok g' f.
Proof.
  destruct f as [[o data] b]. unfold log_ok. intros (H0 & Hd & Hle & Hb) -> Hmono Hfin.
  split; [done|]. split; [by apply take_drop_app_more|]. split; [lia|].
  intros ->. specialize (Hb eq_refl) as [Hf Hend]. destruct Hfin as [[-> Hf']|Hf']; [|congruence].
  rewrite app_nil_r. auto.
Qed.

Lemma write_spec st data n st' :
  write st data = (n, st') → (buf_start st ≤ length (buf st))%nat →
  n = Z.to_nat (Z.min (writable st) (zlen data)) ∧
  (buf_start st' ≤ length (buf st'))%nat ∧ live st' = live st ++ take n data ∧
  ∃ b bs, st' = set_buf b bs st.
Proof.
  unfold write. intros [= <- <-] Hbs. split; [done|]. set (room := Z.to_nat _).
  destruct st as [b bs bo s l a li f fs fa r ra]. cbn in *. unfold live, live_len. cbn.
  destruct (negb (room =? 0)%nat && negb (bs =? 0)%nat && (length b - bs <=? bs)%nat); cbn.
  - split; [lia|]. rewrite drop_0. split; [|by eauto].
    rewrite (firstn_all2 (drop bs b)) by (rewrite length_drop; lia). done.
  - split; [llia|]. rewrite drop_app_le by lia. eauto.
Qed.

Lemma write_inv g data : fin (g_st g) = false → inv g → inv (step g (Write data)).
Proof.
  intros Hfin [(Hbs & H0 & Hsp & Hsent & Hlim & Hlog) Hlive]. destruct g as [st w fl lg ak sp]. cbn in *.
  destruct (write st data) as [n st'] eqn:Hw.
  apply write_spec in Hw as (Hn & Hbs' & Hl & b & bs & ->); [|done].
  set (d := take n data) in *.
  assert (zlen (w ++ d) ≤ limit st) as Hroom.
  { rewrite zlen_app. unfold d, zlen. rewrite length_take. unfold writable, saturating_sub in Hn.
    destruct (is_reset st) eqn:Hr; [unfold zlen in *; lia|].
    destruct (Hlive eq_refl) as (_ & HW & _). cbn in HW. unfold zlen in *. lia. }
  split.
  - destruct st. cbn in *. unfold inv_common. cbn. repeat split; try done; try lia.
    + rewrite zlen_app. pose proof (zlen_nonneg d). lia.
    + eapply Forall_impl; [exact Hlog|]. intros fr Hfr. eapply log_ok_mono; [exact Hfr|done|done|auto].
  - intros Hr. assert (is_reset st = false) as Hr' by (by destruct st).
    destruct (Hlive Hr') as (Hlv & HW & Hrest). cbn [g_st g_written] in Hlv, HW. unfold inv_live. cbn.
    assert (live_len (set_buf b bs st) = (live_len st + length d)%nat) as Hll.
    { apply (f_equal length) in Hl. rewrite length_app in Hl. unfold live in Hl.
      rewrite !length_drop in Hl. unfold live_len. done. }
    rewrite Hl, Hll, Hlv. split; [|split].
    + destruct st. cbn in *. rewrite drop_app_le; [done|]. unfold zlen in *. lia.
    + destruct st. cbn in *. rewrite zlen_app, <- HW. unfold live_len. cbn. unfold zlen. lia.
    + by destruct st.
Qed.

(** What [next_send] hands out, by where it comes from. *)
Inductive sends (st : SendStream) : Z * bytes * bool → nat → SendStream → Prop :=
| send_again s e l n :
    lost st = (s, e) :: l → (0 < n ≤ e - s)%nat →
    sends st (base_offset st + Z.of_nat s, take n (drop s (live st)), false) 0
      (set_lost (if decide (n = (e - s)%nat) then l else ((s + n)%nat, e) :: l) st)
| send_new n :
    lost st = [] → (0 < n ≤ live_len st - sent st)%nat →
    let f := fin st && (sent st + n =? live_len st)%nat in
    sends st (base_offset st + Z.of_nat (sent st), take n (drop (sent st) (live st)), f) n
      (if f then set_fin_sent true (set_sent (sent st + n) st) else set_sent (sent st + n) st)
| send_fin :
    lost st = [] → fin st = true → fin_sent st = false → (live_len st ≤ sent st)%nat →
    sends st (base_offset st + Z.of_nat (live_len st), [], true) 0 (set_fin_sent true st).

Lemma length_live st : length (live st) = live_len st.
Proof. unfold live, live_len. by rewrite length_drop. Qed.

Lemma send_sends st max credit :
  is_reset st = false → (buf_start st ≤ length (buf st))%nat → (sent st ≤ live_len st)%nat →
  Forall (lost_ok (sent st)) (lost st) → 0 ≤ base_offset st → Z.of_nat (live_len st) < 2 ^ 62 →
  next_send st max credit = Ok None ∨
  ∃ offset data f, next_send st max credit = Ok (Some (offset, data, f)) ∧
    sends st (offset, data, f) (fst (on_sent st offset (length data) f))
                               (snd (on_sent st offset (length data) f)).
Proof.
  intros Hr Hbs Hsl Hlost Hbo Hll. unfold next_send. rewrite Hr, slice_from_le by done.
  cbn [mbind result_bind]. fold (live st). rewrite length_live.
  assert (∀ k, (k ≤ live_len st)%nat → Z.to_nat (u64 (base_offset st + Z.of_nat k - base_offset st)) = k)
    as Hrel by (intros k Hk; rewrite u64_small by lia; lia).
  destruct (lost st) as [|[s e] l] eqn:Hls.
  - set (m := Z.to_nat _). set (n := Nat.min (live_len st - sent st) m).
    destruct (Nat.ltb_spec (sent st) (sent st + n)) as [Hn|Hn].
    + right. rewrite slice_in_range by (rewrite ?length_live; lia). cbn [mbind result_bind].
      eexists _, _, _. split; [reflexivity|]. replace (sent st + n - sent st)%nat with n by lia.
      unfold on_sent. rewrite Hls. cbn [lost_position]. rewrite length_take, length_drop, length_live.
      rewrite Hrel by lia. replace (n `min` (live_len st - sent st))%nat with n by lia.
      destruct (Nat.ltb_spec 0 n); [|lia]. cbn [fst snd].
      replace (sent st + n - sent st)%nat with n by lia. rewrite Nat.max_r by lia.
      apply send_new; [done|lia].
    + destruct (fin st) eqn:Hf; [|by left]. destruct (fin_sent st) eqn:Hfs; [by left|].
      destruct (Nat.leb_spec (live_len st) (sent st)); [|by left]. right. cbn [andb negb].
      eexists _, _, _. split; [reflexivity|]. unfold on_sent. rewrite Hls. cbn. by apply send_fin.
  - destruct (Nat.eqb_spec max 0) as [|Hmax]; [by left|right].
    apply Forall_cons in Hlost as [Hse _]. unfold lost_ok in Hse. cbn in Hse.
    set (n := Nat.min (e - s) max). rewrite slice_in_range by (rewrite ?length_live; lia).
    cbn [mbind result_bind]. eexists _, _, _. split; [reflexivity|].
    replace (s + n - s)%nat with n by lia. unfold on_sent. rewrite Hrel by lia. rewrite Hls.
    cbn [lost_position]. rewrite Nat.eqb_refl, (proj2 (Nat.ltb_lt s e)) by lia. cbn [andb lookup list_lookup].
    rewrite length_take, length_drop, length_live. replace (n `min` (live_len st - s))%nat with n by lia.
    replace (if (e <=? s + n)%nat then _ else _) with
      (set_lost (if decide (n = (e - s)%nat) then l else ((s + n)%nat, e) :: l) st).
    + apply (send_again st s e l n); [done|lia].
    + destruct (Nat.leb_spec e (s + n)); case_decide; try lia; done.
Qed.

Lemma live_slice st w n k :
  live st = drop (Z.to_nat (base_offset st)) w → 0 ≤ base_offset st →
  take n (drop k (live st)) = take n (drop (Z.to_nat (base_offset st + Z.of_nat k)) w).
Proof.
  intros -> H0. rewrite drop_drop. by rewrite Z2Nat.inj_add, Nat2Z.id by lia.
Qed.

(** Logging one more frame. *)
Lemma log_snoc g g' fr :
  Forall (log_ok g) (g_log g) → g_written g' = g_written g →
  base_offset (g_st g) + Z.of_nat (sent (g_st g)) ≤ base_offset (g_st g') + Z.of_nat (sent (g_st g')) →
  fin (g_st g') = fin (g_st g) → log_ok g' fr → Forall (log_ok g') (fr :: g_log g).
Proof.
  intros Hlog Hw Hle Hf Hfr. constructor; [done|]. eapply Forall_impl; [exact Hlog|].
  intros fr' Hfr'. eapply (log_ok_mono _ _ []); [exact Hfr'|by rewrite app_nil_r|done|].
  left. split; [done|]. by rewrite Hf.
Qed.

Lemma send_again_inv st w fl lg ak sp s e l k :
  let g := mkGhost st w fl lg ak sp in
  inv g → is_reset st = false → lost st = (s, e) :: l → (0 < k ≤ e - s)%nat →
  let data := take k (drop s (live st)) in
  let offset := base_offset st + Z.of_nat s in
  inv (mkGhost (set_lost (if decide (k = (e - s)%nat) then l else ((s + k)%nat, e) :: l) st)
         w ((offset, length data, false) :: fl) ((offset, data, false) :: lg) ak (sp + 0)).
Proof.
  intros g [(Hbs & H0 & Hsp & Hsent & Hlim & Hlog) Hlive] Hr Hls Hk data offset.
  specialize (Hlive Hr) as (Hlv & HW & Hlost & Hack & Hackb & Hfl & Hcov & Hsound & Hfs & Hff).
  pose proof (length_live st) as Hll. unfold g in *. cbn [g_st g_written g_inflight g_log g_acked g_spent] in *.
  rewrite Hls in *. apply Forall_cons in Hlost as [Hse Hlost]. unfold lost_ok in Hse. cbn in Hse.
  unfold zlen in *.
  assert (length data = k) as Hlen by (unfold data; rewrite length_take, length_drop; lia).
  rewrite Z.add_0_r, Hlen. split.
  - repeat split; try (destruct st; cbn in *; unfold zlen in *; first [done | lia]).
    eapply (log_snoc g); unfold g; cbn; try by destruct st.
    unfold log_ok. cbn. unfold zlen. rewrite Hlen.
    split; [unfold offset; lia|]. split; [unfold offset, data; by apply live_slice|].
    split; [destruct st; cbn in *; unfold offset; lia|done].
  - intros _. unfold inv_live. cbn. destruct st. cbn in *. repeat split; try done.
    + case_decide; [done|]. constructor; [unfold lost_ok; cbn; lia|done].
    + constructor; [unfold offset; cbn; lia|done].
    + intros x Hx. destruct (Hcov x Hx) as [Hc|[Hc|Hc]]; [auto| |rewrite in_runs_cons; auto].
      rewrite in_runs_cons in Hc |- *. unfold in_run, abs_run, offset in Hc |- *. cbn in Hc |- *.
      destruct Hc as [Hc|Hc].
      * destruct (decide (x < base_offset0 + Z.of_nat s + Z.of_nat k)); [right; right; left; lia|].
        right; left. case_decide; [lia|]. cbn. apply in_runs_cons. left. unfold in_run. cbn. lia.
      * right; left. case_decide; [done|]. cbn. apply in_runs_cons. auto.
    + intros Ha Hb. right. by apply Hfs.
    + intros [?|?]%Exists_cons; [done|auto].
Qed.

Lemma send_new_inv st w fl lg ak sp k :
  let g := mkGhost st w fl lg ak sp in
  inv g → is_reset st = false → (0 < k ≤ live_len st - sent st)%nat →
  let f := fin st && (sent st + k =? live_len st)%nat in
  let data := take k (drop (sent st) (live st)) in
  let offset := base_offset st + Z.of_nat (sent st) in
  inv (mkGhost (if f then set_fin_sent true (set_sent (sent st + k) st) else set_sent (sent st + k) st)
         w ((offset, length data, f) :: fl) ((offset, data, f) :: lg) ak (sp + Z.of_nat k)).
Proof.
  intros g [(Hbs & H0 & Hsp & Hsent & Hlim & Hlog) Hlive] Hr Hk f data offset.
  specialize (Hlive Hr) as (Hlv & HW & Hlost & Hack & Hackb & Hfl & Hcov & Hsound & Hfs & Hff).
  pose proof (length_live st) as Hll. unfold g in *. cbn [g_st g_written g_inflight g_log g_acked g_spent] in *.
  unfold zlen in *.
  assert (length data = k) as Hlen by (unfold data; rewrite length_take, length_drop; lia).
  assert (f = true → fin st = true ∧ (sent st + k = live_len st)%nat) as Hf.
  { unfold f. intros [? ?%Nat.eqb_eq]%andb_true_iff. done. }
  set (st' := if f then _ else _).
  assert (buf st' = buf st ∧ buf_start st' = buf_start st ∧ base_offset st' = base_offset st ∧
    sent st' = (sent st + k)%nat ∧ lost st' = lost st ∧ acked st' = acked st ∧ limit st' = limit st ∧
    fin st' = fin st ∧ fin_acked st' = fin_acked st ∧
    (fin_sent st' = true → fin_sent st = true ∨ f = true)) as (Eb & Ebs & Ebo & Es & El & Ea & Eli & Ef & Efa & Efs).
  { unfold st'. destruct f, st; cbn; tauto. }
  assert (live st' = live st ∧ live_len st' = live_len st) as [Elv Ell]
    by (unfold live, live_len; by rewrite Eb, Ebs).
  clearbody st'. rewrite Hlen. split.
  - unfold inv_common. cbn. rewrite Eb, Ebs, Ebo, Es, Eli. unfold zlen. repeat split; try done; try lia.
    eapply (log_snoc g); unfold g; cbn; try done; [rewrite Ebo, Es; lia|].
    unfold log_ok. cbn. unfold zlen. rewrite Hlen, Ebo, Es, Ef.
    split; [unfold offset; lia|]. split; [unfold offset, data; by apply live_slice|].
    split; [unfold offset; lia|]. intros Hft. destruct (Hf Hft). unfold offset. split; [done|lia].
  - intros _. unfold inv_live. cbn. rewrite Elv, Ell, Ebo, Es, El, Ea, Efa, Ef.
    repeat split; try done.
    + eapply Forall_impl; [exact Hlost|]. unfold lost_ok. cbn. intros; lia.
    + eapply Forall_impl; [exact Hackb|]. cbn. intros; lia.
    + constructor; [unfold offset; cbn; lia|]. eapply Forall_impl; [exact Hfl|]. cbn. intros; lia.
    + intros x Hx. rewrite in_runs_cons. unfold in_run at 1, offset. cbn.
      destruct (decide (x < base_offset st + Z.of_nat (sent st))); [|right; right; left; lia].
      destruct (Hcov x ltac:(lia)) as [?|[?|?]]; auto.
    + intros Ha Hb. apply Exists_cons. destruct (Efs Ha) as [Hx|Hx]; [right; by apply Hfs|left; done].
    + intros [Hx|?]%Exists_cons; [by apply Hf|auto].
Qed.

Lemma send_fin_inv st w fl lg ak sp :
  let g := mkGhost st w fl lg ak sp in
  inv g → is_reset st = false → fin st = true → (live_len st ≤ sent st)%nat →
  let offset := base_offset st + Z.of_nat (live_len st) in
  inv (mkGhost (set_fin_sent true st) w ((offset, 0%nat, true) :: fl) ((offset, [], true) :: lg) ak (sp + 0)).
Proof.
  intros g [(Hbs & H0 & Hsp & Hsent & Hlim & Hlog) Hlive] Hr Hf Hall offset.
  specialize (Hlive Hr) as (Hlv & HW & Hlost & Hack & Hackb & Hfl & Hcov & Hsound & Hfs & Hff).
  unfold g in *. cbn [g_st g_written g_inflight g_log g_acked g_spent] in *. rewrite Z.add_0_r. split.
  - repeat split; try (destruct st; cbn in *; unfold zlen in *; first [done | lia]).
    eapply (log_snoc g); unfold g; cbn; try by destruct st.
    unfold log_ok. cbn. split; [unfold offset; lia|]. split; [done|].
    change (zlen []) with 0. split; [destruct st; cbn in *; unfold offset; lia|].
    intros _. split; [by destruct st|unfold offset; lia].
  - intros _. unfold inv_live. cbn. destruct st. cbn in *. repeat split; try done.
    + constructor; [unfold offset; cbn; lia|done].
    + intros x Hx. rewrite in_runs_cons. destruct (Hcov x Hx) as [?|[?|?]]; auto.
    + intros _ _. by left.
Qed.

(** *** Acknowledgement *)

Lemma inflight_delete fl i o len f x :
  fl !! i = Some (o, len, f) → in_runs x (frame_run <$> fl) →
  o ≤ x < o + Z.of_nat len ∨ in_runs x (frame_run <$> delete i fl).
Proof.
  intros Hi Hx. pose proof (delete_Permutation _ _ _ Hi) as Hp.
  eapply (in_runs_perm x _ (frame_run <$> _)) in Hx; [|by rewrite Hp].
  cbn in Hx. apply in_runs_cons in Hx as [Hx|Hx]; [left|by right]. done.
Qed.

Lemma fin_delete fl i o len f :
  fl !! i = Some (o, len, f) → Exists (λ fr : Z * nat * bool, snd fr = true) fl →
  f = true ∨ Exists (λ fr, snd fr = true) (delete i fl).
Proof.
  intros Hi Hx. pose proof (delete_Permutation _ _ _ Hi) as Hp.
  assert (Exists (λ fr : Z * nat * bool, snd fr = true) ((o, len, f) :: delete i fl)) as Hx'.
  { apply Exists_exists in Hx as (fr & Hfr & Hs). apply Exists_exists. exists fr. by rewrite <- Hp. }
  by apply Exists_cons in Hx' as [?|?]; auto.
Qed.

Lemma Exists_delete {A} (P : A → Prop) l i : Exists P (delete i l) → Exists P l.
Proof.
  rewrite !Exists_exists. intros (x & Hx & HP). exists x. split; [|done].
  by eapply list_elem_of_delete_inv in Hx.
Qed.
Lemma Forall_delete {A} (P : A → Prop) l i : Forall P l → Forall P (delete i l).
Proof. rewrite delete_take_drop, Forall_app. auto using Forall_take, Forall_drop. Qed.

(** The FIN bookkeeping of an acknowledgement. *)
Definition ack_fin (f : bool) (st : SendStream) : SendStream :=
  if f then set_fin_sent true (set_fin_acked true st) else st.

Lemma ack_fin_inv st w fl lg ak sp i o len f :
  let g := mkGhost st w fl lg ak sp in
  inv g → is_reset st = false → fl !! i = Some (o, len, f) →
  let st' := ack_fin f st in
  inv_common (mkGhost st' w (delete i fl) lg ak sp) ∧ is_reset st' = false ∧
  buf st' = buf st ∧ buf_start st' = buf_start st ∧ base_offset st' = base_offset st ∧
  sent st' = sent st ∧ lost st' = lost st ∧ acked st' = acked st ∧ limit st' = limit st ∧
  fin st' = fin st ∧
  (fin_sent st' = true → fin_acked st' = false → Exists (λ fr, snd fr = true) (delete i fl)) ∧
  (Exists (λ fr, snd fr = true) (delete i fl) → fin st' = true).
Proof.
  intros g [(Hbs & H0 & Hsp & Hsent & Hlim & Hlog) Hlive] Hr Hi.
  specialize (Hlive Hr) as (_ & _ & _ & _ & _ & _ & _ & _ & Hfs & Hff).
  cbn in Hfs, Hff. cbv zeta. unfold ack_fin. split.
  - repeat split; try (destruct f, st; cbn in *; first [done | lia]).
  - assert (∀ l : list (Z * nat * bool), l = delete i fl →
      Exists (λ fr : Z * nat * bool, snd fr = true) l → fin st = true) as Hdel.
    { intros l -> Hx. apply Hff. by eapply Exists_delete. }
    pose proof (fin_delete fl i o len f Hi) as Hd. destruct f, st; cbn in *; naive_solver.
Qed.

(** Releasing a contiguous prefix of [drop] bytes. *)
Lemma release_live (b : bytes) (bs n : nat) :
  (bs ≤ length b)%nat → (n ≤ length b - bs)%nat →
  let '(b', bs') := if (bs + n =? length b)%nat then ([], 0%nat) else (b, (bs + n)%nat) in
  (bs' ≤ length b')%nat ∧ drop bs' b' = drop n (drop bs b) ∧
  (length b' - bs' = length b - bs - n)%nat.
Proof.
  intros Hbs Hd. destruct (Nat.eqb_spec (bs + n) (length b)); cbn.
  - split; [lia|]. split; [|lia]. rewrite drop_drop, drop_ge by lia. done.
  - split; [lia|]. split; [by rewrite drop_drop|lia].
Qed.

Lemma lost_shift l n base drop :
  Forall (lost_ok n) l →
  let l' := base.filter (λ r : nat * nat, (fst r < snd r)%nat)
              ((λ r, ((fst r - drop)%nat, (snd r - drop)%nat)) <$> l) in
  Forall (lost_ok (n - drop)) l' ∧
  ∀ x, base + Z.of_nat drop ≤ x → in_runs x (abs_run base <$> l) →
       in_runs x (abs_run (base + Z.of_nat drop) <$> l').
Proof.
  intros Hl l'. unfold l'. clear l'. induction Hl as [|[s e] l Hr Hl IH]; [done|].
  unfold lost_ok in Hr. cbn in Hr. destruct IH as [IH1 IH2].
  cbn [fmap list_fmap fst snd]. rewrite filter_cons. cbn [fst snd]. case_decide.
  - split; [constructor; [unfold lost_ok; cbn; lia|done]|].
    intros x Hx. cbn [fmap list_fmap]. rewrite !in_runs_cons. intros [Hx'|Hx']; [left|right; auto].
    unfold in_run, abs_run in *. cbn in *. lia.
  - split; [done|]. intros x Hx. cbn [fmap list_fmap]. rewrite in_runs_cons. intros [Hx'|Hx']; [|auto].
    unfold in_run, abs_run in Hx'. cbn in Hx'. lia.
Qed.

(** The FIN bookkeeping of a loss. *)
Definition lose_fin (f : bool) (st : SendStream) : SendStream :=
  if f && negb (fin_acked st) then set_fin_sent false st else st.

Lemma rel_abs base l :
  Forall (λ r : Z * Z, base ≤ fst r ∧ fst r < snd r) l →
  abs_run base <$> ((λ r : Z * Z, (Z.to_nat (fst r - base), Z.to_nat (snd r - base))) <$> l) = l.
Proof.
  induction 1 as [|[a b] l Hr Hl IH]; [done|]. cbn in *. rewrite IH. unfold abs_run. cbn.
  do 2 f_equal; lia.
Qed.

Section acked.
Context (st : SendStream) (w : bytes) (fl : list (Z * nat * bool)) (lg : list (Z * bytes * bool))
  (ak : list (Z * Z)) (sp : Z) (i : nat) (o : Z) (len : nat) (f : bool).
Context (Hinv : inv (mkGhost st w fl lg ak sp)) (Hr : is_reset st = false)
  (Hi : fl !! i = Some (o, len, f)).

Abbreviation ak' := ((o, o + Z.of_nat len) :: ak).

(** Nothing beyond the base is acknowledged. *)
Lemma acked_stale_inv :
  o + Z.of_nat len ≤ base_offset st ∨ len = 0%nat →
  inv (mkGhost (ack_fin f st) w (delete i fl) lg ak' sp).
Proof.
  intros Hst. destruct (ack_fin_inv _ _ _ _ _ _ _ _ _ _ Hinv Hr Hi) as
    (Hc & Hr' & Eb & Ebs & Ebo & Es & El & Ea & Eli & Ef & Hfs & Hff).
  destruct Hinv as [_ Hlive]. specialize (Hlive Hr) as (Hlv & HW & Hlost & Hack & Hackb & Hfl & Hcov & Hsound & _).
  split; [exact Hc|]. intros _. cbn in *. unfold inv_live. cbn. unfold live, live_len in *.
  rewrite Eb, Ebs, Ebo, Es, El, Ea. repeat split; try done; try (by apply Forall_delete).
  - intros x Hx. destruct (Hcov x Hx) as [?|[?|Hx']]; [auto|auto|].
    destruct (inflight_delete _ _ _ _ _ _ Hi Hx'); [lia|auto].
  - intros x Hx. apply in_runs_cons. auto.
Qed.

(** The run reaches the base: a prefix is released. *)
Lemma acked_prefix_inv e acked' :
  o ≤ base_offset st < o + Z.of_nat len →
  consume_acked (acked st) (o + Z.of_nat len) = (e, acked') →
  let st1 := ack_fin f st in
  let drop := Nat.min (Z.to_nat (e - base_offset st)) (live_len st) in
  let bs := (buf_start st + drop)%nat in
  let '(b', bs') := if (bs =? length (buf st))%nat then ([], 0%nat) else (buf st, bs) in
  let lost' := base.filter (λ r : nat * nat, (fst r < snd r)%nat)
                 ((λ r, ((fst r - drop)%nat, (snd r - drop)%nat)) <$> lost st) in
  inv (mkGhost (set_lost lost' (set_sent (sent st - drop) (set_base (base_offset st + Z.of_nat drop)
        (set_buf b' bs' (set_acked acked' st1))))) w (delete i fl) lg ak' sp).
Proof.
  intros Ho Hc st1 drop. destruct (ack_fin_inv _ _ _ _ _ _ _ _ _ _ Hinv Hr Hi) as
    ((Hbs & H0 & Hsp & Hsent & Hlim & Hlog) & Hr' & Eb & Ebs & Ebo & Es & El & Ea & Eli & Ef & Hfs & Hff).
  destruct Hinv as [_ Hlive]. specialize (Hlive Hr) as (Hlv & HW & Hlost & Hack & Hackb & Hfl & Hcov & Hsound & _).
  fold st1 in Hbs, H0, Hsp, Hsent, Hlim, Hlog, Eb, Ebs, Ebo, Es, El, Ea, Eli, Ef, Hfs, Hff, Hr'.
  cbn [g_st g_written g_inflight g_log g_acked g_spent] in *. rewrite Eb, Ebs in Hbs.
  rewrite Ebo in H0. rewrite Ebo, Es in Hsp, Hsent. rewrite Eli in Hlim. unfold zlen in *.
  assert (o + Z.of_nat len ≤ base_offset st + Z.of_nat (sent st)) as Hob.
  { rewrite Forall_forall in Hfl. apply list_elem_of_lookup_2, Hfl in Hi. cbn in Hi. lia. }
  destruct (consume_acked_spec _ _ _ _ _ _ Hc Hack Hackb Hob) as (He & Hao & Hab & Hkeep & Hcause & Hsub).
  assert (Z.of_nat drop = e - base_offset st) as Hdrop by (unfold drop; lia).
  pose proof (release_live (buf st) (buf_start st) drop Hbs ltac:(unfold live_len in *; lia)) as Hrel.
  cbv zeta. destruct (if (_ =? _)%nat then _ else _) as [b' bs']. destruct Hrel as (Hb1 & Hb2 & Hb3).
  destruct (lost_shift (lost st) (sent st) (base_offset st) drop Hlost) as [Hl1 Hl2].
  set (lost' := base.filter _ _) in *.
  set (st' := set_lost _ _).
  assert (buf st' = b' ∧ buf_start st' = bs' ∧ base_offset st' = e ∧ sent st' = (sent st - drop)%nat ∧
    lost st' = lost' ∧ acked st' = acked' ∧ limit st' = limit st ∧ fin st' = fin st1 ∧
    fin_sent st' = fin_sent st1 ∧ fin_acked st' = fin_acked st1)
    as (Fb & Fbs & Fbo & Fs & Fl & Fa & Fli & Ff & Ffs & Ffa).
  { unfold st'. destruct st1. cbn in *. split_and!; try done. lia. }
  clearbody st' st1 drop lost'. split.
  - unfold inv_common. cbn. rewrite Fb, Fbs, Fbo, Fs, Fli. unfold zlen. repeat split; try done; try lia.
    eapply Forall_impl; [exact Hlog|]. intros fr Hfr.
    eapply (log_ok_mono _ _ []); [exact Hfr|by rewrite app_nil_r|cbn; lia|left; cbn; by rewrite Ff].
  - intros _. unfold inv_live. cbn. unfold live, live_len in *. rewrite Fb, Fbs, Fbo, Fs, Fl, Fa, Ff, Ffs, Ffa.
    replace (base_offset st + Z.of_nat drop) with e in Hl2 by lia.
    replace (e + Z.of_nat (sent st - drop)) with (base_offset st + Z.of_nat (sent st)) by lia.
    split; [rewrite Hb2, Hlv, drop_drop; f_equal; lia|]. split; [unfold zlen; lia|].
    split; [done|]. split; [done|]. split; [done|]. split; [by apply Forall_delete|].
    split; [|split; [|by split]].
    + intros x Hx. destruct (Hcov x ltac:(lia)) as [?|[?|Hx']].
      * left. apply Hkeep; [lia|done].
      * right; left. apply Hl2; [lia|done].
      * destruct (inflight_delete _ _ _ _ _ _ Hi Hx'); [lia|auto].
    + intros x Hx. apply in_runs_cons. unfold in_run. cbn.
      destruct (decide (o ≤ x < o + Z.of_nat len)); [by left|right]. apply Hsound.
      destruct Hx as [Hx|Hx]; [|right; by apply Hsub].
      destruct (Hcause x ltac:(lia)) as [?|?]; [left; lia|by right].
Qed.

(** The run lies beyond a gap: it is remembered and taken out of the queue. *)
Lemma acked_sparse_inv s e rest :
  base_offset st < o → (0 < len)%nat →
  let first := partition_point (λ r : Z * Z, snd r <? o) (acked st) in
  merge_acked (drop first (acked st)) o (o + Z.of_nat len) = (s, e, rest) →
  inv (mkGhost (acknowledge_lost
                  (set_acked (take first (acked st) ++ (s, e) :: rest) (ack_fin f st))
                  (Z.to_nat (s - base_offset st)) (Z.to_nat (e - base_offset st)))
         w (delete i fl) lg ak' sp).
Proof.
  intros Ho Hlen first Hm. destruct (ack_fin_inv _ _ _ _ _ _ _ _ _ _ Hinv Hr Hi) as
    (Hc & Hr' & Eb & Ebs & Ebo & Es & El & Ea & Eli & Ef & Hfs & Hff).
  destruct Hinv as [_ Hlive]. specialize (Hlive Hr) as (Hlv & HW & Hlost & Hack & Hackb & Hfl & Hcov & Hsound & _).
  set (st1 := ack_fin f st) in *. cbn [g_st g_written g_inflight g_log g_acked g_spent] in *.
  assert (o + Z.of_nat len ≤ base_offset st + Z.of_nat (sent st)) as Hob.
  { rewrite Forall_forall in Hfl. apply list_elem_of_lookup_2, Hfl in Hi. cbn in Hi. lia. }
  destruct (partition_acked _ _ o Hack) as [Hp1 Hp2]. fold first in Hp1, Hp2.
  pose proof (take_drop first (acked st)) as Htd.
  set (pre := take first (acked st)) in *. set (suf := drop first (acked st)) in *.
  clearbody pre suf first. rewrite <- Htd in *. clear Htd.
  apply acked_ok_app in Hack as [Hack1 Hack2]. apply Forall_app in Hackb as [Hb1 Hb2].
  assert (last_stop (base_offset st) pre < o) as Hlast by (destruct Hp1 as [?|Hnil]; [done|by rewrite Hnil]).
  destruct (merge_acked_spec _ _ _ _ _ _ _ _ Hm Hack2 ltac:(lia) Hb2 Hob Hp2)
    as (? & ? & ? & Hok & Hb3 & Hkeep & Hcause & Hsub).
  assert (base_offset st ≤ last_stop (base_offset st) pre) as Hlb.
  { clear -Hack1. revert Hack1. generalize (base_offset st). induction pre as [|[a b] pre IH]; intros lo; [done|].
    rewrite last_stop_cons. intros (?&?&Hl). apply IH in Hl. cbn. lia. }
  destruct (acknowledge_runs_spec (lost st) (base_offset st) (Z.to_nat (s - base_offset st))
    (Z.to_nat (e - base_offset st)) (sent st)) as [Hl1 Hl2]; [lia|done|].
  pose proof (sort_unstable_perm (acknowledge_runs (lost st) (Z.to_nat (s - base_offset st))
    (Z.to_nat (e - base_offset st)))) as Hperm.
  assert (lost (set_acked (pre ++ (s, e) :: rest) st1) = lost st) as Hls by (by destruct st1).
  unfold acknowledge_lost. rewrite Hls. set (lost' := sort_unstable _) in *.
  set (st' := set_lost lost' _).
  assert (buf st' = buf st ∧ buf_start st' = buf_start st ∧ base_offset st' = base_offset st ∧
    sent st' = sent st ∧ lost st' = lost' ∧ acked st' = pre ++ (s, e) :: rest ∧ limit st' = limit st1 ∧
    fin st' = fin st1 ∧ fin_sent st' = fin_sent st1 ∧ fin_acked st' = fin_acked st1)
    as (Fb & Fbs & Fbo & Fs & Fl & Fa & Fli & Ff & Ffs & Ffa).
  { unfold st'. destruct st1. cbn in *. by split_and!. }
  clearbody st' st1 lost'. split.
  - unfold inv_common in *. cbn in *. rewrite Fb, Fbs, Fbo, Fs, Fli. rewrite Eb, Ebs, Ebo, Es in Hc.
    destruct Hc as (?&?&?&?&?&Hlog). split_and!; try done; try lia.
    eapply Forall_impl; [exact Hlog|]. intros fr Hfr. eapply (log_ok_mono _ _ []);
      [exact Hfr|by rewrite app_nil_r|cbn; lia|left; cbn; by rewrite Ff].
  - intros _. unfold inv_live. cbn. unfold live, live_len in *. rewrite Fb, Fbs, Fbo, Fs, Fl, Fa, Ff, Ffs, Ffa.
    split; [done|]. split; [done|]. split; [by rewrite Hperm|].
    split; [apply acked_ok_app; split; [done|]; cbn; split_and!; [lia|lia|done]|].
    split; [rewrite Forall_app, Forall_cons; cbn; split_and!; [done|lia|done]|].
    split; [by apply Forall_delete|]. split; [|split; [|done]].
    + intros x Hx. rewrite in_runs_app, in_runs_cons. unfold in_run at 1. cbn.
      destruct (decide (s ≤ x < e)); [auto|].
      destruct (Hcov x Hx) as [[?|Hx']%in_runs_app|[Hx'|Hx']]; [auto|destruct (Hkeep x Hx'); auto| |].
      * right; left. destruct (Hl2 x Hx') as [Hx2|]; [|lia].
        eapply in_runs_perm; [|exact Hx2]. by rewrite Hperm.
      * destruct (inflight_delete _ _ _ _ _ _ Hi Hx'); [lia|auto].
    + intros x Hx. apply in_runs_cons. unfold in_run. cbn.
      destruct (decide (o ≤ x < o + Z.of_nat len)); [by left|right]. apply Hsound.
      rewrite in_runs_app. rewrite in_runs_app, in_runs_cons in Hx. unfold in_run at 1 in Hx. cbn in Hx.
      destruct Hx as [?|[?|[Hx|Hx]]]; [auto|auto|destruct (Hcause x Hx); [done|auto]|auto].
Qed.

Lemma acked_inv : inv (mkGhost (on_acked st o len f) w (delete i fl) lg ak' sp).
Proof.
  unfold on_acked. rewrite Hr. fold (ack_fin f st).
  assert (base_offset (ack_fin f st) = base_offset st ∧ acked (ack_fin f st) = acked st ∧
    live_len (ack_fin f st) = live_len st ∧ buf_start (ack_fin f st) = buf_start st ∧
    buf (ack_fin f st) = buf st ∧ lost (ack_fin f st) = lost st ∧ sent (ack_fin f st) = sent st)
    as (-> & -> & -> & -> & -> & -> & ->) by (unfold ack_fin; destruct f, st; by split_and!).
  destruct (Nat.eqb_spec len 0) as [|Hlen]; cbn [orb]; [apply acked_stale_inv; auto|].
  destruct (Z.leb_spec (o + Z.of_nat len) (base_offset st)); [apply acked_stale_inv; auto|].
  destruct (Z.leb_spec o (base_offset st)).
  - destruct (consume_acked _ _) as [e acked'] eqn:Hc.
    pose proof (acked_prefix_inv e acked' ltac:(lia) Hc) as Hgoal. cbv zeta in Hgoal.
    by destruct (if (_ =? _)%nat then _ else _).
  - destruct (merge_acked _ _ _) as [[s e] rest] eqn:Hm. apply acked_sparse_inv; [lia|lia|done].
Qed.

(** *** Loss: what of the run still has to be sent again. *)
Lemma on_lost_spec :
  ∃ lost', Forall (lost_ok (sent st)) lost' ∧
    on_lost st o len f = set_lost lost' (lose_fin f st) ∧
    (∀ x, in_runs x (abs_run (base_offset st) <$> lost st) ∨
          base_offset st ≤ x ∧ o ≤ x < o + Z.of_nat len →
          in_runs x (acked st) ∨ in_runs x (abs_run (base_offset st) <$> lost')).
Proof.
  destruct Hinv as [(Hbs & H0 & Hsp & Hsent & Hlim & Hlog) Hlive].
  specialize (Hlive Hr) as (Hlv & HW & Hlost & Hack & Hackb & Hfl & Hcov & Hsound & Hfs & Hff).
  cbn [g_st g_written g_inflight g_log g_acked g_spent] in *.
  assert (0 ≤ o ∧ o + Z.of_nat len ≤ base_offset st + Z.of_nat (sent st)) as [Ho Hob].
  { rewrite Forall_forall in Hfl. apply list_elem_of_lookup_2, Hfl in Hi. cbn in Hi. lia. }
  unfold on_lost. rewrite Hr. fold (lose_fin f st).
  assert (base_offset (lose_fin f st) = base_offset st ∧ acked (lose_fin f st) = acked st ∧
    live_len (lose_fin f st) = live_len st ∧ lost (lose_fin f st) = lost st ∧
    sent (lose_fin f st) = sent st)
    as (-> & -> & -> & -> & ->) by (unfold lose_fin; destruct (f && _), st; by split_and!).
  destruct (Z.leb_spec (o + Z.of_nat len) (base_offset st)).
  { exists (lost st). split; [done|]. split; [unfold lose_fin; destruct (f && _), st; done|].
    intros x [?|?]; [auto|lia]. }
  rewrite (Z.min_l (o + _)) by (unfold zlen in *; lia).
  destruct (lost_runs _ _ _) as [runs s'] eqn:Hlr.
  apply (lost_runs_spec _ (base_offset st)) in Hlr as (Hs' & Hruns & Hall); [|done].
  set (runs' := if s' <? _ then _ else _).
  assert (Forall (λ r : Z * Z, Z.max o (base_offset st) ≤ fst r ∧ fst r < snd r ∧
    snd r ≤ o + Z.of_nat len) runs' ∧
    ∀ x, Z.max o (base_offset st) ≤ x < o + Z.of_nat len → in_runs x (acked st) ∨ in_runs x runs') as [Hr1 Hr2].
  { unfold runs'. destruct (Z.ltb_spec s' (o + Z.of_nat len)).
    - split; [apply Forall_app; split; [done|]; repeat constructor; cbn; lia|].
      intros x Hx. rewrite in_runs_app, in_runs_cons. unfold in_run at 1. cbn.
      destruct (Hall x Hx) as [?|[?|?]]; [auto|auto|]. right; right; left. lia.
    - split; [done|]. intros x Hx. destruct (Hall x Hx) as [?|[?|?]]; [auto|auto|lia]. }
  clearbody runs'. eexists. split; [|split; [reflexivity|]].
  - rewrite sort_unstable_perm. apply Forall_app. split; [done|]. apply Forall_fmap.
    eapply Forall_impl; [exact Hr1|]. intros [a b]. unfold lost_ok. cbn. intros; lia.
  - intros x Hx. set (rel := _ <$> runs').
    assert (in_runs x (acked st) ∨ in_runs x (abs_run (base_offset st) <$> (lost st ++ rel))) as [?|Hx'].
    { rewrite fmap_app, in_runs_app. unfold rel. rewrite rel_abs.
      2: { eapply Forall_impl; [exact Hr1|]. cbn. intros; lia. }
      destruct Hx as [?|[? ?]]; [auto|]. destruct (Hr2 x ltac:(lia)); auto. }
    + by left.
    + right. eapply in_runs_perm; [|exact Hx']. by rewrite sort_unstable_perm.
Qed.

Lemma lost_inv : inv (mkGhost (on_lost st o len f) w (delete i fl) lg ak sp).
Proof.
  destruct Hinv as [(Hbs & H0 & Hsp & Hsent & Hlim & Hlog) Hlive].
  specialize (Hlive Hr) as (Hlv & HW & Hlost & Hack & Hackb & Hfl & Hcov & Hsound & Hfs & Hff).
  cbn [g_st g_written g_inflight g_log g_acked g_spent] in *.
  assert (0 ≤ o ∧ o + Z.of_nat len ≤ base_offset st + Z.of_nat (sent st)) as [Ho Hob].
  { rewrite Forall_forall in Hfl. apply list_elem_of_lookup_2, Hfl in Hi. cbn in Hi. lia. }
  destruct on_lost_spec as (lost' & Hl1 & -> & Hl2).
  set (st' := set_lost lost' _).
  assert (buf st' = buf st ∧ buf_start st' = buf_start st ∧ base_offset st' = base_offset st ∧
    sent st' = sent st ∧ lost st' = lost' ∧ acked st' = acked st ∧ limit st' = limit st ∧
    fin st' = fin st ∧ fin_acked st' = fin_acked st ∧
    (fin_sent st' = true → fin_acked st = false → fin_sent st = true ∧ f = false))
    as (Fb & Fbs & Fbo & Fs & Fl & Fa & Fli & Ff & Ffa & Ffs).
  { unfold st', lose_fin. destruct f, (fin_acked st) eqn:?, st; cbn in *; naive_solver. }
  clearbody st'. split.
  - unfold inv_common. cbn. rewrite Fb, Fbs, Fbo, Fs, Fli. split_and!; try done; try lia.
    eapply Forall_impl; [exact Hlog|]. intros fr Hfr. eapply (log_ok_mono _ _ []);
      [exact Hfr|by rewrite app_nil_r|cbn; lia|left; cbn; by rewrite Ff].
  - intros _. unfold inv_live. cbn. unfold live, live_len in *. rewrite Fb, Fbs, Fbo, Fs, Fl, Fa, Ff, Ffa.
    split_and!; try done; try (by apply Forall_delete).
    + intros x Hx. destruct (Hcov x Hx) as [?|[?|Hx']]; [auto|destruct (Hl2 x); auto|].
      destruct (inflight_delete _ _ _ _ _ _ Hi Hx') as [?|?]; [|auto].
      destruct (Hl2 x) as [?|?]; [right; lia|auto|auto].
    + intros Ha Hb. destruct (Ffs Ha Hb) as [Hc Hd].
      destruct (fin_delete _ _ _ _ _ Hi (Hfs Hc Hb)) as [?|?]; [congruence|done].
    + intros Hx. apply Hff. by eapply Exists_delete.
Qed.
End acked.

(** ** The invariant holds in every execution *)

Lemma inv_same_common st st' w fl lg ak sp :
  inv_common (mkGhost st w fl lg ak sp) → (buf_start st' ≤ length (buf st'))%nat →
  base_offset st' = base_offset st → sent st' = sent st → limit st ≤ limit st' < 2 ^ 62 →
  (fin st = true → fin st' = true) → inv_common (mkGhost st' w fl lg ak sp).
Proof.
  intros (Hbs & H0 & Hsp & Hsent & Hlim & Hlog) Hbs' Hbo Hs Hli Hf. unfold inv_common. cbn in *.
  rewrite Hbo, Hs. split_and!; try done; try lia.
  eapply Forall_impl; [exact Hlog|]. intros fr Hfr. eapply (log_ok_mono _ _ []);
    [exact Hfr|by rewrite app_nil_r|cbn; lia|by left].
Qed.

Lemma send_inv g max credit : inv g → inv (step g (Send max credit)).
Proof.
  intros Hinv. destruct g as [st w fl lg ak sp]. cbn [step].
  destruct (is_reset st) eqn:Hr; [by unfold next_send; rewrite Hr|].
  pose proof Hinv as [(Hbs & H0 & Hsp & Hsent & Hlim & Hlog) Hlive].
  specialize (Hlive Hr) as (Hlv & HW & Hlost & _). cbn in *.
  assert (next_send st max credit = Ok None ∨ ∃ offset data f,
    next_send st max credit = Ok (Some (offset, data, f)) ∧
    sends st (offset, data, f) (fst (on_sent st offset (length data) f))
                               (snd (on_sent st offset (length data) f)))
    as [->|(offset & data & f & -> & Hsend)]; [|done|].
  { apply send_sends; try done; unfold zlen in *; lia. }
  destruct (on_sent st offset (length data) f) as [n st']. cbn in Hsend. clear Hsp.
  inversion Hsend as [s e l k Hls Hk|k Hls Hk fi|Hls Hf1 Hf2 Hf3]; subst.
  - by apply (send_again_inv st w fl lg ak sp s e l k).
  - by apply (send_new_inv st w fl lg ak sp n).
  - by apply (send_fin_inv st w fl lg ak sp).
Qed.

Lemma send_step_inv g o : allowed g o → inv g → inv (step g o).
Proof.
  intros Hok Hinv. destruct o as [data| |lim|max credit|i|i| |].
  - by apply write_inv.
  - destruct g as [st w fl lg ak sp]. destruct Hinv as [Hc Hl]. cbn [step]. split.
    + eapply inv_same_common; [exact Hc|destruct Hc, st; cbn in *; intuition lia..|by destruct st].
    + intros Hr. destruct st. cbn in *. specialize (Hl Hr). unfold inv_live in *. cbn in *. naive_solver.
  - destruct g as [st w fl lg ak sp]. destruct Hinv as [Hc Hl]. cbn in Hok. cbn [step]. split.
    + eapply inv_same_common; [exact Hc|destruct Hc as (?&?&?&?&?&?), st; cbn in *; intuition lia..|by destruct st].
    + intros Hr. destruct st. cbn in *. exact (Hl Hr).
  - by apply send_inv.
  - destruct g as [st w fl lg ak sp]. cbn [step]. destruct (fl !! i) as [[[o len] f]|] eqn:Hi; [|done].
    destruct (is_reset st) eqn:Hr; [|by apply acked_inv].
    unfold on_acked. rewrite Hr. destruct Hinv as [Hc _]. split; [exact Hc|]. cbn. congruence.
  - destruct g as [st w fl lg ak sp]. cbn [step]. destruct (fl !! i) as [[[o len] f]|] eqn:Hi; [|done].
    destruct (is_reset st) eqn:Hr; [|by apply lost_inv].
    unfold on_lost. rewrite Hr. destruct Hinv as [Hc _]. split; [exact Hc|]. cbn. congruence.
  - destruct g as [st w fl lg ak sp]. destruct Hinv as [Hc Hl]. cbn [step]. split; [|by destruct st].
    eapply inv_same_common; [exact Hc|destruct Hc as (?&?&?&?&?&?), st; cbn in *; intuition lia..|by destruct st].
  - destruct g as [st w fl lg ak sp]. destruct Hinv as [Hc Hl]. cbn [step]. split.
    + eapply inv_same_common; [exact Hc|destruct Hc as (?&?&?&?&?&?), st; cbn in *; intuition lia..|by destruct st].
    + intros Hr. destruct st. cbn in *. exact (Hl Hr).
Qed.

Lemma reachable_inv lim g : 0 ≤ lim < 2 ^ 62 → reachable lim g → inv g.
Proof.
  intros Hlim. induction 1 as [|g o Hg IH Hok]; [|by apply send_step_inv].
  split; [unfold inv_common; cbn; change (zlen []) with 0; split_and!; by try constructor; lia|].
  intros _. unfold inv_live. cbn. split_and!; try done; try constructor.
  - intros; lia.
  - intros x [?|Hx%in_runs_nil]; [lia|done].
  - intros Hx. by apply Exists_nil in Hx.
Qed.

(** C30: Whatever is lost, acknowledged, limited or reset, every frame put on
    the wire carries exactly the application's bytes at its offset, below the
    peer's limit; a FIN is only ever sent at the true end of the stream; and
    the bytes charged against the connection's credit are each counted once. *)
Theorem send_stream_integrity (lim : Z) (g : ghost)
    (Hlim : 0 ≤ lim < 2 ^ 62) (Hg : reachable lim g) :
  Forall (λ '(offset, data, f),
    data = take (length data) (drop (Z.to_nat offset) (g_written g)) ∧
    offset + zlen data ≤ g_spent g ∧
    (f = true → fin (g_st g) = true ∧ offset + zlen data = zlen (g_written g))) (g_log g) ∧
  g_spent g ≤ zlen (g_written g) ≤ limit (g_st g) ∧
  fst (reset (g_st g)) = g_spent g ∧
  (∀ max credit, no_panic (next_send (g_st g) max credit)).
Proof.
  pose proof (reachable_inv lim g Hlim Hg) as [(Hbs & H0 & Hsp & Hsent & Hli & Hlog) Hlive].
  split; [|split; [lia|split]].
  - eapply Forall_impl; [exact Hlog|]. intros [[o d] f]. unfold log_ok. rewrite Hsp. naive_solver.
  - rewrite Hsp. by destruct (g_st g).
  - intros max credit msg. destruct (is_reset (g_st g)) eqn:Hr; [by unfold next_send; rewrite Hr|].
    specialize (Hlive eq_refl) as (Hlv & HW & Hlost & _). unfold zlen in *.
    destruct (send_sends (g_st g) max credit) as [->|(?&?&?&->&_)]; try done; lia.
Qed.

(** A stream with nothing in flight and nothing pending. *)
Lemma quiet_settled g :
  inv g → is_reset (g_st g) = false → g_inflight g = [] → has_pending (g_st g) = false →
  base_offset (g_st g) = zlen (g_written g) ∧
  (∀ x, 0 ≤ x < zlen (g_written g) → in_runs x (g_acked g)) ∧
  (fin (g_st g) = true → is_settled (g_st g) = true).
Proof.
  intros [(Hbs & H0 & Hsp & Hsent & Hli & Hlog) Hlive] Hreset Hfl Hpend.
  specialize (Hlive Hreset) as (Hlv & HW & Hlost & Hack & Hackb & _ & Hcov & Hsound & Hfs & Hff).
  unfold has_pending in Hpend. rewrite Hreset in Hpend. cbn [negb andb] in Hpend.
  apply orb_false_iff in Hpend as [[Hl Hs]%orb_false_iff Hf].
  apply negb_false_iff, Nat.eqb_eq in Hl. apply Nat.ltb_ge in Hs.
  destruct (lost (g_st g)) as [|]; [|done]. rewrite Hfl in *.
  assert (sent (g_st g) = 0%nat) as Hs0.
  { destruct (sent (g_st g)) eqn:Hse; [done|].
    destruct (Hcov (base_offset (g_st g)) ltac:(lia)) as [Hx|[Hx|Hx]]; [|by apply in_runs_nil in Hx..].
    apply (acked_ok_in (base_offset (g_st g))) in Hx; [lia|done]. }
  split; [lia|]. split; [intros x Hx; apply Hsound; left; lia|].
  intros Hfin. unfold is_settled. rewrite Hreset, Hfin. rewrite Hfin in Hf. cbn in Hf.
  apply negb_false_iff in Hf. unfold live_len in *.
  destruct (fin_acked (g_st g)); [|by specialize (Hfs Hf eq_refl); apply Exists_nil in Hfs].
  cbn. apply Nat.eqb_eq. lia.
Qed.

(** No byte is stranded: when nothing of an unreset stream is in flight
    and nothing is pending, the peer has acknowledged every byte written and the
    FIN, and the stream counts as settled once it is finished. *)
Theorem send_stream_no_stall (lim : Z) (g : ghost)
    (Hlim : 0 ≤ lim < 2 ^ 62) (Hg : reachable lim g)
    (Hreset : is_reset (g_st g) = false) (Hfl : g_inflight g = [])
    (Hpend : has_pending (g_st g) = false) :
  base_offset (g_st g) = zlen (g_written g) ∧
  (∀ x, 0 ≤ x < zlen (g_written g) → in_runs x (g_acked g)) ∧
  (fin (g_st g) = true → is_settled (g_st g) = true).
Proof. apply quiet_settled; [by eapply reachable_inv|done..]. Qed.

(** ** As one stream of a connection

    What a connection needs to know: [tracks fl s] says that [s] is the state
    of some execution whose frames in flight are [fl]. *)

Definition spent (s : SendStream) : Z := base_offset s + Z.of_nat (sent s).

Definition tracks (fl : list (Z * nat * bool)) (s : SendStream) : Prop :=
  ∃ lim g, 0 ≤ lim < 2 ^ 62 ∧ reachable lim g ∧ g_st g = s ∧ g_inflight g ≡ₚ fl.

Lemma tracks_perm fl fl' s : fl ≡ₚ fl' → tracks fl s → tracks fl' s.
Proof. intros Hp (lim & g & ? & ? & ? & Hfl). exists lim, g. by rewrite <- Hp. Qed.

Lemma tracks_inv fl s : tracks fl s → ∃ g, inv g ∧ g_st g = s ∧ g_inflight g ≡ₚ fl.
Proof. intros (lim & g & ? & ? & ? & ?). exists g. split; [by eapply reachable_inv|done]. Qed.

Lemma tracks_new lim : 0 ≤ lim < 2 ^ 62 → tracks [] (with_buf lim).
Proof. intros. exists lim, (start lim). split; [done|]. split; [constructor|done]. Qed.

(** An operation that leaves the frames in flight alone. *)
Lemma tracks_step fl s o s' :
  tracks fl s → (∀ g, g_st g = s → allowed g o) →
  (∀ g, g_st g = s → g_st (step g o) = s' ∧ g_inflight (step g o) = g_inflight g) → tracks fl s'.
Proof.
  intros (lim & g & ? & ? & Hs & ?) Ha Hstep. destruct (Hstep g Hs) as [Hs' Hfl].
  exists lim, (step g o). split; [done|]. split; [constructor; auto|]. split; [done|]. by rewrite Hfl.
Qed.

Lemma tracks_write fl s data : tracks fl s → fin s = false → tracks fl (snd (write s data)).
Proof.
  intros Ht Hf. apply (tracks_step fl s (Write data)); [done|intros g <-; done|].
  intros [] <-. cbn. by destruct (write _ data).
Qed.
Lemma tracks_finish fl s : tracks fl s → tracks fl (finish s).
Proof. intros Ht. apply (tracks_step fl s Finish); [done|done|]. by intros [] <-. Qed.
Lemma tracks_limit fl s lim : tracks fl s → lim < 2 ^ 62 → tracks fl (set_limit lim s).
Proof. intros Ht ?. apply (tracks_step fl s (SetLimit lim)); [done|done|]. by intros [] <-. Qed.
Lemma tracks_reset fl s : tracks fl s → tracks fl (snd (reset s)).
Proof. intros Ht. apply (tracks_step fl s Reset); [done|done|]. by intros [] <-. Qed.
Lemma tracks_reset_acked fl s : tracks fl s → tracks fl (on_reset_acked s).
Proof. intros Ht. apply (tracks_step fl s ResetAcked); [done|done|]. by intros [] <-. Qed.

Lemma next_send_bounds st max credit o d f :
  next_send st max credit = Ok (Some (o, d, f)) →
  (length d ≤ max)%nat ∧ (lost st = [] → zlen d ≤ Z.max 0 credit).
Proof.
  unfold next_send. destruct (is_reset st); [done|]. intros (b & Hb & Hn)%bind_Ok.
  destruct (lost st) as [|[s e] l].
  - destruct (_ <? _)%nat.
    + apply bind_Ok in Hn as (data & Hsl%slice_length & [= _ <- _]). unfold zlen. lia.
    + destruct (_ && _); [|done]. injection Hn as _ <- _. change (zlen []) with 0. cbn. lia.
  - destruct (Nat.eqb_spec max 0); [done|].
    apply bind_Ok in Hn as (data & Hsl%slice_length & [= _ <- _]). split; [lia|done].
Qed.

(** The next frame to send always comes out, and fits the credit. *)
Lemma tracks_send fl s max credit :
  tracks fl s → 0 ≤ credit →
  next_send s max credit = Ok None ∨
  ∃ o d f n s', next_send s max credit = Ok (Some (o, d, f)) ∧ on_sent s o (length d) f = (n, s') ∧
    tracks ((o, length d, f) :: fl) s' ∧ spent s' = spent s + Z.of_nat n ∧ Z.of_nat n ≤ credit ∧
    (length d ≤ max)%nat ∧ is_reset s = false ∧ 0 ≤ o ∧ o + zlen d < 2 ^ 62.
Proof.
  intros (lim & g & Hlim & Hg & <- & Hfl) Hcr.
  pose proof (reachable_inv lim g Hlim Hg) as [(Hbs & H0 & Hsp & Hsent & Hli & Hlog) Hlive].
  destruct (is_reset (g_st g)) eqn:Hr; [left; by unfold next_send; rewrite Hr|].
  specialize (Hlive eq_refl) as (Hlv & HW & Hlost & _).
  destruct (send_sends (g_st g) max credit) as [?|(o & d & f & Hn & Hs)];
    [done|done|unfold zlen in *; lia|done|lia|unfold zlen in *; lia|by left|].
  right. destruct (on_sent (g_st g) o (length d) f) as [n s'] eqn:Hos. cbn [fst snd] in Hs.
  exists o, d, f, n, s'. split; [done|]. split; [done|].
  assert (reachable lim (step g (Send max credit))) as Hg' by (by constructor).
  pose proof (reachable_inv _ _ Hlim Hg') as [(_ & _ & Hsp' & Hsent' & Hli' & Hlog') _].
  assert (g_st (step g (Send max credit)) = s' ∧
    g_inflight (step g (Send max credit)) = (o, length d, f) :: g_inflight g ∧
    g_spent (step g (Send max credit)) = g_spent g + Z.of_nat n) as (E1 & E2 & E3).
  { destruct g. cbn in *. by rewrite Hn, Hos. }
  split; [exists lim, (step g (Send max credit)); rewrite E1, E2; by rewrite Hfl|].
  split; [rewrite E1 in Hsp'; unfold spent; lia|].
  destruct (next_send_bounds _ _ _ _ _ _ Hn) as [Hmax Hcredit].
  assert (log_ok (step g (Send max credit)) (o, d, f)) as (Ho & _ & Hend & _).
  { destruct g. cbn [step g_st] in *. rewrite Hn, Hos in *.
    apply Forall_inv in Hlog'. exact Hlog'. }
  split; [|split; [done|split; [done|split; [done|]]]].
  - inversion Hs as [s0 e l k Hls Hk|k Hls Hk fi|Hls Hf1 Hf2 Hf3]; subst; [done| |done].
    specialize (Hcredit Hls). unfold zlen in Hcredit.
    rewrite length_take, length_drop, length_live in Hcredit. lia.
  - lia.
Qed.

Lemma inflight_find (x : Z * nat * bool) fl l :
  l ≡ₚ x :: fl → ∃ i, l !! i = Some x ∧ delete i l ≡ₚ fl.
Proof.
  intros Hp. assert (x ∈ l) as [i Hi]%list_elem_of_lookup by (rewrite Hp; constructor).
  exists i. split; [done|]. apply (Permutation_cons_inv (a := x)). rewrite <- Hp. symmetry.
  by apply delete_Permutation.
Qed.

(** The fate of a frame in flight. *)
Lemma tracks_acked fl s o len f :
  tracks ((o, len, f) :: fl) s →
  tracks fl (on_acked s o len f) ∧ spent (on_acked s o len f) = spent s.
Proof.
  intros (lim & g & Hlim & Hg & <- & (i & Hi & Hd)%inflight_find).
  assert (reachable lim (step g (Acked i))) as Hg' by (by constructor).
  pose proof (reachable_inv _ _ Hlim Hg) as [(_ & _ & Hsp & _) _].
  pose proof (reachable_inv _ _ Hlim Hg') as [(_ & _ & Hsp' & _) _].
  assert (g_st (step g (Acked i)) = on_acked (g_st g) o len f ∧
    g_inflight (step g (Acked i)) = delete i (g_inflight g) ∧ g_spent (step g (Acked i)) = g_spent g)
    as (E1 & E2 & E3) by (destruct g; cbn in *; by rewrite Hi).
  split; [exists lim, (step g (Acked i)); by rewrite E1, E2, Hd|]. unfold spent. rewrite <- E1. lia.
Qed.

Lemma tracks_lost fl s o len f :
  tracks ((o, len, f) :: fl) s →
  tracks fl (on_lost s o len f) ∧ spent (on_lost s o len f) = spent s.
Proof.
  intros (lim & g & Hlim & Hg & <- & (i & Hi & Hd)%inflight_find).
  assert (reachable lim (step g (Lost i))) as Hg' by (by constructor).
  pose proof (reachable_inv _ _ Hlim Hg) as [(_ & _ & Hsp & _) _].
  pose proof (reachable_inv _ _ Hlim Hg') as [(_ & _ & Hsp' & _) _].
  assert (g_st (step g (Lost i)) = on_lost (g_st g) o len f ∧
    g_inflight (step g (Lost i)) = delete i (g_inflight g) ∧ g_spent (step g (Lost i)) = g_spent g)
    as (E1 & E2 & E3) by (destruct g; cbn in *; by rewrite Hi).
  split; [exists lim, (step g (Lost i)); by rewrite E1, E2, Hd|]. unfold spent. rewrite <- E1. lia.
Qed.

(** Fields no frame changes. *)
Definition same_end (s s' : SendStream) : Prop :=
  fin s' = fin s ∧ is_reset s' = is_reset s ∧ reset_acked s' = reset_acked s.

Lemma on_sent_end s o len f :
  same_end s (snd (on_sent s o len f)) ∧ is_settled (snd (on_sent s o len f)) = is_settled s.
Proof.
  unfold on_sent, same_end, is_settled.
  destruct (lost_position _ _) as [pos|]; [destruct (lost s !! pos) as [[a b]|]|].
  - destruct (_ <=? _)%nat, f, s; done.
  - by destruct f, s.
  - destruct (_ <? _)%nat, f, s; done.
Qed.

Lemma on_lost_end s o len f :
  same_end s (on_lost s o len f) ∧ is_settled (on_lost s o len f) = is_settled s.
Proof.
  unfold on_lost. destruct (is_reset s); [done|]. fold (lose_fin f s).
  assert (same_end s (lose_fin f s) ∧ is_settled (lose_fin f s) = is_settled s) as Hs
    by (unfold lose_fin; destruct (f && _), s; done).
  destruct (_ <=? _); [done|]. destruct (lost_runs _ _ _) as [runs st]. by destruct (lose_fin f s).
Qed.

Lemma on_acked_end s o len f : same_end s (on_acked s o len f).
Proof.
  unfold on_acked. destruct (is_reset s); [done|]. fold (ack_fin f s).
  assert (same_end s (ack_fin f s)) as Hs by (unfold ack_fin; by destruct f, s).
  destruct (_ || _); [done|]. destruct (_ <=? _).
  - destruct (consume_acked _ _). destruct (if (_ =? _)%nat then _ else _). by destruct (ack_fin f s).
  - destruct (merge_acked _ _ _) as [[? ?] ?]. by destruct (ack_fin f s).
Qed.

Lemma write_end s data :
  same_end s (snd (write s data)) ∧ spent (snd (write s data)) = spent s ∧
  (is_reset s = true → is_settled (snd (write s data)) = is_settled s).
Proof.
  unfold write, is_settled, spent. set (room := Z.to_nat _). clearbody room.
  destruct (_ && _ && _), s, is_reset0; by split_and!.
Qed.

(** An acknowledgement never makes a stream pending. *)
Lemma on_acked_pending fl s o len f :
  tracks fl s → has_pending s = false → has_pending (on_acked s o len f) = false.
Proof.
  intros (g & [(Hbs & _) _] & <- & _)%tracks_inv Hp. set (s := g_st g) in *.
  unfold on_acked. destruct (is_reset s) eqn:Hr; [done|].
  assert (has_pending (ack_fin f s) = false ∧ is_reset (ack_fin f s) = false ∧ lost (ack_fin f s) = [] ∧
    buf (ack_fin f s) = buf s ∧ buf_start (ack_fin f s) = buf_start s ∧
    (live_len (ack_fin f s) ≤ sent (ack_fin f s))%nat) as (Hp' & Hr' & Hl & Eb & Ebs & Hs).
  { unfold has_pending in Hp. rewrite Hr in Hp. cbn [negb andb] in Hp.
    apply orb_false_iff in Hp as [[Hl Hs]%orb_false_iff Hf].
    apply negb_false_iff, Nat.eqb_eq in Hl. apply nil_length_inv in Hl. apply Nat.ltb_ge in Hs.
    unfold ack_fin, has_pending, live_len in *. destruct f, s; cbn in *; subst; cbn;
      rewrite ?andb_false_r, ?orb_false_r; split_and!; try done; try (by apply Nat.ltb_ge).
    apply orb_false_iff. split; [by apply Nat.ltb_ge|done]. }
  fold (ack_fin f s). set (s1 := ack_fin f s) in *. clearbody s1.
  destruct (_ || _); [done|]. rewrite <- Eb, <- Ebs in Hbs.
  unfold has_pending in *. rewrite Hr', Hl in Hp'. cbn [negb andb length Nat.eqb orb] in Hp'.
  apply orb_false_iff in Hp' as [_ Hf].
  destruct (_ <=? _).
  - destruct (consume_acked _ _) as [e ak]. set (dr := Nat.min _ _).
    pose proof (release_live (buf s1) (buf_start s1) dr Hbs ltac:(unfold live_len in *; lia)) as Hrel.
    destruct (if (_ =? _)%nat then _ else _) as [b' bs']. destruct Hrel as (_ & _ & Hlen).
    rewrite Hl. unfold live_len in *. destruct s1. cbn in *. rewrite Hr'. cbn.
    rewrite Hf, orb_false_r. apply Nat.ltb_ge. lia.
  - destruct (merge_acked _ _ _) as [[? ?] ?]. unfold acknowledge_lost. destruct s1; cbn in *. subst. cbn.
    unfold live_len in *. cbn in *. rewrite Hf, orb_false_r. by apply Nat.ltb_ge.
Qed.

(** A concrete execution: five bytes written, sent in three frames of which the
    middle one is lost and sent again, everything acknowledged out of order. *)
Definition sample_ops : list op :=
  [Write [1; 2; 3; 4; 5]; Finish; Send 2 100; Send 2 100; Send 2 100; Lost 1; Acked 1;
   Acked 0; Send 9 0; Acked 0].

Lemma sample_reachable : reachable 10 (foldl step (start 10) sample_ops).
Proof. cbn [foldl sample_ops]. repeat (apply reach_step; [|done]). apply reach_start. Qed.

Lemma send_stream_integrity_witness :
  let g := foldl step (start 10) sample_ops in
  reverse (g_log g) = [(0, [1; 2], false); (2, [3; 4], false); (4, [5], true); (2, [3; 4], false)] ∧
  Forall (λ '(offset, data, f),
    data = take (length data) (drop (Z.to_nat offset) (g_written g)) ∧
    offset + zlen data ≤ g_spent g ∧
    (f = true → fin (g_st g) = true ∧ offset + zlen data = zlen (g_written g))) (g_log g) ∧
  g_spent g ≤ zlen (g_written g) ≤ limit (g_st g) ∧
  fst (reset (g_st g)) = g_spent g ∧
  (∀ max credit, no_panic (next_send (g_st g) max credit)).
Proof.
  split; [vm_compute; reflexivity|].
  apply (send_stream_integrity 10 (foldl step (start 10) sample_ops)); [lia|apply sample_reachable].
Defined.

Lemma send_stream_no_stall_witness :
  let g := foldl step (start 10) sample_ops in
  base_offset (g_st g) = zlen (g_written g) ∧
  (∀ x, 0 ≤ x < zlen (g_written g) → in_runs x (g_acked g)) ∧
  (fin (g_st g) = true → is_settled (g_st g) = true).
Proof.
  apply (send_stream_no_stall 10 (foldl step (start 10) sample_ops));
    [lia|apply sample_reachable|vm_compute; reflexivity..].
Defined.
End send_stream.
