(* ===== verification/QuicRecovery.v ===== *)
(** * Loss detection and congestion control — [src/quic/recovery.rs]

    Instants and durations are nanoseconds.  Recovery only moves the frames a
    packet carried around. *)

From S2P Require Import Prelude QuicPacket.
Import packet.

Module recovery.

Definition REORDER_THRESHOLD : Z := 3.
Definition TIME_THRESHOLD_NUM : Z := 9.
Definition TIME_THRESHOLD_DEN : Z := 8.
Definition TIMER_GRANULARITY : Z := 1000000.
Definition PERSISTENT_CONGESTION_THRESHOLD : Z := 3.
Definition INITIAL_RTT : Z := 333000000.

(** [SentFrame] *)
Inductive SentFrame : Type :=
| Crypto (offset : Z) (len : nat)
| Stream (id offset : Z) (len : nat) (fin : bool)
| Ping
| RetireConnectionId (seq : Z)
| ResetStream (id error final_size : Z)
| MaxData (limit : Z)
| MaxStreamData (id limit : Z).

#[global] Instance SentFrame_eq_dec : EqDecision SentFrame.
Proof. solve_decision. Defined.

(** [SentPacket] *)
Record SentPacket := mkSentPacket {
  ack_largest : option Z;
  number : Z;
  time_sent : Z;
  size : Z;
  ack_eliciting : bool;
  frames : list SentFrame;
}.

#[global] Instance SentPacket_eq_dec : EqDecision SentPacket.
Proof. solve_decision. Defined.

(** ** Round-trip time *)

Record Rtt := mkRtt {
  latest : Z;
  smoothed : option Z;
  var : Z;
  min : option Z;
}.
Definition rtt_default : Rtt := mkRtt 0 None 0 None.

(** [Rtt::update] *)
Definition update (r : Rtt) (sample ack_delay max_ack_delay : Z) : Rtt :=
  let min' := match min r with Some m => Z.min m sample | None => sample end in
  match smoothed r with
  | None => mkRtt sample (Some sample) (sample / 2) (Some min')
  | Some sm =>
      let adjusted :=
        if min' <? sample then saturating_sub sample (Z.min ack_delay max_ack_delay) else sample in
      let adjusted := Z.max adjusted min' in
      let var_sample := Z.abs (sm - adjusted) in
      mkRtt sample (Some ((sm * 7 + adjusted) / 8)) ((var r * 3 + var_sample) / 4) (Some min')
  end.

(** [smoothed_or_initial], [pto], [persistent_congestion_duration], [loss_delay] *)
Definition smoothed_or_initial (r : Rtt) : Z :=
  match smoothed r with Some s => s | None => INITIAL_RTT end.
Definition pto (r : Rtt) (max_ack_delay : Z) : Z :=
  smoothed_or_initial r + Z.max (var r * 4) TIMER_GRANULARITY + max_ack_delay.
Definition persistent_congestion_duration (r : Rtt) (max_ack_delay : Z) : Z :=
  pto r max_ack_delay * PERSISTENT_CONGESTION_THRESHOLD.
Definition loss_delay (r : Rtt) : Z :=
  let base := Z.max (latest r) (smoothed_or_initial r) in
  Z.max (base * TIME_THRESHOLD_NUM / TIME_THRESHOLD_DEN) TIMER_GRANULARITY.

(** ** Sent packets *)

Record SentPackets := mkSentPackets {
  packets : list SentPacket;
  largest_acked : option Z;
  last_ack_eliciting : option Z;
}.
Definition sent_default : SentPackets := mkSentPackets [] None None.

(** [SentPackets::push] *)
Definition push (s : SentPackets) (p : SentPacket) : SentPackets :=
  mkSentPackets (packets s ++ [p]) (largest_acked s)
    (if ack_eliciting p then Some (time_sent p) else last_ack_eliciting s).

(** [any_ack_eliciting], [bytes_in_flight] *)
Definition any_ack_eliciting (s : SentPackets) : bool := existsb ack_eliciting (packets s).
Definition sizes (l : list SentPacket) : Z :=
  foldr (λ p n, (if ack_eliciting p then size p else 0) + n) 0 l.
Definition bytes_in_flight (s : SentPackets) : Z := sizes (packets s).

Definition in_ack (ranges : list (Z * Z)) (n : Z) : bool :=
  existsb (λ r, (fst r <=? n) && (n <=? snd r)) ranges.

(** The [while] of [drain_acked] on the packets from [i] on: those kept, and
    [acked] as it grows. *)
Fixpoint drain_loop (ps : list SentPacket) (ranges : list (Z * Z)) (acked : list SentPacket)
    : list SentPacket * list SentPacket :=
  match ps with
  | [] => ([], acked)
  | p :: ps' =>
      if in_ack ranges (number p) then drain_loop ps' ranges (acked ++ [p])
      else let '(kept, acked') := drain_loop ps' ranges acked in (p :: kept, acked')
  end.

Definition max_number (l : list SentPacket) : option Z :=
  foldl (λ m p, Some (match m with Some x => Z.max x (number p) | None => number p end)) None l.

(** [drain_acked] *)
Definition drain_acked (s : SentPackets) (ranges : list (Z * Z)) (acked : list SentPacket)
    : SentPackets * list SentPacket :=
  let '(kept, acked) := drain_loop (packets s) ranges acked in
  let la :=
    match max_number acked with
    | Some m => Some (match largest_acked s with Some prev => Z.max prev m | None => m end)
    | None => largest_acked s
    end in
  (mkSentPackets kept la (last_ack_eliciting s), acked).

(** The [while] of [detect_lost] from [i] on: kept, lost, next deadline. *)
Fixpoint detect_loop (ps : list SentPacket) (la now loss_delay : Z)
    (lost : list SentPacket) (next_deadline : option Z)
    : list SentPacket * list SentPacket * option Z :=
  match ps with
  | [] => ([], lost, next_deadline)
  | p :: ps' =>
      if la <? number p then
        let '(kept, lost', d') := detect_loop ps' la now loss_delay lost next_deadline in
        (p :: kept, lost', d')
      else
        let by_reorder := u64 (number p + REORDER_THRESHOLD) <=? la in
        let deadline := time_sent p + loss_delay in
        if by_reorder || (deadline <=? now) then
          detect_loop ps' la now loss_delay (lost ++ [p]) next_deadline
        else
          let d := Some (match next_deadline with Some d => Z.min d deadline | None => deadline end) in
          let '(kept, lost', d') := detect_loop ps' la now loss_delay lost d in
          (p :: kept, lost', d')
  end.

(** [detect_lost] *)
Definition detect_lost (s : SentPackets) (now loss_delay : Z)
    : SentPackets * list SentPacket * option Z :=
  match largest_acked s with
  | None => (s, [], None)
  | Some la =>
      let '(kept, lost, d) := detect_loop (packets s) la now loss_delay [] None in
      (mkSentPackets kept (Some la) (last_ack_eliciting s), lost, d)
  end.

(** ** Congestion control *)

Definition INITIAL_WINDOW : Z := 4 * 1024 * 1024.
Definition MIN_WINDOW : Z := 2 * 1200.

Record Congestion := mkCongestion {
  window : Z;
  ssthresh : Z;
  recovery_start : option Z;
  acked_since_increase : Z;
}.

(** [Congestion::default()] *)
Definition congestion_default : Congestion := mkCongestion INITIAL_WINDOW U64_MAX None 0.

Definition in_recovery (c : Congestion) (sent : Z) : bool :=
  match recovery_start c with Some t => sent <=? t | None => false end.

(** [on_ack] *)
Definition on_ack (c : Congestion) (bytes sent : Z) : Congestion :=
  if in_recovery c sent then c
  else if window c <? ssthresh c then
    mkCongestion (u64 (window c + bytes)) (ssthresh c) (recovery_start c) (acked_since_increase c)
  else
    let acked := u64 (acked_since_increase c + bytes) in
    if window c <=? acked then
      mkCongestion (u64 (window c + 1200)) (ssthresh c) (recovery_start c) (acked - window c)
    else mkCongestion (window c) (ssthresh c) (recovery_start c) acked.

(** [on_loss] *)
Definition on_loss (c : Congestion) (sent now : Z) : Congestion :=
  if in_recovery c sent then c
  else
    let w := Z.max (window c / 2) MIN_WINDOW in
    mkCongestion w w (Some now) 0.

(** [on_persistent_congestion], [can_send] *)
Definition on_persistent_congestion (c : Congestion) : Congestion :=
  mkCongestion MIN_WINDOW U64_MAX None 0.
Definition can_send (c : Congestion) (in_flight : Z) : bool := in_flight <? window c.

(** ** Probe timeout *)

(** [2u32.saturating_pow(n)] *)
Definition saturating_pow2 (n : Z) : Z := Z.min U32_MAX (2 ^ n).

(** The [for] of [pto_deadline]. *)
Fixpoint pto_loop (spaces : list (Space * SentPackets)) (r : Rtt) (max_ack_delay pto_count : Z)
    (best : option (Space * Z)) : option (Space * Z) :=
  match spaces with
  | [] => best
  | (space, sent) :: rest =>
      if negb (any_ack_eliciting sent) then pto_loop rest r max_ack_delay pto_count best
      else
        match last_ack_eliciting sent with
        | None => pto_loop rest r max_ack_delay pto_count best
        | Some last =>
            let delay := if decide (space = Data) then max_ack_delay else 0 in
            let at' := last + pto r delay * saturating_pow2 pto_count in
            let best' :=
              match best with
              | Some (_, t) => if at' <? t then Some (space, at') else best
              | None => Some (space, at')
              end in
            pto_loop rest r max_ack_delay pto_count best'
        end
  end.

Definition max_option (l : list Z) : option Z :=
  foldl (λ m x, Some (match m with Some y => Z.max y x | None => x end)) None l.

(** [pto_deadline] *)
Definition pto_deadline (s0 s1 s2 : SentPackets) (r : Rtt) (max_ack_delay pto_count : Z)
    (unacked_handshake : option Space) : option (Space * Z) :=
  let best := pto_loop (zip ALL [s0; s1; s2]) r max_ack_delay pto_count None in
  match best with
  | Some _ => best
  | None =>
      match unacked_handshake, max_option (omap last_ack_eliciting [s0; s1; s2]) with
      | Some space, Some last => Some (space, last + pto r 0 * saturating_pow2 pto_count)
      | _, _ => None
      end
  end.

(** ** Round-trip time: the estimate stays between the samples *)

Definition rtt_ok (lo hi : Z) (r : Rtt) : Prop :=
  match smoothed r, min r with
  | None, None => var r = 0
  | Some s, Some m => lo ≤ m ∧ m ≤ latest r ∧ m ≤ s ∧ s ≤ hi ∧ latest r ≤ hi ∧ 0 ≤ var r ≤ hi
  | _, _ => False
  end.

Lemma update_ok lo hi r sample ad mad :
  0 ≤ lo → lo ≤ sample ≤ hi → 0 ≤ ad → 0 ≤ mad → rtt_ok lo hi r → rtt_ok lo hi (update r sample ad mad).
Proof.
  intros Hlo Hs Ha Hm. unfold rtt_ok, update, saturating_sub.
  destruct (smoothed r) as [s|], (min r) as [m|]; cbn; try done; intros Hr.
  - destruct (Z.ltb_spec (Z.min m sample) sample); Z.to_euclidean_division_equations; lia.
  - Z.to_euclidean_division_equations; lia.
Qed.

Lemma foldl_update_ok lo hi samples r :
  0 ≤ lo → Forall (λ '(x, ad, mad), lo ≤ x ≤ hi ∧ 0 ≤ ad ∧ 0 ≤ mad) samples → rtt_ok lo hi r →
  rtt_ok lo hi (foldl (λ r '(x, ad, mad), update r x ad mad) r samples).
Proof.
  intros Hlo Hall. revert r. induction Hall as [|[[x ad] mad] samples (?&?&?) Hall IH]; intros r Hr; [done|].
  cbn. apply IH. by apply update_ok.
Qed.

(** Whatever delays the peer reports, the smoothed estimate stays between
    the smallest and the largest sample, the variance never exceeds the largest
    sample, and the timers derived from them are at least the granularity and
    bounded by the samples. *)
Theorem rtt_within_samples (lo hi : Z) (samples : list (Z * Z * Z)) (mad : Z)
    (Hlo : 0 ≤ lo) (Hne : samples ≠ []) (Hmad : 0 ≤ mad)
    (Hs : Forall (λ '(x, ad, m), lo ≤ x ≤ hi ∧ 0 ≤ ad ∧ 0 ≤ m) samples) :
  let r := foldl (λ r '(x, ad, m), update r x ad m) rtt_default samples in
  (∃ s, smoothed r = Some s ∧ lo ≤ s ≤ hi) ∧ 0 ≤ var r ≤ hi ∧
  lo + TIMER_GRANULARITY + mad ≤ pto r mad ≤ Z.max (5 * hi) (hi + TIMER_GRANULARITY) + mad ∧
  Z.max (lo * 9 / 8) TIMER_GRANULARITY ≤ loss_delay r ≤ Z.max (hi * 9 / 8) TIMER_GRANULARITY.
Proof.
  intros r. assert (rtt_ok lo hi r) as Hr by (by apply foldl_update_ok).
  assert (smoothed r ≠ None) as Hsm.
  { unfold r. destruct samples as [|[[x ad] m] samples _] using rev_ind; [done|].
    rewrite foldl_snoc. generalize (foldl (λ r '(x, ad, m), update r x ad m) rtt_default samples).
    intros r0. unfold update. by destruct (smoothed r0). }
  clearbody r. unfold rtt_ok in Hr. destruct (smoothed r) as [s|] eqn:Hse; [|done].
  destruct (min r) as [m|]; [|done]. destruct Hr as (?&?&?&?&?&?).
  unfold pto, loss_delay, smoothed_or_initial, TIME_THRESHOLD_NUM, TIME_THRESHOLD_DEN, TIMER_GRANULARITY.
  rewrite Hse. split; [exists s; split; [done|lia]|]. split; [done|]. split; [lia|].
  Z.to_euclidean_division_equations; lia.
Qed.

Lemma rtt_within_samples_witness :
  let r := foldl (λ r '(x, ad, m), update r x ad m) rtt_default
             [(100, 0, 25); (180, 50, 25); (90, 10, 25)] in
  smoothed r = Some 104 ∧
  (∃ s, smoothed r = Some s ∧ 90 ≤ s ≤ 180) ∧ 0 ≤ var r ≤ 180 ∧
  90 + TIMER_GRANULARITY + 25 ≤ pto r 25 ≤ Z.max (5 * 180) (180 + TIMER_GRANULARITY) + 25 ∧
  Z.max (90 * 9 / 8) TIMER_GRANULARITY ≤ loss_delay r ≤ Z.max (180 * 9 / 8) TIMER_GRANULARITY.
Proof.
  split; [vm_compute; reflexivity|].
  apply (rtt_within_samples 90 180 [(100, 0, 25); (180, 50, 25); (90, 10, 25)] 25);
    [lia|done|lia|repeat constructor; lia].
Defined.

(** ** Every packet has one outcome *)

Definition is_lost (la now ld : Z) (p : SentPacket) : bool :=
  (number p <=? la) && ((number p + REORDER_THRESHOLD <=? la) || (time_sent p + ld <=? now)).

Lemma drain_loop_spec ps ranges acked :
  drain_loop ps ranges acked =
    (base.filter (λ p, in_ack ranges (number p) = false) ps,
     acked ++ base.filter (λ p, in_ack ranges (number p) = true) ps).
Proof.
  revert acked. induction ps as [|p ps IH]; intros acked; cbn [drain_loop]; [by rewrite app_nil_r|].
  rewrite !filter_cons. destruct (in_ack ranges (number p)).
  - rewrite IH, <- app_assoc. done.
  - rewrite IH. done.
Qed.

Definition numbers_ok (ps : list SentPacket) : Prop := Forall (λ p, 0 ≤ number p < 2 ^ 62) ps.

(** Deadlines of the packets that are only waiting for time to pass. *)
Definition waiting (la now ld : Z) (p : SentPacket) : Prop :=
  number p ≤ la ∧ is_lost la now ld p = false.

Definition earliest (d0 d : option Z) (ds : list Z) : Prop :=
  match d with
  | None => d0 = None ∧ ds = []
  | Some x => (d0 = Some x ∨ x ∈ ds) ∧ (∀ y, d0 = Some y → x ≤ y) ∧ Forall (λ y, x ≤ y) ds
  end.

#[global] Instance waiting_dec la now ld p : Decision (waiting la now ld p).
Proof. unfold waiting. apply _. Defined.

Lemma earliest_cons d0 d x ds :
  earliest (Some (match d0 with Some y => Z.min y x | None => x end)) d ds → earliest d0 d (x :: ds).
Proof.
  unfold earliest. destruct d as [e|]; [|intros [? _]; done].
  intros (Hin & Hle & Hall). specialize (Hle _ eq_refl). split; [|split].
  - destruct Hin as [[= <-]|Hin]; [|right; apply elem_of_cons; by right].
    destruct d0 as [y|]; [|right; apply elem_of_cons; by left].
    destruct (decide (y ≤ x)); [left; f_equal; lia|right; apply elem_of_cons; left; lia].
  - intros y ->. lia.
  - constructor; [destruct d0; lia|done].
Qed.

Lemma detect_loop_spec ps la now ld lost d :
  numbers_ok ps →
  ∃ d', detect_loop ps la now ld lost d =
    (base.filter (λ p, is_lost la now ld p = false) ps,
     lost ++ base.filter (λ p, is_lost la now ld p = true) ps, d') ∧
    earliest d d' ((λ p, time_sent p + ld) <$> base.filter (waiting la now ld) ps).
Proof.
  intros Hn. revert lost d. induction Hn as [|p ps Hp Hn IH]; intros lost d; cbn [detect_loop].
  { exists d. split; [by rewrite app_nil_r|]. destruct d; cbn; [|done]. split; [by left|].
    split; [by intros ? [= ->]|constructor]. }
  rewrite u64_small by (unfold REORDER_THRESHOLD; lia). rewrite !filter_cons.
  assert (Hl : is_lost la now ld p = (number p <=? la) &&
    ((number p + REORDER_THRESHOLD <=? la) || (time_sent p + ld <=? now))) by done.
  destruct (Z.ltb_spec la (number p)) as [Hgt|Hle].
  - rewrite (proj2 (Z.leb_gt _ _)) in Hl by lia. cbn in Hl. rewrite Hl.
    destruct (IH lost d) as (d' & -> & He). exists d'. cbn. split; [done|].
    rewrite decide_False; [done|]. unfold waiting. lia.
  - rewrite (proj2 (Z.leb_le _ _)) in Hl by lia. cbn in Hl.
    destruct ((number p + REORDER_THRESHOLD <=? la) || (time_sent p + ld <=? now)); rewrite Hl.
    + destruct (IH (lost ++ [p]) d) as (d' & -> & He). exists d'. cbn. rewrite <- app_assoc.
      split; [done|]. rewrite decide_False; [done|]. unfold waiting. rewrite Hl. by intros [_ ?].
    + destruct (IH lost (Some (match d with Some d => Z.min d (time_sent p + ld) | None => time_sent p + ld end)))
        as (d' & -> & He). exists d'. cbn. split; [done|]. rewrite decide_True by done. cbn.
      by apply earliest_cons.
Qed.

Inductive op : Type :=
| Push (p : SentPacket)
| Ack (ranges : list (Z * Z))
| Detect (now loss_delay : Z).

(** The packets of one space and what became of those that left it. *)
Record ghost := mkGhost {
  g_s : SentPackets;
  g_sent : list SentPacket;
  g_acked : list SentPacket;
  g_lost : list SentPacket;
}.

Definition step (g : ghost) (o : op) : ghost :=
  match o with
  | Push p => mkGhost (push (g_s g) p) (g_sent g ++ [p]) (g_acked g) (g_lost g)
  | Ack ranges =>
      let '(s', acked) := drain_acked (g_s g) ranges [] in
      mkGhost s' (g_sent g) (g_acked g ++ acked) (g_lost g)
  | Detect now ld =>
      let '(s', lost, _) := detect_lost (g_s g) now ld in
      mkGhost s' (g_sent g) (g_acked g) (g_lost g ++ lost)
  end.
Definition run (ops : list op) : ghost := foldl step (mkGhost sent_default [] [] []) ops.

Definition op_ok (o : op) : Prop :=
  match o with Push p => 0 ≤ number p < 2 ^ 62 | _ => True end.

Lemma filter_partition {A} (f : A → bool) (l : list A) :
  l ≡ₚ base.filter (λ x, f x = false) l ++ base.filter (λ x, f x = true) l.
Proof.
  induction l as [|x l IH]; [done|]. rewrite !filter_cons. destruct (f x) eqn:E.
  - rewrite decide_False, decide_True by congruence. rewrite IH at 1. by rewrite Permutation_middle.
  - rewrite decide_True, decide_False by congruence. cbn. by rewrite IH at 1.
Qed.

Lemma sizes_app l k : sizes (l ++ k) = sizes l + sizes k.
Proof. unfold sizes. induction l as [|p l IH]; cbn; lia. Qed.
Lemma sizes_perm l k : l ≡ₚ k → sizes l = sizes k.
Proof. unfold sizes. induction 1; cbn; lia. Qed.

Lemma max_number_spec l :
  match max_number l with
  | None => l = []
  | Some m => (∃ p, p ∈ l ∧ number p = m) ∧ Forall (λ p, number p ≤ m) l
  end.
Proof.
  induction l as [|p l IH] using rev_ind; [done|]. unfold max_number in *. rewrite foldl_snoc.
  destruct (foldl _ None l) as [m|]; cbn in *.
  - destruct IH as [(q & Hq & Hm) Hall]. split.
    + destruct (decide (m ≤ number p)); [exists p|exists q]; rewrite elem_of_app, list_elem_of_singleton;
        split; auto; lia.
    + apply Forall_app. split; [eapply Forall_impl; [exact Hall|]; cbn; lia|]. repeat constructor. lia.
  - subst l. split; [exists p; split; [by apply list_elem_of_singleton|done]|]. by repeat constructor.
Qed.

Definition inv (g : ghost) : Prop :=
  g_sent g ≡ₚ packets (g_s g) ++ g_acked g ++ g_lost g ∧
  packets (g_s g) `sublist_of` g_sent g ∧ numbers_ok (packets (g_s g)) ∧
  match largest_acked (g_s g) with
  | None => g_acked g = []
  | Some m => (∃ p, p ∈ g_acked g ∧ number p = m) ∧ Forall (λ p, number p ≤ m) (g_acked g)
  end.

Lemma sublist_filter {A} (P : A → Prop) `{∀ x, Decision (P x)} l : base.filter P l `sublist_of` l.
Proof.
  induction l as [|x l IH]; [done|]. rewrite filter_cons. case_decide; by constructor.
Qed.

Lemma numbers_filter (P : SentPacket → Prop) `{∀ x, Decision (P x)} l :
  numbers_ok l → numbers_ok (base.filter P l).
Proof.
  unfold numbers_ok. rewrite !Forall_forall. intros Hl x [_ Hx]%list_elem_of_filter. auto.
Qed.

Lemma ack_inv g ranges : inv g → inv (step g (Ack ranges)).
Proof.
  intros (Hp & Hsub & Hn & Hla). cbn [step]. unfold drain_acked. rewrite drain_loop_spec.
  set (kept := base.filter _ _). set (acked := [] ++ _).
  pose proof (filter_partition (λ p, in_ack ranges (number p)) (packets (g_s g))) as Hpart.
  pose proof (max_number_spec acked) as Hmax.
  split; [|split; [|split]]; cbn [g_s g_sent g_acked g_lost packets largest_acked].
  - unfold acked. cbn [app]. rewrite Hp. etrans; [apply Permutation_app_tail, Hpart|]. rewrite <- !app_assoc. f_equiv; [done|].
    apply Permutation_app_swap_app.
  - etrans; [apply sublist_filter|done].
  - by apply numbers_filter.
  - destruct (max_number acked) as [m|].
    + destruct Hmax as [(p & Hpin & Hm) Hall].
      destruct (largest_acked (g_s g)) as [m0|]; cbn.
      * destruct Hla as [(q & Hq & Hqm) Hqall]. split.
        -- destruct (decide (m0 ≤ m)); [exists p|exists q]; rewrite elem_of_app; split; auto; lia.
        -- apply Forall_app. split; eapply Forall_impl; [exact Hqall| |exact Hall|]; cbn; lia.
      * rewrite Hla. cbn. split; [by exists p|done].
    + rewrite Hmax, app_nil_r. done.
Qed.

Lemma detect_inv g now ld : inv g → inv (step g (Detect now ld)).
Proof.
  intros (Hp & Hsub & Hn & Hla). cbn [step]. unfold detect_lost.
  destruct (largest_acked (g_s g)) as [la|] eqn:Hl.
  - destruct (detect_loop_spec (packets (g_s g)) la now ld [] None Hn) as (d & -> & _).
    pose proof (filter_partition (is_lost la now ld) (packets (g_s g))) as Hpart.
    split; [|split; [|split]]; cbn; try done.
    + rewrite Hp. etrans; [apply Permutation_app_tail, Hpart|]. rewrite <- !app_assoc. f_equiv.
      by rewrite Permutation_app_comm, <- !app_assoc.
    + etrans; [apply sublist_filter|done].
    + by apply numbers_filter.
  - split; [|split; [|split]]; cbn; rewrite ?app_nil_r, ?Hl; done.
Qed.

Lemma run_inv ops : Forall op_ok ops → inv (run ops).
Proof.
  unfold run. induction ops as [|o ops IH] using rev_ind; intros Hops.
  - split; [done|]. split; [done|]. split; [constructor|done].
  - apply Forall_app in Hops as [Hops [Ho _]%Forall_cons]. rewrite foldl_snoc.
    specialize (IH Hops). destruct o; [|by apply ack_inv|by apply detect_inv].
    destruct IH as (Hp & Hsub & Hn & Hla). split; [|split; [|split]]; cbn; try done.
    + rewrite Hp, <- !app_assoc. f_equiv. by rewrite (Permutation_app_comm [p]), <- !app_assoc.
    + by apply sublist_app.
    + unfold numbers_ok. apply Forall_app. split; [exact Hn|]. constructor; [exact Ho|constructor].
Qed.

(** C35: Every packet sent has exactly one outcome: over any interleaving of
    sends, acknowledgements and loss detections, what was sent is in flight,
    acknowledged or lost, once each, still in the order it was sent; the bytes
    in flight are exactly those not yet accounted for; and the largest
    acknowledged number is the largest of those acknowledged. *)
Theorem recovery_conserves (ops : list op) (Hops : Forall op_ok ops) :
  let g := run ops in
  g_sent g ≡ₚ packets (g_s g) ++ g_acked g ++ g_lost g ∧
  packets (g_s g) `sublist_of` g_sent g ∧
  bytes_in_flight (g_s g) = sizes (g_sent g) - sizes (g_acked g) - sizes (g_lost g) ∧
  match largest_acked (g_s g) with
  | None => g_acked g = []
  | Some m => (∃ p, p ∈ g_acked g ∧ number p = m) ∧ Forall (λ p, number p ≤ m) (g_acked g)
  end.
Proof.
  destruct (run_inv ops Hops) as (Hp & Hsub & _ & Hla). cbv zeta. split; [done|]. split; [done|].
  split; [|done]. apply sizes_perm in Hp. rewrite !sizes_app in Hp. unfold bytes_in_flight. lia.
Qed.

Definition pkt (n t : Z) : SentPacket := mkSentPacket None n t 1200 true [Ping].

Lemma recovery_conserves_witness :
  let ops := [Push (pkt 0 0); Push (pkt 1 5); Push (pkt 2 10); Ack [(1, 1)]; Detect 20 15] in
  g_lost (run ops) = [pkt 0 0] ∧
  (let g := run ops in
   g_sent g ≡ₚ packets (g_s g) ++ g_acked g ++ g_lost g ∧
   packets (g_s g) `sublist_of` g_sent g ∧
   bytes_in_flight (g_s g) = sizes (g_sent g) - sizes (g_acked g) - sizes (g_lost g) ∧
   match largest_acked (g_s g) with
   | None => g_acked g = []
   | Some m => (∃ p, p ∈ g_acked g ∧ number p = m) ∧ Forall (λ p, number p ≤ m) (g_acked g)
   end).
Proof.
  split; [vm_compute; reflexivity|].
  apply (recovery_conserves [Push (pkt 0 0); Push (pkt 1 5); Push (pkt 2 10); Ack [(1, 1)]; Detect 20 15]).
  repeat constructor; cbn; lia.
Defined.

(** Loss detection is exactly RFC 9002 Section 6.1: a packet is declared
    lost iff an acknowledgement has reached it or gone past it and it is three
    packets behind or a loss delay old; whatever stays is not lost yet, and the
    deadline handed back is the earliest moment at which one of those waiting
    will be. *)
Theorem detect_lost_exact (s : SentPackets) (la now ld : Z)
    (Hla : largest_acked s = Some la) (Hn : numbers_ok (packets s)) :
  let '(s', lost, deadline) := detect_lost s now ld in
  (∀ p, p ∈ lost ↔ p ∈ packets s ∧ number p ≤ la ∧
     (number p + 3 ≤ la ∨ time_sent p + ld ≤ now)) ∧
  (∀ p, p ∈ packets s' ↔ p ∈ packets s ∧ p ∉ lost) ∧
  match deadline with
  | None => ∀ p, p ∈ packets s' → la < number p
  | Some d => now < d ∧ (∃ p, p ∈ packets s' ∧ number p ≤ la ∧ time_sent p + ld = d) ∧
      (∀ p, p ∈ packets s' → number p ≤ la → d ≤ time_sent p + ld)
  end.
Proof.
  unfold detect_lost. rewrite Hla.
  destruct (detect_loop_spec (packets s) la now ld [] None Hn) as (d & -> & He). cbn [app packets].
  assert (∀ p, is_lost la now ld p = true ↔ number p ≤ la ∧ (number p + 3 ≤ la ∨ time_sent p + ld ≤ now)) as Hl.
  { intros p. unfold is_lost, REORDER_THRESHOLD.
    by rewrite andb_true_iff, orb_true_iff, !Z.leb_le. }
  assert (∀ p, waiting la now ld p → p ∈ packets s → p ∈ base.filter (waiting la now ld) (packets s)) as Hw
    by (intros; by apply list_elem_of_filter).
  split; [|split].
  - intros p. rewrite list_elem_of_filter, Hl. tauto.
  - intros p. rewrite !list_elem_of_filter. destruct (is_lost la now ld p); naive_solver.
  - unfold earliest in He. destruct d as [d|].
    + destruct He as ([?|Hin] & _ & Hall); [done|]. apply list_elem_of_fmap in Hin as (p & -> & [[Hp1 Hp2] Hp3]%list_elem_of_filter).
      assert (¬ (time_sent p + ld ≤ now)) as Hnow by (intros ?; assert (is_lost la now ld p = true) by (apply Hl; auto); congruence).
      split; [lia|]. split; [exists p; rewrite list_elem_of_filter; auto|].
      intros q [Hq1 Hq2]%list_elem_of_filter Hq3. rewrite Forall_fmap, Forall_forall in Hall.
      apply Hall, Hw; [by split|done].
    + destruct He as [_ Hnil]. intros p [Hp1 Hp2]%list_elem_of_filter.
      destruct (decide (number p ≤ la)); [|lia].
      assert (p ∈ base.filter (waiting la now ld) (packets s)) as Hin by (apply Hw; [by split|done]).
      destruct (base.filter (waiting la now ld) (packets s)); [by apply elem_of_nil in Hin|done].
Qed.

Lemma detect_lost_exact_witness :
  let s := mkSentPackets [pkt 0 0; pkt 1 7; pkt 9 8] (Some 2) None in
  detect_lost s 10 9 = (mkSentPackets [pkt 1 7; pkt 9 8] (Some 2) None, [pkt 0 0], Some 16) ∧
  (let '(s', lost, deadline) := detect_lost s 10 9 in
   (∀ p, p ∈ lost ↔ p ∈ packets s ∧ number p ≤ 2 ∧ (number p + 3 ≤ 2 ∨ time_sent p + 9 ≤ 10)) ∧
   (∀ p, p ∈ packets s' ↔ p ∈ packets s ∧ p ∉ lost) ∧
   match deadline with
   | None => ∀ p, p ∈ packets s' → 2 < number p
   | Some d => 10 < d ∧ (∃ p, p ∈ packets s' ∧ number p ≤ 2 ∧ time_sent p + 9 = d) ∧
       (∀ p, p ∈ packets s' → number p ≤ 2 → d ≤ time_sent p + 9)
   end).
Proof.
  split; [vm_compute; reflexivity|].
  apply (detect_lost_exact (mkSentPackets [pkt 0 0; pkt 1 7; pkt 9 8] (Some 2) None) 2 10 9);
    [reflexivity|repeat constructor; cbn; lia].
Defined.

(** ** The congestion window *)

Inductive cop : Type :=
| OnAck (bytes sent : Z)
| OnLoss (sent now : Z)
| OnPersistent.

Definition cstep (c : Congestion) (o : cop) : Congestion :=
  match o with
  | OnAck bytes sent => on_ack c bytes sent
  | OnLoss sent now => on_loss c sent now
  | OnPersistent => on_persistent_congestion c
  end.

Definition acked_bytes (ops : list cop) : Z :=
  foldr (λ o n, match o with OnAck b _ => b | _ => 0 end + n) 0 ops.
Definition cop_ok (o : cop) : Prop := match o with OnAck b _ => 0 ≤ b | _ => True end.

Definition cong_ok (budget : Z) (c : Congestion) : Prop :=
  MIN_WINDOW ≤ window c ∧ 0 ≤ acked_since_increase c ∧
  window c + acked_since_increase c ≤ budget ∧ MIN_WINDOW ≤ budget.

Lemma cstep_ok budget c o :
  cop_ok o → cong_ok budget c → let b := acked_bytes [o] in
  budget + b < 2 ^ 63 → cong_ok (budget + b) (cstep c o).
Proof.
  unfold cong_ok, MIN_WINDOW. intros Ho (?&?&?&?). unfold acked_bytes. cbn.
  destruct o as [b t|t now|]; cbn in *; intros Hb.
  - unfold on_ack. destruct (in_recovery c t); [lia|].
    destruct (Z.ltb_spec (window c) (ssthresh c)); cbn; [rewrite u64_small by lia; lia|].
    rewrite (u64_small (acked_since_increase c + b)) by lia.
    destruct (Z.leb_spec (window c) (acked_since_increase c + b)); cbn; [rewrite u64_small by lia|]; lia.
  - unfold on_loss. destruct (in_recovery c t); [lia|]. cbn. unfold MIN_WINDOW.
    Z.to_euclidean_division_equations; lia.
  - cbn. unfold MIN_WINDOW. lia.
Qed.

Lemma crun_ok ops budget c :
  Forall cop_ok ops → cong_ok budget c → budget + acked_bytes ops < 2 ^ 63 →
  cong_ok (budget + acked_bytes ops) (foldl cstep c ops).
Proof.
  intros Hops. revert budget c. induction Hops as [|o ops Ho Hops IH]; intros budget c Hc Hb.
  - cbn. by rewrite Z.add_0_r.
  - cbn [foldl]. assert (0 ≤ acked_bytes ops) as Hpos.
    { clear -Hops. induction Hops as [|o ops Ho Hops IH]; [done|].
      change (acked_bytes (o :: ops)) with (match o with OnAck b _ => b | _ => 0 end + acked_bytes ops).
      destruct o; cbn in Ho; lia. }
    assert (acked_bytes (o :: ops) = acked_bytes [o] + acked_bytes ops) as Hsum by (unfold acked_bytes; cbn; lia).
    rewrite Hsum in *. rewrite Z.add_assoc in *. apply IH; [|done]. apply cstep_ok; [done|done|lia].
Qed.

(** However acknowledgements, losses and persistent congestion
    interleave, the window never falls below two packets (so a connection can
    always send), and never grows past its initial value by more than the bytes
    acknowledged. *)
Theorem congestion_window_bounds (ops : list cop)
    (Hops : Forall cop_ok ops) (Hb : INITIAL_WINDOW + acked_bytes ops < 2 ^ 63) :
  let c := foldl cstep congestion_default ops in
  MIN_WINDOW ≤ window c ≤ INITIAL_WINDOW + acked_bytes ops ∧ can_send c 0 = true.
Proof.
  destruct (crun_ok ops INITIAL_WINDOW congestion_default) as (?&?&?&?); [done| |done|].
  { unfold cong_ok, congestion_default. cbn [window acked_since_increase].
    unfold MIN_WINDOW, INITIAL_WINDOW. lia. }
  cbv zeta. split; [lia|]. unfold can_send, MIN_WINDOW in *. apply Z.ltb_lt. lia.
Qed.

Lemma congestion_window_bounds_witness :
  let ops := [OnLoss 5 10; OnLoss 7 11; OnAck 1000 12; OnPersistent; OnAck 500 20] in
  let c := foldl cstep congestion_default ops in
  window c = 2900 ∧
  MIN_WINDOW ≤ window c ≤ INITIAL_WINDOW + acked_bytes ops ∧ can_send c 0 = true.
Proof.
  split; [vm_compute; reflexivity|].
  apply (congestion_window_bounds [OnLoss 5 10; OnLoss 7 11; OnAck 1000 12; OnPersistent; OnAck 500 20]);
    [repeat constructor; cbn; lia|vm_compute; reflexivity].
Defined.

(** One halving per round trip: however many packets sent before a loss
    was noticed turn out to be lost with it, the window is halved once. *)
Theorem one_halving_per_round_trip (c : Congestion) (t0 now : Z) (others : list (Z * Z))
    (Hfresh : in_recovery c t0 = false)
    (Hothers : Forall (λ '(sent, _), sent ≤ now) others) :
  foldl (λ c '(sent, at'), on_loss c sent at') (on_loss c t0 now) others = on_loss c t0 now ∧
  window (on_loss c t0 now) = Z.max (window c / 2) MIN_WINDOW.
Proof.
  unfold on_loss at 2 3 4. rewrite Hfresh. split; [|done].
  induction Hothers as [|[t at'] others Ht Hothers IH]; [done|]. cbn [foldl].
  unfold on_loss at 2. unfold in_recovery. cbn [recovery_start].
  rewrite (proj2 (Z.leb_le _ _)) by done. exact IH.
Qed.

Lemma one_halving_per_round_trip_witness :
  foldl (λ c '(sent, at'), on_loss c sent at') (on_loss congestion_default 3 10) [(4, 11); (10, 12)]
    = on_loss congestion_default 3 10 ∧
  window (on_loss congestion_default 3 10) = Z.max (window congestion_default / 2) MIN_WINDOW.
Proof.
  apply (one_halving_per_round_trip congestion_default 3 10 [(4, 11); (10, 12)]);
    [reflexivity|repeat constructor; lia].
Defined.

(** ** The probe timer *)

(** The probe a space asks for: one PTO, backed off, after its last
    ack-eliciting packet, if one is in flight. *)
Definition candidate (r : Rtt) (mad count : Z) (sp : Space * SentPackets) : option (Space * Z) :=
  let '(space, s) := sp in
  if any_ack_eliciting s then
    (λ last, (space, last + pto r (if decide (space = Data) then mad else 0) * saturating_pow2 count))
      <$> last_ack_eliciting s
  else None.

Lemma pto_loop_spec spaces r mad count best :
  match pto_loop spaces r mad count best with
  | None => best = None ∧ omap (candidate r mad count) spaces = []
  | Some (sp, at') =>
      (best = Some (sp, at') ∨ (sp, at') ∈ omap (candidate r mad count) spaces) ∧
      (∀ c, best = Some c ∨ c ∈ omap (candidate r mad count) spaces → at' ≤ snd c)
  end.
Proof.
  revert best. induction spaces as [|[space s] spaces IH]; intros best; cbn [pto_loop].
  { destruct best as [[sp at']|]; [|done]. split; [by left|]. intros c [[= <-]|Hc]; [done|by apply elem_of_nil in Hc]. }
  assert (omap (candidate r mad count) ((space, s) :: spaces) =
    match candidate r mad count (space, s) with
    | Some c => c :: omap (candidate r mad count) spaces
    | None => omap (candidate r mad count) spaces
    end) as -> by done.
  generalize dependent (omap (candidate r mad count) spaces). intros cs IH. unfold candidate.
  destruct (any_ack_eliciting s); cbn [negb]; [|exact (IH best)].
  destruct (last_ack_eliciting s) as [last|]; cbn [fmap option_fmap option_map]; [|exact (IH best)].
  set (at0 := last + _). set (best' := match best with Some _ => _ | None => _ end).
  assert (∃ c, best' = Some c ∧ (best = Some c ∨ c = (space, at0)) ∧
    snd c ≤ at0 ∧ ∀ b, best = Some b → snd c ≤ snd b) as (c & Hb' & Hc & Hle & Hleb).
  { unfold best'. destruct best as [[sp t]|]; [|eexists; split; [done|]; naive_solver].
    destruct (Z.ltb_spec at0 t); eexists; (split; [done|]); cbn; (split; [auto|]); (split; [lia|]);
      intros b [= <-]; cbn; lia. }
  specialize (IH best'). destruct (pto_loop spaces r mad count best') as [[sp at']|].
  - destruct IH as [Hin Hall]. split.
    + rewrite elem_of_cons. destruct Hin as [Hin|Hin]; [|auto]. rewrite Hb' in Hin. injection Hin as ->.
      destruct Hc as [?| ->]; auto.
    + intros d Hd. rewrite elem_of_cons in Hd.
      pose proof (Hall c (or_introl Hb')) as Hc'. destruct Hd as [Hd|[->|Hd]]; [|cbn; lia|by apply Hall; right].
      specialize (Hleb d Hd). lia.
  - destruct IH as [IH _]. congruence.
Qed.

Lemma max_option_spec l :
  match max_option l with None => l = [] | Some m => m ∈ l ∧ Forall (λ x, x ≤ m) l end.
Proof.
  induction l as [|x l IH] using rev_ind; [done|]. unfold max_option in *. rewrite foldl_snoc.
  destruct (foldl _ None l) as [m|]; cbn.
  - destruct IH as [Hm Hall]. rewrite elem_of_app, list_elem_of_singleton, Forall_app. split.
    + destruct (decide (m ≤ x)); [right; lia|left]. by rewrite Z.max_l by lia.
    + split; [eapply Forall_impl; [exact Hall|]; cbn; lia|]. repeat constructor. lia.
  - subst l. cbn. split; [by apply list_elem_of_singleton|]. by repeat constructor.
Qed.

(** The probe timer is armed for the space whose probe is due first; with
    nothing ack-eliciting in flight it still runs, from the last ack-eliciting
    packet of any space, as long as the handshake is unacknowledged; and it is
    off only when neither applies. *)
Theorem pto_deadline_earliest (s0 s1 s2 : SentPackets) (r : Rtt) (mad count : Z)
    (unacked : option Space) :
  let cands := omap (candidate r mad count) (zip ALL [s0; s1; s2]) in
  let lasts := omap last_ack_eliciting [s0; s1; s2] in
  match pto_deadline s0 s1 s2 r mad count unacked with
  | Some (sp, at') =>
      ((sp, at') ∈ cands ∧ ∀ c, c ∈ cands → at' ≤ snd c) ∨
      (cands = [] ∧ unacked = Some sp ∧
       ∃ last, last ∈ lasts ∧ Forall (λ t, t ≤ last) lasts ∧
               at' = last + pto r 0 * saturating_pow2 count)
  | None => cands = [] ∧ (unacked = None ∨ lasts = [])
  end.
Proof.
  intros cands lasts. unfold pto_deadline.
  pose proof (pto_loop_spec (zip ALL [s0; s1; s2]) r mad count None) as Hl. fold cands in Hl.
  pose proof (max_option_spec lasts) as Hm. unfold lasts in *.
  destruct (pto_loop _ _ _ _ _) as [[sp at']|].
  - destruct Hl as [[?|Hin] Hall]; [done|]. left. split; [done|]. intros c Hc. apply Hall. by right.
  - destruct Hl as [_ Hnil]. destruct unacked as [space|]; [|split; auto].
    destruct (max_option _) as [m|]; [|split; [done|auto]].
    destruct Hm as [Hin Hall]. right. split; [done|]. split; [done|]. by exists m.
Qed.

(** One more timeout puts the probe off, until the exponent reaches the width of
    the factor. *)
Lemma saturating_pow2_grows n : 0 ≤ n < 32 → saturating_pow2 n < saturating_pow2 (n + 1).
Proof.
  intros Hn. unfold saturating_pow2, U32_MAX. rewrite Z.pow_add_r by lia. pose proof (Z.pow_pos_nonneg 2 n).
  assert (2 ^ n ≤ 2 ^ 31) by (apply Z.pow_le_mono_r; lia). lia.
Qed.
Lemma candidates_later r mad count spaces :
  0 ≤ count < 32 → 0 < pto r 0 → 0 < pto r mad →
  (∀ c', c' ∈ omap (candidate r mad (count + 1)) spaces → ∃ c, c ∈ omap (candidate r mad count) spaces ∧ snd c < snd c') ∧
  (omap (candidate r mad (count + 1)) spaces = [] ↔ omap (candidate r mad count) spaces = []).
Proof.
  intros Hc H0 Hm. pose proof (saturating_pow2_grows count Hc) as Hp. induction spaces as [|[space s] spaces [IH1 IH2]]; [by split; [intros ? ?%elem_of_nil|]|].
  cbn [omap list_omap candidate]. destruct (any_ack_eliciting s); [|by split]. destruct (last_ack_eliciting s) as [last|]; [|by split]. cbn [fmap option_fmap option_map].
  split; [|done]. intros c' [->|Hin]%elem_of_cons.
  - eexists. split; [by left|]. cbn [snd]. destruct (decide (space = Data)); nia.
  - destruct (IH1 c' Hin) as (c & ? & ?). exists c. split; [by right|done].
Qed.
Lemma pto_backs_off s0 s1 s2 r mad count unacked sp d :
  0 ≤ count < 32 → 0 < pto r 0 → 0 < pto r mad → pto_deadline s0 s1 s2 r mad count unacked = Some (sp, d) →
  ∃ sp' d', pto_deadline s0 s1 s2 r mad (count + 1) unacked = Some (sp', d') ∧ d < d'.
Proof.
  intros Hc H0 Hm Hd. pose proof (pto_deadline_earliest s0 s1 s2 r mad count unacked) as Hb. rewrite Hd in Hb.
  pose proof (pto_deadline_earliest s0 s1 s2 r mad (count + 1) unacked) as Ha. cbv zeta in Ha, Hb.
  destruct (candidates_later r mad count (zip ALL [s0; s1; s2]) Hc H0 Hm) as [Hlater Hnil]. pose proof (saturating_pow2_grows count Hc) as Hp.
  set (cands := omap (candidate r mad count) _) in *. set (cands' := omap (candidate r mad (count + 1)) _) in *. clearbody cands cands'.
  destruct (pto_deadline s0 s1 s2 r mad (count + 1) unacked) as [[sp' d']|].
  - exists sp', d'. split; [done|]. destruct Hb as [[Hin Hall]|(He & _ & last & Hl & Hmax & ->)], Ha as [[Hin' _]|(He' & _ & last' & Hl' & Hmax' & ->)].
    + destruct (Hlater _ Hin') as (c & Hc1 & Hc2). specialize (Hall c Hc1). cbn in Hc2. lia.
    + apply Hnil in He'. rewrite He' in Hin. by apply elem_of_nil in Hin.
    + apply Hnil in He. rewrite He in Hin'. by apply elem_of_nil in Hin'.
    + rewrite Forall_forall in Hmax, Hmax'. specialize (Hmax _ Hl'). specialize (Hmax' _ Hl). nia.
  - exfalso. destruct Ha as [He' Hor]. apply Hnil in He'. destruct Hb as [[Hin _]|(_ & Hu & last & Hl & _)]; [rewrite He' in Hin; by apply elem_of_nil in Hin|].
    destruct Hor as [?|Hlasts]; [congruence|]. rewrite Hlasts in Hl. by apply elem_of_nil in Hl.
Qed.
End recovery.
