(* ===== verification/QuicStreams.v ===== *)
(** * The streams of a QUIC connection — [src/quic/conn.rs]

    The part of [Connection] that owns the streams: the ring of request
    streams, the unidirectional ones, both levels of flow control, the queue of
    streams with something to send, and the frames owed to the peer.  What the
    worker calls ([open_uni], [send_oneshot], [write], [finish], [consume],
    [retire]), what the peer's frames do, what building a packet does
    ([fill_data_payload]) and what the fate of a packet does
    ([on_frame_acked], [on_frame_lost]).

    The fields are those of [Connection] that these functions read or write;
    the pooled buffers ([spare_bufs]) keep only capacity and are left out.  The
    running totals [data_received], [data_sent] and the limits derived from
    them count bytes of one connection and are not wrapped; the differences and
    decrements that could go below zero are. *)

From S2P Require Import Prelude Varint QuicFrame QuicPacket QuicTransport QuicRecvStream QuicSendStream QuicRecovery.
From stdpp Require Import sets.
#[local] Open Scope Z_scope.

Module conn_streams.
Import stream_ids.
Abbreviation SendStream := send_stream.SendStream.
Abbreviation RecvStream := recv_stream.RecvStream.

(** [Event] *)
Inductive Event : Type :=
| Connected
| Readable (id : Z)
| Opened (id : Z)
| Finished (id : Z) (reset : option Z)
| Stopped (id : Z)
| Lost (why : string).

#[global] Instance Event_eq_dec : EqDecision Event.
Proof. solve_decision. Defined.

(** An [anyhow::Error] of this component: [RecvError] is the one
    [handle_datagram] finds again with [downcast_ref]. *)
Inductive conn_error : Type :=
| Anyhow (e : error)
| Recv (e : recv_stream.RecvError).

Definition bail_conn {A} (msg : string) : result conn_error A := Err (Anyhow (Bail msg)).
Definition of_recv {A} (r : result recv_stream.RecvError A) : result conn_error A :=
  match r with Ok a => Ok a | Err e => Err (Recv e) end.
Definition of_res {A} (r : res A) : result conn_error A :=
  match r with Ok a => Ok a | Err e => Err (Anyhow e) end.

(** [StreamPair] *)
Record StreamPair := mkStreamPair {
  send : SendStream;
  recv : RecvStream;
  finished : bool;
  retired : bool;
  queued : bool;
}.

Definition set_send (s : SendStream) (p : StreamPair) : StreamPair :=
  mkStreamPair s (recv p) (finished p) (retired p) (queued p).
Definition set_recv (r : RecvStream) (p : StreamPair) : StreamPair :=
  mkStreamPair (send p) r (finished p) (retired p) (queued p).
Definition set_finished (b : bool) (p : StreamPair) : StreamPair :=
  mkStreamPair (send p) (recv p) b (retired p) (queued p).
Definition set_retired (b : bool) (p : StreamPair) : StreamPair :=
  mkStreamPair (send p) (recv p) (finished p) b (queued p).
Definition set_queued (b : bool) (p : StreamPair) : StreamPair :=
  mkStreamPair (send p) (recv p) (finished p) (retired p) b.

Record Streams := mkStreams {
  streams : list (option StreamPair);
  base_stream : Z;
  send_queue : list Z;
  next_bidi : Z;
  next_uni : Z;
  max_streams_bidi : Z;
  max_peer_uni : Z;
  peer_uni : list (Z * RecvStream);
  local_uni : list (Z * SendStream);
  unanswered : Z;
  stream_window : Z;
  reset_pending : list (Z * Z * Z);
  credit_pending : list Z;
  retire_pending : list Z;
  max_data_owed : bool;
  max_data_local : Z;
  max_data_window : Z;
  data_received : Z;
  max_data_peer : Z;
  data_sent : Z;
  events : list Event;
  needs_send : bool;
  params : transport.Params;
}.

(** Field updates. *)
Definition set_streams (v : list (option StreamPair)) (c : Streams) : Streams :=
  mkStreams v (base_stream c) (send_queue c) (next_bidi c) (next_uni c) (max_streams_bidi c)
    (max_peer_uni c) (peer_uni c) (local_uni c) (unanswered c) (stream_window c)
    (reset_pending c) (credit_pending c) (retire_pending c) (max_data_owed c)
    (max_data_local c) (max_data_window c) (data_received c) (max_data_peer c)
    (data_sent c) (events c) (needs_send c) (params c).
Definition set_base_stream (v : Z) (c : Streams) : Streams :=
  mkStreams (streams c) v (send_queue c) (next_bidi c) (next_uni c) (max_streams_bidi c)
    (max_peer_uni c) (peer_uni c) (local_uni c) (unanswered c) (stream_window c)
    (reset_pending c) (credit_pending c) (retire_pending c) (max_data_owed c)
    (max_data_local c) (max_data_window c) (data_received c) (max_data_peer c)
    (data_sent c) (events c) (needs_send c) (params c).
Definition set_send_queue (v : list Z) (c : Streams) : Streams :=
  mkStreams (streams c) (base_stream c) v (next_bidi c) (next_uni c) (max_streams_bidi c)
    (max_peer_uni c) (peer_uni c) (local_uni c) (unanswered c) (stream_window c)
    (reset_pending c) (credit_pending c) (retire_pending c) (max_data_owed c)
    (max_data_local c) (max_data_window c) (data_received c) (max_data_peer c)
    (data_sent c) (events c) (needs_send c) (params c).
Definition set_next_bidi (v : Z) (c : Streams) : Streams :=
  mkStreams (streams c) (base_stream c) (send_queue c) v (next_uni c) (max_streams_bidi c)
    (max_peer_uni c) (peer_uni c) (local_uni c) (unanswered c) (stream_window c)
    (reset_pending c) (credit_pending c) (retire_pending c) (max_data_owed c)
    (max_data_local c) (max_data_window c) (data_received c) (max_data_peer c)
    (data_sent c) (events c) (needs_send c) (params c).
Definition set_next_uni (v : Z) (c : Streams) : Streams :=
  mkStreams (streams c) (base_stream c) (send_queue c) (next_bidi c) v (max_streams_bidi c)
    (max_peer_uni c) (peer_uni c) (local_uni c) (unanswered c) (stream_window c)
    (reset_pending c) (credit_pending c) (retire_pending c) (max_data_owed c)
    (max_data_local c) (max_data_window c) (data_received c) (max_data_peer c)
    (data_sent c) (events c) (needs_send c) (params c).
Definition set_max_streams_bidi (v : Z) (c : Streams) : Streams :=
  mkStreams (streams c) (base_stream c) (send_queue c) (next_bidi c) (next_uni c) v
    (max_peer_uni c) (peer_uni c) (local_uni c) (unanswered c) (stream_window c)
    (reset_pending c) (credit_pending c) (retire_pending c) (max_data_owed c)
    (max_data_local c) (max_data_window c) (data_received c) (max_data_peer c)
    (data_sent c) (events c) (needs_send c) (params c).
Definition set_peer_uni (v : list (Z * RecvStream)) (c : Streams) : Streams :=
  mkStreams (streams c) (base_stream c) (send_queue c) (next_bidi c) (next_uni c)
    (max_streams_bidi c) (max_peer_uni c) v (local_uni c) (unanswered c)
    (stream_window c) (reset_pending c) (credit_pending c) (retire_pending c)
    (max_data_owed c) (max_data_local c) (max_data_window c) (data_received c)
    (max_data_peer c) (data_sent c) (events c) (needs_send c) (params c).
Definition set_local_uni (v : list (Z * SendStream)) (c : Streams) : Streams :=
  mkStreams (streams c) (base_stream c) (send_queue c) (next_bidi c) (next_uni c)
    (max_streams_bidi c) (max_peer_uni c) (peer_uni c) v (unanswered c)
    (stream_window c) (reset_pending c) (credit_pending c) (retire_pending c)
    (max_data_owed c) (max_data_local c) (max_data_window c) (data_received c)
    (max_data_peer c) (data_sent c) (events c) (needs_send c) (params c).
Definition set_unanswered (v : Z) (c : Streams) : Streams :=
  mkStreams (streams c) (base_stream c) (send_queue c) (next_bidi c) (next_uni c)
    (max_streams_bidi c) (max_peer_uni c) (peer_uni c) (local_uni c) v (stream_window c)
    (reset_pending c) (credit_pending c) (retire_pending c) (max_data_owed c)
    (max_data_local c) (max_data_window c) (data_received c) (max_data_peer c)
    (data_sent c) (events c) (needs_send c) (params c).
Definition set_reset_pending (v : list (Z * Z * Z)) (c : Streams) : Streams :=
  mkStreams (streams c) (base_stream c) (send_queue c) (next_bidi c) (next_uni c)
    (max_streams_bidi c) (max_peer_uni c) (peer_uni c) (local_uni c) (unanswered c)
    (stream_window c) v (credit_pending c) (retire_pending c) (max_data_owed c)
    (max_data_local c) (max_data_window c) (data_received c) (max_data_peer c)
    (data_sent c) (events c) (needs_send c) (params c).
Definition set_credit_pending (v : list Z) (c : Streams) : Streams :=
  mkStreams (streams c) (base_stream c) (send_queue c) (next_bidi c) (next_uni c)
    (max_streams_bidi c) (max_peer_uni c) (peer_uni c) (local_uni c) (unanswered c)
    (stream_window c) (reset_pending c) v (retire_pending c) (max_data_owed c)
    (max_data_local c) (max_data_window c) (data_received c) (max_data_peer c)
    (data_sent c) (events c) (needs_send c) (params c).
Definition set_retire_pending (v : list Z) (c : Streams) : Streams :=
  mkStreams (streams c) (base_stream c) (send_queue c) (next_bidi c) (next_uni c)
    (max_streams_bidi c) (max_peer_uni c) (peer_uni c) (local_uni c) (unanswered c)
    (stream_window c) (reset_pending c) (credit_pending c) v (max_data_owed c)
    (max_data_local c) (max_data_window c) (data_received c) (max_data_peer c)
    (data_sent c) (events c) (needs_send c) (params c).
Definition set_max_data_owed (v : bool) (c : Streams) : Streams :=
  mkStreams (streams c) (base_stream c) (send_queue c) (next_bidi c) (next_uni c)
    (max_streams_bidi c) (max_peer_uni c) (peer_uni c) (local_uni c) (unanswered c)
    (stream_window c) (reset_pending c) (credit_pending c) (retire_pending c) v
    (max_data_local c) (max_data_window c) (data_received c) (max_data_peer c)
    (data_sent c) (events c) (needs_send c) (params c).
Definition set_max_data_local (v : Z) (c : Streams) : Streams :=
  mkStreams (streams c) (base_stream c) (send_queue c) (next_bidi c) (next_uni c)
    (max_streams_bidi c) (max_peer_uni c) (peer_uni c) (local_uni c) (unanswered c)
    (stream_window c) (reset_pending c) (credit_pending c) (retire_pending c)
    (max_data_owed c) v (max_data_window c) (data_received c) (max_data_peer c)
    (data_sent c) (events c) (needs_send c) (params c).
Definition set_data_received (v : Z) (c : Streams) : Streams :=
  mkStreams (streams c) (base_stream c) (send_queue c) (next_bidi c) (next_uni c)
    (max_streams_bidi c) (max_peer_uni c) (peer_uni c) (local_uni c) (unanswered c)
    (stream_window c) (reset_pending c) (credit_pending c) (retire_pending c)
    (max_data_owed c) (max_data_local c) (max_data_window c) v (max_data_peer c)
    (data_sent c) (events c) (needs_send c) (params c).
Definition set_max_data_peer (v : Z) (c : Streams) : Streams :=
  mkStreams (streams c) (base_stream c) (send_queue c) (next_bidi c) (next_uni c)
    (max_streams_bidi c) (max_peer_uni c) (peer_uni c) (local_uni c) (unanswered c)
    (stream_window c) (reset_pending c) (credit_pending c) (retire_pending c)
    (max_data_owed c) (max_data_local c) (max_data_window c) (data_received c) v
    (data_sent c) (events c) (needs_send c) (params c).
Definition set_data_sent (v : Z) (c : Streams) : Streams :=
  mkStreams (streams c) (base_stream c) (send_queue c) (next_bidi c) (next_uni c)
    (max_streams_bidi c) (max_peer_uni c) (peer_uni c) (local_uni c) (unanswered c)
    (stream_window c) (reset_pending c) (credit_pending c) (retire_pending c)
    (max_data_owed c) (max_data_local c) (max_data_window c) (data_received c)
    (max_data_peer c) v (events c) (needs_send c) (params c).
Definition set_events (v : list Event) (c : Streams) : Streams :=
  mkStreams (streams c) (base_stream c) (send_queue c) (next_bidi c) (next_uni c)
    (max_streams_bidi c) (max_peer_uni c) (peer_uni c) (local_uni c) (unanswered c)
    (stream_window c) (reset_pending c) (credit_pending c) (retire_pending c)
    (max_data_owed c) (max_data_local c) (max_data_window c) (data_received c)
    (max_data_peer c) (data_sent c) v (needs_send c) (params c).
Definition set_needs_send (v : bool) (c : Streams) : Streams :=
  mkStreams (streams c) (base_stream c) (send_queue c) (next_bidi c) (next_uni c)
    (max_streams_bidi c) (max_peer_uni c) (peer_uni c) (local_uni c) (unanswered c)
    (stream_window c) (reset_pending c) (credit_pending c) (retire_pending c)
    (max_data_owed c) (max_data_local c) (max_data_window c) (data_received c)
    (max_data_peer c) (data_sent c) (events c) v (params c).
Definition set_params (v : transport.Params) (c : Streams) : Streams :=
  mkStreams (streams c) (base_stream c) (send_queue c) (next_bidi c) (next_uni c)
    (max_streams_bidi c) (max_peer_uni c) (peer_uni c) (local_uni c) (unanswered c)
    (stream_window c) (reset_pending c) (credit_pending c) (retire_pending c)
    (max_data_owed c) (max_data_local c) (max_data_window c) (data_received c)
    (max_data_peer c) (data_sent c) (events c) (needs_send c) v.


Definition push_event (e : Event) (c : Streams) : Streams := set_events (events c ++ [e]) c.

(** [LocalParamsInput] *)
Record LocalParamsInput := mkLocalParamsInput {
  li_initial_max_data : Z;
  li_initial_max_stream_data : Z;
  li_initial_max_streams_uni : Z;
  li_max_idle_timeout_ms : Z;
  li_handshake_timeout_ms : Z;
}.

(** These fields as [connect] leaves them, and as the peer's transport
    parameters set them in [take_peer_params]. *)
Definition connect (local : LocalParamsInput) : Streams :=
  mkStreams [] 0 [] 0 0 0 (li_initial_max_streams_uni local) [] [] 0
    (li_initial_max_stream_data local) [] [] [] false (li_initial_max_data local)
    (li_initial_max_data local) 0 0 0 [] true transport.default.
Definition adopt_params (p : transport.Params) (c : Streams) : Streams :=
  set_max_streams_bidi (transport.initial_max_streams_bidi p)
    (set_max_data_peer (transport.initial_max_data p) (set_params p c)).

(** [poll_event] *)
Definition poll_event (c : Streams) : option Event * Streams :=
  match events c with [] => (None, c) | e :: rest => (Some e, set_events rest c) end.

(** ** Finding a stream *)

(** [stream_index] *)
Definition stream_index (c : Streams) (id : Z) : option nat :=
  if negb (is_client_initiated id) || negb (bool_decide (stream_dir id = Bi)) then None
  else
    match checked_sub (id / 4) (base_stream c) with
    | Some i => if i <? zlen (streams c) then Some (Z.to_nat i) else None
    | None => None
    end.

(** [self.streams[i].as_mut()], and writing through it *)
Definition slot (c : Streams) (i : nat) : option StreamPair := mjoin (streams c !! i).
Definition put_slot (i : nat) (p : StreamPair) (c : Streams) : Streams :=
  set_streams (<[i := Some p]> (streams c)) c.

(** [send_mut]: the send half, and the connection once it has been written. *)
Definition send_mut (c : Streams) (id : Z) : option (SendStream * (SendStream → Streams)) :=
  match stream_index c id with
  | Some i =>
      match slot c i with
      | Some p => Some (send p, λ s, put_slot i (set_send s p) c)
      | None => None
      end
  | None =>
      match list_find (λ e, fst e = id) (local_uni c) with
      | Some (i, (_, s)) => Some (s, λ s', set_local_uni (<[i := (id, s')]> (local_uni c)) c)
      | None => None
      end
  end.

(** [recv_mut], likewise *)
Definition recv_mut (c : Streams) (id : Z) : option (RecvStream * (RecvStream → Streams)) :=
  match stream_index c id with
  | Some i =>
      match slot c i with
      | Some p => Some (recv p, λ r, put_slot i (set_recv r p) c)
      | None => None
      end
  | None =>
      match list_find (λ e, fst e = id) (peer_uni c) with
      | Some (i, (_, r)) => Some (r, λ r', set_peer_uni (<[i := (id, r')]> (peer_uni c)) c)
      | None => None
      end
  end.

(** ** What the worker does *)

(** [queue_send] *)
Definition queue_send (id : Z) (c : Streams) : Streams :=
  match stream_index c id with
  | None => c
  | Some i =>
      match slot c i with
      | None => c
      | Some p =>
          if queued p then c
          else let c := put_slot i (set_queued true p) c in
               set_send_queue (send_queue c ++ [id]) c
      end
  end.

(** [open_bi] *)
Definition open_bi (c : Streams) : option Z * Streams :=
  if max_streams_bidi c <=? next_bidi c then (None, c)
  else
    let id := client_stream_id Bi (next_bidi c) in
    let c := set_next_bidi (next_bidi c + 1) c in
    let c := set_unanswered (unanswered c + 1) c in
    let limit := transport.initial_max_stream_data_bidi_remote (params c) in
    (Some id,
     set_streams (streams c ++ [Some (mkStreamPair (send_stream.with_buf limit)
       (recv_stream.with_buf (stream_window c)) false false false)]) c).

(** [open_uni] *)
Definition open_uni (c : Streams) : option Z * Streams :=
  if transport.initial_max_streams_uni (params c) <=? next_uni c then (None, c)
  else
    let id := client_stream_id Uni (next_uni c) in
    let c := set_next_uni (next_uni c + 1) c in
    (Some id,
     set_local_uni (local_uni c ++
       [(id, send_stream.new (transport.initial_max_stream_data_uni (params c)))]) c).

(** [send_oneshot] *)
Definition send_oneshot (c : Streams) (data : bytes) : option (Z * nat) * Streams :=
  match open_bi c with
  | (None, c) => (None, c)
  | (Some id, c) =>
      let c := set_needs_send true c in
      let back := pred (length (streams c)) in
      match slot c back with
      | None => (None, c)
      | Some p =>
          let '(n, s) := send_stream.write (send p) data in
          let s := if (n =? length data)%nat then send_stream.finish s else s in
          let c := put_slot back (set_queued true (set_send s p)) c in
          (Some (id, n), set_send_queue (send_queue c ++ [id]) c)
      end
  end.

(** [write] *)
Definition write (c : Streams) (id : Z) (data : bytes) : nat * Streams :=
  let c := set_needs_send true c in
  let '(n, c) :=
    match send_mut c id with
    | Some (s, put) => let '(n, s) := send_stream.write s data in (n, put s)
    | None => (0%nat, c)
    end in
  (n, queue_send id c).

(** [finish] *)
Definition finish (c : Streams) (id : Z) : Streams :=
  let c := set_needs_send true c in
  let c := match send_mut c id with
           | Some (s, put) => put (send_stream.finish s)
           | None => c
           end in
  queue_send id c.

(** [queue_credit] *)
Definition queue_credit (id : Z) (c : Streams) : Streams :=
  if bool_decide (id ∈ credit_pending c) then c
  else set_credit_pending (credit_pending c ++ [id]) c.

(** [consume] *)
Definition consume (c : Streams) (id : Z) (f : bytes → res unit) : res (nat * Streams) :=
  match recv_mut c id with
  | None => Ok (0%nat, c)
  | Some (r, put) =>
      '(n, r) ← recv_stream.consume r f;
      let window := stream_window c in
      let c := put r in
      Ok (n, if recv_stream.wants_credit r window
             then set_needs_send true (queue_credit id c) else c)
  end.

(** [push_readable] *)
Definition push_readable (id : Z) (c : Streams) : Streams :=
  if bool_decide (last (events c) = Some (Readable id)) then c else push_event (Readable id) c.

(** The [while] at the end of [settle] *)
Fixpoint trim_front (l : list (option StreamPair)) (base : Z) : list (option StreamPair) * Z :=
  match l with
  | None :: l' => trim_front l' (base + 1)
  | _ => (l, base)
  end.

(** [settle] *)
Definition settle (id : Z) (c : Streams) : Streams :=
  match stream_index c id with
  | None => c
  | Some i =>
      match slot c i with
      | Some p =>
          if retired p && send_stream.is_settled (send p) then
            let '(l, base) := trim_front (<[i := None]> (streams c)) (base_stream c) in
            set_base_stream base (set_streams l c)
          else c
      | None => c
      end
  end.

(** [retire] *)
Definition retire (c : Streams) (id cancel : Z) : Streams :=
  match stream_index c id with
  | None => c
  | Some i =>
      match slot c i with
      | None => c
      | Some p =>
          let c := if finished p then c else set_unanswered (u64 (unanswered c - 1)) c in
          let p := set_retired true (set_finished true p) in
          let c :=
            if negb (send_stream.is_reset (send p)) && negb (send_stream.fully_sent (send p)) then
              let '(final_size, s) := send_stream.reset (send p) in
              let c := put_slot i (set_send s p) c in
              let c := set_reset_pending (reset_pending c ++ [(id, cancel, final_size)]) c in
              set_needs_send true c
            else put_slot i p c in
          settle id c
      end
  end.

(** ** What the peer's frames do *)

(** [check_peer_uni] *)
Definition check_peer_uni (c : Streams) (id : Z) : result recv_stream.RecvError unit :=
  if bool_decide (stream_dir id = Bi) || (max_peer_uni c <=? id / 4)
  then Err recv_stream.StreamLimit else Ok tt.

Section received.
Context `{UnstableSort (Z * bytes)}.

(** [on_stream] *)
Definition on_stream (c : Streams) (id offset : Z) (data : bytes) (fin : bool)
    : result conn_error Streams :=
  let credit := u64 (max_data_local c - data_received c) in
  match stream_index c id with
  | Some i =>
      match slot c i with
      | None => Ok c
      | Some p =>
          if retired p then Ok c
          else
            '(new, r) ← of_recv (recv_stream.push_with_credit (recv p) offset data fin credit);
            let readable := recv_stream.has_data r in
            let done := recv_stream.is_finished r && negb (finished p) in
            let p := set_recv r p in
            let c := put_slot i (if done then set_finished true p else p) c in
            let c := if done then set_unanswered (u64 (unanswered c - 1)) c else c in
            let c := if readable then push_readable id c else c in
            let c := if done then push_event (Finished id None) c else c in
            Ok (set_data_received (data_received c + new) c)
      end
  | None =>
      if is_client_initiated id && bool_decide (stream_dir id = Bi) then
        if next_bidi c <=? id / 4
        then bail_conn "the peer sent data on a client stream which we did not open"
        else Ok c
      else if is_client_initiated id then
        bail_conn "the peer sent data on our unidirectional stream"
      else
        _ ← of_recv (check_peer_uni c id);
        '(r, new, c) ←
          match list_find (λ e, fst e = id) (peer_uni c) with
          | Some (pos, (_, r)) =>
              '(new, r) ← of_recv (recv_stream.push_with_credit r offset data fin credit);
              Ok (r, new, set_peer_uni (<[pos := (id, r)]> (peer_uni c)) c)
          | None =>
              '(new, r) ← of_recv (recv_stream.push_with_credit
                                     (recv_stream.new (stream_window c)) offset data fin credit);
              Ok (r, new, push_event (Opened id) (set_peer_uni (peer_uni c ++ [(id, r)]) c))
          end;
        let c := if recv_stream.has_data r then push_readable id c else c in
        Ok (set_data_received (data_received c + new) c)
  end.
End received.

(** [on_reset] *)
Definition on_reset (c : Streams) (id error final_size : Z) : result conn_error Streams :=
  let credit := u64 (max_data_local c - data_received c) in
  match stream_index c id with
  | Some i =>
      match slot c i with
      | None => Ok c
      | Some p =>
          '(new, r) ← of_recv (recv_stream.reset (recv p) final_size credit);
          let c := set_data_received (data_received c + new) c in
          let p := set_recv r p in
          Ok (if finished p then put_slot i p c
              else push_event (Finished id (Some error))
                     (set_unanswered (u64 (unanswered c - 1))
                        (put_slot i (set_finished true p) c)))
      end
  | None =>
      if is_client_initiated id then
        if bool_decide (stream_dir id = Uni) || (next_bidi c <=? id / 4)
        then bail_conn "the peer reset a stream that it cannot send on"
        else Ok c
      else
        _ ← of_recv (check_peer_uni c id);
        match list_find (λ e, fst e = id) (peer_uni c) with
        | Some (pos, (_, r)) =>
            '(new, r) ← of_recv (recv_stream.reset r final_size credit);
            let c := set_peer_uni (<[pos := (id, r)]> (peer_uni c)) c in
            Ok (set_data_received (data_received c + new) c)
        | None =>
            '(new, r) ← of_recv (recv_stream.reset (recv_stream.new (stream_window c)) final_size credit);
            let c := push_event (Opened id) (set_peer_uni (peer_uni c ++ [(id, r)]) c) in
            Ok (set_data_received (data_received c + new) c)
        end
  end.

(** [on_stop_sending] *)
Definition on_stop_sending (c : Streams) (id error : Z) : Streams :=
  match send_mut c id with
  | None => c
  | Some (s, put) =>
      if send_stream.is_reset s then c
      else
        let '(final_size, s) := send_stream.reset s in
        let c := put s in
        let c := set_reset_pending (reset_pending c ++ [(id, error, final_size)]) c in
        set_needs_send true (push_event (Stopped id) c)
  end.

(** [on_max_stream_data]; MAX_DATA and MAX_STREAMS in [handle_frame] *)
Definition on_max_stream_data (c : Streams) (id limit : Z) : Streams :=
  let c := match send_mut c id with
           | Some (s, put) => put (send_stream.set_limit limit s)
           | None => c
           end in
  queue_send id c.
Definition on_max_data (c : Streams) (limit : Z) : Streams :=
  set_max_data_peer (Z.max (max_data_peer c) limit) c.
Definition on_max_streams (c : Streams) (uni : bool) (limit : Z) : Streams :=
  if uni then c else set_max_streams_bidi (Z.max (max_streams_bidi c) limit) c.

(** ** Building a packet *)

(** What the loops of [fill_data_payload] change: the connection, the datagram
    [out], the [frames] of the packet and [ack_eliciting]. *)
Record Fill := mkFill {
  conn : Streams;
  out : bytes;
  frames : list recovery.SentFrame;
  eliciting : bool;
}.

Definition with_conn (c : Streams) (f : Fill) : Fill := mkFill c (out f) (frames f) (eliciting f).
(** [frame::put_..(out, ..); frames.push(..); ack_eliciting = true] *)
Definition emit (b : bytes) (sf : recovery.SentFrame) (f : Fill) : Fill :=
  mkFill (conn f) (out f ++ b) (frames f ++ [sf]) true.

Section fill.
Context (budget start : nat).

(** The closure [room] *)
Definition room (f : Fill) : nat := (budget - (length (out f) - start))%nat.

(** Connection-level credit *)
Definition fill_max_data (f : Fill) : Fill :=
  let c := conn f in
  let window := max_data_window c in
  let extend_window := max_data_local c <=? data_received c + window / 2 in
  let c := if extend_window then set_max_data_owed true c else c in
  if max_data_owed c && (16 <? room f)%nat then
    let c := if extend_window then set_max_data_local (data_received c + window) c else c in
    emit (frame.put_max_data (max_data_local c)) (recovery.MaxData (max_data_local c))
      (with_conn (set_max_data_owed false c) f)
  else with_conn c f.

(** [while let Some(&id) = self.credit_pending.last()]; [todo] is that list,
    last element first. *)
Fixpoint fill_credit (todo : list Z) (f : Fill) : Fill :=
  match todo with
  | [] => f
  | id :: todo' =>
      if (room f <? 24)%nat then f
      else
        let c := set_credit_pending (reverse todo') (conn f) in
        match recv_mut c id with
        | Some (r, put) =>
            if recv_stream.size_known r then fill_credit todo' (with_conn c f)
            else
              let '(limit, r) := recv_stream.grant r (stream_window c) in
              fill_credit todo' (emit (frame.put_max_stream_data id limit)
                                   (recovery.MaxStreamData id limit) (with_conn (put r) f))
        | None => fill_credit todo' (with_conn c f)
        end
  end.

(** [while let Some(&seq) = self.retire_pending.last()] *)
Fixpoint fill_retire (todo : list Z) (f : Fill) : Fill :=
  match todo with
  | [] => f
  | seq :: todo' =>
      if (room f <? 16)%nat then f
      else fill_retire todo' (emit (frame.put_retire_connection_id seq)
             (recovery.RetireConnectionId seq)
             (with_conn (set_retire_pending (reverse todo') (conn f)) f))
  end.

(** [while let Some(&(id, error, final_size)) = self.reset_pending.last()] *)
Fixpoint fill_reset (todo : list (Z * Z * Z)) (f : Fill) : Fill :=
  match todo with
  | [] => f
  | (id, error, final_size) :: todo' =>
      if (room f <? 32)%nat then f
      else fill_reset todo' (emit (frame.put_reset_stream id error final_size)
             (recovery.ResetStream id error final_size)
             (with_conn (set_reset_pending (reverse todo') (conn f)) f))
  end.

(** One turn of a send half: [next_send], [put_stream], [on_sent].  [put]
    writes the send half back; [data_sent] grows by what is new. *)
Definition send_turn (f : Fill) (id : Z) (s : SendStream) (put : SendStream → Streams) : res Fill :=
  let credit := saturating_sub (max_data_peer (conn f)) (data_sent (conn f)) in
  next ← send_stream.next_send s (room f - 16) credit;
  match next with
  | Some (offset, data, fin) =>
      let '(sent_len, s) := send_stream.on_sent s offset (length data) fin in
      let c := put s in
      Ok (emit (frame.put_stream id offset fin data)
            (recovery.Stream id offset (length data) fin)
            (with_conn (set_data_sent (data_sent c + Z.of_nat sent_len) c) f))
  | None => Ok (with_conn (put s) f)
  end.

(** [for i in 0..self.local_uni.len()], from [i] on with [n] to go *)
Fixpoint fill_uni (n i : nat) (f : Fill) : res Fill :=
  match n with
  | O => Ok f
  | S n' =>
      if (room f <? 16)%nat then Ok f
      else
        match local_uni (conn f) !! i with
        | None => panic "index out of bounds"
        | Some (id, s) =>
            f ← send_turn f id s (λ s, set_local_uni (<[i := (id, s)]> (local_uni (conn f))) (conn f));
            fill_uni n' (S i) f
        end
  end.

(** [while turns > 0] *)
Fixpoint fill_streams (turns : nat) (f : Fill) : res Fill :=
  match turns with
  | O => Ok f
  | S turns' =>
      if (room f <? 16)%nat then Ok f
      else
        match send_queue (conn f) with
        | [] => Ok f
        | id :: rest =>
            let f := with_conn (set_send_queue rest (conn f)) f in
            match stream_index (conn f) id with
            | None => fill_streams turns' f
            | Some i =>
                match slot (conn f) i with
                | None => fill_streams turns' f
                | Some p =>
                    let p := set_queued false p in
                    f ← send_turn f id (send p) (λ s, put_slot i (set_send s p) (conn f));
                    let pending :=
                      match stream_index (conn f) id with
                      | Some i =>
                          match slot (conn f) i with
                          | Some p => send_stream.has_pending (send p)
                          | None => false
                          end
                      | None => false
                      end in
                    fill_streams turns'
                      (if pending then with_conn (queue_send id (conn f)) f else f)
                end
            end
        end
  end.

(** [fill_data_payload] *)
Definition fill_data_payload (c : Streams) (o : bytes) (fs : list recovery.SentFrame)
    (congested : bool) : res Fill :=
  let f := fill_max_data (mkFill c o fs false) in
  let f := fill_credit (reverse (credit_pending (conn f))) f in
  let f := fill_retire (reverse (retire_pending (conn f))) f in
  let f := fill_reset (reverse (reset_pending (conn f))) f in
  if congested then Ok f
  else
    f ← fill_uni (length (local_uni (conn f))) 0 f;
    fill_streams (length (send_queue (conn f))) f.
End fill.

(** ** What becomes of a packet *)

(** [on_frame_acked] *)
Definition on_frame_acked (c : Streams) (f : recovery.SentFrame) : Streams :=
  match f with
  | recovery.Stream id offset len fin =>
      let c := match send_mut c id with
               | Some (s, put) => put (send_stream.on_acked s offset len fin)
               | None => c
               end in
      settle id c
  | recovery.ResetStream id _ _ =>
      let c := match send_mut c id with
               | Some (s, put) => put (send_stream.on_reset_acked s)
               | None => c
               end in
      settle id c
  | _ => c
  end.

(** [on_frame_lost], but for CRYPTO, which the packet number space keeps *)
Definition on_frame_lost (c : Streams) (f : recovery.SentFrame) : Streams :=
  match f with
  | recovery.Ping | recovery.Crypto _ _ => c
  | recovery.RetireConnectionId seq => set_retire_pending (retire_pending c ++ [seq]) c
  | recovery.ResetStream id error final_size =>
      set_reset_pending (reset_pending c ++ [(id, error, final_size)]) c
  | recovery.MaxData _ => set_max_data_owed true c
  | recovery.MaxStreamData id _ => queue_credit id c
  | recovery.Stream id offset len fin =>
      let c := match send_mut c id with
               | Some (s, put) => put (send_stream.on_lost s offset len fin)
               | None => c
               end in
      queue_send id c
  end.

(** ** Stream identifiers *)

Lemma is_client_initiated_spec id : is_client_initiated id = true ↔ id mod 2 = 0.
Proof.
  unfold is_client_initiated. change 1 with (2 ^ 1 - 1) at 1. rewrite land_mask by lia.
  change (2 ^ 1) with 2. by rewrite Z.eqb_eq.
Qed.

Lemma stream_dir_spec id : stream_dir id = Bi ↔ (id / 2) mod 2 = 0.
Proof.
  unfold stream_dir. change 2 with (2 ^ 1) at 1. rewrite land_bit_eqb by lia.
  rewrite Z.testbit_odd, shiftr_div by lia. change (2 ^ 1) with 2. rewrite Zmod_odd.
  by destruct (Z.odd (id / 2)).
Qed.

(** A request stream's identifier. *)
Definition is_request (id : Z) : bool := is_client_initiated id && bool_decide (stream_dir id = Bi).

Lemma is_request_spec id : is_request id = true ↔ id mod 4 = 0.
Proof.
  unfold is_request. rewrite andb_true_iff, bool_decide_eq_true, is_client_initiated_spec, stream_dir_spec.
  change 4 with (2 * 2). rewrite (Z.rem_mul_r id 2 2) by lia.
  pose proof (Z.mod_pos_bound id 2 ltac:(lia)). pose proof (Z.mod_pos_bound (id / 2) 2 ltac:(lia)). lia.
Qed.

Lemma stream_index_Some c id i :
  stream_index c id = Some i ↔ id = 4 * (base_stream c + Z.of_nat i) ∧ (i < length (streams c))%nat.
Proof.
  unfold stream_index. rewrite <- negb_andb. fold (is_request id).
  pose proof (is_request_spec id) as Hr. destruct (is_request id); cbn [negb].
  - unfold checked_sub. pose proof (Z.div_mod id 4 ltac:(lia)).
    pose proof (proj1 Hr eq_refl). unfold zlen.
    destruct (decide (base_stream c ≤ id / 4)).
    + rewrite ?decide_True by lia. destruct (Z.ltb_spec (id / 4 - base_stream c) (Z.of_nat (length (streams c)))).
      * split; [intros [= <-]; lia|]. intros [-> ?]. f_equal. lia.
      * split; [done|]. lia.
    + split; [done|lia].
  - split; [done|]. intros [-> _]. enough (false = true) by done.
    apply Hr. rewrite Z.mul_comm. apply Z.mod_mul. lia.
Qed.

Lemma stream_index_None c id i :
  stream_index c id = None → (i < length (streams c))%nat → id ≠ 4 * (base_stream c + Z.of_nat i).
Proof. intros Hn Hi ->. by rewrite (proj2 (stream_index_Some c _ i)) in Hn. Qed.

Lemma slot_Some c i p : slot c i = Some p ↔ streams c !! i = Some (Some p).
Proof. unfold slot. destruct (streams c !! i) as [[?|]|]; cbn; naive_solver. Qed.

Lemma slot_lt c i p : slot c i = Some p → (i < length (streams c))%nat.
Proof. rewrite slot_Some. apply lookup_lt_Some. Qed.

(** The request stream with an identifier, when it is in the ring. *)
Definition pair_at (c : Streams) (id : Z) : option StreamPair :=
  match stream_index c id with Some i => slot c i | None => None end.
End conn_streams.
