(* ===== verification/QuicStreamsInv.v ===== *)
(** * What holds of the streams of a QUIC connection in every execution

    Executions of [QuicStreams.v]: what the worker asks for, what the peer
    sends, packets being filled, and the fate of each frame in flight, in any
    order.  The invariant ties every send half to an execution of
    [QuicSendStream.v] with the same frames in flight, so that what is proved
    there of one stream holds of each stream of a connection. *)

From S2P Require Import Prelude Varint QuicFrame QuicPacket QuicTransport QuicRecvStream QuicSendStream QuicRecovery QuicStreams.
From stdpp Require Import sets.
#[local] Open Scope Z_scope.

Module conn_streams_inv.
Import stream_ids conn_streams.

Abbreviation spent := send_stream.spent.
Abbreviation tracks := send_stream.tracks.

(** ** The invariant *)

(** The STREAM frames of one stream among those in flight. *)
Definition stream_frame (id : Z) (f : recovery.SentFrame) : option (Z * nat * bool) :=
  match f with
  | recovery.Stream id' o l fi => if decide (id' = id) then Some (o, l, fi) else None
  | _ => None
  end.
Definition flight_of (id : Z) (fl : list recovery.SentFrame) : list (Z * nat * bool) :=
  omap (stream_frame id) fl.

(** A RESET_STREAM with final size [n] is queued or in flight. *)
Definition resetting (fl : list recovery.SentFrame) (rp : list (Z * Z * Z)) (id n : Z) : Prop :=
  ∃ e, (id, e, n) ∈ rp ∨ recovery.ResetStream id e n ∈ fl.

Definition send_ok (fl : list recovery.SentFrame) (rp : list (Z * Z * Z)) (id : Z) (s : SendStream) : Prop :=
  tracks (flight_of id fl) s ∧
  (send_stream.reset_acked s = true → send_stream.is_reset s = true) ∧
  (send_stream.is_reset s = true → send_stream.reset_acked s = true ∨ resetting fl rp id (spent s)) ∧
  (∀ n, resetting fl rp id n → send_stream.is_reset s = true).

Definition recv_ok (cp : list Z) (w id : Z) (r : RecvStream) : Prop :=
  recv_stream.geom r ∧ (recv_stream.wants_credit r w = true → id ∈ cp).

(** [exq] is the one stream that may be pending without being queued, [exs] the
    one that may be settled without having been dropped: the stream an
    operation is in the middle of. *)
Definition queue_ok (exq : option Z) (q : list Z) (id : Z) (p : StreamPair) : Prop :=
  (queued p = true ↔ id ∈ q) ∧
  (exq ≠ Some id → send_stream.has_pending (send p) = true → queued p = true).

Definition life_ok (exs : option Z) (ended : list Z) (id : Z) (p : StreamPair) : Prop :=
  (retired p = true → finished p = true ∧
     (send_stream.is_reset (send p) = true ∨ send_stream.fin (send p) = true)) ∧
  (exs ≠ Some id → retired p = true → send_stream.is_settled (send p) = false) ∧
  (id ∈ ended → finished p = true).

Definition ended_id (e : Event) : option Z := match e with Finished id _ => Some id | _ => None end.
Definition opened_id (e : Event) : option Z := match e with Opened id => Some id | _ => None end.

Record env := mkEnv {
  e_fl : list recovery.SentFrame;
  e_rp : list (Z * Z * Z);
  e_cp : list Z;
  e_q : list Z;
  e_ended : list Z;
  e_w : Z;
  e_exq : option Z;
  e_exs : option Z;
}.

Definition pair_ok (e : env) (id : Z) (p : StreamPair) : Prop :=
  send_ok (e_fl e) (e_rp e) id (send p) ∧ recv_ok (e_cp e) (e_w e) id (recv p) ∧
  queue_ok (e_exq e) (e_q e) id p ∧ life_ok (e_exs e) (e_ended e) id p.

Definition env_of (c : Streams) (fl : list recovery.SentFrame) (log : list Event) (exq exs : option Z) : env :=
  mkEnv fl (reset_pending c) (credit_pending c) (send_queue c) (omap ended_id log) (stream_window c) exq exs.

(** Identifiers handed out so far. *)
Definition request_id (n id : Z) : Prop := id mod 4 = 0 ∧ 0 ≤ id < 4 * n.
Definition opened (nb nu id : Z) : Prop := request_id nb id ∨ id mod 4 = 2 ∧ 0 ≤ id < 4 * nu.
Definition uni_id (k : nat) : Z := 4 * Z.of_nat k + 2.
Definition peer_id (limit id : Z) : Prop := id mod 4 = 3 ∧ 0 ≤ id < 4 * limit.

Definition frame_opened (nb nu : Z) (f : recovery.SentFrame) : Prop :=
  match f with
  | recovery.Stream id _ _ _ | recovery.ResetStream id _ _ => opened nb nu id
  | _ => True
  end.

Definition params_ok (p : transport.Params) : Prop :=
  0 ≤ transport.initial_max_stream_data_bidi_remote p < 2 ^ 62 ∧
  0 ≤ transport.initial_max_stream_data_uni p < 2 ^ 62 ∧
  0 ≤ transport.initial_max_streams_uni p < 2 ^ 62.

Record shape (c : Streams) (fl : list recovery.SentFrame) (log : list Event) (exq exs : option Z) : Prop := {
  sh_base : 0 ≤ base_stream c;
  sh_next : next_bidi c = base_stream c + zlen (streams c);
  sh_limit : next_bidi c ≤ max_streams_bidi c < 2 ^ 62;
  sh_pairs : ∀ i p, streams c !! i = Some (Some p) →
    pair_ok (env_of c fl log exq exs) (4 * (base_stream c + Z.of_nat i)) p;
  sh_uni_next : next_uni c = zlen (local_uni c) ∧ next_uni c ≤ transport.initial_max_streams_uni (params c);
  sh_unis : ∀ i id s, local_uni c !! i = Some (id, s) → id = uni_id i ∧ send_ok fl (reset_pending c) id s;
  sh_peers : ∀ i id r, peer_uni c !! i = Some (id, r) →
    peer_id (max_peer_uni c) id ∧ recv_ok (credit_pending c) (stream_window c) id r;
  sh_peer_ids : NoDup (peer_uni c).*1;
  sh_queue : NoDup (send_queue c) ∧ Forall (request_id (next_bidi c)) (send_queue c);
  sh_flight : Forall (frame_opened (next_bidi c) (next_uni c)) fl;
  sh_resets : Forall (λ r, opened (next_bidi c) (next_uni c) r.1.1) (reset_pending c);
  sh_ended : NoDup (omap ended_id log) ∧ Forall (request_id (next_bidi c)) (omap ended_id log);
  sh_opened : omap opened_id log = (peer_uni c).*1;
  sh_params : params_ok (params c);
  sh_window : 0 < stream_window c < 2 ^ 62;
}.

(** ** Updates of one stream *)

(** Two environments that look the same to stream [id]. *)
Definition env_agree (id : Z) (e e' : env) : Prop :=
  flight_of id (e_fl e') ≡ₚ flight_of id (e_fl e) ∧
  (∀ n, resetting (e_fl e') (e_rp e') id n ↔ resetting (e_fl e) (e_rp e) id n) ∧
  (id ∈ e_cp e → id ∈ e_cp e') ∧ (id ∈ e_q e' ↔ id ∈ e_q e) ∧ (id ∈ e_ended e' → id ∈ e_ended e) ∧
  e_w e' = e_w e ∧ (e_exq e = Some id → e_exq e' = Some id) ∧ (e_exs e = Some id → e_exs e' = Some id).

Lemma send_ok_agree fl rp fl' rp' id s :
  flight_of id fl' ≡ₚ flight_of id fl → (∀ n, resetting fl' rp' id n ↔ resetting fl rp id n) →
  send_ok fl rp id s → send_ok fl' rp' id s.
Proof.
  intros Hf Hr (Ht & Ha & Hb & Hc). split; [|split; [done|split]].
  - eapply send_stream.tracks_perm; [|exact Ht]. done.
  - intros Hi. rewrite Hr. auto.
  - intros n Hn. apply (Hc n). by rewrite <- Hr.
Qed.

Lemma pair_ok_agree id e e' p : env_agree id e e' → pair_ok e id p → pair_ok e' id p.
Proof.
  intros (Hf & Hr & Hcp & Hq & He & Hw & Hx & Hy) (Hs & [Hg Hc] & [Hq1 Hq2] & [Hl1 [Hl2 Hl3]]).
  split; [by eapply send_ok_agree|]. split; [split; [done|]; rewrite Hw; auto|].
  split; [split; [by rewrite Hq|]|split; [done|split; [|auto]]].
  - intros Hne. apply Hq2. intros ?. by apply Hne, Hx.
  - intros Hne. apply Hl2. intros ?. by apply Hne, Hy.
Qed.

Lemma env_agree_refl id e : env_agree id e e.
Proof. unfold env_agree. naive_solver. Qed.

Lemma ring_ne c i j :
  i ≠ j → 4 * (base_stream c + Z.of_nat i) ≠ 4 * (base_stream c + Z.of_nat j).
Proof. lia. Qed.

Lemma ring_request c fl log exq exs i :
  shape c fl log exq exs → (i < length (streams c))%nat →
  request_id (next_bidi c) (4 * (base_stream c + Z.of_nat i)).
Proof.
  intros H Hi. pose proof (sh_base _ _ _ _ _ H). pose proof (sh_next _ _ _ _ _ H). unfold request_id, zlen in *.
  split; [rewrite Z.mul_comm; apply Z.mod_mul; lia|lia].
Qed.

(** The request stream in slot [i], the send queue and the resets owed. *)
Definition edit (i : nat) (p : StreamPair) (q : list Z) (rp : list (Z * Z * Z)) (c : Streams) : Streams :=
  set_send_queue q (set_reset_pending rp (put_slot i p c)).

Lemma shape_edit c fl log exq exs i p p' q rp fl' log' exq' exs' :
  shape c fl log exq exs → slot c i = Some p →
  let c' := edit i p' q rp c in
  let id := 4 * (base_stream c + Z.of_nat i) in
  pair_ok (env_of c' fl' log' exq' exs') id p' →
  (∀ j, j ≠ id → env_agree j (env_of c fl log exq exs) (env_of c' fl' log' exq' exs')) →
  NoDup q ∧ Forall (request_id (next_bidi c)) q →
  Forall (frame_opened (next_bidi c) (next_uni c)) fl' →
  Forall (λ r, opened (next_bidi c) (next_uni c) r.1.1) rp →
  NoDup (omap ended_id log') ∧ Forall (request_id (next_bidi c)) (omap ended_id log') →
  omap opened_id log' = omap opened_id log →
  shape c' fl' log' exq' exs'.
Proof.
  intros H Hp%slot_Some c' id Hok Hag Hq Hfl Hrp Hen Hop. destruct H as [Hb Hn Hl Hpairs Hun Hunis Hpeers Hpids _ _ _ _ Hop0 Hpar Hw].
  constructor; try done.
  - cbn. rewrite Hn. unfold zlen. by rewrite length_insert.
  - intros k pk Hk. cbn [base_stream c' edit set_send_queue set_reset_pending put_slot set_streams].
    destruct (decide (i = k)) as [<-|Hne].
    + cbn in Hk. rewrite list_lookup_insert_eq in Hk by (by eapply lookup_lt_Some). by simplify_eq.
    + cbn in Hk. rewrite list_lookup_insert_ne in Hk by done. eapply pair_ok_agree; [|by apply Hpairs].
      apply Hag, ring_ne. done.
  - intros k id' s Hk. destruct (Hunis k id' s Hk) as [-> Hs]. split; [done|].
    assert (uni_id k ≠ id) as Hne by (unfold uni_id; lia).
    destruct (Hag _ Hne) as (? & ? & _). by eapply send_ok_agree.
  - rewrite Hop. done.
Qed.

(** The send half of one of our unidirectional streams. *)
Lemma shape_uni c fl log i id s s' rp fl' exs' exq' :
  shape c fl log None None → local_uni c !! i = Some (id, s) →
  send_ok fl' rp id s' →
  (∀ j, j ≠ id → flight_of j fl' ≡ₚ flight_of j fl ∧
     ∀ n, resetting fl' rp j n ↔ resetting fl (reset_pending c) j n) →
  Forall (frame_opened (next_bidi c) (next_uni c)) fl' →
  Forall (λ r, opened (next_bidi c) (next_uni c) r.1.1) rp →
  (exq' = None ∨ exq' = Some id) → (exs' = None ∨ exs' = Some id) →
  shape (set_reset_pending rp (set_local_uni (<[i := (id, s')]> (local_uni c)) c)) fl' log exq' exs'.
Proof.
  intros H Hi Hs Hag Hfl Hrp Hx Hy. destruct H as [Hb Hn Hl Hpairs Hun Hunis Hpeers Hpids Hq _ _ Hen Hop Hpar Hw].
  destruct (Hunis i id s Hi) as [Hid _].
  constructor; try done.
  - intros k pk Hk. eapply pair_ok_agree; [|by apply Hpairs].
    assert (4 * (base_stream c + Z.of_nat k) ≠ id) as Hne by (unfold uni_id in Hid; lia).
    destruct (Hag _ Hne) as [? ?]. unfold env_agree. cbn. split_and!; try done; naive_solver.
  - cbn. unfold zlen in *. by rewrite length_insert.
  - intros k id' s0 Hk. cbn in Hk. destruct (decide (i = k)) as [<-|Hne].
    + rewrite list_lookup_insert_eq in Hk by (by eapply lookup_lt_Some). by simplify_eq.
    + rewrite list_lookup_insert_ne in Hk by done. destruct (Hunis k id' s0 Hk) as [-> Hs0]. split; [done|].
      assert (uni_id k ≠ id) as Hne' by (unfold uni_id in *; lia).
      destruct (Hag _ Hne'). by eapply send_ok_agree.
Qed.

(** [shape] reads some fields only; what leaves those alone keeps it. *)
Ltac shape_from H := destruct H; constructor; assumption.

Lemma send_mut_inv c id s put :
  send_mut c id = Some (s, put) →
  (∃ i p, slot c i = Some p ∧ id = 4 * (base_stream c + Z.of_nat i) ∧ s = send p ∧
     put = λ s, put_slot i (set_send s p) c) ∨
  (stream_index c id = None ∧ ∃ i, local_uni c !! i = Some (id, s) ∧
     put = λ s, set_local_uni (<[i := (id, s)]> (local_uni c)) c).
Proof.
  unfold send_mut. destruct (stream_index c id) as [i|] eqn:Hi.
  - apply stream_index_Some in Hi as [-> _]. destruct (slot c i) as [p|] eqn:Hp; [|done].
    intros [= <- <-]. left. by exists i, p.
  - destruct (list_find _ _) as [[i [id' s0]]|] eqn:Hf; [|done]. intros [= <- <-].
    apply list_find_Some in Hf as (Hf & Hid & _). cbn in Hid. subst id'. right. eauto.
Qed.

Lemma recv_mut_inv c id r put :
  recv_mut c id = Some (r, put) →
  (∃ i p, slot c i = Some p ∧ id = 4 * (base_stream c + Z.of_nat i) ∧ r = recv p ∧
     put = λ r, put_slot i (set_recv r p) c) ∨
  (stream_index c id = None ∧ ∃ i, peer_uni c !! i = Some (id, r) ∧
     put = λ r, set_peer_uni (<[i := (id, r)]> (peer_uni c)) c).
Proof.
  unfold recv_mut. destruct (stream_index c id) as [i|] eqn:Hi.
  - apply stream_index_Some in Hi as [-> _]. destruct (slot c i) as [p|] eqn:Hp; [|done].
    intros [= <- <-]. left. by exists i, p.
  - destruct (list_find _ _) as [[i [id' s0]]|] eqn:Hf; [|done]. intros [= <- <-].
    apply list_find_Some in Hf as (Hf & Hid & _). cbn in Hid. subst id'. right. eauto.
Qed.

(** Whichever table it is in: a new send half, with the frames in flight and
    the resets owed changed for that stream only. *)
Lemma shape_send c fl log id s put s' rp fl' exq exs :
  shape c fl log None None → send_mut c id = Some (s, put) →
  send_ok fl' rp id s' →
  (∀ j, j ≠ id → flight_of j fl' ≡ₚ flight_of j fl ∧
     ∀ n, resetting fl' rp j n ↔ resetting fl (reset_pending c) j n) →
  Forall (frame_opened (next_bidi c) (next_uni c)) fl' →
  Forall (λ r, opened (next_bidi c) (next_uni c) r.1.1) rp →
  (exq = Some id ∨ exq = None ∧
     (send_stream.has_pending s' = true → send_stream.has_pending s = true)) →
  (send_stream.is_reset s = true ∨ send_stream.fin s = true →
     (send_stream.is_reset s' = true ∨ send_stream.fin s' = true) ∧
     (exs = Some id ∨ exs = None ∧
        (send_stream.is_settled s = false → send_stream.is_settled s' = false))) →
  (exs = None ∨ exs = Some id) →
  shape (set_reset_pending rp (put s')) fl' log exq exs.
Proof.
  intros H Hm Hs Hag Hfl Hrp Hq Hl Hx.
  apply send_mut_inv in Hm as [(i & p & Hp & -> & -> & ->)|(Hnone & i & Hi & ->)].
  - remember (4 * (base_stream c + Z.of_nat i)) as id eqn:Hid. pose proof (proj1 (slot_Some c i p) Hp) as Hlk.
    destruct (sh_pairs _ _ _ _ _ H i p Hlk) as (_ & Hr & [Hq1 Hq2] & [Hl1 [Hl2 Hl3]]). rewrite <- Hid in *.
    cbn in Hr, Hq1, Hq2, Hl1, Hl2, Hl3.
    assert (shape (edit i (set_send s' p) (send_queue c) rp c) fl' log exq exs) as Hsh; [|shape_from Hsh].
    eapply shape_edit; [exact H|exact Hp|rewrite <- Hid..|apply H|done|done|apply H|done].
    + split; [done|]. split; [done|]. split.
      * split; [done|]. cbn. intros Hne Hpe. destruct Hq as [|[_ Hq]]; [congruence|]. apply Hq2; [done|auto].
      * split; [|split; [|done]]; cbn.
        -- intros Hret. destruct (Hl1 Hret) as [? Hor]. split; [done|]. by apply Hl.
        -- intros Hne Hret. destruct (Hl1 Hret) as [? Hor]. destruct (Hl Hor) as [_ [?|[_ Hst]]]; [congruence|].
           apply Hst, Hl2; done.
    + intros j Hj. destruct (Hag j Hj) as [? ?]. unfold env_agree. cbn. split_and!; try done; naive_solver.
  - eapply shape_uni; try done. destruct Hq as [|[? ?]]; auto.
Qed.

(** Queueing and settling resolve the exceptions. *)
Lemma shape_queue_send c fl log id :
  shape c fl log (Some id) None → shape (queue_send id c) fl log None None.
Proof.
  intros H. unfold queue_send.
  assert (pair_at c id = None ∨ (∃ p, pair_at c id = Some p ∧ queued p = true) →
    shape c fl log None None) as Hdone.
  { intros Hno. destruct H as [Hb Hn Hl Hpairs Hun Hunis Hpeers Hpids Hq Hfl Hrp Hen Hop Hpar Hw].
    constructor; try done. intros i p Hi. destruct (Hpairs i p Hi) as (? & ? & [Hq1 Hq2] & ?).
    split; [done|]. split; [done|]. split; [|done]. split; [done|]. cbn in *. intros _ Hpe.
    destruct (decide (Some id = Some (4 * (base_stream c + Z.of_nat i)))) as [[= Heq]|Hne]; [|auto].
    unfold pair_at in Hno. rewrite (proj2 (stream_index_Some c id i)) in Hno
      by (split; [done|by eapply lookup_lt_Some]).
    rewrite (proj2 (slot_Some c i p) Hi) in Hno. naive_solver. }
  unfold pair_at in Hdone. destruct (stream_index c id) as [i|] eqn:Hi; [|auto].
  destruct (slot c i) as [p|] eqn:Hp; [|auto]. destruct (queued p) eqn:Hqd; [eauto|]. clear Hdone.
  apply stream_index_Some in Hi as [Hid Hlt]. pose proof (proj1 (slot_Some c i p) Hp) as Hlk.
  destruct (sh_pairs _ _ _ _ _ H i p Hlk) as (Hs & Hr & [Hq1 Hq2] & Hli). rewrite <- Hid in *.
  destruct (sh_queue _ _ _ _ _ H) as [Hnd Hrq].
  assert (id ∉ send_queue c) as Hni by (cbn in Hq1; rewrite <- Hq1, Hqd; done).
  assert (shape (edit i (set_queued true p) (send_queue c ++ [id]) (reset_pending c) c) fl log None None)
    as Hsh; [|shape_from Hsh].
  eapply shape_edit; [exact H|exact Hp|rewrite <- Hid..| |apply H|apply H|apply H|done].
  - split; [done|]. split; [done|]. split; [|done]. split; cbn; [|done]. split; [set_solver|done].
  - intros j Hj. unfold env_agree. cbn. split_and!; try done; [set_solver|naive_solver].
  - split; [|apply Forall_app_2; [done|apply Forall_singleton; rewrite Hid; by eapply ring_request]].
    apply NoDup_app. split; [done|]. split; [set_solver|apply NoDup_singleton].
Qed.

Lemma trim_front_spec l b l' b' :
  trim_front l b = (l', b') → ∃ k, l = replicate k None ++ l' ∧ b' = b + Z.of_nat k.
Proof.
  revert b. induction l as [|[p|] l IH]; intros b Ht; cbn in Ht.
  - simplify_eq. exists 0%nat. split; [done|lia].
  - simplify_eq. exists 0%nat. split; [done|lia].
  - apply IH in Ht as (k & -> & ->). exists (S k). split; [done|lia].
Qed.

Lemma shape_settle c fl log id :
  shape c fl log None (Some id) → shape (settle id c) fl log None None.
Proof.
  intros H. unfold settle.
  assert ((∀ p, pair_at c id = Some p → retired p && send_stream.is_settled (send p) = false) →
    shape c fl log None None) as Hdone.
  { intros Hno. destruct H as [Hb Hn Hl Hpairs Hun Hunis Hpeers Hpids Hq Hfl Hrp Hen Hop Hpar Hw].
    constructor; try done. intros i p Hi. destruct (Hpairs i p Hi) as (? & ? & ? & [Hl1 [Hl2 Hl3]]).
    split; [done|]. split; [done|]. split; [done|]. split; [done|]. split; [|done]. cbn in *. intros _ Hret.
    destruct (decide (Some id = Some (4 * (base_stream c + Z.of_nat i)))) as [[= Heq]|Hne]; [|auto].
    unfold pair_at in Hno. rewrite (proj2 (stream_index_Some c id i)) in Hno
      by (split; [done|by eapply lookup_lt_Some]).
    rewrite (proj2 (slot_Some c i p) Hi) in Hno. specialize (Hno p eq_refl).
    rewrite Hret in Hno. done. }
  unfold pair_at in Hdone. destruct (stream_index c id) as [i|] eqn:Hi; [|by apply Hdone].
  destruct (slot c i) as [p|] eqn:Hp; [|by apply Hdone].
  destruct (retired p && send_stream.is_settled (send p)) eqn:Hset.
  2: { apply Hdone. by intros ? [= <-]. }
  clear Hdone. apply stream_index_Some in Hi as [Hid Hlt].
  destruct (trim_front _ _) as [l b] eqn:Ht. apply trim_front_spec in Ht as (k & Hl & ->).
  assert (∀ j q, l !! j = Some (Some q) →
    streams c !! (k + j)%nat = Some (Some q) ∧ (k + j)%nat ≠ i) as Hlook.
  { intros j q Hj. assert (<[i := None]> (streams c) !! (k + j)%nat = Some (Some q)) as Hk.
    { rewrite Hl, lookup_app_r by (rewrite length_replicate; lia). rewrite length_replicate.
      by replace (k + j - k)%nat with j by lia. }
    destruct (decide (i = k + j)%nat) as [Heq|Hne].
    - rewrite <- Heq, list_lookup_insert_eq in Hk by done. done.
    - rewrite list_lookup_insert_ne in Hk by done. split; [done|congruence]. }
  assert (zlen (streams c) = Z.of_nat k + zlen l) as Hlen.
  { apply (f_equal length) in Hl. rewrite length_insert, length_app, length_replicate in Hl. unfold zlen. lia. }
  destruct H as [Hb Hn Hli Hpairs Hun Hunis Hpeers Hpids Hq Hfl Hrp Hen Hop Hpar Hw].
  constructor; try done; cbn; try lia.
  intros j q Hj. destruct (Hlook j q Hj) as [Hj' Hne]. specialize (Hpairs _ _ Hj').
  replace (base_stream c + Z.of_nat k + Z.of_nat j) with (base_stream c + Z.of_nat (k + j)) by lia.
  destruct Hpairs as (? & ? & ? & [Hl1 [Hl2 Hl3]]). split; [done|]. split; [done|]. split; [done|].
  split; [done|]. split; [|done]. cbn in *. intros _. apply Hl2. intros [= Heq]. apply Hne. lia.
Qed.

(** ** The worker's operations *)

Lemma shape_weaken c fl log exq exs : shape c fl log None None → shape c fl log exq exs.
Proof.
  intros H. destruct H as [Hb Hn Hl Hpairs Hun Hunis Hpeers Hpids Hq Hfl Hrp Hen Hop Hpar Hw].
  constructor; try done. intros i p Hi. eapply pair_ok_agree; [|by apply Hpairs].
  unfold env_agree. cbn. naive_solver.
Qed.

(** The send half of a stream, wherever it lives. *)
Definition send_at (c : Streams) (id : Z) : option SendStream := fst <$> send_mut c id.

Lemma send_at_needs_send c b id : send_at (set_needs_send b c) id = send_at c id.
Proof.
  unfold send_at, send_mut. change (stream_index (set_needs_send b c) id) with (stream_index c id).
  destruct (stream_index c id) as [i|].
  - change (slot (set_needs_send b c) i) with (slot c i). by destruct (slot c i).
  - change (local_uni (set_needs_send b c)) with (local_uni c). by destruct (list_find _ _) as [[? [? ?]]|].
Qed.

Lemma send_mut_put c id s put s' :
  send_mut c id = Some (s, put) → set_reset_pending (reset_pending c) (put s') = put s'.
Proof. by intros [(i & p & _ & _ & _ & ->)|(_ & i & _ & ->)]%send_mut_inv; destruct c. Qed.

Lemma send_mut_ok c fl log exq exs id s put :
  shape c fl log exq exs → send_mut c id = Some (s, put) →
  send_ok fl (reset_pending c) id s ∧ opened (next_bidi c) (next_uni c) id.
Proof.
  intros H [(i & p & Hp & -> & -> & ->)|(_ & i & Hi & ->)]%send_mut_inv.
  - pose proof (slot_lt _ _ _ Hp). apply slot_Some in Hp. split; [by apply (sh_pairs _ _ _ _ _ H)|].
    left. by eapply ring_request.
  - destruct (sh_unis _ _ _ _ _ H _ _ _ Hi) as [-> ?]. split; [done|]. right.
    apply lookup_lt_Some in Hi. destruct (sh_uni_next _ _ _ _ _ H) as [Hn _]. unfold uni_id, zlen in *.
    split; [|lia]. rewrite Z.add_comm, Z.mul_comm, Z_mod_plus_full. done.
Qed.

Lemma send_ok_step fl rp id s s' :
  send_ok fl rp id s → tracks (flight_of id fl) s' →
  send_stream.is_reset s' = send_stream.is_reset s →
  send_stream.reset_acked s' = send_stream.reset_acked s → spent s' = spent s →
  send_ok fl rp id s'.
Proof.
  intros (Ht & Ha & Hb & Hc) Ht' Hr Hra Hsp. unfold send_ok. rewrite Hr, Hra, Hsp. done.
Qed.

(** A send half changed in place: no frame, no reset. *)
Lemma shape_send_same c fl log id s put s' exq :
  shape c fl log None None → send_mut c id = Some (s, put) →
  tracks (flight_of id fl) s' → spent s' = spent s →
  send_stream.is_reset s' = send_stream.is_reset s →
  send_stream.reset_acked s' = send_stream.reset_acked s →
  (send_stream.fin s = true → send_stream.fin s' = true) →
  (exq = Some id ∨ exq = None ∧
     (send_stream.has_pending s' = true → send_stream.has_pending s = true)) →
  (send_stream.is_reset s = true ∨ send_stream.fin s = true →
     send_stream.is_settled s = false → send_stream.is_settled s' = false) →
  shape (put s') fl log exq None.
Proof.
  intros H Hm Ht Hsp Hr Hra Hf Hq Hst. rewrite <- (send_mut_put _ _ _ _ s' Hm).
  destruct (send_mut_ok _ _ _ _ _ _ _ _ H Hm) as [Hs _].
  eapply shape_send; [exact H|exact Hm| |done|apply H|apply H|done| |by left].
  - by apply (send_ok_step _ _ _ s).
  - intros Hor. split; [rewrite Hr; naive_solver|]. right. split; [done|auto].
Qed.

Lemma shape_needs_send c fl log exq exs b :
  shape c fl log exq exs → shape (set_needs_send b c) fl log exq exs.
Proof. intros H. shape_from H. Qed.

Lemma shape_write c fl log id data :
  shape c fl log None None →
  (∀ s, send_at c id = Some s → send_stream.fin s = false) →
  shape (snd (write c id data)) fl log None None.
Proof.
  intros H Hfin. unfold write. apply (shape_needs_send _ _ _ _ _ true) in H as H1.
  rewrite <- (send_at_needs_send _ true) in Hfin. unfold send_at in Hfin.
  destruct (send_mut (set_needs_send true c) id) as [[s put]|] eqn:Hm.
  - specialize (Hfin _ eq_refl). cbn [fst] in Hfin. destruct (send_stream.write s data) as [n s'] eqn:Hw.
    cbn [fst snd]. apply shape_queue_send.
    destruct (send_mut_ok _ _ _ _ _ _ _ _ H1 Hm) as [(Ht & _) _].
    pose proof (send_stream.tracks_write _ _ data Ht Hfin) as Ht'.
    destruct (send_stream.write_end s data) as ((Ef & Er & Era) & Esp & Est).
    rewrite Hw in *. cbn [snd] in *.
    eapply shape_send_same; [exact H1|exact Hm|done..|congruence|by left|].
    intros [Hr|?]; [|congruence]. by rewrite Est.
  - apply shape_queue_send. by apply shape_weaken.
Qed.

Lemma shape_finish c fl log id :
  shape c fl log None None → shape (finish c id) fl log None None.
Proof.
  intros H. unfold finish. apply (shape_needs_send _ _ _ _ _ true) in H as H1. apply shape_queue_send.
  destruct (send_mut (set_needs_send true c) id) as [[s put]|] eqn:Hm; [|by apply shape_weaken].
  destruct (send_mut_ok _ _ _ _ _ _ _ _ H1 Hm) as [(Ht & _) _].
  eapply shape_send_same; [exact H1|exact Hm|by apply send_stream.tracks_finish|by destruct s..|by left|].
  destruct s, is_reset, fin; naive_solver.
Qed.

(** [set_limit] when the peer raises a limit. *)
Lemma shape_max_stream_data c fl log id limit :
  shape c fl log None None → limit < 2 ^ 62 → shape (on_max_stream_data c id limit) fl log None None.
Proof.
  intros H Hl. unfold on_max_stream_data. apply shape_queue_send.
  destruct (send_mut c id) as [[s put]|] eqn:Hm; [|by apply shape_weaken].
  destruct (send_mut_ok _ _ _ _ _ _ _ _ H Hm) as [(Ht & _) _].
  eapply shape_send_same; [exact H|exact Hm|by apply send_stream.tracks_limit|by destruct s..|by left|by destruct s].
Qed.

(** *** Resets *)

Lemma resetting_snoc fl rp id e n j m :
  resetting fl (rp ++ [(id, e, n)]) j m ↔ resetting fl rp j m ∨ j = id ∧ m = n.
Proof.
  unfold resetting. split.
  - intros (e' & [[Hin|Hin]%elem_of_app|Hin]); [eauto| |eauto].
    apply list_elem_of_singleton in Hin. simplify_eq. auto.
  - intros [(e' & [Hin|Hin])|[-> ->]].
    + exists e'. left. apply elem_of_app. auto.
    + exists e'. auto.
    + exists e. left. apply elem_of_app. right. by apply list_elem_of_singleton.
Qed.

(** A stream reset at the peer's wish or the worker's. *)
Lemma reset_send_ok fl rp id e s n s' :
  send_ok fl rp id s → send_stream.is_reset s = false → send_stream.reset s = (n, s') →
  n = spent s ∧ send_ok fl (rp ++ [(id, e, n)]) id s' ∧ send_stream.has_pending s' = false ∧
  send_stream.is_reset s' = true ∧ send_stream.is_settled s' = false ∧ spent s' = spent s.
Proof.
  intros (Ht & Ha & Hb & Hc) Hr Hrs. pose proof (send_stream.tracks_reset _ _ Ht) as Ht'. rewrite Hrs in Ht'.
  destruct s as [b bs bo st l a li f fs fa r ra]. cbn in Hrs. injection Hrs as <- <-. cbn in *. subst r.
  destruct ra; [by specialize (Ha eq_refl)|].
  split; [done|]. split; [|done]. split; [done|]. cbn. split; [done|]. split; [|done].
  intros _. right. apply resetting_snoc. by right.
Qed.

Lemma shape_stop_sending c fl log id error :
  shape c fl log None None → shape (on_stop_sending c id error) fl log None None.
Proof.
  intros H. unfold on_stop_sending. destruct (send_mut c id) as [[s put]|] eqn:Hm; [|done].
  destruct (send_stream.is_reset s) eqn:Hr; [done|].
  destruct (send_stream.reset s) as [n s'] eqn:Hrs.
  destruct (send_mut_ok _ _ _ _ _ _ _ _ H Hm) as [Hs Hop].
  destruct (reset_send_ok _ _ _ error _ _ _ Hs Hr Hrs) as (-> & Hs' & Hp & Hr' & Hst & _).
  assert (shape (set_reset_pending (reset_pending c ++ [(id, error, spent s)]) (put s')) fl log None None) as Hsh.
  { eapply shape_send; [exact H|exact Hm|done| |apply H| |right; split; [done|congruence]| |by left].
    - intros j Hj. split; [done|]. intros m. rewrite resetting_snoc. naive_solver.
    - apply Forall_app_2; [apply H|by apply Forall_singleton].
    - intros _. split; [by left|]. right. by split. }
  assert (reset_pending (put s') = reset_pending c) as ->.
  { by apply send_mut_inv in Hm as [(i & p & _ & _ & _ & ->)|(_ & i & _ & ->)]. }
  shape_from Hsh.
Qed.

Lemma shape_retire c fl log id cancel :
  shape c fl log None None → shape (retire c id cancel) fl log None None.
Proof.
  intros H. unfold retire. destruct (stream_index c id) as [i|] eqn:Hi; [|done].
  destruct (slot c i) as [p|] eqn:Hp; [|done]. apply stream_index_Some in Hi as [Hid Hlt].
  pose proof (proj1 (slot_Some c i p) Hp) as Hlk.
  destruct (sh_pairs _ _ _ _ _ H i p Hlk) as (Hs & Hr & [Hq1 Hq2] & [Hl1 [Hl2 Hl3]]).
  rewrite <- Hid in *. cbn in Hs, Hr, Hq1, Hq2, Hl1, Hl2, Hl3. apply shape_settle.
  change (send (set_retired true (set_finished true p))) with (send p).
  destruct (send_stream.is_reset (send p)) eqn:Hre; [|destruct (send_stream.fully_sent (send p)) eqn:Hfs].
  3: { cbn [negb andb]. destruct (send_stream.reset (send p)) as [n s'] eqn:Hrs.
    destruct (reset_send_ok _ _ _ cancel _ _ _ Hs Hre Hrs) as (-> & Hs' & Hpe & Hr' & Hst & _).
    assert (shape (edit i (set_send s' (set_retired true (set_finished true p))) (send_queue c)
      (reset_pending c ++ [(id, cancel, spent (send p))]) c) fl log None (Some id)) as Hsh.
    2: { destruct (finished p); shape_from Hsh. }
    eapply shape_edit; [exact H|exact Hp|rewrite <- Hid..|apply H|apply H| |apply H|done].
    - split; [done|]. split; [done|]. split; [split; cbn; [done|congruence]|]. split; cbn; [auto|].
      split; [congruence|done].
    - intros j Hj. unfold env_agree. cbn. split_and!; try done. intros m. rewrite resetting_snoc. naive_solver.
    - apply Forall_app_2; [apply H|]. apply Forall_singleton. left. rewrite Hid. by eapply ring_request. }
  all: cbn [negb andb].
  all: assert (shape (edit i (set_retired true (set_finished true p)) (send_queue c)
      (reset_pending c) c) fl log None (Some id)) as Hsh; [|destruct (finished p); shape_from Hsh].
  all: eapply shape_edit; [exact H|exact Hp|rewrite <- Hid..|apply H|apply H|apply H|apply H|done].
  all: try (intros j Hj; apply env_agree_refl).
  all: split; [done|]; split; [done|]; split; [done|]; split; cbn; [|split; [congruence|done]]; auto.
  all: try (intros j Hj; unfold env_agree; cbn; split_and!; try done; naive_solver).
  intros _. split; [done|]. right. unfold send_stream.fully_sent in Hfs.
  by apply andb_true_iff in Hfs as [[? _]%andb_true_iff _].
Qed.

(** ** Frames in flight *)

Lemma flight_of_cons j f fl :
  flight_of j (f :: fl) = option_list (stream_frame j f) ++ flight_of j fl.
Proof. unfold flight_of. cbn. by destruct (stream_frame j f). Qed.

Lemma flight_of_perm j fl fl' : fl ≡ₚ fl' → flight_of j fl ≡ₚ flight_of j fl'.
Proof. intros Hp. unfold flight_of. by rewrite Hp. Qed.

Lemma flight_of_snoc j f fl : flight_of j (fl ++ [f]) ≡ₚ flight_of j (f :: fl).
Proof. apply flight_of_perm. by rewrite (comm (++)). Qed.

Lemma resetting_perm fl fl' rp j n : fl ≡ₚ fl' → resetting fl rp j n ↔ resetting fl' rp j n.
Proof. intros Hp. unfold resetting. by setoid_rewrite Hp. Qed.

Lemma resetting_cons f fl rp j n :
  resetting (f :: fl) rp j n ↔ resetting fl rp j n ∨ ∃ e, f = recovery.ResetStream j e n.
Proof.
  unfold resetting. split.
  - intros (e & [Hin|Hin]); [eauto|]. apply elem_of_cons in Hin as [<-|Hin]; eauto.
  - intros [(e & [Hin|Hin])|(e & ->)]; exists e; [auto|right; by constructor|right; by constructor].
Qed.

Lemma frame_opened_perm nb nu fl fl' f :
  fl ≡ₚ f :: fl' → Forall (frame_opened nb nu) fl → frame_opened nb nu f ∧ Forall (frame_opened nb nu) fl'.
Proof. intros -> [? ?]%Forall_cons. done. Qed.

Lemma ring_send_at c i p : streams c !! i = Some (Some p) →
  send_at c (4 * (base_stream c + Z.of_nat i)) = Some (send p).
Proof.
  intros Hi. unfold send_at, send_mut. rewrite (proj2 (stream_index_Some c _ i)) by
    (split; [done|by eapply lookup_lt_Some]).
  by rewrite (proj2 (slot_Some c i p) Hi).
Qed.

Lemma uni_send_at c fl log exq exs i id s :
  shape c fl log exq exs → local_uni c !! i = Some (id, s) → send_at c id = Some s.
Proof.
  intros H Hi. destruct (sh_unis _ _ _ _ _ H _ _ _ Hi) as [Hid _]. unfold send_at, send_mut.
  destruct (stream_index c id) as [k|] eqn:Hk; [apply stream_index_Some in Hk as [? _]; unfold uni_id in *; lia|].
  destruct (list_find (λ e, fst e = id) (local_uni c)) as [[j [id' s']]|] eqn:Hl.
  - apply list_find_Some in Hl as (Hj & Heq & _). cbn in Heq. subst id'.
    destruct (sh_unis _ _ _ _ _ H _ _ _ Hj) as [Hid' _].
    assert (i = j) as -> by (unfold uni_id in *; lia). by simplify_eq.
  - eapply list_find_None, Forall_lookup_1 in Hl; [|exact Hi]. done.
Qed.

(** Frames and resets change hands without any stream noticing. *)
Lemma shape_flight c fl log exq exs fl' rp :
  shape c fl log exq exs →
  (∀ j s, send_at c j = Some s → flight_of j fl' ≡ₚ flight_of j fl ∧
     ∀ n, resetting fl' rp j n ↔ resetting fl (reset_pending c) j n) →
  Forall (frame_opened (next_bidi c) (next_uni c)) fl' →
  Forall (λ r, opened (next_bidi c) (next_uni c) r.1.1) rp →
  shape (set_reset_pending rp c) fl' log exq exs.
Proof.
  intros H Hag Hfl Hrp. pose proof H as [Hb Hn Hl Hpairs Hun Hunis Hpeers Hpids Hq _ _ Hen Hop Hpar Hw].
  constructor; try done.
  - intros k pk Hk. eapply pair_ok_agree; [|by apply Hpairs].
    destruct (Hag _ _ (ring_send_at c k pk Hk)). unfold env_agree. cbn. split_and!; try done.
  - intros k id s Hk. destruct (Hunis k id s Hk) as [? Hs]. split; [done|].
    destruct (Hag _ _ (uni_send_at _ _ _ _ _ _ _ _ H Hk)). by eapply send_ok_agree.
Qed.

(** A frame that is not about a live stream leaves flight. *)
Lemma shape_drop c fl log exq exs f fl' :
  shape c fl log exq exs → fl ≡ₚ f :: fl' →
  (∀ j s, send_at c j = Some s → stream_frame j f = None ∧ ∀ e n, f ≠ recovery.ResetStream j e n) →
  shape c fl' log exq exs.
Proof.
  intros H Hp Hf. assert (shape (set_reset_pending (reset_pending c) c) fl' log exq exs) as Hsh; [|shape_from Hsh].
  eapply shape_flight; [exact H| |by eapply frame_opened_perm, H|apply H].
  intros j s Hj. destruct (Hf j s Hj) as [Hn Hr]. split.
  - rewrite (flight_of_perm j _ _ Hp), flight_of_cons, Hn. done.
  - intros n. rewrite (resetting_perm _ _ _ _ _ Hp), resetting_cons. naive_solver.
Qed.

(** The fate of a STREAM frame whose stream is still there. *)
Lemma shape_stream_fate c fl log id o len fi fl' s put s' exq exs :
  shape c fl log None None → fl ≡ₚ recovery.Stream id o len fi :: fl' →
  send_mut c id = Some (s, put) →
  (tracks ((o, len, fi) :: flight_of id fl') s → tracks (flight_of id fl') s' ∧ spent s' = spent s) →
  send_stream.same_end s s' →
  (exq = Some id ∨ exq = None ∧
     (send_stream.has_pending s' = true → send_stream.has_pending s = true)) →
  (exs = Some id ∨ exs = None ∧ send_stream.is_settled s' = send_stream.is_settled s) →
  shape (put s') fl' log exq exs.
Proof.
  intros H Hp Hm Ht (Ef & Er & Era) Hq Hst. rewrite <- (send_mut_put _ _ _ _ s' Hm).
  destruct (send_mut_ok _ _ _ _ _ _ _ _ H Hm) as [(Htr & Ha & Hb & Hc) _].
  assert (∀ j n, resetting fl (reset_pending c) j n ↔ resetting fl' (reset_pending c) j n) as Hrs.
  { intros j n. rewrite (resetting_perm _ _ _ _ _ Hp), resetting_cons. naive_solver. }
  destruct Ht as [Ht Hsp].
  { eapply send_stream.tracks_perm; [|exact Htr]. rewrite (flight_of_perm _ _ _ Hp), flight_of_cons.
    cbn. by rewrite decide_True. }
  eapply shape_send; [exact H|exact Hm| | |by eapply frame_opened_perm, H|apply H|done| |].
  - unfold send_ok. rewrite Er, Era, Hsp. split; [done|]. split; [done|].
    split; intros; rewrite <- ?Hrs in *; eauto.
  - intros j Hj. split; [|intros n; by rewrite <- Hrs].
    rewrite (flight_of_perm _ _ _ Hp), flight_of_cons. cbn. by rewrite decide_False.
  - rewrite Er, Ef. intros Hor. split; [done|]. destruct Hst as [|[? ->]]; auto.
  - destruct Hst as [|[? _]]; auto.
Qed.

Lemma send_mut_None_at c id : send_mut c id = None → send_at c id = None.
Proof. unfold send_at. by intros ->. Qed.

Lemma shape_acked c fl log f fl' :
  shape c fl log None None → fl ≡ₚ f :: fl' → shape (on_frame_acked c f) fl' log None None.
Proof.
  intros H Hp.
  assert (∀ j, (∀ s, send_at c j = Some s → stream_frame j f = None ∧ ∀ e n, f ≠ recovery.ResetStream j e n) →
    (∀ k, k ≠ j → stream_frame k f = None ∧ ∀ e n, f ≠ recovery.ResetStream k e n) →
    shape c fl' log None None) as Hdrop.
  { intros j Hj Hk. eapply shape_drop; [done..|]. intros k s Hs. destruct (decide (k = j)) as [->|]; eauto. }
  destruct f as [o len|id o len fi| |seq|id e n|l|id l]; cbn [on_frame_acked];
    try (apply (Hdrop 0); by intros).
  - apply shape_settle. destruct (send_mut c id) as [[s put]|] eqn:Hm.
    + destruct (send_mut_ok _ _ _ _ _ _ _ _ H Hm) as [(Htr & _) _].
      eapply shape_stream_fate; [exact H|exact Hp|exact Hm|apply send_stream.tracks_acked|
        apply send_stream.on_acked_end| |by left].
      right. split; [done|]. destruct (send_stream.has_pending s) eqn:Hpe; [done|].
      by rewrite (send_stream.on_acked_pending _ _ _ _ _ Htr Hpe).
    + apply shape_weaken. apply (Hdrop id).
      * rewrite (send_mut_None_at _ _ Hm). done.
      * intros k Hk. cbn. rewrite decide_False by done. split; [done|congruence].
  - apply shape_settle. destruct (send_mut c id) as [[s put]|] eqn:Hm.
    + destruct (send_mut_ok _ _ _ _ _ _ _ _ H Hm) as [(Htr & Ha & Hb & Hc) _].
      rewrite <- (send_mut_put _ _ _ _ _ Hm).
      assert (∀ j m, resetting fl' (reset_pending c) j m → resetting fl (reset_pending c) j m) as Hrs.
      { intros j m Hr. rewrite (resetting_perm _ _ _ _ _ Hp), resetting_cons. by left. }
      assert (send_stream.is_reset s = true) as Hr.
      { apply (Hc n). rewrite (resetting_perm _ _ _ _ _ Hp), resetting_cons. right. eauto. }
      assert (∀ j, flight_of j fl' ≡ₚ flight_of j fl) as Hfo.
      { intros j. by rewrite (flight_of_perm _ _ _ Hp), flight_of_cons. }
      eapply shape_send; [exact H|exact Hm| | |by eapply frame_opened_perm, H|apply H| | |by right].
      * split; [apply send_stream.tracks_reset_acked; eapply send_stream.tracks_perm; [symmetry; apply Hfo|done]|].
        destruct s. cbn in *. split; [done|]. split; [by left|]. intros m ?. by eapply Hc, Hrs.
      * intros j Hj. split; [done|]. intros m. split; [auto|].
        rewrite (resetting_perm _ _ _ _ _ Hp), resetting_cons. intros [|(? & [=])]; [done|congruence].
      * right. split; [done|]. by destruct s.
      * intros _. split; [left; by destruct s|by left].
    + apply shape_weaken. apply (Hdrop id).
      * rewrite (send_mut_None_at _ _ Hm). done.
      * intros k Hk. split; [done|congruence].
Qed.

Lemma shape_lost c fl log f fl' :
  shape c fl log None None → fl ≡ₚ f :: fl' → shape (on_frame_lost c f) fl' log None None.
Proof.
  intros H Hp.
  assert ((∀ k s, send_at c k = Some s → stream_frame k f = None ∧ ∀ e n, f ≠ recovery.ResetStream k e n) →
    shape c fl' log None None) as Hdrop by (intros; by eapply shape_drop).
  destruct f as [o len|id o len fi| |seq|id e n|l|id l]; cbn [on_frame_lost];
    try (by apply Hdrop).
  - apply shape_queue_send. destruct (send_mut c id) as [[s put]|] eqn:Hm.
    + eapply shape_stream_fate; [exact H|exact Hp|exact Hm|apply send_stream.tracks_lost|
        apply send_stream.on_lost_end|by left|]. right. split; [done|]. apply send_stream.on_lost_end.
    + apply shape_weaken, Hdrop. intros k s Hs. cbn. rewrite decide_False; [by split|].
      intros ->. by rewrite (send_mut_None_at _ _ Hm) in Hs.
  - assert (shape c fl' log None None) as Hsh by (by apply Hdrop). shape_from Hsh.
  - eapply shape_flight; [exact H| |by eapply frame_opened_perm, H|].
    + intros j s Hj. split; [by rewrite (flight_of_perm _ _ _ Hp), flight_of_cons|].
      intros m. rewrite (resetting_perm _ _ _ _ _ Hp), resetting_cons, resetting_snoc. naive_solver.
    + apply Forall_app_2; [apply H|]. apply Forall_singleton. cbn.
      by eapply (frame_opened_perm _ _ _ _ _ Hp), H.
  - assert (shape c fl' log None None) as Hsh by (by apply Hdrop). shape_from Hsh.
  - assert (shape c fl' log None None) as Hsh by (by apply Hdrop). clear H. unfold queue_credit.
    case_bool_decide; [done|]. destruct Hsh as [Hb Hn Hl Hpairs Hun Hunis Hpeers Hpids Hq Hfl Hrp Hen Hop Hpar Hw].
    constructor; try done.
    + intros i p Hi. eapply pair_ok_agree; [|by apply Hpairs]. unfold env_agree. cbn. split_and!; try done; set_solver.
    + intros i id' r Hi. destruct (Hpeers i id' r Hi) as [? [? Hc]]. split; [done|]. split; [done|]. cbn. set_solver.
Qed.

(** ** Opening streams *)

Lemma shape_log c fl log exq exs log' :
  shape c fl log exq exs → omap ended_id log' = omap ended_id log →
  omap opened_id log' = omap opened_id log → shape c fl log' exq exs.
Proof.
  intros H He Ho. destruct H as [Hb Hn Hl Hpairs Hun Hunis Hpeers Hpids Hq Hfl Hrp Hen Hop Hpar Hw].
  constructor; rewrite ?He, ?Ho; try done. intros i p Hi. unfold env_of. rewrite He. by apply Hpairs.
Qed.

Lemma fresh_flight nb nu fl rp id :
  Forall (frame_opened nb nu) fl → Forall (λ r, opened nb nu r.1.1) rp → ¬ opened nb nu id →
  flight_of id fl = [] ∧ ∀ n, ¬ resetting fl rp id n.
Proof.
  intros Hfl Hrp Hno. rewrite Forall_forall in Hfl. rewrite Forall_forall in Hrp. split.
  - destruct (flight_of id fl) as [|x l] eqn:Hx; [done|].
    assert (x ∈ flight_of id fl) as Hin by (rewrite Hx; constructor).
    apply list_elem_of_omap in Hin as (f & Hf & Hsf). specialize (Hfl f Hf).
    destruct f; cbn in *; try done. case_decide; [by subst|done].
  - intros n (e & [Hin|Hin]); apply Hno; [apply (Hrp _ Hin)|apply (Hfl _ Hin)].
Qed.

Lemma request_id_mono n m id : n ≤ m → request_id n id → request_id m id.
Proof. unfold request_id. lia. Qed.
Lemma opened_mono nb nu nb' nu' id : nb ≤ nb' → nu ≤ nu' → opened nb nu id → opened nb' nu' id.
Proof. unfold opened. intros ? ? [?|?]; [left; by eapply request_id_mono|right; lia]. Qed.

Lemma frames_opened_mono nb nu nb' nu' fl :
  nb ≤ nb' → nu ≤ nu' → Forall (frame_opened nb nu) fl → Forall (frame_opened nb' nu') fl.
Proof. intros ? ? Hf. eapply Forall_impl; [exact Hf|]. intros []; cbn; auto; by apply opened_mono. Qed.
Lemma resets_opened_mono nb nu nb' nu' (rp : list (Z * Z * Z)) :
  nb ≤ nb' → nu ≤ nu' → Forall (λ r, opened nb nu r.1.1) rp → Forall (λ r, opened nb' nu' r.1.1) rp.
Proof. intros ? ? Hf. eapply Forall_impl; [exact Hf|]. intros ?. by apply opened_mono. Qed.

Lemma new_send_ok fl rp nb nu id lim :
  Forall (frame_opened nb nu) fl → Forall (λ r, opened nb nu r.1.1) rp → ¬ opened nb nu id →
  0 ≤ lim < 2 ^ 62 → send_ok fl rp id (send_stream.with_buf lim).
Proof.
  intros Hfl Hrp Hno Hlim. destruct (fresh_flight _ _ _ _ _ Hfl Hrp Hno) as [Hf Hr].
  unfold send_ok. rewrite Hf. split; [by apply send_stream.tracks_new|]. cbn. split; [done|].
  split; [done|]. intros n Hn. by apply Hr in Hn.
Qed.

Lemma new_recv_ok cp w id : 0 < w < 2 ^ 62 → recv_ok cp w id (recv_stream.with_buf w).
Proof.
  intros Hw. split; [apply recv_stream.new_geom; lia|]. unfold recv_stream.wants_credit. cbn.
  pose proof (Z.div_lt w 2 ltac:(lia) ltac:(lia)). pose proof (Z.div_pos w 2 ltac:(lia) ltac:(lia)).
  rewrite u64_small by lia. intros ?%Z.leb_le. lia.
Qed.

Lemma not_opened_next nb nu : ¬ opened nb nu (4 * nb).
Proof.
  unfold opened, request_id. intros [?|[Hm _]]; [lia|]. rewrite Z.mul_comm, Z.mod_mul in Hm; lia.
Qed.
Lemma not_opened_uni nb nu : ¬ opened nb nu (4 * nu + 2).
Proof.
  unfold opened, request_id. intros [[Hm _]|?]; [|lia].
  rewrite Z.add_comm, Z.mul_comm, Z_mod_plus_full in Hm. done.
Qed.

Lemma shape_open_bi c fl log id c' :
  shape c fl log None None → open_bi c = (Some id, c') →
  shape c' fl log None None ∧ id = 4 * next_bidi c ∧ base_stream c' = base_stream c ∧
  streams c' = streams c ++ [Some (mkStreamPair
    (send_stream.with_buf (transport.initial_max_stream_data_bidi_remote (params c)))
    (recv_stream.with_buf (stream_window c)) false false false)].
Proof.
  intros H Ho. unfold open_bi in Ho. destruct (Z.leb_spec (max_streams_bidi c) (next_bidi c)) as [|Hlt]; [done|].
  injection Ho as <- <-. pose proof H as [Hb Hn Hl Hpairs Hun Hunis Hpeers Hpids [Hq1 Hq2] Hfl Hrp [He1 He2] Hop Hpar Hw].
  pose proof (zlen_nonneg (streams c)).
  split; [|split; [unfold client_stream_id; rewrite u64_small; lia|by split]].
  constructor; cbn; try done; try lia.
  - rewrite zlen_app. change (zlen [_]) with 1. lia.
  - intros i p Hi. apply lookup_app_Some in Hi as [Hi|[Hge Hi]].
    + destruct (Hpairs i p Hi) as (Hs & Hrest). split; done.
    + apply list_lookup_singleton_Some in Hi as [Hi [= <-]]. unfold zlen in *.
      replace (4 * (base_stream c + Z.of_nat i)) with (4 * next_bidi c) by lia.
      assert (∀ l, Forall (request_id (next_bidi c)) l → 4 * next_bidi c ∉ l) as Hni.
      { intros l Hfa Hin. rewrite Forall_forall in Hfa. apply Hfa in Hin. unfold request_id in Hin. lia. }
      split; [|split; [by apply new_recv_ok|split]].
      * eapply new_send_ok; [done..|apply not_opened_next|apply Hpar].
      * split; [|done]. cbn. split; [done|]. intros Hin. by apply Hni in Hin.
      * split; [done|]. split; [done|]. cbn. intros Hin. by apply Hni in Hin.
  - split; [done|]. eapply Forall_impl; [exact Hq2|]. intros ?. apply request_id_mono. lia.
  - eapply frames_opened_mono; [| |done]; lia.
  - eapply resets_opened_mono; [| |done]; lia.
  - split; [done|]. eapply Forall_impl; [exact He2|]. intros ?. apply request_id_mono. lia.
Qed.

Lemma shape_open_uni c fl log :
  shape c fl log None None → shape (snd (open_uni c)) fl log None None.
Proof.
  intros H. unfold open_uni. destruct (Z.leb_spec (transport.initial_max_streams_uni (params c)) (next_uni c)) as [|Hlt]; [done|].
  pose proof H as [Hb Hn Hl Hpairs [Hu1 Hu2] Hunis Hpeers Hpids [Hq1 Hq2] Hfl Hrp [He1 He2] Hop Hpar Hw].
  pose proof (zlen_nonneg (local_uni c)). destruct Hpar as (?&?&?).
  constructor; cbn; try done; try lia.
  - rewrite zlen_app. change (zlen [_]) with 1. lia.
  - intros i id s Hi. apply lookup_app_Some in Hi as [Hi|[Hge Hi]]; [by apply Hunis|].
    apply list_lookup_singleton_Some in Hi as [Hi [= <- <-]]. unfold zlen in *.
    rewrite !u64_small by (rewrite ?u64_small; lia). unfold uni_id.
    replace (next_uni c * 4 + 2) with (4 * next_uni c + 2) by lia. split; [lia|].
    eapply new_send_ok; [done..|apply not_opened_uni|done].
  - eapply frames_opened_mono; [| |done]; lia.
  - eapply resets_opened_mono; [| |done]; lia.
Qed.

Lemma shape_oneshot c fl log data :
  shape c fl log None None → shape (snd (send_oneshot c data)) fl log None None.
Proof.
  intros H. unfold send_oneshot. destruct (open_bi c) as [[id|] c1] eqn:Ho.
  2: { unfold open_bi in Ho. by destruct (_ <=? _); simplify_eq. }
  destruct (shape_open_bi _ _ _ _ _ H Ho) as (H1 & Hid & Hb1 & Hs1). clear Ho.
  change (streams (set_needs_send true c1)) with (streams c1). set (back := pred _).
  change (slot (set_needs_send true c1) back) with (slot c1 back).
  set (p := mkStreamPair _ _ _ _ _) in Hs1.
  assert (back = length (streams c)) as Hback by (unfold back; rewrite Hs1, length_app; cbn; lia).
  assert (slot c1 back = Some p) as Hp.
  { apply slot_Some. rewrite Hs1, Hback, lookup_app_r, Nat.sub_diag by lia. done. }
  rewrite Hp. destruct (send_stream.write (send p) data) as [n s] eqn:Hw. cbn [snd].
  pose proof (proj1 (slot_Some _ _ _) Hp) as Hlk.
  assert (4 * (base_stream c1 + Z.of_nat back) = id) as Hid'.
  { pose proof (sh_next _ _ _ _ _ H). unfold zlen in *. rewrite Hid, Hb1, Hback. lia. }
  destruct (sh_pairs _ _ _ _ _ H1 back p Hlk) as (Hs & Hr & [Hq1 _] & Hl). rewrite Hid' in *. cbn in Hs, Hr, Hq1, Hl.
  set (s' := if (n =? length data)%nat then send_stream.finish s else s).
  assert (send_ok fl (reset_pending c1) id s') as Hs'.
  { pose proof Hs as (Ht & _). pose proof (send_stream.tracks_write _ _ data Ht eq_refl) as Ht'.
    destruct (send_stream.write_end (send p) data) as ((_ & Er & Era) & Esp & _). cbn [send p] in *.
    rewrite Hw in *. cbn [snd] in *.
    eapply send_ok_step; [exact Hs|..]; unfold s'; destruct (_ =? _)%nat; try done;
      [by apply send_stream.tracks_finish|by destruct s..]. }
  clearbody s'. assert (shape (edit back (set_queued true (set_send s' p)) (send_queue c1 ++ [id]) (reset_pending c1) c1)
    fl log None None) as Hsh; [|shape_from Hsh].
  destruct (sh_queue _ _ _ _ _ H1) as [Hnd Hrq].
  assert (id ∉ send_queue c1) as Hni by (rewrite <- Hq1; done).
  eapply shape_edit; [exact H1|exact Hp|rewrite Hid'..| |apply H1|apply H1|apply H1|done].
  - destruct Hl as (_ & _ & Hl). split; [done|]. split; [done|]. split; [split; cbn; [|done]|by split].
    split; [set_solver|done].
  - intros j Hj. unfold env_agree. cbn. split_and!; try done; set_solver.
  - split; [apply NoDup_app; split; [done|]; split; [set_solver|apply NoDup_singleton]|].
    apply Forall_app_2; [done|]. apply Forall_singleton. rewrite <- Hid'. eapply ring_request; [exact H1|].
    by eapply lookup_lt_Some.
Qed.

(** ** The receiving side *)

(** Credit owed changes without any stream noticing. *)
Definition recv_at (c : Streams) (id : Z) : option RecvStream := fst <$> recv_mut c id.

Lemma ring_recv_at c i p : streams c !! i = Some (Some p) →
  recv_at c (4 * (base_stream c + Z.of_nat i)) = Some (recv p).
Proof.
  intros Hi. unfold recv_at, recv_mut. rewrite (proj2 (stream_index_Some c _ i)) by
    (split; [done|by eapply lookup_lt_Some]).
  by rewrite (proj2 (slot_Some c i p) Hi).
Qed.

Lemma peer_not_ring c fl log exq exs i id r :
  shape c fl log exq exs → peer_uni c !! i = Some (id, r) → ∀ k : nat, id ≠ 4 * (base_stream c + Z.of_nat k).
Proof.
  intros H Hi k ->. destruct (sh_peers _ _ _ _ _ H _ _ _ Hi) as [[Hm _] _].
  rewrite Z.mul_comm, Z.mod_mul in Hm; lia.
Qed.

Lemma peer_find c fl log exq exs i id r :
  shape c fl log exq exs → peer_uni c !! i = Some (id, r) →
  list_find (λ e, fst e = id) (peer_uni c) = Some (i, (id, r)).
Proof.
  intros H Hi. apply list_find_Some. split; [done|]. split; [done|].
  intros j [id' r'] Hj Hlt Heq. cbn in Heq. subst id'.
  pose proof (sh_peer_ids _ _ _ _ _ H) as Hnd.
  assert (i = j); [|lia]. eapply (NoDup_lookup (peer_uni c).*1); [done|rewrite list_lookup_fmap..].
  - by rewrite Hi.
  - by rewrite Hj.
Qed.

Lemma peer_recv_at c fl log exq exs i id r :
  shape c fl log exq exs → peer_uni c !! i = Some (id, r) → recv_at c id = Some r.
Proof.
  intros H Hi. unfold recv_at, recv_mut.
  destruct (stream_index c id) as [k|] eqn:Hk.
  - apply stream_index_Some in Hk as [? _]. by eapply peer_not_ring in Hi.
  - by rewrite (peer_find _ _ _ _ _ _ _ _ H Hi).
Qed.

Lemma shape_credit c fl log exq exs cp :
  shape c fl log exq exs →
  (∀ j r, recv_at c j = Some r → recv_stream.wants_credit r (stream_window c) = true →
     j ∈ credit_pending c → j ∈ cp) →
  shape (set_credit_pending cp c) fl log exq exs.
Proof.
  intros H Hag. pose proof H as [Hb Hn Hl Hpairs Hun Hunis Hpeers Hpids Hq Hfl Hrp Hen Hop Hpar Hw].
  constructor; try done.
  - intros i p Hi. destruct (Hpairs i p Hi) as (? & [? Hc] & ? & ?). split; [done|]. split; [|done].
    split; [done|]. cbn in *. intros Hwc. eapply Hag; [by apply ring_recv_at|done|auto].
  - intros i id r Hi. destruct (Hpeers i id r Hi) as [? [? Hc]]. split; [done|]. split; [done|]. cbn.
    intros Hwc. eapply Hag; [by eapply peer_recv_at|done|auto].
Qed.

Lemma shape_queue_credit c fl log exq exs id :
  shape c fl log exq exs → shape (queue_credit id c) fl log exq exs.
Proof.
  intros H. unfold queue_credit. case_bool_decide; [done|]. apply shape_credit; [done|]. set_solver.
Qed.

(** A new receive half, and perhaps a stream more or less owed credit. *)
Lemma shape_recv c fl log id r put r' cp :
  shape c fl log None None → recv_mut c id = Some (r, put) → recv_ok cp (stream_window c) id r' →
  (∀ j, j ≠ id → j ∈ credit_pending c → j ∈ cp) →
  shape (set_credit_pending cp (put r')) fl log None None.
Proof.
  intros H Hm Hr Hag. pose proof H as [Hb Hn Hl Hpairs Hun Hunis Hpeers Hpids Hq Hfl Hrp Hen Hop Hpar Hw].
  apply recv_mut_inv in Hm as [(i & p & Hp & -> & -> & ->)|(Hnone & i & Hi & ->)].
  - apply slot_Some in Hp. constructor; try done.
    + cbn. rewrite Hn. unfold zlen. by rewrite length_insert.
    + intros k pk Hk. cbn in Hk |- *. destruct (decide (i = k)) as [<-|Hne].
      * rewrite list_lookup_insert_eq in Hk by (by eapply lookup_lt_Some). simplify_eq.
        destruct (Hpairs i p Hp) as (? & _ & ? & ?). done.
      * rewrite list_lookup_insert_ne in Hk by done. eapply pair_ok_agree; [|by apply Hpairs].
        unfold env_agree. cbn. split_and!; try done. apply Hag. lia.
    + intros k id r Hk. destruct (Hpeers k id r Hk) as [? [? Hc]]. split; [done|]. split; [done|]. cbn.
      intros ?. apply Hag; [by eapply peer_not_ring|auto].
  - constructor; try done.
    + intros k pk Hk. eapply pair_ok_agree; [|by apply Hpairs]. unfold env_agree. cbn. split_and!; try done.
      apply Hag. intros Heq. by eapply peer_not_ring in Hi.
    + intros k id' r0 Hk. cbn in Hk. destruct (decide (i = k)) as [<-|Hne].
      * rewrite list_lookup_insert_eq in Hk by (by eapply lookup_lt_Some). simplify_eq.
        destruct (Hpeers _ _ _ Hi) as [? _]. done.
      * rewrite list_lookup_insert_ne in Hk by done. destruct (Hpeers k id' r0 Hk) as [? [? Hc]].
        split; [done|]. split; [done|]. cbn. intros ?. apply Hag; [|auto]. intros ->.
        apply Hne. eapply (NoDup_lookup (peer_uni c).*1); [done|rewrite list_lookup_fmap; by rewrite ?Hi, ?Hk..].
    + cbn. rewrite list_fmap_insert. cbn. rewrite list_insert_id; [done|]. by rewrite list_lookup_fmap, Hi.
    + cbn. rewrite list_fmap_insert. cbn. rewrite list_insert_id; [done|]. by rewrite list_lookup_fmap, Hi.
Qed.

(** What has been reported: what the worker has taken and what waits for it. *)
Definition logged (polled : list Event) (c : Streams) : list Event := polled ++ events c.

Lemma push_readable_eq id c : ∃ E,
  push_readable id c = set_events (events c ++ E) c ∧ omap ended_id E = [] ∧ omap opened_id E = [].
Proof.
  unfold push_readable. case_bool_decide.
  - exists []. split; [|done]. rewrite app_nil_r. by destruct c.
  - by exists [Readable id].
Qed.

Lemma readable_if (b : bool) id c : ∃ E,
  (if b then push_readable id c else c) = set_events (events c ++ E) c ∧
  omap ended_id E = [] ∧ omap opened_id E = [].
Proof.
  destruct b; [apply push_readable_eq|]. exists []. split; [|done]. rewrite app_nil_r. by destruct c.
Qed.

(** A request stream's receive half takes a frame; it may be the one that ends
    the response. *)
Lemma shape_ring_recv c fl polled i p r' (done : bool) E c' :
  shape c fl (logged polled c) None None → slot c i = Some p →
  let id := 4 * (base_stream c + Z.of_nat i) in
  recv_ok (credit_pending c) (stream_window c) id r' →
  (done = true → finished p = false) →
  omap ended_id E = (if done then [id] else []) → omap opened_id E = [] →
  events c' = events c ++ E →
  (shape (put_slot i (if done then set_finished true (set_recv r' p) else set_recv r' p) c) fl (logged polled c') None None →
   shape c' fl (logged polled c') None None) →
  shape c' fl (logged polled c') None None.
Proof.
  intros H Hp id Hr Hdone HE HO Hev Hfin. apply Hfin.
  pose proof (proj1 (slot_Some c i p) Hp) as Hlk.
  destruct (sh_pairs _ _ _ _ _ H i p Hlk) as (Hs & _ & Hq & [Hl1 [Hl2 Hl3]]). fold id in Hs, Hq, Hl1, Hl2, Hl3.
  assert (omap ended_id (logged polled c') = omap ended_id (logged polled c) ++ (if done then [id] else [])) as Hen.
  { unfold logged. rewrite Hev, !omap_app, HE. by rewrite (assoc_L (++)). }
  assert (shape (edit i (if done then set_finished true (set_recv r' p) else set_recv r' p) (send_queue c)
    (reset_pending c) c) fl (logged polled c') None None) as Hsh; [|shape_from Hsh].
  eapply shape_edit; [exact H|exact Hp|fold id..|apply H|apply H|apply H| |].
  - destruct done.
    + split; [done|]. split; [done|]. split; [done|]. split; [|by split].
      intros Hret. split; [done|]. by apply Hl1.
    + split; [done|]. split; [done|]. split; [done|]. split; [done|]. split; [done|].
      cbn. rewrite Hen, app_nil_r. done.
  - intros j Hj. unfold env_agree. cbn. rewrite Hen. split_and!; try done.
    intros Hin. destruct done; [|by rewrite app_nil_r in Hin]. set_solver.
  - rewrite Hen. destruct (sh_ended _ _ _ _ _ H) as [Hnd Hrq]. destruct done; [|by rewrite app_nil_r].
    split; [apply NoDup_app; split; [done|]; split; [|apply NoDup_singleton]|].
    + intros x Hx ->%list_elem_of_singleton. specialize (Hdone eq_refl). rewrite Hl3 in Hdone; done.
    + apply Forall_app_2; [done|]. apply Forall_singleton. eapply ring_request; [exact H|by eapply slot_lt].
  - unfold logged. rewrite Hev, !omap_app, HO. by rewrite app_nil_r.
Qed.

Lemma shape_peer_new c fl polled id r c' :
  shape c fl (logged polled c) None None →
  recv_ok (credit_pending c) (stream_window c) id r → peer_id (max_peer_uni c) id →
  list_find (λ e, fst e = id) (peer_uni c) = None →
  omap ended_id (logged polled c') = omap ended_id (logged polled c) →
  omap opened_id (logged polled c') = omap opened_id (logged polled c) ++ [id] →
  shape (set_peer_uni (peer_uni c ++ [(id, r)]) c) fl (logged polled c') None None.
Proof.
  intros H Hr Hid Hnone Hev Hov. destruct H as [Hb Hn Hl Hpairs Hun Hunis Hpeers Hpids Hq Hfl Hrp Hen Hop Hpar Hw].
  apply list_find_None in Hnone. rewrite Forall_forall in Hnone.
  constructor; rewrite ?Hev, ?Hov; try done.
  - intros k pk Hk. unfold env_of. rewrite Hev. by apply Hpairs.
  - intros i id' r' Hi. cbn in Hi. apply lookup_app_Some in Hi as [Hi|[_ Hi]]; [by eapply Hpeers|].
    apply list_lookup_singleton_Some in Hi as [_ [= <- <-]]. done.
  - cbn. rewrite fmap_app. apply NoDup_app. split; [done|]. split; [|apply NoDup_singleton].
    intros x Hx ->%list_elem_of_singleton. apply list_elem_of_fmap in Hx as ([id' r'] & Heq & Hin).
    cbn in Heq. subst id'. by apply (Hnone _ Hin).
  - cbn. by rewrite fmap_app, Hop.
Qed.

Section peer.
Context `{UnstableSortLaws (Z * bytes)}.

Lemma push_recv_ok cp w id r offset data fin credit n r' :
  recv_stream.push_with_credit r offset data fin credit = Ok (n, r') → 0 ≤ offset →
  recv_ok cp w id r →
  recv_ok cp w id r' ∧ recv_stream.received r' = recv_stream.received r + n ∧ 0 ≤ n ≤ credit.
Proof.
  intros Hp Ho [Hg Hc]. destruct (recv_stream.push_geom _ _ _ _ _ _ _ Hp Ho Hg) as (Hg' & Hrc & Hn & Hro & Hmd & Hsk).
  split; [|done]. split; [done|]. intros Hw. apply Hc. unfold recv_stream.wants_credit in *.
  rewrite Hro, Hmd in Hw. destruct (recv_stream.size_known r); [|by destruct (recv_stream.size_known r')].
  by rewrite Hsk in Hw.
Qed.

Lemma reset_recv_ok cp w id r fsize credit n r' :
  recv_stream.reset r fsize credit = Ok (n, r') → 0 ≤ fsize < 2 ^ 62 → recv_ok cp w id r →
  recv_ok cp w id r' ∧ recv_stream.received r' = recv_stream.received r + n ∧ 0 ≤ n ≤ credit.
Proof.
  intros Hp Ho [Hg Hc]. destruct (recv_stream.reset_geom _ _ _ _ _ Hp Ho Hg) as (Hg' & Hrc & Hn & Hsk).
  split; [|done]. split; [done|]. unfold recv_stream.wants_credit. by rewrite Hsk.
Qed.

Lemma of_recv_Ok {A} (r : result recv_stream.RecvError A) a : of_recv r = Ok a → r = Ok a.
Proof. destruct r; cbn; congruence. Qed.

(** [check_peer_uni] lets through the identifiers the peer may use. *)
Lemma check_peer_uni_ok c id u :
  check_peer_uni c id = Ok u → is_client_initiated id = false → 0 ≤ id → peer_id (max_peer_uni c) id.
Proof.
  unfold check_peer_uni, peer_id. intros Hc Hcl Hid. case_bool_decide as Hd; [done|].
  cbn [orb] in Hc. destruct (Z.leb_spec (max_peer_uni c) (id / 4)); [done|].
  rewrite stream_dir_spec in Hd.
  assert (id mod 2 ≠ 0) as Hm by (intros Hm; rewrite <- is_client_initiated_spec in Hm; congruence).
  pose proof (Z.mod_pos_bound id 2 ltac:(lia)). pose proof (Z.mod_pos_bound (id / 2) 2 ltac:(lia)).
  split.
  - change 4 with (2 * 2). rewrite (Z.rem_mul_r id 2 2) by lia. lia.
  - pose proof (Z.div_mod id 4 ltac:(lia)). pose proof (Z.mod_pos_bound id 4 ltac:(lia)). lia.
Qed.

(** Replacing the receive half of a peer stream. *)
Lemma shape_peer_put c fl log i id r r' :
  shape c fl log None None → peer_uni c !! i = Some (id, r) →
  recv_ok (credit_pending c) (stream_window c) id r' →
  shape (set_peer_uni (<[i := (id, r')]> (peer_uni c)) c) fl log None None.
Proof.
  intros Hs Hi Hr. assert (recv_mut c id = Some (r, λ r, set_peer_uni (<[i := (id, r)]> (peer_uni c)) c)) as Hm.
  { unfold recv_mut. destruct (stream_index c id) as [k|] eqn:Hk.
    - apply stream_index_Some in Hk as [? _]. by eapply peer_not_ring in Hi.
    - by rewrite (peer_find _ _ _ _ _ _ _ _ Hs Hi). }
  pose proof (shape_recv _ _ _ _ _ _ r' (credit_pending c) Hs Hm Hr ltac:(done)) as Hsh. shape_from Hsh.
Qed.

Lemma shape_on_stream c fl polled id offset data fin c' :
  shape c fl (logged polled c) None None → 0 ≤ offset → 0 ≤ id →
  on_stream c id offset data fin = Ok c' → shape c' fl (logged polled c') None None.
Proof.
  intros Hs Ho Hid0 Hc. unfold on_stream in Hc. destruct (stream_index c id) as [i|] eqn:Hi.
  - apply stream_index_Some in Hi as [Hid Hlt]. destruct (slot c i) as [p|] eqn:Hp; [|by simplify_eq].
    destruct (retired p); [by simplify_eq|].
    apply bind_Ok in Hc as ([n r'] & Hpush%of_recv_Ok & Hc). apply Ok_inj in Hc.
    pose proof (proj1 (slot_Some c i p) Hp) as Hlk.
    destruct (sh_pairs _ _ _ _ _ Hs i p Hlk) as (_ & Hr & _). cbn in Hr.
    apply push_recv_ok with (cp := credit_pending c) (w := stream_window c) (id := 4 * (base_stream c + Z.of_nat i))
      in Hpush as (Hr' & _); [|done|done].
    set (dn := recv_stream.is_finished r' && negb (finished p)) in *.
    assert (dn = true → finished p = false) as Hdn
      by (unfold dn; destruct (finished p); [by rewrite andb_false_r|done]).
    clearbody dn.
    match type of Hc with context [if recv_stream.has_data r' then push_readable id ?c1 else ?c1] =>
      destruct (readable_if (recv_stream.has_data r') id c1) as (E & HE & HE1 & HE2) end.
    rewrite HE in Hc. clear HE.
    eapply (shape_ring_recv c fl polled i p r' dn (E ++ if dn then [Finished id None] else []));
      [done..| | | |].
    + rewrite omap_app, HE1. destruct dn; cbn; by rewrite <- ?Hid.
    + rewrite omap_app, HE2. by destruct dn.
    + subst c'. destruct dn; cbn; by rewrite ?app_nil_r, ?(assoc_L (++)).
    + intros Hsh. subst c'. destruct dn; shape_from Hsh.
  - destruct (is_client_initiated id && bool_decide (stream_dir id = Bi)); [by destruct (_ <=? _); simplify_eq|].
    destruct (is_client_initiated id) eqn:Hcl; [done|].
    apply bind_Ok in Hc as (u & Hck%of_recv_Ok & Hc). apply check_peer_uni_ok in Hck; [|done|done].
    destruct (list_find (λ e, fst e = id) (peer_uni c)) as [[pos [id' r]]|] eqn:Hf.
    + apply list_find_Some in Hf as (Hf & Heq & _). cbn in Heq. subst id'.
      apply bind_Ok in Hc as ([[r' n] c1] & Hc1 & Hc). apply bind_Ok in Hc1 as ([n' r''] & Hpush%of_recv_Ok & [= -> -> <-]).
      destruct (sh_peers _ _ _ _ _ Hs _ _ _ Hf) as [_ Hr].
      eapply push_recv_ok in Hpush as (Hr' & _); [|done|exact Hr].
      pose proof (shape_peer_put _ _ _ _ _ _ _ Hs Hf Hr') as Hsh. apply Ok_inj in Hc. subst c'.
      match goal with |- context [if recv_stream.has_data r' then push_readable id ?c1 else ?c1] =>
        destruct (readable_if (recv_stream.has_data r') id c1) as (E & HE & HE1 & HE2) end.
      rewrite HE. eapply (shape_log _ _ _ _ _ (logged polled (set_events (events c ++ E) c))) in Hsh; [shape_from Hsh|..].
      all: unfold logged; cbn; by rewrite !omap_app, ?HE1, ?HE2, ?app_nil_r.
    + apply bind_Ok in Hc as ([[r' n] c1] & Hc1 & Hc). apply bind_Ok in Hc1 as ([n' r''] & Hpush%of_recv_Ok & [= -> -> <-]).
      eapply (push_recv_ok (credit_pending c) (stream_window c) id) in Hpush as (Hr' & _);
        [|done|apply new_recv_ok, Hs]. apply Ok_inj in Hc.
      match type of Hc with context [if recv_stream.has_data r' then push_readable id ?c1 else ?c1] =>
        destruct (readable_if (recv_stream.has_data r') id c1) as (E & HE & HE1 & HE2) end.
      rewrite HE in Hc. clear HE.
      assert (shape (set_peer_uni (peer_uni c ++ [(id, r')]) c) fl (logged polled c') None None) as Hsh.
      { apply shape_peer_new; [done..| |]; subst c'; unfold logged; cbn; rewrite !omap_app, ?HE1, ?HE2; cbn;
          by rewrite ?app_nil_r, ?(assoc_L (++)). }
      subst c'. shape_from Hsh.
Qed.

Lemma shape_on_reset c fl polled id err fsize c' :
  shape c fl (logged polled c) None None → 0 ≤ fsize < 2 ^ 62 → 0 ≤ id →
  on_reset c id err fsize = Ok c' → shape c' fl (logged polled c') None None.
Proof.
  intros Hs Ho Hid0 Hc. unfold on_reset in Hc. destruct (stream_index c id) as [i|] eqn:Hi.
  - apply stream_index_Some in Hi as [Hid Hlt]. destruct (slot c i) as [p|] eqn:Hp; [|by simplify_eq].
    apply bind_Ok in Hc as ([n r'] & Hpush%of_recv_Ok & Hc). apply Ok_inj in Hc.
    pose proof (proj1 (slot_Some c i p) Hp) as Hlk.
    destruct (sh_pairs _ _ _ _ _ Hs i p Hlk) as (_ & Hr & _). cbn in Hr.
    apply reset_recv_ok with (cp := credit_pending c) (w := stream_window c) (id := 4 * (base_stream c + Z.of_nat i))
      in Hpush as (Hr' & _); [|done|done].
    eapply (shape_ring_recv c fl polled i p r' (negb (finished p))
      (if finished p then [] else [Finished id (Some err)])); [done..| | | | |];
      subst c'; cbn [finished set_recv]; destruct (finished p); try done; cbn; rewrite ?app_nil_r, <- ?Hid; try done.
    all: intros Hsh; shape_from Hsh.
  - destruct (is_client_initiated id) eqn:Hcl; [by destruct (_ || _); simplify_eq|].
    apply bind_Ok in Hc as (u & Hck%of_recv_Ok & Hc). apply check_peer_uni_ok in Hck; [|done|done].
    destruct (list_find (λ e, fst e = id) (peer_uni c)) as [[pos [id' r]]|] eqn:Hf.
    + apply list_find_Some in Hf as (Hf & Heq & _). cbn in Heq. subst id'.
      apply bind_Ok in Hc as ([n r'] & Hpush%of_recv_Ok & Hc). apply Ok_inj in Hc.
      destruct (sh_peers _ _ _ _ _ Hs _ _ _ Hf) as [_ Hr].
      eapply reset_recv_ok in Hpush as (Hr' & _); [|done|exact Hr].
      pose proof (shape_peer_put _ _ _ _ _ _ _ Hs Hf Hr') as Hsh. subst c'. shape_from Hsh.
    + apply bind_Ok in Hc as ([n r'] & Hpush%of_recv_Ok & Hc). apply Ok_inj in Hc.
      eapply (reset_recv_ok (credit_pending c) (stream_window c) id) in Hpush as (Hr' & _);
        [|done|apply new_recv_ok, Hs].
      assert (shape (set_peer_uni (peer_uni c ++ [(id, r')]) c) fl (logged polled c') None None) as Hsh.
      { apply shape_peer_new; [done..| |]; subst c'; unfold logged; cbn; rewrite !omap_app; cbn;
          by rewrite ?app_nil_r, ?(assoc_L (++)). }
      subst c'. shape_from Hsh.
Qed.
End peer.

Lemma set_credit_pending_put c id r put r' :
  recv_mut c id = Some (r, put) → set_credit_pending (credit_pending c) (put r') = put r'.
Proof. by intros [(i & p & _ & _ & _ & ->)|(_ & i & _ & ->)]%recv_mut_inv; destruct c. Qed.

Lemma recv_mut_ok c fl log exq exs id r put :
  shape c fl log exq exs → recv_mut c id = Some (r, put) → recv_ok (credit_pending c) (stream_window c) id r.
Proof.
  intros H [(i & p & Hp%slot_Some & -> & -> & ->)|(_ & i & Hi & ->)]%recv_mut_inv.
  - by apply (sh_pairs _ _ _ _ _ H).
  - by eapply (sh_peers _ _ _ _ _ H).
Qed.

Lemma consume_same r f n r' :
  recv_stream.consume r f = Ok (n, r') → recv_stream.size_known r' = recv_stream.size_known r.
Proof.
  unfold recv_stream.consume. destruct (_ =? _)%nat; [congruence|]. intros (? & _ & [= _ <-])%bind_Ok. done.
Qed.

Lemma shape_consume c fl log id f n c' :
  shape c fl log None None → consume c id f = Ok (n, c') → shape c' fl log None None.
Proof.
  intros H Hc. unfold consume in Hc. destruct (recv_mut c id) as [[r put]|] eqn:Hm; [|by simplify_eq].
  apply bind_Ok in Hc as ([k r'] & Hr & Hc). apply Ok_inj in Hc. injection Hc as <- <-.
  pose proof (recv_mut_ok _ _ _ _ _ _ _ _ H Hm) as [Hg Hw].
  destruct (recv_stream.consume_geom _ _ _ _ Hr Hg) as [Hg' _].
  assert (credit_pending (put r') = credit_pending c) as Hcp.
  { by apply recv_mut_inv in Hm as [(i & p & _ & _ & _ & ->)|(_ & i & _ & ->)]. }
  destruct (recv_stream.wants_credit r' (stream_window c)) eqn:Hwc.
  - apply shape_needs_send. unfold queue_credit. rewrite Hcp. case_bool_decide as Hin.
    + rewrite <- (set_credit_pending_put _ _ _ _ r' Hm). by eapply shape_recv.
    + eapply shape_recv; [done..| |set_solver]. split; [done|]. intros _. set_solver.
  - rewrite <- (set_credit_pending_put _ _ _ _ r' Hm). eapply shape_recv; [done..| |done].
    split; [done|]. congruence.
Qed.

(** ** Filling a packet

    The frames of the packet count as in flight from the moment they are
    written. *)

Definition fill_ok (fl : list recovery.SentFrame) (polled : list Event) (f : Fill) : Prop :=
  shape (conn f) (fl ++ frames f) (logged polled (conn f)) None None.

Definition unseen (f : recovery.SentFrame) : Prop :=
  match f with recovery.Stream _ _ _ _ | recovery.ResetStream _ _ _ => False | _ => True end.

(** A frame that is about no send half. *)
Lemma shape_frame c fl log exq exs f :
  shape c fl log exq exs → unseen f → shape c (fl ++ [f]) log exq exs.
Proof.
  intros H Hf. assert (shape (set_reset_pending (reset_pending c) c) (fl ++ [f]) log exq exs) as Hsh; [|shape_from Hsh].
  eapply shape_flight; [exact H| | |apply H].
  - intros j s Hj. split; [rewrite flight_of_snoc, flight_of_cons; by destruct f|].
    intros n. rewrite (resetting_perm _ (f :: fl)) by (by rewrite (comm (++))). rewrite resetting_cons.
    split; [intros [|(? & ->)]; done|auto].
  - apply Forall_app_2; [apply H|]. apply Forall_singleton. by destruct f.
Qed.

Lemma resetting_snoc_frame fl f rp j n :
  resetting (fl ++ [f]) rp j n ↔ resetting fl rp j n ∨ ∃ e, f = recovery.ResetStream j e n.
Proof. rewrite (resetting_perm _ (f :: fl)) by (by rewrite (comm (++))). apply resetting_cons. Qed.

(** The exception of [queue_send] can go when there is nothing to queue. *)
Lemma shape_quiet c fl log id :
  shape c fl log (Some id) None →
  (∀ p, pair_at c id = Some p → send_stream.has_pending (send p) = true → queued p = true) →
  shape c fl log None None.
Proof.
  intros H Hno. destruct H as [Hb Hn Hl Hpairs Hun Hunis Hpeers Hpids Hq Hfl Hrp Hen Hop Hpar Hw].
  constructor; try done. intros i p Hi. destruct (Hpairs i p Hi) as (? & ? & [Hq1 Hq2] & ?).
  split; [done|]. split; [done|]. split; [|done]. split; [done|]. cbn in *. intros _ Hpe.
  destruct (decide (Some id = Some (4 * (base_stream c + Z.of_nat i)))) as [[= Heq]|Hne]; [|auto].
  unfold pair_at in Hno. rewrite (proj2 (stream_index_Some c id i)) in Hno
    by (split; [done|by eapply lookup_lt_Some]).
  rewrite (proj2 (slot_Some c i p) Hi) in Hno. auto.
Qed.

(** A queue entry for a stream that is gone. *)
Lemma shape_unqueue c fl log id rest :
  shape c fl log None None → send_queue c = id :: rest → pair_at c id = None →
  shape (set_send_queue rest c) fl log None None.
Proof.
  intros H Hq0 Hno. destruct H as [Hb Hn Hl Hpairs Hun Hunis Hpeers Hpids [Hq Hqr] Hfl Hrp Hen Hop Hpar Hw].
  rewrite Hq0 in Hq, Hqr. apply NoDup_cons in Hq as [Hni Hnd]. apply Forall_cons in Hqr as [_ Hqr].
  constructor; try done. intros i p Hi. eapply pair_ok_agree; [|by apply Hpairs].
  unfold env_agree. cbn. split_and!; try done. rewrite Hq0, elem_of_cons. split; [auto|]. intros [Heq|]; [|done].
  unfold pair_at in Hno. rewrite (proj2 (stream_index_Some c id i)) in Hno
    by (split; [done|by eapply lookup_lt_Some]). by rewrite (proj2 (slot_Some c i p) Hi) in Hno.
Qed.

(** Sending a frame of a stream. *)
Lemma sent_send_ok fl rp id s o (d : bytes) fi n s' :
  send_ok fl rp id s → send_stream.is_reset s = false →
  tracks ((o, length d, fi) :: flight_of id fl) s' → send_stream.on_sent s o (length d) fi = (n, s') →
  send_ok (fl ++ [recovery.Stream id o (length d) fi]) rp id s'.
Proof.
  intros (Ht & Ha & Hb & Hc) Hr Ht' Hs. destruct (send_stream.on_sent_end s o (length d) fi) as [(Ef & Er & Era) _].
  rewrite Hs in *. cbn [snd] in *. split; [|rewrite Er, Era, Hr in *; split; [done|split; [done|]]].
  - eapply send_stream.tracks_perm; [|exact Ht']. rewrite flight_of_snoc, flight_of_cons. cbn.
    by rewrite decide_True.
  - intros m [Hm|(? & [=])]%resetting_snoc_frame. by apply (Hc m).
Qed.

Lemma sent_others fl rp id o len fi j :
  j ≠ id → flight_of j (fl ++ [recovery.Stream id o len fi]) ≡ₚ flight_of j fl ∧
  ∀ n, resetting (fl ++ [recovery.Stream id o len fi]) rp j n ↔ resetting fl rp j n.
Proof.
  intros Hj. split; [rewrite flight_of_snoc, flight_of_cons; cbn; by rewrite decide_False|].
  intros n. rewrite resetting_snoc_frame. naive_solver.
Qed.

Lemma uni_send_mut c fl log exq exs i id s :
  shape c fl log exq exs → local_uni c !! i = Some (id, s) →
  send_mut c id = Some (s, λ s, set_local_uni (<[i := (id, s)]> (local_uni c)) c).
Proof.
  intros H Hi. destruct (sh_unis _ _ _ _ _ H _ _ _ Hi) as [Hid _]. unfold send_mut.
  destruct (stream_index c id) as [k|] eqn:Hk; [apply stream_index_Some in Hk as [? _]; unfold uni_id in *; lia|].
  destruct (list_find (λ e, fst e = id) (local_uni c)) as [[j [id' s']]|] eqn:Hl.
  - apply list_find_Some in Hl as (Hj & Heq & _). cbn in Heq. subst id'.
    destruct (sh_unis _ _ _ _ _ H _ _ _ Hj) as [Hid' _].
    assert (i = j) as -> by (unfold uni_id in *; lia). by simplify_eq.
  - eapply list_find_None, Forall_lookup_1 in Hl; [|exact Hi]. done.
Qed.

Section fill.
Context (fl : list recovery.SentFrame) (polled : list Event) (budget start : nat).

Lemma fill_max_data_ok f : fill_ok fl polled f → fill_ok fl polled (fill_max_data budget start f).
Proof.
  intros H. unfold fill_max_data, fill_ok in *.
  destruct (max_data_local _ <=? _).
  all: match goal with |- context [if max_data_owed ?c1 && _ then _ else _] =>
    destruct (max_data_owed c1 && _) end; cbn [with_conn conn frames emit]; rewrite ?(assoc_L (++)).
  all: try (apply (shape_frame _ _ _ _ _ (recovery.MaxData (max_data_local (conn f)))) in H as H'; [|done]; shape_from H').
  - apply (shape_frame _ _ _ _ _ (recovery.MaxData (data_received (conn f) + max_data_window (conn f)))) in H as H'; [|done].
    shape_from H'.
  - shape_from H.
  - shape_from H.
Qed.

Lemma recv_mut_credit c cp id r put :
  recv_mut (set_credit_pending cp c) id = Some (r, put) →
  ∃ put0, recv_mut c id = Some (r, put0) ∧ ∀ r', put r' = set_credit_pending cp (put0 r').
Proof.
  unfold recv_mut. change (stream_index (set_credit_pending cp c) id) with (stream_index c id).
  destruct (stream_index c id) as [i|].
  - change (slot (set_credit_pending cp c) i) with (slot c i). destruct (slot c i); [|done].
    intros [= <- <-]. eauto.
  - change (peer_uni (set_credit_pending cp c)) with (peer_uni c).
    destruct (list_find _ _) as [[i [id' r0]]|]; [|done]. intros [= <- <-]. eauto.
Qed.

Lemma fill_credit_ok todo f :
  fill_ok fl polled f → credit_pending (conn f) = reverse todo →
  fill_ok fl polled (fill_credit budget start todo f).
Proof.
  revert f. induction todo as [|id todo IH]; intros f H Hcp; [done|]. cbn [fill_credit].
  destruct (room budget start f <? 24)%nat; [done|]. rewrite reverse_cons in Hcp.
  assert ((∀ r, recv_at (conn f) id = Some r → recv_stream.wants_credit r (stream_window (conn f)) = false) →
    fill_ok fl polled (with_conn (set_credit_pending (reverse todo) (conn f)) f)) as Hpop.
  { intros Hno. unfold fill_ok in *. cbn [with_conn conn frames].
    change (logged polled (set_credit_pending (reverse todo) (conn f))) with (logged polled (conn f)).
    apply shape_credit; [done|]. intros j r Hj Hw. rewrite Hcp, elem_of_app, list_elem_of_singleton.
    intros [Hin|Heq]; [done|]. subst j. apply Hno in Hj. congruence. }
  assert (recv_mut (set_credit_pending (reverse todo) (conn f)) id = None → recv_at (conn f) id = None) as Hnone.
  { unfold recv_at, recv_mut. change (stream_index (set_credit_pending (reverse todo) (conn f)) id) with (stream_index (conn f) id).
    destruct (stream_index (conn f) id) as [i|].
    - change (slot (set_credit_pending (reverse todo) (conn f)) i) with (slot (conn f) i). by destruct (slot (conn f) i).
    - change (peer_uni (set_credit_pending (reverse todo) (conn f))) with (peer_uni (conn f)).
      by destruct (list_find _ _) as [[i [id' r0]]|]. }
  destruct (recv_mut (set_credit_pending (reverse todo) (conn f)) id) as [[r put]|] eqn:Hm.
  - apply recv_mut_credit in Hm as (put0 & Hm & Hput).
    destruct (recv_stream.size_known r) eqn:Hsk.
    + apply IH; [|done]. apply Hpop. intros r0. unfold recv_at. rewrite Hm. intros [= <-].
      unfold recv_stream.wants_credit. by rewrite Hsk.
    + destruct (recv_stream.grant r _) as [limit r'] eqn:Hg. apply IH.
      2: { cbn. by rewrite Hput. }
      pose proof (recv_mut_ok _ _ _ _ _ _ _ _ H Hm) as [Hgeom _].
      apply recv_stream.grant_geom in Hg as (Hg' & _ & Hw); [|apply H|done].
      unfold fill_ok. cbn [emit with_conn conn frames]. rewrite (assoc_L (++)). apply shape_frame; [|done].
      rewrite Hput.
      assert (events (put0 r') = events (conn f)) as Hev
        by (by apply recv_mut_inv in Hm as [(i & p & _ & _ & _ & ->)|(_ & i & _ & ->)]).
      unfold logged. cbn [events set_credit_pending]. rewrite Hev.
      eapply shape_recv; [exact H|exact Hm| |].
      * split; [done|]. change (stream_window (set_credit_pending (reverse todo) (conn f))) with (stream_window (conn f)) in Hw. congruence.
      * intros j Hj. rewrite Hcp, elem_of_app, list_elem_of_singleton. intros [|]; [done|congruence].
  - apply IH; [|done]. apply Hpop. intros r. by rewrite Hnone.
Qed.

Lemma fill_retire_ok todo f : fill_ok fl polled f → fill_ok fl polled (fill_retire budget start todo f).
Proof.
  revert f. induction todo as [|seq todo IH]; intros f H; [done|]. cbn [fill_retire].
  destruct (_ <? _)%nat; [done|]. apply IH. unfold fill_ok in *. cbn [emit with_conn conn frames].
  rewrite (assoc_L (++)). apply shape_frame; [|done]. shape_from H.
Qed.

Lemma fill_reset_ok todo f :
  fill_ok fl polled f → reset_pending (conn f) = reverse todo →
  fill_ok fl polled (fill_reset budget start todo f).
Proof.
  revert f. induction todo as [|[[id e] n] todo IH]; intros f H Hrp; [done|]. cbn [fill_reset].
  destruct (_ <? _)%nat; [done|]. apply IH; [|done]. unfold fill_ok in *. cbn [emit with_conn conn frames].
  rewrite (assoc_L (++)). rewrite reverse_cons in Hrp.
  pose proof (sh_resets _ _ _ _ _ H) as Hop. rewrite Hrp in Hop. apply Forall_app in Hop as [Hop Hid].
  apply Forall_cons in Hid as [Hid _]. cbn in Hid.
  change (logged polled (set_reset_pending (reverse todo) (conn f))) with (logged polled (conn f)).
  eapply shape_flight; [exact H| | |done].
  - intros j s Hj. split; [by rewrite flight_of_snoc, flight_of_cons|].
    intros m. rewrite resetting_snoc_frame, Hrp, resetting_snoc. naive_solver.
  - apply Forall_app_2; [apply H|]. by apply Forall_singleton.
Qed.

(** One turn of a send half: nothing to send, or one frame within the credit. *)
Inductive turned (f : Fill) (id : Z) (s : SendStream) (put : SendStream → Streams) : Fill → Prop :=
| turn_none : turned f id s put (with_conn (put s) f)
| turn_sent o d fi n s' :
    send_stream.on_sent s o (length d) fi = (n, s') →
    tracks ((o, length d, fi) :: flight_of id (fl ++ frames f)) s' →
    spent s' = spent s + Z.of_nat n →
    Z.of_nat n ≤ saturating_sub (max_data_peer (conn f)) (data_sent (conn f)) →
    (length d ≤ room budget start f - 16)%nat → send_stream.is_reset s = false →
    0 ≤ o → o + zlen d < 2 ^ 62 →
    turned f id s put
      (emit (frame.put_stream id o fi d) (recovery.Stream id o (length d) fi)
         (with_conn (set_data_sent (data_sent (put s') + Z.of_nat n) (put s')) f)).

Lemma send_turn_spec f id s put :
  tracks (flight_of id (fl ++ frames f)) s →
  ∃ f', send_turn budget start f id s put = Ok f' ∧ turned f id s put f'.
Proof.
  intros Ht. unfold send_turn. set (credit := saturating_sub _ _).
  destruct (send_stream.tracks_send _ _ (room budget start f - 16) credit Ht) as
    [->|(o & d & fi & n & s' & -> & Hos & Ht' & Hsp & Hn & Hd & Hr & Ho & He)]; [unfold credit, saturating_sub; lia|..].
  - eexists. split; [reflexivity|]. constructor.
  - cbn [mbind result_bind]. rewrite Hos. eexists. split; [reflexivity|]. by econstructor.
Qed.

(** A turn of one of our unidirectional streams. *)
Lemma turn_uni_ok f i id s f' :
  fill_ok fl polled f → local_uni (conn f) !! i = Some (id, s) →
  turned f id s (λ s, set_local_uni (<[i := (id, s)]> (local_uni (conn f))) (conn f)) f' →
  fill_ok fl polled f'.
Proof.
  intros H Hi Ht. unfold fill_ok in *.
  destruct (send_mut_ok _ _ _ _ _ _ _ _ H (uni_send_mut _ _ _ _ _ _ _ _ H Hi)) as [Hs Hop].
  destruct Ht as [|o d fi n s' Hos Htr Hsp Hn Hd Hr _ _]; cbn [emit with_conn conn frames].
  - rewrite list_insert_id by done. shape_from H.
  - rewrite (assoc_L (++)).
    assert (shape (set_reset_pending (reset_pending (conn f)) (set_local_uni (<[i := (id, s')]> (local_uni (conn f))) (conn f)))
      ((fl ++ frames f) ++ [recovery.Stream id o (length d) fi]) (logged polled (conn f)) None None) as Hsh; [|shape_from Hsh].
    eapply shape_uni; [exact H|exact Hi|by eapply sent_send_ok| | |apply H|by left|by left].
    + intros j Hj. by apply sent_others.
    + apply Forall_app_2; [apply H|]. by apply Forall_singleton.
Qed.

(** A turn of a queued request stream, which is out of the queue meanwhile. *)
Lemma turn_ring_ok f id rest i p f' :
  fill_ok fl polled f → send_queue (conn f) = id :: rest →
  stream_index (conn f) id = Some i → slot (conn f) i = Some p →
  let f0 := with_conn (set_send_queue rest (conn f)) f in
  turned f0 id (send p) (λ s, put_slot i (set_send s (set_queued false p)) (conn f0)) f' →
  shape (conn f') (fl ++ frames f') (logged polled (conn f')) (Some id) None.
Proof.
  intros H Hq Hi Hp f0 Ht. unfold fill_ok in *. apply stream_index_Some in Hi as [Hid Hlt].
  pose proof (proj1 (slot_Some _ _ _) Hp) as Hlk.
  destruct (sh_pairs _ _ _ _ _ H i p Hlk) as (Hs & Hr & [Hq1 Hq2] & Hl). rewrite <- Hid in *. cbn in Hs, Hr, Hq1, Hq2, Hl.
  destruct (sh_queue _ _ _ _ _ H) as [Hnd Hrq]. rewrite Hq in Hnd, Hrq.
  apply NoDup_cons in Hnd as [Hni Hnd]. apply Forall_cons in Hrq as [_ Hrq].
  assert (∀ j, j ≠ id → (j ∈ rest ↔ j ∈ send_queue (conn f))) as Hqj by (rewrite Hq; set_solver).
  destruct Ht as [|o d fi n s' Hos Htr Hsp Hn Hd Hre _ _]; cbn [emit with_conn conn frames f0].
  - assert (shape (edit i (set_send (send p) (set_queued false p)) rest (reset_pending (conn f)) (conn f))
      (fl ++ frames f) (logged polled (conn f)) (Some id) None) as Hsh; [|shape_from Hsh].
    eapply shape_edit; [exact H|exact Hp|rewrite <- Hid..|done|apply H|apply H|apply H|done].
    + split; [done|]. split; [done|]. split; [|done]. split; cbn; [|done]. by split.
    + intros j Hj. unfold env_agree. cbn. split_and!; try done. by apply Hqj.
  - rewrite (assoc_L (++)). destruct (send_stream.on_sent_end (send p) o (length d) fi) as [(Ef & Er & Era) Est].
    rewrite Hos in *. cbn [snd] in *.
    assert (shape (edit i (set_send s' (set_queued false p)) rest (reset_pending (conn f)) (conn f))
      ((fl ++ frames f) ++ [recovery.Stream id o (length d) fi]) (logged polled (conn f)) (Some id) None) as Hsh; [|shape_from Hsh].
    eapply shape_edit; [exact H|exact Hp|rewrite <- Hid..|done| |apply H|apply H|done].
    + split; [by eapply sent_send_ok|]. split; [done|]. split; [split; cbn; [by split|done]|].
      destruct Hl as (Hl1 & Hl2 & Hl3). split; cbn; [rewrite Er, Ef; done|]. rewrite Est. done.
    + intros j Hj. destruct (sent_others (fl ++ frames f) (reset_pending (conn f)) id o (length d) fi j Hj).
      unfold env_agree. cbn. split_and!; try done. by apply Hqj.
    + apply Forall_app_2; [apply H|]. apply Forall_singleton. left. rewrite Hid. by eapply ring_request.
Qed.
End fill.
End conn_streams_inv.
