(* ===== verification/QuicStreamsRun.v ===== *)
(** * Executions of the streams of a QUIC connection

    The bookkeeping invariants (requests unanswered, both levels of flow
    control), executions as sequences of operations, and what holds in all of
    them. *)

From S2P Require Import Prelude Varint QuicFrame QuicPacket QuicTransport QuicRecvStream QuicSendStream QuicRecovery QuicStreams QuicStreamsInv.
From stdpp Require Import sets.
#[local] Open Scope Z_scope.

Module conn_streams_run.
Import stream_ids conn_streams conn_streams_inv.

(** ** Sums over the tables *)

Definition sum_slots (f : StreamPair → Z) (l : list (option StreamPair)) : Z :=
  foldr (λ o n, match o with Some p => f p + n | None => n end) 0 l.
Definition sum_values {V} (f : V → Z) (l : list (Z * V)) : Z := foldr (λ e n, f e.2 + n) 0 l.

#[global] Arguments sum_slots : simpl never.
#[global] Arguments sum_values : simpl never.

Definition open_count (c : Streams) : Z := sum_slots (λ p, if finished p then 0 else 1) (streams c).
Definition total_received (c : Streams) : Z :=
  sum_slots (λ p, recv_stream.received (recv p)) (streams c) + sum_values recv_stream.received (peer_uni c).
Definition total_spent (c : Streams) : Z :=
  sum_slots (λ p, spent (send p)) (streams c) + sum_values spent (local_uni c).

Lemma sum_slots_app f l k : sum_slots f (l ++ k) = sum_slots f l + sum_slots f k.
Proof. unfold sum_slots. induction l as [|[p|] l IH]; cbn; rewrite ?IH; lia. Qed.
Lemma sum_slots_snoc f l p : sum_slots f (l ++ [Some p]) = sum_slots f l + f p.
Proof. rewrite sum_slots_app. unfold sum_slots at 2. cbn. lia. Qed.
Lemma sum_slots_insert f l i p o :
  l !! i = Some (Some p) →
  sum_slots f (<[i := o]> l) = sum_slots f l - f p + match o with Some p' => f p' | None => 0 end.
Proof.
  unfold sum_slots. revert i. induction l as [|[q|] l IH]; intros [|i] Hi; cbn in *; try done; simplify_eq.
  - destruct o; lia.
  - rewrite IH by done. lia.
  - rewrite IH by done. lia.
Qed.
Lemma sum_slots_trim f l b : sum_slots f (trim_front l b).1 = sum_slots f l.
Proof. revert b. induction l as [|[p|] l IH]; intros b; cbn; [done|done|apply IH]. Qed.
Lemma sum_slots_le f l : (∀ p, 0 ≤ f p ≤ 1) → 0 ≤ sum_slots f l ≤ zlen l.
Proof.
  intros Hf. unfold sum_slots. induction l as [|[p|] l IH]; cbn; [change (zlen []) with 0; lia|..];
    rewrite zlen_cons; [specialize (Hf p)|]; lia.
Qed.

Lemma sum_values_app {V} (f : V → Z) l k : sum_values f (l ++ k) = sum_values f l + sum_values f k.
Proof. unfold sum_values. induction l as [|[a v] l IH]; cbn; rewrite ?IH; lia. Qed.
Lemma sum_values_snoc {V} (f : V → Z) l a v : sum_values f (l ++ [(a, v)]) = sum_values f l + f v.
Proof. rewrite sum_values_app. unfold sum_values at 2. cbn. lia. Qed.
Lemma sum_values_insert {V} (f : V → Z) l i a v b v' :
  l !! i = Some (a, v) → sum_values f (<[i := (b, v')]> l) = sum_values f l - f v + f v'.
Proof.
  unfold sum_values. revert i. induction l as [|[a0 v0] l IH]; intros [|i] Hi; cbn in *; try done; simplify_eq; [lia|].
  rewrite IH by done. lia.
Qed.

(** ** The accounts

    [gone] and [gone_sent] are what streams that have been dropped received and
    sent. *)

Record counts (c : Streams) (gone gone_sent : Z) : Prop := {
  ct_unanswered : unanswered c = open_count c;
  ct_received : data_received c = gone + total_received c;
  ct_window : 0 ≤ max_data_local c - data_received c ≤ max_data_window c;
  ct_window_ok : max_data_window c < 2 ^ 62;
  ct_sent : data_sent c = gone_sent + total_spent c;
  ct_peer : data_sent c ≤ max_data_peer c;
}.

(** Equal tables and equal accounts. *)
Definition same_counts (c c' : Streams) : Prop :=
  unanswered c' = unanswered c ∧ data_received c' = data_received c ∧
  max_data_local c' = max_data_local c ∧ max_data_window c' = max_data_window c ∧
  data_sent c' = data_sent c ∧ max_data_peer c' = max_data_peer c ∧
  open_count c' = open_count c ∧ total_received c' = total_received c ∧ total_spent c' = total_spent c.

Lemma counts_same c c' gone gs : counts c gone gs → same_counts c c' → counts c' gone gs.
Proof.
  intros [] (E1 & E2 & E3 & E4 & E5 & E6 & E7 & E8 & E9).
  constructor; rewrite ?E1, ?E2, ?E3, ?E4, ?E5, ?E6, ?E7, ?E8, ?E9; done.
Qed.

(** Setting any other field. *)
Ltac same := unfold same_counts; split_and!; reflexivity.

(** A new pair in a slot. *)
Lemma put_slot_totals c i p p' :
  slot c i = Some p →
  open_count (put_slot i p' c) =
    open_count c - (if finished p then 0 else 1) + (if finished p' then 0 else 1) ∧
  total_received (put_slot i p' c) =
    total_received c - recv_stream.received (recv p) + recv_stream.received (recv p') ∧
  total_spent (put_slot i p' c) = total_spent c - spent (send p) + spent (send p').
Proof.
  intros Hp%slot_Some. unfold open_count, total_received, total_spent. cbn.
  rewrite !(sum_slots_insert _ _ _ _ _ Hp). lia.
Qed.

Lemma send_mut_totals c id s put s' :
  send_mut c id = Some (s, put) →
  open_count (put s') = open_count c ∧ total_received (put s') = total_received c ∧
  total_spent (put s') = total_spent c - spent s + spent s' ∧
  unanswered (put s') = unanswered c ∧ data_received (put s') = data_received c ∧
  max_data_local (put s') = max_data_local c ∧ max_data_window (put s') = max_data_window c ∧
  data_sent (put s') = data_sent c ∧ max_data_peer (put s') = max_data_peer c.
Proof.
  intros [(i & p & Hp & _ & -> & ->)|(_ & i & Hi & ->)]%send_mut_inv.
  - destruct (put_slot_totals c i p (set_send s' p) Hp) as (-> & -> & ->). cbn.
    split_and!; try done; destruct (finished p); lia.
  - unfold open_count, total_received, total_spent. cbn. rewrite (sum_values_insert _ _ _ _ _ _ _ Hi).
    split_and!; try done. lia.
Qed.

Lemma same_send c id s put s' :
  send_mut c id = Some (s, put) → spent s' = spent s → same_counts c (put s').
Proof.
  intros Hm Hs. destruct (send_mut_totals _ _ _ _ s' Hm) as (? & ? & Ht & ?). unfold same_counts.
  split_and!; try done; try tauto. lia.
Qed.

Lemma same_trans c1 c2 c3 : same_counts c1 c2 → same_counts c2 c3 → same_counts c1 c3.
Proof. unfold same_counts. intuition congruence. Qed.
Lemma same_refl c : same_counts c c.
Proof. same. Qed.

Lemma same_queue_send id c : same_counts c (queue_send id c).
Proof.
  unfold queue_send. destruct (stream_index c id) as [i|]; [|same].
  destruct (slot c i) as [p|] eqn:Hp; [|same]. destruct (queued p); [same|].
  destruct (put_slot_totals c i p (set_queued true p) Hp) as (E1 & E2 & E3). cbn in E1, E2, E3.
  unfold same_counts. split_and!; try done; cbn.
  - unfold open_count in *. cbn in *. destruct (finished p); lia.
  - unfold total_received in *. cbn in *. lia.
  - unfold total_spent in *. cbn in *. lia.
Qed.

Lemma same_queue_credit id c : same_counts c (queue_credit id c).
Proof. unfold queue_credit. case_bool_decide; same. Qed.

(** *** The worker's operations *)

Lemma same_write c id data : same_counts c (snd (write c id data)).
Proof.
  unfold write. destruct (send_mut (set_needs_send true c) id) as [[s put]|] eqn:Hm.
  - destruct (send_stream.write s data) as [n s'] eqn:Hw. cbn [fst snd].
    eapply same_trans; [|apply same_queue_send]. apply (same_trans _ (set_needs_send true c)); [same|].
    eapply same_send; [exact Hm|]. destruct (send_stream.write_end s data) as (_ & Hsp & _). by rewrite Hw in Hsp.
  - cbn [snd]. eapply same_trans; [|apply same_queue_send]. same.
Qed.

Lemma same_finish c id : same_counts c (finish c id).
Proof.
  unfold finish. eapply same_trans; [|apply same_queue_send].
  destruct (send_mut (set_needs_send true c) id) as [[s put]|] eqn:Hm; [|same].
  apply (same_trans _ (set_needs_send true c)); [same|]. eapply same_send; [exact Hm|]. by destruct s.
Qed.

Lemma same_max_stream_data c id limit : same_counts c (on_max_stream_data c id limit).
Proof.
  unfold on_max_stream_data. eapply same_trans; [|apply same_queue_send].
  destruct (send_mut c id) as [[s put]|] eqn:Hm; [|same]. eapply same_send; [exact Hm|]. by destruct s.
Qed.

Lemma same_stop_sending c id error : same_counts c (on_stop_sending c id error).
Proof.
  unfold on_stop_sending. destruct (send_mut c id) as [[s put]|] eqn:Hm; [|same].
  destruct (send_stream.is_reset s); [same|]. destruct (send_stream.reset s) as [n s'] eqn:Hr.
  apply (same_trans _ (put s')); [|same]. eapply same_send; [exact Hm|]. destruct s. cbn in Hr. by injection Hr as <- <-.
Qed.

(** *** Streams ending and being dropped *)

Lemma received_nonneg cp w id r : recv_ok cp w id r → 0 ≤ recv_stream.received r.
Proof. intros [(? & ? & _) _]. pose proof (zlen_nonneg (recv_stream.ready r)). lia. Qed.
Lemma spent_nonneg fl rp id s : send_ok fl rp id s → 0 ≤ spent s.
Proof.
  intros (Ht & _). apply send_stream.tracks_inv in Ht as (g & [(_ & ? & _) _] & <- & _).
  unfold send_stream.spent. lia.
Qed.

(** What [settle] relies on. *)
Definition droppable (p : StreamPair) : Prop :=
  (retired p = true → finished p = true) ∧ 0 ≤ recv_stream.received (recv p) ∧ 0 ≤ spent (send p).
Definition all_droppable (c : Streams) : Prop :=
  ∀ i p, streams c !! i = Some (Some p) → droppable p.

Lemma shape_droppable c fl log exq exs : shape c fl log exq exs → all_droppable c.
Proof.
  intros H i p Hi. apply (sh_pairs _ _ _ _ _ H) in Hi as (Hs%spent_nonneg & Hr%received_nonneg & _ & [Hl _]).
  split; [|done]. intros Hret. by apply Hl.
Qed.

Lemma put_droppable c i p c' :
  all_droppable c → droppable p → streams c' = <[i := Some p]> (streams c) → all_droppable c'.
Proof.
  intros H Hp E k q Hk. rewrite E in Hk. destruct (decide (i = k)) as [<-|].
  - pose proof (lookup_lt_Some _ _ _ Hk) as Hlt. rewrite length_insert in Hlt.
    rewrite list_lookup_insert_eq in Hk by done. by simplify_eq.
  - rewrite list_lookup_insert_ne in Hk by done. by apply (H k).
Qed.

(** The accounts of a state some of whose streams have been dropped. *)
Definition drop_received (c c' : Streams) : Z := total_received c - total_received c'.
Definition drop_spent (c c' : Streams) : Z := total_spent c - total_spent c'.
Definition drops (c c' : Streams) : Prop :=
  0 ≤ drop_received c c' ∧ 0 ≤ drop_spent c c' ∧
  ∀ gone gs, counts c gone gs → counts c' (gone + drop_received c c') (gs + drop_spent c c').

Lemma drops_after c c1 c2 :
  (∀ gone gs, counts c gone gs → counts c1 gone gs) →
  total_received c1 = total_received c → total_spent c1 = total_spent c → drops c1 c2 → drops c c2.
Proof.
  intros Hc E1 E2 (? & ? & Hd). unfold drops, drop_received, drop_spent in *. rewrite <- E1, <- E2. auto.
Qed.

Lemma drops_same c c' : same_counts c c' → drops c c'.
Proof.
  intros Hs. pose proof Hs as (_ & _ & _ & _ & _ & _ & _ & E1 & E2). unfold drops, drop_received, drop_spent.
  rewrite E1, E2. split; [lia|]. split; [lia|]. intros gone gs Hc. rewrite !Z.sub_diag, !Z.add_0_r.
  by eapply counts_same.
Qed.

Lemma drops_settle c id : all_droppable c → drops c (settle id c).
Proof.
  intros Hd. unfold settle. destruct (stream_index c id) as [i|]; [|apply drops_same, same_refl].
  destruct (slot c i) as [p|] eqn:Hp; [apply slot_Some in Hp|apply drops_same, same_refl].
  destruct (retired p && send_stream.is_settled (send p)) eqn:Hs; [|apply drops_same, same_refl].
  apply andb_true_iff in Hs as [Hr _]. destruct (Hd i p Hp) as (Hf & Hrc & Hsp). specialize (Hf Hr).
  destruct (trim_front _ _) as [l b] eqn:Ht.
  assert (∀ f, sum_slots f l = sum_slots f (streams c) - f p) as Hsum.
  { intros f. pose proof (sum_slots_trim f (<[i := None]> (streams c)) (base_stream c)) as E. rewrite Ht in E.
    cbn in E. rewrite E, (sum_slots_insert _ _ _ _ _ Hp). lia. }
  unfold drops, drop_received, drop_spent, total_received, total_spent. cbn. rewrite !Hsum.
  split; [lia|]. split; [lia|]. intros gone gs []. unfold total_received, total_spent, open_count in *.
  constructor; try done; cbn; unfold open_count, total_received, total_spent; cbn; rewrite !Hsum, ?Hf; lia.
Qed.

(** One more response has ended. *)
Lemma open_count_range c : 0 ≤ open_count c ≤ zlen (streams c).
Proof. apply sum_slots_le. intros p. destruct (finished p); lia. Qed.
Lemma open_count_bound c fl log exq exs :
  shape c fl log exq exs → 0 ≤ open_count c < 2 ^ 62.
Proof.
  intros H. destruct H as [Hb Hn Hl _ _ _ _ _ _ _ _ _ _ _ _]. pose proof (open_count_range c). lia.
Qed.

Lemma answered c fl log exq exs i p p' :
  shape c fl log exq exs → unanswered c = open_count c → slot c i = Some p →
  finished p = false → finished p' = true →
  u64 (unanswered c - 1) = open_count (put_slot i p' c).
Proof.
  intros H Hu Hp Hf Hf'. destruct (put_slot_totals c i p p' Hp) as (E & _). rewrite Hf, Hf' in E.
  pose proof (open_count_range (put_slot i p' c)). pose proof (open_count_bound _ _ _ _ _ H).
  rewrite u64_small; lia.
Qed.

(** [retire] up to [settle]. *)
Definition retire_pre (c : Streams) (id cancel : Z) (i : nat) (p : StreamPair) : Streams :=
  let c := if finished p then c else set_unanswered (u64 (unanswered c - 1)) c in
  let p := set_retired true (set_finished true p) in
  if negb (send_stream.is_reset (send p)) && negb (send_stream.fully_sent (send p)) then
    let '(final_size, s) := send_stream.reset (send p) in
    let c := put_slot i (set_send s p) c in
    let c := set_reset_pending (reset_pending c ++ [(id, cancel, final_size)]) c in
    set_needs_send true c
  else put_slot i p c.

Lemma retire_eq c id cancel :
  retire c id cancel = match stream_index c id with
    | Some i => match slot c i with Some p => settle id (retire_pre c id cancel i p) | None => c end
    | None => c end.
Proof. reflexivity. Qed.

Lemma reset_spent s : spent (snd (send_stream.reset s)) = spent s.
Proof. by destruct s. Qed.

Lemma retire_pre_spec c id cancel i p :
  ∃ q, streams (retire_pre c id cancel i p) = <[i := Some q]> (streams c) ∧ finished q = true ∧
    recv q = recv p ∧ spent (send q) = spent (send p) ∧
    unanswered (retire_pre c id cancel i p) = (if finished p then unanswered c else u64 (unanswered c - 1)) ∧
    peer_uni (retire_pre c id cancel i p) = peer_uni c ∧ local_uni (retire_pre c id cancel i p) = local_uni c ∧
    data_received (retire_pre c id cancel i p) = data_received c ∧
    max_data_local (retire_pre c id cancel i p) = max_data_local c ∧
    max_data_window (retire_pre c id cancel i p) = max_data_window c ∧
    data_sent (retire_pre c id cancel i p) = data_sent c ∧
    max_data_peer (retire_pre c id cancel i p) = max_data_peer c.
Proof.
  unfold retire_pre. change (send (set_retired true (set_finished true p))) with (send p).
  pose proof (reset_spent (send p)) as Hsp.
  destruct (_ && _); [destruct (send_stream.reset (send p)) as [n s']|].
  - exists (set_send s' (set_retired true (set_finished true p))). by destruct (finished p).
  - exists (set_retired true (set_finished true p)). by destruct (finished p).
Qed.

Lemma drops_retire_pre c fl log id cancel i p c' :
  shape c fl log None None → slot c i = Some p →
  drops (retire_pre c id cancel i p) c' → drops c c'.
Proof.
  intros Hs Hp. destruct (retire_pre_spec c id cancel i p) as
    (q & E1 & Hq & Hr & Hsp & E4 & E2 & E3 & E5 & E6 & E7 & E8 & E9).
  set (c1 := retire_pre c id cancel i p) in *. clearbody c1.
  destruct (put_slot_totals c i p q Hp) as (T1 & T2 & T3).
  assert (open_count c1 = open_count (put_slot i q c) ∧ total_received c1 = total_received (put_slot i q c) ∧
    total_spent c1 = total_spent (put_slot i q c)) as (F1 & F2 & F3)
    by (unfold open_count, total_received, total_spent; cbn; by rewrite E1, E2, E3).
  rewrite Hr in T2. rewrite Hsp in T3. rewrite Hq in T1.
  apply drops_after; [|lia|lia]. intros gone gs [].
  constructor; rewrite ?E4, ?E5, ?E6, ?E7, ?E8, ?E9, ?F1; try done; try lia.
  destruct (finished p) eqn:Hf; [lia|]. by eapply answered.
Qed.

(** *** The fate of a frame *)

(** [on_frame_acked] up to [settle]. *)
Definition acked_pre (c : Streams) (f : recovery.SentFrame) : Streams :=
  match f with
  | recovery.Stream id offset len fin =>
      match send_mut c id with Some (s, put) => put (send_stream.on_acked s offset len fin) | None => c end
  | recovery.ResetStream id _ _ =>
      match send_mut c id with Some (s, put) => put (send_stream.on_reset_acked s) | None => c end
  | _ => c
  end.
Lemma on_frame_acked_eq c f :
  on_frame_acked c f = match f with
    | recovery.Stream id _ _ _ | recovery.ResetStream id _ _ => settle id (acked_pre c f)
    | _ => c end.
Proof. by destruct f. Qed.

(** The frames of a live stream in flight, one of them set apart. *)
Lemma flight_tracks c fl log exq exs id o len fi fl' s put :
  shape c fl log exq exs → fl ≡ₚ recovery.Stream id o len fi :: fl' → send_mut c id = Some (s, put) →
  tracks ((o, len, fi) :: flight_of id fl') s.
Proof.
  intros H Hp Hm. destruct (send_mut_ok _ _ _ _ _ _ _ _ H Hm) as [(Htr & _) _].
  eapply send_stream.tracks_perm; [|exact Htr]. rewrite (flight_of_perm _ _ _ Hp), flight_of_cons.
  cbn. by rewrite decide_True.
Qed.

Lemma put_send_droppable c id s put s' :
  all_droppable c → send_mut c id = Some (s, put) → spent s' = spent s → all_droppable (put s').
Proof.
  intros H [(i & p & Hp%slot_Some & _ & -> & ->)|(_ & i & _ & ->)]%send_mut_inv Hs; [|done].
  eapply (put_droppable c i); [done| |done]. destruct (H i p Hp) as (? & ? & ?).
  split; [done|]. cbn. by rewrite Hs.
Qed.

Lemma same_acked_pre c fl log f fl' :
  shape c fl log None None → fl ≡ₚ f :: fl' → same_counts c (acked_pre c f) ∧ all_droppable (acked_pre c f).
Proof.
  intros H Hp. pose proof (shape_droppable _ _ _ _ _ H) as Hrf.
  destruct f as [|id o len fi| | |id e n| |]; cbn [acked_pre]; try (split; [same|done]).
  - destruct (send_mut c id) as [[s put]|] eqn:Hm; [|split; [same|done]].
    destruct (send_stream.tracks_acked _ _ _ _ _ (flight_tracks _ _ _ _ _ _ _ _ _ _ _ _ H Hp Hm)) as [_ Hsp].
    split; [by eapply same_send|by eapply put_send_droppable].
  - destruct (send_mut c id) as [[s put]|] eqn:Hm; [|split; [same|done]].
    assert (spent (send_stream.on_reset_acked s) = spent s) as Hsp by (by destruct s).
    split; [by eapply same_send|by eapply put_send_droppable].
Qed.

Lemma drops_acked c fl log f fl' :
  shape c fl log None None → fl ≡ₚ f :: fl' → drops c (on_frame_acked c f).
Proof.
  intros H Hp. destruct (same_acked_pre _ _ _ _ _ H Hp) as [Hs Hd].
  assert (∀ c', drops (acked_pre c f) c' → drops c c') as Hafter.
  { intros c'. apply drops_after; [intros ? ? ?; by eapply counts_same|apply Hs..]. }
  rewrite on_frame_acked_eq. destruct f; try (apply drops_same, same_refl).
  all: by apply Hafter, drops_settle.
Qed.

Lemma same_lost c fl log f fl' :
  shape c fl log None None → fl ≡ₚ f :: fl' → same_counts c (on_frame_lost c f).
Proof.
  intros H Hp. destruct f as [|id o len fi| | |id e n| |id l]; cbn [on_frame_lost]; try same;
    [|apply same_queue_credit].
  eapply same_trans; [|apply same_queue_send].
  destruct (send_mut c id) as [[s put]|] eqn:Hm; [|same]. eapply same_send; [exact Hm|].
  eapply send_stream.tracks_lost, flight_tracks; done.
Qed.

(** *** Opening *)

Lemma spent_new lim : spent (send_stream.with_buf lim) = 0.
Proof. done. Qed.

Lemma open_bi_counts c gone gs : counts c gone gs → counts (snd (open_bi c)) gone gs.
Proof.
  intros H. unfold open_bi. destruct (_ <=? _); [done|]. destruct H. constructor; try done; cbn.
  all: unfold open_count, total_received, total_spent in *; cbn; rewrite !sum_slots_snoc; cbn; rewrite ?spent_new; lia.
Qed.

Lemma open_uni_counts c gone gs : counts c gone gs → counts (snd (open_uni c)) gone gs.
Proof.
  intros H. unfold open_uni. destruct (_ <=? _); [done|]. destruct H. constructor; try done; cbn.
  unfold total_spent in *; cbn. rewrite !sum_values_snoc. unfold send_stream.new. rewrite spent_new. lia.
Qed.

Lemma oneshot_counts c data gone gs : counts c gone gs → counts (snd (send_oneshot c data)) gone gs.
Proof.
  intros H. unfold send_oneshot. pose proof (open_bi_counts c gone gs H) as H1.
  destruct (open_bi c) as [[id|] c1]; [|done]. cbn [snd] in H1.
  set (c2 := set_needs_send true c1). destruct (slot c2 (pred (length (streams c2)))) as [p|] eqn:Hp.
  2: { eapply counts_same; [exact H1|]. same. }
  destruct (send_stream.write (send p) data) as [n s] eqn:Hw. cbn [snd].
  set (s' := if (n =? length data)%nat then _ else _).
  assert (spent s' = spent (send p)) as Hsp.
  { destruct (send_stream.write_end (send p) data) as (_ & E & _). rewrite Hw in E. cbn in E. rewrite <- E.
    unfold s'. destruct (_ =? _)%nat; [by destruct s|done]. }
  clearbody s'. eapply counts_same; [exact H1|].
  destruct (put_slot_totals c2 _ p (set_queued true (set_send s' p)) Hp) as (E1 & E2 & E3).
  cbn in E1, E2, E3. rewrite Hsp in E3. unfold same_counts. split_and!; try reflexivity.
  all: unfold open_count, total_received, total_spent in *; cbn in *; try destruct (finished p); lia.
Qed.

(** *** Receiving *)

Section peer.
Context `{UnstableSortLaws (Z * bytes)}.

(** The pair in a slot takes [n] bytes and may end. *)
Lemma ring_recv_counts c fl log i p r n (dn : bool) gone gs c' :
  shape c fl log None None → counts c gone gs → slot c i = Some p →
  recv_stream.received r = recv_stream.received (recv p) + n →
  0 ≤ n ≤ max_data_local c - data_received c → (dn = true → finished p = false) →
  streams c' = <[i := Some (if dn then set_finished true (set_recv r p) else set_recv r p)]> (streams c) →
  peer_uni c' = peer_uni c → local_uni c' = local_uni c →
  unanswered c' = (if dn then u64 (unanswered c - 1) else unanswered c) →
  data_received c' = data_received c + n → max_data_local c' = max_data_local c →
  max_data_window c' = max_data_window c → data_sent c' = data_sent c → max_data_peer c' = max_data_peer c →
  counts c' gone gs.
Proof.
  intros Hs Hc Hp Hr Hn Hdn E1 E2 E3 E4 E5 E6 E7 E8 E9. set (q := if dn then _ else _) in E1.
  destruct (put_slot_totals c i p q Hp) as (T1 & T2 & T3).
  assert (open_count c' = open_count (put_slot i q c) ∧ total_received c' = total_received (put_slot i q c) ∧
    total_spent c' = total_spent (put_slot i q c)) as (F1 & F2 & F3)
    by (unfold open_count, total_received, total_spent; cbn; by rewrite E1, E2, E3).
  assert (recv q = r ∧ send q = send p ∧ finished q = (if dn then true else finished p)) as (Q1 & Q2 & Q3)
    by (unfold q; by destruct dn).
  rewrite Q1 in T2. rewrite Q2 in T3. destruct Hc.
  constructor; rewrite ?E4, ?E5, ?E6, ?E7, ?E8, ?E9; try done; try lia.
  rewrite F1. destruct dn; [|rewrite Q3 in T1; lia]. by eapply answered; eauto.
Qed.

Lemma credit_eq c gone gs : counts c gone gs →
  u64 (max_data_local c - data_received c) = max_data_local c - data_received c.
Proof. intros []. apply u64_small. lia. Qed.

Lemma on_stream_counts c fl log id offset data fin c' gone gs :
  shape c fl log None None → counts c gone gs → 0 ≤ offset →
  on_stream c id offset data fin = Ok c' → counts c' gone gs.
Proof.
  intros Hs Hc Ho Hok. unfold on_stream in Hok. rewrite (credit_eq _ _ _ Hc) in Hok.
  destruct (stream_index c id) as [i|] eqn:Hi.
  - destruct (slot c i) as [p|] eqn:Hp; [|by simplify_eq]. destruct (retired p); [by simplify_eq|].
    apply bind_Ok in Hok as ([n r] & Hpush%of_recv_Ok & Hok). apply Ok_inj in Hok.
    destruct (sh_pairs _ _ _ _ _ Hs i p (proj1 (slot_Some c i p) Hp)) as (_ & Hr & _).
    eapply push_recv_ok in Hpush as (_ & Hrc & Hn); [|done|exact Hr].
    set (dn := recv_stream.is_finished r && negb (finished p)) in *.
    assert (dn = true → finished p = false) as Hdn
      by (unfold dn; destruct (finished p); [by rewrite andb_false_r|done]).
    clearbody dn.
    match type of Hok with context [if recv_stream.has_data r then push_readable id ?c1 else ?c1] =>
      destruct (readable_if (recv_stream.has_data r) id c1) as (E & HE & _) end.
    rewrite HE in Hok. subst c'. eapply (ring_recv_counts c fl log i p r n dn); try done; by destruct dn.
  - destruct (_ && _); [by destruct (_ <=? _); simplify_eq|]. destruct (is_client_initiated id); [done|].
    apply bind_Ok in Hok as (u & _ & Hok).
    destruct (list_find (λ e, fst e = id) (peer_uni c)) as [[pos [id' r0]]|] eqn:Hf.
    + apply list_find_Some in Hf as (Hf & Heq & _). cbn in Heq. subst id'.
      apply bind_Ok in Hok as ([[r n] c1] & Hc1 & Hok).
      apply bind_Ok in Hc1 as ([n' r''] & Hpush%of_recv_Ok & [= -> -> <-]). apply Ok_inj in Hok.
      destruct (sh_peers _ _ _ _ _ Hs _ _ _ Hf) as [_ Hr].
      eapply push_recv_ok in Hpush as (_ & Hrc & Hn); [|done|exact Hr].
      match type of Hok with context [if recv_stream.has_data r then push_readable id ?c1 else ?c1] =>
        destruct (readable_if (recv_stream.has_data r) id c1) as (E & HE & _) end.
      rewrite HE in Hok. subst c'. destruct Hc.
      constructor; try done; cbn; unfold total_received in *; cbn; rewrite ?(sum_values_insert _ _ _ _ _ _ _ Hf); lia.
    + apply bind_Ok in Hok as ([[r n] c1] & Hc1 & Hok).
      apply bind_Ok in Hc1 as ([n' r''] & Hpush%of_recv_Ok & [= -> -> <-]). apply Ok_inj in Hok.
      eapply (push_recv_ok (credit_pending c) (stream_window c) id) in Hpush as (_ & Hrc & Hn);
        [|done|apply new_recv_ok, Hs]. cbn in Hrc.
      match type of Hok with context [if recv_stream.has_data r then push_readable id ?c1 else ?c1] =>
        destruct (readable_if (recv_stream.has_data r) id c1) as (E & HE & _) end.
      rewrite HE in Hok. subst c'. destruct Hc.
      constructor; try done; cbn; unfold total_received in *; cbn; rewrite ?sum_values_snoc; cbn; lia.
Qed.

Lemma on_reset_counts c fl log id err fsize c' gone gs :
  shape c fl log None None → counts c gone gs → 0 ≤ fsize < 2 ^ 62 →
  on_reset c id err fsize = Ok c' → counts c' gone gs.
Proof.
  intros Hs Hc Ho Hok. unfold on_reset in Hok. rewrite (credit_eq _ _ _ Hc) in Hok.
  destruct (stream_index c id) as [i|] eqn:Hi.
  - destruct (slot c i) as [p|] eqn:Hp; [|by simplify_eq].
    apply bind_Ok in Hok as ([n r] & Hpush%of_recv_Ok & Hok). apply Ok_inj in Hok.
    destruct (sh_pairs _ _ _ _ _ Hs i p (proj1 (slot_Some c i p) Hp)) as (_ & Hr & _).
    eapply reset_recv_ok in Hpush as (_ & Hrc & Hn); [|done|exact Hr].
    subst c'. eapply (ring_recv_counts c fl log i p r n (negb (finished p))); try done; cbn [finished set_recv];
      by destruct (finished p).
  - destruct (is_client_initiated id); [by destruct (_ || _); simplify_eq|].
    apply bind_Ok in Hok as (u & _ & Hok).
    destruct (list_find (λ e, fst e = id) (peer_uni c)) as [[pos [id' r0]]|] eqn:Hf.
    + apply list_find_Some in Hf as (Hf & Heq & _). cbn in Heq. subst id'.
      apply bind_Ok in Hok as ([n r] & Hpush%of_recv_Ok & Hok). apply Ok_inj in Hok.
      destruct (sh_peers _ _ _ _ _ Hs _ _ _ Hf) as [_ Hr].
      eapply reset_recv_ok in Hpush as (_ & Hrc & Hn); [|done|exact Hr]. subst c'. destruct Hc.
      constructor; try done; cbn; unfold total_received in *; cbn; rewrite ?(sum_values_insert _ _ _ _ _ _ _ Hf); lia.
    + apply bind_Ok in Hok as ([n r] & Hpush%of_recv_Ok & Hok). apply Ok_inj in Hok.
      eapply (reset_recv_ok (credit_pending c) (stream_window c) id) in Hpush as (_ & Hrc & Hn);
        [|done|apply new_recv_ok, Hs]. cbn in Hrc. subst c'. destruct Hc.
      constructor; try done; cbn; unfold total_received in *; cbn; rewrite ?sum_values_snoc; cbn; lia.
Qed.
End peer.

Lemma same_recv c id r put r' :
  recv_mut c id = Some (r, put) → recv_stream.received r' = recv_stream.received r → same_counts c (put r').
Proof.
  intros [(i & p & Hp & _ & -> & ->)|(_ & i & Hi & ->)]%recv_mut_inv Hr.
  - destruct (put_slot_totals c i p (set_recv r' p) Hp) as (E1 & E2 & E3). cbn in E1, E2, E3.
    unfold same_counts. split_and!; try reflexivity; lia.
  - unfold same_counts, total_received. cbn. rewrite (sum_values_insert _ _ _ _ _ _ _ Hi).
    split_and!; try reflexivity. lia.
Qed.

Lemma same_consume c id f n c' : consume c id f = Ok (n, c') → same_counts c c'.
Proof.
  unfold consume. destruct (recv_mut c id) as [[r put]|] eqn:Hm; [|intros [= _ <-]; same].
  intros ([k r'] & Hc & [= _ <-])%bind_Ok.
  assert (same_counts c (put r')) as Hs.
  { eapply same_recv; [exact Hm|]. unfold recv_stream.consume in Hc.
    destruct (_ =? _)%nat; [by simplify_eq|]. by apply bind_Ok in Hc as (? & _ & [= _ <-]). }
  destruct (recv_stream.wants_credit _ _); [|done].
  eapply same_trans; [exact Hs|]. apply (same_trans _ (queue_credit id (put r'))); [apply same_queue_credit|same].
Qed.

(** *** Filling a packet *)

Section fill.
Context (fl : list recovery.SentFrame) (polled : list Event) (budget start : nat) (gone gs : Z).

Definition good_fill (f : Fill) : Prop := fill_ok fl polled f ∧ counts (conn f) gone gs.

Lemma fill_max_data_counts f :
  counts (conn f) gone gs → counts (conn (fill_max_data budget start f)) gone gs.
Proof.
  intros H. unfold fill_max_data. destruct H.
  destruct (Z.leb_spec (max_data_local (conn f)) (data_received (conn f) + max_data_window (conn f) / 2)).
  all: match goal with |- context [if max_data_owed ?c1 && _ then _ else _] =>
    destruct (max_data_owed c1 && _) end; constructor; try done; cbn; lia.
Qed.

Lemma fill_credit_counts todo f :
  counts (conn f) gone gs → counts (conn (fill_credit budget start todo f)) gone gs.
Proof.
  revert f. induction todo as [|id todo IH]; intros f H; [done|]. cbn [fill_credit].
  destruct (_ <? _)%nat; [done|].
  assert (counts (set_credit_pending (reverse todo) (conn f)) gone gs) as H1 by (eapply counts_same; [exact H|]; same).
  destruct (recv_mut _ id) as [[r put]|] eqn:Hm; [|by apply IH].
  destruct (recv_stream.size_known r); [by apply IH|].
  destruct (recv_stream.grant r _) as [limit r'] eqn:Hg. apply IH. cbn [emit with_conn conn].
  eapply counts_same; [exact H1|]. eapply same_recv; [exact Hm|]. unfold recv_stream.grant in Hg. by simplify_eq.
Qed.

Lemma fill_retire_counts todo f :
  counts (conn f) gone gs → counts (conn (fill_retire budget start todo f)) gone gs.
Proof.
  revert f. induction todo as [|seq todo IH]; intros f H; [done|]. cbn [fill_retire].
  destruct (_ <? _)%nat; [done|]. apply IH. cbn. eapply counts_same; [exact H|]. same.
Qed.

Lemma fill_reset_counts todo f :
  counts (conn f) gone gs → counts (conn (fill_reset budget start todo f)) gone gs.
Proof.
  revert f. induction todo as [|[[id e] n] todo IH]; intros f H; [done|]. cbn [fill_reset].
  destruct (_ <? _)%nat; [done|]. apply IH. cbn. eapply counts_same; [exact H|]. same.
Qed.

(** A turn charges the connection's credit with what the stream sent. *)
Lemma turn_counts f id s put f' :
  counts (conn f) gone gs → turned fl budget start f id s put f' →
  (∀ s', unanswered (put s') = unanswered (conn f) ∧ data_received (put s') = data_received (conn f) ∧
     max_data_local (put s') = max_data_local (conn f) ∧ max_data_window (put s') = max_data_window (conn f) ∧
     data_sent (put s') = data_sent (conn f) ∧ max_data_peer (put s') = max_data_peer (conn f) ∧
     open_count (put s') = open_count (conn f) ∧ total_received (put s') = total_received (conn f) ∧
     total_spent (put s') = total_spent (conn f) - spent s + spent s') →
  counts (conn f') gone gs.
Proof.
  intros Hc Ht Hput. destruct Ht as [|o d fi n s' _ _ Hsp Hn _ _ _ _]; cbn [emit with_conn conn].
  - eapply counts_same; [exact Hc|]. destruct (Hput s) as (?&?&?&?&?&?&?&?&?). unfold same_counts.
    split_and!; try done. lia.
  - destruct (Hput s') as (E1&E2&E3&E4&E5&E6&E7&E8&E9). destruct Hc. unfold saturating_sub in Hn.
    constructor; try done; cbn; rewrite ?E1, ?E2, ?E3, ?E4, ?E5, ?E6.
    + unfold open_count in *. cbn in *. lia.
    + unfold total_received in *. cbn in *. lia.
    + lia.
    + done.
    + unfold total_spent in *. cbn in *. lia.
    + lia.
Qed.

Lemma fill_uni_good n i f :
  good_fill f → (i + n ≤ length (local_uni (conn f)))%nat →
  ∃ f', fill_uni budget start n i f = Ok f' ∧ good_fill f'.
Proof.
  revert i f. induction n as [|n IH]; intros i f [Hok Hc] Hlen; [by exists f|]. cbn [fill_uni].
  destruct (_ <? _)%nat; [by exists f|].
  destruct (lookup_lt_is_Some_2 (local_uni (conn f)) i ltac:(lia)) as [[id s] Hi]. rewrite Hi.
  pose proof (uni_send_mut _ _ _ _ _ _ _ _ Hok Hi) as Hm.
  destruct (send_mut_ok _ _ _ _ _ _ _ _ Hok Hm) as [(Htr & _) _].
  destruct (send_turn_spec fl budget start f id s (λ s, set_local_uni (<[i := (id, s)]> (local_uni (conn f))) (conn f)) Htr)
    as (f' & -> & Ht).
  cbn [mbind result_bind]. apply IH.
  - split; [by eapply turn_uni_ok|]. eapply turn_counts; [exact Hc|exact Ht|]. intros s'.
    destruct (send_mut_totals _ _ _ _ s' Hm) as (?&?&?&?&?&?&?&?&?). done.
  - assert (length (local_uni (conn f')) = length (local_uni (conn f))) as ->; [|lia].
    destruct Ht; cbn; by rewrite length_insert.
Qed.

Lemma queue_send_logged id c : logged polled (queue_send id c) = logged polled c.
Proof.
  unfold queue_send. destruct (stream_index c id) as [i|]; [|done]. destruct (slot c i) as [p|]; [|done].
  by destruct (queued p).
Qed.

(** A whole turn of the stream at the front of the queue. *)
Lemma turn_ring_good f id rest i p f' :
  good_fill f → send_queue (conn f) = id :: rest →
  stream_index (conn f) id = Some i → slot (conn f) i = Some p →
  let f0 := with_conn (set_send_queue rest (conn f)) f in
  turned fl budget start f0 id (send p) (λ s, put_slot i (set_send s (set_queued false p)) (conn f0)) f' →
  good_fill (if match pair_at (conn f') id with Some p => send_stream.has_pending (send p) | None => false end
             then with_conn (queue_send id (conn f')) f' else f').
Proof.
  intros [Hok Hc] Hq Hi Hp f0 Ht.
  pose proof (turn_ring_ok fl polled budget start _ _ _ _ _ _ Hok Hq Hi Hp Ht) as Hsh.
  assert (counts (conn f') gone gs) as Hc'.
  { eapply (turn_counts f0); [|exact Ht|].
    - eapply counts_same; [exact Hc|]. same.
    - intros s'. destruct (put_slot_totals (conn f0) i p (set_send s' (set_queued false p)) Hp) as (E1 & E2 & E3).
      rewrite E1, E2, E3. cbn. split_and!; try reflexivity; lia. }
  destruct (match pair_at _ _ with Some _ => _ | None => _ end) eqn:Hpe.
  - split; [|eapply counts_same; [exact Hc'|]; apply same_queue_send].
    unfold fill_ok. cbn [with_conn conn frames]. rewrite queue_send_logged. by apply shape_queue_send.
  - split; [|done]. eapply shape_quiet; [exact Hsh|]. intros q Hq' Hpq. rewrite Hq' in Hpe. congruence.
Qed.

Lemma fill_streams_good n f :
  good_fill f → ∃ f', fill_streams budget start n f = Ok f' ∧ good_fill f'.
Proof.
  revert f. induction n as [|n IH]; intros f Hg; [by exists f|]. cbn [fill_streams].
  destruct (_ <? _)%nat; [by exists f|]. destruct (send_queue (conn f)) as [|id rest] eqn:Hq; [by exists f|].
  set (f0 := with_conn (set_send_queue rest (conn f)) f).
  assert (pair_at (conn f) id = None → good_fill f0) as Hgone.
  { intros Hno. destruct Hg as [Hok Hc]. split; [|eapply counts_same; [exact Hc|]; same].
    by apply (shape_unqueue _ _ _ id). }
  unfold pair_at in Hgone.
  change (stream_index (conn f0) id) with (stream_index (conn f) id).
  destruct (stream_index (conn f) id) as [i|] eqn:Hi; [|by apply IH, Hgone].
  change (slot (conn f0) i) with (slot (conn f) i).
  destruct (slot (conn f) i) as [p|] eqn:Hp; [|by apply IH, Hgone].
  change (send (set_queued false p)) with (send p).
  assert (tracks (flight_of id (fl ++ frames f0)) (send p)) as Htr.
  { destruct Hg as [Hok _]. pose proof Hi as [Hid _]%stream_index_Some. apply slot_Some in Hp as Hlk.
    destruct (sh_pairs _ _ _ _ _ Hok i p Hlk) as ((Htr & _) & _). by rewrite Hid. }
  destruct (send_turn_spec fl budget start f0 id (send p)
    (λ s, put_slot i (set_send s (set_queued false p)) (conn f0)) Htr) as (f' & -> & Ht).
  cbn [mbind result_bind]. apply IH.
  pose proof (turn_ring_good f id rest i p f' Hg Hq Hi Hp Ht) as Hgood. unfold pair_at in Hgood.
  destruct (stream_index (conn f') id); [|done]. by destruct (slot (conn f') _).
Qed.

(** [fill_data_payload] always succeeds and keeps the invariants. *)
Lemma fill_good c o fs congested :
  good_fill (mkFill c o fs false) →
  ∃ f', fill_data_payload budget start c o fs congested = Ok f' ∧ good_fill f'.
Proof.
  intros [Hok Hc]. unfold fill_data_payload.
  set (f1 := fill_max_data _ _ _). assert (good_fill f1) as Hg1
    by (split; [by apply fill_max_data_ok|by apply fill_max_data_counts]).
  clearbody f1. set (f2 := fill_credit _ _ _ _). assert (good_fill f2) as Hg2.
  { destruct Hg1. split; [|by apply fill_credit_counts]. apply fill_credit_ok; [done|by rewrite reverse_involutive]. }
  clearbody f2. set (f3 := fill_retire _ _ _ _). assert (good_fill f3) as Hg3
    by (destruct Hg2; split; [by apply fill_retire_ok|by apply fill_retire_counts]).
  clearbody f3. set (f4 := fill_reset _ _ _ _). assert (good_fill f4) as Hg4.
  { destruct Hg3. split; [|by apply fill_reset_counts]. apply fill_reset_ok; [done|by rewrite reverse_involutive]. }
  clearbody f4. destruct congested; [by exists f4|].
  destruct (fill_uni_good (length (local_uni (conn f4))) 0 f4 Hg4 ltac:(lia)) as (f5 & -> & Hg5).
  cbn [mbind result_bind]. by apply fill_streams_good.
Qed.
End fill.

(** ** Executions *)

Record ghost := mkGhost {
  g_c : Streams;
  g_flight : list recovery.SentFrame;   (** frames sent, outcome unknown *)
  g_polled : list Event;                (** events the worker has taken *)
  g_gone : Z;                           (** bytes received by streams since dropped *)
  g_gone_sent : Z;                      (** bytes sent by streams since dropped *)
}.

Inductive op : Type :=
| OpenBi | OpenUni | Oneshot (data : bytes) | Write (id : Z) (data : bytes) | Finish (id : Z)
| Consume (id : Z) (f : bytes → res unit) | Retire (id cancel : Z) | Poll
| GotStream (id offset : Z) (data : bytes) (fin : bool) | GotReset (id error fsize : Z)
| GotStopSending (id error : Z) | GotMaxData (limit : Z) | GotMaxStreamData (id limit : Z)
| GotMaxStreams (uni : bool) (limit : Z)
| FillPacket (budget start : nat) (o : bytes) (fs : list recovery.SentFrame) (congested : bool)
| FrameAcked (i : nat) | FrameLost (i : nat).

Section runs.
Context `{UnstableSortLaws (Z * bytes)}.

Definition with_c (c : Streams) (g : ghost) : ghost :=
  mkGhost c (g_flight g) (g_polled g) (g_gone g) (g_gone_sent g).
(** Streams may have been dropped. *)
Definition with_drops (c : Streams) (fl : list recovery.SentFrame) (g : ghost) : ghost :=
  mkGhost c fl (g_polled g) (g_gone g + drop_received (g_c g) c) (g_gone_sent g + drop_spent (g_c g) c).

(** A frame the connection rejects ends it; nothing else changes. *)
Definition step (g : ghost) (o : op) : ghost :=
  let c := g_c g in
  match o with
  | OpenBi => with_c (snd (open_bi c)) g
  | OpenUni => with_c (snd (open_uni c)) g
  | Oneshot data => with_c (snd (send_oneshot c data)) g
  | Write id data => with_c (snd (write c id data)) g
  | Finish id => with_c (finish c id) g
  | Consume id f => match consume c id f with Ok (_, c') => with_c c' g | Err _ => g end
  | Retire id cancel => with_drops (retire c id cancel) (g_flight g) g
  | Poll =>
      match poll_event c with
      | (Some e, c') => mkGhost c' (g_flight g) (g_polled g ++ [e]) (g_gone g) (g_gone_sent g)
      | (None, _) => g
      end
  | GotStream id offset data fin =>
      match on_stream c id offset data fin with Ok c' => with_c c' g | Err _ => g end
  | GotReset id error fsize => match on_reset c id error fsize with Ok c' => with_c c' g | Err _ => g end
  | GotStopSending id error => with_c (on_stop_sending c id error) g
  | GotMaxData limit => with_c (on_max_data c limit) g
  | GotMaxStreamData id limit => with_c (on_max_stream_data c id limit) g
  | GotMaxStreams uni limit => with_c (on_max_streams c uni limit) g
  | FillPacket budget start o fs congested =>
      match fill_data_payload budget start c o fs congested with
      | Ok f => mkGhost (conn f) (g_flight g ++ frames f) (g_polled g) (g_gone g) (g_gone_sent g)
      | Err _ => g
      end
  | FrameAcked i =>
      match g_flight g !! i with
      | Some f => with_drops (on_frame_acked c f) (delete i (g_flight g)) g
      | None => g
      end
  | FrameLost i =>
      match g_flight g !! i with
      | Some f => mkGhost (on_frame_lost c f) (delete i (g_flight g)) (g_polled g) (g_gone g) (g_gone_sent g)
      | None => g
      end
  end.

(** The application stops writing once it has finished a stream; identifiers,
    offsets and limits arrive as varints; the frames already in a packet are
    CRYPTO frames. *)
Definition allowed (g : ghost) (o : op) : Prop :=
  match o with
  | Write id _ => ∀ s, send_at (g_c g) id = Some s → send_stream.fin s = false
  | GotStream id offset _ _ => 0 ≤ id ∧ 0 ≤ offset
  | GotReset id _ fsize => 0 ≤ id ∧ 0 ≤ fsize < 2 ^ 62
  | GotMaxStreamData _ limit | GotMaxStreams _ limit => limit < 2 ^ 62
  | FillPacket _ _ _ fs _ => Forall unseen fs
  | _ => True
  end.

(** A connection whose handshake has brought the peer's parameters. *)
Definition begin (local : LocalParamsInput) (p : transport.Params) : ghost :=
  mkGhost (adopt_params p (connect local)) [] [] 0 0.

Definition config_ok (local : LocalParamsInput) (p : transport.Params) : Prop :=
  0 ≤ li_initial_max_data local < 2 ^ 62 ∧ 0 < li_initial_max_stream_data local < 2 ^ 62 ∧
  params_ok p ∧ 0 ≤ transport.initial_max_streams_bidi p < 2 ^ 62 ∧ 0 ≤ transport.initial_max_data p.

Inductive reachable (local : LocalParamsInput) (p : transport.Params) : ghost → Prop :=
| reach_begin : reachable local p (begin local p)
| reach_step g o : reachable local p g → allowed g o → reachable local p (step g o).

Definition good (g : ghost) : Prop :=
  shape (g_c g) (g_flight g) (logged (g_polled g) (g_c g)) None None ∧
  counts (g_c g) (g_gone g) (g_gone_sent g) ∧ 0 ≤ g_gone g ∧ 0 ≤ g_gone_sent g.

Lemma begin_good local p : config_ok local p → good (begin local p).
Proof.
  intros (? & ? & Hp & ? & ?). split; [|split; [|done]].
  - constructor; cbn; try done; try lia.
    + change (zlen []) with 0. split; [done|]. apply Hp.
    + constructor.
    + split; constructor.
    + split; constructor.
  - constructor; cbn; try done; lia.
Qed.

(** *** Operations that report nothing *)

Lemma queue_send_events id c : events (queue_send id c) = events c.
Proof.
  unfold queue_send. destruct (stream_index c id) as [i|]; [|done]. destruct (slot c i) as [p|]; [|done].
  by destruct (queued p).
Qed.
Lemma send_put_events c id s put s' : send_mut c id = Some (s, put) → events (put s') = events c.
Proof. by intros [(i & p & _ & _ & _ & ->)|(_ & i & _ & ->)]%send_mut_inv. Qed.
Lemma recv_put_events c id r put r' : recv_mut c id = Some (r, put) → events (put r') = events c.
Proof. by intros [(i & p & _ & _ & _ & ->)|(_ & i & _ & ->)]%recv_mut_inv. Qed.
Lemma settle_events id c : events (settle id c) = events c.
Proof.
  unfold settle. destruct (stream_index c id) as [i|]; [|done]. destruct (slot c i) as [p|]; [|done].
  destruct (_ && _); [|done]. by destruct (trim_front _ _).
Qed.
Lemma write_events c id data : events (snd (write c id data)) = events c.
Proof.
  unfold write. destruct (send_mut _ id) as [[s put]|] eqn:Hm.
  - destruct (send_stream.write s data) as [n s']. cbn. rewrite queue_send_events.
    by rewrite (send_put_events _ _ _ _ _ Hm).
  - cbn. by rewrite queue_send_events.
Qed.
Lemma finish_events c id : events (finish c id) = events c.
Proof.
  unfold finish. rewrite queue_send_events. destruct (send_mut _ id) as [[s put]|] eqn:Hm; [|done].
  by rewrite (send_put_events _ _ _ _ _ Hm).
Qed.
Lemma max_stream_data_events c id l : events (on_max_stream_data c id l) = events c.
Proof.
  unfold on_max_stream_data. rewrite queue_send_events. destruct (send_mut _ id) as [[s put]|] eqn:Hm; [|done].
  by rewrite (send_put_events _ _ _ _ _ Hm).
Qed.
Lemma retire_events c id cancel : events (retire c id cancel) = events c.
Proof.
  rewrite retire_eq. destruct (stream_index c id) as [i|]; [|done]. destruct (slot c i) as [p|]; [|done].
  rewrite settle_events. unfold retire_pre. destruct (_ && _); [destruct (send_stream.reset _)|]; by destruct (finished p).
Qed.
Lemma acked_events c f : events (on_frame_acked c f) = events c.
Proof.
  destruct f as [|id o len fi| | |id e n| |]; try done; cbn [on_frame_acked]; rewrite settle_events;
    (destruct (send_mut c id) as [[s put]|] eqn:Hm; [|done]); by rewrite (send_put_events _ _ _ _ _ Hm).
Qed.
Lemma lost_events c f : events (on_frame_lost c f) = events c.
Proof.
  destruct f as [|id o len fi| | |id e n| |id l]; try done; cbn [on_frame_lost].
  - rewrite queue_send_events. destruct (send_mut c id) as [[s put]|] eqn:Hm; [|done].
    by rewrite (send_put_events _ _ _ _ _ Hm).
  - unfold queue_credit. by case_bool_decide.
Qed.
Lemma consume_events c id f n c' : consume c id f = Ok (n, c') → events c' = events c.
Proof.
  unfold consume. destruct (recv_mut c id) as [[r put]|] eqn:Hm; [|congruence].
  intros ([k r'] & _ & [= _ <-])%bind_Ok. destruct (recv_stream.wants_credit _ _).
  - unfold queue_credit. case_bool_decide; cbn; by rewrite (recv_put_events _ _ _ _ _ Hm).
  - by rewrite (recv_put_events _ _ _ _ _ Hm).
Qed.
Lemma oneshot_events c data : events (snd (send_oneshot c data)) = events c.
Proof.
  unfold send_oneshot. assert (events (snd (open_bi c)) = events c) as Ho by (unfold open_bi; by destruct (_ <=? _)).
  destruct (open_bi c) as [[id|] c1]; [|done]. cbn in Ho.
  destruct (slot _ _) as [p|]; [|done]. by destruct (send_stream.write (send p) data).
Qed.

Lemma good_same g c' :
  good g → shape c' (g_flight g) (logged (g_polled g) (g_c g)) None None →
  events c' = events (g_c g) → same_counts (g_c g) c' → good (with_c c' g).
Proof.
  intros (_ & Hc & ? & ?) Hs He Hsame. split; [|split; [by eapply counts_same|done]].
  unfold logged in *. cbn. by rewrite He.
Qed.

(** *** Every operation *)

Lemma drops_retire c fl log id cancel :
  shape c fl log None None → drops c (retire c id cancel).
Proof.
  intros Hs. rewrite retire_eq.
  destruct (stream_index c id) as [i|] eqn:Hi; [|apply drops_same, same_refl].
  destruct (slot c i) as [p|] eqn:Hp; [|apply drops_same, same_refl].
  eapply drops_retire_pre; [done..|]. apply drops_settle.
  pose proof (shape_droppable _ _ _ _ _ Hs) as Hd. destruct (Hd i p (proj1 (slot_Some _ _ _) Hp)) as (? & ? & ?).
  destruct (retire_pre_spec c id cancel i p) as (q & E1 & Hq & Hr & Hsp & _).
  eapply (put_droppable c i q); [done| |done]. split; [done|]. by rewrite Hr, Hsp.
Qed.

Lemma good_drops g c' fl' :
  good g → shape c' fl' (logged (g_polled g) (g_c g)) None None → events c' = events (g_c g) →
  drops (g_c g) c' → good (with_drops c' fl' g).
Proof.
  intros (_ & Hc & ? & ?) Hs He (? & ? & Hd). split; [|split; [by apply Hd|cbn; lia]].
  unfold logged in *. cbn. by rewrite He.
Qed.

Lemma shape_frames c fl log fs :
  shape c fl log None None → Forall unseen fs → shape c (fl ++ fs) log None None.
Proof.
  intros Hs Ha. induction fs as [|f fs IH] using rev_ind; [by rewrite app_nil_r|].
  apply Forall_app in Ha as [Ha [Hf _]%Forall_cons]. rewrite (assoc_L (++)). apply shape_frame; auto.
Qed.

Lemma step_good g o : allowed g o → good g → good (step g o).
Proof.
  intros Ha Hg. pose proof Hg as (Hs & Hc & Hg1 & Hg2).
  destruct o as [| |data|id data|id|id f|id cancel| |id offset data fin|id err fsize|id err|limit|id limit|uni limit
    |budget start o fs congested|i|i]; cbn [step allowed] in *.
  - destruct (open_bi (g_c g)) as [[id|] c'] eqn:Ho.
    + destruct (shape_open_bi _ _ _ _ _ Hs Ho) as (Hs' & _). pose proof (open_bi_counts _ _ _ Hc) as Hc'.
      rewrite Ho in Hc'. assert (events c' = events (g_c g)) as He.
      { unfold open_bi in Ho. destruct (_ <=? _); [done|]. by injection Ho as _ <-. }
      split; [|done]. unfold logged in *. cbn. by rewrite He.
    + unfold open_bi in Ho. destruct (_ <=? _); [|done]. injection Ho as <-. by destruct g.
  - pose proof (shape_open_uni _ _ _ Hs) as Hs'. pose proof (open_uni_counts _ _ _ Hc) as Hc'.
    split; [|done]. unfold logged in *. cbn.
    replace (events (open_uni (g_c g)).2) with (events (g_c g)); [done|]. unfold open_uni. by destruct (_ <=? _).
  - pose proof (shape_oneshot _ _ _ data Hs) as Hs'. pose proof (oneshot_counts _ data _ _ Hc) as Hc'.
    split; [|done]. unfold logged in *. cbn. by rewrite oneshot_events.
  - apply good_same; [done|by apply shape_write|apply write_events|apply same_write].
  - apply good_same; [done|by apply shape_finish|apply finish_events|apply same_finish].
  - destruct (consume (g_c g) id f) as [[n c']|] eqn:Hcs; [|done].
    apply good_same; [done|by eapply shape_consume|by eapply consume_events|by eapply same_consume].
  - apply good_drops; [done|by apply shape_retire|apply retire_events|by eapply drops_retire].
  - unfold poll_event. destruct (events (g_c g)) as [|e rest] eqn:He; [done|].
    assert (logged (g_polled g ++ [e]) (set_events rest (g_c g)) = logged (g_polled g) (g_c g)) as Hl
      by (unfold logged; cbn; by rewrite He, <- (assoc_L (++))).
    split; [cbn [g_c g_flight g_polled]; rewrite Hl; shape_from Hs|]. split; [|done]. eapply counts_same; [exact Hc|]. same.
  - destruct (on_stream _ _ _ _ _) as [c'|] eqn:Hos; [|done]. destruct Ha.
    split; [by eapply shape_on_stream; [exact Hs|..|exact Hos]|]. split; [|done].
    by eapply on_stream_counts; [exact Hs|..|exact Hos].
  - destruct (on_reset _ _ _ _) as [c'|] eqn:Hor; [|done]. destruct Ha.
    split; [by eapply shape_on_reset; [exact Hs|..|exact Hor]|]. split; [|done].
    by eapply on_reset_counts; [exact Hs|..|exact Hor].
  - split; [|split; [eapply counts_same; [exact Hc|apply same_stop_sending]|done]].
    eapply shape_log; [by apply shape_stop_sending|..]; cbn; unfold logged, on_stop_sending;
      (destruct (send_mut (g_c g) id) as [[s put]|] eqn:Hm; [|done]);
      (destruct (send_stream.is_reset s); [done|]); destruct (send_stream.reset s) as [n s'];
      cbn; rewrite (send_put_events _ _ _ _ _ Hm), !omap_app; cbn; by rewrite app_nil_r.
  - split; [|split; [|done]]; cbn.
    + unfold on_max_data. shape_from Hs.
    + destruct Hc. constructor; try done. cbn. lia.
  - apply good_same; [done|by apply shape_max_stream_data|apply max_stream_data_events|apply same_max_stream_data].
  - unfold on_max_streams. destruct uni; [by destruct g|]. split; [|split; [|done]]; cbn.
    + destruct Hs. constructor; try done. cbn. lia.
    + eapply counts_same; [exact Hc|]. same.
  - destruct (fill_good (g_flight g) (g_polled g) budget start (g_gone g) (g_gone_sent g) (g_c g) o fs congested)
      as (f & -> & Hok & Hcf); [|done].
    split; [by apply shape_frames|done].
  - destruct (g_flight g !! i) as [f|] eqn:Hi; [|done].
    pose proof (delete_Permutation _ _ _ Hi) as Hp.
    apply good_drops; [done|by eapply shape_acked|apply acked_events|by eapply drops_acked].
  - destruct (g_flight g !! i) as [f|] eqn:Hi; [|done].
    pose proof (delete_Permutation _ _ _ Hi) as Hp.
    split; [|split; [eapply counts_same; [exact Hc|by eapply same_lost]|done]]; cbn.
    unfold logged. rewrite lost_events. by eapply shape_lost.
Qed.

Lemma reachable_good local p g : config_ok local p → reachable local p g → good g.
Proof. intros Hcfg. induction 1; [by apply begin_good|by apply step_good]. Qed.

(** ** What holds of every execution *)

Lemma send_at_ok c fl log exq exs id s :
  shape c fl log exq exs → send_at c id = Some s → send_ok fl (reset_pending c) id s.
Proof.
  intros Hs Hat. unfold send_at in Hat. destruct (send_mut c id) as [[s' put]|] eqn:Hm; [|done].
  injection Hat as <-. by eapply send_mut_ok.
Qed.
Lemma recv_at_ok c fl log exq exs id r :
  shape c fl log exq exs → recv_at c id = Some r → recv_ok (credit_pending c) (stream_window c) id r.
Proof.
  intros Hs Hat. unfold recv_at in Hat. destruct (recv_mut c id) as [[r' put]|] eqn:Hm; [|done].
  injection Hat as <-. by eapply recv_mut_ok.
Qed.
Lemma pair_at_ok c fl log exq exs id q :
  shape c fl log exq exs → pair_at c id = Some q → pair_ok (env_of c fl log exq exs) id q.
Proof.
  intros Hs Hat. unfold pair_at in Hat. destruct (stream_index c id) as [i|] eqn:Hi; [|done].
  apply stream_index_Some in Hi as [-> _]. apply slot_Some in Hat. by apply Hs.
Qed.

(** C26: No wake-up is lost.  After any sequence of requests, frames received,
    packets filled, acknowledgements and losses: every request stream with
    something to send is in the send queue, exactly once; every stream that has
    used up half of its window is on the list of those owed a MAX_STREAM_DATA;
    and a stream that has been reset has its RESET_STREAM, with the final size
    it really had, queued, in flight or acknowledged. *)
Theorem conn_no_lost_wakeup (local : LocalParamsInput) (p : transport.Params) (g : ghost)
    (Hcfg : config_ok local p) (Hg : reachable local p g) :
  let c := g_c g in
  NoDup (send_queue c) ∧
  (∀ id q, pair_at c id = Some q → send_stream.has_pending (send q) = true → id ∈ send_queue c) ∧
  (∀ id r, recv_at c id = Some r → recv_stream.wants_credit r (stream_window c) = true →
     id ∈ credit_pending c) ∧
  (∀ id s, send_at c id = Some s → send_stream.is_reset s = true →
     send_stream.reset_acked s = true ∨ resetting (g_flight g) (reset_pending c) id (spent s)).
Proof.
  intros c. destruct (reachable_good _ _ _ Hcfg Hg) as (Hs & _). split; [apply Hs|]. split_and!.
  - intros id q Hq Hp. apply (pair_at_ok _ _ _ _ _ _ _ Hs) in Hq as (_ & _ & [Hq1 Hq2] & _). by apply Hq1, Hq2.
  - intros id r Hr. by apply (recv_at_ok _ _ _ _ _ _ _ Hs) in Hr as [_ Hr].
  - intros id s Hr. by apply (send_at_ok _ _ _ _ _ _ _ Hs) in Hr as (_ & _ & Hr & _).
Qed.

(** A stream that is done for waits for something. *)
Lemma retired_waits c fl log id q :
  pair_ok (env_of c fl log None None) id q → retired q = true →
  id ∈ send_queue c ∨ flight_of id fl ≠ [] ∨ ∃ n, resetting fl (reset_pending c) id n.
Proof.
  intros ((Htr & _ & Hrs & _) & _ & [Hq1 Hq2] & [Hl1 [Hl2 _]]) Hret.
  cbn [e_fl e_rp e_q e_exq e_exs env_of] in *.
  specialize (Hl1 Hret) as [_ Hor]. specialize (Hl2 ltac:(done) Hret).
  destruct (send_stream.is_reset (send q)) eqn:Hr.
  { unfold send_stream.is_settled in Hl2. rewrite Hr in Hl2. destruct (Hrs eq_refl); [congruence|eauto]. }
  destruct (send_stream.has_pending (send q)) eqn:Hp; [left; by apply Hq1, Hq2|].
  destruct (flight_of id fl) as [|x l] eqn:Hf; [|by right; left].
  apply send_stream.tracks_inv in Htr as (sg & Hinv & Hst & Hfl). rewrite <- Hst in *.
  apply Permutation_nil_r in Hfl.
  destruct (send_stream.quiet_settled sg Hinv Hr Hfl Hp) as (_ & _ & Hset).
  rewrite Hset in Hl2; [done|]. by destruct Hor.
Qed.

(** No stream leaks.  A request stream the worker has retired stays only
    while there is something to wait for - a place in the send queue, a frame
    in flight, a RESET_STREAM queued or in flight - so once the peer has
    acknowledged everything, the stream is gone. *)
Theorem conn_retired_drain (local : LocalParamsInput) (p : transport.Params) (g : ghost)
    (Hcfg : config_ok local p) (Hg : reachable local p g) :
  let c := g_c g in
  (∀ id q, pair_at c id = Some q → retired q = true →
     id ∈ send_queue c ∨ flight_of id (g_flight g) ≠ [] ∨
     ∃ n, resetting (g_flight g) (reset_pending c) id n) ∧
  (g_flight g = [] → send_queue c = [] → reset_pending c = [] →
     ∀ id q, pair_at c id = Some q → retired q = false).
Proof.
  intros c. destruct (reachable_good _ _ _ Hcfg Hg) as (Hs & _).
  assert (∀ id q, pair_at c id = Some q → retired q = true →
     id ∈ send_queue c ∨ flight_of id (g_flight g) ≠ [] ∨
     ∃ n, resetting (g_flight g) (reset_pending c) id n) as Hw.
  { intros id q Hq Hret. eapply retired_waits; [by eapply pair_at_ok|done]. }
  split; [done|]. intros Hfl Hqu Hrp id q Hq. destruct (retired q) eqn:Hret; [|done].
  destruct (Hw id q Hq Hret) as [Hin|[Hne|(n & e & [Hin|Hin])]]; rewrite ?Hfl, ?Hqu, ?Hrp in *;
    [by apply elem_of_nil in Hin|done|by apply elem_of_nil in Hin..].
Qed.

(** C27: Flow control is kept on both sides and exact on both sides.  What has
    been sent on all streams together, each byte once, never exceeds what the
    peer allows; what the peer has sent never exceeds what was advertised, and
    the total counted is the sum over the streams of the highest offset each
    has used - so that the unchecked subtraction of the code never wraps. *)
Theorem conn_flow_control (local : LocalParamsInput) (p : transport.Params) (g : ghost)
    (Hcfg : config_ok local p) (Hg : reachable local p g) :
  let c := g_c g in
  data_sent c = g_gone_sent g + total_spent c ∧ data_sent c ≤ max_data_peer c ∧
  data_received c = g_gone g + total_received c ∧ data_received c ≤ max_data_local c ∧
  u64 (max_data_local c - data_received c) = max_data_local c - data_received c ∧
  max_data_local c - data_received c ≤ max_data_window c ∧
  (∀ id s, send_at c id = Some s → 0 ≤ spent s ≤ send_stream.limit s) ∧
  (∀ id r, recv_at c id = Some r → 0 ≤ recv_stream.received r ≤ recv_stream.max_data r).
Proof.
  intros c. destruct (reachable_good _ _ _ Hcfg Hg) as (Hs & Hc & _). subst c.
  pose proof (credit_eq _ _ _ Hc) as Hcr. destruct Hc. split_and!; try done; try lia.
  - intros id s Hat. pose proof (send_at_ok _ _ _ _ _ _ _ Hs Hat) as (Htr & _).
    apply send_stream.tracks_inv in Htr as (sg & [(_ & ? & _ & ? & ? & _) _] & <- & _).
    unfold send_stream.spent. lia.
  - intros id r Hat. pose proof (recv_at_ok _ _ _ _ _ _ _ Hs Hat) as [(? & ? & _ & ?) _].
    pose proof (zlen_nonneg (recv_stream.ready r)). lia.
Qed.

(** Distinct identifiers below the limit. *)
Lemma peer_ids_bound l limit :
  NoDup l → Forall (peer_id limit) l → Z.of_nat (length l) ≤ Z.max 0 limit.
Proof.
  intros Hnd Hall. rewrite Forall_forall in Hall.
  assert ((λ id, id / 4) <$> l ⊆+ seqZ 0 limit) as Hsub%submseteq_length.
  { apply NoDup_submseteq.
    - apply NoDup_fmap_2_strong; [|done]. intros x y Hx%Hall Hy%Hall Heq. destruct Hx as [Hx _], Hy as [Hy _].
      rewrite (Z.div_mod x 4), (Z.div_mod y 4) by lia. by rewrite Heq, Hx, Hy.
    - intros x (y & -> & Hy%Hall)%list_elem_of_fmap. destruct Hy as [_ Hy]. apply elem_of_seqZ.
      split; [apply Z.div_pos; lia|]. apply Z.div_lt_upper_bound; lia. }
  rewrite length_fmap, length_seqZ in Hsub. lia.
Qed.

(** C28: Every request stream that ends is reported once, and only streams that
    were opened end; the number of requests unanswered, which decides whether a
    keepalive is sent, is exactly the number of streams in the ring whose end
    has been neither reported nor given up on; and each stream the peer opens
    is announced once, within the number it was allowed. *)
Theorem conn_streams_end_once (local : LocalParamsInput) (p : transport.Params) (g : ghost)
    (Hcfg : config_ok local p) (Hg : reachable local p g) :
  let c := g_c g in
  let log := logged (g_polled g) c in
  NoDup (omap ended_id log) ∧ Forall (request_id (next_bidi c)) (omap ended_id log) ∧
  (∀ id q, pair_at c id = Some q → id ∈ omap ended_id log → finished q = true) ∧
  unanswered c = open_count c ∧ next_bidi c ≤ max_streams_bidi c ∧
  NoDup (omap opened_id log) ∧ omap opened_id log = (peer_uni c).*1 ∧
  Forall (peer_id (max_peer_uni c)) (omap opened_id log) ∧
  zlen (peer_uni c) ≤ Z.max 0 (max_peer_uni c).
Proof.
  intros c log. destruct (reachable_good _ _ _ Hcfg Hg) as (Hs & Hc & _).
  assert (Forall (peer_id (max_peer_uni c)) (peer_uni c).*1) as Hpe.
  { apply Forall_fmap, Forall_lookup_2. intros i [id r] Hi. by apply (sh_peers _ _ _ _ _ Hs) in Hi as [? _]. }
  pose proof (sh_opened _ _ _ _ _ Hs) as Hop. pose proof (sh_peer_ids _ _ _ _ _ Hs) as Hnd.
  fold c log in Hop, Hnd. rewrite Hop.
  split_and!; try apply Hs; try apply Hc; try done.
  - intros id q Hq. by apply (pair_at_ok _ _ _ _ _ _ _ Hs) in Hq as (_ & _ & _ & _ & _ & ?).
  - unfold zlen. rewrite <- (length_fmap fst (peer_uni c)). by apply peer_ids_bound.
Qed.

(** Each stream of a connection is a stream of [QuicSendStream.v]: its send
    half is the state of an execution of [SendStream] whose frames in flight
    are exactly that stream's frames among those of the connection's packets,
    so every frame of every packet carries the stream's own bytes and nothing
    is stranded; and filling a packet never fails, whatever its budget. *)
Theorem conn_streams_simulate (local : LocalParamsInput) (p : transport.Params) (g : ghost)
    (Hcfg : config_ok local p) (Hg : reachable local p g) :
  (∀ id s, send_at (g_c g) id = Some s →
     ∃ lim sg, 0 ≤ lim < 2 ^ 62 ∧ send_stream.reachable lim sg ∧ send_stream.g_st sg = s ∧
       send_stream.g_inflight sg ≡ₚ flight_of id (g_flight g)) ∧
  (∀ budget start o fs congested, Forall unseen fs →
     ∃ f, fill_data_payload budget start (g_c g) o fs congested = Ok f).
Proof.
  destruct (reachable_good _ _ _ Hcfg Hg) as (Hs & Hc & _). split.
  - intros id s Hat. by apply (send_at_ok _ _ _ _ _ _ _ Hs) in Hat as (Htr & _).
  - intros budget start o fs congested Hfs.
    destruct (fill_good (g_flight g) (g_polled g) budget start (g_gone g) (g_gone_sent g) (g_c g) o fs congested)
      as (f & Hf & _); [|by exists f].
    split; [by apply shape_frames|done].
Qed.
End runs.

(** ** The size of a packet *)

Section size.
Context (budget start : nat).

(** The datagram is no longer than allowed. *)
Definition fits (f : Fill) : Prop := (start ≤ length (out f) ≤ start + budget)%nat.

Lemma emit_fits b sf c f :
  fits f → (length b ≤ room budget start f)%nat → fits (emit b sf (with_conn c f)).
Proof. unfold fits, room, emit. cbn. rewrite length_app. lia. Qed.

Lemma put_varint_le v : (length (put_varint v) ≤ 8)%nat.
Proof.
  unfold put_varint. repeat case_match; rewrite ?length_be_bytes; cbn; lia.
Qed.
Lemma put_varint_le4 v : v < 2 ^ 30 → (length (put_varint v) ≤ 4)%nat.
Proof.
  intros Hv. unfold put_varint. destruct (Z.leb_spec v 0x3f); [cbn; lia|].
  destruct (Z.leb_spec v 0x3fff); [rewrite length_be_bytes; lia|].
  destruct (Z.leb_spec v 0x3fffffff); [rewrite length_be_bytes; lia|lia].
Qed.
Lemma put_varint_le2 v : v < 2 ^ 14 → (length (put_varint v) ≤ 2)%nat.
Proof.
  intros Hv. unfold put_varint. destruct (Z.leb_spec v 0x3f); [cbn; lia|].
  destruct (Z.leb_spec v 0x3fff); [rewrite length_be_bytes; lia|lia].
Qed.

(** The sixteen bytes kept free hold the header of any STREAM frame. *)
Lemma put_stream_length id o fi d :
  id < 2 ^ 30 → zlen d < 2 ^ 14 → (length (frame.put_stream id o fi d) ≤ 16 + length d)%nat.
Proof.
  intros Hid Hd. unfold frame.put_stream. rewrite !length_app.
  pose proof (put_varint_le4 id Hid). pose proof (put_varint_le2 (zlen d) Hd). pose proof (put_varint_le o).
  set (kind := if fi then _ else _). assert (length (put_varint kind) = 1%nat) as ->.
  { unfold kind. by destruct (negb (o =? 0)), fi. }
  destruct (negb (o =? 0)); cbn [length]; lia.
Qed.

(** Identifiers that take at most four bytes. *)
Definition small (c : Streams) : Prop :=
  Forall (λ id, id < 2 ^ 30) (send_queue c) ∧ Forall (λ e, e.1 < 2 ^ 30) (local_uni c).

Lemma fill_max_data_fits f :
  fits f ∧ small (conn f) → fits (fill_max_data budget start f) ∧ small (conn (fill_max_data budget start f)).
Proof.
  intros [Hf Hs]. unfold fill_max_data. destruct (_ <=? _).
  all: match goal with |- context [if max_data_owed ?c1 && ?b then _ else _] =>
    destruct (max_data_owed c1 && b) eqn:Hb end; split; try exact Hs; try exact Hf.
  all: apply emit_fits; [exact Hf|]; apply andb_true_iff in Hb as [_ Hr%Nat.ltb_lt].
  all: unfold frame.put_max_data; rewrite length_app; change (length (put_varint frame.MAX_DATA)) with 1%nat.
  all: match goal with |- context [put_varint ?v] => pose proof (put_varint_le v) end; lia.
Qed.

Lemma fill_credit_fits todo f :
  fits f ∧ small (conn f) → fits (fill_credit budget start todo f) ∧ small (conn (fill_credit budget start todo f)).
Proof.
  revert f. induction todo as [|id todo IH]; intros f [Hf Hs]; [done|]. cbn [fill_credit].
  destruct (Nat.ltb_spec (room budget start f) 24); [done|].
  destruct (recv_mut _ id) as [[r put]|] eqn:Hm; [|by apply IH].
  destruct (recv_stream.size_known r); [by apply IH|].
  destruct (recv_stream.grant r _) as [limit r'] eqn:Hg. apply IH. split.
  - apply emit_fits; [exact Hf|]. unfold frame.put_max_stream_data. rewrite !length_app.
    pose proof (put_varint_le id). pose proof (put_varint_le limit).
    change (length (put_varint frame.MAX_STREAM_DATA)) with 1%nat. lia.
  - by apply recv_mut_inv in Hm as [(i & q & _ & _ & _ & ->)|(_ & i & _ & ->)].
Qed.

Lemma fill_retire_fits todo f :
  fits f ∧ small (conn f) → fits (fill_retire budget start todo f) ∧ small (conn (fill_retire budget start todo f)).
Proof.
  revert f. induction todo as [|seq todo IH]; intros f [Hf Hs]; [done|]. cbn [fill_retire].
  destruct (Nat.ltb_spec (room budget start f) 16); [done|]. apply IH. split; [|done].
  apply emit_fits; [exact Hf|]. unfold frame.put_retire_connection_id. rewrite length_app.
  pose proof (put_varint_le seq). change (length (put_varint frame.RETIRE_CONNECTION_ID)) with 1%nat. lia.
Qed.

Lemma fill_reset_fits todo f :
  fits f ∧ small (conn f) → fits (fill_reset budget start todo f) ∧ small (conn (fill_reset budget start todo f)).
Proof.
  revert f. induction todo as [|[[id e] n] todo IH]; intros f [Hf Hs]; [done|]. cbn [fill_reset].
  destruct (Nat.ltb_spec (room budget start f) 32); [done|]. apply IH. split; [|done].
  apply emit_fits; [exact Hf|]. unfold frame.put_reset_stream. rewrite !length_app.
  pose proof (put_varint_le id). pose proof (put_varint_le e). pose proof (put_varint_le n).
  change (length (put_varint frame.RESET_STREAM)) with 1%nat. lia.
Qed.

Context (Hbudget : Z.of_nat budget ≤ 2 ^ 14).

Lemma send_turn_fits f id s put f' :
  send_turn budget start f id s put = Ok f' → fits f → (16 ≤ room budget start f)%nat → id < 2 ^ 30 →
  fits f' ∧ ∃ s' k, conn f' = put s' ∨ conn f' = set_data_sent k (put s').
Proof.
  intros (next & Hn & Ht)%bind_Ok Hf Hroom Hid. destruct next as [[[o d] fi]|].
  - destruct (send_stream.on_sent _ _ _ _) as [n s']. apply Ok_inj in Ht as <-.
    split; [|cbn; eauto]. apply emit_fits; [exact Hf|].
    apply send_stream.next_send_bounds in Hn as [Hd _].
    assert (zlen d < 2 ^ 14) as Hz by (unfold zlen, room in *; lia).
    pose proof (put_stream_length id o fi d Hid Hz). lia.
  - apply Ok_inj in Ht as <-. split; [exact Hf|]. cbn. exists s, 0. by left.
Qed.

Lemma fill_uni_fits n i f f' :
  fill_uni budget start n i f = Ok f' → fits f ∧ small (conn f) → fits f' ∧ small (conn f').
Proof.
  revert i f. induction n as [|n IH]; intros i f Hu Hf; [by apply Ok_inj in Hu as <-|]. cbn [fill_uni] in Hu.
  destruct (Nat.ltb_spec (room budget start f) 16); [by apply Ok_inj in Hu as <-|].
  destruct (local_uni (conn f) !! i) as [[id s]|] eqn:Hi; [|done].
  apply bind_Ok in Hu as (f1 & Ht & Hu). apply IH in Hu; [done|]. destruct Hf as [Hf [Hs1 Hs2]].
  pose proof (Forall_lookup_1 _ _ _ _ Hs2 Hi) as Hid. cbn in Hid.
  apply send_turn_fits in Ht as [Hf1 (s' & k & Hc)]; [|done..]. split; [done|].
  destruct Hc as [->| ->]; (split; [done|]; by apply Forall_insert).
Qed.

Lemma queue_send_small id c : small c → id < 2 ^ 30 → small (queue_send id c).
Proof.
  intros [Hs1 Hs2] Hid. unfold queue_send. destruct (stream_index c id) as [i|]; [|done].
  destruct (slot c i) as [q|]; [|done]. destruct (queued q); [done|]. split; [|done].
  apply Forall_app_2; [done|]. by apply Forall_singleton.
Qed.

Lemma fill_streams_fits n f f' :
  fill_streams budget start n f = Ok f' → fits f ∧ small (conn f) → fits f' ∧ small (conn f').
Proof.
  revert f. induction n as [|n IH]; intros f Hu Hf; [by apply Ok_inj in Hu as <-|]. cbn [fill_streams] in Hu.
  destruct (Nat.ltb_spec (room budget start f) 16); [by apply Ok_inj in Hu as <-|].
  destruct (send_queue (conn f)) as [|id rest] eqn:Hq; [by apply Ok_inj in Hu as <-|].
  destruct Hf as [Hf [Hs1 Hs2]]. rewrite Hq in Hs1. apply Forall_cons in Hs1 as [Hid Hrest].
  assert (fits (with_conn (set_send_queue rest (conn f)) f) ∧ small (set_send_queue rest (conn f))) as Hf0 by done.
  set (f0 := with_conn (set_send_queue rest (conn f)) f) in *.
  destruct (stream_index (conn f0) id) as [i|]; [|by apply IH in Hu].
  destruct (slot (conn f0) i) as [q|]; [|by apply IH in Hu].
  apply bind_Ok in Hu as (f1 & Ht & Hu). apply IH in Hu; [done|].
  apply send_turn_fits in Ht as [Hf1 (s' & k & Hc)]; [|apply Hf0|done|done].
  assert (small (conn f1)) as Hsm by (destruct Hc as [->| ->]; done).
  destruct (match stream_index (conn f1) id with Some _ => _ | None => _ end); [|done].
  split; [exact Hf1|]. by apply queue_send_small.
Qed.

(** C29: A packet filled for the 1-RTT space never exceeds its budget, which is
    what keeps a datagram within 1200 bytes and the segments of a batch equal:
    whatever is queued, no frame is written that does not fit, as long as the
    streams queued have identifiers below 2^30 (2^28 requests on one connection)
    and the budget is at most 2^14 bytes. *)
Theorem fill_within_budget (c : Streams) (o : bytes) (fs : list recovery.SentFrame) (congested : bool) (f : Fill)
    (Ho : (start ≤ length o ≤ start + budget)%nat)
    (Hqueue : Forall (λ id, id < 2 ^ 30) (send_queue c)) (Huni : Forall (λ e, e.1 < 2 ^ 30) (local_uni c))
    (Hfill : fill_data_payload budget start c o fs congested = Ok f) :
  (start ≤ length (out f) ≤ start + budget)%nat.
Proof.
  unfold fill_data_payload in Hfill.
  assert (fits (mkFill c o fs false) ∧ small (conn (mkFill c o fs false))) as H0 by done.
  apply fill_max_data_fits, (fill_credit_fits (reverse (credit_pending (conn (fill_max_data budget start (mkFill c o fs false)))))) in H0.
  set (f2 := fill_credit _ _ _ _) in *. clearbody f2.
  apply (fill_retire_fits (reverse (retire_pending (conn f2)))) in H0.
  set (f3 := fill_retire _ _ _ _) in *. clearbody f3.
  apply (fill_reset_fits (reverse (reset_pending (conn f3)))) in H0.
  set (f4 := fill_reset _ _ _ _) in *. clearbody f4.
  destruct congested; [by apply Ok_inj in Hfill as <-; apply H0|].
  apply bind_Ok in Hfill as (f5 & Hu & Hfill). apply fill_uni_fits in Hu; [|done].
  by apply fill_streams_fits in Hfill as [? _].
Qed.
End size.

(** ** A concrete connection

    A control stream and two requests, one of them answered, retired and
    acknowledged, the other given up on after the peer stopped it. *)

#[local] Existing Instance recv_stream.insertion_sort.
#[local] Existing Instance recv_stream.insertion_sort_laws.

Definition sample_local : LocalParamsInput := mkLocalParamsInput 1000 100 3 30000 5000.
Definition sample_params : transport.Params :=
  transport.mkParams 30000 1200 1000 50 50 50 10 3 3 25 2 None None None None.

Lemma sample_config : config_ok sample_local sample_params.
Proof. vm_compute. repeat split; done. Qed.

Definition sample_run : list op :=
  [OpenUni; Oneshot [1; 2; 3]; Oneshot [4; 5]; Finish 2; FillPacket 1200 0 [] [] false;
   GotStream 0 0 [9; 9] true; GotStream 3 0 [7] false; Poll; Consume 0 (λ _, Ok tt);
   Retire 0 256; FrameAcked 1; FrameLost 1; GotStopSending 4 268; Retire 4 256;
   FillPacket 1200 0 [] [] false].

Definition sample_ghost : ghost := foldl step (begin sample_local sample_params) sample_run.

Lemma conn_sample_reachable : reachable sample_local sample_params sample_ghost.
Proof.
  unfold sample_ghost, sample_run. cbn [foldl]. repeat (apply reach_step; [|try done; by repeat constructor]).
  apply reach_begin.
Qed.

Lemma conn_no_lost_wakeup_witness :
  let c := g_c sample_ghost in
  send_queue c = [] ∧
  NoDup (send_queue c) ∧
  (∀ id q, pair_at c id = Some q → send_stream.has_pending (send q) = true → id ∈ send_queue c) ∧
  (∀ id r, recv_at c id = Some r → recv_stream.wants_credit r (stream_window c) = true →
     id ∈ credit_pending c) ∧
  (∀ id s, send_at c id = Some s → send_stream.is_reset s = true →
     send_stream.reset_acked s = true ∨ resetting (g_flight sample_ghost) (reset_pending c) id (spent s)).
Proof.
  split; [vm_compute; reflexivity|].
  apply (conn_no_lost_wakeup sample_local sample_params sample_ghost); [apply sample_config|apply conn_sample_reachable].
Defined.

Lemma conn_retired_drain_witness :
  let c := g_c sample_ghost in
  base_stream c = 1 ∧ g_flight sample_ghost = [recovery.Stream 2 0 0 true; recovery.ResetStream 4 268 2] ∧
  (∀ id q, pair_at c id = Some q → retired q = true →
     id ∈ send_queue c ∨ flight_of id (g_flight sample_ghost) ≠ [] ∨
     ∃ n, resetting (g_flight sample_ghost) (reset_pending c) id n) ∧
  (g_flight sample_ghost = [] → send_queue c = [] → reset_pending c = [] →
     ∀ id q, pair_at c id = Some q → retired q = false).
Proof.
  split; [vm_compute; reflexivity|]. split; [vm_compute; reflexivity|].
  apply (conn_retired_drain sample_local sample_params sample_ghost); [apply sample_config|apply conn_sample_reachable].
Defined.

Lemma conn_flow_control_witness :
  let c := g_c sample_ghost in
  data_sent c = 5 ∧ data_received c = 3 ∧
  data_sent c = g_gone_sent sample_ghost + total_spent c ∧ data_sent c ≤ max_data_peer c ∧
  data_received c = g_gone sample_ghost + total_received c ∧ data_received c ≤ max_data_local c ∧
  u64 (max_data_local c - data_received c) = max_data_local c - data_received c ∧
  max_data_local c - data_received c ≤ max_data_window c ∧
  (∀ id s, send_at c id = Some s → 0 ≤ spent s ≤ send_stream.limit s) ∧
  (∀ id r, recv_at c id = Some r → 0 ≤ recv_stream.received r ≤ recv_stream.max_data r).
Proof.
  split; [vm_compute; reflexivity|]. split; [vm_compute; reflexivity|].
  apply (conn_flow_control sample_local sample_params sample_ghost); [apply sample_config|apply conn_sample_reachable].
Defined.

Lemma conn_streams_end_once_witness :
  let c := g_c sample_ghost in
  let log := logged (g_polled sample_ghost) c in
  log = [Readable 0; Finished 0 None; Opened 3; Readable 3; Stopped 4] ∧ unanswered c = 0 ∧
  NoDup (omap ended_id log) ∧ Forall (request_id (next_bidi c)) (omap ended_id log) ∧
  (∀ id q, pair_at c id = Some q → id ∈ omap ended_id log → finished q = true) ∧
  unanswered c = open_count c ∧ next_bidi c ≤ max_streams_bidi c ∧
  NoDup (omap opened_id log) ∧ omap opened_id log = (peer_uni c).*1 ∧
  Forall (peer_id (max_peer_uni c)) (omap opened_id log) ∧
  zlen (peer_uni c) ≤ Z.max 0 (max_peer_uni c).
Proof.
  split; [vm_compute; reflexivity|]. split; [vm_compute; reflexivity|].
  apply (conn_streams_end_once sample_local sample_params sample_ghost); [apply sample_config|apply conn_sample_reachable].
Defined.

Lemma conn_streams_simulate_witness :
  (∀ id s, send_at (g_c sample_ghost) id = Some s →
     ∃ lim sg, 0 ≤ lim < 2 ^ 62 ∧ send_stream.reachable lim sg ∧ send_stream.g_st sg = s ∧
       send_stream.g_inflight sg ≡ₚ flight_of id (g_flight sample_ghost)) ∧
  (∀ budget start o fs congested, Forall unseen fs →
     ∃ f, fill_data_payload budget start (g_c sample_ghost) o fs congested = Ok f).
Proof.
  apply (conn_streams_simulate sample_local sample_params sample_ghost); [apply sample_config|apply conn_sample_reachable].
Defined.

(** Two requests waiting, in a packet of forty bytes. *)
Definition sample_waiting : Streams :=
  g_c (foldl step (begin sample_local sample_params)
         [Oneshot [1; 2; 3; 4; 5; 6; 7; 8; 9; 10; 11; 12; 13; 14; 15; 16; 17; 18; 19; 20]; Oneshot [1; 2; 3]]).

Lemma fill_within_budget_witness :
  ∃ f, fill_data_payload 40 0 sample_waiting [] [] false = Ok f ∧ length (out f) = 27%nat ∧
    (0 ≤ length (out f) ≤ 0 + 40)%nat.
Proof.
  eexists. split; [vm_compute; reflexivity|]. split; [vm_compute; reflexivity|].
  apply (fill_within_budget 40 0 ltac:(lia) sample_waiting [] [] false); [cbn; lia|by_decide..|vm_compute; reflexivity].
Defined.

(** [retire] promises that nothing more is reported about the stream, but a
    request that was sent in full stays in the ring until it is acknowledged,
    and a STOP_SENDING that arrives meanwhile is reported. *)
Lemma stopped_after_retire :
  let c := g_c (foldl step (begin sample_local sample_params)
    [Oneshot [1; 2; 3]; FillPacket 1200 0 [] [] false; GotStream 0 0 [9; 9] true; Retire 0 256]) in
  (retired <$> pair_at c 0) = Some true ∧ events c = [Readable 0; Finished 0 None] ∧
  events (on_stop_sending c 0 268) = [Readable 0; Finished 0 None; Stopped 0].
Proof. vm_compute. repeat split. Qed.
End conn_streams_run.
