(* ===== verification/QuicConn.v ===== *)
(** * The QUIC connection — [src/quic/conn.rs], [src/quic/crypto.rs]

    [Connection] without its stream tables, which are [QuicStreams]: the three
    packet number spaces with their keys, numbers, acknowledgements, packets in
    flight and handshake bytes; building a datagram ([poll_transmit],
    [write_packet], [fill_payload]); reading one ([handle_datagram],
    [handle_packet], [handle_frame]); acknowledgement and loss; connection ids,
    Retry and version negotiation; the timers; closing.

    rustls and ring are third-party code: the TLS handshake, the keys and the
    AEAD are the parameters of the class [Rustls].  Random connection ids are
    arguments of [connect].  Instants and durations are nanoseconds.

    The pooled vectors ([spare_bufs], [ack_ranges], [acked], [spare_frames])
    only keep capacity and are left out.  [handle_datagram] decrypts in place;
    a packet's writes stay inside the packet, and the next one starts behind
    it, so the model reads each packet from the datagram as it arrived.  When
    [poll_transmit] fails the half-built datagram is not part of the result. *)

From S2P Require Import Prelude Effects Varint QuicFrame QuicAck QuicReceived QuicPacket QuicHeader QuicTransport QuicRecvStream QuicSendStream QuicRecovery QuicStreams.
From stdpp Require Import pretty.
#[local] Open Scope Z_scope.

(** ** The cryptography the connection calls *)

(** [rustls::quic::DirectionalKeys], [Keys], [PacketKeySet], [KeyChange] *)
Record DirectionalKeys (HK PK : Type) := mkDirectionalKeys { header_key : HK; packet_key : PK }.
Arguments mkDirectionalKeys {HK PK} _ _.
Arguments header_key {HK PK} _.
Arguments packet_key {HK PK} _.

Record Keys (HK PK : Type) := mkKeys {
  keys_local : DirectionalKeys HK PK;
  keys_remote : DirectionalKeys HK PK;
}.
Arguments mkKeys {HK PK} _ _.
Arguments keys_local {HK PK} _.
Arguments keys_remote {HK PK} _.

Record PacketKeySet (PK : Type) := mkPacketKeySet { set_local : PK; set_remote : PK }.
Arguments mkPacketKeySet {PK} _ _.
Arguments set_local {PK} _.
Arguments set_remote {PK} _.

Inductive KeyChange (HK PK SE : Type) : Type :=
| KcHandshake (keys : Keys HK PK)
| KcOneRtt (keys : Keys HK PK) (next : SE).
Arguments KcHandshake {HK PK SE} _.
Arguments KcOneRtt {HK PK SE} _ _.

(** [write_hs] returns the bytes it appends; [read_hs] the text of its error;
    [decrypt] the plaintext; [encrypt] the ciphertext and the tag.  [flights]
    bounds how often [write_hs] still has something to hand out. *)
Class Rustls := {
  HeaderKey : Type;
  PacketKey : Type;
  Secrets : Type;
  ClientConnection : Type;
  header_protection :: packet.HeaderProtectionKey HeaderKey;
  encrypt : PacketKey → Z → bytes → bytes → result string (bytes * bytes);
  decrypt : PacketKey → Z → bytes → bytes → option bytes;
  client_new : string → bytes → option (result string ClientConnection);
  write_hs : ClientConnection →
    option (KeyChange HeaderKey PacketKey Secrets) * bytes * ClientConnection;
  read_hs : ClientConnection → bytes → result string unit * ClientConnection;
  alert : ClientConnection → option Z;
  quic_transport_parameters : ClientConnection → option bytes;
  next_packet_keys : Secrets → PacketKeySet PacketKey * Secrets;
  flights : ClientConnection → nat;
  tls13_aes_128_gcm_sha256 : option (option (bytes → Keys HeaderKey PacketKey));
  aes_128_gcm_tag : bytes → bytes → bytes → option bytes;
}.

Module connection.
Import packet.
Abbreviation Event := conn_streams.Event.
Abbreviation Streams := conn_streams.Streams.
Abbreviation conn_error := conn_streams.conn_error.
Abbreviation Anyhow := conn_streams.Anyhow.
Abbreviation Recv := conn_streams.Recv.
Abbreviation RecvStream := recv_stream.RecvStream.
Abbreviation LocalParamsInput := conn_streams.LocalParamsInput.

Definition MIN_INITIAL_DATAGRAM : nat := 1200.
Definition MAX_DATAGRAM : nat := 1200.
Definition TAG_LEN : nat := 16.
Definition ACK_DELAY_EXPONENT : Z := 3.

(** [Generation], [generation_for] *)
Inductive Generation := Current | Next | Previous.

#[global] Instance Generation_eq_dec : EqDecision Generation.
Proof. solve_decision. Defined.

Definition generation_for (phase key_phase : bool) (pn rotate_at : Z) : Generation :=
  if Bool.eqb phase key_phase then Current
  else if pn <? rotate_at then Previous
  else Next.

(** [Close] *)
Record Close := mkClose { close_code : Z; close_reason : bytes; close_app : bool }.

(** [PeerCid] *)
Record PeerCid := mkPeerCid { pc_seq : Z; pc_cid : ConnectionId; pc_token : option bytes }.

#[global] Instance PeerCid_eq_dec : EqDecision PeerCid.
Proof. solve_decision. Defined.

Section connection.
Context `{RT : Rustls} `{ST : UnstableSort (Z * bytes)}.

Abbreviation DirKeys := (DirectionalKeys HeaderKey PacketKey).
Abbreviation SpaceKeys := (Keys HeaderKey PacketKey).

(** [SpaceState] *)
Record SpaceState := mkSpaceState {
  keys : option SpaceKeys;
  next_packet_number : Z;
  largest_received : option Z;
  received : received.ReceivedPackets;
  ack : ack.AckState;
  sent : recovery.SentPackets;
  loss_deadline : option Z;
  crypto_out : bytes;
  crypto_sent : nat;
  crypto_in : RecvStream;
}.

#[global] Instance SpaceState_eta : Eta SpaceState := λ s,
  mkSpaceState (keys s) (next_packet_number s) (largest_received s) (received s) (ack s) (sent s)
    (loss_deadline s) (crypto_out s) (crypto_sent s) (crypto_in s).

Definition space_default : SpaceState :=
  mkSpaceState None 0 None received.default ack.default recovery.sent_default None [] 0
    recv_stream.default.

(** [Connection]; [spaces] is the array of three, [st] the fields of
    [QuicStreams]. *)
Record Connection := mkConnection {
  tls : ClientConnection;
  space_initial : SpaceState;
  space_handshake : SpaceState;
  space_data : SpaceState;
  one_rtt_local : option DirKeys;
  one_rtt_remote : option DirKeys;
  secrets : option Secrets;
  next_1rtt : option (PacketKeySet PacketKey);
  prev_1rtt_remote : option PacketKey;
  key_phase : bool;
  original_dcid : ConnectionId;
  retry_token : bytes;
  retried : bool;
  retry_scid : option ConnectionId;
  server_initial_seen : bool;
  rotate_at : Z;
  local_cid : ConnectionId;
  peer_cid : ConnectionId;
  peer_cid_seq : Z;
  peer_cids : list PeerCid;
  retire_prior_to : Z;
  local_idle_ms : Z;
  handshake_timeout_ms : Z;
  sent_since_recv : bool;
  next_keepalive : option Z;
  keepalive_pending : bool;
  handshake_done : bool;
  handshake_acked : bool;
  connected : bool;
  closed : option string;
  close_pending : option Close;
  rtt : recovery.Rtt;
  rtt_sampled_at : option Z;
  congestion : recovery.Congestion;
  pto_count : Z;
  pto_probes : Z;
  pto_space : Space;
  idle_deadline : option Z;
  path_response : option bytes;
  st : Streams;
}.

#[global] Instance Connection_eta : Eta Connection := λ c,
  mkConnection (tls c) (space_initial c) (space_handshake c) (space_data c) (one_rtt_local c)
    (one_rtt_remote c) (secrets c) (next_1rtt c) (prev_1rtt_remote c) (key_phase c)
    (original_dcid c) (retry_token c) (retried c) (retry_scid c) (server_initial_seen c)
    (rotate_at c) (local_cid c) (peer_cid c) (peer_cid_seq c) (peer_cids c) (retire_prior_to c)
    (local_idle_ms c) (handshake_timeout_ms c) (sent_since_recv c) (next_keepalive c)
    (keepalive_pending c) (handshake_done c) (handshake_acked c) (connected c) (closed c)
    (close_pending c) (rtt c) (rtt_sampled_at c) (congestion c) (pto_count c) (pto_probes c)
    (pto_space c) (idle_deadline c) (path_response c) (st c).

Abbreviation M := (eff Connection conn_error).
Definition bail_m {A} (msg : string) : M A := lift (conn_streams.bail_conn msg).
Definition panic_m {A} (msg : string) : M A := lift (Err (Anyhow (Panic msg))).
Definition lift_res {A} (r : res A) : M A := lift (conn_streams.of_res r).

(** [self.spaces[space as usize]], and an assignment through it *)
Definition space_of (c : Connection) (space : Space) : SpaceState :=
  match space with
  | Initial => space_initial c
  | Handshake => space_handshake c
  | Data => space_data c
  end.
Definition set_space (space : Space) (s : SpaceState) (c : Connection) : Connection :=
  match space with
  | Initial => c <| space_initial := s |>
  | Handshake => c <| space_handshake := s |>
  | Data => c <| space_data := s |>
  end.
Definition on_space (space : Space) (f : SpaceState → SpaceState) (c : Connection) : Connection :=
  set_space space (f (space_of c space)) c.

(** The fields of [Connection] that [QuicStreams] holds *)
Definition on_st (f : Streams → Streams) (c : Connection) : Connection := c <| st := f (st c) |>.
Definition params (c : Connection) : transport.Params := conn_streams.params (st c).
Definition need_send : Connection → Connection := on_st (conn_streams.set_needs_send true).
Definition push_event (e : Event) : Connection → Connection := on_st (conn_streams.push_event e).
Definition max_ack_delay (c : Connection) : Z := transport.max_ack_delay_ms (params c) * 1000000.

(** ** Keys *)

(** [initial_suite], [initial_keys] *)
Definition initial_keys (dcid : bytes) : res SpaceKeys :=
  suite ← ok_or "TLS13_AES_128_GCM_SHA256 is not a TLS 1.3 suite" tls13_aes_128_gcm_sha256;
  quic ← ok_or "the initial cipher suite has no QUIC algorithm" suite;
  Ok (quic dcid).

(** [retry_tag_is_valid] *)
Definition RETRY_KEY : bytes :=
  [0xbe; 0x0c; 0x69; 0x0b; 0x9f; 0x66; 0x57; 0x5a; 0x1d; 0x76; 0x6b; 0x54; 0xe3; 0x68; 0xc8; 0x4e].
Definition RETRY_NONCE : bytes :=
  [0x46; 0x15; 0x99; 0xd3; 0x5d; 0x63; 0x2b; 0xf2; 0x23; 0x98; 0x25; 0xbb].
Definition retry_tag_is_valid (original_dcid : ConnectionId) (packet : bytes) : bool :=
  if (length packet <? TAG_LEN)%nat then false
  else
    let body_len := (length packet - TAG_LEN)%nat in
    let body := take body_len packet in
    let tag := drop body_len packet in
    let pseudo := u8 (Z.of_nat (len original_dcid)) :: as_slice original_dcid ++ body in
    match aes_128_gcm_tag RETRY_KEY RETRY_NONCE pseudo with
    | Some computed => bytes_eqb computed tag
    | None => false
    end.

(** [local_keys], [remote_keys], [highest_space] *)
Definition local_keys (c : Connection) (space : Space) : option DirKeys :=
  match space with
  | Data => one_rtt_local c
  | other => keys_local <$> keys (space_of c other)
  end.
Definition remote_keys (c : Connection) (space : Space) : option DirKeys :=
  match space with
  | Data => one_rtt_remote c
  | other => keys_remote <$> keys (space_of c other)
  end.
Definition has_keys (c : Connection) (space : Space) : bool :=
  match keys (space_of c space) with Some _ => true | None => false end.
Definition highest_space (c : Connection) : Space :=
  match one_rtt_local c with
  | Some _ => Data
  | None => if has_keys c Handshake then Handshake else Initial
  end.

(** [rotate_keys] *)
Definition rotate_keys (at' : Z) (phase : bool) (c : Connection) : Connection :=
  match next_1rtt c with
  | None => c
  | Some next =>
      let c := c <| next_1rtt := None |> in
      let old := packet_key <$> one_rtt_remote c in
      let c := c <| one_rtt_remote :=
        (λ r, mkDirectionalKeys (header_key r) (set_remote next)) <$> one_rtt_remote c |> in
      let c := c <| prev_1rtt_remote := old |> in
      let c := c <| one_rtt_local :=
        (λ l, mkDirectionalKeys (header_key l) (set_local next)) <$> one_rtt_local c |> in
      let c := c <| key_phase := phase |> <| rotate_at := at' |> in
      match secrets c with
      | Some s =>
          let '(k, s) := next_packet_keys s in
          c <| secrets := Some s |> <| next_1rtt := Some k |>
      | None => c
      end
  end.

(** [discard_space] *)
Definition discard_space (space : Space) (c : Connection) : Connection :=
  let c := on_space space (λ s,
    s <| keys := None |> <| received := received.default |> <| ack := ack.default |>
      <| sent := recovery.sent_default |> <| loss_deadline := None |> <| crypto_out := [] |>
      <| crypto_sent := 0%nat |> <| crypto_in := recv_stream.default |>) c in
  c <| pto_count := 0 |> <| pto_probes := 0 |>.

(** [lose], [close], [close_transport] *)
Definition lose (why : string) (c : Connection) : Connection :=
  match closed c with
  | None => push_event (conn_streams.Lost why) (c <| closed := Some why |>)
  | Some _ => c
  end.
Definition close (code : Z) (reason : bytes) (c : Connection) : Connection :=
  match closed c with
  | None => c <| close_pending := Some (mkClose code reason true) |>
              <| closed := Some "closed locally"%string |>
  | Some _ => c
  end.
Definition close_transport (code : Z) (why : string) (c : Connection) : Connection :=
  match closed c with
  | None => lose why (c <| close_pending := Some (mkClose code [] false) |>)
  | Some _ => c
  end.

(** ** The peer's transport parameters *)

Definition find_seq (seq : Z) (l : list PeerCid) : option (nat * PeerCid) :=
  list_find (λ p, pc_seq p = seq) l.

(** [validate_server_params] *)
Definition validate_server_params (c : Connection) : result conn_error unit :=
  let handshake_scid := (λ e, pc_cid e.2) <$> find_seq 0 (peer_cids c) in
  if negb (bool_decide (transport.initial_source_connection_id (params c) = handshake_scid)) then
    conn_streams.bail_conn
      "the server's initial_source_connection_id is not the one its Initial carried"
  else if negb (bool_decide
      (transport.original_destination_connection_id (params c) = Some (original_dcid c))) then
    conn_streams.bail_conn
      "the server's original_destination_connection_id is not the one our Initial carried"
  else if negb (bool_decide (transport.retry_source_connection_id (params c) = retry_scid c)) then
    conn_streams.bail_conn "the server's retry_source_connection_id does not match the Retry"
  else Ok tt.

(** [take_peer_params] *)
Definition take_peer_params : M unit :=
  c ← get;
  match quic_transport_parameters (tls c) with
  | None => bail_m "the server sent no transport parameters"
  | Some raw =>
      p ← lift_res (transport.decode raw);
      _ ← modify (on_st (conn_streams.set_params p));
      c ← get;
      _ ← lift (validate_server_params c);
      _ ← modify (on_st (λ s,
            conn_streams.set_max_streams_bidi (transport.initial_max_streams_bidi p)
              (conn_streams.set_max_data_peer (transport.initial_max_data p) s)));
      modify (λ c,
        match find_seq 0 (peer_cids c) with
        | Some (i, e) =>
            c <| peer_cids := <[i := mkPeerCid (pc_seq e) (pc_cid e)
                                      (transport.stateless_reset_token p)]> (peer_cids c) |>
        | None => c
        end)
  end.

(** [pump_tls]; each turn but the last uses up one of [flights] *)
Fixpoint pump_loop (fuel : nat) : M unit :=
  match fuel with
  | O => panic_m "out of fuel"
  | S fuel' =>
      c ← get;
      let space := if has_keys c Handshake then Handshake else Initial in
      let '(change, produced, t) := write_hs (tls c) in
      _ ← modify (λ c, on_space space (λ s, s <| crypto_out := crypto_out s ++ produced |>)
                         (c <| tls := t |>));
      match change with
      | Some (KcHandshake k) =>
          _ ← modify (on_space Handshake (λ s, s <| keys := Some k |>));
          _ ← modify need_send;
          pump_loop fuel'
      | Some (KcOneRtt k next) =>
          _ ← take_peer_params;
          _ ← modify (λ c,
                let c := c <| one_rtt_local := Some (keys_local k) |>
                           <| one_rtt_remote := Some (keys_remote k) |> in
                let '(ks, s) := next_packet_keys next in
                push_event conn_streams.Connected
                  (c <| next_1rtt := Some ks |> <| secrets := Some s |> <| connected := true |>));
          _ ← modify need_send;
          pump_loop fuel'
      | None =>
          if (length produced =? 0)%nat then mret tt
          else _ ← modify need_send; pump_loop fuel'
      end
  end.
Definition pump_tls : M unit := c ← get; pump_loop (S (flights (tls c))).

(** [connect]; [local] and [dcid] are the bytes of the two random ids *)
Definition connect (rnd_local rnd_dcid : bytes) (server_name : string) (local : LocalParamsInput)
    : res Connection :=
  let local_cid := cid_random rnd_local in
  let initial_dcid := cid_random rnd_dcid in
  let p := transport.mkLocalParams (conn_streams.li_initial_max_data local)
             (conn_streams.li_initial_max_stream_data local)
             (conn_streams.li_initial_max_stream_data local)
             (conn_streams.li_initial_max_streams_uni local)
             (conn_streams.li_max_idle_timeout_ms local) (Z.of_nat MAX_DATAGRAM) local_cid in
  t ← ok_or "the server name is not a valid DNS name" (client_new server_name (transport.encode p));
  t ← match t with Ok t => Ok t | Err _ => bail "starting the TLS handshake" end;
  k ← initial_keys (as_slice initial_dcid);
  Ok (mkConnection t (space_default <| keys := Some k |>) space_default space_default
        None None None None None false initial_dcid [] false None false 0 local_cid initial_dcid 0 []
        0 (conn_streams.li_max_idle_timeout_ms local) (conn_streams.li_handshake_timeout_ms local)
        false None false false false false None None recovery.rtt_default None
        recovery.congestion_default 0 0 Initial None None (conn_streams.connect local)).

(** ** Timers *)

(** [idle_timeout], [arm_idle], [note_received], [note_sent] *)
Definition idle_timeout (c : Connection) : option Z :=
  if negb (connected c) then Some (handshake_timeout_ms c * 1000000)
  else
    let peer := transport.max_idle_timeout_ms (params c) in
    let local := local_idle_ms c in
    if (local =? 0) && (peer =? 0) then None
    else
      let ms := if local =? 0 then peer else if peer =? 0 then local else Z.min local peer in
      let floor := recovery.pto (rtt c) (max_ack_delay c) * 3 in
      Some (Z.max (ms * 1000000) floor).
Definition arm_idle (now : Z) (c : Connection) : Connection :=
  if negb (connected c) && match idle_deadline c with Some _ => true | None => false end then c
  else
    let timeout := idle_timeout c in
    c <| idle_deadline := (λ t, now + t) <$> timeout |>
      <| next_keepalive := (λ t, now + t / 2) <$> timeout |>.
Definition note_received (now : Z) (c : Connection) : Connection :=
  arm_idle now (c <| sent_since_recv := false |>).
Definition note_sent (now : Z) (c : Connection) : Connection :=
  if sent_since_recv c then c
  else
    let c := c <| sent_since_recv := true |> in
    if connected c then arm_idle now c else c.

(** [keepalive_deadline], [pto_fallback] *)
Definition keepalive_deadline (c : Connection) : option Z :=
  if negb (connected c) || (conn_streams.unanswered (st c) =? 0) then None else next_keepalive c.
Definition pto_fallback (c : Connection) : option Space :=
  if handshake_done c || handshake_acked c then None
  else Some (if has_keys c Handshake then Handshake else Initial).

(** [min] of an iterator of instants *)
Definition min_option (l : list Z) : option Z :=
  foldl (λ m x, Some (match m with Some y => Z.min y x | None => x end)) None l.

(** [Connection::loss_deadline] *)
Definition loss_deadline_of (c : Connection) : option Z :=
  min_option (omap loss_deadline [space_initial c; space_handshake c; space_data c]).
Definition pto_due (c : Connection) : option (Space * Z) :=
  recovery.pto_deadline (sent (space_initial c)) (sent (space_handshake c)) (sent (space_data c))
    (rtt c) (max_ack_delay c) (pto_count c) (pto_fallback c).

(** [poll_timeout] *)
Definition poll_timeout (c : Connection) : option Z :=
  match closed c with
  | Some _ => None
  | None =>
      let recovery := match loss_deadline_of c with
                      | Some at' => Some at'
                      | None => snd <$> pto_due c
                      end in
      min_option (omap id [recovery; idle_deadline c; keepalive_deadline c])
  end.

(** ** Acknowledgement and loss *)

(** [on_frame_acked]: only the streams care *)
Definition on_frame_acked (f : recovery.SentFrame) : Connection → Connection :=
  on_st (λ s, conn_streams.on_frame_acked s f).

(** [on_frame_lost] *)
Definition on_frame_lost (space : Space) (f : recovery.SentFrame) (c : Connection) : Connection :=
  match f with
  | recovery.Crypto offset _ =>
      on_space space (λ s, s <| crypto_sent := Nat.min (crypto_sent s) (Z.to_nat offset) |>) c
  | _ => on_st (λ s, conn_streams.on_frame_lost s f) c
  end.

(** The last loop of [on_lost_packets]: whether persistent congestion is
    declared.  [first] is the packet the current run starts with, [previous]
    the last number seen. *)
Fixpoint persistent_loop (lost : list recovery.SentPacket) (sampled_at duration : Z)
    (first : option recovery.SentPacket) (previous : option Z) : bool :=
  match lost with
  | [] => false
  | p :: rest =>
      let first := match previous with
                   | Some n => if recovery.number p =? u64 (n + 1) then first else None
                   | None => first
                   end in
      if negb (recovery.ack_eliciting p) || (recovery.time_sent p <? sampled_at)
      then persistent_loop rest sampled_at duration first (Some (recovery.number p))
      else
        let start := match first with Some s => s | None => p end in
        if duration <? Z.max 0 (recovery.time_sent p - recovery.time_sent start) then true
        else persistent_loop rest sampled_at duration (Some start) (Some (recovery.number p))
  end.

(** [on_lost_packets] *)
Definition lose_packet (space : Space) (now : Z) (c : Connection) (p : recovery.SentPacket) : Connection :=
  let c := c <| congestion := recovery.on_loss (congestion c) (recovery.time_sent p) now |> in
  foldl (λ c f, on_frame_lost space f c) c (recovery.frames p).
Definition on_lost_packets (space : Space) (lost : list recovery.SentPacket) (now : Z)
    (c : Connection) : Connection :=
  let c := foldl (lose_packet space now) c lost in
  match rtt_sampled_at c with
  | None => c
  | Some sampled_at =>
      let duration := recovery.persistent_congestion_duration (rtt c) (max_ack_delay c) in
      if persistent_loop lost sampled_at duration None None
      then c <| congestion := recovery.on_persistent_congestion (congestion c) |>
      else c
  end.

(** [detect_lost] in one space, and what follows from it *)
Definition detect_space (space : Space) (now loss_delay : Z) (c : Connection)
    : bool * Connection :=
  let '(s, lost, deadline) := recovery.detect_lost (sent (space_of c space)) now loss_delay in
  let c := on_space space (λ ss, ss <| sent := s |>) c in
  let c := on_lost_packets space lost now c in
  (negb (length lost =? 0)%nat, on_space space (λ ss, ss <| loss_deadline := deadline |>) c).

(** One packet of an acknowledgement *)
Definition ack_packet (space : Space) (c : Connection) (p : recovery.SentPacket) : Connection :=
  let c := match recovery.ack_largest p with
           | Some largest => on_space space (λ s, s <| ack := ack.trim_below (ack s) largest |>) c
           | None => c
           end in
  foldl (λ c f, on_frame_acked f c) c (recovery.frames p).

(** The round-trip sample an acknowledgement gives *)
Definition sample_rtt (largest delay now : Z) (acked : list recovery.SentPacket) (c : Connection)
    : Connection :=
  match list_find (λ p, recovery.number p = largest) acked with
  | Some (_, newest) =>
      if recovery.ack_eliciting newest then
        let sample := Z.max 0 (now - recovery.time_sent newest) in
        let delay := u64 (Z.shiftl delay (transport.ack_delay_exponent (params c))) * 1000 in
        let c := c <| rtt := recovery.update (rtt c) sample delay (max_ack_delay c) |> in
        match rtt_sampled_at c with
        | None => c <| rtt_sampled_at := Some now |>
        | Some _ => c
        end
      else c
  | None => c
  end.

(** [on_ack] *)
Definition on_ack (space : Space) (largest delay first_range : Z) (ranges : bytes) (now : Z)
    (c : Connection) : Connection :=
  let '(s, acked) := recovery.drain_acked (sent (space_of c space))
                       (frame.ack_ranges largest first_range ranges) [] in
  let c := on_space space (λ ss, ss <| sent := s |>) c in
  match acked with
  | [] => c
  | _ :: _ =>
      let c := if decide (space = Handshake) then c <| handshake_acked := true |> else c in
      let c := sample_rtt largest delay now acked c in
      let bytes := foldl (λ n p, n + recovery.size p) 0 acked in
      let c := foldl (ack_packet space) c acked in
      let c := match recovery.max_option (recovery.time_sent <$> acked) with
               | Some t => c <| congestion := recovery.on_ack (congestion c) bytes t |>
               | None => c
               end in
      let '(lost, c) := detect_space space now (recovery.loss_delay (rtt c)) c in
      if lost then need_send c else c
  end.

(** [handle_timeout] *)
Definition handle_timeout (now : Z) (c : Connection) : Connection :=
  if match idle_deadline c with Some d => d <=? now | None => false end then
    lose (if connected c then "the connection went idle"
          else "the handshake did not finish within the connect timeout")
      (c <| idle_deadline := None |>)
  else if match keepalive_deadline c with Some d => d <=? now | None => false end then
    need_send (c <| keepalive_pending := true |>
                 <| next_keepalive := (λ t, now + t / 2) <$> idle_timeout c |>)
  else
    match loss_deadline_of c with
    | Some at' =>
        if now <? at' then c
        else
          let loss_delay := recovery.loss_delay (rtt c) in
          need_send (foldl (λ c space, snd (detect_space space now loss_delay c)) c ALL)
    | None =>
        match pto_due c with
        | Some (space, at') =>
            if now <? at' then c
            else
              let c := on_space space (λ s, s <| crypto_sent := 0%nat |>) c in
              need_send (c <| pto_count := u32 (pto_count c + 1) |> <| pto_probes := 2 |>
                           <| pto_space := space |>)
        | None => c
        end
    end.

(** ** Sending *)

(** [Filled], with the datagram and the frames [fill_payload] writes *)
Record Filled := mkFilled {
  fl_out : bytes;
  fl_frames : list recovery.SentFrame;
  fl_ack_eliciting : bool;
  fl_ack_largest : option Z;
}.

Section payload.
Context (space : Space) (now : Z) (budget start : nat).

(** The closure [room] *)
Definition room_in (out : bytes) : nat := (budget - (length out - start))%nat.

(** The ACK frame *)
Definition fill_ack (out : bytes) : M (bytes * option Z) :=
  c ← get;
  let a := ack (space_of c space) in
  if ack.ack_eliciting_pending a && (32 <? room_in out)%nat then
    let delay := ack.delay a now ACK_DELAY_EXPONENT in
    let largest := snd <$> head (ack.ranges a) in
    b ← lift_res (frame.put_ack (ack.ranges a) delay);
    _ ← modify (on_space space (λ s, s <| ack := snd (ack.take_pending (ack s)) |>));
    mret (out ++ b, largest)
  else mret (out, None).

(** The PATH_RESPONSE frame *)
Definition fill_path_response (out : bytes) : M (bytes * bool) :=
  c ← get;
  if decide (space = Data) then
    match path_response c with
    | Some data =>
        _ ← modify (λ c, c <| path_response := None |>);
        if (9 <? room_in out)%nat then mret (out ++ frame.put_path_response data, true)
        else mret (out, false)
    | None => mret (out, false)
    end
  else mret (out, false).

(** The CONNECTION_CLOSE frame: [None] when there is none to send here *)
Definition put_close_frame (close : Close) : bytes :=
  if close_app close then
    if decide (space = Data) then frame.put_close (close_code close) (close_reason close)
    else frame.put_transport_close frame.APPLICATION_ERROR
  else frame.put_transport_close (close_code close).
Definition fill_close (out : bytes) : M (option bytes) :=
  c ← get;
  if decide (space = highest_space c) then
    match close_pending c with
    | Some close =>
        _ ← modify (λ c, c <| close_pending := None |>);
        mret (Some (out ++ put_close_frame close))
    | None => mret None
    end
  else mret None.

(** The loop over handshake bytes; every turn but the last sends at least one *)
Fixpoint fill_crypto (fuel : nat) (out : bytes) (frames : list recovery.SentFrame) (eliciting : bool)
    : M (bytes * list recovery.SentFrame * bool) :=
  c ← get;
  let s := space_of c space in
  let avail := room_in out in
  if (avail <? 8)%nat || (length (crypto_out s) <=? crypto_sent s)%nat then
    mret (out, frames, eliciting)
  else
    let len := Nat.min (length (crypto_out s) - crypto_sent s) (avail - 8) in
    if (len =? 0)%nat then mret (out, frames, eliciting)
    else
      match fuel with
      | O => panic_m "out of fuel"
      | S fuel' =>
          let offset := Z.of_nat (crypto_sent s) in
          let data := take len (drop (crypto_sent s) (crypto_out s)) in
          _ ← modify (on_space space (λ s, s <| crypto_sent := (crypto_sent s + len)%nat |>));
          fill_crypto fuel' (out ++ frame.put_crypto offset data)
            (frames ++ [recovery.Crypto offset len]) true
      end.

(** The PING of a probe, or of a keepalive: [due] clears what asked for it *)
Definition fill_ping (due : bool) (clear : Connection → Connection) (f : Filled) : M Filled :=
  if due && (1 <? room_in (fl_out f))%nat then
    _ ← modify clear;
    if fl_ack_eliciting f then mret f
    else mret (mkFilled (fl_out f ++ frame.put_ping) (fl_frames f ++ [recovery.Ping]) true
                 (fl_ack_largest f))
  else mret f.

(** [fill_payload] *)
Definition fill_payload (out : bytes) (congested : bool) : M Filled :=
  '(out, ack_largest) ← fill_ack out;
  '(out, eliciting) ← fill_path_response out;
  closing ← fill_close out;
  match closing with
  | Some out => mret (mkFilled out [] false ack_largest)
  | None =>
      c ← get;
      '(out, frames, eliciting) ← fill_crypto (length (crypto_out (space_of c space))) out [] eliciting;
      f ← (if decide (space = Data) then
             c ← get;
             f ← lift_res (conn_streams.fill_data_payload budget start (st c) out frames congested);
             _ ← modify (on_st (λ _, conn_streams.conn f));
             mret (mkFilled (conn_streams.out f) (conn_streams.frames f)
                     (eliciting || conn_streams.eliciting f) ack_largest)
           else mret (mkFilled out frames eliciting ack_largest));
      c ← get;
      f ← fill_ping ((0 <? pto_probes c) && bool_decide (space = pto_space c))
            (λ c, c <| pto_probes := pto_probes c - 1 |>) f;
      c ← get;
      fill_ping (keepalive_pending c && bool_decide (space = Data))
        (λ c, c <| keepalive_pending := false |>) f
  end.
End payload.

(** [out.resize(n, 0)] when [out] is shorter *)
Definition pad_bytes (out : bytes) (n : nat) : bytes := out ++ replicate (n - length out) 0.

(** [write_packet] in four parts.  The header, *)
Definition put_header (space : Space) (pn_len : nat) : M bytes :=
  c ← get;
  if decide (space = Data) then mret (header.put_short_header (peer_cid c) pn_len (key_phase c))
  else lift_res (header.long_put
         (header.mkLongHeader space (peer_cid c) (local_cid c)
            (if decide (space = Initial) then retry_token c else [])) pn_len 0).

(** the padding, *)
Definition pad_payload (out : bytes) (payload_start pn_len datagram_start : nat) (pad_to : option nat)
    : bytes :=
  let min_payload := (4 + 16 - pn_len)%nat in
  let out := if (length out - payload_start <? min_payload)%nat
             then pad_bytes out (payload_start + min_payload) else out in
  match pad_to with
  | Some target =>
      let want := (datagram_start + target - TAG_LEN)%nat in
      if (length out <? want)%nat then pad_bytes out want else out
  | None => out
  end.

(** the length field, the encryption and the header protection: [out] holds a
    packet from [header_start] on, *)
Definition seal (space : Space) (pn : Z) (pn_len header_start pn_offset payload_start : nat)
    (out : bytes) : M bytes :=
  out ← (if decide (space = Data) then mret out
         else lift_res (header.set_varint_fixed4 out (pn_offset - 4)
                          (Z.of_nat (pn_len + (length out - payload_start) + TAG_LEN))));
  c ← get;
  match local_keys c space with
  | None => panic_m "checked by the caller"
  | Some k =>
      let head := take payload_start out in
      match encrypt (packet_key k) pn (drop header_start head) (drop payload_start out) with
      | Err e => bail_m ("packet encryption: " ++ e)
      | Ok (body, tag) =>
          let out := head ++ body ++ tag in
          packet ← lift_res (protect_header (header_key k) (drop header_start out)
                               (pn_offset - header_start) pn_len);
          mret (take header_start out ++ packet)
      end
  end.

(** and the record of what was sent. *)
Definition record_packet (space : Space) (now pn size : Z) (filled : Filled) : M unit :=
  _ ← modify (on_space space (λ s,
        s <| next_packet_number := next_packet_number s + 1 |>
          <| sent := recovery.push (sent s)
               (recovery.mkSentPacket (fl_ack_largest filled) pn now size
                  (fl_ack_eliciting filled) (fl_frames filled)) |>));
  when (fl_ack_eliciting filled) (modify (note_sent now)).

Definition write_packet (space : Space) (now : Z) (out : bytes) (datagram_start : nat)
    (congested : bool) (pad_to : option nat) : M (bool * bytes) :=
  if (MAX_DATAGRAM - (length out - datagram_start) <? 64)%nat then mret (false, out)
  else
    c ← get;
    let pn := next_packet_number (space_of c space) in
    let '(truncated_pn, pn_len) :=
      encode_packet_number pn (recovery.largest_acked (sent (space_of c space))) in
    let pn_len := Z.to_nat pn_len in
    let header_start := length out in
    head ← put_header space pn_len;
    let out := out ++ head in
    let pn_offset := length out in
    let out := out ++ drop (8 - pn_len) (be_bytes 8 truncated_pn) in
    let payload_start := length out in
    let limit := match pad_to with Some n => n | None => MAX_DATAGRAM end in
    let budget := (limit - (length out - datagram_start + TAG_LEN))%nat in
    filled ← fill_payload space now budget payload_start out congested;
    let out := fl_out filled in
    if (length out =? payload_start)%nat then mret (false, take header_start out)
    else
      let out := pad_payload out payload_start pn_len datagram_start pad_to in
      out ← seal space pn pn_len header_start pn_offset payload_start out;
      _ ← record_packet space now pn (Z.of_nat (length out - header_start)) filled;
      mret (true, out).

(** The loop of [poll_transmit] over the spaces *)
Fixpoint transmit_loop (spaces : list Space) (now : Z) (out : bytes) (start : nat) (congested : bool)
    (pad_to : option nat) : M bytes :=
  match spaces with
  | [] => mret out
  | space :: rest =>
      if (MAX_DATAGRAM <=? length out - start)%nat then mret out
      else
        c ← get;
        match local_keys c space with
        | None => transmit_loop rest now out start congested pad_to
        | Some _ =>
            let pad := if decide (space = Initial) then
                         if handshake_done c then pad_to else Some MIN_INITIAL_DATAGRAM
                       else pad_to in
            '(wrote, out) ← write_packet space now out start congested pad;
            c ← get;
            _ ← when (wrote && bool_decide (space = Handshake) && has_keys c Initial)
                  (modify (discard_space Initial));
            if wrote && match pad with Some _ => true | None => false end then mret out
            else transmit_loop rest now out start congested pad_to
        end
  end.

Definition bytes_in_flight (c : Connection) : Z :=
  recovery.bytes_in_flight (sent (space_initial c)) +
  recovery.bytes_in_flight (sent (space_handshake c)) +
  recovery.bytes_in_flight (sent (space_data c)).

(** [poll_transmit] *)
Definition poll_transmit (now : Z) (out : bytes) (pad_to : option nat) : M (nat * bytes) :=
  c ← get;
  if match closed c, close_pending c with Some _, None => true | _, _ => false end
  then mret (0%nat, out)
  else
    _ ← pump_tls;
    let start := length out in
    c ← get;
    let congested := negb (recovery.can_send (congestion c) (bytes_in_flight c)) in
    out ← transmit_loop ALL now out start congested pad_to;
    let wrote := (length out - start)%nat in
    c ← get;
    _ ← when ((0 <? wrote)%nat && match idle_deadline c with None => true | Some _ => false end)
          (modify (arm_idle now));
    mret (wrote, out).

(** [probing], [poll_event] *)
Definition probing (c : Connection) : bool := 0 <? pto_probes c.
Definition poll_event (c : Connection) : option Event * Connection :=
  let '(e, s) := conn_streams.poll_event (st c) in (e, c <| st := s |>).

(** ** Text *)

(** [String::from_utf8_lossy]: how many bytes from the front are one
    character, or one maximal invalid sequence *)
Definition is_cont (b : Z) : bool := (0x80 <=? b) && (b <? 0xc0).
Definition second_ok (b0 b1 : Z) : bool :=
  if b0 =? 0xe0 then (0xa0 <=? b1) && (b1 <? 0xc0)
  else if b0 =? 0xed then (0x80 <=? b1) && (b1 <? 0xa0)
  else if b0 =? 0xf0 then (0x90 <=? b1) && (b1 <? 0xc0)
  else if b0 =? 0xf4 then (0x80 <=? b1) && (b1 <? 0x90)
  else is_cont b1.
Definition utf8_width (b0 : Z) : nat :=
  if b0 <? 0x80 then 1
  else if b0 <? 0xc2 then 0
  else if b0 <? 0xe0 then 2
  else if b0 <? 0xf0 then 3
  else if b0 <? 0xf5 then 4
  else 0.
Fixpoint cont_run (n : nat) (l : bytes) : nat :=
  match n, l with
  | S n', b :: l' => if is_cont b then S (cont_run n' l') else 0
  | _, _ => 0
  end.
Definition utf8_step (l : bytes) : nat * bool :=
  match l with
  | [] => (0%nat, true)
  | b0 :: rest =>
      match utf8_width b0 with
      | O => (1%nat, false)
      | 1%nat => (1%nat, true)
      | w =>
          match rest with
          | [] => (1%nat, false)
          | b1 :: rest' =>
              if second_ok b0 b1 then
                let n := (2 + cont_run (w - 2) rest')%nat in (n, (n =? w)%nat)
              else (1%nat, false)
          end
      end
  end.
Fixpoint lossy_loop (fuel : nat) (l : bytes) : bytes :=
  match fuel, l with
  | S fuel', _ :: _ =>
      let '(n, ok) := utf8_step l in
      (if ok then take n l else [0xef; 0xbf; 0xbd]) ++ lossy_loop fuel' (drop n l)
  | _, _ => []
  end.
Definition from_utf8_lossy (l : bytes) : bytes := lossy_loop (length l) l.

(** [{:#x}] *)
Definition hex_digit (d : Z) : Z := if d <? 10 then 48 + d else 87 + d.
Fixpoint hex_loop (fuel : nat) (v : Z) (acc : bytes) : bytes :=
  match fuel with
  | O => acc
  | S fuel' =>
      let acc := hex_digit (v mod 16) :: acc in
      if v <? 16 then acc else hex_loop fuel' (v / 16) acc
  end.
Definition hex (v : Z) : bytes := bstr "0x" ++ hex_loop 16 v [].

Definition text (l : bytes) : string :=
  String.string_of_list_ascii ((λ b, Ascii.ascii_of_N (Z.to_N b)) <$> l).

(** [Display] of [RecvError] *)
Definition recv_error_text (e : recv_stream.RecvError) : string :=
  match e with
  | recv_stream.FlowControl => "the peer exceeded a receive flow control limit"
  | recv_stream.StreamLimit => "the peer exceeded an incoming stream count limit"
  | recv_stream.FinalSize => "stream data disagrees with its final size"
  | recv_stream.FrameEncoding => "stream offset exceeds the QUIC maximum"
  end.

(** ** Receiving *)

(** [stateless_reset_tail], [is_stateless_reset] *)
Definition MIN_RESET : nat := 21.
Definition stateless_reset_tail (datagram : bytes) : option bytes :=
  match datagram with
  | [] => None
  | b0 :: _ =>
      if (length datagram <? MIN_RESET)%nat || negb (Z.land b0 0x80 =? 0) then None
      else Some (drop (length datagram - 16) datagram)
  end.
Definition same_token (token tail : bytes) : bool :=
  foldl (λ acc '(a, b), Z.lor acc (Z.lxor a b)) 0 (zip token tail) =? 0.
Definition is_stateless_reset (c : Connection) (tail : bytes) : bool :=
  existsb (λ token, same_token token tail) (omap pc_token (peer_cids c)).

(** [on_handshake_done] *)
Definition on_handshake_done (c : Connection) : Connection :=
  discard_space Handshake (c <| handshake_done := true |>).

(** [min_by_key] of the ids by sequence number: the first of the least *)
Definition min_seq (l : list PeerCid) : option PeerCid :=
  foldl (λ m p, Some (match m with
                      | Some q => if pc_seq p <? pc_seq q then p else q
                      | None => p
                      end)) None l.

(** The loop of [on_new_connection_id] over the ids to retire *)
Fixpoint retire_loop (retire_prior_to : Z) (l : list PeerCid) : list PeerCid * list Z :=
  match l with
  | [] => ([], [])
  | p :: rest =>
      let '(kept, gone) := retire_loop retire_prior_to rest in
      if pc_seq p <? retire_prior_to then (kept, pc_seq p :: gone) else (p :: kept, gone)
  end.

Definition push_retire (seqs : list Z) : Connection → Connection :=
  on_st (λ s, conn_streams.set_retire_pending (conn_streams.retire_pending s ++ seqs) s).

(** [on_new_connection_id] *)
Definition on_new_connection_id (seq retire_prior : Z) (cid token : bytes) : M unit :=
  if (length cid =? 0)%nat then bail_m "NEW_CONNECTION_ID with a zero-length connection ID"
  else if seq <? retire_prior then bail_m "NEW_CONNECTION_ID retires its own sequence number"
  else
    let token := if (length token =? 16)%nat then Some token else None in
    c ← get;
    if seq <? retire_prior_to c then
      modify (λ c, need_send (push_retire [seq] c))
    else
      match find_seq seq (peer_cids c) with
      | Some (_, known) =>
          if negb (bytes_eqb (as_slice (pc_cid known)) cid) ||
             match pc_token known with Some t => negb (bool_decide (Some t = token)) | None => false end
          then bail_m ("NEW_CONNECTION_ID repeats sequence number " ++ pretty seq ++ " with different contents")
          else mret tt
      | None =>
          _ ← when (retire_prior_to c <? retire_prior) (modify (λ c,
                let c := c <| retire_prior_to := retire_prior |> in
                let '(kept, gone) := retire_loop retire_prior (peer_cids c) in
                need_send (push_retire gone (c <| peer_cids := kept |>))));
          c ← get;
          _ ← (if zlen (peer_cids c) <? transport.ACTIVE_CONNECTION_ID_LIMIT then
                 id ← lift_res (cid_new cid);
                 modify (λ c, c <| peer_cids := peer_cids c ++ [mkPeerCid seq id token] |>)
               else mret tt);
          modify (λ c,
            if peer_cid_seq c <? retire_prior_to c then
              match min_seq (peer_cids c) with
              | Some next => c <| peer_cid := pc_cid next |> <| peer_cid_seq := pc_seq next |>
              | None => c
              end
            else c)
      end.

(** [on_path_challenge] *)
Definition on_path_challenge (data : bytes) : M unit :=
  if (length data =? 8)%nat
  then modify (λ c, need_send (c <| path_response := Some data |>))
  else bail_m "could not convert slice to array".

(** [on_close] *)
Definition close_text (error : Z) (reason : bytes) (app : bool) : string :=
  text (bstr "the peer closed the connection: "
        ++ bstr (if app then "application error " else "transport error ") ++ hex error
        ++ (if (length reason =? 0)%nat then [] else bstr " (" ++ reason ++ bstr ")")).
Definition on_close (error : Z) (reason : bytes) (app : bool) : Connection → Connection :=
  lose (close_text error (from_utf8_lossy reason) app).

(** [RecvStream::consume] with [tls.read_hs] as its reader *)
Definition read_crypto (s : RecvStream) (t : ClientConnection)
    : result string nat * RecvStream * ClientConnection :=
  if (length (recv_stream.ready s) =? 0)%nat then (Ok 0%nat, s, t)
  else
    match read_hs t (recv_stream.ready s) with
    | (Err e, t) => (Err ("TLS handshake: " ++ e)%string, s, t)
    | (Ok tt, t) =>
        match recv_stream.consume s (λ _, Ok tt) with
        | Ok (n, s) => (Ok n, s, t)
        | Err _ => (Ok 0%nat, s, t)
        end
    end.

(** [on_crypto] *)
Definition on_crypto (space : Space) (offset : Z) (data : bytes) : M unit :=
  c ← get;
  '(_, r) ← lift (conn_streams.of_recv
                    (recv_stream.push (crypto_in (space_of c space)) offset data false));
  let '(n, r, t) := read_crypto r (tls c) in
  _ ← modify (λ c, on_space space (λ s, s <| crypto_in := r |>) (c <| tls := t |>));
  match n with
  | Err e =>
      let code := match alert t with Some a => a | None => 0x50 end in
      modify (close_transport (0x100 + code) e)
  | Ok n => if (n =? 0)%nat then mret tt else pump_tls
  end.

(** [on_retry] *)
Definition on_retry (dcid scid : ConnectionId) (token packet : bytes) : M unit :=
  c ← get;
  if retried c || handshake_done c || server_initial_seen c || (length token =? 0)%nat
     || negb (bool_decide (dcid = local_cid c)) then mret tt
  else if negb (retry_tag_is_valid (original_dcid c) packet) then mret tt
  else
    _ ← modify (λ c, c <| retried := true |> <| retry_scid := Some scid |>
                       <| retry_token := token |> <| peer_cid := scid |>);
    k ← lift_res (initial_keys (as_slice scid));
    modify (λ c,
      let c := on_space Initial (λ s,
        s <| keys := Some k |> <| crypto_sent := 0%nat |> <| sent := recovery.sent_default |>
          <| loss_deadline := None |>) c in
      need_send (c <| pto_count := 0 |> <| pto_probes := 0 |>)).

(** [on_version_negotiation] *)
Fixpoint lists_version_1 (versions : bytes) : bool :=
  match versions with
  | a :: b :: c :: d :: rest =>
      (be_value [a; b; c; d] =? header.VERSION_1) || lists_version_1 rest
  | _ => false
  end.
Definition on_version_negotiation (dcid scid : ConnectionId) (versions : bytes) (c : Connection)
    : Connection :=
  if server_initial_seen c || retried c then c
  else if lists_version_1 versions then c
  else if negb (bool_decide (dcid = local_cid c)) || negb (bool_decide (scid = original_dcid c)) then c
  else lose "the server does not speak QUIC version 1" c.

(** [handle_frame] *)
Definition on_streams (f : Streams → result conn_error Streams) : M unit :=
  c ← get;
  s ← lift (f (st c));
  modify (on_st (λ _, s)).
Definition handle_frame (space : Space) (f : frame.Frame) (now : Z) : M unit :=
  match f with
  | frame.Padding | frame.Ping | frame.NewToken => mret tt
  | frame.Ack largest delay first_range ranges _ =>
      modify (on_ack space largest delay first_range ranges now)
  | frame.Crypto offset data => on_crypto space offset data
  | frame.HandshakeDone => modify on_handshake_done
  | frame.Stream id offset fin data => on_streams (λ s, conn_streams.on_stream s id offset data fin)
  | frame.ResetStream id error final_size =>
      on_streams (λ s, conn_streams.on_reset s id error final_size)
  | frame.StopSending id error => modify (on_st (λ s, conn_streams.on_stop_sending s id error))
  | frame.MaxData limit => modify (on_st (λ s, conn_streams.on_max_data s limit))
  | frame.MaxStreamData id limit => modify (on_st (λ s, conn_streams.on_max_stream_data s id limit))
  | frame.MaxStreams uni limit => modify (on_st (λ s, conn_streams.on_max_streams s uni limit))
  | frame.DataBlocked _ | frame.StreamDataBlocked _ _ | frame.StreamsBlocked _ _ => mret tt
  | frame.NewConnectionId seq retire cid token => on_new_connection_id seq retire cid token
  | frame.RetireConnectionId _ => mret tt
  | frame.PathChallenge data => on_path_challenge data
  | frame.PathResponse _ => mret tt
  | frame.Close app error reason => modify (on_close error reason app)
  end.

(** [for f in frame::Iter::new(..)]: each frame is handled before the next one
    is read; the result is whether one of them elicits an acknowledgement *)
Fixpoint handle_frames (space : Space) (now : Z) (fs : list (res frame.Frame)) (eliciting : bool)
    : M bool :=
  match fs with
  | [] => mret eliciting
  | f :: rest =>
      f ← lift_res f;
      _ ← handle_frame space f now;
      handle_frames space now rest (eliciting || frame.ack_eliciting f)
  end.

(** What an authenticated long header says of the server's connection id *)
Definition note_scid (space : Space) (scid : option ConnectionId) (c : Connection) : Connection :=
  match scid with
  | Some scid =>
      if handshake_done c then c
      else
        let c := c <| peer_cid := scid |> in
        let c := match peer_cids c with
                 | [] => c <| peer_cids := [mkPeerCid 0 scid None] |>
                 | _ :: _ => c
                 end in
        if decide (space = Initial) then c <| server_initial_seen := true |> else c
  | None => c
  end.

(** What is left to do once a packet has been authenticated *)
Definition process_packet (space : Space) (scid : option ConnectionId) (pn : Z) (payload : bytes)
    (now : Z) : M unit :=
  _ ← modify (note_scid space scid);
  _ ← modify (on_space space (λ s, s <| largest_received := Some
        (match largest_received s with Some prev => Z.max prev pn | None => pn end) |>));
  eliciting ← handle_frames space now (frame.frames payload) false;
  _ ← modify (on_space space (λ s, s <| ack := ack.record (ack s) pn eliciting now |>));
  _ ← when eliciting (modify need_send);
  modify (λ c, c <| pto_count := 0 |> <| pto_probes := 0 |>).

(** The key a packet was protected with, if we have it *)
Definition key_for (c : Connection) (space : Space) (generation : Generation) : option PacketKey :=
  match generation with
  | Current => packet_key <$> remote_keys c space
  | Next => set_remote <$> next_1rtt c
  | Previous => prev_1rtt_remote c
  end.

(** A protected packet: [buf[..end]], packet number at [pn_offset] *)
Definition handle_protected (now : Z) (buf : bytes) (space : Space) (pn_offset end_ : nat)
    (scid : option ConnectionId) : M (nat * bool) :=
  c ← get;
  match remote_keys c space with
  | None => mret (end_, false)
  | Some k =>
      pkt ← lift_res (slice buf 0 end_);
      match unprotect_header (header_key k) pkt pn_offset with
      | Err (Panic m) => panic_m m
      | Err (Bail _) => mret (end_, false)
      | Ok (first, pn_len, pkt) =>
          pn_bytes ← lift_res (slice pkt pn_offset (pn_offset + pn_len));
          let truncated := be_value pn_bytes in
          let pn := decode_packet_number
                      (match largest_received (space_of c space) with Some n => n | None => 0 end)
                      truncated (Z.of_nat pn_len * 8) in
          let payload_start := (pn_offset + pn_len)%nat in
          let phase := bool_decide (space = Data) && negb (Z.land first 0x04 =? 0) in
          let generation := if decide (space = Data)
                            then generation_for phase (key_phase c) pn (rotate_at c) else Current in
          match key_for c space generation with
          | None => mret (end_, false)
          | Some key =>
              match decrypt key pn (take payload_start pkt) (drop payload_start pkt) with
              | None => mret (end_, false)
              | Some payload =>
                  let '(fresh, r) := received.insert (received (space_of c space)) pn in
                  _ ← modify (on_space space (λ s, s <| received := r |>));
                  if negb fresh then mret (end_, true)
                  else
                    _ ← when (bool_decide (generation = Next)) (modify (rotate_keys pn phase));
                    _ ← process_packet space scid pn payload now;
                    mret (end_, true)
              end
          end
      end
  end.

(** [handle_packet] *)
Definition handle_packet (now : Z) (buf : bytes) : M (nat * bool) :=
  c ← get;
  match header.decode_header buf (len (local_cid c)) with
  | Err (Panic m) => panic_m m
  | Err (Bail _) => mret (0%nat, false)
  | Ok (header.VersionNegotiation dcid scid versions) =>
      _ ← modify (on_version_negotiation dcid scid versions);
      mret (0%nat, false)
  | Ok (header.Retry dcid scid token) =>
      _ ← on_retry dcid scid token buf;
      mret (0%nat, false)
  | Ok (header.Long space scid pn_offset end_) =>
      handle_protected now buf space pn_offset end_ (Some scid)
  | Ok (header.Short pn_offset end_) => handle_protected now buf Data pn_offset end_ None
  end.

(** The loop of [handle_datagram]; [None] when a [RecvError] closed the
    connection.  A turn that goes on consumes at least a byte. *)
Fixpoint datagram_loop (fuel : nat) (now : Z) (datagram : bytes) (pos : nat) (processed : bool)
    : M (option bool) :=
  if (length datagram <=? pos)%nat then mret (Some processed)
  else
    match fuel with
    | O => panic_m "out of fuel"
    | S fuel' => λ c,
        match handle_packet now (drop pos datagram) c with
        | (Err (conn_streams.Recv e), c) =>
            (Ok None, close_transport (recv_stream.code e) (recv_error_text e) c)
        | (Err e, c) => (Err e, c)
        | (Ok (consumed, ok), c) =>
            let processed := processed || ok in
            if (consumed =? 0)%nat then (Ok (Some processed), c)
            else datagram_loop fuel' now datagram (pos + consumed) processed c
        end
    end.

(** [handle_datagram] *)
Definition handle_datagram (now : Z) (datagram : bytes) : M unit :=
  c ← get;
  match closed c with
  | Some _ => mret tt
  | None =>
      let tail := stateless_reset_tail datagram in
      processed ← datagram_loop (length datagram) now datagram 0 false;
      match processed with
      | None => mret tt
      | Some true => modify (note_received now)
      | Some false =>
          c ← get;
          match tail with
          | Some tail =>
              when (is_stateless_reset c tail) (modify (lose "the peer sent a stateless reset"))
          | None => mret tt
          end
      end
  end.
End connection.
End connection.
