(* ===== verification/QuicConnSample.v ===== *)
(** * A concrete instance of the cryptography, for examples

    A handshake that follows a script and an AEAD that appends a tag naming its
    key and packet number.  It satisfies the laws the connection's theorems
    assume of rustls and lets whole exchanges be evaluated; [server_packet] builds
    the packets of the other side. *)

From S2P Require Import Prelude Effects Varint QuicFrame QuicPacket QuicHeader QuicTransport QuicRecvStream QuicRecovery QuicStreams QuicConn.

Module sample.
Import packet connection.

#[global] Instance toy_header_key : HeaderProtectionKey Z := {
  packet.encrypt_in_place hp smp first pn :=
    Ok (Z.lxor first (Z.land hp 12), (λ b, u8 (Z.lxor hp b)) <$> pn);
  packet.decrypt_in_place hp smp first pn :=
    let first' := Z.lxor first (Z.land hp 12) in
    let n := (Z.to_nat (Z.land first' 3) + 1)%nat in
    Ok (first', ((λ b, u8 (Z.lxor hp b)) <$> take n pn) ++ drop n pn);
}.

(** What one call of [write_hs] hands out. *)
Definition flight : Type := option (KeyChange Z Z Z) * bytes.

(** The flights ready to go, and those each further message of the server
    releases; the server's transport parameters; whether the 1-RTT keys have
    been handed out. *)
Record script := mkScript {
  ready : list flight;
  later : list (list flight);
  server : option bytes;
  given : bool;
}.

Definition tag_of (key pn : Z) : bytes := be_bytes 8 key ++ be_bytes 8 pn.

(** The server's parameters, as it sends them. *)
Definition param (id : Z) (v : bytes) : bytes := put_varint id ++ put_varint (zlen v) ++ v.
Definition client_id : bytes := replicate 8 1.
Definition first_id : bytes := replicate 8 2.
Definition server_id : bytes := replicate 8 3.
Definition server_params : bytes :=
  param 0x00 first_id ++ param 0x0f server_id ++ param 0x04 (put_varint 1000) ++
  param 0x06 (put_varint 50) ++ param 0x07 (put_varint 50) ++ param 0x08 (put_varint 10) ++
  param 0x09 (put_varint 3) ++ param 0x02 (replicate 16 77).

Definition initial_pair : Keys Z Z := mkKeys (mkDirectionalKeys 7 1) (mkDirectionalKeys 9 2).
Definition handshake_pair : Keys Z Z := mkKeys (mkDirectionalKeys 4 50) (mkDirectionalKeys 5 60).
Definition one_rtt_pair : Keys Z Z := mkKeys (mkDirectionalKeys 11 100) (mkDirectionalKeys 12 1100).

#[global] Instance toy_rustls : Rustls := {
  HeaderKey := Z;
  PacketKey := Z;
  Secrets := Z;
  ClientConnection := script;
  encrypt key pn _ body := Ok (body, tag_of key pn);
  decrypt key pn _ body :=
    let n := (length body - 16)%nat in
    if bytes_eqb (drop n body) (tag_of key pn) then Some (take n body) else None;
  client_new name _ := Some (Ok (mkScript [(None, bstr "hello")]
    [[(Some (KcHandshake handshake_pair), [])]; [(Some (KcOneRtt one_rtt_pair 100), bstr "done")]]
    (Some server_params) false));
  write_hs t := match ready t with
                | [] => (None, [], t)
                | (Some (KcOneRtt k s), b) :: rest =>
                    if given t then (None, [], t)
                    else (Some (KcOneRtt k s), b, mkScript rest (later t) (server t) true)
                | (k, b) :: rest => (k, b, mkScript rest (later t) (server t) (given t))
                end;
  read_hs t _ := match later t with
                 | [] => (Err "unexpected message"%string, t)
                 | fs :: rest => (Ok tt, mkScript (ready t ++ fs) rest (server t) (given t))
                 end;
  alert _ := None;
  quic_transport_parameters t := option_map (map u8) (server t);
  next_packet_keys s := (mkPacketKeySet (s + 1) (s + 1001), s + 1);
  flights t := length (ready t);
  tls13_aes_128_gcm_sha256 := Some (Some (λ dcid, initial_pair));
  aes_128_gcm_tag _ _ _ := Some (replicate 16 5);
}.

#[global] Instance insertion : UnstableSort (Z * bytes) := recv_stream.insertion_sort.

Definition local : LocalParamsInput := conn_streams.mkLocalParamsInput 1000 100 3 30000 5000.

(** A connection that has just been made. *)
Definition fresh : Connection :=
  match connect client_id first_id "example.org" local with
  | Ok c => c
  | Err _ => mkConnection (mkScript [] [] None false) space_default space_default space_default None None None
               None None false (cid_random []) [] false None false 0 (cid_random []) (cid_random []) 0 [] 0 0 0
               false None false false false false None None recovery.rtt_default None
               recovery.congestion_default 0 0 Initial None None (conn_streams.connect local)
  end.

Lemma fresh_connects : connect client_id first_id "example.org" local = Ok fresh.
Proof. reflexivity. Qed.

(** The same connection with 1-RTT keys, past its handshake. *)
Definition peer_params : transport.Params :=
  transport.mkParams 30000 1200 1000 50 50 50 10 3 3 25 2 None None None None.
Definition established : Connection :=
  let c := discard_space Handshake (discard_space Initial fresh) in
  let c := c <| tls := mkScript [] [] None true |> <| one_rtt_local := Some (mkDirectionalKeys 11 100) |>
             <| one_rtt_remote := Some (mkDirectionalKeys 12 1100) |> <| secrets := Some 101 |>
             <| next_1rtt := Some (mkPacketKeySet 101 1101) |> <| connected := true |>
             <| handshake_done := true |> in
  on_st (conn_streams.adopt_params peer_params) c.

(** A packet of the server with a one-byte number, padded so that it can be
    sampled. *)
Definition server_packet (space : Space) (k : DirectionalKeys Z Z) (phase : bool) (pn : Z) (frames : bytes) : bytes :=
  let body := frames ++ replicate (20 - length frames) 0 in
  let len := (1 + length body + 16)%nat in
  let head := if decide (space = Data) then header.put_short_header (cid_random client_id) 1 phase
              else match header.long_put (header.mkLongHeader space (cid_random client_id)
                                            (cid_random server_id) []) 1 len with
                   | Ok h => h
                   | Err _ => []
                   end in
  match protect_header (header_key k) (head ++ [pn] ++ body ++ tag_of (packet_key k) pn) (length head) 1 with
  | Ok p => p
  | Err _ => []
  end.
Definition server_data (pn : Z) (frames : bytes) : bytes :=
  server_packet Data (keys_remote one_rtt_pair) false pn frames.

(** The server's handshake in one datagram, and what it says once it has seen
    the client's. *)
Definition server_flight : bytes :=
  server_packet Initial (keys_remote initial_pair) false 0 (frame.put_crypto 0 (bstr "sh")) ++
  server_packet Handshake (keys_remote handshake_pair) false 0 (frame.put_crypto 0 (bstr "fin")).
Definition server_done : bytes := server_data 0 (put_varint frame.HANDSHAKE_DONE).
End sample.
