(* ===== verification/QuicConnTimers.v ===== *)
(** * The timers and the loss bookkeeping of a QUIC connection

    What the worker relies on when it sleeps until [poll_timeout] and then
    calls [handle_timeout]: a call before the deadline changes nothing, a call
    at the deadline does exactly one thing and cannot be repeated at once.
    Persistent congestion is declared exactly for the runs of losses RFC 9002
    Section 7.6 describes, and a stateless reset is recognised exactly by a
    token the peer issued. *)

From S2P Require Import Prelude Effects QuicFrame QuicAck QuicReceived QuicPacket QuicTransport QuicRecvStream QuicRecovery QuicStreams QuicConn QuicConnSample.
From stdpp Require Import sets sorting.
#[local] Open Scope Z_scope.

Module connection_timers.
Import packet connection.

(** ** Generic facts *)

Lemma min_option_snoc l x :
  min_option (l ++ [x]) = Some (match min_option l with Some y => Z.min y x | None => x end).
Proof. unfold min_option. by rewrite foldl_snoc. Qed.

Lemma min_option_spec l :
  match min_option l with None => l = [] | Some m => m ∈ l ∧ Forall (λ x, m ≤ x) l end.
Proof.
  induction l as [|x l IH] using rev_ind; [done|]. rewrite min_option_snoc.
  destruct (min_option l) as [m|].
  - destruct IH as [Hin Hall]. split.
    + rewrite elem_of_app, list_elem_of_singleton. destruct (Z.min_spec m x) as [[_ ->]|[_ ->]]; auto.
    + apply Forall_app. split; [|repeat constructor; lia].
      eapply Forall_impl; [exact Hall|]. cbn. lia.
  - subst l. split; [by apply list_elem_of_singleton|]. repeat constructor. lia.
Qed.

Lemma min_option_le l m x : min_option l = Some m → x ∈ l → m ≤ x.
Proof.
  intros Hm Hx. pose proof (min_option_spec l) as H. rewrite Hm in H. destruct H as [_ H].
  rewrite Forall_forall in H. by apply H.
Qed.

Lemma min_option_in l m : min_option l = Some m → m ∈ l.
Proof. intros Hm. pose proof (min_option_spec l) as H. rewrite Hm in H. apply H. Qed.

(** Losing a frame leaves the peer's parameters alone. *)
Lemma queue_send_params id s : conn_streams.params (conn_streams.queue_send id s) = conn_streams.params s.
Proof. unfold conn_streams.queue_send. repeat (case_match; try done). Qed.
Lemma send_mut_params s id x put y :
  conn_streams.send_mut s id = Some (x, put) → conn_streams.params (put y) = conn_streams.params s.
Proof. unfold conn_streams.send_mut. repeat (case_match; try done); by intros [= _ <-]. Qed.
Lemma lost_params s f : conn_streams.params (conn_streams.on_frame_lost s f) = conn_streams.params s.
Proof.
  destruct f; try done; cbn [conn_streams.on_frame_lost].
  - rewrite queue_send_params. destruct (conn_streams.send_mut s id) as [[x put]|] eqn:E; [|done].
    by eapply send_mut_params.
  - unfold conn_streams.queue_credit. by case_match.
Qed.

Section timers.
Context `{RT : Rustls}.
Implicit Types c : Connection.

(** ** What losing packets touches *)

(** [c] with the streams, the congestion controller and one space's handshake
    position replaced. *)
Definition after_loss (space : Space) (s : Streams) (k : nat) (g : recovery.Congestion) c : Connection :=
  on_space space (λ ss, ss <| crypto_sent := k |>) (c <| st := s |> <| congestion := g |>).

Lemma after_loss_refl space c :
  c = after_loss space (st c) (crypto_sent (space_of c space)) (congestion c) c.
Proof. destruct space; destruct c as [? [] [] []]; reflexivity. Qed.

Lemma after_loss_twice space s k g s' k' g' c :
  after_loss space s' k' g' (after_loss space s k g c) = after_loss space s' k' g' c.
Proof. destruct space; reflexivity. Qed.

Lemma on_frame_lost_shape space f c :
  ∃ s k, on_frame_lost space f c = after_loss space s k (congestion c) c.
Proof.
  destruct f; cbn [on_frame_lost];
    try (eexists (conn_streams.on_frame_lost (st c) _), (crypto_sent (space_of c space));
         destruct space; destruct c as [? [] [] []]; reflexivity).
  eexists (st c), _. destruct space; destruct c as [? [] [] []]; reflexivity.
Qed.

Lemma lose_packet_shape space now c p :
  ∃ s k g, lose_packet space now c p = after_loss space s k g c.
Proof.
  unfold lose_packet.
  assert (∃ s k g, c <| congestion := recovery.on_loss (congestion c) (recovery.time_sent p) now |>
    = after_loss space s k g c) as (s & k & g & ->).
  { exists (st c), (crypto_sent (space_of c space)), (recovery.on_loss (congestion c) (recovery.time_sent p) now).
    destruct space; destruct c as [? [] [] []]; reflexivity. }
  generalize (recovery.frames p). intros fs. revert s k g. induction fs as [|f fs IH]; intros s k g; [eauto|].
  cbn [foldl]. destruct (on_frame_lost_shape space f (after_loss space s k g c)) as (s' & k' & ->).
  rewrite after_loss_twice. apply IH.
Qed.

Lemma on_lost_packets_shape space lost now c :
  ∃ s k g, on_lost_packets space lost now c = after_loss space s k g c.
Proof.
  unfold on_lost_packets.
  assert (∃ s k g, foldl (lose_packet space now) c lost = after_loss space s k g c) as (s & k & g & ->).
  { assert (∀ s k g, ∃ s' k' g', foldl (lose_packet space now) (after_loss space s k g c) lost =
      after_loss space s' k' g' c) as H; [|destruct (H (st c) (crypto_sent (space_of c space)) (congestion c)) as (s' & k' & g' & E);
        rewrite <- after_loss_refl in E; eauto].
    induction lost as [|p lost IH]; intros s k g; [eauto|]. cbn [foldl].
    destruct (lose_packet_shape space now (after_loss space s k g c) p) as (s' & k' & g' & ->).
    rewrite after_loss_twice. apply IH. }
  destruct (rtt_sampled_at _); [|eauto]. destruct (persistent_loop _ _ _ _ _); [|eauto].
  exists s, k, (recovery.on_persistent_congestion g). destruct space; reflexivity.
Qed.

(** One space after [detect_space]: the packets kept, the new deadline. *)
Lemma detect_space_shape space now ld c s lost d :
  recovery.detect_lost (sent (space_of c space)) now ld = (s, lost, d) →
  ∃ ss k g, snd (detect_space space now ld c) =
    on_space space (λ x, x <| sent := s |> <| crypto_sent := k |> <| loss_deadline := d |>)
      (c <| st := ss |> <| congestion := g |>).
Proof.
  intros Hd. unfold detect_space. rewrite Hd. cbn [snd].
  destruct (on_lost_packets_shape space lost now (on_space space (λ x, x <| sent := s |>) c)) as (ss & k & g & ->).
  exists ss, k, g. destruct space; reflexivity.
Qed.

(** ** The loss timer *)

Lemma waiting_after la now ld p : recovery.waiting la now ld p → now < recovery.time_sent p + ld.
Proof.
  unfold recovery.waiting, recovery.is_lost. intros [Hle Hf].
  rewrite (proj2 (Z.leb_le _ _) Hle) in Hf. cbn in Hf. apply orb_false_iff in Hf as [_ Hf]. lia.
Qed.

(** Nothing left in a space after [detect_lost] is already overdue. *)
Lemma detect_lost_later s now ld s' lost d :
  recovery.numbers_ok (recovery.packets s) → recovery.detect_lost s now ld = (s', lost, Some d) → now < d.
Proof.
  unfold recovery.detect_lost. destruct (recovery.largest_acked s) as [la|]; [|done].
  intros Hn. destruct (recovery.detect_loop_spec (recovery.packets s) la now ld [] None Hn) as (d' & -> & He).
  cbn. intros [= _ _ ->]. destruct He as ([?|Hin] & _); [done|].
  apply list_elem_of_fmap in Hin as (p & -> & Hp). apply list_elem_of_filter in Hp as [Hp _].
  by apply waiting_after in Hp.
Qed.

Definition numbers_fine c : Prop :=
  ∀ space, recovery.numbers_ok (recovery.packets (sent (space_of c space))).

Lemma loss_deadline_in c d :
  loss_deadline_of c = Some d → ∃ space, loss_deadline (space_of c space) = Some d.
Proof.
  unfold loss_deadline_of. intros Hd%min_option_in. apply list_elem_of_omap in Hd as (s & Hs & Hd).
  rewrite !elem_of_cons in Hs. destruct Hs as [->|[->|[->|[]%not_elem_of_nil]]];
    [by exists Initial|by exists Handshake|by exists Data].
Qed.

(** After the loss timer has fired, every deadline left lies ahead. *)
Lemma detect_all_later now ld c d :
  numbers_fine c →
  loss_deadline_of (foldl (λ c space, snd (detect_space space now ld c)) c ALL) = Some d → now < d.
Proof.
  intros Hn Hd. cbn [ALL foldl] in Hd.
  destruct (recovery.detect_lost (sent (space_of c Initial)) now ld) as [[s1 l1] d1] eqn:E1.
  destruct (detect_space_shape _ _ _ _ _ _ _ E1) as (ss1 & k1 & g1 & H1). rewrite H1 in Hd. clear H1.
  set (c1 := on_space Initial _ _) in Hd.
  destruct (recovery.detect_lost (sent (space_of c Handshake)) now ld) as [[s2 l2] d2] eqn:E2.
  destruct (detect_space_shape Handshake now ld c1 s2 l2 d2 E2) as (ss2 & k2 & g2 & H2). rewrite H2 in Hd. clear H2.
  set (c2 := on_space Handshake _ _) in Hd.
  destruct (recovery.detect_lost (sent (space_of c Data)) now ld) as [[s3 l3] d3] eqn:E3.
  destruct (detect_space_shape Data now ld c2 s3 l3 d3 E3) as (ss3 & k3 & g3 & H3). rewrite H3 in Hd. clear H3.
  apply loss_deadline_in in Hd as [space Hd].
  destruct space; cbn in Hd; subst; [eapply detect_lost_later; [|exact E1]|eapply detect_lost_later; [|exact E2]
    |eapply detect_lost_later; [|exact E3]]; apply Hn.
Qed.

(** ** Waking up *)

Definition rtt_sane c : Prop :=
  0 ≤ recovery.smoothed_or_initial (rtt c) ∧ 0 ≤ recovery.var (rtt c) ∧ 0 ≤ max_ack_delay c.

Lemma idle_timeout_positive c t :
  rtt_sane c → connected c = true → idle_timeout c = Some t → 2 ≤ t.
Proof.
  intros (Hs & Hv & Hm) Hc. unfold idle_timeout. rewrite Hc. cbn [negb].
  destruct (_ && _); [done|]. intros [= <-].
  assert (recovery.TIMER_GRANULARITY ≤ recovery.pto (rtt c) (max_ack_delay c)) as Hp
    by (unfold recovery.pto, recovery.TIMER_GRANULARITY in *; lia).
  unfold recovery.TIMER_GRANULARITY in Hp. lia.
Qed.

Lemma keepalive_connected c d : keepalive_deadline c = Some d → connected c = true.
Proof. unfold keepalive_deadline. by destruct (connected c). Qed.

(** The deadlines [poll_timeout] takes the earliest of. *)
Definition deadlines c : list Z :=
  omap id [match loss_deadline_of c with Some a => Some a | None => snd <$> pto_due c end;
           idle_deadline c; keepalive_deadline c].

Lemma poll_timeout_open c : closed c = None → poll_timeout c = min_option (deadlines c).
Proof. unfold poll_timeout. by intros ->. Qed.

Lemma deadlines_idle c d : idle_deadline c = Some d → d ∈ deadlines c.
Proof. intros H. apply list_elem_of_omap. exists (Some d). split; [|done]. rewrite H. set_solver. Qed.
Lemma deadlines_keepalive c d : keepalive_deadline c = Some d → d ∈ deadlines c.
Proof. intros H. apply list_elem_of_omap. exists (Some d). split; [|done]. rewrite H. set_solver. Qed.
Lemma deadlines_loss c d : loss_deadline_of c = Some d → d ∈ deadlines c.
Proof. intros H. apply list_elem_of_omap. exists (Some d). split; [|done]. rewrite H. set_solver. Qed.
Lemma deadlines_pto c sp d : loss_deadline_of c = None → pto_due c = Some (sp, d) → d ∈ deadlines c.
Proof.
  intros H Hp. apply list_elem_of_omap. exists (Some d). split; [|done]. rewrite H, Hp. set_solver.
Qed.

Lemma due_false (o : option Z) now :
  (∀ d, o = Some d → now < d) → match o with Some d => d <=? now | None => false end = false.
Proof. destruct o as [d|]; [|done]. intros H. specialize (H d eq_refl). lia. Qed.

Lemma handle_timeout_early c now :
  (∀ d, d ∈ deadlines c → now < d) → handle_timeout now c = c.
Proof.
  intros Hd. unfold handle_timeout.
  rewrite due_false by (intros d H; by apply Hd, deadlines_idle).
  rewrite due_false by (intros d H; by apply Hd, deadlines_keepalive).
  destruct (loss_deadline_of c) as [a|] eqn:Hl.
  - rewrite (proj2 (Z.ltb_lt now a)); [done|]. by apply Hd, deadlines_loss.
  - destruct (pto_due c) as [[sp a]|] eqn:Hp; [|done].
    rewrite (proj2 (Z.ltb_lt now a)); [done|]. by apply Hd, (deadlines_pto c sp).
Qed.

(** *** Loss detection in the three spaces *)

(** The packets of a space that count as lost by now, and what they carried. *)
Definition lost_in (now ld : Z) (s : recovery.SentPackets) : list recovery.SentPacket :=
  match recovery.largest_acked s with
  | Some la => base.filter (λ p, recovery.is_lost la now ld p = true) (recovery.packets s)
  | None => []
  end.
Definition lost_frames (now ld : Z) (s : recovery.SentPackets) : list recovery.SentFrame :=
  concat (recovery.frames <$> lost_in now ld s).
Definition still_in_flight (now ld : Z) (s : recovery.SentPackets) : list recovery.SentPacket :=
  match recovery.largest_acked s with
  | Some la => base.filter (λ p, recovery.is_lost la now ld p = false) (recovery.packets s)
  | None => recovery.packets s
  end.
(** Handshake bytes are sent again from the first that was lost. *)
Definition sent_again (k : nat) (f : recovery.SentFrame) : nat :=
  match f with recovery.Crypto offset _ => Nat.min k (Z.to_nat offset) | _ => k end.

(** Everything that counts as lost, and nothing else, is declared lost: no longer
    in flight, and its frames handed back to the streams and the handshake. *)
Definition losses_declared (now : Z) c c' : Prop :=
  let ld := recovery.loss_delay (rtt c) in
  (∀ space, recovery.packets (sent (space_of c' space)) = still_in_flight now ld (sent (space_of c space)) ∧
     crypto_sent (space_of c' space) = foldl sent_again (crypto_sent (space_of c space)) (lost_frames now ld (sent (space_of c space)))) ∧
  st c' = conn_streams.set_needs_send true
    (foldl conn_streams.on_frame_lost (st c) (concat ((λ space, lost_frames now ld (sent (space_of c space))) <$> ALL))).

Lemma lose_frames_exact space fs c :
  let c' := foldl (λ c f, on_frame_lost space f c) c fs in
  st c' = foldl conn_streams.on_frame_lost (st c) fs ∧ crypto_sent (space_of c' space) = foldl sent_again (crypto_sent (space_of c space)) fs.
Proof.
  cbv zeta. revert c. induction fs as [|f fs IH]; intros c; [done|]. cbn [foldl]. destruct (IH (on_frame_lost space f c)) as [-> ->].
  destruct f, space; done.
Qed.
Lemma lose_packets_exact space lost now c :
  let c' := foldl (lose_packet space now) c lost in let fs := concat (recovery.frames <$> lost) in
  st c' = foldl conn_streams.on_frame_lost (st c) fs ∧ crypto_sent (space_of c' space) = foldl sent_again (crypto_sent (space_of c space)) fs.
Proof.
  cbv zeta. revert c. induction lost as [|p lost IH]; intros c; [done|]. cbn [foldl]. rewrite fmap_cons. cbn [concat]. rewrite !foldl_app.
  destruct (IH (lose_packet space now c p)) as [-> ->]. unfold lose_packet.
  destruct (lose_frames_exact space (recovery.frames p) (c <| congestion := recovery.on_loss (congestion c) (recovery.time_sent p) now |>)) as [-> ->].
  by destruct space.
Qed.
Lemma on_lost_exact space lost now c :
  let c' := on_lost_packets space lost now c in let fs := concat (recovery.frames <$> lost) in
  st c' = foldl conn_streams.on_frame_lost (st c) fs ∧ crypto_sent (space_of c' space) = foldl sent_again (crypto_sent (space_of c space)) fs.
Proof.
  cbv zeta. destruct (lose_packets_exact space lost now c) as [<- <-]. unfold on_lost_packets. destruct (rtt_sampled_at _); [|done].
  destruct (persistent_loop _ _ _ _ _); [by destruct space|done].
Qed.
(** [detect_space] changes the packets in flight, the handshake position and the
    loss timer of its space, the streams and the congestion window. *)
Lemma detect_space_exact space now ld c :
  recovery.numbers_ok (recovery.packets (sent (space_of c space))) →
  ∃ s d g, recovery.packets s = still_in_flight now ld (sent (space_of c space)) ∧
    let fs := lost_frames now ld (sent (space_of c space)) in
    snd (detect_space space now ld c) =
      on_space space (λ x, x <| sent := s |> <| crypto_sent := foldl sent_again (crypto_sent (space_of c space)) fs |> <| loss_deadline := d |>)
        (c <| st := foldl conn_streams.on_frame_lost (st c) fs |> <| congestion := g |>).
Proof.
  intros Hn. cbv zeta. destruct (recovery.detect_lost (sent (space_of c space)) now ld) as [[s lost] d] eqn:E. unfold detect_space. rewrite E. cbn [snd].
  assert (lost = lost_in now ld (sent (space_of c space)) ∧ recovery.packets s = still_in_flight now ld (sent (space_of c space))) as [-> Hs].
  { unfold recovery.detect_lost, lost_in, still_in_flight in *. destruct (recovery.largest_acked _) as [la|]; [|by injection E as <- <- _].
    destruct (recovery.detect_loop_spec (recovery.packets (sent (space_of c space))) la now ld [] None Hn) as (d' & E' & _). rewrite E' in E. by injection E as <- <- _. }
  pose proof (on_lost_exact space (lost_in now ld (sent (space_of c space))) now (on_space space (λ x, x <| sent := s |>) c)) as [Hst Hk].
  destruct (on_lost_packets_shape space (lost_in now ld (sent (space_of c space))) now (on_space space (λ x, x <| sent := s |>) c)) as (ss & k & g & Hshape).
  rewrite Hshape in *. exists s, d, g. split; [done|]. unfold lost_frames. destruct space; cbn in Hst, Hk; subst ss k; reflexivity.
Qed.

Definition due (o : option Z) (now : Z) : Prop := ∃ d, o = Some d ∧ d ≤ now.

(** What a step leaves as it was. *)
Definition same_life c c' : Prop := closed c' = closed c ∧ idle_deadline c' = idle_deadline c.
Definition same_keepalive c c' : Prop := keepalive_pending c' = keepalive_pending c ∧ next_keepalive c' = next_keepalive c.
Definition same_probes c c' : Prop := pto_count c' = pto_count c ∧ pto_probes c' = pto_probes c ∧ pto_space c' = pto_space c.
Definition same_spaces c c' : Prop := ∀ space, space_of c' space = space_of c space.

(** The four things a timeout can be, the connection before and after: each only
    if none before it is due, and each leaving what is the others' alone. *)
Inductive timeout_step (now : Z) c : Connection → Prop :=
| timed_out_idle why c' :
    due (idle_deadline c) now → closed c' = Some why →
    conn_streams.events (st c') = conn_streams.events (st c) ++ [conn_streams.Lost why] → poll_timeout c' = None →
    same_keepalive c c' → same_probes c c' → same_spaces c c' → timeout_step now c c'
| timed_out_keepalive c' :
    ¬ due (idle_deadline c) now → due (keepalive_deadline c) now →
    keepalive_pending c' = true → (∀ d, keepalive_deadline c' = Some d → now < d) →
    st c' = conn_streams.set_needs_send true (st c) → same_life c c' → same_probes c c' → same_spaces c c' → timeout_step now c c'
| timed_out_loss c' :
    ¬ due (idle_deadline c) now → ¬ due (keepalive_deadline c) now → due (loss_deadline_of c) now →
    losses_declared now c c' → (∀ d, loss_deadline_of c' = Some d → now < d) →
    same_life c c' → same_keepalive c c' → same_probes c c' → timeout_step now c c'
| timed_out_probe space d c' :
    ¬ due (idle_deadline c) now → ¬ due (keepalive_deadline c) now →
    loss_deadline_of c = None → pto_due c = Some (space, d) → d ≤ now →
    pto_probes c' = 2 → pto_space c' = space → pto_count c' = u32 (pto_count c + 1) →
    (0 ≤ pto_count c < 32 → ∃ space' d', pto_due c' = Some (space', d') ∧ d < d') →
    (∀ sp, space_of c' sp = if decide (sp = space) then space_of c sp <| crypto_sent := 0%nat |> else space_of c sp) →
    st c' = conn_streams.set_needs_send true (st c) → same_life c c' → same_keepalive c c' → timeout_step now c c'.

Lemma pto_positive c : rtt_sane c → 0 < recovery.pto (rtt c) 0 ∧ 0 < recovery.pto (rtt c) (max_ack_delay c).
Proof. intros (? & ? & ?). unfold recovery.pto, recovery.TIMER_GRANULARITY. lia. Qed.

Lemma due_cases (o : option Z) now :
  (match o with Some d => d <=? now | None => false end = true ∧ due o now) ∨
  (match o with Some d => d <=? now | None => false end = false ∧ ¬ due o now).
Proof.
  unfold due. destruct o as [d|]; [|right; split; [done|by intros (? & ? & _)]]. destruct (Z.leb_spec d now); [left; eauto|right].
  split; [done|]. intros (? & [= <-] & ?). lia.
Qed.

Lemma keepalive_rearmed c now d :
  rtt_sane c → keepalive_deadline c = Some d →
  ∀ d', keepalive_deadline (need_send (c <| keepalive_pending := true |>
    <| next_keepalive := (λ t, now + t / 2) <$> idle_timeout c |>)) = Some d' → now < d'.
Proof.
  intros Hr Hk d'. pose proof (keepalive_connected _ _ Hk) as Hc. unfold keepalive_deadline. cbn. rewrite Hc. cbn.
  destruct (_ =? 0); [done|]. destruct (idle_timeout c) as [t|] eqn:Ht; [|done]. intros [= <-].
  apply idle_timeout_positive in Ht; [|done..]. pose proof (Z.div_le_lower_bound t 2 1). lia.
Qed.

Lemma detect_all_declares now c :
  numbers_fine c →
  let ld := recovery.loss_delay (rtt c) in let c' := need_send (foldl (λ c space, snd (detect_space space now ld c)) c ALL) in
  losses_declared now c c' ∧ same_life c c' ∧ same_keepalive c c' ∧ same_probes c c'.
Proof.
  intros Hn. cbv zeta. cbn [ALL foldl]. set (ld := recovery.loss_delay (rtt c)).
  destruct (detect_space_exact Initial now ld c (Hn Initial)) as (s1 & d1 & g1 & Hs1 & E1). rewrite E1. clear E1. set (c1 := on_space Initial _ _).
  destruct (detect_space_exact Handshake now ld c1 (Hn Handshake)) as (s2 & d2 & g2 & Hs2 & E2). rewrite E2. clear E2. set (c2 := on_space Handshake _ _).
  destruct (detect_space_exact Data now ld c2 (Hn Data)) as (s3 & d3 & g3 & Hs3 & E3). rewrite E3. clear E3.
  split; [|done]. split; [intros []; done|]. unfold ALL. rewrite !fmap_cons. cbn [fmap list_fmap concat]. by rewrite !foldl_app.
Qed.

Lemma handle_timeout_due c now d :
  closed c = None → numbers_fine c → rtt_sane c → poll_timeout c = Some d → d ≤ now →
  timeout_step now c (handle_timeout now c).
Proof.
  intros Hcl Hn Hr Hp Hd. rewrite poll_timeout_open in Hp by done. unfold handle_timeout.
  destruct (due_cases (idle_deadline c) now) as [[-> Hi]|[-> Hi]].
  { eapply timed_out_idle; [exact Hi|..]; unfold lose; cbn; by rewrite Hcl. }
  destruct (due_cases (keepalive_deadline c) now) as [[-> Hk]|[-> Hk]].
  { pose proof Hk as (k & Hk' & _). eapply timed_out_keepalive; try done. by eapply keepalive_rearmed. }
  assert (match loss_deadline_of c with Some a => Some a | None => snd <$> pto_due c end = Some d) as Hrec.
  { apply min_option_in, list_elem_of_omap in Hp as (o & Ho & Hod). cbn in Hod. subst o.
    rewrite !elem_of_cons, elem_of_nil in Ho. destruct Ho as [->|[Ho|[Ho|[]]]]; [done|..].
    - destruct Hi. by exists d.
    - destruct Hk. by exists d. }
  destruct (loss_deadline_of c) as [a|] eqn:Hl.
  - injection Hrec as ->. rewrite (proj2 (Z.ltb_ge now d)) by done. destruct (detect_all_declares now c Hn) as (? & ? & ? & ?).
    eapply timed_out_loss; try done; [by exists d|]. intros d' Hd'. by eapply detect_all_later in Hd'.
  - destruct (pto_due c) as [[sp a]|] eqn:Hpt; [|done]. injection Hrec as ->. rewrite (proj2 (Z.ltb_ge now d)) by done.
    eapply timed_out_probe; [exact Hi|exact Hk|exact Hl|exact Hpt|done|..]; try (by destruct sp).
    + intros Hc. pose proof (pto_positive c Hr) as [? ?]. destruct (recovery.pto_backs_off _ _ _ _ _ _ _ _ _ Hc ltac:(done) ltac:(done) Hpt) as (sp' & d' & Hd' & ?).
      exists sp', d'. split; [|done]. unfold pto_due. rewrite <- Hd'. rewrite <- (u32_small (pto_count c + 1)) by lia. by destruct sp.
    + by intros []; destruct sp.
Qed.

(** ** Persistent congestion *)

(** A run of packets with nothing missing in between. *)
Definition unbroken (l : list recovery.SentPacket) : Prop :=
  ∀ pre p q post, l = pre ++ p :: q :: post → recovery.number q = recovery.number p + 1.

(** An ack-eliciting packet sent after the first round-trip sample. *)
Definition telling (sampled_at : Z) (p : recovery.SentPacket) : Prop :=
  recovery.ack_eliciting p = true ∧ sampled_at ≤ recovery.time_sent p.

(** RFC 9002 Section 7.6.2: within one unbroken run of losses, two such
    packets more than [duration] apart. *)
Definition stretch (sampled_at duration : Z) (lost : list recovery.SentPacket) : Prop :=
  ∃ pre run post p q, lost = pre ++ run ++ post ∧ unbroken run ∧ p ∈ run ∧ q ∈ run ∧
    telling sampled_at p ∧ telling sampled_at q ∧
    duration < recovery.time_sent q - recovery.time_sent p.

Definition calm (sampled_at duration : Z) (l : list recovery.SentPacket) : Prop :=
  ∀ p q, p ∈ l → q ∈ l → telling sampled_at p → telling sampled_at q →
    recovery.time_sent q - recovery.time_sent p ≤ duration.

Definition in_order (l : list recovery.SentPacket) : Prop :=
  StronglySorted (λ p q, recovery.time_sent p ≤ recovery.time_sent q) l.

Lemma unbroken_infix pre l post : unbroken (pre ++ l ++ post) → unbroken l.
Proof. intros H a p q b ->. apply (H (pre ++ a) p q (b ++ post)). by rewrite <- !(assoc_L (++)). Qed.

Lemma unbroken_snoc l p q : unbroken (l ++ [p]) → recovery.number q = recovery.number p + 1 →
  unbroken ((l ++ [p]) ++ [q]).
Proof.
  intros Hl Hq pre a b post E. destruct post as [|z post' _] using rev_ind.
  - replace (pre ++ [a; b]) with ((pre ++ [a]) ++ [b]) in E by (by rewrite <- (assoc_L (++))).
    apply app_inj_2 in E as [E [= ->]]; [|done]. by apply app_inj_2 in E as [_ [= ->]].
  - replace (pre ++ a :: b :: post' ++ [z]) with ((pre ++ a :: b :: post') ++ [z]) in E
      by (by rewrite <- (assoc_L (++))).
    apply app_inj_2 in E as [E _]; [|done]. by apply (Hl pre a b post').
Qed.

Lemma unbroken_one p : unbroken [p].
Proof.
  intros pre a b post E. assert (length [p] = length (pre ++ a :: b :: post)) as Hl by by rewrite E.
  rewrite length_app in Hl. cbn in Hl. lia.
Qed.

(** An unbroken run does not reach across a gap. *)
Lemma run_at_gap r p q l pre run post :
  recovery.number q ≠ recovery.number p + 1 →
  (r ++ [p]) ++ q :: l = pre ++ run ++ post → unbroken run →
  (∃ post', r ++ [p] = pre ++ run ++ post') ∨ (∃ pre', q :: l = pre' ++ run ++ post).
Proof.
  intros Hgap E Hrun. apply app_eq_inv in E as [(k & E1 & E2)|(k & E1 & E2)]; [|by right; eauto].
  apply app_eq_inv in E2 as [(m & E3 & E4)|(m & E3 & E4)]; [|left; exists m; by rewrite E1, E3].
  destruct m as [|q' m]; [left; exists []; by rewrite E1, E3, !app_nil_r|].
  cbn in E4. injection E4 as <- E4. destruct k as [|z k _] using rev_ind.
  { right. exists []. cbn in *. by rewrite E3, E4. }
  rewrite (assoc_L (++)) in E1. apply app_inj_2 in E1 as [_ [= <-]]; [|done]. exfalso. apply Hgap.
  apply (Hrun k p q m). by rewrite E3, <- (assoc_L (++)).
Qed.

Lemma stretch_calm sa d r : stretch sa d r → ¬ calm sa d r.
Proof.
  intros (pre & run & post & p & q & -> & _ & Hp & Hq & Tp & Tq & Hd) Hc.
  specialize (Hc p q). rewrite !elem_of_app in Hc. specialize (Hc ltac:(auto) ltac:(auto) Tp Tq). lia.
Qed.

Lemma stretch_gap sa d r p q l :
  recovery.number q ≠ recovery.number p + 1 → calm sa d (r ++ [p]) →
  stretch sa d ((r ++ [p]) ++ q :: l) ↔ stretch sa d ([q] ++ l).
Proof.
  intros Hgap Hcalm. split.
  - intros (pre & run & post & a & b & E & Hrun & Ha & Hb & Ta & Tb & Hd).
    destruct (run_at_gap _ _ _ _ _ _ _ Hgap E Hrun) as [[post' E']|[pre' E']].
    + exfalso. eapply stretch_calm; [|exact Hcalm]. by exists pre, run, post', a, b.
    + by exists pre', run, post, a, b.
  - intros (pre & run & post & a & b & E & Hrun & Ha & Hb & Ta & Tb & Hd).
    exists ((r ++ [p]) ++ pre), run, post, a, b. split; [|done]. cbn in E. by rewrite E, <- !(assoc_L (++)).
Qed.

(** The first telling packet of the current run. *)
Definition first_of (sa : Z) (r : list recovery.SentPacket) (first : option recovery.SentPacket) : Prop :=
  match first with
  | None => ∀ p, p ∈ r → ¬ telling sa p
  | Some s => s ∈ r ∧ telling sa s ∧ ∀ p, p ∈ r → telling sa p → recovery.time_sent s ≤ recovery.time_sent p
  end.

Lemma calm_snoc sa d r p :
  calm sa d r → Forall (λ q, recovery.time_sent q ≤ recovery.time_sent p) r → 0 ≤ d →
  (telling sa p → ∀ q, q ∈ r → telling sa q → recovery.time_sent p - recovery.time_sent q ≤ d) →
  calm sa d (r ++ [p]).
Proof.
  intros Hc Hle Hd Hp a b Ha Hb Ta Tb. rewrite Forall_forall in Hle.
  rewrite !elem_of_app, !list_elem_of_singleton in *.
  destruct Ha as [Ha| ->], Hb as [Hb| ->]; [by apply Hc|by apply Hp|specialize (Hle b Hb); lia|lia].
Qed.

(** The loop, in the middle of the run [r ++ [p]] it has found calm. *)
Lemma persistent_loop_spec l sa d r p first :
  0 ≤ d → recovery.numbers_ok (p :: l) → in_order ((r ++ [p]) ++ l) →
  unbroken (r ++ [p]) → calm sa d (r ++ [p]) → first_of sa (r ++ [p]) first →
  persistent_loop l sa d first (Some (recovery.number p)) = true ↔ stretch sa d ((r ++ [p]) ++ l).
Proof.
  intros Hd. revert r p first. induction l as [|q l IH]; intros r p first Hn Hord Hrun Hcalm Hf.
  { split; [done|]. rewrite app_nil_r. by intros ?%stretch_calm. }
  assert (Forall (λ x, recovery.time_sent x ≤ recovery.time_sent q) (r ++ [p])) as Hle.
  { apply Forall_forall. intros x Hx. eapply (StronglySorted_app_1_elem_of _ _ _ _ _ Hord); [done|left]. }
  inversion_clear Hn as [|? ? Hp Hn']. pose proof Hn' as Hq. inversion_clear Hq as [|? ? Hq' _].
  cbn [persistent_loop]. rewrite u64_small by lia.
  set (first' := if _ =? _ then first else None).
  set (r' := if recovery.number q =? recovery.number p + 1 then r ++ [p] else []).
  assert (first_of sa r' first' ∧ (r' = [] ∨ r' = r ++ [p]) ∧
    (stretch sa d ((r ++ [p]) ++ q :: l) ↔ stretch sa d ((r' ++ [q]) ++ l)) ∧
    unbroken (r' ++ [q]) ∧ in_order ((r' ++ [q]) ++ l)) as (Hf' & Hr' & Hst & Hu & Ho).
  { unfold first', r'. destruct (Z.eqb_spec (recovery.number q) (recovery.number p + 1)) as [Heq|Hne].
    - split; [done|]. split; [by right|]. rewrite <- (assoc_L (++) _ [q] l). split; [done|].
      split; [by apply unbroken_snoc|done].
    - split; [by intros ? []%not_elem_of_nil|]. split; [by left|]. split; [by apply stretch_gap|].
      split; [apply unbroken_one|]. by apply StronglySorted_app_1_r in Hord. }
  clearbody first' r'. rewrite Hst. clear Hst.
  assert (calm sa d r') as Hcalm' by (destruct Hr' as [->| ->]; [by intros ? ? []%not_elem_of_nil|done]).
  assert (Forall (λ x, recovery.time_sent x ≤ recovery.time_sent q) r') as Hle'
    by (destruct Hr' as [->| ->]; [constructor|done]).
  destruct (negb (recovery.ack_eliciting q) || (recovery.time_sent q <? sa)) eqn:Hqt.
  { assert (¬ telling sa q) as Hnt.
    { intros [He Ht]. rewrite He in Hqt. cbn in Hqt. lia. }
    apply IH; try done.
    - apply calm_snoc; try done.
    - destruct first' as [s|].
      + destruct Hf' as (Hs & Ts & Hm). split; [by apply elem_of_app; left|]. split; [done|].
        intros x. rewrite elem_of_app, list_elem_of_singleton. intros [Hx| ->]; [by apply Hm|done].
      + intros x. rewrite elem_of_app, list_elem_of_singleton. intros [Hx| ->]; [by apply Hf'|done]. }
  assert (telling sa q) as Tq.
  { apply orb_false_iff in Hqt as [He%negb_false_iff Ht]. split; [done|lia]. }
  set (start := match first' with Some s => s | None => q end).
  assert (start ∈ r' ++ [q] ∧ telling sa start ∧
    ∀ x, x ∈ r' ++ [q] → telling sa x → recovery.time_sent start ≤ recovery.time_sent x) as (Hs & Ts & Hm).
  { unfold start. destruct first' as [s|].
    - destruct Hf' as (Hs & Ts & Hm). split; [by apply elem_of_app; left|]. split; [done|].
      intros x. rewrite elem_of_app, list_elem_of_singleton. rewrite Forall_forall in Hle'.
      intros [Hx| ->]; [by apply Hm|]. intros _. by apply Hle'.
    - split; [by apply elem_of_app; right; apply list_elem_of_singleton|]. split; [done|].
      intros x. rewrite elem_of_app, list_elem_of_singleton. intros [Hx| ->]; [|done]. by intros ?%(Hf' x Hx). }
  clearbody start. destruct (Z.ltb_spec d (Z.max 0 (recovery.time_sent q - recovery.time_sent start))) as [Hbig|Hsmall].
  - split; [intros _|done]. exists [], (r' ++ [q]), l, start, q. split; [done|]. split; [done|].
    split; [done|]. split; [by apply elem_of_app; right; apply list_elem_of_singleton|]. split; [done|]. split; [done|]. lia.
  - apply IH; try done.
    apply calm_snoc; try done. intros _ x Hx Tx. specialize (Hm x). rewrite elem_of_app in Hm.
    specialize (Hm ltac:(by left) Tx). lia.
Qed.

Lemma persistent_from_start lost sa d :
  0 ≤ d → recovery.numbers_ok lost → in_order lost →
  persistent_loop lost sa d None None = true ↔ stretch sa d lost.
Proof.
  intros Hd Hn Ho. destruct lost as [|p l].
  { split; [done|]. intros (pre & run & post & a & b & E & _ & Ha & _). symmetry in E.
    apply app_nil in E as [_ [-> _]%app_nil]. by apply not_elem_of_nil in Ha. }
  cbn [persistent_loop]. rewrite Z.sub_diag, (proj2 (Z.ltb_ge d _)) by lia.
  assert (calm sa d ([] ++ [p])) as Hc.
  { intros a b. cbn [app]. rewrite !list_elem_of_singleton. intros -> -> _ _. lia. }
  destruct (negb (recovery.ack_eliciting p) || (recovery.time_sent p <? sa)) eqn:Ht.
  - apply (persistent_loop_spec l sa d [] p None); try done; [apply unbroken_one|].
    intros x. cbn [app]. rewrite list_elem_of_singleton. intros -> [He ?]. rewrite He in Ht. cbn in Ht. lia.
  - apply (persistent_loop_spec l sa d [] p (Some p)); try done; [apply unbroken_one|].
    apply orb_false_iff in Ht as [He%negb_false_iff Hs]. split; [by apply list_elem_of_singleton|].
    split; [split; [done|lia]|]. intros x. cbn [app]. rewrite list_elem_of_singleton. by intros ->.
Qed.

Lemma lose_packet_parts space now c p :
  congestion (lose_packet space now c p) = recovery.on_loss (congestion c) (recovery.time_sent p) now ∧
  rtt_sampled_at (lose_packet space now c p) = rtt_sampled_at c ∧ rtt (lose_packet space now c p) = rtt c ∧
  params (lose_packet space now c p) = params c.
Proof.
  unfold lose_packet. set (c0 := c <| congestion := _ |>).
  change (recovery.on_loss (congestion c) (recovery.time_sent p) now) with (congestion c0).
  change (rtt_sampled_at c) with (rtt_sampled_at c0). change (rtt c) with (rtt c0). change (params c) with (params c0).
  clearbody c0. generalize (recovery.frames p). intros fs. revert c0.
  induction fs as [|f fs IH]; intros c0; [done|]. cbn [foldl]. destruct (IH (on_frame_lost space f c0)) as (-> & -> & -> & ->).
  destruct (on_frame_lost_shape space f c0) as (s & k & E).
  assert (params (on_frame_lost space f c0) = params c0) as ->.
  { unfold params. destruct f; try apply lost_params; by destruct space. }
  rewrite E. by destruct space.
Qed.

(** What [on_lost_packets] leaves the congestion controller with. *)
Lemma on_lost_congestion space lost now c :
  let g := foldl (λ g p, recovery.on_loss g (recovery.time_sent p) now) (congestion c) lost in
  let d := recovery.persistent_congestion_duration (rtt c) (max_ack_delay c) in
  congestion (on_lost_packets space lost now c) =
    match rtt_sampled_at c with
    | Some sa => if persistent_loop lost sa d None None then recovery.on_persistent_congestion g else g
    | None => g
    end.
Proof.
  cbv zeta. unfold on_lost_packets.
  assert (∀ c, congestion (foldl (lose_packet space now) c lost) =
      foldl (λ g p, recovery.on_loss g (recovery.time_sent p) now) (congestion c) lost ∧
    rtt_sampled_at (foldl (lose_packet space now) c lost) = rtt_sampled_at c ∧
    rtt (foldl (lose_packet space now) c lost) = rtt c ∧
    params (foldl (lose_packet space now) c lost) = params c) as H.
  { clear c. induction lost as [|p l IH]; intros c; [done|]. cbn [foldl].
    destruct (IH (lose_packet space now c p)) as (-> & -> & -> & ->). by destruct (lose_packet_parts space now c p) as (-> & -> & -> & ->). }
  destruct (H c) as (Hg & Hs & Hr & Hp). unfold max_ack_delay. rewrite Hs, Hr, Hp.
  destruct (rtt_sampled_at c); [|done]. destruct (persistent_loop _ _ _ _ _); cbn; by rewrite Hg.
Qed.

(** ** Stateless resets *)

Lemma same_token_spec token tail :
  length token = length tail → same_token token tail = true ↔ token = tail.
Proof.
  intros Hl. unfold same_token. rewrite Z.eqb_eq.
  assert (∀ acc, foldl (λ acc '(a, b), Z.lor acc (Z.lxor a b)) acc (zip token tail) = 0 ↔ acc = 0 ∧ token = tail) as H.
  { revert tail Hl. induction token as [|a token IH]; intros [|b tail] Hl acc; try done; [cbn; naive_solver|].
    cbn [zip zip_with foldl]. rewrite IH by (by injection Hl). rewrite Z.lor_eq_0_iff, Z.lxor_eq_0_iff. naive_solver. }
  rewrite H. naive_solver.
Qed.

Definition tokens_ok c : Prop :=
  Forall (λ p, match pc_token p with Some t => length t = 16%nat | None => True end) (peer_cids c).

Lemma is_stateless_reset_spec c tail :
  tokens_ok c → length tail = 16%nat →
  is_stateless_reset c tail = true ↔ ∃ p, p ∈ peer_cids c ∧ pc_token p = Some tail.
Proof.
  intros Hok Hl. unfold is_stateless_reset. rewrite <- Is_true_true, existb_True. setoid_rewrite Is_true_true.
  rewrite Exists_exists. split.
  - intros (t & Ht & Hs). apply list_elem_of_omap in Ht as (p & Hp & Ep).
    unfold tokens_ok in Hok. rewrite Forall_forall in Hok. specialize (Hok p Hp). rewrite Ep in Hok.
    apply same_token_spec in Hs as ->; [eauto|lia].
  - intros (p & Hp & Ep). exists tail. split; [apply list_elem_of_omap; eauto|]. by apply same_token_spec.
Qed.

(** C20: The worker sleeps until [poll_timeout] and then calls
    [handle_timeout].  On a connection that is open, whose packet numbers are in
    range and whose round-trip estimate is not negative, a call that comes early
    changes nothing, and a call at or after the deadline does exactly one of four
    things, the first that is due, and leaves alone what belongs to the others:
    the idle timer ends the connection, once and for all; a keepalive is owed and
    the next one lies ahead; in every space exactly the packets that count as
    lost leave the packets in flight, what they carried is handed back, and every
    loss deadline left lies ahead; or two probes are owed in the space that timed
    out, and the next probe is due strictly later, up to 32 timeouts in a row. *)
Theorem handle_timeout_exact c now
    (Hopen : closed c = None) (Hn : numbers_fine c) (Hrtt : rtt_sane c) :
  match poll_timeout c with
  | None => handle_timeout now c = c
  | Some d => (now < d → handle_timeout now c = c) ∧ (d ≤ now → timeout_step now c (handle_timeout now c))
  end.
Proof.
  destruct (poll_timeout c) as [d|] eqn:Hp.
  - split; [|by intros; eapply handle_timeout_due].
    intros Hd. apply handle_timeout_early. rewrite poll_timeout_open in Hp by done.
    intros x Hx. pose proof (min_option_le _ _ _ Hp Hx). lia.
  - apply handle_timeout_early. rewrite poll_timeout_open in Hp by done.
    pose proof (min_option_spec (deadlines c)) as H. rewrite Hp in H. rewrite H. by intros ? []%not_elem_of_nil.
Qed.

(** Losses halve the window once each as [Congestion] has it, and the
    window collapses exactly when RFC 9002 Section 7.6 calls for it: when one
    unbroken run of lost packets holds two ack-eliciting ones, both sent after
    the first round-trip sample, further apart than three probe timeouts. *)
Theorem persistent_congestion_exact (space : Space) (lost : list recovery.SentPacket) (now : Z) c
    (Hn : recovery.numbers_ok lost) (Ho : in_order lost) (Hrtt : rtt_sane c) :
  let g := foldl (λ g p, recovery.on_loss g (recovery.time_sent p) now) (congestion c) lost in
  let d := recovery.persistent_congestion_duration (rtt c) (max_ack_delay c) in
  let c' := on_lost_packets space lost now c in
  match rtt_sampled_at c with
  | None => congestion c' = g
  | Some sa => (stretch sa d lost ∧ congestion c' = recovery.on_persistent_congestion g) ∨
               (¬ stretch sa d lost ∧ congestion c' = g)
  end.
Proof.
  cbv zeta. rewrite on_lost_congestion. cbv zeta. destruct (rtt_sampled_at c) as [sa|]; [|done].
  assert (0 ≤ recovery.persistent_congestion_duration (rtt c) (max_ack_delay c)) as Hd.
  { destruct Hrtt as (? & ? & ?). unfold recovery.persistent_congestion_duration, recovery.pto,
      recovery.TIMER_GRANULARITY, recovery.PERSISTENT_CONGESTION_THRESHOLD. lia. }
  pose proof (persistent_from_start lost sa _ Hd Hn Ho) as H.
  destruct (persistent_loop _ _ _ _ _); [left|right]; naive_solver.
Qed.
End timers.

(** An established connection with a packet overdue by the time threshold. *)
Definition overdue : Connection :=
  on_space Data (λ s, s <| sent := recovery.mkSentPackets [recovery.pkt 0 0; recovery.pkt 1 5] (Some 2) (Some 5) |>
    <| loss_deadline := Some 400000000 |>) sample.established.

Lemma handle_timeout_exact_witness :
  poll_timeout overdue = Some 400000000 ∧
  match poll_timeout overdue with
  | None => handle_timeout 400000000 overdue = overdue
  | Some d => (400000000 < d → handle_timeout 400000000 overdue = overdue) ∧
              (d ≤ 400000000 → timeout_step 400000000 overdue (handle_timeout 400000000 overdue))
  end.
Proof.
  split; [reflexivity|]. apply (handle_timeout_exact overdue 400000000); [done| |].
  - intros []; repeat constructor; done.
  - repeat split; done.
Defined.

Lemma persistent_congestion_exact_witness :
  let lost := [recovery.pkt 4 0; recovery.pkt 5 5000000000] in
  let c := sample.established <| rtt_sampled_at := Some 0 |> in
  let g := foldl (λ g p, recovery.on_loss g (recovery.time_sent p) 9) (congestion c) lost in
  let d := recovery.persistent_congestion_duration (rtt c) (max_ack_delay c) in
  let c' := on_lost_packets Data lost 9 c in
  recovery.window (congestion c') = recovery.MIN_WINDOW ∧
  match rtt_sampled_at c with
  | None => congestion c' = g
  | Some sa => (stretch sa d lost ∧ congestion c' = recovery.on_persistent_congestion g) ∨
               (¬ stretch sa d lost ∧ congestion c' = g)
  end.
Proof.
  split; [reflexivity|].
  apply (persistent_congestion_exact Data [recovery.pkt 4 0; recovery.pkt 5 5000000000] 9
           (sample.established <| rtt_sampled_at := Some 0 |>)).
  - repeat constructor; done.
  - repeat constructor; done.
  - repeat split; done.
Defined.
End connection_timers.
