(* ===== verification/QuicConnRun.v ===== *)
(** * Executions of a QUIC connection

    What holds whatever the peer sends, whatever the worker asks for and
    however the two interleave: the stream tables and the packets in flight
    tell the same story ([linked]), and nothing is lost track of. *)

From S2P Require Import Prelude Effects Varint QuicFrame QuicAck QuicReceived QuicPacket QuicHeader QuicTransport QuicRecvStream QuicSendStream QuicRecovery QuicStreams QuicStreamsInv QuicStreamsRun QuicConn QuicConnSample QuicConnTimers.
From stdpp Require Import sets sorting.
#[local] Open Scope Z_scope.

(** What is documented of rustls: its buffers hold bytes, decryption gives
    back bytes, [write_hs] runs out of flights, and the 1-RTT keys are handed
    out once; sealing keeps the length of the payload and adds a tag of 16
    bytes, masking works in place and reports errors instead of panicking. *)
Class RustlsLaws `{RT : Rustls} := {
  one_rtt_given : ClientConnection → bool;
  client_new_given name p t : client_new name p = Some (Ok t) → one_rtt_given t = false;
  write_hs_given t k out t' : write_hs t = (k, out, t') →
    match k with
    | Some (KcOneRtt _ _) => one_rtt_given t = false ∧ one_rtt_given t' = true
    | _ => one_rtt_given t' = one_rtt_given t
    end;
  read_hs_given t data r t' : read_hs t data = (r, t') → one_rtt_given t' = one_rtt_given t;
  write_hs_flights t k out t' : write_hs t = (k, out, t') →
    (k = None ∧ out = []) ∨ (flights t' < flights t)%nat;
  transport_bytes t raw : quic_transport_parameters t = Some raw → bytes_ok raw;
  decrypt_bytes key pn head body plain :
    bytes_ok body → decrypt key pn head body = Some plain → bytes_ok plain;
  unmask_bytes (hp : HeaderKey) smp first pn first' pn' :
    bytes_ok pn → packet.decrypt_in_place hp smp first pn = Ok (first', pn') → bytes_ok pn';
  encrypt_lengths key pn head body sealed tag :
    encrypt key pn head body = Ok (sealed, tag) → length sealed = length body ∧ length tag = connection.TAG_LEN;
  mask_in_place (hp : HeaderKey) smp first pn :
    wp (packet.encrypt_in_place hp smp first pn) (λ r, length r.2 = length pn);
  unmask_in_place (hp : HeaderKey) smp first pn :
    wp (packet.decrypt_in_place hp smp first pn) (λ r, length r.2 = length pn);
}.

Module connection_run.
Import packet connection connection_timers conn_streams_inv conn_streams_run.
Abbreviation good := conn_streams_run.good.
Abbreviation ghost := conn_streams_run.ghost.

(** ** Sublists *)

Lemma Forall_sublist {A} (P : A → Prop) (l k : list A) : l `sublist_of` k → Forall P k → Forall P l.
Proof. induction 1; [done|rewrite !Forall_cons; naive_solver|rewrite Forall_cons; naive_solver]. Qed.

Lemma StronglySorted_sublist {A} (R : A → A → Prop) (l k : list A) :
  l `sublist_of` k → StronglySorted R k → StronglySorted R l.
Proof.
  induction 1 as [|x l k Hs IH|x l k Hs IH]; [done|..]; intros [Hk Hx]%StronglySorted_inv; [|auto].
  constructor; [auto|by eapply Forall_sublist].
Qed.

(** ** The ledger of the streams, one frame at a time *)

Section ledger.
Context `{UnstableSortLaws (Z * bytes)}.
Implicit Types g : ghost.

Lemma flight_split g f rest :
  g_flight g ≡ₚ f :: rest → ∃ i, g_flight g !! i = Some f ∧ delete i (g_flight g) ≡ₚ rest.
Proof.
  intros Hp. assert (f ∈ g_flight g) as Hin by (rewrite Hp; left).
  apply list_elem_of_lookup in Hin as [i Hi]. exists i. split; [done|].
  apply (Permutation_cons_inv (a := f)). rewrite <- Hp. symmetry. by apply delete_Permutation.
Qed.

Lemma good_acked g f rest :
  good g → g_flight g ≡ₚ f :: rest →
  ∃ g', good g' ∧ g_c g' = conn_streams.on_frame_acked (g_c g) f ∧ g_flight g' ≡ₚ rest ∧
    g_polled g' = g_polled g.
Proof.
  intros Hg [i [Hi Hd]]%flight_split. pose proof (step_good g (FrameAcked i) I Hg) as Hs.
  exists (step g (FrameAcked i)). split; [done|]. cbn [step]. by rewrite Hi.
Qed.

Lemma good_lost g f rest :
  good g → g_flight g ≡ₚ f :: rest →
  ∃ g', good g' ∧ g_c g' = conn_streams.on_frame_lost (g_c g) f ∧ g_flight g' ≡ₚ rest ∧
    g_polled g' = g_polled g.
Proof.
  intros Hg [i [Hi Hd]]%flight_split. pose proof (step_good g (FrameLost i) I Hg) as Hs.
  exists (step g (FrameLost i)). split; [done|]. cbn [step]. by rewrite Hi.
Qed.

Lemma good_fold (f : conn_streams.Streams → recovery.SentFrame → conn_streams.Streams) fs g rest :
  (∀ g x rest, good g → g_flight g ≡ₚ x :: rest →
     ∃ g', good g' ∧ g_c g' = f (g_c g) x ∧ g_flight g' ≡ₚ rest ∧ g_polled g' = g_polled g) →
  good g → g_flight g ≡ₚ fs ++ rest →
  ∃ g', good g' ∧ g_c g' = foldl f (g_c g) fs ∧ g_flight g' ≡ₚ rest ∧ g_polled g' = g_polled g.
Proof.
  intros Hf. revert g. induction fs as [|x fs IH]; intros g Hg Hp; [by exists g|].
  destruct (Hf g x (fs ++ rest) Hg Hp) as (g1 & Hg1 & Hc1 & Hp1 & Hl1).
  destruct (IH g1 Hg1 Hp1) as (g2 & Hg2 & Hc2 & Hp2 & Hl2).
  exists g2. split; [done|]. cbn [foldl]. rewrite <- Hc1. split; [done|]. split; [done|]. by rewrite Hl2.
Qed.

(** A step of the streams that neither sends nor settles a frame. *)
Lemma good_step g o :
  good g → allowed g o → g_flight (step g o) = g_flight g → g_polled (step g o) = g_polled g →
  ∃ g', good g' ∧ g_c g' = g_c (step g o) ∧ g_flight g' = g_flight g ∧ g_polled g' = g_polled g.
Proof. intros Hg Ha Hf Hp. exists (step g o). split; [by apply step_good|done]. Qed.

(** Changes of the fields no theorem about streams mentions. *)
Lemma good_with g c' :
  good g → (∀ fl log, shape (g_c g) fl log None None → shape c' fl log None None) →
  conn_streams.events c' = conn_streams.events (g_c g) → same_counts (g_c g) c' →
  good (with_c c' g).
Proof. intros Hg Hs He Hc. apply good_same; [done|apply Hs, Hg|done|done]. Qed.

Lemma good_needs_send g b : good g → good (with_c (conn_streams.set_needs_send b (g_c g)) g).
Proof. intros Hg. apply good_with; [done|intros; by apply shape_needs_send|done|same]. Qed.

Lemma good_retire g l : good g → good (with_c (conn_streams.set_retire_pending l (g_c g)) g).
Proof. intros Hg. apply good_with; [done|intros ? ? Hs; shape_from Hs|done|same]. Qed.

Lemma good_event g e :
  good g → ended_id e = None → opened_id e = None → good (with_c (conn_streams.push_event e (g_c g)) g).
Proof.
  intros (Hs & Hc & Hg1 & Hg2) He Ho. split; [|split; [|done]]; cbn.
  - assert (shape (conn_streams.push_event e (g_c g)) (g_flight g) (logged (g_polled g) (g_c g)) None None) as Hs'
      by shape_from Hs.
    eapply shape_log; [exact Hs'|..]; unfold logged; cbn; rewrite (assoc_L (++)), omap_app; cbn.
    + by rewrite He, app_nil_r.
    + by rewrite Ho, app_nil_r.
  - eapply counts_same; [exact Hc|]. same.
Qed.

(** The peer's parameters arrive: before that nothing has been opened. *)
Definition unopened (s : conn_streams.Streams) : Prop :=
  conn_streams.next_bidi s = 0 ∧ conn_streams.next_uni s = 0 ∧ conn_streams.data_sent s = 0.

Lemma good_params g p :
  good g → unopened (g_c g) → transport.params_ok p → good (with_c (conn_streams.set_params p (g_c g)) g).
Proof.
  intros (Hs & Hc & Hg) (Hb & Hu & Hd) (_&_&_&Hmd&Hbr&Hsb&Hsu&Hus&_). split; [|split; [|done]]; cbn.
  - pose proof (sh_uni_next _ _ _ _ _ Hs) as [Hn _]. destruct Hs. constructor; try done; cbn.
    split; [done|lia].
  - destruct Hc. constructor; try done.
Qed.

Lemma good_adopt g p :
  good g → unopened (g_c g) → transport.params_ok p →
  good (with_c (conn_streams.set_max_streams_bidi (transport.initial_max_streams_bidi p)
    (conn_streams.set_max_data_peer (transport.initial_max_data p) (g_c g))) g).
Proof.
  intros (Hs & Hc & Hg) (Hb & Hu & Hd) (_&_&_&Hmd&Hbr&Hsb&Hsu&Hus&_). split; [|split; [|done]]; cbn.
  - destruct Hs. constructor; try done; cbn. lia.
  - destruct Hc. constructor; try done; cbn. lia.
Qed.
End ledger.

(** ** Opening nothing *)

(** No stream opened and no stream byte sent in between. *)
Definition same_open (s s' : conn_streams.Streams) : Prop :=
  conn_streams.next_bidi s' = conn_streams.next_bidi s ∧ conn_streams.next_uni s' = conn_streams.next_uni s ∧
  conn_streams.data_sent s' = conn_streams.data_sent s.

#[global] Instance same_open_pre : PreOrder same_open.
Proof.
  split; [by intros s|]. intros a b c (?&?&?) (?&?&?). unfold same_open. split_and!; congruence.
Qed.

Lemma same_open_unopened s s' : same_open s s' → unopened s → unopened s'.
Proof. intros (?&?&?) (?&?&?). unfold unopened. split_and!; congruence. Qed.

Lemma open_send_mut s id x put y : conn_streams.send_mut s id = Some (x, put) → same_open s (put y).
Proof. unfold conn_streams.send_mut. repeat (case_match; try done); by intros [= _ <-]. Qed.
Lemma open_queue_send id s : same_open s (conn_streams.queue_send id s).
Proof. unfold conn_streams.queue_send. repeat (case_match; try done). Qed.
Lemma open_settle id s : same_open s (conn_streams.settle id s).
Proof. unfold conn_streams.settle. repeat (case_match; try done). Qed.
Lemma open_readable id s : same_open s (conn_streams.push_readable id s).
Proof. unfold conn_streams.push_readable. by case_match. Qed.

Lemma open_acked s f : same_open s (conn_streams.on_frame_acked s f).
Proof.
  destruct f; cbn [conn_streams.on_frame_acked]; try done; (etrans; [|apply open_settle]);
    destruct (conn_streams.send_mut s _) as [[x put]|] eqn:E; try done; by eapply open_send_mut.
Qed.
Lemma open_lost s f : same_open s (conn_streams.on_frame_lost s f).
Proof.
  destruct f; cbn [conn_streams.on_frame_lost]; try done.
  - etrans; [|apply open_queue_send].
    destruct (conn_streams.send_mut s _) as [[x put]|] eqn:E; try done; by eapply open_send_mut.
  - unfold conn_streams.queue_credit. by case_match.
Qed.
Lemma open_fold (f : conn_streams.Streams → recovery.SentFrame → conn_streams.Streams) fs s :
  (∀ s x, same_open s (f s x)) → same_open s (foldl f s fs).
Proof.
  intros Hf. revert s. induction fs as [|x fs IH]; intros s; [done|]. cbn. etrans; [apply Hf|apply IH].
Qed.

Lemma open_stop_sending s id e : same_open s (conn_streams.on_stop_sending s id e).
Proof.
  unfold conn_streams.on_stop_sending. destruct (conn_streams.send_mut s id) as [[x put]|] eqn:E; [|done].
  destruct (send_stream.is_reset x); [done|]. destruct (send_stream.reset x) as [n x'].
  etrans; [by eapply (open_send_mut _ _ _ _ x')|done].
Qed.
Lemma open_max_stream_data s id l : same_open s (conn_streams.on_max_stream_data s id l).
Proof.
  unfold conn_streams.on_max_stream_data. etrans; [|apply open_queue_send].
  destruct (conn_streams.send_mut s id) as [[x put]|] eqn:E; [|done]. by eapply open_send_mut.
Qed.

Section open_peer.
Context `{UnstableSort (Z * bytes)}.

Lemma open_on_stream s id off data fin s' :
  conn_streams.on_stream s id off data fin = Ok s' → same_open s s'.
Proof.
  unfold conn_streams.on_stream. destruct (conn_streams.stream_index s id) as [i|].
  - destruct (conn_streams.slot s i) as [p|]; [|by intros <-%Ok_inj].
    destruct (conn_streams.retired p); [by intros <-%Ok_inj|].
    intros ([new r] & _ & <-%Ok_inj)%bind_Ok. unfold conn_streams.push_readable. repeat (case_match; try done).
  - destruct (_ && _); [destruct (_ <=? _); [done|by intros <-%Ok_inj]|].
    destruct (stream_ids.is_client_initiated id); [done|]. intros (u & _ & Hs)%bind_Ok.
    apply bind_Ok in Hs as ([[r new] c1] & Hc & <-%Ok_inj).
    assert (same_open s c1) as H1.
    { destruct (list_find _ _) as [[pos [? r0]]|]; apply bind_Ok in Hc as ([n r1] & _ & Hc);
        apply Ok_inj in Hc; injection Hc as <- <- <-; done. }
    etrans; [exact H1|]. destruct (recv_stream.has_data r); [|done]. etrans; [apply open_readable|done].
Qed.

Lemma open_on_reset s id e n s' : conn_streams.on_reset s id e n = Ok s' → same_open s s'.
Proof.
  unfold conn_streams.on_reset. destruct (conn_streams.stream_index s id) as [i|].
  - destruct (conn_streams.slot s i) as [p|]; [|by intros <-%Ok_inj].
    intros ([new r] & _ & <-%Ok_inj)%bind_Ok. by case_match.
  - destruct (stream_ids.is_client_initiated id); [destruct (_ || _); [done|by intros <-%Ok_inj]|].
    intros (u & _ & Hs)%bind_Ok.
    destruct (list_find _ _) as [[pos [? r0]]|]; by apply bind_Ok in Hs as ([new r] & _ & <-%Ok_inj).
Qed.
End open_peer.

(** ** What filling a payload writes *)

(** Frames are recorded for what is written, and only then. *)
Definition wrote (f f' : conn_streams.Fill) : Prop :=
  (∃ fs, conn_streams.frames f' = conn_streams.frames f ++ fs ∧
     (fs ≠ [] → conn_streams.eliciting f' = true ∧
        (length (conn_streams.out f) < length (conn_streams.out f'))%nat)) ∧
  (conn_streams.eliciting f = true → conn_streams.eliciting f' = true) ∧
  (conn_streams.eliciting f' = true → conn_streams.eliciting f = true ∨
     (length (conn_streams.out f) < length (conn_streams.out f'))%nat) ∧
  (length (conn_streams.out f) ≤ length (conn_streams.out f'))%nat.

#[global] Instance wrote_pre : PreOrder wrote.
Proof.
  split.
  - intros f. split; [exists []; by rewrite app_nil_r|]. split_and!; [done|by left|lia].
  - intros a b c ((fs1 & E1 & H1) & Hab & Hab' & Hl1) ((fs2 & E2 & H2) & Hbc & Hbc' & Hl2).
    split; [exists (fs1 ++ fs2); split; [by rewrite E2, E1, (assoc_L (++))|]|split_and!].
    + intros Hne. destruct fs2 as [|x fs2].
      * rewrite app_nil_r in Hne. destruct (H1 Hne). split; [auto|lia].
      * destruct H2; [done|]. split; [done|lia].
    + auto.
    + intros Hc. destruct (Hbc' Hc) as [Hb|]; [|lia]. destruct (Hab' Hb); [by left|right; lia].
    + lia.
Qed.

Lemma wrote_conn c f : wrote f (conn_streams.with_conn c f).
Proof. exact (reflexivity (R := wrote) f). Qed.

Lemma wrote_emit b sf f : (0 < length b)%nat → wrote f (conn_streams.emit b sf f).
Proof.
  intros Hb. assert (length (conn_streams.out f) < length (conn_streams.out (conn_streams.emit b sf f)))%nat as Hl
    by (cbn; rewrite length_app; lia).
  split; [exists [sf]; split; [done|]; intros _; by split|]. split_and!; [done|by right|lia].
Qed.

Lemma put_varint_nonempty v rest : (0 < length (put_varint v ++ rest))%nat.
Proof.
  rewrite length_app. unfold put_varint. repeat case_match; cbn; lia.
Qed.

Section fill_wrote.
Context (budget start : nat).

Lemma wrote_max_data f : wrote f (conn_streams.fill_max_data budget start f).
Proof.
  unfold conn_streams.fill_max_data. destruct (_ && _); [|apply wrote_conn].
  etrans; [apply wrote_conn|apply wrote_emit, put_varint_nonempty].
Qed.
Lemma wrote_credit todo f : wrote f (conn_streams.fill_credit budget start todo f).
Proof.
  revert f. induction todo as [|id todo IH]; intros f; cbn [conn_streams.fill_credit]; [done|].
  destruct (_ <? _)%nat; [done|].
  destruct (conn_streams.recv_mut _ id) as [[r put]|]; [|etrans; [apply wrote_conn|apply IH]].
  destruct (recv_stream.size_known r); [etrans; [apply wrote_conn|apply IH]|].
  destruct (recv_stream.grant r _) as [limit r'].
  etrans; [apply wrote_conn|]. etrans; [apply wrote_emit, put_varint_nonempty|apply IH].
Qed.
Lemma wrote_retire todo f : wrote f (conn_streams.fill_retire budget start todo f).
Proof.
  revert f. induction todo as [|id todo IH]; intros f; cbn [conn_streams.fill_retire]; [done|].
  destruct (_ <? _)%nat; [done|].
  etrans; [apply wrote_conn|]. etrans; [apply wrote_emit, put_varint_nonempty|apply IH].
Qed.
Lemma wrote_reset todo f : wrote f (conn_streams.fill_reset budget start todo f).
Proof.
  revert f. induction todo as [|[[id e] n] todo IH]; intros f; cbn [conn_streams.fill_reset]; [done|].
  destruct (_ <? _)%nat; [done|].
  etrans; [apply wrote_conn|]. etrans; [apply wrote_emit, put_varint_nonempty|apply IH].
Qed.
Lemma wrote_turn f id x put f' : conn_streams.send_turn budget start f id x put = Ok f' → wrote f f'.
Proof.
  unfold conn_streams.send_turn. intros ([[[off data] fin]|] & _ & Hf)%bind_Ok.
  - destruct (send_stream.on_sent x off (length data) fin) as [n x']. apply Ok_inj in Hf as <-.
    etrans; [apply wrote_conn|apply wrote_emit, put_varint_nonempty].
  - apply Ok_inj in Hf as <-. apply wrote_conn.
Qed.
Lemma wrote_uni n i f f' : conn_streams.fill_uni budget start n i f = Ok f' → wrote f f'.
Proof.
  revert i f. induction n as [|n IH]; intros i f; cbn [conn_streams.fill_uni]; [by intros <-%Ok_inj|].
  destruct (_ <? _)%nat; [by intros <-%Ok_inj|]. destruct (_ !! i) as [[id x]|]; [|done].
  intros (f1 & Ht%wrote_turn & Hf)%bind_Ok. etrans; [exact Ht|by eapply IH].
Qed.
Lemma wrote_streams n f f' : conn_streams.fill_streams budget start n f = Ok f' → wrote f f'.
Proof.
  revert f. induction n as [|n IH]; intros f; cbn [conn_streams.fill_streams]; [by intros <-%Ok_inj|].
  destruct (_ <? _)%nat; [by intros <-%Ok_inj|]. destruct (conn_streams.send_queue _) as [|id rest]; [by intros <-%Ok_inj|].
  destruct (conn_streams.stream_index _ _) as [i|]; [|intros Hf%IH; etrans; [apply wrote_conn|exact Hf]].
  destruct (conn_streams.slot _ _) as [x|]; [|intros Hf%IH; etrans; [apply wrote_conn|exact Hf]].
  intros (f1 & Ht%wrote_turn & Hf%IH)%bind_Ok. etrans; [apply wrote_conn|]. etrans; [exact Ht|].
  etrans; [|exact Hf]. case_match; [apply wrote_conn|done].
Qed.

Lemma wrote_data c o fs congested f :
  conn_streams.fill_data_payload budget start c o fs congested = Ok f →
  wrote (conn_streams.mkFill c o fs false) f.
Proof.
  unfold conn_streams.fill_data_payload. set (f1 := conn_streams.fill_max_data _ _ _).
  set (f2 := conn_streams.fill_credit _ _ _ _). set (f3 := conn_streams.fill_retire _ _ _ _).
  set (f4 := conn_streams.fill_reset _ _ _ _). intros Hf.
  assert (wrote (conn_streams.mkFill c o fs false) f4) as H4.
  { etrans; [apply wrote_max_data|]. etrans; [apply wrote_credit|]. etrans; [apply wrote_retire|apply wrote_reset]. }
  destruct congested; [by apply Ok_inj in Hf as <-|].
  apply bind_Ok in Hf as (f5 & H5%wrote_uni & H6%wrote_streams). etrans; [exact H4|]. by etrans.
Qed.

(** With no stream open, nothing is sent on one. *)
Lemma fill_unopened c o fs congested f :
  conn_streams.local_uni c = [] → conn_streams.send_queue c = [] →
  conn_streams.fill_data_payload budget start c o fs congested = Ok f → same_open c (conn_streams.conn f).
Proof.
  intros Hu Hq. unfold conn_streams.fill_data_payload.
  set (calm f := conn_streams.local_uni (conn_streams.conn f) = [] ∧
    conn_streams.send_queue (conn_streams.conn f) = [] ∧ same_open c (conn_streams.conn f)).
  assert (∀ f c', calm f → conn_streams.local_uni c' = conn_streams.local_uni (conn_streams.conn f) →
    conn_streams.send_queue c' = conn_streams.send_queue (conn_streams.conn f) →
    same_open (conn_streams.conn f) c' →
    calm (conn_streams.with_conn c' f)) as Hcalm.
  { intros g c' (H1 & H2 & H3) E1 E2 E3. unfold calm. cbn. rewrite E1, E2. split_and!; [done..|by etrans]. }
  assert (calm (conn_streams.fill_max_data budget start (conn_streams.mkFill c o fs false))) as H1.
  { unfold conn_streams.fill_max_data. assert (calm (conn_streams.mkFill c o fs false)) as H0 by by split_and!.
    repeat case_match; eapply (Hcalm _ _ H0); done. }
  revert H1. generalize (conn_streams.fill_max_data budget start (conn_streams.mkFill c o fs false)). intros f1 H1.
  assert (∀ todo f, calm f → calm (conn_streams.fill_credit budget start todo f)) as Hcr.
  { induction todo as [|id todo IH]; intros g Hg; cbn [conn_streams.fill_credit]; [done|].
    destruct (_ <? _)%nat; [done|].
    destruct (conn_streams.recv_mut _ id) as [[r put]|] eqn:Er; [|apply IH; by eapply (Hcalm _ _ Hg)].
    destruct (recv_stream.size_known r); [apply IH; by eapply (Hcalm _ _ Hg)|].
    destruct (recv_stream.grant r _) as [limit r']. apply IH. eapply (Hcalm _ _ Hg);
      unfold conn_streams.recv_mut in Er; repeat (case_match; try done); injection Er as _ <-; done. }
  assert (∀ todo f, calm f → calm (conn_streams.fill_retire budget start todo f)) as Hre.
  { induction todo as [|id todo IH]; intros g Hg; cbn [conn_streams.fill_retire]; [done|].
    destruct (_ <? _)%nat; [done|]. apply IH. by eapply (Hcalm _ _ Hg). }
  assert (∀ todo f, calm f → calm (conn_streams.fill_reset budget start todo f)) as Hrs.
  { induction todo as [|[[id e] n] todo IH]; intros g Hg; cbn [conn_streams.fill_reset]; [done|].
    destruct (_ <? _)%nat; [done|]. apply IH. by eapply (Hcalm _ _ Hg). }
  set (f4 := conn_streams.fill_reset _ _ _ _). assert (calm f4) as H4 by (unfold f4; auto). clearbody f4.
  destruct congested; [intros <-%Ok_inj; apply H4|]. destruct H4 as (E1 & E2 & E3). rewrite E1. cbn.
  rewrite E2. cbn. intros <-%Ok_inj. exact E3.
Qed.
End fill_wrote.

(** ** The invariant *)

Definition packet_frames (s : recovery.SentPackets) : list recovery.SentFrame :=
  recovery.packets s ≫= recovery.frames.

(** Frames that the streams know nothing of. *)
Definition handshake_frame (f : recovery.SentFrame) : Prop :=
  match f with recovery.Crypto _ _ | recovery.Ping => True | _ => False end.

Lemma handshake_acked_st s f : handshake_frame f → conn_streams.on_frame_acked s f = s.
Proof. by destruct f. Qed.
Lemma handshake_lost_st s f : handshake_frame f → conn_streams.on_frame_lost s f = s.
Proof. by destruct f. Qed.
Lemma handshake_unseen f : handshake_frame f → unseen f.
Proof. by destruct f. Qed.

Section run.
Context `{RL : RustlsLaws} `{SL : UnstableSortLaws (Z * bytes)}.
Implicit Types c : Connection.
Context (polled : list Event).

(** The packets in flight of one space: in the order of their numbers, all of
    which were given out; a packet with frames in it elicits an
    acknowledgement, and then the probe timer has something to count from. *)
Definition sent_ok (s : SpaceState) : Prop :=
  let l := recovery.packets (sent s) in
  StronglySorted (λ p q, recovery.number p < recovery.number q) l ∧
  Forall (λ p, 0 ≤ recovery.number p < next_packet_number s) l ∧ 0 ≤ next_packet_number s ∧
  Forall (λ p, recovery.frames p ≠ [] → recovery.ack_eliciting p = true) l ∧
  Forall (λ p, recovery.ack_eliciting p = true → recovery.last_ack_eliciting (sent s) ≠ None) l.

Lemma sent_ok_sublist s s' :
  sent_ok s → recovery.packets (sent s') `sublist_of` recovery.packets (sent s) →
  recovery.last_ack_eliciting (sent s') = recovery.last_ack_eliciting (sent s) →
  next_packet_number s' = next_packet_number s → sent_ok s'.
Proof.
  intros (Hs & Hn & H0 & Hf & He) Hsub Hl Hpn. unfold sent_ok. rewrite Hpn, Hl.
  split_and!; [|by eapply Forall_sublist|done|by eapply Forall_sublist|by eapply Forall_sublist].
  by eapply StronglySorted_sublist.
Qed.

Lemma sent_ok_same s s' :
  sent_ok s → sent s' = sent s → next_packet_number s' = next_packet_number s → sent_ok s'.
Proof. intros H1 E1 E2. apply (sent_ok_sublist s); [done|by rewrite E1|by rewrite E1|done]. Qed.

Lemma sent_ok_push s s' p :
  sent_ok s → sent s' = recovery.push (sent s) p → recovery.number p = next_packet_number s →
  next_packet_number s' = next_packet_number s + 1 →
  (recovery.frames p ≠ [] → recovery.ack_eliciting p = true) → sent_ok s'.
Proof.
  intros (Hs & Hn & H0 & Hf & He) E1 E2 E3 Hp. unfold sent_ok. rewrite E1, E3. cbn. split_and!; [| |lia| |].
  - apply StronglySorted_app_2; [|done|by repeat constructor]. intros x y Hx Hy%list_elem_of_singleton. subst.
    rewrite Forall_forall in Hn. specialize (Hn x Hx). lia.
  - apply Forall_app. split; [|repeat constructor; lia]. eapply Forall_impl; [exact Hn|]. cbn. lia.
  - apply Forall_app. split; [done|by repeat constructor].
  - apply Forall_app. split; [|repeat constructor; by intros ->]. eapply Forall_impl; [exact He|].
    cbn. intros x Hx Ex. destruct (recovery.ack_eliciting p); [done|by apply Hx].
Qed.

Lemma sent_ok_space space f c :
  (∀ sp, sent_ok (space_of c sp)) → sent_ok (f (space_of c space)) →
  ∀ sp, sent_ok (space_of (on_space space f c) sp).
Proof.
  intros Ho Hf sp. destruct space, sp; first [exact Hf|exact (Ho Initial)|exact (Ho Handshake)|exact (Ho Data)].
Qed.

(** The frames of the 1-RTT packets in flight, and of the handshake's. *)
Definition data_frames c : list recovery.SentFrame := packet_frames (sent (space_data c)).
Definition hs_frames c : list recovery.SentFrame :=
  packet_frames (sent (space_initial c)) ++ packet_frames (sent (space_handshake c)).

(** The streams are those of an execution of [QuicStreamsRun] whose frames in
    flight are [extra] and those of the packets in flight. *)
Definition linked (extra : list recovery.SentFrame) c : Prop :=
  ∃ g, good g ∧ g_c g = st c ∧ g_flight g ≡ₚ extra ++ data_frames c ∧ g_polled g = polled.

(** Streams are opened only once the peer's parameters are known. *)
Definition gate c : Prop :=
  (one_rtt_given (tls c) = false → connected c = false) ∧ (connected c = false → unopened (st c)).

Definition inv (extra : list recovery.SentFrame) c : Prop :=
  linked extra c ∧ Forall handshake_frame (hs_frames c) ∧ gate c ∧ ∀ space, sent_ok (space_of c space).

(** A change of the stream tables. *)
Lemma inv_on_st extra extra' f c :
  inv extra c →
  (∀ g, good g → g_c g = st c → g_flight g ≡ₚ extra ++ data_frames c → g_polled g = polled →
     ∃ g', good g' ∧ g_c g' = f (st c) ∧ g_flight g' ≡ₚ extra' ++ data_frames c ∧ g_polled g' = polled) →
  (connected c = false → same_open (st c) (f (st c))) →
  inv extra' (on_st f c).
Proof.
  intros ((g & Hg & Hc & Hf & Hp) & Hhs & (Hg1 & Hg2) & Hok) Hstep Ho.
  split; [by apply (Hstep g)|]. split; [done|]. split; [|exact Hok]. split; [done|]. cbn. intros Hconn.
  eapply same_open_unopened; [by apply Ho|by apply Hg2].
Qed.

(** One step of the streams' own executions. *)
Lemma inv_op extra o f c :
  inv extra c → (∀ g, g_c g = st c → allowed g o) →
  (∀ g, g_c g = st c → g_c (step g o) = f (st c) ∧ g_flight (step g o) = g_flight g ∧ g_polled (step g o) = g_polled g) →
  (connected c = false → same_open (st c) (f (st c))) →
  inv extra (on_st f c).
Proof.
  intros Hi Ha Hs Ho. apply (inv_on_st extra extra); [done| |done]. intros g Hg Hc Hf Hp.
  destruct (Hs g Hc) as (E1 & E2 & E3). exists (step g o).
  split; [by apply step_good; [apply Ha|]|]. by rewrite E1, E2, E3.
Qed.

Lemma inv_with extra f c :
  inv extra c → (∀ g, good g → g_c g = st c → good (with_c (f (st c)) g)) →
  (connected c = false → same_open (st c) (f (st c))) → inv extra (on_st f c).
Proof.
  intros Hi Hw Ho. apply (inv_on_st extra extra); [done| |done]. intros g Hg Hc Hf Hp.
  exists (with_c (f (st c)) g). split; [by apply Hw|done].
Qed.

Lemma inv_need_send extra c : inv extra c → inv extra (need_send c).
Proof.
  intros Hi. apply inv_with; [done| |done]. intros g Hg <-. by apply good_needs_send.
Qed.

Lemma inv_event extra e c : inv extra c → ended_id e = None → opened_id e = None → inv extra (push_event e c).
Proof.
  intros Hi He Ho. apply inv_with; [done| |done]. intros g Hg <-. by apply good_event.
Qed.

Lemma inv_push_retire extra l c : inv extra c → inv extra (push_retire l c).
Proof.
  intros Hi. apply inv_with; [done| |done]. intros g Hg <-. by apply good_retire.
Qed.

Lemma inv_lose extra why c : inv extra c → inv extra (lose why c).
Proof. intros Hi. unfold lose. destruct (closed c); [done|]. by apply inv_event. Qed.

Lemma inv_close_transport extra code why c : inv extra c → inv extra (close_transport code why c).
Proof. intros Hi. unfold close_transport. destruct (closed c); [done|]. by apply inv_lose. Qed.

(** A change of a space that keeps its packets in flight. *)
Lemma inv_on_space extra space f c :
  inv extra c → (∀ s, sent (f s) = sent s ∧ next_packet_number (f s) = next_packet_number s) →
  inv extra (on_space space f c).
Proof.
  intros ((g & Hg & Hc & Hf & Hp) & Hhs & Hgt & Hok) Hs.
  assert (data_frames (on_space space f c) = data_frames c) as Hd.
  { destruct space; unfold data_frames; cbn; try done. by destruct (Hs (space_data c)) as [-> _]. }
  assert (hs_frames (on_space space f c) = hs_frames c) as Hh.
  { destruct space; unfold hs_frames; cbn; try done;
      [by destruct (Hs (space_initial c)) as [-> _]|by destruct (Hs (space_handshake c)) as [-> _]]. }
  split; [exists g; rewrite Hd; by destruct space|]. split; [by rewrite Hh|]. split; [by destruct space|].
  apply sent_ok_space; [done|]. destruct (Hs (space_of c space)). by eapply sent_ok_same.
Qed.

(** A space forgets its packets. *)
Lemma inv_cleared extra space f c :
  space ≠ Data →
  (∀ s, sent (f s) = recovery.sent_default ∧ next_packet_number (f s) = next_packet_number s) →
  inv extra c → inv extra (on_space space f c).
Proof.
  intros Hsp Hf (Hl & Hhs & Hgt & Hok). unfold hs_frames in Hhs. apply Forall_app in Hhs as [Hi Hh].
  assert (∀ sp, sent_ok (space_of (on_space space f c) sp)) as Hok'.
  { apply sent_ok_space; [done|]. destruct (Hf (space_of c space)) as [E1 E2].
    destruct (Hok space) as (_ & _ & H0 & _). unfold sent_ok. rewrite E1, E2. split_and!; by try constructor. }
  destruct space; [| |done]; (split; [exact Hl|]); (split; [|split; [exact Hgt|exact Hok']]);
    unfold hs_frames, packet_frames; cbn.
  - by destruct (Hf (space_initial c)) as [-> _].
  - destruct (Hf (space_handshake c)) as [-> _]. cbn. by rewrite app_nil_r.
Qed.

(** Only the streams, the packets in flight and the stage of the handshake count. *)
Lemma inv_frame extra c c' :
  st c' = st c → space_initial c' = space_initial c → space_handshake c' = space_handshake c →
  space_data c' = space_data c → tls c' = tls c → connected c' = connected c → inv extra c → inv extra c'.
Proof.
  intros E1 E2 E3 E4 E5 E6. unfold inv, linked, gate, hs_frames, data_frames. rewrite E1, E2, E3, E4, E5, E6.
  assert (∀ sp, space_of c' sp = space_of c sp) as Hsp by (by intros []).
  intros (Hl & Hh & Hg & Hok). split; [exact Hl|]. split; [exact Hh|]. split; [exact Hg|]. intros sp. by rewrite Hsp.
Qed.

Lemma inv_discard extra space c : space ≠ Data → inv extra c → inv extra (discard_space space c).
Proof.
  intros Hsp Hi. unfold discard_space.
  match goal with |- context [on_space space ?f c] => apply (inv_cleared extra space f) in Hi; [|done|done] end.
  eapply inv_frame; [..|exact Hi]; by destruct space.
Qed.

Lemma rotate_frame at' phase c :
  let c' := rotate_keys at' phase c in
  st c' = st c ∧ space_initial c' = space_initial c ∧ space_handshake c' = space_handshake c ∧
  space_data c' = space_data c ∧ tls c' = tls c ∧ connected c' = connected c.
Proof.
  unfold rotate_keys. destruct (next_1rtt c) as [next|]; [|done]. cbn. destruct (secrets c) as [s|]; [|done].
  by destruct (next_packet_keys s).
Qed.

Lemma inv_rotate extra at' phase c : inv extra c → inv extra (rotate_keys at' phase c).
Proof. destruct (rotate_frame at' phase c) as (?&E1&E2&E3&?&?). apply inv_frame; congruence. Qed.

Lemma inv_note_scid extra space scid c : inv extra c → inv extra (note_scid space scid c).
Proof.
  intros Hi. unfold note_scid. destruct scid as [scid|]; [|done]. destruct (handshake_done c); [done|].
  cbn. destruct (peer_cids c), (decide (space = Initial)); exact Hi.
Qed.

(** ** Acknowledgement and loss *)

(** The frames of packets taken out of flight: those of 1-RTT packets still
    have to be told to the streams. *)
Definition owed (space : Space) (l : list recovery.SentPacket) : list recovery.SentFrame :=
  if decide (space = Data) then l ≫= recovery.frames else [].

(** [s] is [s0] without the packets [gone]. *)
Definition taken (s0 s : recovery.SentPackets) (gone : list recovery.SentPacket) : Prop :=
  recovery.packets s0 ≡ₚ recovery.packets s ++ gone ∧ recovery.packets s `sublist_of` recovery.packets s0 ∧
  recovery.last_ack_eliciting s = recovery.last_ack_eliciting s0.

Lemma inv_taken extra space s gone c :
  taken (sent (space_of c space)) s gone → inv extra c →
  inv (owed space gone ++ extra) (on_space space (λ ss, ss <| sent := s |>) c) ∧
  (space ≠ Data → Forall handshake_frame (gone ≫= recovery.frames)).
Proof.
  intros (Hp & Hsub & Hla) ((g & Hg & Hc & Hf & Hpl) & Hhs & Hgt & Hok). unfold hs_frames, packet_frames in Hhs.
  assert (∀ sp, sent_ok (space_of (on_space space (λ ss, ss <| sent := s |>) c) sp)) as Hok'
    by (apply sent_ok_space; [done|]; by apply (sent_ok_sublist (space_of c space))).
  apply Forall_app in Hhs as [Hi Hh].
  destruct space; unfold owed; cbn [space_of decide] in Hp.
  1, 2: (rewrite Hp, bind_app, Forall_app in Hi || rewrite Hp, bind_app, Forall_app in Hh);
    (split; [|intros _; naive_solver]); (split; [by exists g|]); (split; [|split; [exact Hgt|exact Hok']]);
    unfold hs_frames, packet_frames; cbn; apply Forall_app; naive_solver.
  split; [|done]. split; [|split; [by apply Forall_app|split; [exact Hgt|exact Hok']]]. exists g. split; [done|]. split; [done|].
  split; [|done]. rewrite Hf. unfold data_frames, packet_frames. cbn. rewrite Hp, bind_app.
  solve_Permutation.
Qed.

Lemma foldl_acked fs c :
  foldl (λ c f, on_frame_acked f c) c fs = on_st (λ s, foldl conn_streams.on_frame_acked s fs) c.
Proof.
  revert c. induction fs as [|f fs IH]; intros c; [by destruct c|]. cbn [foldl]. by rewrite IH.
Qed.

Lemma st_after_loss space s k g c : st (after_loss space s k g c) = s.
Proof. by destruct space. Qed.

Lemma foldl_lost space fs c :
  ∃ k, foldl (λ c f, on_frame_lost space f c) c fs =
    after_loss space (foldl conn_streams.on_frame_lost (st c) fs) k (congestion c) c.
Proof.
  assert (∀ f c, ∃ k, on_frame_lost space f c =
    after_loss space (conn_streams.on_frame_lost (st c) f) k (congestion c) c) as Hone.
  { clear c. intros f c. destruct f; cbn [on_frame_lost];
      try (exists (crypto_sent (space_of c space)); destruct space; destruct c as [? [] [] []]; reflexivity).
    eexists. destruct space; destruct c as [? [] [] []]; reflexivity. }
  revert c. induction fs as [|f fs IH]; intros c.
  - exists (crypto_sent (space_of c space)). apply after_loss_refl.
  - cbn [foldl]. destruct (Hone f c) as [k1 E]. rewrite E. destruct (IH (after_loss space (conn_streams.on_frame_lost (st c) f) k1 (congestion c) c)) as [k ->].
    exists k. rewrite after_loss_twice, st_after_loss. by destruct space.
Qed.

(** Frames of a handshake space change nothing in the streams. *)
Lemma foldl_handshake (f : Streams → recovery.SentFrame → Streams) fs s :
  (∀ s x, handshake_frame x → f s x = s) → Forall handshake_frame fs → foldl f s fs = s.
Proof. intros Hf. induction 1 as [|x fs Hx _ IH]; [done|]. cbn. by rewrite Hf. Qed.

Lemma inv_told extra space (f : Streams → recovery.SentFrame → Streams) p c :
  (∀ g x rest, good g → g_flight g ≡ₚ x :: rest →
     ∃ g', good g' ∧ g_c g' = f (g_c g) x ∧ g_flight g' ≡ₚ rest ∧ g_polled g' = g_polled g) →
  (∀ s x, handshake_frame x → f s x = s) → (∀ s x, same_open s (f s x)) →
  (space ≠ Data → Forall handshake_frame (recovery.frames p)) →
  inv (owed space [p] ++ extra) c →
  inv extra (on_st (λ s, foldl f s (recovery.frames p)) c).
Proof.
  intros Hf Hq Ho Hhs Hi. unfold owed in Hi. destruct (decide (space = Data)).
  - cbn in Hi. rewrite app_nil_r in Hi. eapply inv_on_st; [exact Hi| |intros; by apply open_fold].
    intros g Hg Hc Hfl Hp. rewrite <- (assoc_L (++)) in Hfl.
    destruct (good_fold f _ g _ Hf Hg Hfl) as (g' & Hg' & Hc' & Hf' & Hp').
    exists g'. split; [done|]. by rewrite Hc', Hc, Hp'.
  - apply inv_with; [done| |by intros; apply open_fold].
    intros g Hg <-. rewrite foldl_handshake by auto. by destruct g.
Qed.

Lemma inv_ack_packet extra space c p :
  (space ≠ Data → Forall handshake_frame (recovery.frames p)) →
  inv (owed space [p] ++ extra) c → inv extra (ack_packet space c p).
Proof.
  intros Hhs Hi. unfold ack_packet. rewrite foldl_acked.
  eapply (inv_told extra space); [apply good_acked|apply handshake_acked_st|apply open_acked|done|].
  destruct (recovery.ack_largest p); [|done]. by apply inv_on_space.
Qed.

Lemma inv_after_loss extra space s k g c : inv extra (on_st (λ _, s) c) → inv extra (after_loss space s k g c).
Proof.
  intros Hi. unfold after_loss. apply inv_on_space; [|done]. eapply inv_frame; [..|exact Hi]; done.
Qed.

Lemma inv_lose_packet extra space now c p :
  (space ≠ Data → Forall handshake_frame (recovery.frames p)) →
  inv (owed space [p] ++ extra) c → inv extra (lose_packet space now c p).
Proof.
  intros Hhs Hi. unfold lose_packet. destruct (foldl_lost space (recovery.frames p)
    (c <| congestion := recovery.on_loss (congestion c) (recovery.time_sent p) now |>)) as [k ->].
  apply inv_after_loss.
  eapply (inv_told extra space (conn_streams.on_frame_lost) p c);
    [apply good_lost|apply handshake_lost_st|apply open_lost|done|done].
Qed.

Lemma owed_cons space p l : owed space (p :: l) = owed space [p] ++ owed space l.
Proof. unfold owed. destruct (decide _); [|done]. cbn. by rewrite app_nil_r. Qed.

Lemma inv_fold_packets extra space (f : Connection → recovery.SentPacket → Connection) l c :
  (∀ extra c p, (space ≠ Data → Forall handshake_frame (recovery.frames p)) →
     inv (owed space [p] ++ extra) c → inv extra (f c p)) →
  (space ≠ Data → Forall handshake_frame (l ≫= recovery.frames)) →
  inv (owed space l ++ extra) c → inv extra (foldl f c l).
Proof.
  intros Hf. revert c. induction l as [|p l IH]; intros c Hq Hi.
  { unfold owed in Hi. cbn in *. by destruct (decide (space = Data)). }
  cbn [foldl]. rewrite owed_cons, <- (assoc_L (++)) in Hi. cbn in Hq. apply IH.
  - intros Hd. specialize (Hq Hd). by apply Forall_app in Hq as [? ?].
  - apply Hf; [|done]. intros Hd. specialize (Hq Hd). by apply Forall_app in Hq as [? ?].
Qed.

Lemma inv_on_lost_packets extra space lost now c :
  (space ≠ Data → Forall handshake_frame (lost ≫= recovery.frames)) →
  inv (owed space lost ++ extra) c → inv extra (on_lost_packets space lost now c).
Proof.
  intros Hq Hi. unfold on_lost_packets.
  assert (inv extra (foldl (lose_packet space now) c lost)) as H1.
  { eapply inv_fold_packets; [|exact Hq|exact Hi]. intros. by apply inv_lose_packet. }
  destruct (rtt_sampled_at _); [|done]. destruct (persistent_loop _ _ _ _ _); [|done].
  eapply inv_frame; [..|exact H1]; done.
Qed.

Lemma detect_loop_perm ps la now ld lost d kept lost' d' :
  recovery.detect_loop ps la now ld lost d = (kept, lost', d') → lost ++ ps ≡ₚ kept ++ lost'.
Proof.
  revert lost d kept lost' d'. induction ps as [|p ps IH]; intros lost d kept lost' d'; cbn [recovery.detect_loop].
  { intros [= <- <- _]. by rewrite app_nil_r. }
  destruct (la <? recovery.number p); [|destruct (_ || _)].
  - destruct (recovery.detect_loop ps la now ld lost d) as [[k l] e] eqn:E. intros [= <- <- _].
    apply IH in E. cbn. by rewrite <- Permutation_middle, E.
  - intros E%IH. by rewrite <- E, <- (assoc_L (++)).
  - destruct (recovery.detect_loop ps la now ld lost _) as [[k l] e] eqn:E. intros [= <- <- _].
    apply IH in E. cbn. by rewrite <- Permutation_middle, E.
Qed.

Lemma detect_loop_sublist ps la now ld lost d kept lost' d' :
  recovery.detect_loop ps la now ld lost d = (kept, lost', d') → kept `sublist_of` ps.
Proof.
  revert lost d kept lost' d'. induction ps as [|p ps IH]; intros lost d kept lost' d'; cbn [recovery.detect_loop].
  { by intros [= <- <- _]. }
  destruct (la <? recovery.number p); [|destruct (_ || _)].
  - destruct (recovery.detect_loop ps la now ld lost d) as [[k l] e] eqn:E. intros [= <- <- _].
    by apply sublist_skip, (IH _ _ _ _ _ E).
  - intros E%IH. by apply sublist_cons.
  - destruct (recovery.detect_loop ps la now ld lost _) as [[k l] e] eqn:E. intros [= <- <- _].
    by apply sublist_skip, (IH _ _ _ _ _ E).
Qed.

Lemma detect_lost_taken s now ld s' lost d :
  recovery.detect_lost s now ld = (s', lost, d) → taken s s' lost.
Proof.
  unfold recovery.detect_lost. destruct (recovery.largest_acked s) as [la|].
  - destruct (recovery.detect_loop _ _ _ _ _ _) as [[k l] e] eqn:E. intros [= <- <- _].
    split; [by apply detect_loop_perm in E|]. split; [by apply detect_loop_sublist in E|done].
  - intros [= <- <- _]. split; [by rewrite app_nil_r|done].
Qed.

Lemma drain_acked_taken s ranges s' acked :
  recovery.drain_acked s ranges [] = (s', acked) → taken s s' acked.
Proof.
  unfold recovery.drain_acked. rewrite recovery.drain_loop_spec. intros [= <- <-].
  split; [apply recovery.filter_partition|]. split; [apply recovery.sublist_filter|done].
Qed.

Lemma inv_detect_space extra space now ld c : inv extra c → inv extra (snd (detect_space space now ld c)).
Proof.
  intros Hi. unfold detect_space.
  destruct (recovery.detect_lost (sent (space_of c space)) now ld) as [[s lost] d] eqn:E. cbn [snd].
  apply detect_lost_taken in E. destruct (inv_taken extra space s lost c E Hi) as [H1 H2].
  apply inv_on_space; [|done]. by apply inv_on_lost_packets.
Qed.

Lemma inv_sample_rtt extra largest delay now acked c : inv extra c → inv extra (sample_rtt largest delay now acked c).
Proof.
  intros Hi. unfold sample_rtt. destruct (list_find _ _) as [[i p]|]; [|done].
  destruct (recovery.ack_eliciting p); [|done]. cbn. destruct (rtt_sampled_at c); eapply inv_frame; try exact Hi; done.
Qed.

Lemma inv_on_ack extra space largest delay first ranges now c :
  inv extra c → inv extra (on_ack space largest delay first ranges now c).
Proof.
  intros Hi. unfold on_ack.
  destruct (recovery.drain_acked (sent (space_of c space)) _ []) as [s acked] eqn:E.
  apply drain_acked_taken in E. destruct (inv_taken extra space s acked c E Hi) as [H1 H2].
  destruct acked as [|p0 acked0] eqn:Ea.
  { unfold owed in H1. by destruct (decide (space = Data)). }
  rewrite <- Ea in *. clear p0 acked0 Ea E Hi. set (c1 := on_space space _ c) in *. clearbody c1.
  assert (inv (owed space acked ++ extra)
    (if decide (space = Handshake) then c1 <| handshake_acked := true |> else c1)) as H3
    by (destruct (decide (space = Handshake)); [eapply inv_frame; [..|exact H1]|]; done).
  apply (inv_sample_rtt _ largest delay now acked) in H3. set (c3 := sample_rtt _ _ _ _ _) in *. clearbody c3.
  assert (inv extra (foldl (ack_packet space) c3 acked)) as H4.
  { eapply inv_fold_packets; [|exact H2|exact H3]. intros. by apply inv_ack_packet. }
  set (c4 := foldl _ c3 acked) in *. clearbody c4.
  set (c5 := match recovery.max_option _ with Some _ => _ | None => _ end).
  assert (inv extra c5) as H5.
  { unfold c5. destruct (recovery.max_option _); [eapply inv_frame; [..|exact H4]|]; done. }
  pose proof (inv_detect_space extra space now (recovery.loss_delay (rtt c5)) c5 H5) as H6.
  destruct (detect_space space now (recovery.loss_delay (rtt c5)) c5) as [[] c6]; [by apply inv_need_send|done].
Qed.

Lemma inv_handle_timeout extra now c : inv extra c → inv extra (handle_timeout now c).
Proof.
  intros Hi. unfold handle_timeout.
  destruct (match idle_deadline c with Some _ => _ | None => _ end).
  { apply inv_lose. eapply inv_frame; [..|exact Hi]; done. }
  destruct (match keepalive_deadline c with Some _ => _ | None => _ end).
  { apply inv_need_send. eapply inv_frame; [..|exact Hi]; done. }
  destruct (loss_deadline_of c) as [a|].
  { destruct (now <? a); [done|]. apply inv_need_send. cbn [ALL foldl]. by do 3 apply inv_detect_space. }
  destruct (pto_due c) as [[space a]|]; [|done]. destruct (now <? a); [done|].
  apply inv_need_send. apply (inv_on_space extra space (λ s, s <| crypto_sent := 0%nat |>)) in Hi; [|done].
  eapply inv_frame; [..|exact Hi]; done.
Qed.

(** ** The handshake *)

Lemma inv_tls extra t c :
  inv extra c → (one_rtt_given t = false → one_rtt_given (tls c) = false) → inv extra (c <| tls := t |>).
Proof.
  intros (Hl & Hhs & (Hg1 & Hg2) & Hok) Ht. split; [done|]. split; [done|]. split; [|exact Hok]. split; [cbn; auto|done].
Qed.

Lemma bail_keeps {A} (I : Connection → Prop) msg : keeps I (bail_m msg : eff Connection conn_error A).
Proof. apply keeps_lift. Qed.
Lemma panic_keeps {A} (I : Connection → Prop) msg : keeps I (panic_m msg : eff Connection conn_error A).
Proof. apply keeps_lift. Qed.

(** The peer's parameters are taken before any stream is open. *)
Lemma take_params_inv c :
  inv [] c → connected c = false →
  let c' := (take_peer_params c).2 in inv [] c' ∧ connected c' = false ∧ tls c' = tls c.
Proof.
  intros Hi Hc. unfold take_peer_params. rewrite bind_run. cbn [get].
  destruct (quic_transport_parameters (tls c)) as [raw|] eqn:Hraw; [|done].
  rewrite bind_run. unfold lift_res, lift. destruct (transport.decode raw) as [p|e] eqn:Hp; cbn [conn_streams.of_res]; [|done].
  assert (transport.params_ok p) as Hok
    by (eapply wp_elim; [apply transport.decode_wp; by eapply transport_bytes|exact Hp]).
  assert (unopened (st c)) as Hu by (by apply Hi).
  rewrite bind_run. cbn [modify]. set (c1 := on_st _ c).
  assert (inv [] c1) as H1.
  { apply inv_with; [done| |done]. intros g Hg E. rewrite <- E. apply good_params; [done|by rewrite E|done]. }
  rewrite bind_run. cbn [get]. rewrite bind_run. cbn [lift]. destruct (validate_server_params c1); [|done].
  rewrite bind_run. cbn [modify]. set (c2 := on_st _ c1).
  assert (inv [] c2) as H2.
  { apply inv_with; [done| |done]. intros g Hg E. rewrite <- E. apply good_adopt; [done|rewrite E; exact Hu|done]. }
  cbn [modify snd]. destruct (find_seq 0 (peer_cids c2)) as [[j e]|]; [|done].
  split; [eapply inv_frame; [..|exact H2]; done|done].
Qed.

Lemma pump_loop_inv fuel : keeps (inv []) (pump_loop fuel).
Proof.
  induction fuel as [|fuel IH]; [apply panic_keeps|].
  intros c Hi. cbn [pump_loop]. rewrite bind_run. cbn [get].
  destruct (write_hs (tls c)) as [[change produced] t] eqn:Hw. pose proof (write_hs_given _ _ _ _ Hw) as Hgiven.
  set (space := if has_keys c Handshake then Handshake else Initial). clearbody space.
  rewrite bind_run. cbn [modify]. set (c1 := on_space space _ (c <| tls := t |>)).
  assert (inv [] c1) as H1.
  { apply inv_on_space; [|done]. apply inv_tls; [done|]. destruct change as [[]|]; [congruence|naive_solver|congruence]. }
  assert (connected c1 = connected c ∧ tls c1 = t) as [Hc1 Ht1] by (by destruct space).
  clearbody c1. destruct change as [[k|k next]|].
  - rewrite bind_run. cbn [modify]. rewrite bind_run. cbn [modify]. apply IH.
    apply inv_need_send. by apply inv_on_space.
  - destruct Hgiven as [Hgf Hgt]. assert (connected c1 = false) as Hcf by (rewrite Hc1; by apply Hi).
    rewrite bind_run. destruct (take_params_inv c1 H1 Hcf) as (H2 & Hc2 & Ht2).
    destruct (take_peer_params c1) as [[[]|e] c2]; cbn [snd] in *; [|done].
    rewrite bind_run. cbn [modify]. rewrite bind_run. cbn [modify]. apply IH, inv_need_send.
    destruct (next_packet_keys next) as [ks s']. apply inv_event; [|done..].
    destruct H2 as (Hl & Hhs & _ & Hok). split; [exact Hl|]. split; [exact Hhs|]. split; [|exact Hok].
    split; [|done]. cbn. congruence.
  - destruct (length produced =? 0)%nat; [done|]. rewrite bind_run. cbn [modify]. by apply IH, inv_need_send.
Qed.

Lemma pump_tls_inv : keeps (inv []) pump_tls.
Proof. apply keeps_bind; [apply keeps_get|intros c; apply pump_loop_inv]. Qed.

Lemma read_crypto_given r t n r' t' : read_crypto r t = (n, r', t') → one_rtt_given t' = one_rtt_given t.
Proof.
  unfold read_crypto. destruct (_ =? _)%nat; [by intros [= _ _ <-]|].
  destruct (read_hs t _) as [[[]|e] t1] eqn:E; apply read_hs_given in E.
  - destruct (recv_stream.consume _ _) as [[? ?]|]; by intros [= _ _ <-].
  - by intros [= _ _ <-].
Qed.

Lemma on_crypto_inv space offset data : keeps (inv []) (on_crypto space offset data).
Proof.
  intros c Hi. unfold on_crypto. rewrite bind_run. cbn [get]. rewrite bind_run.
  unfold lift. destruct (conn_streams.of_recv _) as [[x r]|e]; [|done].
  destruct (read_crypto r (tls c)) as [[n r'] t] eqn:Hr. apply read_crypto_given in Hr.
  rewrite bind_run. cbn [modify]. set (c1 := on_space space _ _).
  assert (inv [] c1) as H1 by (apply inv_on_space; [apply inv_tls; [done|congruence]|done]).
  destruct n as [n|e]; [|by apply inv_close_transport].
  destruct (n =? 0)%nat; [done|by apply pump_tls_inv].
Qed.

Lemma on_retry_inv dcid scid token packet : keeps (inv []) (on_retry dcid scid token packet).
Proof.
  intros c Hi. unfold on_retry. rewrite bind_run. cbn [get].
  destruct (_ || _); [done|]. destruct (negb _); [done|].
  rewrite bind_run. cbn [modify]. set (c1 := _ <| peer_cid := scid |>).
  assert (inv [] c1) as H1 by (eapply inv_frame; [..|exact Hi]; done).
  rewrite bind_run. unfold lift_res, lift. destruct (initial_keys _) as [k|e]; cbn [conn_streams.of_res]; [|done].
  cbn [modify snd]. apply inv_need_send.
  apply (inv_cleared [] Initial (λ s, s <| keys := Some k |> <| crypto_sent := 0%nat |>
    <| sent := recovery.sent_default |> <| loss_deadline := None |>)) in H1; [|done..].
  eapply inv_frame; [..|exact H1]; done.
Qed.

Lemma inv_version_negotiation dcid scid versions c :
  inv [] c → inv [] (on_version_negotiation dcid scid versions c).
Proof. intros Hi. unfold on_version_negotiation. repeat case_match; try done. by apply inv_lose. Qed.

(** ** Frames *)

Lemma on_new_connection_id_inv seq retire cid token : keeps (inv []) (on_new_connection_id seq retire cid token).
Proof.
  unfold on_new_connection_id. destruct (_ =? _)%nat; [apply bail_keeps|]. destruct (_ <? _); [apply bail_keeps|].
  apply keeps_bind; [apply keeps_get|]. intros c0. destruct (_ <? _).
  { apply keeps_modify. intros c Hi. by apply inv_need_send, inv_push_retire. }
  destruct (find_seq seq _) as [[i known]|]; [destruct (_ || _); [apply bail_keeps|apply keeps_ret]|].
  apply keeps_bind.
  { apply keeps_when, keeps_modify. intros c Hi. cbn. destruct (retire_loop _ _) as [kept gone].
    apply inv_need_send, inv_push_retire. eapply inv_frame; [..|exact Hi]; done. }
  intros _. apply keeps_bind; [apply keeps_get|]. intros c1. apply keeps_bind.
  - destruct (_ <? _); [|apply keeps_ret]. apply keeps_bind; [apply keeps_lift|]. intros id.
    apply keeps_modify. intros c Hi. eapply inv_frame; [..|exact Hi]; done.
  - intros _. apply keeps_modify. intros c Hi. destruct (_ <? _); [|done].
    destruct (min_seq _); [eapply inv_frame; [..|exact Hi]|]; done.
Qed.

Lemma on_streams_inv o f :
  (∀ s s', f s = Ok s' → ∀ g, g_c g = s → allowed g o ∧
     g_c (step g o) = s' ∧ g_flight (step g o) = g_flight g ∧ g_polled (step g o) = g_polled g) →
  (∀ s s', f s = Ok s' → same_open s s') →
  keeps (inv []) (on_streams f).
Proof.
  intros Hf Ho c Hi. unfold on_streams. rewrite bind_run. cbn [get]. rewrite bind_run. unfold lift.
  destruct (f (st c)) as [s'|e] eqn:E; [|done]. cbn [modify snd].
  apply (inv_op [] o); [done| | |intros _; by apply Ho].
  - intros g Hg. by apply (Hf _ _ E).
  - intros g Hg. by apply (Hf _ _ E).
Qed.

Lemma keeps_op o f :
  (∀ s g, g_c g = s → allowed g o ∧ g_c (step g o) = f s ∧ g_flight (step g o) = g_flight g ∧
     g_polled (step g o) = g_polled g) →
  (∀ s, same_open s (f s)) → keeps (inv []) (modify (on_st f) : eff Connection conn_error unit).
Proof.
  intros Hf Ho. apply keeps_modify. intros c Hi. apply (inv_op [] o); [done| | |auto].
  - intros g Hg. by apply (Hf (st c)).
  - intros g Hg. by apply (Hf (st c)).
Qed.

Lemma handle_frame_inv space f now : frame.wire_ok f → keeps (inv []) (handle_frame space f now).
Proof.
  intros Hw. destruct f; cbn [handle_frame frame.wire_ok] in *; unfold frame.varint_ok in *; try apply keeps_ret.
  - apply keeps_modify. intros c. apply inv_on_ack.
  - apply (on_streams_inv (GotReset id error final_size)); [|intros; by eapply open_on_reset].
    intros s s' E g <-. cbn [step allowed]. rewrite E. split; [lia|done].
  - apply (keeps_op (GotStopSending id error)); [|intros; apply open_stop_sending]. by intros s g <-.
  - apply on_crypto_inv.
  - apply (on_streams_inv (GotStream id offset data fin)); [|intros; by eapply open_on_stream].
    intros s s' E g <-. cbn [step allowed]. rewrite E. split; [lia|done].
  - apply (keeps_op (GotMaxData limit)); [|by intros]. by intros s g <-.
  - apply (keeps_op (GotMaxStreamData id limit)); [|intros; apply open_max_stream_data].
    intros s g <-. split; [cbn; lia|done].
  - apply (keeps_op (GotMaxStreams uni limit)); [|intros; unfold conn_streams.on_max_streams; by destruct uni].
    intros s g <-. split; [cbn; lia|done].
  - apply on_new_connection_id_inv.
  - unfold on_path_challenge. destruct (_ =? _)%nat; [|apply bail_keeps]. apply keeps_modify.
    intros c Hi. apply inv_need_send. eapply inv_frame; [..|exact Hi]; done.
  - apply keeps_modify. intros c. apply inv_lose.
  - apply keeps_modify. intros c Hi. apply inv_discard; [done|]. eapply inv_frame; [..|exact Hi]; done.
Qed.

Lemma handle_frames_inv space now fs b :
  (∀ f, Ok f ∈ fs → frame.wire_ok f) → keeps (inv []) (handle_frames space now fs b).
Proof.
  revert b. induction fs as [|r fs IH]; intros b Hw; cbn [handle_frames]; [apply keeps_ret|].
  intros c Hc. rewrite bind_run. unfold lift_res, lift. destruct r as [f|e]; cbn [conn_streams.of_res]; [|done].
  revert c Hc. apply keeps_bind; [apply handle_frame_inv, Hw; left|]. intros _. apply IH.
  intros g Hg. apply Hw. by right.
Qed.

(** ** Packets and datagrams *)

Lemma process_packet_inv space scid pn payload now :
  bytes_ok payload → keeps (inv []) (process_packet space scid pn payload now).
Proof.
  intros Hok. unfold process_packet. apply keeps_bind; [apply keeps_modify; intros; by apply inv_note_scid|]. intros _.
  apply keeps_bind; [apply keeps_modify; intros; by apply inv_on_space|]. intros _.
  apply keeps_bind; [apply handle_frames_inv; intros f; by apply frame.frames_wire|]. intros b.
  apply keeps_bind; [apply keeps_modify; intros; by apply inv_on_space|]. intros _.
  apply keeps_bind; [apply keeps_when, keeps_modify, inv_need_send|]. intros _.
  apply keeps_modify. intros c Hi. eapply inv_frame; [..|exact Hi]; done.
Qed.

Lemma unprotect_bytes hp p off first n p' :
  bytes_ok p → unprotect_header hp p off = Ok (first, n, p') → bytes_ok (drop 1 p').
Proof.
  intros Hok. unfold unprotect_header. destruct (_ <? _)%nat; [done|]. intros Hb.
  apply bind_Ok in Hb as (smp & _ & Hb). apply bind_Ok in Hb as (f0 & _ & Hb). apply bind_Ok in Hb as (rest & Hr & Hb).
  apply bind_Ok in Hb as (u & _ & Hb). apply bind_Ok in Hb as (pn & Hpn & Hb). apply bind_Ok in Hb as ([f1 pn'] & Hd & Hb).
  apply Ok_inj in Hb. injection Hb as <- <- <-. unfold write_header. cbn [drop].
  apply slice_Ok in Hr as [_ ->]. apply slice_Ok in Hpn as [_ ->].
  rewrite drop_0, !bytes_ok_app. split; [by apply bytes_ok_take, bytes_ok_drop|]. split; [|by apply bytes_ok_drop].
  eapply unmask_bytes; [|exact Hd]. by apply bytes_ok_take, bytes_ok_drop, bytes_ok_take, bytes_ok_drop.
Qed.

Lemma decrypted_bytes key pn pkt (off n : nat) head payload :
  bytes_ok (drop 1 pkt) → (0 < off)%nat → decrypt key pn head (drop (off + n) pkt) = Some payload → bytes_ok payload.
Proof.
  intros Hok Hoff Hd. eapply decrypt_bytes; [|exact Hd]. replace (off + n)%nat with (1 + (off + n - 1))%nat by lia.
  rewrite <- drop_drop. by apply bytes_ok_drop.
Qed.

Lemma handle_protected_inv now buf space pn_offset end_ scid :
  bytes_ok buf → (0 < pn_offset)%nat → keeps (inv []) (handle_protected now buf space pn_offset end_ scid).
Proof.
  intros Hok Hpos. apply keeps_bind; [apply keeps_get|]. intros c0.
  destruct (remote_keys c0 space) as [k|]; [|apply keeps_ret].
  intros c Hi. rewrite bind_run. unfold lift_res, lift at 1.
  destruct (slice buf 0 end_) as [pkt|e] eqn:Hs; cbn [conn_streams.of_res]; [|done].
  apply slice_Ok in Hs as [_ Hs]. assert (bytes_ok pkt) as Hpkt by (rewrite Hs; by apply bytes_ok_take, bytes_ok_drop).
  revert c Hi. destruct (unprotect_header (header_key k) pkt pn_offset) as [[[first n] pkt']|[m|m]] eqn:Hu;
    [|apply keeps_ret|apply panic_keeps].
  apply unprotect_bytes in Hu; [|done]. apply keeps_bind; [apply keeps_lift|]. intros pnb.
  set (pn := decode_packet_number _ _ _). set (phase := bool_decide _ && _). set (generation := if decide _ then _ else _).
  destruct (key_for c0 space generation) as [key|]; [|apply keeps_ret].
  destruct (decrypt key pn _ _) as [payload|] eqn:Hd; [|apply keeps_ret].
  assert (bytes_ok payload) as Hpay by (by eapply decrypted_bytes).
  destruct (received.insert _ pn) as [fresh r]. apply keeps_bind; [apply keeps_modify; intros; by apply inv_on_space|].
  intros _. destruct fresh; cbn [negb]; [|apply keeps_ret].
  apply keeps_bind; [apply keeps_when, keeps_modify; intros; by apply inv_rotate|]. intros _.
  apply keeps_bind; [by apply process_packet_inv|]. intros _. apply keeps_ret.
Qed.

Lemma handle_packet_inv now buf : bytes_ok buf → keeps (inv []) (handle_packet now buf).
Proof.
  intros Hok. apply keeps_bind; [apply keeps_get|]. intros c0.
  pose proof (header.decode_header_wp buf (len (local_cid c0)) Hok) as Hwp.
  destruct (header.decode_header buf _) as [[space scid pn_offset end_|pn_offset end_|dcid scid token|dcid scid vs]|[m|m]];
    cbn in Hwp.
  - apply handle_protected_inv; [done|lia].
  - apply handle_protected_inv; [done|lia].
  - apply keeps_bind; [apply on_retry_inv|]. intros _. apply keeps_ret.
  - apply keeps_bind; [apply keeps_modify, inv_version_negotiation|]. intros _. apply keeps_ret.
  - apply keeps_ret.
  - done.
Qed.

Lemma datagram_loop_inv fuel now d pos ok : bytes_ok d → keeps (inv []) (datagram_loop fuel now d pos ok).
Proof.
  intros Hok. revert pos ok. induction fuel as [|fuel IH]; intros pos ok; cbn [datagram_loop];
    (destruct (_ <=? _)%nat; [apply keeps_ret|]); [apply panic_keeps|].
  intros c Hi. pose proof (handle_packet_inv now (drop pos d) (bytes_ok_drop _ _ Hok) c Hi) as H1.
  destruct (handle_packet now (drop pos d) c) as [[[n b]|[e|e]] c']; cbn [snd] in *.
  - destruct (n =? 0)%nat; [done|by apply IH].
  - done.
  - by apply inv_close_transport.
Qed.

Lemma inv_arm_idle extra now c : inv extra c → inv extra (arm_idle now c).
Proof. intros Hi. unfold arm_idle. destruct (_ && _); [done|]. eapply inv_frame; [..|exact Hi]; done. Qed.

Lemma handle_datagram_inv now d : bytes_ok d → keeps (inv []) (handle_datagram now d).
Proof.
  intros Hok. apply keeps_bind; [apply keeps_get|]. intros c0. destruct (closed c0); [apply keeps_ret|].
  apply keeps_bind; [by apply datagram_loop_inv|]. intros [[]|]; [| |apply keeps_ret].
  - apply keeps_modify. intros c Hi. apply inv_arm_idle. eapply inv_frame; [..|exact Hi]; done.
  - apply keeps_bind; [apply keeps_get|]. intros c1. destruct (stateless_reset_tail d) as [tail|]; [|apply keeps_ret].
    apply keeps_when, keeps_modify. intros c. apply inv_lose.
Qed.

(** ** Building a packet *)

Lemma good_unseen (g : ghost) fs :
  good g → Forall unseen fs →
  good (mkGhost (g_c g) (g_flight g ++ fs) (g_polled g) (g_gone g) (g_gone_sent g)).
Proof. intros (Hs & Hc & Hg) Hfs. split; [by apply shape_frames|done]. Qed.

Lemma inv_unseen extra fs c : inv extra c → Forall unseen fs → inv (extra ++ fs) c.
Proof.
  intros ((g & Hg & Hc & Hf & Hp) & Hhs & Hgt) Hfs. split; [|done].
  exists (mkGhost (g_c g) (g_flight g ++ fs) (g_polled g) (g_gone g) (g_gone_sent g)).
  split; [by apply good_unseen|]. split; [done|]. split; [|done]. cbn. rewrite Hf. solve_Permutation.
Qed.

Lemma unopened_idle (g : ghost) :
  good g → unopened (g_c g) → conn_streams.local_uni (g_c g) = [] ∧ conn_streams.send_queue (g_c g) = [].
Proof.
  intros (Hs & _) (Hb & Hu & _). split.
  - pose proof (sh_uni_next _ _ _ _ _ Hs) as [Hn _]. rewrite Hu in Hn. destruct (conn_streams.local_uni (g_c g)); [done|llia].
  - pose proof (sh_queue _ _ _ _ _ Hs) as [_ Hq]. rewrite Hb in Hq.
    destruct (conn_streams.send_queue (g_c g)) as [|id q]; [done|]. inversion_clear Hq as [|? ? [_ Hid] _]. lia.
Qed.

Lemma inv_fill_data budget start out fs congested f c :
  inv [] c → Forall unseen fs →
  conn_streams.fill_data_payload budget start (st c) out fs congested = Ok f →
  inv (conn_streams.frames f) (on_st (λ _, conn_streams.conn f) c).
Proof.
  intros Hi Hfs Hfill. pose proof Hi as ((g & Hg & Hc & Hf & Hp) & _ & (_ & Hgate) & _).
  eapply inv_on_st; [exact Hi| |].
  - clear g Hg Hc Hf Hp. intros g Hg Hc Hf Hp. exists (step g (FillPacket budget start out fs congested)).
    split; [by apply step_good|]. cbn [step]. rewrite Hc, Hfill. cbn. split; [done|]. split; [|done].
    rewrite Hf. cbn. solve_Permutation.
  - intros Hconn. destruct (unopened_idle g Hg) as [E1 E2]; [rewrite Hc; by apply Hgate|].
    rewrite Hc in E1, E2. by eapply fill_unopened.
Qed.

(** A payload under construction: what it will have to answer for. *)
Definition answers (space : Space) (fs : list recovery.SentFrame) c : Prop :=
  inv (if decide (space = Data) then fs else []) c ∧ (space ≠ Data → Forall handshake_frame fs).

Lemma answers_handshake space fs c : inv [] c → Forall handshake_frame fs → answers space fs c.
Proof.
  intros Hi Hfs. split; [|done]. destruct (decide (space = Data)); [|done].
  apply (inv_unseen [] fs); [done|]. eapply Forall_impl; [exact Hfs|]. apply handshake_unseen.
Qed.

Lemma answers_ping space fs c : answers space fs c → answers space (fs ++ [recovery.Ping]) c.
Proof.
  intros [Hi Hq]. split.
  - destruct (decide (space = Data)); [|done]. apply inv_unseen; [done|]. by repeat constructor.
  - intros Hd. apply Forall_app. split; [by apply Hq|]. by repeat constructor.
Qed.

(** Frames only together with bytes that carry them. *)
Definition carried (start : nat) (out : bytes) (fs : list recovery.SentFrame) (eliciting : bool) : Prop :=
  (start ≤ length out)%nat ∧ (fs ≠ [] → eliciting = true) ∧ (eliciting = true → (start < length out)%nat).

(** The same packets in flight, the same numbers given out, the same keys. *)
Definition steady_space (s s' : SpaceState) : Prop :=
  sent s' = sent s ∧ next_packet_number s' = next_packet_number s ∧ keys s' = keys s ∧
  crypto_out s' = crypto_out s ∧ received s' = received s.
Definition steady c c' : Prop :=
  (∀ sp, steady_space (space_of c sp) (space_of c' sp)) ∧ one_rtt_local c' = one_rtt_local c ∧
  peer_cid c' = peer_cid c ∧ key_phase c' = key_phase c ∧ closed c' = closed c.

#[global] Instance steady_pre : PreOrder steady.
Proof.
  split.
  - intros c. by repeat split.
  - intros a b c (Hs & ?&?&?&?) (Hs' & ?&?&?&?). split; [|split_and!; congruence].
    intros sp. destruct (Hs sp) as (?&?&?&?&?), (Hs' sp) as (?&?&?&?&?). unfold steady_space. split_and!; congruence.
Qed.

Lemma steady_on_space space f c :
  (∀ s, steady_space s (f s)) → steady c (on_space space f c).
Proof.
  intros Hf. split; [|by destruct space]. intros sp. destruct space, sp; first [apply Hf|by repeat split].
Qed.

Section filling.
Context (space : Space) (now : Z) (budget start : nat).

(** Filling a payload leaves the packets, their numbers and the keys alone. *)
Lemma fill_payload_steady out congested : evolves steady (fill_payload space now budget start out congested).
Proof.
  unfold fill_payload. apply evolves_bind; [apply _| |].
  { apply evolves_bind_get. intros c. unfold when. destruct (_ && _); [|done].
    rewrite bind_run. unfold lift_res, lift. destruct (frame.put_ack _ _); cbn [conn_streams.of_res]; [|done].
    by apply steady_on_space. }
  intros [o1 al]. apply evolves_bind; [apply _| |].
  { apply evolves_bind_get. intros c. destruct (decide _); [|done]. destruct (path_response c); [|done].
    rewrite bind_run. cbn [modify]. by destruct (_ <? _)%nat. }
  intros [o2 b]. apply evolves_bind; [apply _| |].
  { apply evolves_bind_get. intros c. destruct (decide _); [|done]. by destruct (close_pending c). }
  intros [o3|]; [apply evolves_ret; apply _|]. apply evolves_bind; [apply _|apply evolves_get; apply _|]. intros c0.
  apply evolves_bind; [apply _| |].
  { generalize (length (crypto_out (space_of c0 space))) o2 (@nil recovery.SentFrame) b. clear.
    induction n as [|n IH]; intros o fs b; cbn [fill_crypto]; apply evolves_bind; try apply _;
      try (apply evolves_get; apply _); intros c; cbv zeta;
      (destruct (_ || _); [apply evolves_ret; apply _|]); (destruct (_ =? _)%nat; [apply evolves_ret; apply _|]).
    - apply evolves_lift. apply _.
    - apply evolves_bind; [apply _|apply evolves_modify; intros x; by apply steady_on_space|]. intros _. apply IH. }
  intros [[o4 fs] b4]. apply evolves_bind; [apply _| |].
  { destruct (decide _); [|apply evolves_ret; apply _]. apply evolves_bind; [apply _|apply evolves_get; apply _|].
    intros c1. apply evolves_bind; [apply _|apply evolves_lift; apply _|]. intros f.
    apply evolves_bind; [apply _|by apply evolves_modify; intros x|]. intros _. apply evolves_ret. apply _. }
  assert (∀ due clear f, (∀ c, steady c (clear c)) → evolves steady (fill_ping budget start due clear f)) as Hp.
  { intros due clear f Hcl. unfold fill_ping. destruct (_ && _); [|apply evolves_ret; apply _].
    apply evolves_bind; [apply _|by apply evolves_modify|]. intros _. destruct (fl_ack_eliciting f); apply evolves_ret; apply _. }
  intros f. apply evolves_bind; [apply _|apply evolves_get; apply _|]. intros c1.
  apply evolves_bind; [apply _|by apply Hp|]. intros f1.
  apply evolves_bind; [apply _|apply evolves_get; apply _|]. intros c2. by apply Hp.
Qed.

Lemma fill_ack_inv out c :
  inv [] c → holds (fill_ack space now budget start out) c
    (λ r c', inv [] c' ∧ (length out ≤ length r.1)%nat) (λ _ _, True).
Proof.
  intros Hi. apply holds_bind, holds_get. cbv zeta. destruct (_ && _); [|by apply holds_ret].
  apply holds_bind, holds_lift; [|done]. intros b _. apply holds_bind, holds_modify, holds_ret.
  split; [by apply inv_on_space|]. cbn. rewrite length_app. lia.
Qed.

Lemma fill_path_response_inv out c :
  inv [] c → (start ≤ length out)%nat →
  holds (fill_path_response space budget start out) c
    (λ r c', inv [] c' ∧ carried start r.1 [] r.2) (λ _ _, True).
Proof.
  intros Hi Hl. apply holds_bind, holds_get.
  assert (carried start out [] false) as H0 by (by split_and!).
  destruct (decide (space = Data)); [|by apply holds_ret]. destruct (path_response c) as [d|]; [|by apply holds_ret].
  apply holds_bind, holds_modify. assert (inv [] (c <| path_response := None |>)) as H1
    by (eapply inv_frame; [..|exact Hi]; done).
  destruct (_ <? _)%nat; [|by apply holds_ret]. apply holds_ret. split; [done|].
  pose proof (put_varint_nonempty frame.PATH_RESPONSE d) as Hne. unfold frame.put_path_response.
  split_and!; cbn; try done; rewrite length_app; lia.
Qed.

Lemma fill_close_inv out c :
  inv [] c → holds (fill_close space out) c
    (λ r c', inv [] c' ∧ match r with Some o => (length out ≤ length o)%nat | None => True end) (λ _ _, True).
Proof.
  intros Hi. apply holds_bind, holds_get. destruct (decide _); [|by apply holds_ret].
  destruct (close_pending c); [|by apply holds_ret]. apply holds_bind, holds_modify, holds_ret.
  split; [eapply inv_frame; [..|exact Hi]; done|]. rewrite length_app. lia.
Qed.

Lemma fill_crypto_inv fuel out fs b c :
  inv [] c → Forall handshake_frame fs → carried start out fs b →
  holds (fill_crypto space budget start fuel out fs b) c
    (λ '(out', fs', b') c', inv [] c' ∧ Forall handshake_frame fs' ∧ carried start out' fs' b') (λ _ _, True).
Proof.
  revert out fs b c. induction fuel as [|fuel IH]; intros out fs b c Hi Hfs Hc; cbn [fill_crypto];
    apply holds_bind, holds_get; cbv zeta; (destruct (_ || _); [by apply holds_ret|]);
    (destruct (_ =? _)%nat; [by apply holds_ret|]); [by apply holds_lift|].
  apply holds_bind, holds_modify. apply IH; [by apply inv_on_space|apply Forall_app; by repeat constructor|].
  destruct Hc as (Hl & _ & _). unfold frame.put_crypto.
  match goal with |- context [put_varint frame.CRYPTO ++ ?r] => pose proof (put_varint_nonempty frame.CRYPTO r) end.
  split_and!; try done; rewrite length_app; lia.
Qed.

Lemma fill_ping_inv due clear f c :
  (∀ extra c, inv extra c → inv extra (clear c)) →
  answers space (fl_frames f) c → carried start (fl_out f) (fl_frames f) (fl_ack_eliciting f) →
  holds (fill_ping budget start due clear f) c
    (λ f' c', answers space (fl_frames f') c' ∧ carried start (fl_out f') (fl_frames f') (fl_ack_eliciting f')) (λ _ _, True).
Proof.
  intros Hcl [Ha Hq] Hc. unfold fill_ping. destruct (_ && _); [|by apply holds_ret].
  apply holds_bind, holds_modify. assert (answers space (fl_frames f) (clear c)) as Ha' by (split; [by apply Hcl|done]).
  destruct (fl_ack_eliciting f) eqn:E; [apply holds_ret; by rewrite E|]. apply holds_ret. split; [by apply answers_ping|].
  destruct Hc as (Hl & _ & _). split_and!; cbn; try done; rewrite length_app; cbn; lia.
Qed.

Lemma fill_payload_inv out congested c :
  inv [] c → start = length out →
  holds (fill_payload space now budget start out congested) c
    (λ f c', answers space (fl_frames f) c' ∧ (start ≤ length (fl_out f))%nat ∧
       (fl_frames f ≠ [] → (start < length (fl_out f))%nat ∧ fl_ack_eliciting f = true)) (λ _ _, True).
Proof.
  intros Hi Hst. apply holds_bind. eapply holds_mono; [by apply fill_ack_inv| |done].
  intros [o1 al] c1 [H1 L1]. cbn in L1. apply holds_bind.
  eapply holds_mono; [apply fill_path_response_inv; [done|lia]| |done]. intros [o2 b] c2 [H2 C2]. cbn in C2.
  apply holds_bind. eapply holds_mono; [by apply fill_close_inv| |done]. intros [o3|] c3 [H3 L3].
  { apply holds_ret. cbn. split; [by apply answers_handshake|]. split; [|done]. destruct C2; lia. }
  apply holds_bind, holds_get, holds_bind. eapply holds_mono; [by apply fill_crypto_inv| |done].
  intros [[o4 fs] b4] c4 (H4 & F4 & C4). apply holds_bind.
  set (P := λ (f : Filled) c', answers space (fl_frames f) c' ∧ carried start (fl_out f) (fl_frames f) (fl_ack_eliciting f)).
  apply (holds_mono _ _ P _ (λ _ _, True)); [| |done].
  - destruct (decide (space = Data)) as [Hd|Hd].
    + apply holds_bind, holds_get, holds_bind, holds_lift; [|done]. intros f Hf.
      unfold conn_streams.of_res in Hf. destruct (conn_streams.fill_data_payload _ _ _ _ _ _) as [f'|] eqn:E; [|done].
      apply Ok_inj in Hf as ->. apply holds_bind, holds_modify, holds_ret. split.
      * split; [|done]. cbn. destruct (decide (space = Data)); [|done]. eapply inv_fill_data; [done| |exact E].
        eapply Forall_impl; [exact F4|]. apply handshake_unseen.
      * cbn. apply wrote_data in E as ((fs2 & E2 & Hne) & _ & Hel & Hle). cbn in *. destruct C4 as (L4 & N4 & G4).
        split_and!; [lia| |].
        -- intros Hn. apply orb_true_iff. rewrite E2 in Hn. destruct fs2; [rewrite app_nil_r in Hn; by left; apply N4|].
           right. by apply Hne.
        -- intros [Hb%G4|Hb]%orb_true_iff; [lia|]. destruct (Hel Hb); [done|lia].
    + apply holds_ret. split; [by apply answers_handshake|done].
  - intros f c5 [A5 C5]. apply holds_bind, holds_get, holds_bind. eapply holds_mono.
    + apply fill_ping_inv; [|exact A5|exact C5]. intros extra c6 H6. eapply inv_frame; [..|exact H6]; done.
    + intros f6 c6 [A6 C6]. apply holds_bind, holds_get. eapply holds_mono.
      * apply fill_ping_inv; [|exact A6|exact C6]. intros extra c7 H7. eapply inv_frame; [..|exact H7]; done.
      * intros f7 c7 [A7 (L7 & N7 & G7)]. split; [done|]. split; [done|]. intros Hn. split; [by apply G7, N7|by apply N7].
      * done.
    + done.
Qed.
End filling.

Lemma inv_pushed space p f c :
  (∀ s, sent (f s) = recovery.push (sent s) p ∧ next_packet_number (f s) = next_packet_number s + 1) →
  recovery.number p = next_packet_number (space_of c space) →
  (recovery.frames p ≠ [] → recovery.ack_eliciting p = true) →
  answers space (recovery.frames p) c → inv [] (on_space space f c).
Proof.
  intros Hf Hnum Hel [((g & Hg & Hc & Hfl & Hp) & Hhs & Hgt & Hok) Hq].
  assert (∀ sp, sent_ok (space_of (on_space space f c) sp)) as Hok'.
  { apply sent_ok_space; [done|]. destruct (Hf (space_of c space)). by apply (sent_ok_push (space_of c space) _ p). } unfold hs_frames, packet_frames in Hhs.
  apply Forall_app in Hhs as [Hi Hh].
  assert (∀ s, packet_frames (sent (f s)) = packet_frames (sent s) ++ recovery.frames p) as Hpf.
  { intros s. unfold packet_frames. destruct (Hf s) as [-> _]. cbn. rewrite bind_app. cbn. by rewrite app_nil_r. }
  destruct space; cbn [decide] in *.
  1, 2: (split; [exists g; by split_and!|]; split; [|split; [exact Hgt|exact Hok']]); unfold hs_frames; cbn;
    rewrite Hpf, !Forall_app; split_and!; try done; by apply Hq.
  split; [|split; [by apply Forall_app|split; [exact Hgt|exact Hok']]]. exists g. split; [done|]. split; [done|]. split; [|done].
  rewrite Hfl. unfold data_frames. cbn. rewrite Hpf. solve_Permutation.
Qed.

Lemma inv_note_sent extra now c : inv extra c → inv extra (note_sent now c).
Proof.
  intros Hi. unfold note_sent. destruct (sent_since_recv c); [done|].
  assert (inv extra (c <| sent_since_recv := true |>)) as H1 by (eapply inv_frame; [..|exact Hi]; done).
  destruct (connected _); [by apply inv_arm_idle|done].
Qed.

(** Header and encryption change nothing but the bytes. *)
Lemma put_header_still space n : evolves eq (put_header space n).
Proof. intros c. unfold put_header. rewrite bind_run. cbn [get]. by destruct (decide (space = Data)). Qed.
Lemma seal_still space pn n hs po ps out : evolves eq (seal space pn n hs po ps out).
Proof.
  unfold seal. evolve; by apply evolves_lift || apply evolves_lift; apply _.
Qed.

Lemma record_packet_inv space now pn size f c :
  answers space (fl_frames f) c → (fl_frames f ≠ [] → fl_ack_eliciting f = true) →
  pn = next_packet_number (space_of c space) → inv [] (record_packet space now pn size f c).2.
Proof.
  intros Ha Hn ->. unfold record_packet. rewrite bind_run. cbn [modify]. set (c1 := on_space space _ c).
  assert (inv [] c1) as H1 by (unfold c1; by eapply (inv_pushed space)).
  unfold when. destruct (fl_ack_eliciting f); [by apply inv_note_sent|done].
Qed.

Lemma write_packet_inv space now out dstart congested pad c :
  inv [] c → holds (write_packet space now out dstart congested pad) c (λ _ c', inv [] c') (λ _ _, True).
Proof.
  intros Hi. unfold write_packet. destruct (_ <? _)%nat; [by apply holds_ret|].
  apply holds_bind, holds_get. cbv zeta. destruct (encode_packet_number _ _) as [tpn pl].
  apply holds_bind. unfold holds at 1. pose proof (put_header_still space (Z.to_nat pl) c) as Hh.
  destruct (put_header space _ c) as [[head|e] c1]; cbn [snd] in Hh; [|done]. subst c1.
  apply holds_bind. eapply holds_mono;
    [apply holds_evolves; [by apply fill_payload_inv|apply fill_payload_steady]| |done].
  intros f c2 ((A2 & L2 & N2) & S2 & _).
  destruct (Nat.eqb_spec (length (fl_out f)) (length ((out ++ head) ++ drop (8 - Z.to_nat pl) (be_bytes 8 tpn)))) as [E|E].
  { apply holds_ret. destruct (fl_frames f) as [|x fs] eqn:Ef.
    - destruct A2 as [A2 _]. by destruct (decide (space = Data)).
    - destruct N2 as [N2 _]; [done|lia]. }
  apply holds_bind. unfold holds at 1. set (m := seal _ _ _ _ _ _ _). pose proof (seal_still _ _ _ _ _ _ _ c2 : c2 = (m c2).2) as Hs.
  destruct (m c2) as [[o|e] c3]; cbn [snd] in Hs; [|done]. subst c3.
  apply holds_bind. unfold holds at 1. set (r := record_packet _ _ _ _ _).
  assert (inv [] (r c2).2) as H4.
  { apply record_packet_inv; [done|by intros [_ ?]%N2|]. by destruct (S2 space) as (_ & -> & _). }
  destruct (r c2) as [[[]|e] c4]; [|done]. by apply holds_ret.
Qed.

Lemma transmit_loop_inv spaces now out start congested pad c :
  inv [] c → holds (transmit_loop spaces now out start congested pad) c (λ _ c', inv [] c') (λ _ _, True).
Proof.
  revert out c. induction spaces as [|space rest IH]; intros out c Hi; cbn [transmit_loop]; [by apply holds_ret|].
  destruct (_ <=? _)%nat; [by apply holds_ret|]. apply holds_bind, holds_get.
  destruct (local_keys c space); [|by apply IH]. cbv zeta. apply holds_bind.
  eapply holds_mono; [by apply write_packet_inv| |done]. intros [w o] c1 H1.
  apply holds_bind, holds_get, holds_bind.
  apply (holds_mono _ _ (λ _ c', inv [] c') _ (λ _ _, True)); [| |done].
  - unfold when. destruct (_ && _); [apply holds_modify; by apply inv_discard|by apply holds_ret].
  - intros [] c2 H2. destruct (_ && _); [by apply holds_ret|by apply IH].
Qed.

Lemma poll_transmit_inv now out pad c :
  inv [] c → holds (poll_transmit now out pad) c (λ _ c', inv [] c') (λ _ _, True).
Proof.
  intros Hi. apply holds_bind, holds_get. destruct (match closed c with Some _ => _ | None => _ end); [by apply holds_ret|].
  apply holds_bind. pose proof (pump_tls_inv c Hi) as Hp. unfold holds. destruct (pump_tls c) as [[[]|e] c1]; [|done].
  cbn in Hp. apply holds_bind, holds_get. cbv zeta. apply holds_bind.
  eapply holds_mono; [by apply transmit_loop_inv| |done]. intros o c2 H2. apply holds_bind, holds_get, holds_bind.
  apply (holds_mono _ _ (λ _ c', inv [] c') _ (λ _ _, True)); [| |done].
  - unfold when. destruct (_ && _); [apply holds_modify; by apply inv_arm_idle|by apply holds_ret].
  - intros [] c3 H3. by apply holds_ret.
Qed.
End run.

(** ** Acknowledgement and timers, for a preorder

    What a preorder on connections has to allow for an acknowledgement and a
    timeout to move along it. *)
Section moves.
Context `{RT : Rustls}.
Context (R : Connection → Connection → Prop) `{!PreOrder R}.
Implicit Types c : Connection.
Hypothesis R_st : ∀ f c, R c (on_st f c).
Hypothesis R_detect : ∀ space now ld c, R c (snd (detect_space space now ld c)).

Lemma moves_fold {A} (f : Connection → A → Connection) l c : (∀ c x, R c (f c x)) → R c (foldl f c l).
Proof.
  intros Hf. revert c. induction l as [|x l IH]; intros c; [done|]. cbn. etrans; [apply Hf|apply IH].
Qed.

Lemma on_ack_moves space largest delay first ranges now c :
  (∀ c s gone, taken (sent (space_of c space)) s gone → R c (on_space space (λ ss, ss <| sent := s |>) c)) →
  (∀ c l, R c (on_space space (λ s, s <| ack := ack.trim_below (ack s) l |>) c)) →
  (∀ c, R c (c <| handshake_acked := true |>)) → (∀ c r, R c (c <| rtt := r |>)) →
  (∀ c t, R c (c <| rtt_sampled_at := t |>)) → (∀ c g, R c (c <| congestion := g |>)) →
  R c (on_ack space largest delay first ranges now c).
Proof.
  intros Htaken Htrim Hacked Hrtt Hsampled Hcong. unfold on_ack.
  destruct (recovery.drain_acked (sent (space_of c space)) _ []) as [s acked] eqn:E.
  apply drain_acked_taken in E. destruct acked as [|p0 acked0] eqn:Ea; [by eapply Htaken|]. rewrite <- Ea in *.
  etrans; [by eapply Htaken|]. set (c1 := on_space space _ c). clearbody c1.
  set (c2 := if decide (space = Handshake) then _ else _).
  assert (R c1 c2) as H2 by (unfold c2; destruct (decide (space = Handshake)); [apply Hacked|done]).
  etrans; [exact H2|]. clearbody c2. set (c3 := sample_rtt _ _ _ _ c2). assert (R c2 c3) as H3.
  { unfold c3, sample_rtt. destruct (list_find _ _) as [[i p]|]; [|done]. destruct (recovery.ack_eliciting p); [|done].
    cbv zeta. case_match; [apply Hrtt|]. etrans; [apply Hrtt|apply Hsampled]. }
  etrans; [exact H3|]. clearbody c3. etrans; [apply (moves_fold (ack_packet space) acked)|].
  { intros c' p. unfold ack_packet. rewrite foldl_acked. etrans; [|apply R_st].
    destruct (recovery.ack_largest p); [apply Htrim|done]. }
  set (c4 := foldl _ _ acked). clearbody c4. set (c5 := match recovery.max_option _ with Some _ => _ | None => _ end).
  assert (R c4 c5) as H5 by (unfold c5; destruct (recovery.max_option _); [apply Hcong|done]).
  etrans; [exact H5|]. clearbody c5. pose proof (R_detect space now (recovery.loss_delay (rtt c5)) c5) as H6.
  destruct (detect_space space now (recovery.loss_delay (rtt c5)) c5) as [[] c6]; [|done].
  etrans; [exact H6|apply R_st].
Qed.

Lemma handle_timeout_moves now c :
  (∀ c why, R c (lose why c)) → (∀ c d, R c (c <| idle_deadline := d |>)) →
  (∀ c n, R c (c <| keepalive_pending := true |> <| next_keepalive := n |>)) →
  (∀ c space, R c (on_space space (λ s, s <| crypto_sent := 0%nat |>) c)) →
  (∀ c n k sp, R c (c <| pto_count := n |> <| pto_probes := k |> <| pto_space := sp |>)) →
  R c (handle_timeout now c).
Proof.
  intros Hlose Hidle Hkeep Hspace Hpto. unfold handle_timeout.
  destruct (match idle_deadline c with Some _ => _ | None => _ end); [etrans; [|apply Hlose]; apply Hidle|].
  destruct (match keepalive_deadline c with Some _ => _ | None => _ end); [etrans; [|apply R_st]; apply Hkeep|].
  destruct (loss_deadline_of c) as [a|].
  { destruct (now <? a); [done|]. etrans; [|apply R_st]. apply moves_fold. intros. apply R_detect. }
  destruct (pto_due c) as [[space a]|]; [|done]. destruct (now <? a); [done|]. etrans; [|apply R_st].
  etrans; [apply (Hspace c space)|apply Hpto].
Qed.

(** Detecting losses takes packets out of flight, tells the streams and the
    handshake, and may shrink the window. *)
Lemma detect_moves space now ld c :
  (∀ c s gone, taken (sent (space_of c space)) s gone → R c (on_space space (λ ss, ss <| sent := s |>) c)) →
  (∀ c k, R c (on_space space (λ s, s <| crypto_sent := k |>) c)) →
  (∀ c d, R c (on_space space (λ s, s <| loss_deadline := d |>) c)) →
  (∀ c g, R c (c <| congestion := g |>)) → R c (snd (detect_space space now ld c)).
Proof.
  intros Htaken Hcrypto Hdeadline Hcong. unfold detect_space.
  destruct (recovery.detect_lost _ now ld) as [[s lost] d] eqn:E. apply detect_lost_taken in E. cbn [snd].
  etrans; [|apply Hdeadline]. etrans; [by eapply Htaken|]. set (c1 := on_space space _ c). clearbody c1.
  destruct (on_lost_packets_shape space lost now c1) as (s' & k & g & ->). unfold after_loss.
  etrans; [|apply Hcrypto]. etrans; [apply (R_st (λ _, s') c1)|apply Hcong].
Qed.
End moves.

(** ** Executions *)

(** The stream operations of the worker. *)
Inductive worker_op : Type :=
| WOpenUni | WOneshot (data : bytes) | WWrite (id : Z) (data : bytes) | WFinish (id : Z)
| WConsume (id : Z) (f : bytes → res unit) | WRetire (id cancel : Z).

Definition worker_step (s : Streams) (o : worker_op) : Streams :=
  match o with
  | WOpenUni => snd (conn_streams.open_uni s)
  | WOneshot data => snd (conn_streams.send_oneshot s data)
  | WWrite id data => snd (conn_streams.write s id data)
  | WFinish id => conn_streams.finish s id
  | WConsume id f => match conn_streams.consume s id f with Ok (_, s') => s' | Err _ => s end
  | WRetire id cancel => conn_streams.retire s id cancel
  end.
Definition stream_op (o : worker_op) : op :=
  match o with
  | WOpenUni => OpenUni
  | WOneshot data => Oneshot data
  | WWrite id data => Write id data
  | WFinish id => Finish id
  | WConsume id f => Consume id f
  | WRetire id cancel => Retire id cancel
  end.

(** A call into the connection. *)
Inductive act : Type :=
| Transmit (now : Z) (out : bytes) (pad_to : option nat)
| Datagram (now : Z) (d : bytes)
| Timeout (now : Z)
| CloseCall (code : Z) (reason : bytes)
| PollEvent
| Worker (o : worker_op).

Section executions.
Context `{RL : RustlsLaws} `{SL : UnstableSortLaws (Z * bytes)}.
Implicit Types c : Connection.

(** The connection and the events its worker has taken from it. *)
Definition world : Type := Connection * list Event.

Definition kept {A} (r : result conn_error A * Connection) (polled : list Event) : option world :=
  match r with (Ok _, c) => Some (c, polled) | (Err _, _) => None end.

(** What a call leaves; a call that fails ends the connection. *)
Definition perform (w : world) (a : act) : option world :=
  let '(c, polled) := w in
  match a with
  | Transmit now out pad_to => kept (poll_transmit now out pad_to c) polled
  | Datagram now d => kept (handle_datagram now d c) polled
  | Timeout now => Some (handle_timeout now c, polled)
  | CloseCall code reason => Some (close code reason c, polled)
  | PollEvent => match poll_event c with
                 | (Some e, c') => Some (c', polled ++ [e])
                 | (None, c') => Some (c', polled)
                 end
  | Worker o => Some (on_st (λ s, worker_step s o) c, polled)
  end.

(** The worker opens streams and writes to them once the connection is
    connected, and does not write to a stream it has finished. *)
Definition permitted (w : world) (a : act) : Prop :=
  match a with
  | Datagram _ d => bytes_ok d
  | Worker o => (match o with WConsume _ _ => True | _ => connected w.1 = true end) ∧
      match o with
      | WWrite id _ => ∀ s, send_at (st w.1) id = Some s → send_stream.fin s = false
      | _ => True
      end
  | _ => True
  end.

Inductive reachable (local : LocalParamsInput) : world → Prop :=
| reach_connect rl rd name c : connect rl rd name local = Ok c → reachable local (c, [])
| reach_act w a w' : reachable local w → permitted w a → perform w a = Some w' → reachable local w'.

Definition local_ok (local : LocalParamsInput) : Prop :=
  0 ≤ conn_streams.li_initial_max_data local < 2 ^ 62 ∧
  0 < conn_streams.li_initial_max_stream_data local < 2 ^ 62.

Lemma connect_inv rl rd name local c :
  local_ok local → connect rl rd name local = Ok c → inv [] [] c.
Proof.
  intros Hl Hc. unfold connect in Hc. apply bind_Ok in Hc as (t & Ht%ok_or_Ok & Hc).
  apply bind_Ok in Hc as (t' & Ht' & Hc). apply bind_Ok in Hc as (k & _ & Hc). apply Ok_inj in Hc as <-.
  split; [|split; [done|]].
  - exists (begin local transport.default). split; [|done]. apply begin_good. destruct Hl.
    unfold config_ok, params_ok. cbn. lia.
  - destruct t as [t|]; [|done]. apply Ok_inj in Ht' as <-. split; [split; [done|]; by intros _|].
    intros []; split_and!; by try constructor.
Qed.

Lemma open_consume s id f : same_open s (worker_step s (WConsume id f)).
Proof.
  cbn. unfold conn_streams.consume, conn_streams.recv_mut, conn_streams.queue_credit.
  repeat (case_match; simplify_eq; try done); cbn in *; unfold mbind, result_bind in *; repeat (case_match; simplify_eq; try done).
Qed.
Lemma worker_inv polled o c :
  inv polled [] c → permitted (c, polled) (Worker o) → inv polled [] (on_st (λ s, worker_step s o) c).
Proof.
  intros Hi [Hc Ha]. cbn in Hc. apply (inv_on_st polled [] []); [done| |].
  2: { intros Hn. destruct o; try congruence. apply open_consume. }
  intros g Hg E Hf Hp. exists (step g (stream_op o)). split.
  { apply step_good; [|done]. destruct o; try done. cbn. by rewrite E. }
  destruct o; cbn [stream_op step worker_step with_c with_drops g_c g_flight g_polled]; rewrite ?E; try done.
  destruct (conn_streams.consume (st c) id f) as [[n s']|]; by rewrite ?E.
Qed.

Lemma poll_inv polled c e c' :
  inv polled [] c → poll_event c = (Some e, c') → inv (polled ++ [e]) [] c'.
Proof.
  intros Hi He. unfold poll_event in He.
  destruct (conn_streams.poll_event (st c)) as [oe s'] eqn:Es. injection He as -> <-.
  destruct Hi as ((g & Hg & E & Hf & Hp) & Hhs & (Hg1 & Hg2) & Hok). split; [|split; [done|split; [|exact Hok]]].
  - exists (step g Poll). split; [by apply step_good|]. cbn [step]. rewrite E, Es. cbn. by rewrite Hp.
  - split; [done|]. cbn. intros Hc. specialize (Hg2 Hc). unfold conn_streams.poll_event in Es.
    destruct (conn_streams.events (st c)); [done|]. by injection Es as _ <-.
Qed.

Lemma perform_inv w a w' :
  inv w.2 [] w.1 → permitted w a → perform w a = Some w' → inv w'.2 [] w'.1.
Proof.
  destruct w as [c polled]. intros Hi Ha. destruct a as [now out pad|now d|now|code reason| |o]; cbn [perform].
  - pose proof (poll_transmit_inv polled now out pad c Hi) as Ht. unfold holds in Ht.
    destruct (poll_transmit now out pad c) as [[r|] c1]; [|done]. by intros [= <-].
  - pose proof (handle_datagram_inv polled now d Ha c Hi) as Ht.
    destruct (handle_datagram now d c) as [[r|] c1]; [|done]. by intros [= <-].
  - intros [= <-]. by apply inv_handle_timeout.
  - intros [= <-]. cbn. unfold close. destruct (closed c); [done|]. eapply inv_frame; [..|exact Hi]; done.
  - destruct (poll_event c) as [[e|] c1] eqn:E.
    + intros [= <-]. by eapply poll_inv.
    + intros [= <-]. unfold poll_event, conn_streams.poll_event in E.
      destruct (conn_streams.events (st c)); [|done]. injection E as <-. cbn. by destruct c.
  - intros [= <-]. by apply worker_inv.
Qed.

Lemma conn_reachable_inv local w : local_ok local → reachable local w → inv w.2 [] w.1.
Proof.
  intros Hl. induction 1 as [rl rd name c Hc|w a w' Hw IH Ha Hp]; [by eapply connect_inv|by eapply perform_inv].
Qed.
End executions.
End connection_run.
