(* ===== verification/QuicConnSafe.v ===== *)
(** * What a QUIC connection guarantees

    Consequences of the invariant of [QuicConnRun] for whole executions, from
    [connect] on: the packets in flight account for every stream, nothing that
    is owed to the peer is forgotten, packet numbers are never used twice. *)

From S2P Require Import Prelude Effects Varint QuicFrame QuicAck QuicReceived QuicPacket QuicHeader QuicTransport QuicRecvStream QuicSendStream QuicRecovery QuicStreams QuicStreamsInv QuicStreamsRun QuicConn QuicConnSample QuicConnTimers QuicConnRun.
From stdpp Require Import sets sorting.
#[local] Open Scope Z_scope.

(** ** The laws hold of the scripted handshake *)

Lemma u8_byte v : 0 ≤ u8 v < 256.
Proof. unfold u8. apply Z.mod_pos_bound. lia. Qed.

#[global] Instance toy_laws : RustlsLaws (RT := sample.toy_rustls).
Proof.
  refine {| one_rtt_given := (sample.given : ClientConnection → bool) |}; cbn.
  - by intros name p t [= <-].
  - intros t k out t'. destruct (sample.ready t) as [|[[[ks|ks s]|] b] rest]; [by intros [= <- <- <-]|..].
    1, 3: by intros [= <- <- <-].
    destruct (sample.given t) eqn:E; [intros [= <- <- <-]; done|]. by intros [= <- <- <-].
  - intros t data r t'. by destruct (sample.later t); intros [= <- <-].
  - intros t k out t'. destruct (sample.ready t) as [|[[[ks|ks s]|] b] rest] eqn:E; [intros [= <- <- <-]; by left|..].
    1, 3: intros [= <- <- <-]; right; cbn; lia.
    destruct (sample.given t); intros [= <- <- <-]; [by left|right; cbn; lia].
  - intros t raw. destruct (sample.server t) as [l|]; [|done]. intros [= <-]. apply Forall_forall.
    intros x (y & -> & _)%list_elem_of_fmap. apply u8_byte.
  - intros key pn head body plain Hb. destruct (bytes_eqb _ _); [|done]. intros [= <-]. by apply bytes_ok_take.
  - intros hp smp first pn first' pn' Hb [= <- <-]. apply bytes_ok_app. split; [|by apply bytes_ok_drop].
    apply Forall_forall. intros x (y & -> & _)%list_elem_of_fmap. apply u8_byte.
  - intros key pn head body sealed tag [= <- <-]. done.
  - intros hp smp first pn. by rewrite length_fmap.
  - intros hp smp first pn. rewrite length_app, length_fmap, <- length_app, take_drop. done.
Qed.

#[global] Instance insertion_laws : UnstableSortLaws (H := sample.insertion) (Z * bytes) := recv_stream.insertion_sort_laws.

Module connection_safe.
Import packet connection connection_timers conn_streams_inv conn_streams_run connection_run.

(** ** Executions by evaluation *)

Section replay.
Context `{RL : RustlsLaws} `{SL : UnstableSortLaws (Z * bytes)}.

Definition permittedb (w : world) (a : act) : bool :=
  match a with
  | Datagram _ d => bool_decide (bytes_ok d)
  | Worker o => connected w.1 &&
      match o with
      | WWrite id _ => match send_at (st w.1) id with Some s => negb (send_stream.fin s) | None => true end
      | _ => true
      end
  | _ => true
  end.

Lemma permittedb_true w a : permittedb w a = true → permitted w a.
Proof.
  destruct a as [| | | | |o]; cbn; try done; [by intros Hd%bool_decide_eq_true|].
  intros [Hc Ho]%andb_true_iff. split; [by destruct o|]. destruct o; try done. intros s Hs. rewrite Hs in Ho.
  by apply negb_true_iff.
Qed.

Fixpoint replay (w : world) (acts : list act) : option world :=
  match acts with
  | [] => Some w
  | a :: rest => if permittedb w a then w' ← perform w a; replay w' rest else None
  end.

Lemma replay_reachable local w acts w' : reachable local w → replay w acts = Some w' → reachable local w'.
Proof.
  revert w. induction acts as [|a acts IH]; intros w Hw; cbn [replay]; [by intros [= <-]|].
  destruct (permittedb w a) eqn:Ha; [|done]. intros (w1 & Hp & Hr)%bind_Some. apply (IH w1); [|done].
  by eapply reach_act; [done|by apply permittedb_true|].
Qed.

(** A whole run: [ran] is what has to be evaluated. *)
Definition ran (o : option world) : bool := match o with Some _ => true | None => false end.
Lemma replay_default local w acts :
  reachable local w → ran (replay w acts) = true → reachable local (default w (replay w acts)).
Proof.
  intros Hw. destruct (replay w acts) as [w'|] eqn:E; [|done]. intros _. cbn. by eapply replay_reachable.
Qed.
End replay.

(** A handshake, two requests, and the first packets of them. *)
Definition sample_acts : list act :=
  [Transmit 0 [] None; Datagram 1000 sample.server_flight; PollEvent; Transmit 2000 [] None; Transmit 2000 [] None;
   Datagram 3000 sample.server_done; Worker (WOneshot [1; 2; 3; 4]); Worker WOpenUni; Worker (WWrite 2 [9; 8; 7]);
   Transmit 4000 [] None; Datagram 5000 (sample.server_data 1 (frame.put_stream 0 0 true [5; 6]))].
Definition sample_world : world := default (sample.fresh, []) (replay (sample.fresh, []) sample_acts).
Lemma sample_world_reachable : reachable sample.local sample_world.
Proof.
  apply (replay_default sample.local _ sample_acts); [|by vm_compute].
  eapply reach_connect. exact sample.fresh_connects.
Qed.
Lemma sample_local_ok : local_ok sample.local.
Proof. unfold local_ok. cbn. lia. Qed.

Section guarantees.
Context `{RL : RustlsLaws} `{SL : UnstableSortLaws (Z * bytes)}.
Implicit Types c : Connection.

(** ** Streams and packets *)

Lemma linked_send_ok polled c id s :
  linked polled [] c → send_at (st c) id = Some s →
  ∃ fl, fl ≡ₚ data_frames c ∧ send_ok fl (conn_streams.reset_pending (st c)) id s.
Proof.
  intros (g & (Hs & _) & Hc & Hf & _) Hat. exists (g_flight g). split; [done|].
  rewrite <- Hc in Hat |- *. by eapply send_at_ok.
Qed.

Lemma linked_queued polled c id s :
  linked polled [] c → send_at (st c) id = Some s → id mod 4 = 0 → send_stream.has_pending s = true →
  id ∈ conn_streams.send_queue (st c).
Proof.
  intros (g & (Hs & _) & Hc & Hf & _) Hat Hid Hp. rewrite <- Hc in *. unfold send_at in Hat.
  destruct (conn_streams.send_mut _ id) as [[s' put]|] eqn:Hm; [|done]. injection Hat as ->.
  apply send_mut_inv in Hm as [(i & q & Hq & -> & -> & _)|(_ & i & Hi & _)].
  - apply conn_streams.slot_Some in Hq. destruct (sh_pairs _ _ _ _ _ Hs _ _ Hq) as (_ & _ & [Hq1 Hq2] & _).
    by apply Hq1, Hq2.
  - destruct (sh_unis _ _ _ _ _ Hs _ _ _ Hi) as [-> _]. unfold uni_id in Hid.
    rewrite Z.add_comm, Z.mul_comm, Z_mod_plus_full in Hid. done.
Qed.

(** C3: The packets in flight account for the streams.  In every execution of a
    connection - datagrams received, packets sent, acknowledged and lost, timers,
    requests of the worker, in any order - the send half of each stream is a
    state of the abstract sender whose frames in flight are, with multiplicity,
    the STREAM frames of that stream in the 1-RTT packets in flight.  So what
    [SendStream] guarantees of a single stream holds of every stream of the
    connection. *)
Theorem conn_packets_refine (local : LocalParamsInput) (w : world)
    (Hlocal : local_ok local) (Hw : reachable local w) :
  ∀ id s, send_at (st w.1) id = Some s →
    ∃ lim sg, 0 ≤ lim < 2 ^ 62 ∧ send_stream.reachable lim sg ∧ send_stream.g_st sg = s ∧
      send_stream.g_inflight sg ≡ₚ flight_of id (recovery.packets (sent (space_data w.1)) ≫= recovery.frames).
Proof.
  intros id s Hat. destruct (conn_reachable_inv local w Hlocal Hw) as (Hl & _).
  destruct (linked_send_ok _ _ _ _ Hl Hat) as (fl & Hfl & (lim & sg & ? & ? & ? & Hp) & _).
  exists lim, sg. split_and!; try done; try lia. rewrite Hp. by apply flight_of_perm.
Qed.

(** What the peer has yet to acknowledge of a stream. *)
Definition owing (s : send_stream.SendStream) : bool :=
  if send_stream.is_reset s then negb (send_stream.reset_acked s)
  else negb (send_stream.live_len s =? 0)%nat || (send_stream.fin s && negb (send_stream.fin_acked s)).

Lemma owing_waits fl rp id s :
  send_ok fl rp id s → owing s = true →
  send_stream.has_pending s = true ∨ flight_of id fl ≠ [] ∨ resetting fl rp id (spent s).
Proof.
  intros (Htr & _ & Hrs & _) Ho. unfold owing in Ho. destruct (send_stream.is_reset s) eqn:Hr.
  { right; right. destruct (Hrs eq_refl) as [E|]; [by rewrite E in Ho|done]. }
  destruct (send_stream.has_pending s) eqn:Hp; [by left|right; left]. intros Hf.
  apply send_stream.tracks_inv in Htr as (sg & Hinv & <- & Hfl). rewrite Hf in Hfl.
  apply Permutation_nil_r in Hfl. destruct (send_stream.quiet_settled sg Hinv Hr Hfl Hp) as (Hb & _ & Hset).
  destruct Hinv as [(Hbs & _) Hlive]. specialize (Hlive Hr) as (_ & HW & _).
  apply orb_true_iff in Ho as [Ho|[Hfin Hfa]%andb_true_iff].
  - apply negb_true_iff, Nat.eqb_neq in Ho. lia.
  - specialize (Hset Hfin). unfold send_stream.is_settled in Hset. rewrite Hr, Hfin in Hset.
    by destruct (send_stream.fin_acked _).
Qed.

Lemma any_ack_eliciting_in s p :
  p ∈ recovery.packets s → recovery.ack_eliciting p = true → recovery.any_ack_eliciting s = true.
Proof.
  intros Hp He. unfold recovery.any_ack_eliciting. apply existsb_exists. exists p. split; [by apply list_elem_of_In|done].
Qed.

(** A frame in flight keeps the probe timer running. *)
Lemma flight_arms c f :
  (∀ space, sent_ok (space_of c space)) → f ∈ data_frames c →
  (∃ p, p ∈ recovery.packets (sent (space_data c)) ∧ f ∈ recovery.frames p ∧ recovery.ack_eliciting p = true) ∧
  ∃ space at', pto_due c = Some (space, at').
Proof.
  intros Hok Hf. unfold data_frames, packet_frames in Hf. apply list_elem_of_bind in Hf as (p & Hf & Hp).
  destruct (Hok Data) as (_ & _ & _ & Hel & Hla). cbn in Hel, Hla. rewrite Forall_forall in Hel, Hla.
  assert (recovery.ack_eliciting p = true) as He by (apply Hel; [done|intros E; by rewrite E in Hf; apply not_elem_of_nil in Hf]).
  split; [by exists p|]. specialize (Hla p Hp He).
  pose proof (recovery.pto_loop_spec (zip ALL [sent (space_initial c); sent (space_handshake c); sent (space_data c)])
    (rtt c) (max_ack_delay c) (pto_count c) None) as Hs.
  unfold pto_due, recovery.pto_deadline. destruct (recovery.pto_loop _ _ _ _ None) as [[sp a]|]; [eauto|].
  exfalso. destruct Hs as [_ Hs]. assert (recovery.candidate (rtt c) (max_ack_delay c) (pto_count c) (Data, sent (space_data c)) = None) as Hn.
  { destruct (recovery.candidate _ _ _ (Data, _)) as [x|] eqn:E; [|done]. exfalso. apply (not_elem_of_nil x).
    rewrite <- Hs. apply list_elem_of_omap. exists (Data, sent (space_data c)). split; [|done]. cbn. set_solver. }
  unfold recovery.candidate in Hn. rewrite (any_ack_eliciting_in _ p) in Hn by done.
  by destruct (recovery.last_ack_eliciting _).
Qed.

(** What [poll_timeout] answers when a probe could become due. *)
Definition recovery_deadline c (at' : Z) : Z := default at' (loss_deadline_of c).
Lemma poll_timeout_recovery c space at' :
  closed c = None → pto_due c = Some (space, at') → ∃ d, poll_timeout c = Some d ∧ d ≤ recovery_deadline c at'.
Proof.
  intros Hc Hp. rewrite poll_timeout_open by done.
  assert (recovery_deadline c at' ∈ deadlines c) as Hin.
  { unfold recovery_deadline. destruct (loss_deadline_of c) as [d|] eqn:E; [by apply deadlines_loss|by eapply deadlines_pto]. }
  pose proof (min_option_spec (deadlines c)) as Hm. destruct (min_option (deadlines c)) as [m|] eqn:E.
  - exists m. split; [done|]. by eapply min_option_le.
  - rewrite Hm in Hin. by apply not_elem_of_nil in Hin.
Qed.

Definition about (id : Z) (f : recovery.SentFrame) : Prop :=
  match f with recovery.Stream id' _ _ _ | recovery.ResetStream id' _ _ => id' = id | _ => False end.

Lemma flight_of_about id fl : flight_of id fl ≠ [] → ∃ f, f ∈ fl ∧ about id f.
Proof.
  intros Hne. destruct (flight_of id fl) as [|x l] eqn:E; [done|].
  assert (x ∈ flight_of id fl) as Hx by (rewrite E; left). apply list_elem_of_omap in Hx as (f & Hf & Hs).
  exists f. split; [done|]. destruct f; try done. cbn in Hs |- *. by destruct (decide _).
Qed.

(** C2: Nothing owed to the peer is forgotten.  As long as the peer has not
    acknowledged all of a stream - bytes written, its end, or its reset - the
    connection still has the means to make it so: the stream has something to
    send and, if it is a request, stands in the send queue; or its RESET_STREAM is
    queued; or a frame of it is in an ack-eliciting packet in flight, and then the
    probe timer is armed and [poll_timeout] asks to be called by the time
    recovery needs it. *)
Theorem conn_never_stalls (local : LocalParamsInput) (w : world)
    (Hlocal : local_ok local) (Hw : reachable local w) (id : Z) (s : send_stream.SendStream)
    (Hat : send_at (st w.1) id = Some s) (Howing : owing s = true) :
  let c := w.1 in
  (send_stream.has_pending s = true ∧ (id mod 4 = 0 → id ∈ conn_streams.send_queue (st c))) ∨
  (∃ e n, (id, e, n) ∈ conn_streams.reset_pending (st c)) ∨
  (∃ p f, p ∈ recovery.packets (sent (space_data c)) ∧ f ∈ recovery.frames p ∧ about id f ∧
     recovery.ack_eliciting p = true) ∧
  ∃ space at', pto_due c = Some (space, at') ∧
    (closed c = None → ∃ d, poll_timeout c = Some d ∧ d ≤ recovery_deadline c at').
Proof.
  intros c. destruct (conn_reachable_inv local w Hlocal Hw) as (Hl & _ & _ & Hok). fold c in Hl, Hok.
  destruct (linked_send_ok _ _ _ _ Hl Hat) as (fl & Hfl & Hso).
  assert (∀ f, f ∈ fl → about id f → (∃ p f, p ∈ recovery.packets (sent (space_data c)) ∧
     f ∈ recovery.frames p ∧ about id f ∧ recovery.ack_eliciting p = true) ∧
     ∃ space at', pto_due c = Some (space, at') ∧
       (closed c = None → ∃ d, poll_timeout c = Some d ∧ d ≤ recovery_deadline c at')) as Hfly.
  { intros f Hf Ha. rewrite Hfl in Hf. destruct (flight_arms c f Hok Hf) as [(p & ? & ? & ?) (sp & a & Hpto)].
    split; [by exists p, f|]. exists sp, a. split; [done|]. intros Hc. by eapply poll_timeout_recovery. }
  destruct (owing_waits _ _ _ _ Hso Howing) as [Hp|[(f & Hf & Ha)%flight_of_about|(e & [Hr|Hr])]].
  - left. split; [done|]. intros Hid. by eapply linked_queued.
  - right; right. by apply (Hfly f).
  - right; left. eauto.
  - right; right. by apply (Hfly _ Hr).
Qed.
End guarantees.

(** What the sample execution leaves of its first request. *)
Definition sample_request : send_stream.SendStream :=
  default (send_stream.with_buf 0) (send_at (st sample_world.1) 0).
Lemma sample_request_at : send_at (st sample_world.1) 0 = Some sample_request.
Proof. unfold sample_request. destruct (send_at (st sample_world.1) 0) as [s|] eqn:E; [done|]. revert E. by vm_compute. Qed.
Lemma sample_request_owing : owing sample_request = true ∧ send_stream.has_pending sample_request = false.
Proof. by vm_compute. Qed.
Lemma sample_flight :
  flight_of 0 (recovery.packets (sent (space_data sample_world.1)) ≫= recovery.frames) = [(0, 4%nat, true)] ∧
  conn_streams.reset_pending (st sample_world.1) = [] ∧ closed sample_world.1 = None.
Proof. by vm_compute. Qed.

Lemma conn_packets_refine_witness :
  ∃ lim sg, 0 ≤ lim < 2 ^ 62 ∧ send_stream.reachable lim sg ∧ send_stream.g_st sg = sample_request ∧
    send_stream.g_inflight sg ≡ₚ [(0, 4%nat, true)].
Proof.
  pose proof (conn_packets_refine sample.local sample_world sample_local_ok sample_world_reachable 0
    sample_request sample_request_at) as Hr.
  rewrite (proj1 sample_flight) in Hr. exact Hr.
Defined.

Lemma conn_never_stalls_witness :
  owing sample_request = true ∧ ∃ d, poll_timeout sample_world.1 = Some d.
Proof.
  destruct sample_request_owing as [Ho Hp]. split; [done|]. destruct sample_flight as (_ & Hrp & Hc).
  destruct (conn_never_stalls sample.local sample_world sample_local_ok sample_world_reachable 0
    sample_request sample_request_at Ho) as [[Hpend _]|[(e & n & Hin)|(_ & sp & a & _ & Hd)]].
  - rewrite Hp in Hpend. done.
  - exfalso. rewrite Hrp in Hin. exact (not_elem_of_nil _ Hin).
  - destruct (Hd Hc) as (d & Hpoll & _). exists d. exact Hpoll.
Defined.
End connection_safe.
