(* ===== verification/QuicConnHistory.v ===== *)
(** * The history of a QUIC connection only moves forward

    Whatever is called, in whatever order: packet numbers are given out once
    and never again, a connection that is over stays over for the reason it
    was first told, and the stages of the handshake are never undone. *)

From S2P Require Import Prelude Effects Varint QuicFrame QuicAck QuicReceived QuicPacket QuicHeader QuicTransport QuicRecvStream QuicSendStream QuicRecovery QuicStreams QuicStreamsInv QuicStreamsRun QuicConn QuicConnSample QuicConnTimers QuicConnRun QuicConnSafe.
From stdpp Require Import sets sorting.
#[local] Open Scope Z_scope.

Module connection_history.
Import packet connection connection_timers connection_run connection_safe.

Section history.
Context `{RL : RustlsLaws} `{SL : UnstableSortLaws (Z * bytes)}.
Implicit Types c : Connection.

(** [c'] can come after [c]. *)
Record later c c' : Prop := {
  later_next : ∀ sp, next_packet_number (space_of c sp) ≤ next_packet_number (space_of c' sp);
  later_packets : ∀ sp p, p ∈ recovery.packets (sent (space_of c' sp)) →
    p ∈ recovery.packets (sent (space_of c sp)) ∨ next_packet_number (space_of c sp) ≤ recovery.number p;
  later_closed : ∀ why, closed c = Some why → closed c' = Some why;
  later_done : handshake_done c = true → handshake_done c' = true;
  later_connected : connected c = true → connected c' = true;
  later_retried : retried c = true → retried c' = true;
  later_seen : server_initial_seen c = true → server_initial_seen c' = true;
  later_retire : retire_prior_to c ≤ retire_prior_to c';
  later_ids : local_cid c' = local_cid c ∧ original_dcid c' = original_dcid c;
}.

#[global] Instance later_pre : PreOrder later.
Proof.
  split.
  - intros c. constructor; auto; lia.
  - intros a b c Hab Hbc. constructor.
    + intros sp. etrans; [apply Hab|apply Hbc].
    + intros sp p Hp. destruct (later_packets _ _ Hbc sp p Hp) as [Hb|Hb]; [by apply (later_packets _ _ Hab)|].
      right. etrans; [apply Hab|exact Hb].
    + intros why Hw. by apply Hbc, Hab.
    + intros Hw. by apply Hbc, Hab.
    + intros Hw. by apply Hbc, Hab.
    + intros Hw. by apply Hbc, Hab.
    + intros Hw. by apply Hbc, Hab.
    + etrans; [apply Hab|apply Hbc].
    + destruct (later_ids _ _ Hab), (later_ids _ _ Hbc). split; congruence.
Qed.

(** What does not touch the spaces. *)
Lemma later_frame c c' :
  (∀ sp, space_of c' sp = space_of c sp) → (∀ why, closed c = Some why → closed c' = Some why) →
  (handshake_done c = true → handshake_done c' = true) → (connected c = true → connected c' = true) →
  (retried c = true → retried c' = true) → (server_initial_seen c = true → server_initial_seen c' = true) →
  retire_prior_to c ≤ retire_prior_to c' →
  local_cid c' = local_cid c → original_dcid c' = original_dcid c → later c c'.
Proof.
  intros Hs. constructor; try done; [intros sp; rewrite Hs; lia|intros sp p; rewrite Hs; by left].
Qed.

Lemma later_on_st f c : later c (on_st f c).
Proof. by apply later_frame; try done; intros []. Qed.

(** A space that gives up packets, and one that sends one. *)
Definition only_fewer (s s' : SpaceState) : Prop :=
  next_packet_number s' = next_packet_number s ∧
  ∀ p, p ∈ recovery.packets (sent s') → p ∈ recovery.packets (sent s).

Lemma only_fewer_same s s' : sent s' = sent s → next_packet_number s' = next_packet_number s → only_fewer s s'.
Proof. intros E1 E2. split; [done|]. by rewrite E1. Qed.

Lemma later_on_space space f c :
  (∀ p, p ∈ recovery.packets (sent (f (space_of c space))) →
     p ∈ recovery.packets (sent (space_of c space)) ∨ next_packet_number (space_of c space) ≤ recovery.number p) →
  next_packet_number (space_of c space) ≤ next_packet_number (f (space_of c space)) →
  later c (on_space space f c).
Proof.
  intros Hp Hn. destruct space; constructor; try done; cbn in *; try lia;
    intros []; cbn; auto; lia.
Qed.

Lemma later_fewer space f c : only_fewer (space_of c space) (f (space_of c space)) → later c (on_space space f c).
Proof. intros [Hn Hp]. apply later_on_space; [by left; apply Hp|lia]. Qed.
Lemma later_quiet space f c : (∀ s, sent (f s) = sent s ∧ next_packet_number (f s) = next_packet_number s) → later c (on_space space f c).
Proof. intros Hf. apply later_fewer. by apply only_fewer_same; apply Hf. Qed.

Lemma later_lose why c : later c (lose why c).
Proof.
  unfold lose. destruct (closed c) eqn:E; [done|]. etrans; [|apply later_on_st].
  apply later_frame; try done. cbn. congruence.
Qed.
Lemma later_close_transport code why c : later c (close_transport code why c).
Proof.
  unfold close_transport. destruct (closed c) eqn:E; [done|]. etrans; [|apply later_lose].
  by apply later_frame; try done; intros [].
Qed.
Lemma later_discard space c : later c (discard_space space c).
Proof.
  unfold discard_space. etrans; [apply (later_fewer space)|by apply later_frame; try done; intros []].
  split; [done|]. cbn. intros p Hp. by apply not_elem_of_nil in Hp.
Qed.

(** ** Acknowledgement, loss and timers *)

Lemma later_taken space s gone c :
  taken (sent (space_of c space)) s gone → later c (on_space space (λ ss, ss <| sent := s |>) c).
Proof.
  intros (Hp & Hsub & _). apply later_fewer. split; [done|]. cbn. intros p Hin. rewrite Hp. apply elem_of_app. by left.
Qed.

Lemma later_detect space now ld c : later c (snd (detect_space space now ld c)).
Proof.
  apply (detect_moves later); intros; [apply later_on_st|by eapply later_taken|by apply later_quiet..|by apply later_frame].
Qed.

Lemma later_on_ack space largest delay first ranges now c :
  later c (on_ack space largest delay first ranges now c).
Proof.
  apply (on_ack_moves later); intros;
    first [apply later_on_st|apply later_detect|by eapply later_taken|by apply later_quiet|by apply later_frame].
Qed.

Lemma later_timeout now c : later c (handle_timeout now c).
Proof.
  apply (handle_timeout_moves later); intros;
    first [apply later_on_st|apply later_detect|apply later_lose|by apply later_quiet|by apply later_frame].
Qed.

Lemma later_rotate at' phase c : later c (rotate_keys at' phase c).
Proof.
  unfold rotate_keys. destruct (next_1rtt c) as [next|]; [|done]. cbv zeta.
  case_match; [case_match|]; by apply later_frame.
Qed.

Lemma later_arm_idle now c : later c (arm_idle now c).
Proof. unfold arm_idle. destruct (_ && _); [done|by apply later_frame]. Qed.

Lemma later_note_scid space scid c : later c (note_scid space scid c).
Proof.
  unfold note_scid. destruct scid as [scid|]; [|done]. destruct (handshake_done c); [done|]. cbv zeta.
  set (c1 := match peer_cids _ with [] => _ | _ :: _ => _ end).
  assert (later c c1) as H1 by (unfold c1; case_match; by apply later_frame). etrans; [exact H1|].
  destruct (decide (space = Initial)); [|done]. by apply later_frame.
Qed.

(** ** Methods *)

#[local] Hint Resolve later_on_st later_lose later_close_transport later_discard later_on_ack later_rotate
  later_arm_idle later_note_scid : core.

(** One update: the cases of its body, each a matter of frame. *)
Ltac forward :=
  cbv beta zeta;
  repeat match goal with
  | |- later _ (match ?x with _ => _ end) => destruct x eqn:?
  | |- later _ (if ?x then _ else _) => destruct x eqn:?
  | |- later _ (arm_idle _ _) => etrans; [|apply later_arm_idle]
  | |- later _ (need_send _) => etrans; [|apply later_on_st]
  | |- later _ (push_event _ _) => etrans; [|apply later_on_st]
  | |- later _ (push_retire _ _) => etrans; [|apply later_on_st]
  end;
  first [done | by auto | apply later_on_st | by apply later_frame | by apply later_quiet].

Lemma lift_res_later {A} (r : res A) : evolves later (lift_res r).
Proof. apply evolves_lift. apply _. Qed.
Lemma bail_later {A} msg : evolves later (bail_m msg : eff Connection conn_error A).
Proof. apply evolves_lift. apply _. Qed.
Lemma panic_later {A} msg : evolves later (panic_m msg : eff Connection conn_error A).
Proof. apply evolves_lift. apply _. Qed.
#[local] Hint Resolve lift_res_later bail_later panic_later : core.

Lemma take_params_later : evolves later take_peer_params.
Proof. unfold take_peer_params. evolve; forward. Qed.

Lemma later_keys k next c :
  later c (let c := c <| one_rtt_local := Some (keys_local k) |> <| one_rtt_remote := Some (keys_remote k) |> in
           let '(ks, s) := next_packet_keys next in
           push_event conn_streams.Connected
             (c <| next_1rtt := Some ks |> <| secrets := Some s |> <| connected := true |>)).
Proof.
  cbv zeta. destruct (next_packet_keys next) as [ks s]. etrans; [|apply later_on_st].
  by apply later_frame.
Qed.

Lemma pump_loop_later fuel : evolves later (pump_loop fuel).
Proof.
  induction fuel as [|fuel IH]; cbn [pump_loop]; evolve; try apply IH; try apply take_params_later;
    try apply later_keys; try forward.
  all: etrans; [|by apply later_quiet]; by apply later_frame.
Qed.
Lemma pump_tls_later : evolves later pump_tls.
Proof. unfold pump_tls. evolve. apply pump_loop_later. Qed.

Lemma on_crypto_later space offset data : evolves later (on_crypto space offset data).
Proof.
  unfold on_crypto. evolve; try apply pump_tls_later; try forward.
  all: etrans; [|by apply later_quiet]; by apply later_frame.
Qed.

Lemma on_retry_later dcid scid token packet : evolves later (on_retry dcid scid token packet).
Proof.
  unfold on_retry. evolve; try apply lift_res_later.
  - by apply later_frame.
  - etrans; [|apply later_on_st]. etrans; [apply (later_fewer Initial)|by apply later_frame].
    split; [done|]. intros p Hp. by apply not_elem_of_nil in Hp.
Qed.

Lemma later_retire_prior retire c :
  retire_prior_to c < retire →
  later c (let c := c <| retire_prior_to := retire |> in
           let '(kept, gone) := retire_loop retire (peer_cids c) in
           need_send (push_retire gone (c <| peer_cids := kept |>))).
Proof.
  intros Hr. cbv zeta. destruct (retire_loop _ _) as [kept gone]. etrans; [|apply later_on_st].
  etrans; [|apply later_on_st]. apply later_frame; try done. cbn. lia.
Qed.

Lemma on_new_connection_id_later seq retire cid token : evolves later (on_new_connection_id seq retire cid token).
Proof.
  unfold on_new_connection_id. destruct (_ =? _)%nat; [apply bail_later|]. destruct (_ <? _); [apply bail_later|].
  cbv zeta. apply evolves_bind_get. intros c. destruct (_ <? _); [cbn; forward|].
  destruct (find_seq seq (peer_cids c)) as [[i known]|]; [by destruct (_ || _)|].
  apply moves_bind; [apply _|..].
  - unfold when. destruct (Z.ltb_spec (retire_prior_to c) retire) as [Hr|_]; [by apply later_retire_prior|done].
  - intros u. evolve; try apply lift_res_later; forward.
Qed.

Lemma on_streams_later f : evolves later (on_streams f).
Proof. unfold on_streams. evolve; forward. Qed.

Lemma later_handshake_done c : later c (on_handshake_done c).
Proof.
  unfold on_handshake_done. etrans; [|apply later_discard]. by apply later_frame.
Qed.

Lemma handle_frame_later space f now : evolves later (handle_frame space f now).
Proof.
  destruct f; cbn [handle_frame]; evolve;
    try first [apply on_crypto_later|apply on_streams_later|apply on_new_connection_id_later|apply later_handshake_done|forward].
  - unfold on_path_challenge. evolve; [forward|apply bail_later].
  - apply later_lose.
Qed.

Lemma handle_frames_later space now fs b : evolves later (handle_frames space now fs b).
Proof.
  revert b. induction fs as [|f fs IH]; intros b; cbn [handle_frames]; evolve;
    [apply lift_res_later|apply handle_frame_later|apply IH].
Qed.

Lemma process_packet_later space scid pn payload now : evolves later (process_packet space scid pn payload now).
Proof. unfold process_packet. evolve; try apply handle_frames_later; forward. Qed.

Lemma handle_protected_later now buf space pn_offset end_ scid :
  evolves later (handle_protected now buf space pn_offset end_ scid).
Proof.
  unfold handle_protected. evolve; first [apply lift_res_later|apply panic_later|apply process_packet_later|forward].
Qed.

Lemma handle_packet_later now buf : evolves later (handle_packet now buf).
Proof.
  unfold handle_packet. evolve; first [apply panic_later|apply handle_protected_later|apply on_retry_later|idtac].
  unfold on_version_negotiation. repeat case_match; first [done|apply later_lose].
Qed.

Lemma datagram_loop_later fuel now d pos ok : evolves later (datagram_loop fuel now d pos ok).
Proof.
  revert pos ok. induction fuel as [|fuel IH]; intros pos ok; cbn [datagram_loop];
    (destruct (_ <=? _)%nat; [evolve|]); [apply panic_later|].
  intros c. pose proof (handle_packet_later now (drop pos d) c) as H1.
  destruct (handle_packet now (drop pos d) c) as [[[n b]|[e|e]] c']; cbn [snd] in *.
  - destruct (n =? 0)%nat; [done|]. etrans; [exact H1|apply IH].
  - done.
  - etrans; [exact H1|apply later_close_transport].
Qed.

Lemma handle_datagram_later now d : evolves later (handle_datagram now d).
Proof.
  unfold handle_datagram. evolve; [apply datagram_loop_later|..]; [|by auto].
  unfold note_received. etrans; [|apply later_arm_idle]. by apply later_frame.
Qed.

(** ** Sending *)

Lemma fill_ack_later space now budget start out : evolves later (fill_ack space now budget start out).
Proof. unfold fill_ack. evolve; [apply lift_res_later|forward]. Qed.
Lemma fill_crypto_later space budget start fuel out fs b : evolves later (fill_crypto space budget start fuel out fs b).
Proof.
  revert out fs b. induction fuel as [|fuel IH]; intros out fs b; cbn [fill_crypto]; evolve;
    first [apply panic_later|apply IH|forward].
Qed.
Lemma fill_ping_later budget start due clear f :
  (∀ c, later c (clear c)) → evolves later (fill_ping budget start due clear f).
Proof. intros Hc. unfold fill_ping. evolve. apply Hc. Qed.

Lemma fill_payload_later space now budget start out congested :
  evolves later (fill_payload space now budget start out congested).
Proof.
  unfold fill_payload, fill_path_response, fill_close. evolve;
    first [apply fill_ack_later|apply fill_crypto_later|apply lift_res_later|apply fill_ping_later; intros c; forward|forward].
Qed.

(** A packet is written with the next number, which is then used up. *)
Lemma later_pushed space f p c :
  sent (f (space_of c space)) = recovery.push (sent (space_of c space)) p →
  next_packet_number (f (space_of c space)) = next_packet_number (space_of c space) + 1 →
  next_packet_number (space_of c space) ≤ recovery.number p → later c (on_space space f c).
Proof.
  intros E1 E2 Hn. apply later_on_space; [|lia]. rewrite E1. cbn.
  intros q [Hq| ->%list_elem_of_singleton]%elem_of_app; auto.
Qed.

Lemma record_packet_later space now pn size f c :
  pn = next_packet_number (space_of c space) → later c (record_packet space now pn size f c).2.
Proof.
  intros ->. unfold record_packet. apply moves_bind; [apply _|..].
  - eapply later_pushed; [reflexivity|reflexivity|done].
  - intros _. evolve. unfold note_sent. forward.
Qed.

Lemma write_packet_later space now out dstart congested pad : evolves later (write_packet space now out dstart congested pad).
Proof.
  unfold write_packet. destruct (_ <? _)%nat; [evolve|]. apply evolves_bind_get. intros c. cbv zeta.
  destruct (encode_packet_number _ _) as [tpn pl].
  rewrite bind_run. pose proof (put_header_still space (Z.to_nat pl) c) as Hh.
  destruct (put_header space _ c) as [[head|e] c1]; cbn [snd] in Hh; subst c1; [|done].
  rewrite bind_run. set (mf := fill_payload _ _ _ _ _ _).
  assert (later c (mf c).2) as H2 by apply fill_payload_later.
  assert (steady c (mf c).2) as [S2 _] by apply fill_payload_steady.
  destruct (mf c) as [[f|e] c2]; cbn [snd] in *; [|done]. specialize (S2 space) as (_ & S2 & _).
  destruct (_ =? _)%nat; [done|]. etrans; [exact H2|].
  rewrite bind_run. set (m := seal _ _ _ _ _ _ _). pose proof (seal_still _ _ _ _ _ _ _ c2 : c2 = (m c2).2) as Hs.
  destruct (m c2) as [[o|e] c3]; cbn [snd] in Hs; subst c3; [|done].
  apply moves_bind; [apply _|by apply record_packet_later|]. intros _. evolve.
Qed.

Lemma transmit_loop_later spaces now out start congested pad :
  evolves later (transmit_loop spaces now out start congested pad).
Proof.
  revert out. induction spaces as [|space rest IH]; intros out; cbn [transmit_loop]; evolve;
    try apply write_packet_later; first [apply IH|forward].
Qed.

Lemma poll_transmit_later now out pad : evolves later (poll_transmit now out pad).
Proof.
  unfold poll_transmit. evolve; first [apply pump_tls_later|apply transmit_loop_later|forward].
Qed.

(** ** Executions *)

Lemma perform_later w a w' : perform w a = Some w' → later w.1 w'.1.
Proof.
  destruct w as [c polled]. destruct a as [now out pad|now d|now|code reason| |o]; cbn [perform].
  - pose proof (poll_transmit_later now out pad c) as Ht.
    destruct (poll_transmit now out pad c) as [[r|] c1]; [|done]. by intros [= <-].
  - pose proof (handle_datagram_later now d c) as Ht.
    destruct (handle_datagram now d c) as [[r|] c1]; [|done]. by intros [= <-].
  - intros [= <-]. apply later_timeout.
  - intros [= <-]. cbn. unfold close. destruct (closed c) eqn:E; [done|]. apply later_frame; try done. cbn. congruence.
  - unfold poll_event. destruct (conn_streams.poll_event (st c)) as [[e|] s]; intros [= <-]; by apply later_frame.
  - intros [= <-]. apply later_on_st.
Qed.

(** What follows a world in an execution. *)
Inductive follows : world → world → Prop :=
| follows_here w : follows w w
| follows_act w a w' w'' : permitted w a → perform w a = Some w' → follows w' w'' → follows w w''.

Lemma follows_later w w' : follows w w' → later w.1 w'.1.
Proof.
  induction 1 as [w|w a w1 w2 _ Hp _ IH]; [done|]. etrans; [by eapply perform_later|done].
Qed.

(** C16: History only moves forward.  Between any two moments of an execution,
    whatever was sent, received, lost or timed out in between - a Retry and
    discarded keys included - no packet number is given out twice: the packets
    in flight carry ascending numbers below the next one to use, and a packet
    that was not in flight at the earlier moment carries a number that was still
    unused then.  A connection that is over stays over, for the reason it was
    first given, and asks for no timer; a handshake once complete or confirmed,
    a Retry once taken, an id once retired are never undone. *)
Theorem conn_forward_only (local : LocalParamsInput) (w w' : world)
    (Hlocal : local_ok local) (Hw : reachable local w) (Hrun : follows w w') :
  (∀ space, let s := space_of w.1 space in let s' := space_of w'.1 space in
     next_packet_number s ≤ next_packet_number s' ∧
     StronglySorted (λ p q, recovery.number p < recovery.number q) (recovery.packets (sent s')) ∧
     ∀ p, p ∈ recovery.packets (sent s') → recovery.number p < next_packet_number s' ∧
       (p ∈ recovery.packets (sent s) ∨ next_packet_number s ≤ recovery.number p)) ∧
  (∀ why, closed w.1 = Some why → closed w'.1 = Some why ∧ poll_timeout w'.1 = None) ∧
  (connected w.1 = true → connected w'.1 = true) ∧ (handshake_done w.1 = true → handshake_done w'.1 = true) ∧
  (retried w.1 = true → retried w'.1 = true) ∧ retire_prior_to w.1 ≤ retire_prior_to w'.1.
Proof.
  pose proof (follows_later w w' Hrun) as Hl.
  assert (reachable local w') as Hw' by (clear Hl; induction Hrun; eauto using reach_act).
  destruct (conn_reachable_inv local w' Hlocal Hw') as (_ & _ & _ & Hok). split; [|split_and!; try apply Hl].
  - intros space s s'. destruct (Hok space) as (Hs & Hn & _). split; [apply Hl|]. split; [exact Hs|].
    intros p Hp. rewrite Forall_forall in Hn. split; [by apply Hn|by apply (later_packets _ _ Hl)].
  - intros why Hc. apply (later_closed _ _ Hl) in Hc. split; [done|]. unfold poll_timeout. by rewrite Hc.
Qed.
End history.

(** The sample execution, and what a second acknowledgement and a close add. *)
Definition more_acts : list act :=
  [Datagram 6000 (sample.server_data 2 (frame.put_stream 3 0 false [1])); Transmit 7000 [] None; CloseCall 256 []; Timeout 8000].
Definition later_world : world := default sample_world (replay sample_world more_acts).

Lemma replay_follows `{RL : RustlsLaws} `{SL : UnstableSortLaws (Z * bytes)} (w w' : world) acts :
  replay w acts = Some w' → follows w w'.
Proof.
  revert w. induction acts as [|a acts IH]; intros w; cbn [replay]; [intros [= <-]; constructor|].
  destruct (permittedb w a) eqn:Ha; [|done]. intros (w1 & Hp & Hr)%bind_Some.
  by eapply follows_act; [apply permittedb_true| |apply IH].
Qed.
Lemma replay_follows_default `{RL : RustlsLaws} `{SL : UnstableSortLaws (Z * bytes)} (w : world) acts :
  ran (replay w acts) = true → follows w (default w (replay w acts)).
Proof. destruct (replay w acts) as [w'|] eqn:E; [|done]. intros _. by eapply replay_follows. Qed.

Lemma later_world_follows : follows sample_world later_world.
Proof. apply replay_follows_default. by vm_compute. Qed.

Lemma later_world_numbers :
  map recovery.number (recovery.packets (sent (space_data sample_world.1))) = [0] ∧
  next_packet_number (space_data sample_world.1) = 1 ∧
  map recovery.number (recovery.packets (sent (space_data later_world.1))) = [0; 1] ∧
  closed later_world.1 = Some "closed locally"%string.
Proof. by vm_compute. Qed.

Lemma conn_forward_only_witness :
  next_packet_number (space_data sample_world.1) = 1 ∧ connected later_world.1 = true ∧
  ∀ p, p ∈ recovery.packets (sent (space_of later_world.1 Data)) →
    p ∈ recovery.packets (sent (space_of sample_world.1 Data)) ∨
    next_packet_number (space_of sample_world.1 Data) ≤ recovery.number p.
Proof.
  destruct (conn_forward_only sample.local sample_world later_world sample_local_ok sample_world_reachable
    later_world_follows) as (Hn & _ & Hc & _).
  split; [exact (proj1 (proj2 later_world_numbers))|]. split; [apply Hc; by vm_compute|].
  destruct (Hn Data) as (_ & _ & Hp). intros p Hin. exact (proj2 (Hp p Hin)).
Defined.
End connection_history.
