(* ===== verification/QuicConnTotal.v ===== *)
(** * A QUIC connection does not panic

    No datagram, however malformed, and no call of the worker makes the
    connection panic or loop, with one exception: an acknowledgement that is owed
    when there is nothing left to acknowledge ([ack_panic]). *)

From S2P Require Import Prelude Effects Varint QuicFrame QuicAck QuicReceived QuicPacket QuicHeader QuicTransport QuicRecvStream QuicSendStream QuicRecovery QuicStreams QuicStreamsInv QuicStreamsRun QuicConn QuicConnSample QuicConnTimers QuicConnRun QuicConnSafe QuicConnHistory.
From stdpp Require Import sets sorting.
#[local] Open Scope Z_scope.

Module connection_total.
Import packet connection connection_timers conn_streams_inv conn_streams_run connection_run connection_safe connection_history.

(** ** Recording a packet leaves something to acknowledge *)

Lemma delete_nonempty {A} (l : list A) i : (2 ≤ length l)%nat → delete i l ≠ [].
Proof.
  intros Hl E%(f_equal length). rewrite delete_take_drop, length_app, length_take, length_drop in E. cbn in E. lia.
Qed.

Lemma insert_loop_nonempty left i ranges pn :
  (ranges ≠ [] ∨ left = 0%nat) → ack.insert_loop left i ranges pn ≠ [].
Proof.
  revert i. induction left as [|left IH]; intros i Hr; cbn [ack.insert_loop].
  - destruct ranges; [done|]. case_match; done.
  - destruct Hr as [Hr|]; [|done]. assert (∀ j x, <[j := x]> ranges ≠ []) as Hi
      by (intros j x E; apply (f_equal length) in E; rewrite length_insert in E; by destruct ranges).
    destruct (ranges !! i) as [[smallest largest]|] eqn:Ei; [|done]. destruct (_ && _); [done|].
    destruct (_ =? _); [|destruct (_ && _); [|destruct (_ <? _)]].
    + destruct i as [|j]; [done|]. destruct (_ !! j) as [[s0 e0]|]; [|done]. destruct (_ =? _); [|done].
      apply delete_nonempty. rewrite !length_insert. apply lookup_lt_Some in Ei. lia.
    + destruct (_ !! S i) as [[s1 e1]|] eqn:E1; [|done]. destruct (_ =? _); [|done].
      apply delete_nonempty. apply lookup_lt_Some in E1. rewrite !length_insert in *. lia.
    + unfold vec_insert. by destruct (take i _).
    + apply IH. by left.
Qed.

Lemma record_nonempty a pn e now : ack.ranges (ack.record a pn e now) ≠ [].
Proof.
  cbn. apply insert_loop_nonempty. destruct (ack.ranges a); [by right|by left].
Qed.

Definition polite (e : conn_error) : Prop :=
  match e with Anyhow (Panic _) => False | _ => True end.

(** A result that is not a panic. *)
Definition civil {A} (r : result conn_error A) : Prop := match r with Ok _ => True | Err e => polite e end.
Lemma civil_bind {A B} (r : result conn_error A) (f : A → result conn_error B) :
  civil r → (∀ a, civil (f a)) → civil (r ≫= f).
Proof. destruct r as [a|e]; [by intros _ Hf; apply Hf|done]. Qed.
Lemma civil_recv {A} (r : result recv_stream.RecvError A) : civil (conn_streams.of_recv r).
Proof. by destruct r. Qed.
Lemma civil_res {A} (r : res A) : no_panic r → civil (conn_streams.of_res r).
Proof. destruct r as [|[m|m]]; try done. intros Hr. by apply (Hr m). Qed.

Ltac mind :=
  cbv zeta;
  repeat (cbv beta; lazymatch goal with
  | |- civil (_ ≫= _) => apply civil_bind; [|intros ?]
  | |- civil (Ok _) => exact I
  | |- civil (conn_streams.bail_conn _) => exact I
  | |- civil (conn_streams.of_recv _) => apply civil_recv
  | |- civil (match ?x with _ => _ end) => destruct x
  | |- civil (if ?x then _ else _) => destruct x
  end).

Lemma on_stream_civil `{UnstableSort (Z * bytes)} s id off data fin : civil (conn_streams.on_stream s id off data fin).
Proof. unfold conn_streams.on_stream. mind. Qed.
Lemma on_reset_civil s id e n : civil (conn_streams.on_reset s id e n).
Proof. unfold conn_streams.on_reset. mind. Qed.

Section total.
Context `{RL : RustlsLaws} `{SL : UnstableSortLaws (Z * bytes)}.
Implicit Types c : Connection.

(** ** Methods that never panic *)

Definition silent {A} (m : eff Connection conn_error A) : Prop :=
  ∀ c, civil (m c).1.

Lemma silent_bind {A B} (m : eff Connection conn_error A) (f : A → eff Connection conn_error B) :
  silent m → (∀ a, silent (f a)) → silent (m ≫= f).
Proof. intros Hm Hf c. rewrite bind_run. specialize (Hm c). destruct (m c) as [[a|e] c']; [apply Hf|done]. Qed.
Lemma silent_ret {A} (a : A) : silent (mret a).
Proof. done. Qed.
Lemma silent_get : silent get.
Proof. done. Qed.
Lemma silent_modify f : silent (modify f).
Proof. done. Qed.
Lemma silent_when b m : silent m → silent (when b m).
Proof. by destruct b. Qed.
Lemma silent_lift {A} (r : result conn_error A) : civil r → silent (lift r).
Proof. by intros Hr c. Qed.
Lemma silent_lift_res {A} (r : res A) : no_panic r → silent (lift_res r).
Proof. intros Hr. by apply silent_lift, civil_res. Qed.
Lemma silent_bail {A} msg : silent (bail_m msg : eff Connection conn_error A).
Proof. done. Qed.

(** Walks through a method, leaving what is not obvious. *)
Ltac hush :=
  cbv zeta;
  repeat (cbv beta; lazymatch goal with
  | |- silent (_ ≫= _) => apply silent_bind; [|intros ?]
  | |- silent (mret _) => apply silent_ret
  | |- silent get => apply silent_get
  | |- silent (when _ _) => apply silent_when
  | |- silent (modify _) => apply silent_modify
  | |- silent (bail_m _) => apply silent_bail
  | |- silent (match ?x with _ => _ end) => destruct x eqn:?
  | |- silent (if ?x then _ else _) => destruct x eqn:?
  end).

(** ** The handshake *)

Lemma take_params_silent : silent take_peer_params.
Proof.
  unfold take_peer_params. apply silent_bind; [apply silent_get|]. intros c.
  destruct (quic_transport_parameters (tls c)) as [raw|] eqn:Hraw; [|apply silent_bail]. hush.
  - apply silent_lift_res. eapply wp_no_panic, transport.decode_wp. by eapply transport_bytes.
  - apply silent_lift. unfold validate_server_params. mind.
Qed.

Lemma take_params_tls : evolves (λ c c', tls c' = tls c) take_peer_params.
Proof.
  assert (PreOrder (λ c c', tls c' = tls c)) by (split; [by intros c|by intros a b c -> ->]).
  unfold take_peer_params. evolve; try done; try by apply evolves_lift. by case_match; [case_match|].
Qed.

(** The fuel of [pump_tls] is enough: each turn but the last hands out a flight. *)
Lemma pump_loop_polite fuel c :
  (flights (tls c) < fuel)%nat → civil (pump_loop fuel c).1.
Proof.
  revert c. induction fuel as [|fuel IH]; intros c Hf; [lia|]. cbn [pump_loop]. rewrite bind_run. cbn [get].
  destruct (write_hs (tls c)) as [[change produced] t] eqn:Hw. apply write_hs_flights in Hw.
  set (space := if has_keys c Handshake then Handshake else Initial). clearbody space.
  rewrite bind_run. cbn [modify]. set (c1 := on_space space _ _). assert (tls c1 = t) as Ht by (by destruct space).
  clearbody c1. destruct change as [[k|k next]|].
  - destruct Hw as [[? _]|Hw]; [done|]. rewrite bind_run. cbn [modify]. rewrite bind_run. cbn [modify].
    apply IH. cbn. rewrite Ht. lia.
  - destruct Hw as [[? _]|Hw]; [done|]. rewrite bind_run. pose proof (take_params_silent c1) as Hs.
    pose proof (take_params_tls c1) as Ht2. destruct (take_peer_params c1) as [[[]|e] c2]; cbn [fst snd] in *; [|done].
    rewrite bind_run. cbn [modify]. rewrite bind_run. cbn [modify]. apply IH.
    destruct (next_packet_keys next). cbn. rewrite Ht2, Ht. lia.
  - destruct (Nat.eqb_spec (length produced) 0); [done|]. destruct Hw as [[_ ->]|Hw]; [done|].
    rewrite bind_run. cbn [modify]. apply IH. cbn. rewrite Ht. lia.
Qed.
Lemma pump_tls_silent : silent pump_tls.
Proof. intros c. unfold pump_tls. rewrite bind_run. cbn [get]. apply pump_loop_polite. lia. Qed.

Lemma on_crypto_silent space offset data : silent (on_crypto space offset data).
Proof.
  unfold on_crypto. hush; try apply pump_tls_silent. apply silent_lift, civil_recv.
Qed.

Lemma initial_keys_no_panic dcid : no_panic (initial_keys dcid).
Proof. unfold initial_keys, no_panic. by destruct tls13_aes_128_gcm_sha256 as [[f|]|]. Qed.

Lemma on_retry_silent dcid scid token packet : silent (on_retry dcid scid token packet).
Proof. unfold on_retry. hush. apply silent_lift_res, initial_keys_no_panic. Qed.

(** ** Frames *)

Lemma on_new_connection_id_silent seq retire cid token : silent (on_new_connection_id seq retire cid token).
Proof.
  unfold on_new_connection_id. hush. apply silent_lift_res. intros m. unfold cid_new. by case_match.
Qed.

Lemma on_streams_silent f : (∀ s, civil (f s)) → silent (on_streams f).
Proof. intros Hf. unfold on_streams. hush. by apply silent_lift. Qed.

Lemma handle_frame_silent space f now : silent (handle_frame space f now).
Proof.
  destruct f; cbn [handle_frame]; hush;
    first [apply on_crypto_silent|apply on_new_connection_id_silent|apply on_streams_silent; intros s|idtac].
  - apply on_reset_civil.
  - apply on_stream_civil.
  - unfold on_path_challenge. hush.
Qed.

Lemma handle_frames_silent space now fs b :
  Forall no_panic fs → silent (handle_frames space now fs b).
Proof.
  intros Hfs. revert b. induction Hfs as [|r fs Hr _ IH]; intros b; cbn [handle_frames]; hush;
    [by apply silent_lift_res|apply handle_frame_silent|apply IH].
Qed.

Lemma frames_no_panic payload : bytes_ok payload → Forall no_panic (frame.frames payload).
Proof.
  intros Hok. destruct (frame.collect_frames (S (length payload)) (S (length payload)) (frame.new payload))
    as (_ & fs & tail & Hfs & Ht).
  - split; [cbn; lia|done].
  - rewrite frame.length_remaining. cbn. lia.
  - done.
  - change (frame.frames payload) with (frame.collect (S (length payload)) (frame.new payload)). rewrite Hfs.
    apply Forall_app. split; [apply Forall_fmap, Forall_true; by intros f m|].
    destruct Ht as [->|[m ->]]; [constructor|]. repeat constructor. by intros m'.
Qed.

Lemma process_packet_silent space scid pn payload now :
  bytes_ok payload → silent (process_packet space scid pn payload now).
Proof. intros Hok. unfold process_packet. hush. by apply handle_frames_silent, frames_no_panic. Qed.

(** ** Packets *)

Lemma unprotect_wp hp p off :
  (0 < off)%nat → wp (unprotect_header hp p off) (λ '(_, n, p'), (n ≤ 4)%nat ∧ length p' = length p ∧ (off + 20 ≤ length p)%nat).
Proof.
  intros Hoff. unfold unprotect_header, SAMPLE_OFFSET, SAMPLE_LEN. destruct (Nat.ltb_spec (length p) (off + 4 + 16)); [done|].
  apply wp_bind, wp_slice; [lia..|]. apply wp_bind, wp_index; [lia|]. intros b _.
  apply wp_bind, wp_slice_from; [lia|]. destruct (Nat.eqb_spec off 0); [lia|]. apply wp_bind, wp_Ok.
  apply wp_bind, wp_slice; [lia|rewrite length_drop; lia|]. apply wp_bind.
  eapply wp_mono; [apply unmask_in_place|]. intros [f pn] Hl. apply wp_Ok. cbn in Hl.
  rewrite length_take, !length_drop in Hl.
  assert (0 ≤ Z.land f 3 < 4) by (change 3 with (Z.ones 2); rewrite Z.land_ones by lia; apply Z.mod_pos_bound; lia).
  split; [lia|]. split; [|lia]. unfold write_header. cbn. rewrite !length_app, length_take, !length_drop. lia.
Qed.

Lemma handle_protected_silent now buf space pn_offset end_ scid :
  bytes_ok buf → (0 < pn_offset)%nat → (end_ ≤ length buf)%nat →
  silent (handle_protected now buf space pn_offset end_ scid).
Proof.
  intros Hok Hpos Hend. unfold handle_protected. apply silent_bind; [apply silent_get|]. intros c0.
  destruct (remote_keys c0 space) as [k|]; [|apply silent_ret].
  intros c. rewrite bind_run. unfold lift_res, lift at 1. rewrite slice_in_range by lia. cbn [conn_streams.of_res].
  set (pkt := take (end_ - 0) (drop 0 buf)). assert (bytes_ok pkt) as Hpkt by (by apply bytes_ok_take, bytes_ok_drop).
  clearbody pkt. revert c. pose proof (unprotect_wp (header_key k) pkt pn_offset Hpos) as Hwp.
  destruct (unprotect_header (header_key k) pkt pn_offset) as [[[first n] pkt']|[m|m]] eqn:Hu; cbn in Hwp;
    [|apply silent_ret|done].
  destruct Hwp as (Hn & Hl & Hlen). apply unprotect_bytes in Hu; [|done].
  apply silent_bind; [apply silent_lift_res; intros m; rewrite slice_in_range by lia; done|]. intros pnb.
  cbv zeta. set (pn := decode_packet_number _ _ _). set (generation := if decide _ then _ else _).
  destruct (key_for c0 space generation) as [key|]; [|apply silent_ret].
  destruct (decrypt key pn _ _) as [payload|] eqn:Hd; [|apply silent_ret].
  assert (bytes_ok payload) as Hpay by (by eapply decrypted_bytes).
  hush. by apply process_packet_silent.
Qed.

Lemma handle_packet_silent now buf : bytes_ok buf → silent (handle_packet now buf).
Proof.
  intros Hok. unfold handle_packet. apply silent_bind; [apply silent_get|]. intros c0.
  pose proof (header.decode_header_wp buf (len (local_cid c0)) Hok) as Hwp.
  destruct (header.decode_header buf _) as [[space scid pn_offset end_|pn_offset end_|dcid scid token|dcid scid vs]|[m|m]];
    cbn in Hwp; hush; try done.
  - apply handle_protected_silent; [done|lia..].
  - apply handle_protected_silent; [done|lia..].
  - apply on_retry_silent.
Qed.

(** A turn of the loop that goes on consumes at least a byte. *)
Lemma datagram_loop_silent fuel now d pos ok :
  bytes_ok d → (length d ≤ pos + fuel)%nat → silent (datagram_loop fuel now d pos ok).
Proof.
  intros Hok. revert pos ok. induction fuel as [|fuel IH]; intros pos ok Hf; cbn [datagram_loop];
    destruct (Nat.leb_spec (length d) pos); try apply silent_ret; [lia|].
  intros c. pose proof (handle_packet_silent now (drop pos d) (bytes_ok_drop _ _ Hok) c) as H1.
  destruct (handle_packet now (drop pos d) c) as [[[n b]|[e|e]] c']; cbn [fst] in *; [|done..].
  destruct (Nat.eqb_spec n 0); [done|]. apply IH. lia.
Qed.

Lemma handle_datagram_silent now d : bytes_ok d → silent (handle_datagram now d).
Proof. intros Hok. unfold handle_datagram. hush. apply datagram_loop_silent; [done|lia]. Qed.

(** ** There is always something to acknowledge *)

Definition ready (a : ack.AckState) : Prop := ack.ack_eliciting_pending a = true → ack.ranges a ≠ [].
(** in every space but [o], *)
Definition ready_but (o : option Space) c : Prop := ∀ sp, Some sp ≠ o → ready (ack (space_of c sp)).

(** What a method does to the acknowledgements owed and to a close under way:
    a close that was not pending before is a transport error. *)
Record held (o : option Space) c c' : Prop := {
  held_acks : ready_but o c → ready_but o c';
  held_closed : closed c ≠ None → closed c' ≠ None;
  held_close : ∀ k, close_pending c' = Some k →
    close_pending c = Some k ∨ (close_app k = false ∧ closed c' ≠ None);
}.

#[global] Instance held_pre o : PreOrder (held o).
Proof.
  split; [by intros c; constructor; auto|]. intros a b c Hab Hbc. constructor.
  - intros Ha. by apply Hbc, Hab.
  - intros Ha. by apply Hbc, Hab.
  - intros k Hk. destruct (held_close _ _ _ Hbc k Hk) as [Hb|]; [|by right].
    destruct (held_close _ _ _ Hab k Hb) as [|[? Hcl]]; [by left|right; split; [done|by apply Hbc]].
Qed.

Lemma held_frame o c c' :
  (∀ sp, ack (space_of c' sp) = ack (space_of c sp)) → closed c' = closed c → close_pending c' = close_pending c →
  held o c c'.
Proof.
  intros Hs E1 E2. constructor; [|by rewrite E1|rewrite E2; by left]. intros Hc sp Hsp. rewrite Hs. by apply Hc.
Qed.
Lemma space_of_same space f c : space_of (on_space space f c) space = f (space_of c space).
Proof. by destruct space. Qed.
Lemma space_of_other space sp f c : sp ≠ space → space_of (on_space space f c) sp = space_of c sp.
Proof. by destruct space, sp. Qed.
Lemma held_on_space o space f c :
  (Some space ≠ o → ready (ack (space_of c space)) → ready (ack (f (space_of c space)))) → held o c (on_space space f c).
Proof.
  intros Hf. constructor; [|by destruct space|by destruct space; left]. intros Hc sp Hsp.
  destruct (decide (sp = space)) as [->|Hne].
  - rewrite space_of_same. apply Hf; [done|]. by apply Hc.
  - rewrite space_of_other by done. by apply Hc.
Qed.
Lemma held_quiet o space f c : (∀ s, ack (f s) = ack s) → held o c (on_space space f c).
Proof. intros Hf. apply held_on_space. by rewrite Hf. Qed.
Lemma held_on_st o f c : held o c (on_st f c).
Proof. by apply held_frame. Qed.
Lemma held_lose o why c : held o c (lose why c).
Proof.
  unfold lose. destruct (closed c) eqn:E; [done|]. etrans; [|apply held_on_st].
  constructor; [done|done|by left].
Qed.
Lemma held_close_transport o code why c : held o c (close_transport code why c).
Proof.
  unfold close_transport, lose. destruct (closed c) eqn:E; [done|]. cbn. rewrite E.
  constructor; [done|done|]. intros k [= <-]. right. done.
Qed.
Lemma held_discard o space c : held o c (discard_space space c).
Proof.
  unfold discard_space.
  match goal with |- context [on_space space ?f c] => etrans; [by apply (held_on_space o space f)|by apply held_frame] end.
Qed.
Lemma held_detect o space now ld c : held o c (snd (detect_space space now ld c)).
Proof.
  apply (detect_moves (held o)); intros; first [apply held_on_st|by apply held_quiet|by apply held_frame].
Qed.

(** An acknowledgement may trim the ranges of its own space only. *)
Lemma held_on_ack space largest delay first ranges now c :
  held (Some space) c (on_ack space largest delay first ranges now c).
Proof.
  apply (on_ack_moves (held (Some space))); intros;
    first [apply held_on_st|apply held_detect|by apply held_quiet|by apply held_on_space|by apply held_frame].
Qed.

Ltac hold :=
  cbv beta zeta;
  repeat match goal with
  | |- held _ _ (match ?x with _ => _ end) => destruct x
  | |- held _ _ (if ?x then _ else _) => destruct x
  | |- held _ _ (need_send _) => etrans; [|apply held_on_st]
  | |- held _ _ (push_event _ _) => etrans; [|apply held_on_st]
  | |- held _ _ (push_retire _ _) => etrans; [|apply held_on_st]
  | |- held _ _ (discard_space _ _) => etrans; [|apply held_discard]
  end;
  first [done | apply held_on_st | apply held_lose | apply held_close_transport | by apply held_frame | by apply held_quiet].

Ltac evolve_held :=
  evolve; try lazymatch goal with
  | |- evolves _ (lift_res _) => apply evolves_lift; apply _
  | |- evolves _ (bail_m _) => apply evolves_lift; apply _
  | |- evolves _ (panic_m _) => apply evolves_lift; apply _
  | |- held _ _ _ => try hold
  end.

Section held_methods.
Context (o : option Space).

Lemma take_params_held : evolves (held o) take_peer_params.
Proof. unfold take_peer_params. evolve_held. Qed.
Lemma pump_loop_held fuel : evolves (held o) (pump_loop fuel).
Proof.
  induction fuel as [|fuel IH]; cbn [pump_loop]; evolve_held; try apply IH; try apply take_params_held.
  all: etrans; [|by apply held_quiet]; by apply held_frame.
Qed.
Lemma pump_tls_held : evolves (held o) pump_tls.
Proof. unfold pump_tls. evolve. apply pump_loop_held. Qed.
Lemma on_crypto_held space offset data : evolves (held o) (on_crypto space offset data).
Proof.
  unfold on_crypto. evolve_held; try apply pump_tls_held. all: etrans; [|by apply held_quiet]; by apply held_frame.
Qed.
Lemma on_retry_held dcid scid token packet : evolves (held o) (on_retry dcid scid token packet).
Proof.
  unfold on_retry. evolve_held. etrans; [|apply held_on_st].
  match goal with |- context [on_space Initial ?f ?c] => etrans; [by apply (held_quiet o Initial f)|by apply held_frame] end.
Qed.
Lemma on_new_connection_id_held seq retire cid token : evolves (held o) (on_new_connection_id seq retire cid token).
Proof. unfold on_new_connection_id. evolve_held. Qed.
Lemma on_streams_held f : evolves (held o) (on_streams f).
Proof. unfold on_streams. evolve_held. Qed.
End held_methods.

Lemma handle_frame_held space f now : evolves (held (Some space)) (handle_frame space f now).
Proof.
  destruct f; cbn [handle_frame]; evolve_held;
    first [apply on_crypto_held|apply on_streams_held|apply on_new_connection_id_held|apply held_on_ack|idtac].
  - unfold on_path_challenge. evolve_held.
  - unfold on_handshake_done. hold.
Qed.

Lemma handle_frames_held space now fs b : evolves (held (Some space)) (handle_frames space now fs b).
Proof.
  revert b. induction fs as [|f fs IH]; intros b; cbn [handle_frames]; evolve_held; [apply handle_frame_held|apply IH].
Qed.

(** Recording the packet itself makes up for what was trimmed. *)
Lemma record_ready space pn e now c :
  ready_but (Some space) c → ready_but None (on_space space (λ s, s <| ack := ack.record (ack s) pn e now |>) c).
Proof.
  intros Hc sp _. destruct (decide (sp = space)) as [->|Hne].
  - rewrite space_of_same. intros _. apply record_nonempty.
  - rewrite space_of_other by done. apply Hc. congruence.
Qed.

Lemma ready_weaken o c : ready_but None c → ready_but o c.
Proof. intros Hc sp _. by apply Hc. Qed.

Lemma held_note_scid o space scid c : held o c (note_scid space scid c).
Proof.
  unfold note_scid. destruct scid as [scid|]; [|done]. destruct (handshake_done c); [done|]. cbv zeta.
  destruct (peer_cids _), (decide (space = Initial)); by apply held_frame.
Qed.

Lemma process_packet_ready space scid pn payload now c :
  ready_but None c →
  holds (process_packet space scid pn payload now) c (λ _ c', ready_but None c') (λ _ _, True).
Proof.
  intros Hc. unfold process_packet. apply holds_bind, holds_modify, holds_bind, holds_modify, holds_bind.
  set (c2 := on_space space _ _). assert (ready_but None c2) as H2.
  { eapply held_acks; [by apply held_quiet|]. by eapply held_acks; [apply held_note_scid|]. }
  pose proof (held_acks _ _ _ (handle_frames_held space now (frame.frames payload) false c2) (ready_weaken _ _ H2)) as H3.
  unfold holds. destruct (handle_frames space now (frame.frames payload) false c2) as [[b|e] c3]; [|done]. cbn [snd] in H3.
  apply (record_ready space pn b now) in H3. apply holds_bind, holds_modify, holds_bind.
  set (c4 := on_space space _ c3) in *. clearbody c4. unfold when. destruct b.
  - apply holds_modify, holds_modify. exact H3.
  - apply holds_ret, holds_modify. exact H3.
Qed.

Lemma held_rotate o at' phase c : held o c (rotate_keys at' phase c).
Proof.
  destruct (rotate_frame at' phase c) as (_ & E1 & E2 & E3 & _). apply held_frame.
  - intros []; cbn; congruence.
  - unfold rotate_keys. destruct (next_1rtt c); [|done]. cbv zeta. case_match; [case_match|]; done.
  - unfold rotate_keys. destruct (next_1rtt c); [|done]. cbv zeta. case_match; [case_match|]; done.
Qed.

Lemma handle_protected_ready now buf space pn_offset end_ scid c :
  ready_but None c →
  holds (handle_protected now buf space pn_offset end_ scid) c (λ _ c', ready_but None c') (λ _ _, True).
Proof.
  intros Hc. unfold handle_protected. apply holds_bind, holds_get. destruct (remote_keys c space) as [k|]; [|by apply holds_ret].
  apply holds_bind, holds_lift; [|done]. intros pkt _. destruct (unprotect_header _ _ _) as [[[first n] pkt']|[m|m]];
    [|by apply holds_ret|by apply holds_lift].
  apply holds_bind, holds_lift; [|done]. intros pnb _. cbv zeta. destruct (key_for _ _ _) as [key|]; [|by apply holds_ret].
  destruct (decrypt key _ _ _) as [payload|]; [|by apply holds_ret].
  destruct (received.insert _ _) as [fresh r]. apply holds_bind, holds_modify.
  set (c1 := on_space space _ c). assert (ready_but None c1) as H1 by (by eapply held_acks; [apply held_quiet|]). clearbody c1.
  destruct fresh; cbn [negb]; [|by apply holds_ret]. apply holds_bind.
  apply (holds_mono _ _ (λ _ c', ready_but None c') _ (λ _ _, True)); [| |done].
  { unfold when. destruct (bool_decide _); [apply holds_modify; by eapply held_acks; [apply held_rotate|]|by apply holds_ret]. }
  intros [] c2 H2. apply holds_bind. eapply holds_mono; [by apply process_packet_ready|done|done].
Qed.

Lemma handle_packet_ready now buf c :
  ready_but None c → holds (handle_packet now buf) c (λ _ c', ready_but None c') (λ _ _, True).
Proof.
  intros Hc. unfold handle_packet. apply holds_bind, holds_get.
  destruct (header.decode_header buf _) as [[]|[]]; try (by apply handle_protected_ready); try (by apply holds_ret).
  - apply holds_bind. pose proof (held_acks _ _ _ (on_retry_held None dcid scid token buf c) Hc) as H1.
    unfold holds. by destruct (on_retry dcid scid token buf c) as [[[]|e] c'].
  - apply holds_bind, holds_modify, holds_ret. unfold on_version_negotiation. repeat case_match; try done. by eapply held_acks; [apply held_lose|].
  - by apply holds_lift.
Qed.

(** Whatever the outcome. *)
Lemma process_packet_held space scid pn payload now : evolves (held (Some space)) (process_packet space scid pn payload now).
Proof.
  unfold process_packet. evolve_held; [apply held_note_scid|apply handle_frames_held|].
  apply held_on_space. by intros [].
Qed.
Lemma handle_protected_held now buf space pn_offset end_ scid :
  evolves (held (Some space)) (handle_protected now buf space pn_offset end_ scid).
Proof. unfold handle_protected. evolve_held; try apply process_packet_held. all: apply held_rotate. Qed.
Lemma handle_packet_held now buf c : ∃ o, held o c (handle_packet now buf c).2.
Proof.
  unfold handle_packet. rewrite bind_run. cbn [get]. destruct (header.decode_header buf _) as [[]|[]].
  - eexists. apply handle_protected_held.
  - eexists. apply handle_protected_held.
  - exists None. apply (moves_bind (held None)); [apply on_retry_held|]. intros _. evolve.
  - exists None. apply (moves_bind (held None)); [ |intros _; evolve]. cbn. unfold on_version_negotiation.
    repeat case_match; try done. apply held_lose.
  - by exists None.
  - by exists None.
Qed.

(** A broken limit ends the connection with a transport error, which is then
    what there is to send. *)
Definition gentle c : Prop := ∀ k, close_pending c = Some k → close_app k = false ∧ closed c ≠ None.
Definition faulted c : Prop := closed c ≠ None ∧ gentle c.
Definition upright c : Prop :=
  (ready_but None c ∧ ∀ k, close_pending c = Some k → closed c ≠ None) ∨ faulted c.

Lemma held_gentle o c c' : held o c c' → gentle c → gentle c'.
Proof.
  intros Hh Hg k Hk. destruct (held_close _ _ _ Hh k Hk) as [Hc|]; [|done].
  destruct (Hg k Hc). split; [done|by apply Hh].
Qed.
Lemma held_upright c c' : held None c c' → upright c → upright c'.
Proof.
  intros Hh [[Hr Hp]|[Hc Hg]].
  - left. split; [by apply Hh|]. intros k Hk. destruct (held_close _ _ _ Hh k Hk) as [Hc|[_ Hc]]; [|done].
    apply Hh. by eapply Hp.
  - right. split; [by apply Hh|by eapply held_gentle].
Qed.
Lemma gentle_upright c : ready_but None c → gentle c → upright c.
Proof. intros Hr Hg. left. split; [done|]. intros k Hk. by apply (Hg k). Qed.

Lemma datagram_loop_upright fuel now d pos ok c :
  ready_but None c → gentle c →
  holds (datagram_loop fuel now d pos ok) c
    (λ r c', match r with Some _ => ready_but None c' ∧ gentle c' | None => faulted c' end) (λ _ _, True).
Proof.
  revert pos ok c. induction fuel as [|fuel IH]; intros pos ok c Hr Hg; cbn [datagram_loop];
    (destruct (_ <=? _)%nat; [by apply holds_ret|]); [by apply holds_lift|].
  unfold holds. pose proof (handle_packet_ready now (drop pos d) c Hr) as H1. unfold holds in H1.
  destruct (handle_packet_held now (drop pos d) c) as [o H2].
  destruct (handle_packet now (drop pos d) c) as [[[n b]|[e|e]] c']; cbn [snd] in *.
  - destruct (n =? 0)%nat; [split; [done|by eapply held_gentle]|]. apply IH; [done|by eapply held_gentle].
  - done.
  - apply (held_gentle _ _ _ H2) in Hg. split; [|by eapply held_gentle; [apply (held_close_transport None)|]].
    unfold close_transport, lose. destruct (closed c') eqn:E; [by rewrite E|]. cbn. by rewrite E.
Qed.

Lemma held_arm_idle o now c : held o c (arm_idle now c).
Proof. unfold arm_idle. destruct (_ && _); [done|by apply held_frame]. Qed.

Lemma handle_datagram_upright now d c :
  upright c → holds (handle_datagram now d) c (λ _ c', upright c') (λ _ _, True).
Proof.
  intros Hu. unfold handle_datagram. apply holds_bind, holds_get. destruct (closed c) eqn:Hc; [by apply holds_ret|].
  destruct Hu as [[Hr Hp]|[? _]]; [|done].
  assert (gentle c) as Hg by (intros k Hk; by specialize (Hp k Hk)).
  apply holds_bind. eapply holds_mono; [by apply datagram_loop_upright| |done].
  intros [[]|] c' H1; [| |by apply holds_ret; right].
  - apply holds_modify. destruct H1. apply (held_upright c'); [|by apply gentle_upright].
    unfold note_received. etrans; [|apply held_arm_idle]. by apply held_frame.
  - apply holds_bind, holds_get. destruct H1. assert (upright c') by (by apply gentle_upright).
    destruct (stateless_reset_tail d) as [tail|]; [|by apply holds_ret]. unfold when.
    destruct (is_stateless_reset c' tail); [|by apply holds_ret]. apply holds_modify.
    by eapply held_upright; [apply held_lose|].
Qed.

Lemma handle_timeout_held now c : held None c (handle_timeout now c).
Proof.
  apply (handle_timeout_moves (held None)); intros;
    first [apply held_on_st|apply held_detect|apply held_lose|by apply held_quiet|by apply held_frame].
Qed.

(** ** Sending *)

Lemma holds_civil {A} (m : eff Connection conn_error A) c (Q : A → Connection → Prop) :
  holds m c Q (λ _ _, True) → civil (m c).1 → holds m c Q (λ e _, polite e).
Proof. unfold holds. by destruct (m c) as [[a|e] c']. Qed.
Lemma civil_holds {A} (m : eff Connection conn_error A) c (Q : A → Connection → Prop) :
  holds m c Q (λ e _, polite e) → civil (m c).1.
Proof. unfold holds. by destruct (m c) as [[a|e] c']. Qed.

Lemma silent_holds {A} (m : eff Connection conn_error A) c : silent m → holds m c (λ _ _, True) (λ e _, polite e).
Proof. intros Hm. specialize (Hm c). unfold holds. by destruct (m c) as [[a|e] c']. Qed.

Section filling.
Context (polled : list Event) (space : Space) (now : Z) (budget start : nat).

Lemma fill_ack_civil out c : ready_but None c → civil (fill_ack space now budget start out c).1.
Proof.
  intros Hr. unfold fill_ack. rewrite bind_run. cbn [get]. cbv zeta. destruct (_ && _) eqn:E; [|done].
  apply andb_true_iff in E as [E _]. rewrite bind_run. unfold lift_res, lift.
  assert (ready (ack (space_of c space))) as Hs by (by apply Hr). specialize (Hs E).
  unfold frame.put_ack. destruct (ack.ranges (ack (space_of c space))) as [|[a b] l]; done.
Qed.

Lemma fill_crypto_civil fuel out fs b c :
  (length (crypto_out (space_of c space)) ≤ crypto_sent (space_of c space) + fuel)%nat →
  civil (fill_crypto space budget start fuel out fs b c).1.
Proof.
  revert out fs b c. induction fuel as [|fuel IH]; intros out fs b c Hf; cbn [fill_crypto]; rewrite bind_run; cbn [get]; cbv zeta;
    (destruct (_ || _) eqn:E; [done|]); apply orb_false_iff in E as [_ E]; apply Nat.leb_gt in E;
    (destruct (Nat.eqb_spec (Nat.min (length (crypto_out (space_of c space)) - crypto_sent (space_of c space)) (room_in budget start out - 8)) 0); [done|]); [lia|].
  rewrite bind_run. cbn [modify]. apply IH. rewrite space_of_same. cbn. lia.
Qed.

Lemma fill_path_response_silent out : silent (fill_path_response space budget start out).
Proof. unfold fill_path_response. hush. Qed.
Lemma fill_close_silent out : silent (fill_close space out).
Proof. unfold fill_close. hush. Qed.
Lemma fill_ping_silent due clear f : silent (fill_ping budget start due clear f).
Proof. unfold fill_ping. hush. Qed.

Lemma fill_data_civil out fs congested c :
  inv polled [] c → Forall unseen fs → no_panic (conn_streams.fill_data_payload budget start (st c) out fs congested).
Proof.
  intros ((g & (Hs & Hc & Hg) & E & _) & _) Hfs. rewrite <- E.
  destruct (fill_good (g_flight g) (g_polled g) budget start (g_gone g) (g_gone_sent g) (g_c g) out fs congested)
    as (f & -> & _); [|done].
  split; [by apply shape_frames|done].
Qed.

Lemma fill_payload_civil out congested c :
  inv polled [] c → ready_but None c → start = length out →
  civil (fill_payload space now budget start out congested c).1.
Proof.
  intros Hi Hr Hst. apply (civil_holds _ _ (λ _ _, True)). apply holds_bind.
  eapply holds_mono; [apply holds_civil; [by apply fill_ack_inv|by apply fill_ack_civil]| |done].
  intros [o1 al] c1 [H1 L1]. cbn in L1. apply holds_bind.
  eapply holds_mono; [apply holds_civil; [by apply (fill_path_response_inv polled); [done|lia]|]| |done].
  { apply fill_path_response_silent. }
  intros [o2 b] c2 [H2 C2]. cbn in C2. apply holds_bind.
  eapply holds_mono; [apply holds_civil; [by apply (fill_close_inv polled)|]| |done].
  { apply fill_close_silent. }
  intros [o3|] c3 [H3 L3]; [by apply holds_ret|]. apply holds_bind, holds_get, holds_bind.
  eapply holds_mono; [apply holds_civil; [by apply (fill_crypto_inv polled)|apply fill_crypto_civil; lia]| |done].
  intros [[o4 fs] b4] c4 (H4 & F4 & _).
  apply holds_bind. apply (holds_mono _ _ (λ _ _, True) _ (λ e _, polite e)); [| |done].
  - destruct (decide (space = Data)) as [Hd|Hd]; [|by apply holds_ret].
    apply holds_bind, holds_get, holds_bind, holds_lift.
    + intros f _. apply holds_bind, holds_modify. by apply holds_ret.
    + intros e He. unfold conn_streams.of_res in He.
      assert (no_panic (conn_streams.fill_data_payload budget start (st c4) o4 fs congested)) as Hn.
      { apply fill_data_civil; [done|]. eapply Forall_impl; [exact F4|]. apply handshake_unseen. }
      destruct (conn_streams.fill_data_payload _ _ _ _ _ _) as [|[m|m]]; [done|by injection He as <-|by destruct (Hn m)].
  - intros f c5 _. apply silent_holds. hush; apply fill_ping_silent.
Qed.
End filling.

Lemma pn_len_bounds pn la : (1 ≤ Z.to_nat (encode_packet_number pn la).2 ≤ 4)%nat.
Proof. unfold encode_packet_number. cbn. repeat case_match; lia. Qed.

Lemma long_put_wp h n k : header.lh_space h ≠ Data → wp (header.long_put h n k) (λ b, (5 ≤ length b)%nat).
Proof.
  intros Hs. unfold header.long_put. destruct (header.lh_space h); [..|done]; apply wp_Ok; cbn [app length];
    rewrite length_app; change (length (be_bytes 4 header.VERSION_1)) with 4%nat; lia.
Qed.

Lemma put_header_civil space n c :
  holds (put_header space n) c
    (λ head c', c' = c ∧ (1 ≤ length head)%nat ∧ (space ≠ Data → (5 ≤ length head)%nat)) (λ e _, polite e).
Proof.
  unfold put_header. apply holds_bind, holds_get. destruct (decide (space = Data)) as [->|Hd].
  - apply holds_ret. split; [done|]. cbn. split; [lia|done].
  - match goal with |- holds (lift_res (header.long_put ?h n 0)) _ _ _ => pose proof (long_put_wp h n 0 Hd) as Hw end.
    apply holds_lift; unfold conn_streams.of_res; destruct (header.long_put _ _ _) as [b|[m|m]]; cbn in Hw; try done.
    + intros b' [= <-]. split; [done|]. split; [lia|done].
    + by intros e [= <-].
Qed.

Lemma pad_payload_length out ps n ds pad : (length out ≤ length (pad_payload out ps n ds pad))%nat.
Proof.
  unfold pad_payload, pad_bytes. cbv zeta. repeat case_match; rewrite ?length_app; lia.
Qed.

Lemma protect_no_panic hp p off n :
  (0 < off)%nat → (n ≤ 4)%nat → no_panic (protect_header hp p off n).
Proof.
  intros Hoff Hn. apply (wp_no_panic _ (λ _, True)). unfold protect_header, SAMPLE_OFFSET, SAMPLE_LEN.
  destruct (Nat.ltb_spec (length p) (off + 4 + 16)); [done|].
  apply wp_bind, wp_slice; [lia..|]. apply wp_bind, wp_index; [lia|]. intros b _.
  apply wp_bind, wp_slice_from; [lia|]. destruct (Nat.eqb_spec off 0); [lia|]. apply wp_bind, wp_Ok.
  apply wp_bind, wp_slice; [lia|rewrite length_drop; lia|]. apply wp_bind.
  eapply wp_mono; [apply mask_in_place|]. by intros [f pn] _.
Qed.

Lemma seal_civil space pn n hs po ps out c :
  (n ≤ 4)%nat → (hs < po)%nat → (space ≠ Data → (4 ≤ po)%nat) → (po ≤ length out)%nat → local_keys c space ≠ None →
  civil (seal space pn n hs po ps out c).1.
Proof.
  intros Hn Hhs Hpo Hlen Hk. unfold seal. apply (civil_holds _ _ (λ _ _, True)). apply holds_bind.
  apply (holds_mono _ _ (λ _ c', c' = c) _ (λ e _, polite e)); [| |done].
  - destruct (decide (space = Data)) as [|Hd]; [by apply holds_ret|]. specialize (Hpo Hd).
    apply holds_lift; [done|]. unfold header.set_varint_fixed4.
    destruct (Nat.ltb_spec (length out) (po - 4 + 4)); [lia|done].
  - intros o c' ->. apply holds_bind, holds_get. destruct (local_keys c space) as [k|]; [|done]. cbv zeta.
    destruct (encrypt _ _ _ _) as [[body tag]|e]; [|by apply holds_lift; [|intros ? [= <-]]].
    apply holds_bind, holds_lift; [intros p _; by apply holds_ret|]. intros e He. unfold conn_streams.of_res in He.
    match type of He with context [protect_header ?a ?b ?c ?d] =>
      pose proof (protect_no_panic a b c d ltac:(lia) Hn) as Hp end.
    destruct (protect_header _ _ _ _) as [|[m|m]]; [done|by injection He as <-|by destruct (Hp m)].
Qed.

Lemma fill_payload_held space now budget start out congested :
  evolves (held None) (fill_payload space now budget start out congested).
Proof.
  assert (∀ fuel o fs b, evolves (held None) (fill_crypto space budget start fuel o fs b)) as Hcrypto.
  { induction fuel as [|fuel IH]; intros o fs b; cbn [fill_crypto]; evolve_held; apply IH. }
  unfold fill_payload, fill_ack, fill_path_response, fill_close, fill_ping. evolve_held; try apply Hcrypto.
  by apply held_on_space.
Qed.
Lemma record_packet_held space now pn size f : evolves (held None) (record_packet space now pn size f).
Proof.
  unfold record_packet. evolve_held. unfold note_sent. destruct (sent_since_recv _); [done|]. cbv zeta.
  destruct (connected _); [|by apply held_frame]. etrans; [|apply held_arm_idle]. by apply held_frame.
Qed.
Lemma write_packet_held space now out dstart congested pad : evolves (held None) (write_packet space now out dstart congested pad).
Proof.
  unfold write_packet. evolve; try apply fill_payload_held; try apply record_packet_held.
  - intros c. by rewrite <- (put_header_still space _ c).
  - intros c. by rewrite <- (seal_still _ _ _ _ _ _ _ c).
Qed.
Lemma transmit_loop_held spaces now out start congested pad : evolves (held None) (transmit_loop spaces now out start congested pad).
Proof.
  revert out. induction spaces as [|space rest IH]; intros out; cbn [transmit_loop]; evolve_held;
    first [apply write_packet_held|apply IH].
Qed.
Lemma poll_transmit_held now out pad : evolves (held None) (poll_transmit now out pad).
Proof. unfold poll_transmit. evolve; first [apply pump_tls_held|apply transmit_loop_held|apply held_arm_idle]. Qed.

Section transmit.
Context (polled : list Event).

Definition sane c : Prop := inv polled [] c ∧ ready_but None c.

Lemma write_packet_sane space now out dstart congested pad c :
  sane c → holds (write_packet space now out dstart congested pad) c (λ _ c', sane c') (λ _ _, True).
Proof.
  intros [Hi Hr]. eapply holds_mono; [apply (holds_evolves (held None)); [by apply write_packet_inv|apply write_packet_held]| |done].
  intros r c' [Hi' Hh]. split; [done|by apply Hh].
Qed.

Lemma write_packet_civil space now out dstart congested pad c :
  sane c → local_keys c space ≠ None → civil (write_packet space now out dstart congested pad c).1.
Proof.
  intros [Hi Hr] Hk. unfold write_packet. destruct (_ <? _)%nat; [done|].
  apply (civil_holds _ _ (λ _ _, True)). apply holds_bind, holds_get. cbv zeta.
  pose proof (pn_len_bounds (next_packet_number (space_of c space)) (recovery.largest_acked (sent (space_of c space)))) as Hpl.
  destruct (encode_packet_number _ _) as [tpn pl]. cbn [snd] in Hpl.
  apply holds_bind. eapply holds_mono; [apply put_header_civil| |done]. intros head c1 (-> & Hh1 & Hh5).
  set (out1 := (out ++ head) ++ _). assert (length out1 = length (out ++ head) + Z.to_nat pl)%nat as Hl1
    by (unfold out1; rewrite length_app, length_drop, length_be_bytes; lia).
  apply holds_bind. eapply holds_mono;
    [apply (holds_evolves steady); [apply holds_civil; [by apply (fill_payload_inv polled)|by apply (fill_payload_civil polled)]|apply fill_payload_steady]| |done].
  intros f c2 ((_ & L2 & _) & S2 & Ek & _). destruct (_ =? _)%nat; [by apply holds_ret|].
  apply holds_bind. match goal with |- holds (seal ?a ?b ?d ?e ?g ?h ?o) _ _ _ =>
    assert (civil (seal a b d e g h o c2).1) as Hs; [|unfold holds; destruct (seal a b d e g h o c2) as [[o'|e'] c3]; [|exact Hs]] end.
  { rewrite length_app in Hl1. apply seal_civil; [lia|rewrite length_app; lia|intros Hd; specialize (Hh5 Hd); rewrite length_app; lia| |].
    - etrans; [|apply pad_payload_length]. etrans; [|exact L2]. rewrite length_app. lia.
    - destruct (S2 space) as (_ & _ & E & _). destruct space; cbn [local_keys] in *; rewrite ?E, ?Ek; done. }
  apply silent_holds. unfold record_packet. hush.
Qed.

Lemma transmit_loop_civil spaces now out start congested pad c :
  sane c → civil (transmit_loop spaces now out start congested pad c).1.
Proof.
  revert out c. induction spaces as [|space rest IH]; intros out c Hs; cbn [transmit_loop]; [done|].
  destruct (_ <=? _)%nat; [done|]. apply (civil_holds _ _ (λ _ _, True)). apply holds_bind, holds_get.
  destruct (local_keys c space) as [k|] eqn:Hk; [|apply holds_civil; [|by apply IH]; by unfold holds; destruct (transmit_loop _ _ _ _ _ _ _) as [[]]].
  cbv zeta. apply holds_bind. eapply holds_mono; [apply holds_civil; [by apply write_packet_sane|apply write_packet_civil; [done|by rewrite Hk]]| |done].
  intros [w o] c1 H1. apply holds_bind, holds_get, holds_bind.
  apply (holds_mono _ _ (λ _ c', sane c') _ (λ e _, polite e)); [| |done].
  - unfold when. destruct (_ && _); [|by apply holds_ret]. apply holds_modify. destruct H1 as [Hi Hr].
    split; [by apply inv_discard|by eapply held_acks; [apply held_discard|]].
  - intros [] c2 H2. destruct (_ && _); [by apply holds_ret|]. apply holds_civil; [|by apply IH].
    unfold holds. by destruct (transmit_loop _ _ _ _ _ _ _) as [[]].
Qed.

Lemma poll_transmit_civil now out pad c :
  sane c → civil (poll_transmit now out pad c).1.
Proof.
  intros [Hi Hr]. unfold poll_transmit. apply (civil_holds _ _ (λ _ _, True)). apply holds_bind, holds_get.
  destruct (match closed c with Some _ => _ | None => _ end); [by apply holds_ret|]. apply holds_bind.
  eapply holds_mono; [apply (holds_civil _ _ (λ _ c', sane c')); [|apply pump_tls_silent]| |done].
  { pose proof (pump_tls_inv polled c Hi) as H1. pose proof (held_acks _ _ _ (pump_tls_held None c) Hr) as H2.
    unfold holds. by destruct (pump_tls c) as [[[]|e] c']. }
  intros [] c1 H1. apply holds_bind, holds_get, holds_bind. eapply holds_mono;
    [apply (holds_civil _ _ (λ _ _, True)); [|by apply transmit_loop_civil]| |done].
  { unfold holds. by destruct (transmit_loop _ _ _ _ _ _ _) as [[]]. }
  intros o c2 _. apply silent_holds. hush.
Qed.
End transmit.

(** ** Executions *)

Lemma connect_upright rl rd name local c : connect rl rd name local = Ok c → upright c.
Proof.
  intros Hc. unfold connect in Hc. apply bind_Ok in Hc as (t & _ & Hc). apply bind_Ok in Hc as (t' & _ & Hc).
  apply bind_Ok in Hc as (k & _ & Hc). apply Ok_inj in Hc as <-. left. split; [|done]. by intros [] _.
Qed.

Lemma perform_upright w a w' : upright w.1 → perform w a = Some w' → upright w'.1.
Proof.
  destruct w as [c polled]. intros Hu. destruct a as [now out pad|now d|now|code reason| |o]; cbn [perform].
  - pose proof (held_upright _ _ (poll_transmit_held now out pad c) Hu) as Ht.
    destruct (poll_transmit now out pad c) as [[r|] c1]; [|done]. by intros [= <-].
  - pose proof (handle_datagram_upright now d c Hu) as Ht. unfold holds in Ht.
    destruct (handle_datagram now d c) as [[r|] c1]; [|done]. by intros [= <-].
  - intros [= <-]. by eapply held_upright; [apply handle_timeout_held|].
  - intros [= <-]. cbn in *. unfold close. destruct (closed c) eqn:E; [done|]. destruct Hu as [[Hr _]|[? _]]; [|done].
    left. split; [exact Hr|]. done.
  - unfold poll_event. destruct (conn_streams.poll_event (st c)) as [[e|] s]; intros [= <-];
      (eapply held_upright; [|exact Hu]); by apply held_frame.
  - intros [= <-]. by eapply held_upright; [apply held_on_st|].
Qed.

Lemma reachable_upright local w : reachable local w → upright w.1.
Proof. induction 1 as [rl rd name c Hc|w a w' _ IH _ Hp]; [by eapply connect_upright|by eapply perform_upright]. Qed.

(** An acknowledgement is owed and there is nothing left to acknowledge. *)
Definition hollow (a : ack.AckState) : Prop := ack.ack_eliciting_pending a = true ∧ ack.ranges a = [].

Lemma ready_or_hollow c : ready_but None c ∨ ∃ sp, hollow (ack (space_of c sp)).
Proof.
  assert (∀ a, ready a ∨ hollow a) as Hrh.
  { intros a. unfold ready, hollow. destruct (ack.ack_eliciting_pending a); [|by left]. destruct (ack.ranges a); [by right|by left]. }
  destruct (Hrh (ack (space_of c Initial))) as [H1|]; [|eauto]. destruct (Hrh (ack (space_of c Handshake))) as [H2|]; [|eauto].
  destruct (Hrh (ack (space_of c Data))) as [H3|]; [|eauto]. left. by intros [] _.
Qed.

(** C1: Neither the peer nor the worker can make a connection panic or loop, but
    for one case.  In every state an execution reaches, reading any datagram of
    bytes ends with a result or an error value - no index, slice or [expect]
    fails, and the loops over the packets of a datagram and the frames of a
    packet end - and so does building a datagram, unless a transport error is
    waiting to be sent and some space owes an acknowledgement with no packet left
    to acknowledge. *)
Theorem conn_never_panics (local : LocalParamsInput) (w : world)
    (Hlocal : local_ok local) (Hw : reachable local w) :
  (∀ now d msg, bytes_ok d → (handle_datagram now d w.1).1 ≠ Err (Anyhow (Panic msg))) ∧
  (∀ now out pad_to msg, (poll_transmit now out pad_to w.1).1 = Err (Anyhow (Panic msg)) →
     (∃ sp, hollow (ack (space_of w.1 sp))) ∧ ∃ k, close_pending w.1 = Some k ∧ close_app k = false).
Proof.
  split.
  - intros now d msg Hok E. pose proof (handle_datagram_silent now d Hok w.1) as Hs. by rewrite E in Hs.
  - intros now out pad msg E. assert (¬ ready_but None w.1) as Hnr.
    { intros Hr. assert (civil (poll_transmit now out pad w.1).1) as Hc by (eapply poll_transmit_civil; split; [by eapply conn_reachable_inv|done]).
      by rewrite E in Hc. }
    split; [by destruct (ready_or_hollow w.1)|]. destruct (reachable_upright local w Hw) as [[Hr _]|[Hc Hg]]; [done|].
    destruct (close_pending w.1) as [k|] eqn:Ek; [exists k; by destruct (Hg k Ek)|]. unfold poll_transmit in E. rewrite bind_run in E. cbn [get] in E.
    rewrite Ek in E. by destruct (closed w.1).
Qed.

(** ** The exception *)

Lemma pump_tls_idle c : flights (tls c) = 0%nat → ∃ c', pump_tls c = (Ok tt, c') ∧
  (∀ sp, ack (space_of c' sp) = ack (space_of c sp) ∧ local_keys c' sp = local_keys c sp) ∧ peer_cid c' = peer_cid c.
Proof.
  intros Hf. unfold pump_tls. rewrite bind_run. cbn [get]. rewrite Hf. cbn [pump_loop]. rewrite bind_run. cbn [get].
  destruct (write_hs (tls c)) as [[change produced] t] eqn:Hw. apply write_hs_flights in Hw as [[-> ->]|]; [|lia].
  set (space := if has_keys c Handshake then _ else _). clearbody space. rewrite bind_run. cbn [modify length Nat.eqb]. eexists. split; [reflexivity|].
  split; [intros []|]; by destruct space.
Qed.

Lemma fill_payload_hollow space now budget start out congested c :
  hollow (ack (space_of c space)) → (32 < room_in budget start out)%nat →
  (fill_payload space now budget start out congested c).1 = Err (Anyhow (Panic "index out of bounds")).
Proof.
  intros [Hp Hr] Hroom. unfold fill_payload. rewrite bind_run. unfold fill_ack. rewrite bind_run. cbn [get]. rewrite Hp, (proj2 (Nat.ltb_lt _ _) Hroom).
  cbn [andb]. rewrite bind_run. by rewrite Hr.
Qed.

Lemma write_packet_hollow now out congested c :
  hollow (ack (space_data c)) → (len (peer_cid c) ≤ MAX_CID_LEN)%nat →
  (write_packet Data now out (length out) congested None c).1 = Err (Anyhow (Panic "index out of bounds")).
Proof.
  intros Hh Hcid. unfold write_packet. rewrite Nat.sub_diag. change (MAX_DATAGRAM - 0 <? 64)%nat with false. cbv iota. rewrite bind_run. cbn [get].
  cbv zeta. pose proof (pn_len_bounds (next_packet_number (space_of c Data)) (recovery.largest_acked (sent (space_of c Data)))) as Hpl.
  destruct (encode_packet_number _ _) as [tpn pl]. cbn [snd] in Hpl. rewrite bind_run. unfold put_header. rewrite bind_run. cbn [get].
  rewrite decide_True by done. cbn [mret eff_ret]. rewrite bind_run.
  match goal with |- context [fill_payload Data now ?b ?s ?o congested c] => assert ((fill_payload Data now b s o congested c).1 = Err (Anyhow (Panic "index out of bounds"))) as Hf;
    [apply fill_payload_hollow; [done|]|destruct (fill_payload Data now b s o congested c) as [[f|e] c']; [done|cbn in Hf; by injection Hf as ->]] end.
  unfold room_in, MAX_DATAGRAM, TAG_LEN, len, MAX_CID_LEN in *. rewrite !length_app, length_drop, length_be_bytes.
  cbn [header.put_short_header length]. unfold as_slice. rewrite length_take. lia.
Qed.

(** C21: The exception is real.  Whenever an acknowledgement is owed in the
    1-RTT space with no packet left to acknowledge, building the next datagram
    panics: [put_ack] indexes its empty list.  The connection has to have
    something to say (it is open, or its close is waiting), nothing but 1-RTT
    keys left, and TLS at rest. *)
Theorem ack_panic (c0 : Connection) (now : Z) (out : bytes)
    (Hsay : closed c0 = None ∨ close_pending c0 ≠ None)
    (Hdone : local_keys c0 Initial = None) (Hhs : local_keys c0 Handshake = None) (Hkeys : local_keys c0 Data ≠ None)
    (Htls : flights (tls c0) = 0%nat) (Hcid : (len (peer_cid c0) ≤ MAX_CID_LEN)%nat)
    (Hack : hollow (ack (space_data c0))) :
  (poll_transmit now out None c0).1 = Err (Anyhow (Panic "index out of bounds")).
Proof.
  unfold poll_transmit. rewrite bind_run. cbn [get]. assert (match closed c0, close_pending c0 with Some _, None => true | _, _ => false end = false) as ->.
  { destruct (closed c0), (close_pending c0); try done. by destruct Hsay. }
  rewrite bind_run. destruct (pump_tls_idle c0 Htls) as (c & -> & Hc & Hp). rewrite bind_run. cbn [get]. rewrite bind_run.
  cbn [ALL transmit_loop]. rewrite Nat.sub_diag. change (MAX_DATAGRAM <=? 0)%nat with false. cbv iota. rewrite bind_run. cbn [get].
  destruct (Hc Initial) as [_ ->], (Hc Handshake) as [_ E2], (Hc Data) as [E3 E4]. rewrite Hdone, bind_run. cbn [get]. rewrite E2, Hhs, bind_run. cbn [get].
  rewrite E4. destruct (local_keys c0 Data); [|done]. rewrite decide_False by done. rewrite bind_run.
  assert ((write_packet Data now out (length out) (negb (recovery.can_send (congestion c) (bytes_in_flight c))) None c).1 = Err (Anyhow (Panic "index out of bounds"))) as Hf.
  { apply write_packet_hollow; [by change (space_data c) with (space_of c Data); rewrite E3|by rewrite Hp]. }
  destruct (write_packet _ _ _ _ _ _ c) as [[f|e] c']; [done|]. cbn in Hf. by injection Hf as ->.
Qed.
End total.

Lemma conn_never_panics_witness :
  (∀ now d msg, bytes_ok d → (handle_datagram now d sample_world.1).1 ≠ Err (Anyhow (Panic msg))) ∧
  (∀ now out pad_to msg, (poll_transmit now out pad_to sample_world.1).1 = Err (Anyhow (Panic msg)) →
     (∃ sp, hollow (ack (space_of sample_world.1 sp))) ∧ ∃ k, close_pending sample_world.1 = Some k ∧ close_app k = false).
Proof. exact (conn_never_panics sample.local sample_world sample_local_ok sample_world_reachable). Defined.

(** A peer gets a connection there: packet 5 of the server is acknowledged, its
    packet 3 arrives late and asks for an acknowledgement, and then a packet
    acknowledges the packet that carried our ACK, which trims every range, and
    breaks the limit of a stream, so that it is never recorded itself. *)
Definition faulty_acts : list act :=
  [Datagram 6000 (sample.server_data 5 frame.put_ping); Transmit 7000 [] None;
   Datagram 8000 (sample.server_data 3 frame.put_ping);
   Datagram 9000 (sample.server_data 6 (default [] (match frame.put_ack [(0, 1)] 0 with Ok b => Some b | Err _ => None end)
                                         ++ frame.put_stream 3 100000 false [1]))].
Definition faulty_world : world := default sample_world (replay sample_world faulty_acts).

Lemma faulty_world_reachable : reachable sample.local faulty_world.
Proof. apply (replay_default sample.local _ faulty_acts); [apply sample_world_reachable|by vm_compute]. Qed.
Lemma ack_panic_witness :
  reachable sample.local faulty_world ∧ closed faulty_world.1 = Some "the peer exceeded a receive flow control limit"%string ∧
  (poll_transmit 10000 [] None faulty_world.1).1 = Err (Anyhow (Panic "index out of bounds")).
Proof.
  split; [exact faulty_world_reachable|]. split; [by vm_compute|]. apply (ack_panic faulty_world.1 10000 []).
  - right. by vm_compute.
  - by vm_compute.
  - by vm_compute.
  - by vm_compute.
  - by vm_compute.
  - vm_compute. lia.
  - by vm_compute.
Defined.
End connection_total.
