(* ===== verification/QuicConnApp.v ===== *)
(** * What the network leaves to the application of a QUIC connection

    Packets, acknowledgements, losses and timers change much of a connection, but
    not what belongs to the worker that uses it: they open no request stream,
    they end no stream of ours, and they report [Connected] once, when the
    connection becomes connected. *)

From S2P Require Import Prelude Effects Varint QuicFrame QuicAck QuicReceived QuicPacket QuicHeader QuicTransport QuicRecvStream QuicSendStream QuicRecovery QuicStreams QuicStreamsInv QuicStreamsRun QuicConn QuicConnTimers QuicConnRun QuicConnHistory.
From stdpp Require Import relations.
#[local] Open Scope Z_scope.

Module connection_app.
Import packet connection connection_timers conn_streams_inv conn_streams_run connection_run connection_history.

(** ** Streams *)

Section streams.
Import conn_streams.
Implicit Types s : Streams.

(** Whether the application has ended a request stream, by its number, and which
    of its unidirectional streams it has ended. *)
Definition fin_of (o : option StreamPair) : option bool := (λ p, send_stream.fin (send p)) <$> o.
Definition ring_fin s (n : Z) : option bool :=
  if base_stream s <=? n then fin_of (slot s (Z.to_nat (n - base_stream s))) else None.
Definition uni_fins s : list (Z * bool) := (λ e, (e.1, send_stream.fin e.2)) <$> local_uni s.
Definition connects s : nat := length (List.filter (λ e, bool_decide (e = Connected)) (events s)).

Record leaves s s' : Prop := {
  lv_next : next_bidi s' = next_bidi s;
  lv_uni : uni_fins s' = uni_fins s;
  lv_events : connects s' = connects s;
  lv_ring : ∀ n b, ring_fin s' n = Some b → ring_fin s n = Some b;
}.
#[global] Instance leaves_preorder : PreOrder leaves.
Proof.
  split; [intros s; by split|]. intros a b c [] []. split; [congruence..|]. auto.
Qed.

(** Nothing of it is touched. *)
Lemma leaves_same s s' :
  next_bidi s' = next_bidi s → local_uni s' = local_uni s → connects s' = connects s →
  base_stream s' = base_stream s → streams s' = streams s → leaves s s'.
Proof.
  intros Hn Hu He Hb Hs. split; [done|by unfold uni_fins; rewrite Hu|done|]. unfold ring_fin, slot. by rewrite Hb, Hs.
Qed.
Lemma leaves_event e s : e ≠ Connected → leaves s (push_event e s).
Proof.
  intros He. apply leaves_same; try done. unfold connects. cbn. rewrite List.filter_app, length_app. cbn. rewrite bool_decide_false by done. cbn. lia.
Qed.
Lemma leaves_slot s i p p0 : slot s i = Some p0 → send_stream.fin (send p) = send_stream.fin (send p0) → leaves s (put_slot i p s).
Proof.
  intros Hp Hf. split; try done. intros n b. unfold ring_fin. cbn. destruct (base_stream s <=? n); [|done]. unfold slot in *. cbn.
  destruct (decide (Z.to_nat (n - base_stream s) = i)) as [->|Hne]; [|by rewrite list_lookup_insert_ne].
  destruct (streams s !! i) as [o|] eqn:E; [|done]. rewrite list_lookup_insert_eq by (by eapply lookup_lt_Some). rewrite Hp. cbn. by rewrite Hf.
Qed.
Lemma leaves_send s id x put y : send_mut s id = Some (x, put) → send_stream.fin y = send_stream.fin x → leaves s (put y).
Proof.
  unfold send_mut. destruct (stream_index s id) as [i|].
  - destruct (slot s i) as [p|] eqn:Hp; [|done]. intros [= <- <-] Hf. by eapply leaves_slot.
  - destruct (list_find _ _) as [[i [id' x']]|] eqn:E; [|done]. intros [= -> <-] Hf. apply list_find_Some in E as (Hi & Hid & _). cbn in Hid. subst id'.
    split; try done. unfold uni_fins. cbn. rewrite list_fmap_insert. cbn. rewrite Hf. apply list_insert_id. by rewrite list_lookup_fmap, Hi.
Qed.
Lemma leaves_recv s id r put r' : recv_mut s id = Some (r, put) → leaves s (put r').
Proof.
  unfold recv_mut. destruct (stream_index s id) as [i|].
  - destruct (slot s i) as [p|] eqn:Hp; [|done]. intros [= <- <-]. by eapply leaves_slot.
  - destruct (list_find _ _) as [[i [id' x']]|]; [|done]. intros [= _ <-]. by apply leaves_same.
Qed.
#[local] Ltac same := by apply leaves_same.
Lemma leaves_needs_send b s : leaves s (set_needs_send b s).
Proof. same. Qed.
Lemma leaves_unanswered n s : leaves s (set_unanswered n s).
Proof. same. Qed.
Lemma leaves_data_received n s : leaves s (set_data_received n s).
Proof. same. Qed.

Lemma leaves_queue_send id s : leaves s (queue_send id s).
Proof.
  unfold queue_send. destruct (stream_index s id) as [i|]; [|done]. destruct (slot s i) as [p|] eqn:E; [|done]. destruct (queued p); [done|].
  etrans; [by apply (leaves_slot s i (set_queued true p) p)|same].
Qed.
Lemma leaves_queue_credit id s : leaves s (queue_credit id s).
Proof. unfold queue_credit. case_bool_decide; [done|same]. Qed.
Lemma leaves_settle id s : leaves s (settle id s).
Proof.
  unfold settle. destruct (stream_index s id) as [i|]; [|done]. destruct (slot s i) as [p|]; [|done]. destruct (_ && _); [|done].
  destruct (trim_front _ _) as [l b] eqn:E. apply trim_front_spec in E as (k & El & ->). split; try done.
  intros n v. unfold ring_fin, slot. cbn. destruct (Z.leb_spec (base_stream s + Z.of_nat k) n); [|done].
  rewrite (proj2 (Z.leb_le _ _)) by lia. set (j := Z.to_nat (n - base_stream s)).
  assert (l !! Z.to_nat (n - (base_stream s + Z.of_nat k)) = (<[i := None]> (streams s)) !! j) as ->.
  { rewrite El, lookup_app_r; rewrite length_replicate; [f_equal|]; unfold j; lia. }
  destruct (decide (j = i)) as [->|Hne]; [|by rewrite list_lookup_insert_ne].
  destruct (streams s !! i) as [o|] eqn:Ei; [by rewrite list_lookup_insert_eq by (by eapply lookup_lt_Some)|]. by rewrite list_insert_ge, Ei by (by apply lookup_ge_None).
Qed.
Lemma leaves_readable id s : leaves s (push_readable id s).
Proof. unfold push_readable. case_bool_decide; [done|by apply leaves_event]. Qed.

(** *** The send half keeps its end *)

Lemma fin_on_acked x o n f : send_stream.fin (send_stream.on_acked x o n f) = send_stream.fin x.
Proof. unfold send_stream.on_acked, send_stream.acknowledge_lost. destruct x. cbn. repeat (case_match; try done). Qed.
Lemma fin_on_lost x o n f : send_stream.fin (send_stream.on_lost x o n f) = send_stream.fin x.
Proof. unfold send_stream.on_lost. destruct x. cbn. repeat (case_match; try done). Qed.
Lemma fin_on_sent x o n f : send_stream.fin (send_stream.on_sent x o n f).2 = send_stream.fin x.
Proof. unfold send_stream.on_sent. destruct x. cbn. repeat (case_match; simplify_eq; try done). Qed.
Lemma fin_write x d : send_stream.fin (send_stream.write x d).2 = send_stream.fin x.
Proof. unfold send_stream.write. destruct x. cbn. by repeat case_match. Qed.
Lemma write_within x d : ((send_stream.write x d).1 ≤ length d)%nat.
Proof. unfold send_stream.write, zlen. cbv zeta. repeat case_match; cbn [fst]; lia. Qed.
Lemma fin_reset x : send_stream.fin (send_stream.reset x).2 = send_stream.fin x.
Proof. by destruct x. Qed.
Lemma fin_reset_acked x : send_stream.fin (send_stream.on_reset_acked x) = send_stream.fin x.
Proof. by destruct x. Qed.
Lemma fin_set_limit l x : send_stream.fin (send_stream.set_limit l x) = send_stream.fin x.
Proof. by destruct x. Qed.

(** *** What the peer does *)

Lemma leaves_acked s f : leaves s (on_frame_acked s f).
Proof.
  destruct f; cbn [on_frame_acked]; try done; (etrans; [|apply leaves_settle]);
    destruct (send_mut s _) as [[x put]|] eqn:E; try done; (eapply leaves_send; [exact E|]);
    first [apply fin_on_acked|apply fin_reset_acked].
Qed.
Lemma leaves_lost s f : leaves s (on_frame_lost s f).
Proof.
  destruct f; cbn [on_frame_lost]; try done; try same; [|apply leaves_queue_credit].
  etrans; [|apply leaves_queue_send]. destruct (send_mut s _) as [[x put]|] eqn:E; [|done]. eapply leaves_send; [exact E|apply fin_on_lost].
Qed.
Lemma leaves_max_stream_data s id l : leaves s (on_max_stream_data s id l).
Proof.
  unfold on_max_stream_data. etrans; [|apply leaves_queue_send]. destruct (send_mut s id) as [[x put]|] eqn:E; [|done].
  eapply leaves_send; [exact E|apply fin_set_limit].
Qed.
Lemma leaves_stop_sending s id e : leaves s (on_stop_sending s id e).
Proof.
  unfold on_stop_sending. destruct (send_mut s id) as [[x put]|] eqn:E; [|done]. destruct (send_stream.is_reset x); [done|].
  pose proof (fin_reset x) as Hf. destruct (send_stream.reset x) as [n x']. cbn in Hf. etrans; [by eapply leaves_send|].
  etrans; [|apply leaves_needs_send]. etrans; [|by apply leaves_event]. same.
Qed.
Lemma leaves_on_stream `{UnstableSort (Z * bytes)} s id o d f s' : on_stream s id o d f = Ok s' → leaves s s'.
Proof.
  unfold on_stream. destruct (stream_index s id) as [i|].
  - destruct (slot s i) as [p|] eqn:Hp; [|by intros [= <-]]. destruct (retired p); [by intros [= <-]|].
    destruct (of_recv _) as [[new r]|]; [|done]. cbn [mbind result_bind]. intros [= <-]. cbv zeta.
    etrans; [|apply leaves_data_received].
    destruct (recv_stream.is_finished r && negb (finished p)); destruct (recv_stream.has_data r);
      repeat first [etrans; [|by apply leaves_event]|etrans; [|apply leaves_readable]|etrans; [|apply leaves_unanswered]];
      by eapply leaves_slot.
  - destruct (_ && _); [destruct (_ <=? _); [done|by intros [= <-]]|]. destruct (stream_ids.is_client_initiated id); [done|].
    destruct (of_recv (check_peer_uni s id)); [|done]. cbn [mbind result_bind].
    destruct (list_find _ _) as [[pos [id' r]]|]; destruct (of_recv _) as [[new r']|]; try done; cbn [mbind result_bind]; intros [= <-];
      (etrans; [|apply leaves_data_received]); destruct (recv_stream.has_data r');
      (try (etrans; [|apply leaves_readable])); (try (etrans; [|by apply leaves_event])); same.
Qed.
Lemma leaves_on_reset s id e n s' : on_reset s id e n = Ok s' → leaves s s'.
Proof.
  unfold on_reset. destruct (stream_index s id) as [i|].
  - destruct (slot s i) as [p|] eqn:Hp; [|by intros [= <-]]. destruct (of_recv _) as [[new r]|]; [|done]. cbn [mbind result_bind]. intros [= <-].
    etrans; [by apply (leaves_same s (set_data_received (data_received s + new) s))|]. cbn [finished set_recv].
    destruct (finished p); [by eapply leaves_slot|]. etrans; [|by apply leaves_event]. etrans; [|apply leaves_unanswered]. by eapply leaves_slot.
  - destruct (stream_ids.is_client_initiated id); [destruct (_ || _); [done|by intros [= <-]]|].
    destruct (of_recv (check_peer_uni s id)); [|done]. cbn [mbind result_bind].
    destruct (list_find _ _) as [[pos [id' r]]|]; destruct (of_recv _) as [[new r']|]; try done; cbn [mbind result_bind]; intros [= <-];
      (etrans; [|apply leaves_data_received]); (try (etrans; [|by apply leaves_event])); same.
Qed.

(** *** What the application does *)

Lemma leaves_write s id d : leaves s (write s id d).2.
Proof.
  unfold write. etrans; [apply (leaves_needs_send true)|]. set (s1 := set_needs_send true s).
  destruct (send_mut s1 id) as [[x put]|] eqn:E; [|apply leaves_queue_send]. pose proof (fin_write x d) as Hf. destruct (send_stream.write x d) as [n y].
  etrans; [by eapply leaves_send|apply leaves_queue_send].
Qed.
Lemma leaves_consume s id f n s' : consume s id f = Ok (n, s') → leaves s s'.
Proof.
  unfold consume. destruct (recv_mut s id) as [[r put]|] eqn:E; [|by intros [= _ <-]]. destruct (recv_stream.consume r f) as [[k r']|]; [|done].
  cbn [mbind result_bind]. intros [= _ <-]. etrans; [by eapply leaves_recv|]. destruct (recv_stream.wants_credit _ _); [|done].
  etrans; [apply leaves_queue_credit|apply leaves_needs_send].
Qed.
Lemma leaves_retire s id cancel : leaves s (retire s id cancel).
Proof.
  unfold retire. destruct (stream_index s id) as [i|]; [|done]. destruct (slot s i) as [p|] eqn:Hp; [|done]. cbv zeta. etrans; [|apply leaves_settle].
  set (s1 := if finished p then s else _). assert (leaves s s1 ∧ slot s1 i = Some p) as [H1 Hp1] by (unfold s1; destruct (finished p); [done|split; [same|done]]).
  etrans; [exact H1|]. destruct (_ && _).
  - pose proof (fin_reset (send (set_retired true (set_finished true p)))) as Hf. destruct (send_stream.reset _) as [n y].
    etrans; [apply (leaves_slot s1 i (set_send y (set_retired true (set_finished true p))) p Hp1); exact Hf|same].
  - by eapply leaves_slot.
Qed.

(** No unidirectional stream of ours has been ended. *)
Definition unis_open s : Prop := Forall (λ e, e.1 mod 4 = 2 ∧ e.2 = false) (uni_fins s).
Lemma unis_leaves s s' : leaves s s' → unis_open s → unis_open s'.
Proof. intros [_ Hu _ _]. unfold unis_open. by rewrite Hu. Qed.
Lemma unis_find s id i x : unis_open s → list_find (λ e, e.1 = id) (local_uni s) = Some (i, x) → id mod 4 = 2 ∧ send_stream.fin x.2 = false.
Proof.
  intros Hu (Hi & <- & _)%list_find_Some. unfold unis_open, uni_fins in Hu. rewrite Forall_fmap in Hu.
  apply (Forall_lookup_1 _ _ _ _ Hu) in Hi. exact Hi.
Qed.

Lemma stream_index_number s id i : stream_index s id = Some i → id mod 4 = 0 ∧ base_stream s ≤ id / 4 ∧ i = Z.to_nat (id / 4 - base_stream s).
Proof.
  unfold stream_index, stream_ids.is_client_initiated, stream_ids.stream_dir. change 1 with (2 ^ 1 - 1) at 1. rewrite (land_mask id 1) by lia.
  destruct (Z.eqb_spec (id mod 2 ^ 1) 0) as [H1|]; [|done]. destruct (Z.eqb_spec (Z.land id 2) 0) as [H2|]; [|done]. cbn.
  unfold checked_sub. case_decide; [|done]. destruct (_ <? _); [|done]. intros [= <-]. split; [|done].
  assert (Z.testbit id 1 = false) as Hb by (replace (Z.testbit id 1) with (Z.testbit (Z.land id 2) 1) by (rewrite Z.land_spec; by rewrite andb_true_r); rewrite H2; apply Z.bits_0).
  apply Z.testbit_false in Hb; [|lia]. change (2 ^ 1) with 2 in *. pose proof (Z.div_mod id 2). pose proof (Z.div_mod (id / 2) 2). symmetry.
  apply (Z.mod_unique id 4 (id / 2 / 2)); lia.
Qed.
(** The end of a stream, as the invariants of the application see it. *)
Lemma send_at_fin s id x : unis_open s → send_at s id = Some x →
  id mod 4 = 2 ∧ send_stream.fin x = false ∨ id mod 4 = 0 ∧ ring_fin s (id / 4) = Some (send_stream.fin x).
Proof.
  intros Hu. unfold send_at, send_mut. destruct (stream_index s id) as [i|] eqn:Ei.
  - apply stream_index_number in Ei as (Hm & Hle & ->). destruct (slot s _) as [p|] eqn:Hp; [|done]. intros [= <-]. right. split; [done|].
    unfold ring_fin. rewrite (proj2 (Z.leb_le _ _) Hle), Hp. done.
  - destruct (list_find _ _) as [[i [id' x']]|] eqn:E; [|done]. intros [= ->]. left. by apply (unis_find s id i) in E.
Qed.

Lemma open_uni_app s : unis_open s →
  let s' := (open_uni s).2 in
  next_bidi s' = next_bidi s ∧ connects s' = connects s ∧ (∀ n, ring_fin s' n = ring_fin s n) ∧ unis_open s' ∧
  ∀ id, (open_uni s).1 = Some id → id mod 4 = 2.
Proof.
  intros Hu. unfold open_uni. destruct (_ <=? _); [by split_and!|]. cbn.
  assert (stream_ids.client_stream_id stream_ids.Uni (next_uni s) mod 4 = 2) as Hid.
  { unfold stream_ids.client_stream_id, u64. rewrite Zplus_mod_idemp_l. rewrite Z.mod_mod_divide by by exists (2 ^ 62).
    rewrite Z.add_comm, Z.mod_add by lia. done. }
  split_and!; [done..| |by intros id [= <-]]. unfold unis_open, uni_fins in *. cbn. rewrite fmap_app. apply Forall_app. split; [done|]. by repeat constructor.
Qed.
Lemma finish_app s id : unis_open s → id mod 4 = 0 →
  let s' := finish s id in
  next_bidi s' = next_bidi s ∧ connects s' = connects s ∧ unis_open s' ∧ ∀ n b, n ≠ id / 4 → ring_fin s' n = Some b → ring_fin s n = Some b.
Proof.
  intros Hu Hid. unfold finish. set (s1 := set_needs_send true s). assert (leaves s s1) as H1 by same.
  assert (next_bidi s1 = next_bidi s ∧ connects s1 = connects s ∧ unis_open s1 ∧ ∀ n b, n ≠ id / 4 → ring_fin s1 n = Some b → ring_fin s n = Some b) as Hs1 by done.
  cbv zeta. set (s2 := match send_mut s1 id with Some _ => _ | None => _ end).
  assert (next_bidi s2 = next_bidi s ∧ connects s2 = connects s ∧ unis_open s2 ∧ ∀ n b, n ≠ id / 4 → ring_fin s2 n = Some b → ring_fin s n = Some b) as (Hn & Hc & Hu2 & Hr).
  { unfold s2, send_mut. destruct (stream_index s1 id) as [i|] eqn:Ei.
    - destruct (slot s1 i) as [p|]; [|done]. split_and!; [done..|]. intros n b Hne. apply stream_index_number in Ei as (_ & Hle & ->).
      unfold ring_fin, slot. cbn. destruct (Z.leb_spec (base_stream s) n); [|done]. rewrite list_lookup_insert_ne; [done|].
      change (base_stream s1) with (base_stream s) in *. lia.
    - destruct (list_find _ _) as [[i [id' x]]|] eqn:E; [|done]. apply (unis_find s) in E as [? _]; [lia|done]. }
  pose proof (leaves_queue_send id s2) as [Hn' Hu' Hc' Hr']. split_and!; [congruence..| |].
  - unfold unis_open. by rewrite Hu'.
  - intros n b Hne Hb. by apply Hr, Hr'.
Qed.
Lemma oneshot_app s data : unis_open s → next_bidi s = base_stream s + zlen (streams s) → next_bidi s < 2 ^ 62 → 0 ≤ next_bidi s →
  let s' := (send_oneshot s data).2 in
  unis_open s' ∧ connects s' = connects s ∧
  match (send_oneshot s data).1 with
  | None => s' = s
  | Some (id, n) => id = 4 * next_bidi s ∧ next_bidi s' = next_bidi s + 1 ∧ (n ≤ length data)%nat ∧
      (∀ m b, m ≠ next_bidi s → ring_fin s' m = Some b → ring_fin s m = Some b) ∧
      (ring_fin s' (next_bidi s) = Some true → n = length data)
  end.
Proof.
  intros Hu Hnext Hlt Hge. unfold send_oneshot, open_bi. destruct (_ <=? _); [done|]. cbn -[u64]. unfold slot. cbn -[u64].
  rewrite !length_app. cbn -[u64]. rewrite !Nat.add_1_r. cbn -[u64]. rewrite !list_lookup_middle by done. cbn -[u64].
  destruct (send_stream.write _ data) as [n y] eqn:Ew.
  assert ((n ≤ length data)%nat ∧ send_stream.fin y = false) as [Hn Hf].
  { match type of Ew with send_stream.write ?x _ = _ => pose proof (write_within x data) as Hw; pose proof (fin_write x data) as Hf end.
    rewrite Ew in Hw, Hf. split; [exact Hw|exact Hf]. }
  cbn [fst snd]. split; [exact Hu|]. split; [done|]. cbv iota. split; [rewrite u64_small; lia|]. split; [done|]. split; [done|]. split.
  - intros m b Hne. unfold ring_fin, slot. cbn -[u64]. destruct (Z.leb_spec (base_stream s) m); [|done].
    destruct (decide (Z.to_nat (m - base_stream s) < length (streams s))%nat) as [Hlt'|Hge'].
    + rewrite list_lookup_insert_ne by lia. by rewrite lookup_app_l.
    + unfold zlen in *. rewrite lookup_ge_None_2; [done|]. rewrite length_insert, length_app. cbn. lia.
  - unfold ring_fin, slot. cbn -[u64]. unfold zlen in *. rewrite (proj2 (Z.leb_le _ _)) by lia. replace (Z.to_nat _) with (length (streams s)) by lia.
    rewrite list_lookup_insert_eq by (rewrite length_app; cbn; lia). cbn. destruct (Nat.eqb_spec n (length data)) as [->|]; [done|]. cbn. congruence.
Qed.

(** *** Filling a packet *)

Section fill.
Context (budget start : nat).
Definition fleaves (f f' : Fill) : Prop := leaves (conn f) (conn f').
#[local] Instance fleaves_preorder : PreOrder fleaves.
Proof. split; [by intros f|]. intros a b c. unfold fleaves. apply transitivity. Qed.

Lemma fill_max_data_leaves f : fleaves f (fill_max_data budget start f).
Proof. unfold fill_max_data, fleaves. cbv zeta. repeat (case_match; cbn); same. Qed.
Lemma fill_credit_leaves todo : ∀ f, fleaves f (fill_credit budget start todo f).
Proof.
  induction todo as [|id todo IH]; intros f; [done|]. cbn [fill_credit]. destruct (_ <? _)%nat; [done|]. cbv zeta.
  set (c := set_credit_pending _ _). assert (leaves (conn f) c) as Hc by same.
  destruct (recv_mut c id) as [[r put]|] eqn:E; [|by (etrans; [|apply IH])]. destruct (recv_stream.size_known r); [by (etrans; [|apply IH])|].
  destruct (recv_stream.grant _ _) as [limit r']. etrans; [|apply IH]. unfold fleaves. cbn. etrans; [exact Hc|by eapply leaves_recv].
Qed.
Lemma fill_retire_leaves todo : ∀ f, fleaves f (fill_retire budget start todo f).
Proof.
  induction todo as [|x todo IH]; intros f; [done|]. cbn [fill_retire]. destruct (_ <? _)%nat; [done|]. etrans; [|apply IH]. unfold fleaves. cbn. same.
Qed.
Lemma fill_reset_leaves todo : ∀ f, fleaves f (fill_reset budget start todo f).
Proof.
  induction todo as [|[[id e] n] todo IH]; intros f; [done|]. cbn [fill_reset]. destruct (_ <? _)%nat; [done|]. etrans; [|apply IH]. unfold fleaves. cbn. same.
Qed.
Lemma send_turn_leaves f id x put f' :
  (∀ y, send_stream.fin y = send_stream.fin x → leaves (conn f) (put y)) → send_turn budget start f id x put = Ok f' → fleaves f f'.
Proof.
  intros Hput. unfold send_turn. destruct (send_stream.next_send _ _ _) as [[[[o d] b]|]|]; try done; cbn [mbind result_bind].
  - pose proof (fin_on_sent x o (length d) b) as Hf. destruct (send_stream.on_sent _ _ _ _) as [n x']. intros [= <-]. unfold fleaves. cbn.
    etrans; [by apply Hput|same].
  - intros [= <-]. by apply Hput.
Qed.
Lemma fill_uni_leaves n : ∀ i f f', fill_uni budget start n i f = Ok f' → fleaves f f'.
Proof.
  induction n as [|n IH]; intros i f f'; cbn [fill_uni]; [by intros [= <-]|]. destruct (_ <? _)%nat; [by intros [= <-]|].
  destruct (local_uni (conn f) !! i) as [[id x]|] eqn:E; [|done]. destruct (send_turn _ _ _ _ _ _) as [f1|] eqn:Et; [|done]. cbn [mbind result_bind].
  intros Hf. etrans; [|by eapply IH]. eapply send_turn_leaves; [|exact Et]. intros y Hy. split; try done. unfold uni_fins. cbn.
  rewrite list_fmap_insert. cbn. rewrite Hy. apply list_insert_id. by rewrite list_lookup_fmap, E.
Qed.
Lemma fill_streams_leaves n : ∀ f f', fill_streams budget start n f = Ok f' → fleaves f f'.
Proof.
  induction n as [|n IH]; intros f f'; cbn [fill_streams]; [by intros [= <-]|]. destruct (_ <? _)%nat; [by intros [= <-]|].
  destruct (send_queue (conn f)) as [|id rest]; [by intros [= <-]|]. set (f0 := with_conn _ f). assert (fleaves f f0) as H0 by (unfold fleaves; cbn; same).
  destruct (stream_index (conn f0) id) as [i|]; [|intros Hf; etrans; [exact H0|by apply IH]].
  destruct (slot (conn f0) i) as [p|] eqn:Hp; [|intros Hf; etrans; [exact H0|by apply IH]].
  destruct (send_turn _ _ _ _ _ _) as [f1|] eqn:Et; [|done]. cbn [mbind result_bind]. intros Hf. etrans; [exact H0|].
  etrans; [eapply send_turn_leaves; [|exact Et]; intros y Hy; by eapply leaves_slot|]. etrans; [|by apply IH].
  case_match; [|done]. unfold fleaves. cbn. apply leaves_queue_send.
Qed.
Lemma fill_data_payload_leaves s o fs congested f : fill_data_payload budget start s o fs congested = Ok f → leaves s (conn f).
Proof.
  unfold fill_data_payload. cbv zeta.
  set (f1 := fill_max_data _ _ _). set (f2 := fill_credit _ _ _ f1). set (f3 := fill_retire _ _ _ f2). set (f4 := fill_reset _ _ _ f3).
  assert (fleaves (mkFill s o fs false) f4) as H4.
  { etrans; [apply fill_max_data_leaves|]. etrans; [apply fill_credit_leaves|]. etrans; [apply fill_retire_leaves|apply fill_reset_leaves]. }
  destruct congested; [by intros [= <-]|]. destruct (fill_uni _ _ _ _ f4) as [f5|] eqn:E5; [|done]. cbn [mbind result_bind]. intros E6.
  apply fill_uni_leaves in E5. apply fill_streams_leaves in E6. change (fleaves (mkFill s o fs false) f). by etrans; [exact H4|]; etrans.
Qed.
End fill.
End streams.

(** ** Connections *)

Section conn.
Context `{RL : RustlsLaws} `{SL : UnstableSortLaws (Z * bytes)}.
Implicit Types c : Connection.

(** The [Connected] there still is to poll, now or once it is reported. *)
Definition tally c : nat := (connects (st c) + if connected c then 0 else 1)%nat.
(** 1-RTT keys are handed out before the connection is connected. *)
Definition calm c : Prop := connected c = true → one_rtt_given (tls c) = true.

Record aside c c' : Prop := {
  as_next : conn_streams.next_bidi (st c') = conn_streams.next_bidi (st c);
  as_uni : uni_fins (st c') = uni_fins (st c);
  as_ring : ∀ n b, ring_fin (st c') n = Some b → ring_fin (st c) n = Some b;
  as_tally : calm c → calm c' ∧ tally c' = tally c;
}.
#[global] Instance aside_preorder : PreOrder aside.
Proof.
  split; [intros c; by split|]. intros a b c [? ? ? Hab] [? ? ? Hbc]. split; [congruence..|auto|]. intros Ha.
  destruct (Hab Ha) as [Hb ?]. destruct (Hbc Hb). split; [done|congruence].
Qed.

Lemma aside_frame c c' :
  st c' = st c → one_rtt_given (tls c') = one_rtt_given (tls c) → connected c' = connected c → aside c c'.
Proof. intros Hs Ht Hc. split; rewrite ?Hs; try done. unfold calm, tally. by rewrite Hs, Ht, Hc. Qed.
Lemma aside_st f c : leaves (st c) (f (st c)) → aside c (on_st f c).
Proof. intros [Hn Hu He Hr]. split; try done. intros Hc. split; [done|]. unfold tally. cbn. by rewrite He. Qed.
Lemma aside_space space f c : aside c (on_space space f c).
Proof. by destruct space; apply aside_frame. Qed.
Lemma aside_need_send c : aside c (need_send c).
Proof. apply aside_st, leaves_needs_send. Qed.
Lemma aside_lose why c : aside c (lose why c).
Proof. unfold lose. destruct (closed c); [done|]. etrans; [|by apply aside_st, leaves_event]. by apply aside_frame. Qed.
Lemma aside_close code reason c : aside c (close code reason c).
Proof. unfold close. destruct (closed c); [done|]. by apply aside_frame. Qed.
Lemma aside_close_transport code why c : aside c (close_transport code why c).
Proof. unfold close_transport. destruct (closed c); [done|]. etrans; [|apply aside_lose]. by apply aside_frame. Qed.
Lemma aside_discard space c : aside c (discard_space space c).
Proof. unfold discard_space. etrans; [apply (aside_space space)|by apply aside_frame]. Qed.
Lemma aside_fold {A} (f : Connection → A → Connection) l c : (∀ c x, aside c (f c x)) → aside c (foldl f c l).
Proof. apply moves_fold, _. Qed.
Lemma aside_frame_lost space f c : aside c (on_frame_lost space f c).
Proof.
  unfold on_frame_lost. destruct f; first [apply aside_st, leaves_lost|apply aside_space|idtac].
  all: repeat case_match; first [done|apply aside_st, leaves_lost|apply aside_space|by apply aside_frame].
Qed.

(** *** Acknowledgement, loss and timers *)

Lemma aside_lost space lost now c : aside c (on_lost_packets space lost now c).
Proof.
  unfold on_lost_packets. set (c1 := foldl _ c lost). assert (aside c c1) as H1.
  { apply aside_fold. intros c' p. unfold lose_packet. etrans; [|apply aside_fold; intros; apply aside_frame_lost]. by apply aside_frame. }
  cbv zeta. repeat case_match; [|done|done]. etrans; [exact H1|by apply aside_frame].
Qed.
Lemma aside_detect space now ld c : aside c (snd (detect_space space now ld c)).
Proof.
  unfold detect_space. destruct (recovery.detect_lost _ now ld) as [[s lost] d]. cbn [snd].
  etrans; [|apply aside_space]. etrans; [|apply aside_lost]. apply aside_space.
Qed.
Lemma aside_on_ack space largest delay first ranges now c : aside c (on_ack space largest delay first ranges now c).
Proof.
  unfold on_ack. destruct (recovery.drain_acked _ _ _) as [s acked]. destruct acked as [|p0 acked]; [apply aside_space|].
  set (c1 := on_space _ _ c). assert (aside c c1) as H1 by apply aside_space. etrans; [exact H1|]. clearbody c1.
  set (c2 := if decide (space = Handshake) then _ else _). assert (aside c1 c2) as H2 by (unfold c2; destruct (decide (space = Handshake)); [by apply aside_frame|done]).
  etrans; [exact H2|]. clearbody c2. set (c3 := sample_rtt _ _ _ _ c2). assert (aside c2 c3) as H3.
  { unfold c3, sample_rtt. repeat (case_match; try done); by apply aside_frame. }
  etrans; [exact H3|]. clearbody c3. set (l := p0 :: acked). clearbody l. set (c4 := foldl (ack_packet space) c3 l). assert (aside c3 c4) as H4.
  { apply aside_fold. intros c' p. unfold ack_packet. etrans; [|apply aside_fold; intros; apply aside_st, leaves_acked]. case_match; [apply aside_space|done]. }
  etrans; [exact H4|]. clearbody c4. set (c5 := match recovery.max_option _ with Some _ => _ | None => _ end).
  assert (aside c4 c5) as H5 by (unfold c5; case_match; [by apply aside_frame|done]). etrans; [exact H5|]. clearbody c5.
  pose proof (aside_detect space now (recovery.loss_delay (rtt c5)) c5) as H6. destruct (detect_space _ _ _ c5) as [[] c6]; [|done].
  etrans; [exact H6|apply aside_need_send].
Qed.
Lemma aside_timeout now c : aside c (handle_timeout now c).
Proof.
  unfold handle_timeout. destruct (match idle_deadline c with Some _ => _ | None => _ end); [etrans; [|apply aside_lose]; by apply aside_frame|].
  destruct (match keepalive_deadline c with Some _ => _ | None => _ end); [etrans; [|apply aside_need_send]; by apply aside_frame|].
  destruct (loss_deadline_of c) as [a|].
  { destruct (now <? a); [done|]. etrans; [|apply aside_need_send]. apply aside_fold. intros. apply aside_detect. }
  destruct (pto_due c) as [[space a]|]; [|done]. destruct (now <? a); [done|]. etrans; [|apply aside_need_send].
  etrans; [apply (aside_space space)|by apply aside_frame].
Qed.
Lemma aside_rotate at' phase c : aside c (rotate_keys at' phase c).
Proof. unfold rotate_keys. destruct (next_1rtt c); [|done]. cbv zeta. repeat case_match; by apply aside_frame. Qed.
Lemma aside_arm_idle now c : aside c (arm_idle now c).
Proof. unfold arm_idle. destruct (_ && _); [done|by apply aside_frame]. Qed.
Lemma aside_note_scid space scid c : aside c (note_scid space scid c).
Proof. unfold note_scid. cbv zeta. repeat (case_match; try done); by apply aside_frame. Qed.
Lemma aside_handshake_done c : aside c (on_handshake_done c).
Proof. unfold on_handshake_done. etrans; [|apply aside_discard]. by apply aside_frame. Qed.

(** *** Methods *)

#[local] Hint Resolve aside_space aside_need_send aside_lose aside_close_transport aside_discard aside_on_ack aside_rotate
  aside_arm_idle aside_note_scid aside_handshake_done : core.

(** One update: the cases of its body, each a matter of frame. *)
Ltac beside :=
  cbv beta zeta;
  repeat match goal with
  | |- aside _ (match ?x with _ => _ end) => destruct x eqn:?
  | |- aside _ (if ?x then _ else _) => destruct x eqn:?
  | |- aside _ (arm_idle _ _) => etrans; [|apply aside_arm_idle]
  | |- aside _ (need_send _) => etrans; [|apply aside_need_send]
  | |- aside _ (push_retire _ _) => etrans; [|by apply aside_st, leaves_same]
  end;
  first [done | by auto | by apply aside_frame].

Lemma lift_res_aside {A} (r : res A) : evolves aside (lift_res r).
Proof. apply evolves_lift. apply _. Qed.
Lemma bail_aside {A} msg : evolves aside (bail_m msg : eff Connection conn_error A).
Proof. apply evolves_lift. apply _. Qed.
Lemma panic_aside {A} msg : evolves aside (panic_m msg : eff Connection conn_error A).
Proof. apply evolves_lift. apply _. Qed.
#[local] Hint Resolve lift_res_aside bail_aside panic_aside : core.

Lemma take_params_aside : evolves aside take_peer_params.
Proof. unfold take_peer_params. evolve; first [by apply aside_st, leaves_same|beside]. Qed.
(** The handshake goes on as it was. *)
Definition same_stage c c' : Prop := tls c' = tls c ∧ connected c' = connected c.
#[local] Instance same_stage_preorder : PreOrder same_stage.
Proof. split; [done|]. intros a b c [] []. split; congruence. Qed.
Lemma take_params_stage : evolves same_stage take_peer_params.
Proof. unfold take_peer_params. evolve; first [by apply evolves_lift, _|done|by repeat case_match]. Qed.

Lemma pump_loop_aside fuel : evolves aside (pump_loop fuel).
Proof.
  induction fuel as [|fuel IH]; cbn [pump_loop]; [apply panic_aside|]. apply evolves_bind_get. intros c. cbv zeta.
  destruct (write_hs (tls c)) as [[change produced] t] eqn:E. pose proof (write_hs_given _ _ _ _ E) as Hg. rewrite bind_run. cbn [modify].
  set (c1 := on_space _ _ _). assert (st c1 = st c ∧ tls c1 = t ∧ connected c1 = connected c) as (Es & Et & Ec) by (unfold c1; by destruct (has_keys c Handshake)).
  destruct change as [[k|k next]|].
  - assert (aside c c1) as H1 by (apply aside_frame; congruence). etrans; [exact H1|]. apply evolves_bind; [apply _|intros c2; apply aside_space|].
    intros _. apply evolves_bind; [apply _|intros c2; apply aside_need_send|]. intros _. apply IH.
  - destruct Hg as [Hg0 Hg1]. rewrite bind_run. pose proof (take_params_aside c1) as Ha. pose proof (take_params_stage c1) as [Ht Hc].
    destruct (take_peer_params c1) as [[[]|e] c2]; cbn [snd] in *; destruct Ha as [An Au Ar At]; rewrite ?Es in *.
    + rewrite bind_run. cbn [modify]. destruct (next_packet_keys next) as [ks sec]. set (c3 := push_event _ _).
      assert (aside c c3) as H3.
      { split; [exact An|exact Au|exact Ar|]. intros Hcalm. assert (connected c = false) as Hf by (destruct (connected c) eqn:Ex; [|done]; specialize (Hcalm Ex); congruence).
        destruct At as [_ Htally]; [by unfold calm; rewrite Ec, Hf|]. split; [intros _; change (tls c3) with (tls c2); congruence|].
        unfold tally in *. rewrite Es, Hc, Ec, Hf in Htally. change (connected c3) with true. cbv iota. rewrite Hf, <- Htally. unfold c3, connects. cbn.
        rewrite List.filter_app, length_app. cbn [List.filter]. rewrite bool_decide_true by done. cbn. lia. }
      etrans; [exact H3|]. rewrite bind_run. cbn [modify]. etrans; [apply aside_need_send|apply IH].
    + split; [exact An|exact Au|exact Ar|]. intros Hcalm. assert (connected c = false) as Hf by (destruct (connected c) eqn:Ex; [|done]; specialize (Hcalm Ex); congruence).
      destruct At as [Hc2 Htally]; [by unfold calm; rewrite Ec, Hf|]. split; [exact Hc2|]. rewrite Htally. unfold tally. by rewrite Es, Ec.
  - assert (aside c c1) as H1 by (apply aside_frame; congruence). destruct (_ =? _)%nat; [exact H1|]. etrans; [exact H1|].
    rewrite bind_run. cbn [modify]. etrans; [apply aside_need_send|apply IH].
Qed.
Lemma pump_tls_aside : evolves aside pump_tls.
Proof. unfold pump_tls. evolve. apply pump_loop_aside. Qed.

Lemma on_crypto_aside space offset data : evolves aside (on_crypto space offset data).
Proof.
  apply evolves_bind_get. intros c. rewrite bind_run. destruct (conn_streams.of_recv _) as [[n r]|]; cbn [lift]; [|done].
  destruct (read_crypto r (tls c)) as [[n' r'] t] eqn:E. rewrite bind_run. cbn [modify]. set (c1 := on_space _ _ _).
  assert (one_rtt_given t = one_rtt_given (tls c)) as Hg.
  { unfold read_crypto in E. destruct (_ =? _)%nat; [by simplify_eq|]. destruct (read_hs _ _) as [x t'] eqn:Er. apply read_hs_given in Er.
    destruct x as [[]|]; [destruct (recv_stream.consume _ _) as [[]|]|]; simplify_eq; done. }
  assert (aside c c1) as H1 by (unfold c1; destruct space; by apply aside_frame). etrans; [exact H1|].
  destruct n' as [n'|e]; [|apply aside_close_transport]. destruct (_ =? _)%nat; [done|]. apply pump_tls_aside.
Qed.
Lemma on_retry_aside dcid scid token packet : evolves aside (on_retry dcid scid token packet).
Proof.
  unfold on_retry. evolve; try apply lift_res_aside; [by apply aside_frame|]. etrans; [|apply aside_need_send].
  match goal with |- context [on_space Initial ?f ?c] => etrans; [apply (aside_space Initial f c)|by apply aside_frame] end.
Qed.
Lemma on_new_connection_id_aside seq retire cid token : evolves aside (on_new_connection_id seq retire cid token).
Proof.
  unfold on_new_connection_id. evolve; try apply lift_res_aside; try apply bail_aside; try beside.
Qed.
Lemma on_streams_aside f : (∀ s s', f s = Ok s' → leaves s s') → evolves aside (on_streams f).
Proof.
  intros Hf. apply evolves_bind_get. intros c. rewrite bind_run. destruct (f (st c)) as [s|] eqn:E; cbn [lift]; [|done]. apply aside_st. by apply Hf.
Qed.
Lemma handle_frame_aside space f now : evolves aside (handle_frame space f now).
Proof.
  destruct f; cbn [handle_frame]; try (by evolve); try apply on_crypto_aside; try apply on_new_connection_id_aside.
  all: try (intros c; cbn; first [apply aside_on_ack|apply aside_handshake_done|apply aside_lose|apply aside_st, leaves_stop_sending
    |apply aside_st, leaves_max_stream_data|by apply aside_st, leaves_same]).
  - apply on_streams_aside. intros s s'. apply leaves_on_reset.
  - apply on_streams_aside. intros s s'. apply leaves_on_stream.
  - intros c. apply aside_st. unfold conn_streams.on_max_streams. case_match; [done|by apply leaves_same].
  - unfold on_path_challenge. evolve; [beside|apply bail_aside].
Qed.
Lemma handle_frames_aside space now fs b : evolves aside (handle_frames space now fs b).
Proof.
  revert b. induction fs as [|f fs IH]; intros b; cbn [handle_frames]; evolve; [apply lift_res_aside|apply handle_frame_aside|apply IH].
Qed.
Lemma process_packet_aside space scid pn payload now : evolves aside (process_packet space scid pn payload now).
Proof. unfold process_packet. evolve; try apply handle_frames_aside; beside. Qed.
Lemma handle_protected_aside now buf space pn_offset end_ scid : evolves aside (handle_protected now buf space pn_offset end_ scid).
Proof. unfold handle_protected. evolve; first [apply lift_res_aside|apply panic_aside|apply process_packet_aside|beside]. Qed.
Lemma handle_packet_aside now buf : evolves aside (handle_packet now buf).
Proof.
  unfold handle_packet. evolve; first [apply panic_aside|apply handle_protected_aside|apply on_retry_aside|idtac].
  unfold on_version_negotiation. repeat case_match; first [done|apply aside_lose].
Qed.
Lemma datagram_loop_aside fuel now d pos ok : evolves aside (datagram_loop fuel now d pos ok).
Proof.
  revert pos ok. induction fuel as [|fuel IH]; intros pos ok; cbn [datagram_loop];
    (destruct (_ <=? _)%nat; [evolve|]); [apply panic_aside|].
  intros c. pose proof (handle_packet_aside now (drop pos d) c) as H1.
  destruct (handle_packet now (drop pos d) c) as [[[n b]|[e|e]] c']; cbn [snd] in *.
  - destruct (n =? 0)%nat; [done|]. etrans; [exact H1|apply IH].
  - done.
  - etrans; [exact H1|apply aside_close_transport].
Qed.
Lemma handle_datagram_aside now d : evolves aside (handle_datagram now d).
Proof.
  unfold handle_datagram. evolve; [apply datagram_loop_aside|..]; [|by auto].
  unfold note_received. etrans; [|apply aside_arm_idle]. by apply aside_frame.
Qed.

(** *** Sending *)

Lemma fill_ack_aside space now budget start out : evolves aside (fill_ack space now budget start out).
Proof. unfold fill_ack. evolve; [apply lift_res_aside|beside]. Qed.
Lemma fill_crypto_aside space budget start fuel out fs b : evolves aside (fill_crypto space budget start fuel out fs b).
Proof.
  revert out fs b. induction fuel as [|fuel IH]; intros out fs b; cbn [fill_crypto]; evolve; first [apply panic_aside|apply IH|beside].
Qed.
Lemma fill_ping_aside budget start due clear f : (∀ c, aside c (clear c)) → evolves aside (fill_ping budget start due clear f).
Proof. intros Hc. unfold fill_ping. evolve. apply Hc. Qed.
Lemma fill_data_aside budget start out fs congested g :
  evolves aside (c ← get; f ← lift_res (conn_streams.fill_data_payload budget start (st c) out fs congested);
    _ ← modify (on_st (λ _, conn_streams.conn f)); mret (g f : Filled)).
Proof.
  apply evolves_bind_get. intros c. rewrite bind_run. destruct (conn_streams.fill_data_payload _ _ _ _ _ _) as [f|] eqn:E; cbn; [|done].
  apply aside_st. by eapply fill_data_payload_leaves.
Qed.
Lemma fill_payload_aside space now budget start out congested : evolves aside (fill_payload space now budget start out congested).
Proof.
  unfold fill_payload. apply evolves_bind; [apply _|apply fill_ack_aside|]. intros [out1 largest].
  apply evolves_bind; [apply _|unfold fill_path_response; evolve; beside|]. intros [out2 eliciting].
  apply evolves_bind; [apply _|unfold fill_close; evolve; beside|]. intros [out3|]; [evolve|].
  apply evolves_bind; [apply _|evolve|]. intros c. apply evolves_bind; [apply _|apply fill_crypto_aside|]. intros [[out4 fs] eliciting'].
  apply evolves_bind; [apply _|destruct (decide (space = Data)); [apply fill_data_aside|evolve]|]. intros f.
  evolve; apply fill_ping_aside; intros c'; beside.
Qed.
Lemma put_header_aside space n : evolves aside (put_header space n).
Proof. intros c. by rewrite <- (put_header_still space n c). Qed.
Lemma write_packet_aside space now out dstart congested pad : evolves aside (write_packet space now out dstart congested pad).
Proof.
  unfold write_packet. evolve; first [apply fill_payload_aside|apply put_header_aside|idtac].
  - intros c2. by rewrite <- seal_still.
  - unfold record_packet. evolve; [apply aside_space|]. unfold note_sent. beside.
Qed.
Lemma transmit_loop_aside spaces now out start congested pad : evolves aside (transmit_loop spaces now out start congested pad).
Proof.
  revert out. induction spaces as [|space rest IH]; intros out; cbn [transmit_loop]; evolve; try apply write_packet_aside; first [apply IH|beside].
Qed.
Lemma poll_transmit_aside now out pad : evolves aside (poll_transmit now out pad).
Proof. unfold poll_transmit. evolve; first [apply pump_tls_aside|apply transmit_loop_aside|beside]. Qed.
End conn.
End connection_app.
