(* ===== verification/QuicConnPeer.v ===== *)
(** * What the peer, and others on the path, can do to a QUIC connection

    Key updates, connection ids and stateless reset tokens, and datagrams from
    someone who has no keys. *)

From S2P Require Import Prelude Effects Varint QuicFrame QuicAck QuicReceived QuicPacket QuicHeader QuicTransport QuicRecvStream QuicSendStream QuicRecovery QuicStreams QuicConn QuicConnSample QuicConnTimers QuicConnRun QuicConnSafe QuicConnHistory QuicConnTotal.
From stdpp Require Import sets sorting.
#[local] Open Scope Z_scope.

Module connection_peer.
Import packet connection connection_timers connection_run connection_safe connection_history connection_total.

Section peer.
Context `{RL : RustlsLaws} `{SL : UnstableSortLaws (Z * bytes)}.
Implicit Types c : Connection.

(** ** Key updates *)

(** The generations of 1-RTT keys the secrets lead to: [after s n] are the
    secrets once [n] sets have been taken from them. *)
Fixpoint after (s : Secrets) (n : nat) : Secrets :=
  match n with
  | O => s
  | S n' => snd (next_packet_keys (after s n'))
  end.
Definition generation (first : PacketKeySet PacketKey) (s : Secrets) (g : nat) : PacketKeySet PacketKey :=
  match g with
  | O => first
  | S g' => fst (next_packet_keys (after s g'))
  end.

(** The connection has followed the peer to generation [g], on account of the
    packet numbered [r]. *)
Definition follows_keys (first : PacketKeySet PacketKey) (s : Secrets) (g : nat) (r : Z) c : Prop :=
  (packet_key <$> one_rtt_remote c) = Some (set_remote (generation first s g)) ∧
  (packet_key <$> one_rtt_local c) = Some (set_local (generation first s g)) ∧
  next_1rtt c = Some (generation first s (S g)) ∧ secrets c = Some (after s (S g)) ∧
  (g ≠ 0%nat → prev_1rtt_remote c = Some (set_remote (generation first s (g - 1)))) ∧
  key_phase c = Nat.odd g ∧ rotate_at c = r.

(** Where the peer switches: packet numbers from [at' g] on, up to [at' (S g)],
    are protected with generation [g]. *)
Definition schedule (at' : nat → Z) : Prop := at' 0%nat = 0 ∧ ∀ g, at' g < at' (S g).
Definition sent_in (at' : nat → Z) (g : nat) (pn : Z) : Prop := at' g ≤ pn < at' (S g).

Lemma generation_for_right at' g r h pn :
  schedule at' → sent_in at' g r → sent_in at' h pn → (g ≤ S h)%nat → (h ≤ S g)%nat →
  generation_for (Nat.odd h) (Nat.odd g) pn r =
    (if decide (h = g) then Current else if decide (h = S g) then Next else Previous).
Proof.
  intros [_ Hs] [Hr1 Hr2] [Hp1 Hp2] Hgh Hhg. unfold generation_for.
  destruct (decide (h = g)) as [->|Hne]; [by rewrite Bool.eqb_reflx|].
  assert (Nat.odd h = negb (Nat.odd g)) as ->.
  { assert (h = S g ∨ g = S h) as [->| ->] by lia; rewrite Nat.odd_succ, <- Nat.negb_odd; [done|by rewrite negb_involutive]. }
  rewrite Bool.eqb_negb1. destruct (decide (h = S g)) as [->|Hnext].
  - destruct (Z.ltb_spec pn r); [lia|done].
  - assert (g = S h) as -> by lia. destruct (Z.ltb_spec pn r); [done|lia].
Qed.

Lemma rotate_follows first s g r c pn :
  follows_keys first s g r c → follows_keys first s (S g) pn (rotate_keys pn (Nat.odd (S g)) c).
Proof.
  intros (Hrem & Hloc & Hnext & Hsec & _ & _ & _). unfold rotate_keys. rewrite Hnext. cbv zeta. cbn [secrets].
  destruct (one_rtt_remote c) as [rk|] eqn:Er; [|done]. destruct (one_rtt_local c) as [lk|] eqn:El; [|done].
  cbn in Hrem. injection Hrem as Hrem. change (secrets (_ <| rotate_at := pn |>)) with (secrets c). rewrite Hsec.
  destruct (next_packet_keys (after s (S g))) as [k s'] eqn:En. unfold follows_keys. cbn.
  rewrite Er, El. cbn in En |- *. split_and!; try done; rewrite ?En; try done.
  intros _. rewrite Nat.sub_0_r. by rewrite Hrem.
Qed.

(** [buf] begins with a short header packet that says [phase], carries the number
    [pn] and opens, up to [end_], to [payload] under [key]. *)
Definition sealed_under (key : PacketKey) c (buf : bytes) (end_ : nat) (phase : bool) (pn : Z) (payload : bytes) : Prop :=
  ∃ pn_offset rk first pn_len pkt,
    header.decode_header buf (len (local_cid c)) = Ok (header.Short pn_offset end_) ∧
    one_rtt_remote c = Some rk ∧ unprotect_header (header_key rk) (take end_ buf) pn_offset = Ok (first, pn_len, pkt) ∧
    phase = negb (Z.land first 0x04 =? 0) ∧
    pn = decode_packet_number (default 0 (largest_received (space_of c Data))) (be_value (take pn_len (drop pn_offset pkt))) (Z.of_nat pn_len * 8) ∧
    decrypt key pn (take (pn_offset + pn_len) pkt) (drop (pn_offset + pn_len) pkt) = Some payload.

(** What [handle_packet] does with such a packet, by the generation its phase and
    number point to. *)
Lemma handle_sealed now key c buf end_ phase pn payload :
  bytes_ok buf → sealed_under key c buf end_ phase pn payload →
  let gen := generation_for phase (key_phase c) pn (rotate_at c) in
  key_for c Data gen = Some key →
  let '(fresh, ns) := received.insert (received (space_of c Data)) pn in
  let noted := on_space Data (λ sp, sp <| received := ns |>) c in
  handle_packet now buf c =
    if fresh then (_ ← process_packet Data None pn payload now; mret (end_, true)) (if decide (gen = Next) then rotate_keys pn phase noted else noted)
    else (Ok (end_, true), noted).
Proof.
  intros Hok (off & rk & b0 & n & pkt & Hdec & Hrk & Hun & Hph & Hpn & Hde) gen Hkey. destruct (received.insert _ _) as [fresh ns] eqn:Eins. cbv zeta.
  unfold handle_packet. rewrite bind_run. cbn [get]. pose proof (header.decode_header_wp buf (len (local_cid c)) Hok) as Hwp. rewrite Hdec in Hwp |- *. cbn in Hwp.
  unfold handle_protected. rewrite bind_run. cbn [get remote_keys]. rewrite Hrk, bind_run. unfold lift_res, lift at 1. rewrite slice_in_range by lia.
  cbn [conn_streams.of_res]. rewrite Nat.sub_0_r, drop_0, Hun. pose proof (unprotect_wp (header_key rk) (take end_ buf) off ltac:(lia)) as Hw. rewrite Hun in Hw. cbn in Hw.
  destruct Hw as (? & Hl & ?). rewrite bind_run. unfold lift at 1. rewrite slice_in_range by lia. cbn [conn_streams.of_res]. replace (off + n - off)%nat with n by lia. cbv zeta.
  rewrite decide_True by done. change (match largest_received (space_of c Data) with Some n0 => n0 | None => 0 end) with (default 0 (largest_received (space_of c Data))).
  rewrite <- Hpn, bool_decide_eq_true_2 by done. cbn [andb]. rewrite <- Hph. fold gen. rewrite Hkey, Hde, Eins, bind_run. cbn [modify]. destruct fresh; cbn [negb]; [|done].
  rewrite bind_run. case_bool_decide; [by rewrite decide_True|by rewrite decide_False].
Qed.

(** C18: Key updates are followed.  Whatever packet numbers the peer switches
    generations at, a packet of the connection's generation, of the one before or
    of the next, which opens under the key of the generation it was sealed with,
    is opened by [handle_packet] - which is told the generation by one phase bit
    and the number alone.  Its frames are processed, unless its number was seen
    before; and they are processed by a connection that has moved, its sending
    keys included, to the packet's generation if that is the next one, and that
    has stayed where it was otherwise. *)
Theorem key_update_follows (first : PacketKeySet PacketKey) (s : Secrets) (at' : nat → Z) (g h : nat) (r pn : Z) c (now : Z) buf end_ payload
    (Hsched : schedule at') (Hr : sent_in at' g r) (Hpn : sent_in at' h pn)
    (Hback : (g ≤ S h)%nat) (Hahead : (h ≤ S g)%nat) (Hkeys : follows_keys first s g r c)
    (Hbytes : bytes_ok buf) (Hsealed : sealed_under (set_remote (generation first s h)) c buf end_ (Nat.odd h) pn payload) :
  let '(fresh, ns) := received.insert (received (space_of c Data)) pn in
  let noted := on_space Data (λ sp, sp <| received := ns |>) c in
  if fresh then
    ∃ c' r', c' = (if decide (h = S g) then rotate_keys pn (Nat.odd h) noted else noted) ∧
      sent_in at' (Nat.max g h) r' ∧ follows_keys first s (Nat.max g h) r' c' ∧
      handle_packet now buf c = (_ ← process_packet Data None pn payload now; mret (end_, true)) c'
  else follows_keys first s g r noted ∧ handle_packet now buf c = (Ok (end_, true), noted).
Proof.
  pose proof Hkeys as (Hrem & _ & Hnext & _ & Hprev & Hphase & Hrot).
  assert (generation_for (Nat.odd h) (key_phase c) pn (rotate_at c) = if decide (h = g) then Current else if decide (h = S g) then Next else Previous) as Hgen
    by (rewrite Hphase, Hrot; by eapply generation_for_right).
  pose proof (handle_sealed now _ c buf end_ _ pn payload Hbytes Hsealed) as Hrun. cbv zeta in Hrun. rewrite Hgen in Hrun. clear Hgen.
  destruct (received.insert _ _) as [fresh ns]. cbv zeta. set (noted := on_space Data _ c) in *.
  assert (follows_keys first s g r noted) as Hnoted by exact Hkeys. clearbody noted.
  destruct (decide (h = g)) as [->|Hne]; [|destruct (decide (h = S g)) as [->|Hns]].
  - specialize (Hrun Hrem). rewrite decide_False in Hrun by done. destruct fresh; [|done]. exists noted, r. rewrite decide_False, Nat.max_id by lia. done.
  - cbn [key_for] in Hrun. rewrite Hnext in Hrun. specialize (Hrun eq_refl). rewrite decide_True in Hrun by done. destruct fresh; [|done]. eexists _, pn.
    rewrite Nat.max_r by lia. split; [done|]. split; [done|]. split; [by eapply rotate_follows|done].
  - assert (g = S h) as -> by lia. cbn [key_for] in Hrun. rewrite Hprev in Hrun by done. replace (S h - 1)%nat with h in Hrun by lia. specialize (Hrun eq_refl).
    rewrite decide_False in Hrun by done. destruct fresh; [|done]. exists noted, r. rewrite Nat.max_l by lia. done.
Qed.

(** ** Connection ids *)

(** The ids held are distinct, within the limit advertised, none of them
    retired, with tokens of the length a stateless reset ends with. *)
Record ids_ok c : Prop := {
  ids_distinct : NoDup (pc_seq <$> peer_cids c);
  ids_limit : zlen (peer_cids c) ≤ transport.ACTIVE_CONNECTION_ID_LIMIT;
  ids_live : Forall (λ p, retire_prior_to c ≤ pc_seq p) (peer_cids c);
  ids_tokens : tokens_ok c;
  ids_none : peer_cids c = [] → retire_prior_to c ≤ 0;
  ids_used : retire_prior_to c ≤ peer_cid_seq c;
}.




Definition ids_held c c' : Prop := ids_ok c → ids_ok c'.
#[global] Instance ids_held_pre : PreOrder ids_held.
Proof. split; [intros c Hc; exact Hc|]. intros a b c Hab Hbc Ha. exact (Hbc (Hab Ha)). Qed.








(** ** NEW_CONNECTION_ID *)







(** ** Everything else *)








(** ** Without the keys *)

(** Whether the packet at the front of [buf] is sealed with a key that [c] has:
    what [handle_packet] does up to the decryption. *)
Definition opens_protected c (buf : bytes) (space : Space) (pn_offset end_ : nat) : bool :=
  match remote_keys c space with
  | None => false
  | Some k =>
      match unprotect_header (header_key k) (take end_ buf) pn_offset with
      | Err _ => false
      | Ok (first, pn_len, pkt) =>
          let pn := decode_packet_number (default 0 (largest_received (space_of c space)))
                      (be_value (take pn_len (drop pn_offset pkt))) (Z.of_nat pn_len * 8) in
          let phase := bool_decide (space = Data) && negb (Z.land first 0x04 =? 0) in
          let generation := if decide (space = Data)
                            then generation_for phase (key_phase c) pn (rotate_at c) else Current in
          match key_for c space generation with
          | None => false
          | Some key =>
              match decrypt key pn (take (pn_offset + pn_len) pkt) (drop (pn_offset + pn_len) pkt) with
              | Some _ => true
              | None => false
              end
          end
      end
  end.
Definition opens c (buf : bytes) : bool :=
  match header.decode_header buf (len (local_cid c)) with
  | Ok (header.Long space _ pn_offset end_) => opens_protected c buf space pn_offset end_
  | Ok (header.Short pn_offset end_) => opens_protected c buf Data pn_offset end_
  | _ => false
  end.

Lemma closed_protected now buf space pn_offset end_ scid c :
  bytes_ok buf → (0 < pn_offset)%nat → (end_ ≤ length buf)%nat → opens_protected c buf space pn_offset end_ = false →
  handle_protected now buf space pn_offset end_ scid c = (Ok (end_, false), c).
Proof.
  intros Hok Hpos Hend. unfold opens_protected, handle_protected. rewrite bind_run. cbn [get].
  destruct (remote_keys c space) as [k|]; [|done]. rewrite bind_run. unfold lift_res, lift at 1.
  rewrite slice_in_range by lia. cbn [conn_streams.of_res]. rewrite Nat.sub_0_r, drop_0.
  pose proof (unprotect_wp (header_key k) (take end_ buf) pn_offset Hpos) as Hwp.
  destruct (unprotect_header (header_key k) (take end_ buf) pn_offset) as [[[first n] pkt]|[m|m]]; cbn in Hwp; [|done..].
  destruct Hwp as (Hn & Hl & Hlen). rewrite bind_run. unfold lift. rewrite slice_in_range by lia. cbn [conn_streams.of_res].
  replace (pn_offset + n - pn_offset)%nat with n by lia. cbv zeta. unfold default.
  destruct (key_for c space _) as [key|]; [|done]. by destruct (decrypt key _ _ _).
Qed.

Lemma closed_packet now buf c :
  bytes_ok buf → server_initial_seen c = true → opens c buf = false →
  ∃ n, handle_packet now buf c = (Ok (n, false), c).
Proof.
  intros Hok Hseen. unfold opens, handle_packet. rewrite bind_run. cbn [get].
  pose proof (header.decode_header_wp buf (len (local_cid c)) Hok) as Hwp.
  destruct (header.decode_header buf _) as [[space scid pn_offset end_|pn_offset end_|dcid scid token|dcid scid vs]|[m|m]];
    cbn in Hwp; intros Ho.
  - exists end_. apply closed_protected; [done|lia..|done].
  - exists end_. apply closed_protected; [done|lia..|done].
  - exists 0%nat. rewrite bind_run. unfold on_retry. rewrite bind_run. cbn [get]. rewrite Hseen, orb_true_r. done.
  - exists 0%nat. rewrite bind_run. cbn [modify]. unfold on_version_negotiation. by rewrite Hseen.
  - by exists 0%nat.
  - done.
Qed.

Lemma closed_loop fuel now d pos ok c :
  bytes_ok d → server_initial_seen c = true → (∀ p, opens c (drop p d) = false) → (length d ≤ pos + fuel)%nat →
  datagram_loop fuel now d pos ok c = (Ok (Some ok), c).
Proof.
  intros Hok Hseen Ho. revert pos ok. induction fuel as [|fuel IH]; intros pos ok Hf; cbn [datagram_loop];
    destruct (Nat.leb_spec (length d) pos); try done; [lia|].
  destruct (closed_packet now (drop pos d) c (bytes_ok_drop _ _ Hok) Hseen (Ho pos)) as [n ->].
  rewrite orb_false_r. destruct (Nat.eqb_spec n 0); [done|]. apply IH. lia.
Qed.

(** C17: Someone without the keys can do nothing.  Once an Initial of the server
    has been processed, a datagram no packet of which opens under the keys the
    connection has - whatever its headers say, a Retry or a Version Negotiation
    included - and which does not end with a stateless reset token leaves the
    connection exactly as it was. *)
Theorem forged_datagram_ignored (now : Z) (d : bytes) c
    (Hbytes : bytes_ok d) (Hseen : server_initial_seen c = true)
    (Hforged : ∀ pos, opens c (drop pos d) = false)
    (Hreset : ∀ tail, stateless_reset_tail d = Some tail → is_stateless_reset c tail = false) :
  handle_datagram now d c = (Ok tt, c).
Proof.
  unfold handle_datagram. rewrite bind_run. cbn [get]. destruct (closed c); [done|]. cbv zeta.
  rewrite bind_run, closed_loop by (done || lia). rewrite bind_run. cbn [get].
  destruct (stateless_reset_tail d) as [tail|]; [|done]. by rewrite Hreset.
Qed.
End peer.

(** Three updates at packets 10, 20 and 30: a packet of the third generation
    arrives while the connection is in the second. *)
Definition sample_schedule (g : nat) : Z := 10 * Z.of_nat g.
Definition updated : Connection := rotate_keys 12 true sample.established.

Lemma updated_follows :
  follows_keys (mkPacketKeySet 100 1100) 100 1 12 updated.
Proof. by vm_compute. Qed.

(** A PING numbered 25, sealed with the third generation. *)
Definition next_ping : bytes := sample.server_packet Data (mkDirectionalKeys 12 1102) false 25 (put_varint frame.PING).
Definition next_payload : bytes := put_varint frame.PING ++ replicate 19 0.
Lemma next_ping_sealed : sealed_under (RT := sample.toy_rustls) 1102 updated next_ping (length next_ping) false 25 next_payload.
Proof. eexists _, _, _, _, _. repeat split; vm_compute; reflexivity. Qed.

Lemma key_update_follows_witness :
  follows_keys (mkPacketKeySet 100 1100) 100 1 12 updated ∧ (handle_packet 9000 next_ping updated).1 = Ok (length next_ping, true) ∧
  ∃ c' r', sent_in sample_schedule 2 r' ∧ follows_keys (mkPacketKeySet 100 1100) 100 2 r' c' ∧
    handle_packet 9000 next_ping updated = (_ ← process_packet Data None 25 next_payload 9000; mret (length next_ping, true)) c'.
Proof.
  split; [exact updated_follows|]. split; [vm_compute; reflexivity|].
  destruct (key_update_follows (RT := sample.toy_rustls) (mkPacketKeySet 100 1100) 100 sample_schedule 1 2 12 25 updated 9000 next_ping (length next_ping) next_payload
    ltac:(split; [done|]; intros g; unfold sample_schedule; lia) ltac:(unfold sent_in, sample_schedule; lia) ltac:(unfold sent_in, sample_schedule; lia) ltac:(lia) ltac:(lia)
    updated_follows ltac:(by_decide) next_ping_sealed) as (c' & r' & _ & Hr & Hf & Hh).
  exists c', r'. split; [exact Hr|]. split; [exact Hf|exact Hh].
Defined.


(** A datagram that would finish the handshake, with a byte of the tag changed. *)
Definition forged : bytes := take 36 sample.server_done ++ [1] ++ drop 37 sample.server_done.

Lemma forged_datagram_ignored_witness :
  handle_datagram 6000 forged sample_world.1 = (Ok tt, sample_world.1).
Proof.
  apply forged_datagram_ignored.
  - by_decide.
  - by vm_compute.
  - intros pos. destruct (decide (pos < length forged)%nat) as [Hp|Hp].
    + assert (forallb (λ p, negb (opens sample_world.1 (drop p forged))) (seq 0 (length forged)) = true) as Hall by (by vm_compute).
      rewrite forallb_forall in Hall. apply negb_true_iff, Hall, in_seq. lia.
    + rewrite drop_ge by lia. by vm_compute.
  - intros tail Ht. assert (forged_tail : stateless_reset_tail forged = Some (drop (length forged - 16) forged)) by (by vm_compute).
    rewrite Ht in forged_tail. injection forged_tail as ->. by vm_compute.
Defined.

(** ** Where the code falls short *)

(** The server issues a new id and retires the one of its first flight; then a
    Handshake packet of it arrives late. *)
Definition new_id : bytes :=
  put_varint frame.NEW_CONNECTION_ID ++ put_varint 1 ++ put_varint 1 ++ [8] ++ replicate 8 4 ++ replicate 16 9.
Definition late_acts : list act :=
  [Transmit 0 [] None; Datagram 1000 sample.server_flight; PollEvent; Transmit 2000 [] None; Transmit 2000 [] None;
   Datagram 3000 (sample.server_data 0 new_id);
   Datagram 4000 (sample.server_packet Handshake (keys_remote sample.handshake_pair) false 1 frame.put_ping)].
Definition late_world : world := default (sample.fresh, []) (replay (sample.fresh, []) late_acts).

(** The late packet puts the retired id back in use: what is sent next, the
    RETIRE_CONNECTION_ID for it included, is addressed to an id that is no longer
    held. *)
Lemma late_handshake_id :
  reachable sample.local late_world ∧ peer_cid_seq late_world.1 = 1 ∧ retire_prior_to late_world.1 = 1 ∧
  as_slice (peer_cid late_world.1) = sample.server_id ∧
  (pc_seq <$> peer_cids late_world.1) = [1] ∧ (as_slice ∘ pc_cid <$> peer_cids late_world.1) = [replicate 8 4].
Proof.
  split; [|by vm_compute]. apply (replay_default sample.local _ late_acts); [|by vm_compute].
  eapply reach_connect. exact sample.fresh_connects.
Qed.

(** A PATH_RESPONSE that does not fit into the packet at hand is not kept for the
    next one. *)
Lemma path_response_dropped :
  let c := sample.established <| path_response := Some (replicate 8 1) |> in
  let r := fill_path_response Data 9 0 [] c in
  r.1 = Ok ([], false) ∧ path_response r.2 = None.
Proof. by vm_compute. Qed.
End connection_peer.
