(* ===== verification/Inflight.v ===== *)
(** * Requests in flight — [src/inflight.rs] ([Ring])

    A vector with a moving front, indexed by stream number.  The abstract state
    is the finite map from stream id to request. *)

From S2P Require Import Prelude.
From stdpp Require Import gmap fin_maps.
From Stdlib Require Import Sorting.Sorted.
#[local] Open Scope Z_scope.

Module inflight.

Definition COMPACT_FLOOR : nat := 64.

Record Ring (T : Type) := mkRing {
  slots : list (option T);
  head : nat;
  base : Z;
  open : nat;
  compact_at : nat;
}.
Arguments mkRing {T}.
Arguments slots {T}.
Arguments head {T}.
Arguments base {T}.
Arguments open {T}.
Arguments compact_at {T}.

Section ring.
Context {T : Type}.
(** The const generics of [Ring]. *)
Context (SHIFT OFFSET : Z).

Definition MASK : Z := Z.shiftl 1 SHIFT - 1.

(** [Ring::new] *)
Definition new : Ring T := mkRing [] 0 0 0 COMPACT_FLOOR.

(** [len], [is_empty], [clear], [live] (also [slot_count]) *)
Definition len (r : Ring T) : nat := open r.
Definition is_empty (r : Ring T) : bool := (open r =? 0)%nat.
Definition clear (r : Ring T) : Ring T := mkRing [] 0 0 0 COMPACT_FLOOR.
Definition live (r : Ring T) : nat := (length (slots r) - head r)%nat.

(** [push] *)
Definition push (r : Ring T) (stream_id : Z) (item : T) : Ring T :=
  let n := Z.shiftr stream_id SHIFT in
  let base' := match slots r with [] => n | _ => base r end in
  mkRing (slots r ++ [Some item]) (head r) base' (S (open r)) (compact_at r).

(** [index] *)
Definition index (r : Ring T) (stream_id : Z) : option nat :=
  if negb (Z.land stream_id MASK =? OFFSET) then None
  else
    i ← checked_sub (Z.shiftr stream_id SHIFT) (base r);
    if i <? Z.of_nat (live r) then Some (head r + Z.to_nat i)%nat else None.

(** [get_mut], reading *)
Definition get (r : Ring T) (stream_id : Z) : option T :=
  i ← index r stream_id; default None (slots r !! i).

(** [get_mut], writing through the borrow *)
Definition modify (r : Ring T) (stream_id : Z) (f : T → T) : Ring T :=
  match index r stream_id with
  | Some i =>
      match slots r !! i with
      | Some (Some x) => mkRing (<[i := Some (f x)]> (slots r)) (head r) (base r) (open r) (compact_at r)
      | _ => r
      end
  | None => r
  end.

(** [compact] *)
Definition compact (r : Ring T) : Ring T :=
  let s := drop (head r) (slots r) in
  mkRing s 0 (base r) (open r) (Nat.max (length s) COMPACT_FLOOR).

(** How far the [while] of [settle] steps. *)
Fixpoint holes (l : list (option T)) : nat :=
  match l with None :: l' => S (holes l') | _ => 0 end.

(** [settle] *)
Definition settle (r : Ring T) : Ring T :=
  let k := holes (drop (head r) (slots r)) in
  let head' := (head r + k)%nat in
  let base' := base r + Z.of_nat k in
  if (head' =? length (slots r))%nat then mkRing [] 0 base' (open r) COMPACT_FLOOR
  else
    let r' := mkRing (slots r) head' base' (open r) (compact_at r) in
    if (compact_at r <=? head')%nat then compact r' else r'.

(** [take] *)
Definition take (r : Ring T) (stream_id : Z) : option T * Ring T :=
  match index r stream_id with
  | None => (None, r)
  | Some i =>
      match slots r !! i with
      | Some (Some taken) =>
          let r1 := mkRing (<[i := None]> (slots r)) (head r) (base r) (open r - 1) (compact_at r) in
          if (i =? head r)%nat then
            let r2 := mkRing (slots r1) (S (head r1)) (base r1 + 1) (open r1) (compact_at r1) in
            match slots r2 !! head r2 with
            | Some (Some _) =>
                (Some taken, if (compact_at r2 <=? head r2)%nat then compact r2 else r2)
            | _ => (Some taken, settle r2)
            end
          else (Some taken, r1)
      | _ => (None, r)
      end
  end.

(** [iter], [slot] *)
Definition iter (r : Ring T) : list T := omap id (drop (head r) (slots r)).
Definition slot (r : Ring T) (i : nat) : option T := default None (slots r !! (head r + i)%nat).

(** ** The abstract state *)

(** The id of stream number [n]. *)
Definition id_of (n : Z) : Z := n * 2 ^ SHIFT + OFFSET.

Fixpoint entries_from (n : Z) (l : list (option T)) : list (Z * T) :=
  match l with
  | [] => []
  | Some x :: l' => (id_of n, x) :: entries_from (n + 1) l'
  | None :: l' => entries_from (n + 1) l'
  end.
Definition entries (r : Ring T) : list (Z * T) := entries_from (base r) (drop (head r) (slots r)).
Definition abs (r : Ring T) : gmap Z T := list_to_map (entries r).

(** Nothing before the front, and the front is never a hole. *)
Definition inv (r : Ring T) : Prop :=
  0 ≤ base r ∧ (head r ≤ length (slots r))%nat ∧ open r = length (entries r) ∧
  match slots r with [] => True | _ => ∃ x, slots r !! head r = Some (Some x) end.

Context (HSHIFT : 0 ≤ SHIFT) (HOFFSET : 0 ≤ OFFSET < 2 ^ SHIFT).

Lemma id_of_inj n m : id_of n = id_of m → n = m.
Proof. unfold id_of. nia. Qed.

(** The bits of an id. *)
Lemma id_split id : Z.land id MASK = id mod 2 ^ SHIFT ∧ Z.shiftr id SHIFT = id / 2 ^ SHIFT.
Proof.
  unfold MASK. rewrite Z.shiftl_1_l. split; [by apply land_mask|by apply shiftr_div].
Qed.

Lemma id_of_div id : id mod 2 ^ SHIFT = OFFSET → id = id_of (id / 2 ^ SHIFT).
Proof. intros <-. unfold id_of. pose proof (Z.div_mod id (2 ^ SHIFT) ltac:(lia)). lia. Qed.
Lemma id_of_number n : id_of n mod 2 ^ SHIFT = OFFSET ∧ id_of n / 2 ^ SHIFT = n.
Proof.
  unfold id_of. rewrite Z.add_comm, Z.mod_add, Z.div_add by lia.
  rewrite Z.mod_small, Z.div_small by lia. lia.
Qed.

Lemma entries_from_app n l k :
  entries_from n (l ++ k) = entries_from n l ++ entries_from (n + zlen l) k.
Proof.
  revert n. induction l as [|[x|] l IH]; intros n; cbn; [by rewrite Z.add_0_r|..];
    rewrite IH, zlen_cons; replace (n + 1 + zlen l) with (n + (1 + zlen l)) by lia; done.
Qed.

Lemma entries_ids n l i x : (i, x) ∈ entries_from n l → ∃ m, n ≤ m < n + zlen l ∧ i = id_of m.
Proof.
  revert n. induction l as [|[y|] l IH]; intros n; cbn; [by rewrite elem_of_nil|..]; rewrite zlen_cons;
    pose proof (zlen_nonneg l).
  - intros [[= -> ->]|Hin]%elem_of_cons; [exists n; split; [lia|done]|].
    apply IH in Hin as (m & ? & ->). exists m. split; [lia|done].
  - intros (m & ? & ->)%IH. exists m. split; [lia|done].
Qed.

Lemma entries_NoDup n l : NoDup (entries_from n l).*1.
Proof.
  revert n. induction l as [|[y|] l IH]; intros n; cbn; [constructor| |apply IH].
  constructor; [|apply IH]. intros ([i x] & Heq & Hin)%list_elem_of_fmap. cbn in Heq.
  apply entries_ids in Hin as (m & Hm & Hi).
  assert (id_of n = id_of m) as ?%id_of_inj by congruence. lia.
Qed.

(** Looking an id up in the entries is indexing the slots. *)
Lemma entries_lookup n l m :
  n ≤ m → (list_to_map (entries_from n l) : gmap Z T) !! id_of m = default None (l !! Z.to_nat (m - n)).
Proof.
  revert n. induction l as [|o l IH]; intros n Hm; [done|].
  destruct (decide (m = n)) as [->|Hne].
  - rewrite Z.sub_diag. cbn. destruct o as [x|]; cbn.
    + by rewrite lookup_insert_eq.
    + apply not_elem_of_list_to_map_1. intros ([i x] & Heq & Hin)%list_elem_of_fmap. cbn in Heq.
      apply entries_ids in Hin as (k & Hk & Hi).
      assert (id_of n = id_of k) as ?%id_of_inj by congruence. lia.
  - replace (Z.to_nat (m - n)) with (S (Z.to_nat (m - (n + 1)))) by lia. cbn.
    destruct o as [x|]; cbn; [rewrite lookup_insert_ne by (intros ?%id_of_inj; lia)|]; apply IH; lia.
Qed.

(** Below the front there is nothing. *)
Lemma entries_lookup_below n l m :
  m < n → (list_to_map (entries_from n l) : gmap Z T) !! id_of m = None.
Proof.
  intros Hm. apply not_elem_of_list_to_map_1. intros ([i x] & Heq & Hin)%list_elem_of_fmap. cbn in Heq.
  apply entries_ids in Hin as (k & Hk & Hi).
  assert (id_of m = id_of k) as ?%id_of_inj by congruence. lia.
Qed.

Lemma lookup_foreign n l id :
  id mod 2 ^ SHIFT ≠ OFFSET → (list_to_map (entries_from n l) : gmap Z T) !! id = None.
Proof.
  intros Hid. apply not_elem_of_list_to_map_1. intros ([i x] & Heq & Hin)%list_elem_of_fmap. cbn in Heq.
  apply entries_ids in Hin as (k & _ & Hi). subst. apply Hid. apply id_of_number.
Qed.

Lemma index_Some r id i :
  inv r → index r id = Some i →
  ∃ n, id = id_of n ∧ base r ≤ n ∧ i = (head r + Z.to_nat (n - base r))%nat ∧ (i < length (slots r))%nat.
Proof.
  intros (_ & Hh & _). unfold index. destruct (id_split id) as [-> ->].
  destruct (Z.eqb_spec (id mod 2 ^ SHIFT) OFFSET) as [Hmod|]; [cbn|done].
  unfold checked_sub. case_decide; [cbn|done]. unfold live.
  destruct (Z.ltb_spec (id / 2 ^ SHIFT - base r) (Z.of_nat (length (slots r) - head r))); [|done].
  intros [= <-]. exists (id / 2 ^ SHIFT). split; [by apply id_of_div|]. repeat split; lia.
Qed.

(** A lookup by id is a lookup in the map. *)
Lemma get_abs r id : inv r → get r id = abs r !! id.
Proof.
  intros Hinv. pose proof Hinv as (H0 & Hh & _). unfold get, abs, entries.
  destruct (index r id) as [i|] eqn:Hi.
  - apply index_Some in Hi as (n & -> & Hn & -> & Hlt); [|done]. cbn.
    rewrite entries_lookup by done. by rewrite lookup_drop.
  - unfold index in Hi. destruct (id_split id) as [Hm Hd]. rewrite Hm, Hd in Hi.
    destruct (Z.eqb_spec (id mod 2 ^ SHIFT) OFFSET) as [Hmod|]; [cbn in *|by rewrite lookup_foreign].
    rewrite (id_of_div id Hmod). unfold checked_sub in Hi. case_decide; cbn in Hi.
    + destruct (Z.ltb_spec (id / 2 ^ SHIFT - base r) (Z.of_nat (live r))); [done|].
      rewrite entries_lookup by done. unfold live in *. by rewrite lookup_ge_None_2 by llia.
    + rewrite entries_lookup_below by lia. done.
Qed.

Lemma push_entries r n item :
  inv r → slots r = [] ∨ n = base r + Z.of_nat (live r) → 0 ≤ n →
  entries (push r (id_of n) item) = entries r ++ [(id_of n, item)] ∧ inv (push r (id_of n) item).
Proof.
  intros (H0 & Hh & Ho & Hf) Hn Hpos. unfold push, entries, inv, live in *. cbn.
  destruct (id_split (id_of n)) as [_ ->]. destruct (id_of_number n) as [_ ->].
  destruct (slots r) as [|o s] eqn:Hs.
  - cbn in Hh. assert (head r = 0%nat) as Hhd by lia. rewrite Hhd. cbn. rewrite Ho, Hhd. cbn.
    repeat split; try lia. by eexists.
  - destruct Hn as [?|Hn]; [done|]. rewrite drop_app_le by done. rewrite entries_from_app.
    assert (entries_from (base r + zlen (drop (head r) (o :: s))) [Some item] = [(id_of n, item)]) as ->.
    { cbn. replace (base r + zlen (drop (head r) (o :: s))) with n by llia. done. }
    split; [done|]. split; [done|]. split; [llia|]. split; [rewrite Ho; llia|].
    destruct Hf as [x Hx]. exists x. cbn [app]. rewrite app_comm_cons. by apply lookup_app_l_Some.
Qed.

Lemma holes_entries n l :
  entries_from (n + Z.of_nat (holes l)) (drop (holes l) l) = entries_from n l ∧ (holes l ≤ length l)%nat ∧
  ((holes l = length l ∧ entries_from n l = []) ∨ ∃ x, l !! holes l = Some (Some x)).
Proof.
  revert n. induction l as [|[x|] l IH]; intros n; cbn.
  - split; [done|]. split; [lia|]. by left.
  - rewrite Z.add_0_r. split; [done|]. split; [lia|]. right. by exists x.
  - destruct (IH (n + 1)) as (He & Hl & Hc). replace (n + Z.of_nat (S (holes l)))
      with (n + 1 + Z.of_nat (holes l)) by lia. split; [done|]. split; [lia|].
    destruct Hc as [[? ?]|?]; [left; split; [lia|done]|by right].
Qed.

Lemma compact_spec r x :
  0 ≤ base r → (head r ≤ length (slots r))%nat → open r = length (entries r) →
  slots r !! head r = Some (Some x) → inv (compact r) ∧ entries (compact r) = entries r.
Proof.
  intros H0 Hh Ho Hx. unfold compact, inv, entries in *. cbn. rewrite drop_0.
  split; [|done]. split; [done|]. split; [lia|]. split; [done|].
  destruct (drop (head r) (slots r)) eqn:Hd; [done|]. exists x. rewrite <- Hd, lookup_drop.
  by rewrite Nat.add_0_r.
Qed.

Lemma settle_spec r :
  0 ≤ base r → (head r ≤ length (slots r))%nat → open r = length (entries r) →
  inv (settle r) ∧ entries (settle r) = entries r.
Proof.
  intros H0 Hh Ho. unfold settle. destruct (holes_entries (base r) (drop (head r) (slots r))) as (He & Hl & Hc).
  set (k := holes _) in *. rewrite length_drop in *.
  destruct (Nat.eqb_spec (head r + k) (length (slots r))) as [Heq|Hne].
  - assert (entries r = []) as Hnil.
    { unfold entries. destruct Hc as [[_ ?]|[x Hx]]; [done|]. apply lookup_lt_Some in Hx. rewrite length_drop in Hx. lia. }
    unfold inv, entries in *. cbn. rewrite Hnil in *. repeat split; try done; lia.
  - destruct Hc as [[? ?]|[x Hx]]; [lia|]. rewrite lookup_drop in Hx. rewrite drop_drop in He.
    set (r' := mkRing (slots r) (head r + k)%nat (base r + Z.of_nat k) (open r) (compact_at r)).
    assert (entries r' = entries r) as He' by exact He.
    destruct (compact_at r <=? head r + k)%nat.
    + rewrite <- He'. apply (compact_spec r' x); cbn; try done; try lia. by rewrite Ho, <- He'.
    + split; [|done]. split; cbn; [lia|]. split; [lia|]. split; [by rewrite Ho, <- He'|].
      destruct (slots r); [done|by exists x].
Qed.

(** Emptying slot [j] of the live part removes exactly its entry. *)
Lemma entries_remove n l j x :
  l !! j = Some (Some x) →
  ∃ pre post, entries_from n l = pre ++ (id_of (n + Z.of_nat j), x) :: post ∧
              entries_from n (<[j := None]> l) = pre ++ post.
Proof.
  intros Hj. exists (entries_from n (firstn j l)), (entries_from (n + Z.of_nat j + 1) (drop (S j) l)).
  pose proof (lookup_lt_Some _ _ _ Hj) as Hlt.
  assert (zlen (firstn j l) = Z.of_nat j) as Hz by llia. split.
  - rewrite <- (take_drop_middle l j (Some x) Hj) at 1. rewrite entries_from_app, Hz. done.
  - rewrite insert_take_drop by done. rewrite entries_from_app, Hz. done.
Qed.

Lemma take_miss r id : get r id = None → take r id = (None, r).
Proof.
  unfold get, take. destruct (index r id) as [i|]; [|done]. cbn.
  by destruct (slots r !! i) as [[x|]|].
Qed.

Lemma take_hit r id x :
  inv r → get r id = Some x →
  fst (take r id) = Some x ∧ inv (snd (take r id)) ∧
  ∃ pre post, entries r = pre ++ (id, x) :: post ∧ entries (snd (take r id)) = pre ++ post.
Proof.
  intros Hinv Hg. pose proof Hinv as (H0 & Hh & Ho & Hf). unfold take. unfold get in Hg.
  destruct (index r id) as [i|] eqn:Hi; [cbn in Hg|done].
  destruct (slots r !! i) as [[y|]|] eqn:Hx; [|done..]. cbn in Hg. injection Hg as ->.
  pose proof (index_Some _ _ _ Hinv Hi) as (n & -> & Hn & -> & Hlt).
  set (j := Z.to_nat (n - base r)) in *. rewrite <- lookup_drop in Hx.
  destruct (entries_remove (base r) _ _ _ Hx) as (pre & post & He & He').
  replace (base r + Z.of_nat j) with n in He by lia. fold (entries r) in He.
  assert (drop (head r) (<[(head r + j)%nat := None]> (slots r)) = <[j := None]> (drop (head r) (slots r))) as Hd.
  { rewrite drop_insert_ge by lia. f_equal. lia. }
  rewrite <- Hd in He'. set (slots' := <[(head r + j)%nat := None]> (slots r)) in *.
  assert (length slots' = length (slots r)) as Hls by apply length_insert.
  assert (open r - 1 = length (pre ++ post))%nat as Hop by (rewrite Ho, He; llia).
  destruct (Nat.eqb_spec (head r + j) (head r)) as [Hj|Hj].
  - assert (j = 0%nat) as Hj0 by lia. cbn [slots head base open compact_at].
    set (r2 := mkRing slots' (S (head r)) (base r + 1) (open r - 1)%nat (compact_at r)).
    assert (entries r2 = pre ++ post) as He2.
    { unfold entries, r2. cbn. rewrite <- He'.
      rewrite (drop_S slots' None (head r)); [done|]. unfold slots'. rewrite Hj.
      apply list_lookup_insert_eq. lia. }
    assert (0 ≤ base r2 ∧ (head r2 ≤ length (slots r2))%nat ∧ open r2 = length (entries r2)) as (Hb2 & Hh2 & Ho2).
    { rewrite He2. cbn. split; [lia|]. split; [lia|done]. }
    change slots' with (slots r2). change (S (head r)) with (head r2).
    destruct (slots r2 !! head r2) as [[y|]|] eqn:Hy.
    + cbn [fst snd]. split; [done|]. destruct (compact_at r <=? head r2)%nat.
      * destruct (compact_spec r2 y Hb2 Hh2 Ho2 Hy) as [? ->]. split; [done|]. by exists pre, post.
      * split; [|by exists pre, post]. split; [done|]. split; [done|]. split; [done|].
        destruct (slots r2); [done|by exists y].
    + cbn [fst snd]. destruct (settle_spec r2 Hb2 Hh2 Ho2) as [? ->].
      split; [done|]. split; [done|]. by exists pre, post.
    + cbn [fst snd]. destruct (settle_spec r2 Hb2 Hh2 Ho2) as [? ->].
      split; [done|]. split; [done|]. by exists pre, post.
  - cbn [fst snd]. split; [done|]. split; [|by exists pre, post].
    split; [done|]. cbn. split; [lia|]. split; [rewrite Hop; unfold entries; cbn; by rewrite He'|].
    assert (∃ y, slots' !! head r = Some (Some y)) as Hy.
    { unfold slots'. rewrite list_lookup_insert_ne by lia.
      destruct (slots r) as [|o s]; [cbn in Hlt; lia|exact Hf]. }
    by destruct slots'.
Qed.

Lemma delete_entry (pre post : list (Z * T)) id x :
  NoDup (pre ++ (id, x) :: post).*1 →
  (list_to_map (pre ++ post) : gmap Z T) = delete id (list_to_map (pre ++ (id, x) :: post)).
Proof.
  intros Hnd. rewrite fmap_app, fmap_cons in Hnd. cbn in Hnd.
  apply NoDup_app in Hnd as (_ & Hd & [Hd2 _]%NoDup_cons).
  rewrite !list_to_map_app. cbn. rewrite delete_union. f_equal.
  - rewrite delete_id; [done|]. apply not_elem_of_list_to_map_1. intros Hin. apply (Hd _ Hin).
    apply elem_of_cons. by left.
  - rewrite delete_insert_id; [done|]. by apply not_elem_of_list_to_map_1.
Qed.

(** [take] is lookup-and-delete on the map. *)
Lemma take_abs r id :
  inv r → inv (snd (take r id)) ∧ fst (take r id) = abs r !! id ∧
          abs (snd (take r id)) = delete id (abs r).
Proof.
  intros Hinv. rewrite <- get_abs by done. destruct (get r id) as [x|] eqn:Hg.
  - destruct (take_hit r id x Hinv Hg) as (Ht & Hi & pre & post & He & He').
    split; [done|]. split; [done|]. unfold abs. rewrite He, He'. apply delete_entry.
    rewrite <- He. apply entries_NoDup.
  - rewrite take_miss by done. split; [done|]. split; [done|].
    rewrite get_abs in Hg by done. cbn. by rewrite delete_id.
Qed.

Lemma size_abs r : inv r → len r = size (abs r).
Proof.
  intros (_ & _ & Ho & _). unfold len, abs. rewrite Ho.
  pose proof (entries_NoDup (base r) (drop (head r) (slots r))) as Hnd. fold (entries r) in Hnd.
  by rewrite <- length_map_to_list, map_to_list_to_map.
Qed.

Lemma push_abs r n item :
  inv r → slots r = [] ∨ n = base r + Z.of_nat (live r) → 0 ≤ n →
  abs (push r (id_of n) item) = <[id_of n := item]> (abs r) ∧ inv (push r (id_of n) item) ∧
  abs r !! id_of n = None.
Proof.
  intros Hinv Hn Hpos. destruct (push_entries r n item Hinv Hn Hpos) as [He Hi].
  assert (abs r !! id_of n = None) as Hnone.
  { rewrite <- get_abs by done. unfold get. destruct (index r (id_of n)) as [i|] eqn:Hidx; [|done].
    apply index_Some in Hidx as (m & Hm%id_of_inj & Hle & -> & Hlt); [|done]. subst m.
    destruct Hn as [Hs|Hn]; [rewrite Hs in Hlt; cbn in Hlt; lia|]. unfold live in Hn. lia. }
  split; [|done]. unfold abs. rewrite He, list_to_map_app. cbn.
  rewrite insert_empty, <- insert_union_singleton_r; [done|]. exact Hnone.
Qed.

(** Where the next stream lands does not move as requests finish. *)
Definition ends_at (r : Ring T) (n : Z) : Prop := slots r = [] ∨ n = base r + Z.of_nat (live r).

Lemma compact_ends r n :
  (head r ≤ length (slots r))%nat → n = base r + Z.of_nat (live r) → ends_at (compact r) n.
Proof. intros Hh ->. right. unfold compact, live. cbn. rewrite length_drop. lia. Qed.

Lemma settle_ends r n :
  (head r ≤ length (slots r))%nat → n = base r + Z.of_nat (live r) → ends_at (settle r) n.
Proof.
  intros Hh Hn. unfold settle. destruct (holes_entries (base r) (drop (head r) (slots r))) as (_ & Hk & _).
  rewrite length_drop in Hk. set (k := holes _) in *. unfold live in Hn.
  case_match; [by left|]. case_match; [apply compact_ends; unfold live; cbn; lia|].
  right. unfold live. cbn. lia.
Qed.

Lemma take_ends r id n : inv r → ends_at r n → ends_at (snd (take r id)) n.
Proof.
  intros Hinv Hn. unfold take. destruct (index r id) as [i|] eqn:Hi; [|done].
  apply index_Some in Hi as (m & -> & Hm & -> & Hlt); [|done].
  destruct Hn as [Hn|Hn]; [rewrite Hn in Hlt; cbn in Hlt; lia|].
  destruct (slots r !! _) as [[x|]|]; [|by right..]. unfold live in Hn.
  destruct (Nat.eqb_spec (head r + Z.to_nat (m - base r)) (head r)); cbn [slots head base open compact_at].
  - set (r2 := mkRing _ (S (head r)) _ _ _).
    assert ((head r2 ≤ length (slots r2))%nat ∧ n = base r2 + Z.of_nat (live r2)) as [Hh2 Hn2].
    { unfold live. cbn. rewrite length_insert. lia. }
    destruct (_ !! S (head r)) as [[y|]|]; cbn [snd]; [|by apply settle_ends..].
    case_match; [by apply compact_ends|by right].
  - right. unfold live. cbn. rewrite length_insert. lia.
Qed.
(** The ring still ends where the next stream goes. *)
Lemma push_ends r next y : inv r → ends_at r next → ends_at (push r (id_of next) y) (next + 1).
Proof.
  intros (_ & Hh & _) Hend. right. unfold live, push. cbn. destruct (slots r) as [|o s] eqn:Hs.
  - destruct (id_split (id_of next)) as [_ ->]. destruct (id_of_number next) as [_ ->]. cbn in *. lia.
  - destruct Hend as [?|Hend]; [congruence|]. unfold live in Hend. rewrite Hs in *. llia.
Qed.

(** Overwriting items in place keeps the ids, and whatever relates the items. *)
Lemma entries_related {R : T → T → Prop} n l l' :
  Forall2 (option_Forall2 R) l l' →
  Forall2 (λ e e', fst e = fst e' ∧ R (snd e) (snd e')) (entries_from n l) (entries_from n l').
Proof. intros H. revert n. induction H as [|? ? ? ? [x y Hxy|] Hl IH]; intros n; cbn; [constructor|by constructor|apply IH]. Qed.

Definition related (R : T → T → Prop) (r r' : Ring T) : Prop :=
  head r' = head r ∧ base r' = base r ∧ open r' = open r ∧ Forall2 (option_Forall2 R) (slots r) (slots r').

Lemma related_spec R r r' next :
  related R r r' → inv r → ends_at r next →
  inv r' ∧ ends_at r' next ∧ Forall2 (λ e e', fst e = fst e' ∧ R (snd e) (snd e')) (entries r) (entries r').
Proof.
  intros (Hh & Hb & Ho & Hs) (H0 & Hl & Hopen & Hf) Hend. pose proof (Forall2_length _ _ _ Hs) as Hlen.
  assert (Forall2 (λ e e', fst e = fst e' ∧ R (snd e) (snd e')) (entries r) (entries r')) as He.
  { unfold entries. rewrite Hh, Hb. by apply entries_related, Forall2_drop. }
  split; [|split; [|done]].
  - unfold inv. rewrite Hh, Hb, Ho, <- Hlen. split_and!; [done|done|by rewrite <- (Forall2_length _ _ _ He)|].
    destruct (slots r) as [|o s] eqn:E; [by inversion Hs|]. destruct Hf as [x Hx]. rewrite <- E in *.
    destruct (Forall2_lookup_l _ _ _ _ _ Hs Hx) as (o' & Hx' & Hr). inversion Hr; subst.
    destruct (slots r'); [done|by eexists].
  - unfold ends_at, live in *. rewrite Hh, Hb, <- Hlen. destruct Hend as [E|]; [left|by right].
    destruct (slots r); [|done]. by inversion Hs.
Qed.
Lemma modify_pointwise (R : T → T → Prop) r id f : (∀ x, R x x) → (∀ x, R x (f x)) → related R r (modify r id f).
Proof.
  intros Hrefl Hf. assert (∀ l : list (option T), Forall2 (option_Forall2 R) l l) as Hl by (induction l as [|[x|] l IH]; repeat constructor; auto).
  unfold modify. destruct (index r id) as [i|]; [|by split_and!]. destruct (slots r !! i) as [[x|]|] eqn:E; split_and!; try done. cbn.
  rewrite <- (list_insert_id (slots r) i (Some x) E) at 1. apply Forall2_insert; [done|by constructor].
Qed.
End ring.

(** [H2Ring] and [H3Ring] *)
Definition H2_SHIFT : Z := 1.
Definition H2_OFFSET : Z := 1.
Definition H3_SHIFT : Z := 2.
Definition H3_OFFSET : Z := 0.

(** [u64::from(last).div_ceil(2)] *)
Definition div_ceil2 (x : Z) : Z := x / 2 + (if x mod 2 =? 0 then 0 else 1).

(** [H2Ring::retire_after]: the items handed to the callback, in order. *)
Definition retire_after {T} (r : Ring T) (last : Z) : list T * Ring T :=
  let first := div_ceil2 last in
  let offset := Z.to_nat (Z.min (saturating_sub first (base r)) (Z.of_nat (live r))) in
  if (offset =? 0)%nat then
    (omap id (drop (head r) (slots r)),
     mkRing [] 0 (base r + Z.of_nat (live r)) 0 COMPACT_FLOOR)
  else
    let tail := drop (head r + offset) (slots r) in
    let retired := omap id tail in
    (retired,
     mkRing (firstn (head r + offset) (slots r) ++ replicate (length tail) None)
       (head r) (base r) (open r - length retired)%nat (compact_at r)).

Section h2.
Context {T : Type}.
Implicit Types r : Ring T.

Abbreviation ents := (entries (T := T) H2_SHIFT H2_OFFSET).
Abbreviation h2inv := (inv (T := T) H2_SHIFT H2_OFFSET).

Lemma entries_none n (k : nat) :
  entries_from (T := T) H2_SHIFT H2_OFFSET n (replicate k None) = [].
Proof. revert n. induction k as [|k IH]; intros n; cbn; auto. Qed.

Lemma entries_snd n (l : list (option T)) :
  (entries_from H2_SHIFT H2_OFFSET n l).*2 = omap id l.
Proof. revert n. induction l as [|[x|] l IH]; intros n; cbn; [done|f_equal; apply IH|apply IH]. Qed.

Lemma retire_boundary last n : 0 ≤ last → last < id_of H2_SHIFT H2_OFFSET n ↔ div_ceil2 last ≤ n.
Proof.
  intros. unfold id_of, H2_SHIFT, H2_OFFSET, div_ceil2.
  destruct (Z.eqb_spec (last mod 2) 0); Z.to_euclidean_division_equations; lia.
Qed.

Lemma filter_entries_ge last n (l : list (option T)) :
  0 ≤ last → div_ceil2 last ≤ n →
  base.filter (λ e, last < fst e) (entries_from H2_SHIFT H2_OFFSET n l) = entries_from H2_SHIFT H2_OFFSET n l ∧
  base.filter (λ e, fst e ≤ last) (entries_from H2_SHIFT H2_OFFSET n l) = [].
Proof.
  intros Hl. revert n. induction l as [|[x|] l IH]; intros n Hn; cbn [entries_from]; [done| |apply IH; lia].
  destruct (IH (n + 1) ltac:(lia)) as [IH1 IH2]. apply (retire_boundary last n Hl) in Hn.
  rewrite !filter_cons. cbn [fst]. rewrite decide_True, decide_False, IH1, IH2 by lia. done.
Qed.

Lemma filter_entries_lt last n (l : list (option T)) :
  0 ≤ last → n + zlen l ≤ div_ceil2 last →
  base.filter (λ e, last < fst e) (entries_from H2_SHIFT H2_OFFSET n l) = [] ∧
  base.filter (λ e, fst e ≤ last) (entries_from H2_SHIFT H2_OFFSET n l) = entries_from H2_SHIFT H2_OFFSET n l.
Proof.
  intros Hl. revert n. induction l as [|o l IH]; intros n Hn; cbn [entries_from]; [done|].
  rewrite zlen_cons in Hn. pose proof (zlen_nonneg l). destruct (IH (n + 1) ltac:(lia)) as [IH1 IH2].
  destruct o as [x|]; [|done].
  assert (¬ last < id_of H2_SHIFT H2_OFFSET n) as Hlt by (rewrite retire_boundary by done; lia).
  rewrite !filter_cons. cbn [fst]. rewrite decide_False, decide_True, IH1, IH2 by lia. done.
Qed.

Lemma retire_spec r last :
  h2inv r → 0 ≤ last →
  let '(retired, r') := retire_after r last in
  h2inv r' ∧ retired = (base.filter (λ e, last < fst e) (ents r)).*2 ∧
  ents r' = base.filter (λ e, fst e ≤ last) (ents r).
Proof.
  intros (H0 & Hh & Ho & Hf) Hlast. unfold retire_after, saturating_sub.
  set (first := div_ceil2 last). set (offset := Z.to_nat _).
  destruct (Nat.eqb_spec offset 0) as [Hz|Hz].
  - assert (first ≤ base r ∨ live r = 0%nat) as Hc by lia.
    assert (base.filter (λ e, last < fst e) (ents r) = ents r ∧
            base.filter (λ e, fst e ≤ last) (ents r) = []) as [-> ->].
    { destruct Hc as [Hc|Hc]; [by apply filter_entries_ge|]. unfold entries, live in *.
      rewrite drop_ge by lia. done. }
    split; [|split; [unfold entries; by rewrite entries_snd|done]]. split; [cbn; unfold live; lia|].
    cbn. split; [lia|]. done.
  - assert (base r + Z.of_nat offset ≤ first ∧ (offset ≤ live r)%nat ∧
            (Z.of_nat offset = first - base r ∨ offset = live r)) as (Ho1 & Ho2 & Ho3) by lia.
    unfold live in *.
    set (pre := firstn offset (drop (head r) (slots r))). set (tail := drop (head r + offset) (slots r)).
    assert (drop (head r) (slots r) = pre ++ tail) as Hsplit.
    { unfold pre, tail. rewrite <- drop_drop, take_drop. done. }
    assert (zlen pre = Z.of_nat offset) as Hzl by (unfold pre; llia).
    assert (drop (head r) (firstn (head r + offset) (slots r) ++ replicate (length tail) None)
            = pre ++ replicate (length tail) None) as Hd.
    { rewrite drop_app_le by (rewrite length_take; lia). f_equal. unfold pre.
      rewrite firstn_skipn_comm. done. }
    assert (ents r = entries_from H2_SHIFT H2_OFFSET (base r) pre ++
                     entries_from H2_SHIFT H2_OFFSET (base r + Z.of_nat offset) tail) as Hents.
    { unfold entries. rewrite Hsplit, entries_from_app, Hzl. done. }
    destruct (filter_entries_lt last (base r) pre Hlast ltac:(fold first; lia)) as [F1 F2].
    assert (base.filter (λ e, last < fst e) (entries_from H2_SHIFT H2_OFFSET (base r + Z.of_nat offset) tail)
              = entries_from H2_SHIFT H2_OFFSET (base r + Z.of_nat offset) tail ∧
            base.filter (λ e, fst e ≤ last) (entries_from H2_SHIFT H2_OFFSET (base r + Z.of_nat offset) tail) = [])
      as [F3 F4].
    { destruct Ho3 as [Ho3|Ho3]; [apply filter_entries_ge; [done|fold first; lia]|].
      unfold tail. rewrite drop_ge by lia. done. }
    assert (ents (mkRing (firstn (head r + offset) (slots r) ++ replicate (length tail) None)
       (head r) (base r) (open r - length (omap id tail))%nat (compact_at r))
       = entries_from H2_SHIFT H2_OFFSET (base r) pre) as He'.
    { unfold entries. cbn. rewrite Hd, entries_from_app, entries_none, app_nil_r. done. }
    rewrite !Hents, !filter_app, F1, F2, F3, F4, app_nil_r. cbn [app].
    split; [|split; [by rewrite entries_snd|done]].
    split; [done|]. cbn [slots head base open].
    split; [llia|]. split.
    + rewrite He', Ho, Hents. rewrite <- (entries_snd (base r + Z.of_nat offset) tail). llia.
    + assert (∃ x, slots r !! head r = Some (Some x)) as [x Hx].
      { destruct (slots r); [cbn in *; lia|done]. }
      assert ((firstn (head r + offset) (slots r) ++ replicate (length tail) None) !! head r = Some (Some x)) as Hx'.
      { apply lookup_app_l_Some. rewrite lookup_take_lt by lia. done. }
      destruct (firstn (head r + offset) (slots r) ++ replicate (length tail) None); [done|by exists x].
Qed.

Lemma retire_ends r next last : h2inv r → ends_at r next → ends_at (snd (retire_after r last)) next.
Proof.
  intros (_ & Hh & _) [Hend|Hend]; unfold retire_after.
  - rewrite Hend in *. unfold live, saturating_sub. rewrite Hend. cbn in *.
    replace (Z.to_nat _) with 0%nat by lia. by left.
  - case_match; [by left|]. right. unfold live in *. cbn. llia.
Qed.

(** ** Refinement of a finite map *)

Inductive op : Type :=
| Push (x : T) | Take (id : Z) | Get (id : Z) | Len | Retire (last : Z).
Inductive out : Type :=
| OUnit | OItem (o : option T) | OLen (n : nat) | OItems (l : list T).

(** The ring with the number of the next stream a connection opens. *)
Definition step (s : Ring T * Z) (o : op) : out * (Ring T * Z) :=
  let '(r, next) := s in
  match o with
  | Push x => (OUnit, (push H2_SHIFT r (id_of H2_SHIFT H2_OFFSET next) x, next + 1))
  | Take id => let '(x, r') := take H2_SHIFT H2_OFFSET r id in (OItem x, (r', next))
  | Get id => (OItem (get H2_SHIFT H2_OFFSET r id), (r, next))
  | Len => (OLen (len r), (r, next))
  | Retire last => let '(items, r') := retire_after r last in (OItems items, (r', next))
  end.

Fixpoint run (s : Ring T * Z) (ops : list op) : list out * (Ring T * Z) :=
  match ops with
  | [] => ([], s)
  | o :: ops' =>
      let '(x, s1) := step s o in
      let '(xs, s2) := run s1 ops' in (x :: xs, s2)
  end.

(** What the operations mean on a map from stream id to request. *)
Definition spec_step (m : gmap Z T) (next : Z) (o : op) (x : out) (m' : gmap Z T) (next' : Z) : Prop :=
  match o with
  | Push y => x = OUnit ∧ m !! (2 * next + 1) = None ∧ m' = <[2 * next + 1 := y]> m ∧ next' = next + 1
  | Take id => x = OItem (m !! id) ∧ m' = delete id m ∧ next' = next
  | Get id => x = OItem (m !! id) ∧ m' = m ∧ next' = next
  | Len => x = OLen (size m) ∧ m' = m ∧ next' = next
  | Retire last =>
      ∃ l, StronglySorted (λ a b, fst a < fst b) l ∧
        list_to_map l = base.filter (λ e, last < fst e) m ∧ x = OItems l.*2 ∧
        m' = base.filter (λ e, fst e ≤ last) m ∧ next' = next
  end.

Fixpoint spec_run (m : gmap Z T) (next : Z) (ops : list op) (xs : list out) (m' : gmap Z T) : Prop :=
  match ops, xs with
  | [], [] => m' = m
  | o :: ops', x :: xs' => ∃ m1 next1, spec_step m next o x m1 next1 ∧ spec_run m1 next1 ops' xs' m'
  | _, _ => False
  end.

Definition op_ok (o : op) : Prop := match o with Retire last => 0 ≤ last | _ => True end.

Lemma entries_sorted n (l : list (option T)) :
  StronglySorted (λ a b, fst a < fst b) (entries_from H2_SHIFT H2_OFFSET n l).
Proof.
  revert n. induction l as [|[x|] l IH]; intros n; cbn; [constructor| |apply IH].
  constructor; [apply IH|]. apply Forall_forall. intros [i y] Hin. cbn.
  apply (entries_ids H2_SHIFT H2_OFFSET) in Hin as (m & Hm & ->); try (unfold H2_SHIFT, H2_OFFSET; lia).
  unfold id_of, H2_SHIFT, H2_OFFSET. lia.
Qed.

Lemma filter_to_map (P : Z * T → Prop) `{∀ e, Decision (P e)} (l : list (Z * T)) :
  NoDup l.*1 → (list_to_map (base.filter P l) : gmap Z T) = base.filter P (list_to_map l).
Proof.
  induction l as [|[i x] l IH]; intros Hnd; [done|].
  rewrite fmap_cons in Hnd. apply NoDup_cons in Hnd as [Hni Hnd]. cbn in Hni.
  assert ((list_to_map l : gmap Z T) !! i = None) as Hnone by (by apply not_elem_of_list_to_map_1).
  rewrite filter_cons. cbn. case_decide as HP.
  - cbn. rewrite IH by done. by rewrite map_filter_insert_True.
  - rewrite IH by done. rewrite map_filter_insert_False by done. by rewrite delete_id.
Qed.

Lemma StronglySorted_filter {A} (R : A → A → Prop) (P : A → Prop) `{∀ x, Decision (P x)} (l : list A) :
  StronglySorted R l → StronglySorted R (base.filter P l).
Proof.
  induction 1 as [|x l Hl IH Hx]; [constructor|]. rewrite filter_cons. case_decide; [|done].
  constructor; [done|]. apply Forall_forall. intros y [_ Hy]%list_elem_of_filter.
  by rewrite Forall_forall in Hx; apply Hx.
Qed.

Lemma step_refines r next o :
  h2inv r → ends_at r next → 0 ≤ next → op_ok o →
  let '(x, (r', next')) := step (r, next) o in
  h2inv r' ∧ ends_at r' next' ∧ 0 ≤ next' ∧
  spec_step (abs H2_SHIFT H2_OFFSET r) next o x (abs H2_SHIFT H2_OFFSET r') next'.
Proof.
  intros Hinv Hend Hnext Hok.
  assert (0 ≤ H2_SHIFT) as HS by (unfold H2_SHIFT; lia).
  assert (0 ≤ H2_OFFSET < 2 ^ H2_SHIFT) as HO by (unfold H2_OFFSET, H2_SHIFT; lia).
  destruct o as [y|id|id| |last]; cbn [step].
  - destruct (push_abs H2_SHIFT H2_OFFSET HS HO r next y Hinv Hend Hnext) as (Ha & Hi & Hn).
    split; [done|]. split; [by apply (push_ends H2_SHIFT H2_OFFSET)|split; [lia|]]. cbn. replace (2 * next + 1) with (id_of H2_SHIFT H2_OFFSET next)
        by (unfold id_of, H2_SHIFT, H2_OFFSET; lia). done.
  - pose proof (take_abs H2_SHIFT H2_OFFSET HS HO r id Hinv) as (Hi & Hx & Ha).
    pose proof (take_ends H2_SHIFT H2_OFFSET HS HO r id next Hinv Hend) as He.
    destruct (take H2_SHIFT H2_OFFSET r id) as [x r']. cbn in *. rewrite Hx. done.
  - split_and!; try done. cbn. by rewrite (get_abs H2_SHIFT H2_OFFSET HS HO).
  - split_and!; try done. cbn. by rewrite (size_abs H2_SHIFT H2_OFFSET HS).
  - pose proof (retire_spec r last Hinv Hok) as Hr. destruct (retire_after r last) as [items r'] eqn:Hra.
    destruct Hr as (Hi & Hitems & He). split; [done|].
    pose proof (retire_ends r next last Hinv Hend) as Hre. rewrite Hra in Hre. split; [done|split; [done|]].
    cbn. exists (base.filter (λ e, last < fst e) (ents r)).
    pose proof (entries_NoDup H2_SHIFT H2_OFFSET HS (base r) (drop (head r) (slots r))) as Hnd.
    split; [apply StronglySorted_filter, entries_sorted|]. unfold abs. rewrite He.
    rewrite !filter_to_map by exact Hnd. rewrite Hitems. done.
Qed.

Lemma run_refines ops r next :
  h2inv r → ends_at r next → 0 ≤ next → Forall op_ok ops →
  let '(xs, (r', _)) := run (r, next) ops in
  h2inv r' ∧ spec_run (abs H2_SHIFT H2_OFFSET r) next ops xs (abs H2_SHIFT H2_OFFSET r').
Proof.
  intros Hi He Hn Hops. revert r next Hi He Hn. induction Hops as [|o ops Ho Hops IH]; intros r next Hi He Hn; [done|].
  cbn [run]. pose proof (step_refines r next o Hi He Hn Ho) as Hs.
  destruct (step (r, next) o) as [x [r1 next1]]. destruct Hs as (Hi1 & He1 & Hn1 & Hspec).
  specialize (IH r1 next1 Hi1 He1 Hn1). destruct (run (r1, next1) ops) as [xs [r2 next2]].
  destruct IH as [Hi2 IH]. split; [done|]. cbn. by eexists _, _.
Qed.
End h2.

(** C36: The ring of requests behaves as a finite map from stream id to
    request under every sequence of opening, finishing, looking up, counting and
    GOAWAY retirement: each returns what the map would, retirement hands back
    exactly the requests above the boundary in ascending id order, and no
    compaction or trimming is observable. *)
Theorem ring_refines_map {T : Type} (ops : list (@op T)) (Hops : Forall op_ok ops) :
  let '(xs, (r, _)) := run (new, 0) ops in
  spec_run ∅ 0 ops xs (abs H2_SHIFT H2_OFFSET r) ∧
  (slots r = [] ∨ ∃ x, slots r !! head r = Some (Some x)).
Proof.
  pose proof (run_refines ops new 0) as Hr. destruct (run (new, 0) ops) as [xs [r next]].
  destruct Hr as [(_ & _ & _ & Hf) Hspec]; [|by left|lia|done|].
  { repeat split; cbn; lia. }
  split; [exact Hspec|]. destruct (slots r); auto.
Qed.

Lemma ring_refines_map_witness :
  let ops := [Push 10; Push 20; Push 30; Take 3; Take 1; Push 40; Retire 6; Get 5; Len] in
  fst (run (new, 0) ops) =
    [OUnit; OUnit; OUnit; OItem (Some 20); OItem (Some 10); OUnit; OItems [40];
     OItem (Some 30); OLen 1] ∧
  (let '(xs, (r, _)) := run (new, 0) ops in
   spec_run ∅ 0 ops xs (abs H2_SHIFT H2_OFFSET r) ∧
   (slots r = [] ∨ ∃ x, slots r !! head r = Some (Some x))).
Proof.
  split; [vm_compute; reflexivity|].
  apply (ring_refines_map [Push 10; Push 20; Push 30; Take 3; Take 1; Push 40; Retire 6; Get 5; Len]).
  repeat constructor; cbn; lia.
Defined.

(** A lookup by stream id agrees with the map for every protocol's id
    spacing, and an id that is not ours (the peer's, or the connection's) never
    lands on a request. *)
Theorem ring_lookup {T : Type} (SHIFT OFFSET : Z) (r : Ring T) (id : Z)
    (HS : 0 ≤ SHIFT) (HO : 0 ≤ OFFSET < 2 ^ SHIFT) (Hinv : inv SHIFT OFFSET r) :
  get SHIFT OFFSET r id = abs SHIFT OFFSET r !! id ∧
  (id mod 2 ^ SHIFT ≠ OFFSET → get SHIFT OFFSET r id = None) ∧
  fst (take SHIFT OFFSET r id) = abs SHIFT OFFSET r !! id ∧
  abs SHIFT OFFSET (snd (take SHIFT OFFSET r id)) = delete id (abs SHIFT OFFSET r) ∧
  inv SHIFT OFFSET (snd (take SHIFT OFFSET r id)).
Proof.
  pose proof (get_abs SHIFT OFFSET HS HO r id Hinv) as Hg.
  pose proof (take_abs SHIFT OFFSET HS HO r id Hinv) as (?&?&?).
  split; [done|]. split; [|done]. intros Hid. rewrite Hg. by apply lookup_foreign.
Qed.

Lemma ring_lookup_witness :
  let r := push H3_SHIFT (push H3_SHIFT (new : Ring Z) 8 100) 12 200 in
  get H3_SHIFT H3_OFFSET r 12 = Some 200 ∧
  get H3_SHIFT H3_OFFSET r 12 = abs H3_SHIFT H3_OFFSET r !! 12 ∧
  (12 mod 2 ^ H3_SHIFT ≠ H3_OFFSET → get H3_SHIFT H3_OFFSET r 12 = None) ∧
  fst (take H3_SHIFT H3_OFFSET r 12) = abs H3_SHIFT H3_OFFSET r !! 12 ∧
  abs H3_SHIFT H3_OFFSET (snd (take H3_SHIFT H3_OFFSET r 12)) = delete 12 (abs H3_SHIFT H3_OFFSET r) ∧
  inv H3_SHIFT H3_OFFSET (snd (take H3_SHIFT H3_OFFSET r 12)).
Proof.
  split; [vm_compute; reflexivity|].
  apply (ring_lookup H3_SHIFT H3_OFFSET (push H3_SHIFT (push H3_SHIFT (new : Ring Z) 8 100) 12 200) 12).
  - by_decide.
  - by_decide.
  - split; [by_decide|]. split; [by_decide|]. split; [reflexivity|]. by exists 100.
Defined.
End inflight.
