(* ===== verification/Status.v ===== *)
(** * Three-digit status values — [src/status.rs] *)

From S2P Require Import Prelude.

Module status.

Definition is_ascii_digit (c : Z) : bool := (48 <=? c) && (c <=? 57).

(** [is_informational] of [src/main.rs] *)
Definition is_informational (status : Z) : bool := (100 <=? status) && (status <? 200).

(** [huffman_digit] *)
Definition huffman_digit (bits nbits : Z) : option (Z * Z) :=
  let top5 := Z.land (Z.shiftr bits (nbits - 5)) 0x1f in
  if (5 <=? nbits) && (top5 <=? 2) then Some (48 + top5, 5)
  else
    let top6 := Z.land (Z.shiftr bits (nbits - 6)) 0x3f in
    if (6 <=? nbits) && ((25 <=? top6) && (top6 <=? 31)) then Some (51 + (top6 - 25), 6)
    else None.

(** The decoder's locals: the accumulator, its length and the digits so far. *)
Record acc := mkAcc { bits : Z; nbits : Z; digits : list Z }.

(** [while n < 3 { .. }]; each iteration adds a digit, so three are enough. *)
Fixpoint drain (fuel : nat) (a : acc) : acc :=
  match fuel with
  | O => a
  | S fuel' =>
      if (length (digits a) <? 3)%nat then
        match huffman_digit (bits a) (nbits a) with
        | None => a
        | Some (digit, used) =>
            let nbits' := nbits a - used in
            drain fuel' (mkAcc (Z.land (bits a) (u32 (Z.shiftl 1 nbits') - 1)) nbits'
                               (digits a ++ [digit]))
        end
      else a
  end.

(** One byte of the [for] loop. *)
Definition feed (a : acc) (byte : Z) : acc :=
  drain 3 (mkAcc (Z.lor (u32 (Z.shiftl (bits a) 8)) byte) (nbits a + 8) (digits a)).

Definition number (d : list Z) : option Z :=
  match d with
  | [a; b; c] => Some ((a - 48) * 100 + (b - 48) * 10 + (c - 48))
  | _ => None
  end.

(** [status_value] *)
Definition status_value (s : bytes) (huffman : bool) : res Z :=
  if negb huffman then
    if negb (length s =? 3)%nat || negb (forallb is_ascii_digit s) then bail "malformed :status"
    else ok_or "malformed :status" (number s)
  else if negb ((2 <=? length s)%nat && (length s <=? 3)%nat)
  then bail "malformed Huffman :status length"
  else
    let a := foldl feed (mkAcc 0 0 []) s in
    if negb (length (digits a) =? 3)%nat || (7 <? nbits a) || negb (bits a =? u32 (Z.shiftl 1 (nbits a)) - 1)
    then bail "malformed :status"
    else ok_or "malformed :status" (number (digits a)).

(** ** Reference encodings *)

(** The ten digit symbols of RFC 7541 Appendix B: code and length. *)
Definition digit_code (d : Z) : Z * Z := if d <=? 2 then (d, 5) else (25 + (d - 3), 6).

(** Concatenate codes, then pad with ones to a whole number of bytes. *)
Definition huffman_encode (c : Z) : bytes :=
  let add := λ '(v, n) d, let '(code, k) := digit_code d in (v * 2 ^ k + code, n + k) in
  let '(v, n) := foldl add (0, 0) [c / 100; c / 10 mod 10; c mod 10] in
  let pad := (- n) mod 8 in
  be_bytes (Z.to_nat ((n + pad) / 8)) (v * 2 ^ pad + (2 ^ pad - 1)).

Definition plain_encode (c : Z) : bytes := [48 + c / 100; 48 + c / 10 mod 10; 48 + c mod 10].

(** ** The decoder only produces three digits *)

Definition digit_ok (d : Z) : Prop := 48 ≤ d ≤ 57.

Lemma huffman_digit_ok b n d k : huffman_digit b n = Some (d, k) → digit_ok d.
Proof.
  unfold huffman_digit, digit_ok. change 0x1f with (2 ^ 5 - 1). change 0x3f with (2 ^ 6 - 1).
  rewrite !land_mask by lia.
  pose proof (Z.mod_pos_bound (Z.shiftr b (n - 5)) (2 ^ 5) ltac:(lia)).
  pose proof (Z.mod_pos_bound (Z.shiftr b (n - 6)) (2 ^ 6) ltac:(lia)).
  destruct ((5 <=? n) && _) eqn:H5.
  - intros [= <- <-]. apply andb_true_iff in H5 as [_ ?%Z.leb_le]. lia.
  - destruct ((6 <=? n) && _) eqn:H6; [|done]. intros [= <- <-].
    apply andb_true_iff in H6 as [_ [?%Z.leb_le ?%Z.leb_le]%andb_true_iff]. lia.
Qed.

Lemma drain_ok fuel a : Forall digit_ok (digits a) → Forall digit_ok (digits (drain fuel a)).
Proof.
  revert a. induction fuel as [|fuel IH]; intros a Ha; cbn [drain]; [done|].
  destruct (_ <? _)%nat; [|done]. destruct (huffman_digit _ _) as [[d k]|] eqn:Hd; [|done].
  apply IH. cbn. apply Forall_app. split; [done|]. repeat constructor; by eapply huffman_digit_ok.
Qed.

Lemma feed_ok s a : Forall digit_ok (digits a) → Forall digit_ok (digits (foldl feed a s)).
Proof. revert a. induction s as [|b s IH]; intros a Ha; cbn [foldl]; [done|]. apply IH. by apply drain_ok. Qed.

Lemma number_range d c : Forall digit_ok d → number d = Some c → 0 ≤ c < 1000.
Proof.
  intros Hd. destruct d as [|x [|y [|z [|]]]]; try done. cbn.
  apply Forall_cons in Hd as [Hx [Hy [Hz _]%Forall_cons]%Forall_cons]. unfold digit_ok in *.
  intros [= <-]. lia.
Qed.

Lemma status_value_range s h c : status_value s h = Ok c → 0 ≤ c < 1000.
Proof.
  unfold status_value. destruct h; cbn [negb].
  - destruct (negb _); [done|]. cbv zeta. destruct (_ || _); [done|].
    intros Hn%ok_or_Ok. eapply number_range; [|exact Hn]. apply feed_ok. constructor.
  - destruct (negb (_ =? _)%nat || negb (forallb is_ascii_digit s)) eqn:Hb; [done|].
    apply orb_false_iff in Hb as [_ Hb%negb_false_iff]. intros Hn%ok_or_Ok.
    eapply number_range; [|exact Hn]. apply Forall_forall. intros x Hx.
    rewrite forallb_forall in Hb. apply list_elem_of_In, Hb in Hx. unfold is_ascii_digit in Hx.
    apply andb_true_iff in Hx as [?%Z.leb_le ?%Z.leb_le]. unfold digit_ok. lia.
Qed.

Lemma wp_status_value s h : wp (status_value s h) (λ c, 0 ≤ c < 1000).
Proof.
  pose proof (status_value_range s h) as Hr. destruct (status_value s h) as [c|[msg|msg]] eqn:E; [by apply Hr|done|].
  unfold status_value in E. revert E. destruct (negb h).
  - destruct (_ || _); [done|]. unfold ok_or. by destruct (number s).
  - destruct (negb _); [done|]. cbv zeta. destruct (_ || _); [done|]. unfold ok_or. by destruct (number _).
Qed.

Definition all_codes : list Z := seqZ 0 1000.

Lemma all_codes_roundtrip :
  forallb (λ c, bool_decide (status_value (plain_encode c) false = Ok c) &&
                bool_decide (status_value (huffman_encode c) true = Ok c)) all_codes = true.
Proof. vm_compute. reflexivity. Qed.

(** Every three-digit status, 000 to 999, is read back from its literal
    and from its Huffman encoding. *)
Theorem status_roundtrip (c : Z) (Hc : 0 ≤ c < 1000) :
  status_value (plain_encode c) false = Ok c ∧ status_value (huffman_encode c) true = Ok c.
Proof.
  pose proof all_codes_roundtrip as Hall. rewrite forallb_forall in Hall.
  specialize (Hall c). rewrite <- list_elem_of_In in Hall. unfold all_codes in Hall.
  rewrite elem_of_seqZ in Hall. specialize (Hall ltac:(lia)).
  by apply andb_true_iff in Hall as [?%bool_decide_eq_true ?%bool_decide_eq_true].
Qed.

Lemma status_roundtrip_witness :
  huffman_encode 302 = [0x64; 0x02] ∧
  status_value (plain_encode 302) false = Ok 302 ∧ status_value (huffman_encode 302) true = Ok 302.
Proof. split; [vm_compute; reflexivity|]. apply (status_roundtrip 302). lia. Defined.
End status.
