(* ===== verification/Stats.v ===== *)
(** * Budgets and results — [src/budget.rs] and [src/stats.rs]

    What ends a run, the counters each worker keeps, their merge, and the
    latency percentiles.  Durations are nanoseconds; the conversions of the
    report to floating-point seconds are left out. *)

From S2P Require Import Prelude Status.
From Stdlib Require Import Sorting.Sorted.
From stdpp Require Import sorting sets.
#[local] Open Scope Z_scope.

Module budget.

(** [Budget] *)
Inductive Budget : Type :=
| Requests (n : Z)
| Duration (d : Z).
#[global] Instance Budget_eq_dec : EqDecision Budget.
Proof. solve_decision. Defined.

Definition is_empty (b : Budget) : bool := bool_decide (b = Requests 0).
Definition may_start (b : Budget) (started : Z) : bool :=
  match b with Requests n => started <? n | Duration _ => true end.
Definition is_met (b : Budget) (finished : Z) : bool :=
  match b with Requests n => n <=? finished | Duration _ => false end.
Definition expected_requests (b : Budget) : option Z :=
  match b with Requests n => Some n | Duration _ => None end.
Definition deadline (b : Budget) : option Z :=
  match b with Duration d => Some d | Requests _ => None end.

(** [Budget::split] *)
Definition split (b : Budget) (threads : nat) : list Budget :=
  match b with
  | Duration d => replicate threads (Duration d)
  | Requests total =>
      (λ i, Requests (total / Z.of_nat threads +
                      (if i <? total mod Z.of_nat threads then 1 else 0))) <$> seqZ 0 (Z.of_nat threads)
  end.

Definition count (b : Budget) : Z := match b with Requests n => n | Duration _ => 0 end.
Definition total (l : list Budget) : Z := foldr (λ b n, count b + n) 0 l.

Lemma total_app l k : total (l ++ k) = total l + total k.
Proof. unfold total. induction l as [|b l IH]; cbn; lia. Qed.

(** The shares of the first [n] threads. *)
Lemma total_shares q r n :
  0 ≤ n → total ((λ i, Requests (q + (if i <? r then 1 else 0))) <$> seqZ 0 n) = q * n + Z.min n (Z.max 0 r).
Proof.
  intros Hn. pattern n. apply natlike_ind; [change (seqZ 0 0) with (@nil Z); unfold total; cbn; lia| |done]. clear n Hn. intros n Hn IH.
  rewrite <- Z.add_1_r, seqZ_app, fmap_app, total_app, IH by lia.
  assert (seqZ (0 + n) 1 = [n]) as -> by (rewrite seqZ_cons by lia; f_equal; lia).
  unfold total. cbn. destruct (Z.ltb_spec n r); lia.
Qed.

(** Splitting a request budget over the threads of a run hands out every
    request exactly once, as evenly as possible (shares differ by at most one,
    larger ones first); a duration goes to every thread unchanged. *)
Theorem budget_split (b : Budget) (threads : nat)
    (Ht : (0 < threads)%nat) (Hb : match b with Requests n => 0 ≤ n | Duration _ => True end) :
  length (split b threads) = threads ∧
  match b with
  | Requests n => total (split b threads) = n ∧
      (∀ i s, split b threads !! i = Some s →
         s = Requests (n / Z.of_nat threads) ∨ s = Requests (n / Z.of_nat threads + 1))
  | Duration d => Forall (λ s, s = b) (split b threads)
  end.
Proof.
  destruct b as [n|d]; cbn [split].
  - split; [rewrite length_fmap, length_seqZ; lia|]. split.
    + rewrite total_shares by lia. pose proof (Z.div_mod n (Z.of_nat threads) ltac:(lia)).
      pose proof (Z.mod_pos_bound n (Z.of_nat threads) ltac:(lia)). lia.
    + intros i s Hs. apply list_lookup_fmap_Some in Hs as (j & -> & _). case_match; [by right|left].
      f_equal. lia.
  - split; [by rewrite length_replicate|]. by apply Forall_replicate.
Qed.

Lemma budget_split_witness :
  split (Requests 10) 4 = [Requests 3; Requests 3; Requests 2; Requests 2] ∧
  length (split (Requests 10) 4) = 4%nat ∧
  total (split (Requests 10) 4) = 10 ∧
  (∀ i s, split (Requests 10) 4 !! i = Some s →
     s = Requests (10 / Z.of_nat 4) ∨ s = Requests (10 / Z.of_nat 4 + 1)).
Proof. split; [reflexivity|]. apply (budget_split (Requests 10) 4); [lia|lia]. Defined.
End budget.

Module stats.

(** [Stats] *)
Record Stats := mkStats {
  completed : Z;
  errors : Z;
  connect_errors : Z;
  bytes_received : Z;
  bytes_sent : Z;
  latencies_ns : list Z;
  status_counts : list Z;
}.

(** [Stats::default()] *)
Definition default : Stats := mkStats 0 0 0 0 0 [] (replicate 1000 0).

(** [record_success], the elapsed time given; [status_counts[..]] panics out of
    range. *)
Definition record_success (s : Stats) (status_code elapsed : Z) : res Stats :=
  match status_counts s !! Z.to_nat status_code with
  | Some n =>
      Ok (mkStats (u64 (completed s + 1)) (errors s) (connect_errors s) (bytes_received s) (bytes_sent s)
            (latencies_ns s ++ [u64 elapsed])
            (<[Z.to_nat status_code := u64 (n + 1)]> (status_counts s)))
  | None => panic "index out of bounds"
  end.

(** [merge] *)
Definition merge (s other : Stats) : Stats :=
  mkStats (u64 (completed s + completed other)) (u64 (errors s + errors other))
    (u64 (connect_errors s + connect_errors other))
    (u64 (bytes_received s + bytes_received other)) (u64 (bytes_sent s + bytes_sent other))
    (latencies_ns s ++ latencies_ns other)
    (zip_with (λ a b, u64 (a + b)) (status_counts s) (status_counts other)).

(** The [for] of [merge_workers]. *)
Fixpoint merge_loop {E} (s : Stats) (results : list (result E Stats)) : result E Stats :=
  match results with
  | [] => Ok s
  | r :: rest => x ← r; merge_loop (merge s x) rest
  end.

(** [merge_workers]; the capacity it reserves is not observable. *)
Definition merge_workers {E} (results : list (result E Stats)) : result E Stats :=
  match results with
  | [r] => r
  | _ => merge_loop default results
  end.

Definition sum (l : list Z) : Z := foldr Z.add 0 l.

(** A report is consistent: every completed request has a latency sample and a
    place in the status table. *)
Definition consistent (s : Stats) : Prop :=
  length (status_counts s) = 1000%nat ∧ Forall (λ n, 0 ≤ n) (status_counts s) ∧
  completed s = sum (status_counts s) ∧ completed s = zlen (latencies_ns s).

Lemma sum_app l k : sum (l ++ k) = sum l + sum k.
Proof. unfold sum. induction l as [|x l IH]; cbn; lia. Qed.

Lemma sum_insert l i x y : l !! i = Some x → sum (<[i := y]> l) = sum l - x + y.
Proof.
  intros Hi. rewrite <- (take_drop_middle l i x Hi) at 2.
  rewrite insert_take_drop by (by eapply lookup_lt_Some). rewrite !sum_app. cbn. fold (sum (drop (S i) l)). lia.
Qed.

Lemma sum_bound l x : Forall (λ n, 0 ≤ n) l → x ∈ l → 0 ≤ x ≤ sum l.
Proof.
  induction 1 as [|y l Hy Hl IH]; [by rewrite elem_of_nil|]. cbn. fold (sum l).
  assert (0 ≤ sum l) by (clear -Hl; induction Hl; cbn; [lia|]; fold (sum l) in *; lia).
  intros [->|Hx]%elem_of_cons; [lia|]. specialize (IH Hx). lia.
Qed.

Lemma sum_zip l k :
  Forall (λ n, 0 ≤ n) l → Forall (λ n, 0 ≤ n) k → length l = length k → sum l + sum k < 2 ^ 64 →
  sum (zip_with (λ a b, u64 (a + b)) l k) = sum l + sum k ∧
  Forall (λ n, 0 ≤ n) (zip_with (λ a b, u64 (a + b)) l k).
Proof.
  intros Hl. revert k. induction Hl as [|x l Hx Hl IH]; intros k Hk Hlen Hsum; destruct k as [|y k]; try done.
  apply Forall_cons in Hk as [Hy Hk]. cbn in *. fold (sum l) (sum k) in *.
  assert (0 ≤ sum l) by (clear -Hl; induction Hl; cbn; [lia|]; fold (sum l) in *; lia).
  assert (0 ≤ sum k) by (clear -Hk; induction Hk; cbn; [lia|]; fold (sum l) in *; lia).
  destruct (IH k Hk ltac:(lia) ltac:(lia)) as [IH1 IH2]. fold (sum (zip_with (λ a b, u64 (a + b)) l k)).
  rewrite IH1, u64_small by lia. split; [lia|]. constructor; [lia|done].
Qed.

Lemma record_success_ok s code elapsed :
  consistent s → 0 ≤ code < 1000 → completed s + 1 < 2 ^ 64 →
  ∃ s', record_success s code elapsed = Ok s' ∧ consistent s' ∧ completed s' = completed s + 1 ∧
    latencies_ns s' = latencies_ns s ++ [u64 elapsed].
Proof.
  intros (Hlen & Hpos & Hsum & Hlat) Hc Hb. unfold record_success.
  destruct (lookup_lt_is_Some_2 (status_counts s) (Z.to_nat code)) as [n Hn]; [lia|]. rewrite Hn.
  eexists. split; [reflexivity|].
  pose proof (sum_bound _ n Hpos ltac:(by eapply list_elem_of_lookup_2)) as Hbn.
  pose proof (zlen_nonneg (latencies_ns s)).
  assert (u64 (completed s + 1) = completed s + 1) as Hu by (apply u64_small; lia).
  unfold consistent. cbn. rewrite Hu, (u64_small (n + 1)) by lia. split; [|done]. split_and!.
  - by rewrite length_insert.
  - apply Forall_insert; [done|lia].
  - rewrite (sum_insert _ _ _ _ Hn). lia.
  - rewrite zlen_app. cbn. rewrite Hlat. done.
Qed.

Lemma merge_ok s t :
  consistent s → consistent t → completed s + completed t < 2 ^ 64 →
  consistent (merge s t) ∧ completed (merge s t) = completed s + completed t.
Proof.
  intros (Hl1 & Hp1 & Hs1 & Hz1) (Hl2 & Hp2 & Hs2 & Hz2) Hb.
  destruct (sum_zip (status_counts s) (status_counts t)) as [Hs Hp]; [done|done|lia|lia|].
  pose proof (zlen_nonneg (latencies_ns s)). pose proof (zlen_nonneg (latencies_ns t)).
  assert (u64 (completed s + completed t) = completed s + completed t) as Hu by (apply u64_small; lia).
  unfold consistent. cbn. rewrite Hu. split; [|done]. split_and!;
    [rewrite length_zip_with; lia|done|fold (sum (zip_with (λ a b, u64 (a + b)) (status_counts s) (status_counts t))); lia
    |rewrite zlen_app; lia].
Qed.

(** ** A whole run *)

(** One worker: responses whose status the HTTP/2 and HTTP/3 decoders read,
    recorded one after the other. *)
Definition respond (s : Stats) (r : bytes * bool * Z) : res Stats :=
  let '(value, huffman, elapsed) := r in
  code ← status.status_value value huffman;
  record_success s code elapsed.

Fixpoint work (s : Stats) (responses : list (bytes * bool * Z)) : res Stats :=
  match responses with
  | [] => Ok s
  | r :: rest => s' ← respond s r; work s' rest
  end.

Lemma consistent_default : consistent default.
Proof. unfold consistent. cbn. split_and!; try done. by repeat constructor. Qed.

Lemma work_ok responses s :
  consistent s → completed s + zlen responses < 2 ^ 64 →
  wp (work s responses) (λ s', consistent s' ∧ completed s' = completed s + zlen responses).
Proof.
  revert s. induction responses as [|[[value h] elapsed] rest IH]; intros s Hs Hb; cbn [work].
  { apply wp_Ok. split; [done|]. rewrite zlen_nil. lia. }
  rewrite zlen_cons in *. pose proof (zlen_nonneg rest). unfold respond. wp_step. wp_step.
  destruct (status.status_value value h) as [code|[]] eqn:Hst; cbn [wp]; [|done|].
  - apply status.status_value_range in Hst.
    destruct (record_success_ok s code elapsed) as (s' & -> & Hs' & Hc & _); [done|done|lia|].
    cbn [wp]. eapply wp_mono; [apply IH; [done|lia]|]. intros s'' [? ?]. split; [done|lia].
  - unfold status.status_value in Hst. destruct h; repeat case_match; try done; unfold ok_or in Hst;
      case_match; done.
Qed.

(** Responses over all workers. *)
Definition responses_total (ws : list (list (bytes * bool * Z))) : Z :=
  foldr (λ w n, zlen w + n) 0 ws.

Lemma merge_loop_ok ws s :
  consistent s → completed s + responses_total ws < 2 ^ 64 →
  wp (merge_loop s (work default <$> ws))
     (λ s', consistent s' ∧ completed s' = completed s + responses_total ws).
Proof.
  revert s. induction ws as [|w ws IH]; intros s Hs Hb; cbn [merge_loop fmap list_fmap].
  { apply wp_Ok. split; [done|]. unfold responses_total. cbn. lia. }
  unfold responses_total in Hb |- *. cbn in Hb |- *. fold (responses_total ws) in *.
  pose proof (zlen_nonneg w). destruct Hs as (? & ? & ? & ?) eqn:?. pose proof (zlen_nonneg (latencies_ns s)).
  assert (0 ≤ responses_total ws) as Hpos.
  { clear. unfold responses_total. induction ws as [|w ws IH]; cbn; [lia|]. pose proof (zlen_nonneg w). lia. }
  wp_step. eapply wp_mono; [apply work_ok; [apply consistent_default|cbn; lia]|]. intros x [Hx Hxc]. cbn in Hxc.
  destruct (merge_ok s x) as [Hm Hmc]; [done|done|lia|].
  eapply wp_mono; [apply IH; [done|lia]|]. intros s' [? ?]. split; [done|lia].
Qed.

(** A run's report adds up: whatever the workers decode, no response can
    index past the status table, and when no worker fails the merged report has
    exactly one completed request, one latency sample and one status entry per
    response. *)
Theorem report_adds_up (ws : list (list (bytes * bool * Z))) (Hb : responses_total ws < 2 ^ 64) :
  no_panic (merge_workers (work default <$> ws)) ∧
  ∀ s, merge_workers (work default <$> ws) = Ok s →
    completed s = responses_total ws ∧ sum (status_counts s) = responses_total ws ∧
    zlen (latencies_ns s) = responses_total ws.
Proof.
  assert (wp (merge_workers (work default <$> ws))
    (λ s, consistent s ∧ completed s = responses_total ws)) as Hwp.
  { destruct ws as [|w [|w' ws]].
    - apply wp_Ok. split; [apply consistent_default|done].
    - cbn in *. eapply wp_mono; [apply work_ok; [apply consistent_default|]|].
      + unfold responses_total in Hb. cbn in Hb |- *. lia.
      + intros s [? ?]. split; [done|]. unfold responses_total. cbn in *. lia.
    - apply (merge_loop_ok (w :: w' :: ws) default consistent_default). cbn. exact Hb. }
  split; [by eapply wp_no_panic|]. intros s Hs. destruct (wp_elim _ _ _ Hwp Hs) as [(?&?&?&?) ?]. lia.
Qed.

Lemma report_adds_up_witness :
  let ws := [[(status.plain_encode 200, false, 5); (status.huffman_encode 404, true, 7)];
             [(status.plain_encode 200, false, 9)]] in
  no_panic (merge_workers (work default <$> ws)) ∧
  ∀ s, merge_workers (work default <$> ws) = Ok s →
    completed s = responses_total ws ∧ sum (status_counts s) = responses_total ws ∧
    zlen (latencies_ns s) = responses_total ws.
Proof.
  apply (report_adds_up [[(status.plain_encode 200, false, 5); (status.huffman_encode 404, true, 7)];
             [(status.plain_encode 200, false, 9)]]).
  vm_compute. reflexivity.
Defined.
End stats.

(** ** Latency percentiles *)

Module latency.

(** [slice::sort_unstable] on integers: equal elements are identical, so the
    result is determined. *)
Fixpoint insert_sorted (x : Z) (l : list Z) : list Z :=
  match l with
  | [] => [x]
  | y :: l' => if x <=? y then x :: y :: l' else y :: insert_sorted x l'
  end.
Definition sort_unstable (l : list Z) : list Z := foldr insert_sorted [] l.

(** [l] holds at index [r] what it would hold there if it were sorted. *)
Definition placed (l : list Z) (r : nat) : Prop :=
  ∃ x, l !! r = Some x ∧ Forall (λ y, y ≤ x) (take r l) ∧ Forall (λ y, x ≤ y) (drop (S r) l).

(** [slice::select_nth_unstable]: some rearrangement with the element of that
    rank in place. *)
Class SelectNth := select_nth_unstable : list Z → nat → list Z.
Class SelectNthLaws `{SelectNth} := {
  select_perm l i : select_nth_unstable l i ≡ₚ l;
  select_placed l i : (i < length l)%nat → placed (select_nth_unstable l i) i;
}.

(** [ranks.partition_point(..)] on a nondecreasing slice. *)
Fixpoint partition_point (f : nat → bool) (l : list nat) : nat :=
  match l with
  | [] => 0
  | x :: l' => if f x then S (partition_point f l') else 0
  end.

Section select.
Context `{SelectNth}.

(** [select_ranks]: what the slice holds afterwards.  Each call places one rank
    and recurses on strictly fewer, so as much fuel as there are ranks is
    enough. *)
Fixpoint select_ranks (fuel : nat) (samples : list Z) (ranks : list nat) (offset : nat) : res (list Z) :=
  match ranks with
  | [] => Ok samples
  | _ =>
      match fuel with
      | O => panic "out of fuel"
      | S fuel' =>
          let middle := (offset + length samples / 2)%nat in
          let split := Nat.min (partition_point (λ rank, rank <? middle)%nat ranks) (length ranks - 1) in
          match ranks !! split with
          | None => panic "index out of bounds"
          | Some rank =>
              if (length samples <=? rank - offset)%nat then panic "select_nth_unstable out of bounds"
              else
                let l := select_nth_unstable samples (rank - offset) in
                let lower := take (rank - offset) l in
                let pivot := take 1 (drop (rank - offset) l) in
                let upper := drop (S (rank - offset)) l in
                let lower_end := partition_point (λ r, r <? rank)%nat ranks in
                let upper_start := partition_point (λ r, r <=? rank)%nat ranks in
                lower' ← select_ranks fuel' lower (take lower_end ranks) offset;
                upper' ← select_ranks fuel' upper (drop upper_start ranks) (S rank);
                Ok (lower' ++ pivot ++ upper')
          end
      end
  end.

Definition is_sorted (l : list Z) : bool :=
  forallb (λ '(a, b), a <=? b) (zip l (drop 1 l)).
Definition is_sorted_desc (l : list Z) : bool :=
  forallb (λ '(a, b), b <=? a) (zip l (drop 1 l)).

(** Total number of samples, minimum, sum, maximum and percentiles, in
    nanoseconds. *)
Record LatencySummary := mkSummary {
  min : Z;
  total : Z;
  max : Z;
  percentiles : list Z;
}.

Definition min_of (l : list Z) : Z := match l with [] => 0 | x :: l' => foldl Z.min x l' end.
Definition max_of (l : list Z) : Z := match l with [] => 0 | x :: l' => foldl Z.max x l' end.

(** [latency_summary] with the percentile ranks given: [ranks] are computed in
    floating point, nondecreasing and below the number of samples. *)
Definition latency_summary (lat : list Z) (ranks : list nat) : res (option LatencySummary) :=
  if (length lat =? 0)%nat then Ok None
  else
    let len := length lat in
    let total := stats.sum lat in
    let at' := λ l i, nth i l 0 in
    let lat := if (len <=? 1024)%nat then sort_unstable lat else lat in
    if (len <=? 1024)%nat || is_sorted lat then
      Ok (Some (mkSummary (at' lat 0%nat) total (at' lat (len - 1)%nat) (at' lat <$> ranks)))
    else if is_sorted_desc lat then
      Ok (Some (mkSummary (at' lat (len - 1)%nat) total (at' lat 0%nat)
                  ((λ r, at' lat (len - 1 - r)%nat) <$> ranks)))
    else
      lat ← select_ranks (length ranks) lat ranks 0;
      let first := default 0%nat (ranks !! 0%nat) in
      let last := default 0%nat (ranks !! (length ranks - 1)%nat) in
      Ok (Some (mkSummary (min_of (take (S first) lat)) total (max_of (drop last lat)) (at' lat <$> ranks))).
End select.

(** ** Sorting and order statistics *)

Abbreviation sorted := (StronglySorted Z.le).
Abbreviation nondecreasing := (StronglySorted le).

Lemma insert_sorted_perm x l : insert_sorted x l ≡ₚ x :: l.
Proof. induction l as [|y l IH]; cbn; [done|]. case_match; [done|]. rewrite IH. constructor. Qed.
Lemma sort_perm l : sort_unstable l ≡ₚ l.
Proof. induction l as [|x l IH]; cbn; [done|]. by rewrite insert_sorted_perm, IH. Qed.

Lemma insert_sorted_sorted x l : sorted l → sorted (insert_sorted x l).
Proof.
  induction 1 as [|y l Hl IH Hy]; cbn; [by repeat constructor|].
  destruct (Z.leb_spec x y).
  - repeat constructor; [done|done|lia|]. eapply Forall_impl; [exact Hy|]. cbn. lia.
  - constructor; [done|]. rewrite insert_sorted_perm. constructor; [lia|done].
Qed.
Lemma sort_sorted l : sorted (sort_unstable l).
Proof. induction l as [|x l IH]; cbn; [constructor|]. by apply insert_sorted_sorted. Qed.

Lemma sort_unique l k : sorted k → k ≡ₚ l → k = sort_unstable l.
Proof.
  intros Hk Hp. apply (StronglySorted_unique Z.le); [done|apply sort_sorted|]. by rewrite sort_perm.
Qed.

Lemma sorted_app l k : sorted l → sorted k → (∀ x y, x ∈ l → y ∈ k → x ≤ y) → sorted (l ++ k).
Proof.
  induction 1 as [|x l Hl IH Hx]; intros Hk Hxy; [done|]. cbn. constructor.
  - apply IH; [done|]. intros a b Ha Hb. apply Hxy; [apply elem_of_cons; by right|done].
  - apply Forall_app. split; [done|]. apply Forall_forall. intros y Hy. apply Hxy; [|done].
    apply elem_of_cons. by left.
Qed.

(** A placed element is the order statistic of its rank. *)
Lemma placed_nth l r : placed l r → nth r l 0 = nth r (sort_unstable l) 0.
Proof.
  intros (x & Hx & Hlo & Hhi). rewrite (nth_lookup_Some _ _ _ _ Hx).
  rewrite <- (sort_unique l (sort_unstable (take r l) ++ x :: sort_unstable (drop (S r) l))).
  - assert (length (sort_unstable (take r l)) = r) as Hr.
    { rewrite (Permutation_length (sort_perm _)), length_take. apply lookup_lt_Some in Hx. lia. }
    rewrite app_nth2 by lia. rewrite Hr, Nat.sub_diag. done.
  - rewrite Forall_forall in Hlo, Hhi. apply sorted_app; [apply sort_sorted| |].
    + constructor; [apply sort_sorted|]. apply Forall_forall. intros y. rewrite sort_perm. apply Hhi.
    + intros a b. rewrite sort_perm. intros Ha%Hlo [->|Hb]%elem_of_cons; [done|].
      rewrite sort_perm in Hb. apply Hhi in Hb. lia.
  - rewrite !sort_perm. rewrite (take_drop_middle l r x Hx). done.
Qed.

(** ** [select_ranks] places every rank *)

Lemma partition_point_spec f ranks :
  (∀ a b, (a ≤ b)%nat → f b = true → f a = true) → nondecreasing ranks →
  Forall (λ r, f r = true) (take (partition_point f ranks) ranks) ∧
  Forall (λ r, f r = false) (drop (partition_point f ranks) ranks).
Proof.
  intros Hmono. induction 1 as [|x l Hl IH Hx]; cbn; [done|]. destruct (f x) eqn:Hf; cbn.
  - destruct IH. split; [by constructor|done].
  - split; [done|]. constructor; [done|]. eapply Forall_impl; [exact Hx|]. cbn. intros y Hy.
    destruct (f y) eqn:Hfy; [|done]. rewrite (Hmono x y Hy Hfy) in Hf. done.
Qed.

Lemma partition_point_le f (ranks : list nat) i r :
  ranks !! i = Some r → f r = false → (partition_point f ranks ≤ i)%nat.
Proof.
  revert i. induction ranks as [|x l IH]; intros [|i] Hi Hf; cbn in *; try done.
  - injection Hi as ->. rewrite Hf. lia.
  - destruct (f x); [|lia]. specialize (IH i Hi Hf). lia.
Qed.
Lemma partition_point_gt f (ranks : list nat) i r :
  (∀ a b, (a ≤ b)%nat → f b = true → f a = true) → nondecreasing ranks →
  ranks !! i = Some r → f r = true → (i < partition_point f ranks)%nat.
Proof.
  intros Hmono Hs. revert i. induction Hs as [|x l Hl IH Hx]; intros [|i] Hi Hf; cbn in *; try done.
  - injection Hi as ->. rewrite Hf. lia.
  - assert (f x = true) as Hfx.
    { apply (Hmono x r); [|done]. rewrite Forall_forall in Hx. apply Hx. by eapply list_elem_of_lookup_2. }
    rewrite Hfx. specialize (IH i Hi Hf). lia.
Qed.

(** Putting the two halves back around the pivot. *)
Lemma placed_join lower upper x r :
  Forall (λ y, y ≤ x) lower → Forall (λ y, x ≤ y) upper →
  (placed lower r ∨ r = length lower ∨ ∃ r', r = (S (length lower) + r')%nat ∧ placed upper r') →
  placed (lower ++ x :: upper) r.
Proof.
  intros Hlo Hhi [(y & Hy & H1 & H2)|[->|(r' & -> & (y & Hy & H1 & H2))]].
  - pose proof (lookup_lt_Some _ _ _ Hy) as Hlt. exists y. split; [by apply lookup_app_l_Some|].
    assert (y ≤ x) by (rewrite Forall_forall in Hlo; apply Hlo; by eapply list_elem_of_lookup_2).
    rewrite take_app_le, drop_app_le by lia. split; [done|]. rewrite Forall_app, Forall_cons.
    split_and!; [done|done|]. eapply Forall_impl; [exact Hhi|]. cbn. lia.
  - exists x. split; [by apply list_lookup_middle|]. rewrite take_app_length. split; [done|].
    rewrite cons_middle, app_assoc. rewrite drop_app_length' by llia. done.
  - exists y. assert (x ≤ y) by (rewrite Forall_forall in Hhi; apply Hhi; by eapply list_elem_of_lookup_2).
    split; [|split].
    + rewrite lookup_app_r by lia. replace (S (length lower) + r' - length lower)%nat with (S r') by lia. done.
    + rewrite take_app_ge by lia. replace (S (length lower) + r' - length lower)%nat with (S r') by lia. cbn.
      rewrite Forall_app, Forall_cons. split_and!; [|lia|done].
      eapply Forall_impl; [exact Hlo|]. cbn. lia.
    + rewrite drop_app_ge by lia. replace (S (S (length lower) + r') - length lower)%nat with (S (S r')) by lia. done.
Qed.

Lemma nondecreasing_take n l : nondecreasing l → nondecreasing (take n l).
Proof.
  intros Hs. revert n. induction Hs as [|x l Hl IH Hx]; intros [|n]; cbn; try constructor; [done|].
  by apply Forall_take.
Qed.
Lemma nondecreasing_drop n l : nondecreasing l → nondecreasing (drop n l).
Proof.
  intros Hs. revert n. induction Hs as [|x l Hl IH Hx]; intros [|n]; cbn; [constructor..| |done].
  by constructor.
Qed.

Lemma Forall_perm (P : Z → Prop) l k : l ≡ₚ k → Forall P k → Forall P l.
Proof. by intros ->. Qed.

Section select_proofs.
Context `{SelectNthLaws}.

(** Every rank of [ranks] below the split is settled in the lower part, every
    rank above it in the upper part, and the rest are the pivot. *)
Lemma ranks_split ranks rank lo hi :
  nondecreasing ranks → Forall (λ r, lo ≤ r < hi)%nat ranks →
  let lower_end := partition_point (λ r, r <? rank)%nat ranks in
  let upper_start := partition_point (λ r, r <=? rank)%nat ranks in
  Forall (λ r, lo ≤ r < rank)%nat (take lower_end ranks) ∧
  Forall (λ r, rank < r < hi)%nat (drop upper_start ranks) ∧
  ∀ r, r ∈ ranks → r ∈ take lower_end ranks ∨ r = rank ∨ r ∈ drop upper_start ranks.
Proof.
  intros Hs Hb lower_end upper_start.
  assert (∀ a b, (a ≤ b)%nat → (b <? rank)%nat = true → (a <? rank)%nat = true) as Hm1.
  { intros a b ? ?%Nat.ltb_lt. apply Nat.ltb_lt. lia. }
  assert (∀ a b, (a ≤ b)%nat → (b <=? rank)%nat = true → (a <=? rank)%nat = true) as Hm2.
  { intros a b ? ?%Nat.leb_le. apply Nat.leb_le. lia. }
  destruct (partition_point_spec _ ranks Hm1 Hs) as [Hlo _].
  destruct (partition_point_spec _ ranks Hm2 Hs) as [_ Hhi]. split_and!.
  - eapply Forall_impl; [exact (proj2 (Forall_and _ _) (conj Hlo (Forall_take _ lower_end _ Hb)))|].
    cbn. intros r [?%Nat.ltb_lt ?]. lia.
  - eapply Forall_impl; [exact (proj2 (Forall_and _ _) (conj Hhi (Forall_drop _ upper_start _ Hb)))|].
    cbn. intros r [?%Nat.leb_gt ?]. lia.
  - intros r [i Hi]%list_elem_of_lookup. destruct (Nat.lt_trichotomy r rank) as [Hr|[Hr|Hr]].
    + left. apply (list_elem_of_lookup_2 _ i). rewrite lookup_take_lt; [done|].
      apply (partition_point_gt _ _ _ r); try done. by apply Nat.ltb_lt.
    + by right; left.
    + right; right. apply (list_elem_of_lookup_2 _ (i - upper_start)). rewrite lookup_drop.
      rewrite Nat.add_comm, Nat.sub_add; [done|]. apply (partition_point_le _ _ _ r); [done|].
      by apply Nat.leb_gt.
Qed.

Lemma select_ranks_spec fuel : ∀ samples ranks offset,
  (length ranks ≤ fuel)%nat → nondecreasing ranks →
  Forall (λ r, offset ≤ r < offset + length samples)%nat ranks →
  ∃ l, select_ranks fuel samples ranks offset = Ok l ∧ l ≡ₚ samples ∧
    Forall (λ r, placed l (r - offset)) ranks.
Proof.
  induction fuel as [|fuel IH]; intros samples ranks offset Hfuel Hs Hr.
  { destruct ranks; cbn in Hfuel; [|lia]. exists samples. by split_and!. }
  destruct (decide (ranks = [])) as [->|Hne]; [exists samples; by split_and!|].
  assert (0 < length ranks)%nat as Hpos by (destruct ranks; cbn; [done|lia]).
  cbn [select_ranks]. destruct ranks as [|r0 ranks0] eqn:Er; [done|]. rewrite <- Er in *. clear Er r0 ranks0.
  set (split := Nat.min _ _).
  destruct (lookup_lt_is_Some_2 ranks split) as [rank Hrank]; [lia|]. rewrite Hrank.
  destruct (proj1 (Forall_lookup _ _) Hr _ _ Hrank) as [Hge Hlt].
  rewrite (proj2 (Nat.leb_gt _ _)) by lia.
  destruct (select_placed samples (rank - offset)) as (x & Hx & Hlo & Hhi); [lia|].
  set (l := select_nth_unstable samples (rank - offset)) in *.
  assert (l ≡ₚ samples) as Hperm by apply select_perm.
  pose proof (Permutation_length Hperm) as Hlen.
  destruct (ranks_split ranks rank _ _ Hs Hr) as (Hrlo & Hrhi & Hcases).
  set (le := partition_point (λ r, r <? rank)%nat ranks) in *.
  set (us := partition_point (λ r, r <=? rank)%nat ranks) in *.
  assert (le ≤ split)%nat as Hle by (apply (partition_point_le _ _ _ rank); [done|]; apply Nat.ltb_ge; lia).
  assert (split < us)%nat as Hus.
  { apply (partition_point_gt _ _ _ rank); [|done|done|apply Nat.leb_le; lia].
    intros a b ? ?%Nat.leb_le. apply Nat.leb_le. lia. }
  destruct (IH (take (rank - offset) l) (take le ranks) offset) as (lower & Elo & Plo & Slo).
  { rewrite length_take. lia. } { by apply nondecreasing_take. }
  { eapply Forall_impl; [exact Hrlo|]. cbn. rewrite length_take. lia. }
  destruct (IH (drop (S (rank - offset)) l) (drop us ranks) (S rank)) as (upper & Eup & Pup & Sup).
  { rewrite length_drop. lia. } { by apply nondecreasing_drop. }
  { eapply Forall_impl; [exact Hrhi|]. cbn. rewrite length_drop. lia. }
  rewrite Elo. cbn [mbind result_bind]. rewrite Eup. cbn [mbind result_bind].
  rewrite (drop_S l x _ Hx). cbn [take]. eexists. split; [done|].
  assert (length lower = rank - offset)%nat as Hll
    by (rewrite (Permutation_length Plo), length_take; lia).
  rewrite take_0. cbn [app]. split.
  - rewrite Plo, Pup, <- Hperm. rewrite <- (take_drop_middle l _ x Hx) at 3. done.
  - apply Forall_forall. intros r Hin.
    apply placed_join; [by eapply Forall_perm|by eapply Forall_perm|].
    rewrite Hll. destruct (Hcases r Hin) as [Hin'|[->|Hin']].
    + left. by apply (proj1 (Forall_forall _ _) Slo).
    + by right; left.
    + right; right. exists (r - S rank)%nat. split; [|by apply (proj1 (Forall_forall _ _) Sup)].
      pose proof (proj1 (Forall_forall _ _) Hrhi r Hin'). cbn in *. lia.
Qed.

(** ** The ordered paths *)

Lemma is_sorted_spec l : is_sorted l = true → sorted l.
Proof.
  intros Hl. apply Sorted_StronglySorted; [intros a b c; lia|].
  induction l as [|x l IH]; [constructor|]. destruct l as [|y l]; [by repeat constructor|].
  unfold is_sorted in *. cbn in *. apply andb_prop in Hl as [Hxy Hl].
  constructor; [by apply IH|]. constructor. by apply Z.leb_le.
Qed.

Lemma is_sorted_desc_spec l : is_sorted_desc l = true → sorted (reverse l).
Proof.
  intros Hl. assert (StronglySorted (flip Z.le) l) as Hd.
  { apply Sorted_StronglySorted; [intros a b c; cbn; lia|].
    induction l as [|x l IH]; [constructor|]. destruct l as [|y l]; [by repeat constructor|].
    unfold is_sorted_desc in *. cbn in *. apply andb_prop in Hl as [Hxy Hl].
    constructor; [by apply IH|]. constructor. by apply Z.leb_le. }
  clear Hl. induction Hd as [|x l Hd IH Hx]; [constructor|]. rewrite reverse_cons.
  apply sorted_app; [done|by repeat constructor|]. intros a b Ha Hb.
  apply list_elem_of_singleton in Hb as ->. rewrite elem_of_reverse in Ha.
  rewrite Forall_forall in Hx. by apply Hx.
Qed.

Lemma nth_reverse (l : list Z) i : (i < length l)%nat → nth (length l - 1 - i) l 0 = nth i (reverse l) 0.
Proof.
  intros Hi. rewrite !nth_lookup. rewrite reverse_lookup by done. do 2 f_equal. lia.
Qed.

(** Folding [min] over a nonempty list gives its least element. *)
Lemma foldl_min x l : foldl Z.min x l ∈ x :: l ∧ Forall (λ y, foldl Z.min x l ≤ y) (x :: l).
Proof.
  revert x. induction l as [|y l IH]; intros x; cbn.
  - split; [by left|]. by repeat constructor.
  - destruct (IH (Z.min x y)) as [Hin Hall]. apply Forall_cons in Hall as [Hm Hall]. split.
    + apply elem_of_cons in Hin as [->|Hin]; [|set_solver]. destruct (Z.min_spec x y) as [[_ ->]|[_ ->]]; set_solver.
    + repeat constructor; [lia|lia|done].
Qed.
Lemma foldl_max x l : foldl Z.max x l ∈ x :: l ∧ Forall (λ y, y ≤ foldl Z.max x l) (x :: l).
Proof.
  revert x. induction l as [|y l IH]; intros x; cbn.
  - split; [by left|]. by repeat constructor.
  - destruct (IH (Z.max x y)) as [Hin Hall]. apply Forall_cons in Hall as [Hm Hall]. split.
    + apply elem_of_cons in Hin as [->|Hin]; [|set_solver]. destruct (Z.max_spec x y) as [[_ ->]|[_ ->]]; set_solver.
    + repeat constructor; [lia|lia|done].
Qed.

(** The least element of the prefix that ends at a placed rank is the least of
    all; likewise the greatest of the suffix that starts at one. *)
Lemma min_of_placed l r : placed l r → min_of (take (S r) l) = nth 0 (sort_unstable l) 0.
Proof.
  intros (x & Hx & Hlo & Hhi). set (k := take (S r) l).
  assert (k = take r l ++ [x]) as Ek by by apply take_S_r.
  destruct k as [|a k'] eqn:Ek'; [by destruct (take r l)|]. cbn [min_of].
  destruct (foldl_min a k') as [Hin Hall]. set (m := foldl Z.min a k') in *. rewrite Ek in Hin, Hall.
  apply Forall_app in Hall as [Hml [Hmx _]%Forall_cons].
  assert (m ∈ l) as Hm.
  { rewrite <- (take_drop_middle l r x Hx). set_solver. }
  assert (Forall (λ y, m ≤ y) l) as Hall.
  { rewrite <- (take_drop_middle l r x Hx), Forall_app, Forall_cons. split_and!; [done|done|].
    eapply Forall_impl; [exact Hhi|]. cbn. lia. }
  rewrite <- (sort_perm l) in Hm, Hall. pose proof (sort_sorted l) as Hs.
  destruct (sort_unstable l) as [|y k2]; [by apply elem_of_nil in Hm|]. cbn.
  apply Forall_cons in Hall as [Hmy _]. apply StronglySorted_inv in Hs as [_ Hy].
  apply elem_of_cons in Hm as [->|Hm]; [done|]. rewrite Forall_forall in Hy. apply Hy in Hm. lia.
Qed.

Lemma max_of_placed l r : placed l r → max_of (drop r l) = nth (length l - 1) (sort_unstable l) 0.
Proof.
  intros (x & Hx & Hlo & Hhi). rewrite (drop_S _ _ _ Hx). cbn [max_of].
  destruct (foldl_max x (drop (S r) l)) as [Hin Hall]. set (m := foldl Z.max _ _) in *.
  apply Forall_cons in Hall as [Hxm Hall].
  assert (m ∈ l) as Hm.
  { rewrite <- (take_drop_middle l r x Hx). set_solver. }
  assert (Forall (λ y, y ≤ m) l) as Hmax.
  { rewrite <- (take_drop_middle l r x Hx), Forall_app, Forall_cons. split_and!; [|done|done].
    eapply Forall_impl; [exact Hlo|]. cbn. lia. }
  rewrite <- (Permutation_length (sort_perm l)). rewrite <- (sort_perm l) in Hm, Hmax.
  pose proof (sort_sorted l) as Hs. destruct (sort_unstable l) as [|y k _] using rev_ind.
  { by apply elem_of_nil in Hm. }
  rewrite length_app, Nat.add_sub, app_nth2, Nat.sub_diag by lia. cbn.
  apply Forall_app in Hmax as [_ [Hym _]%Forall_cons]. apply elem_of_app in Hm as [Hm| ->%list_elem_of_singleton]; [|done].
  enough (m ≤ y) by lia. clear -Hs Hm. induction k as [|z k IH]; [by apply elem_of_nil in Hm|].
  cbn in Hs. apply StronglySorted_inv in Hs as [Hs Hz]. apply elem_of_cons in Hm as [->|Hm]; [|by apply IH].
  rewrite Forall_forall in Hz. apply Hz. apply elem_of_app. right. by apply list_elem_of_singleton.
Qed.

(** The latency summary reports the true order statistics of the samples
    on every path (small inputs that are sorted, inputs already in ascending or
    descending order, and the selection over unordered ones): it never panics,
    the minimum and maximum are the first and last of the sorted samples, each
    percentile is the sorted sample of its rank, and the total is the sum. *)
Theorem latency_summary_exact lat ranks :
  lat ≠ [] → ranks ≠ [] → nondecreasing ranks → Forall (λ r, r < length lat)%nat ranks →
  let sorted := sort_unstable lat in
  latency_summary lat ranks =
    Ok (Some (mkSummary (nth 0 sorted 0) (stats.sum lat) (nth (length lat - 1) sorted 0)
                ((λ r, nth r sorted 0) <$> ranks))).
Proof.
  intros Hne Hrne Hs Hr sorted. unfold latency_summary.
  assert (0 < length lat)%nat as Hpos by (destruct lat; cbn; [done|lia]).
  rewrite (proj2 (Nat.eqb_neq _ _)) by lia. destruct (length lat <=? 1024)%nat; cbn [orb]; [done|].
  destruct (is_sorted lat) eqn:Hasc; [by rewrite (sort_unique lat lat (is_sorted_spec _ Hasc))|].
  destruct (is_sorted_desc lat) eqn:Hdesc.
  - subst sorted. rewrite <- (sort_unique lat (reverse lat) (is_sorted_desc_spec _ Hdesc))
      by apply reverse_Permutation.
    rewrite <- !nth_reverse, Nat.sub_0_r, Nat.sub_diag by lia. do 3 f_equal.
    apply list_fmap_ext. intros i r Hi. apply nth_reverse. by apply (Forall_lookup_1 _ _ i _ Hr).
  - destruct (select_ranks_spec (length ranks) lat ranks 0) as (l & -> & Hp & Hpl); [done|done| |].
    { eapply Forall_impl; [exact Hr|]. cbn. lia. }
    cbn [mbind result_bind].
    assert (sorted = sort_unstable l) as Es.
    { apply sort_unique; [apply sort_sorted|]. rewrite Hp. apply sort_perm. }
    assert (∀ i r, ranks !! i = Some r → placed l r) as Hat.
    { intros i r Hi. pose proof (Forall_lookup_1 _ _ i r Hpl Hi) as H1. cbn in H1. by rewrite Nat.sub_0_r in H1. }
    assert (0 < length ranks)%nat by (destruct ranks; cbn; [done|lia]).
    destruct (lookup_lt_is_Some_2 ranks 0) as [r0 Hr0]; [lia|].
    destruct (lookup_lt_is_Some_2 ranks (length ranks - 1)) as [r1 Hr1]; [lia|].
    rewrite Hr0, Hr1. cbn [default id]. rewrite (min_of_placed l r0), (max_of_placed l r1) by eauto.
    rewrite (Permutation_length Hp), Es. do 3 f_equal. apply list_fmap_ext. intros i r Hi.
    apply placed_nth. eauto.
Qed.
End select_proofs.

(** A selection that sorts satisfies what [select_nth_unstable] promises. *)
#[local] Instance select_by_sorting : SelectNth := λ l _, sort_unstable l.
#[local] Instance select_by_sorting_laws : SelectNthLaws.
Proof.
  constructor; [intros l i; apply sort_perm|]. intros l i Hi.
  unfold select_nth_unstable, select_by_sorting.
  destruct (lookup_lt_is_Some_2 (sort_unstable l) i) as [x Hx].
  { by rewrite (Permutation_length (sort_perm l)). }
  exists x. split; [done|]. pose proof (sort_sorted l) as Hs.
  rewrite <- (take_drop_middle _ _ _ Hx) in Hs. clear Hx Hi.
  set (a := take i _) in *. set (b := drop (S i) _) in *.
  induction a as [|y a IH]; cbn in Hs; apply StronglySorted_inv in Hs as [Hs Hy]; [done|].
  destruct (IH Hs) as [H1 H2]. split; [|done]. constructor; [|done].
  apply Forall_app in Hy as [_ Hy]. by apply Forall_cons in Hy as [? _].
Qed.

(** 1026 unordered samples, so that the selection runs. *)
Definition unordered_samples : list Z := 5 :: 1 :: 3 :: replicate 1023 7.

Lemma latency_summary_exact_witness :
  latency_summary unordered_samples [2; 513; 1025]%nat = Ok (Some (mkSummary 1 7170 7 [5; 7; 7])).
Proof.
  rewrite (latency_summary_exact unordered_samples [2; 513; 1025]%nat); [vm_compute; reflexivity|done|done|..].
  - repeat constructor; lia.
  - rewrite Forall_forall. intros r Hr. rewrite list_elem_of_In in Hr. cbn in Hr.
    replace (length unordered_samples) with 1026%nat by reflexivity. lia.
Defined.
End latency.
