(* ===== verification/Http1Parse.v ===== *)
(** * The HTTP/1.1 response scanner — [src/http1/parse.rs]

    [Parser] is modelled whole: the status line, the header fields that decide
    framing, the chunked coding and [feed] with its carried-over line.  Slices
    and indices go through [slice]/[index], which panic out of range, and the
    loops carry fuel, so that both "no input panics the scanner" and "every loop
    ends" are part of what is proved.

    The specification is a machine that takes one byte at a time
    ([byte_step]); [feed] is shown to compute exactly what that machine does on
    the same bytes, whatever pieces they arrive in. *)

From S2P Require Import Prelude Status.

(** [memchr::memchr], from the crate of that name: the index of the first
    occurrence. *)
Class Memchr := memchr : Z → bytes → option nat.
Class MemchrLaws `{Memchr} := {
  memchr_found b pre post : b ∉ pre → memchr b (pre ++ b :: post) = Some (length pre);
  memchr_absent b l : b ∉ l → memchr b l = None;
}.

Module http1_parse.

Inductive Body : Type :=
| Exact (n : Z)
| ChunkSize
| Chunk (n : Z)
| Trailers
| Eof.

#[global] Instance Body_eq_dec : EqDecision Body.
Proof. solve_decision. Defined.

Inductive State : Type :=
| SHead
| SBody (b : Body).

#[global] Instance State_eq_dec : EqDecision State.
Proof. solve_decision. Defined.

(** [struct Head] *)
Record Head := mkHead {
  content_length : option Z;
  h_status : Z;
  http_1_0 : bool;
  te_present : bool;
  te_chunked : bool;
  close : bool;
  keep_alive_token : bool;
}.

#[global] Instance Head_eq_dec : EqDecision Head.
Proof. solve_decision. Defined.

Record ResponseHead := mkResponseHead {
  r_status : Z;
  r_body : Body;
  r_keep_alive : bool;
}.

Record Parser := mkParser {
  pending : bytes;
  state : State;
  partial_head : option Head;
  status : Z;
  keep_alive : bool;
  head_request : bool;
}.

#[global] Instance Parser_eq_dec : EqDecision Parser.
Proof. solve_decision. Defined.

(** Field assignments. *)
Definition with_pending (p : Parser) (x : bytes) : Parser :=
  mkParser x (state p) (partial_head p) (status p) (keep_alive p) (head_request p).
Definition with_state (p : Parser) (x : State) : Parser :=
  mkParser (pending p) x (partial_head p) (status p) (keep_alive p) (head_request p).
Definition with_partial (p : Parser) (x : option Head) : Parser :=
  mkParser (pending p) (state p) x (status p) (keep_alive p) (head_request p).

Definition new : Parser := mkParser [] SHead None 0 true false.
Definition reset (p : Parser) : Parser := mkParser [] SHead None 0 true (head_request p).
Definition set_head_request (p : Parser) (head : bool) : Parser :=
  mkParser (pending p) (state p) (partial_head p) (status p) (keep_alive p) head.

Definition no_body_status (status : Z) : bool := (status =? 204) || (status =? 304).

(** ** Reading one line *)

Definition is_digit (c : Z) : bool := (48 <=? c) && (c <=? 57).

Definition parse_status (b : bytes) : res Z :=
  a ← index b 0; c ← index b 1; d ← index b 2;
  if negb (is_digit a) || negb (is_digit c) || negb (is_digit d) then bail "invalid status code"
  else Ok ((a - 48) * 100 + (c - 48) * 10 + (d - 48)).

(** [n.checked_mul(base).and_then(|n| n.checked_add(d))] *)
Definition checked_digit (base n d : Z) : option Z :=
  n' ← checked_mul n base; checked_add n' d.

Fixpoint parse_u64_loop (n : Z) (b : bytes) : res Z :=
  match b with
  | [] => Ok n
  | c :: b' =>
      if negb (is_digit c) then bail "invalid Content-Length"
      else n' ← ok_or "Content-Length overflow" (checked_digit 10 n (c - 48)); parse_u64_loop n' b'
  end.
Definition parse_u64 (b : bytes) : res Z :=
  if bool_decide (b = []) then bail "empty Content-Length" else parse_u64_loop 0 b.

Definition is_ows (c : Z) : bool := (c =? 32) || (c =? 9).
Fixpoint trim_front (b : bytes) : bytes :=
  match b with c :: rest => if is_ows c then trim_front rest else b | [] => [] end.
Definition trim_ows (b : bytes) : bytes := reverse (trim_front (reverse (trim_front b))).

Definition trim_cr (line : bytes) : bytes :=
  match last line with
  | Some c => if c =? 13 then take (length line - 1) line else line
  | None => line
  end.

Definition hex_digit (c : Z) : option Z :=
  if is_digit c then Some (c - 48)
  else if (97 <=? c) && (c <=? 102) then Some (c - 97 + 10)
  else if (65 <=? c) && (c <=? 70) then Some (c - 65 + 10)
  else None.

Fixpoint parse_chunk_loop (n : Z) (b : bytes) : res Z :=
  match b with
  | [] => Ok n
  | c :: b' =>
      d ← ok_or "invalid chunk size" (hex_digit c);
      n' ← ok_or "chunk size overflow" (checked_digit 16 n d);
      parse_chunk_loop n' b'
  end.

(** [a.iter().zip(b).all(|(x, y)| x | 0x20 == *y)] *)
Definition fold_case_eq (a b : bytes) : bool :=
  forallb (λ '(x, y), Z.lor x 0x20 =? y) (zip a b).
Definition ci_eq (a b : bytes) : bool := (length a =? length b)%nat && fold_case_eq a b.
Definition ci_prefix (line name : bytes) : bool :=
  (length name <=? length line)%nat && fold_case_eq (take (length name) line) name.

(** [final_coding]: the locals of its loop. *)
Record coding := mkCoding { last_coding : option bool; start : nat; quoted : bool; escaped : bool }.

Definition coding_end (value : bytes) (c : coding) (i : nat) : res (option bool) :=
  s ← slice value (start c) i;
  let s := trim_ows s in
  Ok (if bool_decide (s = []) then last_coding c else Some (ci_eq s (bstr "chunked"))).

Fixpoint coding_loop (value : bytes) (i : nat) (l : bytes) (c : coding) : res coding :=
  match l with
  | [] => Ok c
  | byte :: l' =>
      c ← (if escaped c then Ok (mkCoding (last_coding c) (start c) (quoted c) false)
           else if quoted c && (byte =? 92) then Ok (mkCoding (last_coding c) (start c) (quoted c) true)
           else if byte =? 34 then Ok (mkCoding (last_coding c) (start c) (negb (quoted c)) false)
           else if negb (quoted c) && (byte =? 44) then
             last ← coding_end value c i; Ok (mkCoding last (S i) (quoted c) false)
           else Ok c);
      coding_loop value (S i) l' c
  end.

Definition final_coding (value : bytes) : res (option bool) :=
  let value := trim_ows value in
  if ci_eq value (bstr "chunked") then Ok (Some true)
  else
    c ← coding_loop value 0 value (mkCoding None 0 false false);
    if quoted c then bail "unterminated Transfer-Encoding parameter"
    else coding_end value c (length value).

(** [split(|&b| b == sep)] *)
Fixpoint split_on (sep : Z) (l : bytes) : list bytes :=
  match l with
  | [] => [[]]
  | c :: l' =>
      if c =? sep then [] :: split_on sep l'
      else match split_on sep l' with s :: r => (c :: s) :: r | [] => [[c]] end
  end.

(** One token of [Connection]. *)
Definition connection_token (h : Head) (token : bytes) : Head :=
  let token := trim_ows token in
  if ci_eq token (bstr "close") then
    mkHead (content_length h) (h_status h) (http_1_0 h) (te_present h) (te_chunked h) true (keep_alive_token h)
  else if ci_eq token (bstr "keep-alive") then
    mkHead (content_length h) (h_status h) (http_1_0 h) (te_present h) (te_chunked h) (close h) true
  else h.

(** The [match line[0] | 0x20] of [scan_head], on a nonempty line. *)
Definition read_field (h : Head) (line : bytes) : res Head :=
  c ← index line 0;
  if (Z.lor c 0x20 =? 99) && ci_prefix line (bstr "content-length:") then
    v ← slice_from line 15;
    n ← parse_u64 (trim_ows v);
    if match content_length h with Some prev => negb (prev =? n) | None => false end
    then bail "conflicting Content-Length"
    else Ok (mkHead (Some n) (h_status h) (http_1_0 h) (te_present h) (te_chunked h) (close h) (keep_alive_token h))
  else if (Z.lor c 0x20 =? 99) && ci_prefix line (bstr "connection:") then
    v ← slice_from line 11;
    Ok (foldl connection_token h (split_on 44 v))
  else if (Z.lor c 0x20 =? 116) && ci_prefix line (bstr "transfer-encoding:") then
    v ← slice_from line 18;
    chunked ← final_coding v;
    Ok (mkHead (content_length h) (h_status h) (http_1_0 h) true
          (default (te_chunked h) chunked) (close h) (keep_alive_token h))
  else Ok h.

(** What the empty line makes of the head. *)
Definition response_head (h : Head) : ResponseHead :=
  let body :=
    if te_present h then if te_chunked h then ChunkSize else Eof
    else match content_length h with Some n => Exact n | None => Eof end in
  let keep_alive :=
    if http_1_0 h then keep_alive_token h && negb (close h) && negb (te_present h)
    else negb (close h) in
  mkResponseHead (h_status h) body keep_alive.

(** The status line, its newline at [nl]. *)
Definition status_line (buf : bytes) (nl : nat) : res Head :=
  if (nl <? 12)%nat || negb (bytes_eqb (take 7 buf) (bstr "HTTP/1.")) then bail "not an HTTP/1.x response"
  else
    v ← index buf 7;
    http_1_0 ← (if v =? 48 then Ok true else if v =? 49 then Ok false else bail "unsupported HTTP version");
    sp ← index buf 8;
    if negb (sp =? 32) then bail "malformed status line"
    else
      code ← slice buf 9 12;
      status ← parse_status code;
      e ← index buf 12;
      if (e =? 32) || (e =? 13) || (e =? 10)
      then Ok (mkHead None status http_1_0 false false false false)
      else bail "malformed status line".

(** The body as it will actually be read. *)
Definition body_read (head_request : bool) (r : ResponseHead) : Body :=
  if head_request || no_body_status (r_status r) then Exact 0 else r_body r.

Section scanner.
Context `{Memchr}.

Definition parse_chunk_size (b : bytes) : res Z :=
  let b := match memchr 59 b with Some i => take i b | None => b end in
  let b := trim_ows b in
  if bool_decide (b = []) then bail "empty chunk size" else parse_chunk_loop 0 b.

(** The [loop] of [scan_head]: bytes consumed, the finished head if there is
    one, and what is left in [partial]. *)
Fixpoint scan_loop (fuel : nat) (buf : bytes) (pos : nat) (h : Head)
  : res (nat * option ResponseHead * option Head) :=
  match fuel with
  | O => panic "out of fuel"
  | S fuel' =>
      rest ← slice_from buf pos;
      match memchr 10 rest with
      | None => Ok (pos, None, Some h)
      | Some rel =>
          line ← slice buf pos (pos + rel);
          let line := trim_cr line in
          let pos := (pos + rel + 1)%nat in
          if bool_decide (line = []) then Ok (pos, Some (response_head h), None)
          else h ← read_field h line; scan_loop fuel' buf pos h
      end
  end.

(** Every turn of the loop consumes a line. *)
Definition scan_head (buf : bytes) (partial : option Head)
  : res (nat * option ResponseHead * option Head) :=
  match partial with
  | Some h => scan_loop (S (length buf)) buf 0 h
  | None =>
      match memchr 10 buf with
      | None => Ok (0%nat, None, None)
      | Some nl =>
          h ← status_line buf nl;
          scan_loop (S (length buf)) buf (nl + 1) h
      end
  end.

(** ** [Parser::run] *)

Fixpoint run_loop (fuel : nat) (p : Parser) (buf : bytes) (pos done : nat) : res (Parser * nat * nat) :=
  match fuel with
  | O => panic "out of fuel"
  | S fuel' =>
      match state p with
      | SHead =>
          rest ← slice_from buf pos;
          '(used, complete, partial) ← scan_head rest (partial_head p);
          let pos := (pos + used)%nat in
          let p := with_partial p partial in
          match complete with
          | None => Ok (p, pos, done)
          | Some r =>
              if status.is_informational (r_status r) then
                if r_status r =? 101 then bail "unexpected 101 Switching Protocols"
                else run_loop fuel' (with_state p SHead) buf pos done
              else
                let body := body_read (head_request p) r in
                run_loop fuel'
                  (mkParser (pending p) (SBody body) (partial_head p) (r_status r)
                            (r_keep_alive r && negb (bool_decide (body = Eof))) (head_request p))
                  buf pos done
          end
      | SBody (Exact n) =>
          if n =? 0 then run_loop fuel' (with_state p SHead) buf pos (S done)
          else
            let avail := Z.of_nat (length buf - pos) in
            let take := Z.min n avail in
            let pos := (pos + Z.to_nat take)%nat in
            let p := with_state p (SBody (Exact (n - take))) in
            if (take =? avail) && (take <? n) then Ok (p, pos, done)
            else run_loop fuel' p buf pos done
      | SBody ChunkSize =>
          rest ← slice_from buf pos;
          match memchr 10 rest with
          | None => Ok (p, pos, done)
          | Some nl =>
              line ← slice buf pos (pos + nl);
              size ← parse_chunk_size (trim_cr line);
              let pos := (pos + nl + 1)%nat in
              body ← (if size =? 0 then Ok Trailers
                      else want ← ok_or "chunk size overflow" (checked_add size 2); Ok (Chunk want));
              run_loop fuel' (with_state p (SBody body)) buf pos done
          end
      | SBody (Chunk n) =>
          let avail := Z.of_nat (length buf - pos) in
          let take := Z.min n avail in
          let pos := (pos + Z.to_nat take)%nat in
          let left := n - take in
          ok ← (if (left <? 2) && negb (take =? 0) then
                  let end' := Z.to_nat (2 - left) in
                  let len := Z.to_nat (Z.min take (Z.of_nat end')) in
                  got ← slice buf (pos - len) pos;
                  want ← slice [13; 10] (end' - len) end';
                  Ok (bytes_eqb got want)
                else Ok true);
          if negb ok then bail "invalid chunk terminator"
          else if take <? n then Ok (with_state p (SBody (Chunk (n - take))), pos, done)
          else run_loop fuel' (with_state p (SBody ChunkSize)) buf pos done
      | SBody Trailers =>
          rest ← slice_from buf pos;
          match memchr 10 rest with
          | None => Ok (p, pos, done)
          | Some nl =>
              line ← slice buf pos (pos + nl);
              let pos := (pos + nl + 1)%nat in
              if bool_decide (trim_cr line = []) then run_loop fuel' (with_state p SHead) buf pos (S done)
              else run_loop fuel' p buf pos done
          end
      | SBody Eof => Ok (p, length buf, done)
      end
  end.

(** At most two turns go by without a byte consumed. *)
Definition run (p : Parser) (buf : bytes) : res (Parser * nat * nat) :=
  run_loop (2 * length buf + 2) p buf 0 0.

(** [Parser::feed]: the parser afterwards and how many responses completed.
    The [debug_assert_eq!] is a panic here. *)
Definition feed (p : Parser) (data : bytes) : res (Parser * nat) :=
  if bool_decide (pending p = []) then
    '(p, used, done) ← run p data;
    if (used <? length data)%nat then
      rest ← slice_from data used; Ok (with_pending p (pending p ++ rest), done)
    else Ok (p, done)
  else
    match memchr 10 data with
    | None => Ok (with_pending p (pending p ++ data), 0%nat)
    | Some nl =>
        upto ← slice data 0 (nl + 1);
        let line := pending p ++ upto in
        '(p, used, done) ← run (with_pending p []) line;
        if negb (used =? length line)%nat then panic "debug_assert_eq"
        else
          rest ← slice_from data (nl + 1);
          '(p, used, more) ← run (with_pending p []) rest;
          tail ← slice_from data (nl + 1 + used);
          Ok (with_pending p (pending p ++ tail), (done + more)%nat)
    end.
End scanner.

(** [Parser::mark_eof] *)
Definition mark_eof (p : Parser) : Parser * bool :=
  if bool_decide (state p = SBody Eof) then
    (mkParser (pending p) SHead (partial_head p) (status p) false (head_request p), true)
  else (p, false).

(** ** The specification: one byte at a time *)

(** One step after another, the completed responses added up. *)
Definition and_then (r : res (Parser * nat)) (f : Parser → res (Parser * nat)) : res (Parser * nat) :=
  '(p, n) ← r; '(p, m) ← f p; Ok (p, (n + m)%nat).

Section spec.
Context `{Memchr}.

(** A finished head: what state it leaves, and whether the response is already
    complete. *)
Definition on_head (p : Parser) (r : ResponseHead) : res (Parser * nat) :=
  if status.is_informational (r_status r) then
    if r_status r =? 101 then bail "unexpected 101 Switching Protocols" else Ok (p, 0%nat)
  else
    let body := body_read (head_request p) r in
    let p := mkParser (pending p) SHead (partial_head p) (r_status r)
               (r_keep_alive r && negb (bool_decide (body = Eof))) (head_request p) in
    if bool_decide (body = Exact 0) then Ok (p, 1%nat) else Ok (with_state p (SBody body), 0%nat).

(** A complete line, its newline removed, in a state that reads lines. *)
Definition on_line (p : Parser) (line : bytes) : res (Parser * nat) :=
  match state p with
  | SHead =>
      match partial_head p with
      | None => h ← status_line (line ++ [10]) (length line); Ok (with_partial p (Some h), 0%nat)
      | Some h =>
          let line := trim_cr line in
          if bool_decide (line = []) then on_head (with_partial p None) (response_head h)
          else h ← read_field h line; Ok (with_partial p (Some h), 0%nat)
      end
  | SBody ChunkSize =>
      size ← parse_chunk_size (trim_cr line);
      if size =? 0 then Ok (with_state p (SBody Trailers), 0%nat)
      else want ← ok_or "chunk size overflow" (checked_add size 2);
           Ok (with_state p (SBody (Chunk want)), 0%nat)
  | SBody Trailers =>
      if bool_decide (trim_cr line = []) then Ok (with_state p SHead, 1%nat) else Ok (p, 0%nat)
  | _ => Ok (p, 0%nat)
  end.

Definition reads_lines (s : State) : bool :=
  match s with SHead | SBody ChunkSize | SBody Trailers => true | _ => false end.

(** The last two bytes of a chunk are CR and LF. *)
Definition terminator_ok (n b : Z) : bool :=
  if n =? 2 then b =? 13 else if n =? 1 then b =? 10 else true.

Definition byte_step (p : Parser) (b : Z) : res (Parser * nat) :=
  match state p with
  | SBody (Exact n) =>
      if n =? 1 then Ok (with_state p SHead, 1%nat) else Ok (with_state p (SBody (Exact (n - 1))), 0%nat)
  | SBody (Chunk n) =>
      if negb (terminator_ok n b) then bail "invalid chunk terminator"
      else Ok (with_state p (SBody (if n =? 1 then ChunkSize else Chunk (n - 1))), 0%nat)
  | SBody Eof => Ok (p, 0%nat)
  | _ =>
      if b =? 10 then on_line (with_pending p []) (pending p)
      else Ok (with_pending p (pending p ++ [b]), 0%nat)
  end.

Fixpoint byte_steps (p : Parser) (l : bytes) : res (Parser * nat) :=
  match l with
  | [] => Ok (p, 0%nat)
  | b :: l' => and_then (byte_step p b) (λ p, byte_steps p l')
  end.
End spec.

(** The length a parsed head announces is not negative. *)
Definition head_ok (h : Head) : Prop := 0 ≤ default 0 (content_length h).

(** What [feed] leaves between calls: no body of zero bytes is waiting to be
    noticed, and a carried-over line has no newline and only exists in a state
    that reads lines. *)
Definition settled (p : Parser) : Prop :=
  match state p with
  | SBody (Exact n) => 0 < n
  | SBody (Chunk n) => 0 < n
  | _ => True
  end.
Definition parser_inv (p : Parser) : Prop :=
  settled p ∧ (10 ∉ pending p) ∧ (reads_lines (state p) = false → pending p = []) ∧
  match partial_head p with Some h => head_ok h | None => True end.

(** Feeding pieces one after another. *)
Fixpoint feeds `{Memchr} (p : Parser) (pieces : list bytes) : res (Parser * nat) :=
  match pieces with
  | [] => Ok (p, 0%nat)
  | d :: pieces' => and_then (feed p d) (λ p, feeds p pieces')
  end.

(** ** Steps *)

Lemma and_then_Ok p n f : and_then (Ok (p, n)) f = '(p', m) ← f p; Ok (p', (n + m)%nat).
Proof. done. Qed.
Lemma and_then_Ok0 p f : and_then (Ok (p, 0%nat)) f = f p.
Proof. unfold and_then. cbn. by destruct (f p) as [[]|]. Qed.
Lemma and_then_assoc r f g : and_then (and_then r f) g = and_then r (λ p, and_then (f p) g).
Proof.
  unfold and_then. destruct r as [[p n]|]; [|done]. cbn. destruct (f p) as [[p' m]|]; [|done]. cbn.
  destruct (g p') as [[p'' k]|]; [|done]. cbn. by rewrite Nat.add_assoc.
Qed.
Lemma and_then_ext r f g : (∀ p n, r = Ok (p, n) → f p = g p) → and_then r f = and_then r g.
Proof. unfold and_then. destruct r as [[p n]|]; [|done]. intros Hfg. cbn. by rewrite (Hfg p n). Qed.

Section steps.
Context `{MemchrLaws}.

Lemma byte_steps_app p l k : byte_steps p (l ++ k) = and_then (byte_steps p l) (λ p, byte_steps p k).
Proof.
  revert p. induction l as [|b l IH]; intros p; cbn [app byte_steps]; [by rewrite and_then_Ok0|].
  rewrite and_then_assoc. apply and_then_ext. intros p' n _. apply IH.
Qed.

Lemma with_pending_eq p l : pending p = l → with_pending p l = p.
Proof. by destruct p; cbn; intros ->. Qed.

Lemma steps_line p l :
  reads_lines (state p) = true → 10 ∉ l → byte_steps p l = Ok (with_pending p (pending p ++ l), 0%nat).
Proof.
  revert p. induction l as [|b l IH]; intros p Hp Hl; cbn [byte_steps].
  { rewrite app_nil_r. by rewrite with_pending_eq. }
  apply not_elem_of_cons in Hl as [Hb Hl].
  assert (byte_step p b = Ok (with_pending p (pending p ++ [b]), 0%nat)) as ->.
  { unfold byte_step. rewrite (proj2 (Z.eqb_neq b 10)) by done.
    destruct (state p) as [|[]]; done. }
  rewrite and_then_Ok0, IH; [|done|done]. unfold with_pending. cbn. by rewrite <- app_assoc.
Qed.

Lemma steps_newline p l rest :
  reads_lines (state p) = true → 10 ∉ l →
  byte_steps p (l ++ 10 :: rest) =
    and_then (on_line (with_pending p []) (pending p ++ l)) (λ p, byte_steps p rest).
Proof.
  intros Hp Hl. rewrite byte_steps_app, steps_line, and_then_Ok0 by done. cbn [byte_steps].
  f_equal. unfold byte_step. cbn. by destruct (state p) as [|[]].
Qed.

Lemma steps_exact p n l :
  state p = SBody (Exact n) → zlen l < n →
  byte_steps p l = Ok (with_state p (SBody (Exact (n - zlen l))), 0%nat).
Proof.
  revert p n. induction l as [|b l IH]; intros p n Hp Hn.
  { cbn. change (zlen []) with 0. rewrite Z.sub_0_r, <- Hp. by destruct p. }
  rewrite zlen_cons in *. pose proof (zlen_nonneg l). cbn [byte_steps]. unfold byte_step at 1. rewrite Hp.
  rewrite (proj2 (Z.eqb_neq n 1)) by lia. rewrite and_then_Ok0, (IH _ (n - 1)); [|done|lia].
  do 2 f_equal. unfold with_state. cbn. do 3 f_equal. lia.
Qed.

Lemma steps_exact_all p n l :
  state p = SBody (Exact n) → 0 < n → zlen l = n → byte_steps p l = Ok (with_state p SHead, 1%nat).
Proof.
  intros Hp Hn Hl. destruct l as [|b l _] using rev_ind; [change (zlen []) with 0 in Hl; lia|].
  rewrite zlen_app, zlen_cons in Hl. change (zlen []) with 0 in Hl.
  rewrite byte_steps_app, (steps_exact p n) by (done || lia). rewrite and_then_Ok0. cbn. unfold byte_step. cbn.
  rewrite (proj2 (Z.eqb_eq (n - zlen l) 1)) by lia. done.
Qed.

(** A chunk up to its terminator. *)
Lemma steps_chunk p n l :
  state p = SBody (Chunk n) → zlen l + 2 ≤ n →
  byte_steps p l = Ok (with_state p (SBody (Chunk (n - zlen l))), 0%nat).
Proof.
  revert p n. induction l as [|b l IH]; intros p n Hp Hn.
  { cbn. change (zlen []) with 0. rewrite Z.sub_0_r, <- Hp. by destruct p. }
  rewrite zlen_cons in *. pose proof (zlen_nonneg l). cbn [byte_steps]. unfold byte_step at 1. rewrite Hp.
  unfold terminator_ok. rewrite (proj2 (Z.eqb_neq n 1)), (proj2 (Z.eqb_neq n 2)) by lia. cbn [negb].
  rewrite and_then_Ok0, (IH _ (n - 1)); [|done|lia].
  do 2 f_equal. unfold with_state. cbn. do 3 f_equal. lia.
Qed.
Lemma steps_eof p l : state p = SBody Eof → byte_steps p l = Ok (p, 0%nat).
Proof.
  intros Hp. induction l as [|b l IH]; [done|]. cbn [byte_steps]. unfold byte_step at 1. rewrite Hp.
  by rewrite and_then_Ok0.
Qed.

(** The end of a chunk: the bytes of the terminator among those received are
    compared, and nothing else of them is. *)
Lemma steps_chunk_end p n l :
  state p = SBody (Chunk n) → l ≠ [] → 0 ≤ n - zlen l < 2 →
  let left := n - zlen l in
  let end' := Z.to_nat (2 - left) in
  let len := Z.to_nat (Z.min (zlen l) (Z.of_nat end')) in
  byte_steps p l =
    if bytes_eqb (drop (length l - len) l) (take len (drop (end' - len) [13; 10]))
    then Ok (with_state p (SBody (if left =? 0 then ChunkSize else Chunk left)), 0%nat)
    else bail "invalid chunk terminator".
Proof.
  intros Hp Hl Hleft left end' len. pose proof (eq_refl : left = n - zlen l) as E1.
  pose proof (eq_refl : end' = Z.to_nat (2 - left)) as E2.
  pose proof (eq_refl : len = Z.to_nat (Z.min (zlen l) (Z.of_nat end'))) as E3. clearbody left end' len.
  destruct l as [|b l _] using rev_ind; [done|].
  rewrite zlen_app in *. change (zlen [b]) with 1 in *. pose proof (zlen_nonneg l) as Hz.
  destruct (decide (left = 1)) as [Hl1|Hl1].
  - assert (end' = 1%nat ∧ len = 1%nat) as [-> ->] by lia. clear E2 E3.
    rewrite byte_steps_app, (steps_chunk p n) by (done || lia). rewrite and_then_Ok0. cbn [byte_steps].
    unfold byte_step. cbn [state with_state]. unfold terminator_ok.
    rewrite (proj2 (Z.eqb_eq (n - zlen l) 2)), (proj2 (Z.eqb_neq left 0)) by lia.
    rewrite length_app. cbn [length]. replace (length l + 1 - 1)%nat with (length l) by lia.
    rewrite drop_app_length. cbn [drop take Nat.sub]. unfold bytes_eqb.
    destruct (Z.eqb_spec b 13) as [->|Hb]; cbn [negb].
    + rewrite bool_decide_true by done. rewrite and_then_Ok0. do 2 f_equal. unfold with_state. cbn.
      rewrite (proj2 (Z.eqb_neq (n - zlen l) 1)) by lia. do 3 f_equal. lia.
    + rewrite bool_decide_false by congruence. done.
  - destruct l as [|a l _] using rev_ind.
    + change (zlen []) with 0 in *. assert (n = 1) as -> by lia.
      assert (end' = 2%nat ∧ len = 1%nat) as [-> ->] by lia. cbn [app byte_steps length drop take Nat.sub].
      unfold byte_step. rewrite Hp. unfold terminator_ok, bytes_eqb. subst left. cbn.
      destruct (Z.eqb_spec b 10) as [->|Hb]; cbn; [done|]. rewrite bool_decide_false by congruence. done.
    + rewrite zlen_app in *. change (zlen [a]) with 1 in *. pose proof (zlen_nonneg l).
      assert (end' = 2%nat ∧ len = 2%nat) as [-> ->] by lia. rewrite <- app_assoc. cbn [app].
      rewrite byte_steps_app, (steps_chunk p n) by (done || lia). rewrite and_then_Ok0. cbn [byte_steps].
      unfold byte_step. cbn [state with_state]. unfold terminator_ok.
      rewrite (proj2 (Z.eqb_eq (n - zlen l) 2)), (proj2 (Z.eqb_eq left 0)) by lia.
      rewrite length_app. cbn [length]. replace (length l + 2 - 2)%nat with (length l) by lia.
      rewrite drop_app_length. cbn [drop take Nat.sub]. unfold bytes_eqb.
      destruct (Z.eqb_spec a 13) as [->|Ha]; cbn [negb]; [|by rewrite bool_decide_false by congruence].
      rewrite and_then_Ok0. cbn [state with_state]. rewrite (proj2 (Z.eqb_neq (n - zlen l) 1)) by lia.
      replace (n - zlen l - 1) with 1 by lia. cbn.
      destruct (Z.eqb_spec b 10) as [->|Hb]; cbn; [done|]. rewrite bool_decide_false by congruence. done.
Qed.

(** ** No line panics *)

Lemma ci_prefix_length line name : ci_prefix line name = true → (length name ≤ length line)%nat.
Proof. unfold ci_prefix. intros [?%Nat.leb_le _]%andb_prop. done. Qed.

Lemma wp_parse_u64_loop b n : 0 ≤ n → wp (parse_u64_loop n b) (λ m, 0 ≤ m).
Proof.
  revert n. induction b as [|c b IH]; intros n Hn; cbn [parse_u64_loop]; [done|].
  repeat wp_step. apply IH. unfold checked_digit, is_digit in *. apply negb_false_iff, andb_prop in Heqb0 as [??].
  rewrite Z.leb_le in *. unfold checked_mul, checked_add in H1. repeat (case_decide; cbn in *; simplify_eq). lia.
Qed.
Lemma wp_parse_u64 b : wp (parse_u64 b) (λ m, 0 ≤ m).
Proof. unfold parse_u64. case_bool_decide; [done|]. by apply wp_parse_u64_loop. Qed.

Lemma wp_coding_end value c i :
  (start c ≤ i)%nat → (i ≤ length value)%nat → wp (coding_end value c i) (λ _, True).
Proof. intros. unfold coding_end. wp_step. apply wp_slice; [done|done|]. done. Qed.

Lemma wp_coding_loop value l : ∀ i c,
  (start c ≤ i)%nat → (i + length l = length value)%nat →
  wp (coding_loop value i l c) (λ c, start c ≤ length value)%nat.
Proof.
  induction l as [|b l IH]; intros i c Hs Hi; cbn [coding_loop length] in *; [cbn; lia|].
  wp_step. apply (wp_mono _ (λ c, start c ≤ S i)%nat); [|intros c' Hc'; apply IH; lia].
  repeat match goal with |- wp (if ?b then _ else _) _ => destruct b end; try (cbn; lia).
  wp_step. eapply wp_mono; [apply wp_coding_end; lia|]. intros last _. cbn. lia.
Qed.

Lemma wp_final_coding value : wp (final_coding value) (λ _, True).
Proof.
  unfold final_coding. wp_step; [done|]. wp_step.
  eapply wp_mono; [apply wp_coding_loop; cbn; lia|]. intros c Hc. wp_step; [done|]. by apply wp_coding_end.
Qed.

Lemma head_ok_connection h tokens : head_ok h → head_ok (foldl connection_token h tokens).
Proof.
  revert h. induction tokens as [|t tokens IH]; intros h Hh; [done|]. cbn [foldl]. apply IH.
  unfold connection_token. by repeat case_match.
Qed.

Lemma wp_read_field h line : line ≠ [] → head_ok h → wp (read_field h line) head_ok.
Proof.
  intros Hl Hh. unfold read_field. wp_step. apply wp_index; [by destruct line; cbn; [|lia]|].
  intros c _. destruct (_ && _) eqn:Hb; [|clear Hb; destruct (_ && _) eqn:Hb; [|clear Hb; destruct (_ && _) eqn:Hb; [|done]]].
  all: apply andb_prop in Hb as [_ Hb%ci_prefix_length]; wp_step; apply wp_slice_from; [exact Hb|].
  - wp_step. eapply wp_mono; [apply wp_parse_u64|]. intros n Hn. wp_step; [done|]. done.
  - by apply head_ok_connection.
  - wp_step. eapply wp_mono; [apply wp_final_coding|]. intros o _. done.
Qed.

Lemma wp_parse_status b : length b = 3%nat → wp (parse_status b) (λ _, True).
Proof.
  intros Hb. unfold parse_status. destruct b as [|x [|y [|z [|]]]]; cbn in Hb; try lia. cbn.
  by destruct (negb _ || _ || _).
Qed.

Lemma wp_status_line buf nl : (nl < length buf)%nat → wp (status_line buf nl) head_ok.
Proof.
  intros Hn. unfold status_line. wp_step; [done|].
  apply orb_false_elim in Heqb as [Hnl%Nat.ltb_ge _].
  wp_step. apply wp_index; [lia|]. intros v _. wp_step.
  apply (wp_mono _ (λ _, True)); [by repeat case_match|]. intros o _.
  wp_step. apply wp_index; [lia|]. intros sp _. wp_step; [done|].
  wp_step. apply wp_slice; [lia|lia|]. wp_step. eapply wp_mono.
  - apply wp_parse_status. rewrite length_take, length_drop. lia.
  - intros st _. wp_step. apply wp_index; [lia|]. intros e _. by wp_step.
Qed.

Lemma wp_parse_chunk_loop b n : 0 ≤ n → wp (parse_chunk_loop n b) (λ m, 0 ≤ m).
Proof.
  revert n. induction b as [|c b IH]; intros n Hn; cbn [parse_chunk_loop]; [done|].
  repeat wp_step. apply IH. unfold hex_digit, is_digit in *.
  unfold checked_digit, checked_mul, checked_add in *.
  repeat match goal with
    | H : context [if ?b then _ else _] |- _ => destruct b eqn:?; cbn in H; simplify_eq
    end; lia.
Qed.
Lemma wp_parse_chunk_size b : wp (parse_chunk_size b) (λ m, 0 ≤ m).
Proof. unfold parse_chunk_size. wp_step; [done|]. by apply wp_parse_chunk_loop. Qed.

(** ** The invariant *)

(** Between lines nothing is carried over. *)
Definition idle_inv (p : Parser) : Prop := parser_inv p ∧ pending p = [].

Lemma idle_intro p :
  settled p → pending p = [] → match partial_head p with Some h => head_ok h | None => True end → idle_inv p.
Proof.
  intros Hs Hp Hh. split; [|done]. unfold parser_inv. rewrite Hp. split_and!; try done. apply not_elem_of_nil.
Qed.
Lemma idle_inv_state p s : idle_inv p → settled (with_state p s) → idle_inv (with_state p s).
Proof. intros [(Hs & Hn & Hr & Hh) Hp] Hs'. by apply idle_intro. Qed.

Lemma wp_on_head p h :
  head_ok h → idle_inv p → wp (on_head p (response_head h)) (λ r, idle_inv r.1).
Proof.
  intros Hh Hp. unfold on_head. wp_step; [by repeat wp_step|]. set (body := body_read _ _).
  assert (settled (with_state p (SBody body)) ∨ body = Exact 0) as Hb.
  { subst body. unfold body_read. destruct (_ || _); [by right|]. unfold response_head, settled. cbn.
    destruct (te_present h), (te_chunked h); try by left. all: unfold head_ok in Hh.
    all: destruct (content_length h) as [n|]; [|by left]; cbn in Hh.
    all: destruct (decide (n = 0)) as [->|]; [by right|left; lia]. }
  destruct Hp as [(_ & _ & _ & Hph) Hpend]. case_bool_decide; cbn; [by apply idle_intro|].
  destruct Hb as [Hb|]; [by apply idle_intro|done].
Qed.

Lemma wp_on_line p line : idle_inv p → wp (on_line p line) (λ r, idle_inv r.1).
Proof.
  intros Hp. pose proof Hp as [(Hs & _ & _ & Hph) Hpend].
  assert (∀ h, head_ok h → idle_inv (with_partial p (Some h))) as Hpart by (intros; by apply idle_intro).
  unfold on_line. destruct (state p) as [|[n| |n| |]] eqn:Hst; [..|done].
  - destruct (partial_head p) as [h|].
    + wp_step.
      * apply wp_on_head; [done|]. by apply idle_intro.
      * wp_step. eapply wp_mono; [apply wp_read_field; [by apply bool_decide_eq_false in Heqb|done]|].
        intros h' Hh'. by apply Hpart.
    + wp_step. eapply wp_mono; [apply wp_status_line; rewrite length_app; cbn; lia|].
      intros h Hh. by apply Hpart.
  - done.
  - wp_step. eapply wp_mono; [apply wp_parse_chunk_size|]. intros size Hsize. wp_step.
    + by apply idle_inv_state.
    + repeat wp_step. apply idle_inv_state; [done|]. cbn. unfold checked_add in *. case_decide; [|done].
      simplify_eq. lia.
  - done.
  - wp_step; [by apply idle_inv_state|done].
Qed.

Lemma idle_inv_clear p : parser_inv p → idle_inv (with_pending p []).
Proof. intros (Hs & Hn & Hr & Hh). by apply idle_intro. Qed.

Lemma wp_byte_step p b : parser_inv p → wp (byte_step p b) (λ r, parser_inv r.1).
Proof.
  intros Hp. pose proof Hp as (Hs & Hn & Hr & Hh). unfold byte_step.
  assert (reads_lines (state p) = true →
    wp (if b =? 10 then on_line (with_pending p []) (pending p)
        else Ok (with_pending p (pending p ++ [b]), 0%nat)) (λ r, parser_inv r.1)) as Hline.
  { intros Hl. wp_step.
    - eapply wp_mono; [by apply wp_on_line, idle_inv_clear|]. by intros r [? _].
    - unfold parser_inv. cbn. rewrite Hl. split_and!; [done| |done|done]. apply Z.eqb_neq in Heqb0.
      rewrite elem_of_app, list_elem_of_singleton. naive_solver. }
  unfold settled in Hs. destruct (state p) as [|[n| |n| |]] eqn:Hst; try by apply Hline.
  - wp_step; (apply idle_intro; [|by apply Hr|done]); [done|]. cbn. lia.
  - wp_step; [done|]. apply idle_intro; [|by apply Hr|done]. unfold settled. cbn.
    destruct (Z.eqb_spec n 1); [done|lia].
  - done.
Qed.

Lemma wp_byte_steps p l : parser_inv p → wp (byte_steps p l) (λ r, parser_inv r.1).
Proof.
  revert p. induction l as [|b l IH]; intros p Hp; [done|]. cbn [byte_steps]. unfold and_then. wp_step.
  eapply wp_mono; [by apply wp_byte_step|]. intros [p1 n] Hp1. wp_step.
  eapply wp_mono; [by apply IH|]. by intros [p2 m].
Qed.

(** ** Lines of a buffer *)

Lemma split_at (b : Z) l : (b ∉ l) ∨ ∃ pre post, l = pre ++ b :: post ∧ b ∉ pre.
Proof.
  induction l as [|c l IH]; [left; apply not_elem_of_nil|]. destruct (decide (c = b)) as [->|Hc].
  - right. exists [], l. split; [done|apply not_elem_of_nil].
  - destruct IH as [IH|(pre & post & -> & Hpre)]; [left|right].
    + apply not_elem_of_cons. by split.
    + exists (c :: pre), post. split; [done|]. apply not_elem_of_cons. by split.
Qed.

(** The next line of [buf] from [pos] on, as the loops find it. *)
Lemma next_line buf pos :
  (pos ≤ length buf)%nat →
  let rest := drop pos buf in
  slice_from buf pos = Ok rest ∧
  (((10 ∉ rest) ∧ memchr 10 rest = None) ∨
   ∃ line, (10 ∉ line) ∧ memchr 10 rest = Some (length line) ∧
     slice buf pos (pos + length line) = Ok line ∧
     (pos + length line + 1 ≤ length buf)%nat ∧
     rest = line ++ 10 :: drop (pos + length line + 1) buf).
Proof.
  intros Hpos rest. split; [by apply slice_from_le|]. subst rest.
  destruct (split_at 10 (drop pos buf)) as [Hno|(line & post & E & Hline)].
  - left. split; [done|]. by apply memchr_absent.
  - right. exists line. assert (length (drop pos buf) = length line + S (length post))%nat as Hl
      by (rewrite E, length_app; done). rewrite length_drop in Hl. split_and!; [done| | |lia|].
    + rewrite E. by apply memchr_found.
    + rewrite slice_in_range by lia. rewrite E. replace (pos + length line - pos)%nat with (length line) by lia.
      by rewrite take_app_length.
    + rewrite E. do 2 f_equal. rewrite <- Nat.add_assoc, <- drop_drop, E.
      replace (line ++ 10 :: post) with ((line ++ [10]) ++ post) by by rewrite <- app_assoc.
      rewrite drop_app_length'; [done|]. rewrite length_app. done.
Qed.

(** ** [scan_head] and [run] compute the byte machine's steps *)

(** A status line is read from its own bytes and its newline. *)
Lemma status_line_prefix line rest nl :
  (nl < length line)%nat → status_line (line ++ rest) nl = status_line line nl.
Proof.
  intros Hn. unfold status_line. destruct (Nat.ltb_spec nl 12); [done|].
  assert (∀ i, (i ≤ 12)%nat → index (line ++ rest) i = index line i) as Hidx.
  { intros i Hi. unfold index. rewrite lookup_app_l by lia. done. }
  rewrite take_app_le by lia. rewrite !Hidx by lia.
  rewrite !slice_in_range, drop_app_le, take_app_le by (rewrite ?length_app, ?length_drop; lia). done.
Qed.

(** What a scan from [pos] returns, in terms of the steps over the same bytes. *)
Definition scan_post (p : Parser) (buf : bytes) (pos : nat)
    (r : res (nat * option ResponseHead * option Head)) : Prop :=
  match r with
  | Err e => byte_steps p (drop pos buf) = Err e
  | Ok (used, complete, partial) =>
      (pos ≤ used ≤ length buf)%nat ∧
      match complete with
      | None => byte_steps p (drop pos buf) =
                  Ok (with_pending (with_partial p partial) (drop used buf), 0%nat)
      | Some rh => (pos < used)%nat ∧ partial = None ∧ (∃ h, head_ok h ∧ rh = response_head h) ∧
          byte_steps p (drop pos buf) =
            and_then (on_head (with_partial p None) rh) (λ p, byte_steps p (drop used buf))
      end
  end.

Lemma on_line_header p h line :
  state p = SHead → partial_head p = Some h →
  on_line p line =
    if bool_decide (trim_cr line = []) then on_head (with_partial p None) (response_head h)
    else h ← read_field h (trim_cr line); Ok (with_partial p (Some h), 0%nat).
Proof. intros Hs Hh. unfold on_line. by rewrite Hs, Hh. Qed.

Lemma scan_loop_post fuel : ∀ p h buf pos,
  state p = SHead → pending p = [] → partial_head p = Some h → head_ok h →
  (pos ≤ length buf)%nat → (length buf - pos < fuel)%nat →
  scan_post p buf pos (scan_loop fuel buf pos h).
Proof.
  induction fuel as [|fuel IH]; intros p h buf pos Hs Hp Hh Hok Hpos Hf; [lia|]. cbn [scan_loop].
  assert (reads_lines (state p) = true) as Hrl by by rewrite Hs.
  destruct (next_line buf pos Hpos) as [Hsf Hcase]. rewrite Hsf. cbn [mbind result_bind].
  destruct Hcase as [[Hno Hm]|(line & Hline & Hm & Hsl & Hle & E)]; rewrite Hm.
  { split; [lia|]. rewrite steps_line by done. rewrite Hp. do 2 f_equal. destruct p. cbn in *. by subst. }
  rewrite Hsl. cbn [mbind result_bind].
  assert (byte_steps p (drop pos buf) = and_then (on_line p line)
            (λ p, byte_steps p (drop (pos + length line + 1) buf))) as Esteps.
  { rewrite E, steps_newline by done. by rewrite Hp, with_pending_eq. }
  rewrite (on_line_header p h) in Esteps by done. case_bool_decide as Hempty.
  { split; [lia|]. split_and!; [lia|done|by exists h|exact Esteps]. }
  pose proof (wp_read_field h _ Hempty Hok) as Hwp. destruct (read_field h (trim_cr line)) as [h'|e].
  2: { cbn in *. by rewrite Esteps. }
  cbn [mbind result_bind] in *. rewrite and_then_Ok0 in Esteps.
  specialize (IH (with_partial p (Some h')) h' buf (pos + length line + 1)%nat Hs Hp eq_refl Hwp Hle ltac:(lia)).
  unfold scan_post in *. rewrite Esteps. destruct (scan_loop _ _ _ _) as [[[used [rh|]] partial]|]; [| |done].
  - destruct IH as (? & ? & ? & ? & ?). split_and!; (lia || done).
  - destruct IH as [? IH]. split; [lia|]. done.
Qed.

Lemma scan_head_post p buf :
  state p = SHead → idle_inv p → scan_post p buf 0 (scan_head buf (partial_head p)).
Proof.
  intros Hs [(_ & _ & _ & Hh) Hp]. unfold scan_head.
  destruct (partial_head p) as [h|] eqn:Eh; [apply scan_loop_post; (done || lia)|].
  assert (reads_lines (state p) = true) as Hrl by by rewrite Hs.
  destruct (next_line buf 0) as [_ [[Hno Hm]|(line & Hline & Hm & Hsl & Hle & E)]]; [lia| |]; rewrite drop_0 in Hm; rewrite Hm.
  - split; [lia|]. rewrite steps_line by done. rewrite Hp. do 2 f_equal. destruct p. cbn in *. by subst.
  - cbn [Nat.add] in *. rewrite drop_0 in E.
    assert (byte_steps p (drop 0 buf) = and_then (on_line p line)
              (λ p, byte_steps p (drop (length line + 1) buf))) as Esteps.
    { rewrite drop_0. rewrite E at 1. rewrite steps_newline by done. by rewrite Hp, with_pending_eq. }
    unfold on_line in Esteps. rewrite Hs, Eh in Esteps.
    assert (status_line buf (length line) = status_line (line ++ [10]) (length line)) as ->.
    { rewrite E. replace (line ++ 10 :: _) with ((line ++ [10]) ++ drop (length line + 1) buf) by by rewrite <- app_assoc.
      apply status_line_prefix. rewrite length_app. cbn. lia. }
    pose proof (wp_status_line (line ++ [10]) (length line) ltac:(rewrite length_app; cbn; lia)) as Hwp.
    destruct (status_line _ _) as [h|e]; [|cbn in *; by rewrite Esteps].
    cbn [mbind result_bind] in *. rewrite and_then_Ok0 in Esteps.
    pose proof (scan_loop_post (S (length buf)) (with_partial p (Some h)) h buf (length line + 1)
      Hs Hp eq_refl Hwp ltac:(lia) ltac:(lia)) as IH.
    unfold scan_post in *. rewrite Esteps. destruct (scan_loop _ _ _ _) as [[[used [rh|]] partial]|]; [| |done].
    + destruct IH as (? & ? & ? & ? & ?). split_and!; (lia || done).
    + destruct IH as [? IH]. split; [lia|]. done.
Qed.

(** What [run] from [pos] returns: the steps over the same bytes, the line they
    leave unfinished being what is not consumed. *)
Definition run_post (p : Parser) (buf : bytes) (pos done : nat) (r : res (Parser * nat * nat)) : Prop :=
  match r with
  | Err e => byte_steps p (drop pos buf) = Err e
  | Ok (p', used, done') =>
      (used ≤ length buf)%nat ∧ pending p' = [] ∧
      ∃ n, done' = (done + n)%nat ∧ byte_steps p (drop pos buf) = Ok (with_pending p' (drop used buf), n)
  end.

(** One turn of the loop, then the rest of them. *)
Lemma run_post_step p p' buf pos pos' done k r :
  byte_steps p (drop pos buf) = and_then (Ok (p', k)) (λ p, byte_steps p (drop pos' buf)) →
  run_post p' buf pos' (done + k) r → run_post p buf pos done r.
Proof.
  intros E. unfold run_post. rewrite E, and_then_Ok. destruct r as [[[p1 used] d]|e].
  - intros (Hu & Hp & n & -> & ->). split_and!; [done|done|]. exists (k + n)%nat. split; [lia|done].
  - intros ->. done.
Qed.
Lemma run_post_step0 p p' buf pos pos' done r :
  byte_steps p (drop pos buf) = byte_steps p' (drop pos' buf) →
  run_post p' buf pos' done r → run_post p buf pos done r.
Proof.
  intros E Hr. apply (run_post_step _ p' _ _ pos' _ 0); [by rewrite and_then_Ok0|]. by rewrite Nat.add_0_r.
Qed.

(** Stopping at the end of the buffer. *)
Lemma run_post_stop p p' buf pos used done :
  (used ≤ length buf)%nat → pending p' = [] →
  byte_steps p (drop pos buf) = Ok (with_pending p' (drop used buf), 0%nat) →
  run_post p buf pos done (Ok (p', used, done)).
Proof. intros Hu Hp E. split_and!; [done|done|]. exists 0%nat. split; [lia|done]. Qed.

(** [run_loop] on a line state whose line is not finished yet. *)
Lemma run_post_partial p buf pos done :
  reads_lines (state p) = true → pending p = [] → (pos ≤ length buf)%nat → 10 ∉ drop pos buf →
  run_post p buf pos done (Ok (p, pos, done)).
Proof. intros Hr Hp Hpos Hno. apply run_post_stop; [done|done|]. rewrite steps_line by done. by rewrite Hp. Qed.

Lemma steps_next_line p buf pos line :
  reads_lines (state p) = true → pending p = [] → 10 ∉ line →
  drop pos buf = line ++ 10 :: drop (pos + length line + 1) buf →
  byte_steps p (drop pos buf) = and_then (on_line p line) (λ p, byte_steps p (drop (pos + length line + 1) buf)).
Proof. intros Hr Hp Hl ->. rewrite steps_newline by done. by rewrite Hp, with_pending_eq. Qed.

Definition run_ok (fuel : nat) : Prop := ∀ p buf pos done,
  idle_inv p → (pos ≤ length buf)%nat → (2 * (length buf - pos) + 2 ≤ fuel)%nat →
  run_post p buf pos done (run_loop fuel p buf pos done).

Lemma run_head fuel p buf pos done :
  run_ok fuel → run_ok (pred fuel) → state p = SHead → idle_inv p → (pos ≤ length buf)%nat →
  (2 * (length buf - pos) + 1 ≤ fuel)%nat →
  run_post p buf pos done (run_loop (S fuel) p buf pos done).
Proof.
  intros IH IH' Hs Hp Hpos Hf. cbn [run_loop]. rewrite Hs, slice_from_le by done. cbn [mbind result_bind].
  pose proof (scan_head_post p (drop pos buf) Hs Hp) as Hscan. unfold scan_post in Hscan.
  rewrite drop_0, length_drop in Hscan. destruct Hp as [(Hset & _) Hpend].
  destruct (scan_head _ _) as [[[used [r|]] partial]|e]; cbn [mbind result_bind]; [|..|done].
  2: { destruct Hscan as [Hu E]. apply run_post_stop; [lia|done|]. by rewrite drop_drop in E. }
  destruct Hscan as (Hu & Hlt & -> & (h & Hh & ->) & E). rewrite drop_drop in E.
  assert (idle_inv (with_partial p None)) as Hidle by by apply idle_intro.
  pose proof (wp_on_head _ h Hh Hidle) as Hwp. unfold on_head in E, Hwp.
  destruct (status.is_informational _).
  - destruct (_ =? 101); [done|]. rewrite and_then_Ok0 in E.
    apply (run_post_step0 _ (with_partial p None) _ _ (pos + used)); [done|].
    replace (with_state (with_partial p None) SHead) with (with_partial p None)
      by (unfold with_state, with_partial; cbn; by rewrite Hs).
    apply IH; [done|lia|lia].
  - cbn [head_request with_partial] in *. set (body := body_read _ _) in *. case_bool_decide as Hb.
    + destruct fuel as [|fuel]; [lia|]. clearbody body. subst body. cbn [run_loop state Z.eqb].
      eapply run_post_step; [exact E|]. rewrite Nat.add_1_r. apply IH'; [exact Hwp|lia|cbn; lia].
    + rewrite and_then_Ok0 in E. eapply run_post_step0; [exact E|]. apply IH; [exact Hwp|lia|lia].
Qed.

(** The bytes a body takes from the buffer. *)
Lemma drop_taken (buf : bytes) pos n :
  (pos ≤ length buf)%nat → 0 ≤ n →
  let taken := Z.min n (Z.of_nat (length buf - pos)) in
  let body := take (Z.to_nat taken) (drop pos buf) in
  zlen body = taken ∧ (pos + Z.to_nat taken ≤ length buf)%nat ∧
  drop pos buf = body ++ drop (pos + Z.to_nat taken) buf.
Proof.
  intros Hpos Hn taken body. subst body taken. split_and!; [|lia|].
  - unfold zlen. rewrite length_take, length_drop. lia.
  - rewrite <- drop_drop. by rewrite take_drop.
Qed.

Lemma idle_settled p : idle_inv p → settled p.
Proof. by intros [[? _] _]. Qed.
Lemma idle_pending p : idle_inv p → pending p = [].
Proof. by intros [_ ?]. Qed.

Lemma run_exact fuel p buf pos done n :
  run_ok (pred fuel) → state p = SBody (Exact n) → idle_inv p → (pos ≤ length buf)%nat →
  (2 * (length buf - pos) + 1 ≤ fuel)%nat →
  run_post p buf pos done (run_loop (S fuel) p buf pos done).
Proof.
  intros IH Hs Hp Hpos Hf. pose proof (idle_settled p Hp) as Hn. unfold settled in Hn. rewrite Hs in Hn.
  cbn [run_loop]. rewrite Hs, (proj2 (Z.eqb_neq n 0)) by lia.
  destruct (drop_taken buf pos n Hpos) as (Hlen & Hle & E); [lia|].
  set (taken := Z.min n _) in *. set (body := take _ _) in *.
  destruct ((taken =? _) && (taken <? n)) eqn:Hstop.
  - apply andb_prop in Hstop as [Hall%Z.eqb_eq Hlt%Z.ltb_lt]. apply run_post_stop; [done|exact (idle_pending p Hp)|].
    rewrite E, drop_ge, app_nil_r by lia. rewrite (steps_exact p n), Hlen by (done || lia).
    rewrite with_pending_eq; [done|]. exact (idle_pending p Hp).
  - assert (taken = n) as Hn' by (apply andb_false_iff in Hstop as [?%Z.eqb_neq|?%Z.ltb_ge]; lia).
    rewrite Hn' in *. clearbody body taken. rewrite Z.sub_diag. destruct fuel as [|fuel]; [lia|]. cbn [run_loop state with_state Z.eqb].
    eapply (run_post_step _ (with_state p SHead) _ _ (pos + Z.to_nat n) _ 1).
    + rewrite E at 1. by rewrite byte_steps_app, (steps_exact_all p n).
    + rewrite Nat.add_1_r. apply IH; [|lia|cbn; lia]. by apply (idle_inv_state p SHead).
Qed.

Lemma slice_suffix buf pos k len :
  (pos + k ≤ length buf)%nat → (len ≤ k)%nat →
  slice buf (pos + k - len) (pos + k) = Ok (drop (k - len) (take k (drop pos buf))).
Proof.
  intros Hk Hl. rewrite slice_in_range by lia. f_equal. rewrite skipn_firstn_comm, drop_drop.
  replace (pos + k - (pos + k - len))%nat with (k - (k - len))%nat by lia.
  by replace (pos + k - len)%nat with (pos + (k - len))%nat by lia.
Qed.

Lemma run_chunk fuel p buf pos done n :
  run_ok fuel → state p = SBody (Chunk n) → idle_inv p → (pos ≤ length buf)%nat →
  (2 * (length buf - pos) + 1 ≤ fuel)%nat →
  run_post p buf pos done (run_loop (S fuel) p buf pos done).
Proof.
  intros IH Hs Hp Hpos Hf. pose proof (idle_settled p Hp) as Hn. unfold settled in Hn. rewrite Hs in Hn.
  cbn [run_loop]. rewrite Hs. destruct (drop_taken buf pos n Hpos) as (Hlen & Hle & E); [lia|].
  set (taken := Z.min n _) in *. set (body := take _ _) in *.
  assert (length body = Z.to_nat taken) as Hlen' by (unfold zlen in Hlen; lia).
  destruct ((n - taken <? 2) && negb (taken =? 0)) eqn:Hterm.
  - apply andb_prop in Hterm as [Hleft%Z.ltb_lt Hpos'%negb_true_iff%Z.eqb_neq].
    set (end' := Z.to_nat (2 - (n - taken))). set (len := Z.to_nat (Z.min taken (Z.of_nat end'))).
    rewrite slice_suffix by lia. cbn [mbind result_bind].
    rewrite slice_in_range by (cbn; lia). cbn [mbind result_bind]. fold body.
    replace (end' - (end' - len))%nat with len by lia.
    assert (body ≠ []) as Hne by (intros ->; cbn in Hlen'; lia).
    pose proof (steps_chunk_end p n body Hs Hne ltac:(lia)) as Est. cbv zeta in Est.
    rewrite Hlen, Hlen' in Est. fold end' in Est. fold len in Est.
    destruct (bytes_eqb _ _); cbn [negb].
    2: { unfold run_post, bail. rewrite E, byte_steps_app, Est. done. }
    destruct (Z.ltb_spec taken n).
    + rewrite (proj2 (Z.eqb_neq (n - taken) 0)) in Est by lia.
      apply run_post_stop; [done|exact (idle_pending p Hp)|].
      rewrite E, drop_ge, app_nil_r by lia. rewrite Est. rewrite with_pending_eq; [done|exact (idle_pending p Hp)].
    + rewrite (proj2 (Z.eqb_eq (n - taken) 0)) in Est by lia.
      eapply (run_post_step0 _ (with_state p (SBody ChunkSize)) _ _ (pos + Z.to_nat taken)).
      * rewrite E at 1. by rewrite byte_steps_app, Est, and_then_Ok0.
      * apply IH; [by apply idle_inv_state|lia|lia].
  - cbn [mbind result_bind negb]. rewrite (proj2 (Z.ltb_lt taken n)).
    + apply run_post_stop; [done|exact (idle_pending p Hp)|].
      assert (taken + 2 ≤ n ∨ taken = 0 ∧ body = []) as Hcase.
      { apply andb_false_iff in Hterm as [?%Z.ltb_ge|?%negb_false_iff%Z.eqb_eq]; [left; lia|right].
        split; [done|]. apply nil_length_inv. lia. }
      rewrite E, drop_ge, app_nil_r by lia. rewrite with_pending_eq by exact (idle_pending p Hp).
      destruct Hcase as [Hc|[Hc Hb]]; [rewrite (steps_chunk p n), Hlen by (done || lia); done|].
      rewrite Hb, Hc, Z.sub_0_r, <- Hs. by destruct p.
    + apply andb_false_iff in Hterm as [?%Z.ltb_ge|?%negb_false_iff%Z.eqb_eq]; lia.
Qed.

Lemma run_lines fuel p buf pos done :
  run_ok fuel → (state p = SBody ChunkSize ∨ state p = SBody Trailers) → idle_inv p → (pos ≤ length buf)%nat →
  (2 * (length buf - pos) + 1 ≤ fuel)%nat →
  run_post p buf pos done (run_loop (S fuel) p buf pos done).
Proof.
  intros IH Hs Hp Hpos Hf. pose proof (idle_pending p Hp) as Hpend.
  assert (reads_lines (state p) = true) as Hr by (destruct Hs as [-> | ->]; done).
  destruct (next_line buf pos Hpos) as [Hsf [[Hno Hm]|(line & Hline & Hm & Hsl & Hle & E)]].
  { cbn [run_loop]. destruct Hs as [Hs|Hs]; rewrite Hs, Hsf; cbn [mbind result_bind]; rewrite Hm;
      by apply run_post_partial. }
  pose proof (steps_next_line p buf pos line Hr Hpend Hline E) as Est. pose proof (wp_on_line p line Hp) as Hwp.
  unfold on_line in Est, Hwp. cbn [run_loop].
  destruct Hs as [Hs|Hs]; rewrite Hs in *; rewrite Hsf; cbn [mbind result_bind]; rewrite Hm, Hsl; cbn [mbind result_bind].
  - destruct (parse_chunk_size _) as [size|]; cbn [mbind result_bind] in *; [|exact Est].
    destruct (size =? 0); cbn [mbind result_bind] in *.
    + rewrite and_then_Ok0 in Est. eapply run_post_step0; [exact Est|]. apply IH; [exact Hwp|lia|lia].
    + destruct (checked_add size 2) as [want|]; cbn [mbind result_bind ok_or] in *; [|exact Est].
      rewrite and_then_Ok0 in Est. eapply run_post_step0; [exact Est|]. apply IH; [exact Hwp|lia|lia].
  - case_bool_decide.
    + eapply run_post_step; [exact Est|]. rewrite (Nat.add_1_r done). apply IH; [exact Hwp|lia|lia].
    + rewrite and_then_Ok0 in Est. eapply run_post_step0; [exact Est|]. apply IH; [exact Hwp|lia|lia].
Qed.

Lemma run_loop_ok fuel : run_ok fuel.
Proof.
  induction fuel as [fuel IH] using lt_wf_ind. intros p buf pos done Hp Hpos Hf. destruct fuel as [|fuel]; [lia|].
  destruct (state p) as [|[n| |n| |]] eqn:Hs.
  - apply run_head; (done || lia || apply IH; lia).
  - eapply run_exact; (done || lia || apply IH; lia).
  - apply run_lines; [apply IH; lia|by left|done|done|lia].
  - eapply run_chunk; (done || lia || apply IH; lia).
  - apply run_lines; [apply IH; lia|by right|done|done|lia].
  - cbn [run_loop]. rewrite Hs. apply run_post_stop; [done|exact (idle_pending p Hp)|].
    rewrite drop_all. rewrite steps_eof, with_pending_eq; [done|exact (idle_pending p Hp)|done].
Qed.

Lemma run_steps p buf :
  idle_inv p → run_post p buf 0 0 (run p buf).
Proof. intros Hp. apply run_loop_ok; [done|lia|lia]. Qed.

(** A carried-over line and its newline are consumed whole. *)
Lemma run_line p line :
  parser_inv p → reads_lines (state p) = true → 10 ∉ line →
  run (with_pending p []) (pending p ++ line ++ [10]) =
    ('(p', n) ← on_line (with_pending p []) (pending p ++ line);
     Ok (p', length (pending p ++ line ++ [10]), n)).
Proof.
  intros Hp Hl Hline. pose proof Hp as (_ & Hno & _ & _).
  assert (byte_steps (with_pending p []) (pending p ++ line ++ [10]) =
          on_line (with_pending p []) (pending p ++ line)) as Eline.
  { rewrite app_assoc, steps_newline; [|done|rewrite elem_of_app; naive_solver].
    unfold and_then. cbn. destruct (on_line _ _) as [[? ?]|]; cbn; [by rewrite Nat.add_0_r|done]. }
  pose proof (run_steps _ (pending p ++ line ++ [10]) (idle_inv_clear p Hp)) as Hrun.
  pose proof (wp_on_line _ (pending p ++ line) (idle_inv_clear p Hp)) as Hwp.
  unfold run_post in Hrun. rewrite drop_0, Eline in Hrun.
  destruct (run _ _) as [[[p1 used] d]|e]; [|by rewrite Hrun].
  destruct Hrun as (Hu & Hp1 & n & -> & Eon). rewrite Eon in Hwp |- *. cbn [mbind result_bind].
  pose proof (idle_pending _ Hwp) as Hdrop. cbn in Hdrop. rewrite Hdrop, with_pending_eq by done.
  apply (f_equal length) in Hdrop. rewrite length_drop in Hdrop. cbn in Hdrop. do 2 f_equal. f_equal. lia.
Qed.

Lemma feed_steps p data : parser_inv p → feed p data = byte_steps p data.
Proof.
  intros Hp. unfold feed. case_bool_decide as Hpend.
  - pose proof (run_steps p data (conj Hp Hpend)) as Hrun. unfold run_post in Hrun. rewrite drop_0 in Hrun.
    destruct (run p data) as [[[p' used] d]|e]; cbn [mbind result_bind]; [|done].
    destruct Hrun as (Hu & Hp' & n & -> & ->). destruct (Nat.ltb_spec used (length data)).
    + rewrite slice_from_le by done. cbn. by rewrite Hp'.
    + rewrite drop_ge by lia. by rewrite with_pending_eq.
  - pose proof Hp as (_ & _ & Hr & _). destruct (reads_lines (state p)) eqn:Hl; [|by rewrite Hr in Hpend].
    destruct (next_line data 0) as [_ [[Hnl Hm]|(line & Hline & Hm & Hsl & Hle & E)]]; [lia| |];
      rewrite drop_0 in *; rewrite Hm; [by rewrite steps_line|]. cbn [Nat.add] in *.
    assert (slice data 0 (length line + 1) = Ok (line ++ [10])) as ->.
    { rewrite slice_in_range by lia. rewrite drop_0, Nat.sub_0_r. f_equal. rewrite E.
      rewrite (cons_middle 10), app_assoc, take_app_length'; [done|]. rewrite length_app. done. }
    cbn [mbind result_bind]. rewrite run_line by done.
    assert (byte_steps p data = and_then (on_line (with_pending p []) (pending p ++ line))
      (λ p, byte_steps p (drop (length line + 1) data))) as -> by (rewrite E at 1; by apply steps_newline).
    pose proof (wp_on_line _ (pending p ++ line) (idle_inv_clear p Hp)) as Hwp.
    destruct (on_line _ _) as [[p1 n]|e]; cbn [mbind result_bind]; [|done]. cbn [wp fst] in Hwp.
    rewrite Nat.eqb_refl, and_then_Ok. cbn [negb]. rewrite slice_from_le by done. cbn [mbind result_bind].
    rewrite with_pending_eq by by apply idle_pending.
    pose proof (run_steps p1 (drop (length line + 1) data) Hwp) as Hrun. unfold run_post in Hrun. rewrite drop_0 in Hrun.
    destruct (run _ _) as [[[p2 used] m]|e]; cbn [mbind result_bind]; [|by rewrite Hrun].
    destruct Hrun as (Hu2 & Hp2 & k & -> & ->). rewrite length_drop in Hu2.
    rewrite slice_from_le by lia. cbn. by rewrite Hp2, drop_drop.
Qed.

Lemma feeds_steps p pieces : parser_inv p → feeds p pieces = byte_steps p (concat pieces).
Proof.
  revert p. induction pieces as [|d pieces IH]; intros p Hp; cbn [feeds concat]; [done|].
  rewrite feed_steps, byte_steps_app by done. apply and_then_ext. intros p' n E. apply IH.
  exact (wp_elim _ _ _ (wp_byte_steps p d Hp) E).
Qed.

(** C22: The scanner is the byte machine: on any carried-over state and any
    received bytes, [feed] returns exactly what feeding them one at a time to
    the specification does, the same error included; it never panics, never
    runs out of fuel, and leaves the parser in a state it can continue from. *)
Theorem feed_refines_bytes p data :
  parser_inv p →
  feed p data = byte_steps p data ∧ no_panic (feed p data) ∧
  ∀ p' n, feed p data = Ok (p', n) → parser_inv p'.
Proof.
  intros Hp. pose proof (wp_byte_steps p data Hp) as Hwp. rewrite (feed_steps p data Hp).
  split_and!; [done|by eapply wp_no_panic|]. intros p' n E. exact (wp_elim _ _ _ Hwp E).
Qed.

(** How the bytes are split into receives does not matter: any sequence of
    pieces completes as many responses, and leaves the same parser (or the same
    error), as their concatenation received at once. *)
Theorem feed_chunking p pieces :
  parser_inv p → feeds p pieces = feed p (concat pieces).
Proof.
  intros Hp. by rewrite feeds_steps, feed_steps.
Qed.
End steps.

(** ** Responses as a server writes them *)

Definition value (base : Z) (ds : list Z) : Z := foldl (λ n d, n * base + d) 0 ds.

(** A body with its length in decimal, or chunks each with its size in
    hexadecimal. *)
Inductive framing : Type :=
| Fixed (len body : bytes)
| Chunked (chunks : list (bytes * bytes)).

Record response := mkResponse { code : bytes; reason : bytes; fields : list bytes; body_of : framing }.

Definition crlf (line : bytes) : bytes := line ++ [13; 10].

Definition render_body (f : framing) : bytes :=
  match f with
  | Fixed len body => crlf (bstr "Content-Length: " ++ len) ++ crlf [] ++ body
  | Chunked chunks =>
      crlf (bstr "Transfer-Encoding: chunked") ++ crlf [] ++
      concat ((λ '(size, data), crlf size ++ crlf data) <$> chunks) ++ crlf [48] ++ crlf []
  end.

Definition render (r : response) : bytes :=
  crlf (bstr "HTTP/1.1 " ++ code r ++ 32 :: reason r) ++ concat (crlf <$> fields r) ++ render_body (body_of r).

Definition code_value (c : bytes) : Z := value 10 ((λ d, d - 48) <$> c).

(** A decimal or hexadecimal numeral of the given value. *)
Definition numeral (digit : Z → option Z) (base : Z) (s : bytes) (n : Z) : Prop :=
  s ≠ [] ∧ n < 2 ^ 64 - 2 ∧ ∃ ds, Forall2 (λ c d, digit c = Some d) s ds ∧ value base ds = n.
Definition dec_digit (c : Z) : option Z := if is_digit c then Some (c - 48) else None.

(** A field that has nothing to do with framing or the connection. *)
Definition other_field (line : bytes) : Prop :=
  10 ∉ line ∧ match line with c :: _ => Z.lor c 0x20 ≠ 99 ∧ Z.lor c 0x20 ≠ 116 | [] => False end.

Definition response_ok (r : response) : Prop :=
  length (code r) = 3%nat ∧ Forall (λ c, is_digit c = true) (code r) ∧ 200 ≤ code_value (code r) ∧
  10 ∉ reason r ∧ Forall other_field (fields r) ∧
  match body_of r with
  | Fixed len body =>
      numeral dec_digit 10 len (zlen body) ∧ (no_body_status (code_value (code r)) = true → body = [])
  | Chunked chunks =>
      Forall (λ '(size, data), numeral hex_digit 16 size (zlen data) ∧ data ≠ []) chunks ∧
      no_body_status (code_value (code r)) = false
  end.

(** The parser between responses. *)
Definition idle (status : Z) : Parser := mkParser [] SHead None status true false.

(** *** Numerals *)

Lemma checked_digit_small base n d :
  0 ≤ n → 0 ≤ d → 0 < base → n * base + d < 2 ^ 64 → checked_digit base n d = Some (n * base + d).
Proof.
  intros. unfold checked_digit, checked_mul, checked_add. rewrite decide_True by lia. cbn.
  by rewrite decide_True by lia.
Qed.

Lemma foldl_value_le base ds n :
  0 ≤ n → 1 ≤ base → Forall (λ d, 0 ≤ d) ds → n ≤ foldl (λ n d, n * base + d) n ds.
Proof.
  intros Hn Hb Hds. revert n Hn. induction Hds as [|d ds Hd Hds IH]; intros n Hn; cbn; [lia|].
  specialize (IH (n * base + d) ltac:(nia)). nia.
Qed.

Lemma hex_digit_range c d : hex_digit c = Some d → 0 ≤ d ∧ is_ows c = false ∧ c ≠ 59 ∧ c ≠ 10.
Proof.
  unfold hex_digit, is_digit, is_ows. intros Hc.
  repeat match goal with
    | H : context [if ?b then _ else _] |- _ => destruct b eqn:?; cbn in H; simplify_eq
    end; lia.
Qed.
Lemma dec_digit_range c d :
  dec_digit c = Some d → 0 ≤ d ∧ is_ows c = false ∧ c ≠ 10 ∧ is_digit c = true ∧ d = c - 48.
Proof. unfold dec_digit, is_ows. destruct (is_digit c) eqn:E; [|done]. unfold is_digit in *. intros [= <-]. lia. Qed.

Lemma parse_chunk_loop_value s ds n :
  Forall2 (λ c d, hex_digit c = Some d) s ds → 0 ≤ n → foldl (λ n d, n * 16 + d) n ds < 2 ^ 64 →
  parse_chunk_loop n s = Ok (foldl (λ n d, n * 16 + d) n ds).
Proof.
  intros Hs. revert n. induction Hs as [|c d s ds Hc Hs IH]; intros n Hn Hb; cbn in *; [done|].
  rewrite Hc. cbn. apply hex_digit_range in Hc as (Hd & _). pose proof (foldl_value_le 16 ds (n * 16 + d)) as Hle.
  rewrite checked_digit_small; [cbn; apply IH; lia|lia|lia|lia|].
  eapply Z.le_lt_trans; [apply Hle; [lia|lia|]|done].
  eapply Forall2_Forall_r; [exact Hs|]. apply Forall_true. intros x y Hx. by apply hex_digit_range in Hx as [? _].
Qed.
Lemma parse_u64_loop_value s ds n :
  Forall2 (λ c d, dec_digit c = Some d) s ds → 0 ≤ n → foldl (λ n d, n * 10 + d) n ds < 2 ^ 64 →
  parse_u64_loop n s = Ok (foldl (λ n d, n * 10 + d) n ds).
Proof.
  intros Hs. revert n. induction Hs as [|c d s ds Hc Hs IH]; intros n Hn Hb; cbn in *; [done|].
  apply dec_digit_range in Hc as (Hd & _ & _ & Hdig & ->). rewrite Hdig. cbn [negb].
  pose proof (foldl_value_le 10 ds (n * 10 + (c - 48))) as Hle.
  rewrite checked_digit_small; [cbn; apply IH; lia|lia|lia|lia|].
  eapply Z.le_lt_trans; [apply Hle; [lia|lia|]|done].
  eapply Forall2_Forall_r; [exact Hs|]. apply Forall_true. intros x y Hx. by apply dec_digit_range in Hx as [? _].
Qed.

Lemma trim_front_plain s : Forall (λ c, is_ows c = false) s → trim_front s = s.
Proof. destruct 1 as [|c s Hc _]; [done|]. cbn. by rewrite Hc. Qed.
Lemma trim_ows_plain s : Forall (λ c, is_ows c = false) s → trim_ows s = s.
Proof.
  intros Hs. unfold trim_ows. rewrite (trim_front_plain s) by done. rewrite trim_front_plain.
  - apply reverse_involutive.
  - by apply Forall_reverse.
Qed.
Lemma trim_cr_line line : trim_cr (line ++ [13]) = line.
Proof.
  unfold trim_cr. rewrite last_snoc. cbn. rewrite length_app, Nat.add_sub. by rewrite take_app_length.
Qed.

Lemma numeral_chars digit base s n (P : Z → Prop) :
  numeral digit base s n → (∀ c d, digit c = Some d → P c) → Forall P s.
Proof.
  intros (_ & _ & ds & Hs & _) HP. eapply Forall2_Forall_l; [exact Hs|]. apply Forall_true. intros d c. apply HP.
Qed.

Lemma not_in_crlf line : 10 ∉ line → 10 ∉ line ++ [13].
Proof. rewrite elem_of_app, list_elem_of_singleton. intros Hl [?|?]; [done|lia]. Qed.

Section rendered.
Context `{MemchrLaws}.

(** One rendered line. *)
Lemma steps_crlf p line rest :
  reads_lines (state p) = true → pending p = [] → 10 ∉ line →
  byte_steps p (crlf line ++ rest) = and_then (on_line p (line ++ [13])) (λ p, byte_steps p rest).
Proof.
  intros Hr Hp Hl. unfold crlf. rewrite <- app_assoc.
  replace (line ++ [13; 10] ++ rest) with ((line ++ [13]) ++ 10 :: rest) by (rewrite <- app_assoc; done).
  rewrite steps_newline by (done || by apply not_in_crlf). by rewrite Hp, with_pending_eq.
Qed.

Lemma status_line_ok x y z t nl :
  is_digit x = true → is_digit y = true → is_digit z = true → (12 ≤ nl)%nat →
  status_line (bstr "HTTP/1.1 " ++ [x; y; z] ++ 32 :: t) nl =
    Ok (mkHead None (code_value [x; y; z]) false false false false false).
Proof.
  intros Hx Hy Hz Hnl. unfold status_line. rewrite (proj2 (Nat.ltb_ge _ _)) by lia.
  set (buf := bstr "HTTP/1.1 " ++ [x; y; z] ++ 32 :: t).
  change (take 7 buf) with (bstr "HTTP/1."). change (index buf 7) with (@Ok error Z 49).
  change (index buf 8) with (@Ok error Z 32). change (index buf 12) with (@Ok error Z 32).
  assert (slice buf 9 12 = Ok [x; y; z]) as -> by exact (slice_app (bstr "HTTP/1.1 ") [x; y; z] (32 :: t)).
  unfold bytes_eqb. rewrite bool_decide_true by done. cbn [negb orb mbind result_bind Z.eqb Pos.eqb].
  unfold parse_status. cbn [index lookup list_lookup mbind result_bind].
  change (index [x; y; z] 0) with (@Ok error Z x). change (index [x; y; z] 1) with (@Ok error Z y).
  change (index [x; y; z] 2) with (@Ok error Z z). cbn [mbind result_bind]. rewrite Hx, Hy, Hz.
  cbn [negb orb mbind result_bind]. do 2 f_equal. unfold code_value, value. cbn. lia.
Qed.

Lemma steps_status_line st c reason rest :
  length c = 3%nat → Forall (λ c, is_digit c = true) c → 10 ∉ reason →
  byte_steps (idle st) (crlf (bstr "HTTP/1.1 " ++ c ++ 32 :: reason) ++ rest) =
  byte_steps (with_partial (idle st) (Some (mkHead None (code_value c) false false false false false))) rest.
Proof.
  intros Hlen Hd Hr. destruct c as [|x [|y [|z [|]]]]; try done.
  apply Forall_cons in Hd as [Hx Hd]. apply Forall_cons in Hd as [Hy Hd]. apply Forall_cons in Hd as [Hz _].
  assert (∀ c, is_digit c = true → c ≠ 10) as Hne by (unfold is_digit; intros; lia).
  rewrite steps_crlf; [|done|done|].
  - unfold on_line. cbn [state idle partial_head]. rewrite <- !app_assoc. cbn [app].
    rewrite (status_line_ok x y z (reason ++ [13; 10])); [|done|done|done|cbn; lia]. cbn [mbind result_bind]. by rewrite and_then_Ok0.
  - cbn. rewrite !not_elem_of_cons. split_and!; try lia; try done; apply not_eq_sym; by apply Hne.
Qed.

Lemma steps_header p h line rest h' :
  state p = SHead → pending p = [] → partial_head p = Some h → 10 ∉ line → line ≠ [] →
  read_field h line = Ok h' →
  byte_steps p (crlf line ++ rest) = byte_steps (with_partial p (Some h')) rest.
Proof.
  intros Hs Hp Hh Hl Hne Hrd. rewrite steps_crlf by (done || by rewrite Hs).
  rewrite (on_line_header p h), trim_cr_line, bool_decide_false by done. rewrite Hrd. cbn [mbind result_bind]. by rewrite and_then_Ok0.
Qed.

Lemma read_other_field h line : other_field line → read_field h line = Ok h.
Proof.
  intros [_ Hc]. destruct line as [|c line]; [done|]. destruct Hc as [Hc Ht]. unfold read_field. cbn [index lookup].
  change (index (c :: line) 0) with (@Ok error Z c). cbn [mbind result_bind].
  rewrite (proj2 (Z.eqb_neq _ _) Hc), (proj2 (Z.eqb_neq _ _) Ht). done.
Qed.

Lemma steps_fields p h ls rest :
  state p = SHead → pending p = [] → partial_head p = Some h → Forall other_field ls →
  byte_steps p (concat (crlf <$> ls) ++ rest) = byte_steps p rest.
Proof.
  intros Hs Hp Hh Hls. induction Hls as [|l ls Hl Hls IH]; [done|]. cbn [fmap list_fmap concat].
  rewrite <- app_assoc, (steps_header p h l _ h); [|done|done|done|apply Hl| |by apply read_other_field].
  - replace (with_partial p (Some h)) with p by (destruct p; cbn in *; by subst). exact IH.
  - intros ->. by destruct Hl.
Qed.

Lemma read_content_length h len n :
  content_length h = None → numeral dec_digit 10 len n →
  read_field h (bstr "Content-Length: " ++ len) =
    Ok (mkHead (Some n) (h_status h) (http_1_0 h) (te_present h) (te_chunked h) (close h) (keep_alive_token h)).
Proof.
  intros Hh Hn. assert (trim_ows (32 :: len) = len) as Htrim.
  { unfold trim_ows. cbn. apply (trim_ows_plain len). eapply numeral_chars; [exact Hn|].
    by intros c d (_ & ? & _)%dec_digit_range. }
  destruct Hn as (Hne & Hb & ds & Hds & Hv). unfold read_field.
  change (index (bstr "Content-Length: " ++ len) 0) with (@Ok error Z 67). cbn [mbind result_bind].
  replace (ci_prefix _ (bstr "content-length:")) with true by reflexivity. cbn [Z.lor Z.eqb Pos.lor Pos.eqb andb].
  replace (slice_from (bstr "Content-Length: " ++ len) 15) with (@Ok error bytes (32 :: len))
    by (symmetry; apply (slice_from_app (bstr "Content-Length:") (32 :: len))).
  cbn [mbind result_bind]. rewrite Htrim. unfold parse_u64. rewrite bool_decide_false by done.
  rewrite (parse_u64_loop_value len ds 0); [|done|lia|unfold value in Hv; lia]. cbn. by rewrite Hh; unfold value in Hv; rewrite Hv.
Qed.

Lemma read_chunked h :
  read_field h (bstr "Transfer-Encoding: chunked") =
    Ok (mkHead (content_length h) (h_status h) (http_1_0 h) true true (close h) (keep_alive_token h)).
Proof. done. Qed.

Lemma steps_chunk_line p size n rest :
  state p = SBody ChunkSize → pending p = [] → numeral hex_digit 16 size n → 0 ≤ n →
  byte_steps p (crlf size ++ rest) =
    byte_steps (with_state p (SBody (if n =? 0 then Trailers else Chunk (n + 2)))) rest.
Proof.
  intros Hs Hp Hn Hpos. assert (10 ∉ size) as H10.
  { intros Hin. assert (Forall (λ c, c ≠ 10) size) as Hall
      by (eapply numeral_chars; [exact Hn|]; by intros c d (_ & _ & _ & ?)%hex_digit_range).
    rewrite Forall_forall in Hall. by apply (Hall 10). }
  assert (59 ∉ size) as H59.
  { intros Hin. assert (Forall (λ c, c ≠ 59) size) as Hall
      by (eapply numeral_chars; [exact Hn|]; by intros c d (_ & _ & ? & _)%hex_digit_range).
    rewrite Forall_forall in Hall. by apply (Hall 59). }
  rewrite steps_crlf by (done || by rewrite Hs). unfold on_line. rewrite Hs, trim_cr_line.
  unfold parse_chunk_size. rewrite memchr_absent by done. rewrite trim_ows_plain
    by (eapply numeral_chars; [exact Hn|]; by intros c d (_ & ? & _)%hex_digit_range).
  destruct Hn as (Hne & Hb & ds & Hds & Hv). rewrite bool_decide_false by done. unfold value in Hv.
  rewrite (parse_chunk_loop_value size ds 0); [|done|lia|lia]. cbn [mbind result_bind]. rewrite Hv.
  destruct (n =? 0); [by rewrite and_then_Ok0|]. unfold checked_add. rewrite decide_True by lia.
  cbn [ok_or mbind result_bind]. by rewrite and_then_Ok0.
Qed.

Lemma steps_chunk_data p data rest :
  state p = SBody (Chunk (zlen data + 2)) →
  byte_steps p (crlf data ++ rest) = byte_steps (with_state p (SBody ChunkSize)) rest.
Proof.
  intros Hs. unfold crlf. rewrite <- app_assoc, byte_steps_app, (steps_chunk p (zlen data + 2)) by (done || lia).
  rewrite and_then_Ok0. replace (zlen data + 2 - zlen data) with 2 by lia.
  cbn [app byte_steps].
  change (byte_step (with_state p (SBody (Chunk 2))) 13) with (@Ok error _ (with_state p (SBody (Chunk 1)), 0%nat)).
  rewrite and_then_Ok0.
  change (byte_step (with_state p (SBody (Chunk 1))) 10) with (@Ok error _ (with_state p (SBody ChunkSize), 0%nat)).
  by rewrite and_then_Ok0.
Qed.

Lemma steps_chunks p chunks rest :
  state p = SBody ChunkSize → pending p = [] →
  Forall (λ '(size, data), numeral hex_digit 16 size (zlen data) ∧ data ≠ []) chunks →
  byte_steps p (concat ((λ '(size, data), crlf size ++ crlf data) <$> chunks) ++ rest) = byte_steps p rest.
Proof.
  intros Hs Hp Hch. induction Hch as [|[size data] chunks [Hsize Hdata] Hch IH]; [done|].
  cbn [fmap list_fmap concat]. rewrite <- !app_assoc.
  rewrite (steps_chunk_line p size (zlen data)) by (done || apply zlen_nonneg).
  rewrite (proj2 (Z.eqb_neq (zlen data) 0)) by (destruct data; [done|llia]).
  rewrite steps_chunk_data by done.
  replace (with_state _ (SBody ChunkSize)) with p by (destruct p; cbn in *; by subst). exact IH.
Qed.

(** The empty line that ends a head. *)
Lemma steps_end_of_head p h rest :
  state p = SHead → pending p = [] → partial_head p = Some h →
  byte_steps p (crlf [] ++ rest) = and_then (on_head (with_partial p None) (response_head h)) (λ p, byte_steps p rest).
Proof.
  intros Hs Hp Hh. rewrite steps_crlf; [|by rewrite Hs|done|apply not_elem_of_nil].
  by rewrite (on_line_header p h), trim_cr_line, bool_decide_true by done.
Qed.

Lemma steps_fixed st c len body rest :
  200 ≤ c → numeral dec_digit 10 len (zlen body) → (no_body_status c = true → body = []) →
  byte_steps (with_partial (idle st) (Some (mkHead None c false false false false false)))
    (render_body (Fixed len body) ++ rest) = and_then (Ok (idle c, 1%nat)) (λ p, byte_steps p rest).
Proof.
  intros Hc Hlen Hnb. cbn [render_body]. rewrite <- !app_assoc.
  erewrite steps_header; [|done|done|done| |done|by apply read_content_length].
  2: { rewrite elem_of_app. intros [Hin|Hin]; [by rewrite list_elem_of_In in Hin; cbn in Hin; lia|].
       assert (Forall (λ c, c ≠ 10) len) as Hall
         by (eapply numeral_chars; [exact Hlen|]; by intros ?? (_ & _ & ? & _)%dec_digit_range).
       rewrite Forall_forall in Hall. by apply (Hall 10). }
  erewrite steps_end_of_head; [|done..]. unfold on_head, status.is_informational, body_read. cbn -[no_body_status].
  rewrite (proj2 (Z.ltb_ge c 200)) by lia. rewrite andb_false_r. destruct (no_body_status c).
  - rewrite Hnb by done. done.
  - case_bool_decide as Hz.
    + assert (body = []) as -> by (injection Hz as Hz; apply nil_length_inv; unfold zlen in Hz; lia). done.
    + rewrite and_then_Ok0, byte_steps_app, (steps_exact_all _ (zlen body)); [done|done| |done].
      pose proof (zlen_nonneg body). assert (zlen body ≠ 0) by congruence. lia.
Qed.

Lemma steps_chunked st c chunks rest :
  200 ≤ c → Forall (λ '(size, data), numeral hex_digit 16 size (zlen data) ∧ data ≠ []) chunks →
  no_body_status c = false →
  byte_steps (with_partial (idle st) (Some (mkHead None c false false false false false)))
    (render_body (Chunked chunks) ++ rest) = and_then (Ok (idle c, 1%nat)) (λ p, byte_steps p rest).
Proof.
  intros Hc Hch Hnb. cbn [render_body]. rewrite <- !app_assoc.
  erewrite steps_header; [|done|done|done| |done|apply read_chunked].
  2: { rewrite list_elem_of_In. cbn. lia. }
  erewrite steps_end_of_head; [|done..]. unfold on_head, status.is_informational, body_read. cbn -[no_body_status crlf byte_steps and_then].
  rewrite (proj2 (Z.ltb_ge c 200)) by lia. rewrite andb_false_r, Hnb. cbn -[crlf byte_steps and_then].
  rewrite bool_decide_false, and_then_Ok0, steps_chunks by done. rewrite (steps_chunk_line _ [48] 0); [|done|done| |lia].
  2: { split_and!; [done|lia|]. exists [0]. split; [by repeat constructor|done]. }
  cbn [Z.eqb]. rewrite steps_crlf; [done|done|done|apply not_elem_of_nil].
Qed.

Lemma steps_response st r rest :
  response_ok r →
  byte_steps (idle st) (render r ++ rest) = and_then (Ok (idle (code_value (code r)), 1%nat)) (λ p, byte_steps p rest).
Proof.
  intros (Hlen & Hd & Hc & Hr & Hf & Hb). unfold render. rewrite <- !app_assoc. rewrite steps_status_line by done.
  erewrite steps_fields; [|done..]. destruct (body_of r) as [len body|chunks].
  - destruct Hb. by apply steps_fixed.
  - destruct Hb. by apply steps_chunked.
Qed.

(** Pipelined responses are counted exactly: a stream of well-formed
    responses, with decimal lengths or chunked, received in any pieces,
    completes precisely as many responses as were sent and leaves the parser
    between messages, with the last one's status, on a reusable connection. *)
Theorem responses_counted st rs pieces :
  Forall response_ok rs → concat pieces = concat (render <$> rs) →
  feeds (idle st) pieces = Ok (idle (default st (code_value ∘ code <$> last rs)), length rs).
Proof.
  intros Hrs E. assert (∀ st, parser_inv (idle st)) as Hidle.
  { intros st'. unfold parser_inv. split_and!; try done. apply not_elem_of_nil. }
  rewrite feeds_steps, E by done. clear E pieces. revert st. induction Hrs as [|r rs Hr Hrs IH]; intros st; [done|].
  cbn [fmap list_fmap concat]. rewrite steps_response, and_then_Ok, IH by done. cbn [mbind result_bind length].
  do 3 f_equal. rewrite last_cons. by destruct (last rs).
Qed.
End rendered.

(** ** Witnesses *)

(** A [memchr] that searches from the front. *)
Fixpoint find_byte (b : Z) (l : bytes) : option nat :=
  match l with
  | [] => None
  | c :: l' => if c =? b then Some 0%nat else S <$> find_byte b l'
  end.
#[local] Instance find_memchr : Memchr := find_byte.
#[local] Instance find_memchr_laws : MemchrLaws.
Proof.
  constructor; unfold memchr, find_memchr; intros b l.
  - intros post Hl. induction l as [|c l IH]; cbn; [by rewrite Z.eqb_refl|].
    apply not_elem_of_cons in Hl as [Hc Hl]. rewrite (proj2 (Z.eqb_neq c b)) by done. by rewrite IH.
  - intros Hl. induction l as [|c l IH]; cbn; [done|].
    apply not_elem_of_cons in Hl as [Hc Hl]. rewrite (proj2 (Z.eqb_neq c b)) by done. by rewrite IH.
Qed.

(** Partway through a header line of a response that turns out to be chunked. *)
Definition mid_header : Parser :=
  mkParser (bstr "Transfer-Enc") SHead (Some (mkHead None 200 false false false false false)) 0 true false.
Lemma mid_header_inv : parser_inv mid_header.
Proof. unfold parser_inv. split_and!; try done. rewrite list_elem_of_In. cbn. lia. Qed.

Definition rest_of_message : bytes :=
  crlf (bstr "oding: chunked") ++ crlf [] ++ crlf [51] ++ crlf (bstr "abc") ++ crlf [48] ++ crlf [] ++ bstr "HTTP".

Lemma feed_refines_bytes_witness :
  feed mid_header rest_of_message = Ok (mkParser (bstr "HTTP") SHead None 200 true false, 1%nat) ∧
  byte_steps mid_header rest_of_message = Ok (mkParser (bstr "HTTP") SHead None 200 true false, 1%nat).
Proof.
  destruct (feed_refines_bytes mid_header rest_of_message mid_header_inv) as (E & _ & _).
  rewrite E. split; vm_compute; reflexivity.
Defined.

Lemma feed_chunking_witness :
  feeds mid_header [take 9 rest_of_message; take 1 (drop 9 rest_of_message); drop 10 rest_of_message] =
    feed mid_header rest_of_message.
Proof. rewrite (feed_chunking mid_header _ mid_header_inv). vm_compute. reflexivity. Defined.

Definition sample_fixed : response :=
  mkResponse (bstr "200") (bstr "OK") [bstr "Server: x"] (Fixed (bstr "05") (bstr "hello")).
Definition sample_chunked : response :=
  mkResponse (bstr "404") [] [] (Chunked [(bstr "3", bstr "abc"); (bstr "A", bstr "0123456789")]).

Lemma sample_fixed_ok : response_ok sample_fixed.
Proof.
  unfold response_ok. cbn [code reason fields body_of sample_fixed].
  split; [reflexivity|]. split; [by repeat constructor|]. split; [vm_compute; congruence|].
  split; [rewrite list_elem_of_In; cbn; lia|]. split.
  - constructor; [|constructor]. split; [rewrite list_elem_of_In; cbn; lia|by split].
  - split; [|done]. split; [discriminate|]. split; [reflexivity|].
    exists [0; 5]. split; [by repeat constructor|reflexivity].
Qed.
Lemma sample_chunked_ok : response_ok sample_chunked.
Proof.
  unfold response_ok. cbn [code reason fields body_of sample_chunked].
  split; [reflexivity|]. split; [by repeat constructor|]. split; [vm_compute; congruence|].
  split; [apply not_elem_of_nil|]. split; [constructor|]. split; [|reflexivity].
  constructor; [|constructor; [|constructor]]; (split; [|discriminate]); split; try discriminate; (split; [reflexivity|]).
  - exists [3]. split; [by repeat constructor|reflexivity].
  - exists [10]. split; [by repeat constructor|reflexivity].
Qed.

Lemma responses_counted_witness :
  feeds (idle 0) [take 30 (render sample_fixed ++ render sample_chunked);
                  drop 30 (render sample_fixed ++ render sample_chunked)] = Ok (idle 404, 2%nat).
Proof.
  rewrite (responses_counted 0 [sample_fixed; sample_chunked]); [reflexivity| |vm_compute; reflexivity].
  constructor; [exact sample_fixed_ok|]. constructor; [exact sample_chunked_ok|constructor].
Defined.
End http1_parse.
