(* ===== verification/Http1Reference.v ===== *)
(** * The frozen response parser — [src/http1/parse/reference.rs]

    The parser the incremental scanner of [src/http1/parse.rs] replaced, kept in
    the repository as a behavioural oracle: it carries the bytes of an unfinished
    message and scans its whole head again on every receive.  [Oracle] is its
    [Parser]; the functions that read one line ([parse_status], [parse_u64],
    [parse_chunk_size], [final_coding] and the comparisons) are the same text in
    both files and are taken from [http1_parse].

    The theorem is what the repository's tests compare on samples: fed the same
    receives, the scanner and the oracle return the same number of completed
    responses or the same error, and show the same status and the same reuse of
    the connection after every one of them. *)

From S2P Require Import Prelude Status Http1Parse.

Module http1_reference.
Import http1_parse.

(** [struct Parser] of the oracle: no [partial_head]. *)
Record Oracle := mkOracle {
  o_pending : bytes;
  o_state : State;
  o_status : Z;
  o_keep_alive : bool;
  o_head_request : bool;
}.

Definition o_new : Oracle := mkOracle [] SHead 0 true false.
Definition o_reset (o : Oracle) : Oracle := mkOracle [] SHead 0 true (o_head_request o).
Definition o_set_head_request (o : Oracle) (head : bool) : Oracle :=
  mkOracle (o_pending o) (o_state o) (o_status o) (o_keep_alive o) head.
Definition o_with_state (o : Oracle) (s : State) : Oracle :=
  mkOracle (o_pending o) s (o_status o) (o_keep_alive o) (o_head_request o).
Definition o_with_pending (o : Oracle) (l : bytes) : Oracle :=
  mkOracle l (o_state o) (o_status o) (o_keep_alive o) (o_head_request o).

(** [Parser::mark_eof] *)
Definition o_mark_eof (o : Oracle) : Oracle * bool :=
  if bool_decide (o_state o = SBody Eof) then
    (mkOracle (o_pending o) SHead (o_status o) false (o_head_request o), true)
  else (o, false).

Section oracle.
Context `{Memchr}.

(** The header loop of [scan_head]; [h] holds its locals. *)
Fixpoint o_scan_loop (fuel : nat) (buf : bytes) (pos : nat) (h : Head) : res (option (nat * ResponseHead)) :=
  match fuel with
  | O => panic "out of fuel"
  | S fuel' =>
      rest ← slice_from buf pos;
      match memchr 10 rest with
      | None => Ok None
      | Some rel =>
          line ← slice buf pos (pos + rel);
          let line := trim_cr line in
          let pos := (pos + rel + 1)%nat in
          if bool_decide (line = []) then Ok (Some (pos, response_head h))
          else h ← read_field h line; o_scan_loop fuel' buf pos h
      end
  end.

(** [scan_head]: [None] until the whole block is there. *)
Definition o_scan_head (buf : bytes) : res (option (nat * ResponseHead)) :=
  match memchr 10 buf with
  | None => Ok None
  | Some nl => h ← status_line buf nl; o_scan_loop (S (length buf)) buf (nl + 1) h
  end.

(** [Parser::run] *)
Fixpoint o_run_loop (fuel : nat) (o : Oracle) (buf : bytes) (pos done : nat) : res (Oracle * nat * nat) :=
  match fuel with
  | O => panic "out of fuel"
  | S fuel' =>
      match o_state o with
      | SHead =>
          rest ← slice_from buf pos;
          complete ← o_scan_head rest;
          match complete with
          | None => Ok (o, pos, done)
          | Some (len, r) =>
              let pos := (pos + len)%nat in
              if status.is_informational (r_status r) then
                if r_status r =? 101 then bail "unexpected 101 Switching Protocols"
                else o_run_loop fuel' o buf pos done
              else
                let body := body_read (o_head_request o) r in
                o_run_loop fuel'
                  (mkOracle (o_pending o) (SBody body) (r_status r)
                            (r_keep_alive r && negb (bool_decide (body = Eof))) (o_head_request o))
                  buf pos done
          end
      | SBody (Exact n) =>
          if n =? 0 then o_run_loop fuel' (o_with_state o SHead) buf pos (S done)
          else
            let avail := Z.of_nat (length buf - pos) in
            let take := Z.min n avail in
            let pos := (pos + Z.to_nat take)%nat in
            let o := o_with_state o (SBody (Exact (n - take))) in
            if (take =? avail) && (take <? n) then Ok (o, pos, done)
            else o_run_loop fuel' o buf pos done
      | SBody ChunkSize =>
          rest ← slice_from buf pos;
          match memchr 10 rest with
          | None => Ok (o, pos, done)
          | Some nl =>
              line ← slice buf pos (pos + nl);
              size ← parse_chunk_size (trim_cr line);
              let pos := (pos + nl + 1)%nat in
              body ← (if size =? 0 then Ok Trailers
                      else want ← ok_or "chunk size overflow" (checked_add size 2); Ok (Chunk want));
              o_run_loop fuel' (o_with_state o (SBody body)) buf pos done
          end
      | SBody (Chunk n) =>
          let avail := Z.of_nat (length buf - pos) in
          let take := Z.min n avail in
          let pos := (pos + Z.to_nat take)%nat in
          let left := n - take in
          ok ← (if (left <? 2) && negb (take =? 0) then
                  let end' := Z.to_nat (2 - left) in
                  let len := Z.to_nat (Z.min take (Z.of_nat end')) in
                  got ← slice buf (pos - len) pos;
                  want ← slice [13; 10] (end' - len) end';
                  Ok (bytes_eqb got want)
                else Ok true);
          if negb ok then bail "invalid chunk terminator"
          else if take <? n then Ok (o_with_state o (SBody (Chunk (n - take))), pos, done)
          else o_run_loop fuel' (o_with_state o (SBody ChunkSize)) buf pos done
      | SBody Trailers =>
          rest ← slice_from buf pos;
          match memchr 10 rest with
          | None => Ok (o, pos, done)
          | Some nl =>
              line ← slice buf pos (pos + nl);
              let pos := (pos + nl + 1)%nat in
              if bool_decide (trim_cr line = []) then o_run_loop fuel' (o_with_state o SHead) buf pos (S done)
              else o_run_loop fuel' o buf pos done
          end
      | SBody Eof => Ok (o, length buf, done)
      end
  end.

Definition o_run (o : Oracle) (buf : bytes) : res (Oracle * nat * nat) :=
  o_run_loop (2 * length buf + 2) o buf 0 0.

(** [Parser::feed] *)
Definition o_feed (o : Oracle) (data : bytes) : res (Oracle * nat) :=
  if bool_decide (o_pending o = []) then
    '(o, used, done) ← o_run o data;
    if (used <? length data)%nat then
      rest ← slice_from data used; Ok (o_with_pending o (o_pending o ++ rest), done)
    else Ok (o, done)
  else
    let buf := o_pending o ++ data in
    '(o, used, done) ← o_run (o_with_pending o []) buf;
    rest ← slice_from buf used;
    Ok (o_with_pending o rest, done).
End oracle.

(** ** The simulation *)

(** The oracle with nothing carried over, as the scanner's parser. *)
Definition view (o : Oracle) : Parser :=
  mkParser [] (o_state o) None (o_status o) (o_keep_alive o) (o_head_request o).

Section simulation.
Context `{ML : MemchrLaws}.

(** The scanner is where the oracle would be had it kept what it read: reading
    the carried-over bytes from the oracle's state gives the scanner's state,
    completes nothing and shows nothing new. *)
Definition agrees (o : Oracle) (p : Parser) : Prop :=
  idle_inv (view o) ∧ byte_steps (view o) (o_pending o) = Ok (p, 0%nat) ∧
  p = with_pending (with_partial (view o) (partial_head p)) (pending p) ∧
  (reads_lines (o_state o) = false → o_pending o = []).

Lemma o_scan_loop_eq fuel buf pos h :
  o_scan_loop fuel buf pos h =
    '(used, complete, _) ← scan_loop fuel buf pos h; Ok (r ← complete; Some (used, r)).
Proof.
  revert pos h. induction fuel as [|fuel IH]; intros pos h; [done|]. cbn [o_scan_loop scan_loop].
  destruct (slice_from buf pos) as [rest|]; [|done]. cbn [mbind result_bind].
  destruct (memchr 10 rest) as [rel|]; [|done]. destruct (slice _ _ _) as [line|]; [|done]. cbn [mbind result_bind].
  case_bool_decide; [done|]. destruct (read_field _ _); [apply IH|done].
Qed.

Lemma o_scan_head_eq buf :
  o_scan_head buf = '(used, complete, _) ← scan_head buf None; Ok (r ← complete; Some (used, r)).
Proof.
  unfold o_scan_head, scan_head. destruct (memchr 10 buf) as [nl|]; [|done].
  destruct (status_line _ _); [apply o_scan_loop_eq|done].
Qed.

(** The oracle's [run] in lockstep with the scanner's: the same result, except
    that where the scanner keeps what it read of an unfinished head, the oracle
    stops at the head's first byte. *)
Definition lockstep (o : Oracle) (buf : bytes) (r : res (Parser * nat * nat)) (r' : res (Oracle * nat * nat)) : Prop :=
  match r with
  | Err e => r' = Err e
  | Ok (q, used, done) => ∃ o' used', r' = Ok (o', used', done) ∧ o_pending o' = o_pending o ∧
      ((view o' = q ∧ used' = used) ∨
       (o_state o' = SHead ∧ (used' ≤ length buf)%nat ∧
        ∃ k partial, scan_head (drop used' buf) None = Ok (k, None, partial) ∧
          used = (used' + k)%nat ∧ q = with_partial (view o') partial))
  end.

Lemma new_idle : idle_inv new.
Proof. split; [|done]. split_and!; [done|apply not_elem_of_nil|done|done]. Qed.

Lemma scan_head_bound buf used r partial :
  scan_head buf None = Ok (used, Some r, partial) → (used ≤ length buf)%nat ∧ partial = None.
Proof.
  intros E. pose proof (scan_head_post new buf eq_refl new_idle) as Hpost. cbn [partial_head new] in Hpost.
  rewrite E in Hpost. destruct Hpost as (? & ? & ? & _). split; [lia|done].
Qed.

Lemma view_head o : o_state o = SHead → with_state (with_partial (view o) None) SHead = view o.
Proof. intros Hs. unfold view. by rewrite Hs. Qed.

Lemma lockstep_now o buf used done : lockstep o buf (Ok (view o, used, done)) (Ok (o, used, done)).
Proof. exists o, used. by auto. Qed.

Lemma o_run_lockstep fuel : ∀ o buf pos done,
  (pos ≤ length buf)%nat →
  lockstep o buf (run_loop fuel (view o) buf pos done) (o_run_loop fuel o buf pos done).
Proof.
  induction fuel as [|fuel IH]; intros o buf pos d0 Hpos; [done|]. cbn [run_loop o_run_loop].
  assert (∀ o' n d, (pos + n ≤ length buf)%nat → o_pending o' = o_pending o →
    lockstep o buf (run_loop fuel (view o') buf (pos + n) d) (o_run_loop fuel o' buf (pos + n) d)) as IH'.
  { intros o' n d Hn Hp. pose proof (IH o' buf (pos + n)%nat d Hn) as HI. unfold lockstep in *.
    by rewrite Hp in HI. }
  assert (∀ s, with_state (view o) s = view (o_with_state o s)) as Hst by done.
  change (state (view o)) with (o_state o). destruct (o_state o) as [|[n| |n| |]] eqn:Hs.
  - rewrite slice_from_le by done. cbn [mbind result_bind]. rewrite o_scan_head_eq. cbn [partial_head view].
    destruct (scan_head _ _) as [[[used [r|]] partial]|e] eqn:Escan; cbn [mbind option_bind result_bind]; [| |done].
    2: { exists o, pos. split_and!; [done|done|]. right. split_and!; [done|done|]. by eexists used, partial. }
    apply scan_head_bound in Escan as [Hu ->]. rewrite length_drop in Hu.
    destruct (status.is_informational _).
    + destruct (_ =? 101); [done|]. rewrite (view_head o Hs). apply IH'; [lia|done].
    + apply (IH' (mkOracle (o_pending o) _ _ _ _)); [lia|done].
  - destruct (n =? 0); [by rewrite Hst, <- (Nat.add_0_r pos); apply IH'; [lia|]|].
    rewrite Hst. destruct (_ && _); [by eexists _, _; auto|]. apply IH'; [lia|done].
  - rewrite slice_from_le by done. cbn [mbind result_bind].
    destruct (next_line buf pos Hpos) as [_ [[_ ->]|(line & _ & -> & -> & Hle & _)]]; [apply lockstep_now|].
    cbn [mbind result_bind]. destruct (parse_chunk_size _) as [size|]; [|done]. cbn [mbind result_bind].
    destruct (if size =? 0 then _ else _) as [body|]; [|done]. cbn [mbind result_bind].
    rewrite Hst, <- Nat.add_assoc. apply IH'; [lia|done].
  - destruct (if (n - _ <? 2) && _ then _ else _) as [ok|]; [|done]. cbn [mbind result_bind].
    destruct (negb ok); [done|]. rewrite !Hst. destruct (_ <? n); [by eexists _, _; auto|]. apply IH'; [lia|done].
  - rewrite slice_from_le by done. cbn [mbind result_bind].
    destruct (next_line buf pos Hpos) as [_ [[_ ->]|(line & _ & -> & -> & Hle & _)]]; [apply lockstep_now|].
    cbn [mbind result_bind]. rewrite Hst, <- Nat.add_assoc. case_bool_decide; (apply IH'; [lia|done]).
  - apply lockstep_now.
Qed.

(** Everything up to [used] has been read for good, and what is left completes
    nothing more. *)
Lemma o_run_steps o buf :
  idle_inv (view o) →
  match o_run o buf with
  | Err e => byte_steps (view o) buf = Err e
  | Ok (o', used, done) =>
      (used ≤ length buf)%nat ∧ o_pending o' = o_pending o ∧
      ∃ p, byte_steps (view o) buf = Ok (p, done) ∧ agrees (o_with_pending o' (drop used buf)) p
  end.
Proof.
  intros Ho. pose proof (o_run_lockstep (2 * length buf + 2) o buf 0 0 ltac:(lia)) as Hl.
  pose proof (run_steps (view o) buf Ho) as Hr. pose proof (wp_byte_steps (view o) buf (proj1 Ho)) as Hwp.
  unfold run in Hr. unfold o_run, lockstep, run_post in *. rewrite drop_0 in Hr.
  destruct (run_loop _ _ _ _ _) as [[[q used] d]|e]; [|by rewrite Hl].
  destruct Hr as (Hu & Hq & n & -> & E). rewrite E in Hwp. cbn [wp fst] in Hwp.
  destruct Hl as (o' & used' & -> & Hpd & [[<- ->]|(Hs & Hu' & k & partial & Escan & -> & ->)]).
  - split_and!; [done|done|]. eexists. split; [exact E|].
    split_and!; [..|done|exact (proj1 (proj2 (proj2 Hwp)))].
    { change (idle_inv (view o')). destruct Hwp as (Hset & _). split; [|done]. by split_and!; [|apply not_elem_of_nil|..]. }
    change (byte_steps (view o') (drop used buf) = Ok (with_pending (view o') (drop used buf), 0%nat)).
    destruct Hwp as (_ & Hno & Hr & _). cbn in Hno, Hr. destruct (reads_lines (o_state o')) eqn:Hrl.
    + by rewrite steps_line.
    + by rewrite Hr.
  - assert (idle_inv (view o')) as Ho' by (split; [|done]; unfold parser_inv, settled; cbn; rewrite Hs;
      split_and!; [done|apply not_elem_of_nil|done|done]).
    pose proof (scan_head_post (view o') (drop used' buf) Hs Ho') as Hscan. cbn [partial_head view] in Hscan.
    rewrite Escan in Hscan. destruct Hscan as [_ Hscan]. rewrite drop_0, drop_drop in Hscan.
    split_and!; [done|done|]. eexists. split; [exact E|]. split_and!; [exact Ho'|exact Hscan|done|].
    cbn. by rewrite Hs.
Qed.

(** One receive: the same outcome, and still in step after it. *)
Lemma o_feed_steps o p data :
  agrees o p → parser_inv p ∧
  match o_feed o data with
  | Err e => feed p data = Err e
  | Ok (o', n) => ∃ p', feed p data = Ok (p', n) ∧ agrees o' p'
  end.
Proof.
  intros (Ho & E & _). pose proof (wp_byte_steps (view o) (o_pending o) (proj1 Ho)) as Hp. rewrite E in Hp. cbn in Hp.
  split; [done|]. rewrite feed_steps by done. unfold o_feed.
  assert (byte_steps p data = byte_steps (view o) (o_pending o ++ data)) as ->
    by by rewrite byte_steps_app, E, and_then_Ok0.
  case_bool_decide as Hpend.
  - rewrite Hpend. pose proof (o_run_steps o data Ho) as Hrun.
    destruct (o_run o data) as [[[o' used] d]|e]; cbn [mbind result_bind]; [|done].
    destruct Hrun as (Hu & Hpd & p' & Ep & Hag). rewrite Hpend in Hpd.
    destruct (Nat.ltb_spec used (length data)).
    + rewrite slice_from_le by done. cbn [mbind result_bind]. rewrite Hpd. by exists p'.
    + rewrite drop_ge in Hag by lia. exists p'. split; [done|]. destruct o'; cbn in Hpd; subst. exact Hag.
  - pose proof (o_run_steps (o_with_pending o []) (o_pending o ++ data) Ho) as Hrun.
    change (view (o_with_pending o [])) with (view o) in Hrun.
    destruct (o_run _ _) as [[[o' used] d]|e]; cbn [mbind result_bind]; [|done].
    destruct Hrun as (Hu & _ & p' & Ep & Hag). rewrite slice_from_le by done. by exists p'.
Qed.

(** What a caller sees of either parser after a receive. *)
Definition shows (o : Oracle) (p : Parser) : Prop :=
  o_status o = status p ∧ o_keep_alive o = keep_alive p ∧ (o_mark_eof o).2 = (mark_eof p).2.

Lemma agrees_shows o p : agrees o p → shows o p.
Proof.
  intros (_ & _ & -> & _). unfold shows, o_mark_eof, mark_eof. cbn. split_and!; [done..|]. by case_bool_decide.
Qed.

(** What a worker does with its parser once the method is known. *)
Inductive op : Type :=
| Feed (data : bytes)
| MarkEof
| Reset.

Definition o_apply (o : Oracle) (x : op) : res (Oracle * nat) :=
  match x with
  | Feed d => o_feed o d
  | MarkEof => let '(o, b) := o_mark_eof o in Ok (o, Nat.b2n b)
  | Reset => Ok (o_reset o, 0%nat)
  end.
Definition apply_op (p : Parser) (x : op) : res (Parser * nat) :=
  match x with
  | Feed d => feed p d
  | MarkEof => let '(p, b) := mark_eof p in Ok (p, Nat.b2n b)
  | Reset => Ok (reset p, 0%nat)
  end.

(** The two parsers side by side over a sequence of operations: what each
    returns at every one, up to and including the first error. *)
Fixpoint compare (o : Oracle) (p : Parser) (ops : list op) : Prop :=
  match ops with
  | [] => True
  | x :: ops' =>
      match o_apply o x, apply_op p x with
      | Err e, Err e' => e = e'
      | Ok (o', n), Ok (p', m) => n = m ∧ shows o' p' ∧ compare o' p' ops'
      | _, _ => False
      end
  end.

Lemma agrees_fresh head st ka :
  agrees (mkOracle [] SHead st ka head) (mkParser [] SHead None st ka head).
Proof.
  split_and!; [|done..]. split; [|done]. split_and!; [done|apply not_elem_of_nil|done|done].
Qed.

Lemma agrees_mark_eof o p : agrees o p → agrees (o_mark_eof o).1 (mark_eof p).1.
Proof.
  intros Hag. pose proof Hag as (_ & E & Hp & Hr).
  assert (state p = o_state o) as Hst by by rewrite Hp. unfold o_mark_eof, mark_eof. rewrite Hst.
  case_bool_decide as Hs; [|exact Hag]. rewrite Hs in Hr. rewrite (Hr eq_refl) in *. cbn in E.
  injection E as <-. apply agrees_fresh.
Qed.

Lemma agrees_apply o p x :
  agrees o p →
  match o_apply o x with
  | Err e => apply_op p x = Err e
  | Ok (o', n) => ∃ p', apply_op p x = Ok (p', n) ∧ agrees o' p'
  end.
Proof.
  intros Hag. destruct x as [d| |]; cbn [o_apply apply_op].
  - exact (proj2 (o_feed_steps o p d Hag)).
  - pose proof (agrees_mark_eof o p Hag) as Hm. pose proof (agrees_shows o p Hag) as (_ & _ & Hb).
    destruct (o_mark_eof o) as [o' b], (mark_eof p) as [p' b']. cbn in Hb, Hm. subst. by exists p'.
  - destruct Hag as (_ & _ & -> & _). eexists. split; [done|]. apply agrees_fresh.
Qed.

Lemma agrees_compare o p ops : agrees o p → compare o p ops.
Proof.
  revert o p. induction ops as [|x ops IH]; intros o p Hag; [done|]. cbn [compare].
  pose proof (agrees_apply o p x Hag) as Hf. destruct (o_apply o x) as [[o' n]|e]; [|by rewrite Hf].
  destruct Hf as (p' & -> & Hag'). split_and!; [done|by apply agrees_shows|by apply IH].
Qed.

(** C23: The incremental scanner behaves as the parser it replaced: for either
    kind of request and any sequence of receives, closes of the connection and
    resets, the two complete the same number of responses at every operation,
    or fail at the same receive with the same error, and after every operation
    show the same status, the same answer to whether the connection can be
    reused and the same answer to whether its close would complete a response. *)
Theorem scanner_matches_reference head ops :
  compare (o_set_head_request o_new head) (set_head_request new head) ops.
Proof. apply agrees_compare, agrees_fresh. Qed.
End simulation.

#[local] Existing Instance find_memchr.
#[local] Existing Instance find_memchr_laws.

(** A head split inside a field, a chunked body split inside its terminator, a
    close-delimited body ended by the close, and a malformed status line after a
    reset. *)
Definition sample_ops : list op :=
  [Feed (bstr "HTTP/1.1 200 OK" ++ [13; 10] ++ bstr "Transfer-Enc");
   Feed (bstr "oding: chunked" ++ [13; 10; 13; 10] ++ bstr "3" ++ [13; 10] ++ bstr "abc" ++ [13]);
   Feed ([10] ++ bstr "0" ++ [13; 10; 13; 10] ++ bstr "HTTP/1.0 200" ++ [10; 10] ++ bstr "to the end");
   MarkEof; Reset; Feed (bstr "HTTP/1.9 200 OK" ++ [10])].

Lemma scanner_matches_reference_witness :
  (∃ o p, o_apply o_new (Feed (bstr "HTTP/1.9 200 OK" ++ [10])) = Err (Bail "unsupported HTTP version") ∧
          o_apply o_new (Feed (bstr "HTTP/1.1 200" ++ [10])) = Ok (o, 0%nat) ∧
          apply_op new (Feed (bstr "HTTP/1.1 200" ++ [10])) = Ok (p, 0%nat) ∧
          o_pending o ≠ pending p) ∧
  compare (o_set_head_request o_new false) (set_head_request new false) sample_ops.
Proof.
  split; [by vm_compute; eexists _, _|]. exact (scanner_matches_reference false sample_ops).
Defined.

End http1_reference.
