(* ===== verification/PrefixInt.v ===== *)
(** * Prefixed integers and strings — shared by HPACK and QPACK

    [src/http2/hpack.rs] and [src/http3/qpack.rs] each carry their own copy of
    [encode_int], [decode_int], [encode_str] and [read_str]; they differ in the
    width of the integer, in how many continuation bytes they accept and in the
    words of their errors, which is what [codec] holds. *)

From S2P Require Import Prelude.

Module prefix_int.

Record codec := mkCodec {
  width : Z;
  max_shift : Z;
  short : string;
  overflow : string;
  too_long : string;
}.

(** HPACK reads a [u32] with shifts up to 21, QPACK a [u64] with shifts up to
    56. *)
Definition hpack : codec :=
  mkCodec 32 21 "truncated HPACK block" "HPACK integer overflow" "HPACK integer too long".
Definition qpack : codec :=
  mkCodec 64 56 "truncated QPACK field section" "QPACK integer overflow" "QPACK integer too long".

(** [while rest >= 128 { .. }]; a [u64] has at most ten groups of seven bits. *)
Fixpoint encode_rest (fuel : nat) (rest : Z) : bytes :=
  match fuel with
  | O => [u8 rest]
  | S fuel' =>
      if 128 <=? rest then u8 (rest mod 128 + 128) :: encode_rest fuel' (rest / 128)
      else [u8 rest]
  end.

(** [encode_int(out, prefix_bits, mask, value)]: what is appended. *)
Definition encode_int (prefix_bits mask value : Z) : bytes :=
  let max := Z.shiftl 1 prefix_bits - 1 in
  if value <? max then [Z.lor mask (u8 value)]
  else Z.lor mask (u8 max) :: encode_rest 10 (value - max).

Definition encode_str (prefix_bits mask : Z) (s : bytes) : bytes :=
  encode_int prefix_bits mask (zlen s) ++ s.

(** [buf.get(pos).ok_or_else(short)?] *)
Definition get (c : codec) (buf : bytes) (pos : nat) : res Z := ok_or (short c) (buf !! pos).

(** [decode_int_tail]; the shift grows by seven up to [max_shift]. *)
Fixpoint decode_int_tail (fuel : nat) (c : codec) (buf : bytes) (pos : nat) (value shift : Z) : res (Z * nat) :=
  match fuel with
  | O => panic "out of fuel"
  | S fuel' =>
      byte ← get c buf pos;
      let pos := S pos in
      let add := Z.shiftl (Z.land byte 0x7f) shift mod 2 ^ width c in
      value ← ok_or (overflow c) (if decide (value + add < 2 ^ width c) then Some (value + add) else None);
      if Z.land byte 0x80 =? 0 then Ok (value, pos)
      else
        let shift := shift + 7 in
        if max_shift c <? shift then bail (too_long c)
        else decode_int_tail fuel' c buf pos value shift
  end.

(** [decode_int]: the value and the position after it. *)
Definition decode_int (c : codec) (buf : bytes) (pos : nat) (prefix_bits : Z) : res (Z * nat) :=
  let max := Z.shiftl 1 prefix_bits - 1 in
  b ← get c buf pos;
  let first := Z.land b max in
  let pos := S pos in
  if first <? max then Ok (first, pos)
  else decode_int_tail (Z.to_nat (max_shift c / 7 + 1)) c buf pos max 0.

(** [buf.get(pos..end)] *)
Definition get_range (buf : bytes) (pos : nat) (end' : Z) : option bytes :=
  if decide (Z.of_nat pos ≤ end' ∧ end' ≤ zlen buf)
  then Some (take (Z.to_nat (end' - Z.of_nat pos)) (drop pos buf)) else None.

(** [read_str]: the bytes, the Huffman flag and the position after them. *)
Definition read_str (c : codec) (buf : bytes) (pos : nat) (prefix_bits : Z) : res (bytes * bool * nat) :=
  b ← get c buf pos;
  let huffman := negb (Z.land b (Z.shiftl 1 prefix_bits) =? 0) in
  '(len, pos) ← decode_int c buf pos prefix_bits;
  end' ← ok_or (short c) (checked_add (Z.of_nat pos) len);
  s ← ok_or (short c) (get_range buf pos end');
  Ok (s, huffman, Z.to_nat end').

(** [usize::to_string]; a [u64] has at most twenty decimal digits. *)
Fixpoint to_digits (fuel : nat) (n : Z) (acc : bytes) : bytes :=
  match fuel with
  | O => acc
  | S fuel' => if n <? 10 then (48 + n) :: acc else to_digits fuel' (n / 10) ((48 + n mod 10) :: acc)
  end.
Definition to_string (n : Z) : bytes := to_digits 20 n [].

Lemma to_digits_length fuel n acc : (length (to_digits fuel n acc) ≤ length acc + fuel)%nat.
Proof.
  revert n acc. induction fuel as [|fuel IH]; intros n acc; cbn; [lia|]. destruct (n <? 10); cbn; [lia|].
  specialize (IH (n / 10) ((48 + n mod 10) :: acc)). cbn in IH. lia.
Qed.

(** ** Round trips *)

(** What a codec can read back: the prefix and its continuation bytes. *)
Definition int_max (c : codec) (prefix_bits : Z) : Z :=
  Z.min (2 ^ width c) (2 ^ prefix_bits - 1 + 2 ^ (max_shift c + 7)).

Definition codec_ok (c : codec) : Prop := c = hpack ∨ c = qpack.

Lemma codec_shift c : codec_ok c → 0 ≤ max_shift c ∧ max_shift c mod 7 = 0 ∧ max_shift c + 7 ≤ width c ∧
  max_shift c + 7 ≤ 63 ∧ width c ≤ 64 ∧ 32 ≤ width c.
Proof. intros [-> | ->]; cbn [max_shift width hpack qpack]; split_and!; reflexivity || lia. Qed.

Lemma get_app c pre b post : get c (pre ++ b :: post) (length pre) = Ok b.
Proof. unfold get. by rewrite list_lookup_middle. Qed.

Lemma land_7f b : Z.land b 0x7f = b mod 128.
Proof. apply (land_mask b 7). lia. Qed.

Lemma high_bit b : 0 ≤ b < 256 → (Z.land b 0x80 =? 0) = (b <? 128).
Proof.
  intros Hb. change 0x80 with (2 ^ 7). rewrite land_bit_eqb by lia.
  rewrite Z.testbit_eqb by lia. destruct (Z.ltb_spec b (2 ^ 7)).
  - rewrite Z.div_small by lia. done.
  - replace (b / 2 ^ 7) with 1; [done|]. apply Z.div_unique with (b - 128); lia.
Qed.

Lemma pow_split s n : 0 ≤ s ≤ n → 2 ^ n = 2 ^ s * 2 ^ (n - s).
Proof. intros. rewrite <- Z.pow_add_r by lia. f_equal. lia. Qed.

(** One byte of the tail. *)
Lemma decode_tail_step c fuel buf pos b value shift :
  get c buf pos = Ok b → 0 ≤ b < 256 → 0 ≤ shift → 0 ≤ value →
  let value' := value + b mod 128 * 2 ^ shift in
  value' < 2 ^ width c →
  decode_int_tail (S fuel) c buf pos value shift =
    if b <? 128 then Ok (value', S pos)
    else if max_shift c <? shift + 7 then bail (too_long c)
    else decode_int_tail fuel c buf (S pos) value' (shift + 7).
Proof.
  intros Hget Hb Hs Hv value' Hw. cbn [decode_int_tail]. rewrite Hget. cbn [mbind result_bind].
  assert (0 ≤ b mod 128 * 2 ^ shift) by (apply Z.mul_nonneg_nonneg; [apply Z.mod_pos_bound|]; lia).
  rewrite land_7f, Z.shiftl_mul_pow2, Z.mod_small by lia. fold value'. rewrite decide_True by done.
  cbn [ok_or mbind result_bind]. by rewrite high_bit.
Qed.

(** A quotient and a remainder, seven bits further up. *)
Lemma group_sum rest shift :
  0 ≤ rest → 0 ≤ shift →
  rest mod 128 * 2 ^ shift + rest / 128 * 2 ^ (shift + 7) = rest * 2 ^ shift ∧
  0 ≤ rest mod 128 * 2 ^ shift ∧ 0 ≤ rest / 128 * 2 ^ (shift + 7) ∧ 0 ≤ rest mod 128 < 128 ∧ 0 ≤ rest / 128.
Proof.
  intros Hr Hs. pose proof (Z.mod_pos_bound rest 128 ltac:(lia)). pose proof (Z.div_pos rest 128 Hr ltac:(lia)).
  assert (0 < 2 ^ shift) by lia. assert (0 < 2 ^ (shift + 7)) by lia. split_and!; try nia.
  rewrite (Z.pow_add_r 2 shift 7) by lia. rewrite (Z.div_mod rest 128) at 3 by lia. lia.
Qed.

Lemma decode_tail_encode c fuel' : ∀ fuel pre rest post value shift,
  codec_ok c → 0 ≤ rest → 0 ≤ value → 0 ≤ shift → shift mod 7 = 0 →
  rest < 128 ^ (Z.of_nat fuel' + 1) →
  max_shift c < shift + 7 * Z.of_nat fuel → shift ≤ max_shift c → rest < 2 ^ (max_shift c + 7 - shift) →
  value + rest * 2 ^ shift < 2 ^ width c →
  decode_int_tail fuel c (pre ++ encode_rest fuel' rest ++ post) (length pre) value shift =
    Ok (value + rest * 2 ^ shift, (length pre + length (encode_rest fuel' rest))%nat).
Proof.
  induction fuel' as [|fuel' IH]; intros fuel pre rest post value shift Hc Hr Hv Hs H7 Hf Hfuel Hmax Hfit Hw.
  all: pose proof (codec_shift c Hc) as (Hm0 & Hm7 & _ & Hm63 & _ & _).
  all: destruct (group_sum rest shift Hr Hs) as (Hsum & Hlo & Hhi & Hmod & Hquot).
  all: destruct fuel as [|fuel]; [lia|]; cbn [encode_rest].
  2: destruct (Z.leb_spec 128 rest) as [Hbig|Hsmall].
  2: { rewrite (u8_small (rest mod 128 + 128)) by lia. cbn [app].
    set (b := rest mod 128 + 128). assert (b mod 128 = rest mod 128) as Hb
      by (subst b; rewrite Z.add_mod, Z.mod_same, Z.add_0_r, !Z.mod_mod by lia; done).
    rewrite (decode_tail_step _ _ _ _ b); [|apply get_app|lia|done|done|lia]. rewrite Hb.
    pose proof (proj2 (Z.div_exact shift 7 ltac:(lia)) H7). pose proof (proj2 (Z.div_exact (max_shift c) 7 ltac:(lia)) Hm7).
    assert (shift + 7 ≤ max_shift c) as Hs7.
    { destruct (decide (shift + 7 ≤ max_shift c)); [done|].
      replace (max_shift c + 7 - shift) with 7 in Hfit by lia. lia. }
    rewrite (proj2 (Z.ltb_ge b 128)), (proj2 (Z.ltb_ge (max_shift c) (shift + 7))) by lia.
    rewrite (cons_middle _ pre), app_assoc.
    replace (S (length pre)) with (length (pre ++ [b])) by (rewrite length_app; cbn; lia).
    rewrite IH; [|done|done|lia|lia| | |lia|lia| |lia].
    - f_equal. f_equal; [lia|]. rewrite length_app. cbn. lia.
    - rewrite <- Z.add_mod_idemp_r, Z.mod_same, Z.add_0_r by lia. done.
    - rewrite Nat2Z.inj_succ in Hf. replace (Z.succ (Z.of_nat fuel') + 1) with (1 + (Z.of_nat fuel' + 1)) in Hf by lia.
      rewrite Z.pow_add_r in Hf by lia. apply Z.div_lt_upper_bound; lia.
    - apply Z.div_lt_upper_bound; [lia|]. change 128 with (2 ^ 7). rewrite <- Z.pow_add_r by lia.
      replace (7 + (max_shift c + 7 - (shift + 7))) with (max_shift c + 7 - shift) by lia. done. }
  all: assert (rest < 128) as Hsm by (cbn in Hf; lia).
  all: rewrite u8_small by lia; cbn [app].
  all: assert (rest mod 128 = rest) as Hrest by (apply Z.mod_small; lia).
  all: rewrite (decode_tail_step _ _ _ _ rest); [|apply get_app|lia|done|done|rewrite Hrest; lia].
  all: rewrite (proj2 (Z.ltb_lt rest 128)) by lia; rewrite Hrest; do 2 f_equal; cbn; lia.
Qed.

(** The first byte: the prefix under the representation bits. *)
Lemma prefix_byte b m v :
  0 ≤ b → 0 ≤ v < 2 ^ b → Z.land (Z.lor (m * 2 ^ b) v) (Z.shiftl 1 b - 1) = v ∧
  Z.lor (m * 2 ^ b) v = m * 2 ^ b + v.
Proof.
  intros Hb Hv. rewrite Z.lor_comm, lor_disjoint by done. split; [|lia].
  rewrite Z.shiftl_1_l, land_mask by done. rewrite Z.mod_add by lia. by apply Z.mod_small.
Qed.

(** Decoding what [encode_int] wrote, wherever it stands. *)
Lemma decode_encode_int c pre post b m v :
  codec_ok c → 1 ≤ b ≤ 8 → 0 ≤ v < int_max c b →
  decode_int c (pre ++ encode_int b (m * 2 ^ b) v ++ post) (length pre) b =
    Ok (v, (length pre + length (encode_int b (m * 2 ^ b) v))%nat).
Proof.
  intros Hc Hb Hv. unfold int_max in Hv. pose proof (codec_shift c Hc) as (Hm0 & Hm7 & _ & Hm63 & Hw64 & Hw32).
  assert (2 ≤ 2 ^ b ≤ 2 ^ 8) as Hpb by (split; [apply (Z.pow_le_mono_r 2 1)|apply Z.pow_le_mono_r]; lia).
  assert (2 ^ 32 ≤ 2 ^ width c) by (apply Z.pow_le_mono_r; lia).
  unfold decode_int, encode_int. rewrite Z.shiftl_1_l. destruct (Z.ltb_spec v (2 ^ b - 1)).
  - destruct (prefix_byte b m v) as [E _]; [lia|lia|]. rewrite Z.shiftl_1_l in E.
    rewrite u8_small by lia. cbn [app]. rewrite get_app. cbn [mbind result_bind]. rewrite E.
    rewrite (proj2 (Z.ltb_lt v (2 ^ b - 1))) by lia. do 2 f_equal. cbn. lia.
  - destruct (prefix_byte b m (2 ^ b - 1)) as [E _]; [lia|lia|]. rewrite Z.shiftl_1_l in E.
    rewrite u8_small by lia. cbn [app]. rewrite get_app. cbn [mbind result_bind]. rewrite E, Z.ltb_irrefl.
    set (first := Z.lor _ _). rewrite (cons_middle first pre), app_assoc.
    replace (S (length pre)) with (length (pre ++ [first])) by (rewrite length_app; cbn; lia).
    assert (2 ^ (max_shift c + 7) ≤ 2 ^ 63) by (apply Z.pow_le_mono_r; lia).
    rewrite decode_tail_encode; [|done|lia|lia|lia|done|cbn; lia| |lia|rewrite Z.sub_0_r; lia|lia].
    + do 2 f_equal; [lia|]. rewrite length_app. cbn. lia.
    + pose proof (proj2 (Z.div_exact (max_shift c) 7 ltac:(lia)) Hm7). lia.
Qed.

Lemma encode_rest_length fuel rest : (length (encode_rest fuel rest) ≤ S fuel)%nat.
Proof.
  revert rest. induction fuel as [|fuel IH]; intros rest; cbn; [lia|]. destruct (128 <=? rest); cbn; [|lia].
  specialize (IH (rest / 128)). lia.
Qed.

(** A string literal as a peer may write it, Huffman-coded or not. *)
Record lit := mkLit { huffman : bool; raw : bytes }.
Definition render_lit (b m : Z) (s : lit) : bytes :=
  encode_int b ((2 * m + (if huffman s then 1 else 0)) * 2 ^ b) (zlen (raw s)) ++ raw s.
Definition lit_ok (c : codec) (b : Z) (s : lit) : Prop := zlen (raw s) < int_max c b ∧ zlen (raw s) < 2 ^ 32.

#[global] Instance lit_ok_dec c b s : Decision (lit_ok c b s).
Proof. unfold lit_ok. apply _. Defined.

(** [encode_str] writes a literal with the Huffman bit clear. *)
Lemma encode_str_lit b m s : 0 ≤ b → encode_str b (m * 2 ^ (b + 1)) s = render_lit b m (mkLit false s).
Proof. intros Hb. unfold encode_str, render_lit. cbn. do 2 f_equal. rewrite Z.pow_add_r by lia. lia. Qed.

Lemma encode_int_cons b m v :
  1 ≤ b ≤ 8 → 0 ≤ v → ∃ k tl, encode_int b (m * 2 ^ b) v = (m * 2 ^ b + k) :: tl ∧ 0 ≤ k < 2 ^ b.
Proof.
  intros Hb Hv. assert (2 ≤ 2 ^ b ≤ 2 ^ 8) by (split; [apply (Z.pow_le_mono_r 2 1)|apply Z.pow_le_mono_r]; lia).
  unfold encode_int. rewrite Z.shiftl_1_l. destruct (Z.ltb_spec v (2 ^ b - 1)).
  - exists v, []. rewrite u8_small by lia. destruct (prefix_byte b m v) as [_ ->]; lia || (split; [done|lia]).
  - exists (2 ^ b - 1), (encode_rest 10 (v - (2 ^ b - 1))). rewrite u8_small by lia.
    destruct (prefix_byte b m (2 ^ b - 1)) as [_ ->]; lia || (split; [done|lia]).
Qed.

(** The bit just above the prefix of a byte. *)
Lemma bit_above b m h k :
  0 ≤ b → 0 ≤ k < 2 ^ b → negb (Z.land ((2 * m + (if h : bool then 1 else 0)) * 2 ^ b + k) (Z.shiftl 1 b) =? 0) = h.
Proof.
  intros Hb Hk. rewrite Z.shiftl_1_l, land_bit_eqb, negb_involutive, Z.testbit_eqb by done.
  rewrite Z.div_add_l, (Z.div_small k), Z.add_0_r by lia.
  rewrite Z.add_comm, (Z.mul_comm 2), Z.mod_add by lia. by destruct h.
Qed.

(** A bit is clear exactly below its weight, when none above it is set. *)
Lemma bit_clear n b : 0 ≤ n → 0 ≤ b < 2 ^ (n + 1) → (Z.land b (2 ^ n) =? 0) = (b <? 2 ^ n).
Proof.
  intros Hn Hb. rewrite land_bit_eqb, Z.testbit_eqb by done. rewrite Z.pow_add_r in Hb by lia.
  destruct (Z.ltb_spec b (2 ^ n)); [by rewrite Z.div_small by lia|].
  replace (b / 2 ^ n) with 1; [done|]. apply Z.div_unique with (b - 2 ^ n); lia.
Qed.

(** The first byte of a representation tells it apart. *)
Lemma tests_80 b : 0 ≤ b < 256 → (Z.land b 0x80 =? 0) = (b <? 128).
Proof. apply (bit_clear 7 b). lia. Qed.
Lemma tests_40 b : 0 ≤ b < 128 → (Z.land b 0x40 =? 0) = (b <? 64).
Proof. apply (bit_clear 6 b). lia. Qed.
Lemma tests_20 b : 0 ≤ b < 64 → (Z.land b 0x20 =? 0) = (b <? 32).
Proof. apply (bit_clear 5 b). lia. Qed.
Lemma tests_10 b : 0 ≤ b < 32 → (Z.land b 0x10 =? 0) = (b <? 16).
Proof. apply (bit_clear 4 b). lia. Qed.

Lemma first_byte pre l b tl post :
  l = b :: tl →
  (length pre <? length (pre ++ l ++ post))%nat = true ∧ index (pre ++ l ++ post) (length pre) = Ok b.
Proof.
  intros ->. split; [|cbn; apply index_app_length]. apply Nat.ltb_lt. rewrite !length_app. cbn. lia.
Qed.

Lemma read_render_lit c pre post b m s :
  codec_ok c → 1 ≤ b ≤ 7 → lit_ok c b s → zlen pre < 2 ^ 62 →
  read_str c (pre ++ render_lit b m s ++ post) (length pre) b =
    Ok (raw s, huffman s, (length pre + length (render_lit b m s))%nat).
Proof.
  intros Hc Hb [Hs Hs32] Hpre. unfold read_str, render_lit. set (mm := 2 * m + _).
  destruct (encode_int_cons b mm (zlen (raw s))) as (k & tl & Ecat & Hk); [lia|apply zlen_nonneg|].
  rewrite <- app_assoc. replace (get c _ (length pre)) with (@Ok error Z (mm * 2 ^ b + k))
    by (rewrite Ecat; cbn [app]; by rewrite get_app).
  cbn [mbind result_bind]. subst mm. rewrite bit_above by lia. set (mm := 2 * m + _) in *.
  rewrite decode_encode_int by (done || lia || (split; [apply zlen_nonneg|lia])). cbn [mbind result_bind].
  pose proof (f_equal length Ecat) as Hlen. cbn in Hlen.
  assert (length (encode_int b (mm * 2 ^ b) (zlen (raw s))) ≤ 12)%nat as Hl12.
  { unfold encode_int. destruct (_ <? _); cbn; [lia|]. apply le_n_S. apply (encode_rest_length 10). }
  unfold checked_add. rewrite decide_True by (unfold zlen in *; lia). cbn [ok_or mbind result_bind].
  unfold get_range. rewrite decide_True by (unfold zlen; rewrite !length_app; lia). cbn [ok_or mbind result_bind].
  rewrite app_assoc. rewrite drop_app_length' by (rewrite length_app; lia).
  rewrite take_app_length' by (unfold zlen; lia). do 3 f_equal. rewrite length_app. unfold zlen. lia.
Qed.

Lemma read_lit c pre post b m s :
  codec_ok c → 1 ≤ b ≤ 7 → lit_ok c b s → zlen (pre ++ render_lit b m s) < 2 ^ 62 →
  read_str c (pre ++ render_lit b m s ++ post) (length pre) b =
    Ok (raw s, huffman s, length (pre ++ render_lit b m s)).
Proof.
  intros Hc Hb Hs Hl. rewrite length_app. apply read_render_lit; [done|done|done|].
  rewrite zlen_app in Hl. pose proof (zlen_nonneg (render_lit b m s)). lia.
Qed.

(** ** On any bytes at all *)

Lemma wp_decode_tail c buf : ∀ fuel pos value shift,
  bytes_ok buf → 0 ≤ value → 0 ≤ shift → max_shift c < shift + 7 * Z.of_nat fuel → 0 < Z.of_nat fuel →
  wp (decode_int_tail fuel c buf pos value shift) (λ r, 0 ≤ r.1 ∧ (pos < r.2 ≤ length buf)%nat).
Proof.
  induction fuel as [|fuel IH]; intros pos value shift Hok Hv Hs Hf Hp; [lia|]. cbn [decode_int_tail].
  wp_step. unfold get. wp_step. wp_step. wp_step.
  destruct (buf !! pos) as [byte|] eqn:Hpos; [|done]. injection H as <-.
  pose proof (lookup_lt_Some _ _ _ Hpos). case_decide; [|done]. injection H0 as <-.
  assert (0 ≤ Z.shiftl (Z.land byte 127) shift mod 2 ^ width c).
  { destruct (decide (0 ≤ width c)); [apply Z.mod_pos_bound; lia|].
    rewrite (Z.pow_neg_r 2) by lia. rewrite Zmod_0_r. apply Z.shiftl_nonneg, Z.land_nonneg. lia. }
  wp_step; [cbn; lia|]. wp_step; [done|]. apply Z.ltb_ge in Heqb0. eapply wp_mono; [apply IH; (done || lia)|].
  intros [v p] [??]. cbn in *. lia.
Qed.

Lemma wp_decode_int c buf pos b :
  codec_ok c → bytes_ok buf → 0 ≤ b → wp (decode_int c buf pos b) (λ r, 0 ≤ r.1 ∧ (pos < r.2 ≤ length buf)%nat).
Proof.
  intros Hc Hok Hb. unfold decode_int. wp_step. unfold get. wp_step.
  pose proof (lookup_lt_Some _ _ _ H) as Hlt. rewrite Z.shiftl_1_l. wp_step.
  - cbn. split; [|lia]. apply Z.land_nonneg. left. pose proof (bytes_ok_lookup _ _ _ Hok H) as Ha. unfold byte_ok in Ha. lia.
  - eapply wp_mono; [apply wp_decode_tail; [done|lia|lia|..]|].
    + pose proof (codec_shift c Hc) as (? & Hm7 & _).
      pose proof (proj2 (Z.div_exact (max_shift c) 7 ltac:(lia)) Hm7). lia.
    + pose proof (codec_shift c Hc) as (? & Hm7 & _). pose proof (Z.div_pos (max_shift c) 7 ltac:(lia) ltac:(lia)). lia.
    + intros [v p] [??]. cbn in *. lia.
Qed.

Lemma wp_read_str c buf pos b :
  codec_ok c → bytes_ok buf → 0 ≤ b → wp (read_str c buf pos b) (λ r, (pos < r.2 ≤ length buf)%nat).
Proof.
  intros Hc Hok Hb. unfold read_str. wp_step. unfold get. wp_step. wp_step.
  eapply wp_mono; [by apply wp_decode_int|]. intros [len p] [Hlen Hp]. wp_step. wp_step. wp_step. wp_step.
  unfold checked_add, get_range in *. repeat case_decide; simplify_eq. cbn in *. unfold zlen in *. lia.
Qed.
End prefix_int.
