(* ===== verification/Target.v ===== *)
(** * The target of a run — [src/target.rs]

    [parse_target] turns the command line into what every worker sends:
    the address, the authority, the path and the checked header list, the
    HTTP/1.1 request encoded once ([encode_request]) and the field list of
    HTTP/2 and HTTP/3 ([multiplexed_headers]).  A [&str] is its UTF-8 bytes.
    Error messages carry their fixed text; the name or value they quote is left
    out.  Name resolution ([to_socket_addrs]) is the parameter [Resolver].

    The specification is a reader of HTTP/1.1 requests ([read_request]) that
    knows nothing of the encoder: lines end at the first CR LF, a field is split
    at its first colon, and the body is what [Content-Length] says. *)

From S2P Require Import Prelude PrefixInt Http1Parse.

(** [ToSocketAddrs] of a host name and a port; the error is [std]'s. *)
Class Resolver (SocketAddr : Type) := to_socket_addrs : bytes → Z → res (list SocketAddr).

Module target.
Import prefix_int.
Import http1_parse (is_digit, trim_ows, trim_front, is_ows, split_on, checked_digit).

(** ** [str] and [u8] as the code uses them *)

(** [u8::to_ascii_lowercase], [str::to_ascii_lowercase] and
    [str::eq_ignore_ascii_case] *)
Definition lower (c : Z) : Z := if (65 <=? c) && (c <=? 90) then c + 32 else c.
Definition to_ascii_lowercase (s : bytes) : bytes := lower <$> s.
Definition eq_ignore_ascii_case (a b : bytes) : bool := bytes_eqb (to_ascii_lowercase a) (to_ascii_lowercase b).

Definition is_ascii_alphanumeric (c : Z) : bool :=
  is_digit c || ((65 <=? c) && (c <=? 90)) || ((97 <=? c) && (c <=? 122)).

Definition strip_prefix (p s : bytes) : option bytes :=
  if bytes_eqb (take (length p) s) p then Some (drop (length p) s) else None.

(** The bytes before the first one that satisfies [P], and it with the rest. *)
Fixpoint break_at (P : Z → bool) (s : bytes) : bytes * bytes :=
  match s with
  | [] => ([], [])
  | c :: s' => if P c then ([], s) else let '(a, b) := break_at P s' in (c :: a, b)
  end.
(** [str::split_once], [str::rsplit_once] *)
Definition split_once (c : Z) (s : bytes) : option (bytes * bytes) :=
  match break_at (Z.eqb c) s with (a, _ :: b) => Some (a, b) | _ => None end.
Definition rsplit_once (c : Z) (s : bytes) : option (bytes * bytes) :=
  match split_once c (reverse s) with Some (b, a) => Some (reverse a, reverse b) | None => None end.

Definition starts_with (c : Z) (s : bytes) : bool := bool_decide (head s = Some c).
Definition ends_with (c : Z) (s : bytes) : bool := bool_decide (last s = Some c).
Definition contains (c : Z) (s : bytes) : bool := existsb (Z.eqb c) s.
(** [trim_start_matches], [trim_end_matches] of one character *)
Fixpoint trim_start_matches (c : Z) (s : bytes) : bytes :=
  match s with x :: s' => if x =? c then trim_start_matches c s' else s | [] => [] end.
Definition trim_end_matches (c : Z) (s : bytes) : bytes := reverse (trim_start_matches c (reverse s)).

(** [str::trim]: the UTF-8 encodings of the characters Unicode calls white
    space, taken off both ends. *)
Definition white_space : list bytes :=
  [[9]; [10]; [11]; [12]; [13]; [32]; [0xc2; 0x85]; [0xc2; 0xa0]; [0xe1; 0x9a; 0x80]] ++
  ((λ c, [0xe2; 0x80; c]) <$> [0x80; 0x81; 0x82; 0x83; 0x84; 0x85; 0x86; 0x87; 0x88; 0x89; 0x8a; 0xa8; 0xa9; 0xaf]) ++
  [[0xe2; 0x81; 0x9f]; [0xe3; 0x80; 0x80]].
Fixpoint strip_any (ps : list bytes) (s : bytes) : option bytes :=
  match ps with
  | [] => None
  | p :: ps' => match strip_prefix p s with Some r => Some r | None => strip_any ps' s end
  end.
Fixpoint trim_chars (fuel : nat) (ps : list bytes) (s : bytes) : bytes :=
  match fuel with
  | O => s
  | S fuel' => match strip_any ps s with Some r => trim_chars fuel' ps r | None => s end
  end.
Definition trim (s : bytes) : bytes :=
  let s := trim_chars (length s) white_space s in
  reverse (trim_chars (length s) (reverse <$> white_space) (reverse s)).

(** [str::parse] into an unsigned integer of at most [max]: an optional plus
    sign, then at least one digit. *)
Fixpoint parse_digits (max n : Z) (s : bytes) : option Z :=
  match s with
  | [] => Some n
  | c :: s' =>
      if is_digit c then
        let n' := n * 10 + (c - 48) in if n' <=? max then parse_digits max n' s' else None
      else None
  end.
Definition parse_uint (max : Z) (s : bytes) : option Z :=
  match s with
  | [] => None
  | c :: s' =>
      if c =? 43 then match s' with [] => None | _ => parse_digits max 0 s' end
      else parse_digits max 0 s
  end.

(** ** [struct Target] *)

Definition header : Type := bytes * bytes.

Record Target {SocketAddr : Type} := mkTarget {
  addr : SocketAddr;
  tls : bool;
  host : bytes;
  authority : bytes;
  path : bytes;
  method : bytes;
  headers : list header;
  body : bytes;
  request_bytes : bytes;
  disable_keepalive : bool;
}.
Arguments Target : clear implicits.
Arguments mkTarget {SocketAddr}.

(** ** Fields of HTTP/2 and HTTP/3 *)

Definition named (name : bytes) (h : header) : bool := eq_ignore_ascii_case (fst h) name.

Definition is_connection_specific (name : bytes) : bool :=
  existsb (λ h, eq_ignore_ascii_case name h)
    [bstr "connection"; bstr "keep-alive"; bstr "proxy-connection"; bstr "transfer-encoding"; bstr "upgrade"].

(** One of the options of a [Connection] header, and whether any nominates
    [name]. *)
Definition lists (name value : bytes) : bool :=
  existsb (λ option, eq_ignore_ascii_case (trim_ows option) name) (split_on 44 value).
Definition nominated (headers : list header) (name : bytes) : bool :=
  existsb (λ h, named (bstr "connection") h && lists name (snd h)) headers.

Definition multiplexed_headers (headers : list header) : list header :=
  (λ h, (to_ascii_lowercase (fst h), snd h)) <$>
  List.filter (λ h,
    if named (bstr "te") h then eq_ignore_ascii_case (snd h) (bstr "trailers")
    else negb (is_connection_specific (fst h)) && negb (nominated headers (fst h))) headers.

(** ** Validation *)

(** The bytes allowed beside letters and digits, [!#$%&'*+-.^_`|~]. *)
Definition token_marks : bytes := [33; 35; 36; 37; 38; 39; 42; 43; 45; 46; 94; 95; 96; 124; 126].
Definition is_token (s : bytes) : bool :=
  negb (bool_decide (s = [])) && forallb (λ b, is_ascii_alphanumeric b || existsb (Z.eqb b) token_marks) s.
Definition is_field_value (s : bytes) : bool :=
  forallb (λ b, (b =? 9) || ((0x20 <=? b) && (b <=? 0x7e)) || (0x80 <=? b)) s.
Definition defines_content (method : bytes) : bool :=
  bytes_eqb method (bstr "POST") || bytes_eqb method (bstr "PUT") || bytes_eqb method (bstr "PATCH").

(** ** [frame_body] *)

(** The coding of one [TE] element, its parameters cut off. *)
Definition coding_name (coding : bytes) : bytes := trim_ows (default [] (head (split_on 59 coding))).

(** The loop over the headers: whether a [Content-Length] was given. *)
Fixpoint frame_loop (given : bool) (hs : list header) (body : bytes) : res bool :=
  match hs with
  | [] => Ok given
  | (name, value) :: hs' =>
      if named (bstr "te") (name, value) &&
         existsb (λ coding, eq_ignore_ascii_case (coding_name coding) (bstr "chunked")) (split_on 44 value)
      then bail "TE must not contain chunked (RFC 9112 Section 7.4)"
      else if named (bstr "transfer-encoding") (name, value)
      then bail "Transfer-Encoding is not supported: the body is sent with a Content-Length"
      else if named (bstr "content-length") (name, value) then
        let value := trim value in
        if bool_decide (value = []) || negb (forallb is_digit value) then bail "invalid Content-Length"
        else
          n ← ok_or "Content-Length overflow" (parse_uint U64_MAX value);
          if negb (n =? zlen body) then bail "Content-Length does not match the body given with -d"
          else frame_loop true hs' body
      else frame_loop given hs' body
  end.

Definition frame_body (method : bytes) (headers : list header) (body : bytes) : res (list header) :=
  given ← frame_loop false headers body;
  let headers := List.filter (λ h, negb (named (bstr "content-length") h)) headers in
  Ok (if bool_decide (body = []) && (given || defines_content method)
      then headers ++ [(bstr "Content-Length", bstr "0")] else headers).

(** ** [encode_request] *)

Definition CRLF : bytes := [13; 10].

Fixpoint encode_headers (out : bytes) (hs : list header) : res bytes :=
  match hs with
  | [] => Ok out
  | (name, value) :: hs' =>
      if negb (is_token name) then bail "invalid header name"
      else if negb (is_field_value value) then bail "invalid header value"
      else encode_headers (out ++ name ++ bstr ": " ++ value ++ CRLF) hs'
  end.

Definition wants_te (headers : list header) : bool :=
  existsb (named (bstr "te")) headers &&
  negb (existsb (λ h, named (bstr "connection") h && lists (bstr "te") (snd h)) headers).

Definition encode_request (method path authority : bytes) (headers : list header) (body : bytes) : res bytes :=
  if negb (is_token method) then bail "invalid method"
  else if bool_decide (path = []) || existsb (λ b, (b <=? 0x20) || (b =? 0x7f)) path
  then bail "invalid request target"
  else if negb (is_field_value authority) then bail "invalid Host header"
  else
    out ← encode_headers
      (method ++ [32] ++ path ++ bstr " HTTP/1.1" ++ CRLF ++ bstr "Host: " ++ authority ++ CRLF) headers;
    let out := if wants_te headers then out ++ bstr "Connection: TE" ++ CRLF else out in
    let out := if bool_decide (body = []) then out
               else out ++ bstr "Content-Length: " ++ to_string (zlen body) ++ CRLF in
    Ok (out ++ CRLF ++ body).

(** ** [parse_target] *)

(** The host to resolve and the port of an authority. *)
Definition host_port (authority : bytes) (default_port : Z) : res (bytes * Z) :=
  match rsplit_once 58 authority with
  | Some (h, p) =>
      if negb (contains 93 h) || starts_with 91 authority then
        if starts_with 91 authority && negb (ends_with 93 h) then Ok (authority, default_port)
        else port ← ok_or "invalid port" (parse_uint 65535 p); Ok (h, port)
      else Ok (authority, default_port)
  | None => Ok (authority, default_port)
  end.

(** The [-H] arguments, in order: the headers and the [Host] override. *)
Fixpoint parse_headers (headers : list header) (host_override : option bytes) (args : list bytes)
  : res (list header * option bytes) :=
  match args with
  | [] => Ok (headers, host_override)
  | arg :: args' =>
      '(name, value) ← ok_or "invalid header (expected Name: Value)" (split_once 58 arg);
      let name := trim_ows name in
      let value := trim_ows value in
      if bool_decide (name = []) then bail "invalid header (empty name)"
      else if negb (is_token name) then bail "invalid header name"
      else if negb (is_field_value value) then bail "invalid header value"
      else if eq_ignore_ascii_case name (bstr "host") then parse_headers headers (Some value) args'
      else parse_headers (headers ++ [(name, value)]) host_override args'
  end.

(** [headers.push] of a default unless a header of that name was given. *)
Definition push_default (wanted : bool) (name : bytes) (value : header) (headers : list header) : list header :=
  if wanted && negb (existsb (named name) headers) then headers ++ [value] else headers.

Definition split_url (url : bytes) : res (bool * bytes) :=
  match strip_prefix (bstr "https://") url with
  | Some rest => Ok (true, rest)
  | None => match strip_prefix (bstr "http://") url with
            | Some rest => Ok (false, rest)
            | None => bail "only http:// and https:// URLs are supported"
            end
  end.

(** The fragment dropped, then the authority and the path with its query. *)
Definition split_path (rest : bytes) : bytes * bytes :=
  let rest := match split_once 35 rest with Some (before, _) => before | None => rest end in
  let '(authority, path) :=
    match break_at (λ c, (c =? 47) || (c =? 63)) rest with
    | (a, []) => (a, [47])
    | (a, p) => (a, p)
    end in
  (authority, if starts_with 63 path then [47] ++ path else path).

Section parse.
Context {SocketAddr : Type} `{Resolver SocketAddr}.

Definition parse_target (url method : bytes) (header_args : list bytes) (body : option bytes)
    (disable_keepalive : bool) : res (Target SocketAddr) :=
  if bytes_eqb method (bstr "CONNECT") then bail "CONNECT tunnels are not supported"
  else if bytes_eqb method (bstr "TRACE") && match body with Some b => negb (bool_decide (b = [])) | None => false end
  then bail "TRACE requests must not contain a body (RFC 9110 Section 9.3.8)"
  else
    '(tls, rest) ← split_url url;
    let '(url_authority, path) := split_path rest in
    if bool_decide (url_authority = []) then bail "missing host in URL"
    else
      '(host_for_lookup, port) ← host_port url_authority (if tls then 443 else 80);
      let host_for_lookup := trim_end_matches 93 (trim_start_matches 91 host_for_lookup) in
      addrs ← match to_socket_addrs host_for_lookup port with
              | Ok l => Ok l
              | Err (Bail _) => bail "failed to resolve"
              | Err e => Err e
              end;
      addr ← ok_or "no address resolved" (head addrs);
      '(headers, host_override) ← parse_headers [] None header_args;
      let headers :=
        push_default (bool_decide (is_Some body)) (bstr "content-type")
          (bstr "Content-Type", bstr "application/x-www-form-urlencoded") headers in
      let headers := push_default disable_keepalive (bstr "connection") (bstr "Connection", bstr "close") headers in
      let authority := default url_authority host_override in
      let body := default [] body in
      headers ← frame_body method headers body;
      request_bytes ← encode_request method path authority headers body;
      Ok (mkTarget addr tls host_for_lookup authority path method headers body request_bytes disable_keepalive).
End parse.

(** ** The specification: a reader of HTTP/1.1 requests *)

(** A line and what follows its CR LF. *)
Fixpoint read_line (s : bytes) : option (bytes * bytes) :=
  match s with
  | [] => None
  | c :: s' =>
      if (c =? 13) && starts_with 10 s' then Some ([], tail s')
      else '(l, r) ← read_line s'; Some (c :: l, r)
  end.

(** [Name: value] with the white space around the value removed; the name is
    a token. *)
Definition read_field (line : bytes) : option header :=
  '(name, value) ← split_once 58 line;
  if is_token name then Some (name, trim_ows value) else None.

(** The field lines up to the empty one, and what follows it. *)
Fixpoint read_fields (fuel : nat) (s : bytes) : option (list header * bytes) :=
  match fuel with
  | O => None
  | S fuel' =>
      '(line, rest) ← read_line s;
      if bool_decide (line = []) then Some ([], rest)
      else f ← read_field line; '(fs, rest) ← read_fields fuel' rest; Some (f :: fs, rest)
  end.

(** The length the fields announce: none is none, several must agree, and a
    transfer coding is not read. *)
Definition announced (fs : list header) : option Z :=
  if existsb (named (bstr "transfer-encoding")) fs then None
  else match snd <$> List.filter (named (bstr "content-length")) fs with
       | [] => Some 0
       | v :: vs => if forallb (bytes_eqb v) vs then parse_uint U64_MAX v else None
       end.

Record request := mkRequest { r_method : bytes; r_target : bytes; r_fields : list header; r_body : bytes }.

(** One request off the front of [s], and what follows it. *)
Definition read_request (s : bytes) : option (request * bytes) :=
  '(line, rest) ← read_line s;
  '(method, line) ← split_once 32 line;
  '(target, version) ← split_once 32 line;
  if bytes_eqb version (bstr "HTTP/1.1") && is_token method && negb (bool_decide (target = [])) then
    '(fields, rest) ← read_fields (S (length rest)) rest;
    n ← announced fields;
    if n <=? zlen rest then
      Some (mkRequest method target fields (take (Z.to_nat n) rest), drop (Z.to_nat n) rest)
    else None
  else None.

(** ** Lines and fields *)

Lemma read_line_app l rest : 13 ∉ l → read_line (l ++ CRLF ++ rest) = Some (l, rest).
Proof.
  induction l as [|c l IH]; intros Hl; [done|]. apply not_elem_of_cons in Hl as [Hc Hl]. cbn [app read_line].
  rewrite (proj2 (Z.eqb_neq c 13)) by done. cbn [andb]. by rewrite IH.
Qed.

Lemma break_at_app P a c b :
  Forall (λ x, P x = false) a → P c = true → break_at P (a ++ c :: b) = (a, c :: b).
Proof.
  intros Ha Hc. induction Ha as [|x a Hx Ha IH]; cbn; [by rewrite Hc|]. by rewrite Hx, IH.
Qed.
Lemma split_once_app c a b : c ∉ a → split_once c (a ++ c :: b) = Some (a, b).
Proof.
  intros Ha. unfold split_once. rewrite break_at_app; [done| |apply Z.eqb_refl].
  apply Forall_forall. intros x Hx. apply Z.eqb_neq. intros <-. done.
Qed.

Lemma token_free s c : is_token s = true → is_ascii_alphanumeric c = false → existsb (Z.eqb c) token_marks = false → c ∉ s.
Proof.
  unfold is_token. intros [_ Hs]%andb_prop H1 H2 Hin. rewrite forallb_forall in Hs.
  apply list_elem_of_In, Hs in Hin. by rewrite H1, H2 in Hin.
Qed.
Lemma token_nonempty s : is_token s = true → s ≠ [].
Proof. unfold is_token. intros [H _]%andb_prop ->. done. Qed.
Lemma value_free s c : is_field_value s = true →
  (c =? 9) || ((0x20 <=? c) && (c <=? 0x7e)) || (0x80 <=? c) = false → c ∉ s.
Proof.
  unfold is_field_value. intros Hs Hc Hin. rewrite forallb_forall in Hs.
  apply list_elem_of_In, Hs in Hin. congruence.
Qed.

(** A header that [encode_request] accepts. *)
Definition valid (h : header) : Prop := is_token (fst h) = true ∧ is_field_value (snd h) = true.
Definition header_line (h : header) : bytes := fst h ++ bstr ": " ++ snd h ++ CRLF.
Definition trimmed (h : header) : header := (fst h, trim_ows (snd h)).

Lemma encode_headers_Ok hs : ∀ out out',
  encode_headers out hs = Ok out' ↔ Forall valid hs ∧ out' = out ++ concat (header_line <$> hs).
Proof.
  induction hs as [|[n v] hs IH]; intros out out'; cbn [encode_headers].
  { split; [intros [= <-]|intros [_ ->]]; cbn; rewrite app_nil_r; [by split|done]. }
  rewrite Forall_cons. unfold valid at 1. cbn [fst snd fmap list_fmap concat]. unfold header_line at 1. cbn [fst snd].
  destruct (is_token n); cbn [negb]; [|split; [done|naive_solver]].
  destruct (is_field_value v); cbn [negb]; [|split; [done|naive_solver]].
  rewrite IH. rewrite <- !app_assoc. naive_solver.
Qed.

Lemma trim_ows_space v : trim_ows (32 :: v) = trim_ows v.
Proof. done. Qed.

Lemma read_field_line h : valid h → read_field (fst h ++ bstr ": " ++ snd h) = Some (trimmed h).
Proof.
  intros [Hn Hv]. unfold read_field. change (bstr ": " ++ snd h) with (58 :: 32 :: snd h).
  rewrite split_once_app by by apply token_free. cbn [mbind option_bind]. by rewrite Hn.
Qed.

Lemma line_free h : valid h → 13 ∉ fst h ++ bstr ": " ++ snd h.
Proof.
  intros [Hn Hv]. rewrite !elem_of_app. intros [H|[H|H]]; [|apply list_elem_of_In in H; cbn in H; lia|].
  - by apply (token_free _ 13) in H.
  - by apply (value_free _ 13) in H.
Qed.

Lemma read_fields_lines hs rest : Forall valid hs → ∀ fuel,
  (length hs < fuel)%nat →
  read_fields fuel (concat (header_line <$> hs) ++ CRLF ++ rest) = Some (trimmed <$> hs, rest).
Proof.
  induction 1 as [|h hs Hh Hhs IH]; intros fuel Hf; (destruct fuel as [|fuel]; [cbn in Hf; lia|]); cbn [read_fields].
  { done. }
  cbn [fmap list_fmap concat]. unfold header_line at 1. rewrite <- !app_assoc.
  replace (fst h ++ bstr ": " ++ snd h ++ CRLF ++ concat (header_line <$> hs) ++ CRLF ++ rest)
    with ((fst h ++ bstr ": " ++ snd h) ++ CRLF ++ concat (header_line <$> hs) ++ CRLF ++ rest)
    by by rewrite <- !app_assoc.
  rewrite read_line_app by by apply line_free. cbn [mbind option_bind].
  rewrite bool_decide_eq_false_2.
  - rewrite read_field_line by done. cbn [mbind option_bind]. rewrite IH by (cbn in Hf; lia). done.
  - intros [_ E]%app_eq_nil. done.
Qed.

Lemma header_lines_length hs : (length hs ≤ length (concat (header_line <$> hs)))%nat.
Proof.
  induction hs as [|h hs IH]; cbn; [lia|]. unfold header_line at 1. rewrite !length_app.
  change (length CRLF) with 2%nat. lia.
Qed.

(** ** Trimming *)

Lemma trim_front_idem s : trim_front (trim_front s) = trim_front s.
Proof. induction s as [|c s IH]; cbn; [done|]. destruct (is_ows c) eqn:E; [done|]. cbn. by rewrite E. Qed.
Lemma trim_front_head s c r : trim_front s = c :: r → is_ows c = false.
Proof. induction s as [|x s IH]; cbn; [done|]. destruct (is_ows x) eqn:E; [done|]. by intros [= <- _]. Qed.
Lemma trim_front_id s : (∀ c, head s = Some c → is_ows c = false) → trim_front s = s.
Proof. destruct s as [|c s]; cbn; [done|]. intros H. by rewrite (H c eq_refl). Qed.
Lemma trim_front_suffix s : ∃ p, s = p ++ trim_front s.
Proof.
  induction s as [|c s IH]; cbn; [by exists []|]. destruct (is_ows c); [|by exists []].
  destruct IH as [p IH]. exists (c :: p). cbn. by rewrite <- IH.
Qed.
Lemma trim_ows_idem s : trim_ows (trim_ows s) = trim_ows s.
Proof.
  unfold trim_ows. set (a := trim_front s). set (b := trim_front (reverse a)).
  assert (trim_front (reverse b) = reverse b) as ->.
  { apply trim_front_id. intros c Hc. destruct (trim_front_suffix (reverse a)) as [p Hp]. fold b in Hp.
    apply (f_equal reverse) in Hp. rewrite reverse_involutive, reverse_app in Hp.
    destruct (reverse b) as [|x r]; [done|]. injection Hc as ->. cbn in Hp. by apply (trim_front_head s c (r ++ reverse p)). }
  rewrite reverse_involutive. unfold b. by rewrite trim_front_idem.
Qed.

(** ** Decimal numbers *)

Lemma parse_digits_app max s k : ∀ n,
  parse_digits max n (s ++ k) = m ← parse_digits max n s; parse_digits max m k.
Proof.
  induction s as [|c s IH]; intros n; cbn; [done|]. destruct (is_digit c); [|done]. destruct (_ <=? max); [apply IH|done].
Qed.

Lemma parse_to_digits max fuel : ∀ n acc,
  0 ≤ n < 10 ^ Z.of_nat fuel → n ≤ max →
  parse_digits max 0 (to_digits fuel n acc) = parse_digits max n acc.
Proof.
  induction fuel as [|fuel IH]; intros n acc Hn Hmax; [cbn in *; replace n with 0 by lia; done|].
  rewrite Nat2Z.inj_succ, Z.pow_succ_r in Hn by lia. cbn [to_digits]. destruct (Z.ltb_spec n 10).
  - cbn [parse_digits]. replace (is_digit (48 + n)) with true by (symmetry; unfold is_digit; apply andb_true_iff; split; apply Z.leb_le; lia).
    replace (0 * 10 + (48 + n - 48)) with n by lia. by rewrite (proj2 (Z.leb_le n max)).
  - assert (0 ≤ n mod 10 < 10) by (apply Z.mod_pos_bound; lia). pose proof (Z.div_mod n 10 ltac:(lia)).
    rewrite IH by (try split; try apply Z.div_lt_upper_bound; try apply Z.div_pos; lia).
    cbn [parse_digits]. replace (is_digit _) with true by (symmetry; unfold is_digit; apply andb_true_iff; split; apply Z.leb_le; lia).
    replace (n / 10 * 10 + (48 + n mod 10 - 48)) with n by lia. by rewrite (proj2 (Z.leb_le n max)).
Qed.

Lemma to_digits_all (P : Z → Prop) fuel : ∀ n acc,
  0 ≤ n → (∀ d, 0 ≤ d < 10 → P (48 + d)) → Forall P acc → Forall P (to_digits fuel n acc).
Proof.
  induction fuel as [|fuel IH]; intros n acc Hn HP Hacc; cbn; [done|]. destruct (Z.ltb_spec n 10).
  - constructor; [apply HP; lia|done].
  - apply IH; [apply Z.div_pos; lia|done|]. constructor; [apply HP; apply Z.mod_pos_bound; lia|done].
Qed.
Lemma to_string_all (P : Z → Prop) n : 0 ≤ n → (∀ d, 0 ≤ d < 10 → P (48 + d)) → Forall P (to_string n).
Proof. intros. by apply to_digits_all. Qed.

Lemma to_digits_nonempty fuel n acc : (0 < fuel)%nat ∨ acc ≠ [] → to_digits fuel n acc ≠ [].
Proof.
  revert n acc. induction fuel as [|fuel IH]; intros n acc H; cbn; [destruct H; [lia|done]|].
  destruct (n <? 10); [done|]. apply IH. by right.
Qed.
Lemma to_string_nonempty n : to_string n ≠ [].
Proof. apply to_digits_nonempty. left. lia. Qed.

Lemma parse_uint_to_string n : 0 ≤ n < 2 ^ 64 → parse_uint U64_MAX (to_string n) = Some n.
Proof.
  intros Hn. pose proof (to_string_nonempty n) as Hne.
  assert (Forall (λ c, c ≠ 43) (to_string n)) as Hall by (apply to_string_all; [lia|]; intros d ?; lia).
  assert (parse_digits U64_MAX 0 (to_string n) = Some n) as E.
  { unfold to_string. rewrite parse_to_digits; [done| |]; unfold U64_MAX; cbn; lia. }
  unfold parse_uint. destruct (to_string n) as [|c s]; [done|]. apply Forall_cons in Hall as [Hc _].
  by rewrite (proj2 (Z.eqb_neq c 43)).
Qed.

(** ** The headers of a target *)

(** What [parse_target] promises of a header list: every header is sendable as
    it stands, and trimmed. *)
Definition clean (h : header) : Prop := valid h ∧ trimmed h = h.

Lemma parse_headers_clean args : ∀ hs ho hs' ho',
  Forall clean hs → Forall (λ h, named (bstr "host") h = false) hs →
  match ho with Some v => trim_ows v = v ∧ is_field_value v = true | None => True end →
  parse_headers hs ho args = Ok (hs', ho') →
  Forall clean hs' ∧ Forall (λ h, named (bstr "host") h = false) hs' ∧
  match ho' with Some v => trim_ows v = v ∧ is_field_value v = true | None => True end.
Proof.
  induction args as [|arg args IH]; intros hs ho hs' ho' Hhs Hhost Hho; cbn [parse_headers].
  { intros [= <- <-]. done. }
  intros E. apply bind_Ok in E as ([n v] & _ & E).
  case_bool_decide; [done|]. destruct (is_token (trim_ows n)) eqn:Hn; [|done].
  destruct (is_field_value (trim_ows v)) eqn:Hv; [|done]. cbn [negb] in E.
  destruct (eq_ignore_ascii_case (trim_ows n) (bstr "host")) eqn:Hh.
  - eapply IH; [exact Hhs|exact Hhost| |exact E]. split; [apply trim_ows_idem|done].
  - eapply IH; [| |exact Hho|exact E].
    + apply Forall_app. split; [done|]. apply Forall_singleton. split; [done|]. unfold trimmed. cbn [fst snd]. by rewrite trim_ows_idem.
    + apply Forall_app. split; [done|]. by apply Forall_singleton.
Qed.

Lemma push_default_Forall (P : header → Prop) wanted name h hs :
  P h → Forall P hs → Forall P (push_default wanted name h hs).
Proof. intros Hh Hhs. unfold push_default. destruct (_ && _); [|done]. apply Forall_app. split; [done|]. by apply Forall_singleton. Qed.

Lemma frame_loop_Ok hs body : ∀ given given',
  frame_loop given hs body = Ok given' →
  Forall (λ h, named (bstr "transfer-encoding") h = false) hs ∧
  given' = given || existsb (named (bstr "content-length")) hs.
Proof.
  induction hs as [|[n v] hs IH]; intros given given'; cbn [frame_loop existsb].
  { intros [= <-]. by rewrite orb_false_r. }
  destruct (named (bstr "te") (n, v) && _); [done|].
  destruct (named (bstr "transfer-encoding") (n, v)) eqn:Hte; [done|].
  destruct (named (bstr "content-length") (n, v)).
  - destruct (_ || _); [done|]. intros E. apply bind_Ok in E as (m & _ & E). destruct (negb _); [done|].
    apply IH in E as [Hall ->]. split; [by constructor|]. by rewrite orb_true_r.
  - intros E. apply IH in E as [Hall ->]. by split; [constructor|].
Qed.

(** How the body ends up framed: no transfer coding, and no [Content-Length]
    but the [0] of a request without a body. *)
Definition framed (body : bytes) (hs : list header) : Prop :=
  Forall (λ h, named (bstr "transfer-encoding") h = false) hs ∧
  (List.filter (named (bstr "content-length")) hs = [] ∨
   body = [] ∧ List.filter (named (bstr "content-length")) hs = [(bstr "Content-Length", bstr "0")]).

Lemma filter_filter_neg {A} (f : A → bool) l : List.filter f (List.filter (λ x, negb (f x)) l) = [].
Proof. induction l as [|x l IH]; cbn; [done|]. destruct (f x) eqn:E; cbn; [done|]. by rewrite E. Qed.

Lemma Forall_list_filter {A} (P : A → Prop) f l : Forall P l → Forall P (List.filter f l).
Proof. induction 1; cbn; [done|]. destruct (f x); [by constructor|done]. Qed.

Lemma frame_body_framed method hs body hs' : frame_body method hs body = Ok hs' → framed body hs'.
Proof.
  unfold frame_body. intros E. apply bind_Ok in E as (given & Hgiven%frame_loop_Ok & [= <-]). destruct Hgiven as [Hte _].
  pose proof (Forall_list_filter _ (λ h, negb (named (bstr "content-length") h)) _ Hte) as Hte'.
  destruct (bool_decide (body = []) && _) eqn:Hb.
  - apply andb_prop in Hb as [Hb%bool_decide_eq_true _]. split.
    + apply Forall_app. split; [done|]. by apply Forall_singleton.
    + right. rewrite List.filter_app, filter_filter_neg. done.
  - split; [done|]. left. apply filter_filter_neg.
Qed.

Lemma frame_body_Forall (P : header → Prop) method hs body hs' :
  P (bstr "Content-Length", bstr "0") → Forall P hs → frame_body method hs body = Ok hs' → Forall P hs'.
Proof.
  intros H0 Hhs. unfold frame_body. intros E. apply bind_Ok in E as (given & _ & [= <-]).
  pose proof (Forall_list_filter _ (λ h, negb (named (bstr "content-length") h)) _ Hhs) as Hf.
  destruct (_ && _); [|done]. apply Forall_app. split; [done|]. by apply Forall_singleton.
Qed.

(** What holds of every parsed target. *)
Record well_formed {SocketAddr} (t : Target SocketAddr) : Prop := {
  wf_method : is_token (method t) = true;
  wf_path : path t ≠ [] ∧ Forall (λ b, 0x20 < b ∧ b ≠ 0x7f) (path t);
  wf_authority : is_field_value (authority t) = true;
  wf_headers : Forall clean (headers t);
  wf_no_host : Forall (λ h, named (bstr "host") h = false) (headers t);
  wf_framed : framed (body t) (headers t);
  wf_request : request_bytes t =
    method t ++ [32] ++ path t ++ bstr " HTTP/1.1" ++ CRLF ++
    concat (header_line <$> (bstr "Host", authority t) :: headers t ++
      (if wants_te (headers t) then [(bstr "Connection", bstr "TE")] else []) ++
      (if bool_decide (body t = []) then [] else [(bstr "Content-Length", to_string (zlen (body t)))])) ++
    CRLF ++ body t;
}.

Lemma encode_request_Ok m p a hs body out :
  encode_request m p a hs body = Ok out →
  is_token m = true ∧ (p ≠ [] ∧ Forall (λ b, 0x20 < b ∧ b ≠ 0x7f) p) ∧ is_field_value a = true ∧ Forall valid hs ∧
  out = m ++ [32] ++ p ++ bstr " HTTP/1.1" ++ CRLF ++
    concat (header_line <$> (bstr "Host", a) :: hs ++
      (if wants_te hs then [(bstr "Connection", bstr "TE")] else []) ++
      (if bool_decide (body = []) then [] else [(bstr "Content-Length", to_string (zlen body))])) ++ CRLF ++ body.
Proof.
  unfold encode_request. destruct (is_token m); [|done]. cbn [negb].
  destruct (bool_decide (p = []) || _) eqn:Hp; [done|]. apply orb_false_iff in Hp as [Hp Hpb].
  destruct (is_field_value a); [|done]. cbn [negb]. intros E. apply bind_Ok in E as (out1 & E1 & <-%Ok_inj).
  apply encode_headers_Ok in E1 as [Hv ->]. split_and!; [done| | |done|done|].
  - by apply bool_decide_eq_false in Hp.
  - apply Forall_forall. intros x Hx. apply list_elem_of_In in Hx.
    destruct (Z.leb_spec x 0x20); [|destruct (Z.eqb_spec x 0x7f); [|lia]].
    + exfalso. eapply not_true_iff_false; [exact Hpb|]. apply existsb_exists. exists x. split; [done|].
      apply orb_true_iff. left. by apply Z.leb_le.
    + exfalso. eapply not_true_iff_false; [exact Hpb|]. apply existsb_exists. exists x. split; [done|].
      apply orb_true_iff. right. by apply Z.eqb_eq.
  - assert (∀ n v, header_line (n, v) = n ++ bstr ": " ++ v ++ CRLF) as Hline by done.
    rewrite fmap_cons, !fmap_app, concat_cons, !concat_app, Hline.
    change (bstr "Host: ") with (bstr "Host" ++ bstr ": ").
    change (bstr "Content-Length: ") with (bstr "Content-Length" ++ bstr ": ").
    change (bstr "Connection: TE") with (bstr "Connection" ++ bstr ": " ++ bstr "TE").
    destruct (wants_te hs), (bool_decide (body = []));
      rewrite ?fmap_cons, ?fmap_nil, ?concat_cons, ?Hline, ?concat_nil, ?app_nil_l, ?app_nil_r, <- ?app_assoc; done.
Qed.

(** ** The request, read back *)

(** The field lines of the HTTP/1.1 request. *)
Definition request_fields {SocketAddr} (t : Target SocketAddr) : list header :=
  (bstr "Host", trim_ows (authority t)) :: headers t ++
  (if wants_te (headers t) then [(bstr "Connection", bstr "TE")] else []) ++
  (if bool_decide (body t = []) then [] else [(bstr "Content-Length", to_string (zlen (body t)))]).

Lemma no_ows_trimmed s : Forall (λ c, is_ows c = false) s → trim_ows s = s.
Proof. apply http1_parse.trim_ows_plain. Qed.

Lemma content_length_clean n : 0 ≤ n → clean (bstr "Content-Length", to_string n).
Proof.
  intros Hn. split; [split; [done|]|].
  - apply forallb_forall. intros x Hx%list_elem_of_In. revert x Hx. apply Forall_forall, to_string_all; [done|].
    intros d Hd. rewrite (proj2 (Z.leb_le 0x20 (48 + d))), (proj2 (Z.leb_le (48 + d) 0x7e)) by lia. by rewrite orb_true_r.
  - unfold trimmed. cbn [fst snd]. f_equal. apply no_ows_trimmed, to_string_all; [done|]. intros d Hd. unfold is_ows.
    by rewrite !(proj2 (Z.eqb_neq _ _)) by lia.
Qed.

Lemma filter_none {A} (f : A → bool) l : Forall (λ x, f x = false) l → List.filter f l = [].
Proof. induction 1 as [|x l Hx Hl IH]; cbn; [done|]. by rewrite Hx. Qed.
Lemma existsb_none {A} (f : A → bool) l : Forall (λ x, f x = false) l → existsb f l = false.
Proof. induction 1 as [|x l Hx Hl IH]; cbn; [done|]. by rewrite Hx. Qed.

Lemma filter_request_fields {SocketAddr} (t : Target SocketAddr) :
  List.filter (named (bstr "content-length")) (request_fields t) =
  List.filter (named (bstr "content-length")) (headers t) ++
    (if bool_decide (body t = []) then [] else [(bstr "Content-Length", to_string (zlen (body t)))]).
Proof.
  unfold request_fields. cbn [List.filter].
  change (named (bstr "content-length") (bstr "Host", trim_ows (authority t))) with false. cbv iota.
  rewrite !List.filter_app. f_equal. by destruct (wants_te _), (bool_decide _).
Qed.

(** The length the request announces is the body's. *)
Lemma announced_body {SocketAddr} (t : Target SocketAddr) :
  framed (body t) (headers t) → zlen (body t) < 2 ^ 64 → announced (request_fields t) = Some (zlen (body t)).
Proof.
  intros [Hte Hcl] Hlen. pose proof (zlen_nonneg (body t)). unfold announced, request_fields.
  rewrite existsb_none.
  2: { apply Forall_cons. split; [done|]. apply Forall_app. split; [done|]. apply Forall_app.
       split; [destruct (wants_te _)|case_bool_decide]; repeat constructor. }
  fold (request_fields t). rewrite filter_request_fields. case_bool_decide as Hb.
  - rewrite app_nil_r, Hb in *. destruct Hcl as [-> |[_ ->]]; done.
  - destruct Hcl as [-> |[? _]]; [|done]. cbn [app fmap list_fmap snd forallb]. by rewrite parse_uint_to_string.
Qed.

Lemma clean_trimmed hs : Forall clean hs → trimmed <$> hs = hs.
Proof. induction 1 as [|h hs [_ Hh] _ IH]; cbn; [done|]. by rewrite Hh, IH. Qed.

Lemma well_formed_reads {SocketAddr} (t : Target SocketAddr) rest :
  well_formed t → zlen (body t) < 2 ^ 64 →
  read_request (request_bytes t ++ rest) =
    Some (mkRequest (method t) (path t) (request_fields t) (body t), rest).
Proof.
  intros Hwf Hlen. pose proof (zlen_nonneg (body t)) as H0. rewrite (wf_request t Hwf).
  set (extra := (if wants_te (headers t) then _ else _) ++ (if bool_decide _ then _ else _)).
  assert (Forall clean extra) as Hextra.
  { subst extra. apply Forall_app. split; [destruct (wants_te _); repeat constructor|].
    case_bool_decide; [done|]. apply Forall_singleton. by apply content_length_clean. }
  set (hs := (bstr "Host", authority t) :: headers t ++ extra).
  assert (Forall valid hs) as Hvalid.
  { subst hs. constructor; [split; [done|exact (wf_authority t Hwf)]|].
    apply Forall_app. split; eapply Forall_impl; [exact (wf_headers t Hwf)| |exact Hextra|]; by intros h [? _]. }
  assert (trimmed <$> hs = request_fields t) as Hfields.
  { subst hs. cbn [fmap list_fmap]. rewrite fmap_app. unfold request_fields.
    rewrite clean_trimmed by exact (wf_headers t Hwf). by rewrite (clean_trimmed extra). }
  destruct (wf_path t Hwf) as [Hne Hpath]. rewrite Forall_forall in Hpath.
  assert (32 ∉ method t ∧ 13 ∉ method t) as [Hm32 Hm13] by (split; by apply token_free; [apply (wf_method t Hwf)|..]).
  unfold read_request. rewrite <- !app_assoc.
  replace (method t ++ [32] ++ path t ++ bstr " HTTP/1.1" ++ CRLF ++ concat (header_line <$> hs) ++ CRLF ++ body t ++ rest)
    with ((method t ++ [32] ++ path t ++ bstr " HTTP/1.1") ++ CRLF ++ concat (header_line <$> hs) ++ CRLF ++ body t ++ rest)
    by by rewrite <- !app_assoc.
  rewrite read_line_app.
  2: { rewrite !elem_of_app, list_elem_of_singleton. intros [?|[?|[Hin|Hin]]]; [done|done| |].
       - apply Hpath in Hin. lia.
       - apply list_elem_of_In in Hin. cbn in Hin. lia. }
  cbn [mbind option_bind]. cbn [app]. rewrite split_once_app by done. cbn [mbind option_bind].
  change (bstr " HTTP/1.1") with (32 :: bstr "HTTP/1.1"). rewrite split_once_app.
  2: { intros Hin. apply Hpath in Hin. lia. }
  cbn [mbind option_bind]. rewrite (wf_method t Hwf), bool_decide_eq_false_2 by done.
  change (bytes_eqb (bstr "HTTP/1.1") (bstr "HTTP/1.1") && true && negb false) with true. cbv iota.
  rewrite read_fields_lines; [|done|].
  2: { rewrite length_app. pose proof (header_lines_length hs). lia. }
  cbn [mbind option_bind]. rewrite Hfields, (announced_body t (wf_framed t Hwf) Hlen). cbn [mbind option_bind].
  rewrite zlen_app, (proj2 (Z.leb_le _ _)) by (pose proof (zlen_nonneg rest); lia).
  unfold zlen. rewrite Nat2Z.id, take_app_length, drop_app_length. done.
Qed.

(** ** The fields of HTTP/2 and HTTP/3 *)

Lemma lower_idem c : lower (lower c) = lower c.
Proof.
  unfold lower. destruct ((65 <=? c) && (c <=? 90)) eqn:E; [|by rewrite E].
  apply andb_prop in E as [H1%Z.leb_le H2%Z.leb_le].
  by rewrite (proj2 (Z.leb_gt (c + 32) 90)), andb_false_r by lia.
Qed.
Lemma lowercase_idem s : to_ascii_lowercase (to_ascii_lowercase s) = to_ascii_lowercase s.
Proof.
  unfold to_ascii_lowercase. rewrite <- list_fmap_compose. apply list_fmap_ext. intros i c _. apply lower_idem.
Qed.
Lemma eq_ignore_lower s n : eq_ignore_ascii_case (to_ascii_lowercase s) n = eq_ignore_ascii_case s n.
Proof. unfold eq_ignore_ascii_case. by rewrite lowercase_idem. Qed.
Lemma named_lower n h : named n (to_ascii_lowercase (fst h), snd h) = named n h.
Proof. unfold named. cbn. apply eq_ignore_lower. Qed.

Lemma token_lower s : is_token s = true → is_token (to_ascii_lowercase s) = true.
Proof.
  unfold is_token, to_ascii_lowercase. intros [Hne Hs]%andb_prop. apply andb_true_iff. split.
  - destruct s; [done|]. done.
  - rewrite forallb_forall in Hs |- *. intros x Hx. apply list_elem_of_In, list_elem_of_fmap in Hx as (c & -> & Hc).
    apply list_elem_of_In, Hs in Hc. revert Hc. unfold lower.
    destruct ((65 <=? c) && (c <=? 90)) eqn:E; [|done]. intros _. apply andb_prop in E as [?%Z.leb_le ?%Z.leb_le].
    apply orb_true_iff. left. unfold is_ascii_alphanumeric. apply orb_true_iff. right.
    apply andb_true_iff. split; apply Z.leb_le; lia.
Qed.

(** A field that may be sent on a multiplexed connection (RFC 9113 Section 8.2,
    RFC 9114 Section 4.2): a lower-case token, a printable value without white
    space around it, and not about the connection. *)
Record sendable (h : header) : Prop := {
  s_clean : clean h;
  s_lower : to_ascii_lowercase (fst h) = fst h;
  s_not_host : named (bstr "host") h = false;
  s_not_connection : is_connection_specific (fst h) = false;
  s_te : named (bstr "te") h = true → eq_ignore_ascii_case (snd h) (bstr "trailers") = true;
}.

Lemma existsb_lower (f : bytes → bytes → bool) s l :
  (∀ n, f (to_ascii_lowercase s) n = f s n) → existsb (f (to_ascii_lowercase s)) l = existsb (f s) l.
Proof. intros Hf. induction l as [|x l IH]; cbn; [done|]. by rewrite Hf, IH. Qed.

Lemma te_not_connection s : eq_ignore_ascii_case s (bstr "te") = true → is_connection_specific s = false.
Proof.
  unfold eq_ignore_ascii_case, bytes_eqb. intros Hs%bool_decide_eq_true.
  unfold is_connection_specific, eq_ignore_ascii_case, bytes_eqb. rewrite Hs. done.
Qed.

Lemma multiplexed_sendable hs :
  Forall clean hs → Forall (λ h, named (bstr "host") h = false) hs → Forall sendable (multiplexed_headers hs).
Proof.
  intros Hc Hh. apply Forall_forall. intros h' Hin. unfold multiplexed_headers in Hin.
  apply list_elem_of_fmap in Hin as (h & -> & Hin%list_elem_of_In). apply List.filter_In in Hin as [Hin Hkeep].
  apply list_elem_of_In in Hin. rewrite Forall_forall in Hc, Hh. destruct (Hc _ Hin) as [[Hn Hv] Ht].
  constructor; cbn [fst snd].
  - split; [split; [by apply token_lower|done]|]. unfold trimmed in *. cbn. f_equal.
    destruct h. cbn in *. by injection Ht as ->.
  - apply lowercase_idem.
  - rewrite named_lower. by apply Hh.
  - unfold is_connection_specific. rewrite existsb_lower by (intros; apply eq_ignore_lower).
    fold (is_connection_specific (fst h)). destruct (named (bstr "te") h) eqn:Hte; [by apply te_not_connection|].
    apply andb_prop in Hkeep as [Hk _]. by apply negb_true_iff in Hk.
  - rewrite named_lower. intros Hte. by rewrite Hte in Hkeep.
Qed.

Lemma filter_sublist_nil {A} (f g : A → bool) l : List.filter f l = [] → List.filter f (List.filter g l) = [].
Proof.
  intros Hf. apply filter_none, Forall_forall. intros x [Hx _]%list_elem_of_In%List.filter_In.
  destruct (f x) eqn:E; [|done]. assert (x ∈ List.filter f l) as H by by apply list_elem_of_In, List.filter_In.
  rewrite Hf in H. by apply not_elem_of_nil in H.
Qed.

Lemma filter_map_lower n (g : header → bool) l :
  List.filter (named n) ((λ h, (to_ascii_lowercase (fst h), snd h)) <$> List.filter g l) =
  (λ h, (to_ascii_lowercase (fst h), snd h)) <$> List.filter g (List.filter (named n) l).
Proof.
  induction l as [|h l IH]; [done|]. cbn [List.filter]. destruct (g h) eqn:Hg.
  - cbn [fmap list_fmap List.filter]. rewrite named_lower. destruct (named n h); cbn [List.filter]; rewrite ?Hg; cbn; by f_equal.
  - destruct (named n h); cbn [List.filter]; rewrite ?Hg; exact IH.
Qed.

(** The length the multiplexed fields announce, together with the field the
    encoders add for a body. *)
Lemma announced_multiplexed body hs extra :
  framed body hs → zlen body < 2 ^ 64 →
  Forall (λ h, named (bstr "transfer-encoding") h = false ∧ named (bstr "content-length") h = false) extra →
  Forall sendable (multiplexed_headers hs) →
  announced (extra ++ multiplexed_headers hs ++
    (if 0 <? zlen body then [(bstr "content-length", to_string (zlen body))] else [])) = Some (zlen body).
Proof.
  intros [_ Hcl] Hlen Hex Hsend. pose proof (zlen_nonneg body) as H0. unfold announced. rewrite existsb_none.
  2: { apply Forall_app. split; [by eapply Forall_impl; [exact Hex|]; intros h [? _]|]. apply Forall_app. split.
       - eapply Forall_impl; [exact Hsend|]. intros h Hh. apply s_not_connection in Hh. unfold is_connection_specific in Hh.
         cbn [existsb] in Hh. by repeat (apply orb_false_iff in Hh as [? Hh]).
       - destruct (0 <? _); [|done]. by apply Forall_singleton. }
  rewrite !List.filter_app, (filter_none _ extra).
  2: { eapply Forall_impl; [exact Hex|]. by intros h [_ ?]. }
  unfold multiplexed_headers. rewrite filter_map_lower. set (g := λ h : header, _). destruct (Z.ltb_spec 0 (zlen body)).
  - assert (List.filter (named (bstr "content-length")) hs = []) as ->.
    { destruct Hcl as [? |[-> _]]; [done|]. change (zlen []) with 0 in *. lia. }
    cbn [List.filter fmap list_fmap app]. change (named (bstr "content-length") (bstr "content-length", ?v)) with true.
    cbn [fmap list_fmap snd forallb]. by rewrite parse_uint_to_string.
  - assert (zlen body = 0) as -> by lia. cbn [List.filter]. rewrite app_nil_r.
    destruct Hcl as [-> |[_ ->]]; [done|]. cbn [List.filter]. by destruct (g _).
Qed.

(** ** What the command line asks for *)

(** [url] is a scheme, an authority, a path with its query, which [path] is but
    for the slash of an empty path, and a fragment. *)
Definition url_asks (url : bytes) (https : bool) (authority path : bytes) : Prop :=
  ∃ tail fragment,
    url = (if https then bstr "https://" else bstr "http://") ++ authority ++ tail ++ fragment ∧
    authority ≠ [] ∧ Forall (λ c, c ≠ 47 ∧ c ≠ 63 ∧ c ≠ 35) authority ∧
    (tail = [] ∨ head tail = Some 47 ∨ head tail = Some 63) ∧ 35 ∉ tail ∧ (fragment = [] ∨ head fragment = Some 35) ∧
    path = match tail with [] => [47] | c :: _ => if c =? 63 then 47 :: tail else tail end.
(** A [-H] argument: a name and a value around the first colon. *)
Definition asks (arg : bytes) (h : header) : Prop :=
  ∃ name value, arg = name ++ [58] ++ value ∧ 58 ∉ name ∧ h = (trim_ows name, trim_ows value).

(** Which of the headers asked for are sent as given: all but [Host], which
    replaces the authority, and [Content-Length], which is derived. *)
Definition sent_as_given (h : header) : bool := negb (named (bstr "host") h) && negb (named (bstr "content-length") h).
Definition host_asked (authority : bytes) (asked : list header) : bytes :=
  default authority (last (snd <$> List.filter (named (bstr "host")) asked)).
(** What is added to them. *)
Definition added (method : bytes) (asked : list header) (body : option bytes) (disable_keepalive : bool) : list header :=
  (if bool_decide (is_Some body) && negb (existsb (named (bstr "content-type")) asked)
   then [(bstr "Content-Type", bstr "application/x-www-form-urlencoded")] else []) ++
  (if disable_keepalive && negb (existsb (named (bstr "connection")) asked) then [(bstr "Connection", bstr "close")] else []) ++
  (if bool_decide (default [] body = []) && (existsb (named (bstr "content-length")) asked || defines_content method)
   then [(bstr "Content-Length", bstr "0")] else []) ++
  (if wants_te asked then [(bstr "Connection", bstr "TE")] else []) ++
  (if bool_decide (default [] body = []) then [] else [(bstr "Content-Length", to_string (zlen (default [] body)))]).

Lemma break_at_spec P s : ∀ a b, break_at P s = (a, b) →
  s = a ++ b ∧ Forall (λ c, P c = false) a ∧ (b = [] ∨ ∃ c b', b = c :: b' ∧ P c = true).
Proof.
  induction s as [|c s IH]; intros a b; cbn [break_at]; [intros [= <- <-]; auto|]. destruct (P c) eqn:Hc; [intros [= <- <-]; eauto 10|].
  destruct (break_at P s) as [a' b']. intros [= <- <-]. destruct (IH a' b' eq_refl) as (-> & ? & ?). auto.
Qed.
Lemma strip_prefix_Some p s r : strip_prefix p s = Some r → s = p ++ r.
Proof. unfold strip_prefix, bytes_eqb. case_bool_decide as Hp; [|done]. intros [= <-]. rewrite <- Hp at 1. by rewrite take_drop. Qed.
Lemma split_once_spec c s a b : split_once c s = Some (a, b) → s = a ++ c :: b ∧ c ∉ a.
Proof.
  unfold split_once. destruct (break_at _ s) as [a' b'] eqn:E. apply break_at_spec in E as (-> & Ha & Hb). destruct b' as [|x b']; [done|]. intros [= -> ->].
  destruct Hb as [?|(? & ? & [= <- <-] & ->%Z.eqb_eq)]; [done|]. split; [done|]. intros Hin. rewrite Forall_forall in Ha. specialize (Ha _ Hin). by rewrite Z.eqb_refl in Ha.
Qed.
Lemma split_once_None c s : split_once c s = None → c ∉ s.
Proof.
  unfold split_once. destruct (break_at _ s) as [a' [|x b']] eqn:E; [|done]. intros _. apply break_at_spec in E as (-> & Ha & _). rewrite app_nil_r.
  intros Hin. rewrite Forall_forall in Ha. specialize (Ha _ Hin). by rewrite Z.eqb_refl in Ha.
Qed.

(** The url is cut where its delimiters are. *)
Lemma split_path_asks rest authority path :
  split_path rest = (authority, path) → authority ≠ [] → ∀ https, url_asks ((if https : bool then bstr "https://" else bstr "http://") ++ rest) https authority path.
Proof.
  unfold split_path. intros Hs Hne https.
  assert (∃ before fragment, rest = before ++ fragment ∧ 35 ∉ before ∧ (fragment = [] ∨ head fragment = Some 35) ∧
    match split_once 35 rest with Some (before, _) => before | None => rest end = before) as (before & fragment & -> & Hb & Hf & E).
  { destruct (split_once 35 rest) as [[before after]|] eqn:E; [|apply split_once_None in E; exists rest, []; rewrite app_nil_r; auto].
    apply split_once_spec in E as [-> ?]. exists before, (35 :: after). auto. }
  rewrite E in Hs. clear E. destruct (break_at _ before) as [a tail] eqn:E. apply break_at_spec in E as (-> & Ha & Ht). apply not_elem_of_app in Hb as [Hba Hbt].
  assert (a = authority ∧ path = match tail with [] => [47] | c :: _ => if c =? 63 then 47 :: tail else tail end) as [-> ->].
  { destruct tail as [|c tail]; [by injection Hs as -> <-|]. injection Hs as -> <-. unfold starts_with. cbn [head]. destruct (Z.eqb_spec c 63) as [-> |Hc]; [done|].
    rewrite bool_decide_eq_false_2; [done|]. by intros [= ->]. }
  exists tail, fragment. rewrite <- app_assoc. split_and!; try done.
  - rewrite Forall_forall in Ha |- *. intros c Hc. specialize (Ha c Hc). apply orb_false_iff in Ha as [?%Z.eqb_neq ?%Z.eqb_neq]. split_and!; try done. by intros ->.
  - destruct Ht as [->|(c & b' & -> & [->%Z.eqb_eq| ->%Z.eqb_eq]%orb_prop)]; auto.
Qed.

Lemma parse_headers_asked args : ∀ hs ho hs' ho', parse_headers hs ho args = Ok (hs', ho') →
  ∃ asked, Forall2 asks args asked ∧ hs' = hs ++ List.filter (λ h, negb (named (bstr "host") h)) asked ∧
    ho' = match last (snd <$> List.filter (named (bstr "host")) asked) with Some v => Some v | None => ho end.
Proof.
  induction args as [|arg args IH]; intros hs ho hs' ho'; cbn [parse_headers]; [intros [= <- <-]; exists []; by rewrite app_nil_r|].
  intros E. apply bind_Ok in E as ([n v] & Hsp & E). case_bool_decide; [done|]. destruct (is_token (trim_ows n)); [|done]. destruct (is_field_value (trim_ows v)); [|done]. cbn [negb] in E.
  assert (asks arg (trim_ows n, trim_ows v)) as Harg.
  { unfold ok_or in Hsp. destruct (split_once 58 arg) as [[n' v']|] eqn:Es; [|done]. injection Hsp as -> ->. apply split_once_spec in Es as [-> ?]. by exists n, v. }
  change (eq_ignore_ascii_case (trim_ows n) (bstr "host")) with (named (bstr "host") (trim_ows n, trim_ows v)) in E.
  destruct (named (bstr "host") (trim_ows n, trim_ows v)) eqn:Hh; apply IH in E as (asked & Hall & -> & ->); exists ((trim_ows n, trim_ows v) :: asked);
    (split; [by constructor|]); cbn [List.filter]; rewrite Hh; cbn [negb].
  - split; [done|]. rewrite fmap_cons, last_cons. by destruct (last _).
  - by rewrite <- app_assoc.
Qed.

(** A header has one name. *)
Lemma named_other a b h : bytes_eqb (to_ascii_lowercase a) (to_ascii_lowercase b) = false → named a h = true → named b h = false.
Proof.
  unfold named, eq_ignore_ascii_case, bytes_eqb. intros Hab%bool_decide_eq_false Ha%bool_decide_eq_true. apply bool_decide_eq_false. congruence.
Qed.
Lemma existsb_filter {A} (f g : A → bool) l : (∀ x, f x = true → g x = true) → existsb f (List.filter g l) = existsb f l.
Proof.
  intros Hfg. induction l as [|x l IH]; [done|]. cbn [List.filter existsb]. destruct (g x) eqn:Hg; cbn [existsb]; rewrite IH; [done|].
  destruct (f x) eqn:Hf; [|done]. by rewrite Hfg in Hg.
Qed.
Lemma filter_twice {A} (f g : A → bool) l : List.filter f (List.filter g l) = List.filter (λ x, g x && f x) l.
Proof. induction l as [|x l IH]; [done|]. cbn [List.filter]. destruct (g x); cbn [List.filter andb]; rewrite IH; done. Qed.
Lemma existsb_given f g (hs : list header) : (∀ h, f h = true → g h = false) → existsb f (List.filter (λ h, negb (g h)) hs) = existsb f hs.
Proof. intros Hfg. apply existsb_filter. intros h Hh. by rewrite (Hfg h Hh). Qed.

Section parsed.
Context {SocketAddr : Type} `{Resolver SocketAddr}.

Lemma parse_target_well_formed url m args body ka t :
  parse_target url m args body ka = Ok t →
  well_formed t ∧ method t = m ∧ target.body t = default [] body.
Proof.
  unfold parse_target. destruct (bytes_eqb m _); [done|]. destruct (_ && _); [done|].
  intros E. apply bind_Ok in E as ([tls rest] & _ & E). destruct (split_path rest) as [ua p].
  case_bool_decide; [done|]. apply bind_Ok in E as ([hl port] & _ & E). apply bind_Ok in E as (addrs & _ & E).
  apply bind_Ok in E as (addr & _ & E). apply bind_Ok in E as ([hs ho] & Hhs & E).
  apply bind_Ok in E as (hs' & Hframe & E). apply bind_Ok in E as (req & Hreq & [= <-]).
  apply parse_headers_clean in Hhs as (Hclean & Hhost & Hho); [|done..].
  pose proof (frame_body_framed _ _ _ _ Hframe) as Hfr.
  assert (Forall clean hs') as Hc'.
  { eapply frame_body_Forall; [|apply push_default_Forall; [|apply push_default_Forall; [|exact Hclean]]|exact Hframe]; done. }
  assert (Forall (λ h, named (bstr "host") h = false) hs') as Hh'.
  { eapply frame_body_Forall; [|apply push_default_Forall; [|apply push_default_Forall; [|exact Hhost]]|exact Hframe]; done. }
  apply encode_request_Ok in Hreq as (Hm & Hp & Ha & _ & ->). split_and!; [|done|done]. by constructor.
Qed.

Lemma named_as_given n h :
  bytes_eqb (to_ascii_lowercase n) (bstr "host") = false → bytes_eqb (to_ascii_lowercase n) (bstr "content-length") = false → named n h = true → sent_as_given h = true.
Proof. intros H1 H2 Hn. unfold sent_as_given. by rewrite !(named_other n _ h) by done. Qed.

(** [wants_te] looks at the headers asked for alone. *)
Lemma wants_te_asked asked extra :
  Forall (λ h, named (bstr "te") h = false ∧ (named (bstr "connection") h && lists (bstr "te") (snd h)) = false) extra →
  wants_te (List.filter sent_as_given asked ++ extra) = wants_te asked.
Proof.
  intros Hex. unfold wants_te. rewrite !existsb_app. rewrite !(existsb_none _ extra) by (eapply Forall_impl; [exact Hex|]; by intros h [? ?]). rewrite !orb_false_r.
  rewrite !existsb_filter; [done|intros h [Hh _]%andb_prop; revert Hh|intros h]; by apply named_as_given.
Qed.

Lemma push_default_app wanted n v hs : push_default wanted n v hs = hs ++ (if wanted && negb (existsb (named n) hs) then [v] else []).
Proof. unfold push_default. destruct (_ && _); [done|by rewrite app_nil_r]. Qed.

(** The headers of an accepted target, from those asked for. *)
Lemma headers_asked m asked b ka hs :
  frame_body m (push_default ka (bstr "connection") (bstr "Connection", bstr "close")
    (push_default (bool_decide (is_Some b)) (bstr "content-type") (bstr "Content-Type", bstr "application/x-www-form-urlencoded")
      (List.filter (λ h, negb (named (bstr "host") h)) asked))) (default [] b) = Ok hs →
  hs ++ (if wants_te hs then [(bstr "Connection", bstr "TE")] else []) ++
    (if bool_decide (default [] b = []) then [] else [(bstr "Content-Length", to_string (zlen (default [] b)))]) =
  List.filter sent_as_given asked ++ added m asked b ka.
Proof.
  assert (∀ n, bytes_eqb (to_ascii_lowercase n) (bstr "host") = false →
    existsb (named n) (List.filter (λ h, negb (named (bstr "host") h)) asked) = existsb (named n) asked) as Hhas.
  { intros n Hn. apply existsb_given. intros h. by apply named_other. }
  assert (List.filter (λ h, negb (named (bstr "content-length") h)) (List.filter (λ h, negb (named (bstr "host") h)) asked) = List.filter sent_as_given asked) as Hkept
    by apply filter_twice.
  set (kept := List.filter (λ h, negb (named (bstr "host") h)) asked) in *. rewrite !push_default_app, Hhas by done. unfold added.
  set (ct := if bool_decide (is_Some b) && _ then _ else _). rewrite existsb_app, Hhas by done.
  assert (existsb (named (bstr "connection")) ct = false) as -> by (subst ct; by destruct (_ && _)). rewrite orb_false_r. set (cn := if ka && _ then _ else _).
  unfold frame_body. intros E. apply bind_Ok in E as (given & Hgiven%frame_loop_Ok & [= <-]). destruct Hgiven as [_ ->]. cbn [orb].
  assert (existsb (named (bstr "content-length")) (ct ++ cn) = false ∧ List.filter (λ h, negb (named (bstr "content-length") h)) (ct ++ cn) = ct ++ cn ∧
    Forall (λ h, named (bstr "te") h = false ∧ (named (bstr "connection") h && lists (bstr "te") (snd h)) = false) (ct ++ cn)) as (Hcl & Hid & Hte)
    by (subst ct cn; destruct (bool_decide (is_Some b) && _), (ka && _); repeat constructor).
  rewrite <- app_assoc, existsb_app, Hhas, Hcl, orb_false_r, List.filter_app, Hkept, Hid by done. set (zero := bool_decide (default [] b = []) && _).
  set (hs := if zero then _ else _).
  assert (hs = List.filter sent_as_given asked ++ (ct ++ cn) ++ (if zero then [(bstr "Content-Length", bstr "0")] else [])) as ->
    by (subst hs; destruct zero; rewrite ?app_nil_r, <- ?app_assoc; done).
  rewrite wants_te_asked by (apply Forall_app; split; [done|destruct zero; repeat constructor]). by rewrite <- !app_assoc.
Qed.

Lemma parse_target_asks url m args b ka t :
  parse_target url m args b ka = Ok t →
  ∃ authority asked, url_asks url (tls t) authority (path t) ∧ Forall2 asks args asked ∧
    request_fields t = (bstr "Host", trim_ows (host_asked authority asked)) :: List.filter sent_as_given asked ++ added m asked b ka.
Proof.
  unfold parse_target. destruct (bytes_eqb m _); [done|]. destruct (_ && _); [done|].
  intros E. apply bind_Ok in E as ([tls rest] & Hurl & E). destruct (split_path rest) as [ua p] eqn:Hpath.
  case_bool_decide as Hne; [done|]. apply bind_Ok in E as ([hl port] & _ & E). apply bind_Ok in E as (addrs & _ & E).
  apply bind_Ok in E as (addr & _ & E). apply bind_Ok in E as ([hs ho] & Hhs & E).
  apply bind_Ok in E as (hs' & Hframe & E). apply bind_Ok in E as (req & Hreq & [= <-]).
  apply parse_headers_asked in Hhs as (asked & Hall & -> & ->). cbn [app] in Hframe. exists ua, asked. cbn [target.tls target.path]. split.
  - assert (url = (if tls then bstr "https://" else bstr "http://") ++ rest) as ->; [|by apply split_path_asks].
    unfold split_url in Hurl. destruct (strip_prefix (bstr "https://") url) as [r|] eqn:H1; [apply strip_prefix_Some in H1; by injection Hurl as <- <-|].
    destruct (strip_prefix (bstr "http://") url) as [r|] eqn:H2; [|done]. apply strip_prefix_Some in H2. by injection Hurl as <- <-.
  - split; [done|]. unfold request_fields. cbn [target.authority target.headers target.body]. unfold host_asked. f_equal; [by destruct (last _)|].
    exact (headers_asked m asked b ka hs' Hframe).
Qed.

(** C32: What leaves on the wire is the request that was asked for and nothing
    else.  If the command line is accepted, a reader of HTTP/1.1 requests, given
    the encoded request and anything after it, reads exactly the method; the path
    and query of the URL, without its fragment; as [Host] the last [-H Host] or
    the authority of the URL; every other [-H] header but [Content-Length], name
    and value as given and in order; what is added to them, to the field; and the
    body.  And it stops where the request ends: no argument can inject a field, a
    line or a second request. *)
Theorem request_reads_back url m args b ka t rest :
  parse_target url m args b ka = Ok t → zlen (default [] b) < 2 ^ 64 →
  ∃ authority path asked, url_asks url (tls t) authority path ∧ Forall2 asks args asked ∧
    read_request (request_bytes t ++ rest) =
      Some (mkRequest m path ((bstr "Host", trim_ows (host_asked authority asked)) :: List.filter sent_as_given asked ++ added m asked b ka)
              (default [] b), rest).
Proof.
  intros Hp Hlen. destruct (parse_target_asks _ _ _ _ _ _ Hp) as (ua & asked & Hurl & Hargs & Hfields).
  apply parse_target_well_formed in Hp as (Hwf & <- & Hb). rewrite <- Hb in Hlen |- *. exists ua, (path t), asked. split; [done|]. split; [done|].
  rewrite <- Hfields. by apply well_formed_reads.
Qed.
End parsed.

(** ** Witnesses *)

(** A resolver that answers every name with the port itself. *)
#[local] Instance port_resolver : Resolver Z := λ _ port, Ok [port].

Definition sample_url : bytes := bstr "https://[::1]:8443?q=/a#frag".
Definition sample_args : list bytes :=
  [bstr "X-A:  a b "; bstr "TE: trailers"; bstr "Host: example.com"; bstr "content-length: 2"; bstr "Connection: X-Hop"; bstr "X-Hop: 1"].
Definition sample_target : Target Z :=
  mkTarget 8443 true (bstr "::1") (bstr "example.com") (bstr "/?q=/a") (bstr "POST")
    [(bstr "X-A", bstr "a b"); (bstr "TE", bstr "trailers"); (bstr "Connection", bstr "X-Hop"); (bstr "X-Hop", bstr "1");
     (bstr "Content-Type", bstr "application/x-www-form-urlencoded")] (bstr "hi")
    (concat ((λ l, l ++ CRLF) <$>
       [bstr "POST /?q=/a HTTP/1.1"; bstr "Host: example.com"; bstr "X-A: a b"; bstr "TE: trailers"; bstr "Connection: X-Hop";
        bstr "X-Hop: 1"; bstr "Content-Type: application/x-www-form-urlencoded"; bstr "Connection: TE";
        bstr "Content-Length: 2"; []]) ++ bstr "hi") false.
Lemma sample_parses : parse_target sample_url (bstr "POST") sample_args (Some (bstr "hi")) false = Ok sample_target.
Proof. vm_compute. reflexivity. Qed.

Definition sample_fields : list header :=
  [(bstr "Host", bstr "example.com"); (bstr "X-A", bstr "a b"); (bstr "TE", bstr "trailers"); (bstr "Connection", bstr "X-Hop"); (bstr "X-Hop", bstr "1");
   (bstr "Content-Type", bstr "application/x-www-form-urlencoded"); (bstr "Connection", bstr "TE"); (bstr "Content-Length", bstr "2")].
Lemma request_reads_back_witness :
  parse_target sample_url (bstr "POST") sample_args (Some (bstr "hi")) false = Ok sample_target ∧
  read_request (request_bytes sample_target ++ bstr "GET") = Some (mkRequest (bstr "POST") (bstr "/?q=/a") sample_fields (bstr "hi"), bstr "GET") ∧
  ∃ authority path asked, url_asks sample_url true authority path ∧ Forall2 asks sample_args asked ∧
    read_request (request_bytes sample_target ++ bstr "GET") =
      Some (mkRequest (bstr "POST") path ((bstr "Host", trim_ows (host_asked authority asked)) ::
        List.filter sent_as_given asked ++ added (bstr "POST") asked (Some (bstr "hi")) false) (bstr "hi"), bstr "GET").
Proof.
  split; [exact sample_parses|]. split; [vm_compute; reflexivity|].
  exact (request_reads_back sample_url (bstr "POST") sample_args (Some (bstr "hi")) false sample_target (bstr "GET")
    sample_parses ltac:(reflexivity)).
Defined.

(** What the tests of [src/target.rs] reject. *)
Example rejected :
  let p url m args b := parse_target url m args b false in
  let u := bstr "http://127.0.0.1:1/" in
  p (bstr "ftp://127.0.0.1/") (bstr "GET") [] None = bail "only http:// and https:// URLs are supported" ∧
  p (bstr "http://127.0.0.1:70000/") (bstr "GET") [] None = bail "invalid port" ∧
  p (bstr "http:///path") (bstr "GET") [] None = bail "missing host in URL" ∧
  p u (bstr "GE T") [] None = bail "invalid method" ∧
  p u (bstr "GET") [bstr "X-A: 1" ++ CRLF ++ bstr "X-Evil: 2"] None = bail "invalid header value" ∧
  p u (bstr "GET") [bstr "TE: chunked;q=0.5"] None = bail "TE must not contain chunked (RFC 9112 Section 7.4)" ∧
  p u (bstr "POST") [bstr "Content-Length: 2"] (Some (bstr "abc")) = bail "Content-Length does not match the body given with -d".
Proof. vm_compute. split_and!; reflexivity. Qed.

End target.
