(* ===== verification/Hpack.v ===== *)
(** * HPACK, cut down — [src/http2/hpack.rs]

    The encoder of the one request block ([encode_request], [size_update]) and
    the decoder that only looks for [:status] ([find_status]).  The reference is
    RFC 7541: its static table, its field representations ([field]) as a peer
    may write them, and a decoder of whole blocks ([decode_block]). *)

From S2P Require Import Prelude Status PrefixInt.

Module hpack.
Import prefix_int.
Abbreviation codec := prefix_int.hpack.

(** ** The encoder *)

Definition literal_indexed_name (name_index : Z) (value : bytes) : bytes :=
  encode_int 4 0x00 name_index ++ encode_str 7 0x00 value.
Definition IDX_AUTHORITY : Z := 1.
Definition size_update (size : Z) : bytes := encode_int 5 0x20 size.
Definition literal (name value : bytes) : bytes :=
  [0x00] ++ encode_str 7 0x00 name ++ encode_str 7 0x00 value.

Definition static_names : list (bytes * Z) :=
  [(bstr ":authority", 1);
   (bstr ":method", 2);
   (bstr ":path", 4);
   (bstr ":scheme", 6);
   (bstr ":status", 8);
   (bstr "accept-charset", 15);
   (bstr "accept-encoding", 16);
   (bstr "accept-language", 17);
   (bstr "accept-ranges", 18);
   (bstr "accept", 19);
   (bstr "access-control-allow-origin", 20);
   (bstr "age", 21);
   (bstr "allow", 22);
   (bstr "authorization", 23);
   (bstr "cache-control", 24);
   (bstr "content-disposition", 25);
   (bstr "content-encoding", 26);
   (bstr "content-language", 27);
   (bstr "content-length", 28);
   (bstr "content-location", 29);
   (bstr "content-range", 30);
   (bstr "content-type", 31);
   (bstr "cookie", 32);
   (bstr "date", 33);
   (bstr "etag", 34);
   (bstr "expect", 35);
   (bstr "expires", 36);
   (bstr "from", 37);
   (bstr "host", 38);
   (bstr "if-match", 39);
   (bstr "if-modified-since", 40);
   (bstr "if-none-match", 41);
   (bstr "if-range", 42);
   (bstr "if-unmodified-since", 43);
   (bstr "last-modified", 44);
   (bstr "link", 45);
   (bstr "location", 46);
   (bstr "max-forwards", 47);
   (bstr "proxy-authenticate", 48);
   (bstr "proxy-authorization", 49);
   (bstr "range", 50);
   (bstr "referer", 51);
   (bstr "refresh", 52);
   (bstr "retry-after", 53);
   (bstr "server", 54);
   (bstr "set-cookie", 55);
   (bstr "strict-transport-security", 56);
   (bstr "transfer-encoding", 57);
   (bstr "user-agent", 58);
   (bstr "vary", 59);
   (bstr "via", 60);
   (bstr "www-authenticate", 61)].
Definition static_name_index (name : bytes) : option Z :=
  snd <$> find (λ e, bytes_eqb (fst e) name) static_names.

(** One header of the [for] loop. *)
Definition encode_header (h : bytes * bytes) : bytes :=
  match static_name_index (fst h) with
  | Some index => literal_indexed_name index (snd h)
  | None => literal (fst h) (snd h)
  end.

Definition encode_request (method scheme authority path : bytes) (headers : list (bytes * bytes)) (body_len : Z) : bytes :=
  (if bytes_eqb method (bstr "GET") then [0x82]
   else if bytes_eqb method (bstr "POST") then [0x83]
   else literal_indexed_name 2 method) ++
  (if bytes_eqb scheme (bstr "http") then [0x86]
   else if bytes_eqb scheme (bstr "https") then [0x87]
   else literal_indexed_name 6 scheme) ++
  literal_indexed_name IDX_AUTHORITY authority ++
  (if bytes_eqb path (bstr "/") then [0x84] else literal_indexed_name 4 path) ++
  concat (encode_header <$> headers) ++
  (if 0 <? body_len then literal_indexed_name 28 (to_string body_len) else []).

(** ** [find_status] *)

Definition STATUS_BY_INDEX : list Z := [200; 204; 206; 304; 400; 404; 500].
Definition STATUS_INDEX_LO : Z := 8.
Definition STATUS_INDEX_HI : Z := 14.
Definition is_status_index (i : Z) : bool := (STATUS_INDEX_LO <=? i) && (i <=? STATUS_INDEX_HI).

(** The loop; every turn moves [pos] on. *)
Fixpoint find_loop (fuel : nat) (block : bytes) (pos : nat) : res (option Z) :=
  match fuel with
  | O => panic "out of fuel"
  | S fuel' =>
      if (pos <? length block)%nat then
        first ← index block pos;
        if negb (Z.land first 0x80 =? 0) then
          '(index, pos) ← decode_int codec block pos 7;
          if is_status_index index then
            match STATUS_BY_INDEX !! Z.to_nat (index - STATUS_INDEX_LO) with
            | Some status => Ok (Some status)
            | None => panic "index out of bounds"
            end
          else if index =? 0 then bail "HPACK index 0"
          else if 61 <? index then bail "HPACK dynamic table reference"
          else find_loop fuel' block pos
        else
          '(name, pos) ←
            (if negb (Z.land first 0x40 =? 0) then
               '(i, pos) ← decode_int codec block pos 6; Ok (Some i, pos)
             else if negb (Z.land first 0x20 =? 0) then
               '(_, pos) ← decode_int codec block pos 5; Ok (None, pos)
             else
               '(i, pos) ← decode_int codec block pos 4; Ok (Some i, pos));
          match name with
          | None => find_loop fuel' block pos
          | Some name_index =>
              '(named_status, pos) ←
                (if name_index =? 0 then
                   '(name, huffman, pos) ← read_str codec block pos 7;
                   Ok (bytes_eqb name (if huffman : bool then [0xb8; 0x84; 0x8d; 0x36; 0xa3] else bstr ":status"), pos)
                 else if 61 <? name_index then bail "HPACK dynamic table reference"
                 else Ok (is_status_index name_index, pos));
              '(value, huffman, pos) ← read_str codec block pos 7;
              if (named_status : bool) then Some <$> status.status_value value huffman
              else find_loop fuel' block pos
          end
      else Ok None
  end.

Definition find_status (block : bytes) : res (option Z) := find_loop (S (length block)) block 0.

(** ** RFC 7541 *)

(** Appendix A. *)
Definition static_table : list (bytes * bytes) :=
  [(bstr ":authority", []);
   (bstr ":method", bstr "GET");
   (bstr ":method", bstr "POST");
   (bstr ":path", bstr "/");
   (bstr ":path", bstr "/index.html");
   (bstr ":scheme", bstr "http");
   (bstr ":scheme", bstr "https");
   (bstr ":status", bstr "200");
   (bstr ":status", bstr "204");
   (bstr ":status", bstr "206");
   (bstr ":status", bstr "304");
   (bstr ":status", bstr "400");
   (bstr ":status", bstr "404");
   (bstr ":status", bstr "500");
   (bstr "accept-charset", []);
   (bstr "accept-encoding", bstr "gzip, deflate");
   (bstr "accept-language", []);
   (bstr "accept-ranges", []);
   (bstr "accept", []);
   (bstr "access-control-allow-origin", []);
   (bstr "age", []);
   (bstr "allow", []);
   (bstr "authorization", []);
   (bstr "cache-control", []);
   (bstr "content-disposition", []);
   (bstr "content-encoding", []);
   (bstr "content-language", []);
   (bstr "content-length", []);
   (bstr "content-location", []);
   (bstr "content-range", []);
   (bstr "content-type", []);
   (bstr "cookie", []);
   (bstr "date", []);
   (bstr "etag", []);
   (bstr "expect", []);
   (bstr "expires", []);
   (bstr "from", []);
   (bstr "host", []);
   (bstr "if-match", []);
   (bstr "if-modified-since", []);
   (bstr "if-none-match", []);
   (bstr "if-range", []);
   (bstr "if-unmodified-since", []);
   (bstr "last-modified", []);
   (bstr "link", []);
   (bstr "location", []);
   (bstr "max-forwards", []);
   (bstr "proxy-authenticate", []);
   (bstr "proxy-authorization", []);
   (bstr "range", []);
   (bstr "referer", []);
   (bstr "refresh", []);
   (bstr "retry-after", []);
   (bstr "server", []);
   (bstr "set-cookie", []);
   (bstr "strict-transport-security", []);
   (bstr "transfer-encoding", []);
   (bstr "user-agent", []);
   (bstr "vary", []);
   (bstr "via", []);
   (bstr "www-authenticate", [])].
Definition entry (i : Z) : option (bytes * bytes) :=
  if i =? 0 then None else static_table !! Z.to_nat (i - 1).

(** Section 6: the representations of a field. *)
Inductive form : Type := Incremental | WithoutIndexing | NeverIndexed.
Inductive name : Type :=
| NIndex (i : Z)
| NLit (s : lit).
Inductive field : Type :=
| Indexed (i : Z)
| SizeUpdate (n : Z)
| Literal (f : form) (n : name) (value : lit).

Definition form_bits (f : form) : Z := match f with Incremental => 6 | _ => 4 end.
Definition form_mask (f : form) : Z := match f with WithoutIndexing => 0 | _ => 1 end.

Definition render_name (f : form) (n : name) : bytes :=
  let b := form_bits f in
  match n with
  | NIndex i => encode_int b (form_mask f * 2 ^ b) i
  | NLit s => encode_int b (form_mask f * 2 ^ b) 0 ++ render_lit 7 0 s
  end.
Definition render (f : field) : bytes :=
  match f with
  | Indexed i => encode_int 7 (1 * 2 ^ 7) i
  | SizeUpdate n => encode_int 5 (1 * 2 ^ 5) n
  | Literal f n v => render_name f n ++ render_lit 7 0 v
  end.

Definition field_ok (f : field) : Prop :=
  match f with
  | Indexed i => 0 ≤ i < int_max codec 7
  | SizeUpdate n => 0 ≤ n < int_max codec 5
  | Literal f n v =>
      lit_ok codec 7 v ∧
      match n with NIndex i => 0 < i < int_max codec (form_bits f) | NLit s => lit_ok codec 7 s end
  end.

#[global] Instance field_ok_dec f : Decision (field_ok f).
Proof. destruct f as [| |f [] v]; cbn [field_ok]; apply _. Defined.

(** Appendix B, for the symbols of the name [:status]: the code words, packed
    from the most significant bit and padded with ones. *)
Definition status_name_codes : list (list bool) :=
  let b := λ l, Z.eqb 1 <$> l in
  [b [1;0;1;1;1;0;0]; b [0;1;0;0;0]; b [0;1;0;0;1]; b [0;0;0;1;1]; b [0;1;0;0;1]; b [1;0;1;1;0;1]; b [0;1;0;0;0]].
Fixpoint pack (fuel : nat) (l : list bool) : bytes :=
  match fuel, l with
  | S fuel', _ :: _ =>
      foldl (λ n i, 2 * n + (if default true (l !! i) then 1 else 0)) 0 (seq 0 8) :: pack fuel' (drop 8 l)
  | _, _ => []
  end.
Definition huffman_status_name : bytes := pack 5 (concat status_name_codes).

(** What one field says about the status: nothing, its value, or an error. *)
Definition verdict (f : field) : option (res (option Z)) :=
  match f with
  | Indexed i =>
      match entry i with
      | None => Some (bail (if i =? 0 then "HPACK index 0" else "HPACK dynamic table reference"))
      | Some (n, v) => if bytes_eqb n (bstr ":status") then Some (Some <$> status.status_value v false) else None
      end
  | SizeUpdate _ => None
  | Literal _ (NIndex i) v =>
      match entry i with
      | None => Some (bail "HPACK dynamic table reference")
      | Some (n, _) =>
          if bytes_eqb n (bstr ":status") then Some (Some <$> status.status_value (raw v) (huffman v)) else None
      end
  | Literal _ (NLit s) v =>
      if bytes_eqb (raw s) (if huffman s then huffman_status_name else bstr ":status")
      then Some (Some <$> status.status_value (raw v) (huffman v)) else None
  end.

(** The value of the first field named [:status]. *)
Fixpoint first_status (fs : list field) : res (option Z) :=
  match fs with
  | [] => Ok None
  | f :: fs => match verdict f with Some r => r | None => first_status fs end
  end.

(** A decoder of whole blocks. *)
Definition decode_literal (block : bytes) (f : form) (pos : nat) : res (field * nat) :=
  '(i, pos) ← decode_int codec block pos (form_bits f);
  '(n, pos) ← (if i =? 0 then '(s, h, pos) ← read_str codec block pos 7; Ok (NLit (mkLit h s), pos)
               else Ok (NIndex i, pos));
  '(v, h, pos) ← read_str codec block pos 7;
  Ok (Literal f n (mkLit h v), pos).
Definition decode_field (block : bytes) (pos : nat) : res (field * nat) :=
  first ← index block pos;
  if negb (Z.land first 0x80 =? 0) then '(i, pos) ← decode_int codec block pos 7; Ok (Indexed i, pos)
  else if negb (Z.land first 0x40 =? 0) then decode_literal block Incremental pos
  else if negb (Z.land first 0x20 =? 0) then '(n, pos) ← decode_int codec block pos 5; Ok (SizeUpdate n, pos)
  else if negb (Z.land first 0x10 =? 0) then decode_literal block NeverIndexed pos
  else decode_literal block WithoutIndexing pos.
Fixpoint decode_fields (fuel : nat) (block : bytes) (pos : nat) : res (list field) :=
  match fuel with
  | O => panic "out of fuel"
  | S fuel' =>
      if (pos <? length block)%nat then
        '(f, pos) ← decode_field block pos; fs ← decode_fields fuel' block pos; Ok (f :: fs)
      else Ok []
  end.
Definition decode_block (block : bytes) : res (list field) := decode_fields (S (length block)) block 0.

(** The header a field stands for, by the static table. *)
Definition header_of (f : field) : option (bytes * bytes) :=
  match f with
  | Indexed i => entry i
  | SizeUpdate _ => None
  | Literal _ (NIndex i) v => e ← entry i; if huffman v then None else Some (fst e, raw v)
  | Literal _ (NLit s) v => if huffman s || huffman v then None else Some (raw s, raw v)
  end.
(** A field that asks nothing of the peer's dynamic table. *)
Definition table_free (f : field) : bool :=
  match f with Indexed i => (0 <? i) && (i <=? 61) | SizeUpdate _ => false | Literal f n _ =>
    match f with Incremental => false | _ => match n with NIndex i => (0 <? i) && (i <=? 61) | NLit _ => true end end end.

(** ** Reading rendered fields *)

Lemma codec_is_ok : codec_ok codec.
Proof. by left. Qed.

Lemma form_bits_range f : 4 ≤ form_bits f ≤ 6.
Proof. destruct f; cbn; lia. Qed.

(** The static table by index, as the ranges of the code see it. *)
Lemma entry_range i : 0 < i ≤ 61 → ∃ n v, entry i = Some (n, v) ∧ bytes_eqb n (bstr ":status") = is_status_index i ∧
  (is_status_index i = true → ∃ s, status.status_value v false = Ok s ∧
     STATUS_BY_INDEX !! Z.to_nat (i - STATUS_INDEX_LO) = Some s).
Proof.
  intros Hi. assert (∃ k, (k < 61)%nat ∧ i = Z.of_nat k + 1) as (k & Hk & ->) by (exists (Z.to_nat (i - 1)); lia).
  do 61 (destruct k as [|k]; [eexists _, _; split; [reflexivity|]; split; [vm_compute; reflexivity|];
    intros Hs; vm_compute in Hs; first [discriminate|eexists; split; vm_compute; reflexivity]|]). lia.
Qed.
Lemma entry_none i : 61 < i → entry i = None.
Proof.
  intros Hi. unfold entry. rewrite (proj2 (Z.eqb_neq i 0)) by lia. apply lookup_ge_None_2.
  change (length static_table) with 61%nat. lia.
Qed.

Lemma render_name_cons f n v :
  field_ok (Literal f n v) →
  ∃ b tl, render_name f n = b :: tl ∧
    match f with Incremental => 64 ≤ b < 128 | WithoutIndexing => 0 ≤ b < 16 | NeverIndexed => 16 ≤ b < 32 end.
Proof.
  intros [_ Hn]. pose proof (form_bits_range f).
  assert (∀ i, 0 ≤ i → ∃ b tl, encode_int (form_bits f) (form_mask f * 2 ^ form_bits f) i = b :: tl ∧
    match f with Incremental => 64 ≤ b < 128 | WithoutIndexing => 0 ≤ b < 16 | NeverIndexed => 16 ≤ b < 32 end) as He.
  { intros i Hi. destruct (encode_int_cons (form_bits f) (form_mask f) i) as (k & tl & E & Hk); [lia|lia|].
    exists (form_mask f * 2 ^ form_bits f + k), tl. split; [done|]. destruct f; cbn in *; lia. }
  unfold render_name. destruct n as [i|s].
  - apply He. lia.
  - destruct (He 0) as (b & tl & E & Hb); [lia|]. exists b, (tl ++ render_lit 7 0 s). rewrite E. done.
Qed.

(** The name of a literal, read at its place. *)
Lemma decode_name f n v pre post :
  field_ok (Literal f n v) → 
  let int := match n with NIndex i => i | NLit _ => 0 end in
  let enc := encode_int (form_bits f) (form_mask f * 2 ^ form_bits f) int in
  decode_int codec (pre ++ render_name f n ++ post) (length pre) (form_bits f) =
    Ok (int, length (pre ++ enc)).
Proof.
  intros [_ Hn] int enc. pose proof (form_bits_range f). rewrite length_app.
  assert (render_name f n ++ post = enc ++ (match n with NIndex _ => [] | NLit s => render_lit 7 0 s end) ++ post) as ->.
  { subst enc int. unfold render_name. destruct n; [done|]. by rewrite <- app_assoc. }
  apply decode_encode_int; [apply codec_is_ok|lia|]. subst int. destruct n as [i|s]; [lia|].
  split; [lia|by destruct f].
Qed.

(** What the loop does with a literal once its name's integer is read. *)
Definition after_name (fuel : nat) (block : bytes) (name_index : Z) (pos : nat) : res (option Z) :=
  '(named_status, pos) ←
    (if name_index =? 0 then
       '(name, huffman, pos) ← read_str codec block pos 7;
       Ok (bytes_eqb name (if huffman : bool then [0xb8; 0x84; 0x8d; 0x36; 0xa3] else bstr ":status"), pos)
     else if 61 <? name_index then bail "HPACK dynamic table reference"
     else Ok (is_status_index name_index, pos));
  '(value, huffman, pos) ← read_str codec block pos 7;
  if (named_status : bool) then Some <$> status.status_value value huffman
  else find_loop fuel block pos.

Lemma after_name_spec fuel pre f n v post :
  field_ok (Literal f n v) → zlen (pre ++ render (Literal f n v)) < 2 ^ 62 →
  let int := match n with NIndex i => i | NLit _ => 0 end in
  let enc := encode_int (form_bits f) (form_mask f * 2 ^ form_bits f) int in
  after_name fuel (pre ++ render (Literal f n v) ++ post) int (length (pre ++ enc)) =
    match verdict (Literal f n v) with
    | Some r => r
    | None => find_loop fuel (pre ++ render (Literal f n v) ++ post) (length (pre ++ render (Literal f n v)))
    end.
Proof.
  intros [Hv Hn] Hlen int enc. unfold after_name, verdict. set (block := pre ++ render _ ++ post).
  assert (∀ pre', block = pre' ++ render_lit 7 0 v ++ post → length (pre' ++ render_lit 7 0 v) = length (pre ++ render (Literal f n v)) →
    read_str codec block (length pre') 7 = Ok (raw v, huffman v, length (pre ++ render (Literal f n v)))) as Hval.
  { intros pre' -> Hl. rewrite read_render_lit; [|apply codec_is_ok|lia|done|].
    - do 2 f_equal. by rewrite <- Hl, length_app.
    - unfold zlen in *. rewrite <- Hl, length_app in Hlen. lia. }
  subst int. destruct n as [i|s]; cbn [render render_name] in *; fold enc in Hval, Hlen, block |- *.
  - rewrite (proj2 (Z.eqb_neq i 0)) by lia. destruct (decide (61 < i)).
    { rewrite entry_none, (proj2 (Z.ltb_lt 61 i)) by done. done. }
    rewrite (proj2 (Z.ltb_ge 61 i)) by lia. cbn [mbind result_bind].
    destruct (entry_range i) as (nm & x & -> & Hnm & _); [lia|]. rewrite Hnm.
    rewrite Hval; [|subst block; by rewrite <- !app_assoc|by rewrite <- app_assoc]. cbn [mbind result_bind].
    by destruct (is_status_index i).
  - rewrite Z.eqb_refl. rewrite <- !app_assoc in *.
    replace (read_str codec block (length (pre ++ enc)) 7) with
      (@Ok error _ (raw s, huffman s, length (pre ++ enc ++ render_lit 7 0 s))).
    2: { assert (block = (pre ++ enc) ++ render_lit 7 0 s ++ render_lit 7 0 v ++ post) as ->
           by (subst block; by rewrite <- !app_assoc). rewrite read_render_lit; [|apply codec_is_ok|lia|done|].
         - do 2 f_equal. rewrite !length_app. lia.
         - unfold zlen in *. rewrite !length_app in *. lia. }
    cbn [mbind result_bind]. rewrite Hval; [|subst block; by rewrite <- !app_assoc|by rewrite <- !app_assoc].
    cbn [mbind result_bind]. change huffman_status_name with [0xb8; 0x84; 0x8d; 0x36; 0xa3].
    by destruct (bytes_eqb _ _).
Qed.

(** One turn of the loop on a rendered field. *)
Lemma find_step fuel pre f post :
  field_ok f → zlen (pre ++ render f) < 2 ^ 62 →
  find_loop (S fuel) (pre ++ render f ++ post) (length pre) =
    match verdict f with
    | Some r => r
    | None => find_loop fuel (pre ++ render f ++ post) (length (pre ++ render f))
    end.
Proof.
  intros Hf Hlen. destruct f as [i|n|f n v].
  - cbn [find_loop render].
    destruct (encode_int_cons 7 1 i) as (k & tl & E & Hk); [lia|cbn in Hf; lia|].
    destruct (first_byte pre _ _ _ post E) as [Hpos Hidx]. rewrite Hpos, Hidx. cbn [mbind result_bind].
    rewrite tests_80, (proj2 (Z.ltb_ge _ _)) by lia. cbn [negb].
    rewrite decode_encode_int by (apply codec_is_ok || lia || done). cbn [mbind result_bind].
    rewrite length_app. cbn [verdict field_ok] in *.
    destruct (decide (i = 0)) as [->|]; [done|]. destruct (decide (61 < i)).
    + rewrite entry_none by done. unfold is_status_index, STATUS_INDEX_LO, STATUS_INDEX_HI.
      rewrite (proj2 (Z.leb_gt i 14)), andb_false_r, (proj2 (Z.eqb_neq i 0)), (proj2 (Z.ltb_lt 61 i)) by lia. done.
    + destruct (entry_range i) as (nm & v & -> & Hn & Hs); [lia|]. rewrite Hn. destruct (is_status_index i).
      * destruct Hs as (st & -> & ->); done.
      * rewrite (proj2 (Z.eqb_neq i 0)), (proj2 (Z.ltb_ge 61 i)) by lia. done.
  - cbn [find_loop render].
    destruct (encode_int_cons 5 1 n) as (k & tl & E & Hk); [lia|cbn in Hf; lia|].
    destruct (first_byte pre _ _ _ post E) as [Hpos Hidx]. rewrite Hpos, Hidx. cbn [mbind result_bind].
    rewrite tests_80, (proj2 (Z.ltb_lt _ 128)) by lia. cbn [negb].
    rewrite tests_40, (proj2 (Z.ltb_lt _ 64)), tests_20, (proj2 (Z.ltb_ge _ 32)) by lia. cbn [negb].
    rewrite decode_encode_int by (apply codec_is_ok || lia || done). cbn [mbind result_bind]. by rewrite length_app.
  - rewrite <- after_name_spec by done. cbn [find_loop].
    destruct (render_name_cons f n v Hf) as (b & tl & E & Hb).
    assert (render (Literal f n v) = b :: tl ++ render_lit 7 0 v) as Eb by (cbn [render]; by rewrite E).
    destruct (first_byte pre _ _ _ post Eb) as [Hpos Hidx]. rewrite Hpos, Hidx. cbn [mbind result_bind].
    rewrite tests_80, (proj2 (Z.ltb_lt b 128)) by (destruct f; lia). cbn [negb].
    pose proof (decode_name f n v pre (render_lit 7 0 v ++ post) Hf) as Hd. cbv zeta in Hd.
    replace (render_name f n ++ render_lit 7 0 v ++ post) with (render (Literal f n v) ++ post) in Hd
      by (cbn [render]; by rewrite <- app_assoc).
    destruct f; cbn [form_bits] in Hd.
    + rewrite tests_40, (proj2 (Z.ltb_ge b 64)) by lia. cbn [negb]. rewrite Hd. done.
    + rewrite tests_40, (proj2 (Z.ltb_lt b 64)), tests_20, (proj2 (Z.ltb_lt b 32)) by lia. cbn [negb]. rewrite Hd. done.
    + rewrite tests_40, (proj2 (Z.ltb_lt b 64)), tests_20, (proj2 (Z.ltb_lt b 32)) by lia. cbn [negb]. rewrite Hd. done.
Qed.

Lemma decode_literal_render pre f n v post :
  field_ok (Literal f n v) → zlen (pre ++ render (Literal f n v)) < 2 ^ 62 →
  decode_literal (pre ++ render (Literal f n v) ++ post) f (length pre) =
    Ok (Literal f n v, length (pre ++ render (Literal f n v))).
Proof.
  intros Hf Hlen. pose proof Hf as [Hv Hn]. unfold decode_literal.
  pose proof (decode_name f n v pre (render_lit 7 0 v ++ post) Hf) as Hd. cbv zeta in Hd.
  replace (render_name f n ++ render_lit 7 0 v ++ post) with (render (Literal f n v) ++ post) in Hd
    by (cbn [render]; by rewrite <- app_assoc).
  rewrite Hd. cbn [mbind result_bind]. clear Hd. set (enc := encode_int _ _ _).
  assert (∀ pre' s post', lit_ok codec 7 s → zlen (pre' ++ render_lit 7 0 s) < 2 ^ 62 →
    read_str codec (pre' ++ render_lit 7 0 s ++ post') (length pre') 7 =
      Ok (raw s, huffman s, length (pre' ++ render_lit 7 0 s))) as Hread.
  { intros pre' s post' Hs Hl. rewrite read_render_lit; [|apply codec_is_ok|lia|done|].
    - by rewrite length_app.
    - rewrite zlen_app in Hl. pose proof (zlen_nonneg (render_lit 7 0 s)). lia. }
  destruct n as [i|s]; cbn [render render_name] in *; fold enc in Hlen |- *.
  - rewrite (proj2 (Z.eqb_neq i 0)) by lia. cbn [mbind result_bind].
    rewrite <- app_assoc, (app_assoc pre enc), Hread; [|done|by rewrite <- app_assoc].
    cbn [mbind result_bind]. rewrite <- app_assoc. by destruct v.
  - rewrite Z.eqb_refl. rewrite <- !app_assoc in *. rewrite (app_assoc pre enc (_ ++ _ ++ post)), Hread; [|done|].
    2: { rewrite !zlen_app in *. pose proof (zlen_nonneg (render_lit 7 0 v)). lia. }
    cbn [mbind result_bind]. rewrite (app_assoc (pre ++ enc) (render_lit 7 0 s)), Hread; [|done|by rewrite <- !app_assoc].
    cbn [mbind result_bind]. rewrite <- !app_assoc. by destruct s, v.
Qed.

Lemma decode_field_render pre f post :
  field_ok f → zlen (pre ++ render f) < 2 ^ 62 →
  decode_field (pre ++ render f ++ post) (length pre) = Ok (f, length (pre ++ render f)).
Proof.
  intros Hf Hlen. unfold decode_field. destruct f as [i|n|f n v].
  - cbn [render]. destruct (encode_int_cons 7 1 i) as (k & tl & E & Hk); [lia|cbn in Hf; lia|].
    destruct (first_byte pre _ _ _ post E) as [_ Hidx]. rewrite Hidx. cbn [mbind result_bind].
    rewrite tests_80, (proj2 (Z.ltb_ge _ _)) by lia. cbn [negb].
    rewrite decode_encode_int by (apply codec_is_ok || lia || done). cbn [mbind result_bind]. by rewrite length_app.
  - cbn [render]. destruct (encode_int_cons 5 1 n) as (k & tl & E & Hk); [lia|cbn in Hf; lia|].
    destruct (first_byte pre _ _ _ post E) as [_ Hidx]. rewrite Hidx. cbn [mbind result_bind].
    rewrite tests_80, (proj2 (Z.ltb_lt _ 128)) by lia. cbn [negb].
    rewrite tests_40, (proj2 (Z.ltb_lt _ 64)), tests_20, (proj2 (Z.ltb_ge _ 32)) by lia. cbn [negb].
    rewrite decode_encode_int by (apply codec_is_ok || lia || done). cbn [mbind result_bind]. by rewrite length_app.
  - rewrite <- (decode_literal_render pre f n v post) by done.
    destruct (render_name_cons f n v Hf) as (b & tl & E & Hb).
    assert (render (Literal f n v) = b :: tl ++ render_lit 7 0 v) as Eb by (cbn [render]; by rewrite E).
    destruct (first_byte pre _ _ _ post Eb) as [_ Hidx]. rewrite Hidx. cbn [mbind result_bind].
    rewrite tests_80, (proj2 (Z.ltb_lt b 128)) by (destruct f; lia). cbn [negb]. destruct f.
    + rewrite tests_40, (proj2 (Z.ltb_ge b 64)) by lia. done.
    + rewrite tests_40, (proj2 (Z.ltb_lt b 64)), tests_20, (proj2 (Z.ltb_lt b 32)) by lia.
      rewrite tests_10, (proj2 (Z.ltb_lt b 16)) by lia. done.
    + rewrite tests_40, (proj2 (Z.ltb_lt b 64)), tests_20, (proj2 (Z.ltb_lt b 32)) by lia.
      rewrite tests_10, (proj2 (Z.ltb_ge b 16)) by lia. done.
Qed.

Lemma render_nonempty f : field_ok f → (0 < length (render f))%nat.
Proof.
  destruct f as [i|n|f n v]; intros Hf; cbn [render].
  - destruct (encode_int_cons 7 1 i) as (k & tl & -> & _); [lia|cbn in Hf; lia|]. cbn. lia.
  - destruct (encode_int_cons 5 1 n) as (k & tl & -> & _); [lia|cbn in Hf; lia|]. cbn. lia.
  - destruct (render_name_cons f n v Hf) as (b & tl & -> & _). cbn. lia.
Qed.

Lemma decode_fields_render fs : ∀ fuel pre,
  Forall field_ok fs → zlen (pre ++ concat (render <$> fs)) < 2 ^ 62 →
  (length (concat (render <$> fs)) < fuel)%nat →
  decode_fields fuel (pre ++ concat (render <$> fs)) (length pre) = Ok fs.
Proof.
  induction fs as [|f fs IH]; intros fuel pre Hfs Hlen Hfuel; destruct fuel as [|fuel]; try lia; cbn [decode_fields].
  { cbn [fmap list_fmap concat]. rewrite app_nil_r, Nat.ltb_irrefl. done. }
  apply Forall_cons in Hfs as [Hf Hfs]. cbn [fmap list_fmap concat] in *. pose proof (render_nonempty f Hf).
  rewrite (proj2 (Nat.ltb_lt _ _)) by (rewrite !length_app; lia).
  rewrite decode_field_render; [|done|].
  2: { rewrite !zlen_app in *. pose proof (zlen_nonneg (concat (render <$> fs))). lia. }
  cbn [mbind result_bind]. rewrite app_assoc, IH; [done|done|by rewrite <- app_assoc|]. rewrite length_app in Hfuel. lia.
Qed.

Lemma find_loop_render fs : ∀ fuel pre,
  Forall field_ok fs → zlen (pre ++ concat (render <$> fs)) < 2 ^ 62 →
  (length (concat (render <$> fs)) < fuel)%nat →
  find_loop fuel (pre ++ concat (render <$> fs)) (length pre) = first_status fs.
Proof.
  induction fs as [|f fs IH]; intros fuel pre Hfs Hlen Hfuel; destruct fuel as [|fuel]; try lia.
  { cbn [fmap list_fmap concat find_loop]. rewrite app_nil_r, Nat.ltb_irrefl. done. }
  apply Forall_cons in Hfs as [Hf Hfs]. cbn [fmap list_fmap concat] in *. pose proof (render_nonempty f Hf).
  rewrite find_step; [|done|].
  2: { rewrite !zlen_app in *. pose proof (zlen_nonneg (concat (render <$> fs))). lia. }
  cbn [first_status]. destruct (verdict f); [done|].
  rewrite app_assoc, IH; [done|done|by rewrite <- app_assoc|]. rewrite length_app in Hfuel. lia.
Qed.

(** ** No block panics *)

Lemma wp_find_loop block : bytes_ok block → ∀ fuel pos,
  (length block - pos < fuel)%nat → wp (find_loop fuel block pos) (λ _, True).
Proof.
  intros Hok. pose proof codec_is_ok as Hc. induction fuel as [|fuel IH]; intros pos Hf; [lia|]. cbn [find_loop].
  destruct (Nat.ltb_spec pos (length block)); [|done].
  wp_step. apply wp_index; [done|]. intros first _. wp_step.
  - wp_step. eapply wp_mono; [apply wp_decode_int; (done || lia)|]. intros [i p] [Hi Hp]. cbn in Hp, Hi.
    destruct (is_status_index i) eqn:Hs.
    + unfold is_status_index, STATUS_INDEX_LO, STATUS_INDEX_HI in Hs. apply andb_prop in Hs as [?%Z.leb_le ?%Z.leb_le].
      destruct (lookup_lt_is_Some_2 STATUS_BY_INDEX (Z.to_nat (i - STATUS_INDEX_LO))) as [st Hst];
        [unfold STATUS_INDEX_LO; cbn; lia|by rewrite Hst].
    + wp_step; [done|]. wp_step; [done|]. apply IH. lia.
  - wp_step. apply (wp_mono _ (λ r, (pos < r.2 ≤ length block)%nat)).
    { repeat wp_step; (eapply wp_mono; [apply wp_decode_int; (done || lia)|]); intros [i p] [Hi Hp]; exact Hp. }
    intros [[i|] p] Hp; cbn in Hp; [|apply IH; lia].
    wp_step. apply (wp_mono _ (λ r, (pos < r.2 ≤ length block)%nat)).
    { wp_step; [|repeat wp_step; done]. wp_step. eapply wp_mono; [apply wp_read_str; (done || lia)|].
      intros [[s h] q] Hq. cbn in *. lia. }
    intros [ns q] Hq. cbn in Hq. wp_step. eapply wp_mono; [apply wp_read_str; (done || lia)|].
    intros [[v h] q'] Hq'. cbn in Hq'. destruct ns; [|apply IH; lia].
    pose proof (status.wp_status_value v h) as Hst. destruct (status.status_value v h) as [|[]]; done.
Qed.

(** [find_status] reads any header block a peer may write: on a block of
    field representations (static or literal names, plain or Huffman-coded
    strings, size updates between them) it returns the value of the first field
    named [:status] by the static table of RFC 7541, or its error; and on
    arbitrary bytes it never panics and always terminates. *)
Theorem hpack_find_status fs block :
  Forall field_ok fs → zlen (concat (render <$> fs)) < 2 ^ 62 → bytes_ok block →
  find_status (concat (render <$> fs)) = first_status fs ∧ no_panic (find_status block).
Proof.
  intros Hfs Hlen Hok. split.
  - apply (find_loop_render fs _ []); [done|done|lia].
  - eapply wp_no_panic, wp_find_loop; [done|lia].
Qed.

(** ** The request block *)

Definition lit_str (s : bytes) : lit := mkLit false s.
Definition named (i : Z) (v : bytes) : field := Literal WithoutIndexing (NIndex i) (lit_str v).
Definition header_field (h : bytes * bytes) : field :=
  match static_name_index (fst h) with
  | Some i => named i (snd h)
  | None => Literal WithoutIndexing (NLit (lit_str (fst h))) (lit_str (snd h))
  end.
Definition request_fields (method scheme authority path : bytes) (headers : list (bytes * bytes)) (body_len : Z) : list field :=
  (if bytes_eqb method (bstr "GET") then Indexed 2
   else if bytes_eqb method (bstr "POST") then Indexed 3 else named 2 method) ::
  (if bytes_eqb scheme (bstr "http") then Indexed 6
   else if bytes_eqb scheme (bstr "https") then Indexed 7 else named 6 scheme) ::
  named 1 authority ::
  (if bytes_eqb path (bstr "/") then Indexed 4 else named 4 path) ::
  (header_field <$> headers) ++
  (if 0 <? body_len then [named 28 (to_string body_len)] else []).

(** The headers a request carries, in order. *)
Definition request_headers (method scheme authority path : bytes) (headers : list (bytes * bytes)) (body_len : Z)
  : list (bytes * bytes) :=
  [(bstr ":method", method); (bstr ":scheme", scheme); (bstr ":authority", authority); (bstr ":path", path)] ++
  headers ++ (if 0 <? body_len then [(bstr "content-length", to_string body_len)] else []).

Definition str_ok (s : bytes) : Prop := zlen s < 2 ^ 28.

Lemma lit_str_ok s : str_ok s → lit_ok codec 7 (lit_str s).
Proof. unfold str_ok, lit_ok, int_max. cbn. lia. Qed.

Lemma render_named i v : render (named i v) = literal_indexed_name i v.
Proof. done. Qed.

Lemma named_ok i v : 0 < i ≤ 61 → str_ok v → field_ok (named i v) ∧ table_free (named i v) = true ∧
  header_of (named i v) = e ← entry i; Some (fst e, v).
Proof.
  intros Hi Hv. split_and!.
  - split; [by apply lit_str_ok|]. unfold int_max. cbn. lia.
  - cbn. apply andb_true_iff. split; [apply Z.ltb_lt|apply Z.leb_le]; lia.
  - done.
Qed.

Lemma static_name_sound name i : static_name_index name = Some i → 0 < i ≤ 61 ∧ fst <$> entry i = Some name.
Proof.
  intros E. apply fmap_Some in E as ([n j] & Hf%find_some & ->). destruct Hf as [Hin Heq]. cbn in Heq.
  unfold bytes_eqb in Heq. apply bool_decide_eq_true in Heq as <-.
  assert (forallb (λ e, (0 <? snd e) && (snd e <=? 61) && bool_decide (fst <$> entry (snd e) = Some (fst e))) static_names = true)
    as Hall by (vm_compute; reflexivity).
  rewrite forallb_forall in Hall. specialize (Hall _ Hin). cbn [fst snd] in *.
  apply andb_prop in Hall as [[?%Z.ltb_lt ?%Z.leb_le]%andb_prop ?%bool_decide_eq_true]. split; [lia|done].
Qed.

(** A field is well-formed, asks nothing of the dynamic table, and stands for
    the header [h]. *)
Definition carries (f : field) (h : bytes * bytes) : Prop :=
  field_ok f ∧ table_free f = true ∧ header_of f = Some h.

Lemma carries_named i v n : 0 < i ≤ 61 → str_ok v → fst <$> entry i = Some n → carries (named i v) (n, v).
Proof.
  intros Hi Hv Hn. destruct (named_ok i v Hi Hv) as (H1 & H2 & H3). split_and!; [done|done|]. rewrite H3.
  destruct (entry i) as [[]|]; [|done]. cbn in *. by injection Hn as ->.
Qed.

Lemma carries_header h : str_ok (fst h) → str_ok (snd h) → carries (header_field h) h.
Proof.
  destruct h as [n v]. intros Hn Hv. unfold header_field. cbn [fst snd] in *.
  destruct (static_name_index n) as [i|] eqn:E.
  - apply static_name_sound in E as [Hi Hnm]. by apply carries_named.
  - split_and!; [|done|done]. split; by apply lit_str_ok.
Qed.

Lemma render_header_field h : render (header_field h) = encode_header h.
Proof.
  unfold header_field, encode_header. destruct (static_name_index (fst h)); [apply render_named|].
  unfold literal. cbn [render render_name]. rewrite <- !(encode_str_lit 7 0) by lia. done.
Qed.

(** A value with a static entry of its own. *)
Lemma carries_static x k i f n :
  0 < i ≤ 61 → entry i = Some (n, k) → carries f (n, x) → carries (if bytes_eqb x k then Indexed i else f) (n, x).
Proof.
  intros Hi He Hf. unfold bytes_eqb. case_bool_decide as Hx; [subst|done]. split_and!; [|cbn; lia|done].
  cbn [field_ok]. unfold int_max. cbn. lia.
Qed.

Lemma request_carries m s a p hs n :
  str_ok m → str_ok s → str_ok a → str_ok p → Forall (λ h, str_ok (fst h) ∧ str_ok (snd h)) hs → 0 ≤ n < 2 ^ 64 →
  Forall2 carries (request_fields m s a p hs n) (request_headers m s a p hs n).
Proof.
  intros Hm Hs Ha Hp Hhs Hn. unfold request_fields, request_headers. cbn [app].
  apply Forall2_cons_2; [|apply Forall2_cons_2; [|apply Forall2_cons_2; [|apply Forall2_cons_2]]].
  - apply carries_static; [lia|done|]. apply carries_static; [lia|done|]. by apply carries_named.
  - apply carries_static; [lia|done|]. apply carries_static; [lia|done|]. by apply carries_named.
  - by apply carries_named.
  - apply carries_static; [lia|done|]. by apply carries_named.
  - apply Forall2_app.
    + induction Hhs as [|h hs [Hn1 Hv] Hhs IH]; cbn; constructor; [by apply carries_header|done].
    + destruct (0 <? n); constructor; [|constructor]. apply carries_named; [lia| |done].
      unfold str_ok, zlen. pose proof (to_digits_length 20 n []). unfold to_string. cbn in *. lia.
Qed.

Lemma encode_request_render m s a p hs n :
  encode_request m s a p hs n = concat (render <$> request_fields m s a p hs n).
Proof.
  unfold encode_request, request_fields. cbn [fmap list_fmap concat]. rewrite fmap_app, concat_app.
  rewrite render_named. f_equal; [|f_equal; [|f_equal; f_equal; [|f_equal]]].
  - destruct (bytes_eqb m _); [done|]. destruct (bytes_eqb m _); [done|]. by rewrite render_named.
  - destruct (bytes_eqb s _); [done|]. destruct (bytes_eqb s _); [done|]. by rewrite render_named.
  - destruct (bytes_eqb p _); [done|]. by rewrite render_named.
  - induction hs as [|h hs IH]; [done|]. cbn. by rewrite render_header_field, IH.
  - destruct (0 <? n); [|done]. cbn [fmap list_fmap concat]. by rewrite render_named, app_nil_r.
Qed.

(** The request block says what was asked, and nothing to the dynamic
    table: decoding it as RFC 7541 does yields the four pseudo-headers in order,
    the caller's headers unchanged and the content length when there is a body,
    every one as a static reference or a literal without indexing. *)
Theorem hpack_encode_request m s a p hs n :
  str_ok m → str_ok s → str_ok a → str_ok p → Forall (λ h, str_ok (fst h) ∧ str_ok (snd h)) hs → 0 ≤ n < 2 ^ 64 →
  zlen (encode_request m s a p hs n) < 2 ^ 62 →
  ∃ fs, decode_block (encode_request m s a p hs n) = Ok fs ∧
    header_of <$> fs = Some <$> request_headers m s a p hs n ∧ forallb table_free fs = true.
Proof.
  intros Hm Hs Ha Hp Hhs Hn Hlen. pose proof (request_carries m s a p hs n Hm Hs Ha Hp Hhs Hn) as Hc.
  rewrite encode_request_render in *. exists (request_fields m s a p hs n). split_and!.
  - apply (decode_fields_render _ _ []); [|done|lia].
    eapply Forall2_Forall_l; [exact Hc|]. apply Forall_true. intros h f (? & _). done.
  - clear -Hc. induction Hc as [|f h fs hs2 (_ & _ & Hh) _ IH]; [done|]. cbn. by rewrite Hh, IH.
  - clear -Hc. induction Hc as [|f h fs hs2 (_ & Ht & _) _ IH]; [done|]. cbn. by rewrite Ht.
Qed.

(** ** Witnesses *)

Definition sample_fields : list field :=
  [SizeUpdate 4096; Literal NeverIndexed (NLit (mkLit true [0x9d; 0x29])) (mkLit false (bstr "x"));
   Literal Incremental (NIndex 54) (mkLit false (bstr "nginx"));
   Literal WithoutIndexing (NIndex 8) (mkLit true [0x64; 0x02]); Indexed 8].
Lemma hpack_find_status_witness :
  find_status (concat (render <$> sample_fields)) = Ok (Some 302) ∧ no_panic (find_status [0x7f; 0xff; 0x80]).
Proof.
  destruct (hpack_find_status sample_fields [0x7f; 0xff; 0x80]) as [E Hp].
  - by_decide.
  - vm_compute. reflexivity.
  - repeat constructor; lia.
  - rewrite E. split; [vm_compute; reflexivity|exact Hp].
Defined.

Lemma hpack_encode_request_witness :
  ∃ fs, decode_block (encode_request (bstr "GET") (bstr "https") (bstr "h:1") (bstr "/x") [(bstr "accept", bstr "*")] 7) = Ok fs ∧
    header_of <$> fs = Some <$> request_headers (bstr "GET") (bstr "https") (bstr "h:1") (bstr "/x") [(bstr "accept", bstr "*")] 7 ∧
    forallb table_free fs = true.
Proof.
  apply (hpack_encode_request (bstr "GET") (bstr "https") (bstr "h:1") (bstr "/x") [(bstr "accept", bstr "*")] 7);
    by_decide.
Defined.
End hpack.
