(* ===== verification/Qpack.v ===== *)
(** * QPACK, cut down — [src/http3/qpack.rs]

    The encoder of the one request section ([encode_request]) and the decoder
    that only looks for [:status] ([find_status]) with its fast path.  The
    reference is RFC 9204: its static table, its field lines ([line]) as a peer
    without a dynamic table may write them, and a decoder of whole sections. *)

From S2P Require Import Prelude Status PrefixInt.

Module qpack.
Import prefix_int.
Abbreviation codec := prefix_int.qpack.

Definition STATUS_ENTRIES : list (Z * Z) :=
  [(24, 103); (25, 200); (26, 304); (27, 404); (28, 503); (63, 100); (64, 204);
   (65, 206); (66, 302); (67, 400); (68, 403); (69, 421); (70, 425); (71, 500)].
Definition IDX_AUTHORITY : Z := 0.
Definition IDX_PATH_ROOT : Z := 1.
Definition IDX_CONTENT_LENGTH : Z := 4.

(** ** The encoder *)

Definition methods : list (bytes * Z) :=
  [(bstr "CONNECT", 15); (bstr "DELETE", 16); (bstr "GET", 17); (bstr "HEAD", 18);
   (bstr "OPTIONS", 19); (bstr "POST", 20); (bstr "PUT", 21)].
Definition method_index (method : bytes) : option Z := snd <$> find (λ e, bytes_eqb (fst e) method) methods.
Definition schemes : list (bytes * Z) := [(bstr "http", 22); (bstr "https", 23)].
Definition scheme_index (scheme : bytes) : option Z := snd <$> find (λ e, bytes_eqb (fst e) scheme) schemes.

Definition indexed (index : Z) : bytes := encode_int 6 0xc0 index.
Definition literal_named (name_index : Z) (value : bytes) : bytes :=
  encode_int 4 0x50 name_index ++ encode_str 7 0x00 value.
Definition literal (name value : bytes) : bytes :=
  encode_str 3 0x20 name ++ encode_str 7 0x00 value.

Definition encode_request (method scheme authority path : bytes) (headers : list (bytes * bytes)) (body_len : Z) : bytes :=
  [0x00; 0x00] ++
  (match method_index method with Some i => indexed i | None => literal (bstr ":method") method end) ++
  (match scheme_index scheme with Some i => indexed i | None => literal (bstr ":scheme") scheme end) ++
  literal_named IDX_AUTHORITY authority ++
  (if bytes_eqb path (bstr "/") then indexed IDX_PATH_ROOT else literal (bstr ":path") path) ++
  concat ((λ h, literal (fst h) (snd h)) <$> headers) ++
  (if 0 <? body_len then literal_named IDX_CONTENT_LENGTH (to_string body_len) else []).

(** ** [find_status] *)

Definition status_for_index (index : Z) : option Z := snd <$> find (λ e, fst e =? index) STATUS_ENTRIES.
Definition is_status_index (index : Z) : bool := existsb (λ e, fst e =? index) STATUS_ENTRIES.

(** The loop; every turn moves [pos] on. *)
Fixpoint find_loop (fuel : nat) (section : bytes) (pos : nat) : res (option Z) :=
  match fuel with
  | O => panic "out of fuel"
  | S fuel' =>
      if (pos <? length section)%nat then
        first ← index section pos;
        if negb (Z.land first 0x80 =? 0) then
          let static_table := negb (Z.land first 0x40 =? 0) in
          '(index, pos) ← decode_int codec section pos 6;
          if negb static_table then bail "QPACK dynamic table reference"
          else match status_for_index index with
               | Some status => Ok (Some status)
               | None => find_loop fuel' section pos
               end
        else if negb (Z.land first 0x40 =? 0) then
          let static_table := negb (Z.land first 0x10 =? 0) in
          '(index, pos) ← decode_int codec section pos 4;
          if negb static_table then bail "QPACK dynamic table reference"
          else
            let named_status := is_status_index index in
            '(value, huffman, pos) ← read_str codec section pos 7;
            if named_status then Some <$> status.status_value value huffman else find_loop fuel' section pos
        else if negb (Z.land first 0x20 =? 0) then
          '(name, name_huffman, pos) ← read_str codec section pos 3;
          let named_status :=
            bytes_eqb name (if name_huffman : bool then [0xb8; 0x84; 0x8d; 0x36; 0xa3] else bstr ":status") in
          '(value, huffman, pos) ← read_str codec section pos 7;
          if named_status then Some <$> status.status_value value huffman else find_loop fuel' section pos
        else bail "QPACK dynamic table reference"
      else Ok None
  end.

(** The general path: the section prefix, then the field lines. *)
Definition find_slow (section : bytes) : res (option Z) :=
  '(required_insert_count, pos) ← decode_int codec section 0 8;
  if negb (required_insert_count =? 0) then bail "QPACK dynamic table reference"
  else
    '(_, pos) ← decode_int codec section pos 7;
    find_loop (S (length section)) section pos.

(** [if let [0, 0, first, ..] = section && ..]: the fast path in front of it. *)
Definition find_status (section : bytes) : res (option Z) :=
  match section with
  | 0 :: 0 :: first :: _ =>
      if (Z.land first 0xc0 =? 0xc0) && negb (Z.land first 0x3f =? 0x3f) then
        match status_for_index (Z.land first 0x3f) with
        | Some status => Ok (Some status)
        | None => find_slow section
        end
      else find_slow section
  | _ => find_slow section
  end.

(** ** RFC 9204 *)

(** Appendix A. *)
Definition static_table : list (bytes * bytes) :=
  [(bstr ":authority", []);
   (bstr ":path", bstr "/");
   (bstr "age", bstr "0");
   (bstr "content-disposition", []);
   (bstr "content-length", bstr "0");
   (bstr "cookie", []);
   (bstr "date", []);
   (bstr "etag", []);
   (bstr "if-modified-since", []);
   (bstr "if-none-match", []);
   (bstr "last-modified", []);
   (bstr "link", []);
   (bstr "location", []);
   (bstr "referer", []);
   (bstr "set-cookie", []);
   (bstr ":method", bstr "CONNECT");
   (bstr ":method", bstr "DELETE");
   (bstr ":method", bstr "GET");
   (bstr ":method", bstr "HEAD");
   (bstr ":method", bstr "OPTIONS");
   (bstr ":method", bstr "POST");
   (bstr ":method", bstr "PUT");
   (bstr ":scheme", bstr "http");
   (bstr ":scheme", bstr "https");
   (bstr ":status", bstr "103");
   (bstr ":status", bstr "200");
   (bstr ":status", bstr "304");
   (bstr ":status", bstr "404");
   (bstr ":status", bstr "503");
   (bstr "accept", bstr "*/*");
   (bstr "accept", bstr "application/dns-message");
   (bstr "accept-encoding", bstr "gzip, deflate, br");
   (bstr "accept-ranges", bstr "bytes");
   (bstr "access-control-allow-headers", bstr "cache-control");
   (bstr "access-control-allow-headers", bstr "content-type");
   (bstr "access-control-allow-origin", bstr "*");
   (bstr "cache-control", bstr "max-age=0");
   (bstr "cache-control", bstr "max-age=2592000");
   (bstr "cache-control", bstr "max-age=604800");
   (bstr "cache-control", bstr "no-cache");
   (bstr "cache-control", bstr "no-store");
   (bstr "cache-control", bstr "public, max-age=31536000");
   (bstr "content-encoding", bstr "br");
   (bstr "content-encoding", bstr "gzip");
   (bstr "content-type", bstr "application/dns-message");
   (bstr "content-type", bstr "application/javascript");
   (bstr "content-type", bstr "application/json");
   (bstr "content-type", bstr "application/x-www-form-urlencoded");
   (bstr "content-type", bstr "image/gif");
   (bstr "content-type", bstr "image/jpeg");
   (bstr "content-type", bstr "image/png");
   (bstr "content-type", bstr "text/css");
   (bstr "content-type", bstr "text/html; charset=utf-8");
   (bstr "content-type", bstr "text/plain");
   (bstr "content-type", bstr "text/plain;charset=utf-8");
   (bstr "range", bstr "bytes=0-");
   (bstr "strict-transport-security", bstr "max-age=31536000");
   (bstr "strict-transport-security", bstr "max-age=31536000; includesubdomains");
   (bstr "strict-transport-security", bstr "max-age=31536000; includesubdomains; preload");
   (bstr "vary", bstr "accept-encoding");
   (bstr "vary", bstr "origin");
   (bstr "x-content-type-options", bstr "nosniff");
   (bstr "x-xss-protection", bstr "1; mode=block");
   (bstr ":status", bstr "100");
   (bstr ":status", bstr "204");
   (bstr ":status", bstr "206");
   (bstr ":status", bstr "302");
   (bstr ":status", bstr "400");
   (bstr ":status", bstr "403");
   (bstr ":status", bstr "421");
   (bstr ":status", bstr "425");
   (bstr ":status", bstr "500");
   (bstr "accept-language", []);
   (bstr "access-control-allow-credentials", bstr "FALSE");
   (bstr "access-control-allow-credentials", bstr "TRUE");
   (bstr "access-control-allow-headers", bstr "*");
   (bstr "access-control-allow-methods", bstr "get");
   (bstr "access-control-allow-methods", bstr "get, post, options");
   (bstr "access-control-allow-methods", bstr "options");
   (bstr "access-control-expose-headers", bstr "content-length");
   (bstr "access-control-request-headers", bstr "content-type");
   (bstr "access-control-request-method", bstr "get");
   (bstr "access-control-request-method", bstr "post");
   (bstr "alt-svc", bstr "clear");
   (bstr "authorization", []);
   (bstr "content-security-policy", bstr "script-src 'none'; object-src 'none'; base-uri 'none'");
   (bstr "early-data", bstr "1");
   (bstr "expect-ct", []);
   (bstr "forwarded", []);
   (bstr "if-range", []);
   (bstr "origin", []);
   (bstr "purpose", bstr "prefetch");
   (bstr "server", []);
   (bstr "timing-allow-origin", bstr "*");
   (bstr "upgrade-insecure-requests", bstr "1");
   (bstr "user-agent", []);
   (bstr "x-forwarded-for", []);
   (bstr "x-frame-options", bstr "deny");
   (bstr "x-frame-options", bstr "sameorigin")].
Definition entry (i : Z) : option (bytes * bytes) := static_table !! Z.to_nat i.

(** Section 4.5: field lines that use the static table or none. *)
Inductive line : Type :=
| Indexed (i : Z)
| NameRef (never : bool) (i : Z) (value : lit)
| LitName (never : bool) (name value : lit).

Definition render (l : line) : bytes :=
  match l with
  | Indexed i => encode_int 6 (3 * 2 ^ 6) i
  | NameRef never i v => encode_int 4 ((if never then 7 else 5) * 2 ^ 4) i ++ render_lit 7 0 v
  | LitName never n v => render_lit 3 (if never then 3 else 2) n ++ render_lit 7 0 v
  end.

Definition line_ok (l : line) : Prop :=
  match l with
  | Indexed i => 0 ≤ i < 99
  | NameRef _ i v => 0 ≤ i < 99 ∧ lit_ok codec 7 v
  | LitName _ n v => lit_ok codec 3 n ∧ lit_ok codec 7 v
  end.
#[global] Instance line_ok_dec l : Decision (line_ok l).
Proof. destruct l; cbn [line_ok]; apply _. Defined.

(** The section prefix: no required inserts, any base. *)
Definition prefix (sign_base : Z * Z) : bytes :=
  encode_int 8 0 0 ++ encode_int 7 (fst sign_base * 2 ^ 7) (snd sign_base).

(** What one line says about the status: nothing, or its value. *)
Definition verdict (l : line) : option (res (option Z)) :=
  match l with
  | Indexed i =>
      '(n, v) ← entry i;
      if bytes_eqb n (bstr ":status") then Some (Some <$> status.status_value v false) else None
  | NameRef _ i v =>
      '(n, _) ← entry i;
      if bytes_eqb n (bstr ":status") then Some (Some <$> status.status_value (raw v) (huffman v)) else None
  | LitName _ n v =>
      if bytes_eqb (raw n) (if huffman n then [0xb8; 0x84; 0x8d; 0x36; 0xa3] else bstr ":status")
      then Some (Some <$> status.status_value (raw v) (huffman v)) else None
  end.
Fixpoint first_status (ls : list line) : res (option Z) :=
  match ls with
  | [] => Ok None
  | l :: ls => match verdict l with Some r => r | None => first_status ls end
  end.

(** A decoder of whole sections. *)
Definition decode_line (section : bytes) (pos : nat) : res (line * nat) :=
  first ← index section pos;
  if negb (Z.land first 0x80 =? 0) then
    '(i, pos) ← decode_int codec section pos 6;
    if Z.land first 0x40 =? 0 then bail "dynamic" else Ok (Indexed i, pos)
  else if negb (Z.land first 0x40 =? 0) then
    '(i, pos) ← decode_int codec section pos 4;
    '(v, h, pos) ← read_str codec section pos 7;
    if Z.land first 0x10 =? 0 then bail "dynamic" else Ok (NameRef (negb (Z.land first 0x20 =? 0)) i (mkLit h v), pos)
  else if negb (Z.land first 0x20 =? 0) then
    '(n, hn, pos) ← read_str codec section pos 3;
    '(v, h, pos) ← read_str codec section pos 7;
    Ok (LitName (negb (Z.land first 0x10 =? 0)) (mkLit hn n) (mkLit h v), pos)
  else bail "dynamic".
Fixpoint decode_lines (fuel : nat) (section : bytes) (pos : nat) : res (list line) :=
  match fuel with
  | O => panic "out of fuel"
  | S fuel' =>
      if (pos <? length section)%nat then
        '(l, pos) ← decode_line section pos; ls ← decode_lines fuel' section pos; Ok (l :: ls)
      else Ok []
  end.
Definition decode_section (section : bytes) : res (list line) :=
  '(count, pos) ← decode_int codec section 0 8;
  if negb (count =? 0) then bail "dynamic"
  else '(_, pos) ← decode_int codec section pos 7; decode_lines (S (length section)) section pos.

Definition header_of (l : line) : option (bytes * bytes) :=
  match l with
  | Indexed i => entry i
  | NameRef _ i v => e ← entry i; if huffman v then None else Some (fst e, raw v)
  | LitName _ n v => if huffman n || huffman v then None else Some (raw n, raw v)
  end.

(** ** Reading rendered lines *)

Lemma qpack_codec_ok : codec_ok codec.
Proof. by right. Qed.

Lemma qpack_entry_range i : 0 ≤ i < 99 → ∃ n v, entry i = Some (n, v) ∧ bytes_eqb n (bstr ":status") = is_status_index i ∧
  (if is_status_index i then ∃ s, status.status_value v false = Ok s ∧ status_for_index i = Some s
   else status_for_index i = None).
Proof.
  intros Hi. assert (∃ k, (k < 99)%nat ∧ i = Z.of_nat k) as (k & Hk & ->) by (exists (Z.to_nat i); lia).
  do 99 (destruct k as [|k]; [eexists _, _; split; [reflexivity|]; split; [vm_compute; reflexivity|];
    vm_compute; first [reflexivity|eexists; split; reflexivity]|]). lia.
Qed.

(** The first byte of each kind of line, and the flags in it. *)
Lemma first_indexed i : 0 ≤ i → ∃ b tl, encode_int 6 (3 * 2 ^ 6) i = b :: tl ∧
  (Z.land b 0x80 =? 0) = false ∧ (Z.land b 0x40 =? 0) = false.
Proof.
  intros Hi. destruct (encode_int_cons 6 3 i) as (k & tl & E & Hk); [lia|lia|].
  exists (3 * 2 ^ 6 + k), tl. split; [done|]. split.
  - rewrite tests_80 by lia. apply Z.ltb_ge. lia.
  - apply negb_true_iff. exact (bit_above 6 1 true k ltac:(lia) Hk).
Qed.
Lemma first_name_ref (never : bool) i : 0 ≤ i → ∃ b tl, encode_int 4 ((if never then 7 else 5) * 2 ^ 4) i = b :: tl ∧
  (Z.land b 0x80 =? 0) = true ∧ (Z.land b 0x40 =? 0) = false ∧ (Z.land b 0x10 =? 0) = false ∧
  negb (Z.land b 0x20 =? 0) = never.
Proof.
  intros Hi. destruct (encode_int_cons 4 (if never then 7 else 5) i) as (k & tl & E & Hk); [lia|lia|].
  exists ((if never then 7 else 5) * 2 ^ 4 + k), tl. split; [done|].
  assert (0 ≤ k < 16) as Hk' by exact Hk. split_and!.
  - rewrite tests_80 by (destruct never; lia). apply Z.ltb_lt. destruct never; lia.
  - rewrite tests_40 by (destruct never; lia). apply Z.ltb_ge. destruct never; lia.
  - apply negb_true_iff. destruct never; [exact (bit_above 4 3 true k ltac:(lia) Hk)|exact (bit_above 4 2 true k ltac:(lia) Hk)].
  - replace ((if never then 7 else 5) * 2 ^ 4 + k) with ((2 * 1 + (if never then 1 else 0)) * 2 ^ 5 + (16 + k))
      by (destruct never; lia).
    apply (bit_above 5 1 never (16 + k)); lia.
Qed.
Lemma first_lit_name (never : bool) n : ∃ b tl, render_lit 3 (if never then 3 else 2) n = b :: tl ∧
  (Z.land b 0x80 =? 0) = true ∧ (Z.land b 0x40 =? 0) = true ∧ (Z.land b 0x20 =? 0) = false ∧
  negb (Z.land b 0x10 =? 0) = never.
Proof.
  unfold render_lit. set (h := if huffman n then 1 else 0). assert (0 ≤ h ≤ 1) by (subst h; destruct (huffman n); lia).
  destruct (encode_int_cons 3 (2 * (if never then 3 else 2) + h) (zlen (raw n))) as (k & tl & E & Hk);
    [lia|apply zlen_nonneg|]. rewrite E. assert (0 ≤ k < 8) as Hk' by exact Hk.
  eexists _, _. split; [reflexivity|]. set (b := _ + k).
  assert (b = (2 * 1 + (if never then 1 else 0)) * 2 ^ 4 + (8 * h + k)) as Eb by (subst b; destruct never; lia).
  assert (32 ≤ b < 64) by (subst b; destruct never; lia). split_and!.
  - rewrite tests_80 by lia. apply Z.ltb_lt. lia.
  - rewrite tests_40 by lia. apply Z.ltb_lt. lia.
  - rewrite tests_20 by lia. apply Z.ltb_ge. lia.
  - rewrite Eb. apply (bit_above 4 1 never (8 * h + k)); lia.
Qed.

(** Reading what stands at [pre]. *)
Lemma decode_at pre post b m i :
  1 ≤ b ≤ 8 → 0 ≤ i < 99 →
  decode_int codec (pre ++ encode_int b (m * 2 ^ b) i ++ post) (length pre) b = Ok (i, length (pre ++ encode_int b (m * 2 ^ b) i)).
Proof.
  intros Hb Hi. rewrite length_app. apply decode_encode_int; [apply qpack_codec_ok|done|].
  assert (1 ≤ 2 ^ b) by lia. unfold int_max. change (2 ^ width codec) with (2 ^ 64).
  change (2 ^ (max_shift codec + 7)) with (2 ^ 63). lia.
Qed.

(** One turn of the loop on a rendered line. *)
Lemma qpack_find_step fuel pre l post :
  line_ok l → zlen (pre ++ render l) < 2 ^ 62 →
  find_loop (S fuel) (pre ++ render l ++ post) (length pre) =
    match verdict l with
    | Some r => r
    | None => find_loop fuel (pre ++ render l ++ post) (length (pre ++ render l))
    end.
Proof.
  intros Hl Hlen. cbn [find_loop]. pose proof qpack_codec_ok as Hc. destruct l as [i|never i v|never n v]; cbn [render] in *.
  - cbn in Hl. destruct (first_indexed i) as (b & tl & E & H80 & H40); [lia|].
    destruct (first_byte pre _ _ _ post E) as [Hpos Hidx]. rewrite Hpos, Hidx. cbn [mbind result_bind].
    rewrite H80, H40. cbn [negb]. rewrite decode_at by lia. cbn [mbind result_bind verdict option_bind].
    destruct (qpack_entry_range i Hl) as (nm & x & -> & Hnm & Hs). cbn [mbind option_bind]. rewrite Hnm.
    destruct (is_status_index i); [by destruct Hs as (st & -> & ->)|by rewrite Hs].
  - destruct Hl as [Hi Hv]. destruct (first_name_ref never i) as (b & tl & E & H80 & H40 & H10 & _); [lia|].
    rewrite <- app_assoc. destruct (first_byte pre _ _ _ (render_lit 7 0 v ++ post) E) as [Hpos Hidx].
    rewrite Hpos, Hidx. cbn [mbind result_bind]. rewrite H80, H40, H10. cbn [negb].
    rewrite decode_at by lia. cbn [mbind result_bind]. rewrite (app_assoc pre).
    rewrite read_lit by (done || lia || by rewrite <- app_assoc). cbn [mbind result_bind verdict].
    destruct (qpack_entry_range i Hi) as (nm & x & -> & Hnm & _). cbn [mbind option_bind]. rewrite Hnm, <- !app_assoc.
    by destruct (is_status_index i).
  - destruct Hl as [Hn Hv]. destruct (first_lit_name never n) as (b & tl & E & H80 & H40 & H20 & _).
    rewrite <- app_assoc. destruct (first_byte pre _ _ _ (render_lit 7 0 v ++ post) E) as [Hpos Hidx].
    rewrite Hpos, Hidx. cbn [mbind result_bind]. rewrite H80, H40, H20. cbn [negb].
    rewrite read_lit; [|done|lia|done|].
    2: { rewrite !zlen_app in *. pose proof (zlen_nonneg (render_lit 7 0 v)). lia. }
    cbn [mbind result_bind]. rewrite (app_assoc pre).
    rewrite read_lit by (done || lia || by rewrite <- app_assoc). cbn [mbind result_bind verdict].
    rewrite <- !app_assoc. by destruct (bytes_eqb _ _).
Qed.

Lemma decode_line_render pre l post :
  line_ok l → zlen (pre ++ render l) < 2 ^ 62 →
  decode_line (pre ++ render l ++ post) (length pre) = Ok (l, length (pre ++ render l)).
Proof.
  intros Hl Hlen. unfold decode_line. pose proof qpack_codec_ok as Hc. destruct l as [i|never i v|never n v]; cbn [render] in *.
  - cbn in Hl. destruct (first_indexed i) as (b & tl & E & H80 & H40); [lia|].
    destruct (first_byte pre _ _ _ post E) as [_ Hidx]. rewrite Hidx. cbn [mbind result_bind].
    rewrite H80, H40. cbn [negb]. by rewrite decode_at by lia.
  - destruct Hl as [Hi Hv]. destruct (first_name_ref never i) as (b & tl & E & H80 & H40 & H10 & H20); [lia|].
    rewrite <- app_assoc. destruct (first_byte pre _ _ _ (render_lit 7 0 v ++ post) E) as [_ Hidx].
    rewrite Hidx. cbn [mbind result_bind]. rewrite H80, H40, H10, H20. cbn [negb].
    rewrite decode_at by lia. cbn [mbind result_bind]. rewrite (app_assoc pre).
    rewrite read_lit by (done || lia || by rewrite <- app_assoc). cbn [mbind result_bind]. rewrite <- !app_assoc. by destruct v.
  - destruct Hl as [Hn Hv]. destruct (first_lit_name never n) as (b & tl & E & H80 & H40 & H20 & H10).
    rewrite <- app_assoc. destruct (first_byte pre _ _ _ (render_lit 7 0 v ++ post) E) as [_ Hidx].
    rewrite Hidx. cbn [mbind result_bind]. rewrite H80, H40, H20, H10. cbn [negb].
    rewrite read_lit; [|done|lia|done|].
    2: { rewrite !zlen_app in *. pose proof (zlen_nonneg (render_lit 7 0 v)). lia. }
    cbn [mbind result_bind]. rewrite (app_assoc pre).
    rewrite read_lit by (done || lia || by rewrite <- app_assoc). cbn [mbind result_bind].
    rewrite <- !app_assoc. by destruct n, v.
Qed.

Lemma render_line_nonempty l : line_ok l → (0 < length (render l))%nat.
Proof.
  destruct l as [i|never i v|never n v]; intros Hl; cbn [render line_ok] in *.
  - destruct (first_indexed i) as (b & tl & -> & _); [lia|]. cbn. lia.
  - destruct (first_name_ref never i) as (b & tl & -> & _); [lia|]. cbn. lia.
  - destruct (first_lit_name never n) as (b & tl & -> & _). cbn. lia.
Qed.

Lemma decode_lines_render ls : ∀ fuel pre,
  Forall line_ok ls → zlen (pre ++ concat (render <$> ls)) < 2 ^ 62 →
  (length (concat (render <$> ls)) < fuel)%nat →
  decode_lines fuel (pre ++ concat (render <$> ls)) (length pre) = Ok ls.
Proof.
  induction ls as [|l ls IH]; intros fuel pre Hls Hlen Hfuel; destruct fuel as [|fuel]; try lia; cbn [decode_lines].
  { cbn [fmap list_fmap concat]. rewrite app_nil_r, Nat.ltb_irrefl. done. }
  apply Forall_cons in Hls as [Hl Hls]. cbn [fmap list_fmap concat] in *. pose proof (render_line_nonempty l Hl).
  rewrite (proj2 (Nat.ltb_lt _ _)) by (rewrite !length_app; lia).
  rewrite decode_line_render; [|done|].
  2: { rewrite !zlen_app in *. pose proof (zlen_nonneg (concat (render <$> ls))). lia. }
  cbn [mbind result_bind]. rewrite app_assoc, IH; [done|done|by rewrite <- app_assoc|]. rewrite length_app in Hfuel. lia.
Qed.

Lemma qpack_find_loop_render ls : ∀ fuel pre,
  Forall line_ok ls → zlen (pre ++ concat (render <$> ls)) < 2 ^ 62 →
  (length (concat (render <$> ls)) < fuel)%nat →
  find_loop fuel (pre ++ concat (render <$> ls)) (length pre) = first_status ls.
Proof.
  induction ls as [|l ls IH]; intros fuel pre Hls Hlen Hfuel; destruct fuel as [|fuel]; try lia.
  { cbn [fmap list_fmap concat find_loop]. rewrite app_nil_r, Nat.ltb_irrefl. done. }
  apply Forall_cons in Hls as [Hl Hls]. cbn [fmap list_fmap concat] in *. pose proof (render_line_nonempty l Hl).
  rewrite qpack_find_step; [|done|].
  2: { rewrite !zlen_app in *. pose proof (zlen_nonneg (concat (render <$> ls))). lia. }
  cbn [first_status]. destruct (verdict l); [done|].
  rewrite app_assoc, IH; [done|done|by rewrite <- app_assoc|]. rewrite length_app in Hfuel. lia.
Qed.

(** The prefix of a section, then its lines. *)
Lemma decode_prefix sign base (k : nat → res (option Z)) rest :
  0 ≤ base < 2 ^ 63 →
  let section := prefix (sign, base) ++ rest in
  ('(count, pos) ← decode_int codec section 0 8;
   if negb (count =? 0) then bail "QPACK dynamic table reference"
   else '(_, pos) ← decode_int codec section pos 7; k pos) = k (length (prefix (sign, base))).
Proof.
  intros Hb section. subst section. unfold prefix. cbn [fst snd]. rewrite <- app_assoc.
  pose proof (decode_encode_int codec [] (encode_int 7 (sign * 2 ^ 7) base ++ rest) 8 0 0 qpack_codec_ok) as H0.
  cbn [app length Nat.add] in H0. rewrite Z.mul_0_l in H0. rewrite H0; [|lia|split; [lia|reflexivity]].
  cbn [mbind result_bind negb Z.eqb].
  pose proof (decode_encode_int codec (encode_int 8 0 0) rest 7 sign base qpack_codec_ok) as H1.
  rewrite H1; [|lia|]. { cbn [mbind result_bind]. by rewrite length_app. }
  unfold int_max. change (2 ^ width codec) with (2 ^ 64). change (2 ^ (max_shift codec + 7)) with (2 ^ 63).
  change (2 ^ 7) with 128. lia.
Qed.

(** ** The fast path *)

Lemma find_slow_fast first rest status :
  byte_ok first → Z.land first 0xc0 = 0xc0 → Z.land first 0x3f ≠ 0x3f →
  status_for_index (Z.land first 0x3f) = Some status →
  find_slow (0 :: 0 :: first :: rest) = Ok (Some status).
Proof.
  intros Hb Hc0 H3f Hs. unfold byte_ok in Hb. unfold find_slow.
  change (decode_int codec (0 :: 0 :: first :: rest) 0 8) with (@Ok error _ (0, 1%nat)). cbn [mbind result_bind negb Z.eqb].
  change (decode_int codec (0 :: 0 :: first :: rest) 1 7) with (@Ok error _ (0, 2%nat)). cbn [mbind result_bind].
  cbn [find_loop]. change (2 <? length (0%Z :: 0%Z :: first :: rest))%nat with true. cbv iota.
  change (index (0 :: 0 :: first :: rest) 2) with (@Ok error Z first). cbn [mbind result_bind].
  assert (192 ≤ first) as Hge.
  { assert (forallb (λ b, implb (Z.land b 0xc0 =? 0xc0) (192 <=? b)) (seqZ 0 256) = true) as Hall by (vm_compute; reflexivity).
    rewrite forallb_forall in Hall. specialize (Hall first). rewrite <- list_elem_of_In, elem_of_seqZ in Hall.
    specialize (Hall ltac:(lia)). rewrite (proj2 (Z.eqb_eq _ _) Hc0) in Hall. by apply Z.leb_le. }
  rewrite tests_80, (proj2 (Z.ltb_ge first 128)) by lia. cbn [negb].
  assert (negb (Z.land first 0x40 =? 0) = true) as ->.
  { replace first with ((2 * 1 + 1) * 2 ^ 6 + (first - 192)) by lia. apply (bit_above 6 1 true); lia. }
  unfold decode_int. change (get codec (0 :: 0 :: first :: rest) 2) with (@Ok error Z first). cbn [mbind result_bind].
  change (Z.shiftl 1 6 - 1) with 0x3f.
  assert (Z.land first 0x3f < 0x3f) as Hlt.
  { change 0x3f with (2 ^ 6 - 1) in *. rewrite land_mask in * by lia.
    pose proof (Z.mod_pos_bound first (2 ^ 6) ltac:(lia)). lia. }
  rewrite (proj2 (Z.ltb_lt _ _)) by done. cbn [mbind result_bind negb]. by rewrite Hs.
Qed.

Lemma find_fast section : bytes_ok section → find_status section = find_slow section.
Proof.
  intros Hok. unfold find_status. destruct section as [|[| |] [|[| |] [|first rest]]]; try done.
  destruct (Z.eqb_spec (Z.land first 0xc0) 0xc0) as [Hc0|]; [|done].
  destruct (Z.eqb_spec (Z.land first 0x3f) 0x3f) as [|H3f]; [done|]. cbn [andb negb].
  destruct (status_for_index _) as [status|] eqn:Hs; [|done]. symmetry. apply find_slow_fast; try done.
  by apply (bytes_ok_lookup _ 2%nat _ Hok).
Qed.

Lemma qpack_wp_find_loop section : bytes_ok section → ∀ fuel pos,
  (length section - pos < fuel)%nat → wp (find_loop fuel section pos) (λ _, True).
Proof.
  intros Hok. pose proof qpack_codec_ok as Hc. induction fuel as [|fuel IH]; intros pos Hf; [lia|]. cbn [find_loop].
  assert (∀ v h, wp (Some <$> status.status_value v h) (λ _, True)) as Hst.
  { intros v h. pose proof (status.wp_status_value v h) as Hw. by destruct (status.status_value v h) as [|[]]. }
  destruct (Nat.ltb_spec pos (length section)); [|done].
  wp_step. apply wp_index; [done|]. intros first _. wp_step; [|wp_step; [|wp_step; [|done]]].
  - wp_step. eapply wp_mono; [apply wp_decode_int; (done || lia)|]. intros [i p] [_ Hp]. cbn in Hp.
    wp_step; [done|]. destruct (status_for_index i); [done|]. apply IH. lia.
  - wp_step. eapply wp_mono; [apply wp_decode_int; (done || lia)|]. intros [i p] [_ Hp]. cbn in Hp. wp_step; [done|].
    wp_step. eapply wp_mono; [apply wp_read_str; (done || lia)|]. intros [[v h] q] Hq. cbn in Hq.
    wp_step; [apply Hst|apply IH; lia].
  - wp_step. eapply wp_mono; [apply wp_read_str; (done || lia)|]. intros [[n hn] p] Hp. cbn in Hp.
    wp_step. eapply wp_mono; [apply wp_read_str; (done || lia)|]. intros [[v h] q] Hq. cbn in Hq.
    wp_step; [apply Hst|apply IH; lia].
Qed.

Lemma wp_find_slow section : bytes_ok section → wp (find_slow section) (λ _, True).
Proof.
  intros Hok. pose proof qpack_codec_ok as Hc. unfold find_slow. wp_step.
  eapply wp_mono; [apply wp_decode_int; (done || lia)|]. intros [i p] _. wp_step; [done|]. wp_step.
  eapply wp_mono; [apply wp_decode_int; (done || lia)|]. intros [j q] _. apply qpack_wp_find_loop; [done|lia].
Qed.

(** [find_status]'s fast path changes nothing: on every byte string it
    returns what the general walk returns, and neither panics nor runs on. *)
Theorem qpack_fast_path section :
  bytes_ok section → find_status section = find_slow section ∧ no_panic (find_status section).
Proof.
  intros Hok. rewrite (find_fast section Hok). split; [done|]. by eapply wp_no_panic, wp_find_slow.
Qed.

(** [find_status] reads any field section a peer without a dynamic table
    may write: whatever the base in the prefix, it returns the value of the
    first line named [:status] by the static table of RFC 9204. *)
Theorem qpack_find_status sign base ls :
  0 ≤ sign ≤ 1 → 0 ≤ base < 2 ^ 63 → Forall line_ok ls →
  bytes_ok (prefix (sign, base) ++ concat (render <$> ls)) →
  zlen (prefix (sign, base) ++ concat (render <$> ls)) < 2 ^ 62 →
  find_status (prefix (sign, base) ++ concat (render <$> ls)) = first_status ls.
Proof.
  intros Hsign Hbase Hls Hok Hlen. rewrite find_fast by done. unfold find_slow.
  rewrite (decode_prefix sign base (λ pos, find_loop _ _ pos)) by done.
  apply qpack_find_loop_render; [done|done|]. rewrite length_app. lia.
Qed.

(** ** The request section *)

Definition lit_str (s : bytes) : lit := mkLit false s.
Definition plain (n v : bytes) : line := LitName false (lit_str n) (lit_str v).
Definition request_lines (method scheme authority path : bytes) (headers : list (bytes * bytes)) (body_len : Z) : list line :=
  (match method_index method with Some i => Indexed i | None => plain (bstr ":method") method end) ::
  (match scheme_index scheme with Some i => Indexed i | None => plain (bstr ":scheme") scheme end) ::
  NameRef false 0 (lit_str authority) ::
  (if bytes_eqb path (bstr "/") then Indexed 1 else plain (bstr ":path") path) ::
  ((λ h, plain (fst h) (snd h)) <$> headers) ++
  (if 0 <? body_len then [NameRef false 4 (lit_str (to_string body_len))] else []).

(** The headers a request carries, in order. *)
Definition request_headers (method scheme authority path : bytes) (headers : list (bytes * bytes)) (body_len : Z)
  : list (bytes * bytes) :=
  [(bstr ":method", method); (bstr ":scheme", scheme); (bstr ":authority", authority); (bstr ":path", path)] ++
  headers ++ (if 0 <? body_len then [(bstr "content-length", to_string body_len)] else []).

Definition str_ok (s : bytes) : Prop := zlen s < 2 ^ 32.

Definition carries (l : line) (h : bytes * bytes) : Prop := line_ok l ∧ header_of l = Some h.

Lemma qpack_lit_str_ok b s : 1 ≤ b ≤ 7 → str_ok s → lit_ok codec b (lit_str s).
Proof.
  intros Hb Hs. unfold str_ok in Hs. assert (1 ≤ 2 ^ b) by lia. split; [|done]. unfold int_max. cbn [raw lit_str].
  change (2 ^ width codec) with (2 ^ 64). change (2 ^ (max_shift codec + 7)) with (2 ^ 63). lia.
Qed.
Lemma carries_plain n v : str_ok n → str_ok v → carries (plain n v) (n, v).
Proof. intros Hn Hv. split; [|done]. split; apply qpack_lit_str_ok; (done || lia). Qed.
Lemma carries_ref i n x v : 0 ≤ i < 99 → entry i = Some (n, x) → str_ok v → carries (NameRef false i (lit_str v)) (n, v).
Proof.
  intros Hi He Hv. split; [split; [done|apply qpack_lit_str_ok; (done || lia)]|]. unfold header_of. by rewrite He.
Qed.

(** A name of one of the two index tables stands for itself. *)
Lemma carries_lookup (table : list (bytes * Z)) name v l :
  forallb (λ e, (0 <=? snd e) && (snd e <? 99) && bool_decide (entry (snd e) = Some (name, fst e))) table = true →
  carries l (name, v) →
  carries (match snd <$> find (λ e, bytes_eqb (fst e) v) table with Some i => Indexed i | None => l end) (name, v).
Proof.
  intros Hall Hl. destruct (find _ table) as [[k i]|] eqn:E; [|done]. apply find_some in E as [Hin Hk].
  rewrite forallb_forall in Hall. specialize (Hall _ Hin). cbn [fst snd] in *. unfold bytes_eqb in Hk.
  apply bool_decide_eq_true in Hk as ->.
  apply andb_prop in Hall as [[?%Z.leb_le ?%Z.ltb_lt]%andb_prop ?%bool_decide_eq_true]. split; [cbn; lia|done].
Qed.

Lemma qpack_request_carries m s a p hs n :
  str_ok m → str_ok s → str_ok a → str_ok p → Forall (λ h, str_ok (fst h) ∧ str_ok (snd h)) hs → 0 ≤ n < 2 ^ 64 →
  Forall2 carries (request_lines m s a p hs n) (request_headers m s a p hs n).
Proof.
  intros Hm Hs Ha Hp Hhs Hn. unfold request_lines, request_headers. cbn [app].
  apply Forall2_cons_2; [|apply Forall2_cons_2; [|apply Forall2_cons_2; [|apply Forall2_cons_2]]].
  - apply carries_lookup; [vm_compute; reflexivity|]. by apply carries_plain.
  - apply carries_lookup; [vm_compute; reflexivity|]. by apply carries_plain.
  - by eapply carries_ref.
  - unfold bytes_eqb. case_bool_decide; [subst; done|by apply carries_plain].
  - apply Forall2_app.
    + induction Hhs as [|[hn hv] hs [Hn1 Hv] Hhs IH]; cbn; constructor; [by apply carries_plain|done].
    + destruct (0 <? n); constructor; [|constructor]. eapply carries_ref; [lia|reflexivity|].
      unfold str_ok, zlen. pose proof (to_digits_length 20 n []). unfold to_string. cbn in *. lia.
Qed.

Lemma qpack_encode_render m s a p hs n :
  encode_request m s a p hs n = prefix (0, 0) ++ concat (render <$> request_lines m s a p hs n).
Proof.
  unfold encode_request, request_lines. cbn [fmap list_fmap concat]. rewrite fmap_app, concat_app.
  assert (∀ n v, render (plain n v) = literal n v) as Hp by done.
  assert (∀ i v, render (NameRef false i (lit_str v)) = literal_named i v) as Hr by done.
  change (prefix (0, 0)) with [0; 0]. f_equal. f_equal; [|f_equal; [|f_equal; f_equal; [|f_equal]]].
  - by destruct (method_index m).
  - by destruct (scheme_index s).
  - by destruct (bytes_eqb p _).
  - induction hs as [|h hs IH]; [done|]. cbn [fmap list_fmap concat]. by rewrite Hp, IH.
  - destruct (0 <? n); [|done]. cbn [fmap list_fmap concat]. by rewrite Hr, app_nil_r.
Qed.

(** The request section says what was asked: decoding it as RFC 9204 does
    yields the four pseudo-headers in order, the caller's headers unchanged and
    the content length when there is a body, with static references and
    literals only. *)
Theorem qpack_encode_request m s a p hs n :
  str_ok m → str_ok s → str_ok a → str_ok p → Forall (λ h, str_ok (fst h) ∧ str_ok (snd h)) hs → 0 ≤ n < 2 ^ 64 →
  zlen (encode_request m s a p hs n) < 2 ^ 62 →
  ∃ ls, decode_section (encode_request m s a p hs n) = Ok ls ∧
    header_of <$> ls = Some <$> request_headers m s a p hs n.
Proof.
  intros Hm Hs Ha Hp Hhs Hn Hlen. pose proof (qpack_request_carries m s a p hs n Hm Hs Ha Hp Hhs Hn) as Hc.
  rewrite qpack_encode_render in *. exists (request_lines m s a p hs n). split.
  - unfold decode_section. set (sec := _ ++ _).
    change (decode_int codec sec 0 8) with (@Ok error _ (0, 1%nat)). cbn [mbind result_bind negb Z.eqb].
    change (decode_int codec sec 1 7) with (@Ok error _ (0, 2%nat)). cbn [mbind result_bind].
    apply (decode_lines_render _ _ [0; 0]); [|done|subst sec; rewrite length_app; lia].
    eapply Forall2_Forall_l; [exact Hc|]. apply Forall_true. by intros h l [? _].
  - clear -Hc. induction Hc as [|l h ls hs2 [_ Hh] _ IH]; [done|]. cbn. by rewrite Hh, IH.
Qed.

(** ** Witnesses *)

Lemma qpack_fast_path_witness :
  find_status [0; 0; 0xd9; 0xff] = find_slow [0; 0; 0xd9; 0xff] ∧ find_status [0; 0; 0xd9; 0xff] = Ok (Some 200) ∧
  no_panic (find_status [0; 0; 0xd9; 0xff]).
Proof.
  destruct (qpack_fast_path [0; 0; 0xd9; 0xff]) as [E Hp]; [by_decide|].
  split; [exact E|]. split; [vm_compute; reflexivity|exact Hp].
Defined.

Definition sample_lines : list line :=
  [NameRef true 92 (mkLit false (bstr "h3")); LitName false (mkLit true [0x9d; 0x29]) (mkLit false []);
   NameRef false 24 (mkLit true [0x64; 0x02]); Indexed 25].
Lemma qpack_find_status_witness :
  find_status (prefix (1, 300) ++ concat (render <$> sample_lines)) = Ok (Some 302).
Proof.
  rewrite (qpack_find_status 1 300 sample_lines); [vm_compute; reflexivity|lia|lia|by_decide|by_decide|vm_compute; reflexivity].
Defined.

Lemma qpack_encode_request_witness :
  ∃ ls, decode_section (encode_request (bstr "GET") (bstr "https") (bstr "h:1") (bstr "/x") [(bstr "accept", bstr "*")] 7) = Ok ls ∧
    header_of <$> ls = Some <$> request_headers (bstr "GET") (bstr "https") (bstr "h:1") (bstr "/x") [(bstr "accept", bstr "*")] 7.
Proof.
  apply (qpack_encode_request (bstr "GET") (bstr "https") (bstr "h:1") (bstr "/x") [(bstr "accept", bstr "*")] 7); by_decide.
Defined.
End qpack.
