(* ===== verification/Incremental.v ===== *)
(** * Reading a stream in pieces

    The HTTP/3 readers of [src/http3/proto.rs] and [Connection::feed] of
    [src/http2/conn.rs] all work the same way: a receive is appended to what
    earlier ones left unfinished, as many whole units as possible are read off
    the front, and the rest is kept.  [Incremental] is the interface such a
    reader offers, one unit at a time; from its laws it follows, once for all
    of them, that the result does not depend on how the stream was cut up. *)

From S2P Require Import Prelude.

(** [step s buf] reads one unit: [None] when more bytes are needed, otherwise
    the new state and how many bytes were used, or an error. *)
Class Incremental (St : Type) := {
  step : St → bytes → option (res (St * nat));
  (** Units that use no bytes must make [rank] smaller. *)
  rank : St → nat;
}.

(** What [step] decides does not change when more bytes arrive, and it makes
    progress. *)
Class IncrementalLaws (St : Type) `{Incremental St} := {
  step_more s buf r more : step s buf = Some r → step s (buf ++ more) = Some r;
  step_progress s buf s' n : bytes_ok buf → step s buf = Some (Ok (s', n)) →
    (n ≤ length buf)%nat ∧ (n = 0%nat → (rank s' < rank s)%nat);
  rank_bound s : (rank s ≤ 1)%nat;
}.

Module incremental.
Section driver.
Context `{IncrementalLaws St}.

(** Read units until one is unfinished: the state and the bytes left. *)
Fixpoint drive (fuel : nat) (s : St) (buf : bytes) : res (St * bytes) :=
  match fuel with
  | O => panic "out of fuel"
  | S fuel' =>
      match step s buf with
      | None => Ok (s, buf)
      | Some (Err e) => Err e
      | Some (Ok (s', n)) => drive fuel' s' (drop n buf)
      end
  end.

(** Units that use no bytes come one at a time between those that do. *)
Definition enough (s : St) (buf : bytes) : nat := (2 * length buf + rank s + 1)%nat.
Definition consume (s : St) (buf : bytes) : res (St * bytes) := drive (2 * length buf + 2) s buf.

Lemma enough_step s buf s' n :
  bytes_ok buf → step s buf = Some (Ok (s', n)) → (enough s' (drop n buf) < enough s buf)%nat.
Proof.
  intros Hok Hs. destruct (step_progress _ _ _ _ Hok Hs) as [Hn Hz]. unfold enough. rewrite length_drop.
  pose proof (rank_bound s'). destruct n as [|n]; [specialize (Hz eq_refl); lia|lia].
Qed.

Lemma drive_fuel fuel1 : ∀ fuel2 s buf,
  bytes_ok buf → (enough s buf ≤ fuel1)%nat → (enough s buf ≤ fuel2)%nat → drive fuel1 s buf = drive fuel2 s buf.
Proof.
  induction fuel1 as [|fuel1 IH]; intros fuel2 s buf Hok H1 H2; [unfold enough in H1; lia|].
  destruct fuel2 as [|fuel2]; [unfold enough in H2; lia|]. cbn [drive].
  destruct (step s buf) as [[[s' n]|e]|] eqn:Hs; [|done|done].
  pose proof (enough_step _ _ _ _ Hok Hs). apply IH; [by apply bytes_ok_drop|lia|lia].
Qed.

Lemma consume_fuel fuel s buf : bytes_ok buf → (enough s buf ≤ fuel)%nat → drive fuel s buf = consume s buf.
Proof. intros Hok Hf. apply drive_fuel; [done|done|]. unfold enough. pose proof (rank_bound s). lia. Qed.

(** Reading one unit, then the rest. *)
Lemma consume_step s buf s' n :
  bytes_ok buf → step s buf = Some (Ok (s', n)) → consume s buf = consume s' (drop n buf).
Proof.
  intros Hok Hs. pose proof (enough_step _ _ _ _ Hok Hs) as He.
  rewrite <- (consume_fuel (S (enough s buf)) s buf) by (done || lia).
  cbn [drive]. rewrite Hs. apply consume_fuel; [by apply bytes_ok_drop|lia].
Qed.
Lemma consume_stop s buf : step s buf = None → consume s buf = Ok (s, buf).
Proof. intros Hs. unfold consume. rewrite Nat.add_comm. cbn [drive Nat.add]. by rewrite Hs. Qed.
Lemma consume_error s buf e : step s buf = Some (Err e) → consume s buf = Err e.
Proof. intros Hs. unfold consume. rewrite Nat.add_comm. cbn [drive Nat.add]. by rewrite Hs. Qed.

(** Induction over the units read. *)
Lemma consume_ind (P : St → bytes → Prop) :
  (∀ s buf, step s buf = None → P s buf) →
  (∀ s buf e, step s buf = Some (Err e) → P s buf) →
  (∀ s buf s' n, bytes_ok buf → step s buf = Some (Ok (s', n)) → P s' (drop n buf) → P s buf) →
  ∀ s buf, bytes_ok buf → P s buf.
Proof.
  intros Hstop Herr Hstep s buf. remember (enough s buf) as k eqn:Hk. revert s buf Hk.
  induction k as [k IH] using lt_wf_ind. intros s buf -> Hok.
  destruct (step s buf) as [[[s' n]|e]|] eqn:Hs; [|by eapply Herr|by apply Hstop].
  eapply Hstep; [done|exact Hs|]. eapply IH; [|done|by apply bytes_ok_drop]. by apply enough_step.
Qed.

(** What is read from a prefix is read from the whole. *)
Lemma consume_app s buf more :
  bytes_ok buf → bytes_ok more →
  consume s (buf ++ more) = ('(s', rest) ← consume s buf; consume s' (rest ++ more)).
Proof.
  intros Hbuf Hmore. revert s buf Hbuf. apply consume_ind.
  - intros s buf Hs. by rewrite (consume_stop s buf Hs).
  - intros s buf e Hs. rewrite (consume_error s buf e Hs). by apply consume_error, step_more.
  - intros s buf s' n Hok Hs IH. rewrite (consume_step s buf s' n Hok Hs).
    rewrite (consume_step s (buf ++ more) s' n) by (by apply bytes_ok_app || by apply step_more).
    destruct (step_progress _ _ _ _ Hok Hs) as [Hn _]. by rewrite drop_app_le.
Qed.

(** What is left over is an unfinished unit, a suffix of what was given. *)
Lemma consume_stuck s buf s' rest :
  bytes_ok buf → consume s buf = Ok (s', rest) → step s' rest = None ∧ ∃ n, rest = drop n buf.
Proof.
  revert s buf. apply (consume_ind (λ s buf, consume s buf = Ok (s', rest) → step s' rest = None ∧ ∃ n, rest = drop n buf)).
  - intros s buf Hs. rewrite (consume_stop s buf Hs). intros [= <- <-]. split; [done|]. by exists 0%nat.
  - intros s buf e Hs. by rewrite (consume_error s buf e Hs).
  - intros s buf s1 n Hok Hs IH. rewrite (consume_step s buf s1 n Hok Hs). intros [Hst [k ->]]%IH. split; [done|].
    exists (n + k)%nat. by rewrite drop_drop.
Qed.

(** An invariant of the steps, and the absence of panics. *)
Lemma wp_consume (Inv : St → Prop) s buf :
  (∀ s buf, Inv s → bytes_ok buf → match step s buf with Some r => wp r (λ x, Inv x.1) | None => True end) →
  Inv s → bytes_ok buf → wp (consume s buf) (λ x, Inv x.1 ∧ bytes_ok x.2).
Proof.
  intros Hstep Hi Hok. pose proof Hok as Hok'. revert s buf Hok' Hi Hok.
  apply (consume_ind (λ s buf, Inv s → bytes_ok buf → wp (consume s buf) (λ x, Inv x.1 ∧ bytes_ok x.2))).
  - intros s buf Hs Hi Hb. by rewrite (consume_stop s buf Hs).
  - intros s buf e Hs Hi Hb. rewrite (consume_error s buf e Hs). specialize (Hstep s buf Hi Hb). rewrite Hs in Hstep.
    by destruct e.
  - intros s buf s' n Hok Hs IH Hi Hb. rewrite (consume_step s buf s' n Hok Hs). specialize (Hstep s buf Hi Hb).
    rewrite Hs in Hstep. apply IH; [exact Hstep|by apply bytes_ok_drop].
Qed.

(** A reader keeps the unfinished unit between receives. *)
Definition feed (r : St * bytes) (data : bytes) : res (St * bytes) := consume (fst r) (snd r ++ data).
Fixpoint feeds (r : St * bytes) (pieces : list bytes) : res (St * bytes) :=
  match pieces with
  | [] => Ok r
  | d :: pieces' => r ← feed r d; feeds r pieces'
  end.

(** Between receives the carried-over bytes are unfinished. *)
Definition resting (r : St * bytes) : Prop := step (fst r) (snd r) = None.

Lemma feeds_concat r pieces :
  bytes_ok (snd r) → bytes_ok (concat pieces) → resting r → feeds r pieces = feed r (concat pieces).
Proof.
  revert r. induction pieces as [|d pieces IH]; intros [s p] Hp Hok Hr; cbn [feeds concat snd] in *.
  - unfold feed. cbn [fst snd]. rewrite app_nil_r. by rewrite consume_stop.
  - apply bytes_ok_app in Hok as [Hd Hok]. assert (bytes_ok (p ++ d)) as Hpd by by apply bytes_ok_app.
    unfold feed at 2. cbn [fst snd]. rewrite app_assoc, consume_app by done. unfold feed at 1. cbn [fst snd].
    destruct (consume s (p ++ d)) as [[s' rest]|e] eqn:E; [|done]. cbn [mbind result_bind].
    destruct (consume_stuck _ _ _ _ Hpd E) as [Hst [n ->]].
    apply IH; [by apply bytes_ok_drop|done|exact Hst].
Qed.
End driver.
End incremental.
