(* ===== verification/H3Proto.v ===== *)
(** * HTTP/3 framing — [src/http3/proto.rs]

    The bytes a client writes ([control_stream_prelude], [request_bytes]) and the
    two readers ([ResponseReader], [UniReader]), slices and loops as in the code.
    Each reader is shown to be an instance of [Incremental], whose unit is one
    frame, from which chunk independence follows. *)

From S2P Require Import Prelude Varint Status PrefixInt Qpack Incremental.

Module h3_proto.

Definition FRAME_DATA : Z := 0x00.
Definition FRAME_HEADERS : Z := 0x01.
Definition FRAME_SETTINGS : Z := 0x04.
Definition FRAME_GOAWAY : Z := 0x07.
Definition STREAM_CONTROL : Z := 0x00.
Definition SETTINGS_QPACK_MAX_TABLE_CAPACITY : Z := 0x01.
Definition SETTINGS_MAX_FIELD_SECTION_SIZE : Z := 0x06.
Definition SETTINGS_QPACK_BLOCKED_STREAMS : Z := 0x07.

Definition control_stream_prelude : bytes :=
  let settings := concat ((λ '(id, value), put_varint id ++ put_varint value) <$>
    [(SETTINGS_QPACK_MAX_TABLE_CAPACITY, 0); (SETTINGS_QPACK_BLOCKED_STREAMS, 0);
     (SETTINGS_MAX_FIELD_SECTION_SIZE, Z.shiftl 1 20)]) in
  put_varint STREAM_CONTROL ++ put_varint FRAME_SETTINGS ++ put_varint (zlen settings) ++ settings.

Definition request_bytes (field_section body : bytes) : bytes :=
  put_varint FRAME_HEADERS ++ put_varint (zlen field_section) ++ field_section ++
  (if bool_decide (body = []) then [] else put_varint FRAME_DATA ++ put_varint (zlen body) ++ body).

(** ** [ResponseReader] *)

Record ResponseReader := mkResponseReader { pending : bytes; skip : Z; status : Z }.
#[global] Instance ResponseReader_eq_dec : EqDecision ResponseReader.
Proof. solve_decision. Defined.
Definition new_response : ResponseReader := mkResponseReader [] 0 0.

(** The frame at [pos]: [None] when it is not all there yet, otherwise the
    reader and the position after what was read of it. *)
Definition read_frame (r : ResponseReader) (buf : bytes) (pos : nat) : res (option (ResponseReader * nat)) :=
  rest ← slice_from buf pos;
  match get_varint rest with
  | None => Ok None
  | Some (kind, n1) =>
      rest ← slice_from buf (pos + n1);
      match get_varint rest with
      | None => Ok None
      | Some (len, n2) =>
          let header_len := (n1 + n2)%nat in
          if kind =? FRAME_HEADERS then
            let end' := Z.of_nat (pos + header_len) + len in
            if zlen buf <? end' then Ok None
            else
              section ← slice buf (pos + header_len) (Z.to_nat end');
              found ← qpack.find_status section;
              let st := match found with
                        | Some st => if negb (status.is_informational st) then st else status r
                        | None => status r
                        end in
              Ok (Some (mkResponseReader (pending r) (skip r) st, Z.to_nat end'))
          else if (kind =? FRAME_GOAWAY) && (Z.shiftl 1 20 <? len) then bail "oversized GOAWAY"
          else Ok (Some (mkResponseReader (pending r) len (status r), (pos + header_len)%nat))
      end
  end.

(** The [loop] of [run]: every turn but the last consumes a frame header. *)
Fixpoint run_loop (fuel : nat) (r : ResponseReader) (buf : bytes) (pos : nat) : res (ResponseReader * nat) :=
  match fuel with
  | O => panic "out of fuel"
  | S fuel' =>
      let take := if 0 <? skip r then Z.min (skip r) (Z.of_nat (length buf - pos)) else 0 in
      let pos := (pos + Z.to_nat take)%nat in
      let r := mkResponseReader (pending r) (skip r - take) (status r) in
      if 0 <? skip r then Ok (r, pos)
      else
        next ← read_frame r buf pos;
        match next with
        | None => Ok (r, pos)
        | Some (r, pos) => run_loop fuel' r buf pos
        end
  end.
Definition run (r : ResponseReader) (buf : bytes) : res (ResponseReader * nat) :=
  run_loop (S (length buf)) r buf 0.

Definition feed (r : ResponseReader) (data : bytes) : res ResponseReader :=
  if bool_decide (pending r = []) then
    '(r, used) ← run r data;
    if (used <? length data)%nat then
      rest ← slice_from data used; Ok (mkResponseReader (pending r ++ rest) (skip r) (status r))
    else Ok r
  else
    let buf := pending r ++ data in
    '(r, used) ← run (mkResponseReader [] (skip r) (status r)) buf;
    rest ← slice_from buf used;
    Ok (mkResponseReader rest (skip r) (status r)).

(** ** [UniReader] *)

Record UniReader := mkUniReader { kind : option Z; u_pending : bytes; u_skip : Z; goaway : option Z }.
#[global] Instance UniReader_eq_dec : EqDecision UniReader.
Proof. solve_decision. Defined.
Definition new_uni : UniReader := mkUniReader None [] 0 None.

(** A GOAWAY's payload: the stream id, which may only fall. *)
Definition read_goaway (prev : option Z) (payload : bytes) : res Z :=
  match get_varint payload with
  | None => bail "GOAWAY without a stream id"
  | Some (id, n) =>
      if negb (n =? length payload)%nat then bail "GOAWAY with trailing bytes"
      else if match prev with Some p => p <? id | None => false end then bail "GOAWAY raised its stream id"
      else Ok id
  end.

(** The frame at [pos] of what is pending: [None] when it is not all there. *)
Definition read_uni_frame (u : UniReader) (pos : nat) : res (option (UniReader * nat)) :=
  let buf := u_pending u in
  rest ← slice_from buf pos;
  match get_varint rest with
  | None => Ok None
  | Some (kd, n1) =>
      rest ← slice_from buf (pos + n1);
      match get_varint rest with
      | None => Ok None
      | Some (len, n2) =>
          if kd =? FRAME_GOAWAY then
            if 8 <? len then bail "GOAWAY longer than a stream id"
            else
              let start := (pos + n1 + n2)%nat in
              match prefix_int.get_range buf start (Z.of_nat start + len) with
              | None => Ok None
              | Some payload =>
                  id ← read_goaway (goaway u) payload;
                  Ok (Some (mkUniReader (kind u) buf (u_skip u) (Some id), (start + length payload)%nat))
              end
          else Ok (Some (mkUniReader (kind u) buf len (goaway u), (pos + n1 + n2)%nat))
      end
  end.

(** The [loop] of [feed] on the control stream. *)
Fixpoint uni_loop (fuel : nat) (u : UniReader) (pos : nat) : res (UniReader * nat) :=
  match fuel with
  | O => panic "out of fuel"
  | S fuel' =>
      let buf := u_pending u in
      let take := if 0 <? u_skip u then Z.min (u_skip u) (Z.of_nat (length buf - pos)) else 0 in
      let pos := (pos + Z.to_nat take)%nat in
      let u := mkUniReader (kind u) buf (u_skip u - take) (goaway u) in
      if 0 <? u_skip u then Ok (u, pos)
      else
        next ← read_uni_frame u pos;
        match next with
        | None => Ok (u, pos)
        | Some (u, pos) => uni_loop fuel' u pos
        end
  end.

Definition uni_feed (u : UniReader) (data : bytes) : res UniReader :=
  let buf := u_pending u ++ data in
  let u := mkUniReader (kind u) buf (u_skip u) (goaway u) in
  match (match kind u with
         | Some k => Some (Some k, 0%nat)
         | None => '(k, n) ← get_varint buf; Some (Some k, n)
         end) with
  | None => Ok u
  | Some (k, pos) =>
      let u := mkUniReader k buf (u_skip u) (goaway u) in
      if negb (bool_decide (k = Some STREAM_CONTROL)) then Ok (mkUniReader k [] (u_skip u) (goaway u))
      else
        '(u, pos) ← uni_loop (S (length buf)) u pos;
        rest ← slice_from (u_pending u) pos;
        Ok (mkUniReader (kind u) rest (u_skip u) (goaway u))
  end.

(** ** One unit at a time *)

(** A frame header at the front of [buf]: the type, the length and how many
    bytes they took. *)
Definition frame_header (buf : bytes) : option (Z * Z * nat) :=
  '(kind, n1) ← get_varint buf;
  '(len, n2) ← get_varint (drop n1 buf);
  Some (kind, len, (n1 + n2)%nat).

(** A response stream: its unit is a byte to skip or a frame (a field section
    whole, anything else by its header). *)
Record response_state := mkState { to_skip : Z; seen : Z }.
Definition seen_after (old : Z) (found : option Z) : Z :=
  match found with Some st => if status.is_informational st then old else st | None => old end.
Definition response_step (s : response_state) (buf : bytes) : option (res (response_state * nat)) :=
  if 0 <? to_skip s then
    match buf with [] => None | _ => Some (Ok (mkState (to_skip s - 1) (seen s), 1%nat)) end
  else
    '(kind, len, n) ← frame_header buf;
    if kind =? FRAME_HEADERS then
      section ← prefix_int.get_range buf n (Z.of_nat n + len);
      Some (found ← qpack.find_status section;
            Ok (mkState (to_skip s) (seen_after (seen s) found), (n + length section)%nat))
    else if (kind =? FRAME_GOAWAY) && (2 ^ 20 <? len) then Some (bail "oversized GOAWAY")
    else Some (Ok (mkState len (seen s), n)).

#[global] Instance response_incremental : Incremental response_state :=
  { step := response_step; rank := λ _, 0%nat }.

(** A unidirectional stream: first its type; then, on the control stream, bytes
    to skip and frames; on any other, bytes to drop. *)
Record uni_state := mkUni { type : option Z; uni_skip : Z; last_goaway : option Z }.
Definition uni_step (s : uni_state) (buf : bytes) : option (res (uni_state * nat)) :=
  match type s with
  | None => '(k, n) ← get_varint buf; Some (Ok (mkUni (Some k) (uni_skip s) (last_goaway s), n))
  | Some k =>
      if negb (k =? STREAM_CONTROL) then match buf with [] => None | _ => Some (Ok (s, 1%nat)) end
      else if 0 <? uni_skip s then
        match buf with [] => None | _ => Some (Ok (mkUni (type s) (uni_skip s - 1) (last_goaway s), 1%nat)) end
      else
        '(kind, len, n) ← frame_header buf;
        if kind =? FRAME_GOAWAY then
          if 8 <? len then Some (bail "GOAWAY longer than a stream id")
          else
            payload ← prefix_int.get_range buf n (Z.of_nat n + len);
            Some (id ← read_goaway (last_goaway s) payload;
                  Ok (mkUni (type s) (uni_skip s) (Some id), (n + length payload)%nat))
        else Some (Ok (mkUni (type s) len (last_goaway s), n))
  end.
#[global] Instance uni_incremental : Incremental uni_state :=
  { step := uni_step; rank := λ _, 0%nat }.

(** ** The laws *)

Lemma get_range_more buf pos end' s more :
  prefix_int.get_range buf pos end' = Some s → prefix_int.get_range (buf ++ more) pos end' = Some s.
Proof.
  unfold prefix_int.get_range. intros Hs. case_decide as Hd; [|done]. injection Hs as <-. unfold zlen in *.
  rewrite decide_True by (rewrite length_app; lia). f_equal. rewrite drop_app_le by lia.
  rewrite take_app_le; [done|]. rewrite length_drop. lia.
Qed.
Lemma get_range_length buf pos end' s :
  prefix_int.get_range buf pos end' = Some s →
  (pos + length s ≤ length buf)%nat ∧ Z.of_nat (pos + length s) = end' ∧ s = take (length s) (drop pos buf).
Proof.
  unfold prefix_int.get_range. intros Hs. case_decide as Hd; [|done]. injection Hs as <-. unfold zlen in *.
  rewrite length_take, length_drop. split_and!; [lia|lia|]. f_equal. lia.
Qed.

Lemma get_varint_length buf v n : bytes_ok buf → get_varint buf = Some (v, n) → (0 < n ≤ length buf)%nat.
Proof. intros Hok Hv. destruct (get_varint_bounds _ _ _ Hok Hv) as (Hn & Hl & _). lia. Qed.

Lemma frame_header_more buf x more : frame_header buf = Some x → frame_header (buf ++ more) = Some x.
Proof.
  unfold frame_header. destruct (get_varint buf) as [[k n1]|] eqn:E1; [|done].
  rewrite (get_varint_app _ _ _ more E1). cbn.
  destruct (get_varint (drop n1 buf)) as [[l n2]|] eqn:E2; [|done]. cbn. intros <-.
  assert (n1 ≤ length buf)%nat as Hn.
  { destruct (decide (n1 ≤ length buf)%nat); [done|]. rewrite drop_ge in E2 by lia. done. }
  rewrite drop_app_le by done. by rewrite (get_varint_app _ _ _ more E2).
Qed.
Lemma frame_header_length buf k l n :
  bytes_ok buf → frame_header buf = Some (k, l, n) → (0 < n ≤ length buf)%nat ∧ 0 ≤ l < 2 ^ 62.
Proof.
  intros Hok. unfold frame_header. destruct (get_varint buf) as [[k' n1]|] eqn:E1; [|done]. cbn.
  destruct (get_varint (drop n1 buf)) as [[l' n2]|] eqn:E2; [|done]. cbn. intros [= <- <- <-].
  apply get_varint_length in E1; [|done]. pose proof (get_varint_lt _ _ _ (bytes_ok_drop n1 _ Hok) E2).
  apply get_varint_length in E2; [|by apply bytes_ok_drop]. rewrite length_drop in E2. lia.
Qed.

#[global] Instance response_laws : IncrementalLaws response_state.
Proof.
  constructor; unfold step, response_incremental, response_step.
  - intros s buf r more. destruct (0 <? to_skip s); [by destruct buf|].
    destruct (frame_header buf) as [[[k l] n]|] eqn:Hf; [|done]. rewrite (frame_header_more _ _ more Hf). cbn.
    destruct (k =? FRAME_HEADERS); [|done].
    destruct (prefix_int.get_range buf _ _) as [sec|] eqn:Hr; [|done]. by rewrite (get_range_more _ _ _ _ more Hr).
  - intros s buf s' n Hok. destruct (0 <? to_skip s).
    { destruct buf; [done|]. intros [= <- <-]. cbn. lia. }
    destruct (frame_header buf) as [[[k l] m]|] eqn:Hf; [|done]. apply frame_header_length in Hf as [Hm _]; [|done]. cbn.
    destruct (k =? FRAME_HEADERS).
    + destruct (prefix_int.get_range buf _ _) as [sec|] eqn:Hr; [|done]. apply get_range_length in Hr as (Hl & _). cbn.
      destruct (qpack.find_status sec); [|done]. intros [= <- <-]. lia.
    + destruct (_ && _); [done|]. intros [= <- <-]. lia.
  - intros s. cbn. lia.
Qed.

#[global] Instance uni_laws : IncrementalLaws uni_state.
Proof.
  constructor; unfold step, uni_incremental, uni_step.
  - intros s buf r more. destruct (type s) as [k|].
    2: { destruct (get_varint buf) as [[k n]|] eqn:E; [|done]. by rewrite (get_varint_app _ _ _ more E). }
    destruct (negb _); [by destruct buf|]. destruct (0 <? uni_skip s); [by destruct buf|].
    destruct (frame_header buf) as [[[kd l] n]|] eqn:Hf; [|done]. rewrite (frame_header_more _ _ more Hf). cbn.
    destruct (kd =? FRAME_GOAWAY); [|done]. destruct (8 <? l); [done|].
    destruct (prefix_int.get_range buf _ _) as [p|] eqn:Hr; [|done]. by rewrite (get_range_more _ _ _ _ more Hr).
  - intros s buf s' n Hok. destruct (type s) as [k|].
    2: { destruct (get_varint buf) as [[k m]|] eqn:E; [|done]. apply get_varint_length in E; [|done].
         cbn. intros [= <- <-]. lia. }
    destruct (negb _); [destruct buf; [done|]; intros [= <- <-]; cbn; lia|].
    destruct (0 <? uni_skip s); [destruct buf; [done|]; intros [= <- <-]; cbn; lia|].
    destruct (frame_header buf) as [[[kd l] m]|] eqn:Hf; [|done]. apply frame_header_length in Hf as [Hm _]; [|done]. cbn.
    destruct (kd =? FRAME_GOAWAY); [|intros [= <- <-]; lia]. destruct (8 <? l); [done|].
    destruct (prefix_int.get_range buf _ _) as [p|] eqn:Hr; [|done]. apply get_range_length in Hr as (Hl & _). cbn.
    destruct (read_goaway _ p); [|done]. intros [= <- <-]. lia.
  - intros s. cbn. lia.
Qed.

(** ** The readers against their units *)

Abbreviation consume := incremental.consume.

(** Skipping byte by byte is skipping all at once. *)
Lemma response_skip st : ∀ k buf,
  bytes_ok buf → 0 ≤ k →
  let t := Z.min k (zlen buf) in
  consume (mkState k st) buf = consume (mkState (k - t) st) (drop (Z.to_nat t) buf).
Proof.
  intros k buf. revert k. induction buf as [|b buf IH]; intros k Hok Hk; cbv zeta.
  { change (zlen []) with 0. replace (Z.min k 0) with 0 by lia. by rewrite Z.sub_0_r. }
  destruct (decide (k = 0)) as [->|Hne].
  { replace (Z.min 0 (zlen (b :: buf))) with 0 by (pose proof (zlen_nonneg (b :: buf)); lia). done. }
  rewrite (incremental.consume_step _ _ (mkState (k - 1) st) 1); [|done|].
  2: { unfold step, response_incremental, response_step. cbn. by rewrite (proj2 (Z.ltb_lt 0 k)) by lia. }
  cbn [drop]. apply bytes_ok_cons in Hok as [_ Hok]. rewrite IH by (done || lia). rewrite zlen_cons.
  pose proof (zlen_nonneg buf). f_equal; [f_equal; lia|].
  replace (Z.to_nat (Z.min k (1 + zlen buf))) with (S (Z.to_nat (Z.min (k - 1) (zlen buf)))) by lia. done.
Qed.

(** What [run] returns, by the units read. *)
Definition run_post (r : ResponseReader) (buf : bytes) (pos : nat) (x : res (ResponseReader * nat)) : Prop :=
  match consume (mkState (skip r) (status r)) (drop pos buf) with
  | Ok (s, rest) =>
      ∃ used, x = Ok (mkResponseReader (pending r) (to_skip s) (seen s), used) ∧
        (used ≤ length buf)%nat ∧ rest = drop used buf ∧ 0 ≤ to_skip s
  | Err e => x = Err e
  end.

(** A frame header found in the middle of a buffer. *)
Lemma frame_header_at buf pos :
  frame_header (drop pos buf) =
    '(kind, n1) ← get_varint (drop pos buf);
    '(len, n2) ← get_varint (drop (pos + n1) buf); Some (kind, len, (n1 + n2)%nat).
Proof. unfold frame_header. destruct (get_varint _) as [[k n1]|]; [|done]. cbn. by rewrite drop_drop. Qed.

Lemma get_range_at buf pos n len :
  0 ≤ len → (pos + n ≤ length buf)%nat →
  prefix_int.get_range (drop pos buf) n (Z.of_nat n + len) =
    if zlen buf <? Z.of_nat (pos + n) + len then None
    else Some (take (Z.to_nat len) (drop (pos + n) buf)).
Proof.
  intros Hl Hp. unfold prefix_int.get_range, zlen. rewrite length_drop.
  destruct (Z.ltb_spec (Z.of_nat (length buf)) (Z.of_nat (pos + n) + len)).
  - rewrite decide_False by lia. done.
  - rewrite decide_True by lia. rewrite drop_drop. do 2 f_equal. lia.
Qed.

(** Reading a frame in place is one step. *)
Lemma read_frame_step r buf pos :
  bytes_ok buf → skip r = 0 → (pos ≤ length buf)%nat →
  match step (mkState 0 (status r)) (drop pos buf) with
  | None => read_frame r buf pos = Ok None
  | Some (Err e) => read_frame r buf pos = Err e
  | Some (Ok (s, n)) =>
      read_frame r buf pos = Ok (Some (mkResponseReader (pending r) (to_skip s) (seen s), (pos + n)%nat)) ∧ 0 ≤ to_skip s
  end.
Proof.
  intros Hok Hz Hpos. unfold step, response_incremental, response_step, read_frame. cbn [to_skip seen Z.ltb Z.compare].
  assert (bytes_ok (drop pos buf)) as Hokp by by apply bytes_ok_drop.
  rewrite slice_from_le by done. cbn [mbind result_bind]. pose proof (frame_header_at buf pos) as Hfh.
  destruct (get_varint (drop pos buf)) as [[kd n1]|] eqn:E1; [|by rewrite Hfh].
  pose proof (get_varint_length _ _ _ Hokp E1) as Hn1. rewrite length_drop in Hn1. cbn in Hfh.
  rewrite slice_from_le by lia. cbn [mbind result_bind].
  destruct (get_varint (drop (pos + n1) buf)) as [[len n2]|] eqn:E2; [|by rewrite Hfh].
  cbn in Hfh. destruct (frame_header_length _ _ _ _ Hokp Hfh) as [Hn Hlen]. rewrite length_drop in Hn.
  rewrite Hfh. cbn [mbind option_bind]. rewrite get_range_at by lia.
  change (Z.shiftl 1 20) with (2 ^ 20). destruct (kd =? FRAME_HEADERS); [|destruct (_ && _); [done|]; split; [done|cbn; lia]].
  destruct (Z.ltb_spec (zlen buf) (Z.of_nat (pos + (n1 + n2)) + len)) as [Hshort|Hall]; [done|].
  cbn [mbind option_bind]. unfold zlen in Hall. rewrite slice_in_range by lia.
  replace (Z.to_nat (Z.of_nat (pos + (n1 + n2)) + len) - (pos + (n1 + n2)))%nat with (Z.to_nat len) by lia.
  cbn [mbind result_bind]. set (section := take _ _).
  assert (length section = Z.to_nat len) as Hsec by (subst section; rewrite length_take, length_drop; lia).
  destruct (qpack.find_status section) as [found|e]; cbn [mbind result_bind]; [|done]. rewrite Hz, Hsec. split; [|done].
  do 3 f_equal; [|lia]. f_equal. unfold seen_after. destruct found; [by destruct (status.is_informational _)|done].
Qed.

Lemma run_loop_post fuel : ∀ r buf pos,
  bytes_ok buf → 0 ≤ skip r → (pos ≤ length buf)%nat → (length buf - pos < fuel)%nat →
  run_post r buf pos (run_loop fuel r buf pos).
Proof.
  induction fuel as [|fuel IH]; intros r buf pos Hok Hskip Hpos Hf; [lia|]. cbn [run_loop].
  set (t := if 0 <? skip r then _ else 0).
  assert (t = Z.min (skip r) (Z.of_nat (length buf - pos))) as Ht by (subst t; destruct (Z.ltb_spec 0 (skip r)); lia).
  clearbody t. unfold run_post.
  rewrite (response_skip (status r) (skip r) (drop pos buf)) by (by apply bytes_ok_drop || lia).
  unfold zlen. rewrite length_drop, <- Ht, drop_drop. set (p := (pos + Z.to_nat t)%nat).
  assert (pos ≤ p ≤ length buf)%nat as Hp by lia. cbn [pending skip status].
  destruct (Z.ltb_spec 0 (skip r - t)) as [Hmore|Hdone].
  { rewrite drop_ge, incremental.consume_stop by (lia || (unfold step, response_incremental, response_step; cbn; by rewrite (proj2 (Z.ltb_lt 0 _)))).
    exists p. split_and!; [done|lia| |cbn; lia]. by rewrite drop_ge by lia. }
  replace (skip r - t) with 0 by lia. set (r0 := mkResponseReader (pending r) 0 (status r)).
  assert (bytes_ok (drop p buf)) as Hokp by by apply bytes_ok_drop.
  pose proof (read_frame_step r0 buf p Hok eq_refl ltac:(lia)) as Hrf. cbn [status r0] in Hrf.
  destruct (step (mkState 0 (status r)) (drop p buf)) as [[[s n]|e]|] eqn:Hs.
  - destruct Hrf as [-> Hsk]. cbn [mbind result_bind]. rewrite (incremental.consume_step _ _ _ _ Hokp Hs), drop_drop.
    destruct (step_progress _ _ _ _ Hokp Hs) as [Hn Hn0]. rewrite length_drop in Hn. cbn in Hn0.
    specialize (IH (mkResponseReader (pending r) (to_skip s) (seen s)) buf (p + n)%nat Hok Hsk ltac:(lia) ltac:(lia)).
    unfold run_post in IH. cbn [skip status pending] in IH. destruct s. exact IH.
  - rewrite Hrf, (incremental.consume_error _ _ _ Hs). done.
  - rewrite Hrf, (incremental.consume_stop _ _ Hs). exists p. by split_and!; [|lia| |].
Qed.

Lemma run_spec r buf : bytes_ok buf → 0 ≤ skip r → run_post r buf 0 (run r buf).
Proof. intros. apply run_loop_post; (done || lia). Qed.

(** What a reader holds between calls. *)
Definition reader_ok (r : ResponseReader) : Prop := bytes_ok (pending r) ∧ 0 ≤ skip r.
(** .. and what it leaves: an unfinished frame. *)
Definition reader_inv (r : ResponseReader) : Prop :=
  reader_ok r ∧ step (mkState (skip r) (status r)) (pending r) = None.

Definition of_state (x : response_state * bytes) : ResponseReader :=
  mkResponseReader (snd x) (to_skip (fst x)) (seen (fst x)).
Definition to_state (r : ResponseReader) : response_state * bytes := (mkState (skip r) (status r), pending r).

Lemma feed_units r data :
  reader_ok r → bytes_ok data → feed r data = of_state <$> incremental.feed (to_state r) data.
Proof.
  intros [Hp Hs] Hd. unfold feed, incremental.feed, to_state. cbn [fst snd]. case_bool_decide as Hpend.
  - pose proof (run_spec r data Hd Hs) as Hrun. unfold run_post in Hrun. rewrite drop_0 in Hrun. rewrite Hpend. cbn [app].
    destruct (consume _ data) as [[s rest]|e]; [|by rewrite Hrun].
    destruct Hrun as (used & -> & Hu & -> & _). cbn [mbind result_bind fmap result_fmap]. unfold of_state. cbn [fst snd].
    destruct (Nat.ltb_spec used (length data)).
    + rewrite slice_from_le by lia. cbn. by rewrite Hpend.
    + rewrite drop_ge by lia. by rewrite Hpend.
  - assert (bytes_ok (pending r ++ data)) as Hok by by apply bytes_ok_app.
    pose proof (run_spec (mkResponseReader [] (skip r) (status r)) (pending r ++ data) Hok Hs) as Hrun.
    unfold run_post in Hrun. rewrite drop_0 in Hrun. cbn [skip status pending] in Hrun.
    destruct (consume _ _) as [[s rest]|e]; [|by rewrite Hrun].
    destruct Hrun as (used & -> & Hu & -> & _). cbn [mbind result_bind fmap result_fmap]. by rewrite slice_from_le.
Qed.

Lemma response_step_inv s buf :
  0 ≤ to_skip s → bytes_ok buf → match step s buf with Some x => wp x (λ x, 0 ≤ to_skip x.1) | None => True end.
Proof.
  intros Hs Hok. unfold step, response_incremental, response_step. destruct (Z.ltb_spec 0 (to_skip s)).
  { destruct buf; [done|]. cbn. lia. }
  destruct (frame_header buf) as [[[k l] n]|] eqn:Hf; [|done]. apply frame_header_length in Hf as [Hn Hl]; [|done].
  cbn [mbind option_bind]. destruct (k =? FRAME_HEADERS).
  - destruct (prefix_int.get_range buf _ _) as [sec|] eqn:Hr; [|done]. cbn [mbind option_bind].
    apply get_range_length in Hr as (_ & _ & ->). set (sec' := take _ _).
    assert (bytes_ok sec') as Hsec by (subst sec'; by apply bytes_ok_take, bytes_ok_drop).
    wp_step. pose proof (qpack.wp_find_slow sec' Hsec) as Hw. rewrite <- (qpack.find_fast _ Hsec) in Hw.
    eapply wp_mono; [exact Hw|]. intros found _. done.
  - destruct (_ && _); [done|]. cbn. lia.
Qed.

Lemma feed_inv r data :
  reader_ok r → bytes_ok data → wp (feed r data) reader_inv.
Proof.
  intros Hr Hd. rewrite feed_units by done. destruct Hr as [Hp Hs].
  assert (bytes_ok (pending r ++ data)) as Hok by by apply bytes_ok_app. unfold incremental.feed, to_state. cbn [fst snd].
  pose proof (incremental.wp_consume (λ s, 0 ≤ to_skip s) (mkState (skip r) (status r)) (pending r ++ data)
    response_step_inv Hs Hok) as Hw.
  destruct (consume _ _) as [[s rest]|[]] eqn:E; [|done|done]. cbn in Hw. destruct Hw as [Hs' Hrest].
  split; [by split|]. cbn. destruct s. by apply incremental.consume_stuck in E as [? _].
Qed.

Fixpoint feeds (r : ResponseReader) (pieces : list bytes) : res ResponseReader :=
  match pieces with
  | [] => Ok r
  | d :: pieces' => r ← feed r d; feeds r pieces'
  end.

Lemma feeds_units r pieces :
  reader_inv r → bytes_ok (concat pieces) → feeds r pieces = of_state <$> incremental.feeds (to_state r) pieces.
Proof.
  revert r. induction pieces as [|d pieces IH]; intros r [Hr Hrest] Hok; cbn [feeds incremental.feeds concat] in *.
  { by destruct r. }
  apply bytes_ok_app in Hok as [Hd Hok]. pose proof (feed_inv r d Hr Hd) as Hw. rewrite feed_units in * by done.
  destruct (incremental.feed (to_state r) d) as [[s rest]|e]; [|done]. cbn [fmap result_fmap mbind result_bind] in *.
  rewrite IH by done. unfold to_state, of_state. cbn. by destruct s.
Qed.

Lemma feeds_one r pieces :
  reader_inv r → bytes_ok (concat pieces) → feeds r pieces = feed r (concat pieces).
Proof.
  intros Hr Hok. rewrite feeds_units by done. destruct Hr as [Hr Hrest]. rewrite feed_units by done.
  by rewrite incremental.feeds_concat by (done || apply Hr).
Qed.

(** ** Whole streams of frames *)

Record frame := mkFrame { f_kind : Z; f_payload : bytes }.
Definition render_frame (f : frame) : bytes :=
  put_varint (f_kind f) ++ put_varint (zlen (f_payload f)) ++ f_payload f.
Definition frame_ok (f : frame) : Prop :=
  0 ≤ f_kind f < 2 ^ 62 ∧ zlen (f_payload f) < 2 ^ 62 ∧ bytes_ok (f_payload f) ∧
  (f_kind f = FRAME_GOAWAY → zlen (f_payload f) ≤ 2 ^ 20).
#[global] Instance frame_ok_dec f : Decision (frame_ok f).
Proof. unfold frame_ok. apply _. Defined.

(** The status a response ends up with: of the field sections that carry one,
    the last that is not informational. *)
Fixpoint response_status (st : Z) (fs : list frame) : res Z :=
  match fs with
  | [] => Ok st
  | f :: fs =>
      if f_kind f =? FRAME_HEADERS
      then found ← qpack.find_status (f_payload f); response_status (seen_after st found) fs
      else response_status st fs
  end.

Lemma request_bytes_frames section body :
  request_bytes section body =
    concat (render_frame <$> mkFrame FRAME_HEADERS section ::
            if bool_decide (body = []) then [] else [mkFrame FRAME_DATA body]).
Proof.
  unfold request_bytes, render_frame. cbn [fmap list_fmap concat f_kind f_payload].
  case_bool_decide; cbn [fmap list_fmap concat f_kind f_payload]; rewrite ?app_nil_r, <- ?app_assoc; done.
Qed.

Lemma render_frame_ok f : frame_ok f → bytes_ok (render_frame f).
Proof.
  intros (Hk & Hl & Hp & _). unfold render_frame. rewrite !bytes_ok_app.
  split_and!; [apply put_varint_ok; lia|apply put_varint_ok, zlen_nonneg|done].
Qed.

Lemma frame_header_render f rest :
  frame_ok f → bytes_ok rest →
  ∃ n, frame_header (render_frame f ++ rest) = Some (f_kind f, zlen (f_payload f), n) ∧
    drop n (render_frame f ++ rest) = f_payload f ++ rest ∧ (n + length (f_payload f) = length (render_frame f))%nat.
Proof.
  intros (Hk & Hl & Hp & _) Hr. unfold frame_header, render_frame. pose proof (zlen_nonneg (f_payload f)).
  rewrite <- !app_assoc. rewrite get_put_varint; [|done|].
  2: { rewrite !bytes_ok_app. split_and!; [apply put_varint_ok; lia|done|done]. }
  cbn [mbind option_bind]. rewrite drop_app_length. rewrite get_put_varint by (lia || by apply bytes_ok_app).
  cbn [mbind option_bind]. eexists. split; [done|]. split; [|rewrite !length_app; lia].
  rewrite app_assoc. rewrite drop_app_length'; [done|]. by rewrite length_app.
Qed.

Lemma consume_frame st f rest :
  frame_ok f → bytes_ok rest →
  consume (mkState 0 st) (render_frame f ++ rest) =
    if f_kind f =? FRAME_HEADERS
    then found ← qpack.find_status (f_payload f); consume (mkState 0 (seen_after st found)) rest
    else consume (mkState 0 st) rest.
Proof.
  intros Hf Hrest. destruct (frame_header_render f rest Hf Hrest) as (n & Hh & Hd & Hn).
  assert (bytes_ok (render_frame f ++ rest)) as Hok by (apply bytes_ok_app; split; [by apply render_frame_ok|done]).
  set (buf := render_frame f ++ rest) in *. pose proof Hf as (_ & _ & Hp & Hgo). pose proof (zlen_nonneg (f_payload f)).
  assert (length buf = n + length (f_payload f) + length rest)%nat as Hlen by (subst buf; rewrite length_app; lia).
  assert (step (mkState 0 st) buf = response_step (mkState 0 st) buf) as Hs by done.
  unfold response_step in Hs. cbn [to_skip seen Z.ltb Z.compare] in Hs. rewrite Hh in Hs. cbn [mbind option_bind] in Hs.
  destruct (f_kind f =? FRAME_HEADERS).
  - unfold prefix_int.get_range in Hs. rewrite decide_True in Hs by (unfold zlen; lia).
    cbn [mbind option_bind] in Hs. rewrite Hd, take_app_length' in Hs by (unfold zlen; lia).
    destruct (qpack.find_status (f_payload f)) as [found|e]; cbn [mbind result_bind] in *.
    + rewrite (incremental.consume_step _ _ _ _ Hok Hs). f_equal.
      rewrite <- drop_drop, Hd. apply drop_app_length.
    + by apply incremental.consume_error.
  - assert ((f_kind f =? FRAME_GOAWAY) && (2 ^ 20 <? zlen (f_payload f)) = false) as Hg.
    { apply andb_false_iff. destruct (Z.eqb_spec (f_kind f) FRAME_GOAWAY) as [E|]; [right|by left].
      apply Z.ltb_ge. by apply Hgo. }
    rewrite Hg in Hs. rewrite (incremental.consume_step _ _ _ _ Hok Hs), Hd.
    rewrite response_skip by (done || by apply bytes_ok_app). rewrite zlen_app. pose proof (zlen_nonneg rest).
    replace (Z.min _ _) with (zlen (f_payload f)) by lia. rewrite Z.sub_diag. f_equal.
    apply drop_app_length'. unfold zlen. lia.
Qed.

(** A response stream is read frame by frame however it is cut up: the
    pieces of any sequence of frames leave a reader with nothing pending and
    nothing to skip, holding the last final (not informational) status its field
    sections carried; an undecodable section is the same error in every cut. *)
Theorem response_stream_status fs pieces :
  Forall frame_ok fs → concat pieces = concat (render_frame <$> fs) →
  feeds new_response pieces = (st ← response_status 0 fs; Ok (mkResponseReader [] 0 st)).
Proof.
  intros Hfs E. assert (bytes_ok (concat (render_frame <$> fs))) as Hok.
  { clear E. induction Hfs as [|f fs Hf Hfs IH]; [constructor|]. cbn. apply bytes_ok_app. by split; [apply render_frame_ok|]. }
  assert (reader_inv new_response) as Hnew by (split; [split; [constructor|cbn; lia]|done]).
  rewrite feeds_one, E; [|done|by rewrite E]. rewrite feed_units by (done || apply Hnew).
  unfold incremental.feed, to_state. cbn [fst snd new_response pending skip status app].
  clear E. generalize 0 at 2 4. revert Hok. induction Hfs as [|f fs Hf Hfs IH]; intros Hok st; [done|].
  cbn [fmap list_fmap concat response_status] in *. apply bytes_ok_app in Hok as [_ Hok].
  rewrite consume_frame by done. destruct (f_kind f =? FRAME_HEADERS); [|by apply IH].
  destruct (qpack.find_status (f_payload f)); [|done]. cbn [mbind result_bind]. by apply IH.
Qed.

(** ** [UniReader] *)

Lemma uni_drop k s g buf :
  k ≠ STREAM_CONTROL → bytes_ok buf → consume (mkUni (Some k) s g) buf = Ok (mkUni (Some k) s g, []).
Proof.
  intros Hk. induction buf as [|b buf IH]; intros Hok.
  { apply incremental.consume_stop. unfold step, uni_incremental, uni_step. cbn [type]. by rewrite (proj2 (Z.eqb_neq k _) Hk). }
  rewrite (incremental.consume_step _ _ (mkUni (Some k) s g) 1); [|done|].
  - apply bytes_ok_cons in Hok as [_ Hok]. by apply IH.
  - unfold step, uni_incremental, uni_step. cbn [type]. by rewrite (proj2 (Z.eqb_neq k _) Hk).
Qed.

Lemma uni_skip_all g : ∀ k buf,
  bytes_ok buf → 0 ≤ k →
  let t := Z.min k (zlen buf) in
  consume (mkUni (Some STREAM_CONTROL) k g) buf =
    consume (mkUni (Some STREAM_CONTROL) (k - t) g) (drop (Z.to_nat t) buf).
Proof.
  intros k buf. revert k. induction buf as [|b buf IH]; intros k Hok Hk; cbv zeta.
  { change (zlen []) with 0. replace (Z.min k 0) with 0 by lia. by rewrite Z.sub_0_r. }
  destruct (decide (k = 0)) as [->|Hne].
  { replace (Z.min 0 (zlen (b :: buf))) with 0 by (pose proof (zlen_nonneg (b :: buf)); lia). done. }
  rewrite (incremental.consume_step _ _ (mkUni (Some STREAM_CONTROL) (k - 1) g) 1); [|done|].
  2: { unfold step, uni_incremental, uni_step. cbn. by rewrite (proj2 (Z.ltb_lt 0 k)) by lia. }
  cbn [drop]. apply bytes_ok_cons in Hok as [_ Hok]. rewrite IH by (done || lia). rewrite zlen_cons.
  pose proof (zlen_nonneg buf). f_equal; [f_equal; lia|].
  replace (Z.to_nat (Z.min k (1 + zlen buf))) with (S (Z.to_nat (Z.min (k - 1) (zlen buf)))) by lia. done.
Qed.

Lemma read_uni_frame_step u pos :
  bytes_ok (u_pending u) → u_skip u = 0 → kind u = Some STREAM_CONTROL → (pos ≤ length (u_pending u))%nat →
  match step (mkUni (kind u) 0 (goaway u)) (drop pos (u_pending u)) with
  | None => read_uni_frame u pos = Ok None
  | Some (Err e) => read_uni_frame u pos = Err e
  | Some (Ok (s, n)) =>
      read_uni_frame u pos = Ok (Some (mkUniReader (type s) (u_pending u) (uni_skip s) (last_goaway s), (pos + n)%nat)) ∧
      0 ≤ uni_skip s ∧ type s = Some STREAM_CONTROL
  end.
Proof.
  intros Hok Hz Hk Hpos. unfold step, uni_incremental, uni_step, read_uni_frame. rewrite Hk, Hz. cbn [type uni_skip last_goaway].
  cbn [negb Z.eqb STREAM_CONTROL Z.ltb Z.compare]. set (buf := u_pending u) in *.
  assert (bytes_ok (drop pos buf)) as Hokp by by apply bytes_ok_drop.
  rewrite slice_from_le by done. cbn [mbind result_bind]. pose proof (frame_header_at buf pos) as Hfh.
  destruct (get_varint (drop pos buf)) as [[kd n1]|] eqn:E1; [|by rewrite Hfh].
  pose proof (get_varint_length _ _ _ Hokp E1) as Hn1. rewrite length_drop in Hn1. cbn in Hfh.
  rewrite slice_from_le by lia. cbn [mbind result_bind].
  destruct (get_varint (drop (pos + n1) buf)) as [[len n2]|] eqn:E2; [|by rewrite Hfh].
  cbn in Hfh. destruct (frame_header_length _ _ _ _ Hokp Hfh) as [Hn Hlen]. rewrite length_drop in Hn.
  rewrite Hfh. cbn [mbind option_bind]. rewrite get_range_at by lia. rewrite <- Nat.add_assoc.
  destruct (kd =? FRAME_GOAWAY); [|split; [done|cbn; lia || (split; [lia|done])]].
  destruct (8 <? len); [done|].
  pose proof (get_range_at buf 0 (pos + (n1 + n2)) len ltac:(lia) ltac:(cbn; lia)) as Hgr. rewrite drop_0 in Hgr. cbn [Nat.add] in Hgr.
  rewrite Hgr. destruct (Z.ltb_spec (zlen buf) (Z.of_nat (pos + (n1 + n2)) + len)) as [Hshort|Hall]; [done|].
  cbn [mbind option_bind]. destruct (read_goaway _ _); [|done]. cbn [mbind result_bind]. split; [|done].
  do 3 f_equal. lia.
Qed.

(** What the control stream's loop returns, by the units read. *)
Lemma uni_loop_post fuel : ∀ u pos,
  bytes_ok (u_pending u) → 0 ≤ u_skip u → kind u = Some STREAM_CONTROL → (pos ≤ length (u_pending u))%nat →
  (length (u_pending u) - pos < fuel)%nat →
  match consume (mkUni (kind u) (u_skip u) (goaway u)) (drop pos (u_pending u)) with
  | Ok (s, rest) =>
      ∃ used, uni_loop fuel u pos = Ok (mkUniReader (type s) (u_pending u) (uni_skip s) (last_goaway s), used) ∧
        (used ≤ length (u_pending u))%nat ∧ rest = drop used (u_pending u)
  | Err e => uni_loop fuel u pos = Err e
  end.
Proof.
  induction fuel as [|fuel IH]; intros u pos Hok Hskip Hk Hpos Hf; [lia|]. cbn [uni_loop]. set (buf := u_pending u) in *.
  set (t := if 0 <? u_skip u then _ else 0).
  assert (t = Z.min (u_skip u) (Z.of_nat (length buf - pos))) as Ht by (subst t; destruct (Z.ltb_spec 0 (u_skip u)); lia).
  clearbody t. rewrite Hk. rewrite (uni_skip_all (goaway u) (u_skip u) (drop pos buf)) by (by apply bytes_ok_drop || lia).
  unfold zlen. rewrite length_drop, <- Ht, drop_drop. set (p := (pos + Z.to_nat t)%nat).
  assert (pos ≤ p ≤ length buf)%nat as Hp by lia. cbn [u_skip].
  destruct (Z.ltb_spec 0 (u_skip u - t)) as [Hmore|Hdone].
  { rewrite drop_ge, incremental.consume_stop by (lia || (unfold step, uni_incremental, uni_step; cbn; by rewrite (proj2 (Z.ltb_lt 0 _)))).
    exists p. split_and!; [done|lia|]. by rewrite drop_ge by lia. }
  replace (u_skip u - t) with 0 by lia. set (u0 := mkUniReader (Some STREAM_CONTROL) buf 0 (goaway u)).
  assert (bytes_ok (drop p buf)) as Hokp by by apply bytes_ok_drop.
  pose proof (read_uni_frame_step u0 p Hok eq_refl eq_refl ltac:(cbn; lia)) as Hrf. cbn [kind goaway u_pending u0] in Hrf.
  destruct (step (mkUni (Some STREAM_CONTROL) 0 (goaway u)) (drop p buf)) as [[[s n]|e]|] eqn:Hs.
  - destruct Hrf as (-> & Hsk & Hty). cbn [mbind result_bind]. rewrite (incremental.consume_step _ _ _ _ Hokp Hs), drop_drop.
    destruct (step_progress _ _ _ _ Hokp Hs) as [Hn Hn0]. rewrite length_drop in Hn. cbn in Hn0.
    specialize (IH (mkUniReader (type s) buf (uni_skip s) (last_goaway s)) (p + n)%nat Hok Hsk Hty ltac:(cbn; lia) ltac:(cbn; lia)).
    cbn [kind u_skip goaway u_pending] in IH. destruct s. exact IH.
  - rewrite Hrf, (incremental.consume_error _ _ _ Hs). done.
  - rewrite Hrf, (incremental.consume_stop _ _ Hs). exists p. split_and!; [done|lia|done].
Qed.

Definition of_uni (x : uni_state * bytes) : UniReader :=
  mkUniReader (type (fst x)) (snd x) (uni_skip (fst x)) (last_goaway (fst x)).
Definition to_uni (u : UniReader) : uni_state * bytes := (mkUni (kind u) (u_skip u) (goaway u), u_pending u).
Definition uni_ok (u : UniReader) : Prop := bytes_ok (u_pending u) ∧ 0 ≤ u_skip u.
Definition uni_inv (u : UniReader) : Prop :=
  uni_ok u ∧ step (mkUni (kind u) (u_skip u) (goaway u)) (u_pending u) = None.

Lemma uni_feed_units u data :
  uni_ok u → bytes_ok data → uni_feed u data = of_uni <$> incremental.feed (to_uni u) data.
Proof.
  intros [Hp Hs] Hd. assert (bytes_ok (u_pending u ++ data)) as Hok by by apply bytes_ok_app.
  unfold uni_feed, incremental.feed, to_uni. cbn [fst snd kind u_skip goaway]. set (buf := u_pending u ++ data) in *.
  assert (∀ k pos, (pos ≤ length buf)%nat →
    (if negb (bool_decide (Some k = Some STREAM_CONTROL)) then Ok (mkUniReader (Some k) [] (u_skip u) (goaway u))
     else
       '(u, pos) ← uni_loop (S (length buf)) (mkUniReader (Some k) buf (u_skip u) (goaway u)) pos;
       rest ← slice_from (u_pending u) pos; Ok (mkUniReader (kind u) rest (u_skip u) (goaway u))) =
    of_uni <$> consume (mkUni (Some k) (u_skip u) (goaway u)) (drop pos buf)) as Hknown.
  { intros k pos Hpos. case_bool_decide as Hk; cbn [negb].
    - injection Hk as ->.
      pose proof (uni_loop_post (S (length buf)) (mkUniReader (Some STREAM_CONTROL) buf (u_skip u) (goaway u)) pos) as Hl.
      cbn [u_pending kind u_skip goaway] in Hl. specialize (Hl Hok Hs eq_refl Hpos ltac:(lia)).
      destruct (consume _ _) as [[s rest]|e]; [|by rewrite Hl].
      destruct Hl as (used & -> & Hu & ->). cbn [mbind result_bind u_pending]. rewrite slice_from_le by done. done.
    - rewrite uni_drop; [done|congruence|by apply bytes_ok_drop]. }
  destruct (kind u) as [k|].
  - apply (Hknown k 0%nat). lia.
  - destruct (get_varint buf) as [[k n]|] eqn:E.
    2: { rewrite incremental.consume_stop; [done|]. unfold step, uni_incremental, uni_step. cbn [type]. by rewrite E. }
    rewrite (incremental.consume_step _ _ (mkUni (Some k) (u_skip u) (goaway u)) n); [|done|].
    2: { unfold step, uni_incremental, uni_step. cbn [type]. by rewrite E. }
    apply get_varint_length in E; [|done].
    apply (Hknown k n). lia.
Qed.

(** The units keep the skip count nonnegative and the GOAWAY id from rising. *)
Definition not_raised (g g' : option Z) : Prop :=
  match g with Some p => ∃ p', g' = Some p' ∧ p' ≤ p | None => True end.
Lemma not_raised_refl g : not_raised g g.
Proof. destruct g; cbn; eauto with lia. Qed.
Lemma not_raised_trans a b c : not_raised a b → not_raised b c → not_raised a c.
Proof. destruct a; [|done]. intros (p & -> & Hp) (q & -> & Hq). cbn. eauto with lia. Qed.

Lemma wp_read_goaway g p : wp (read_goaway g p) (λ id, not_raised g (Some id)).
Proof.
  unfold read_goaway. destruct (get_varint p) as [[id n]|]; [|done]. wp_step; [done|].
  destruct g as [prev|]; cbn; [|done]. destruct (Z.ltb_spec prev id); [done|]. cbn. eauto.
Qed.

Lemma uni_step_inv g0 s buf :
  0 ≤ uni_skip s ∧ not_raised g0 (last_goaway s) → bytes_ok buf →
  match step s buf with Some x => wp x (λ x, 0 ≤ uni_skip x.1 ∧ not_raised g0 (last_goaway x.1)) | None => True end.
Proof.
  intros [Hs Hg] Hok. unfold step, uni_incremental, uni_step. destruct (type s) as [k|].
  2: { destruct (get_varint buf) as [[k n]|]; [|done]. done. }
  destruct (negb _); [by destruct buf|]. destruct (Z.ltb_spec 0 (uni_skip s)).
  { destruct buf; [done|]. cbn. split; [lia|done]. }
  destruct (frame_header buf) as [[[kd l] n]|] eqn:Hf; [|done]. apply frame_header_length in Hf as [Hn Hl]; [|done].
  cbn [mbind option_bind]. destruct (kd =? FRAME_GOAWAY); [|cbn; split; [lia|done]]. destruct (8 <? l); [done|].
  destruct (prefix_int.get_range buf _ _) as [p|]; [|done]. cbn [mbind option_bind]. wp_step.
  eapply wp_mono; [apply wp_read_goaway|]. intros id Hid. cbn. split; [done|]. by eapply not_raised_trans.
Qed.

Lemma uni_feed_inv u data :
  uni_ok u → bytes_ok data → wp (uni_feed u data) (λ u', uni_inv u' ∧ not_raised (goaway u) (goaway u')).
Proof.
  intros Hu Hd. rewrite uni_feed_units by done. destruct Hu as [Hp Hs].
  assert (bytes_ok (u_pending u ++ data)) as Hok by by apply bytes_ok_app. unfold incremental.feed, to_uni. cbn [fst snd].
  pose proof (incremental.wp_consume (λ s, 0 ≤ uni_skip s ∧ not_raised (goaway u) (last_goaway s))
    (mkUni (kind u) (u_skip u) (goaway u)) (u_pending u ++ data) (uni_step_inv _) (conj Hs (not_raised_refl _)) Hok) as Hw.
  destruct (consume _ _) as [[s rest]|[]] eqn:E; [|done|done]. cbn in Hw. destruct Hw as [[Hs' Hg] Hrest].
  split; [|done]. split; [by split|]. cbn. destruct s. by apply incremental.consume_stuck in E as [? _].
Qed.

Fixpoint uni_feeds (u : UniReader) (pieces : list bytes) : res UniReader :=
  match pieces with
  | [] => Ok u
  | d :: pieces' => u ← uni_feed u d; uni_feeds u pieces'
  end.

Lemma uni_feeds_units u pieces :
  uni_inv u → bytes_ok (concat pieces) → uni_feeds u pieces = of_uni <$> incremental.feeds (to_uni u) pieces.
Proof.
  revert u. induction pieces as [|d pieces IH]; intros u [Hu Hrest] Hok; cbn [uni_feeds incremental.feeds concat] in *.
  { by destruct u. }
  apply bytes_ok_app in Hok as [Hd Hok]. pose proof (uni_feed_inv u d Hu Hd) as Hw. rewrite uni_feed_units in * by done.
  destruct (incremental.feed (to_uni u) d) as [[s rest]|e]; [|done]. cbn [fmap result_fmap mbind result_bind] in *.
  destruct Hw as [Hw _]. rewrite IH by done. unfold to_uni, of_uni. cbn. by destruct s.
Qed.

(** A peer's unidirectional stream is read the same however it is cut up,
    and safely: its pieces give what the whole would in one call, no input
    panics or loops, and a GOAWAY once seen is only ever lowered. *)
Theorem uni_reader_stream u pieces :
  uni_inv u → bytes_ok (concat pieces) →
  uni_feeds u pieces = uni_feed u (concat pieces) ∧
  wp (uni_feed u (concat pieces)) (λ u', uni_inv u' ∧ not_raised (goaway u) (goaway u')).
Proof.
  intros Hu Hok. pose proof Hu as [Hu' Hrest]. split; [|by apply uni_feed_inv].
  rewrite uni_feeds_units, uni_feed_units by done. by rewrite incremental.feeds_concat by (done || apply Hu').
Qed.

(** ** Witnesses *)

Definition sample_frames : list frame :=
  [mkFrame FRAME_HEADERS [0; 0; 0xff; 0x00]; mkFrame FRAME_HEADERS [0; 0; 0xd9]; mkFrame FRAME_DATA (bstr "hello");
   mkFrame 0x21 []; mkFrame FRAME_HEADERS [0; 0]].
Lemma response_stream_status_witness :
  feeds new_response [take 3 (concat (render_frame <$> sample_frames)); drop 3 (concat (render_frame <$> sample_frames))] =
    Ok (mkResponseReader [] 0 200).
Proof.
  rewrite (response_stream_status sample_frames); [vm_compute; reflexivity|by_decide|vm_compute; reflexivity].
Defined.

Lemma uni_reader_stream_witness :
  uni_feeds new_uni [[0; 4]; [1; 9; 7; 1]; [8]; [7; 1; 4; 7]] = Ok (mkUniReader (Some 0) [7] 0 (Some 4)) ∧
  uni_feed new_uni [0; 4; 1; 9; 7; 1; 8; 7; 1; 4; 7] = Ok (mkUniReader (Some 0) [7] 0 (Some 4)).
Proof.
  destruct (uni_reader_stream new_uni [[0; 4]; [1; 9; 7; 1]; [8]; [7; 1; 4; 7]]) as [E _].
  - split; [|done]. split; [constructor|cbn; lia].
  - by_decide.
  - rewrite E. split; vm_compute; reflexivity.
Defined.
End h3_proto.
