(* ===== verification/Requests.v ===== *)
(** * One request, three encodings — [src/http2.rs], [src/http3.rs]

    The field blocks the HTTP/2 and HTTP/3 workers build once from the parsed
    target: [build_header_block] and [build_field_section].  Together with the
    HTTP/1.1 request of [src/target.rs] they are the only requests a run ever
    sends; the theorem says the three carry the same request. *)

From S2P Require Import Prelude PrefixInt Target Hpack Qpack H3Proto.

Module requests.
Import prefix_int target.

(** [build_header_block] of the HTTP/2 worker *)
Definition build_header_block {A} (t : Target A) : bytes :=
  let headers := multiplexed_headers (headers t) in
  hpack.encode_request (method t) (if tls t then bstr "https" else bstr "http") (authority t) (path t) headers
    (zlen (body t)).

(** [build_field_section] of the HTTP/3 worker, and the bytes of the request
    stream made of it *)
Definition build_field_section {A} (t : Target A) : bytes :=
  let headers := multiplexed_headers (headers t) in
  qpack.encode_request (method t) (bstr "https") (authority t) (path t) headers (zlen (body t)).
Definition h3_request {A} (t : Target A) : bytes := h3_proto.request_bytes (build_field_section t) (body t).

(** ** The specification *)

(** The request as a list of fields, pseudo-header fields first. *)
Definition fields {A} (scheme : bytes) (t : Target A) : list header :=
  [(bstr ":method", method t); (bstr ":scheme", scheme); (bstr ":authority", authority t); (bstr ":path", path t)] ++
  multiplexed_headers (headers t) ++
  (if 0 <? zlen (body t) then [(bstr "content-length", to_string (zlen (body t)))] else []).

(** Sizes the string literals of HPACK and QPACK can announce, and of a block
    that fits memory. *)
Definition sizes_ok {A} (t : Target A) : Prop :=
  Forall (λ s, zlen s < 2 ^ 28)
    ([method t; authority t; path t] ++ (fst <$> multiplexed_headers (headers t)) ++ (snd <$> multiplexed_headers (headers t))) ∧
  zlen (body t) < 2 ^ 64 ∧ zlen (build_header_block t) < 2 ^ 62 ∧ zlen (build_field_section t) < 2 ^ 62.

Lemma sizes_headers (hs : list header) :
  Forall (λ s, zlen s < 2 ^ 28) ((fst <$> hs) ++ (snd <$> hs)) → Forall (λ h, zlen (fst h) < 2 ^ 28 ∧ zlen (snd h) < 2 ^ 28) hs.
Proof.
  rewrite Forall_app, !Forall_fmap. intros [H1 H2]. apply Forall_forall. intros h Hh.
  rewrite Forall_forall in H1, H2. split; [by apply H1|by apply H2].
Qed.

Section encodings.
Context {A : Type} `{Resolver A}.

(** C33: HTTP/2 and HTTP/3 ask for what HTTP/1.1 asks for.  For every accepted
    command line, decoding the HTTP/2 header block as RFC 7541 does and the
    HTTP/3 request stream as RFC 9114 and RFC 9204 do gives the same field list:
    the four pseudo-header fields, the target's end-to-end headers and the
    length of the body.  Every such header is a lower-case token with a clean
    value, none is connection-specific or a [host], a [te] says [trailers]; and
    the length the list announces is exactly the body's. *)
Theorem encodings_agree url m args b ka (t : Target A) :
  parse_target url m args b ka = Ok t → sizes_ok t →
  (∃ fs, hpack.decode_block (build_header_block t) = Ok fs ∧
     hpack.header_of <$> fs = Some <$> fields (if tls t then bstr "https" else bstr "http") t ∧
     forallb hpack.table_free fs = true) ∧
  (∃ section ls,
     h3_request t = concat (h3_proto.render_frame <$> h3_proto.mkFrame h3_proto.FRAME_HEADERS section ::
       if bool_decide (body t = []) then [] else [h3_proto.mkFrame h3_proto.FRAME_DATA (body t)]) ∧
     qpack.decode_section section = Ok ls ∧ qpack.header_of <$> ls = Some <$> fields (bstr "https") t) ∧
  Forall sendable (multiplexed_headers (headers t)) ∧
  ∀ scheme, announced (fields scheme t) = Some (zlen (body t)).
Proof.
  intros (Hwf & _ & _)%parse_target_well_formed (Hs & Hb & Hl2 & Hl3).
  apply Forall_app in Hs as [Hs Hhs%sizes_headers].
  apply Forall_cons in Hs as [Hm [Ha [Hp _]%Forall_cons]%Forall_cons].
  pose proof (zlen_nonneg (body t)).
  pose proof (multiplexed_sendable _ (wf_headers t Hwf) (wf_no_host t Hwf)) as Hsend. split_and!; [| |done|].
  - apply hpack.hpack_encode_request; [done|by destruct (tls t)|done|done|done|lia|done].
  - assert (∀ s, zlen s < 2 ^ 28 → qpack.str_ok s) as Hq by (unfold qpack.str_ok; lia).
    edestruct (qpack.qpack_encode_request (method t) (bstr "https") (authority t) (path t)
      (multiplexed_headers (headers t)) (zlen (body t))) as (ls & Hd & Hh); [by apply Hq|done|by apply Hq|by apply Hq| |lia|done|].
    { eapply Forall_impl; [exact Hhs|]. intros h [? ?]. split; by apply Hq. }
    exists (build_field_section t), ls. split_and!; [apply h3_proto.request_bytes_frames|exact Hd|exact Hh].
  - intros scheme. apply announced_multiplexed; [apply (wf_framed t Hwf)|done| |done]. repeat constructor.
Qed.
End encodings.

#[local] Existing Instance port_resolver.

Lemma encodings_agree_witness :
  fields (bstr "https") sample_target =
    [(bstr ":method", bstr "POST"); (bstr ":scheme", bstr "https"); (bstr ":authority", bstr "example.com");
     (bstr ":path", bstr "/?q=/a"); (bstr "x-a", bstr "a b"); (bstr "te", bstr "trailers");
     (bstr "content-type", bstr "application/x-www-form-urlencoded"); (bstr "content-length", bstr "2")] ∧
  announced (fields (bstr "https") sample_target) = Some 2.
Proof.
  split; [vm_compute; reflexivity|].
  refine (proj2 (proj2 (proj2 (encodings_agree sample_url (bstr "POST") sample_args (Some (bstr "hi")) false sample_target
    sample_parses _))) (bstr "https")).
  split_and!; [by_decide|reflexivity|reflexivity|reflexivity].
Defined.
End requests.
