(* ===== verification/Http2Conn.v ===== *)
(** * HTTP/2 client connection — [src/http2/conn.rs]

    [Connection] with every operation the worker calls: opening streams
    ([start_stream]), sending request bodies under both flow-control windows
    ([write_body], [pump_bodies]), the queued output, and reading frames
    ([feed], [run] and one definition per frame type).  The ring of open streams
    is the one of [Inflight.v].  [spare] is not modelled: it only keeps the
    capacity of a cleared buffer, so what becomes [out] after a flush is empty. *)

From S2P Require Import Prelude Status Inflight PrefixInt Hpack Incremental.
#[local] Open Scope Z_scope.

Module http2_conn.

Definition PREFACE : bytes :=
  bstr "PRI * HTTP/2.0" ++ [13; 10; 13; 10] ++ bstr "SM" ++ [13; 10; 13; 10].
Definition MAX_STREAM_ID : Z := 0x7fffffff.
Definition FRAME_HEADER_LEN : nat := 9.

Definition DATA : Z := 0x0.
Definition HEADERS : Z := 0x1.
Definition RST_STREAM : Z := 0x3.
Definition SETTINGS : Z := 0x4.
Definition PING : Z := 0x6.
Definition GOAWAY : Z := 0x7.
Definition WINDOW_UPDATE : Z := 0x8.
Definition CONTINUATION : Z := 0x9.

Definition FLAG_ACK : Z := 0x1.
Definition FLAG_END_STREAM : Z := 0x1.
Definition FLAG_END_HEADERS : Z := 0x4.
Definition FLAG_PADDED : Z := 0x8.
Definition FLAG_PRIORITY : Z := 0x20.
Definition REFUSED_STREAM : Z := 0x7.

Definition SETTINGS_HEADER_TABLE_SIZE : Z := 0x1.
Definition SETTINGS_ENABLE_PUSH : Z := 0x2.
Definition SETTINGS_MAX_CONCURRENT_STREAMS : Z := 0x3.
Definition SETTINGS_INITIAL_WINDOW_SIZE : Z := 0x4.
Definition SETTINGS_MAX_FRAME_SIZE : Z := 0x5.
Definition DEFAULT_MAX_FRAME : Z := 16384.
Definition MAX_FRAME_CEILING : Z := 2 ^ 24 - 1.
Definition MAX_WINDOW : Z := 2 ^ 31 - 1.
Definition DEFAULT_HEADER_TABLE_SIZE : Z := 4096.
Definition ASSUMED_MAX_CONCURRENT : Z := 100.
Definition WINDOW_REFRESH : Z := 2 ^ 30.

Inductive Event : Type :=
| Status (stream_id status : Z)
| End (stream_id : Z)
| Reset (stream_id : Z)
| Unprocessed (stream_id : Z)
| Goaway.
#[global] Instance Event_eq_dec : EqDecision Event.
Proof. solve_decision. Defined.

Record OpenStream := mkOpenStream { id : Z; sent : nat; window : Z }.
#[global] Instance OpenStream_eq_dec : EqDecision OpenStream.
Proof. solve_decision. Defined.

Record Connection := mkConnection {
  out : bytes;
  pending : bytes;
  header_block : bytes;
  header_stream : Z;
  header_end_stream : bool;
  next_id : Z;
  open : inflight.Ring OpenStream;
  max_concurrent : Z;
  max_concurrent_assumed : bool;
  send_window : Z;
  peer_initial_window : Z;
  peer_max_frame : Z;
  recv_consumed : Z;
  table_size : Z;
  table_size_update : option Z;
  goaway : bool;
  peer_preface_seen : bool;
}.

(** Field assignments. *)
Definition set_out (x : bytes) (c : Connection) : Connection :=
  mkConnection x (pending c) (header_block c) (header_stream c) (header_end_stream c) (next_id c) (open c) (max_concurrent c) (max_concurrent_assumed c) (send_window c) (peer_initial_window c) (peer_max_frame c) (recv_consumed c) (table_size c) (table_size_update c) (goaway c) (peer_preface_seen c).
Definition set_pending (x : bytes) (c : Connection) : Connection :=
  mkConnection (out c) x (header_block c) (header_stream c) (header_end_stream c) (next_id c) (open c) (max_concurrent c) (max_concurrent_assumed c) (send_window c) (peer_initial_window c) (peer_max_frame c) (recv_consumed c) (table_size c) (table_size_update c) (goaway c) (peer_preface_seen c).
Definition set_header_block (x : bytes) (c : Connection) : Connection :=
  mkConnection (out c) (pending c) x (header_stream c) (header_end_stream c) (next_id c) (open c) (max_concurrent c) (max_concurrent_assumed c) (send_window c) (peer_initial_window c) (peer_max_frame c) (recv_consumed c) (table_size c) (table_size_update c) (goaway c) (peer_preface_seen c).
Definition set_header_stream (x : Z) (c : Connection) : Connection :=
  mkConnection (out c) (pending c) (header_block c) x (header_end_stream c) (next_id c) (open c) (max_concurrent c) (max_concurrent_assumed c) (send_window c) (peer_initial_window c) (peer_max_frame c) (recv_consumed c) (table_size c) (table_size_update c) (goaway c) (peer_preface_seen c).
Definition set_header_end_stream (x : bool) (c : Connection) : Connection :=
  mkConnection (out c) (pending c) (header_block c) (header_stream c) x (next_id c) (open c) (max_concurrent c) (max_concurrent_assumed c) (send_window c) (peer_initial_window c) (peer_max_frame c) (recv_consumed c) (table_size c) (table_size_update c) (goaway c) (peer_preface_seen c).
Definition set_next_id (x : Z) (c : Connection) : Connection :=
  mkConnection (out c) (pending c) (header_block c) (header_stream c) (header_end_stream c) x (open c) (max_concurrent c) (max_concurrent_assumed c) (send_window c) (peer_initial_window c) (peer_max_frame c) (recv_consumed c) (table_size c) (table_size_update c) (goaway c) (peer_preface_seen c).
Definition set_open (x : inflight.Ring OpenStream) (c : Connection) : Connection :=
  mkConnection (out c) (pending c) (header_block c) (header_stream c) (header_end_stream c) (next_id c) x (max_concurrent c) (max_concurrent_assumed c) (send_window c) (peer_initial_window c) (peer_max_frame c) (recv_consumed c) (table_size c) (table_size_update c) (goaway c) (peer_preface_seen c).
Definition set_max_concurrent (x : Z) (c : Connection) : Connection :=
  mkConnection (out c) (pending c) (header_block c) (header_stream c) (header_end_stream c) (next_id c) (open c) x (max_concurrent_assumed c) (send_window c) (peer_initial_window c) (peer_max_frame c) (recv_consumed c) (table_size c) (table_size_update c) (goaway c) (peer_preface_seen c).
Definition set_max_concurrent_assumed (x : bool) (c : Connection) : Connection :=
  mkConnection (out c) (pending c) (header_block c) (header_stream c) (header_end_stream c) (next_id c) (open c) (max_concurrent c) x (send_window c) (peer_initial_window c) (peer_max_frame c) (recv_consumed c) (table_size c) (table_size_update c) (goaway c) (peer_preface_seen c).
Definition set_send_window (x : Z) (c : Connection) : Connection :=
  mkConnection (out c) (pending c) (header_block c) (header_stream c) (header_end_stream c) (next_id c) (open c) (max_concurrent c) (max_concurrent_assumed c) x (peer_initial_window c) (peer_max_frame c) (recv_consumed c) (table_size c) (table_size_update c) (goaway c) (peer_preface_seen c).
Definition set_peer_initial_window (x : Z) (c : Connection) : Connection :=
  mkConnection (out c) (pending c) (header_block c) (header_stream c) (header_end_stream c) (next_id c) (open c) (max_concurrent c) (max_concurrent_assumed c) (send_window c) x (peer_max_frame c) (recv_consumed c) (table_size c) (table_size_update c) (goaway c) (peer_preface_seen c).
Definition set_peer_max_frame (x : Z) (c : Connection) : Connection :=
  mkConnection (out c) (pending c) (header_block c) (header_stream c) (header_end_stream c) (next_id c) (open c) (max_concurrent c) (max_concurrent_assumed c) (send_window c) (peer_initial_window c) x (recv_consumed c) (table_size c) (table_size_update c) (goaway c) (peer_preface_seen c).
Definition set_recv_consumed (x : Z) (c : Connection) : Connection :=
  mkConnection (out c) (pending c) (header_block c) (header_stream c) (header_end_stream c) (next_id c) (open c) (max_concurrent c) (max_concurrent_assumed c) (send_window c) (peer_initial_window c) (peer_max_frame c) x (table_size c) (table_size_update c) (goaway c) (peer_preface_seen c).
Definition set_table_size (x : Z) (c : Connection) : Connection :=
  mkConnection (out c) (pending c) (header_block c) (header_stream c) (header_end_stream c) (next_id c) (open c) (max_concurrent c) (max_concurrent_assumed c) (send_window c) (peer_initial_window c) (peer_max_frame c) (recv_consumed c) x (table_size_update c) (goaway c) (peer_preface_seen c).
Definition set_table_size_update (x : option Z) (c : Connection) : Connection :=
  mkConnection (out c) (pending c) (header_block c) (header_stream c) (header_end_stream c) (next_id c) (open c) (max_concurrent c) (max_concurrent_assumed c) (send_window c) (peer_initial_window c) (peer_max_frame c) (recv_consumed c) (table_size c) x (goaway c) (peer_preface_seen c).
Definition set_goaway (x : bool) (c : Connection) : Connection :=
  mkConnection (out c) (pending c) (header_block c) (header_stream c) (header_end_stream c) (next_id c) (open c) (max_concurrent c) (max_concurrent_assumed c) (send_window c) (peer_initial_window c) (peer_max_frame c) (recv_consumed c) (table_size c) (table_size_update c) x (peer_preface_seen c).
Definition set_peer_preface_seen (x : bool) (c : Connection) : Connection :=
  mkConnection (out c) (pending c) (header_block c) (header_stream c) (header_end_stream c) (next_id c) (open c) (max_concurrent c) (max_concurrent_assumed c) (send_window c) (peer_initial_window c) (peer_max_frame c) (recv_consumed c) (table_size c) (table_size_update c) (goaway c) x.

(** ** The ring, at HTTP/2's spacing *)

Abbreviation SH := inflight.H2_SHIFT.
Abbreviation OFF := inflight.H2_OFFSET.
Definition ring_push : inflight.Ring OpenStream → Z → OpenStream → inflight.Ring OpenStream := inflight.push SH.
Definition ring_take : inflight.Ring OpenStream → Z → option OpenStream * inflight.Ring OpenStream := inflight.take SH OFF.
Definition ring_modify : inflight.Ring OpenStream → Z → (OpenStream → OpenStream) → inflight.Ring OpenStream :=
  inflight.modify SH OFF.

Definition new : Connection :=
  mkConnection [] [] [] 0 false 1 inflight.new ASSUMED_MAX_CONCURRENT true 65535 65535 DEFAULT_MAX_FRAME 0
    DEFAULT_HEADER_TABLE_SIZE None false false.

(** [self.out.extend_from_slice(..)] *)
Definition emit (b : bytes) (c : Connection) : Connection := set_out (out c ++ b) c.

(** [frame_header] and [window_update]: what they append. *)
Definition frame_header (len : nat) (kind flags stream : Z) : bytes :=
  drop 1 (be_bytes 4 (u32 (Z.of_nat len))) ++ [kind; flags] ++ be_bytes 4 stream.
Definition window_update (stream increment : Z) : bytes :=
  frame_header 4 WINDOW_UPDATE 0 stream ++ be_bytes 4 increment.

Definition initiate (c : Connection) : Connection :=
  let settings := [(SETTINGS_HEADER_TABLE_SIZE, 0); (SETTINGS_ENABLE_PUSH, 0);
                   (SETTINGS_INITIAL_WINDOW_SIZE, MAX_WINDOW)] in
  set_out (PREFACE ++ frame_header (6 * length settings) SETTINGS 0 0 ++
           concat ((λ '(i, v), be_bytes 2 i ++ be_bytes 4 v) <$> settings) ++
           window_update 0 (MAX_WINDOW - 65535) ++ out c) c.

Definition stream_ids_exhausted (c : Connection) : bool := MAX_STREAM_ID <? next_id c.
Definition can_open (c : Connection) : bool :=
  negb (goaway c) && negb (stream_ids_exhausted c) &&
  (u32 (Z.of_nat (inflight.len (open c))) <? max_concurrent c).

(** ** Sending *)

(** Writing to the slot at [pos] through [slot_mut]. *)
Definition update_slot (r : inflight.Ring OpenStream) (pos : nat) (s : OpenStream) : inflight.Ring OpenStream :=
  inflight.mkRing (<[(inflight.head r + pos)%nat := Some s]> (inflight.slots r)) (inflight.head r) (inflight.base r)
    (inflight.open r) (inflight.compact_at r).

(** [write_body]; every turn but the last sends at least a byte. *)
Fixpoint write_body_loop (fuel : nat) (c : Connection) (pos : nat) (body : bytes) : res Connection :=
  match fuel with
  | O => panic "out of fuel"
  | S fuel' =>
      match inflight.slot (open c) pos with
      | None => Ok c
      | Some s =>
          if (length body <=? sent s)%nat then Ok c
          else
            let allowed := Z.max (Z.min (send_window c) (window s)) 0 in
            let n := Z.to_nat (Z.min (Z.min (Z.of_nat (length body - sent s)) (peer_max_frame c)) allowed) in
            if (n =? 0)%nat then Ok c
            else
              let flags := if (sent s + n =? length body)%nat then FLAG_END_STREAM else 0 in
              chunk ← slice body (sent s) (sent s + n);
              let c := emit (frame_header n DATA flags (id s) ++ chunk) c in
              let s := mkOpenStream (id s) (sent s + n) (window s - Z.of_nat n) in
              let c := set_open (update_slot (open c) pos s) c in
              write_body_loop fuel' (set_send_window (send_window c - Z.of_nat n) c) pos body
      end
  end.
Definition write_body (c : Connection) (pos : nat) (body : bytes) : res Connection :=
  write_body_loop (S (length body)) c pos body.

(** The [for] of [pump_bodies]. *)
Fixpoint pump_slots (c : Connection) (positions : list nat) (body : bytes) : res Connection :=
  match positions with
  | [] => Ok c
  | pos :: rest => c ← write_body c pos body; pump_slots c rest body
  end.
Definition pump_bodies (c : Connection) (body : bytes) : res Connection :=
  if bool_decide (body = []) then Ok c
  else pump_slots c (seq 0 (inflight.live (open c))) body.

(** [block.chunks(max)], for a nonzero [max]. *)
Fixpoint chunks (fuel : nat) (max : nat) (l : bytes) : list bytes :=
  match fuel, l with
  | S fuel', _ :: _ => take max l :: chunks fuel' max (drop max l)
  | _, _ => []
  end.

(** The [while let] over the chunks of a long header block. *)
Fixpoint header_frames (end_stream stream : Z) (first : bool) (cs : list bytes) : bytes :=
  match cs with
  | [] => []
  | chunk :: rest =>
      let last := bool_decide (rest = []) in
      let kind := if first then HEADERS else CONTINUATION in
      let flags := Z.lor (if last then FLAG_END_HEADERS else 0) (if first then end_stream else 0) in
      frame_header (length chunk) kind flags stream ++ chunk ++ header_frames end_stream stream false rest
  end.

Definition start_stream (c : Connection) (block body : bytes) : res (option Z * Connection) :=
  if negb (can_open c) then Ok (None, c)
  else
    let stream := next_id c in
    let c := set_next_id (Z.min (next_id c + 2) U32_MAX) c in
    let end_stream := if bool_decide (body = []) then FLAG_END_STREAM else 0 in
    let max := peer_max_frame c in
    let block := match table_size_update c with Some size => hpack.size_update size ++ block | None => block end in
    let c := set_table_size_update None c in
    c ← (if zlen block <=? max then
           Ok (emit (frame_header (length block) HEADERS (Z.lor FLAG_END_HEADERS end_stream) stream ++ block) c)
         else if max =? 0 then panic "chunk size must be non-zero"
         else Ok (emit (header_frames end_stream stream true (chunks (length block) (Z.to_nat max) block)) c));
    let c := set_open (ring_push (open c) stream (mkOpenStream stream 0 (peer_initial_window c))) c in
    c ← (if bool_decide (body = []) then Ok c else write_body c (inflight.live (open c) - 1) body);
    Ok (Some stream, c).

(** [take_output]: the queue, emptied. *)
Definition take_output (c : Connection) : option bytes * Connection :=
  if bool_decide (out c = []) then (None, c) else (Some (out c), set_out [] c).

Definition send_goaway (c : Connection) : Connection :=
  emit (frame_header 8 GOAWAY 0 0 ++ be_bytes 4 0 ++ be_bytes 4 0) c.

(** ** Receiving: one definition per frame type, events in order *)

Definition has (flags flag : Z) : bool := negb (Z.land flags flag =? 0).

Definition finish_stream (c : Connection) (stream : Z) : bool * Connection :=
  let '(taken, r) := ring_take (open c) stream in
  (match taken with Some _ => true | None => false end, set_open r c).

(** [if .. && self.finish_stream(stream) { events.push(End) }] *)
Definition end_if (b : bool) (c : Connection) (stream : Z) (event : Event) : Connection * list Event :=
  if b then let '(ended, c) := finish_stream c stream in (c, if ended then [event] else []) else (c, []).

(** Half the receive window used: give it all back. *)
Definition refresh_window (c : Connection) : Connection :=
  if WINDOW_REFRESH <=? recv_consumed c
  then emit (window_update 0 (recv_consumed c)) (set_recv_consumed 0 c) else c.
Definition on_data (c : Connection) (stream flags : Z) (payload : bytes) : Connection * list Event :=
  let c := set_recv_consumed (u32 (recv_consumed c + zlen payload)) c in
  let c := refresh_window c in
  end_if (has flags FLAG_END_STREAM) c stream (End stream).

Definition complete_headers (c : Connection) (stream : Z) (end_stream : bool) (block : bytes)
  : res (Connection * list Event) :=
  found ← hpack.find_status block;
  let ev := match found with
            | Some st => if negb (status.is_informational st) then [Status stream st] else []
            | None => []
            end in
  let '(c, ev') := end_if end_stream c stream (End stream) in
  Ok (c, ev ++ ev').

Definition bad (what : string) : string := "malformed frame: " +:+ what.

(** The header block of a HEADERS frame, without padding and priority. *)
Definition headers_block (flags : Z) (payload : bytes) : res bytes :=
  block ← (if has flags FLAG_PADDED then
             pad ← ok_or (bad "padded HEADERS") (payload !! 0%nat);
             let block := drop 1 payload in
             if zlen block <? pad then bail (bad "padding")
             else Ok (take (length block - Z.to_nat pad) block)
           else Ok payload);
  if has flags FLAG_PRIORITY then
    if (length block <? 5)%nat then bail (bad "priority in HEADERS") else Ok (drop 5 block)
  else Ok block.

Definition on_headers (c : Connection) (stream flags : Z) (payload : bytes) : res (Connection * list Event) :=
  if stream =? 0 then bail "HEADERS on stream zero"
  else
    block ← headers_block flags payload;
    if has flags FLAG_END_HEADERS then complete_headers c stream (has flags FLAG_END_STREAM) block
    else
      let c := set_header_block (header_block c ++ block) c in
      let c := set_header_stream stream c in
      Ok (set_header_end_stream (has flags FLAG_END_STREAM) c, []).

Definition on_continuation (c : Connection) (stream flags : Z) (payload : bytes) : res (Connection * list Event) :=
  if (header_stream c =? 0) || negb (stream =? header_stream c) then bail "unexpected CONTINUATION"
  else
    let c := set_header_block (header_block c ++ payload) c in
    if negb (has flags FLAG_END_HEADERS) then Ok (c, [])
    else
      let block := header_block c in
      let c := set_header_block [] c in
      let c := set_header_stream 0 c in
      let end_stream := header_end_stream c in
      let c := set_header_end_stream false c in
      complete_headers c stream end_stream block.

(** [for s in self.open.iter_mut() { s.window += delta }] *)
Definition shift_windows (delta : Z) (r : inflight.Ring OpenStream) : inflight.Ring OpenStream :=
  let h := inflight.head r in
  inflight.mkRing (take h (inflight.slots r) ++
      (fmap (M := option) (λ s, mkOpenStream (id s) (sent s) (window s + delta)) <$> drop h (inflight.slots r)))
    h (inflight.base r) (inflight.open r) (inflight.compact_at r).

(** One entry of a SETTINGS frame. *)
Definition on_setting (c : Connection) (i value : Z) : res Connection :=
  if (i =? SETTINGS_HEADER_TABLE_SIZE) && (value <? table_size c) then
    Ok (set_table_size_update (Some value) (set_table_size value c))
  else if i =? SETTINGS_MAX_CONCURRENT_STREAMS then
    Ok (set_max_concurrent_assumed false (set_max_concurrent value c))
  else if i =? SETTINGS_INITIAL_WINDOW_SIZE then
    if value <=? MAX_WINDOW then
      let delta := value - peer_initial_window c in
      let c := set_peer_initial_window value c in
      Ok (set_open (shift_windows delta (open c)) c)
    else bail "SETTINGS_INITIAL_WINDOW_SIZE out of range"
  else if i =? SETTINGS_MAX_FRAME_SIZE then
    if (DEFAULT_MAX_FRAME <=? value) && (value <=? MAX_FRAME_CEILING) then Ok (set_peer_max_frame value c)
    else bail "SETTINGS_MAX_FRAME_SIZE out of range"
  else Ok c.

(** [payload.as_chunks::<6>()] and the loop over its entries. *)
Fixpoint on_settings_loop (c : Connection) (l : bytes) : res Connection :=
  match l with
  | a :: b :: v0 :: v1 :: v2 :: v3 :: rest =>
      c ← on_setting c (be_value [a; b]) (be_value [v0; v1; v2; v3]); on_settings_loop c rest
  | _ => Ok c
  end.

Definition on_settings (c : Connection) (flags : Z) (payload : bytes) : res Connection :=
  if has flags FLAG_ACK then Ok c
  else if negb (length payload mod 6 =? 0)%nat then bail "malformed SETTINGS"
  else
    c ← on_settings_loop c payload;
    let c := if max_concurrent_assumed c
             then set_max_concurrent_assumed false (set_max_concurrent U32_MAX c) else c in
    Ok (emit (frame_header 0 SETTINGS FLAG_ACK 0) c).

Definition on_rst_stream (c : Connection) (stream : Z) (payload : bytes) : res (Connection * list Event) :=
  if negb (length payload =? 4)%nat then bail "malformed RST_STREAM"
  else
    let code := be_value payload in
    Ok (end_if true c stream (if code =? REFUSED_STREAM then Unprocessed stream else Reset stream)).

Definition on_goaway (c : Connection) (payload : bytes) : res (Connection * list Event) :=
  match payload with
  | a :: b :: d :: e :: _ :: _ :: _ :: _ :: _ =>
      let last := be_value [Z.land a 0x7f; b; d; e] in
      let c := set_goaway true c in
      let '(retired, r) := inflight.retire_after (open c) last in
      Ok (set_open r c, ((λ s, Unprocessed (id s)) <$> retired) ++ [Goaway])
  | _ => bail "malformed GOAWAY"
  end.

Definition on_window_update (c : Connection) (stream : Z) (payload : bytes) : res Connection :=
  if negb (length payload =? 4)%nat then bail "malformed WINDOW_UPDATE"
  else
    let increment := Z.land (be_value payload) 0x7fffffff in
    if stream =? 0 then Ok (set_send_window (send_window c + increment) c)
    else Ok (set_open (ring_modify (open c) stream
                         (λ s, mkOpenStream (id s) (sent s) (window s + increment))) c).

Definition on_ping (c : Connection) (stream flags : Z) (payload : bytes) : res Connection :=
  if negb (stream =? 0) then bail "PING on stream"
  else if negb (length payload =? 8)%nat then bail "malformed PING"
  else if negb (has flags FLAG_ACK) then Ok (emit (frame_header 8 PING FLAG_ACK 0 ++ payload) c)
  else Ok c.

(** The [match kind] of [run], on a whole frame. *)
Definition on_frame (c : Connection) (kind flags stream : Z) (payload : bytes) : res (Connection * list Event) :=
  if negb (header_stream c =? 0) && negb (kind =? CONTINUATION) then bail "frame interleaved with a header block"
  else if kind =? DATA then Ok (on_data c stream flags payload)
  else if kind =? HEADERS then on_headers c stream flags payload
  else if kind =? CONTINUATION then on_continuation c stream flags payload
  else if kind =? SETTINGS then c ← on_settings c flags payload; Ok (c, [])
  else if kind =? WINDOW_UPDATE then c ← on_window_update c stream payload; Ok (c, [])
  else if kind =? PING then c ← on_ping c stream flags payload; Ok (c, [])
  else if kind =? RST_STREAM then on_rst_stream c stream payload
  else if kind =? GOAWAY then on_goaway c payload
  else Ok (c, []).

(** The nine bytes of a frame header: length, type, flags and stream. *)
Definition parse_header (h : bytes) : res (Z * Z * Z * Z) :=
  match h with
  | [h0; h1; h2; h3; h4; h5; h6; h7; h8] =>
      let head := be_value [h0; h1; h2; h3] in
      Ok (Z.shiftr head 8, u8 head, h4, be_value [Z.land h5 0x7f; h6; h7; h8])
  | _ => panic "index out of bounds"
  end.

(** The server's first frame must be SETTINGS, and not an acknowledgement. *)
Definition check_preface (c : Connection) (kind flags : Z) : res Connection :=
  if negb (peer_preface_seen c) then
    if negb (kind =? SETTINGS) || has flags FLAG_ACK then bail "server's first frame is not SETTINGS"
    else Ok (set_peer_preface_seen true c)
  else Ok c.

(** One turn of the [while] of [run]: the events of a whole frame and where it
    ends, [None] when it is not all there. *)
Definition run_turn (c : Connection) (buf : bytes) (pos : nat) : res (Connection * option (list Event * nat)) :=
  h ← slice buf pos (pos + FRAME_HEADER_LEN);
  '(len, kind, flags, stream) ← parse_header h;
  c ← check_preface c kind flags;
  let end' := (pos + FRAME_HEADER_LEN + Z.to_nat len)%nat in
  if (length buf <? end')%nat then Ok (c, None)
  else
    payload ← slice buf (pos + FRAME_HEADER_LEN) end';
    '(c, ev) ← on_frame c kind flags stream payload;
    Ok (c, Some (ev, end')).

(** [events] is the caller's and survives an error; the connection does not, the
    worker drops it.  Every turn but the last consumes a frame. *)
Fixpoint run_loop (fuel : nat) (c : Connection) (events : list Event) (buf : bytes) (pos : nat)
  : list Event * res (Connection * nat) :=
  match fuel with
  | O => (events, panic "out of fuel")
  | S fuel' =>
      if (length buf - pos <? FRAME_HEADER_LEN)%nat then (events, Ok (c, pos))
      else
        match run_turn c buf pos with
        | Err e => (events, Err e)
        | Ok (c, None) => (events, Ok (c, pos))
        | Ok (c, Some (ev, end')) => run_loop fuel' c (events ++ ev) buf end'
        end
  end.

Definition run (c : Connection) (buf : bytes) (events : list Event) : list Event * res (Connection * nat) :=
  if negb (peer_preface_seen c) && bytes_eqb (take 5 buf) (bstr "HTTP/")
  then (events, bail "server answered the HTTP/2 preface with HTTP/1.1; is h2c enabled?")
  else run_loop (S (length buf)) c events buf 0.

Definition feed (c : Connection) (data : bytes) (events : list Event) : list Event * res Connection :=
  if bool_decide (pending c = []) then
    let '(events, used) := run c data events in
    (events, '(c, used) ← used;
             if (used <? length data)%nat then rest ← slice_from data used; Ok (set_pending (pending c ++ rest) c)
             else Ok c)
  else
    let buf := pending c ++ data in
    let '(events, used) := run (set_pending [] c) buf events in
    (events, '(c, used) ← used; rest ← slice_from buf used; Ok (set_pending rest c)).

(** ** One frame at a time *)

(** A connection that is still good, or the error that ended it, with the
    events so far. *)
Abbreviation conn_state := ((Connection + error) * list Event)%type.

Definition conn_step (s : conn_state) (buf : bytes) : option (res (conn_state * nat)) :=
  match s with
  | (inr _, _) => None
  | (inl c, events) =>
      let fail e := Some (Ok ((inr e, events), 1%nat)) in
      if negb (peer_preface_seen c) && bytes_eqb (take 5 buf) (bstr "HTTP/")
      then fail (Bail "server answered the HTTP/2 preface with HTTP/1.1; is h2c enabled?")
      else if (length buf <? FRAME_HEADER_LEN)%nat then None
      else
        match parse_header (take FRAME_HEADER_LEN buf) with
        | Err e => fail e
        | Ok (len, kind, flags, stream) =>
            if negb (peer_preface_seen c) then
              match check_preface c kind flags with
              | Err e => fail e
              | Ok c => Some (Ok ((inl c, events), 0%nat))
              end
            else
              let n := (FRAME_HEADER_LEN + Z.to_nat len)%nat in
              if (length buf <? n)%nat then None
              else match on_frame c kind flags stream (take (Z.to_nat len) (drop FRAME_HEADER_LEN buf)) with
                   | Err e => fail e
                   | Ok (c, ev) => Some (Ok ((inl c, events ++ ev), n))
                   end
        end
  end.

(** The one unit that uses no bytes is recognising the peer's preface. *)
#[global] Instance conn_incremental : Incremental conn_state :=
  { step := conn_step;
    rank := λ s, match fst s with inl c => if peer_preface_seen c then 0 else 1 | inr _ => 0 end%nat }.

Lemma check_preface_seen c kind flags c' : check_preface c kind flags = Ok c' → peer_preface_seen c' = true.
Proof. unfold check_preface. destruct (peer_preface_seen c) eqn:E; cbn; repeat case_match; intros [= <-]; done. Qed.

Lemma http_prefix_length buf : take 5 buf = bstr "HTTP/" → (5 ≤ length buf)%nat.
Proof. intros H. apply (f_equal length) in H. rewrite length_take in H. change (length (bstr "HTTP/")) with 5%nat in H. lia. Qed.

#[global] Instance conn_laws : IncrementalLaws conn_state.
Proof.
  constructor; unfold step, rank, conn_incremental, conn_step.
  - intros [[c|] ev] buf r more; [|done]. unfold bytes_eqb.
    destruct (negb (peer_preface_seen c) && bool_decide (take 5 buf = bstr "HTTP/")) eqn:Hh.
    + apply andb_prop in Hh as [Hs Hb%bool_decide_eq_true]. pose proof (http_prefix_length _ Hb).
      rewrite take_app_le by lia. rewrite Hs, bool_decide_true by done. done.
    + destruct (Nat.ltb_spec (length buf) FRAME_HEADER_LEN) as [|Hl]; [done|]. unfold FRAME_HEADER_LEN in *.
      rewrite !take_app_le by lia. rewrite Hh, (proj2 (Nat.ltb_ge (length (buf ++ more)) 9)) by (rewrite length_app; lia).
      destruct (parse_header _) as [[[[len kind] flags] stream]|]; [|done].
      destruct (negb (peer_preface_seen c)); [done|].
      destruct (Nat.ltb_spec (length buf) (9 + Z.to_nat len)); [done|].
      rewrite (proj2 (Nat.ltb_ge (length (buf ++ more)) _)) by (rewrite length_app; lia).
      rewrite drop_app_le by lia. rewrite take_app_le; [done|]. rewrite length_drop. lia.
  - intros [[c|] ev] buf s' n Hok; [|done]. cbn [fst]. unfold bytes_eqb.
    destruct (negb (peer_preface_seen c) && bool_decide (take 5 buf = bstr "HTTP/")) eqn:Hh.
    { apply andb_prop in Hh as [Hs Hb%bool_decide_eq_true]. pose proof (http_prefix_length _ Hb). intros [= <- <-]. lia. }
    destruct (Nat.ltb_spec (length buf) FRAME_HEADER_LEN) as [|Hl]; [done|]. unfold FRAME_HEADER_LEN in *.
    destruct (parse_header _) as [[[[len kind] flags] stream]|]; [|intros [= <- <-]; lia].
    destruct (peer_preface_seen c) eqn:Hs; cbn [negb].
    + destruct (Nat.ltb_spec (length buf) (9 + Z.to_nat len)); [done|].
      destruct (on_frame _ _ _ _ _) as [[c2 ev2]|]; intros [= <- <-]; lia.
    + destruct (check_preface c kind flags) as [c2|] eqn:Hc; intros [= <- <-]; [|lia].
      apply check_preface_seen in Hc. cbn. rewrite Hc. lia.
  - intros [[c|] ev]; cbn; [|lia]. destruct (peer_preface_seen c); lia.
Qed.

(** ** The open streams *)

Abbreviation ents := (inflight.entries (T := OpenStream) SH OFF).
Definition ids (r : inflight.Ring OpenStream) : list Z := (ents r).*1.

(** A ring whose items carry their own ids, with [n] the number of the next. *)
Definition ring_ok (n : Z) (r : inflight.Ring OpenStream) : Prop :=
  inflight.inv SH OFF r ∧ inflight.ends_at r n ∧ 0 ≤ n ∧ Forall (λ e, id (snd e) = fst e) (ents r).

Definition same_id (s s' : OpenStream) : Prop := id s' = id s.

Lemma SH_ok : 0 ≤ SH.
Proof. unfold SH. lia. Qed.
Lemma OFF_ok : 0 ≤ OFF < 2 ^ SH.
Proof. unfold OFF, SH. lia. Qed.

Lemma ring_ok_related n r r' : inflight.related same_id r r' → ring_ok n r → ring_ok n r' ∧ ids r' = ids r.
Proof.
  intros Hr (Hi & He & Hn & Hid). destruct (inflight.related_spec _ _ _ _ _ _ Hr Hi He) as (Hi' & He' & Hents).
  split; [split_and!; try done|]; unfold ids; clear -Hid Hents.
  - induction Hents as [|e e' l l' [H1 H2] Hl IH]; [constructor|]. apply Forall_cons in Hid as [Hid1 Hid2].
    constructor; [unfold same_id in H2; congruence|by apply IH].
  - induction Hents as [|e e' l l' [H1 H2] Hl IH]; [done|]. apply Forall_cons in Hid as [_ Hid]. cbn. by f_equal; auto.
Qed.

(** Slots that are overwritten, or not. *)
Lemma same_slots l : Forall2 (option_Forall2 same_id) l l.
Proof. induction l as [|[x|] l IH]; repeat constructor; done. Qed.
Lemma same_slots_insert l i s s' : l !! i = Some (Some s) → id s' = id s →
  Forall2 (option_Forall2 same_id) l (<[i := Some s']> l).
Proof.
  intros Hi Hid. rewrite <- (list_insert_id l i (Some s) Hi) at 1. apply Forall2_insert; [apply same_slots|]. by constructor.
Qed.

Lemma modify_related r stream f :
  (∀ s, id (f s) = id s) → inflight.related same_id r (ring_modify r stream f).
Proof.
  intros Hf. unfold ring_modify, inflight.modify.
  destruct (inflight.index _ _ _ _) as [i|]; [|by split_and!; try done; apply same_slots].
  destruct (inflight.slots r !! i) as [[s|]|] eqn:E; split_and!; try done; try apply same_slots.
  by eapply same_slots_insert.
Qed.

Lemma shift_related r delta : inflight.related same_id r (shift_windows delta r).
Proof.
  split_and!; try done. cbn. rewrite <- (take_drop (inflight.head r) (inflight.slots r)) at 1.
  apply Forall2_app; [apply same_slots|]. induction (drop _ _) as [|[s|] l IH]; repeat constructor; done.
Qed.

(** The streams an event list ends. *)
Definition terminal (e : Event) : option Z :=
  match e with End s | Reset s | Unprocessed s => Some s | Status _ _ | Goaway => None end.
Definition ended (ev : list Event) : list Z := omap terminal ev.

Lemma take_ids n r stream :
  ring_ok n r →
  match ring_take r stream with
  | (Some _, r') => ring_ok n r' ∧ stream :: ids r' ≡ₚ ids r
  | (None, r') => ring_ok n r' ∧ ids r' = ids r
  end.
Proof.
  intros (Hi & He & Hn & Hid). pose proof (inflight.take_ends SH OFF SH_ok OFF_ok r stream n Hi He) as Hend.
  unfold ring_take. destruct (inflight.get SH OFF r stream) as [s|] eqn:Hg.
  - destruct (inflight.take_hit SH OFF SH_ok OFF_ok r stream s Hi Hg) as (Hx & Hi' & pre & post & E & E').
    destruct (inflight.take _ _ _ _) as [x r'] eqn:Ht. cbn in *. subst x. unfold ring_ok, ids. rewrite E, E'.
    rewrite E in Hid. apply Forall_app in Hid as [Hp [_ Hq]%Forall_cons].
    split; [split_and!; try done; by apply Forall_app|]. rewrite !fmap_app. cbn. apply Permutation_middle.
  - rewrite (inflight.take_miss SH OFF r stream Hg) in *. done.
Qed.

Lemma retire_ids n r last :
  ring_ok n r → 0 ≤ last →
  let '(retired, r') := inflight.retire_after r last in
  ring_ok n r' ∧ (id <$> retired) ++ ids r' ≡ₚ ids r.
Proof.
  intros (Hi & He & Hn & Hid) Hlast. pose proof (inflight.retire_ends r n last Hi He) as Hend.
  pose proof (inflight.retire_spec r last Hi Hlast) as Hs. destruct (inflight.retire_after r last) as [retired r'].
  destruct Hs as (Hi' & -> & E'). unfold ring_ok, ids. rewrite E'.
  split; [split_and!; try done; rewrite Forall_forall in *; intros e [_ ?]%list_elem_of_filter; by apply Hid|]. clear -Hid.
  induction Hid as [|[k s] l Hk Hl IH]; [done|]. cbn in Hk. rewrite !filter_cons. cbn [fst].
  destruct (decide (last < k)); [rewrite decide_False by lia|rewrite decide_True by lia]; cbn.
  - rewrite Hk. by constructor.
  - rewrite <- Permutation_middle. by constructor.
Qed.

(** ** What a frame does *)

Definition kept (c : Connection) : bytes * bool * Z := (pending c, peer_preface_seen c, next_id c).

(** [n] streams were opened so far. *)
Definition conn_inv (n : Z) (c : Connection) : Prop :=
  ring_ok n (open c) ∧ next_id c = 2 * n + 1 ∧ n ≤ 2 ^ 30 ∧ bytes_ok (header_block c) ∧
  DEFAULT_MAX_FRAME ≤ peer_max_frame c ≤ MAX_FRAME_CEILING.

(** A frame ends exactly the streams that are no longer open after it. *)
Definition frame_post (n : Z) (c : Connection) (x : Connection * list Event) : Prop :=
  conn_inv n (fst x) ∧ kept (fst x) = kept c ∧ ended (snd x) ++ ids (open (fst x)) ≡ₚ ids (open c).

(** Changes outside the ring. *)
Definition outside (c c' : Connection) : Prop :=
  kept c' = kept c ∧ open c' = open c ∧ bytes_ok (header_block c') ∧ peer_max_frame c' = peer_max_frame c.

Lemma outside_inv n c c' : conn_inv n c → outside c c' → conn_inv n c'.
Proof. intros (Hr & Hn & Hb & _ & Hm) ([= _ _ Ek] & Eo & Hh & Em). unfold conn_inv. by rewrite Eo, Em, Ek. Qed.

Lemma outside_post n c c' x : outside c c' → frame_post n c' x → frame_post n c x.
Proof. intros (Ek & Eo & _) (Hi & Hk & Hp). split_and!; [done|by rewrite Hk|by rewrite <- Eo]. Qed.

Lemma quiet_post n c c' : conn_inv n c → outside c c' → frame_post n c (c', []).
Proof. intros Hc Ho. split_and!; cbn; [by eapply outside_inv|apply Ho|]. by destruct Ho as (_ & -> & _). Qed.

Lemma related_post n c c' :
  conn_inv n c → kept c' = kept c → inflight.related same_id (open c) (open c') → header_block c' = header_block c →
  peer_max_frame c' = peer_max_frame c → frame_post n c (c', []).
Proof.
  intros (Hr & Hn & Hb & Hh & Hm) Hk Hrel Eh Em. destruct (ring_ok_related n _ _ Hrel Hr) as [Hr' Hids].
  pose proof Hk as [= _ _ En]. split_and!; cbn; [|done|by rewrite Hids]. unfold conn_inv. by rewrite En, Eh, Em.
Qed.

Lemma end_if_post n b c stream e :
  conn_inv n c → terminal e = Some stream → frame_post n c (end_if b c stream e).
Proof.
  intros Hc He. destruct b; [|apply quiet_post; [done|split_and!; try done; apply Hc]].
  unfold end_if, finish_stream. destruct Hc as (Hr & Hn & Hb & Hh & Hm). pose proof (take_ids n (open c) stream Hr) as Ht.
  destruct (ring_take (open c) stream) as [[s|] r']; destruct Ht as [Hr' Hids]; split_and!; try done; cbn.
  - by rewrite He.
  - by rewrite Hids.
Qed.

(** Events that end nothing, before the others. *)
Lemma frame_post_app n c c' ev ev' :
  ended ev = [] → frame_post n c (c', ev') → frame_post n c (c', ev ++ ev').
Proof. intros He (Hi & Hk & Hp). split_and!; cbn; [done|done|]. unfold ended in *. by rewrite omap_app, He. Qed.

Lemma wp_complete_headers n c stream es block :
  conn_inv n c → bytes_ok block → wp (complete_headers c stream es block) (frame_post n c).
Proof.
  intros Hc Hb. unfold complete_headers. wp_step. unfold hpack.find_status.
  eapply wp_mono; [by apply hpack.wp_find_loop; [|lia]|]. intros found _.
  pose proof (end_if_post n es c stream (End stream) Hc eq_refl) as Hp. destruct (end_if _ _ _ _) as [c' ev'].
  apply wp_Ok, frame_post_app; [|done]. by destruct found as [st|]; [destruct (negb _)|].
Qed.

Lemma wp_headers_block flags payload : bytes_ok payload → wp (headers_block flags payload) bytes_ok.
Proof.
  intros Hp. unfold headers_block. wp_step. apply (wp_mono _ bytes_ok).
  - repeat wp_step; [|done]. by apply bytes_ok_take, bytes_ok_drop.
  - intros block Hb. repeat wp_step; [by apply bytes_ok_drop|done].
Qed.

Lemma wp_on_setting n c i v :
  conn_inv n c → wp (on_setting c i v) (λ c', conn_inv n c' ∧ kept c' = kept c ∧ ids (open c') = ids (open c)).
Proof.
  intros Hc. assert (bytes_ok (header_block c)) as Hh by apply Hc. unfold on_setting.
  assert (∀ c', outside c c' → conn_inv n c' ∧ kept c' = kept c ∧ ids (open c') = ids (open c)) as Hout.
  { intros c' Ho. split_and!; [by eapply outside_inv|apply Ho|]. by destruct Ho as (_ & -> & _). }
  repeat wp_step; try done; try by apply Hout.
  - destruct Hc as (Hr & Hn & Hb & _ & Hm).
    destruct (ring_ok_related n _ _ (shift_related (open c) (v - peer_initial_window c)) Hr) as [Hr' Hids].
    by split_and!.
  - apply andb_prop in Heqb3 as [?%Z.leb_le ?%Z.leb_le]. destruct Hc as (Hr & Hn & Hb & _ & Hm). by split_and!.
Qed.

Lemma wp_on_settings_loop n l : ∀ c,
  conn_inv n c → wp (on_settings_loop c l) (λ c', conn_inv n c' ∧ kept c' = kept c ∧ ids (open c') = ids (open c)).
Proof.
  induction l as [l IH] using (induction_ltof1 _ length). unfold ltof in IH. intros c Hc.
  destruct l as [|a [|b [|v0 [|v1 [|v2 [|v3 l]]]]]]; cbn [on_settings_loop]; try by (apply wp_Ok; done).
  wp_step. eapply wp_mono; [by apply wp_on_setting|]. intros c1 (Hc1 & Hk1 & Hi1).
  eapply wp_mono; [apply IH; [cbn; lia|done]|]. intros c2 (Hc2 & Hk2 & Hi2). split_and!; congruence || done.
Qed.

Lemma wp_on_data n c stream flags payload : conn_inv n c → wp (Ok (on_data c stream flags payload)) (frame_post n c).
Proof.
  intros Hc. assert (bytes_ok (header_block c)) as Hh by apply Hc. unfold on_data, wp.
  set (c1 := refresh_window _).
  assert (outside c c1) as Ho by (unfold c1, refresh_window; destruct (_ <=? _); by split_and!).
  eapply outside_post; [exact Ho|]. apply end_if_post; [by eapply outside_inv|done].
Qed.

Lemma wp_on_headers n c stream flags payload :
  conn_inv n c → bytes_ok payload → wp (on_headers c stream flags payload) (frame_post n c).
Proof.
  intros Hc Hp. assert (bytes_ok (header_block c)) as Hh by apply Hc. unfold on_headers. wp_step; [done|]. wp_step.
  eapply wp_mono; [by apply wp_headers_block|]. intros block Hb. wp_step; [by apply wp_complete_headers|].
  apply wp_Ok, quiet_post; [done|]. split_and!; try done. cbn. by apply bytes_ok_app.
Qed.

Lemma wp_on_continuation n c stream flags payload :
  conn_inv n c → bytes_ok payload → wp (on_continuation c stream flags payload) (frame_post n c).
Proof.
  intros Hc Hp. assert (bytes_ok (header_block c)) as Hh by apply Hc. unfold on_continuation. wp_step; [done|].
  assert (bytes_ok (header_block c ++ payload)) as Hb by by apply bytes_ok_app. wp_step.
  - apply wp_Ok, quiet_post; [done|]. by split_and!.
  - assert (outside c (set_header_end_stream false (set_header_stream 0 (set_header_block []
      (set_header_block (header_block c ++ payload) c))))) as Ho by (split_and!; try done; constructor).
    eapply wp_mono; [apply wp_complete_headers; [by eapply outside_inv|done]|].
    intros x. by apply outside_post.
Qed.

Lemma wp_on_settings n c flags payload :
  conn_inv n c → wp (on_settings c flags payload) (λ c', frame_post n c (c', [])).
Proof.
  intros Hc. assert (bytes_ok (header_block c)) as Hh by apply Hc. unfold on_settings.
  wp_step; [apply wp_Ok, quiet_post; [done|by split_and!]|]. wp_step; [done|]. wp_step.
  eapply wp_mono; [by apply wp_on_settings_loop|]. intros c1 (Hc1 & Hk1 & Hi1). apply wp_Ok.
  assert (bytes_ok (header_block c1)) as Hh1 by apply Hc1.
  set (c2 := emit _ _).
  assert (outside c1 c2) as Ho by (unfold c2; destruct (max_concurrent_assumed c1); by split_and!).
  destruct (quiet_post n c1 c2 Hc1 Ho) as (Ha & Hb & Hp). split_and!; [done|by rewrite Hb|]. by rewrite <- Hi1.
Qed.

Lemma wp_on_goaway n c payload :
  conn_inv n c → bytes_ok payload → wp (on_goaway c payload) (frame_post n c).
Proof.
  intros Hc Hp. unfold on_goaway. destruct payload as [|a [|b [|d [|e [|? [|? [|? [|? ?]]]]]]]]; try done.
  set (last := be_value _). assert (0 ≤ last) as Hlast.
  { subst last. rewrite !bytes_ok_cons in Hp. apply be_value_bound. rewrite !bytes_ok_cons. split_and!; try apply Hp; [|constructor].
    unfold byte_ok. change 0x7f with (2 ^ 7 - 1). rewrite (land_mask a 7) by lia. pose proof (Z.mod_pos_bound a (2 ^ 7)). lia. }
  destruct Hc as (Hr & Hn & Hb & Hh & Hm). pose proof (retire_ids n (open c) last Hr Hlast) as Ht.
  cbn [open set_goaway]. destruct (inflight.retire_after (open c) last) as [retired r']. destruct Ht as [Hr' Hids].
  apply wp_Ok. split_and!; try done. cbn [snd fst]. unfold ended. rewrite omap_app. cbn. rewrite app_nil_r, <- Hids.
  f_equiv. clear. induction retired as [|s l IH]; [done|]. cbn. by rewrite IH.
Qed.

Lemma wp_on_frame n c kind flags stream payload :
  conn_inv n c → bytes_ok payload → wp (on_frame c kind flags stream payload) (frame_post n c).
Proof.
  intros Hc Hp. assert (bytes_ok (header_block c)) as Hh by apply Hc. unfold on_frame. wp_step; [done|].
  wp_step; [by apply wp_on_data|]. wp_step; [by apply wp_on_headers|]. wp_step; [by apply wp_on_continuation|].
  wp_step; [wp_step; by apply wp_on_settings|].
  wp_step. { wp_step. unfold on_window_update. wp_step; [done|]. wp_step; apply wp_Ok; [apply quiet_post; [done|by split_and!]|].
    apply related_post; try done. by apply modify_related. }
  wp_step. { wp_step. unfold on_ping. repeat wp_step; try done; (apply quiet_post; [done|by split_and!]). }
  wp_step. { unfold on_rst_stream. wp_step; [done|]. apply end_if_post; [done|]. by case_match. }
  wp_step; [by apply wp_on_goaway|]. apply quiet_post; [done|by split_and!].
Qed.

(** ** Reading frame by frame *)

Abbreviation consume := (incremental.consume (St := conn_state)).

Lemma kept_seen c c' : kept c' = kept c → peer_preface_seen c' = peer_preface_seen c.
Proof. by intros [= _ -> _]. Qed.

(** What [run_loop] returns, by the frames read. *)
Definition loop_post (x : list Event * res (Connection * nat)) (buf : bytes) (y : res (conn_state * bytes)) : Prop :=
  match y with
  | Ok ((inl c, ev), rest) => ∃ used, x = (ev, Ok (c, used)) ∧ (used ≤ length buf)%nat ∧ rest = drop used buf
  | Ok ((inr e, ev), _) => x = (ev, Err e)
  | Err _ => False
  end.

Lemma run_turn_step c ev buf pos :
  peer_preface_seen c = true → (pos + FRAME_HEADER_LEN ≤ length buf)%nat →
  match step (inl c, ev) (drop pos buf) with
  | None => run_turn c buf pos = Ok (c, None)
  | Some (Ok ((inr e, ev'), _)) => ev' = ev ∧ run_turn c buf pos = Err e
  | Some (Ok ((inl c', ev'), n)) =>
      ∃ e kind flags stream payload, ev' = ev ++ e ∧ run_turn c buf pos = Ok (c', Some (e, (pos + n)%nat)) ∧
        on_frame c kind flags stream payload = Ok (c', e) ∧ (bytes_ok buf → bytes_ok payload)
  | Some (Err _) => False
  end.
Proof.
  intros Hs Hl. unfold step, conn_incremental, conn_step, run_turn. rewrite Hs. cbn [negb andb].
  rewrite slice_in_range by lia. replace (pos + FRAME_HEADER_LEN - pos)%nat with FRAME_HEADER_LEN by lia.
  rewrite (proj2 (Nat.ltb_ge _ FRAME_HEADER_LEN)) by (rewrite length_drop; lia). cbn [mbind result_bind].
  destruct (parse_header _) as [[[[len kind] flags] stream]|e]; [|done]. cbn [mbind result_bind].
  unfold check_preface. rewrite Hs. cbn [negb mbind result_bind]. rewrite length_drop.
  destruct (Nat.ltb_spec (length buf - pos) (FRAME_HEADER_LEN + Z.to_nat len)) as [Hshort|Hall].
  { by rewrite (proj2 (Nat.ltb_lt _ _)) by lia. }
  rewrite (proj2 (Nat.ltb_ge _ _)) by lia. rewrite slice_in_range by lia. cbn [mbind result_bind].
  replace (pos + FRAME_HEADER_LEN + Z.to_nat len - (pos + FRAME_HEADER_LEN))%nat with (Z.to_nat len) by lia.
  rewrite drop_drop. destruct (on_frame _ _ _ _ _) as [[c' e]|e] eqn:E; [|done]. cbn [mbind result_bind].
  exists e, kind, flags, stream, (take (Z.to_nat len) (drop (pos + FRAME_HEADER_LEN) buf)). split_and!; try done.
  - do 4 f_equal. lia.
  - intros. by apply bytes_ok_take, bytes_ok_drop.
Qed.

Lemma run_loop_units fuel : ∀ n c ev buf pos,
  conn_inv n c → peer_preface_seen c = true → bytes_ok buf → (pos ≤ length buf)%nat → (length buf - pos < fuel)%nat →
  loop_post (run_loop fuel c ev buf pos) buf (consume (inl c, ev) (drop pos buf)).
Proof.
  induction fuel as [|fuel IH]; intros n c ev buf pos Hc Hs Hok Hpos Hf; [lia|]. cbn [run_loop].
  assert (bytes_ok (drop pos buf)) as Hokp by by apply bytes_ok_drop.
  destruct (Nat.ltb_spec (length buf - pos) FRAME_HEADER_LEN) as [Hshort|Hl].
  { rewrite incremental.consume_stop; [by exists pos|]. unfold step, conn_incremental, conn_step. rewrite Hs. cbn [negb andb].
    by rewrite (proj2 (Nat.ltb_lt _ _)) by (rewrite length_drop; lia). }
  pose proof (run_turn_step c ev buf pos Hs ltac:(lia)) as Ht.
  destruct (step (inl c, ev) (drop pos buf)) as [[[[[c'|e] ev'] k]|e]|] eqn:Est; [| |done|].
  - destruct Ht as (e & kind & flags & stream & payload & -> & -> & Hfr & Hpl).
    rewrite (incremental.consume_step _ _ _ _ Hokp Est), drop_drop.
    destruct (step_progress _ _ _ _ Hokp Est) as [Hk Hk0]. rewrite length_drop in Hk. cbn [rank conn_incremental fst] in Hk0.
    rewrite Hs in Hk0. pose proof (wp_elim _ _ _ (wp_on_frame n c kind flags stream payload Hc (Hpl Hok)) Hfr) as (Hc' & Hkept & _).
    cbn [fst] in *. apply (IH n); [done|by rewrite (kept_seen _ _ Hkept)|done|lia|lia].
  - destruct Ht as [-> ->]. rewrite (incremental.consume_step _ _ _ _ Hokp Est). by rewrite incremental.consume_stop.
  - rewrite Ht. rewrite (incremental.consume_stop _ _ Est). by exists pos.
Qed.

(** Once the header is there and is SETTINGS, the preface counts as seen. *)
Lemma run_loop_preface fuel c c1 ev buf len kind flags stream :
  (FRAME_HEADER_LEN ≤ length buf)%nat → parse_header (take FRAME_HEADER_LEN buf) = Ok (len, kind, flags, stream) →
  check_preface c kind flags = Ok c1 → run_loop fuel c ev buf 0 = run_loop fuel c1 ev buf 0.
Proof.
  intros Hl Hh Hc. destruct fuel as [|fuel]; [done|]. cbn [run_loop]. rewrite (proj2 (Nat.ltb_ge _ _)) by lia.
  assert (run_turn c buf 0 = run_turn c1 buf 0) as ->; [|done]. unfold run_turn.
  rewrite slice_in_range by (cbn; lia). cbn [mbind result_bind Nat.add]. rewrite Nat.sub_0_r, drop_0, Hh. cbn [mbind result_bind].
  rewrite Hc. unfold check_preface. by rewrite (check_preface_seen _ _ _ _ Hc).
Qed.

Lemma check_preface_outside n c kind flags c1 :
  conn_inv n c → check_preface c kind flags = Ok c1 →
  conn_inv n c1 ∧ open c1 = open c ∧ pending c1 = pending c ∧ next_id c1 = next_id c.
Proof. unfold check_preface. intros Hc. repeat case_match; intros [= <-]; by split_and!; try apply Hc. Qed.

Lemma run_units n c ev buf :
  conn_inv n c → bytes_ok buf → loop_post (run c buf ev) buf (consume (inl c, ev) buf).
Proof.
  intros Hc Hok. unfold run. destruct (peer_preface_seen c) eqn:Hs; cbn [negb andb].
  { apply (run_loop_units _ n c ev buf 0); (done || lia). }
  assert (step (inl c, ev) buf = conn_step (inl c, ev) buf) as Est by done. unfold conn_step in Est. rewrite Hs in Est.
  cbn [negb andb] in Est. destruct (bytes_eqb _ _).
  { rewrite (incremental.consume_step _ _ _ _ Hok Est). by rewrite incremental.consume_stop. }
  destruct (Nat.ltb_spec (length buf) FRAME_HEADER_LEN) as [Hshort|Hl].
  { rewrite (incremental.consume_stop _ _ Est). exists 0%nat. cbn [run_loop]. rewrite Nat.sub_0_r, (proj2 (Nat.ltb_lt _ _)) by done.
    split_and!; [done|lia|done]. }
  destruct (parse_header (take FRAME_HEADER_LEN buf)) as [[[[len kind] flags] stream]|e] eqn:Hh.
  2: { rewrite (incremental.consume_step _ _ _ _ Hok Est), incremental.consume_stop by done. cbn [loop_post run_loop].
       rewrite Nat.sub_0_r, (proj2 (Nat.ltb_ge _ _)) by lia. unfold run_turn. rewrite slice_in_range by (cbn; lia).
       cbn [mbind result_bind Nat.add]. by rewrite Nat.sub_0_r, drop_0, Hh. }
  destruct (check_preface c kind flags) as [c1|e] eqn:Hp.
  - rewrite (run_loop_preface _ _ c1 ev buf len kind flags stream) by (done || lia).
    rewrite (incremental.consume_step _ _ _ _ Hok Est), drop_0. rewrite <- (drop_0 buf) at 4.
    destruct (check_preface_outside n _ _ _ _ Hc Hp) as (Hc1 & _).
    apply (run_loop_units _ n); (done || lia || by eapply check_preface_seen).
  - rewrite (incremental.consume_step _ _ _ _ Hok Est), incremental.consume_stop by done. cbn [loop_post run_loop].
    rewrite Nat.sub_0_r, (proj2 (Nat.ltb_ge _ _)) by lia. unfold run_turn. rewrite slice_in_range by (cbn; lia).
    cbn [mbind result_bind Nat.add]. rewrite Nat.sub_0_r, drop_0, Hh. cbn [mbind result_bind]. by rewrite Hp.
Qed.

(** *** The stream ledger: what was opened is ended once or still open *)

Definition ledger (n : Z) (all : list Z) (s : conn_state) : Prop :=
  match s with
  | (inl c, ev) => conn_inv n c ∧ pending c = [] ∧ ended ev ++ ids (open c) ≡ₚ all
  | (inr e, ev) => (∃ l, ended ev ++ l ≡ₚ all) ∧ no_panic (A := unit) (Err e)
  end.

Lemma ended_app ev ev' : ended (ev ++ ev') = ended ev ++ ended ev'.
Proof. apply omap_app. Qed.

Lemma wp_parse_header buf : (FRAME_HEADER_LEN ≤ length buf)%nat → wp (parse_header (take FRAME_HEADER_LEN buf)) (λ _, True).
Proof. unfold FRAME_HEADER_LEN. intros H. destruct buf as [|? [|? [|? [|? [|? [|? [|? [|? [|? buf]]]]]]]]]; cbn in H; try lia. done. Qed.

Lemma no_panic_of {A} (r : res A) P e : wp r P → r = Err e → no_panic (A := unit) (Err e).
Proof. intros Hw -> msg [= ->]. done. Qed.

Lemma ledger_step n all s buf :
  ledger n all s → bytes_ok buf → match step s buf with Some r => wp r (λ x, ledger n all x.1) | None => True end.
Proof.
  intros Hl Hok. unfold step, conn_incremental, conn_step. destruct s as [[c|e] ev]; [|done].
  destruct Hl as (Hc & Hp & Hperm). destruct (_ && bytes_eqb _ _); [split; [by eexists|done]|].
  destruct (Nat.ltb_spec (length buf) FRAME_HEADER_LEN) as [|Hlen]; [done|]. pose proof (wp_parse_header buf Hlen) as Hw.
  destruct (parse_header _) as [[[[len kind] flags] stream]|e] eqn:Eh.
  2: { split; [by eexists|by eapply no_panic_of]. }
  destruct (negb _) eqn:Es.
  { destruct (check_preface c kind flags) as [c1|e] eqn:Ec.
    - destruct (check_preface_outside n _ _ _ _ Hc Ec) as (Hc1 & Ho & Hpe & _). cbn. by rewrite Ho, Hpe.
    - split; [by eexists|]. unfold check_preface in Ec. rewrite Es in Ec. case_match; [|done]. by injection Ec as <-. }
  destruct (Nat.ltb_spec (length buf) (FRAME_HEADER_LEN + Z.to_nat len)); [done|].
  set (payload := take _ _). assert (bytes_ok payload) as Hpay by by apply bytes_ok_take, bytes_ok_drop.
  pose proof (wp_on_frame n c kind flags stream payload Hc Hpay) as Hf.
  destruct (on_frame _ _ _ _ _) as [[c' ev']|e] eqn:Ef; [|split; [by eexists|by eapply no_panic_of]].
  destruct Hf as (Hc' & [= Hpe _ _] & Hperm'). cbn in *. split_and!; [done|congruence|].
  rewrite ended_app, <- app_assoc, Hperm'. done.
Qed.

(** ** [feed] and the units *)

Definition of_units (y : res (conn_state * bytes)) : list Event * res Connection :=
  match y with
  | Ok ((inl c, ev), rest) => (ev, Ok (set_pending rest c))
  | Ok ((inr e, ev), _) => (ev, Err e)
  | Err e => ([], Err e)
  end.
Definition to_units (c : Connection) (ev : list Event) : conn_state * bytes := ((inl (set_pending [] c), ev), pending c).

(** Between receives: an unfinished frame is pending. *)
Definition resting (c : Connection) : Prop := incremental.resting (to_units c []).
Definition conn_ok (n : Z) (c : Connection) : Prop := conn_inv n c ∧ bytes_ok (pending c) ∧ resting c.

Lemma set_pending_same c : set_pending (pending c) c = c.
Proof. by destruct c. Qed.
Lemma set_pending_pending c a b : set_pending a (set_pending b c) = set_pending a c.
Proof. done. Qed.

Lemma conn_inv_pending n c b : conn_inv n c → conn_inv n (set_pending b c).
Proof. by intros (?&?&?&?&?). Qed.

(** Whether a frame is unfinished depends on the preface and the bytes only. *)
Lemma unfinished_ext c c' ev ev' buf :
  peer_preface_seen c' = peer_preface_seen c → step (inl c, ev) buf = None → step (inl c', ev') buf = None.
Proof.
  intros E. unfold step, conn_incremental, conn_step. rewrite E. destruct (_ && bytes_eqb _ _); [done|].
  destruct (_ <? _)%nat; [done|]. destruct (parse_header _) as [[[[len kind] flags] stream]|]; [|done].
  destruct (negb _); [by destruct (check_preface c _ _)|]. destruct (_ <? _)%nat; [done|].
  by destruct (on_frame c _ _ _ _) as [[]|].
Qed.

Lemma conn_feed_units n c data ev :
  conn_inv n c → bytes_ok (pending c) → bytes_ok data →
  feed c data ev = of_units (incremental.feed (to_units c ev) data).
Proof.
  intros Hc Hp Hd. assert (bytes_ok (pending c ++ data)) as Hok by by apply bytes_ok_app.
  unfold feed, incremental.feed, to_units. cbn [fst snd].
  pose proof (run_units n (set_pending [] c) ev (pending c ++ data) (conn_inv_pending _ _ _ Hc) Hok) as Hr.
  pose proof (incremental.wp_consume (ledger n (ended ev ++ ids (open c))) (inl (set_pending [] c), ev)
    (pending c ++ data) (ledger_step n _) ltac:(split_and!; try apply Hc; done) Hok) as Hw.
  case_bool_decide as Epe.
  - assert (set_pending [] c = c) as E by (rewrite <- Epe; apply set_pending_same).
    rewrite E, Epe in *. cbn [app] in *. destruct (consume _ _) as [[[[c'|e] ev'] rest]|e]; [|by rewrite Hr|done].
    destruct Hr as (used & -> & Hu & ->). cbn [of_units mbind result_bind]. destruct Hw as [(_ & Ep & _) _]. cbn in Ep.
    destruct (Nat.ltb_spec used (length data)).
    + rewrite slice_from_le by done. cbn [mbind result_bind]. by rewrite Ep.
    + rewrite drop_ge by done. by rewrite <- Ep, set_pending_same.
  - destruct (consume _ _) as [[[[c'|e] ev'] rest]|e]; [|by rewrite Hr|done].
    destruct Hr as (used & -> & Hu & ->). cbn [of_units mbind result_bind]. by rewrite slice_from_le.
Qed.

(** What a receive does to the open streams, an error included. *)
Lemma feed_post n all c data ev :
  conn_ok n c → bytes_ok data → ended ev ++ ids (open c) ≡ₚ all →
  (∃ l, ended (fst (feed c data ev)) ++ l ≡ₚ all) ∧
  wp (snd (feed c data ev)) (λ c', conn_ok n c' ∧ ended (fst (feed c data ev)) ++ ids (open c') ≡ₚ all).
Proof.
  intros (Hc & Hp & Hrest) Hd Hall. rewrite (conn_feed_units n) by done.
  assert (bytes_ok (pending c ++ data)) as Hok by by apply bytes_ok_app.
  unfold incremental.feed, to_units. cbn [fst snd].
  pose proof (incremental.wp_consume (ledger n all) (inl (set_pending [] c), ev)
    (pending c ++ data) (ledger_step n _) ltac:(split_and!; try apply Hc; done) Hok) as Hw.
  destruct (consume _ _) as [[[[c'|e] ev'] rest]|e] eqn:E; [| |by destruct e; [split; [exists all|]|]].
  - destruct Hw as [(Hc' & Ep & Hperm) Hr]. cbn in *. split; [by eexists|].
    split; [|done]. split_and!; [by apply conn_inv_pending|done|]. apply incremental.consume_stuck in E as [Hst _]; [|done].
    eapply unfinished_ext; [|exact Hst]. done.
  - destruct Hw as [[Hl Hn] _]. cbn in *. split; [done|]. destruct e; [done|]. by destruct (Hn msg).
Qed.

Fixpoint feeds (c : Connection) (pieces : list bytes) (ev : list Event) : list Event * res Connection :=
  match pieces with
  | [] => (ev, Ok c)
  | d :: pieces' =>
      let '(ev, r) := feed c d ev in
      match r with Ok c => feeds c pieces' ev | Err e => (ev, Err e) end
  end.

Lemma feed_app n c d more ev :
  conn_ok n c → bytes_ok d → bytes_ok more →
  feed c (d ++ more) ev = let '(ev', r) := feed c d ev in match r with Ok c' => feed c' more ev' | Err e => (ev', Err e) end.
Proof.
  intros Hc Hd Hm. pose proof Hc as (Hi & Hp & Hr).
  pose proof (feed_post n (ended ev ++ ids (open c)) c d ev Hc Hd ltac:(done)) as [_ Hpost].
  assert (bytes_ok (pending c ++ d)) as Hok by by apply bytes_ok_app.
  rewrite (conn_feed_units n c (d ++ more)) by (done || by apply bytes_ok_app). rewrite (conn_feed_units n c d) in * by done.
  unfold incremental.feed, to_units in *. cbn [fst snd] in *.
  pose proof (incremental.wp_consume (ledger n (ended ev ++ ids (open c))) (inl (set_pending [] c), ev)
    (pending c ++ d) (ledger_step n _) ltac:(split_and!; try apply Hi; done) Hok) as Hw.
  rewrite app_assoc, incremental.consume_app by done.
  destruct (consume _ (pending c ++ d)) as [[[[c'|e] ev'] rest]|e]; cbn [mbind result_bind of_units].
  - cbn in Hpost, Hw. destruct Hpost as [(Hi' & Hp' & _) _]. destruct Hw as [(_ & Ep & _) _].
    rewrite (conn_feed_units n) by done. unfold incremental.feed, to_units. cbn [fst snd pending set_pending].
    do 2 f_equal. destruct c'; cbn in *. by subst.
  - by rewrite incremental.consume_stop.
  - done.
Qed.

(** C38: However the peer's bytes are cut into receives, a connection reports
    the same events in the same order and ends up in the same state (its queued
    output included) or with the same error, and no input makes it panic. *)
Theorem h2_feed_chunking n c pieces ev :
  conn_ok n c → bytes_ok (concat pieces) →
  feeds c pieces ev = feed c (concat pieces) ev ∧ no_panic (snd (feeds c pieces ev)).
Proof.
  intros Hc Hok. assert (feeds c pieces ev = feed c (concat pieces) ev) as E.
  { revert c ev Hc Hok. induction pieces as [|d pieces IH]; intros c ev Hc Hok; cbn [feeds concat] in *.
    - destruct Hc as (Hi & Hp & Hr). rewrite (conn_feed_units n) by done. unfold incremental.feed, to_units. cbn [fst snd].
      rewrite app_nil_r, incremental.consume_stop; [by destruct c|]. eapply unfinished_ext; [|exact Hr]. done.
    - apply bytes_ok_app in Hok as [Hd Hok]. rewrite (feed_app n) by done.
      pose proof (feed_post n (ended ev ++ ids (open c)) c d ev Hc Hd ltac:(done)) as [_ Hpost].
      destruct (feed c d ev) as [ev' [c'|e]]; [|done]. destruct Hpost as [Hc' _]. by apply IH. }
  split; [done|]. rewrite E. eapply wp_no_panic. by apply (feed_post n (ended ev ++ ids (open c))).
Qed.

(** ** Sending as frames *)

Record frame := mkFrame { f_kind : Z; f_flags : Z; f_stream : Z; f_payload : bytes }.
Definition render (f : frame) : bytes := frame_header (length (f_payload f)) (f_kind f) (f_flags f) (f_stream f) ++ f_payload f.
Definition written (fs : list frame) : bytes := concat (render <$> fs).

Lemma written_app fs gs : written (fs ++ gs) = written fs ++ written gs.
Proof. unfold written. by rewrite fmap_app, concat_app. Qed.

(** DATA frames, the last with END_STREAM when the body is finished. *)
Fixpoint data_frames (stream : Z) (finished : bool) (cs : list bytes) : list frame :=
  match cs with
  | [] => []
  | chunk :: rest =>
      mkFrame DATA (if finished && bool_decide (rest = []) then FLAG_END_STREAM else 0) stream chunk ::
      data_frames stream finished rest
  end.

Lemma concat_chunks max l : ∀ fuel, (0 < max)%nat → (length l ≤ fuel)%nat → concat (chunks fuel max l) = l.
Proof.
  intros fuel Hm. revert l. induction fuel as [|fuel IH]; intros l Hl; destruct l as [|b l]; try done; cbn [length] in Hl; [lia|].
  cbn [chunks concat]. rewrite IH; [apply take_drop|]. rewrite length_drop. cbn [length]. lia.
Qed.

Lemma chunks_length max : ∀ fuel l, Forall (λ x, length x ≤ max)%nat (chunks fuel max l).
Proof. induction fuel as [|fuel IH]; intros [|b l]; constructor; [rewrite length_take; lia|apply IH]. Qed.

Lemma chunks_fuel max l : ∀ f g, (0 < max)%nat → (length l ≤ f)%nat → (length l ≤ g)%nat → chunks f max l = chunks g max l.
Proof.
  intros f. revert l. induction f as [|f IH]; intros [|b l] [|g] Hm Hf Hg; try done; cbn [length] in *; [lia|lia|].
  cbn [chunks]. f_equal. apply IH; [done|..]; rewrite length_drop; cbn [length]; lia.
Qed.

Lemma chunks_nil_iff max l fuel : (length l ≤ fuel)%nat → chunks fuel max l = [] ↔ l = [].
Proof. destruct fuel, l; cbn; try done; lia. Qed.

(** How much one call sends. *)
Definition sendable (c : Connection) (s : OpenStream) (body : bytes) : nat :=
  Nat.min (length body - sent s) (Z.to_nat (Z.min (send_window c) (window s))).

Definition after_send (c : Connection) (pos : nat) (s : OpenStream) (k : nat) (b : bytes) : Connection :=
  set_send_window (send_window c - Z.of_nat k)
    (set_open (update_slot (open c) pos (mkOpenStream (id s) (sent s + k) (window s - Z.of_nat k))) (emit b c)).

Definition body_frames (c : Connection) (s : OpenStream) (body : bytes) (k : nat) : list frame :=
  data_frames (id s) (sent s + k =? length body)%nat
    (chunks k (Z.to_nat (peer_max_frame c)) (take k (drop (sent s) body))).

Lemma slot_lookup (r : inflight.Ring OpenStream) pos s :
  inflight.slot r pos = Some s ↔ inflight.slots r !! (inflight.head r + pos)%nat = Some (Some s).
Proof. unfold inflight.slot. destruct (_ !! _) as [[x|]|]; naive_solver. Qed.

Lemma after_send_0 c pos s : inflight.slot (open c) pos = Some s → after_send c pos s 0 [] = c.
Proof.
  intros Hs%slot_lookup. unfold after_send, update_slot, emit, set_out, set_open, set_send_window. destruct c as [? ? ? ? ? ? r]. cbn in *.
  rewrite app_nil_r, Z.sub_0_r, Nat.add_0_r, Z.sub_0_r. f_equal. destruct s as [i t w], r as [sl h b o k]. cbn in *.
  f_equal. by apply list_insert_id.
Qed.

Lemma after_send_twice c pos s k k' b b' :
  after_send (after_send c pos s k b) pos (mkOpenStream (id s) (sent s + k) (window s - Z.of_nat k)) k' b' =
  after_send c pos s (k + k') (b ++ b').
Proof.
  destruct c as [o ? ? ? ? ? [sl h ? ? ?] ? ? w]. unfold after_send, update_slot.
  cbv [emit set_out set_open set_send_window out open send_window id sent window pending header_block header_stream
    header_end_stream next_id max_concurrent max_concurrent_assumed peer_initial_window peer_max_frame recv_consumed
    table_size table_size_update goaway peer_preface_seen inflight.slots inflight.head inflight.base inflight.open
    inflight.compact_at].
  by rewrite app_assoc, list_insert_insert_eq, Nat2Z.inj_add, Nat.add_assoc, !Z.sub_add_distr.
Qed.

Lemma slot_after_send c pos s k b :
  inflight.slot (open c) pos = Some s →
  inflight.slot (open (after_send c pos s k b)) pos = Some (mkOpenStream (id s) (sent s + k) (window s - Z.of_nat k)).
Proof.
  rewrite !slot_lookup. intros Hs. unfold after_send, update_slot. cbn. apply list_lookup_insert_eq. by eapply lookup_lt_Some.
Qed.

(** One DATA frame, then the rest. *)
Lemma body_frames_cons c pos s body n k b :
  let s' := mkOpenStream (id s) (sent s + n) (window s - Z.of_nat n) in
  n = Nat.min k (Z.to_nat (peer_max_frame c)) → (0 < n)%nat → (sent s + k ≤ length body)%nat →
  body_frames c s body k =
    mkFrame DATA (if (sent s + n =? length body)%nat then FLAG_END_STREAM else 0) (id s) (take n (drop (sent s) body)) ::
    body_frames (after_send c pos s n b) s' body (k - n).
Proof.
  intros s' Hn Hpos Hk. unfold body_frames. cbn [id sent s' peer_max_frame after_send].
  set (m := Z.to_nat (peer_max_frame c)) in *. change (Z.to_nat (peer_max_frame (after_send c pos s n b))) with m.
  set (l := take k (drop (sent s) body)). assert (length l = k) as Hl by (unfold l; rewrite length_take, length_drop; lia).
  destruct k as [|k]; [lia|]. destruct l as [|x l'] eqn:El; [done|]. cbn [chunks data_frames]. rewrite <- El in *. clearbody s'.
  assert (take m l = take n (drop (sent s) body)) as ->.
  { unfold l. rewrite take_take. f_equal. lia. }
  assert (drop m l = take (S k - n) (drop (sent s + n) body)) as ->.
  { unfold l. destruct (decide (m ≤ S k)%nat).
    - replace n with m by lia. rewrite <- drop_drop, (take_drop_commute _ _ m). do 2 f_equal. lia.
    - rewrite drop_ge by (fold l; lia). by replace (S k - n)%nat with 0%nat by lia. }
  replace (sent s + n + (S k - n))%nat with (sent s + S k)%nat by lia.
  set (rest := take (S k - n) (drop (sent s + n) body)).
  assert (length rest = S k - n)%nat as Hr by (unfold rest; rewrite length_take, length_drop; lia).
  f_equal; [|f_equal; apply chunks_fuel; lia].
  f_equal. assert (bool_decide (chunks k m rest = []) = (S k =? n)%nat) as ->.
  { destruct (Nat.eqb_spec (S k) n) as [E|E].
    - rewrite bool_decide_true; [done|]. apply chunks_nil_iff; [lia|]. apply nil_length_inv. lia.
    - rewrite bool_decide_false; [done|]. rewrite chunks_nil_iff by lia. intros E'. rewrite E' in Hr. cbn in Hr. lia. }
  destruct (Nat.eqb_spec (S k) n) as [<-|]; [by rewrite andb_true_r|]. rewrite andb_false_r.
  by rewrite (proj2 (Nat.eqb_neq (sent s + n) _)) by lia.
Qed.

Lemma write_body_loop_spec body fuel : ∀ c pos s,
  inflight.slot (open c) pos = Some s → 0 < peer_max_frame c → (length body - sent s < fuel)%nat →
  let k := sendable c s body in
  write_body_loop fuel c pos body = Ok (after_send c pos s k (written (body_frames c s body k))).
Proof.
  induction fuel as [|fuel IH]; intros c pos s Hs Hm Hf; [lia|]. cbv zeta. cbn [write_body_loop]. rewrite Hs.
  destruct (Nat.leb_spec (length body) (sent s)) as [Hdone|Hmore].
  { replace (sendable c s body) with 0%nat by (unfold sendable; lia). by rewrite after_send_0. }
  set (n := Z.to_nat _). set (k := sendable c s body).
  assert (n = Nat.min k (Z.to_nat (peer_max_frame c))) as Hn by (unfold n, k, sendable; lia). clearbody n.
  assert (sent s + k ≤ length body)%nat as Hk by (unfold k, sendable; lia).
  destruct (Nat.eqb_spec n 0) as [Hz|Hnz].
  { replace k with 0%nat by lia. by rewrite after_send_0. }
  rewrite slice_in_range by lia. cbn [mbind result_bind]. replace (sent s + n - sent s)%nat with n by lia.
  set (f := mkFrame DATA (if (sent s + n =? length body)%nat then FLAG_END_STREAM else 0) (id s) (take n (drop (sent s) body))).
  assert (frame_header n DATA (if (sent s + n =? length body)%nat then FLAG_END_STREAM else 0) (id s) ++
          take n (drop (sent s) body) = render f) as ->.
  { unfold render, f. cbn [f_kind f_flags f_stream f_payload]. rewrite length_take, length_drop. do 2 f_equal. lia. }
  change (write_body_loop fuel (after_send c pos s n (render f)) pos body =
          Ok (after_send c pos s k (written (body_frames c s body k)))).
  rewrite (IH _ _ _ (slot_after_send c pos s n (render f) Hs)) by (done || (cbn; lia)).
  set (s' := mkOpenStream (id s) (sent s + n) (window s - Z.of_nat n)).
  assert (sendable (after_send c pos s n (render f)) s' body = k - n)%nat as ->.
  { unfold sendable, k, sendable. cbn. lia. }
  rewrite after_send_twice. f_equal. rewrite (body_frames_cons c pos s body n k (render f)) by (done || lia).
  replace (n + (k - n))%nat with k by lia. done.
Qed.

Lemma write_body_spec c pos s body :
  inflight.slot (open c) pos = Some s → 0 < peer_max_frame c →
  let k := sendable c s body in
  write_body c pos body = Ok (after_send c pos s k (written (body_frames c s body k))).
Proof. intros Hs Hm. apply write_body_loop_spec; [done|done|lia]. Qed.

(** *** What the DATA frames carry *)

Definition DATA_frame (c : Connection) (f : frame) : Prop :=
  f_kind f = DATA ∧ 0 < zlen (f_payload f) ≤ peer_max_frame c ∧ (f_flags f = 0 ∨ f_flags f = FLAG_END_STREAM).
Definition carried (stream : Z) (fs : list frame) : bytes :=
  concat (f_payload <$> filter (λ f, f_stream f = stream) fs).
(** END_STREAM is on the last of a stream's frames, if at all. *)
Definition ends_stream (stream : Z) (finished : bool) (fs : list frame) : Prop :=
  f_flags <$> filter (λ f, f_stream f = stream) fs =
    let m := length (filter (λ f, f_stream f = stream) fs) in
    if finished then replicate (m - 1) 0 ++ (if (m =? 0)%nat then [] else [FLAG_END_STREAM]) else replicate m 0.

Lemma data_frames_streams stream fin cs i :
  filter (λ f, f_stream f = i) (data_frames stream fin cs) = if decide (stream = i) then data_frames stream fin cs else [].
Proof.
  induction cs as [|x cs IH]; cbn [data_frames]; [by case_decide|]. rewrite filter_cons, IH. cbn [f_stream].
  by case_decide.
Qed.

Lemma data_frames_payloads stream fin cs : f_payload <$> data_frames stream fin cs = cs.
Proof. induction cs as [|x cs IH]; cbn; by rewrite ?IH. Qed.

Lemma data_frames_flags stream fin cs :
  f_flags <$> data_frames stream fin cs =
    if fin then replicate (length cs - 1) 0 ++ (if (length cs =? 0)%nat then [] else [FLAG_END_STREAM]) else replicate (length cs) 0.
Proof.
  induction cs as [|x cs IH]; [by destruct fin|]. cbn [data_frames fmap list_fmap f_flags length]. rewrite IH.
  destruct fin; [|done]. destruct cs as [|y cs]; [done|]. cbn [andb bool_decide length]. rewrite bool_decide_false by done.
  cbn. by rewrite Nat.sub_0_r.
Qed.

Lemma chunks_nonempty max : ∀ fuel l, (0 < max)%nat → Forall (λ x, 0 < length x)%nat (chunks fuel max l).
Proof. induction fuel as [|fuel IH]; intros [|b l] Hm; constructor; [rewrite length_take; cbn; lia|by apply IH]. Qed.

Lemma data_frames_Forall (P : frame → Prop) stream fin cs :
  Forall (λ x, ∀ flags, flags = 0 ∨ flags = FLAG_END_STREAM → P (mkFrame DATA flags stream x)) cs → Forall P (data_frames stream fin cs).
Proof. induction 1 as [|x cs Hx Hcs IH]; cbn [data_frames]; constructor; [apply Hx; destruct (_ && _)|]; auto. Qed.

Section one_call.
Context (c : Connection) (s : OpenStream) (body : bytes).
Context (Hmax : 0 < peer_max_frame c).
Abbreviation k := (sendable c s body).

Lemma body_frames_data : Forall (DATA_frame c) (body_frames c s body k).
Proof.
  apply data_frames_Forall. pose proof (chunks_length (Z.to_nat (peer_max_frame c)) k (take k (drop (sent s) body))) as Hl.
  pose proof (chunks_nonempty (Z.to_nat (peer_max_frame c)) k (take k (drop (sent s) body)) ltac:(lia)) as Hn.
  rewrite Forall_forall in *. intros x Hx flags Hfl. specialize (Hl x Hx). specialize (Hn x Hx). split; [done|]. split; [|done]. unfold zlen. cbn. lia.
Qed.

Lemma body_frames_carried i : carried i (body_frames c s body k) = if decide (id s = i) then take k (drop (sent s) body) else [].
Proof.
  unfold carried, body_frames. rewrite data_frames_streams. case_decide; [|done].
  rewrite data_frames_payloads, concat_chunks; [done|lia|rewrite length_take; lia].
Qed.

Lemma body_frames_ends : ends_stream (id s) (sent s + k =? length body)%nat (body_frames c s body k).
Proof.
  unfold ends_stream, body_frames. rewrite data_frames_streams, decide_True by done. rewrite data_frames_flags.
  replace (length (data_frames _ _ _)) with (length (chunks k (Z.to_nat (peer_max_frame c)) (take k (drop (sent s) body)))); [done|].
  rewrite <- (data_frames_payloads (id s) (sent s + k =? length body)%nat) at 1. by rewrite length_fmap.
Qed.

(** Nothing more can go out until a window opens. *)
Lemma sendable_after pos b :
  sendable (after_send c pos s k b) (mkOpenStream (id s) (sent s + k) (window s - Z.of_nat k)) body = 0%nat.
Proof. unfold sendable. cbn. lia. Qed.
End one_call.

(** The position of an open stream determines its id. *)
Lemma entries_at n (l : list (option OpenStream)) : ∀ i s,
  l !! i = Some (Some s) → (inflight.id_of SH OFF (n + Z.of_nat i), s) ∈ inflight.entries_from SH OFF n l.
Proof.
  revert n. induction l as [|o l IH]; intros n [|i] s; cbn; try done.
  - intros [= ->]. rewrite Z.add_0_r. by left.
  - intros Hs. replace (n + Z.of_nat (S i)) with (n + 1 + Z.of_nat i) by lia. destruct o; [right|]; by apply IH.
Qed.
Lemma slot_id n r pos s :
  ring_ok n r → inflight.slot r pos = Some s → id s = inflight.id_of SH OFF (inflight.base r + Z.of_nat pos).
Proof.
  intros (_ & _ & _ & Hid) Hs%slot_lookup. rewrite Forall_forall in Hid. rewrite <- lookup_drop in Hs.
  by apply (entries_at (inflight.base r)), Hid in Hs.
Qed.
Lemma slot_distinct n r p q s t :
  ring_ok n r → inflight.slot r p = Some s → inflight.slot r q = Some t → id s = id t → p = q.
Proof.
  intros Hr Hs Ht E. rewrite (slot_id n r p s), (slot_id n r q t) in E by done. unfold inflight.id_of, SH in E. lia.
Qed.

Lemma after_send_related c pos s k b :
  inflight.slot (open c) pos = Some s → inflight.related same_id (open c) (open (after_send c pos s k b)).
Proof. intros Hs%slot_lookup. split_and!; try done. cbn. by eapply same_slots_insert. Qed.

Lemma after_send_ok n c pos s k b :
  conn_ok n c → inflight.slot (open c) pos = Some s →
  conn_ok n (after_send c pos s k b) ∧ ids (open (after_send c pos s k b)) = ids (open c).
Proof.
  intros ((Hr & Hn & Hb & Hh & Hm) & Hp & Hrest) Hs.
  destruct (ring_ok_related n _ _ (after_send_related c pos s k b Hs) Hr) as [Hr' Hids].
  split; [|done]. split_and!; try done. eapply unfinished_ext; [|exact Hrest]. done.
Qed.

Lemma slot_other c pos s k b q :
  q ≠ pos → inflight.slot (open (after_send c pos s k b)) q = inflight.slot (open c) q.
Proof. intros Hq. unfold inflight.slot, after_send, update_slot. cbn. by rewrite list_lookup_insert_ne by lia. Qed.

(** *** Pumping every stream *)

(** What became of one stream: it moved on by [k] bytes, which the frames
    carry. *)
Definition advanced (body : bytes) (fs : list frame) (s s' : OpenStream) : Prop :=
  ∃ k, s' = mkOpenStream (id s) (sent s + k) (window s - Z.of_nat k) ∧
    carried (id s) fs = take k (drop (sent s) body) ∧ (k ≤ length body - sent s)%nat ∧
    ends_stream (id s) (sent s + k =? length body)%nat fs.

(** What a run over some of the positions does. *)
Definition pumped (body : bytes) (positions : list nat) (c : Connection) (c' : Connection) : Prop :=
  ∃ fs, out c' = out c ++ written fs ∧ Forall (DATA_frame c) fs ∧
    send_window c' = send_window c - zlen (concat (f_payload <$> fs)) ∧ (0 ≤ send_window c → 0 ≤ send_window c') ∧
    (∀ f, f ∈ fs → ∃ q s, q ∈ positions ∧ inflight.slot (open c) q = Some s ∧ f_stream f = id s) ∧
    (∀ q, q ∉ positions → inflight.slot (open c') q = inflight.slot (open c) q) ∧
    (∀ q, q ∈ positions → inflight.slot (open c) q = None → inflight.slot (open c') q = None) ∧
    (∀ q s, q ∈ positions → inflight.slot (open c) q = Some s →
      ∃ s', inflight.slot (open c') q = Some s' ∧ advanced body fs s s' ∧ sendable c' s' body = 0%nat).

Abbreviation of_stream i := (filter (λ f, f_stream f = i)).

Lemma advanced_ext body fs gs s s' :
  of_stream (id s) gs = of_stream (id s) fs → advanced body fs s s' → advanced body gs s s'.
Proof. intros E (k & Hs & Hc & Hk & He). exists k. unfold carried, ends_stream in *. by rewrite E. Qed.

Lemma no_frames i fs : (∀ f, f ∈ fs → f_stream f ≠ i) → of_stream i fs = [].
Proof.
  intros H. induction fs as [|f fs IH]; [done|]. rewrite filter_cons, decide_False.
  - apply IH. intros g Hg. apply H. by right.
  - apply H. by left.
Qed.

Lemma sendable_mono c c' s body :
  send_window c' ≤ send_window c → sendable c s body = 0%nat → sendable c' s body = 0%nat.
Proof. unfold sendable. lia. Qed.

Lemma body_frames_stream c s body f : f ∈ body_frames c s body (sendable c s body) → f_stream f = id s.
Proof.
  unfold body_frames. generalize (chunks (sendable c s body) (Z.to_nat (peer_max_frame c)) (take (sendable c s body) (drop (sent s) body))).
  intros cs. induction cs as [|x cs IH]; cbn [data_frames]; [by intros ?%elem_of_nil|].
  intros [->|]%elem_of_cons; [done|by apply IH].
Qed.

(** One position, before the others. *)
Lemma pumped_cons n body c pos rest s c' :
  conn_ok n c → inflight.slot (open c) pos = Some s → pos ∉ rest →
  let fs := body_frames c s body (sendable c s body) in
  pumped body rest (after_send c pos s (sendable c s body) (written fs)) c' → pumped body (pos :: rest) c c'.
Proof.
  intros Hc Hs Hnin fs. set (k := sendable c s body) in *. set (c1 := after_send c pos s k (written fs)).
  assert (0 < peer_max_frame c) as Hmax by (destruct Hc as ((_ & _ & _ & _ & Hm) & _); unfold DEFAULT_MAX_FRAME in Hm; lia).
  intros (gs & Hout & Hdata & Hsw & Hpos & Hstreams & Hsame & Hnone & Hadv). exists (fs ++ gs).
  assert (∀ q, q ≠ pos → inflight.slot (open c1) q = inflight.slot (open c) q) as Hother by (intros; by apply slot_other).
  assert (∀ q t, inflight.slot (open c) q = Some t → q ≠ pos → id t ≠ id s) as Hne.
  { intros q t Ht Hq E. apply Hq. by eapply (slot_distinct n); [apply Hc|..]. }
  assert (∀ f, f ∈ gs → ∃ q t, q ∈ rest ∧ q ≠ pos ∧ inflight.slot (open c) q = Some t ∧ f_stream f = id t) as Hgs.
  { intros f Hf. destruct (Hstreams f Hf) as (q & t & Hq & Ht & E). assert (q ≠ pos) as Hqp by congruence.
    rewrite Hother in Ht by done. by exists q, t. }
  pose proof (body_frames_carried c s body Hmax (id s)) as Hcar. rewrite decide_True in Hcar by done. fold k fs in Hcar.
  assert (of_stream (id s) fs = fs) as Hall.
  { unfold fs, body_frames. by rewrite data_frames_streams, decide_True by done. }
  assert (k ≤ length body - sent s)%nat as Hk by (unfold k, sendable; lia).
  assert (zlen (concat (f_payload <$> fs)) = Z.of_nat k) as Hz.
  { unfold carried in Hcar. rewrite Hall in Hcar. rewrite Hcar. unfold zlen. rewrite length_take, length_drop. lia. }
  assert (of_stream (id s) gs = []) as Hgs0.
  { apply no_frames. intros f Hf. destruct (Hgs f Hf) as (q & t & _ & Hq & Ht & ->). by eapply Hne. }
  split_and!.
  - rewrite Hout, written_app, app_assoc. done.
  - apply Forall_app. split; [by apply body_frames_data|done].
  - rewrite Hsw, fmap_app, concat_app, zlen_app, Hz. cbn. lia.
  - intros H0. apply Hpos. cbn. unfold k, sendable. lia.
  - intros f [Hf|Hf]%elem_of_app.
    + exists pos, s. split_and!; [by left|done|by eapply body_frames_stream].
    + destruct (Hgs f Hf) as (q & t & Hq & _ & Ht & E). exists q, t. split_and!; [by right|done|done].
  - intros q [Hq1 Hq2]%not_elem_of_cons. rewrite Hsame by done. by apply Hother.
  - intros q Hq Hn. destruct (decide (q = pos)) as [->|Hqp]; [congruence|]. apply elem_of_cons in Hq as [|Hq]; [done|].
    apply Hnone; [done|]. by rewrite Hother.
  - intros q t Hq Ht. destruct (decide (q = pos)) as [->|Hqp].
    + assert (t = s) as -> by congruence. eexists. split_and!; [rewrite Hsame by done; by apply slot_after_send|..].
      * exists k. split; [done|]. unfold carried, ends_stream. rewrite filter_app, Hgs0, app_nil_r. split_and!; [done|done|].
        apply (body_frames_ends c s body).
      * eapply sendable_mono; [|apply (sendable_after c s body pos (written fs))]. rewrite Hsw. pose proof (zlen_nonneg (concat (f_payload <$> gs))). cbn. lia.
    + apply elem_of_cons in Hq as [|Hq]; [done|]. rewrite <- Hother in Ht by done.
      destruct (Hadv q t Hq Ht) as (t' & Ht' & Ha & Hz'). exists t'. split_and!; [done| |done]. eapply advanced_ext; [|done].
      rewrite filter_app, no_frames; [done|]. intros f Hf. rewrite (body_frames_stream _ _ _ _ Hf).
      rewrite Hother in Ht by done. intros E. by eapply Hne.
Qed.

Lemma pump_slots_spec n body positions : ∀ c,
  conn_ok n c → NoDup positions →
  ∃ c', pump_slots c positions body = Ok c' ∧ conn_ok n c' ∧ ids (open c') = ids (open c) ∧ pumped body positions c c'.
Proof.
  induction positions as [|pos rest IH]; intros c Hc Hnd; cbn [pump_slots].
  - exists c. split_and!; [done|done|done|]. exists []. unfold written. cbn. rewrite app_nil_r, Z.sub_0_r.
    assert (∀ {A} (x : A), x ∉ []) as Hnil by (intros A x Hx; inversion Hx).
    split_and!; try done; try (intros ? Hx; by destruct (Hnil _ _ Hx)); try (intros ? ? Hx; by destruct (Hnil _ _ Hx)).
  - apply NoDup_cons in Hnd as [Hnin Hnd].
    assert (0 < peer_max_frame c) as Hmax by (destruct Hc as ((_ & _ & _ & _ & Hm) & _); unfold DEFAULT_MAX_FRAME in Hm; lia).
    destruct (inflight.slot (open c) pos) as [s|] eqn:Hs.
    + rewrite (write_body_spec c pos s body Hs Hmax). cbn [mbind result_bind].
      set (c1 := after_send _ _ _ _ _). destruct (after_send_ok n c pos s (sendable c s body)
        (written (body_frames c s body (sendable c s body))) Hc Hs) as [Hc1 Hids1].
      destruct (IH c1 Hc1 Hnd) as (c' & E & Hc' & Hids & Hp). exists c'. split_and!; [done|done|by rewrite Hids|].
      by eapply pumped_cons.
    + unfold write_body. cbn [write_body_loop]. rewrite Hs. cbn [mbind result_bind].
      destruct (IH c Hc Hnd) as (c' & E & Hc' & Hids & gs & Hout & Hdata & Hsw & Hpos & Hstreams & Hsame & Hnone & Hadv).
      exists c'. split_and!; [done|done|done|]. exists gs. split_and!; try done.
      * intros f Hf. destruct (Hstreams f Hf) as (q & t & Hq & ?). exists q, t. split; [by right|done].
      * intros q [_ Hq]%not_elem_of_cons. by apply Hsame.
      * intros q [->|Hq]%elem_of_cons Hn; [by rewrite Hsame|by apply Hnone].
      * intros q t [->|Hq]%elem_of_cons Ht; [congruence|by apply Hadv].
Qed.

(** [pump_bodies] sends all that the windows allow and nothing more: it
    appends DATA frames within the peer's frame size to the output, takes exactly
    their bytes off the connection's window (never overdrawing it), moves every
    open stream on by precisely the bytes of the body its frames carry, with
    END_STREAM on the frame that finishes it and on no other, and afterwards no
    stream has anything it could still send. *)
Theorem h2_pump_bodies n c body :
  conn_ok n c → body ≠ [] →
  ∃ c', pump_bodies c body = Ok c' ∧ conn_ok n c' ∧ pumped body (seq 0 (inflight.live (open c))) c c'.
Proof.
  intros Hc Hb. unfold pump_bodies. rewrite bool_decide_false by done.
  destruct (pump_slots_spec n body (seq 0 (inflight.live (open c))) c Hc (NoDup_seq _ _)) as (c' & E & Hc' & _ & Hp). by exists c'.
Qed.

(** ** Opening a stream *)

Fixpoint headers_of (end_stream stream : Z) (first : bool) (cs : list bytes) : list frame :=
  match cs with
  | [] => []
  | chunk :: rest =>
      mkFrame (if first then HEADERS else CONTINUATION)
        (Z.lor (if bool_decide (rest = []) then FLAG_END_HEADERS else 0) (if first then end_stream else 0)) stream chunk ::
      headers_of end_stream stream false rest
  end.

Lemma header_frames_written es stream first cs : header_frames es stream first cs = written (headers_of es stream first cs).
Proof.
  revert first. induction cs as [|x cs IH]; intros first; [done|]. cbn [header_frames headers_of]. unfold written in *.
  cbn [fmap list_fmap concat]. rewrite IH. unfold render. cbn [f_kind f_flags f_stream f_payload]. by rewrite <- !app_assoc.
Qed.

Lemma one_header_frame es stream b :
  written (headers_of es stream true [b]) = frame_header (length b) HEADERS (Z.lor FLAG_END_HEADERS es) stream ++ b.
Proof. unfold written, render. cbn [headers_of fmap list_fmap concat f_kind f_flags f_stream f_payload]. by rewrite app_nil_r. Qed.

(** The frames of a header block, short or long. *)
Definition block_chunks (max : Z) (block : bytes) : list bytes :=
  if zlen block <=? max then [block] else chunks (length block) (Z.to_nat max) block.
Definition full_block (c : Connection) (block : bytes) : bytes :=
  match table_size_update c with Some size => hpack.size_update size ++ block | None => block end.
Definition opened (c : Connection) (block body : bytes) : Connection :=
  let es := if bool_decide (body = []) then FLAG_END_STREAM else 0 in
  let c1 := set_table_size_update None (set_next_id (Z.min (next_id c + 2) U32_MAX) c) in
  let c2 := emit (written (headers_of es (next_id c) true (block_chunks (peer_max_frame c) (full_block c block)))) c1 in
  set_open (ring_push (open c) (next_id c) (mkOpenStream (next_id c) 0 (peer_initial_window c))) c2.

Lemma start_stream_opened c block body :
  can_open c = true → 0 < peer_max_frame c →
  start_stream c block body =
    (c' ← (if bool_decide (body = []) then Ok (opened c block body)
           else write_body (opened c block body) (inflight.live (open (opened c block body)) - 1) body);
     Ok (Some (next_id c), c')).
Proof.
  intros Ho Hm. unfold start_stream, opened, block_chunks, full_block. rewrite Ho. cbn [negb].
  cbn [peer_max_frame set_next_id table_size_update].
  set (b := match table_size_update c with Some size => hpack.size_update size ++ block | None => block end).
  destruct (zlen b <=? peer_max_frame c).
  - cbn [mbind result_bind]. rewrite one_header_frame. reflexivity.
  - rewrite (proj2 (Z.eqb_neq _ 0)) by lia. cbn [mbind result_bind]. rewrite header_frames_written. done.
Qed.

Lemma opened_ok n c block body :
  conn_ok n c → can_open c = true →
  conn_ok (n + 1) (opened c block body) ∧ ids (open (opened c block body)) = ids (open c) ++ [next_id c] ∧
  inflight.slot (open (opened c block body)) (inflight.live (open (opened c block body)) - 1) =
    Some (mkOpenStream (next_id c) 0 (peer_initial_window c)).
Proof.
  intros (((Hi & He & Hn0 & Hid) & Hn & Hb & Hh & Hm) & Hp & Hrest) Hopen.
  unfold can_open, stream_ids_exhausted in Hopen. apply andb_prop in Hopen as [[_ Hx%negb_true_iff%Z.ltb_ge]%andb_prop _].
  unfold MAX_STREAM_ID in Hx. assert (next_id c = inflight.id_of SH OFF n) as Eid by (rewrite Hn; unfold inflight.id_of, SH, OFF; lia).
  set (item := mkOpenStream (next_id c) 0 (peer_initial_window c)).
  destruct (inflight.push_entries SH OFF SH_ok OFF_ok (open c) n item Hi He Hn0) as [Hents Hi'].
  pose proof (inflight.push_ends SH OFF SH_ok OFF_ok (open c) n item Hi He) as He'. rewrite <- Eid in *.
  change (open (opened c block body)) with (ring_push (open c) (next_id c) item).
  split; [|split].
  - split; [|split; [done|eapply unfinished_ext; [|exact Hrest]; done]].
    split_and!; try done; cbn; try (unfold U32_MAX; lia).
    split_and!; [done|done|lia|]. unfold ring_push. fold item. rewrite Hents. apply Forall_app. split; [done|]. by constructor.
  - unfold ids, ring_push. rewrite Hents, fmap_app. done.
  - apply slot_lookup. unfold ring_push, inflight.push, inflight.live. cbn. destruct Hi as (_ & Hl & _).
    rewrite length_app. cbn. rewrite lookup_app_r by lia. replace (_ - _)%nat with 0%nat by lia. done.
Qed.

(** *** The frames a stream is opened with *)

Lemma headers_of_kinds es stream first cs :
  f_kind <$> headers_of es stream first cs =
    if first then match cs with [] => [] | _ :: rest => HEADERS :: (const CONTINUATION <$> rest) end
    else const CONTINUATION <$> cs.
Proof.
  revert first. induction cs as [|x cs IH]; intros first; [by destruct first|]. cbn [headers_of fmap list_fmap f_kind].
  rewrite IH. by destruct first.
Qed.
Lemma headers_of_payloads es stream first cs : f_payload <$> headers_of es stream first cs = cs.
Proof. revert first. induction cs as [|x cs IH]; intros first; cbn; by rewrite ?IH. Qed.
Lemma headers_of_length es stream first cs : length (headers_of es stream first cs) = length cs.
Proof. revert first. induction cs as [|x cs IH]; intros first; cbn; by rewrite ?IH. Qed.

Lemma headers_of_flags es stream first cs i f :
  es = 0 ∨ es = FLAG_END_STREAM → headers_of es stream first cs !! i = Some f →
  f_stream f = stream ∧ has (f_flags f) FLAG_END_HEADERS = (S i =? length cs)%nat ∧
  has (f_flags f) FLAG_END_STREAM = first && (i =? 0)%nat && negb (es =? 0) ∧ 0 ≤ f_flags f < 256.
Proof.
  intros Hes. revert first i. induction cs as [|x cs IH]; intros first [|i] Hf; cbn [headers_of] in Hf; try done.
  - injection Hf as <-. cbn [f_stream f_flags length]. split; [done|].
    destruct cs; cbn [length Nat.eqb]; [rewrite bool_decide_true by done|rewrite bool_decide_false by done];
      destruct first, Hes as [-> | ->]; done.
  - apply IH in Hf as (? & ? & ? & ?). split_and!; [done|done| |lia..]. by rewrite andb_false_r.
Qed.

Lemma block_chunks_spec max block : 0 < max →
  concat (block_chunks max block) = block ∧ Forall (λ x, zlen x ≤ max) (block_chunks max block) ∧ block_chunks max block ≠ [].
Proof.
  intros Hm. unfold block_chunks. destruct (Z.leb_spec (zlen block) max) as [Hle|Hgt].
  - cbn. rewrite app_nil_r. split_and!; [done|by repeat constructor|done].
  - split_and!; [apply concat_chunks; lia| |].
    + pose proof (chunks_length (Z.to_nat max) (length block) block) as Hl. eapply Forall_impl; [exact Hl|].
      intros x Hx. cbn in Hx. unfold zlen. lia.
    + rewrite chunks_nil_iff by lia. intros ->. unfold zlen in Hgt. cbn in Hgt. lia.
Qed.

(** HEADERS and CONTINUATION frames as RFC 9113 wants them. *)
Definition header_sequence (stream max : Z) (block : bytes) (ends : bool) (hs : list frame) : Prop :=
  concat (f_payload <$> hs) = block ∧ Forall (λ f, zlen (f_payload f) ≤ max) hs ∧
  f_kind <$> hs = HEADERS :: replicate (length hs - 1) CONTINUATION ∧
  (∀ i f, hs !! i = Some f → f_stream f = stream ∧
    has (f_flags f) FLAG_END_HEADERS = (S i =? length hs)%nat ∧
    has (f_flags f) FLAG_END_STREAM = ((i =? 0)%nat && ends) ∧ 0 ≤ f_flags f < 256).

Lemma header_sequence_ok stream max block es :
  0 < max → es = 0 ∨ es = FLAG_END_STREAM →
  header_sequence stream max block (negb (es =? 0)) (headers_of es stream true (block_chunks max block)).
Proof.
  intros Hm Hes. destruct (block_chunks_spec max block Hm) as (Hcat & Hlen & Hne).
  set (cs := block_chunks max block) in *. unfold header_sequence. split_and!.
  - by rewrite headers_of_payloads.
  - apply Forall_forall. intros f Hf. rewrite Forall_forall in Hlen. apply Hlen.
    rewrite <- (headers_of_payloads es stream true cs). by apply (list_elem_of_fmap_2 f_payload).
  - rewrite headers_of_kinds, headers_of_length. destruct cs as [|x cs']; [done|]. cbn. rewrite Nat.sub_0_r. f_equal.
    clear. induction cs' as [|y cs' IH]; [done|]. cbn. by rewrite IH.
  - intros i f Hf. apply headers_of_flags in Hf as (E1 & E2 & E3 & ?); [|done]. by rewrite headers_of_length.
Qed.

Lemma start_stream_post n c block body :
  conn_ok n c →
  wp (start_stream c block body) (λ x,
    match fst x with
    | Some i => i = 2 * n + 1 ∧ conn_ok (n + 1) (snd x) ∧ ids (open (snd x)) = ids (open c) ++ [i]
    | None => snd x = c ∧ can_open c = false
    end).
Proof.
  intros Hc. destruct (can_open c) eqn:Ho; [|unfold start_stream; by rewrite Ho].
  pose proof Hc as ((_ & Hn & _ & _ & Hm) & _). assert (0 < peer_max_frame c) as Hmax by (unfold DEFAULT_MAX_FRAME in Hm; lia).
  destruct (opened_ok n c block body Hc Ho) as (Hc1 & Hids1 & Hslot). rewrite (start_stream_opened c block body Ho Hmax).
  set (s := mkOpenStream (next_id c) 0 (peer_initial_window c)) in *.
  case_bool_decide; [by cbn; rewrite <- Hn|].
  rewrite (write_body_spec (opened c block body) _ s body Hslot Hmax). cbn [mbind result_bind wp fst snd].
  destruct (after_send_ok (n + 1) (opened c block body) _ s (sendable (opened c block body) s body)
    (written (body_frames (opened c block body) s body (sendable (opened c block body) s body))) Hc1 Hslot) as [Hc2 Hids2].
  by rewrite <- Hn, Hids2.
Qed.

(** Opening a stream: refused exactly when GOAWAY was seen, the ids are
    used up or the peer's limit is reached; otherwise the next odd id is taken and
    the output gains one HEADERS frame and CONTINUATION frames within the peer's
    frame size, whose payloads are the pending table-size update and the header
    block, END_HEADERS on the last only, END_STREAM on the first only and only
    without a body; then as much of the body as both windows allow. *)
Theorem h2_start_stream n c block body :
  conn_ok n c →
  if can_open c then
    ∃ hs ds c' k,
      start_stream c block body = Ok (Some (2 * n + 1), c') ∧ conn_ok (n + 1) c' ∧
      ids (open c') = ids (open c) ++ [2 * n + 1] ∧ table_size_update c' = None ∧
      out c' = out c ++ written hs ++ written ds ∧
      header_sequence (2 * n + 1) (peer_max_frame c) (full_block c block) (bool_decide (body = [])) hs ∧
      k = Nat.min (length body) (Z.to_nat (Z.min (send_window c) (peer_initial_window c))) ∧
      Forall (DATA_frame c) ds ∧ (∀ f, f ∈ ds → f_stream f = 2 * n + 1) ∧
      carried (2 * n + 1) ds = take k body ∧ ends_stream (2 * n + 1) (k =? length body)%nat ds ∧
      send_window c' = send_window c - Z.of_nat k
  else start_stream c block body = Ok (None, c).
Proof.
  intros Hc. destruct (can_open c) eqn:Ho; [|unfold start_stream; by rewrite Ho].
  pose proof Hc as ((_ & Hn & _ & _ & Hm) & _). assert (0 < peer_max_frame c) as Hmax by (unfold DEFAULT_MAX_FRAME in Hm; lia).
  destruct (opened_ok n c block body Hc Ho) as (Hc1 & Hids1 & Hslot). rewrite (start_stream_opened c block body Ho Hmax).
  set (es := if bool_decide (body = []) then FLAG_END_STREAM else 0).
  set (cs := block_chunks (peer_max_frame c) (full_block c block)).
  set (c1 := opened c block body) in *. set (s := mkOpenStream (next_id c) 0 (peer_initial_window c)) in *.
  set (k := sendable c1 s body). assert (k = Nat.min (length body) (Z.to_nat (Z.min (send_window c) (peer_initial_window c)))) as Hk
    by (unfold k, sendable; cbn; lia).
  set (ds := body_frames c1 s body k).
  set (c' := if bool_decide (body = []) then c1 else after_send c1 (inflight.live (open c1) - 1) s k (written ds)).
  assert ((if bool_decide (body = []) then Ok c1 else write_body c1 (inflight.live (open c1) - 1) body) = Ok c') as ->.
  { unfold c'. case_bool_decide; [done|]. by rewrite (write_body_spec c1 _ s body Hslot Hmax). }
  destruct (after_send_ok (n + 1) c1 _ s k (written ds) Hc1 Hslot) as [Hc2 Hids2].
  assert (body = [] → k = 0%nat ∧ ds = []) as Hnil.
  { intros ->. assert (k = 0%nat) as E by (rewrite Hk; cbn; lia). split; [done|]. unfold ds. by rewrite E. }
  assert (out c1 = out c ++ written (headers_of es (next_id c) true cs)) as Hout1 by done.
  exists (headers_of es (next_id c) true cs), ds, c', k. rewrite <- Hn.
  assert (of_stream (next_id c) ds = ds) as Hall.
  { unfold ds, body_frames. by rewrite data_frames_streams, decide_True. }
  split_and!; [done|..].
  - unfold c'. by case_bool_decide.
  - unfold c'. case_bool_decide; [done|by rewrite Hids2].
  - unfold c'. by case_bool_decide.
  - unfold c'. case_bool_decide as Hb.
    + destruct (Hnil Hb) as [_ ->]. rewrite Hout1. unfold written at 3. cbn. by rewrite app_nil_r.
    + by rewrite app_assoc, <- Hout1.
  - assert (bool_decide (body = []) = negb (es =? 0)) as -> by (unfold es; by case_bool_decide).
    apply header_sequence_ok; [done|]. unfold es. case_bool_decide; auto.
  - done.
  - by apply (body_frames_data c1 s body).
  - intros f Hf. by apply body_frames_stream in Hf.
  - unfold ds. rewrite (body_frames_carried c1 s body Hmax), decide_True by done. cbn. by rewrite drop_0.
  - apply (body_frames_ends c1 s body).
  - unfold c'. case_bool_decide as Hb; [destruct (Hnil Hb) as [-> _]; cbn; lia|done].
Qed.

(** ** A connection's lifetime *)

(** What the worker calls, in any order. *)
Inductive call : Type :=
| StartStream (block body : bytes)
| Feed (data : bytes)
| PumpBodies (body : bytes)
| TakeOutput
| Initiate
| SendGoaway.
Definition call_ok (o : call) : Prop := match o with Feed data => bytes_ok data | _ => True end.

(** The ids handed out, the events reported, and the connection or the error
    that ended it. *)
Fixpoint lifetime (c : Connection) (started : list Z) (ev : list Event) (calls : list call)
  : list Z * list Event * res Connection :=
  match calls with
  | [] => (started, ev, Ok c)
  | StartStream block body :: calls =>
      match start_stream c block body with
      | Ok (Some i, c) => lifetime c (started ++ [i]) ev calls
      | Ok (None, c) => lifetime c started ev calls
      | Err e => (started, ev, Err e)
      end
  | Feed data :: calls =>
      match feed c data ev with
      | (ev, Ok c) => lifetime c started ev calls
      | (ev, Err e) => (started, ev, Err e)
      end
  | PumpBodies body :: calls =>
      match pump_bodies c body with Ok c => lifetime c started ev calls | Err e => (started, ev, Err e) end
  | TakeOutput :: calls => lifetime (snd (take_output c)) started ev calls
  | Initiate :: calls => lifetime (initiate c) started ev calls
  | SendGoaway :: calls => lifetime (send_goaway c) started ev calls
  end.

Definition odd_ids (n : nat) : list Z := (λ k, 2 * Z.of_nat k + 1) <$> seq 0 n.

Lemma odd_ids_snoc n : odd_ids (S n) = odd_ids n ++ [2 * Z.of_nat n + 1].
Proof. unfold odd_ids. rewrite seq_S, fmap_app. done. Qed.
Lemma odd_ids_NoDup n : NoDup (odd_ids n).
Proof. apply NoDup_fmap_2; [intros x y; lia|apply NoDup_seq]. Qed.

Lemma conn_ok_out n c x : conn_ok n c → conn_ok n (set_out x c) ∧ ids (open (set_out x c)) = ids (open c).
Proof. intros ((?&?&?&?&?) & ? & Hr). split; [|done]. split_and!; try done. eapply unfinished_ext; [|exact Hr]. done. Qed.

Lemma new_ok : conn_ok 0 new.
Proof.
  split; [|split; [constructor|done]]. split_and!; cbn; try done; try lia; try constructor; try done.
  split_and!; [by left|lia|constructor].
Qed.

Definition accounted (x : list Z * list Event * res Connection) : Prop :=
  let '(started, ev, r) := x in
  started = odd_ids (length started) ∧ (∃ l, ended ev ++ l ≡ₚ started) ∧
  wp r (λ c, conn_ok (Z.of_nat (length started)) c ∧ ended ev ++ ids (open c) ≡ₚ started).

Lemma lifetime_accounted calls : ∀ c started ev,
  Forall call_ok calls → conn_ok (Z.of_nat (length started)) c → started = odd_ids (length started) →
  ended ev ++ ids (open c) ≡ₚ started → accounted (lifetime c started ev calls).
Proof.
  induction calls as [|o calls IH]; intros c started ev Hcalls Hc Hs Hp.
  { cbn. split_and!; [done|by eexists|done|done]. }
  apply Forall_cons in Hcalls as [Ho Hcalls].
  destruct o as [block body|data|body| | |]; cbn [lifetime].
  - pose proof (start_stream_post (Z.of_nat (length started)) c block body Hc) as Hstart.
    destruct (start_stream c block body) as [[[i|] c']|e]; [| |by split_and!; [|eexists|destruct e]].
    + destruct Hstart as (-> & Hc' & Hids). cbn [snd] in *. apply IH; [done| | |].
      * rewrite length_app. cbn. by rewrite Nat.add_1_r, Nat2Z.inj_succ.
      * rewrite length_app. cbn. rewrite Nat.add_1_r, odd_ids_snoc. by rewrite <- Hs.
      * by rewrite Hids, app_assoc, Hp.
    + destruct Hstart as [E _]. cbn in E. subst c'. by apply IH.
  - destruct (feed_post _ _ c data ev Hc Ho Hp) as [Hl Hw]. destruct (feed c data ev) as [ev' [c'|e]]; cbn in Hl, Hw.
    + destruct Hw as [Hc' Hp']. by apply IH.
    + by split_and!.
  - assert (∃ c', pump_bodies c body = Ok c' ∧ conn_ok (Z.of_nat (length started)) c' ∧ ids (open c') = ids (open c)) as (c' & -> & Hc' & Hids).
    { unfold pump_bodies. case_bool_decide; [by exists c|].
      destruct (pump_slots_spec _ body (seq 0 (inflight.live (open c))) c Hc (NoDup_seq _ _)) as (c' & E & Hc' & Hi & _). by exists c'. }
    apply IH; [done|done|done|by rewrite Hids].
  - assert (∃ x, snd (take_output c) = set_out x c) as [x ->].
    { unfold take_output. case_bool_decide as E; [exists []|by eexists]. cbn. rewrite <- E. by destruct c. }
    destruct (conn_ok_out _ c x Hc) as [Hc' Hids]. by apply IH.
  - unfold initiate. match goal with |- context [set_out ?x c] => destruct (conn_ok_out _ c x Hc) as [Hc' Hids] end. by apply IH.
  - unfold send_goaway, emit. match goal with |- context [set_out ?x c] => destruct (conn_ok_out _ c x Hc) as [Hc' Hids] end. by apply IH.
Qed.

(** C25: Over any sequence of calls on a fresh connection, whatever the peer
    sends: the ids handed out are 1, 3, 5, ... in order; every terminal event
    (End, Reset, Unprocessed) names one of them and no id is ended twice; as long
    as the connection lives, each id handed out has been ended or is still open,
    never both and never neither; and nothing panics. *)
Theorem h2_streams_end_once calls :
  Forall call_ok calls →
  let '(started, ev, r) := lifetime new [] [] calls in
  started = odd_ids (length started) ∧ NoDup (ended ev) ∧ (∀ i, i ∈ ended ev → i ∈ started) ∧
  no_panic r ∧ (∀ c, r = Ok c → NoDup (ended ev ++ ids (open c)) ∧ (∀ i, i ∈ started ↔ i ∈ ended ev ++ ids (open c))).
Proof.
  intros Hcalls. pose proof (lifetime_accounted calls new [] [] Hcalls new_ok eq_refl ltac:(done)) as Ha.
  destruct (lifetime new [] [] calls) as [[started ev] r]. destruct Ha as (Hs & [l Hl] & Hw).
  assert (NoDup started) as Hnd by (rewrite Hs; apply odd_ids_NoDup). rewrite <- Hl in Hnd. apply NoDup_app in Hnd as (Hnd & _ & _).
  split_and!; [done|done| |by eapply wp_no_panic|].
  - intros i Hi. rewrite <- Hl. apply elem_of_app. by left.
  - intros c ->. destruct Hw as [_ Hp]. split; [rewrite Hp, Hs; apply odd_ids_NoDup|]. intros i. by rewrite Hp.
Qed.

(** ** Witnesses *)

(** A server's SETTINGS, a response with status 200 on stream 1 and its end,
    then GOAWAY. *)
Definition sample_bytes : bytes :=
  [0; 0; 0; 4; 0; 0; 0; 0; 0] ++ [0; 0; 1; 1; 4; 0; 0; 0; 1; 0x88] ++ [0; 0; 2; 0; 1; 0; 0; 0; 1; 104; 105] ++
  [0; 0; 8; 7; 0; 0; 0; 0; 0; 0; 0; 0; 1; 0; 0; 0; 0].

Lemma sample_bytes_ok : bytes_ok sample_bytes.
Proof. by_decide. Qed.

Lemma h2_feed_chunking_witness :
  let pieces := [take 3 sample_bytes; take 10 (drop 3 sample_bytes); drop 13 sample_bytes] in
  fst (feeds new pieces []) = [Status 1 200; Goaway] ∧
  feeds new pieces [] = feed new (concat pieces) [] ∧ no_panic (snd (feeds new pieces [])).
Proof.
  split; [vm_compute; reflexivity|]. apply (h2_feed_chunking 0 new _ []); [apply new_ok|].
  cbn [concat]. rewrite app_nil_r. by_decide.
Defined.

(** A request of three bytes of body, of which the window let none go; then
    two bytes of window. *)
Definition sample_opened : Connection :=
  match start_stream (set_send_window 0 new) [0x82] [1; 2; 3] with Ok (_, c) => c | Err _ => new end.
Definition sample_conn : Connection := set_send_window 2 sample_opened.

Lemma conn_ok_send_window n c w : conn_ok n c → conn_ok n (set_send_window w c).
Proof. intros ((?&?&?&?&?) & ? & Hr). split_and!; try done. eapply unfinished_ext; [|exact Hr]. done. Qed.
Lemma sample_conn_ok : conn_ok 1 sample_conn.
Proof.
  apply conn_ok_send_window. unfold sample_opened.
  pose proof (start_stream_post 0 (set_send_window 0 new) [0x82] [1; 2; 3] (conn_ok_send_window 0 new 0 new_ok)) as H.
  destruct (start_stream _ _ _) as [[[i|] c]|] eqn:E; [by destruct H as (_ & H & _)|exfalso; vm_compute in E; discriminate..].
Qed.

Lemma h2_pump_bodies_witness :
  (∃ c, pump_bodies sample_conn [1; 2; 3] = Ok c ∧ out c = out sample_conn ++ [0; 0; 2; 0; 0; 0; 0; 0; 1; 1; 2] ∧ send_window c = 0) ∧
  ∃ c', pump_bodies sample_conn [1; 2; 3] = Ok c' ∧ conn_ok 1 c' ∧
    pumped [1; 2; 3] (seq 0 (inflight.live (open sample_conn))) sample_conn c'.
Proof.
  split; [eexists; split_and!; vm_compute; reflexivity|].
  apply (h2_pump_bodies 1 sample_conn [1; 2; 3]); [apply sample_conn_ok|done].
Defined.

Lemma h2_start_stream_witness :
  (∃ c, start_stream sample_conn [0x82; 0x84] [] = Ok (Some 3, c) ∧
        out c = out sample_conn ++ [0; 0; 2; 1; 5; 0; 0; 0; 3; 0x82; 0x84]) ∧
  (if can_open sample_conn then
    ∃ hs ds c' k,
      start_stream sample_conn [0x82; 0x84] [] = Ok (Some (2 * 1 + 1), c') ∧ conn_ok (1 + 1) c' ∧
      ids (open c') = ids (open sample_conn) ++ [2 * 1 + 1] ∧ table_size_update c' = None ∧
      out c' = out sample_conn ++ written hs ++ written ds ∧
      header_sequence (2 * 1 + 1) (peer_max_frame sample_conn) (full_block sample_conn [0x82; 0x84]) (bool_decide (@nil Z = [])) hs ∧
      k = Nat.min (length (@nil Z)) (Z.to_nat (Z.min (send_window sample_conn) (peer_initial_window sample_conn))) ∧
      Forall (DATA_frame sample_conn) ds ∧ (∀ f, f ∈ ds → f_stream f = 2 * 1 + 1) ∧
      carried (2 * 1 + 1) ds = take k [] ∧ ends_stream (2 * 1 + 1) (k =? length (@nil Z))%nat ds ∧
      send_window c' = send_window sample_conn - Z.of_nat k
   else start_stream sample_conn [0x82; 0x84] [] = Ok (None, sample_conn)).
Proof.
  split; [eexists; split; vm_compute; reflexivity|].
  apply (h2_start_stream 1 sample_conn [0x82; 0x84] []). apply sample_conn_ok.
Defined.

Lemma h2_streams_end_once_witness :
  let calls := [Initiate; StartStream [0x82] []; StartStream [0x82] []; Feed sample_bytes] in
  fst (lifetime new [] [] calls) = ([1; 3], [Status 1 200; End 1; Unprocessed 3; Goaway]) ∧
  let '(started, ev, r) := lifetime new [] [] calls in
  started = odd_ids (length started) ∧ NoDup (ended ev) ∧ (∀ i, i ∈ ended ev → i ∈ started) ∧
  no_panic r ∧ (∀ c, r = Ok c → NoDup (ended ev ++ ids (open c)) ∧ (∀ i, i ∈ started ↔ i ∈ ended ev ++ ids (open c))).
Proof.
  split; [vm_compute; reflexivity|].
  apply (h2_streams_end_once [Initiate; StartStream [0x82] []; StartStream [0x82] []; Feed sample_bytes]).
  repeat constructor; try done. all: apply sample_bytes_ok || by_decide.
Defined.
End http2_conn.
