(* ===== verification/Http2Frames.v ===== *)
(** * What an HTTP/2 connection puts on the wire

    Everything a connection queues is whole frames: what it answers to what it
    hears are acknowledgements and window updates; a stream opens with one
    HEADERS frame and its CONTINUATION frames, uninterrupted; the rest is DATA.
    Such a sequence of frames reads back frame by frame with the connection's own
    [parse_header]. *)

From S2P Require Import Prelude Hpack Inflight Incremental Http2Conn.
#[local] Open Scope Z_scope.

Module http2_frames.
Import http2_conn.

(** ** What is said *)

(** A frame by itself: an acknowledgement, a window update, or DATA. *)
Definition answer (f : frame) : Prop :=
  f_stream f = 0 ∧
  (f_kind f = SETTINGS ∧ f_flags f = FLAG_ACK ∧ f_payload f = [] ∨
   f_kind f = PING ∧ f_flags f = FLAG_ACK ∧ length (f_payload f) = 8%nat ∨
   f_kind f = WINDOW_UPDATE ∧ f_flags f = 0 ∧ length (f_payload f) = 4%nat).
Definition data (f : frame) : Prop :=
  f_kind f = DATA ∧ 0 < zlen (f_payload f) ≤ MAX_FRAME_CEILING ∧ 0 < f_stream f ≤ MAX_STREAM_ID ∧ (f_flags f = 0 ∨ f_flags f = FLAG_END_STREAM).
(** The frames of one header block. *)
Definition header_run (hs : list frame) : Prop := ∃ stream block ends,
  header_sequence stream MAX_FRAME_CEILING block ends hs ∧ 0 < stream ≤ MAX_STREAM_ID.

(** What may be said between frames: one frame, or a whole header block. *)
Definition utterance (fs : list frame) : Prop := (∃ f, fs = [f] ∧ (answer f ∨ data f)) ∨ header_run fs.
Definition speech (fs : list frame) : Prop := ∃ us, fs = concat us ∧ Forall utterance us.

Lemma speech_nil : speech [].
Proof. by exists []. Qed.
Lemma speech_app fs gs : speech fs → speech gs → speech (fs ++ gs).
Proof. intros (us & -> & Hu) (vs & -> & Hv). exists (us ++ vs). by rewrite concat_app, Forall_app. Qed.
Lemma speech_one f : answer f ∨ data f → speech [f].
Proof. intros Hf. exists [[f]]. split; [done|]. constructor; [|done]. left. by exists f. Qed.
Lemma speech_data fs : Forall data fs → speech fs.
Proof. induction 1 as [|f fs Hf _ IH]; [apply speech_nil|]. apply (speech_app [f]); [|done]. apply speech_one. by right. Qed.

(** What the output gained. *)
Definition adds (c c' : Connection) : Prop := ∃ fs, out c' = out c ++ written fs ∧ speech fs.
#[global] Instance adds_preorder : PreOrder adds.
Proof.
  split.
  - intros c. exists []. split; [by rewrite app_nil_r|apply speech_nil].
  - intros c1 c2 c3 (fs & E1 & H1) (gs & E2 & H2). exists (fs ++ gs). split; [by rewrite E2, E1, written_app, app_assoc|by apply speech_app].
Qed.
Lemma adds_same c c' : out c' = out c → adds c c'.
Proof. intros E. exists []. split; [by rewrite E, app_nil_r|apply speech_nil]. Qed.
Lemma adds_frame c c' f : out c' = out c ++ render f → answer f → adds c c'.
Proof. intros E Hf. exists [f]. split; [by rewrite E; unfold written; cbn; rewrite app_nil_r|]. apply speech_one. by left. Qed.

(** ** Listening *)

Lemma end_if_out b c stream e : out (end_if b c stream e).1 = out c.
Proof. unfold end_if, finish_stream. destruct b; [|done]. by destruct (ring_take (open c) stream) as [[]]. Qed.

Lemma on_data_adds c stream flags payload : adds c (on_data c stream flags payload).1.
Proof.
  unfold on_data. trans (refresh_window (set_recv_consumed (u32 (recv_consumed c + zlen payload)) c)); [|apply adds_same, end_if_out].
  unfold refresh_window. destruct (_ <=? _); [|by apply adds_same].
  set (f := mkFrame WINDOW_UPDATE 0 0 (be_bytes 4 (recv_consumed (set_recv_consumed (u32 (recv_consumed c + zlen payload)) c)))).
  apply (adds_frame _ _ f); [|split; [done|]; right; right; split_and!; try done; apply length_be_bytes].
  unfold render, window_update. cbn [f_kind f_flags f_stream f_payload f]. by rewrite length_be_bytes.
Qed.

Lemma on_setting_out c i v c' : on_setting c i v = Ok c' → out c' = out c.
Proof. unfold on_setting. repeat (destruct (_ && _) || destruct (_ =? _) || destruct (_ <=? _)); intros [= <-]; done. Qed.
Lemma on_settings_loop_out l : ∀ c c', on_settings_loop c l = Ok c' → out c' = out c.
Proof.
  induction l as [l IH] using (well_founded_induction (well_founded_ltof _ length)). intros c c'.
  destruct l as [|a [|b [|v0 [|v1 [|v2 [|v3 rest]]]]]]; try by intros [= <-].
  cbn [on_settings_loop]. destruct (on_setting c _ _) as [c1|] eqn:E; [|done]. cbn [mbind result_bind]. intros Hr.
  apply IH in Hr; [|unfold ltof; cbn; lia]. by rewrite Hr, (on_setting_out _ _ _ _ E).
Qed.
Lemma on_settings_adds c flags payload c' : on_settings c flags payload = Ok c' → adds c c'.
Proof.
  unfold on_settings. destruct (has _ _); [by intros [= <-]|]. destruct (negb _); [done|].
  destruct (on_settings_loop c payload) as [c1|] eqn:E; [|done]. cbn [mbind result_bind]. intros [= <-]. apply on_settings_loop_out in E.
  apply (adds_frame _ _ (mkFrame SETTINGS FLAG_ACK 0 [])); [|by split; [|left]]. rewrite <- E. by destruct (max_concurrent_assumed c1).
Qed.
Lemma complete_headers_out c stream es block c' ev : complete_headers c stream es block = Ok (c', ev) → out c' = out c.
Proof.
  unfold complete_headers. destruct (hpack.find_status block) as [found|]; [|done]. cbn [mbind result_bind].
  pose proof (end_if_out es c stream (End stream)) as Ho. destruct (end_if es c stream (End stream)) as [c1 ev1]. by intros [= <- _].
Qed.
Lemma on_headers_out c stream flags payload c' ev : on_headers c stream flags payload = Ok (c', ev) → out c' = out c.
Proof.
  unfold on_headers. destruct (_ =? _); [done|]. destruct (headers_block flags payload) as [block|]; [|done]. cbn [mbind result_bind].
  destruct (has _ _); [apply complete_headers_out|]. by intros [= <- _].
Qed.
Lemma on_continuation_out c stream flags payload c' ev : on_continuation c stream flags payload = Ok (c', ev) → out c' = out c.
Proof.
  unfold on_continuation. destruct (_ || _); [done|]. destruct (negb _); [by intros [= <- _]|]. intros Hc. by apply complete_headers_out in Hc.
Qed.
Lemma on_window_update_out c stream payload c' : on_window_update c stream payload = Ok c' → out c' = out c.
Proof. unfold on_window_update. destruct (negb _); [done|]. destruct (_ =? _); by intros [= <-]. Qed.
Lemma on_ping_adds c stream flags payload c' : on_ping c stream flags payload = Ok c' → adds c c'.
Proof.
  unfold on_ping. destruct (negb (stream =? 0)); [done|]. destruct (Nat.eqb_spec (length payload) 8) as [Hl|]; [|done]. cbn [negb].
  destruct (negb _); intros [= <-]; [|done]. apply (adds_frame _ _ (mkFrame PING FLAG_ACK 0 payload)); [|by split; [|right; left]].
  unfold render. cbn [f_kind f_flags f_stream f_payload]. by rewrite Hl.
Qed.
Lemma on_goaway_out c payload c' ev : on_goaway c payload = Ok (c', ev) → out c' = out c.
Proof.
  unfold on_goaway. destruct payload as [|? [|? [|? [|? [|? [|? [|? [|? ?]]]]]]]]; try done.
  destruct (inflight.retire_after _ _) as [retired r]. by intros [= <- _].
Qed.

(** A frame that arrives is answered at most by acknowledgements and window
    updates. *)
Lemma on_frame_adds c kind flags stream payload c' ev : on_frame c kind flags stream payload = Ok (c', ev) → adds c c'.
Proof.
  unfold on_frame. destruct (_ && _); [done|]. destruct (kind =? DATA).
  { pose proof (on_data_adds c stream flags payload) as Ha. destruct (on_data _ _ _ _). by intros [= <- _]. }
  destruct (kind =? HEADERS). { intros Hc. by eapply adds_same, on_headers_out. }
  destruct (kind =? CONTINUATION). { intros Hc. by eapply adds_same, on_continuation_out. }
  destruct (kind =? SETTINGS). { destruct (on_settings c flags payload) eqn:E; [|done]. intros [= <- _]. by eapply on_settings_adds. }
  destruct (kind =? WINDOW_UPDATE). { destruct (on_window_update c stream payload) eqn:E; [|done]. intros [= <- _]. by eapply adds_same, on_window_update_out. }
  destruct (kind =? PING). { destruct (on_ping c stream flags payload) eqn:E; [|done]. intros [= <- _]. by eapply on_ping_adds. }
  destruct (kind =? RST_STREAM).
  { unfold on_rst_stream. destruct (negb _); [done|]. match goal with |- context [end_if ?b ?c0 ?s ?e] => pose proof (end_if_out b c0 s e) as Ho; destruct (end_if b c0 s e) end.
    intros [= <- _]. by apply adds_same. }
  destruct (kind =? GOAWAY). { intros Hc. by eapply adds_same, on_goaway_out. }
  by intros [= <- _].
Qed.

Lemma run_turn_adds c buf pos c' x : run_turn c buf pos = Ok (c', x) → adds c c'.
Proof.
  unfold run_turn. destruct (slice buf pos _) as [h|]; [|done]. cbn [mbind result_bind].
  destruct (parse_header h) as [[[[len kind] flags] stream]|]; [|done]. cbn [mbind result_bind].
  destruct (check_preface c kind flags) as [c1|] eqn:E; [|done]. cbn [mbind result_bind].
  assert (adds c c1) as H1. { unfold check_preface in E. destruct (negb _); [destruct (_ || _); [done|]|]; injection E as <-; by apply adds_same. }
  destruct (_ <? _)%nat; [by intros [= <- _]|]. destruct (slice buf _ _) as [payload|]; [|done]. cbn [mbind result_bind].
  destruct (on_frame c1 kind flags stream payload) as [[c2 ev]|] eqn:Ef; [|done]. intros [= <- _]. etrans; [exact H1|by eapply on_frame_adds].
Qed.
Lemma run_loop_adds fuel : ∀ c ev buf pos c' used, (run_loop fuel c ev buf pos).2 = Ok (c', used) → adds c c'.
Proof.
  induction fuel as [|fuel IH]; intros c ev buf pos c' used; cbn [run_loop]; [done|]. destruct (_ <? _)%nat; [by intros [= <- _]|].
  destruct (run_turn c buf pos) as [[c1 [[ev1 end1]|]]|] eqn:E; [| |done]; apply run_turn_adds in E; [|by intros [= <- _]].
  intros Hl. etrans; [exact E|by eapply IH].
Qed.
Lemma feed_adds c data ev ev' c' : feed c data ev = (ev', Ok c') → adds c c'.
Proof.
  assert (∀ c buf ev c' used, (run c buf ev).2 = Ok (c', used) → adds c c') as Hrun.
  { intros c0 buf ev0 c1 used. unfold run. destruct (_ && _); [done|]. apply run_loop_adds. }
  unfold feed. case_bool_decide.
  - specialize (Hrun c data ev). destruct (run c data ev) as [ev1 [[c1 used]|]]; [|done]. cbn [mbind result_bind]. specialize (Hrun c1 used eq_refl).
    destruct (_ <? _)%nat; [|by intros [= _ <-]]. destruct (slice_from data used); [|done]. intros [= _ <-]. etrans; [exact Hrun|by apply adds_same].
  - specialize (Hrun (set_pending [] c) (pending c ++ data) ev). destruct (run _ _ ev) as [ev1 [[c1 used]|]]; [|done]. cbn [mbind result_bind].
    specialize (Hrun c1 used eq_refl). destruct (slice_from _ used); [|done]. intros [= _ <-]. etrans; [|by apply (adds_same c1)].
    destruct Hrun as (fs & E & Hs). by exists fs.
Qed.

(** ** Speaking *)

Lemma DATA_frame_data n c f s :
  conn_ok n c → DATA_frame c f → f_stream f = id s → (∃ pos, inflight.slot (open c) pos = Some s) → data f.
Proof.
  intros ((Hr & _ & Hn & _ & Hm) & _) (Hk & Hl & Hf) Hs (pos & Hpos). split_and!; try done; try lia; rewrite Hs, (slot_id n _ pos s Hr Hpos).
  - destruct Hr as ((? & ? & _) & _). unfold inflight.id_of, SH, OFF. lia.
  - apply slot_lookup in Hpos. apply lookup_lt_Some in Hpos. destruct Hr as ((_ & Hh & _) & He & _). destruct He as [He|He]; [rewrite He in Hpos; cbn in Hpos; lia|].
    unfold inflight.live in He. unfold inflight.id_of, SH, OFF, MAX_STREAM_ID. lia.
Qed.

Lemma pump_bodies_adds n c body c' : conn_ok n c → pump_bodies c body = Ok c' → adds c c'.
Proof.
  intros Hc. unfold pump_bodies. case_bool_decide; [by intros [= <-]|].
  destruct (pump_slots_spec n body (seq 0 (inflight.live (open c))) c Hc (NoDup_seq _ _)) as (c1 & -> & _ & _ & Hp). intros [= <-].
  destruct Hp as (fs & Ho & Hd & _ & _ & Hst & _). exists fs. split; [done|]. apply speech_data. rewrite Forall_forall in *.
  intros f Hf. destruct (Hst f Hf) as (q & s & _ & Hq & E). eapply DATA_frame_data; eauto.
Qed.

Lemma start_stream_adds n c block body x c' : conn_ok n c → start_stream c block body = Ok (x, c') → adds c c'.
Proof.
  intros Hc Hs. pose proof (h2_start_stream n c block body Hc) as Hp. destruct (can_open c) eqn:Ho; [|rewrite Hp in Hs; by injection Hs as _ <-].
  destruct Hp as (hs & ds & c1 & k & E & Hc1 & _ & _ & Hout & Hh & _ & Hd & Hst & _). rewrite E in Hs. injection Hs as _ <-.
  pose proof Hc as ((_ & Hnx & _ & _ & Hm) & _). assert (0 < 2 * n + 1 ≤ MAX_STREAM_ID) as Hid.
  { destruct Hc as (((_ & _ & ? & _) & _) & _). unfold can_open, stream_ids_exhausted in Ho. apply andb_prop in Ho as [[_ Hx%negb_true_iff%Z.ltb_ge]%andb_prop _]. lia. }
  exists (hs ++ ds). split; [by rewrite Hout, written_app|]. apply speech_app.
  - exists [hs]. split; [by rewrite concat_cons, app_nil_r|]. constructor; [|done]. right. exists (2 * n + 1), (full_block c block), (bool_decide (body = [])).
    split; [|done]. destruct Hh as (H1 & H2 & H3). split_and!; [done| |apply H3..]. eapply Forall_impl; [exact H2|]. cbn. lia.
  - apply speech_data. rewrite Forall_forall in *. intros f Hf. destruct (Hd f Hf) as (? & ? & ?). rewrite <- (Hst f Hf) in Hid. split_and!; try done; lia.
Qed.

(** ** The first frames *)

Definition opening : list frame :=
  [mkFrame SETTINGS 0 0 (concat ((λ '(i, v), be_bytes 2 i ++ be_bytes 4 v) <$>
     [(SETTINGS_HEADER_TABLE_SIZE, 0); (SETTINGS_ENABLE_PUSH, 0); (SETTINGS_INITIAL_WINDOW_SIZE, MAX_WINDOW)]));
   mkFrame WINDOW_UPDATE 0 0 (be_bytes 4 (MAX_WINDOW - 65535))].
Lemma initiate_out c : out (initiate c) = PREFACE ++ written opening ++ out c.
Proof. reflexivity. Qed.

(** ** Reading it back *)

(** A frame off the front of what was written, with [parse_header]. *)
Definition read_frame (b : bytes) : option (frame * bytes) :=
  if (length b <? FRAME_HEADER_LEN)%nat then None
  else match parse_header (take FRAME_HEADER_LEN b) with
       | Ok (len, kind, flags, stream) =>
           let rest := drop FRAME_HEADER_LEN b in
           if (length rest <? Z.to_nat len)%nat then None
           else Some (mkFrame kind flags stream (take (Z.to_nat len) rest), drop (Z.to_nat len) rest)
       | Err _ => None
       end.
Fixpoint read_frames (fuel : nat) (b : bytes) : option (list frame) :=
  match b with
  | [] => Some []
  | _ => match fuel with
         | O => None
         | S fuel' => '(f, rest) ← read_frame b; fs ← read_frames fuel' rest; Some (f :: fs)
         end
  end.

(** What the nine bytes of a header can carry. *)
Definition fits (f : frame) : Prop :=
  zlen (f_payload f) < 2 ^ 24 ∧ 0 ≤ f_kind f < 256 ∧ 0 ≤ f_stream f < 2 ^ 31.

Lemma frame_header_parse len kind flags stream :
  Z.of_nat len < 2 ^ 24 → 0 ≤ kind < 256 → 0 ≤ stream < 2 ^ 31 →
  length (frame_header len kind flags stream) = FRAME_HEADER_LEN ∧ parse_header (frame_header len kind flags stream) = Ok (Z.of_nat len, kind, flags, stream).
Proof.
  intros Hl Hk Hs. split; [done|]. unfold frame_header.
  assert (u32 (Z.of_nat len) = Z.of_nat len) as -> by (apply Z.mod_small; lia).
  set (x := Z.of_nat len) in *.
  change (drop 1 (be_bytes 4 x) ++ [kind; flags] ++ be_bytes 4 stream) with
    (be_bytes 3 x ++ kind :: flags :: Z.land (Z.shiftr stream (8 * 3)) 255 :: be_bytes 3 stream).
  assert (be_value (be_bytes 3 x ++ [kind]) = x * 256 + kind) as Hhead.
  { unfold be_value. rewrite foldl_app. fold (be_value (be_bytes 3 x)). rewrite be_value_be_bytes. cbn [foldl].
    rewrite Z.mod_small by lia. by apply be_acc_eq. }
  assert (Z.land (Z.land (Z.shiftr stream (8 * 3)) 255) 0x7f = Z.land (Z.shiftr stream (8 * 3)) 255) as Htop.
  { rewrite byte_of_shift by lia. change 0x7f with (2 ^ 7 - 1). rewrite (land_mask _ 7) by lia. change (2 ^ (8 * 3)) with (2 ^ 24). rewrite (Z.mod_small _ 256), Z.mod_small; [done|..];
      (split; [apply Z.div_pos; lia|apply Z.div_lt_upper_bound; lia]). }
  assert (be_value (Z.land (Z.shiftr stream (8 * 3)) 255 :: be_bytes 3 stream) = stream) as Hstream.
  { change (_ :: be_bytes 3 stream) with (be_bytes 4 stream). rewrite be_value_be_bytes. apply Z.mod_small. lia. }
  cbn [be_bytes app parse_header] in *. rewrite Hhead, Htop, Hstream. do 2 f_equal. f_equal.
  unfold u8. rewrite shiftr_div by lia. change (2 ^ 8) with 256. f_equal; [|rewrite Z.add_comm, Z.mod_add by lia; by apply Z.mod_small].
  rewrite Z.div_add_l by lia. rewrite Z.div_small by lia. lia.
Qed.

Lemma read_frame_render f rest : fits f → read_frame (render f ++ rest) = Some (f, rest).
Proof.
  intros (Hl & Hk & Hs). destruct (frame_header_parse (length (f_payload f)) (f_kind f) (f_flags f) (f_stream f) Hl Hk Hs) as [Hlen Hp].
  unfold read_frame, render. rewrite <- app_assoc. rewrite take_app_length' by done. rewrite drop_app_length' by done. rewrite Hp.
  rewrite (proj2 (Nat.ltb_ge _ _)) by (rewrite length_app; lia). rewrite Nat2Z.id. rewrite (proj2 (Nat.ltb_ge _ _)) by (rewrite length_app; lia).
  rewrite take_app_length, drop_app_length. by destruct f.
Qed.
Lemma read_frames_written fs : Forall fits fs → ∀ fuel, (length fs ≤ fuel)%nat → read_frames fuel (written fs) = Some fs.
Proof.
  induction 1 as [|f fs Hf _ IH]; intros fuel Hfuel; [by destruct fuel|]. destruct fuel as [|fuel]; [cbn in Hfuel; lia|].
  change (written (f :: fs)) with (render f ++ written fs). cbn [read_frames].
  destruct (render f ++ written fs) as [|b l] eqn:E.
  { exfalso. apply (f_equal length) in E. rewrite length_app in E. unfold render in E. rewrite length_app in E. by cbn in E. }
  rewrite <- E, read_frame_render by done. cbn [mbind option_bind]. rewrite IH by (cbn in Hfuel; lia). done.
Qed.

Lemma speech_fits fs : speech fs → Forall fits fs.
Proof.
  intros (us & -> & Hu). apply Forall_concat. eapply Forall_impl; [exact Hu|]. intros u [(f & -> & Hf)|(stream & block & ends & (_ & Hl & Hk & Hi) & Hs)].
  - constructor; [|done]. unfold fits, zlen, MAX_FRAME_CEILING, MAX_STREAM_ID in *.
    destruct Hf as [(-> & [(-> & _ & ->)|[(-> & _ & ->)|(-> & _ & ->)]])|(-> & ? & ? & _)]; unfold zlen, SETTINGS, PING, WINDOW_UPDATE, DATA, MAX_FRAME_CEILING, MAX_STREAM_ID in *; cbn; lia.
  - rewrite Forall_lookup in *. intros i f Hf. destruct (Hi i f Hf) as (Est & _). specialize (Hl i f Hf). cbn in Hl.
    assert (f_kind f ∈ f_kind <$> u) as Hin by (apply list_elem_of_fmap_2; by eapply list_elem_of_lookup_2). rewrite Hk in Hin.
    unfold fits, MAX_FRAME_CEILING, MAX_STREAM_ID in *. rewrite Est. split_and!; try lia; apply elem_of_cons in Hin as [->|[-> _]%elem_of_replicate]; done.
Qed.
Lemma opening_fits : Forall fits opening.
Proof. repeat constructor; done. Qed.

(** ** A whole conversation *)

(** One call on a connection: what it returns and the connection after it. *)
Definition one_call (c : Connection) (o : call) : bytes * res Connection :=
  match o with
  | StartStream block body => ([], '(_, c) ← start_stream c block body; Ok c)
  | Feed data => ([], (feed c data []).2)
  | PumpBodies body => ([], pump_bodies c body)
  | TakeOutput => let '(b, c) := take_output c in (default [] b, Ok c)
  | Initiate => ([], Ok (initiate c))
  | SendGoaway => ([], Ok (send_goaway c))
  end.
(** The output taken so far, and the connection. *)
Fixpoint conversation (c : Connection) (taken : bytes) (calls : list call) : bytes * res Connection :=
  match calls with
  | [] => (taken, Ok c)
  | o :: calls' => let '(b, r) := one_call c o in
                   match r with Ok c' => conversation c' (taken ++ b) calls' | Err e => (taken ++ b, Err e) end
  end.

(** Speech, and farewells. *)
Definition farewell : frame := mkFrame GOAWAY 0 0 (be_bytes 4 0 ++ be_bytes 4 0).
Definition talk (fs : list frame) : Prop := ∃ us, fs = concat us ∧ Forall (λ u, utterance u ∨ u = [farewell]) us.
Lemma talk_app fs gs : talk fs → talk gs → talk (fs ++ gs).
Proof. intros (us & -> & Hu) (vs & -> & Hv). exists (us ++ vs). by rewrite concat_app, Forall_app. Qed.
Lemma speech_talk fs : speech fs → talk fs.
Proof. intros (us & -> & Hu). exists us. split; [done|]. eapply Forall_impl; [exact Hu|]. auto. Qed.
Lemma farewell_talk : talk [farewell].
Proof. exists [[farewell]]. split; [done|]. constructor; [by right|done]. Qed.
Lemma talk_fits fs : talk fs → Forall fits fs.
Proof.
  intros (us & -> & Hu). apply Forall_concat. eapply Forall_impl; [exact Hu|]. intros u [Hx| ->]; [|by repeat constructor].
  apply speech_fits. exists [u]. split; [by rewrite concat_cons, app_nil_r|by constructor].
Qed.

(** A call adds whole frames to what was taken and what is queued. *)
Lemma one_call_talk n c o b c' :
  conn_ok n c → call_ok o → o ≠ Initiate → one_call c o = (b, Ok c') →
  (∃ m, conn_ok m c') ∧ ∃ gs, b ++ out c' = out c ++ written gs ∧ talk gs.
Proof.
  assert (∀ c1, adds c c1 → ∃ gs, [] ++ out c1 = out c ++ written gs ∧ talk gs) as Hadd.
  { intros c1 (gs & E & Hg). exists gs. split; [done|by apply speech_talk]. }
  intros Hc Ho Hi. destruct o as [block body|d|body| | |]; cbn [one_call]; [| | | |done|].
  - pose proof (start_stream_post n c block body Hc) as Hp. destruct (start_stream c block body) as [[x c1]|] eqn:E; [|done]. intros [= <- <-].
    split; [|by eapply Hadd, start_stream_adds]. cbn in Hp. destruct x; [exists (n + 1); apply Hp|destruct Hp as [-> _]; by exists n].
  - pose proof (feed_post n _ c d [] Hc Ho (reflexivity _)) as [_ Hw]. destruct (feed c d []) as [ev r] eqn:E. cbn [snd]. intros [= <- ->].
    split; [exists n; apply Hw|by eapply Hadd, feed_adds].
  - intros [= <- Hp]. split; [|by eapply Hadd, pump_bodies_adds]. exists n. revert Hp. unfold pump_bodies. case_bool_decide; [by intros [= <-]|].
    destruct (pump_slots_spec n body (seq 0 (inflight.live (open c))) c Hc (NoDup_seq _ _)) as (c1 & -> & ? & _). by intros [= <-].
  - unfold take_output. case_bool_decide as Hn; intros [= <- <-]; [split; [by exists n|by apply Hadd]|].
    split; [exists n; by apply conn_ok_out|]. exists []. split; [by cbn; rewrite app_nil_r|by apply speech_talk, speech_nil].
  - intros [= <- <-]. split; [exists n; by apply (conn_ok_out n c)|]. exists [farewell]. split; [done|apply farewell_talk].
Qed.

Lemma conversation_talk calls : ∀ n c taken taken' c',
  conn_ok n c → Forall call_ok calls → Initiate ∉ calls → conversation c taken calls = (taken', Ok c') →
  (∃ m, conn_ok m c') ∧ ∃ gs, taken' ++ out c' = taken ++ out c ++ written gs ∧ talk gs.
Proof.
  induction calls as [|o calls IH]; intros n c taken taken' c' Hc Hcalls Hi Hrun; cbn [conversation] in Hrun.
  { injection Hrun as <- <-. split; [by exists n|]. exists []. split; [by rewrite app_nil_r|by apply speech_talk, speech_nil]. }
  apply Forall_cons in Hcalls as [Ho Hcalls]. apply not_elem_of_cons in Hi as [Hne Hi].
  destruct (one_call c o) as [b [c1|]] eqn:Eo; [|done]. destruct (one_call_talk n c o b c1 Hc Ho (not_eq_sym Hne) Eo) as [[m Hm] (gs & Eg & Hg)].
  destruct (IH m c1 _ _ _ Hm Hcalls Hi Hrun) as [? (hs & Eh & Hh)]. split; [done|]. exists (gs ++ hs). split; [|by apply talk_app].
  rewrite Eh, written_app, <- !app_assoc. f_equal. by rewrite !app_assoc, Eg.
Qed.
(** Nothing is taken but by [take_output]. *)
Lemma conversation_taken calls : ∀ c taken taken' c',
  TakeOutput ∉ calls → conversation c taken calls = (taken', Ok c') → taken' = taken.
Proof.
  induction calls as [|o calls IH]; intros c taken taken' c' Hn Hrun; cbn [conversation] in Hrun; [by injection Hrun as <- _|].
  apply not_elem_of_cons in Hn as [Ho Hn]. destruct (one_call c o) as [b [c1|]] eqn:Eo; [|done]. apply IH in Hrun; [|done].
  assert (b = []) as ->; [|by rewrite app_nil_r in Hrun]. destruct o; try done; by injection Eo.
Qed.
Lemma conversation_app before after : ∀ c taken,
  conversation c taken (before ++ after) = let '(taken1, r) := conversation c taken before in match r with Ok c1 => conversation c1 taken1 after | Err e => (taken1, Err e) end.
Proof. induction before as [|o before IH]; intros c taken; [done|]. cbn [app conversation]. destruct (one_call c o) as [b [c1|e]]; [apply IH|done]. Qed.

(** C39: What a connection says reads back.  A connection is used, and fed what
    the peer sends, in any way; then it is initiated, before any of its output
    has been taken; then opening streams, feeding, pumping bodies, taking the
    output and saying goodbye are interleaved in any way.  Whatever the peer
    sends, before and after, the output taken and the output queued are the
    preface, the opening frames and a sequence of whole acknowledgements, window
    updates, DATA frames, GOAWAYs and uninterrupted header blocks: even the
    answers drawn by what came before [initiate] follow the preface.  And a
    reader that goes by nothing but the length in each frame header gets exactly
    those frames back, in order. *)
Theorem h2_speech_reads_back (before after : list call) (taken : bytes) (c : Connection) :
  Forall call_ok (before ++ after) → Initiate ∉ before ++ after → TakeOutput ∉ before →
  conversation new [] (before ++ Initiate :: after) = (taken, Ok c) →
  ∃ fs, talk fs ∧ take (length PREFACE) (taken ++ out c) = PREFACE ∧
    read_frames (length (opening ++ fs)) (drop (length PREFACE) (taken ++ out c)) = Some (opening ++ fs).
Proof.
  intros [Hb Ha]%Forall_app [Hib Hia]%not_elem_of_app Ht. rewrite conversation_app. destruct (conversation new [] before) as [taken1 [c1|]] eqn:Eb; [|done].
  destruct (conversation_talk before 0 new [] taken1 c1 new_ok Hb Hib Eb) as [[m Hm] (gs & Eg & Hg)]. apply conversation_taken in Eb as ->; [|done].
  cbn [conversation one_call]. intros Hrun. destruct (conversation_talk after m (initiate c1) [] taken c) as [_ (hs & Eh & Hh)]; [by apply (conn_ok_out m c1)|done..|].
  exists (gs ++ hs). split; [by apply talk_app|]. cbn [app] in Eg, Eh. rewrite initiate_out, Eg in Eh. change (out new) with (@nil Z) in Eh. cbn [app] in Eh.
  rewrite Eh, <- !app_assoc, take_app_length, drop_app_length. split; [done|]. rewrite !app_assoc, <- !written_app, <- app_assoc.
  apply read_frames_written; [|done]. apply Forall_app. split; [apply opening_fits|by apply talk_fits, talk_app].
Qed.

(** The peer's SETTINGS draw an acknowledgement before the preface is queued. *)
Definition sample_early : list call := [Feed [0; 0; 0; 4; 0; 0; 0; 0; 0]].
Definition sample_calls : list call :=
  [TakeOutput; StartStream [130; 132] [1; 2; 3]; Feed sample_bytes; TakeOutput; PumpBodies [1; 2; 3]; SendGoaway].
Definition sample_talk : bytes * Connection :=
  Eval vm_compute in match conversation new [] (sample_early ++ Initiate :: sample_calls) with (b, Ok c) => (b, c) | (b, _) => (b, new) end.
Lemma sample_calls_ok : Forall call_ok (sample_early ++ sample_calls).
Proof. apply Forall_cons_2; [by_decide|]. do 2 (apply Forall_cons_2; [done|]). apply Forall_cons_2; [apply sample_bytes_ok|]. repeat (apply Forall_cons_2; [done|]). apply Forall_nil_2. Qed.
Lemma h2_speech_reads_back_witness :
  conversation new [] (sample_early ++ Initiate :: sample_calls) = (sample_talk.1, Ok sample_talk.2) ∧
  match conversation new [] sample_early with (_, Ok c) => out c = [0; 0; 0; 4; 1; 0; 0; 0; 0] | _ => False end ∧
  ∃ fs, talk fs ∧ take (length PREFACE) (sample_talk.1 ++ out sample_talk.2) = PREFACE ∧
    read_frames (length (opening ++ fs)) (drop (length PREFACE) (sample_talk.1 ++ out sample_talk.2)) = Some (opening ++ fs).
Proof.
  assert (conversation new [] (sample_early ++ Initiate :: sample_calls) = (sample_talk.1, Ok sample_talk.2)) as Hrun by (vm_compute; reflexivity).
  split; [exact Hrun|]. split; [vm_compute; reflexivity|]. apply (h2_speech_reads_back sample_early sample_calls); [| | |exact Hrun].
  - apply sample_calls_ok.
  - repeat (apply not_elem_of_cons; split; [discriminate|]). apply not_elem_of_nil.
  - repeat (apply not_elem_of_cons; split; [discriminate|]). apply not_elem_of_nil.
Defined.
End http2_frames.
