(* ===== verification/Uring.v ===== *)
(** * The ring and the kernel behind it — [src/uring.rs], [src/buf_ring.rs], [src/shutdown.rs]

    Every worker owns one io_uring.  What it pushes and what it reads back are
    events of a history ([World]); the kernel and the io_uring crate are the
    parameter [Kernel], which answers every call from the history so far, so a
    theorem quantified over [Kernel] holds for every behaviour.  What the code
    relies on is a predicate on histories: [legal] says that a completion
    answers an operation that was queued and has not been answered for good, in
    the shape io_uring documents.

    [sq.sync] and [cq.sync] only publish and refresh the shared indices and have
    no counterpart.  A [Duration] is nanoseconds. *)

From S2P Require Import Prelude Effects.
From stdpp Require Import relations.
#[local] Open Scope Z_scope.

Module uring.

(** ** [user_data] *)

Definition OP_SEND : Z := 0.
Definition OP_RECV : Z := 1.
Definition OP_CONNECT : Z := 2.
Definition OP_CONNECT_TIMEOUT : Z := 3.
Definition CONN_IDX_BITS : Z := 20.
Definition GENERATION_BITS : Z := 64 - 2 - CONN_IDX_BITS.
Definition GENERATION_MASK : Z := Z.shiftl 1 GENERATION_BITS - 1.
Definition TIMEOUT_USER_DATA : Z := U64_MAX.

(** The two [debug_assert!]s are panics of a debug build; a release build drops
    the top bits, as here. *)
Definition user_data (conn_idx : nat) (generation op : Z) : Z :=
  Z.lor (Z.lor (u64 (Z.shiftl generation (2 + CONN_IDX_BITS))) (u64 (Z.shiftl (Z.of_nat conn_idx) 2))) op.

Definition decode_user_data (ud : Z) : Z * nat * Z :=
  let op := Z.land ud 3 in
  let conn_idx := Z.land (Z.shiftr ud 2) (Z.shiftl 1 CONN_IDX_BITS - 1) in
  let generation := Z.shiftr ud (2 + CONN_IDX_BITS) in
  (op, Z.to_nat conn_idx, generation).

(** [generation = (generation + 1) & GENERATION_MASK], as every worker's
    [close] does *)
Definition next_generation (g : Z) : Z := Z.land (u64 (g + 1)) GENERATION_MASK.

(** ** Batching *)

Definition WAIT_TIMEOUT : Z := 100 * 10 ^ 6.
Definition MAX_BATCH : Z := 8.
Definition MAX_BATCH_MULTIPLEXED : Z := 32.
Definition BATCH_SHARE : Z := 4.
Definition DEFAULT_BATCH_LINGER : Z := 500.

(** The three statics: [BATCH_LINGER], [BATCH_OVERRIDE], [MIN_TIMEOUT_OK]. *)
Record Settings := mkSettings { batch_linger : Z; override : Z; min_timeout_ok : bool }.

Definition batch_override (s : Settings) : option Z :=
  if negb (min_timeout_ok s) then None
  else if override s =? 0 then None else Some (override s).

Definition clamp (lo hi n : Z) : Z := Z.min hi (Z.max lo n).

Definition batch_size (s : Settings) (connections : Z) : Z :=
  match batch_override s with
  | Some n => n
  | None => if negb (min_timeout_ok s) then 1 else clamp 1 MAX_BATCH (connections / BATCH_SHARE)
  end.
Definition batch_size_multiplexed (s : Settings) (parallel : Z) : Z :=
  match batch_override s with
  | Some n => n
  | None => if negb (min_timeout_ok s) then 1 else clamp 1 MAX_BATCH_MULTIPLEXED (parallel / 2)
  end.

(** ** Queue entries, completions and the history *)

Inductive Entry : Type :=
| Connect (idx : nat) (ud : Z)
| LinkTimeout (ud : Z)
| Timeout (ud after : Z)
| Send (idx : nat) (ud : Z) (data : bytes)
| SendMsg (idx : nat) (ud : Z) (data : bytes) (segment_size : Z)
| RecvSingle (idx : nat) (ud : Z)
| RecvMulti (idx : nat) (ud : Z)
| RecvMsgMulti (idx : nat) (ud : Z).
#[global] Instance Entry_eq_dec : EqDecision Entry.
Proof. solve_decision. Defined.

Definition entry_ud (e : Entry) : Z :=
  match e with
  | Connect _ ud | LinkTimeout ud | Timeout ud _ | Send _ ud _ | SendMsg _ ud _ _
  | RecvSingle _ ud | RecvMulti _ ud | RecvMsgMulti _ ud => ud
  end.

(** A completion: [cqueue::more] and [cqueue::buffer_select] of its flags. *)
Record Cqe := mkCqe { cqe_ud : Z; cqe_result : Z; cqe_more : bool; cqe_buffer : option Z }.

(** What a system call returns: a count, or an error number. *)
Inductive io : Type := IoOk (n : nat) | IoErr (errno : Z).

Inductive cancel_target : Type := ByFile (idx : nat) | ByUserData (ud : Z) | Everything.

(** What happens to the ring, as the kernel and the theorems see it; [Asked] is
    not a call, but a note that the connection that sends under [ud] was given a
    request to send. *)
Inductive Event : Type :=
| Pushed (e : Entry)
| Submitted (r : io) (consumed : nat)
| Waited (want : Z) (min_wait : option Z) (max_wait : Z) (r : io) (consumed : nat)
| Reaped (c : Cqe)
| Cancelled (t : cancel_target) (r : io)
| Registered (idx : nat) (fd : Z) (r : io)
| Opened (r : res Z)
| Closed (fd : Z)
| RawSent (fd : Z) (data : bytes)
| Recycled (bid : Z)
| Asked (ud : Z).

(** The newest event first; [sq] is what was pushed and not yet consumed. *)
Record World := mkWorld { hist : list Event; sq : list Entry }.
#[global] Instance World_eta : Eta World := λ w, mkWorld (hist w) (sq w).

Class Kernel := {
  capacity : nat;
  k_submit : World → io * nat;
  k_wait : World → Z → option Z → Z → io * nat;
  k_completions : World → list Cqe;
  k_cancel : World → cancel_target → io;
  k_register : World → nat → Z → io;
  k_socket : World → res Z;
  k_now : World → Z;
  k_shutdown : World → bool;
  k_buffer : World → Z → bytes;
}.

Definition EINTR : Z := 4.
Definition ENOENT : Z := 2.
Definition ETIME : Z := 62.
Definition ENOBUFS : Z := 105.
Definition EMSGSIZE : Z := 90.

(** ** What the kernel owes *)

(** Take one operation with this [user_data] off the list. *)
Fixpoint remove_ud (ud : Z) (es : list Entry) : list Entry :=
  match es with
  | [] => []
  | e :: es' => if entry_ud e =? ud then es' else e :: remove_ud ud es'
  end.
Definition with_ud (ud : Z) (es : list Entry) : list Entry := List.filter (λ e, entry_ud e =? ud) es.

(** The operations that have not completed for good. *)
Fixpoint outstanding (h : list Event) : list Entry :=
  match h with
  | [] => []
  | Pushed e :: h' => e :: outstanding h'
  | Reaped c :: h' => if cqe_more c then outstanding h' else remove_ud (cqe_ud c) (outstanding h')
  | _ :: h' => outstanding h'
  end.

(** What a completion may say of the operation it answers: only a multishot
    receive has [MORE], and an error ends it; a send takes at most what it was given; bytes received
    come in a buffer that holds them. *)
Definition answers (c : Cqe) (e : Entry) : Prop :=
  entry_ud e = cqe_ud c ∧
  match e with
  | Connect _ _ | LinkTimeout _ | Timeout _ _ => cqe_more c = false
  | Send _ _ data | SendMsg _ _ data _ => cqe_more c = false ∧ cqe_result c ≤ zlen data
  | RecvSingle _ _ => cqe_more c = false ∧ (0 < cqe_result c → is_Some (cqe_buffer c))
  | RecvMulti _ _ | RecvMsgMulti _ _ =>
      (cqe_more c = true → 0 ≤ cqe_result c) ∧ (0 < cqe_result c → is_Some (cqe_buffer c))
  end.

(** Every completion answers an operation that is outstanding, and every socket
    that was opened has a descriptor. *)
Fixpoint legal (h : list Event) : Prop :=
  match h with
  | [] => True
  | Reaped c :: h' => (∃ e, e ∈ outstanding h' ∧ answers c e) ∧ legal h'
  | Opened (Ok fd) :: h' => 0 ≤ fd ∧ legal h'
  | _ :: h' => legal h'
  end.

(** ** The calls *)

Section calls.
Context `{Kernel}.

Definition log (e : Event) : eff World error unit := modify (λ w, w <| hist := e :: hist w |>).

(** [submitter.submit()] *)
Definition submit : eff World error io :=
  w ← get;
  let '(r, n) := k_submit w in
  _ ← modify (λ w, w <| sq := drop n (sq w) |>);
  _ ← log (Submitted r n);
  mret r.

(** [sq.push]: whether there was room *)
Definition sq_push (e : Entry) : eff World error bool :=
  w ← get;
  if (length (sq w) <? capacity)%nat then
    _ ← modify (λ w, w <| sq := sq w ++ [e] |>); _ ← log (Pushed e); mret true
  else mret false.

(** [submit().context("io_uring submit failed")] *)
Definition submit_or_fail (msg : string) : eff World error unit :=
  r ← submit; match r with IoOk _ => mret tt | IoErr _ => lift (bail msg) end.

Definition push_sqe (e : Entry) : eff World error unit :=
  ok ← sq_push e;
  if (ok : bool) then mret tt
  else
    _ ← submit_or_fail "io_uring submit failed";
    ok ← sq_push e;
    if (ok : bool) then mret tt else lift (bail "submission queue full after submit").

Definition push_send_slice (conn_idx : nat) (generation : Z) (data : bytes) : eff World error unit :=
  push_sqe (Send conn_idx (user_data conn_idx generation OP_SEND) data).
Definition push_recv_single (conn_idx : nat) (generation : Z) : eff World error unit :=
  push_sqe (RecvSingle conn_idx (user_data conn_idx generation OP_RECV)).
Definition push_recv_multi (conn_idx : nat) (generation : Z) : eff World error unit :=
  push_sqe (RecvMulti conn_idx (user_data conn_idx generation OP_RECV)).
Definition push_recvmsg_multi (conn_idx : nat) (generation : Z) : eff World error unit :=
  push_sqe (RecvMsgMulti conn_idx (user_data conn_idx generation OP_RECV)).

Definition arm_deadline (deadline : option Z) : eff World error unit :=
  match deadline with
  | None => mret tt
  | Some after => push_sqe (Timeout TIMEOUT_USER_DATA after)
  end.

(** [submitter.register_files_update(idx, &[fd])] *)
Definition register_files_update (idx : nat) (fd : Z) (msg : string) : eff World error unit :=
  w ← get;
  let r := k_register w idx fd in
  _ ← log (Registered idx fd r);
  match r with IoOk _ => mret tt | IoErr _ => lift (bail msg) end.

(** [make_socket], [make_udp_socket]: the socket options and [connect] of the
    latter are the kernel's business *)
Definition make_socket : eff World error Z :=
  w ← get;
  let r := k_socket w in
  _ ← log (Opened r);
  lift r.

(** Dropping an owned socket. *)
Definition close_fd (fd : Z) : eff World error unit := log (Closed fd).

(** A socket that is dropped unless what follows succeeds. *)
Definition guarded (fd : Z) (m : eff World error unit) : eff World error Z := λ w,
  match m w with
  | (Ok _, w') => (Ok fd, w')
  | (Err e, w') => (Err e, (close_fd fd w').2)
  end.

(** Room for the connect and its timeout, then the pair of them. *)
Definition queue_connect (conn_idx : nat) (generation fd : Z) : eff World error unit :=
  w ← get;
  _ ← when (capacity - length (sq w) <? 2)%nat (submit_or_fail "io_uring submit failed");
  w ← get;
  if (capacity - length (sq w) <? 2)%nat then lift (bail "submission queue full")
  else
    _ ← register_files_update conn_idx fd "register_files_update failed";
    w ← get;
    if (capacity - length (sq w) <? 2)%nat then lift (panic "reserved space for the connect pair")
    else
      let connect := Connect conn_idx (user_data conn_idx generation OP_CONNECT) in
      let timeout := LinkTimeout (user_data conn_idx generation OP_CONNECT_TIMEOUT) in
      _ ← modify (λ w, w <| sq := sq w ++ [connect; timeout] |>);
      _ ← log (Pushed connect);
      log (Pushed timeout).
Definition start_connect (conn_idx : nat) (generation : Z) : eff World error Z :=
  fd ← make_socket; guarded fd (queue_connect conn_idx generation fd).

(** [submit_and_wait_timeout]: a timeout and a signal return no completions *)
Definition submit_and_wait_timeout (s : Settings) (max_wait min_complete : Z) : eff World error unit :=
  let want := Z.max 1 min_complete in
  let min_wait := if 1 <? want then Some (batch_linger s) else None in
  w ← get;
  let '(r, n) := k_wait w want min_wait max_wait in
  _ ← modify (λ w, w <| sq := drop n (sq w) |>);
  _ ← log (Waited want min_wait max_wait r n);
  match r with
  | IoOk _ => mret tt
  | IoErr e => if (e =? ETIME) || (e =? EINTR) then mret tt else lift (bail "submit_and_wait failed")
  end.

(** The loop that empties the submission queue before a socket is retired; a
    turn either consumes entries or was interrupted. *)
Fixpoint drain_sq (fuel : nat) (stuck failed : string) : eff World error unit :=
  w ← get;
  if bool_decide (sq w = []) then mret tt
  else match fuel with
       | O => lift (panic "out of fuel")
       | S fuel' =>
           r ← submit;
           match r with
           | IoOk O => lift (bail stuck)
           | IoOk _ => drain_sq fuel' stuck failed
           | IoErr e => if e =? EINTR then drain_sq fuel' stuck failed else lift (bail failed)
           end
       end.

(** [register_sync_cancel]: nothing left to cancel is no error *)
Definition sync_cancel (t : cancel_target) (failed : string) : eff World error unit :=
  w ← get;
  let r := k_cancel w t in
  _ ← log (Cancelled t r);
  match r with
  | IoOk _ => mret tt
  | IoErr e => if e =? ENOENT then mret tt else lift (bail failed)
  end.

(** [libc::send] on the raw descriptor, its result ignored *)
Definition raw_send (fd : Z) (data : bytes) : eff World error unit := log (RawSent fd data).
End calls.

(** ** Facts *)

Lemma decode_user_data_encoded i g op :
  Z.of_nat i < 2 ^ CONN_IDX_BITS → 0 ≤ g < 2 ^ GENERATION_BITS → 0 ≤ op < 4 →
  decode_user_data (user_data i g op) = (op, i, g).
Proof.
  unfold CONN_IDX_BITS, GENERATION_BITS, CONN_IDX_BITS. intros Hi Hg Hop.
  assert (user_data i g op = op + Z.of_nat i * 4 + g * 2 ^ 22) as E.
  { unfold user_data, CONN_IDX_BITS. rewrite !Z.shiftl_mul_pow2 by lia. rewrite !u64_small by lia.
    rewrite (Z.lor_comm _ op), (Z.lor_comm (g * _)), Z.lor_assoc.
    rewrite (lor_disjoint op (Z.of_nat i) 2) by lia. rewrite (lor_disjoint _ g (2 + 20)) by lia. lia. }
  unfold decode_user_data, CONN_IDX_BITS. rewrite E. rewrite (land_mask _ 2), !shiftr_div by lia.
  rewrite Z.shiftl_mul_pow2, Z.mul_1_l, (land_mask _ 20) by lia.
  assert ((op + Z.of_nat i * 4 + g * 2 ^ 22) mod 2 ^ 2 = op) as ->.
  { symmetry. apply Z.mod_unique with (Z.of_nat i + g * 2 ^ 20); lia. }
  assert ((op + Z.of_nat i * 4 + g * 2 ^ 22) / 2 ^ 2 = Z.of_nat i + g * 2 ^ 20) as ->.
  { symmetry. apply Z.div_unique with op; lia. }
  assert ((op + Z.of_nat i * 4 + g * 2 ^ 22) / 2 ^ (2 + 20) = g) as ->.
  { symmetry. apply Z.div_unique with (op + Z.of_nat i * 4); lia. }
  assert ((Z.of_nat i + g * 2 ^ 20) mod 2 ^ 20 = Z.of_nat i) as ->.
  { symmetry. apply Z.mod_unique with g; lia. }
  by rewrite Nat2Z.id.
Qed.
End uring.

(** * The provided buffers — [src/buf_ring.rs] *)

Module buf_ring.

Definition RECV_BUF_SIZE : Z := 16 * 1024.

(** [struct BufRing]: [slots] is the entry array shared with the kernel, each
    entry the address (relative to [data]), the length and the id of a buffer. *)
Record BufRing := mkBufRing {
  slots : list (Z * Z * Z);
  entries : Z;
  mask : Z;
  tail : Z;
  buffer_size : Z;
}.
#[global] Instance BufRing_eta : Eta BufRing := λ b, mkBufRing (slots b) (entries b) (mask b) (tail b) (buffer_size b).

Definition push_entry (b : BufRing) (bid : Z) : BufRing :=
  let idx := Z.to_nat (Z.land (tail b) (mask b)) in
  b <| slots := <[idx := (bid * buffer_size b, buffer_size b, bid)]> (slots b) |>
    <| tail := u16 (tail b + 1) |>.

Fixpoint seed (n : nat) (bid : Z) (b : BufRing) : BufRing :=
  match n with O => b | S n' => seed n' (bid + 1) (push_entry b bid) end.

Definition is_power_of_two (n : Z) : bool := (0 <? n) && (Z.land n (n - 1) =? 0).

(** [BufRing::with_buffer_size]: the allocation succeeds; [assert!] panics *)
Definition with_buffer_size (entries buffer_size : Z) : res BufRing :=
  if negb (is_power_of_two entries) then panic "assertion failed"
  else if negb ((0 <? buffer_size) && (buffer_size <=? U32_MAX)) then panic "assertion failed"
  else Ok (seed (Z.to_nat entries) 0
             (mkBufRing (replicate (Z.to_nat entries) (0, 0, 0)) entries (entries - 1) 0 buffer_size)).
Definition new (entries : Z) : res BufRing := with_buffer_size entries RECV_BUF_SIZE.

(** The range of [data] a completion's buffer stands for. *)
Definition data_range (b : BufRing) (bid len : Z) : res (Z * Z) :=
  if negb ((bid <? entries b) && (len <=? buffer_size b)) then panic "assertion failed"
  else let off := bid * buffer_size b in Ok (off, off + len).

Definition recycle (b : BufRing) (bid : Z) : BufRing := push_entry b bid.

(** ** The buffers and the kernel *)

(** Who has which buffer: the kernel takes the entry at [taken] and reports its
    id; the worker gives back a buffer it holds. *)
Record Shared := mkShared { ring : BufRing; taken : Z; given : Z; held : list Z }.

Inductive step : Shared → Shared → Prop :=
| Take s addr len bid :
    taken s < given s →
    slots (ring s) !! Z.to_nat (taken s mod entries (ring s)) = Some (addr, len, bid) →
    step s (mkShared (ring s) (taken s + 1) (given s) (bid :: held s))
| Return s bid pre post :
    held s = pre ++ bid :: post →
    step s (mkShared (recycle (ring s) bid) (taken s) (given s + 1) (pre ++ post)).

Definition start (b : BufRing) : Shared := mkShared b 0 (entries b) [].

(** The entries the kernel may take, oldest first. *)
Definition window (s : Shared) : list (Z * Z * Z) :=
  omap (λ i, slots (ring s) !! Z.to_nat (i mod entries (ring s))) (seqZ (taken s) (given s - taken s)).

(** The id of an entry, which must be in range and name its own memory. *)
Definition entry_of (b : BufRing) (bid : Z) : Z * Z * Z := (bid * buffer_size b, buffer_size b, bid).

Record inv (s : Shared) : Prop := {
  i_power : ∃ k, 0 ≤ k ≤ 15 ∧ entries (ring s) = 2 ^ k;
  i_mask : mask (ring s) = entries (ring s) - 1;
  i_slots : zlen (slots (ring s)) = entries (ring s);
  i_tail : tail (ring s) = u16 (given s);
  i_bids : ∃ bids, window s = entry_of (ring s) <$> bids ∧ bids ++ held s ≡ₚ seqZ 0 (entries (ring s));
  i_given : taken s ≤ given s;
}.

Lemma land_mask_pow a k : 0 ≤ k → Z.land a (2 ^ k - 1) = a mod 2 ^ k.
Proof. apply land_mask. Qed.

Lemma slot_index t k : 0 ≤ k ≤ 16 → Z.land (u16 t) (2 ^ k - 1) = t mod 2 ^ k.
Proof.
  intros Hk. rewrite land_mask_pow by lia. unfold u16. apply Z.mod_mod_divide.
  exists (2 ^ (16 - k)). rewrite <- Z.pow_add_r by lia. f_equal. lia.
Qed.

Section ring_facts.
Variable s : Shared.
Hypothesis Hs : inv s.

Lemma entries_pos : 0 < entries (ring s).
Proof. destruct (i_power s Hs) as (k & ? & ->). lia. Qed.

Lemma slot_some i : is_Some (slots (ring s) !! Z.to_nat (i mod entries (ring s))).
Proof.
  apply lookup_lt_is_Some. pose proof (i_slots s Hs) as Hl. unfold zlen in Hl. pose proof entries_pos.
  pose proof (Z.mod_pos_bound i (entries (ring s)) ltac:(lia)). lia.
Qed.

Lemma omap_length {A B} (f : A → option B) (l : list A) : (∀ x, is_Some (f x)) → length (omap f l) = length l.
Proof.
  intros Hf. induction l as [|x l IH]; [done|]. cbn. destruct (Hf x) as [y Hy]. rewrite Hy. cbn. by rewrite IH.
Qed.
Lemma window_length : zlen (window s) = given s - taken s.
Proof.
  unfold window, zlen. rewrite omap_length by apply slot_some. rewrite length_seqZ. pose proof (i_given s Hs). lia.
Qed.

Lemma places : given s - taken s + zlen (held s) = entries (ring s).
Proof.
  destruct (i_bids s Hs) as (bids & Hw & Hp). rewrite <- window_length, Hw. apply Permutation_length in Hp.
  rewrite length_app, length_seqZ in Hp. unfold zlen. rewrite length_fmap. pose proof entries_pos. lia.
Qed.

Lemma held_facts : NoDup (held s) ∧ Forall (λ bid, 0 ≤ bid < entries (ring s)) (held s).
Proof.
  destruct (i_bids s Hs) as (bids & _ & Hp).
  assert (NoDup (bids ++ held s)) as Hnd by (rewrite Hp; apply NoDup_seqZ). apply NoDup_app in Hnd as (_ & _ & Hnd).
  split; [done|]. apply Forall_forall. intros bid Hb. assert (bid ∈ seqZ 0 (entries (ring s))) as Hin.
  { rewrite <- Hp. apply elem_of_app. by right. }
  apply elem_of_seqZ in Hin. lia.
Qed.
End ring_facts.

Lemma omap_ext_in {A B} (f g : A → option B) (l : list A) : (∀ x, x ∈ l → f x = g x) → omap f l = omap g l.
Proof.
  induction l as [|x l IH]; intros Hfg; [done|]. cbn. rewrite (Hfg x) by left. destruct (g x); [f_equal|];
    apply IH; intros y Hy; apply Hfg; by right.
Qed.

(** An index of the window is not the index the next entry goes to. *)
Lemma other_slot i t e g : 0 < e → t ≤ i < g → g - t < e → i mod e ≠ g mod e.
Proof.
  intros He Hi Hg Heq. pose proof (Z.div_mod i e ltac:(lia)). pose proof (Z.div_mod g e ltac:(lia)).
  set (q := g / e - i / e). assert (q * e = g - i) as Hq by (subst q; lia). clearbody q.
  destruct (Z.le_gt_cases q 0); nia.
Qed.

Lemma buf_step_inv s s' : inv s → step s s' → inv s'.
Proof.
  intros Hs Hst. pose proof (entries_pos s Hs) as He. pose proof (places s Hs) as Hpl.
  destruct (i_power s Hs) as (k & Hk & Hpow). destruct (i_bids s Hs) as (bids & Hw & Hp). destruct Hst as [s addr len bid Hlt Hslot|s bid pre post Hheld].
  - constructor; cbn; [by exists k|apply Hs..| |lia].
    unfold window in Hw |- *. cbn. rewrite seqZ_cons in Hw by lia. cbn in Hw. rewrite Hslot in Hw. cbn in Hw.
    destruct bids as [|b bids]; [done|]. cbn in Hw. injection Hw as _ _ <- Hw.
    exists bids. split; [by replace (given s - (taken s + 1)) with (Z.pred (given s - taken s)) by lia; replace (taken s + 1) with (Z.succ (taken s)) by lia|].
    rewrite <- Hp. cbn. symmetry. apply Permutation_middle.
  - assert (given s - taken s < entries (ring s)) as Hroom.
    { rewrite Hheld in Hpl. unfold zlen in Hpl. rewrite length_app in Hpl. cbn in Hpl. lia. }
    pose proof (i_given s Hs). pose proof (i_slots s Hs) as Hsl.
    assert (Z.land (tail (ring s)) (mask (ring s)) = given s mod entries (ring s)) as Hidx.
    { rewrite (i_tail s Hs), (i_mask s Hs), Hpow. apply slot_index. lia. }
    pose proof (Z.mod_pos_bound (given s) (entries (ring s)) ltac:(lia)) as Hmod.
    constructor; cbn; [by exists k|apply Hs| | | |lia].
    + unfold zlen in *. by rewrite length_insert.
    + rewrite (i_tail s Hs). unfold u16. rewrite Zplus_mod_idemp_l. done.
    + exists (bids ++ [bid]). split.
      * unfold window, recycle, push_entry. cbn. rewrite Hidx. replace (given s + 1 - taken s) with ((given s - taken s) + 1) by lia.
        rewrite seqZ_app by lia. rewrite omap_app, fmap_app. f_equal.
        -- etrans; [|exact Hw]. apply omap_ext_in. intros i Hi%elem_of_seqZ. rewrite list_lookup_insert_ne; [done|].
           pose proof (Z.mod_pos_bound i (entries (ring s)) ltac:(lia)).
           pose proof (other_slot i (taken s) (entries (ring s)) (given s) He ltac:(lia) Hroom). lia.
        -- replace (taken s + (given s - taken s)) with (given s) by lia. rewrite seqZ_cons by lia. cbn.
           rewrite list_lookup_insert_eq; [done|]. unfold zlen in Hsl. lia.
      * rewrite <- Hp, Hheld. rewrite <- app_assoc. f_equiv. cbn. apply Permutation_middle.
Qed.

Lemma seed_slots n : ∀ e bs bid,
  (∃ k, 0 ≤ k ≤ 15 ∧ e = 2 ^ k) → 0 ≤ bid → bid + Z.of_nat n = e →
  seed n bid (mkBufRing ((entry_of (mkBufRing [] e 0 0 bs) <$> seqZ 0 bid) ++ replicate n (0, 0, 0)) e (e - 1) bid bs) =
  mkBufRing (entry_of (mkBufRing [] e 0 0 bs) <$> seqZ 0 e) e (e - 1) e bs.
Proof.
  induction n as [|n IH]; intros e bs bid Hk Hb He; cbn [seed].
  { rewrite app_nil_r. f_equal; [|lia]. do 2 f_equal. lia. }
  destruct Hk as (k & Hk & Hpow). unfold push_entry. cbn.
  assert (Z.land bid (e - 1) = bid) as ->.
  { rewrite Hpow, land_mask_pow by lia. apply Z.mod_small. lia. }
  assert (u16 (bid + 1) = bid + 1) as ->.
  { apply u16_small. assert (2 ^ k ≤ 2 ^ 15) by (apply Z.pow_le_mono_r; lia). lia. }
  rewrite <- (IH e bs (bid + 1)); [|by exists k|lia|lia]. f_equal. f_equal.
  rewrite insert_app_r_alt by (rewrite length_fmap, length_seqZ; lia).
  rewrite length_fmap, length_seqZ. replace (Z.to_nat bid - Z.to_nat bid)%nat with 0%nat by lia. cbn [insert list_insert replicate].
  rewrite seqZ_app, fmap_app by lia. by rewrite <- app_assoc.
Qed.

Lemma power_of_two e : is_power_of_two e = true → ∃ k, 0 ≤ k ∧ e = 2 ^ k.
Proof.
  unfold is_power_of_two. intros [He%Z.ltb_lt Hl%Z.eqb_eq]%andb_prop. exists (Z.log2 e). split; [apply Z.log2_nonneg|].
  destruct (Z.log2_spec e He) as [Hlo Hhi]. destruct (Z.eq_dec e (2 ^ Z.log2 e)) as [?|Hne]; [done|exfalso].
  set (k := Z.log2 e) in *. assert (Z.testbit (Z.land e (e - 1)) k = true) as Ht; [|by rewrite Hl, Z.bits_0 in Ht].
  pose proof (Z.log2_nonneg e). fold k in H. rewrite Z.land_spec. rewrite Z.pow_succ_r in Hhi by lia.
  apply andb_true_iff. rewrite !Z.testbit_true by lia. split.
  - replace (e / 2 ^ k) with 1; [done|]. apply Z.div_unique with (e - 2 ^ k); lia.
  - replace ((e - 1) / 2 ^ k) with 1; [done|]. apply Z.div_unique with (e - 1 - 2 ^ k); lia.
Qed.

Lemma start_inv e bs b : e < 2 ^ 16 → with_buffer_size e bs = Ok b → inv (start b).
Proof.
  intros He. unfold with_buffer_size. destruct (is_power_of_two e) eqn:Hp; [|done]. cbn [negb].
  destruct (negb _); [done|]. intros [= <-].
  assert (∃ k, 0 ≤ k ≤ 15 ∧ e = 2 ^ k) as Hk.
  { apply power_of_two in Hp as (k & Hk & ->). exists k. split; [|done]. split; [done|].
    apply Z.pow_lt_mono_r_iff in He; lia. }
  pose proof Hk as (k & Hk0 & Hk1).
  pose proof (seed_slots (Z.to_nat e) e bs 0 Hk ltac:(lia) ltac:(lia)) as Hseed. cbn [seqZ Z.to_nat fmap list_fmap app] in Hseed.
  change (seqZ 0 0) with (@nil Z) in Hseed. cbn [fmap list_fmap app] in Hseed. rewrite Hseed. constructor; cbn.
  - exact Hk.
  - done.
  - unfold zlen. rewrite length_fmap, length_seqZ. lia.
  - symmetry. apply u16_small. lia.
  - exists (seqZ 0 e). rewrite app_nil_r. split; [|done]. unfold window. cbn. rewrite Z.sub_0_r.
    set (f := entry_of _). change (entry_of _) with f. apply list_eq. intros i.
    rewrite list_lookup_fmap.
    assert (∀ l, (∀ x, x ∈ l → 0 ≤ x < e) → omap (λ i, (f <$> seqZ 0 e) !! Z.to_nat (i mod e)) l = f <$> l) as ->.
    { induction l as [|x l IH]; intros Hx; [done|]. cbn. rewrite Z.mod_small by (apply Hx; left).
      rewrite list_lookup_fmap, lookup_seqZ_lt by (specialize (Hx x ltac:(left)); lia). cbn.
      rewrite IH by (intros; apply Hx; by right). do 2 f_equal. specialize (Hx x ltac:(left)). lia. }
    + by rewrite list_lookup_fmap.
    + intros x Hx%elem_of_seqZ. lia.
  - lia.
Qed.

(** C34: No receive buffer is lost, shared or overwritten.  Whatever the order
    in which the kernel fills buffers and the worker returns them, every buffer
    is in exactly one place, in the ring or with the worker; returning one never
    overwrites an entry the kernel may still take; and the buffers the worker
    holds pass the bounds checks of [data] and are disjoint ranges of it, none
    of them offered to the kernel. *)
Theorem buffers_conserved e bs b s :
  e < 2 ^ 16 → with_buffer_size e bs = Ok b → rtc step (start b) s →
  given s - taken s + zlen (held s) = entries (ring s) ∧
  (∀ bid len, bid ∈ held s → 0 ≤ len ≤ buffer_size (ring s) →
     data_range (ring s) bid len = Ok (bid * buffer_size (ring s), bid * buffer_size (ring s) + len) ∧
     (0 ≤ bid < entries (ring s))) ∧
  (∀ i j bid bid', held s !! i = Some bid → held s !! j = Some bid' → i ≠ j → bid ≠ bid') ∧
  (∀ addr len bid, (addr, len, bid) ∈ window s →
     addr = bid * buffer_size (ring s) ∧ len = buffer_size (ring s) ∧ bid ∉ held s).
Proof.
  intros He Hb Hsteps. assert (inv s) as Hs.
  { apply (start_inv e bs b He) in Hb. revert Hb. induction Hsteps as [|s1 s2 s3 Hst _ IH]; [done|].
    intros H1. by apply IH, (buf_step_inv s1). }
  destruct (held_facts s Hs) as [Hnd Hr]. rewrite Forall_forall in Hr. split_and!; [by apply places| | |].
  - intros bid len Hin Hlen. pose proof (Hr bid Hin) as Hbid. split; [|done]. unfold data_range.
    by rewrite (proj2 (Z.ltb_lt _ _)), (proj2 (Z.leb_le _ _)) by lia.
  - intros i j x y Hi Hj Hij ->. by apply Hij, (NoDup_lookup (held s) i j y).
  - intros addr len bid Hin. destruct (i_bids s Hs) as (bids & Hw & Hp). rewrite Hw in Hin.
    apply list_elem_of_fmap in Hin as (x & [= -> -> ->] & Hx). split_and!; [done|done|].
    assert (NoDup (bids ++ held s)) as Hall by (rewrite Hp; apply NoDup_seqZ).
    apply NoDup_app in Hall as (_ & Hdis & _). by apply Hdis.
Qed.

Definition two_buffers : BufRing := mkBufRing [(0, 8, 0); (8, 8, 1)] 2 1 2 8.
Lemma buffers_conserved_witness :
  with_buffer_size 2 8 = Ok two_buffers ∧
  ∃ s, rtc step (start two_buffers) s ∧ held s = [1] ∧ given s - taken s + zlen (held s) = 2.
Proof.
  split; [reflexivity|]. exists (mkShared (recycle two_buffers 0) 2 3 [1]).
  assert (rtc step (start two_buffers) (mkShared (recycle two_buffers 0) 2 3 [1])) as Hst.
  { eapply rtc_l; [by eapply (Take _ 0 8 0)|]. eapply rtc_l; [by eapply (Take _ 8 8 1)|].
    eapply rtc_l; [by eapply (Return _ 0 [1] [])|]. apply rtc_refl. }
  split_and!; [exact Hst|reflexivity|].
  exact (proj1 (buffers_conserved 2 8 two_buffers _ ltac:(reflexivity) eq_refl Hst)).
Defined.
End buf_ring.
