(* ===== verification/UringRun.v ===== *)
(** * Runs over the ring

    What a worker's theorems share: the operations a history leaves outstanding
    under one [user_data] ([ops]), the bytes the kernel has accepted under it
    ([wire]), and what each call of [Uring] does to them.  The histories the
    theorems are about are [sound]: what the kernel owes holds ([legal]), and
    the run is not so long that a connection's generation comes round again. *)

From S2P Require Import Prelude Effects Uring.
From stdpp Require Import relations.
#[local] Open Scope Z_scope.

Module uring_run.
Import uring.

(** ** Histories *)

Definition ops (ud : Z) (h : list Event) : list Entry := with_ud ud (outstanding h).

(** What the kernel has taken of the sends under [ud], in order. *)
Fixpoint wire (ud : Z) (h : list Event) : bytes :=
  match h with
  | [] => []
  | Reaped c :: h' =>
      wire ud h' ++
      (if cqe_ud c =? ud then
         match ops ud h' with Send _ _ d :: _ => take (Z.to_nat (cqe_result c)) d | _ => [] end
       else [])
  | _ :: h' => wire ud h'
  end.

(** What the kernel had taken under [ud] whenever the connection was given a
    request to send, the last one first. *)
Fixpoint asks (ud : Z) (h : list Event) : list bytes :=
  match h with
  | [] => []
  | Asked u :: h' => if u =? ud then wire ud h' :: asks ud h' else asks ud h'
  | _ :: h' => asks ud h'
  end.
Lemma asks_prefix ud h b : b ∈ asks ud h → b `prefix_of` wire ud h.
Proof.
  induction h as [|e h IH]; [by intros ?%not_elem_of_nil|]. destruct e; cbn [asks wire]; try exact IH.
  - intros Hb. etrans; [by apply IH|by apply prefix_app_r].
  - destruct (_ =? _); [|exact IH]. intros [-> |Hb]%elem_of_cons; [done|by apply IH].
Qed.

Definition sound (h : list Event) : Prop := legal h ∧ Z.of_nat (length h) < 2 ^ GENERATION_BITS - 1.

Definition grows (w w' : World) : Prop := hist w `suffix_of` hist w'.
#[global] Instance grows_preorder : PreOrder grows.
Proof. split; [intros w|intros w1 w2 w3]; unfold grows; [done|by intros; etrans]. Qed.

Lemma legal_suffix h h' : h `suffix_of` h' → legal h' → legal h.
Proof.
  intros [l ->]. induction l as [|e l IH]; [done|]. cbn. intros Hl. apply IH.
  destruct e as [| | | | | |[]| | | |]; cbn in Hl; try done; by destruct Hl.
Qed.
Lemma sound_suffix h h' : h `suffix_of` h' → sound h' → sound h.
Proof.
  intros Hs [Hl Hn]. split; [by eapply legal_suffix|]. apply suffix_length in Hs. lia.
Qed.

(** What a call did: these entries queued, newest first, and nothing reaped. *)
Record did (es : list Entry) (h h' : list Event) : Prop := {
  did_suffix : h `suffix_of` h';
  did_outstanding : outstanding h' = es ++ outstanding h;
  did_wire ud : wire ud h' = wire ud h;
  did_asks ud : asks ud h' = asks ud h;
}.

Lemma did_nothing h : did [] h h.
Proof. by split. Qed.
Lemma did_trans es es' h h' h'' : did es h h' → did es' h' h'' → did (es' ++ es) h h''.
Proof.
  intros [? Ho Hw Ha] [? Ho' Hw' Ha']. split; [by etrans|by rewrite Ho', Ho, app_assoc|..]; intros ud; [by rewrite Hw', Hw|by rewrite Ha', Ha].
Qed.
Lemma did_trans_nil es h h' h'' : did es h h' → did [] h' h'' → did es h h''.
Proof. intros H1 H2. exact (did_trans _ _ _ _ _ H1 H2). Qed.
Lemma did_trans_nil_l es h h' h'' : did [] h h' → did es h' h'' → did es h h''.
Proof. intros H1 H2. rewrite <- (app_nil_r es). exact (did_trans _ _ _ _ _ H1 H2). Qed.
Lemma did_push e h : did [e] h (Pushed e :: h).
Proof. split; [by exists [Pushed e]|done..]. Qed.

(** Events that leave the operations alone. *)
Definition neutral (e : Event) : bool := match e with Pushed _ | Reaped _ | Asked _ => false | _ => true end.
Lemma did_neutral e h : neutral e = true → did [] h (e :: h).
Proof. intros He. split; [by exists [e]|by destruct e..]. Qed.

Lemma with_ud_app ud es es' : with_ud ud (es ++ es') = with_ud ud es ++ with_ud ud es'.
Proof. apply List.filter_app. Qed.
Lemma did_ops es h h' ud : did es h h' → ops ud h' = with_ud ud es ++ ops ud h.
Proof. intros [_ Ho _ _]. unfold ops. by rewrite Ho, with_ud_app. Qed.
Lemma with_ud_other ud es : Forall (λ e, entry_ud e ≠ ud) es → with_ud ud es = [].
Proof.
  induction 1 as [|e es He _ IH]; [done|]. unfold with_ud in *. cbn. by rewrite (proj2 (Z.eqb_neq _ _) He).
Qed.
Lemma with_ud_same ud e : entry_ud e = ud → with_ud ud [e] = [e].
Proof. intros <-. unfold with_ud. cbn. by rewrite Z.eqb_refl. Qed.
Lemma with_ud_cons_ne ud e es : entry_ud e ≠ ud → with_ud ud (e :: es) = with_ud ud es.
Proof. intros He. unfold with_ud. cbn. by rewrite (proj2 (Z.eqb_neq _ _) He). Qed.
Lemma elem_of_ops e h : e ∈ outstanding h → e ∈ ops (entry_ud e) h.
Proof. intros He%list_elem_of_In. apply list_elem_of_In, List.filter_In. split; [done|apply Z.eqb_refl]. Qed.

(** ** Reaping *)

Lemma with_ud_remove ud es : with_ud ud (remove_ud ud es) = tail (with_ud ud es).
Proof.
  induction es as [|e es IH]; [done|]. cbn. unfold with_ud in *. cbn. destruct (Z.eqb_spec (entry_ud e) ud); [done|].
  cbn. by rewrite (proj2 (Z.eqb_neq _ _)).
Qed.
Lemma with_ud_remove_ne ud ud' es : ud' ≠ ud → with_ud ud' (remove_ud ud es) = with_ud ud' es.
Proof.
  intros Hne. induction es as [|e es IH]; [done|]. cbn. unfold with_ud in *. destruct (Z.eqb_spec (entry_ud e) ud) as [He|He]; cbn.
  - by rewrite (proj2 (Z.eqb_neq _ _)) by congruence.
  - by rewrite IH.
Qed.
Lemma remove_ud_elem ud e es : e ∈ remove_ud ud es → e ∈ es.
Proof.
  induction es as [|x es IH]; [done|]. cbn. case_match; [by right|]. intros [-> |?]%elem_of_cons; [left|right; auto].
Qed.

Lemma ops_reaped_other ud c h : cqe_ud c ≠ ud → ops ud (Reaped c :: h) = ops ud h ∧ wire ud (Reaped c :: h) = wire ud h.
Proof.
  intros Hne. unfold ops. cbn. rewrite (proj2 (Z.eqb_neq _ _) Hne), app_nil_r. split; [|done].
  destruct (cqe_more c); [done|]. by apply with_ud_remove_ne.
Qed.
Lemma ops_reaped_last ud c h : cqe_ud c = ud → cqe_more c = false → ops ud (Reaped c :: h) = tail (ops ud h).
Proof. intros <- Hm. unfold ops. cbn. rewrite Hm. apply with_ud_remove. Qed.
Lemma ops_reaped_more ud c h : cqe_more c = true → ops ud (Reaped c :: h) = ops ud h.
Proof. intros Hm. unfold ops. cbn. by rewrite Hm. Qed.

(** A completion that answers the one send outstanding. *)
Lemma wire_reaped_send ud c h i d :
  cqe_ud c = ud → ops ud h = [Send i ud d] → wire ud (Reaped c :: h) = wire ud h ++ take (Z.to_nat (cqe_result c)) d.
Proof. intros <- Ho. cbn. by rewrite Z.eqb_refl, Ho. Qed.

(** ** The calls *)

Section calls.
Context `{Kernel}.

Lemma log_did e w : neutral e = true → did [] (hist w) (hist (log e w).2).
Proof. apply did_neutral. Qed.

(** What a call queues when it succeeds, and when it fails. *)
Definition queues {A} (m : eff World error A) (es : list Entry) : Prop := ∀ w,
  match m w with
  | (Ok _, w') => did es (hist w) (hist w')
  | (Err _, w') => did [] (hist w) (hist w')
  end.

Lemma queues_bind {A B} (m : eff World error A) (f : A → eff World error B) es :
  queues m [] → (∀ a, queues (f a) es) → queues (m ≫= f) es.
Proof.
  intros Hm Hf w. rewrite bind_run. specialize (Hm w). destruct (m w) as [[a|e] w']; [|done].
  specialize (Hf a w'). destruct (f a w') as [[b|e] w'']; by eapply did_trans_nil_l.
Qed.
Lemma queues_quiet {A} (m : eff World error A) : (∀ w, hist (m w).2 = hist w) → queues m [].
Proof. intros Hm w. specialize (Hm w). destruct (m w) as [[]?]; cbn in Hm; rewrite Hm; apply did_nothing. Qed.
Lemma queues_ret {A} (a : A) : queues (mret a) [].
Proof. intros w. apply did_nothing. Qed.
Lemma queues_lift {A} (r : res A) : queues (lift r) [].
Proof. intros w. destruct r; apply did_nothing. Qed.
Lemma queues_log e : neutral e = true → queues (log e) [].
Proof. intros He w. by apply did_neutral. Qed.
Lemma queues_when b m : queues m [] → queues (when b m) [].
Proof. destruct b; [done|]. intros _. apply queues_ret. Qed.
Lemma queues_get : queues get [].
Proof. intros w. apply did_nothing. Qed.
Lemma queues_modify f : (∀ w, hist (f w) = hist w) → queues (modify f) [].
Proof. intros Hf. by apply queues_quiet. Qed.

Ltac quiet :=
  repeat (cbv beta zeta; match goal with
  | |- queues (_ ≫= _) _ => apply queues_bind; [|intros ?]
  | |- queues (mret _) _ => apply queues_ret
  | |- queues (lift _) _ => apply queues_lift
  | |- queues (log _) _ => apply queues_log; done
  | |- queues get _ => apply queues_get
  | |- queues (when _ _) _ => apply queues_when
  | |- queues (modify _) _ => apply queues_modify; done
  | |- queues (match ?x with _ => _ end) _ => destruct x
  end).

Lemma submit_queues : queues submit [].
Proof. unfold submit. quiet. Qed.
Lemma submit_or_fail_queues msg : queues (submit_or_fail msg) [].
Proof. apply queues_bind; [apply submit_queues|intros []; quiet]. Qed.

Lemma sq_push_did e w : did (if (length (sq w) <? capacity)%nat then [e] else []) (hist w) (hist (sq_push e w).2) ∧
  (sq_push e w).1 = Ok (length (sq w) <? capacity)%nat.
Proof.
  unfold sq_push. rewrite bind_run. cbn [get]. destruct (_ <? _)%nat; [|split; [apply did_nothing|done]].
  rewrite !bind_run. cbn. split; [apply did_push|done].
Qed.
Lemma push_sqe_queues e : queues (push_sqe e) [e].
Proof.
  intros w. unfold push_sqe. rewrite bind_run. destruct (sq_push_did e w) as [Hd Hr].
  destruct (sq_push e w) as [r w1]. cbn [fst snd] in Hr, Hd. subst r. destruct (_ <? _)%nat; [exact Hd|].
  rewrite bind_run. pose proof (submit_or_fail_queues "io_uring submit failed" w1) as Hs.
  destruct (submit_or_fail _ w1) as [[u|x] w2]; [|by eapply did_trans_nil_l].
  rewrite bind_run. destruct (sq_push_did e w2) as [Hd2 Hr2]. destruct (sq_push e w2) as [r w3]. cbn [fst snd] in Hr2, Hd2. subst r.
  pose proof (did_trans_nil_l _ _ _ _ Hd Hs) as H02. destruct (_ <? _)%nat; cbn; by eapply did_trans_nil_l.
Qed.

Lemma arm_deadline_queues d :
  queues (arm_deadline d) (match d with None => [] | Some after => [Timeout TIMEOUT_USER_DATA after] end).
Proof. destruct d; [apply push_sqe_queues|apply queues_ret]. Qed.
Lemma register_files_update_queues i f msg : queues (register_files_update i f msg) [].
Proof. unfold register_files_update. quiet. Qed.
Lemma make_socket_queues : queues make_socket [].
Proof. unfold make_socket. quiet. Qed.
Lemma close_fd_queues f : queues (close_fd f) [].
Proof. unfold close_fd. quiet. Qed.
Lemma raw_send_queues f d : queues (raw_send f d) [].
Proof. unfold raw_send. quiet. Qed.
Lemma sync_cancel_queues t msg : queues (sync_cancel t msg) [].
Proof. unfold sync_cancel. quiet. Qed.
Lemma drain_sq_queues fuel s f : queues (drain_sq fuel s f) [].
Proof.
  induction fuel as [|fuel IH]; cbn [drain_sq]; apply queues_bind; [quiet|intros ?|quiet|intros ?].
  - case_bool_decide; quiet.
  - case_bool_decide; [quiet|]. apply queues_bind; [apply submit_queues|]. intros [[|]|e]; [quiet|done|].
    destruct (_ =? _); [done|quiet].
Qed.
Lemma submit_and_wait_queues s a b : queues (submit_and_wait_timeout s a b) [].
Proof. unfold submit_and_wait_timeout. quiet. Qed.

Lemma guarded_queues f m es w : queues m es →
  match guarded f m w with (Ok a, w') => a = f ∧ did es (hist w) (hist w') | (Err _, w') => did [] (hist w) (hist w') end.
Proof.
  intros Hm. specialize (Hm w). unfold guarded. destruct (m w) as [[u|e] w']; [done|].
  pose proof (close_fd_queues f w') as Hc. by eapply did_trans_nil_l.
Qed.

Definition connect_pair (i : nat) (g : Z) : list Entry :=
  [LinkTimeout (user_data i g OP_CONNECT_TIMEOUT); Connect i (user_data i g OP_CONNECT)].

Lemma queue_connect_queues i g f : queues (queue_connect i g f) (connect_pair i g).
Proof.
  apply queues_bind; [quiet|intros w0]. apply queues_bind; [apply queues_when, submit_or_fail_queues|intros _].
  apply queues_bind; [quiet|intros w1]. destruct (_ <? _)%nat; [intros w2; apply did_nothing|].
  apply queues_bind; [apply register_files_update_queues|intros _]. apply queues_bind; [quiet|intros w2].
  destruct (_ <? _)%nat; [intros w3; apply did_nothing|]. intros w3. cbn.
  eapply (did_trans [Connect i (user_data i g OP_CONNECT)] [_]); apply did_push.
Qed.

(** A connect that was started has a descriptor, and both its entries. *)
Lemma start_connect_did i g w :
  match start_connect i g w with
  | (Ok f, w') => (legal (hist w') → 0 ≤ f) ∧ did (connect_pair i g) (hist w) (hist w')
  | (Err _, w') => did [] (hist w) (hist w')
  end.
Proof.
  unfold start_connect. rewrite bind_run. unfold make_socket at 1. rewrite !bind_run. cbn [get]. rewrite !bind_run. cbn [log modify lift].
  destruct (k_socket w) as [f|e]; [|by apply did_neutral].
  match goal with |- context [guarded f _ ?x] => set (w1 := x) end.
  assert (did [] (hist w) (hist w1)) as H1 by by apply did_neutral.
  pose proof (guarded_queues f _ _ w1 (queue_connect_queues i g f)) as Hg. destruct (guarded f _ w1) as [[a|e] w2].
  - destruct Hg as [-> Hd]. split; [|by eapply did_trans_nil_l]. intros Hl.
    apply (legal_suffix (hist w1)) in Hl; [|apply Hd]. by destruct Hl.
  - by eapply did_trans_nil_l.
Qed.

Lemma queues_grows {A} (m : eff World error A) es : queues m es → evolves grows m.
Proof. intros Hm w. specialize (Hm w). destruct (m w) as [[a|e] w']; apply Hm. Qed.
Lemma start_connect_grows i g : evolves grows (start_connect i g).
Proof.
  intros w. pose proof (start_connect_did i g w) as Hs. destruct (start_connect i g w) as [[f|e] w']; [destruct Hs as [_ Hs]|]; apply Hs.
Qed.
End calls.

(** ** Checking a concrete history *)

Definition answersb (c : Cqe) (e : Entry) : bool :=
  (entry_ud e =? cqe_ud c) &&
  match e with
  | Connect _ _ | LinkTimeout _ | Timeout _ _ => negb (cqe_more c)
  | Send _ _ data | SendMsg _ _ data _ => negb (cqe_more c) && (cqe_result c <=? zlen data)
  | RecvSingle _ _ => negb (cqe_more c) && ((cqe_result c <=? 0) || bool_decide (is_Some (cqe_buffer c)))
  | RecvMulti _ _ | RecvMsgMulti _ _ =>
      (negb (cqe_more c) || (0 <=? cqe_result c)) && ((cqe_result c <=? 0) || bool_decide (is_Some (cqe_buffer c)))
  end.
Fixpoint legalb (h : list Event) : bool :=
  match h with
  | [] => true
  | Reaped c :: h' => existsb (answersb c) (outstanding h') && legalb h'
  | Opened (Ok fd) :: h' => (0 <=? fd) && legalb h'
  | _ :: h' => legalb h'
  end.

Lemma answersb_answers c e : answersb c e = true → answers c e.
Proof.
  unfold answersb, answers. intros [Hu%Z.eqb_eq Ha]%andb_prop. split; [done|].
  destruct e; rewrite ?andb_true_iff, ?orb_true_iff, ?negb_true_iff, ?Z.leb_le, ?bool_decide_eq_true in Ha; try done.
  - destruct Ha as [? [?|?]]; (split; [done|]); [lia|done].
  - destruct Ha as [[->|?] [?|?]]; (split; [done || lia|]); done || lia.
  - destruct Ha as [[->|?] [?|?]]; (split; [done || lia|]); done || lia.
Qed.
Lemma legalb_legal h : legalb h = true → legal h.
Proof.
  induction h as [|e h IH]; [done|]. destruct e as [| | |c| | |[fd|]| | | |]; cbn; try done.
  - intros [He Hl]%andb_prop. split; [|auto]. apply existsb_exists in He as (x & Hx%list_elem_of_In & Ha). exists x. split; [done|by apply answersb_answers].
  - intros [He%Z.leb_le Hl]%andb_prop. auto.
Qed.

(** ** User data *)

Definition well_formed_id (i : nat) (g op : Z) : Prop :=
  Z.of_nat i < 2 ^ CONN_IDX_BITS ∧ 0 ≤ g < 2 ^ GENERATION_BITS - 1 ∧ 0 ≤ op < 4.

Lemma user_data_inj i g op i' g' op' :
  well_formed_id i g op → well_formed_id i' g' op' → user_data i g op = user_data i' g' op' → i = i' ∧ g = g' ∧ op = op'.
Proof.
  intros (? & ? & ?) (? & ? & ?) Heq. apply (f_equal decode_user_data) in Heq.
  rewrite !decode_user_data_encoded in Heq by lia. by injection Heq as -> -> ->.
Qed.
Lemma user_data_not_timeout i g op : well_formed_id i g op → user_data i g op ≠ TIMEOUT_USER_DATA.
Proof.
  intros (Hi & Hg & Ho) Heq. apply (f_equal decode_user_data) in Heq. rewrite decode_user_data_encoded in Heq by lia.
  change (decode_user_data TIMEOUT_USER_DATA) with (3, Z.to_nat (2 ^ 20 - 1), 2 ^ 42 - 1) in Heq.
  assert (g = 2 ^ 42 - 1) as -> by congruence. unfold GENERATION_BITS, CONN_IDX_BITS in Hg. lia.
Qed.
Lemma next_generation_small g : 0 ≤ g < 2 ^ GENERATION_BITS - 1 → next_generation g = g + 1.
Proof.
  unfold next_generation, GENERATION_MASK, GENERATION_BITS, CONN_IDX_BITS. intros Hg.
  rewrite u64_small by lia. rewrite Z.shiftl_mul_pow2, Z.mul_1_l, land_mask by lia. apply Z.mod_small. lia.
Qed.
End uring_run.
