(* ===== verification/UringConn.v ===== *)
(** * Workers over the ring

    What the workers of the three protocols have in common: a worker keeps a
    list of connections, one per fixed-file slot, and something its connections
    share; a handler works on one connection ([at_conn]), and loops over
    connections and completions end early on [break 'outer] ([until]).

    The reasoning is shared too.  What the history says of one generation of a
    slot is its [View]: the connects, receives and sends outstanding, and the
    bytes the kernel has taken.  [slot past here h i g] says that slot [i] is at
    generation [g], that generations before it satisfy [past], that those to
    come are untouched, and that this one satisfies [here]; a triple [ok i]
    limits a method to its own slot, so that the other connections do not
    notice ([at_conn_keeps]).  *)

From S2P Require Import Prelude Effects Uring UringRun.
From stdpp Require Import relations.
#[local] Open Scope Z_scope.

Module uring_conn.
Import uring uring_run.

(** ** State that contains the ring *)

Class OnRing (S : Type) := {
  ring_of : S → World;
  set_ring : World → S → S;
  ring_of_set w s : ring_of (set_ring w s) = w;
}.

(** How a loop over connections or completions goes on. *)
Inductive flow : Type := Continue | BreakOuter.

Section code.
Context {S : Type} `{OnRing S}.

Definition on_ring {A} (m : eff World error A) : eff S error A := λ s,
  let '(r, w) := m (ring_of s) in (r, set_ring w s).

(** [match .. { Ok(..) => .., Err(..) => .. }]; a panic is not caught *)
Definition attempt {A} (m : eff S error A) : eff S error (option A) := λ s,
  match m s with
  | (Ok a, s') => (Ok (Some a), s')
  | (Err (Panic msg), s') => (Err (Panic msg), s')
  | (Err _, s') => (Ok None, s')
  end.

(** Loops that a [break 'outer] ends. *)
Fixpoint until {A} (l : list A) (body : A → eff S error flow) : eff S error flow :=
  match l with
  | [] => mret Continue
  | x :: l' => f ← body x; match f with Continue => until l' body | BreakOuter => mret BreakOuter end
  end.
End code.

(** One connection and what its handlers share; the whole worker. *)
Record Local (K X : Type) := mkLocal { world : World; self : K; shared : X }.
Record Worker (K X : Type) := mkWorker { w_world : World; conns : list K; w_shared : X }.
Arguments mkLocal {K X}. Arguments world {K X}. Arguments self {K X}. Arguments shared {K X}.
Arguments mkWorker {K X}. Arguments w_world {K X}. Arguments conns {K X}. Arguments w_shared {K X}.

Section state.
Context {K X : Type}.
#[global] Instance Local_eta : Eta (Local K X) := λ l, mkLocal (world l) (self l) (shared l).
#[global] Instance Worker_eta : Eta (Worker K X) := λ w, mkWorker (w_world w) (conns w) (w_shared w).
#[global] Instance Local_ring : OnRing (Local K X) :=
  {| ring_of := world; set_ring w l := l <| world := w |>; ring_of_set _ _ := eq_refl |}.
#[global] Instance Worker_ring : OnRing (Worker K X) :=
  {| ring_of := w_world; set_ring x w := w <| w_world := x |>; ring_of_set _ _ := eq_refl |}.

Definition me : eff (Local K X) error K := l ← get; mret (self l).
Definition update (f : K → K) : eff (Local K X) error unit := modify (λ l, l <| self := f (self l) |>).
Definition update_shared (f : X → X) : eff (Local K X) error unit := modify (λ l, l <| shared := f (shared l) |>).

Definition local (w : Worker K X) (c : K) : Local K X := mkLocal (w_world w) c (w_shared w).
Definition absorb (i : nat) (w : Worker K X) (l : Local K X) : Worker K X :=
  mkWorker (world l) (<[i := self l]> (conns w)) (shared l).

(** A method on [conns[i]]. *)
Definition at_conn {A} (i : nat) (m : eff (Local K X) error A) : eff (Worker K X) error A := λ w,
  match conns w !! i with
  | None => (panic "index out of bounds", w)
  | Some c => let '(r, l) := m (local w c) in (r, absorb i w l)
  end.
End state.

(** ** Histories only grow *)

Section growth.
Context {S : Type} `{OnRing S}.

Definition sgrows (s s' : S) : Prop := grows (ring_of s) (ring_of s').
#[global] Instance sgrows_preorder : PreOrder sgrows.
Proof. split; [intros s|intros s1 s2 s3]; unfold sgrows; [done|apply transitivity]. Qed.

Lemma on_ring_sgrows {A} (m : eff World error A) : evolves grows m → evolves sgrows (on_ring m).
Proof.
  intros Hm s. unfold on_ring, sgrows. specialize (Hm (ring_of s)). destruct (m (ring_of s)) as [r w].
  cbn. by rewrite ring_of_set.
Qed.
Lemma attempt_sgrows {A} (m : eff S error A) : evolves sgrows m → evolves sgrows (attempt m).
Proof. intros Hm s. specialize (Hm s). unfold attempt. by destruct (m s) as [[a|[]] s']. Qed.
Lemma until_sgrows {A} (l : list A) (body : A → eff S error flow) : (∀ x, evolves sgrows (body x)) → evolves sgrows (until l body).
Proof.
  intros Hb. induction l as [|x l IH]; cbn; [apply evolves_ret, _|]. apply evolves_bind; [apply _|apply Hb|].
  intros []; [exact IH|apply evolves_ret, _].
Qed.
Lemma for_each_sgrows {A} (l : list A) (body : A → eff S error unit) : (∀ x, evolves sgrows (body x)) → evolves sgrows (for_each l body).
Proof. intros Hb. apply evolves_for_each; [apply _|done]. Qed.
Lemma log_sgrows e : evolves sgrows (on_ring (log e)).
Proof. apply on_ring_sgrows. intros w. by exists [e]. Qed.
End growth.

Section growth_state.
Context {K X : Type}.
Lemma update_sgrows f : evolves sgrows (update (K := K) (X := X) f).
Proof. intros l. apply (reflexivity (world l)). Qed.
Lemma update_shared_sgrows f : evolves sgrows (update_shared (K := K) (X := X) f).
Proof. intros l. apply (reflexivity (world l)). Qed.
Lemma me_sgrows : evolves sgrows (me (K := K) (X := X)).
Proof. intros l. apply (reflexivity (world l)). Qed.
Lemma at_conn_sgrows {A} i (m : eff (Local K X) error A) : evolves sgrows m → evolves sgrows (at_conn i m).
Proof.
  intros Hm w. unfold at_conn. destruct (conns w !! i) as [c|]; [|apply (reflexivity (w_world w))].
  specialize (Hm (local w c)). by destruct (m (local w c)) as [r l].
Qed.
Lemma modify_shared_sgrows (f : Worker K X → Worker K X) : (∀ w, w_world (f w) = w_world w) → evolves sgrows (modify (E := error) f).
Proof. intros Hf w. unfold sgrows, grows. cbn. by rewrite Hf. Qed.
End growth_state.

Create HintDb rings.
#[export] Hint Resolve log_sgrows for_each_sgrows on_ring_sgrows attempt_sgrows until_sgrows update_sgrows update_shared_sgrows me_sgrows at_conn_sgrows : rings.
#[export] Hint Resolve queues_grows push_sqe_queues raw_send_queues close_fd_queues drain_sq_queues sync_cancel_queues
  register_files_update_queues queues_log start_connect_grows submit_and_wait_queues arm_deadline_queues : rings.

(** Walks through a method that only touches the ring through [on_ring]. *)
Ltac grow_ring := repeat (progress evolve || case_bool_decide); eauto with rings.

(** ** Frames *)

Definition of_conn (i : nat) (e : Entry) : Prop := ∃ g op, well_formed_id i g op ∧ entry_ud e = user_data i g op.

(** Only operations of slot [i] were queued, and nothing was reaped. *)
Definition frame (i : nat) (h h' : list Event) : Prop := ∃ es, did es h h' ∧ Forall (of_conn i) es.

Lemma frame_refl i h : frame i h h.
Proof. exists []. split; [apply did_nothing|done]. Qed.
Lemma frame_trans i h h' h'' : frame i h h' → frame i h' h'' → frame i h h''.
Proof.
  intros (es & Hd & Hf) (es' & Hd' & Hf'). exists (es' ++ es). split; [by eapply did_trans|by apply Forall_app].
Qed.
Lemma did_frame i h h' : did [] h h' → frame i h h'.
Proof. intros Hd. by exists []. Qed.
Lemma frame_length i h h' : frame i h h' → (length h ≤ length h')%nat.
Proof. intros (es & Hd & _). by apply suffix_length, (did_suffix es). Qed.
Lemma frame_suffix i h h' : frame i h h' → h `suffix_of` h'.
Proof. intros (es & Hd & _). apply Hd. Qed.

(** ** Methods of one connection *)

Section triples.
Context {S : Type} `{OnRing S}.
Abbreviation M := (eff S error).
Abbreviation events s := (hist (ring_of s)).

(** When the history stays sound, a method that succeeds only queues operations
    of its own connection, and has the given outcome. *)
Definition ok {A} (i : nat) (m : M A) (l : S) (Q : A → S → Prop) : Prop :=
  holds m l (λ a l', sound (events l') → frame i (events l) (events l') ∧ Q a l') (λ _ _, True).

Lemma ok_bind {A B} i (m : M A) (f : A → M B) l P Q :
  ok i m l P → (∀ a, evolves sgrows (f a)) →
  (∀ a l', sound (events l') → frame i (events l) (events l') → P a l' → ok i (f a) l' Q) → ok i (m ≫= f) l Q.
Proof.
  intros Hm Hg Hf. unfold ok, holds in *. rewrite bind_run. destruct (m l) as [[a|e] l1]; [|done].
  specialize (Hg a l1). specialize (Hf a l1). destruct (f a l1) as [[b|e] l2]; [|done]. intros Hs.
  pose proof (sound_suffix _ _ Hg Hs) as Hs1. destruct (Hm Hs1) as [Hf1 HP]. destruct (Hf Hs1 Hf1 HP Hs) as [Hf2 HQ].
  split; [by eapply frame_trans|done].
Qed.
Lemma ok_mono {A} i (m : M A) l (P Q : A → S → Prop) : ok i m l P → (∀ a l', sound (events l') → P a l' → Q a l') → ok i m l Q.
Proof. unfold ok, holds. destruct (m l) as [[a|e] l']; [|done]. intros Hm HPQ Hs. destruct (Hm Hs). auto. Qed.
Lemma ok_ret {A} i (a : A) l (Q : A → S → Prop) : (sound (events l) → Q a l) → ok i (mret a) l Q.
Proof. intros HQ Hs. split; [apply frame_refl|auto]. Qed.
Lemma ok_lift {A} i (r : res A) l (Q : A → S → Prop) : (∀ a, r = Ok a → Q a l) → ok i (lift r) l Q.
Proof. intros HQ. unfold ok, holds. destruct r; [|done]. intros _. split; [apply frame_refl|auto]. Qed.
Lemma ok_framed {A} i (m : M A) l (Q : A → S → Prop) :
  ok i m l Q → ok i m l (λ a l', frame i (events l) (events l') ∧ Q a l').
Proof. unfold ok, holds. destruct (m l) as [[a|e] l']; [|done]. intros Hm Hs. destruct (Hm Hs). auto. Qed.

(** A step that does not touch the ring. *)
Lemma ok_pure {A B} i (m : M A) (f : A → M B) l a l1 Q :
  m l = (Ok a, l1) → ring_of l1 = ring_of l → ok i (f a) l1 Q → ok i (m ≫= f) l Q.
Proof. intros Hm Hw. unfold ok, holds. rewrite bind_run, Hm, Hw. done. Qed.
Lemma ok_pure_last {A} i (m : M A) l a l1 (Q : A → S → Prop) :
  m l = (Ok a, l1) → ring_of l1 = ring_of l → (sound (events l) → Q a l1) → ok i m l Q.
Proof. intros Hm Hw HQ. unfold ok, holds. rewrite Hm, Hw. intros Hs. split; [apply frame_refl|auto]. Qed.
Lemma ok_bind_lift {A B} i (r : res A) (f : A → M B) l Q :
  (∀ a, r = Ok a → ok i (f a) l Q) → ok i (lift r ≫= f) l Q.
Proof. intros Hf. unfold ok, holds. rewrite bind_run. destruct r; [by apply Hf|done]. Qed.

(** A call of the ring. *)
Lemma ok_ring {A} i (m : eff World error A) es l (Q : A → S → Prop) :
  queues m es → (sound (events l) → Forall (of_conn i) es) →
  (∀ a w', sound (hist w') → did es (events l) (hist w') → Q a (set_ring w' l)) → ok i (on_ring m) l Q.
Proof.
  intros Hq Hes HQ. unfold ok, holds, on_ring. specialize (Hq (ring_of l)). destruct (m (ring_of l)) as [[a|e] w']; [|done].
  rewrite ring_of_set. intros Hs. split; [|by apply HQ]. exists es. split; [done|]. apply Hes. eapply sound_suffix; [apply Hq|done].
Qed.
Lemma ok_quiet {A} i (m : eff World error A) l (Q : A → S → Prop) :
  queues m [] → (∀ a w', sound (hist w') → did [] (events l) (hist w') → Q a (set_ring w' l)) → ok i (on_ring m) l Q.
Proof. intros Hq HQ. by eapply ok_ring. Qed.

(** A note in the history. *)
Definition noting (e : Event) (l : S) : S := set_ring (ring_of l <| hist := e :: events l |>) l.
Lemma ok_log {B} i e (f : unit → M B) l Q : neutral e = true → ok i (f tt) (noting e l) Q → ok i (on_ring (log e) ≫= f) l Q.
Proof.
  intros He Hf. unfold ok, holds in *. rewrite bind_run. change (on_ring (log e) l) with (Ok (E := error) tt, noting e l). cbn [fst snd].
  destruct (f tt (noting e l)) as [[b|x] l']; [|done]. intros Hs. destruct (Hf Hs) as [Hfr HQ]. split; [|done].
  eapply frame_trans; [|exact Hfr]. unfold noting. rewrite ring_of_set. by apply did_frame, did_neutral.
Qed.

(** ** Methods of the worker *)

Definition wok {A} (m : M A) (w : S) (Q : A → S → Prop) : Prop :=
  holds m w (λ a w', sound (events w') → Q a w') (λ _ _, True).
Lemma wok_bind {A B} (m : M A) (f : A → M B) w P Q :
  wok m w P → (∀ a, evolves sgrows (f a)) → (∀ a w', sound (events w') → P a w' → wok (f a) w' Q) → wok (m ≫= f) w Q.
Proof.
  intros Hm Hg Hf. unfold wok, holds in *. rewrite bind_run. destruct (m w) as [[a|e] w1]; [|done].
  specialize (Hg a w1). specialize (Hf a w1). destruct (f a w1) as [[b|e] w2]; [|done]. intros Hs.
  pose proof (sound_suffix _ _ Hg Hs) as Hs1. auto.
Qed.
Lemma wok_mono {A} (m : M A) w (P Q : A → S → Prop) : wok m w P → (∀ a w', sound (events w') → P a w' → Q a w') → wok m w Q.
Proof. unfold wok, holds. destruct (m w) as [[a|e] w']; auto. Qed.
Lemma wok_ret {A} (a : A) w (Q : A → S → Prop) : (sound (events w) → Q a w) → wok (mret a) w Q.
Proof. done. Qed.
Lemma wok_pure {A B} (m : M A) (f : A → M B) w a w1 Q : m w = (Ok a, w1) → wok (f a) w1 Q → wok (m ≫= f) w Q.
Proof. intros Hm. unfold wok, holds. by rewrite bind_run, Hm. Qed.
Lemma wok_run {A} (m m' : M A) w w' Q : m w = m' w' → wok m' w' Q → wok m w Q.
Proof. intros Hm. unfold wok, holds. by rewrite Hm. Qed.
(** The soundness of the end of a call is that of its beginning. *)
Lemma wok_sound {A} (m : M A) w (Q : A → S → Prop) : evolves sgrows m → (sound (events w) → wok m w Q) → wok m w Q.
Proof.
  intros Hg Hm. unfold wok, holds in *. specialize (Hg w). destruct (m w) as [[a|e] w']; [|done]. intros Hs.
  apply Hm; [|done]. by apply (sound_suffix _ _ Hg).
Qed.
Lemma wok_ring {A} (m : eff World error A) w (Q : A → S → Prop) :
  queues m [] → (∀ a w', sound (hist w') → did [] (events w) (hist w') → Q a (set_ring w' w)) → wok (on_ring m) w Q.
Proof.
  intros Hq HQ. unfold wok, holds, on_ring. specialize (Hq (ring_of w)). destruct (m (ring_of w)) as [[a|e] w']; [|done].
  rewrite ring_of_set. intros Hs. by apply HQ.
Qed.

Lemma until_wok {A} (l : list A) (body : A → M flow) (I J : S → Prop) w :
  (∀ x, evolves sgrows (body x)) →
  (∀ x w, x ∈ l → I w → wok (body x) w (λ f w', match f with Continue => I w' | BreakOuter => J w' end)) →
  I w → wok (until l body) w (λ f w', match f with Continue => I w' | BreakOuter => J w' end).
Proof.
  intros Hg Hb. revert w. induction l as [|x l IH]; intros w HI; cbn [until]; [by apply wok_ret|].
  eapply wok_bind; [apply Hb; [by left|done]|intros []; [by apply until_sgrows|apply evolves_ret, _]|].
  intros [] w' _ Hw'; [apply IH; [|done]; intros; apply Hb; [by right|done]|by apply wok_ret].
Qed.
Lemma for_each_wok {A} (l : list A) (body : A → M unit) (I : list A → S → Prop) w :
  (∀ x, evolves sgrows (body x)) → (∀ x rest w, I (x :: rest) w → wok (body x) w (λ _ w', I rest w')) →
  I l w → wok (for_each l body) w (λ _ w', I [] w').
Proof.
  intros Hg Hb. revert w. induction l as [|x l IH]; intros w HI; cbn [for_each]; [by apply wok_ret|].
  eapply wok_bind; [by apply Hb|intros; by apply evolves_for_each; [apply _|]|]. cbv beta. intros [] w' _ Hw'. by apply IH.
Qed.
End triples.

(** ** What the history says of one generation of a slot *)

Record View := mkView { connects : list Entry; recvs : list Entry; sends : list Entry; sent : bytes }.
#[global] Instance View_eta : Eta View := λ v, mkView (connects v) (recvs v) (sends v) (sent v).

Definition view (h : list Event) (i : nat) (g : Z) : View :=
  mkView (ops (user_data i g OP_CONNECT) h) (ops (user_data i g OP_RECV) h) (ops (user_data i g OP_SEND) h)
    (wire (user_data i g OP_SEND) h).
Definition nothing : View := mkView [] [] [] [].

Definition same_ops (h h' : list Event) (j : nat) : Prop := ∀ g op,
  well_formed_id j g op → ops (user_data j g op) h' = ops (user_data j g op) h ∧ wire (user_data j g op) h' = wire (user_data j g op) h.

Lemma did_quiet h h' i : did [] h h' → same_ops h h' i.
Proof. intros Hd g op _. split; [apply (did_ops _ _ _ _ Hd)|apply Hd]. Qed.
Lemma frame_other i j h h' : frame i h h' → j ≠ i → same_ops h h' j.
Proof.
  intros (es & Hd & Hf) Hne g op Hid. split; [|apply Hd]. rewrite (did_ops _ _ _ _ Hd), with_ud_other; [done|].
  eapply Forall_impl; [exact Hf|]. intros e (g' & op' & Hid' & ->) Heq.
  by apply user_data_inj in Heq as (-> & _ & _).
Qed.

Definition good_gen (i : nat) (g : Z) : Prop := Z.of_nat i < 2 ^ CONN_IDX_BITS ∧ 0 ≤ g < 2 ^ GENERATION_BITS - 1.
Lemma good_id i g op : good_gen i g → 0 ≤ op < 4 → well_formed_id i g op.
Proof. by intros [? ?] ?. Qed.

Lemma view_same h h' i g : same_ops h h' i → good_gen i g → view h' i g = view h i g.
Proof.
  intros Hs Hg. unfold view. destruct (Hs g OP_CONNECT) as [-> _]; [by apply good_id|].
  destruct (Hs g OP_RECV) as [-> _]; [by apply good_id|]. by destruct (Hs g OP_SEND) as [-> ->]; [apply good_id|].
Qed.
Lemma view_quiet h h' i g : did [] h h' → good_gen i g → view h' i g = view h i g.
Proof. intros Hd. by apply view_same, did_quiet. Qed.

(** What queueing an operation of the generation adds. *)
Definition queued (e : Entry) (op : Z) (v : View) : View :=
  if op =? OP_CONNECT then v <| connects := e :: connects v |>
  else if op =? OP_RECV then v <| recvs := e :: recvs v |>
  else if op =? OP_SEND then v <| sends := e :: sends v |> else v.

Lemma view_push h h' i g op e :
  did [e] h h' → good_gen i g → 0 ≤ op < 4 → entry_ud e = user_data i g op →
  view h' i g = queued e op (view h i g) ∧ ∀ g', good_gen i g' → g' ≠ g → view h' i g' = view h i g'.
Proof.
  intros Hd Hg Hop He.
  assert (∀ g' op', well_formed_id i g' op' → ops (user_data i g' op') h' =
    if decide ((g', op') = (g, op)) then e :: ops (user_data i g op) h else ops (user_data i g' op') h) as Ho.
  { intros g' op' Hid. rewrite (did_ops _ _ _ _ Hd). case_decide as Hx.
    - injection Hx as -> ->. by rewrite with_ud_same.
    - rewrite with_ud_other; [done|]. constructor; [|done]. rewrite He. intros Heq.
      apply user_data_inj in Heq as (_ & -> & ->); [done|by apply good_id|done]. }
  split; [|intros g' Hg' Hne].
  - unfold view, queued. rewrite !Ho, (did_wire _ _ _ Hd) by (by apply good_id).
    destruct (Z.eqb_spec op OP_CONNECT) as [-> |]; [|destruct (Z.eqb_spec op OP_RECV) as [-> |]; [|destruct (Z.eqb_spec op OP_SEND) as [-> |]]];
      repeat (case_decide; simplify_eq); done.
  - unfold view. rewrite !Ho, (did_wire _ _ _ Hd) by (by apply good_id). repeat case_decide; simplify_eq; done.
Qed.

(** What reaping a completion of the generation takes away. *)
Definition reap (op : Z) (c : Cqe) (v : View) : View :=
  let rest es := if cqe_more c then es else tail es in
  if op =? OP_CONNECT then v <| connects := rest (connects v) |>
  else if op =? OP_RECV then v <| recvs := rest (recvs v) |>
  else if op =? OP_SEND then
    v <| sends := rest (sends v) |>
      <| sent := sent v ++ match sends v with Send _ _ d :: _ => take (Z.to_nat (cqe_result c)) d | _ => [] end |>
  else v.

Lemma ops_reaped ud c h : cqe_ud c = ud → ops ud (Reaped c :: h) = if cqe_more c then ops ud h else tail (ops ud h).
Proof. intros Hu. destruct (cqe_more c) eqn:Hm; [by apply ops_reaped_more|by apply ops_reaped_last]. Qed.

Lemma reaped_same h cqe i g op j g' op' :
  cqe_ud cqe = user_data i g op → well_formed_id i g op → well_formed_id j g' op' → (j, g', op') ≠ (i, g, op) →
  ops (user_data j g' op') (Reaped cqe :: h) = ops (user_data j g' op') h ∧
  wire (user_data j g' op') (Reaped cqe :: h) = wire (user_data j g' op') h.
Proof.
  intros Hud Hid Hid' Hne. apply ops_reaped_other. rewrite Hud. intros Heq.
  apply user_data_inj in Heq as (-> & -> & ->); [done|done|done].
Qed.

Lemma view_reaped h c i g op :
  cqe_ud c = user_data i g op → well_formed_id i g op → view (Reaped c :: h) i g = reap op c (view h i g).
Proof.
  intros Hu Hid. assert (good_gen i g) as Hg by by destruct Hid as (? & ? & ?).
  assert (∀ op', 0 ≤ op' < 4 → op' ≠ op → ops (user_data i g op') (Reaped c :: h) = ops (user_data i g op') h ∧
    wire (user_data i g op') (Reaped c :: h) = wire (user_data i g op') h) as Ho
    by (intros; apply (reaped_same h c i g op); [done|done|by apply good_id|congruence]).
  unfold view, reap. destruct (Z.eqb_spec op OP_CONNECT) as [-> |]; [|destruct (Z.eqb_spec op OP_RECV) as [-> |]; [|destruct (Z.eqb_spec op OP_SEND) as [-> |]]];
    repeat match goal with |- context [ops (user_data i g ?o) (Reaped c :: h)] =>
      first [rewrite (proj1 (Ho o ltac:(done) ltac:(done))) | rewrite (ops_reaped (user_data i g o) c h Hu)] end.
  1,2,4: rewrite (proj2 (Ho OP_SEND ltac:(done) ltac:(done))); done.
  cbn. by rewrite (proj2 (Z.eqb_eq _ _) Hu).
Qed.
Lemma view_reaped_other h c i g op j g' :
  cqe_ud c = user_data i g op → well_formed_id i g op → good_gen j g' → (j, g') ≠ (i, g) →
  view (Reaped c :: h) j g' = view h j g'.
Proof.
  intros Hu Hid Hg Hne. assert (∀ o, 0 ≤ o < 4 → ops (user_data j g' o) (Reaped c :: h) = ops (user_data j g' o) h ∧
    wire (user_data j g' o) (Reaped c :: h) = wire (user_data j g' o) h) as Ho
    by (intros; apply (reaped_same h c i g op); [done|done|by apply good_id|congruence]).
  unfold view. rewrite (proj1 (Ho OP_CONNECT ltac:(done))), (proj1 (Ho OP_RECV ltac:(done))), (proj1 (Ho OP_SEND ltac:(done))).
  by rewrite (proj2 (Ho OP_SEND ltac:(done))).
Qed.

(** ** Slots *)

(** What a generation that is over, or is being closed, has put on the wire is
    the beginning of something legitimate, and so is it with what may still be
    sent. *)
Definition within (P : bytes → Prop) (v : View) : Prop :=
  ∃ b, P b ∧ match sends v with
             | [] => sent v `prefix_of` b
             | [Send _ _ d] => sent v ++ d `prefix_of` b
             | _ => False
             end.

Lemma within_reap P op c v e :
  within P v → (op = OP_SEND → e ∈ sends v ∧ answers c e) → within P (reap op c v).
Proof.
  intros (b & Hb & Hv) He. unfold reap.
  destruct (_ =? _); [by exists b|]. destruct (_ =? _); [by exists b|]. destruct (Z.eqb_spec op OP_SEND) as [-> |]; [|by exists b].
  destruct (He eq_refl) as [Hin Ha]. destruct (sends v) as [|x [|]] eqn:Es; [by apply not_elem_of_nil in Hin| |by destruct x].
  destruct x; try done. apply list_elem_of_singleton in Hin as ->. destruct Ha as (_ & Hm & _). exists b. split; [done|]. cbn. rewrite Hm.
  cbn. etrans; [|exact Hv]. apply prefix_app, prefix_take.
Qed.
Lemma within_nothing P b : P b → within P nothing.
Proof. intros Hb. exists b. split; [done|]. apply prefix_nil. Qed.

Record slot (past here : View → Prop) (h : list Event) (i : nat) (g : Z) : Prop := {
  s_idx : Z.of_nat i < 2 ^ CONN_IDX_BITS;
  s_gen : 0 ≤ g ≤ Z.of_nat (length h);
  s_past g' : 0 ≤ g' < g → past (view h i g');
  s_future g' : g < g' < 2 ^ GENERATION_BITS - 1 → view h i g' = nothing;
  s_here : here (view h i g);
}.
Arguments s_idx {past here h i g}. Arguments s_gen {past here h i g}. Arguments s_past {past here h i g}.
Arguments s_future {past here h i g}. Arguments s_here {past here h i g}.

Section slots.
Context (past : View → Prop).
Implicit Types (here : View → Prop).

Lemma slot_good here h i g : sound h → slot past here h i g → good_gen i g.
Proof. intros [_ Hn] [? ? _ _ _]. split; [done|lia]. Qed.
Lemma slot_mono here here' h i g : slot past here h i g → here' (view h i g) → slot past here' h i g.
Proof. by intros [? ? ? ? _]. Qed.
Lemma slot_weaken here here' h i g : slot past here h i g → (∀ v, here v → here' v) → slot past here' h i g.
Proof. intros Hs Hh. by eapply slot_mono; [|apply Hh, Hs]. Qed.

(** Every view of the slot but the current one is as it was. *)
Lemma slot_change here here' h h' i g :
  sound h' → h `suffix_of` h' → slot past here h i g → (∀ g', good_gen i g' → g' ≠ g → view h' i g' = view h i g') →
  here' (view h' i g) → slot past here' h' i g.
Proof.
  intros [_ Hn] Hsuf [Hi Hg Hp Hf _] Hv Hh. apply suffix_length in Hsuf. split; [done|lia| | |done].
  - intros g' Hb. rewrite Hv; [by apply Hp|split; [done|lia]|lia].
  - intros g' Hb. rewrite Hv; [by apply Hf|split; [done|lia]|lia].
Qed.
Lemma slot_same here h h' i g : sound h' → h `suffix_of` h' → same_ops h h' i → slot past here h i g → slot past here h' i g.
Proof.
  intros Hs Hsuf Hsame Hsl. assert (good_gen i g) as Hg by by eapply slot_good; [eapply sound_suffix|].
  eapply slot_change; [done|done|done|intros; by apply view_same|]. rewrite (view_same h h') by done. apply Hsl.
Qed.
Lemma slot_quiet here h h' i g : sound h' → did [] h h' → slot past here h i g → slot past here h' i g.
Proof. intros Hs Hd. apply slot_same; [done|apply Hd|by apply did_quiet]. Qed.

(** An operation of the generation is queued. *)
Lemma slot_push here here' h h' i g op e :
  sound h' → slot past here h i g → did [e] h h' → 0 ≤ op < 4 → entry_ud e = user_data i g op →
  (∀ v, here v → here' (queued e op v)) → slot past here' h' i g.
Proof.
  intros Hs Hsl Hd Hop He Hh. assert (sound h) as Hs0 by (eapply sound_suffix; [apply Hd|done]).
  pose proof (slot_good _ _ _ _ Hs0 Hsl) as Hg. destruct (view_push h h' i g op e Hd Hg Hop He) as [Hv Ho].
  eapply slot_change; [done|apply Hd|done|done|]. rewrite Hv. apply Hh, Hsl.
Qed.
Lemma slot_of_conn here h i g op e : sound h → slot past here h i g → 0 ≤ op < 4 → entry_ud e = user_data i g op → Forall (of_conn i) [e].
Proof. intros Hs Hsl Hop He. constructor; [|done]. exists g, op. split; [apply good_id; [by eapply slot_good|done]|done]. Qed.

(** A connect and its timeout are queued. *)
Lemma slot_connect here here' h h' i g :
  sound h' → slot past here h i g → did (connect_pair i g) h h' →
  (∀ v, here v → here' (v <| connects := Connect i (user_data i g OP_CONNECT) :: connects v |>)) → slot past here' h' i g.
Proof.
  intros Hs Hsl Hd Hh. assert (sound h) as Hs0 by (eapply sound_suffix; [apply Hd|done]). pose proof (slot_good _ _ _ _ Hs0 Hsl) as Hg.
  assert (∀ g' op, well_formed_id i g' op → op ≠ OP_CONNECT_TIMEOUT → ops (user_data i g' op) h' =
    if decide ((g', op) = (g, OP_CONNECT)) then Connect i (user_data i g OP_CONNECT) :: ops (user_data i g OP_CONNECT) h else ops (user_data i g' op) h) as Ho.
  { intros g' op Hid Hop. rewrite (did_ops _ _ _ _ Hd). unfold connect_pair. rewrite with_ud_cons_ne.
    2: { cbn. intros Heq. apply user_data_inj in Heq as (_ & _ & ?); [done|by apply good_id|done]. }
    case_decide as Hx; [injection Hx as -> ->; by rewrite with_ud_same|]. rewrite with_ud_other; [done|]. constructor; [|done]. cbn. intros Heq.
    apply user_data_inj in Heq as (_ & ? & ?); [congruence|by apply good_id|done]. }
  assert (∀ g', good_gen i g' → view h' i g' = if decide (g' = g) then view h i g <| connects := Connect i (user_data i g OP_CONNECT) :: connects (view h i g) |> else view h i g') as Hv.
  { intros g' Hg'. unfold view. rewrite !Ho, (did_wire _ _ _ Hd) by (done || by apply good_id). repeat case_decide; simplify_eq; done. }
  eapply slot_change; [done|apply Hd|done|intros g' ? ?; rewrite Hv, decide_False by done; done|]. rewrite Hv, decide_True by done. apply Hh, Hsl.
Qed.
Lemma pair_of_conn here h i g : sound h → slot past here h i g → Forall (of_conn i) (connect_pair i g).
Proof.
  intros Hs Hsl. pose proof (slot_good _ _ _ _ Hs Hsl). repeat constructor; [exists g, OP_CONNECT_TIMEOUT|exists g, OP_CONNECT]; (split; [by apply good_id|done]).
Qed.

(** The generation is over. *)
Lemma slot_next here h i g : sound h → slot past here h i g → g < Z.of_nat (length h) → past (view h i g) →
  slot past (λ v, v = nothing) h i (next_generation g).
Proof.
  intros [_ Hn] [Hi Hg Hp Hf _] Hlt Hpast. rewrite next_generation_small by lia. split; [done|lia| | |].
  - intros g' Hb. destruct (Z.eq_dec g' g) as [-> |]; [done|]. apply Hp. lia.
  - intros g' Hb. apply Hf. lia.
  - apply Hf. lia.
Qed.

(** A completion of the generation, and one of an earlier generation. *)
Lemma slot_reaped here here' h c i g op :
  sound (Reaped c :: h) → slot past here h i g → cqe_ud c = user_data i g op → 0 ≤ op < 4 →
  (∀ v, here v → here' (reap op c v)) → slot past here' (Reaped c :: h) i g.
Proof.
  intros Hs Hsl Hu Hop Hh. assert (sound h) as Hs0 by (eapply sound_suffix; [|exact Hs]; by exists [Reaped c]).
  pose proof (slot_good _ _ _ _ Hs0 Hsl) as Hg. pose proof (good_id i g op Hg Hop) as Hid.
  eapply slot_change; [done|by exists [Reaped c]|done|intros; apply (view_reaped_other h c i g op); [done|done|done|congruence]|].
  rewrite (view_reaped h c i g op Hu Hid). apply Hh, Hsl.
Qed.
Lemma slot_reaped_stale here h c i g g' op e :
  (∀ v, past v → (op = OP_SEND → e ∈ sends v ∧ answers c e) → past (reap op c v)) →
  sound (Reaped c :: h) → slot past here h i g → well_formed_id i g' op → g' ≠ g → op ≠ OP_CONNECT_TIMEOUT →
  cqe_ud c = user_data i g' op → e ∈ ops (user_data i g' op) h → answers c e → slot past here (Reaped c :: h) i g.
Proof.
  intros Hpr Hs Hsl Hid Hne Hop Hu He Ha. assert (sound h) as Hs0 by (eapply sound_suffix; [|exact Hs]; by exists [Reaped c]).
  pose proof (slot_good _ _ _ _ Hs0 Hsl) as Hg. destruct Hsl as [Hi Hgg Hp Hf Hh]. destruct Hs0 as [_ Hn].
  assert (∀ g'', good_gen i g'' → g'' ≠ g' → view (Reaped c :: h) i g'' = view h i g'') as Ho
    by (intros; apply (view_reaped_other h c i g' op); [done|done|done|congruence]).
  assert (g' < g) as Hlt.
  { destruct (Z.lt_ge_cases g' g); [done|]. exfalso. destruct Hid as (? & ? & ?). specialize (Hf g' ltac:(lia)). unfold view, nothing in Hf.
    injection Hf as Hf1 Hf2 Hf3 _. assert (op = OP_CONNECT ∨ op = OP_RECV ∨ op = OP_SEND) as [-> |[-> | ->]] by (unfold OP_CONNECT, OP_RECV, OP_SEND, OP_CONNECT_TIMEOUT in *; lia);
      [rewrite Hf1 in He|rewrite Hf2 in He|rewrite Hf3 in He]; by apply not_elem_of_nil in He. }
  split; [done|cbn [length]; lia| | |].
  - intros g'' Hb. destruct (Z.eq_dec g'' g') as [-> |Hn']; [|rewrite Ho; [by apply Hp|split; [done|lia]|done]].
    rewrite (view_reaped h c i g' op Hu Hid). apply Hpr; [by apply Hp|]. intros ->. done.
  - intros g'' Hb. rewrite Ho; [by apply Hf|split; [done|lia]|lia].
  - by rewrite Ho.
Qed.
(** The timeout of a connect is nobody's business. *)
Lemma slot_reaped_timeout here h c i g j g' :
  sound (Reaped c :: h) → slot past here h i g → cqe_ud c = user_data j g' OP_CONNECT_TIMEOUT → well_formed_id j g' OP_CONNECT_TIMEOUT →
  slot past here (Reaped c :: h) i g.
Proof.
  intros Hs Hsl Hu Hid. assert (sound h) as Hs0 by (eapply sound_suffix; [|exact Hs]; by exists [Reaped c]). pose proof (slot_good _ _ _ _ Hs0 Hsl) as Hg.
  assert (∀ g'', good_gen i g'' → view (Reaped c :: h) i g'' = view h i g'') as Hv.
  { intros g'' Hg''. destruct (decide ((i, g'') = (j, g'))) as [[= -> ->]|]; [|by apply (view_reaped_other h c j g' OP_CONNECT_TIMEOUT)].
    by rewrite (view_reaped h c j g' OP_CONNECT_TIMEOUT Hu Hid). }
  eapply slot_change; [done|by exists [Reaped c]|done|auto|]. rewrite Hv by done. apply Hsl.
Qed.
(** A completion of another slot, or of the run's deadline. *)
Lemma slot_reaped_other here h c i g :
  sound (Reaped c :: h) → slot past here h i g → (∀ g' op, well_formed_id i g' op → cqe_ud c ≠ user_data i g' op) →
  slot past here (Reaped c :: h) i g.
Proof.
  intros Hs Hsl Hu. apply (slot_same here h); [done|by exists [Reaped c]| |done]. intros g' op Hid. apply ops_reaped_other. by apply Hu.
Qed.
End slots.

(** ** Workers *)

Section worker.
Context {K X : Type}.
Variable generation : K → Z.
Variable legit : bytes → Prop.               (* what a socket may have been sent *)
Variable here : nat → K → View → Prop.
Variable timed : Prop.                       (* whether the run has a deadline *)
Abbreviation whist w := (hist (w_world w)).

Definition conn_ok (h : list Event) (i : nat) (c : K) : Prop := slot (within legit) (here i c) h i (generation c).

(** Whose an outstanding operation is. *)
Definition owned (n : nat) (e : Entry) : Prop :=
  (entry_ud e = TIMEOUT_USER_DATA ∧ timed) ∨ ∃ i, (i < n)%nat ∧ of_conn i e.

Record slots_ok (w : Worker K X) : Prop := {
  ws_size : Z.of_nat (length (conns w)) ≤ 2 ^ CONN_IDX_BITS;
  ws_conns i c : conns w !! i = Some c → conn_ok (whist w) i c;
  ws_owned : Forall (owned (length (conns w))) (outstanding (whist w));
}.
(** The same with one connection in the middle of something. *)
Record slots_but (i : nat) (w : Worker K X) : Prop := {
  wb_size : Z.of_nat (length (conns w)) ≤ 2 ^ CONN_IDX_BITS;
  wb_conns j c : conns w !! j = Some c → j ≠ i → conn_ok (whist w) j c;
  wb_owned : Forall (owned (length (conns w))) (outstanding (whist w));
}.
Lemma slots_but_ok i w : slots_ok w → slots_but i w.
Proof. intros []. by split; auto. Qed.

(** The other connections do not notice what one of them does. *)
Lemma at_conn_keeps {A} i c (m : eff (Local K X) error A) w (Q : A → Local K X → Prop) :
  conns w !! i = Some c → slots_but i w →
  ok i m (local w c) (λ a l', conn_ok (hist (world l')) i (self l') ∧ Q a l') →
  wok (at_conn i m) w (λ a w', slots_ok w' ∧ whist w `suffix_of` whist w' ∧ ∃ l', w' = absorb i w l' ∧ Q a l').
Proof.
  intros Hi [Hsz Hco Hown] Hm. unfold wok, holds, at_conn. rewrite Hi. unfold ok, holds in Hm.
  destruct (m (local w c)) as [[a|e] l']; [|done]. intros Hs. destruct (Hm Hs) as (Hfr & Hok & HQ).
  cbn in Hs. cbn [ring_of Local_ring world local] in Hfr. pose proof Hfr as (es & Hd & Hes).
  split; [|split; [by apply frame_suffix in Hfr|by exists l']]. split; cbn; rewrite ?length_insert; [done| |].
  - intros j c' Hj. apply list_lookup_insert_Some in Hj as [(-> & <- & _)|[Hne Hj]]; [done|].
    eapply slot_same; [done|apply Hd|by eapply frame_other|by apply Hco].
  - rewrite (did_outstanding _ _ _ Hd). apply Forall_app. split; [|done]. eapply Forall_impl; [exact Hes|].
    intros e He. right. exists i. split; [by eapply lookup_lt_Some|done].
Qed.

(** Nothing is queued and nothing reaped. *)
Lemma slots_quiet w w1 : slots_ok w → sound (hist w1) → did [] (whist w) (hist w1) → slots_ok (w <| w_world := w1 |>).
Proof.
  intros [] Hs Hd. split; cbn; [done| |by rewrite (did_outstanding _ _ _ Hd)].
  intros i c Hc. eapply slot_quiet; [done|done|]. by apply ws_conns0.
Qed.
Lemma slots_shared w x : slots_ok w → slots_ok (w <| w_shared := x |>).
Proof. by intros []. Qed.

(** *** Reaping *)

Definition after_reaped (cqe : Cqe) (w : Worker K X) : Worker K X := w <| w_world := w_world w <| hist := Reaped cqe :: whist w |> |>.

Lemma outstanding_reaped n cqe h : Forall (owned n) (outstanding h) → Forall (owned n) (outstanding (Reaped cqe :: h)).
Proof.
  intros Ho. cbn. destruct (cqe_more cqe); [done|]. rewrite Forall_forall in *. intros e He. apply Ho. by eapply remove_ud_elem.
Qed.
(** Whom a completion is for. *)
Lemma reaped_whose n h cqe :
  Forall (owned n) (outstanding h) → legal (Reaped cqe :: h) →
  (cqe_ud cqe = TIMEOUT_USER_DATA ∧ timed) ∨
  ∃ i g op e, (i < n)%nat ∧ well_formed_id i g op ∧ cqe_ud cqe = user_data i g op ∧ e ∈ ops (user_data i g op) h ∧ answers cqe e.
Proof.
  intros Ho [(e & He & Ha) _]. rewrite Forall_forall in Ho. destruct (Ho e He) as [[Hu Hd]|(i & Hi & g & op & Hid & Hu)].
  - left. split; [|done]. by rewrite <- (proj1 Ha).
  - right. exists i, g, op, e. split_and!; try done; [by rewrite <- (proj1 Ha)|]. rewrite <- Hu. by apply elem_of_ops.
Qed.

Definition pending_ops (op : Z) (v : View) : list Entry :=
  if op =? OP_CONNECT then connects v else if op =? OP_RECV then recvs v else sends v.

(** The current generation of a slot, right after a completion of [op]. *)
Definition reaped_here (i : nat) (c : K) (op : Z) (cqe : Cqe) (v' : View) : Prop :=
  ∃ v e, here i c v ∧ e ∈ pending_ops op v ∧ answers cqe e ∧ v' = reap op cqe v.

Lemma slots_timer cqe w :
  slots_ok w → sound (whist (after_reaped cqe w)) → cqe_ud cqe = TIMEOUT_USER_DATA → slots_ok (after_reaped cqe w) ∧ timed.
Proof.
  intros [] Hs Hto. cbn in Hs. split.
  - split; cbn -[outstanding]; [done| |by apply outstanding_reaped]. intros i c Hc. apply slot_reaped_other; [done|by apply ws_conns0|].
    intros g op Hid. rewrite Hto. intros Heq. by apply (user_data_not_timeout i g op).
  - destruct (reaped_whose _ _ _ ws_owned0 (proj1 Hs)) as [[_ ?]|(i & g & op & e & _ & Hid & Hu & _)]; [done|].
    rewrite Hu in Hto. by apply user_data_not_timeout in Hto.
Qed.

(** A completion of a connection: of an earlier generation, which changes
    nothing; or of the current one. *)
Lemma slots_reaped cqe w :
  slots_ok w → sound (whist (after_reaped cqe w)) → cqe_ud cqe ≠ TIMEOUT_USER_DATA →
  ∃ i g op c, decode_user_data (cqe_ud cqe) = (op, i, g) ∧ 0 ≤ op < 4 ∧ conns w !! i = Some c ∧ slots_but i (after_reaped cqe w) ∧
    (if decide (g = generation c ∧ op ≠ OP_CONNECT_TIMEOUT)
     then slot (within legit) (reaped_here i c op cqe) (Reaped cqe :: whist w) i (generation c)
     else conn_ok (Reaped cqe :: whist w) i c).
Proof.
  intros Hw Hs Hto. pose proof Hw as []. cbn in Hs.
  destruct (reaped_whose _ _ _ ws_owned0 (proj1 Hs)) as [[? _]|(i & g & op & e & Hi & Hid & Hu & He & Ha)]; [done|].
  destruct (lookup_lt_is_Some_2 (conns w) i Hi) as [c Hc]. pose proof (ws_conns0 i c Hc) as Hok. exists i, g, op, c.
  split; [rewrite Hu; apply decode_user_data_encoded; destruct Hid as (? & ? & ?); lia|]. split; [apply Hid|]. split; [done|]. split.
  - split; cbn -[outstanding]; [done| |by apply outstanding_reaped]. intros j c' Hj Hne.
    apply slot_reaped_other; [done|by apply ws_conns0|]. intros g' op' Hid' Heq. rewrite Hu in Heq.
    apply user_data_inj in Heq as (-> & _ & _); done.
  - destruct (Z.eq_dec op OP_CONNECT_TIMEOUT) as [-> |Hne]; [rewrite decide_False by tauto; by eapply slot_reaped_timeout|].
    case_decide as Hd; [destruct Hd as [-> _]|].
    + pose proof (slot_reaped (within legit) (λ v, here i c v ∧ v = view (whist w) i (generation c)) (reaped_here i c op cqe)) as Hr.
      apply Hr with op; [done|eapply slot_mono; [exact Hok|]; split; [apply Hok|done]|done|apply Hid|].
      intros v [Hv ->]. exists (view (whist w) i (generation c)), e. split_and!; try done. unfold pending_ops, view.
      destruct (Z.eqb_spec op OP_CONNECT) as [-> |]; [done|]. destruct (Z.eqb_spec op OP_RECV) as [-> |]; [done|]. cbn.
      replace OP_SEND with op; [done|]. destruct Hid as (_ & _ & ?). unfold OP_CONNECT, OP_RECV, OP_CONNECT_TIMEOUT, OP_SEND in *. lia.
    + apply slot_reaped_stale with g op e; try done; [intros; by eapply within_reap|]. intros ->. tauto.
Qed.
End worker.

(** ** Totals over the connections *)

Section load.
Context {K : Type} (weight : K → Z).
Fixpoint load (cs : list K) : Z := match cs with [] => 0 | c :: cs' => weight c + load cs' end.
Lemma load_insert cs i c c' : cs !! i = Some c → load (<[i := c']> cs) = load cs - weight c + weight c'.
Proof.
  revert i. induction cs as [|x cs IH]; intros i Hi; [done|]. destruct i as [|i].
  - injection Hi as ->. change (weight c' + load cs = weight c + load cs - weight c + weight c'). lia.
  - change (weight x + load (<[i := c']> cs) = weight x + load cs - weight c + weight c'). rewrite (IH i Hi). lia.
Qed.
Hypothesis weight_nonneg : ∀ c, 0 ≤ weight c.
Lemma load_nonneg cs : 0 ≤ load cs.
Proof. induction cs as [|c cs IH]; cbn [load]; [lia|]. pose proof (weight_nonneg c). lia. Qed.
Lemma load_elem cs i c : cs !! i = Some c → weight c ≤ load cs.
Proof.
  revert i. induction cs as [|x cs IH]; intros i Hi; [done|]. cbn [load]. destruct i as [|i].
  - injection Hi as ->. pose proof (load_nonneg cs). lia.
  - specialize (IH i Hi). pose proof (weight_nonneg x). lia.
Qed.
Lemma load_exists cs : 0 < load cs → ∃ i c, cs !! i = Some c ∧ 0 < weight c.
Proof.
  induction cs as [|c cs IH]; cbn [load]; [lia|]. destruct (Z.lt_ge_cases 0 (weight c)); [by exists 0%nat, c|].
  intros Hl. destruct IH as (i & c' & ? & ?); [lia|]. by exists (S i), c'.
Qed.
Lemma load_zero cs : (∀ c, c ∈ cs → weight c = 0) → load cs = 0.
Proof.
  induction cs as [|c cs IH]; intros Hz; cbn [load]; [done|]. rewrite (Hz c) by by left. rewrite IH; [done|]. intros; apply Hz. by right.
Qed.
End load.
End uring_conn.
