(* ===== verification/Tls.v ===== *)
(** * TLS sessions — [src/tls.rs]

    [TlsSession] sits between the socket and the HTTP layer: it holds back the
    plaintext rustls will not take yet and drains the ciphertext rustls has
    made.  rustls' [ClientConnection] is the parameter [Client], an error of it
    being [None]; what the code
    relies on is [ClientLaws], stated with what the connection has [accepted]
    of the plaintext, [emitted] as ciphertext, [decrypted] of what arrived and
    still has [readable] of that.

    [client_config] and [TrustAll] only choose options of rustls. *)

From S2P Require Import Prelude Effects.
From stdpp Require Import relations.
#[local] Open Scope Z_scope.

(** What [reader().read] returns. *)
Inductive read_outcome : Type := ReadBytes (b : bytes) | WouldBlock | UnexpectedEof | ReadFailed.

Class Client (C : Type) := {
  client_new : option C;                          (* ClientConnection::new *)
  read_tls : C → bytes → option (nat * C);     (* how much of the slice was taken *)
  process_new_packets : C → option (bool * C); (* peer_has_closed *)
  reader_read : C → nat → read_outcome * C;    (* into a buffer of this length *)
  writer_write : C → bytes → option (nat * C);
  wants_write : C → bool;
  write_tls : C → option (bytes * C);          (* into a Vec *)
  client_close_notify : C → C;
  client_handshaking : C → bool;
  client_alpn : C → option bytes;
  waiting : C → nat;                           (* bounds the write_tls calls that empty it *)
  available : C → nat;                         (* bounds the plaintext waiting to be read *)
}.

Class ClientLaws (C : Type) `{Client C} := {
  accepted : C → bytes;
  emitted : C → bytes;
  readable : C → bytes;
  decrypted : C → bytes;
  new_law c : client_new = Some c → accepted c = [] ∧ emitted c = [] ∧ readable c = [] ∧ decrypted c = [];
  write_law c d n c' : writer_write c d = Some (n, c') →
    (n ≤ length d)%nat ∧ accepted c' = accepted c ++ take n d ∧ emitted c' = emitted c ∧ readable c' = readable c ∧ decrypted c' = decrypted c ∧
    (n = 0%nat → wants_write c' = wants_write c ∧ waiting c' = waiting c);
  write_tls_law c b c' : wants_write c = true → write_tls c = Some (b, c') →
    b ≠ [] ∧ emitted c' = emitted c ++ b ∧ accepted c' = accepted c ∧ readable c' = readable c ∧
    decrypted c' = decrypted c ∧ (waiting c' < waiting c)%nat;
  read_tls_law c d n c' : read_tls c d = Some (n, c') →
    (n ≤ length d)%nat ∧ accepted c' = accepted c ∧ emitted c' = emitted c ∧ readable c' = readable c ∧ decrypted c' = decrypted c;
  process_law c p c' : process_new_packets c = Some (p, c') →
    accepted c' = accepted c ∧ emitted c' = emitted c ∧ 
    ∃ more, readable c' = readable c ++ more ∧ decrypted c' = decrypted c ++ more;
  read_law c cap o c' : reader_read c cap = (o, c') →
    accepted c' = accepted c ∧ emitted c' = emitted c ∧ decrypted c' = decrypted c ∧
    match o with
    | ReadBytes b => readable c = b ++ readable c' ∧ (b = [] → (0 < cap)%nat → readable c = [])
    | WouldBlock | UnexpectedEof => readable c = [] ∧ readable c' = []
    | ReadFailed => True
    end;
  waiting_law c : wants_write c = true → (0 < waiting c)%nat;
  available_law c : (length (readable c) ≤ available c)%nat;
  close_law c : accepted (client_close_notify c) = accepted c ∧ emitted (client_close_notify c) = emitted c ∧
    readable (client_close_notify c) = readable c ∧ decrypted (client_close_notify c) = decrypted c;
}.

(** The capacity [Vec] chooses when a vector of the first capacity has to hold
    the second number of elements; the standard library does not promise one. *)
Class VecGrowth := grow : nat → nat → nat.

Module tls.
Section session.
Context {C : Type} `{Client C} `{VecGrowth}.

(** [capacity] is the capacity of [pending_plaintext]. *)
Record TlsSession := mkTlsSession {
  conn : C;
  pending_plaintext : bytes;
  capacity : nat;
  pending_pos : nat;
  peer_closed : bool;
}.
#[global] Instance TlsSession_eta : Eta TlsSession := λ t,
  mkTlsSession (conn t) (pending_plaintext t) (capacity t) (pending_pos t) (peer_closed t).

Definition new : res TlsSession :=
  c ← ok_or "failed to create TLS session" client_new; Ok (mkTlsSession c [] 0 0 false).

(** [Vec::extend_from_slice] *)
Definition extend (data : bytes) (t : TlsSession) : TlsSession :=
  let l := pending_plaintext t ++ data in
  t <| pending_plaintext := l |> 
    <| capacity := if (capacity t <? length l)%nat then grow (capacity t) (length l) else capacity t |>.

(** [push_plaintext]: every turn hands rustls at least one byte more. *)
Fixpoint push_loop (fuel : nat) : eff TlsSession error unit :=
  t ← get;
  if bool_decide (pending_plaintext t = []) then mret tt
  else match fuel with
       | O => lift (panic "out of fuel")
       | S fuel' =>
           rest ← lift (slice_from (pending_plaintext t) (pending_pos t));
           '(n, c) ← lift (ok_or "TLS plaintext write failed" (writer_write (conn t) rest));
           _ ← modify (λ t, t <| conn := c |>);
           if (n =? 0)%nat then mret tt
           else
             _ ← modify (λ t, t <| pending_pos := (pending_pos t + n)%nat |>);
             _ ← modify (λ t, if (pending_pos t =? length (pending_plaintext t))%nat
                              then t <| pending_plaintext := [] |> <| pending_pos := 0%nat |> else t);
             push_loop fuel'
       end.
Definition push_plaintext : eff TlsSession error unit :=
  t ← get; push_loop (length (pending_plaintext t)).

(** [while wants_write { write_tls(out) }] *)
Fixpoint drain_loop (fuel : nat) (out : bytes) : eff TlsSession error bytes :=
  t ← get;
  if wants_write (conn t) then
    match fuel with
    | O => lift (panic "out of fuel")
    | S fuel' =>
        '(b, c) ← lift (ok_or "write_tls failed" (write_tls (conn t)));
        _ ← modify (λ t, t <| conn := c |>);
        drain_loop fuel' (out ++ b)
    end
  else mret out.
Definition drain (out : bytes) : eff TlsSession error bytes := t ← get; drain_loop (waiting (conn t)) out.

(** [take_ciphertext_into]: a turn that is not the last took plaintext. *)
Fixpoint take_loop (fuel : nat) (out : bytes) : eff TlsSession error bytes :=
  match fuel with
  | O => lift (panic "out of fuel")
  | S fuel' =>
      _ ← push_plaintext;
      let before := length out in
      out ← drain out;
      t ← get;
      if bool_decide (pending_plaintext t = []) || (length out =? before)%nat then mret out
      else take_loop fuel' out
  end.
Definition take_ciphertext_into : eff TlsSession error bytes :=
  t ← get; take_loop (S (S (length (pending_plaintext t)))) [].
Definition take_ciphertext : eff TlsSession error bytes := take_ciphertext_into.

Definition write_plaintext (data : bytes) : eff TlsSession error unit :=
  _ ← modify (λ t,
        let remaining := (length (pending_plaintext t) - pending_pos t)%nat in
        if (capacity t - length (pending_plaintext t) <? length data)%nat && (remaining <=? pending_pos t)%nat
        then t <| pending_plaintext := drop (pending_pos t) (pending_plaintext t) |> <| pending_pos := 0%nat |>
        else t);
  _ ← modify (extend data);
  push_plaintext.

Definition is_handshaking (t : TlsSession) : bool := client_handshaking (conn t).

(** The inner [while] of [write_plaintext_and_take_ciphertext]: what is left of
    the data. *)
Fixpoint write_loop (fuel : nat) (data : bytes) : eff TlsSession error bytes :=
  if bool_decide (data = []) then mret data
  else match fuel with
       | O => lift (panic "out of fuel")
       | S fuel' =>
           t ← get;
           match writer_write (conn t) data with
           | None => _ ← modify (extend data); lift (bail "TLS plaintext write failed")
           | Some (n, c) =>
               _ ← modify (λ t, t <| conn := c |>);
               if (n =? 0)%nat then mret data
               else rest ← lift (slice_from data n); write_loop fuel' rest
           end
       end.

Fixpoint write_take_loop (fuel : nat) (data out : bytes) : eff TlsSession error bytes :=
  match fuel with
  | O => lift (panic "out of fuel")
  | S fuel' =>
      data ← write_loop (length data) data;
      let before := length out in
      out ← drain out;
      if bool_decide (data = []) then mret out
      else if (length out =? before)%nat then _ ← modify (extend data); mret out
      else write_take_loop fuel' data out
  end.

Definition write_plaintext_and_take_ciphertext (data : bytes) : eff TlsSession error bytes :=
  t ← get;
  if is_handshaking t || negb (bool_decide (pending_plaintext t = [])) then
    _ ← write_plaintext data; take_ciphertext_into
  else write_take_loop (S (S (length data))) data [].

Definition send_close_notify (t : TlsSession) : TlsSession :=
  t <| pending_plaintext := [] |> <| pending_pos := 0%nat |> <| conn := client_close_notify (conn t) |>.

Definition alpn_protocol (t : TlsSession) : option bytes := client_alpn (conn t).

(** [read_plaintext] into a buffer of [cap] bytes; nothing is [[]] *)
Definition read_plaintext (cap : nat) : eff TlsSession error bytes :=
  t ← get;
  let '(o, c) := reader_read (conn t) cap in
  _ ← modify (λ t, t <| conn := c |>);
  match o with
  | ReadBytes b => mret b
  | WouldBlock | UnexpectedEof => mret []
  | ReadFailed => lift (bail "TLS plaintext read failed")
  end.
End session.
Arguments TlsSession : clear implicits.

(** ** [feed_into] *)

Section feed.
Context {C : Type} `{Client C} {S : Type}.

(** A method of the session, and one of what the sink writes to. *)
Definition of_session {A} (m : eff (TlsSession C) error A) : eff (TlsSession C * S) error A := λ '(t, s),
  let '(r, t') := m t in (r, (t', s)).
Definition of_sink {A} (m : eff S error A) : eff (TlsSession C * S) error A := λ '(t, s),
  let '(r, s') := m s in (r, (t, s')).

Variable sink : bytes → eff S error unit.
Variable scratch : nat.

(** Take the plaintext out; every turn but the last reads some of it. *)
Fixpoint hand_over (fuel : nat) : eff (TlsSession C * S) error unit :=
  match fuel with
  | O => lift (panic "out of fuel")
  | Datatypes.S fuel' =>
      b ← of_session (read_plaintext scratch);
      if bool_decide (b = []) then mret tt else _ ← of_sink (sink b); hand_over fuel'
  end.

(** One turn per read of ciphertext. *)
Fixpoint feed_loop (fuel : nat) (data : bytes) : eff (TlsSession C * S) error unit :=
  if bool_decide (data = []) then mret tt
  else match fuel with
       | O => lift (panic "out of fuel")
       | Datatypes.S fuel' =>
           '(t, _) ← get;
           '(n, c) ← lift (ok_or "read_tls failed" (read_tls (conn t) data));
           _ ← modify (λ '(t, s), (t <| conn := c |>, s));
           if (n =? 0)%nat then mret tt
           else
             data ← lift (slice_from data n);
             '(closed, c) ← lift (ok_or "TLS error" (process_new_packets c));
             _ ← modify (λ '(t, s), (t <| conn := c |> <| peer_closed := peer_closed t || closed |>, s));
             _ ← hand_over (Datatypes.S (available c));
             feed_loop fuel' data
       end.
Definition feed_into (data : bytes) : eff (TlsSession C * S) error unit := feed_loop (length data) data.
End feed.

(** ** What the session guarantees *)

Section facts.
Context {C : Type} `{CL : ClientLaws C} `{VecGrowth}.

(** What has been handed to the session and not yet to rustls. *)
Definition held_back (t : TlsSession C) : bytes := drop (pending_pos t) (pending_plaintext t).
(** Everything handed to the session, in order. *)
Definition written (t : TlsSession C) : bytes := accepted (conn t) ++ held_back t.

(** A backlog always has something left in it. *)
Definition session_ok (t : TlsSession C) : Prop :=
  pending_plaintext t = [] ∧ pending_pos t = 0%nat ∨ (pending_pos t < length (pending_plaintext t))%nat.

(** What writing leaves alone. *)
Definition same_input (t t' : TlsSession C) : Prop :=
  readable (conn t') = readable (conn t) ∧ decrypted (conn t') = decrypted (conn t) ∧ peer_closed t' = peer_closed t.
#[global] Instance same_input_preorder : PreOrder same_input.
Proof. split; [done|]. intros t1 t2 t3 (? & ? & ?) (? & ? & ?). unfold same_input. split_and!; congruence. Qed.

(** A method that never panics and leaves the input side alone. *)
Definition safe {A} (m : eff (TlsSession C) error A) (t : TlsSession C) (Q : A → TlsSession C → Prop) : Prop :=
  holds m t (λ a t', session_ok t' ∧ same_input t t' ∧ Q a t') (λ e _, ∀ msg, e ≠ Panic msg).

Lemma safe_bind {A B} (m : eff (TlsSession C) error A) (f : A → eff (TlsSession C) error B) t P Q :
  safe m t P → (∀ a t', session_ok t' → P a t' → safe (f a) t' Q) → safe (m ≫= f) t Q.
Proof.
  intros Hm Hf. unfold safe, holds in *. rewrite bind_run. destruct (m t) as [[a|e] t']; [|done].
  destruct Hm as (Hok & Hin & HP). specialize (Hf a t' Hok HP). destruct (f a t') as [[b|e] t'']; [|done].
  destruct Hf as (? & ? & ?). split_and!; [done|by etrans|done].
Qed.

Lemma held_back_length t : session_ok t → pending_plaintext t ≠ [] → held_back t ≠ [].
Proof.
  intros [[Hp _]|Hlt] Hne Hh; [done|]. apply (f_equal length) in Hh. unfold held_back in Hh.
  rewrite length_drop in Hh. cbn in Hh. lia.
Qed.
Lemma held_back_empty t : pending_plaintext t = [] → held_back t = [].
Proof. unfold held_back. intros ->. apply drop_nil. Qed.
Lemma held_back_bound t : (length (held_back t) ≤ length (pending_plaintext t))%nat.
Proof. unfold held_back. rewrite length_drop. lia. Qed.

(** rustls has been offered the backlog as it is and took none of it. *)
Definition refused (t : TlsSession C) : Prop := ∃ c, writer_write c (held_back t) = Some (0%nat, conn t).

(** What pushing the backlog does: the backlog is gone, or refused; and unless
    some of it was taken, rustls is no nearer to writing. *)
Definition pushed (t t' : TlsSession C) : Prop :=
  written t' = written t ∧ emitted (conn t') = emitted (conn t) ∧
  (pending_plaintext t' = [] ∨ refused t') ∧
  ((length (held_back t') < length (held_back t))%nat ∨
   held_back t' = held_back t ∧ wants_write (conn t') = wants_write (conn t) ∧ waiting (conn t') = waiting (conn t)).

Lemma push_loop_safe fuel : ∀ t,
  session_ok t → (length (held_back t) ≤ fuel)%nat → safe (push_loop fuel) t (λ _ t', pushed t t').
Proof.
  induction fuel as [|fuel IH]; intros t Hok Hf; cbn [push_loop]; unfold safe, holds; rewrite bind_run; cbn [get].
  { case_bool_decide as Hp; [|exfalso; apply (held_back_length t Hok Hp), nil_length_inv; lia].
    split_and!; [done|done|]. split_and!; [done|done|by left|by right]. }
  case_bool_decide as Hp; [by split_and!; [| |split_and!; [| |left|right]]|].
  assert (pending_pos t < length (pending_plaintext t))%nat as Hlt by (destruct Hok as [[? _]|?]; [done|lia]).
  rewrite bind_run. rewrite slice_from_le by lia. cbn [lift]. rewrite bind_run. fold (held_back t).
  destruct (writer_write (conn t) (held_back t)) as [[n c]|] eqn:E; cbn [lift ok_or]; [|done].
  destruct (write_law _ _ _ _ E) as (Hn & Hacc & Hem & Hrd & Hdec & Hzero). rewrite bind_run. cbn [modify].
  destruct (Nat.eqb_spec n 0) as [-> |Hn0].
  - destruct (Hzero eq_refl) as [Hw Hwt]. split_and!; [exact Hok|done|]. rewrite app_nil_r in Hacc. split_and!.
    + unfold written. cbn. by rewrite Hacc.
    + done.
    + right. by exists (conn t).
    + by right.
  - rewrite bind_run. cbn [modify]. rewrite bind_run. cbn [modify].
    set (t1 := if (_ =? _)%nat then _ else _).
    assert (held_back t1 = drop n (held_back t)) as Hh1.
    { subst t1. cbn. unfold held_back at 2. rewrite drop_drop. destruct (Nat.eqb_spec (pending_pos t + n) (length (pending_plaintext t))) as [He|He]; [|done].
      unfold held_back. cbn. by rewrite He, drop_all. }
    assert (conn t1 = c ∧ peer_closed t1 = peer_closed t) as [Hc1 Hpc] by (subst t1; cbn; by destruct (_ =? _)%nat).
    assert (session_ok t1) as Hok1.
    { subst t1. unfold held_back in Hn. rewrite length_drop in Hn. cbn. destruct (Nat.eqb_spec (pending_pos t + n) (length (pending_plaintext t))); [by left|].
      right. cbn. lia. }
    assert (length (held_back t1) < length (held_back t))%nat as Hl1.
    { rewrite Hh1, length_drop. lia. }
    specialize (IH t1 Hok1 ltac:(lia)). unfold safe, holds in IH. destruct (push_loop fuel t1) as [[u|e] t2]; [|done].
    destruct IH as (Hok2 & Hin & Hw & Hem2 & Href & Hlen). rewrite Hc1 in *. split_and!; [done| |].
    + etrans; [|exact Hin]. unfold same_input. rewrite Hc1. by split_and!.
    + split_and!; [|congruence|done|left; destruct Hlen as [?|[-> _]]; lia].
      rewrite Hw. unfold written. rewrite Hc1, Hacc, Hh1, <- app_assoc. by rewrite take_drop.
Qed.

Lemma push_plaintext_safe t : session_ok t → safe push_plaintext t (λ _ t', pushed t t').
Proof. intros Hok. unfold push_plaintext, safe, holds. rewrite bind_run. cbn [get]. apply push_loop_safe; [done|]. apply held_back_bound. Qed.

(** What draining does: the output is what rustls emitted, and it has no more. *)
Definition drained (out : bytes) (t : TlsSession C) (out' : bytes) (t' : TlsSession C) : Prop :=
  held_back t' = held_back t ∧ pending_plaintext t' = pending_plaintext t ∧ accepted (conn t') = accepted (conn t) ∧
  wants_write (conn t') = false ∧
  (∃ b, out' = out ++ b ∧ emitted (conn t') = emitted (conn t) ++ b) ∧
  (length out' = length out → t' = t) ∧
  (wants_write (conn t) = false → out' = out).

Lemma drain_loop_safe fuel : ∀ out t,
  session_ok t → (waiting (conn t) ≤ fuel)%nat → safe (drain_loop fuel out) t (λ out' t', drained out t out' t').
Proof.
  induction fuel as [|fuel IH]; intros out t Hok Hf; cbn [drain_loop]; unfold safe, holds; rewrite bind_run; cbn [get];
    (destruct (wants_write (conn t)) eqn:Hw;
     [|split_and!; [done|done|]; unfold drained; split_and!; try done; exists []; by rewrite !app_nil_r]).
  { apply waiting_law in Hw. lia. }
  rewrite bind_run. destruct (write_tls (conn t)) as [[b c]|] eqn:E; cbn [lift ok_or]; [|done].
  destruct (write_tls_law _ _ _ Hw E) as (Hb & Hem & Hacc & Hrd & Hdec & Hlt). rewrite bind_run. cbn [modify].
  set (t1 := t <| conn := c |>).
  specialize (IH (out ++ b) t1 Hok ltac:(cbn; lia)). unfold safe, holds in IH.
  destruct (drain_loop fuel (out ++ b) t1) as [[out'|e] t2]; [|done].
  destruct IH as (Hok2 & Hin & Hh & Hp & Ha & Hw2 & (b2 & -> & Hem2) & _ & _). cbn in *.
  split_and!; [done|by etrans; [|exact Hin]|]. split_and!; [done|done|congruence|done| | |congruence].
  - exists (b ++ b2). rewrite <- app_assoc. split; [done|]. by rewrite Hem2, Hem, app_assoc.
  - rewrite !length_app. destruct b; [done|]. cbn. lia.
Qed.
Lemma drain_safe out t : session_ok t → safe (drain out) t (λ out' t', drained out t out' t').
Proof. intros Hok. unfold drain, safe, holds. rewrite bind_run. cbn [get]. by apply drain_loop_safe. Qed.

(** What a flush leaves: all that was written is still written, the output is
    what rustls emitted, rustls has nothing more to say, and a backlog that
    remains is one it has just refused. *)
Definition flushed (out : bytes) (t : TlsSession C) (out' : bytes) (t' : TlsSession C) : Prop :=
  written t' = written t ∧ wants_write (conn t') = false ∧
  (∃ b, out' = out ++ b ∧ emitted (conn t') = emitted (conn t) ++ b) ∧
  (pending_plaintext t' = [] ∨ refused t').

Lemma pushed_drained t t1 out out' t2 :
  pushed t t1 → drained out t1 out' t2 →
  written t2 = written t ∧ wants_write (conn t2) = false ∧
  (∃ b, out' = out ++ b ∧ emitted (conn t2) = emitted (conn t) ++ b).
Proof.
  intros (Hw & Hem & _ & _) (Hh & _ & Ha & Hww & (b & Hb & Hem2) & _ & _). split_and!; [|done|].
  - rewrite <- Hw. unfold written. by rewrite Hh, Ha.
  - exists b. by rewrite Hem2, Hem.
Qed.

Lemma take_loop_safe fuel : ∀ out t,
  session_ok t → (length (held_back t) + (if wants_write (conn t) then 2 else 1) ≤ fuel)%nat →
  safe (take_loop fuel out) t (λ out' t', flushed out t out' t').
Proof.
  induction fuel as [|fuel IH]; intros out t Hok Hf; [destruct (wants_write _); lia|]. cbn [take_loop].
  eapply safe_bind; [by apply push_plaintext_safe|]. cbv beta. intros [] t1 Hok1 Hpush.
  eapply safe_bind; [by apply drain_safe|]. cbv beta. intros out1 t2 Hok2 Hdrain.
  pose proof (pushed_drained _ _ _ _ _ Hpush Hdrain) as (Hwr & Hww & b & Hb & Hem).
  destruct Hpush as (_ & _ & Href & Hprog). destruct Hdrain as (Hh & Hp & _ & _ & _ & Hsame & Hquiet).
  unfold safe, holds. rewrite bind_run. cbn [get]. destruct (bool_decide _ || _) eqn:Hstop.
  - split_and!; [done|done|]. split_and!; [done|done|by exists b|].
    apply orb_prop in Hstop as [Hs%bool_decide_eq_true|Hs%Nat.eqb_eq]; [by left|]. rewrite (Hsame Hs). done.
  - apply orb_false_iff in Hstop as [Hpne%bool_decide_eq_false Hlen%Nat.eqb_neq].
    specialize (IH out1 t2 Hok2). rewrite Hww in IH. unfold safe, holds in IH.
    destruct (take_loop fuel out1 t2) as [[out2|e] t3].
    + destruct IH as (Hok3 & Hin & Hwr3 & Hww3 & (b3 & -> & Hem3) & Href3).
      * destruct Hprog as [Hlt|(Heq & Hw1 & _)]; [rewrite Hh; destruct (wants_write (conn t)); lia|].
        rewrite Hw1 in Hquiet. destruct (wants_write (conn t)); [rewrite Hh, Heq; lia|]. by rewrite Hquiet in Hlen.
      * split_and!; [done|done|]. split_and!; [congruence|done| |done].
        exists (b ++ b3). subst out1. rewrite <- app_assoc. split; [done|]. by rewrite Hem3, Hem, app_assoc.
    + apply IH. destruct Hprog as [Hlt|(Heq & Hw1 & _)]; [rewrite Hh; destruct (wants_write (conn t)); lia|].
      rewrite Hw1 in Hquiet. destruct (wants_write (conn t)); [rewrite Hh, Heq; lia|]. by rewrite Hquiet in Hlen.
Qed.
Lemma take_ciphertext_safe t : session_ok t → safe take_ciphertext_into t (λ out t', flushed [] t out t').
Proof.
  intros Hok. unfold take_ciphertext_into, safe, holds. rewrite bind_run. cbn [get]. apply take_loop_safe; [done|].
  pose proof (held_back_bound t). destruct (wants_write (conn t)); lia.
Qed.

(** *** Writing *)

Lemma extend_held_back data t : session_ok t → held_back (extend data t) = held_back t ++ data.
Proof.
  intros Hok. unfold extend, held_back. cbn. destruct Hok as [[Hp Hz]|Hlt]; [by rewrite Hp, Hz|].
  rewrite drop_app_le; [done|lia].
Qed.
Lemma extend_ok data t : session_ok t → data ≠ [] ∨ pending_plaintext t ≠ [] → session_ok (extend data t).
Proof.
  intros Hok Hne. right. cbn. rewrite length_app. destruct Hok as [[Hp Hz]|Hlt]; [|lia]. rewrite Hp, Hz. cbn.
  destruct Hne as [Hne|?]; [|done]. destruct data; [done|]. cbn. lia.
Qed.
Lemma extend_nil t : session_ok t → session_ok (extend [] t).
Proof.
  intros Hok. destruct (decide (pending_plaintext t = [])) as [Hp|Hp]; [|apply extend_ok; auto].
  destruct Hok as [[_ Hz]|Hlt]; [|rewrite Hp in Hlt; cbn in Hlt; lia]. left. cbn. by rewrite app_nil_r.
Qed.

(** The backlog after a write, before it is pushed. *)
Lemma write_backlog data t :
  session_ok t →
  let t' := extend data
    (let remaining := (length (pending_plaintext t) - pending_pos t)%nat in
     if (capacity t - length (pending_plaintext t) <? length data)%nat && (remaining <=? pending_pos t)%nat
     then t <| pending_plaintext := drop (pending_pos t) (pending_plaintext t) |> <| pending_pos := 0%nat |> else t) in
  session_ok t' ∧ conn t' = conn t ∧ peer_closed t' = peer_closed t ∧ held_back t' = held_back t ++ data.
Proof.
  intros Hok t'. set (t1 := if _ && _ then _ else _) in t'.
  assert (session_ok t1 ∧ held_back t1 = held_back t ∧ conn t1 = conn t ∧ peer_closed t1 = peer_closed t) as (Hok1 & Hh1 & Hc1 & Hp1).
  { subst t1. destruct (_ && _); [|done]. split_and!; [|done..]. unfold session_ok. cbn.
    destruct Hok as [[Hp Hz]|Hlt]; [left; by rewrite Hp, Hz|right]. rewrite length_drop. lia. }
  split_and!; [|done|done|by rewrite <- Hh1; apply extend_held_back].
  destruct (decide (data = [])) as [-> |?]; [by apply extend_nil|apply extend_ok; auto].
Qed.

Lemma write_plaintext_safe data t :
  session_ok t →
  safe (write_plaintext data) t (λ _ t', written t' = written t ++ data ∧ emitted (conn t') = emitted (conn t)).
Proof.
  intros Hok. unfold write_plaintext, safe, holds. rewrite !bind_run. cbn [modify]. rewrite bind_run. cbn [modify].
  destruct (write_backlog data t Hok) as (Hok1 & Hc & Hpc & Hh). set (t1 := extend data _) in *.
  pose proof (push_plaintext_safe t1 Hok1) as Hp. unfold safe, holds in Hp. destruct (push_plaintext t1) as [[u|e] t2]; [|done].
  destruct Hp as (Hok2 & Hin & Hw & Hem & _). split_and!; [done| | |congruence].
  - etrans; [|exact Hin]. unfold same_input. by rewrite Hc.
  - rewrite Hw. unfold written. by rewrite Hc, Hh, app_assoc.
Qed.

(** The session after the backlog was written straight through. *)
Definition wrote (data : bytes) (t : TlsSession C) (rest : bytes) (t' : TlsSession C) : Prop :=
  pending_plaintext t' = [] ∧ pending_pos t' = 0%nat ∧ emitted (conn t') = emitted (conn t) ∧
  accepted (conn t') ++ rest = accepted (conn t) ++ data ∧
  (rest = [] ∨ ∃ c, writer_write c rest = Some (0%nat, conn t')) ∧
  ((length rest < length data)%nat ∨ rest = data ∧ wants_write (conn t') = wants_write (conn t)).

Lemma write_loop_safe fuel : ∀ data t,
  pending_plaintext t = [] → pending_pos t = 0%nat → (length data ≤ fuel)%nat →
  safe (write_loop fuel data) t (λ rest t', wrote data t rest t').
Proof.
  induction fuel as [|fuel IH]; intros data t Hp Hz Hf; cbn [write_loop]; case_bool_decide as Hd.
  1,3: (subst; unfold safe, holds; cbn; split_and!; [by left|done|]; split_and!; try done; [by left|by right]).
  { destruct data; [done|]. cbn in Hf. lia. }
  unfold safe, holds. rewrite bind_run. cbn [get].
  destruct (writer_write (conn t) data) as [[n c]|] eqn:E; [|rewrite bind_run; done].
  destruct (write_law _ _ _ _ E) as (Hn & Hacc & Hem & Hrd & Hdec & Hzero). rewrite bind_run. cbn [modify].
  destruct (Nat.eqb_spec n 0) as [-> |Hn0].
  - destruct (Hzero eq_refl) as [Hw _]. cbn. split_and!; [by left|done|]. rewrite app_nil_r in Hacc.
    unfold wrote. cbn. rewrite Hacc. split_and!; try done; [right; by exists (conn t)|by right].
  - rewrite bind_run, slice_from_le by done. cbn [lift].
    set (t1 := t <| conn := c |>).
    specialize (IH (drop n data) t1 Hp Hz ltac:(rewrite length_drop; lia)). unfold safe, holds in IH.
    destruct (write_loop fuel _ t1) as [[rest|e] t2]; [|done]. destruct IH as (Hok2 & Hin & Hp2 & Hz2 & Hem2 & Ha2 & Href & Hlen).
    cbn in *. split_and!; [done|by etrans; [|exact Hin]|]. split_and!; [done|done|congruence| |done|].
    + rewrite Ha2, Hacc, <- app_assoc. by rewrite take_drop.
    + left. rewrite length_drop in Hlen. destruct Hlen as [?|[-> _]]; [lia|]. rewrite length_drop. lia.
Qed.

Lemma write_take_loop_safe fuel : ∀ data out t,
  pending_plaintext t = [] → pending_pos t = 0%nat →
  (length data + (if wants_write (conn t) then 2 else 1) ≤ fuel)%nat →
  safe (write_take_loop fuel data out) t (λ out' t',
    written t' = written t ++ data ∧ wants_write (conn t') = false ∧
    (∃ b, out' = out ++ b ∧ emitted (conn t') = emitted (conn t) ++ b) ∧
    (pending_plaintext t' = [] ∨ refused t')).
Proof.
  induction fuel as [|fuel IH]; intros data out t Hp Hz Hf; [destruct (wants_write _); lia|]. cbn [write_take_loop].
  assert (held_back t = []) as Hh0 by by apply held_back_empty.
  eapply safe_bind; [by apply write_loop_safe|]. cbv beta. intros rest t1 Hok1 (Hp1 & Hz1 & Hem1 & Ha1 & Href & Hprog).
  eapply safe_bind; [by apply drain_safe|]. cbv beta. intros out1 t2 Hok2 (Hh2 & Hp2 & Ha2 & Hw2 & (b & Hb & Hem2) & Hsame & Hquiet).
  rewrite Hp1 in Hp2.
  assert (pending_pos t2 = 0%nat) as Hz2 by (destruct Hok2 as [[_ ?]|Hlt]; [done|rewrite Hp2 in Hlt; cbn in Hlt; lia]).
  case_bool_decide as Hr.
  - unfold safe, holds. cbn. split; [done|split; [done|]]. split_and!; [|done|exists b; by rewrite Hem2, Hem1|by left].
    unfold written. rewrite Hh0, (held_back_empty t2) by done. rewrite !app_nil_r, Ha2. subst rest. by rewrite app_nil_r in Ha1.
  - destruct (Nat.eqb_spec (length out1) (length out)) as [Hl|Hl].
    + unfold safe, holds. rewrite bind_run. cbn [modify mret eff_ret]. specialize (Hsame Hl). subst t2.
      split; [by apply extend_ok; auto|split; [done|]].
      assert (held_back (extend rest t1) = rest) as Hhe by by rewrite extend_held_back, held_back_empty.
      split_and!; [|done|exists b; split; [done|]; change (emitted (conn t1) = emitted (conn t) ++ b); rewrite <- Hem1; exact Hem2|].
      * unfold written at 1. rewrite Hhe. unfold written. rewrite Hh0, app_nil_r. exact Ha1.
      * right. destruct Href as [?|[c Hc]]; [done|]. exists c. by rewrite Hhe.
    + assert (length rest + 1 ≤ fuel)%nat as Hf2.
      { destruct Hprog as [?|[-> Hw1]]; [destruct (wants_write (conn t)); lia|].
        destruct (wants_write (conn t)); [lia|]. by rewrite Hquiet in Hl. }
      specialize (IH rest out1 t2 Hp2 Hz2). rewrite Hw2 in IH. specialize (IH Hf2). unfold safe, holds in *.
      destruct (write_take_loop fuel rest out1 t2) as [[out2|e] t3]; [|done].
      destruct IH as (Hok3 & Hin & Hwr & Hw3 & (b3 & -> & Hem3) & Href3). split; [done|split; [done|]]. split_and!; [|done| |done].
      * rewrite Hwr. unfold written. rewrite Hh0, (held_back_empty t2), !app_nil_r, Ha2 by done. exact Ha1.
      * exists (b ++ b3). subst out1. rewrite <- app_assoc. split; [done|]. by rewrite Hem3, Hem2, Hem1, app_assoc.
Qed.

Lemma write_take_safe data t :
  session_ok t →
  safe (write_plaintext_and_take_ciphertext data) t (λ out t',
    written t' = written t ++ data ∧ wants_write (conn t') = false ∧ emitted (conn t') = emitted (conn t) ++ out ∧
    (pending_plaintext t' = [] ∨ refused t')).
Proof.
  intros Hok. unfold write_plaintext_and_take_ciphertext, safe, holds. rewrite bind_run. cbn [get].
  destruct (is_handshaking t || negb _) eqn:Hslow.
  - apply (safe_bind _ _ t _ _ (write_plaintext_safe data t Hok)). intros [] t1 Hok1 [Hw1 Hem1].
    pose proof (take_ciphertext_safe t1 Hok1) as Ht. unfold safe, holds in *.
    destruct (take_ciphertext_into t1) as [[out|e] t2]; [|done]. destruct Ht as (? & ? & Hw & ? & (b & -> & Hem) & ?).
    split; [done|split; [done|]]. split_and!; [congruence|done|by rewrite Hem, Hem1|done].
  - apply orb_false_iff in Hslow as [_ Hp%negb_false_iff%bool_decide_eq_true].
    assert (pending_pos t = 0%nat) as Hz by (destruct Hok as [[_ ?]|Hlt]; [done|rewrite Hp in Hlt; cbn in Hlt; lia]).
    pose proof (write_take_loop_safe (S (S (length data))) data [] t Hp Hz ltac:(destruct (wants_write _); lia)) as Ht.
    unfold safe, holds in *. destruct (write_take_loop _ data [] t) as [[out|e] t2]; [|done].
    destruct Ht as (? & ? & ? & ? & (b & -> & Hem) & ?). by split_and!.
Qed.
End facts.

(** Receiving leaves the output side alone, whatever the sink does. *)
Section feed_output.
Context {C S : Type} `{CL : ClientLaws C}.

Definition same_output (p p' : TlsSession C * S) : Prop :=
  let '(t, t') := (fst p, fst p') in
  pending_plaintext t' = pending_plaintext t ∧ pending_pos t' = pending_pos t ∧
  accepted (conn t') = accepted (conn t) ∧ emitted (conn t') = emitted (conn t).
#[global] Instance same_output_preorder : PreOrder same_output.
Proof. split; [done|]. intros p1 p2 p3 (? & ? & ? & ?) (? & ? & ? & ?). unfold same_output. split_and!; congruence. Qed.

Lemma same_output_facts t t' (s s' : S) :
  same_output (t, s) (t', s') → (session_ok t → session_ok t') ∧ written t' = written t ∧ emitted (conn t') = emitted (conn t).
Proof.
  intros (Hp & Hz & Ha & He). cbn in *. unfold session_ok, written, held_back. by rewrite Hp, Hz, Ha, He.
Qed.

Lemma hand_over_output sink scratch fuel : evolves same_output (hand_over (S := S) sink scratch fuel).
Proof.
  induction fuel as [|fuel IH]; cbn [hand_over]; [apply evolves_lift; apply _|].
  apply evolves_bind; [apply _| |intros b].
  - intros [t s]. unfold read_plaintext, of_session. rewrite bind_run. cbn [get]. destruct (reader_read (conn t) scratch) as [o c] eqn:E.
    destruct (read_law _ _ _ _ E) as (? & ? & _). rewrite bind_run. cbn [modify]. by destruct o.
  - case_bool_decide; [apply evolves_ret; apply _|]. apply evolves_bind; [apply _| |done].
    intros [t s]. unfold of_sink. by destruct (sink b s).
Qed.
Lemma feed_output sink scratch data : evolves same_output (feed_into (S := S) sink scratch data).
Proof.
  unfold feed_into. generalize (length data) as fuel. intros fuel. revert data.
  induction fuel as [|fuel IH]; intros data; cbn [feed_loop]; (case_bool_decide; [apply evolves_ret; apply _|]); [apply evolves_lift; apply _|].
  intros [t s]. rewrite bind_run. cbn [get]. rewrite bind_run. destruct (read_tls (conn t) data) as [[n c]|] eqn:E; cbn [lift ok_or]; [|done].
  destruct (read_tls_law _ _ _ _ E) as (_ & Ha & He & _). rewrite bind_run. cbn [modify]. destruct (_ =? _)%nat; [done|].
  rewrite bind_run. destruct (slice_from data n); cbn [lift]; [|done]. rewrite bind_run.
  destruct (process_new_packets c) as [[closed c2]|] eqn:Ep; cbn [lift ok_or]; [|done].
  destruct (process_law _ _ _ Ep) as (Ha2 & He2 & _). rewrite bind_run. cbn [modify].
  match goal with |- same_output _ (?m ?p).2 => trans p; [split_and!; cbn; congruence|] end.
  match goal with |- same_output ?p _ => generalize p end. apply evolves_bind; [apply _|apply hand_over_output|auto].
Qed.

(** What the sink keeps true of itself holds after a receive, whatever ends it. *)
Lemma hand_over_sink sink scratch (I J : S → Prop) fuel : ∀ t s,
  (∀ c b c', reader_read c scratch = (ReadBytes b, c') → ∀ s, I s → holds (sink b) s (λ _, I) (λ _, J)) → (∀ s, I s → J s) →
  I s → holds (hand_over (C := C) sink scratch fuel) (t, s) (λ _ p, I (snd p)) (λ _ p, J (snd p)).
Proof.
  intros t s Hsink HIJ. revert t s. induction fuel as [|fuel IH]; intros t s Hs; cbn [hand_over]; [by apply HIJ|].
  unfold holds. rewrite bind_run. unfold of_session at 1, read_plaintext. rewrite bind_run. cbn [get].
  destruct (reader_read (conn t) scratch) as [o c] eqn:E. rewrite bind_run. cbn [modify].
  destruct o as [b| | |]; cbn [mret eff_ret lift bail]; [|by rewrite bool_decide_true..|by apply HIJ].
  case_bool_decide; [done|]. rewrite bind_run. unfold of_sink at 1. specialize (Hsink _ _ _ E s Hs). unfold holds in Hsink.
  destruct (sink b s) as [[[]|e] s']; [|done]. by apply IH.
Qed.
Lemma feed_sink sink scratch (I J : S → Prop) data t s :
  (∀ c b c', reader_read c scratch = (ReadBytes b, c') → ∀ s, I s → holds (sink b) s (λ _, I) (λ _, J)) → (∀ s, I s → J s) →
  I s → holds (feed_into (C := C) sink scratch data) (t, s) (λ _ p, I (snd p)) (λ _ p, J (snd p)).
Proof.
  intros Hsink HIJ. unfold feed_into. generalize (length data) as fuel. intros fuel. revert data t s.
  induction fuel as [|fuel IH]; intros data t s Hs; cbn [feed_loop]; (case_bool_decide; [done|]); [by apply HIJ|].
  apply holds_bind. apply holds_get. apply holds_bind, holds_lift; [|intros; by apply HIJ]. intros [n c] _.
  apply holds_bind, holds_modify. destruct (_ =? _)%nat; [done|]. apply holds_bind, holds_lift; [|intros; by apply HIJ]. intros rest _.
  apply holds_bind, holds_lift; [|intros; by apply HIJ]. intros [closed c2] _. apply holds_bind, holds_modify, holds_bind.
  eapply holds_mono; [by apply hand_over_sink| |done]. intros [] [t' s'] Hs'. by apply IH.
Qed.
End feed_output.

(** ** A whole session *)

(** What has passed through a session: the plaintext given to it, the
    ciphertext taken from it and the plaintext handed to the sink. *)
Record Ledger := mkLedger { given : bytes; sent : bytes; got : bytes }.
#[global] Instance Ledger_eta : Eta Ledger := λ l, mkLedger (given l) (sent l) (got l).

Inductive op : Type := Write (data : bytes) | Take | WriteTake (data : bytes) | Feed (data : bytes).
Definition flushes (o : op) : bool := match o with Take | WriteTake _ => true | _ => false end.

Section run.
Context {C : Type} `{CL : ClientLaws C} `{VecGrowth}.
(** Whether the decoder rejects a chunk, after what it has had so far. *)
Variable rejects : bytes → bytes → bool.
Variable scratch : nat.

Definition sink (b : bytes) : eff Ledger error unit :=
  l ← get; _ ← modify (λ l, l <| got := got l ++ b |>);
  if rejects (got l) b then lift (bail "bad response") else mret tt.

Definition perform (o : op) : eff (TlsSession C * Ledger) error unit :=
  match o with
  | Write data => _ ← of_sink (modify (λ l, l <| given := given l ++ data |>)); of_session (write_plaintext data)
  | Take => out ← of_session take_ciphertext_into; of_sink (modify (λ l, l <| sent := sent l ++ out |>))
  | WriteTake data =>
      _ ← of_sink (modify (λ l, l <| given := given l ++ data |>));
      out ← of_session (write_plaintext_and_take_ciphertext data);
      of_sink (modify (λ l, l <| sent := sent l ++ out |>))
  | Feed data => feed_into sink scratch data
  end.
Fixpoint perform_all (ops : list op) : eff (TlsSession C * Ledger) error unit :=
  match ops with [] => mret tt | o :: rest => _ ← perform o; perform_all rest end.

(** What the ledger says of the session. *)
Definition balanced (p : TlsSession C * Ledger) : Prop :=
  let '(t, l) := p in
  session_ok t ∧ given l = written t ∧ sent l = emitted (conn t) ∧ got l = decrypted (conn t) ∧ readable (conn t) = [].
Definition settled (p : TlsSession C * Ledger) : Prop :=
  wants_write (conn (fst p)) = false ∧ (pending_plaintext (fst p) = [] ∨ refused (fst p)).
Definition no_panic (e : error) (_ : TlsSession C * Ledger) : Prop := ∀ msg, e ≠ Panic msg.

(** A method of the session inside the run. *)
Lemma of_session_holds {A} (m : eff (TlsSession C) error A) t (l : Ledger) Q :
  safe m t Q →
  holds (of_session m) (t, l) (λ a p, snd p = l ∧ session_ok (fst p) ∧ same_input t (fst p) ∧ Q a (fst p)) no_panic.
Proof. unfold safe, holds, of_session. by destruct (m t) as [[a|e] t']. Qed.

Lemma hand_over_holds fuel : ∀ t l,
  (0 < scratch)%nat → session_ok t → (length (readable (conn t)) < fuel)%nat →
  holds (hand_over sink scratch fuel) (t, l)
    (λ _ '(t', l'), session_ok t' ∧ written t' = written t ∧ emitted (conn t') = emitted (conn t) ∧
       readable (conn t') = [] ∧ decrypted (conn t') = decrypted (conn t) ∧
       given l' = given l ∧ sent l' = sent l ∧ got l' = got l ++ readable (conn t)) no_panic.
Proof.
  induction fuel as [|fuel IH]; intros t l Hs Hok Hf; [lia|]. cbn [hand_over]. unfold holds. rewrite bind_run.
  unfold read_plaintext at 1. cbn [of_session]. rewrite bind_run. cbn [get].
  destruct (reader_read (conn t) scratch) as [o c] eqn:E. rewrite bind_run. cbn [modify].
  destruct (read_law _ _ _ _ E) as (Ha & Hem & Hdec & Ho).
  destruct o as [b| | |]; cbn [mret eff_ret lift bail]; [|destruct Ho as [Hr Hr']..|]; [| | |unfold no_panic; done].
  2,3: (rewrite bool_decide_true by done; cbn; unfold written, held_back; cbn;
        rewrite Ha, Hr; split_and!; try done; by rewrite app_nil_r).
  destruct Ho as [Hr Hempty]. case_bool_decide as Hb.
  - subst b. cbn in Hr. rewrite Hempty in Hr by done. cbn. unfold written, held_back. cbn. rewrite Ha, Hempty by done.
    split_and!; try done. by rewrite app_nil_r.
  - rewrite bind_run. unfold sink at 1. cbn [of_sink]. rewrite bind_run. cbn [get]. rewrite bind_run. cbn [modify].
    destruct (rejects _ _); [unfold no_panic; done|]. cbn [mret eff_ret].
    set (t1 := t <| conn := c |>). set (l1 := l <| got := got l ++ b |>).
    assert (length (readable (conn t1)) < fuel)%nat as Hf1.
    { apply (f_equal length) in Hr. rewrite length_app in Hr. destruct b; [done|]. cbn in *. lia. }
    specialize (IH t1 l1 Hs Hok Hf1). unfold holds in IH. destruct (hand_over _ _ fuel (t1, l1)) as [[u|e] [t2 l2]]; [|done].
    destruct IH as (? & Hw & Hem2 & ? & Hd2 & ? & ? & Hg). split_and!; try done.
    + rewrite Hw. unfold written, held_back. cbn. by rewrite Ha.
    + by rewrite Hem2.
    + by rewrite Hd2.
    + rewrite Hg, Hr. cbn. by rewrite <- app_assoc.
Qed.

Lemma feed_loop_holds fuel : ∀ data p,
  (0 < scratch)%nat → (length data ≤ fuel)%nat → balanced p →
  holds (feed_loop sink scratch fuel data) p (λ _, balanced) no_panic.
Proof.
  induction fuel as [|fuel IH]; intros data [t l] Hs Hf Hb; cbn [feed_loop]; (case_bool_decide as Hd; [exact Hb|]).
  { destruct data; [done|]. cbn in Hf. lia. }
  destruct Hb as (Hok & Hg & Hst & Hgot & Hrd).
  unfold holds. rewrite bind_run. cbn [get]. rewrite bind_run.
  destruct (read_tls (conn t) data) as [[n c]|] eqn:E; cbn [lift ok_or]; [|unfold no_panic; done].
  destruct (read_tls_law _ _ _ _ E) as (Hn & Ha & Hem & Hr & Hdec). rewrite bind_run. cbn [modify].
  destruct (Nat.eqb_spec n 0) as [Hz|Hz].
  { cbn. unfold written, held_back. cbn. rewrite Ha, Hem, Hr, Hdec. by split_and!. }
  rewrite bind_run, slice_from_le by done. cbn [lift]. rewrite bind_run.
  destruct (process_new_packets c) as [[closed c2]|] eqn:Ep; cbn [lift ok_or]; [|unfold no_panic; done].
  destruct (process_law _ _ _ Ep) as (Ha2 & Hem2 & more & Hr2 & Hd2). rewrite bind_run. cbn [modify]. rewrite bind_run.
  set (t1 := _ <| peer_closed := _ |>).
  assert (written t1 = written t ∧ conn t1 = c2 ∧ session_ok t1) as (Hw1 & Hc1 & Hok1).
  { subst t1. unfold written, held_back. cbn. by rewrite Ha2, Ha. }
  pose proof (hand_over_holds (S (available c2)) t1 l Hs Hok1) as Hh. rewrite Hc1 in Hh.
  specialize (Hh ltac:(pose proof (available_law c2); lia)). unfold holds in Hh.
  destruct (hand_over _ _ _ (t1, l)) as [[u|e] [t3 l3]]; [|done].
  destruct Hh as (Hok3 & Hw3 & Hem3 & Hr3 & Hd3 & Hg3 & Hs3 & Hgot3).
  apply IH; [done|rewrite length_drop; lia|]. split_and!; [done|congruence|congruence| |done].
  rewrite Hgot3, Hd3, Hd2, Hr2, Hr, Hrd, Hdec. by rewrite Hgot.
Qed.

Lemma perform_holds o p :
  (0 < scratch)%nat → balanced p →
  holds (perform o) p (λ _ p', balanced p' ∧ (flushes o = true → settled p')) no_panic.
Proof.
  intros Hs. destruct p as [t l]. intros (Hok & Hg & Hst & Hgot & Hrd). destruct o as [data| |data|data]; cbn [perform].
  - apply holds_bind. cbn. eapply holds_mono; [by apply of_session_holds, write_plaintext_safe| |done].
    intros [] [t' l'] (Hl & Hok' & (Hr & Hd & _) & Hw & Hem). cbn in *. subst l'. split; [|done]. split_and!; cbn; congruence.
  - apply holds_bind. eapply holds_mono; [by apply of_session_holds, take_ciphertext_safe| |done].
    intros out [t' l'] (Hl & Hok' & (Hr & Hd & _) & Hw & Hww & (b & -> & Hem) & Href). cbn in *. subst l'.
    split; [split_and!; cbn; congruence|done].
  - apply holds_bind. cbn. apply holds_bind. eapply holds_mono; [by apply of_session_holds, write_take_safe| |done].
    intros out [t' l'] (Hl & Hok' & (Hr & Hd & _) & Hw & Hww & Hem & Href). cbn in *. subst l'.
    split; [split_and!; cbn; congruence|done].
  - eapply holds_mono; [by apply feed_loop_holds; [|exact (Nat.le_refl _)|split_and!]| |done]. done.
Qed.

(** C24: However writes, flushes and received data are interleaved on a TLS
    session, and wherever rustls stops taking plaintext or ciphertext, no call
    panics or loops; and after calls that all succeed, what rustls has accepted
    followed by what is held back is exactly the plaintext given, in order; the
    ciphertext handed to the socket is exactly what rustls emitted; the
    plaintext handed to the decoder is exactly what it decrypted, with none of
    it left waiting; and if the last call was a flush, rustls has nothing more
    to send and anything still held back is what it has just refused. *)
Theorem session_conserves (t0 : TlsSession C) (ops : list op) (o : op) :
  (0 < scratch)%nat → new = Ok t0 →
  holds (_ ← perform_all ops; perform o) (t0, mkLedger [] [] [])
    (λ _ p, balanced p ∧ (flushes o = true → settled p)) no_panic.
Proof.
  intros Hs Hnew.
  assert (balanced (t0, mkLedger [] [] [])) as Hb.
  { unfold new in Hnew. cbn in Hnew. destruct client_new as [c|] eqn:E; [|done]. injection Hnew as <-.
    destruct (new_law c E) as (Ha & ? & ? & ?). split_and!; cbn; try done; [by left|]. unfold written. cbn. by rewrite Ha. }
  generalize (mkLedger [] [] []), t0, Hb. clear t0 Hnew Hb. intros l t Hb. revert t l Hb.
  induction ops as [|o' rest IH]; intros t l Hb; [by apply perform_holds|].
  cbn [perform_all]. apply holds_bind, holds_bind. eapply holds_mono; [by apply perform_holds| |done].
  intros [] [t1 l1] [Hb1 _]. specialize (IH t1 l1 Hb1). unfold holds in IH |- *. rewrite bind_run in IH.
  destruct (perform_all rest (t1, l1)) as [[]?]; done.
Qed.
End run.

(** ** A concrete client *)

(** A client that encrypts nothing, takes two bytes of plaintext while its
    buffer is empty, reads three bytes of ciphertext at a time and yields them
    all at once. *)
Module loopback.
Record Loop := mkLoop {
  took : bytes; queue : bytes; emits : bytes; inbox : bytes; plain : bytes; opened : bytes;
}.
#[export] Instance Loop_client : Client Loop := {
  client_new := Some (mkLoop [] [] [] [] [] []);
  read_tls c d := let n := Nat.min 3 (length d) in
    Some (n, mkLoop (took c) (queue c) (emits c) (inbox c ++ take n d) (plain c) (opened c));
  process_new_packets c :=
    Some (false, mkLoop (took c) (queue c) (emits c) [] (plain c ++ inbox c) (opened c ++ inbox c));
  reader_read c cap :=
    if bool_decide (plain c = []) then (WouldBlock, c)
    else (ReadBytes (take cap (plain c)), mkLoop (took c) (queue c) (emits c) (inbox c) (drop cap (plain c)) (opened c));
  writer_write c d :=
    let n := if bool_decide (queue c = []) then Nat.min 2 (length d) else 0%nat in
    Some (n, mkLoop (took c ++ take n d) (queue c ++ take n d) (emits c) (inbox c) (plain c) (opened c));
  wants_write c := negb (bool_decide (queue c = []));
  write_tls c := Some (queue c, mkLoop (took c) [] (emits c ++ queue c) (inbox c) (plain c) (opened c));
  client_close_notify c := c;
  client_handshaking _ := false;
  client_alpn _ := None;
  waiting c := length (queue c);
  available c := length (plain c);
}.
#[export] Program Instance Loop_laws : ClientLaws Loop := {
  accepted := took; emitted := emits; readable := plain; decrypted := opened;
}.
Next Obligation. by intros c [= <-]. Qed.
Next Obligation.
  intros c d n c' [= <- <-]. cbn. split_and!; try done; [case_bool_decide; destruct (length d) as [|[|]]; lia|]. intros ->. cbn. by rewrite app_nil_r.
Qed.
Next Obligation.
  intros c b c' Hw%negb_true_iff%bool_decide_eq_false [= <- <-]. cbn. split_and!; try done. by destruct (queue c); cbn; [|lia].
Qed.
Next Obligation. intros c d n c' [= <- <-]. cbn. split_and!; try done. destruct (length d) as [|[|[|]]]; lia. Qed.
Next Obligation. intros c p c' [= <- <-]. cbn. split_and!; try done. by eexists. Qed.
Next Obligation.
  intros c cap o c' E. cbn in E. case_bool_decide as Hp; injection E as <- <-; cbn; split_and!; try done; [by rewrite take_drop|].
  intros Ht Hc. destruct cap; [lia|]. by destruct (plain c).
Qed.
Next Obligation. intros c Hw%negb_true_iff%bool_decide_eq_false. cbn. destruct (queue c); [done|]. cbn. lia. Qed.
Next Obligation. done. Qed.
Next Obligation. done. Qed.
#[export] Instance exact_growth : VecGrowth := λ _ n, n.
End loopback.

Section witness.
Import loopback.
Definition sample_ops : list op := [Write [1; 2; 3]; Feed [7; 8; 9; 10]; WriteTake [4; 5]].

Lemma session_conserves_witness :
  ∃ t p, perform_all (C := Loop) (λ _ _, false) 2 sample_ops (mkTlsSession (mkLoop [] [] [] [] [] []) [] 0 0 false, mkLedger [] [] []) = (Ok tt, (t, p)) ∧
    p = mkLedger [1; 2; 3; 4; 5] [1; 2; 3; 4; 5] [7; 8; 9; 10] ∧ pending_plaintext t = [] ∧
    holds (_ ← perform_all (C := Loop) (λ _ _, false) 2 sample_ops; perform (λ _ _, false) 2 Take)
      (mkTlsSession (mkLoop [] [] [] [] [] []) [] 0 0 false, mkLedger [] [] [])
      (λ _ p, balanced p ∧ (flushes Take = true → settled p)) no_panic.
Proof.
  eexists _, _. split; [vm_compute; reflexivity|]. split; [reflexivity|]. split; [reflexivity|].
  apply (session_conserves (C := Loop) (λ _ _, false) 2 _ sample_ops Take); [lia|reflexivity].
Defined.
End witness.
End tls.
