(* ===== verification/TlsHandshake.v ===== *)
(** * TLS sessions that are still shaking hands

    What a client may rely on before the handshake is over: rustls hands out no
    plaintext, and only the packets of the peer end the handshake. *)

From S2P Require Import Prelude Effects Tls.
From stdpp Require Import relations.
#[local] Open Scope Z_scope.

Class HandshakeLaws (C : Type) `{ClientLaws C} : Prop := {
  handshake_new c : client_new = Some c → client_handshaking c = true;
  handshake_silent c : client_handshaking c = true → decrypted c = [];
  handshake_write c d n c' : writer_write c d = Some (n, c') → client_handshaking c' = client_handshaking c;
  handshake_write_tls c b c' : write_tls c = Some (b, c') → client_handshaking c' = client_handshaking c;
  handshake_read_tls c d n c' : read_tls c d = Some (n, c') → client_handshaking c' = client_handshaking c;
  handshake_read c cap o c' : reader_read c cap = (o, c') → client_handshaking c' = client_handshaking c;
  handshake_once c p c' : process_new_packets c = Some (p, c') → client_handshaking c = false → client_handshaking c' = false;
}.

Module tls_handshake.
Import tls.

Section writing.
Context {C : Type} `{HL : HandshakeLaws C} `{VecGrowth}.
Abbreviation M := (eff (TlsSession C) error).

(** Writing neither begins nor ends a handshake. *)
Definition same_phase (t t' : TlsSession C) : Prop := is_handshaking t' = is_handshaking t.
#[global] Instance same_phase_preorder : PreOrder same_phase.
Proof. split; [done|]. unfold same_phase. intros ? ? ? ? ?. congruence. Qed.

Lemma push_loop_phase fuel : evolves same_phase (push_loop (C := C) fuel).
Proof.
  induction fuel as [|fuel IH]; cbn [push_loop]; apply evolves_bind_get; intros t; (case_bool_decide; [done|]); [done|].
  rewrite bind_run. destruct (slice_from _ _) as [rest|e]; cbn [lift]; [|done]. rewrite bind_run.
  destruct (writer_write (conn t) rest) as [[n c]|] eqn:E; cbn [lift ok_or]; [|done]. apply handshake_write in E. rewrite bind_run. cbn [modify].
  destruct (n =? 0)%nat; [exact E|]. rewrite bind_run. cbn [modify]. rewrite bind_run. cbn [modify].
  etrans; [|apply IH]. unfold same_phase, is_handshaking. destruct (_ =? _)%nat; exact E.
Qed.
Lemma push_plaintext_phase : evolves same_phase (push_plaintext (C := C)).
Proof. apply evolves_bind_get. intros t. apply push_loop_phase. Qed.
Lemma drain_loop_phase fuel : ∀ out, evolves same_phase (drain_loop (C := C) fuel out).
Proof.
  induction fuel as [|fuel IH]; intros out; cbn [drain_loop]; apply evolves_bind_get; intros t; (destruct (wants_write _); [|done]); [done|].
  rewrite bind_run. destruct (write_tls (conn t)) as [[b c]|] eqn:E; cbn [lift ok_or]; [|done]. apply handshake_write_tls in E. rewrite bind_run. cbn [modify].
  etrans; [|apply IH]. exact E.
Qed.
Lemma take_loop_phase fuel : ∀ out, evolves same_phase (take_loop (C := C) fuel out).
Proof.
  induction fuel as [|fuel IH]; intros out; cbn [take_loop]; evolve; [apply push_plaintext_phase| |apply IH].
  apply evolves_bind_get. intros t. apply drain_loop_phase.
Qed.
Lemma take_ciphertext_phase : evolves same_phase (take_ciphertext_into (C := C)).
Proof. apply evolves_bind_get. intros t. apply take_loop_phase. Qed.
Lemma write_plaintext_phase data : evolves same_phase (write_plaintext (C := C) data).
Proof.
  unfold write_plaintext. evolve; [|done|apply push_plaintext_phase]. unfold same_phase. by destruct (_ && _).
Qed.
End writing.

(** ** Feeding *)

Section feeding.
Context {C S : Type} `{HL : HandshakeLaws C}.
Variables (sink : bytes → eff S error unit) (scratch : nat).

(** What rustls has to hand out it has decrypted. *)
Definition tidy (c : C) : Prop := readable c `suffix_of` decrypted c.

(** The sink has been called only if there was plaintext. *)
Definition heard (s : S) (p : TlsSession C * S) : Prop :=
  tidy (conn p.1) ∧ (p.2 = s ∨ decrypted (conn p.1) ≠ []).

Lemma hand_over_heard fuel : ∀ t s0 s,
  heard s0 (t, s) → holds (hand_over sink scratch fuel) (t, s) (λ _ p, heard s0 p ∧ is_handshaking p.1 = is_handshaking t) (λ _ _, True).
Proof.
  induction fuel as [|fuel IH]; intros t s0 s [Ht Hs]; cbn [hand_over]; [done|]. cbn [fst snd] in *.
  unfold holds. rewrite bind_run. unfold of_session at 1, read_plaintext. rewrite bind_run. cbn [get].
  destruct (reader_read (conn t) scratch) as [o c] eqn:E. rewrite bind_run. cbn [modify].
  pose proof (handshake_read _ _ _ _ E) as Hh. destruct (read_law _ _ _ _ E) as (_ & _ & Hd & Hr). unfold tidy in *.
  destruct o as [b| | |]; cbn [mret eff_ret lift bail]; [| | |done].
  2,3: rewrite bool_decide_true by done; destruct Hr as [_ Hr]; split; [|exact Hh]; split; cbn; unfold tidy; rewrite ?Hr, ?Hd; [apply suffix_nil|done].
  destruct Hr as [Hr _]. assert (readable c `suffix_of` decrypted c) as Ht' by (rewrite Hd; etrans; [|exact Ht]; exists b; exact Hr).
  case_bool_decide as Hb; [split; [|exact Hh]; split; [exact Ht'|cbn; by rewrite Hd]|].
  rewrite bind_run. unfold of_sink at 1. destruct (sink b s) as [[[]|e] s']; [|done].
  pose proof (IH (t <| conn := c |>) s0 s') as IH'. unfold holds in IH'.
  destruct (hand_over sink scratch fuel (t <| conn := c |>, s')) as [[[]|e] p]; [|done]. destruct IH' as [Hp Hh'].
  - split; [exact Ht'|]. right. cbn. rewrite Hd. intros Hn. rewrite Hn in Ht. apply suffix_nil_inv in Ht. rewrite Hr in Ht. by destruct b.
  - split; [done|]. rewrite Hh'. exact Hh.
Qed.

Lemma feed_loop_heard fuel : ∀ data t s0 s,
  heard s0 (t, s) →
  holds (feed_loop sink scratch fuel data) (t, s) (λ _ p, heard s0 p ∧ (is_handshaking t = false → is_handshaking p.1 = false)) (λ _ _, True).
Proof.
  induction fuel as [|fuel IH]; intros data t s0 s Hs; cbn [feed_loop]; (case_bool_decide; [by split|]); [done|].
  apply holds_bind. apply holds_get. apply holds_bind, holds_lift; [|done]. intros [n c] E. destruct (read_tls (conn t) data) as [[n' c']|] eqn:Er; [|done]. injection E as -> ->.
  destruct (read_tls_law _ _ _ _ Er) as (_ & _ & _ & Hrd & Hdc). pose proof (handshake_read_tls _ _ _ _ Er) as Hh.
  apply holds_bind, holds_modify.
  assert (heard s0 (t <| conn := c |>, s)) as Hs1 by (unfold heard, tidy in *; cbn in *; by rewrite Hrd, Hdc).
  destruct (_ =? _)%nat; [split; [exact Hs1|]; unfold is_handshaking in *; cbn; congruence|]. apply holds_bind, holds_lift; [|done]. intros rest _.
  apply holds_bind, holds_lift; [|done]. intros [closed c2] Ep. destruct (process_new_packets c) as [[cl c2']|] eqn:Epp; [|done]. injection Ep as -> ->.
  destruct (process_law _ _ _ Epp) as (_ & _ & more & Hr2 & Hd2). apply holds_bind, holds_modify, holds_bind.
  set (t2 := t <| conn := c |> <| conn := c2 |> <| peer_closed := _ |>).
  assert (heard s0 (t2, s)) as Hs2.
  { destruct Hs1 as [[k Hk] Hor]. unfold heard, tidy. cbn in *. rewrite Hr2, Hd2. split; [exists k; by rewrite Hk, app_assoc|].
    destruct Hor as [?|Hne]; [by left|right]. by destruct (decrypted c). }
  eapply holds_mono; [by apply (hand_over_heard _ t2 s0 s)| |done]. intros [] [t3 s3] [Hs3 Hh3]. cbn [fst] in Hh3.
  eapply holds_mono; [by apply (IH rest t3 s0 s3)| |done]. intros [] p [Hp Hph]. split; [done|]. intros Hf. apply Hph. rewrite Hh3.
  apply (handshake_once _ _ _ Epp). rewrite Hh. exact Hf.
Qed.
Lemma feed_heard data t s :
  tidy (conn t) → holds (feed_into sink scratch data) (t, s) (λ _ p, heard s p ∧ (is_handshaking t = false → is_handshaking p.1 = false)) (λ _ _, True).
Proof. intros Ht. apply feed_loop_heard. by split; [|left]. Qed.
End feeding.

(** ** A client that shakes hands

    It opens with a hello, takes no plaintext until it has heard one record, and
    then passes bytes through as they are. *)
Module greeter.
Record Greeter := mkGreeter {
  shook : bool; took : bytes; queue : bytes; emits : bytes; inbox : bytes; plain : bytes; opened : bytes;
}.
Definition octets (b : bytes) : bytes := (λ x, x mod 256) <$> b.
Definition visible (c : Greeter) (b : bytes) : bytes := if shook c then octets b else [].
#[export] Instance Greeter_client : Client Greeter := {
  client_new := Some (mkGreeter false [] [1] [] [] [] []);
  read_tls c d := Some (length d, mkGreeter (shook c) (took c) (queue c) (emits c) (inbox c ++ d) (plain c) (opened c));
  process_new_packets c :=
    if shook c then Some (false, mkGreeter true (took c) (queue c) (emits c) [] (plain c ++ inbox c) (opened c ++ inbox c))
    else Some (false, mkGreeter true (took c) (queue c) (emits c) [] (tail (inbox c)) (tail (inbox c)));
  reader_read c cap :=
    if bool_decide (visible c (plain c) = []) then (WouldBlock, c)
    else (ReadBytes (take cap (octets (plain c))), mkGreeter (shook c) (took c) (queue c) (emits c) (inbox c) (drop cap (plain c)) (opened c));
  writer_write c d :=
    let n := if shook c then length d else 0%nat in
    Some (n, mkGreeter (shook c) (took c ++ take n d) (queue c ++ take n d) (emits c) (inbox c) (plain c) (opened c));
  wants_write c := negb (bool_decide (queue c = []));
  write_tls c := Some (queue c, mkGreeter (shook c) (took c) [] (emits c ++ queue c) (inbox c) (plain c) (opened c));
  client_close_notify c := c;
  client_handshaking c := negb (shook c);
  client_alpn _ := Some (bstr "h2");
  waiting c := length (queue c);
  available c := length (plain c);
}.
#[export] Program Instance Greeter_laws : ClientLaws Greeter := {
  accepted := took; emitted := emits; readable c := visible c (plain c); decrypted c := visible c (opened c);
}.
Next Obligation. by intros c [= <-]. Qed.
Next Obligation.
  intros c d n c' [= <- <-]. cbn. split_and!; try done; [destruct (shook c); lia|]. intros ->. cbn. by rewrite app_nil_r.
Qed.
Next Obligation.
  intros c b c' Hw%negb_true_iff%bool_decide_eq_false [= <- <-]. cbn. split_and!; try done. by destruct (queue c); cbn; [|lia].
Qed.
Next Obligation. intros c d n c' [= <- <-]. done. Qed.
Next Obligation.
  intros c p c' E. cbn in E. destruct (shook c) eqn:Es; injection E as <- <-; cbn; (split; [done|split; [done|]]); unfold visible; rewrite Es; cbn.
  - exists (octets (inbox c)). unfold octets. by rewrite <- !fmap_app.
  - by exists (octets (tail (inbox c))).
Qed.
Next Obligation.
  intros c cap o c' E. cbn in E. unfold visible in *. case_bool_decide as Hp; injection E as <- <-; cbn; split_and!; try done.
  - destruct (shook c); [|done]. unfold octets. by rewrite <- fmap_take, <- fmap_app, take_drop.
  - intros Ht Hc. destruct (shook c); [|done]. destruct cap; [lia|]. by destruct (plain c).
Qed.
Next Obligation. intros c Hw%negb_true_iff%bool_decide_eq_false. cbn. destruct (queue c); [done|]. cbn. lia. Qed.
Next Obligation. intros c. cbn. unfold visible, octets. destruct (shook c); [by rewrite length_fmap|cbn; lia]. Qed.
Next Obligation. done. Qed.
#[export] Instance Greeter_handshake : HandshakeLaws Greeter.
Proof.
  split; cbn.
  - by intros c [= <-].
  - intros c. unfold visible. by destruct (shook c).
  - by intros c d n c' [= <- <-].
  - by intros c b c' [= <- <-].
  - by intros c d n c' [= <- <-].
  - intros c cap o c'. case_bool_decide; by intros [= <- <-].
  - intros c p c'. destruct (shook c); by intros [= <- <-].
Qed.
End greeter.
End tls_handshake.
