(* ===== verification/Http1Worker.v ===== *)
(** * The HTTP/1.1 worker — [src/http1.rs]

    One thread, one io_uring and a set of connections.  [Local] is what a
    method that is handed one connection can touch (that connection, the ring,
    the receive buffers and the counters); [Worker] is the whole thread, and
    [at_conn] runs a method on [conns[i]].  The kernel is [uring.Kernel] and
    rustls [Client]; an [Instant] is nanoseconds. *)

From S2P Require Import Prelude Effects Status Stats Http1Parse Target Uring Tls.
From stdpp Require Import relations.
#[local] Open Scope Z_scope.

Module http1.
Import uring.

(** ** [struct Conn] *)

Record Conn {C : Type} := mkConn {
  fd : Z;
  connected : bool;
  parser : http1_parse.Parser;
  tls : option (tls.TlsSession C);
  out : bytes;
  out_off : nat;
  sending : bool;
  queued : bool;
  recv_single : bool;
  recv_armed : bool;
  generation : Z;
  request_start : Z;
  unsent : bool;
  active : bool;
  deadline : option Z;
}.
Arguments Conn : clear implicits.
#[global] Instance Conn_eta C : Eta (Conn C) := λ c,
  mkConn C (fd c) (connected c) (parser c) (tls c) (out c) (out_off c) (sending c) (queued c) (recv_single c)
    (recv_armed c) (generation c) (request_start c) (unsent c) (active c) (deadline c).

(** What one connection's methods can touch. *)
Record Local {C : Type} := mkLocal {
  world : World;
  self : Conn C;
  stats : stats.Stats;
  pool : buf_ring.BufRing;
  started : Z;
}.
Arguments Local : clear implicits.
#[global] Instance Local_eta C : Eta (Local C) := λ l, mkLocal C (world l) (self l) (stats l) (pool l) (started l).

Section worker.
Context `{Kernel} `{Memchr} {C : Type} `{Client C} `{VecGrowth}.

(** [Conn::new], at the given instant *)
Definition new_conn (now : Z) : Conn C :=
  mkConn C (-1) false http1_parse.new None [] 0 false false false false 0 now true false None.

Abbreviation M := (eff (Local C) error).

(** A call of the ring, and an update of the connection or the counters. *)
Definition on_ring {A} (m : eff World error A) : M A := λ l,
  let '(r, w) := m (world l) in (r, l <| world := w |>).
Definition update (f : Conn C → Conn C) : M unit := modify (λ l, l <| self := f (self l) |>).
Definition update_stats (f : stats.Stats → stats.Stats) : M unit := modify (λ l, l <| stats := f (stats l) |>).
Definition me : M (Conn C) := l ← get; mret (self l).
Definition now : M Z := l ← get; mret (k_now (world l)).

Definition count_error (s : stats.Stats) : stats.Stats :=
  stats.mkStats (stats.completed s) (u64 (stats.errors s + 1)) (stats.connect_errors s) (stats.bytes_received s)
    (stats.bytes_sent s) (stats.latencies_ns s) (stats.status_counts s).
Definition count_connect_error (s : stats.Stats) : stats.Stats :=
  stats.mkStats (stats.completed s) (stats.errors s) (u64 (stats.connect_errors s + 1)) (stats.bytes_received s)
    (stats.bytes_sent s) (stats.latencies_ns s) (stats.status_counts s).
Definition count_received (n : Z) (s : stats.Stats) : stats.Stats :=
  stats.mkStats (stats.completed s) (stats.errors s) (stats.connect_errors s) (u64 (stats.bytes_received s + n))
    (stats.bytes_sent s) (stats.latencies_ns s) (stats.status_counts s).
Definition count_sent (n : Z) (s : stats.Stats) : stats.Stats :=
  stats.mkStats (stats.completed s) (stats.errors s) (stats.connect_errors s) (stats.bytes_received s)
    (u64 (stats.bytes_sent s + n)) (stats.latencies_ns s) (stats.status_counts s).

(** A method of the connection's TLS session, when it has one. *)
Definition on_tls {A} (t : tls.TlsSession C) (m : eff (tls.TlsSession C) error A) : M A :=
  let '(r, t') := m t in _ ← update (λ c, c <| tls := Some t' |>); lift r.

(** [match m { Ok(a) => .., Err(_) => .. }]; a panic is not caught *)
Definition attempt {A} (m : M A) : M (option A) := λ l,
  match m l with
  | (Ok a, l') => (Ok (Some a), l')
  | (Err (Bail _), l') => (Ok None, l')
  | (Err e, l') => (Err e, l')
  end.

(** ** Methods of [Conn] *)

Definition outbound (c : Conn C) (request : bytes) : bytes :=
  match tls c with Some _ => out c | None => request end.

Definition send_close_notify : M unit :=
  c ← me;
  match tls c with
  | None => mret tt
  | Some t =>
      if sending c then mret tt
      else
        taken ← attempt (on_tls (tls.send_close_notify t) tls.take_ciphertext_into);
        match taken with
        | None => mret tt
        | Some bytes =>
            _ ← update (λ c, c <| out := bytes |>);
            if bool_decide (bytes = []) then mret tt else on_ring (raw_send (fd c) bytes)
        end
  end.

Definition close : M unit :=
  c ← me;
  _ ← when (0 <=? fd c) (_ ← send_close_notify; _ ← on_ring (close_fd (fd c)); update (λ c, c <| fd := -1 |>));
  update (λ c, c <| connected := false |> <| recv_armed := false |> <| sending := false |> <| queued := false |>
                 <| tls := None |> <| out := [] |> <| out_off := 0%nat |>
                 <| generation := next_generation (generation c) |>).

Definition io_quiescent (c : Conn C) : bool :=
  recv_single c && connected c && negb (recv_armed c) && negb (sending c).

Definition begin_request (timeout : option Z) : M unit :=
  t ← now;
  update (λ c, c <| active := true |> <| unsent := true |> <| deadline := (λ d, t + d) <$> timeout |>).
Definition end_request : M unit := update (λ c, c <| active := false |> <| deadline := None |>).
Definition fail_request : M unit :=
  c ← me; when (active c) (_ ← update_stats count_error; end_request).
Definition mark_sent : M unit :=
  c ← me; t ← now; when (unsent c) (update (λ c, c <| unsent := false |> <| request_start := t |>)).

(** ** Retiring a connection *)

(** How often [submit] may be interrupted before the submission queue of a
    retiring socket is empty; the loop has no bound of its own. *)
Variable patience : nat.

Definition retire (i : nat) : M unit :=
  c ← me;
  _ ← when (0 <=? fd c)
    (_ ← when (negb (io_quiescent c))
           (_ ← on_ring (drain_sq patience "io_uring made no progress before HTTP/1.1 socket retirement"
                           "submit before HTTP/1.1 socket retirement failed");
            on_ring (sync_cancel (ByFile i) "cancel retired HTTP/1.1 I/O failed"));
     on_ring (register_files_update i (-1) "unregister retired HTTP/1.1 socket failed"));
  close.

(** ** Sending *)

Definition queue_request (request : bytes) : M unit :=
  c ← me;
  match tls c with
  | Some t => on_tls t (tls.write_plaintext request)
  | None =>
      if sending c then update (λ c, c <| queued := true |>) else update (λ c, c <| out_off := 0%nat |>)
  end.

Definition submit_tls_output (i : nat) : M unit :=
  c ← me;
  if bool_decide (out c = []) then mret tt
  else
    t ← lift (match tls c with Some t => Ok t | None => panic "unwrap on None" end);
    _ ← when (negb (tls.is_handshaking t)) mark_sent;
    _ ← update (λ c, c <| out_off := 0%nat |> <| sending := true |>);
    on_ring (push_send_slice i (generation c) (out c)).

Definition flush (i : nat) (request : bytes) : M unit :=
  c ← me;
  if sending c then mret tt
  else match tls c with
  | Some t =>
      bytes ← on_tls t tls.take_ciphertext_into;
      _ ← update (λ c, c <| out := bytes |>);
      submit_tls_output i
  | None =>
      if (out_off c <? length (outbound c request))%nat then
        _ ← mark_sent;
        _ ← update (λ c, c <| sending := true |>);
        rest ← lift (slice_from (outbound c request) (out_off c));
        on_ring (push_send_slice i (generation c) rest)
      else mret tt
  end.

Definition queue_and_flush_request (i : nat) (request : bytes) : M unit :=
  c ← me;
  match sending c, tls c with
  | false, Some t =>
      bytes ← on_tls t (tls.write_plaintext_and_take_ciphertext request);
      _ ← update (λ c, c <| out := bytes |>);
      submit_tls_output i
  | _, _ => _ ← queue_request request; flush i request
  end.

(** The connection is given a request to send: a note, for the theorems. *)
Definition ask (i : nat) : M unit := c ← me; on_ring (log (Asked (user_data i (generation c) OP_SEND))).

(** ** Receiving *)

(** [stats.record_success(conn.parser.status(), conn.request_start)] *)
Definition record_success : M unit :=
  l ← get;
  let elapsed := Z.max 0 (k_now (world l) - request_start (self l)) in
  s ← lift (stats.record_success (stats l) (http1_parse.status (parser (self l))) elapsed);
  update_stats (λ _, s).

Definition finish_at_eof : M unit :=
  c ← me;
  if negb (active c) then mret tt
  else
    let '(p, complete) := http1_parse.mark_eof (parser c) in
    _ ← update (λ c, c <| parser := p |>);
    _ ← (if complete then record_success else update_stats count_error);
    end_request.

Definition push_recv (i : nat) : M unit :=
  c ← me;
  _ ← on_ring (if recv_single c then push_recv_single i (generation c) else push_recv_multi i (generation c));
  update (λ c, c <| recv_armed := true |>).

(** [buf_ring.recycle(bid)] *)
Definition recycle (bid : Z) : M unit :=
  _ ← modify (λ l, l <| pool := buf_ring.recycle (pool l) bid |>); on_ring (log (Recycled bid)).
Definition recycle_any (bid : option Z) : M unit :=
  match bid with Some bid => recycle bid | None => mret tt end.

(** [buf_ring.data(bid, len)] *)
Definition data (bid len : Z) : M bytes :=
  l ← get;
  _ ← lift (buf_ring.data_range (pool l) bid len);
  mret (take (Z.to_nat len) (k_buffer (world l) bid)).

Definition SCRATCH : nat := 32 * 1024.

(** What the TLS session hands its plaintext to: the parser, and how many
    responses have completed. *)
Definition parse_chunk (bytes : bytes) : eff (http1_parse.Parser * nat) error unit :=
  '(p, n) ← get; '(p, k) ← lift (http1_parse.feed p bytes); modify (λ _, (p, (n + k)%nat)).

(** The parser is fed what was received, decrypted first under TLS. *)
Definition feed_received (bytes : bytes) : M nat :=
  c ← me;
  match tls c with
  | Some t =>
      let '(r, (t, (p, n))) := tls.feed_into parse_chunk SCRATCH bytes (t, (parser c, 0%nat)) in
      _ ← update (λ c, c <| tls := Some t |> <| parser := p |>);
      _ ← lift r;
      mret n
  | None =>
      '(p, n) ← lift (http1_parse.feed (parser c) bytes);
      _ ← update (λ c, c <| parser := p |>);
      mret n
  end.

(** ** One completion *)

Section run.
Context {SocketAddr : Type}.
Variable target : target.Target SocketAddr.
Variable https : bool.                 (* [tls_setup.is_some()] *)
Variable budget : budget.Budget.
Variable timeout : option Z.

Abbreviation request := (target.request_bytes target).

(** What handling a completion says: whether the request is over, and whether
    the connection survives it. *)
Record outcome := mkOutcome { request_finished : bool; keep_conn : bool }.
Definition carry_on : outcome := mkOutcome false true.
Definition finish (keep : bool) : outcome := mkOutcome true keep.

(** Whether the loop goes on, or [break 'outer]. *)
Inductive flow : Type := Continue | BreakOuter.

Definition on_connect (i : nat) (res : Z) : M outcome :=
  _ ← update (λ c, c <| connected := 0 <=? res |>);
  if res <? 0 then
    _ ← update_stats count_error; _ ← update_stats count_connect_error; mret (finish false)
  else
    _ ← push_recv i;
    _ ← when https (t ← lift tls.new; update (λ c, c <| tls := Some t |>));
    _ ← begin_request timeout;
    _ ← ask i;
    _ ← queue_and_flush_request i request;
    mret carry_on.

Definition on_send (i : nat) (res : Z) : M outcome :=
  if res <? 0 then _ ← fail_request; mret (finish false)
  else
    _ ← update_stats (count_sent res);
    _ ← update (λ c, c <| out_off := (out_off c + Z.to_nat res)%nat |>);
    c ← me;
    if (out_off c <? length (outbound c request))%nat then
      rest ← lift (slice_from (outbound c request) (out_off c));
      _ ← on_ring (push_send_slice i (generation c) rest);
      mret carry_on
    else
      _ ← update (λ c, c <| sending := false |>);
      _ ← when (queued c) (update (λ c, c <| queued := false |> <| out_off := 0%nat |>));
      _ ← flush i request;
      c ← me;
      _ ← when (negb (recv_armed c)) (push_recv i);
      mret carry_on.

Definition on_recv (i : nat) (cqe : Cqe) : M outcome :=
  let res := cqe_result cqe in
  _ ← when (negb (cqe_more cqe)) (update (λ c, c <| recv_armed := false |>));
  if res <? 0 then
    _ ← recycle_any (cqe_buffer cqe);
    if res =? - ENOBUFS then _ ← push_recv i; mret carry_on
    else _ ← fail_request; mret (finish false)
  else if res =? 0 then
    _ ← recycle_any (cqe_buffer cqe); _ ← finish_at_eof; mret (finish false)
  else
    _ ← update_stats (count_received res);
    bid ← lift (ok_or "recv CQE without buffer id" (cqe_buffer cqe));
    bytes ← data bid res;
    fed ← attempt (feed_received bytes);
    _ ← recycle bid;
    c ← me;
    match fed with
    | Some O =>
        if match tls c with Some t => tls.peer_closed t | None => false end then
          _ ← finish_at_eof; mret (finish false)
        else
          _ ← when (negb (recv_armed c)) (push_recv i);
          _ ← flush i request;
          mret carry_on
    | Some _ =>
        _ ← when (active c) record_success;
        mret (finish (http1_parse.keep_alive (parser c) && negb (target.disable_keepalive target)))
    | None => _ ← fail_request; mret (finish false)
    end.

(** [match op] *)
Definition on_op (i : nat) (op : Z) (cqe : Cqe) : M outcome :=
  if op =? OP_CONNECT then on_connect i (cqe_result cqe)
  else if op =? OP_CONNECT_TIMEOUT then mret carry_on
  else if op =? OP_SEND then on_send i (cqe_result cqe)
  else if op =? OP_RECV then on_recv i cqe
  else lift (panic "unreachable").

(** [match uring::start_connect(..)]: the descriptor, or the end of the run *)
Definition reconnect (i : nat) : M flow :=
  c ← me;
  got ← attempt (on_ring (start_connect i (generation c)));
  match got with
  | Some f => _ ← update (λ c, c <| fd := f |>); mret Continue
  | None => mret BreakOuter
  end.

Definition count_start : M unit := modify (λ l, l <| started := u64 (started l + 1) |>).
Definition reset_parser : M unit := update (λ c, c <| parser := http1_parse.reset (parser c) |>).

(** What follows a finished request. *)
Definition next_request (i : nat) (stop keep : bool) : M flow :=
  _ ← end_request;
  l ← get;
  if negb stop && budget.may_start budget (started l) then
    _ ← count_start;
    _ ← begin_request timeout;
    if keep then
      c ← me;
      _ ← when (negb (recv_armed c)) (push_recv i);
      _ ← ask i;
      _ ← queue_and_flush_request i request;
      mret Continue
    else _ ← retire i; _ ← reset_parser; reconnect i
  else _ ← when (negb keep) (retire i); mret Continue.

(** A completion of the connection it belongs to. *)
Definition on_cqe (i : nat) (stop : bool) (op gen : Z) (cqe : Cqe) : M flow :=
  c ← me;
  if negb (gen =? generation c) then _ ← recycle_any (cqe_buffer cqe); mret Continue
  else
    o ← on_op i op cqe;
    if request_finished o then next_request i stop (keep_conn o) else mret Continue.

(** The pass over connections whose request has waited too long. *)
Definition check_deadline (i : nat) (stop : bool) (at_ : Z) : M flow :=
  c ← me;
  if match deadline c with Some d => d <=? at_ | None => false end then
    _ ← fail_request;
    _ ← retire i;
    _ ← reset_parser;
    l ← get;
    if stop || negb (budget.may_start budget (started l)) then mret Continue
    else _ ← count_start; _ ← begin_request None; reconnect i
  else mret Continue.

(** The first request of a connection. *)
Definition open_first (i : nat) : M unit :=
  _ ← count_start;
  _ ← begin_request timeout;
  c ← me;
  f ← on_ring (start_connect i (generation c));
  update (λ c, c <| fd := f |>).

(** ** The worker *)

Record Worker := mkWorker {
  w_world : World;
  conns : list (Conn C);
  w_stats : stats.Stats;
  w_pool : buf_ring.BufRing;
  w_started : Z;
  stop : bool;
}.
#[global] Instance Worker_eta : Eta Worker := λ w,
  mkWorker (w_world w) (conns w) (w_stats w) (w_pool w) (w_started w) (stop w).

Abbreviation W := (eff Worker error).

Definition local (w : Worker) (c : Conn C) : Local C := mkLocal C (w_world w) c (w_stats w) (w_pool w) (w_started w).
Definition absorb (i : nat) (w : Worker) (l : Local C) : Worker :=
  mkWorker (world l) (<[i := self l]> (conns w)) (stats l) (pool l) (started l) (stop w).

(** A method on [conns[i]]. *)
Definition at_conn {A} (i : nat) (m : M A) : W A := λ w,
  match conns w !! i with
  | None => (panic "index out of bounds", w)
  | Some c => let '(r, l) := m (local w c) in (r, absorb i w l)
  end.
Definition of_world {A} (m : eff World error A) : W A := λ w,
  let '(r, x) := m (w_world w) in (r, w <| w_world := x |>).

(** Loops that a [break 'outer] ends. *)
Fixpoint until {A} (l : list A) (body : A → W flow) : W flow :=
  match l with
  | [] => mret Continue
  | x :: l' => f ← body x; match f with Continue => until l' body | BreakOuter => mret BreakOuter end
  end.

(** One turn of [for cqe in &mut cq]. *)
Definition take_cqe (cqe : Cqe) : W flow :=
  _ ← of_world (log (Reaped cqe));
  if cqe_ud cqe =? TIMEOUT_USER_DATA then _ ← modify (λ w, w <| stop := true |>); mret Continue
  else
    let '(op, i, gen) := decode_user_data (cqe_ud cqe) in
    w ← get;
    at_conn i (on_cqe i (stop w) op gen cqe).

Variable settings : Settings.

(** What follows the wait of a turn of [loop]; the completions are the ones
    [cq.sync] has seen. *)
Definition deadline_pass : W flow :=
  match timeout with
  | None => mret Continue
  | Some _ =>
      w ← get;
      let at_ := k_now (w_world w) in
      until (seq 0 (length (conns w))) (λ i, at_conn i (check_deadline i (stop w) at_))
  end.
Definition completion_pass (cqes : list Cqe) : W flow := until cqes take_cqe.

(** Whether the loop ends before it waits again. *)
Definition over (w : Worker) : bool :=
  budget.is_met budget (u64 (stats.completed (w_stats w) + stats.errors (w_stats w))) || k_shutdown (w_world w).

Definition turn : W flow :=
  w ← get;
  _ ← of_world (submit_and_wait_timeout settings WAIT_TIMEOUT (batch_size settings (zlen (conns w))));
  w ← get;
  let cqes := k_completions (w_world w) in
  f ← deadline_pass;
  match f with
  | BreakOuter => mret BreakOuter
  | Continue =>
      f ← completion_pass cqes;
      match f with
      | BreakOuter => mret BreakOuter
      | Continue => w ← get; mret (if stop w then BreakOuter else Continue)
      end
  end.

(** ['outer: loop], for a number of turns: whether it has ended. *)
Fixpoint main_loop (turns : nat) : W bool :=
  w ← get;
  if over w then mret true
  else match turns with
       | O => mret false
       | S turns' => f ← turn; match f with BreakOuter => mret true | Continue => main_loop turns' end
       end.

(** The connections a worker begins with: the first requests are started on as
    many of them as the budget has requests for. *)
Definition fresh_conn (t0 : Z) : Conn C :=
  let c := new_conn t0 <| recv_single := target.disable_keepalive target && negb https |> in
  c <| parser := http1_parse.set_head_request (parser c) (bytes_eqb (target.method target) (bstr "HEAD")) |>.

Fixpoint open_all (ids : list nat) : W unit :=
  match ids with
  | [] => mret tt
  | i :: ids' =>
      w ← get;
      if negb (budget.may_start budget (w_started w)) then mret tt
      else _ ← at_conn i (open_first i); open_all ids'
  end.

(** [next_power_of_two] *)
Definition next_power_of_two (n : Z) : Z := 2 ^ Z.log2_up n.

Definition setup (connections : nat) : W unit :=
  pool ← lift (buf_ring.new (clamp 64 32768 (next_power_of_two (Z.of_nat connections * 2))));
  _ ← modify (λ w, w <| w_pool := pool |> <| conns := replicate connections (fresh_conn (k_now (w_world w))) |>);
  _ ← of_world (arm_deadline (budget.deadline budget));
  open_all (seq 0 connections).

(** A worker before it has done anything. *)
Definition cold : Worker := mkWorker (mkWorld [] []) [] stats.default (buf_ring.mkBufRing [] 0 0 0 0) 0 false.

(** [Drop for Conn]: every connection is closed, in either case. *)
Definition drop_conns (w : Worker) : Worker :=
  (for_each (seq 0 (length (conns w))) (λ i, at_conn i close) w).2.
Definition dropping {A} (m : W A) : W A := λ w, let '(r, w') := m w in (r, drop_conns w').

(** [run_worker], for a number of turns; [None] when they do not suffice.  The
    ring has been built and registered. *)
Definition run_worker (turns connections : nat) : W (option stats.Stats) :=
  if (connections =? 0)%nat || budget.is_empty budget then mret (Some stats.default)
  else if 2 ^ CONN_IDX_BITS <? Z.of_nat connections then lift (bail "too many connections per thread")
  else dropping (
    _ ← setup connections;
    ended ← main_loop turns;
    if (ended : bool) then
      _ ← for_each (seq 0 connections) (λ i, at_conn i (retire i));
      w ← get;
      mret (Some (w_stats w))
    else mret None).
End run.
End worker.
End http1.
