(* ===== verification/Http1WorkerInv.v ===== *)
(** * What an HTTP/1.1 worker keeps true

    The bytes of a connection against the request ([stream]: what is on the wire
    and what is being sent is the request repeated, and the request owed is among
    it); how a connection stands to the operations of the ring ([linked]); and
    a triple [ok i] for the methods of slot [i], which leave the other slots alone. *)

From S2P Require Import Prelude Effects Status Stats Http1Parse Target Uring UringRun Tls Http1Worker.
From stdpp Require Import relations.
#[local] Open Scope Z_scope.

Module http1_inv.
Import uring uring_run http1.

(** ** Histories only grow *)

Section growth.
Context `{Kernel} `{Memchr} {C : Type} `{Client C} `{VecGrowth}.
Abbreviation M := (eff (Local C) error).

Definition lgrows (l l' : Local C) : Prop := grows (world l) (world l').
#[global] Instance lgrows_preorder : PreOrder lgrows.
Proof. split; [intros l|intros l1 l2 l3]; unfold lgrows; [done|apply transitivity]. Qed.

Lemma on_ring_grows {A} (m : eff World error A) : evolves grows m → evolves lgrows (on_ring m).
Proof. intros Hm l. unfold on_ring. specialize (Hm (world l)). by destruct (m (world l)) as [r w]. Qed.
Lemma update_grows f : evolves lgrows (update f).
Proof. intros l. apply (reflexivity (world l)). Qed.
Lemma update_stats_grows f : evolves lgrows (update_stats f).
Proof. intros l. apply (reflexivity (world l)). Qed.
Lemma me_grows : evolves lgrows me.
Proof. intros l. apply (reflexivity (world l)). Qed.
Lemma now_grows : evolves lgrows now.
Proof. intros l. apply (reflexivity (world l)). Qed.
Lemma on_tls_grows {A} t (m : eff (tls.TlsSession C) error A) : evolves lgrows (on_tls t m).
Proof. intros l. unfold on_tls. destruct (m t) as [r t']. apply (reflexivity (world l)). Qed.
Lemma attempt_grows {A} (m : M A) : evolves lgrows m → evolves lgrows (attempt m).
Proof. intros Hm l. specialize (Hm l). unfold attempt. by destruct (m l) as [[a|[]] l']. Qed.
End growth.

Create HintDb grow.
#[export] Hint Resolve update_grows update_stats_grows me_grows now_grows on_tls_grows on_ring_grows attempt_grows : grow.
#[export] Hint Resolve queues_grows push_sqe_queues raw_send_queues close_fd_queues drain_sq_queues sync_cancel_queues
  register_files_update_queues queues_log start_connect_grows : grow.

Ltac grow := repeat (progress evolve || (case_bool_decide)); eauto with grow.

Section growth_methods.
Context `{Kernel} `{Memchr} {C : Type} `{Client C} `{VecGrowth}.

Lemma send_close_notify_grows : evolves (lgrows (C := C)) send_close_notify.
Proof. unfold send_close_notify. grow. Qed.
Hint Resolve send_close_notify_grows : grow.
Lemma close_grows : evolves (lgrows (C := C)) close.
Proof. unfold close. grow. Qed.
Hint Resolve close_grows : grow.
Lemma begin_request_grows t : evolves (lgrows (C := C)) (begin_request t).
Proof. unfold begin_request. grow. Qed.
Lemma fail_request_grows : evolves (lgrows (C := C)) fail_request.
Proof. unfold fail_request, end_request. grow. Qed.
Lemma mark_sent_grows : evolves (lgrows (C := C)) mark_sent.
Proof. unfold mark_sent. grow. Qed.
Hint Resolve mark_sent_grows : grow.
Lemma retire_grows p i : evolves (lgrows (C := C)) (retire p i).
Proof. unfold retire. grow. Qed.
Lemma queue_request_grows r : evolves (lgrows (C := C)) (queue_request r).
Proof. unfold queue_request. grow. Qed.
Hint Resolve queue_request_grows : grow.
Lemma submit_tls_output_grows i : evolves (lgrows (C := C)) (submit_tls_output i).
Proof. unfold submit_tls_output, push_send_slice. grow. Qed.
Hint Resolve submit_tls_output_grows : grow.
Lemma flush_grows i r : evolves (lgrows (C := C)) (flush i r).
Proof. unfold flush, push_send_slice. grow. Qed.
Hint Resolve flush_grows : grow.
Lemma queue_and_flush_request_grows i r : evolves (lgrows (C := C)) (queue_and_flush_request i r).
Proof. unfold queue_and_flush_request. grow. Qed.
Lemma ask_grows i : evolves (lgrows (C := C)) (ask i).
Proof. unfold ask. grow. apply on_ring_grows. intros w. by eexists [_]. Qed.
Lemma record_success_grows : evolves (lgrows (C := C)) record_success.
Proof. unfold record_success. grow. Qed.
Hint Resolve record_success_grows : grow.
Lemma finish_at_eof_grows : evolves (lgrows (C := C)) finish_at_eof.
Proof. unfold finish_at_eof, end_request. grow. Qed.
Lemma push_recv_grows i : evolves (lgrows (C := C)) (push_recv i).
Proof. unfold push_recv, push_recv_single, push_recv_multi. evolve; [eauto with grow| |eauto with grow]. apply on_ring_grows. case_match; eauto with grow. Qed.
Lemma recycle_grows b : evolves (lgrows (C := C)) (recycle b).
Proof. unfold recycle. grow. apply (reflexivity (world s)). Qed.
Hint Resolve recycle_grows : grow.
Lemma recycle_any_grows b : evolves (lgrows (C := C)) (recycle_any b).
Proof. destruct b; cbn; grow. Qed.
Lemma data_grows b n : evolves (lgrows (C := C)) (data b n).
Proof. unfold data. grow. Qed.
Lemma feed_received_grows b : evolves (lgrows (C := C)) (feed_received b).
Proof. unfold feed_received. grow. Qed.
End growth_methods.

#[export] Hint Resolve send_close_notify_grows close_grows begin_request_grows fail_request_grows mark_sent_grows retire_grows
  queue_request_grows submit_tls_output_grows flush_grows queue_and_flush_request_grows ask_grows record_success_grows
  finish_at_eof_grows push_recv_grows recycle_grows recycle_any_grows data_grows feed_received_grows : grow.

(** ** The invariant *)

Section inv.
Context `{Kernel} `{Memchr} {C : Type} `{CL : ClientLaws C} `{VecGrowth}.
Variable request : bytes.
Abbreviation M := (eff (Local C) error).
Variable https : bool.

Definition repeats (k : nat) : bytes := concat (replicate k request).

(** Nothing has happened under a generation. *)
Definition fresh (h : list Event) (i : nat) (g : Z) : Prop :=
  (∀ op, 0 ≤ op < 4 → ops (user_data i g op) h = []) ∧ wire (user_data i g OP_SEND) h = [] ∧ asks (user_data i g OP_SEND) h = [].

(** What a plain connection has put on the wire, with what is still being sent,
    is the beginning of a run of requests. *)
Definition whole_requests (h : list Event) (i : nat) (g : Z) : Prop :=
  https = true ∨
  ∃ k, match ops (user_data i g OP_SEND) h with
       | [] => wire (user_data i g OP_SEND) h `prefix_of` repeats k
       | [Send _ _ d] => wire (user_data i g OP_SEND) h ++ d `prefix_of` repeats k
       | _ => False
       end.

(** Generations before the connection's, and after it. *)
Record core (h : list Event) (i : nat) (c : Conn C) : Prop := {
  c_idx : Z.of_nat i < 2 ^ CONN_IDX_BITS;
  c_gen : 0 ≤ generation c ≤ Z.of_nat (length h);
  c_past g : 0 ≤ g < generation c → whole_requests h i g;
  c_future g : generation c < g < 2 ^ GENERATION_BITS - 1 → fresh h i g;
}.

Section now.
Variables (h : list Event) (i : nat) (c : Conn C).
Abbreviation ud op := (user_data i (generation c) op).

Definition recv_entry : Entry := (if recv_single c then RecvSingle else RecvMulti) i (ud OP_RECV).
Definition recv_link : Prop := ops (ud OP_RECV) h = if recv_armed c then [recv_entry] else [].
Definition send_link : Prop :=
  ops (ud OP_SEND) h = if sending c then [Send i (ud OP_SEND) (drop (out_off c) (outbound c request))] else [].

(** Of the requests on the wire, the one asked for last comes after the first [k]:
    no more than those had gone out when it was asked for. *)
Definition owes_after (k : nat) : Prop :=
  match asks (ud OP_SEND) h with [] => False | b :: _ => b `prefix_of` repeats k end.

(** What a session that was given whole requests has emitted is on the wire, or
    being sent. *)
Definition emits (t : tls.TlsSession C) : Prop :=
  if sending c then (out_off c < length (out c))%nat ∧ wire (ud OP_SEND) h ++ drop (out_off c) (out c) = emitted (tls.conn t)
  else wire (ud OP_SEND) h = emitted (tls.conn t).

(** The bytes of this connection: whole requests, the last one asked for among
    them, and the beginning of one; or what rustls has emitted of a session that
    was given the requests asked for. *)
Definition stream : Prop :=
  match tls c with
  | None => https = false ∧ ∃ k,
      if sending c then
        (out_off c < length request)%nat ∧ wire (ud OP_SEND) h = repeats k ++ take (out_off c) request ∧
        if queued c then asks (ud OP_SEND) h ≠ [] else owes_after k
      else queued c = false ∧ wire (ud OP_SEND) h = repeats (S k) ∧ (length request ≤ out_off c)%nat ∧ owes_after k
  | Some t => https = true ∧ tls.session_ok t ∧ asks (ud OP_SEND) h ≠ [] ∧ tls.written t = repeats (length (asks (ud OP_SEND) h)) ∧ emits t
  end.
(** A plain connection may have a request to start sending. *)
Definition flushable : Prop :=
  match tls c with
  | None =>
      if sending c then stream
      else https = false ∧ queued c = false ∧ ∃ k, owes_after k ∧
        (wire (ud OP_SEND) h = repeats (S k) ∧ (length request ≤ out_off c)%nat ∨ wire (ud OP_SEND) h = repeats k ∧ out_off c = 0%nat)
  | Some _ => stream
  end.
(** A connection that can be given a request, and has been, but has done nothing
    about it yet. *)
Definition offered : Prop :=
  ∃ bs, asks (ud OP_SEND) h = wire (ud OP_SEND) h :: bs ∧
  match tls c with
  | None => https = false ∧ ∃ k,
      if sending c then (out_off c < length request)%nat ∧ wire (ud OP_SEND) h = repeats k ++ take (out_off c) request
      else queued c = false ∧ wire (ud OP_SEND) h = repeats k
  | Some t => https = true ∧ tls.session_ok t ∧ tls.written t = repeats (length bs) ∧ emits t
  end.

(** A connection with a socket, of which [P] holds too. *)
Definition up_with (P : Prop) : Prop :=
  0 ≤ fd c ∧ connected c = true ∧ ops (ud OP_CONNECT) h = [] ∧ recv_link ∧ send_link ∧ P.
Definition up : Prop := up_with stream.

(** Nothing received, nothing sent. *)
Definition bare : Prop :=
  connected c = false ∧ recv_armed c = false ∧ sending c = false ∧ tls c = None ∧ queued c = false ∧
  ops (ud OP_RECV) h = [] ∧ ops (ud OP_SEND) h = [] ∧ wire (ud OP_SEND) h = [] ∧ asks (ud OP_SEND) h = [].
Definition connecting : Prop :=
  0 ≤ fd c ∧ active c = true ∧ ops (ud OP_CONNECT) h = [Connect i (ud OP_CONNECT)] ∧ bare.
(** The connect has completed, one way or the other. *)
Definition landed : Prop := 0 ≤ fd c ∧ active c = true ∧ ops (ud OP_CONNECT) h = [] ∧ bare.
Definition idle : Prop := fd c = -1 ∧ bare ∧ fresh h i (generation c).

Definition linked : Prop := idle ∨ connecting ∨ up.
End now.

Definition conn_ok (h : list Event) (i : nat) (c : Conn C) : Prop := core h i c ∧ linked h i c.

(** A session with nothing being sent has nothing more to send. *)
Definition settled (c : Conn C) : Prop := ∀ t, tls c = Some t → sending c = false →
  wants_write (tls.conn t) = false ∧ (tls.pending_plaintext t = [] ∨ tls.refused t).

(** A request that is owed is being worked on: its connection is coming up, or
    it is being received, and all of it has been sent or is being sent. *)
Definition served (c : Conn C) : Prop :=
  (active c = true → 0 ≤ fd c ∧
   (connected c = true → recv_armed c = true ∧ settled c)) ∧
  (active c = false → deadline c = None).

(** ** Frames *)

Definition of_conn (i : nat) (e : Entry) : Prop := ∃ g op, well_formed_id i g op ∧ entry_ud e = user_data i g op.
(** Only operations of connection [i] were queued, and nothing was reaped. *)
Definition frame (i : nat) (h h' : list Event) : Prop :=
  h `suffix_of` h' ∧ (∃ es, outstanding h' = es ++ outstanding h ∧ Forall (of_conn i) es) ∧ (∀ ud, wire ud h' = wire ud h) ∧
  (∀ j g op, j ≠ i → well_formed_id j g op → asks (user_data j g op) h' = asks (user_data j g op) h).

Lemma h1_frame_refl i h : frame i h h.
Proof. split_and!; try done. by exists []. Qed.
Lemma h1_frame_trans i h h' h'' : frame i h h' → frame i h' h'' → frame i h h''.
Proof.
  intros (? & (es & Ho & Hf) & Hw & Ha) (? & (es' & Ho' & Hf') & Hw' & Ha'). split_and!; [by etrans| | |].
  - exists (es' ++ es). split; [by rewrite Ho', Ho, app_assoc|by apply Forall_app].
  - intros ud. by rewrite Hw', Hw.
  - intros j g op Hj Hid. by rewrite Ha', Ha.
Qed.
Lemma h1_queued_frame i es h h' : did es h h' → Forall (of_conn i) es → frame i h h'.
Proof. intros [? ? ? ?] Hf. split_and!; [done|by exists es|done|by intros]. Qed.
Lemma h1_did_frame i h h' : did [] h h' → frame i h h'.
Proof. intros Hd. by apply (h1_queued_frame i []). Qed.

Lemma wf_id i g op : Z.of_nat i < 2 ^ CONN_IDX_BITS → 0 ≤ g → g < 2 ^ GENERATION_BITS - 1 → 0 ≤ op < 4 → well_formed_id i g op.
Proof. by intros. Qed.
Lemma id_ok h i c op : sound h → core h i c → 0 ≤ op < 4 → well_formed_id i (generation c) op.
Proof. intros [_ Hs] [Hi Hg _ _] Ho. apply wf_id; [done|lia|lia|done]. Qed.

Definition same_ops (h h' : list Event) (j : nat) : Prop := ∀ g op,
  well_formed_id j g op → ops (user_data j g op) h' = ops (user_data j g op) h ∧ wire (user_data j g op) h' = wire (user_data j g op) h ∧
  asks (user_data j g op) h' = asks (user_data j g op) h.

Lemma h1_frame_other i j h h' : frame i h h' → j ≠ i → same_ops h h' j.
Proof.
  intros (_ & (es & Ho & Hf) & Hw & Ha) Hne g op Hid. split; [|by split; [|apply Ha]]. unfold ops. rewrite Ho, with_ud_app, with_ud_other; [done|].
  eapply Forall_impl; [exact Hf|]. intros e (g' & op' & Hid' & ->) Heq.
  by apply user_data_inj in Heq as (-> & _ & _).
Qed.

Lemma fresh_same h h' j g : same_ops h h' j → 0 ≤ g < 2 ^ GENERATION_BITS - 1 → Z.of_nat j < 2 ^ CONN_IDX_BITS → fresh h j g → fresh h' j g.
Proof.
  intros Hs Hg Hj (Hf & Hw & Ha). split.
  - intros op Ho. destruct (Hs g op) as [-> _]; [done|auto].
  - destruct (Hs g OP_SEND) as (_ & -> & ->); done.
Qed.
Lemma whole_same h h' j g : same_ops h h' j → 0 ≤ g < 2 ^ GENERATION_BITS - 1 → Z.of_nat j < 2 ^ CONN_IDX_BITS → whole_requests h j g → whole_requests h' j g.
Proof. intros Hs Hg Hj. unfold whole_requests. destruct (Hs g OP_SEND) as (-> & -> & _); done. Qed.

Lemma core_same h h' j c : sound h' → h `suffix_of` h' → same_ops h h' j → core h j c → core h' j c.
Proof.
  intros [_ Hn] Hsuf Hs [Hi Hg Hp Hf]. apply suffix_length in Hsuf. split; [done|lia| |].
  - intros g Hb. eapply whole_same; eauto. lia.
  - intros g Hb. eapply fresh_same; eauto. lia.
Qed.
Lemma linked_same h h' j c : well_formed_id j (generation c) 0 → same_ops h h' j → linked h j c → linked h' j c.
Proof.
  intros (Hi & Hg & _) Hs.
  assert (∀ op, 0 ≤ op < 4 → ops (user_data j (generation c) op) h' = ops (user_data j (generation c) op) h ∧
    wire (user_data j (generation c) op) h' = wire (user_data j (generation c) op) h ∧ asks (user_data j (generation c) op) h' = asks (user_data j (generation c) op) h)
    as Hop by (intros; by apply Hs).
  unfold linked, idle, connecting, up, up_with, bare, recv_link, send_link, stream, owes_after, emits.
  destruct (Hop OP_CONNECT) as [-> _]; [done|]. destruct (Hop OP_RECV) as [-> _]; [done|]. destruct (Hop OP_SEND) as (-> & -> & ->); [done|].
  intros [(? & ? & ?)|?]; [|by right]. left. split; [done|split; [done|]]. by eapply fresh_same.
Qed.

(** The other connections do not notice. *)
Lemma conn_ok_same h h' j c : sound h' → h `suffix_of` h' → same_ops h h' j → conn_ok h j c → conn_ok h' j c.
Proof.
  intros Hsd Hsuf Hs [Hc Hl]. split; [by eapply core_same|]. eapply linked_same; [|exact Hs|exact Hl].
  eapply (id_ok h'); [done|by eapply core_same|lia].
Qed.

(** ** Methods of one connection *)

Abbreviation events l := (hist (world l)).

(** When the history stays sound, a method that succeeds only queues operations
    of its own connection, and has the given outcome. *)
Definition ok {A} (i : nat) (m : M A) (l : Local C) (Q : A → Local C → Prop) : Prop :=
  holds m l (λ a l', sound (events l') → frame i (events l) (events l') ∧ Q a l') (λ _ _, True).

Lemma h1_ok_bind {A B} i (m : M A) (f : A → M B) l P Q :
  ok i m l P → (∀ a, evolves lgrows (f a)) →
  (∀ a l', sound (events l') → frame i (events l) (events l') → P a l' → ok i (f a) l' Q) → ok i (m ≫= f) l Q.
Proof.
  intros Hm Hg Hf. unfold ok, holds in *. rewrite bind_run. destruct (m l) as [[a|e] l1]; [|done].
  specialize (Hg a l1). specialize (Hf a l1). destruct (f a l1) as [[b|e] l2]; [|done]. intros Hs.
  pose proof (sound_suffix _ _ Hg Hs) as Hs1. destruct (Hm Hs1) as [Hf1 HP]. destruct (Hf Hs1 Hf1 HP Hs) as [Hf2 HQ].
  split; [by eapply h1_frame_trans|done].
Qed.
Lemma h1_ok_mono {A} i (m : M A) l (P Q : A → Local C → Prop) : ok i m l P → (∀ a l', sound (events l') → P a l' → Q a l') → ok i m l Q.
Proof. unfold ok, holds. destruct (m l) as [[a|e] l']; [|done]. intros Hm HPQ Hs. destruct (Hm Hs). auto. Qed.
Lemma h1_ok_ret {A} i (a : A) l (Q : A → Local C → Prop) : (sound (events l) → Q a l) → ok i (mret a) l Q.
Proof. intros HQ Hs. split; [apply h1_frame_refl|auto]. Qed.
Lemma h1_ok_lift {A} i (r : res A) l (Q : A → Local C → Prop) : (∀ a, r = Ok a → Q a l) → ok i (lift r) l Q.
Proof. intros HQ. unfold ok, holds. destruct r; [|done]. intros _. split; [apply h1_frame_refl|auto]. Qed.

Lemma h1_ok_framed {A} i (m : M A) l (Q : A → Local C → Prop) :
  ok i m l Q → ok i m l (λ a l', frame i (events l) (events l') ∧ Q a l').
Proof. unfold ok, holds. destruct (m l) as [[a|e] l']; [|done]. intros Hm Hs. destruct (Hm Hs). auto. Qed.
Lemma h1_frame_length i h h' : frame i h h' → (length h ≤ length h')%nat.
Proof. intros (Hs & _). by apply suffix_length. Qed.

Lemma h1_ok_sound {A} i (m : M A) l (Q : A → Local C → Prop) : evolves lgrows m → (sound (events l) → ok i m l Q) → ok i m l Q.
Proof.
  intros Hg Hm. unfold ok, holds in *. specialize (Hg l). destruct (m l) as [[a|e] l']; [|done]. intros Hs. apply Hm; [|done]. by apply (sound_suffix _ _ Hg).
Qed.

(** A step that does not touch the ring. *)
Lemma h1_ok_pure {A B} i (m : M A) (f : A → M B) l a l1 Q :
  m l = (Ok a, l1) → world l1 = world l → ok i (f a) l1 Q → ok i (m ≫= f) l Q.
Proof. intros Hm Hw. unfold ok, holds. rewrite bind_run, Hm, Hw. done. Qed.
Lemma h1_ok_pure_last {A} i (m : M A) l a l1 (Q : A → Local C → Prop) :
  m l = (Ok a, l1) → world l1 = world l → (sound (events l) → Q a l1) → ok i m l Q.
Proof. intros Hm Hw HQ. unfold ok, holds. rewrite Hm, Hw. intros Hs. split; [apply h1_frame_refl|auto]. Qed.
Lemma h1_ok_bind_lift {A B} i (r : res A) (f : A → M B) l Q :
  (∀ a, r = Ok a → ok i (f a) l Q) → ok i (lift r ≫= f) l Q.
Proof. intros Hf. unfold ok, holds. rewrite bind_run. destruct r; [by apply Hf|done]. Qed.

(** A call of the ring. *)
Lemma h1_ok_ring {A} i (m : eff World error A) es l (Q : A → Local C → Prop) :
  queues m es → (sound (events l) → Forall (of_conn i) es) →
  (∀ a w', sound (hist w') → did es (events l) (hist w') → Q a (l <| world := w' |>)) → ok i (on_ring m) l Q.
Proof.
  intros Hq Hes HQ. unfold ok, holds, on_ring. specialize (Hq (world l)). destruct (m (world l)) as [[a|e] w']; [|done].
  cbn. intros Hs. split; [|by apply HQ]. eapply h1_queued_frame; [done|]. apply Hes. eapply sound_suffix; [apply Hq|done].
Qed.
Lemma h1_ok_quiet {A} i (m : eff World error A) l (Q : A → Local C → Prop) :
  queues m [] → (∀ a w', sound (hist w') → did [] (events l) (hist w') → Q a (l <| world := w' |>)) → ok i (on_ring m) l Q.
Proof. intros Hq HQ. by eapply h1_ok_ring. Qed.

(** A note in the history. *)
Definition noting (e : Event) (l : Local C) : Local C := l <| world := world l <| hist := e :: events l |> |>.
Lemma h1_ok_log {B} i e (f : unit → M B) l Q : neutral e = true → ok i (f tt) (noting e l) Q → ok i (on_ring (log e) ≫= f) l Q.
Proof.
  intros He Hf. unfold ok, holds in *. rewrite bind_run. change (on_ring (log e) l) with (Ok (E := error) tt, noting e l). cbn [fst snd].
  destruct (f tt (noting e l)) as [[b|x] l']; [|done]. intros Hs. destruct (Hf Hs) as [Hfr HQ]. split; [|done].
  eapply h1_frame_trans; [|exact Hfr]. by apply h1_did_frame, did_neutral.
Qed.

Lemma h1_ok_asked {B} i (f : unit → M B) l Q : (sound (events l) → core (events l) i (self l)) →
  ok i (f tt) (noting (Asked (user_data i (generation (self l)) OP_SEND)) l) Q → ok i (ask i ≫= f) l Q.
Proof.
  intros Hc Hf. unfold ok, holds in *. rewrite bind_run.
  change (ask i l) with (Ok (E := error) tt, noting (Asked (user_data i (generation (self l)) OP_SEND)) l). cbn [fst snd].
  destruct (f tt _) as [[b|x] l'] eqn:E; [|done]. intros Hs. destruct (Hf Hs) as [Hfr HQ]. split; [|done].
  eapply h1_frame_trans; [|exact Hfr]. assert (sound (events l)) as Hs0. { eapply sound_suffix; [|exact Hs]. etrans; [|apply Hfr]. by eexists [_]. }
  unfold frame, noting. cbn. split_and!; [by eexists [_]|by exists []|done|]. intros j g op Hj Hid. rewrite (proj2 (Z.eqb_neq _ _)); [done|].
  intros Heq. apply user_data_inj in Heq as (-> & _); [done|by eapply id_ok; [..|apply Hc|]|done].
Qed.

(** What is left alone while a connection sends. *)
Record kept (l l' : Local C) : Prop := {
  k_stats : stats l' = stats l;
  k_started : started l' = started l;
  k_fd : fd (self l') = fd (self l);
  k_connected : connected (self l') = connected (self l);
  k_generation : generation (self l') = generation (self l);
  k_recv : recv_armed (self l') = recv_armed (self l);
  k_active : active (self l') = active (self l);
  k_deadline : deadline (self l') = deadline (self l);
}.
#[global] Instance kept_preorder : PreOrder kept.
Proof. split; [by intros l; split|]. intros l1 l2 l3 [] []. split; congruence. Qed.

(** ** How the history changes what a connection is linked to *)

Lemma core_eq h i c c' : core h i c → generation c' = generation c → core h i c'.
Proof. intros [? ? ? ?] Hg. split; rewrite ?Hg; done. Qed.

(** One operation of this connection's generation queued. *)
Lemma did_one h h' i g op e :
  did [e] h h' → entry_ud e = user_data i g op → well_formed_id i g op →
  ops (user_data i g op) h' = e :: ops (user_data i g op) h ∧
  (∀ g' op', well_formed_id i g' op' → (g', op') ≠ (g, op) → ops (user_data i g' op') h' = ops (user_data i g' op') h) ∧
  (∀ ud, wire ud h' = wire ud h).
Proof.
  intros Hd He Hid. split_and!; [|intros g' op' Hid' Hne|apply Hd]; rewrite (did_ops _ _ _ _ Hd).
  - by rewrite with_ud_same.
  - rewrite with_ud_other; [done|]. constructor; [|done]. rewrite He. intros Heq.
    apply user_data_inj in Heq as (_ & -> & ->); [done|done|done].
Qed.
Lemma core_did h h' i c es :
  sound h' → core h i c → did es h h' →
  Forall (λ e, ∃ op, 0 ≤ op < 4 ∧ entry_ud e = user_data i (generation c) op) es → core h' i c.
Proof.
  intros Hs Hc Hd Hes. pose proof (sound_suffix _ _ (did_suffix _ _ _ Hd) Hs) as Hs0.
  assert (∀ g op, g ≠ generation c → well_formed_id i g op → ops (user_data i g op) h' = ops (user_data i g op) h) as Ho.
  { intros g op Hne Hid. rewrite (did_ops _ _ _ _ Hd), with_ud_other; [done|]. eapply Forall_impl; [exact Hes|].
    intros e (op' & Hop' & ->) Heq. apply user_data_inj in Heq as (_ & ? & _); [done| |done]. by eapply id_ok. }
  destruct Hc as [Hi Hg Hp Hf]. destruct Hs as [_ Hn]. pose proof (suffix_length _ _ (did_suffix _ _ _ Hd)).
  split; [done|lia| |].
  - intros g Hb. specialize (Hp g Hb). unfold whole_requests in *. rewrite (did_wire _ _ _ Hd), Ho; [done|lia|].
    apply wf_id; [done|lia|lia|done].
  - intros g Hb. destruct (Hf g Hb) as [Hf1 Hf2]. split; [|by rewrite (did_wire _ _ _ Hd), (did_asks _ _ _ Hd)].
    intros op Hop. rewrite Ho; [auto|lia|]. apply wf_id; [done|lia|lia|done].
Qed.
Lemma h1_did_quiet h h' i : did [] h h' → same_ops h h' i.
Proof. intros Hd g op _. split; [apply (did_ops _ _ _ _ Hd)|split; apply Hd]. Qed.

(** One operation queued under the connection's generation. *)
Lemma queued_one h h' i c op e :
  sound h' → core h i c → did [e] h h' → entry_ud e = user_data i (generation c) op → 0 ≤ op < 4 →
  core h' i c ∧ Forall (of_conn i) [e] ∧
  ops (user_data i (generation c) op) h' = e :: ops (user_data i (generation c) op) h ∧
  (∀ op', 0 ≤ op' < 4 → op' ≠ op → ops (user_data i (generation c) op') h' = ops (user_data i (generation c) op') h) ∧
  (∀ ud, wire ud h' = wire ud h) ∧ (∀ ud, asks ud h' = asks ud h).
Proof.
  intros Hs Hc Hd He Hop. pose proof (sound_suffix _ _ (did_suffix _ _ _ Hd) Hs) as Hs0.
  pose proof (id_ok h i c op Hs0 Hc Hop) as Hid. destruct (did_one h h' i (generation c) op e Hd He Hid) as (Ho & Ho' & Hw).
  split_and!; [|by constructor; [exists (generation c), op|]|done| |done|apply Hd].
  - eapply core_did; [done|done|done|]. constructor; [by exists op|done].
  - intros op' Hop' Hne. apply Ho'; [by eapply id_ok|congruence].
Qed.

Lemma of_conn_entry h i c op e :
  sound h → core h i c → 0 ≤ op < 4 → entry_ud e = user_data i (generation c) op → Forall (of_conn i) [e].
Proof. intros Hs Hc Hop He. constructor; [|done]. exists (generation c), op. split; [by eapply id_ok|done]. Qed.

Lemma recv_entry_ud i (c : Conn C) : entry_ud (recv_entry i c) = user_data i (generation c) OP_RECV.
Proof. unfold recv_entry. by destruct (recv_single c). Qed.

Lemma push_recv_arms i l :
  core (events l) i (self l) →
  ok i (push_recv i) l (λ _ l', ∃ w', l' = l <| world := w' |> <| self := self l <| recv_armed := true |> |> ∧
    did [recv_entry i (self l)] (events l) (hist w')).
Proof.
  intros Hc. unfold push_recv. eapply h1_ok_pure; [reflexivity|reflexivity|]. eapply h1_ok_bind; [|intros; apply update_grows|].
  - eapply (h1_ok_ring i _ [recv_entry i (self l)]).
    + unfold recv_entry. destruct (recv_single (self l)); apply push_sqe_queues.
    + intros Hs. apply (of_conn_entry (events l) i (self l) OP_RECV); [done|exact Hc|done|]. apply recv_entry_ud.
    + intros a w' Hs Hd. instantiate (1 := λ _ l', ∃ w', l' = l <| world := w' |> ∧ did [recv_entry i (self l)] (events l) (hist w')). by exists w'.
  - intros _ l' Hs _ (w' & -> & Hd). eapply h1_ok_pure_last; [reflexivity|reflexivity|]. intros _. by exists w'.
Qed.

(** Arming a receive on a connection with a socket. *)
Lemma armed_with (P : list Event → Conn C → Prop) h h' i c :
  sound h' → core h i c → up_with h i c (P h c) → recv_armed c = false → did [recv_entry i c] h h' →
  ((∀ ud, wire ud h' = wire ud h) → (∀ ud, asks ud h' = asks ud h) → P h c → P h' (c <| recv_armed := true |>)) →
  core h' i (c <| recv_armed := true |>) ∧ up_with h' i (c <| recv_armed := true |>) (P h' (c <| recv_armed := true |>)).
Proof.
  intros Hs Hc (Hfd & Hcn & Hco & Hr & Hsd & Hst) Ha Hd HP.
  destruct (queued_one h h' i c OP_RECV _ Hs Hc Hd (recv_entry_ud i c) ltac:(done)) as (Hc' & _ & Ho & Ho' & Hw & Hk).
  split; [by apply (core_eq _ _ c)|]. unfold up_with, recv_link, send_link in *. cbn in *. rewrite Ha in Hr. rewrite Ho, Hr.
  rewrite (Ho' OP_CONNECT), (Ho' OP_SEND) by done. split_and!; try done. by apply HP.
Qed.
Lemma up_armed h h' i c :
  sound h' → core h i c → up h i c → recv_armed c = false → did [recv_entry i c] h h' →
  core h' i (c <| recv_armed := true |>) ∧ up h' i (c <| recv_armed := true |>).
Proof.
  intros Hs Hc Hu Ha Hd. apply (armed_with (λ h c, stream h i c) h h' i c Hs Hc Hu Ha Hd). intros Hw Hk. unfold stream, owes_after, emits. cbn. by rewrite Hw, Hk.
Qed.

(** A send that starts. *)
Definition sent_entry (i : nat) (c : Conn C) (d : bytes) : Entry := Send i (user_data i (generation c) OP_SEND) d.

Lemma repeats_snoc k : repeats k ++ request = repeats (S k).
Proof. unfold repeats. rewrite replicate_S_end, concat_app. cbn. by rewrite app_nil_r. Qed.

Lemma push_send_ok i g d l (Q : unit → Local C → Prop) :
  core (events l) i (self l) → g = generation (self l) →
  (∀ w', sound (hist w') → did [Send i (user_data i g OP_SEND) d] (events l) (hist w') → Q tt (l <| world := w' |>)) →
  ok i (on_ring (push_send_slice i g d)) l Q.
Proof.
  intros Hc -> HQ. eapply h1_ok_ring; [apply push_sqe_queues| |by intros []; apply HQ].
  intros Hs. by apply (of_conn_entry (events l) i (self l) OP_SEND).
Qed.

(** The part of [up] that sending does not touch. *)
Definition open_link (h : list Event) (i : nat) (c : Conn C) : Prop :=
  0 ≤ fd c ∧ connected c = true ∧ ops (user_data i (generation c) OP_CONNECT) h = [] ∧ recv_link h i c.

Lemma up_sending h h' i c c' d :
  sound h' → core h i c → open_link h i c → ops (user_data i (generation c) OP_SEND) h = [] →
  did [sent_entry i c d] h h' →
  fd c' = fd c → connected c' = connected c → generation c' = generation c → recv_armed c' = recv_armed c →
  recv_single c' = recv_single c → sending c' = true → d = drop (out_off c') (outbound c' request) →
  (wire (user_data i (generation c) OP_SEND) h' = wire (user_data i (generation c) OP_SEND) h →
   asks (user_data i (generation c) OP_SEND) h' = asks (user_data i (generation c) OP_SEND) h → stream h' i c') →
  core h' i c' ∧ up h' i c'.
Proof.
  intros Hs Hc (Hfd & Hcn & Hco & Hr) Hno Hd Ef Ec Eg Er Ers Esd Ed Hst.
  destruct (queued_one h h' i c OP_SEND _ Hs Hc Hd eq_refl ltac:(done)) as (Hc' & _ & Ho & Ho' & Hw & Hk).
  split; [by apply (core_eq _ _ c)|]. unfold up, up_with, recv_link, send_link, recv_entry in *.
  rewrite Ef, Ec, Eg, Er, Ers, Esd, Ho, Hno, (Ho' OP_CONNECT), (Ho' OP_RECV) by done.
  split_and!; try done; [by rewrite Ed|]. by apply Hst.
Qed.

Lemma mark_sent_run l : ∃ c, mark_sent l = (Ok tt, l <| self := c |>) ∧ kept l (l <| self := c |>) ∧
  parser c = parser (self l) ∧ tls c = tls (self l) ∧ out c = out (self l) ∧ out_off c = out_off (self l) ∧ sending c = sending (self l) ∧
  queued c = queued (self l) ∧ recv_single c = recv_single (self l).
Proof.
  assert (mark_sent l = when (unsent (self l)) (update (λ c, c <| unsent := false |> <| request_start := k_now (world l) |>)) l) as -> by reflexivity.
  destruct l as [w c s p n]. cbn [self]. destruct (unsent c); [eexists|exists c]; (split; [reflexivity|]); (split; [by split|]); by split_and!.
Qed.

Lemma submit_tls_output_ok i l t :
  core (events l) i (self l) → open_link (events l) i (self l) → tls (self l) = Some t → https = true →
  sending (self l) = false → ops (user_data i (generation (self l)) OP_SEND) (events l) = [] →
  tls.session_ok t → asks (user_data i (generation (self l)) OP_SEND) (events l) ≠ [] →
  tls.written t = repeats (length (asks (user_data i (generation (self l)) OP_SEND) (events l))) →
  wire (user_data i (generation (self l)) OP_SEND) (events l) ++ out (self l) = emitted (tls.conn t) →
  ok i (submit_tls_output i) l (λ _ l', core (events l') i (self l') ∧ up (events l') i (self l') ∧ kept l l' ∧ tls (self l') = Some t).
Proof.
  intros Hc Hol Ht Hh Hsd Hno Hok Hne Hk Hw. unfold submit_tls_output. eapply h1_ok_pure; [reflexivity|reflexivity|].
  case_bool_decide as Ho.
  { apply h1_ok_ret. intros _. rewrite Ho, app_nil_r in Hw. destruct Hol as (? & ? & ? & ?). split; [done|]. split; [|done].
    unfold up, up_with, send_link, stream, emits. rewrite Hsd, Ht. by split_and!. }
  eapply h1_ok_pure; [by rewrite Ht|reflexivity|].
  assert (∃ c, when (negb (tls.is_handshaking t)) mark_sent l = (Ok tt, l <| self := c |>) ∧ kept l (l <| self := c |>) ∧
    tls c = tls (self l) ∧ out c = out (self l) ∧ recv_single c = recv_single (self l)) as (c & Hm & Hkept & Htl & Hout & Hrs).
  { destruct (negb _); cbn [when]; [|exists (self l); destruct l; by split_and!].
    destruct (mark_sent_run l) as (c & Hm & Hk' & _ & Ht' & Ho' & _ & _ & _ & Hr'). exists c. by split_and!. }
  eapply h1_ok_pure; [exact Hm|reflexivity|]. eapply h1_ok_pure; [reflexivity|reflexivity|]. destruct Hkept as [_ _ Ef Ecn Eg Er Ea Ed]. cbn in Ef, Ecn, Eg, Er, Ea, Ed.
  apply push_send_ok; [by apply (core_eq _ _ (self l))|done|]. intros w' Hs Hd.
  destruct (up_sending (events l) (hist w') i (self l) (c <| out_off := 0%nat |> <| sending := true |>) (out (self l))) as [Hc' Hu']; try done.
  - unfold outbound. cbn. by rewrite Htl, Ht, Hout.
  - intros Hww Hkk. unfold stream, emits. cbn. rewrite Htl, Ht, Eg, Hww, Hkk, Hout. split_and!; try done. destruct (out (self l)); [done|cbn; lia].
  - split; [exact Hc'|]. split; [exact Hu'|]. split; [by split|]. cbn. by rewrite Htl.
Qed.

(** What a method that sends leaves: the connection is up, nothing else
    changed, and what there is to send is on its way. *)
Definition sends (i : nat) (l l' : Local C) : Prop :=
  core (events l') i (self l') ∧ up (events l') i (self l') ∧ kept l l' ∧ settled (self l').

Lemma sends_intro i l l' :
  core (events l') i (self l') → up (events l') i (self l') → kept l l' → settled (self l') → sends i l l'.
Proof. done. Qed.
Lemma sending_settled (c : Conn C) : sending c = true → settled c.
Proof. intros Hs t _ ?. congruence. Qed.
Lemma plain_settled (c : Conn C) : tls c = None → settled c.
Proof. intros Ht t ?. congruence. Qed.

Lemma tls_output_sends i l t (m : eff (tls.TlsSession C) error bytes) :
  let ud := user_data i (generation (self l)) OP_SEND in
  core (events l) i (self l) → open_link (events l) i (self l) → send_link (events l) i (self l) → tls (self l) = Some t → sending (self l) = false → https = true →
  wire ud (events l) = emitted (tls.conn t) → asks ud (events l) ≠ [] →
  tls.safe m t (λ out t', tls.written t' = repeats (length (asks ud (events l))) ∧ emitted (tls.conn t') = emitted (tls.conn t) ++ out ∧
    wants_write (tls.conn t') = false ∧ (tls.pending_plaintext t' = [] ∨ tls.refused t')) →
  ok i (bytes ← on_tls t m; _ ← update (λ c, c <| out := bytes |>); submit_tls_output i) l (λ _ l', sends i l l').
Proof.
  intros ud Hc Hol Hsl Ht Hsd Hh Hw Hne Hm. unfold tls.safe, holds in Hm. unfold ok, holds. rewrite bind_run. unfold on_tls. destruct (m t) as [r t'].
  rewrite bind_run. cbn [update modify lift]. destruct r as [out1|e]; [|done]. destruct Hm as (Hok & _ & Hk & Hem & Hset).
  rewrite bind_run. cbn [update modify].
  set (l1 := l <| self := self l <| tls := Some t' |> <| out := out1 |> |>).
  pose proof (submit_tls_output_ok i l1 t') as Hsub. unfold ok, holds in Hsub.
  match goal with |- context [submit_tls_output i ?x] => change x with l1 end.
  destruct (submit_tls_output i l1) as [[[]|e] l2]; [|done]. intros Hsound. unfold send_link in Hsl. rewrite Hsd in Hsl. destruct Hsub as [Hf (Hc2 & Hu2 & Hk2 & Ht2)]; try done.
  - by apply (core_eq _ _ (self l)).
  - by rewrite Hem, <- Hw.
  - split; [done|]. split; [done|]. split; [done|]. split; [by etrans; [|exact Hk2]|]. intros t2 Ht2' _. rewrite Ht2 in Ht2'. by injection Ht2' as <-.
Qed.

Lemma repeats_none k : request = [] → repeats (S k) = repeats k.
Proof. intros E. by rewrite <- repeats_snoc, E, app_nil_r. Qed.

Lemma flush_ok i l :
  core (events l) i (self l) → up_with (events l) i (self l) (flushable (events l) i (self l)) → ok i (flush i request) l (λ _ l', sends i l l').
Proof.
  intros Hc Hu. unfold flush. eapply h1_ok_pure; [reflexivity|reflexivity|]. pose proof Hu as (Hfd & Hcn & Hco & Hr & Hsl & Hst). unfold flushable in Hst.
  destruct (sending (self l)) eqn:Hsd.
  { apply h1_ok_ret. intros _. apply sends_intro; try done; [|by apply sending_settled]. split_and!; try done. by destruct (tls (self l)). }
  destruct (tls (self l)) as [t|] eqn:Ht.
  - unfold stream, emits in Hst. rewrite Ht, Hsd in Hst. destruct Hst as (Hh & Hok & Hne & Hk & Hw). apply tls_output_sends; try done.
    pose proof (tls.take_ciphertext_safe t Hok) as Htake. unfold tls.safe, holds in *.
    destruct (tls.take_ciphertext_into t) as [[o|e] t']; [|done]. destruct Htake as (? & ? & Hwr & Hww & (b & -> & Hem) & Hp).
    split_and!; [done|done|by rewrite Hwr|done|done|done].
  - destruct Hst as (Hh & Hq & k & How & Hst). unfold outbound. rewrite Ht. destruct (Nat.ltb_spec (out_off (self l)) (length request)) as [Hlt|Hge].
    2: { apply h1_ok_ret. intros _. apply sends_intro; try done; [|by apply plain_settled]. split_and!; try done. unfold stream. rewrite Ht, Hsd. split; [done|].
         exists k. destruct Hst as [[? ?]|[Hw Hz]]; [done|]. split_and!; try done. rewrite repeats_none; [done|]. destruct request; [done|cbn in Hge; lia]. }
    destruct (mark_sent_run l) as (c & Hm & Hk & _ & Htl & _ & Hoo & _ & Hqq & Hrs). eapply h1_ok_pure; [exact Hm|reflexivity|].
    eapply h1_ok_pure; [reflexivity|reflexivity|]. eapply h1_ok_pure; [by rewrite slice_from_le by lia|reflexivity|].
    destruct Hk as [_ _ Ef Ecn Eg Er Ea Ed]. cbn in Ef, Ecn, Eg, Er, Ea, Ed.
    apply push_send_ok; [by apply (core_eq _ _ (self l))|done|]. intros w' Hs Hd.
    unfold send_link in Hsl. rewrite Hsd in Hsl. destruct Hst as [[_ ?]|[Hw Hz]]; [lia|].
    destruct (up_sending (events l) (hist w') i (self l) (c <| sending := true |>) (drop (out_off (self l)) request)) as [Hc' Hu']; try done.
    + unfold outbound. cbn. by rewrite Htl, Ht, Hoo.
    + intros Hww Hkk. unfold stream, owes_after. cbn. rewrite Htl, Ht, Eg, Hww, Hkk, Hoo, Hw, Hz, Hqq, Hq. split; [done|]. exists k. split; [lia|]. by rewrite app_nil_r.
Qed.

Lemma up_flushable h i c : up h i c → up_with h i c (flushable h i c).
Proof.
  intros (? & ? & ? & ? & ? & Hst). split_and!; try done. unfold flushable. destruct (tls c) eqn:Ht; [done|]. destruct (sending c) eqn:Hsd; [done|].
  unfold stream in Hst. rewrite Ht, Hsd in Hst. destruct Hst as (? & k & ? & ? & ? & ?). split_and!; try done. exists k. split; [done|by left].
Qed.
Lemma offered_asked h i c : offered h i c → asks (user_data i (generation c) OP_SEND) h ≠ [].
Proof. intros (bs & -> & _). done. Qed.

Lemma queue_and_flush_ok i l :
  core (events l) i (self l) → up_with (events l) i (self l) (offered (events l) i (self l)) → ok i (queue_and_flush_request i request) l (λ _ l', sends i l l').
Proof.
  intros Hc Hu. unfold queue_and_flush_request. eapply h1_ok_pure; [reflexivity|reflexivity|].
  pose proof Hu as (Hfd & Hcn & Hco & Hr & Hsl & bs & Hasks & Hst). pose proof (offered_asked (events l) i (self l) ltac:(by exists bs)) as Hne.
  destruct (sending (self l)) eqn:Hsd, (tls (self l)) as [t|] eqn:Ht.
  - eapply (h1_ok_bind i _ _ _ (λ _ l', core (events l') i (self l') ∧ up (events l') i (self l') ∧ kept l l' ∧ is_Some (tls (self l'))));
      [|intros; apply flush_grows|intros [] l' Hs _ (? & Hu' & ? & Ht'); eapply h1_ok_mono; [apply flush_ok; [done|]|];
        [destruct Hu' as (? & ? & ? & ? & ? & ?); split_and!; try done; unfold flushable; by destruct Ht' as [? ->]|
         intros [] l2 _ (? & ? & ? & ?); apply sends_intro; try done; by etrans]].
    unfold queue_request. eapply h1_ok_pure; [reflexivity|reflexivity|]. rewrite Ht. destruct Hst as (Hh & Hok & Hk & Hem0). unfold emits in Hem0. rewrite Hsd in Hem0.
    unfold ok, holds, on_tls. pose proof (tls.write_plaintext_safe request t Hok) as Hwp. unfold tls.safe, holds in Hwp.
    destruct (tls.write_plaintext request t) as [r t']. rewrite bind_run. cbn [update modify lift]. destruct r as [u|e]; [|done].
    destruct Hwp as (Hok' & _ & Hwr & Hem). intros _. split; [apply h1_frame_refl|]. split; [by apply (core_eq _ _ (self l))|].
    split; [|by split; [split|]]. unfold up, up_with, send_link, stream, emits, outbound in *. cbn. rewrite Hsd, Hasks in *. rewrite Ht in Hsl. split_and!; try done.
    + by rewrite Hwr, Hk, repeats_snoc.
    + apply Hem0.
    + rewrite Hem. apply Hem0.
  - eapply h1_ok_pure; [unfold queue_request; rewrite bind_run; cbn [me]; unfold me; cbn [get]; rewrite bind_run; cbn; by rewrite Ht, Hsd|reflexivity|].
    unfold flush. eapply h1_ok_pure; [reflexivity|reflexivity|]. cbn. rewrite Hsd. apply h1_ok_ret. intros _. split; [by apply (core_eq _ _ (self l))|].
    split; [|split; [by split|by apply sending_settled]]. unfold up, up_with, send_link, stream, outbound in *. cbn. rewrite Hsd, Ht in *.
    destruct Hst as (? & k & ? & ?). split_and!; try done. exists k. by split_and!.
  - destruct Hst as (Hh & Hok & Hk & Hw). unfold emits in Hw. rewrite Hsd in Hw. apply tls_output_sends; try done.
    pose proof (tls.write_take_safe request t Hok) as Hwt. unfold tls.safe, holds in *.
    destruct (tls.write_plaintext_and_take_ciphertext request t) as [[o|e] t']; [|done]. destruct Hwt as (? & ? & Hwr & ? & Hem & ?).
    split_and!; [done|done|by rewrite Hasks, Hwr, Hk, repeats_snoc|done|done|done].
  - eapply h1_ok_pure; [unfold queue_request; rewrite bind_run; cbn [me]; unfold me; cbn [get]; rewrite bind_run; cbn; by rewrite Ht, Hsd|reflexivity|].
    set (l1 := l <| self := self l <| out_off := 0%nat |> |>).
    eapply h1_ok_mono; [apply (flush_ok i l1)|].
    + by apply (core_eq _ _ (self l)).
    + unfold up_with, send_link, flushable, owes_after, outbound in *. cbn. rewrite Ht, Hsd, Hasks in *. destruct Hst as (? & k & ? & Hw). split_and!; try done.
      exists k. rewrite Hw. split; [done|by right].
    + intros [] l2 _ (? & ? & Hk & ?). apply sends_intro; try done. by etrans; [|exact Hk].
Qed.

(** ** Closing *)

(** What retiring leaves of the accounts. *)
Definition same_account (l l' : Local C) : Prop :=
  stats l' = stats l ∧ started l' = started l ∧ active (self l') = active (self l) ∧ deadline (self l') = deadline (self l).
#[global] Instance same_account_preorder : PreOrder same_account.
Proof. split; [done|]. intros l1 l2 l3 (? & ? & ? & ?) (? & ? & ? & ?). split_and!; congruence. Qed.

Lemma send_close_notify_ok i l :
  ok i send_close_notify l (λ _ l', did [] (events l) (events l') ∧ same_account l l' ∧
    fd (self l') = fd (self l) ∧ generation (self l') = generation (self l)).
Proof.
  assert (did [] (events l) (events l) ∧ same_account l l ∧ fd (self l) = fd (self l) ∧ generation (self l) = generation (self l)) as Hrefl
    by (split_and!; try done; apply did_nothing).
  unfold send_close_notify. eapply h1_ok_pure; [reflexivity|reflexivity|]. destruct (tls (self l)) as [t|]; [|by apply h1_ok_ret].
  destruct (sending (self l)); [by apply h1_ok_ret|].
  set (m := on_tls _ _). assert (∃ r t', m l = (r, l <| self := self l <| tls := Some t' |> |>)) as (r & t' & Hm).
  { subst m. unfold on_tls. destruct (tls.take_ciphertext_into _) as [r t']. by exists r, t'. }
  unfold ok, holds. rewrite bind_run. unfold attempt. rewrite Hm. destruct r as [b|[e|e]]; [| |done].
  - rewrite bind_run. cbn [update modify]. case_bool_decide.
    + cbn. intros _. split; [apply h1_frame_refl|]. split; [apply did_nothing|by split_and!].
    + unfold on_ring, raw_send. cbn. intros _. split; [by apply h1_did_frame, did_neutral|]. split; [by apply did_neutral|by split_and!].
  - cbn. intros _. split; [apply h1_frame_refl|]. split; [apply did_nothing|by split_and!].
Qed.

(** The bytes of a generation that is over stay a beginning of whole requests. *)
Lemma up_whole h i c : up h i c → whole_requests h i (generation c).
Proof.
  intros (_ & _ & _ & _ & Hs & Hst). unfold send_link, stream, whole_requests, outbound in *. destruct (tls c) as [t|]; [by left; destruct Hst|right].
  destruct Hst as (_ & k & Hst). exists (S k). rewrite Hs. destruct (sending c).
  - destruct Hst as (_ & -> & _). by rewrite <- app_assoc, take_drop, repeats_snoc.
  - by destruct Hst as (_ & -> & _).
Qed.
Lemma bare_whole h i c : bare h i c → whole_requests h i (generation c).
Proof. intros (_ & _ & _ & _ & _ & _ & Hs & Hw & _). right. exists 0%nat. rewrite Hs, Hw. apply prefix_nil. Qed.

Lemma close_ok i l :
  core (events l) i (self l) → 0 ≤ fd (self l) → whole_requests (events l) i (generation (self l)) →
  ok i close l (λ _ l', core (events l') i (self l') ∧ idle (events l') i (self l') ∧ same_account l l' ∧
    (length (events l) < length (events l'))%nat).
Proof.
  intros Hc Hfd Hwh. unfold close. eapply h1_ok_pure; [reflexivity|reflexivity|]. rewrite (proj2 (Z.leb_le _ _) Hfd). cbn [when].
  set (tidy := update (λ c, c <| connected := false |> <| recv_armed := false |> <| sending := false |> <| queued := false |>
    <| tls := None |> <| out := [] |> <| out_off := 0%nat |> <| generation := next_generation (generation c) |>)).
  eapply (h1_ok_bind i _ _ _ (λ _ l', did [] (events l) (events l') ∧ (length (events l) < length (events l'))%nat ∧ same_account l l' ∧
    fd (self l') = -1 ∧ generation (self l') = generation (self l))); [|intros; apply update_grows|].
  - eapply h1_ok_bind; [apply send_close_notify_ok|intros; grow|]. intros _ l1 Hs1 _ (Hd1 & Ha1 & Hf1 & Hg1).
    apply h1_ok_log; [done|]. eapply h1_ok_pure_last; [reflexivity|reflexivity|]. intros _. cbn.
    split_and!; try apply Ha1; try done; [|apply did_suffix, suffix_length in Hd1; lia].
    eapply did_trans_nil; [exact Hd1|by apply did_neutral].
  - intros _ l1 Hs1 _ (Hd & Hlen & (? & ? & ? & ?) & Hfd' & Hg). eapply h1_ok_pure_last; [reflexivity|reflexivity|]. intros _. cbn.
    assert (same_ops (events l) (events l1) i) as Hsame by by apply h1_did_quiet.
    pose proof (core_same _ _ _ _ Hs1 (did_suffix _ _ _ Hd) Hsame Hc) as Hc1. destruct (id_ok _ _ _ 0 Hs1 Hc1 ltac:(done)) as (Hi & Hgb & _).
    pose proof (c_gen _ _ _ Hc) as Hgen. destruct Hs1 as [_ Hn].
    assert (next_generation (generation (self l1)) = generation (self l) + 1) as Hnext by (rewrite Hg; by apply next_generation_small).
    assert (fresh (events l1) i (generation (self l) + 1)) as Hfresh by (apply (c_future _ _ _ Hc1); lia).
    split; [|split; [|by split; [split_and!|]]].
    + split; cbn; rewrite ?Hnext; [done|lia| |].
      * intros g Hgg. destruct (Z.eq_dec g (generation (self l))) as [-> |]; [|by apply (c_past _ _ _ Hc1); lia].
        by apply (whole_same (events l)).
      * intros g Hgg. apply (c_future _ _ _ Hc1). lia.
    + split; [done|]. cbn. rewrite Hnext. split; [|done]. unfold bare. cbn. destruct Hfresh as (Ho & Hw & Hk). rewrite Hw, Hk. split_and!; try done; by apply Ho.
Qed.

Variable patience : nat.

(** A connection that can be retired. *)
Definition closable (i : nat) (l : Local C) : Prop :=
  core (events l) i (self l) ∧ 0 ≤ fd (self l) ∧ whole_requests (events l) i (generation (self l)).

Lemma closable_quiet i l w' : sound (hist w') → closable i l → did [] (events l) (hist w') → closable i (l <| world := w' |>).
Proof.
  intros Hs (Hc & Hfd & Hw) Hd. pose proof (core_same _ _ _ _ Hs (did_suffix _ _ _ Hd) (h1_did_quiet _ _ i Hd) Hc) as Hc'.
  destruct (id_ok _ _ _ 0 Hs Hc' ltac:(done)) as (? & ? & _). split; [done|]. split; [done|].
  eapply whole_same; [by apply h1_did_quiet|done|done|done].
Qed.

Lemma retire_ok i l :
  closable i l →
  ok i (retire patience i) l (λ _ l', core (events l') i (self l') ∧ idle (events l') i (self l') ∧ same_account l l' ∧
    (length (events l) < length (events l'))%nat).
Proof.
  intros Hcl. unfold retire. eapply h1_ok_pure; [reflexivity|reflexivity|]. rewrite (proj2 (Z.leb_le _ _)) by apply Hcl. cbn [when].
  eapply (h1_ok_bind i _ _ _ (λ _ l', closable i l' ∧ ∃ w', l' = l <| world := w' |>)); [|intros; apply close_grows|].
  - eapply (h1_ok_bind i _ _ _ (λ _ l', closable i l' ∧ ∃ w', l' = l <| world := w' |>)).
    + destruct (negb (io_quiescent (self l))); cbn [when]; [|apply h1_ok_ret; intros _; split; [done|exists (world l); by destruct l]].
      eapply (h1_ok_bind i _ _ _ (λ _ l', closable i l' ∧ ∃ w', l' = l <| world := w' |>)); [|intros; grow|].
      * apply h1_ok_quiet; [apply drain_sq_queues|]. intros _ w' Hs Hd. split; [by apply closable_quiet|by exists w'].
      * intros _ l1 _ _ (Hc1 & w1 & ->). apply h1_ok_quiet; [apply sync_cancel_queues|]. intros _ w' Hs Hd.
        split; [by apply closable_quiet|by exists w'].
    + intros; grow.
    + intros _ l1 _ _ (Hc1 & w1 & ->). apply h1_ok_quiet; [apply register_files_update_queues|]. intros _ w' Hs Hd.
      split; [by apply closable_quiet|by exists w'].
  - intros _ l1 _ Hf ((Hc1 & Hfd & Hw) & w1 & ->). apply h1_frame_length in Hf. eapply h1_ok_mono; [by apply close_ok|].
    intros [] l2 _ (? & ? & ? & ?). split; [done|]. split; [done|]. split; [done|]. cbn in *. lia.
Qed.

(** A connection that is started again. *)
Lemma connect_links h h' i c f :
  sound h' → core h i c → idle h i c → active c = true → 0 ≤ f → did (connect_pair i (generation c)) h h' →
  core h' i (c <| fd := f |>) ∧ connecting h' i (c <| fd := f |>).
Proof.
  intros Hs Hc (_ & Hb & Hfr) Ha Hf Hd. pose proof (sound_suffix _ _ (did_suffix _ _ _ Hd) Hs) as Hs0.
  assert (∀ op, 0 ≤ op < 4 → well_formed_id i (generation c) op) as Hid by (intros; by eapply id_ok).
  assert (∀ op op', 0 ≤ op < 4 → 0 ≤ op' < 4 → op ≠ op' → user_data i (generation c) op ≠ user_data i (generation c) op') as Hne.
  { intros op op' ? ? Hn Heq. apply user_data_inj in Heq as (_ & _ & ?); [done|by apply Hid..]. }
  assert (∀ op, 0 ≤ op < 4 → ops (user_data i (generation c) op) h' =
    (if op =? 3 then [LinkTimeout (user_data i (generation c) 3)] else if op =? 2 then [Connect i (user_data i (generation c) 2)] else [])) as Ho.
  { intros op Hop. rewrite (did_ops _ _ _ _ Hd), (proj1 Hfr op Hop), app_nil_r. unfold connect_pair.
    unfold with_ud. cbn [List.filter entry_ud]. destruct (Z.eqb_spec op 3) as [-> |]; [|destruct (Z.eqb_spec op 2) as [-> |]];
      repeat (rewrite Z.eqb_refl || rewrite (proj2 (Z.eqb_neq _ _)) by (apply Hne; done)); done. }
  split.
  - apply (core_eq _ _ c); [|done]. eapply core_did; [done|done|done|]. repeat constructor; [by exists 3|by exists 2].
  - unfold connecting, bare in *. cbn. rewrite !Ho, (did_wire _ _ _ Hd), (did_asks _ _ _ Hd) by done. destruct Hb as (? & ? & ? & ? & ? & _ & _ & ? & ?).
    by split_and!.
Qed.

Lemma h1_pair_of_conn h i c : sound h → core h i c → Forall (of_conn i) (connect_pair i (generation c)).
Proof.
  intros Hs Hc. repeat constructor; [exists (generation c), 3|exists (generation c), 2]; (split; [by eapply id_ok|done]).
Qed.

Lemma reconnect_ok i l :
  core (events l) i (self l) → idle (events l) i (self l) → active (self l) = true →
  ok i (reconnect i) l (λ f l', core (events l') i (self l') ∧ same_account l l' ∧
    match f with Continue => connecting (events l') i (self l') | BreakOuter => idle (events l') i (self l') end).
Proof.
  intros Hc Hi Ha. unfold reconnect. eapply h1_ok_pure; [reflexivity|reflexivity|]. unfold ok, holds. rewrite bind_run. unfold attempt, on_ring.
  pose proof (start_connect_did i (generation (self l)) (world l)) as Hd. destruct (start_connect _ _ _) as [[f|[e|e]] w']; [| |done].
  - destruct Hd as [Hf Hd]. rewrite bind_run. cbn. intros Hs.
    pose proof (sound_suffix _ _ (did_suffix _ _ _ Hd) Hs) as Hs0.
    destruct (connect_links _ _ i (self l) f Hs Hc Hi Ha) as [Hc' Hcn]; [apply Hf, Hs|done|].
    split; [eapply h1_queued_frame; [done|by eapply h1_pair_of_conn]|]. by split_and!.
  - cbn. intros Hs. split; [by apply h1_did_frame|]. pose proof (h1_did_quiet _ _ i Hd) as Hsame.
    pose proof (core_same _ _ _ _ Hs (did_suffix _ _ _ Hd) Hsame Hc) as Hc'. split; [done|]. split; [done|].
    destruct (linked_same (events l) (hist w') i (self l)) as [?|[Hx|Hx]]; [by eapply id_ok|done|by left|done| |].
    + destruct Hx as (Hx & _). destruct Hi as [Hi _]. lia.
    + destruct Hx as (Hx & _). destruct Hi as [Hi _]. lia.
Qed.
End inv.

(** Unfolds what is said of a connection down to its operations. *)
Ltac unlink := unfold linked, idle, connecting, up, up_with, bare, recv_link, send_link, stream, owes_after, emits, fresh in *.
End http1_inv.
