(* ===== verification/Http1WorkerRun.v ===== *)
(** * Handling one completion of an HTTP/1.1 worker

    Every handler keeps the invariant of [Http1WorkerInv.v], failing or not, and
    leaves the connection alone, to be replaced, or served: with a receive armed
    and its request on its way. *)

From S2P Require Import Prelude Effects Status Stats Http1Parse Target Uring UringRun Tls Http1Worker Http1WorkerInv.
From stdpp Require Import relations.
#[local] Open Scope Z_scope.

Module http1_run.
Import uring uring_run http1 http1_inv.

(** ** Histories only grow *)

Section growth.
Context `{Kernel} `{Memchr} {C : Type} `{Client C} `{VecGrowth} {SocketAddr : Type}.
Variables (patience : nat) (target : target.Target SocketAddr) (https : bool) (budget : budget.Budget) (timeout : option Z).
Abbreviation grows m := (evolves (lgrows (C := C)) m).

Lemma count_start_grows : grows count_start.
Proof. intros l. apply (reflexivity (world l)). Qed.
Lemma end_request_grows : grows end_request.
Proof. apply update_grows. Qed.
Lemma reconnect_grows i : grows (reconnect i).
Proof. unfold reconnect. grow. Qed.
Hint Resolve count_start_grows end_request_grows reconnect_grows : grow.
Lemma on_connect_grows i res : grows (on_connect target https timeout i res).
Proof. unfold on_connect. grow. Qed.
Lemma on_send_grows i res : grows (on_send target i res).
Proof. unfold on_send, push_send_slice. grow. Qed.
Lemma on_recv_grows i cqe : grows (on_recv target i cqe).
Proof. unfold on_recv. grow. Qed.
Hint Resolve on_connect_grows on_send_grows on_recv_grows : grow.
Lemma on_op_grows i op cqe : grows (on_op target https timeout i op cqe).
Proof. unfold on_op. grow. Qed.
Lemma next_request_grows i stop keep : grows (next_request patience target budget timeout i stop keep).
Proof. unfold next_request, reset_parser. grow. Qed.
Hint Resolve on_op_grows next_request_grows : grow.
Lemma on_cqe_grows i stop op g cqe : grows (on_cqe patience target https budget timeout i stop op g cqe).
Proof. unfold on_cqe. grow. Qed.
Lemma check_deadline_grows i stop at_ : grows (check_deadline patience budget i stop at_).
Proof. unfold check_deadline, reset_parser. grow. Qed.
Lemma open_first_grows i : grows (open_first timeout i).
Proof. unfold open_first. grow. Qed.
End growth.
#[export] Hint Resolve count_start_grows end_request_grows reconnect_grows on_connect_grows on_send_grows on_recv_grows
  on_op_grows next_request_grows on_cqe_grows check_deadline_grows open_first_grows : grow.

Section handlers.
Context `{Kernel} `{Memchr} {C : Type} `{CL : ClientLaws C} `{VecGrowth} {SocketAddr : Type}.
Variable patience : nat.
Variable target : target.Target SocketAddr.
Variable https : bool.
Variable budget : budget.Budget.
Variable timeout : option Z.

Abbreviation request := (target.request_bytes target).
Abbreviation M := (eff (Local C) error).
Abbreviation events l := (hist (world l)).
Abbreviation core := (core request https).
Abbreviation up := (up request https).
Abbreviation closable := (closable request https).
Abbreviation conn_ok := (conn_ok request https).
Abbreviation served := (http1_inv.served (C := C)).

(** ** Accounts *)

Definition total (l : Local C) : Z := stats.completed (stats l) + stats.errors (stats l).
Definition owed (c : Conn C) : Z := if active c then 1 else 0.

(** The counters are far from wrapping. *)
Definition room (l : Local C) : Prop :=
  0 ≤ stats.completed (stats l) ∧ 0 ≤ stats.errors (stats l) ∧ total l + 1 < 2 ^ 64 ∧ 0 ≤ started l ∧ started l + 1 < 2 ^ 64.

(** [n] requests were finished. *)
Definition booked (n : Z) (l l' : Local C) : Prop :=
  0 ≤ stats.completed (stats l') ∧ 0 ≤ stats.errors (stats l') ∧ total l' = total l + n ∧ started l' = started l.

Lemma booked_same l l' : room l → stats l' = stats l → started l' = started l → booked 0 l l'.
Proof. intros (? & ? & _) Hs Hn. unfold booked, total. rewrite Hs, Hn. split_and!; try done. lia. Qed.
Lemma booked_trans n l l' l'' : booked n l l' → stats l'' = stats l' → started l'' = started l' → booked n l l''.
Proof. intros (? & ? & ? & ?) Hs Hn. unfold booked, total in *. rewrite Hs, Hn. by split_and!. Qed.
Lemma booked_from n l l' l'' : total l' = total l → started l' = started l → booked n l' l'' → booked n l l''.
Proof. intros Ht Hn (? & ? & ? & ?). unfold booked. split_and!; try done; congruence. Qed.

Lemma booked_after n l l' l'' : booked 0 l l' → booked n l' l'' → booked n l l''.
Proof. intros (? & ? & Ht & Hn). apply booked_from; [lia|done]. Qed.

Lemma count_error_booked l : room l → booked 1 l (l <| stats := count_error (stats l) |>).
Proof.
  intros (? & ? & ? & _). unfold booked, total in *. cbn. rewrite u64_small by lia. split_and!; try lia.
Qed.

Lemma me_bind {A} (f : Conn C → M A) l : (me ≫= f) l = f (self l) l.
Proof. reflexivity. Qed.

(** A failed request is counted once, if one was owed. *)
Lemma fail_request_run l : room l →
  ∃ l', fail_request l = (Ok tt, l') ∧ world l' = world l ∧ booked (owed (self l)) l l' ∧ active (self l') = false ∧
    self l' = (if active (self l) then self l <| active := false |> <| deadline := None |> else self l).
Proof.
  intros Hr. assert (fail_request l = when (active (self l)) (_ ← update_stats count_error; end_request) l) as -> by reflexivity.
  unfold owed. destruct (active (self l)) eqn:Ha; [|exists l; split_and!; try done; by apply booked_same].
  eexists. split; [reflexivity|]. split_and!; try done. eapply booked_trans; [by apply count_error_booked|done|done].
Qed.

Lemma record_success_run l : room l →
  match record_success l with
  | (Ok _, l') => world l' = world l ∧ self l' = self l ∧ booked 1 l l'
  | (Err _, _) => True
  end.
Proof.
  intros (? & ? & Ht & _). unfold record_success. rewrite bind_run. cbn [get]. rewrite bind_run. unfold stats.record_success.
  destruct (_ !! _) as [n|]; [|done]. cbn. split_and!; try done. unfold booked, total in *. cbn. rewrite u64_small by lia. split_and!; lia.
Qed.

Lemma finish_at_eof_run l : room l →
  match finish_at_eof l with
  | (Ok _, l') => world l' = world l ∧ booked (owed (self l)) l l' ∧
      ∃ p, self l' = self l <| parser := p |> <| active := false |> <| deadline := deadline (self l') |>
  | (Err _, _) => True
  end.
Proof.
  intros Hr. unfold finish_at_eof. rewrite me_bind. unfold owed. destruct (active (self l)) eqn:Ha; cbn [negb].
  2: { split; [done|]. split; [by apply booked_same|]. exists (parser (self l)). destruct (self l). cbn in *. by subst. }
  destruct (http1_parse.mark_eof (parser (self l))) as [p complete]. rewrite bind_run. cbn [update modify].
  set (l1 := l <| self := self l <| parser := p |> |>). assert (room l1) as Hr1 by done. rewrite bind_run. destruct complete.
  - pose proof (record_success_run l1 Hr1) as Hs. destruct (record_success l1) as [[[]|e] l2]; [|done]. destruct Hs as (Hw & Hself & Hb). cbn.
    split; [done|]. split; [exact Hb|]. exists p. by rewrite Hself.
  - cbn. split; [done|]. split; [exact (count_error_booked l Hr)|]. by exists p.
Qed.

(** ** What handling a completion leaves *)

Definition outcome_ok (i : nat) (l : Local C) (o : outcome) (l' : Local C) : Prop :=
  if request_finished o then
    booked (owed (self l)) l l' ∧
    (if keep_conn o then core (events l') i (self l') ∧ up (events l') i (self l') else closable i l')
  else booked 0 l l' ∧ conn_ok (events l') i (self l') ∧ served (self l') ∧ active (self l') = active (self l).

(** A request that is being sent, or is on the wire. *)
Lemma sends_outcome i l l0 l' :
  booked 0 l l0 → active (self l0) = active (self l) → recv_armed (self l0) = true →
  (active (self l0) = false → deadline (self l0) = None) → sends request https i l0 l' → outcome_ok i l carry_on l'.
Proof.
  intros Hb Ha Hr Hd (Hc & Hu & Hk & Hs). split; [by eapply booked_trans; [|apply Hk..]|]. split; [split; [done|by right; right]|].
  split; [|by rewrite (k_active _ _ Hk)]. unfold http1_inv.served.
  rewrite (k_active _ _ Hk), (k_recv _ _ Hk), (k_deadline _ _ Hk). split; [|done]. intros _. split; [apply Hu|done].
Qed.

(** A connection that has just come up, and the request it is given. *)
Definition blank (h : list Event) (i : nat) (c : Conn C) : Prop :=
  let ud := user_data i (generation c) OP_SEND in
  sending c = false ∧ queued c = false ∧ wire ud h = [] ∧ asks ud h = [] ∧
  match tls c with
  | None => https = false
  | Some t => https = true ∧ tls.session_ok t ∧ tls.written t = [] ∧ emitted (tls.conn t) = []
  end.
Lemma landed_up h i (c : Conn C) : core h i c → landed h i c → https = false →
  let c' := c <| connected := true |> in up_with request h i c' (blank h i c').
Proof.
  intros Hc (Hfd & Ha & Hco & _ & Hra & Hsd & Ht & Hq & Hr & Hs & Hw & Hk) Hh.
  unfold up_with, recv_link, send_link, blank. cbn. rewrite Hra, Hsd, Ht. by split_and!.
Qed.
Lemma landed_up_tls h i (c : Conn C) t : core h i c → landed h i c → https = true → tls.new = Ok t →
  let c' := c <| connected := true |> <| tls := Some t |> in up_with request h i c' (blank h i c').
Proof.
  intros Hc (Hfd & Ha & Hco & _ & Hra & Hsd & Ht & Hq & Hr & Hs & Hw & Hk) Hh Hnew.
  unfold tls.new in Hnew. cbn in Hnew. destruct client_new as [x|] eqn:E; [|done]. injection Hnew as <-.
  destruct (new_law x E) as (Ha' & He & _ & _).
  unfold up_with, recv_link, send_link, blank. cbn. rewrite Hra, Hsd. split_and!; try done; [by left|]. unfold tls.written. cbn. by rewrite Ha'.
Qed.

(** Asking leaves the operations alone. *)
Lemma asked_core h i (c : Conn C) : Z.of_nat (length h) < 2 ^ GENERATION_BITS - 2 → core h i c → core (Asked (user_data i (generation c) OP_SEND) :: h) i c.
Proof.
  intros Hn [Hi Hg Hp Hf]. split; [done|cbn [length]; lia|done|]. intros g Hb. destruct (Hf g Hb) as (? & ? & Ha). split_and!; try done. cbn [asks].
  rewrite (proj2 (Z.eqb_neq _ _)); [done|]. intros Heq. apply user_data_inj in Heq as (_ & ? & _); [lia|by apply wf_id; [|lia..|]|by apply wf_id; [|lia..|]].
Qed.
Lemma sound_room e h : sound (e :: h) → Z.of_nat (length h) < 2 ^ GENERATION_BITS - 2.
Proof. intros [_ Hn]. cbn [length] in Hn. lia. Qed.

Lemma blank_offered h i (c : Conn C) : let ud := user_data i (generation c) OP_SEND in
  up_with request h i c (blank h i c) → up_with request (Asked ud :: h) i c (offered request https (Asked ud :: h) i c).
Proof.
  intros ud (? & ? & ? & ? & ? & Hsd & Hq & Hw & Hk & Hst). split_and!; try done. exists []. subst ud. cbn [asks wire]. rewrite Z.eqb_refl, Hk. split; [done|].
  unfold emits. rewrite Hsd. cbn [wire]. destruct (tls c) as [t|].
  - destruct Hst as (? & ? & ? & He). split_and!; try done. by rewrite Hw, He.
  - split; [done|]. by exists 0%nat.
Qed.
Lemma up_offered h i (c : Conn C) : let ud := user_data i (generation c) OP_SEND in
  up h i c → up_with request (Asked ud :: h) i c (offered request https (Asked ud :: h) i c).
Proof.
  intros ud (? & ? & ? & ? & ? & Hst). split_and!; try done. exists (asks ud h). subst ud. unfold stream, emits in *. cbn [asks wire]. rewrite Z.eqb_refl. split; [done|].
  destruct (tls c) as [t|]; [by destruct Hst as (? & ? & _ & ? & ?)|]. destruct Hst as (? & k & Hst). split; [done|]. destruct (sending c).
  - destruct Hst as (? & ? & _). by exists k.
  - destruct Hst as (? & ? & _). by exists (S k).
Qed.

(** The request that was begun is asked for, and sent. *)
Lemma ask_ok {B} i l (f : unit → M B) Q :
  core (events l) i (self l) →
  (let h := Asked (user_data i (generation (self l)) OP_SEND) :: events l in up_with request h i (self l) (offered request https h i (self l))) →
  (∀ x, evolves lgrows (f x)) → (∀ l', sound (events l') → sends request https i l l' → ok i (f tt) l' Q) →
  ok i (_ ← ask i; _ ← queue_and_flush_request i request; f tt) l Q.
Proof.
  intros Hc Hu Hg Hf. apply (h1_ok_asked request https); [done|]. set (l1 := noting _ l) in *.
  assert (sound (events l1) → core (events l1) i (self l1)) as Hc1 by (intros Hs; apply asked_core; [exact (sound_room (Asked _) _ Hs)|done]).
  apply h1_ok_sound; [grow|]. intros Hs. eapply h1_ok_bind; [apply (queue_and_flush_ok request https); [by apply Hc1|done]|intros; apply Hg|].
  intros [] l' Hs' _ (? & ? & [] & ?). apply Hf; [done|]. apply sends_intro; try done; by split.
Qed.

Lemma on_connect_ok i res l :
  core (events l) i (self l) → landed (events l) i (self l) → room l →
  ok i (on_connect target https timeout i res) l (λ o l', outcome_ok i l o l').
Proof.
  intros Hc Hl Hr. unfold on_connect. eapply h1_ok_pure; [reflexivity|reflexivity|].
  pose proof Hl as (Hfd & Hact & Hco & Hbare). destruct (Z.ltb_spec res 0) as [Hneg|Hpos].
  { eapply h1_ok_pure; [reflexivity|reflexivity|]. eapply h1_ok_pure; [reflexivity|reflexivity|]. apply h1_ok_ret. intros _.
    unfold outcome_ok, owed. cbn [request_finished keep_conn finish]. rewrite Hact. split; [exact (count_error_booked l Hr)|].
    split; [by apply (core_eq _ _ _ _ (self l))|]. split; [done|]. exact (bare_whole request https _ _ _ Hbare). }
  rewrite (proj2 (Z.leb_le _ _) Hpos). set (l1 := l <| self := self l <| connected := true |> |>).
  assert (core (events l1) i (self l1)) as Hc1 by by apply (core_eq _ _ _ _ (self l)).
  eapply h1_ok_bind; [by apply (push_recv_arms request https)|intros; unfold begin_request; grow|].
  intros _ l2 Hs2 _ (w2 & -> & Hd).
  assert (∀ c, up_with request (events l) i c (blank (events l) i c) → core (events l) i c → recv_armed c = false → recv_entry i c = recv_entry i (self l1) →
    ok i (_ ← begin_request timeout; _ ← ask i; _ ← queue_and_flush_request i request; mret carry_on)
      (l1 <| world := w2 |> <| self := c <| recv_armed := true |> |>) (λ o l', outcome_ok i l o l')) as Hgo.
  { intros c Hu Hcc Hra He. rewrite <- He in Hd.
    destruct (armed_with request https (λ h c, blank h i c) _ _ i c Hs2 Hcc Hu Hra Hd) as [Hc2 Hu2]; [intros Hw Hk; unfold blank; cbn; by rewrite Hw, Hk|].
    eapply h1_ok_pure; [reflexivity|reflexivity|]. apply (ask_ok i _ (λ _, mret carry_on)).
    - by apply (core_eq _ _ _ _ (c <| recv_armed := true |>)).
    - apply blank_offered. exact Hu2.
    - intros; grow.
    - intros l3 Hs3 Hsd. apply h1_ok_ret. intros _. eapply sends_outcome; [| | | |exact Hsd]; try done. by apply booked_same. }
  destruct (decide (https = true)) as [Hh|Hh%not_true_is_false].
  - rewrite when_true by done.
    eapply (h1_ok_bind i _ _ _ (λ _ l', ∃ t, tls.new = Ok t ∧
      l' = l1 <| world := w2 |> <| self := self l <| connected := true |> <| tls := Some t |> <| recv_armed := true |> |>)); [|intros; grow|].
    + unfold ok, holds. rewrite bind_run. cbn [lift]. destruct tls.new as [t|e]; [|done]. cbn. intros _. split; [apply h1_frame_refl|by exists t].
    + intros _ l3 _ _ (t & Ht & ->).
      apply Hgo; [by apply landed_up_tls|by apply (core_eq _ _ _ _ (self l))|apply Hl|done].
  - rewrite when_false by done. apply (Hgo (self l <| connected := true |>)); [by apply landed_up|done|apply Hl|done].
Qed.

(** Sending may leave the receive to be armed again. *)
Lemma rearm_ok i l l0 l1 :
  booked 0 l l0 → active (self l0) = active (self l) → (active (self l0) = false → deadline (self l0) = None) →
  sends request https i l0 l1 →
  ok i (_ ← when (negb (recv_armed (self l1))) (push_recv i); mret carry_on) l1 (λ o l', outcome_ok i l o l').
Proof.
  intros Hb Ha Hd (Hc & Hu & Hk & Hs).
  assert (∀ l2, core (events l2) i (self l2) → up (events l2) i (self l2) → recv_armed (self l2) = true → stats l2 = stats l1 → started l2 = started l1 →
    active (self l2) = active (self l1) → deadline (self l2) = deadline (self l1) → settled (self l2) → outcome_ok i l carry_on l2) as Hgo.
  { intros l2 Hc2 Hu2 Hr2 Hs2 Hn2 Ha2 Hd2 Ho2. split; [eapply booked_trans; [exact Hb|..]; [rewrite Hs2|rewrite Hn2]; apply Hk|].
    split; [split; [done|by right; right]|]. rewrite Ha2, (k_active _ _ Hk). split; [|done]. unfold http1_inv.served.
    rewrite Ha2, Hd2, (k_active _ _ Hk), (k_deadline _ _ Hk), Hr2. split; [|done]. intros _. split; [apply Hu2|done]. }
  destruct (recv_armed (self l1)) eqn:Hr; cbn [negb when]; [by eapply h1_ok_pure; [reflexivity|reflexivity|]; apply h1_ok_ret; intros _; apply Hgo|].
  eapply h1_ok_bind; [by apply (push_recv_arms request https)|intros; grow|]. intros _ l2 Hs2 _ (w2 & -> & Hd2). apply h1_ok_ret. intros _.
  destruct (up_armed request https _ _ i (self l1) Hs2 Hc Hu Hr Hd2) as [Hc2 Hu2]. by apply Hgo.
Qed.

(** A send has completed. *)
Definition sent_back (h : list Event) (i : nat) (c : Conn C) (res : Z) : Prop :=
  let ud := user_data i (generation c) OP_SEND in
  let off := (out_off c + Z.to_nat res)%nat in
  core h i c ∧ open_link h i c ∧ ops ud h = [] ∧ sending c = true ∧
  if res <? 0 then whole_requests request https h i (generation c)
  else match tls c with
       | None => https = false ∧ (off ≤ length request)%nat ∧ ∃ k, wire ud h = repeats request k ++ take off request ∧
           if queued c then asks ud h ≠ [] else owes_after request h i c k
       | Some t => https = true ∧ tls.session_ok t ∧ asks ud h ≠ [] ∧ tls.written t = repeats request (length (asks ud h)) ∧
           (off ≤ length (out c))%nat ∧ wire ud h ++ drop off (out c) = emitted (tls.conn t)
       end.

(** The rest of the bytes is sent. *)
Lemma send_rest_ok i l l1 res :
  sent_back (events l) i (self l) res → 0 ≤ res → served (self l) → room l →
  l1 = l <| stats := count_sent res (stats l) |> <| self := self l <| out_off := (out_off (self l) + Z.to_nat res)%nat |> |> →
  (out_off (self l1) < length (outbound (self l1) request))%nat →
  ok i (rest ← lift (slice_from (outbound (self l1) request) (out_off (self l1)));
        _ ← on_ring (push_send_slice i (generation (self l1)) rest); mret carry_on) l1 (λ o l', outcome_ok i l o l').
Proof.
  intros (Hc & Hol & Hno & Hsd & Hst) Hres Hsv Hr -> Hlt. rewrite (proj2 (Z.ltb_ge _ _) Hres) in Hst. cbn in Hlt.
  eapply h1_ok_pure; [by rewrite slice_from_le by (cbn; lia)|reflexivity|].
  eapply (h1_ok_bind i _ _ _ (λ _ l', outcome_ok i l carry_on l')); [|intros; grow|intros [] l' _ _ Ho; by apply h1_ok_ret].
  apply (push_send_ok request https); [by apply (core_eq _ _ _ _ (self l))|done|]. intros w' Hs Hd. cbn in Hd.
  destruct (up_sending request https (events l) (hist w') i (self l) (self l <| out_off := (out_off (self l) + Z.to_nat res)%nat |>)
              (drop (out_off (self l) + Z.to_nat res) (outbound (self l) request))) as [Hc' Hu']; try done.
  - intros Hww Hkk. unfold stream, emits, owes_after in *. cbn. rewrite Hww, Hkk, Hsd. unfold outbound in Hlt. cbn in Hlt. destruct (tls (self l)) as [t|].
    + by destruct Hst as (? & ? & ? & ? & ? & ?).
    + destruct Hst as (? & ? & k & ? & ?). split; [done|]. by exists k.
  - split; [exact (booked_same l _ Hr eq_refl eq_refl)|]. split; [split; [done|by right; right]|]. split; [|done].
    destruct Hsv as [Hsv Hd']. split; [|done]. intros Ha. destruct (Hsv Ha) as [Hfd Hcr]. split; [done|]. intros Hcn. split; [by apply Hcr|].
    by apply sending_settled.
Qed.

(** All of the bytes are sent. *)
Lemma sent_all_up h i c c' res :
  sent_back h i c res → 0 ≤ res → (length (outbound c request) ≤ out_off c + Z.to_nat res)%nat →
  fd c' = fd c → connected c' = connected c → tls c' = tls c → recv_single c' = recv_single c → recv_armed c' = recv_armed c →
  generation c' = generation c → sending c' = false → queued c' = false → out_off c' = (if queued c then 0 else out_off c + Z.to_nat res)%nat →
  core h i c' ∧ up_with request h i c' (flushable request https h i c').
Proof.
  intros (Hc & (Hfd & Hcn & Hco & Hr) & Hno & Hsd & Hst) Hres Hall Ef Ec Et Ers Er Eg Es Eq Eo. rewrite (proj2 (Z.ltb_ge _ _) Hres) in Hst.
  split; [by apply (core_eq _ _ _ _ c)|]. unfold up_with, recv_link, recv_entry, send_link, flushable, stream, emits, owes_after, outbound in *.
  rewrite Ef, Ec, Et, Ers, Er, Eg, Es, Eq, Eo. split_and!; try done. destruct (tls c) as [t|].
  - destruct Hst as (? & ? & ? & ? & ? & Hw). rewrite drop_ge, app_nil_r in Hw by lia. by split_and!.
  - destruct Hst as (? & Hle & k & Hw & How). rewrite take_ge, repeats_snoc in Hw by lia. split; [done|]. split; [done|]. destruct (queued c).
    + exists (S k). split; [|by right]. destruct (asks _ h) as [|b bs] eqn:Ea; [done|]. rewrite <- Hw. apply asks_prefix. rewrite Ea. by left.
    + exists k. split; [done|]. left. split; [done|lia].
Qed.

Lemma on_send_ok i res l :
  sent_back (events l) i (self l) res → served (self l) → room l →
  ok i (on_send target i res) l (λ o l', outcome_ok i l o l').
Proof.
  intros Hsb Hsv Hr. unfold on_send. destruct (Z.ltb_spec res 0) as [Hneg|Hpos].
  { destruct (fail_request_run l Hr) as (l' & Hrun & Hw & Hb & Ha & Hself). eapply h1_ok_pure; [exact Hrun|done|]. apply h1_ok_ret. intros _.
    destruct Hsb as (Hc & (Hfd & _) & _ & _ & Hwh). rewrite (proj2 (Z.ltb_lt _ _) Hneg) in Hwh.
    split; [done|]. unfold http1_inv.closable. cbn [keep_conn finish]. rewrite Hw, Hself.
    split; [apply (core_eq _ _ _ _ (self l)); [done|]|]; destruct (active (self l)); done. }
  eapply h1_ok_pure; [reflexivity|reflexivity|]. eapply h1_ok_pure; [reflexivity|reflexivity|]. eapply h1_ok_pure; [reflexivity|reflexivity|].
  match goal with |- ok _ _ ?x _ => set (l1 := x) end.
  destruct (Nat.ltb_spec (out_off (self l1)) (length (outbound (self l1) request))) as [Hlt|Hge]; [by apply send_rest_ok with res|].
  eapply h1_ok_pure; [reflexivity|reflexivity|].
  assert (∀ off, off = (if queued (self l) then 0 else out_off (self l) + Z.to_nat res)%nat →
    ok i (_ ← flush i request; c ← me; _ ← when (negb (recv_armed c)) (push_recv i); mret carry_on)
      (l1 <| self := self l1 <| sending := false |> <| queued := false |> <| out_off := off |> |>) (λ o l', outcome_ok i l o l')) as Hgo.
  { intros off Hoff. set (l2 := l1 <| self := _ |>).
    destruct (sent_all_up (events l2) i (self l) (self l2) res Hsb Hpos Hge) as [Hc2 Hu2]; [done..|].
    eapply h1_ok_bind; [by apply (flush_ok request https)|intros; grow|]. intros [] l3 Hs3 _ Hsd.
    assert (booked 0 l l2) as Hb by exact (booked_same l _ Hr eq_refl eq_refl).
    eapply h1_ok_pure; [reflexivity|reflexivity|]. apply rearm_ok with l2; try done. apply Hsv. }
  change (queued (self l1)) with (queued (self l)).
  destruct (queued (self l)) eqn:Hq; cbn [when].
  - eapply h1_ok_pure; [reflexivity|reflexivity|]. by apply Hgo.
  - eapply h1_ok_pure; [reflexivity|reflexivity|]. specialize (Hgo _ eq_refl). unfold l1 in *. cbn in Hgo |- *. by rewrite Hq.
Qed.

(** Feeding the parser changes nothing that is sent. *)
Lemma feed_received_run b l :
  let '(_, l') := feed_received b l in
  world l' = world l ∧ kept l l' ∧ ∀ i, up (events l) i (self l) → up (events l) i (self l').
Proof.
  unfold feed_received. rewrite me_bind. destruct (tls (self l)) as [t|] eqn:Ht.
  - destruct (tls.feed_into parse_chunk SCRATCH b (t, (parser (self l), 0%nat))) as [r [t' [p n]]] eqn:E.
    pose proof (tls.feed_output parse_chunk SCRATCH b (t, (parser (self l), 0%nat))) as Ho. rewrite E in Ho. cbn [snd] in Ho.
    apply tls.same_output_facts in Ho as (Hok & Hw & Hem). rewrite bind_run. cbn [update modify].
    assert (∀ i, up (events l) i (self l) → up (events l) i (self l <| tls := Some t' |> <| parser := p |>)) as Hup.
    { intros i (? & ? & ? & ? & Hs & Hst). unfold http1_inv.up, up_with, send_link, stream, emits, outbound in *. cbn. rewrite Ht in *.
      destruct Hst as (? & ? & ? & Hk & Hst). split_and!; try done; [by apply Hok|by rewrite Hw|]. by rewrite Hem. }
    rewrite bind_run. destruct r; cbn [lift]; (split; [done|]); (split; [by split|done]).
  - rewrite bind_run. destruct (http1_parse.feed (parser (self l)) b) as [[p n]|e]; cbn [lift]; [|done].
    rewrite bind_run. cbn. split; [done|]. split; [by split|]. done.
Qed.
Lemma attempt_feed_ok {B} i b l (f : option nat → M B) Q :
  core (events l) i (self l) → up (events l) i (self l) →
  (∀ fed l', world l' = world l → kept l l' → core (events l') i (self l') → up (events l') i (self l') → ok i (f fed) l' Q) →
  ok i (attempt (feed_received b) ≫= f) l Q.
Proof.
  intros Hc Hu Hf. unfold ok, holds. rewrite bind_run. unfold attempt. pose proof (feed_received_run b l) as Hrun.
  destruct (feed_received b l) as [r l']. destruct Hrun as (Hw & Hk & Hup).
  assert (core (events l') i (self l')) as Hc' by (rewrite Hw; apply (core_eq _ _ _ _ (self l)); [done|apply Hk]).
  assert (up (events l') i (self l')) as Hu' by (rewrite Hw; by apply Hup).
  destruct r as [n|[e|e]]; [| |done]; rewrite <- Hw; by apply Hf.
Qed.

(** A buffer goes back. *)
Lemma up_quiet h h' i c : sound h' → core h i c → up h i c → did [] h h' → core h' i c ∧ up h' i c.
Proof.
  intros Hs Hc Hu Hd. pose proof (h1_did_quiet _ _ i Hd) as Hsame.
  pose proof (core_same _ _ _ _ _ _ Hs (did_suffix _ _ _ Hd) Hsame Hc) as Hc'. split; [done|].
  unfold http1_inv.up, up_with, recv_link, send_link, stream, emits, owes_after in *.
  pose proof (id_ok _ _ h' i c OP_CONNECT Hs Hc' ltac:(done)) as H1'. pose proof (id_ok _ _ h' i c OP_RECV Hs Hc' ltac:(done)) as H2'.
  pose proof (id_ok _ _ h' i c OP_SEND Hs Hc' ltac:(done)) as H3'.
  destruct (Hsame _ _ H1') as [-> _], (Hsame _ _ H2') as [-> _], (Hsame _ _ H3') as (-> & -> & ->). done.
Qed.
Lemma recycle_ok i bid (l : Local C) :
  ok i (recycle bid) l (λ _ l', kept l l' ∧ self l' = self l ∧ did [] (events l) (events l')).
Proof.
  intros Hs. split; [by apply h1_did_frame, did_neutral|]. split; [by split|]. split; [done|by apply did_neutral].
Qed.
Lemma recycle_any_ok i bid (l : Local C) :
  ok i (recycle_any bid) l (λ _ l', kept l l' ∧ self l' = self l ∧ did [] (events l) (events l')).
Proof.
  destruct bid as [bid|]; [apply recycle_ok|]. apply h1_ok_ret. intros _. split; [done|split; [done|apply did_nothing]].
Qed.

Lemma closable_up i l : core (events l) i (self l) → up (events l) i (self l) → closable i l.
Proof. intros Hc Hu. split; [done|]. split; [apply Hu|by apply up_whole]. Qed.

(** The ends of a request that also end the connection. *)
Lemma fail_closes i l0 l :
  booked 0 l0 l → active (self l) = active (self l0) → room l → closable i l →
  ok i (_ ← fail_request; mret (finish false)) l (λ o l', outcome_ok i l0 o l').
Proof.
  intros Hb Ha Hr (Hc & Hfd & Hw). destruct (fail_request_run l Hr) as (l' & Hrun & Hww & Hb' & Ha' & Hself).
  eapply h1_ok_pure; [exact Hrun|done|]. apply h1_ok_ret. intros _. split.
  - apply (booked_after _ _ _ _ Hb). unfold owed in *. by rewrite <- Ha.
  - unfold http1_inv.closable. cbn [keep_conn finish]. rewrite Hww, Hself.
    split; [apply (core_eq _ _ _ _ (self l)); [done|]|]; destruct (active (self l)); done.
Qed.
Lemma eof_closes i l0 l :
  booked 0 l0 l → active (self l) = active (self l0) → room l → closable i l →
  ok i (_ ← finish_at_eof; mret (finish false)) l (λ o l', outcome_ok i l0 o l').
Proof.
  intros Hb Ha Hr (Hc & Hfd & Hw). pose proof (finish_at_eof_run l Hr) as Hrun. unfold ok, holds. rewrite bind_run.
  destruct (finish_at_eof l) as [[[]|e] l']; [|done]. destruct Hrun as (Hww & Hb' & p & Hself). cbn. intros _. rewrite Hww. split; [apply h1_frame_refl|]. split.
  - apply (booked_after _ _ _ _ Hb). unfold owed in *. by rewrite <- Ha.
  - unfold http1_inv.closable. cbn [keep_conn finish]. rewrite Hww. destruct l' as [w' c' s' p' n']. cbn in *. rewrite Hself.
    split; [by apply (core_eq _ _ _ _ (self l))|done].
Qed.

Lemma room_booked l l' : room l → booked 0 l l' → room l'.
Proof. intros (? & ? & ? & ? & ?) (? & ? & ? & Hn). unfold room. rewrite Hn. split_and!; try done; lia. Qed.

(** What was received completes a response, or asks for more. *)
Lemma received_ok i l0 l fed :
  booked 0 l0 l → active (self l) = active (self l0) → room l → (active (self l) = false → deadline (self l) = None) →
  core (events l) i (self l) → up (events l) i (self l) →
  ok i (match fed with
    | Some O =>
        if match tls (self l) with Some t => tls.peer_closed t | None => false end then
          _ ← finish_at_eof; mret (finish false)
        else _ ← when (negb (recv_armed (self l))) (push_recv i); _ ← flush i request; mret carry_on
    | Some _ =>
        _ ← when (active (self l)) record_success;
        mret (finish (http1_parse.keep_alive (parser (self l)) && negb (target.disable_keepalive target)))
    | None => _ ← fail_request; mret (finish false)
    end) l (λ o l', outcome_ok i l0 o l').
Proof.
  intros Hb Ha Hr Hd Hc Hu. destruct fed as [[|n]|]; [| |by apply fail_closes; [..|by apply closable_up]].
  - destruct (match tls _ with Some _ => _ | None => _ end); [by apply eof_closes; [..|by apply closable_up]|].
    eapply (h1_ok_bind i _ _ _ (λ _ l', core (events l') i (self l') ∧ up (events l') i (self l') ∧ booked 0 l0 l' ∧ recv_armed (self l') = true ∧
      active (self l') = active (self l0) ∧ (active (self l') = false → deadline (self l') = None))); [|intros; grow|].
    + destruct (recv_armed (self l)) eqn:Hra; cbn [negb when]; [by apply h1_ok_ret|]. eapply h1_ok_mono; [by apply (push_recv_arms request https)|].
      intros _ l2 Hs2 (w2 & -> & Hd2). destruct (up_armed request https _ _ i (self l) Hs2 Hc Hu Hra Hd2) as [Hc2 Hu2].
      split; [exact Hc2|]. split; [exact Hu2|]. split; [exact Hb|done].
    + intros _ l2 _ _ (Hc2 & Hu2 & Hb2 & Hr2 & Ha2 & Hd2). eapply h1_ok_bind; [by apply (flush_ok request https), up_flushable|intros; grow|].
      intros [] l3 _ _ Hsd. apply h1_ok_ret. intros _. by eapply sends_outcome.
  - assert (∀ l', world l' = world l → self l' = self l → booked (owed (self l0)) l0 l' →
      outcome_ok i l0 (finish (http1_parse.keep_alive (parser (self l)) && negb (target.disable_keepalive target))) l') as Hgo.
    { intros l' Hw Hs Hb'. split; [done|]. destruct (_ && _); [by rewrite Hw, Hs|]. apply closable_up; by rewrite Hw, Hs. }
    unfold owed in Hgo. rewrite <- Ha in Hgo. destruct (active (self l)); cbn [when].
    + unfold ok, holds. rewrite bind_run. pose proof (record_success_run l Hr) as Hrun. destruct (record_success l) as [[[]|e] l']; [|done].
      destruct Hrun as (Hw & Hs & Hb'). cbn [mret eff_ret]. intros _. split; [rewrite Hw; apply h1_frame_refl|]. apply Hgo; [done|done|].
      by apply (booked_after _ _ _ _ Hb).
    + eapply h1_ok_pure; [reflexivity|reflexivity|]. apply h1_ok_ret. intros _. by apply Hgo.
Qed.

Lemma data_ok {B} i bid n (f : bytes → M B) l Q : (∀ b, ok i (f b) l Q) → ok i (data bid n ≫= f) l Q.
Proof.
  intros Hf. unfold ok, holds. rewrite bind_run. unfold data. rewrite bind_run. cbn [get]. rewrite bind_run.
  destruct (buf_ring.data_range _ _ _); [apply Hf|done].
Qed.

(** A receive has completed; without [MORE] it is no longer armed. *)
Definition received_back (h : list Event) (i : nat) (c : Conn C) (cqe : Cqe) : Prop :=
  core h i c ∧ up h i (if cqe_more cqe then c else c <| recv_armed := false |>) ∧ recv_armed c = true ∧
  (cqe_more cqe = true → 0 ≤ cqe_result cqe).

Lemma on_recv_ok i cqe l :
  received_back (events l) i (self l) cqe → served (self l) → room l →
  ok i (on_recv target i cqe) l (λ o l', outcome_ok i l o l').
Proof.
  intros (Hc & Hu & Harm & Hmore) (Hsv & Hdl) Hr. unfold on_recv.
  set (c1 := if cqe_more cqe then self l else self l <| recv_armed := false |>) in *. set (l1 := l <| self := c1 |>).
  assert (when (negb (cqe_more cqe)) (update (λ c, c <| recv_armed := false |>)) l = (Ok tt, l1)) as Hrun.
  { subst l1 c1. destruct (cqe_more cqe); [by destruct l|done]. }
  eapply h1_ok_pure; [exact Hrun|reflexivity|]. clear Hrun.
  assert (core (events l1) i (self l1)) as Hc1 by (apply (core_eq _ _ _ _ (self l)); [done|]; cbn; subst c1; by destruct (cqe_more cqe)).
  assert (active c1 = active (self l) ∧ deadline c1 = deadline (self l) ∧ fd c1 = fd (self l) ∧ connected c1 = connected (self l) ∧
    tls c1 = tls (self l) ∧ sending c1 = sending (self l) ∧ out_off c1 = out_off (self l) ∧ recv_armed c1 = cqe_more cqe) as (Ha1 & Hd1 & Hf1 & Hcn1 & Ht1 & Hs1 & Ho1 & Hra1)
    by (subst c1; destruct (cqe_more cqe); by split_and!).
  assert (booked 0 l l1) as Hb1 by exact (booked_same l l1 Hr eq_refl eq_refl).
  assert (∀ l2, kept l1 l2 → self l2 = self l1 → did [] (events l1) (events l2) → sound (events l2) →
    core (events l2) i (self l2) ∧ up (events l2) i (self l2) ∧ booked 0 l l2 ∧ active (self l2) = active (self l) ∧ deadline (self l2) = deadline (self l)) as Hrec.
  { intros l2 Hk Hs Hd Hsound. rewrite Hs. destruct (up_quiet _ _ i c1 Hsound Hc1 Hu Hd). split_and!; try done. by eapply booked_trans; [|apply Hk..]. }
  destruct (Z.ltb_spec (cqe_result cqe) 0) as [Hneg|Hpos]; [|destruct (Z.eqb_spec (cqe_result cqe) 0) as [Hz|Hz]].
  - eapply h1_ok_bind; [apply recycle_any_ok|intros; case_match; grow|]. intros _ l2 Hs2 _ (Hk & Hs & Hd).
    destruct (Hrec l2 Hk Hs Hd Hs2) as (Hc2 & Hu2 & Hb2 & Ha2 & Hd2).
    assert (room l2) as Hr2 by by eapply room_booked.
    destruct (_ =? _); [|by apply fail_closes; [..|by apply closable_up]].
    assert (recv_armed (self l2) = false) as Hra2. { rewrite Hs. cbn. rewrite Hra1. destruct (cqe_more cqe); [lia|done]. }
    eapply h1_ok_bind; [by apply (push_recv_arms request https)|intros; grow|]. intros _ l3 Hs3 _ (w3 & -> & Hd3). apply h1_ok_ret. intros _.
    destruct (up_armed request https _ _ i (self l2) Hs3 Hc2 Hu2 Hra2 Hd3) as [Hc3 Hu3].
    split; [exact Hb2|]. split; [split; [exact Hc3|right; right; exact Hu3]|]. split; [|exact Ha2]. split; [|cbn; rewrite Ha2, Hd2; exact Hdl].
    cbn. rewrite Ha2. intros Ha. destruct (Hsv Ha) as [Hfd Hx]. rewrite Hs. cbn. rewrite Hf1, Hcn1. split; [done|]. intros Hcn. split; [done|].
    unfold settled. cbn. rewrite Ht1, Hs1. by apply Hx.
  - eapply h1_ok_bind; [apply recycle_any_ok|intros; grow|]. intros _ l2 Hs2 _ (Hk & Hs & Hd).
    destruct (Hrec l2 Hk Hs Hd Hs2) as (Hc2 & Hu2 & Hb2 & Ha2 & Hd2). apply eof_closes; [done|done|by eapply room_booked|by apply closable_up].
  - eapply h1_ok_pure; [reflexivity|reflexivity|]. apply h1_ok_bind_lift. intros bid _.
    apply data_ok. intros b. apply attempt_feed_ok; [done|done|]. intros fed l2 Hw2 Hk2 Hc2 Hu2.
    eapply h1_ok_bind; [apply recycle_ok|intros; grow; case_match; grow|]. intros _ l3 Hs3 _ (Hk3 & Hself3 & Hd3).
    destruct (up_quiet _ _ i (self l2) Hs3 Hc2 Hu2 Hd3) as [Hc3 Hu3]. rewrite <- Hself3 in Hc3, Hu3.
    eapply h1_ok_pure; [reflexivity|reflexivity|].
    assert (booked 0 l l3) as Hb3. {
      apply (booked_trans 0 l l2); [|apply Hk3|apply Hk3].
      apply (booked_trans 0 l (l1 <| stats := count_received (cqe_result cqe) (stats l1) |>)); [exact Hb1|apply Hk2|apply Hk2]. }
    apply received_ok; try done; rewrite ?(k_active _ _ Hk3), ?(k_deadline _ _ Hk3), ?(k_active _ _ Hk2), ?(k_deadline _ _ Hk2); cbn.
    + done.
    + by eapply room_booked.
    + by rewrite Ha1, Hd1.
Qed.

(** ** From one request to the next *)

(** What any step of one connection keeps: every request that was started is
    finished, or owed by its connection. *)
Definition step_ok (i : nat) (stop : bool) (l : Local C) (f : flow) (l' : Local C) : Prop :=
  0 ≤ stats.completed (stats l') ∧ 0 ≤ stats.errors (stats l') ∧
  total l' + owed (self l') - started l' = total l + owed (self l) - started l ∧
  (started l' = started l ∨ started l' = started l + 1 ∧ budget.may_start budget (started l) = true) ∧
  conn_ok (events l') i (self l') ∧
  match f with
  | Continue => served (self l') ∧
      (active (self l') = false → active (self l) = false ∨ stop = true ∨ budget.may_start budget (started l') = false)
  | BreakOuter => active (self l') = true ∧ fd (self l') = -1
  end.

(** The previous request is finished and another one was started. *)
Definition begun (l l1 : Local C) : Prop :=
  0 ≤ stats.completed (stats l1) ∧ 0 ≤ stats.errors (stats l1) ∧ total l1 = total l + owed (self l) ∧
  started l1 = started l + 1 ∧ active (self l1) = true ∧ budget.may_start budget (started l) = true.
Lemma begun_same l l1 l2 : begun l l1 → stats l2 = stats l1 → started l2 = started l1 → active (self l2) = active (self l1) → begun l l2.
Proof. intros (? & ? & ? & ? & ? & ?) Hs Hn Ha. unfold begun, total in *. rewrite Hs, Hn, Ha. by split_and!. Qed.
Lemma begun_step i stop l l1 f :
  begun l l1 → conn_ok (events l1) i (self l1) → match f with Continue => served (self l1) | BreakOuter => fd (self l1) = -1 end →
  step_ok i stop l f l1.
Proof.
  intros (? & ? & Ht & Hn & Ha & Hm) Hc Hs. unfold step_ok. rewrite Hn. unfold owed at 1. rewrite Ha. split; [done|]. split; [done|].
  split; [lia|]. split; [by right|]. split; [done|]. destruct f; by split.
Qed.

Lemma restart_ok i stop l l1 :
  begun l l1 → core (events l1) i (self l1) → idle (events l1) i (self l1) →
  ok i (reconnect i) l1 (λ f l', step_ok i stop l f l').
Proof.
  intros Hb Hc Hi. eapply h1_ok_mono; [apply (reconnect_ok request https i l1); [done|done|apply Hb]|].
  intros f l' Hs (Hc' & (Hst & Hn & Ha' & Hd) & Hf). apply begun_step; [by eapply begun_same| |].
  - split; [done|]. destruct f; [by right; left|by left].
  - destruct f; [|apply Hf]. destruct Hb as (_ & _ & _ & _ & Ha & _). split; [|by rewrite Ha', Ha].
    intros _. destruct Hf as (? & _ & _ & Hcn & _). split; [done|]. by rewrite Hcn.
Qed.

Lemma next_request_ok i stop l l0 o :
  room l → request_finished o = true → outcome_ok i l o l0 →
  ok i (next_request patience target budget timeout i stop (keep_conn o)) l0 (λ f l', step_ok i stop l f l').
Proof.
  intros Hr Hfin Hout. unfold outcome_ok in Hout. rewrite Hfin in Hout. destruct Hout as [Hb Hlink].
  unfold next_request. eapply h1_ok_pure; [reflexivity|reflexivity|]. eapply h1_ok_pure; [reflexivity|reflexivity|].
  set (l1 := l0 <| self := self l0 <| active := false |> <| deadline := None |> |>).
  destruct Hr as (_ & _ & _ & Hpos & Hmax). destruct Hb as (Hb1 & Hb2 & Ht & Hn).
  destruct (negb stop && budget.may_start budget (started l1)) eqn:Hgo.
  - eapply h1_ok_pure; [reflexivity|reflexivity|]. eapply h1_ok_pure; [reflexivity|reflexivity|].
    match goal with |- ok _ _ ?x _ => set (l2 := x) end.
    assert (begun l l2) as Hb by (unfold begun; cbn; rewrite Hn, u64_small by lia; split_and!; try done; rewrite <- Hn; by apply andb_prop in Hgo as [_ ?]).
    destruct (keep_conn o).
    + destruct Hlink as [Hc Hu]. eapply h1_ok_pure; [reflexivity|reflexivity|].
      assert (core (events l2) i (self l2)) as Hc2 by by apply (core_eq _ _ _ _ (self l0)).
      assert (∀ l3, core (events l3) i (self l3) → up (events l3) i (self l3) → begun l l3 →
        recv_armed (self l3) = true → ok i (_ ← ask i; _ ← queue_and_flush_request i request; mret Continue) l3 (λ f l', step_ok i stop l f l')) as Hrest.
      { intros l3 Hc3 Hu3 Hb3 Hr3. apply (ask_ok i l3 (λ _, mret Continue)); [done|by apply up_offered|intros; grow|].
        intros l4 _ (Hc4 & Hu4 & Hk & Ho4). apply h1_ok_ret. intros _. apply begun_step; [by eapply begun_same; [|apply Hk..]|split; [done|by right; right]|].
        destruct Hb3 as (_ & _ & _ & _ & Ha3 & _). unfold http1_inv.served. rewrite (k_active _ _ Hk), Ha3, (k_recv _ _ Hk), Hr3. split; [|done].
        intros _. split; [apply Hu4|done]. }
      destruct (recv_armed (self l2)) eqn:Hra; cbn [negb when]; [by eapply h1_ok_pure; [reflexivity|reflexivity|]; apply Hrest|].
      eapply h1_ok_bind; [by apply (push_recv_arms request https)|intros; grow|]. intros _ l3 Hs3 _ (w3 & -> & Hd3).
      destruct (up_armed request https _ _ i (self l2) Hs3 Hc2 Hu Hra Hd3) as [Hc3 Hu3]. by apply Hrest.
    + assert (closable i l2) as Hcl by (destruct Hlink as (? & ? & ?); split; [by apply (core_eq _ _ _ _ (self l0))|done]).
      eapply h1_ok_bind; [by apply (retire_ok request https)|intros; unfold reset_parser; grow|].
      intros [] l3 Hs3 _ (Hc3 & Hi3 & (Hs & Hn3 & Ha & Hd) & _). eapply h1_ok_pure; [reflexivity|reflexivity|].
      apply restart_ok; [by eapply begun_same|by apply (core_eq _ _ _ _ (self l3))|exact Hi3].
  - assert (∀ l2, conn_ok (events l2) i (self l2) → stats l2 = stats l1 → started l2 = started l1 → active (self l2) = false → deadline (self l2) = None →
      step_ok i stop l Continue l2) as Hdone.
    { intros l2 Hc2 Hs2 Hn2 Ha2 Hd2. unfold step_ok, total, owed in *. rewrite Hs2, Hn2, Ha2. cbn in *. rewrite Hn.
      split; [done|]. split; [done|]. split; [lia|]. split; [by left|]. split; [done|]. split; [by split; [rewrite Ha2|]|].
      intros _. right. rewrite Hn in Hgo.
      apply andb_false_iff in Hgo as [Hg%negb_false_iff|Hg]; [by left|by right]. }
    destruct (keep_conn o); cbn [negb when].
    + eapply h1_ok_pure; [reflexivity|reflexivity|]. apply h1_ok_ret. intros _. apply Hdone; try done.
      destruct Hlink as [Hc Hu]. split; [by apply (core_eq _ _ _ _ (self l0))|]. right. right. exact Hu.
    + assert (closable i l1) as Hcl by (destruct Hlink as (? & ? & ?); split; [by apply (core_eq _ _ _ _ (self l0))|done]).
      eapply h1_ok_bind; [by apply (retire_ok request https)|intros; grow|]. intros [] l3 Hs3 _ (Hc3 & Hi3 & (Hs & Hn3 & Ha & Hd) & _).
      apply h1_ok_ret. intros _. apply Hdone; try done. split; [done|by left].
Qed.

(** ** One completion *)

(** A completion of an earlier generation changes nothing. *)
Lemma stale_ok i stop bid l :
  room l → conn_ok (events l) i (self l) → served (self l) →
  ok i (_ ← recycle_any bid; mret Continue) l (λ f l', step_ok i stop l f l').
Proof.
  intros Hr Hc Hs. eapply h1_ok_bind; [apply recycle_any_ok|intros; grow|]. intros [] l1 Hs1 _ (Hk & Hself & Hd). apply h1_ok_ret. intros _.
  destruct Hr as (? & ? & _). unfold step_ok, total, owed. rewrite Hself, (k_stats _ _ Hk), (k_started _ _ Hk).
  split; [done|]. split; [done|]. split; [done|]. split; [by left|]. split; [|split; [done|auto]].
  eapply conn_ok_same; [done|apply Hd|by apply h1_did_quiet|done].
Qed.

(** What the completion of an operation says about the connection. *)
Definition completed (h : list Event) (i : nat) (c : Conn C) (op : Z) (cqe : Cqe) : Prop :=
  if op =? OP_CONNECT then core h i c ∧ landed h i c
  else if op =? OP_CONNECT_TIMEOUT then conn_ok h i c
  else if op =? OP_SEND then sent_back h i c (cqe_result cqe)
  else received_back h i c cqe.

Lemma on_op_ok i op cqe l :
  completed (events l) i (self l) op cqe → served (self l) → room l →
  ok i (on_op target https timeout i op cqe) l (λ o l', outcome_ok i l o l').
Proof.
  intros Hcm Hs Hr. unfold on_op, completed in *. destruct (op =? OP_CONNECT); [destruct Hcm; by apply on_connect_ok|].
  destruct (op =? OP_CONNECT_TIMEOUT).
  { apply h1_ok_ret. intros _. split; [by apply booked_same|done]. }
  destruct (op =? OP_SEND); [by apply on_send_ok|]. destruct (op =? OP_RECV); [by apply on_recv_ok|]. by apply h1_ok_lift.
Qed.

Lemma on_cqe_ok i stop op cqe l :
  completed (events l) i (self l) op cqe → served (self l) → room l →
  ok i (on_cqe patience target https budget timeout i stop op (generation (self l)) cqe) l (λ f l', step_ok i stop l f l').
Proof.
  intros Hcm Hs Hr. unfold on_cqe. eapply h1_ok_pure; [reflexivity|reflexivity|]. rewrite Z.eqb_refl. cbn [negb].
  eapply h1_ok_bind; [by apply on_op_ok|intros; grow|].
  intros o l1 _ _ Ho. destruct (request_finished o) eqn:Hf; [by apply next_request_ok|]. apply h1_ok_ret. intros _.
  unfold outcome_ok in Ho. rewrite Hf in Ho. destruct Ho as ((? & ? & Ht & Hn) & Hc & Hsv & Ha). unfold step_ok, owed. rewrite Hn, Ha.
  split; [done|]. split; [done|]. split; [lia|]. split; [by left|]. split; [done|]. split; [done|auto].
Qed.

(** ** The deadline of a request *)

Lemma check_deadline_ok i stop at_ l :
  conn_ok (events l) i (self l) → served (self l) → room l →
  ok i (check_deadline patience budget i stop at_) l (λ f l', step_ok i stop l f l' ∧
    started l' - started l ≤ Z.of_nat (length (events l')) - Z.of_nat (length (events l))).
Proof.
  intros Hc Hs Hr. unfold check_deadline. eapply h1_ok_pure; [reflexivity|reflexivity|].
  destruct (match deadline (self l) with Some _ => _ | None => _ end) eqn:Hdl.
  2: { apply h1_ok_ret. intros _. destruct Hr as (? & ? & _). split; [|lia]. unfold step_ok. split; [done|]. split; [done|]. split; [done|].
       split; [by left|]. split; [done|]. split; [done|auto]. }
  assert (active (self l) = true) as Ha.
  { destruct (active (self l)) eqn:Ha; [done|]. destruct Hs as [_ Hs]. by rewrite Hs in Hdl. }
  destruct (fail_request_run l Hr) as (l1 & Hrun & Hw & Hb & Ha1 & Hself). eapply h1_ok_pure; [exact Hrun|done|].
  rewrite Ha in Hself.
  assert (closable i l1) as Hcl.
  { destruct Hc as [Hc Hl]. unfold http1_inv.closable. rewrite Hw, Hself. split; [by apply (core_eq _ _ _ _ (self l))|].
    destruct (proj1 Hs Ha) as [Hfd _]. split; [done|]. cbn. destruct Hl as [(Hx & _)|[(_ & _ & _ & Hb')|Hu]]; [lia|by eapply bare_whole|by apply up_whole]. }
  eapply h1_ok_bind; [by apply (retire_ok request https)|intros; unfold reset_parser; grow|].
  intros [] l2 Hs2 _ (Hc2 & Hi2 & (Hs2' & Hn2 & Ha2 & Hd2) & Hlen). rewrite Hw in Hlen. eapply h1_ok_pure; [reflexivity|reflexivity|]. eapply h1_ok_pure; [reflexivity|reflexivity|].
  destruct Hr as (_ & _ & _ & Hpos & Hmax). destruct Hb as (Hb1 & Hb2 & Ht & Hn).
  match goal with |- ok _ _ ?x _ => set (l3 := x) end.
  destruct (stop || negb (budget.may_start budget (started l3))) eqn:Hgo.
  - apply h1_ok_ret. intros _. split; [|cbn; rewrite Hn2, Hn; lia].
    unfold step_ok, total, owed in *. cbn. rewrite Hs2', Hn2, Hn, Ha2, Ha1. split; [done|]. split; [done|]. split; [lia|]. split; [by left|].
    split; [split; [by apply (core_eq _ _ _ _ (self l2))|left; exact Hi2]|]. split.
    + split; [done|]. intros _. cbn. by rewrite Hd2, Hself.
    + intros _. right. cbn in Hgo. rewrite Hn2, Hn in Hgo. apply orb_prop in Hgo as [Hg|Hg%negb_true_iff]; [by left|by right].
  - eapply h1_ok_pure; [reflexivity|reflexivity|]. eapply h1_ok_pure; [reflexivity|reflexivity|].
    apply orb_false_iff in Hgo as [_ Hm%negb_false_iff]. cbn in Hm. rewrite Hn2, Hn in Hm.
    eapply h1_ok_mono; [apply h1_ok_framed, (restart_ok i stop l)|intros f l' _ [Hf%h1_frame_length Hst]; split; [done|]; cbn in Hf; destruct Hst as (_ & _ & _ & [?|[? _]] & _); lia].
    + unfold begun, total in *. cbn. rewrite Hs2', Hn2, Hn, u64_small by lia. by split_and!.
    + by apply (core_eq _ _ _ _ (self l2)).
    + exact Hi2.
Qed.
End handlers.
End http1_run.
