(* ===== verification/Http1WorkerLoop.v ===== *)
(** * The loop of an HTTP/1.1 worker

    From one completion to whole runs: batches of completions, the pass over the
    deadlines, reconnects, set-up, and the loop; what holds whenever the loop
    goes on to wait and when it ends. *)

From S2P Require Import Prelude Effects Status Stats Http1Parse Target Uring UringRun Tls Http1Worker Http1WorkerInv Http1WorkerRun.
From stdpp Require Import relations.
#[local] Open Scope Z_scope.

Module http1_loop.
Import uring uring_run http1 http1_inv http1_run.

Section reaping.
Context {C : Type} `{CL : ClientLaws C} `{VecGrowth} {SocketAddr : Type}.
Variable target : target.Target SocketAddr.
Variable https : bool.

Abbreviation request := (target.request_bytes target).
Abbreviation core := (core request https).
Abbreviation up := (up request https).
Abbreviation conn_ok := (conn_ok request https).

(** A completion touches the operations of its own [user_data] only. *)
Lemma h1_reaped_same h cqe i g op j g' op' :
  cqe_ud cqe = user_data i g op → well_formed_id i g op → well_formed_id j g' op' → (j, g', op') ≠ (i, g, op) →
  ops (user_data j g' op') (Reaped cqe :: h) = ops (user_data j g' op') h ∧
  wire (user_data j g' op') (Reaped cqe :: h) = wire (user_data j g' op') h.
Proof.
  intros Hud Hid Hid' Hne. apply ops_reaped_other. rewrite Hud. intros Heq.
  apply user_data_inj in Heq as (-> & -> & ->); [done|done|done].
Qed.

(** A completion that answers an operation of the connection's generation. *)
Record answered (h : list Event) (cqe : Cqe) (i : nat) (c : Conn C) (op : Z) (e : Entry) : Prop := {
  a_sound : sound (Reaped cqe :: h);
  a_ok : conn_ok h i c;
  a_op : 0 ≤ op < 4;
  a_ud : cqe_ud cqe = user_data i (generation c) op;
  a_elem : e ∈ ops (user_data i (generation c) op) h;
  a_answers : answers cqe e;
}.

Section current.
Context {h : list Event} {cqe : Cqe} {i : nat} {c : Conn C} {op : Z} {e : Entry}.
Hypothesis Hans : answered h cqe i c op e.

Lemma sound_before : sound h.
Proof. eapply sound_suffix; [|apply Hans]. by exists [Reaped cqe]. Qed.
Lemma current_id op' : 0 ≤ op' < 4 → well_formed_id i (generation c) op'.
Proof. intros. eapply id_ok; [exact sound_before|apply Hans|done]. Qed.

(** The other operations of the generation, and other generations. *)
Lemma other_op op' : 0 ≤ op' < 4 → op' ≠ op →
  ops (user_data i (generation c) op') (Reaped cqe :: h) = ops (user_data i (generation c) op') h ∧
  wire (user_data i (generation c) op') (Reaped cqe :: h) = wire (user_data i (generation c) op') h.
Proof.
  intros Ho Hne. apply (h1_reaped_same h cqe i (generation c) op); [apply Hans|apply current_id, Hans|by apply current_id|congruence].
Qed.

Lemma core_reaped : core (Reaped cqe :: h) i c.
Proof.
  destruct (a_ok _ _ _ _ _ _ Hans) as [[Hi Hg Hp Hf] _]. destruct sound_before as [_ Hn].
  assert (∀ g op', 0 ≤ g < 2 ^ GENERATION_BITS - 1 → 0 ≤ op' < 4 → g ≠ generation c →
    ops (user_data i g op') (Reaped cqe :: h) = ops (user_data i g op') h ∧ wire (user_data i g op') (Reaped cqe :: h) = wire (user_data i g op') h) as Hs.
  { intros g op' Hg' Ho Hne. apply (h1_reaped_same h cqe i (generation c) op); [apply Hans|apply current_id, Hans|by apply wf_id; [apply Hi|lia..|]|congruence]. }
  split; [done|cbn [length]; lia| |].
  - intros g Hb. specialize (Hp g Hb). unfold whole_requests in *. destruct (Hs g OP_SEND ltac:(lia) ltac:(done) ltac:(lia)) as [-> ->]. done.
  - intros g Hb. destruct (Hf g Hb) as [Hf1 Hf2]. split.
    + intros op' Ho. destruct (Hs g op' ltac:(lia) Ho ltac:(lia)) as [-> _]. auto.
    + destruct (Hs g OP_SEND ltac:(lia) ltac:(done) ltac:(lia)) as [_ ->]. done.
Qed.

End current.

Lemma elem_single {A} (x y : A) : x ∈ [y] → x = y.
Proof. by intros ?%list_elem_of_singleton. Qed.
Lemma fresh_empty h cqe i c op e : answered h cqe i c op e → fresh h i (generation c) → False.
Proof. intros [_ _ Hop _ He _] [Hf _]. rewrite Hf in He by done. by apply not_elem_of_nil in He. Qed.

(** An answered connect: it has landed. *)
Lemma connect_reaped h cqe i c e : answered h cqe i c OP_CONNECT e → landed (Reaped cqe :: h) i c.
Proof.
  intros Hr. pose proof Hr as [_ Hok _ Hud He Hans]. destruct Hok as [_ [(_ & _ & Hf)|[(Hfd & Ha & Hco & Hb)|(_ & _ & Hco & _)]]].
  - by destruct (fresh_empty _ _ _ _ _ _ Hr Hf).
  - rewrite Hco in He. apply elem_single in He as ->. destruct Hans as [_ Hm]. split; [done|]. split; [done|].
    rewrite ops_reaped_last by done. rewrite Hco. split; [done|]. unfold bare in *.
    destruct (other_op Hr OP_RECV ltac:(done) ltac:(done)) as [-> _]. destruct (other_op Hr OP_SEND ltac:(done) ltac:(done)) as [-> ->]. done.
  - rewrite Hco in He. by apply not_elem_of_nil in He.
Qed.

(** The timeout of a connect says nothing. *)
Lemma timeout_reaped h cqe i c e : answered h cqe i c OP_CONNECT_TIMEOUT e → conn_ok (Reaped cqe :: h) i c.
Proof.
  intros Hr. pose proof Hr as [_ Hok _ _ _ _]. split; [exact (core_reaped Hr)|]. destruct Hok as [_ [(_ & _ & Hf)|Hl]]; [by destruct (fresh_empty _ _ _ _ _ _ Hr Hf)|right].
  unlink. cbn [asks].
  destruct (other_op Hr OP_CONNECT ltac:(done) ltac:(done)) as [-> _]. destruct (other_op Hr OP_RECV ltac:(done) ltac:(done)) as [-> _].
  destruct (other_op Hr OP_SEND ltac:(done) ltac:(done)) as [-> ->]. done.
Qed.

(** Only a connection that is up has sends and receives. *)
Lemma only_up h cqe i c op e : answered h cqe i c op e → op = OP_SEND ∨ op = OP_RECV → up h i c.
Proof.
  intros Hr Hop'. pose proof Hr as [_ Hok _ _ He _]. destruct Hok as [_ [(_ & _ & Hf)|[(_ & _ & _ & Hb)|Hu]]]; [by destruct (fresh_empty _ _ _ _ _ _ Hr Hf)| |done].
  destruct Hb as (_ & _ & _ & _ & _ & Hrv & Hs & _). destruct Hop' as [-> | ->]; [rewrite Hs in He|rewrite Hrv in He]; by apply not_elem_of_nil in He.
Qed.

Lemma recv_reaped h cqe i c e : answered h cqe i c OP_RECV e → received_back target https (Reaped cqe :: h) i c cqe.
Proof.
  intros Hr. pose proof Hr as [_ Hok _ Hud He Hans]. pose proof (only_up _ _ _ _ _ _ Hr ltac:(by right)) as (Hfd & Hcn & Hco & Hrl & Hsl & Hst).
  unfold recv_link in Hrl. rewrite Hrl in He.
  destruct (recv_armed c) eqn:Hra; [|by apply not_elem_of_nil in He]. apply elem_single in He as ->.
  split; [exact (core_reaped Hr)|].
  assert (cqe_more cqe = true → 0 ≤ cqe_result cqe) as Hm.
  { destruct Hans as [_ Ha]. unfold recv_entry in Ha. destruct (recv_single c); [destruct Ha as [-> _]; done|apply Ha]. }
  split; [|done]. destruct (other_op Hr OP_CONNECT ltac:(done) ltac:(done)) as [Hco' _]. destruct (other_op Hr OP_SEND ltac:(done) ltac:(done)) as [Hsl' Hw'].
  destruct (cqe_more cqe) eqn:Hmore; unlink; cbn -[ops wire]; rewrite ?Hra, Hco', Hsl', Hw'.
  - rewrite ops_reaped_more by done. by split_and!.
  - rewrite ops_reaped_last by done. rewrite Hrl. by split_and!.
Qed.

Lemma send_reaped h cqe i c e : answered h cqe i c OP_SEND e → sent_back target https (Reaped cqe :: h) i c (cqe_result cqe).
Proof.
  intros Hr. pose proof Hr as [_ Hok _ Hud He Hans]. pose proof (only_up _ _ _ _ _ _ Hr ltac:(by left)) as (Hfd & Hcn & Hco & Hrl & Hsl & Hst).
  unfold send_link in Hsl. rewrite Hsl in He. destruct (sending c) eqn:Hsd; [|by apply not_elem_of_nil in He]. apply elem_single in He as ->.
  destruct Hans as (_ & Hm & Hres). set (d := drop (out_off c) (outbound c request)) in *.
  destruct (other_op Hr OP_CONNECT ltac:(done) ltac:(done)) as [Hco' _]. destruct (other_op Hr OP_RECV ltac:(done) ltac:(done)) as [Hr' _].
  pose proof (wire_reaped_send _ cqe h i d Hud Hsl) as Hw.
  split; [exact (core_reaped Hr)|]. split; [by unfold open_link, recv_link in *; rewrite Hco', Hr'|].
  rewrite ops_reaped_last by done. rewrite Hsl. split; [done|]. split; [done|].
  unfold stream, emits in Hst. rewrite Hsd in Hst. subst d. unfold outbound in *. cbn [asks].
  destruct (Z.ltb_spec (cqe_result cqe) 0) as [Hneg|Hpos].
  - destruct (tls c) as [t|]; [by left; destruct Hst|]. right. destruct Hst as (_ & k & _ & Hwk & _). exists (S k).
    rewrite ops_reaped_last, Hsl by done. cbn [tail]. rewrite Hw, Hwk. replace (Z.to_nat (cqe_result cqe)) with 0%nat by lia. rewrite take_0, app_nil_r.
    rewrite <- repeats_snoc. apply prefix_app. exists (drop (out_off c) request). by rewrite take_drop.
  - rewrite Hw. unfold zlen in Hres. rewrite length_drop in Hres. destruct (tls c) as [t|].
    + destruct Hst as (? & ? & ? & ? & Hlt & Hwk). split_and!; try done; [lia|]. rewrite <- Hwk, <- drop_drop, <- app_assoc. by rewrite take_drop.
    + destruct Hst as (? & k & Hlt & Hwk & ?). split; [done|]. split; [lia|]. exists k. split; [|done]. rewrite Hwk, <- app_assoc. f_equal.
      apply take_take_drop.
Qed.

Lemma completed_reaped h cqe i c op e : answered h cqe i c op e → completed target https (Reaped cqe :: h) i c op cqe.
Proof.
  intros Hr. pose proof (a_op _ _ _ _ _ _ Hr) as Hop. unfold completed.
  destruct (Z.eqb_spec op OP_CONNECT) as [-> |]; [split; [exact (core_reaped Hr)|by eapply connect_reaped]|].
  destruct (Z.eqb_spec op OP_CONNECT_TIMEOUT) as [-> |]; [by eapply timeout_reaped|].
  destruct (Z.eqb_spec op OP_SEND) as [-> |]; [by eapply send_reaped|]. eapply (recv_reaped _ _ _ _ e). replace OP_RECV with op; [done|]. unfold OP_SEND, OP_RECV, OP_CONNECT, OP_CONNECT_TIMEOUT in *. lia.
Qed.

(** A completion of an earlier generation. *)
Lemma stale_reaped h cqe i c g op e :
  sound (Reaped cqe :: h) → conn_ok h i c → 0 ≤ op < 4 → 0 ≤ g < 2 ^ GENERATION_BITS - 1 → g ≠ generation c →
  cqe_ud cqe = user_data i g op → e ∈ ops (user_data i g op) h → answers cqe e → conn_ok (Reaped cqe :: h) i c.
Proof.
  intros Hs [[Hi Hg Hp Hf] Hl] Hop Hgb Hne Hud He Hans.
  assert (sound h) as Hs0 by (eapply sound_suffix; [|exact Hs]; by exists [Reaped cqe]). destruct Hs0 as [_ Hn].
  assert (well_formed_id i g op) as Hid by (apply wf_id; [done|lia..|done]).
  assert (∀ g' op', 0 ≤ g' < 2 ^ GENERATION_BITS - 1 → 0 ≤ op' < 4 → (g', op') ≠ (g, op) →
    ops (user_data i g' op') (Reaped cqe :: h) = ops (user_data i g' op') h ∧ wire (user_data i g' op') (Reaped cqe :: h) = wire (user_data i g' op') h) as Hother.
  { intros g' op' Hg' Ho Hnn. apply (h1_reaped_same h cqe i g op); [done|done|apply wf_id; [done|lia..|done]|congruence]. }
  assert (g < generation c) as Hlt.
  { destruct (Z.lt_ge_cases g (generation c)); [done|]. destruct (Hf g ltac:(lia)) as [Hf1 _]. rewrite Hf1 in He by done. by apply not_elem_of_nil in He. }
  assert (same_now : ∀ op', 0 ≤ op' < 4 → ops (user_data i (generation c) op') (Reaped cqe :: h) = ops (user_data i (generation c) op') h ∧
    wire (user_data i (generation c) op') (Reaped cqe :: h) = wire (user_data i (generation c) op') h) by (intros; apply Hother; [lia|done|congruence]).
  split; [split; [done|cbn [length]; lia| |]|].
  - intros g' Hb. specialize (Hp g' Hb). destruct (decide ((g', OP_SEND) = (g, op))) as [[= -> <-]|Hnn].
    + unfold whole_requests in *. destruct Hp as [?|[k Hk]]; [by left|right]. exists k.
      destruct (ops (user_data i g OP_SEND) h) as [|[] [|]] eqn:Eo; try done; [by apply not_elem_of_nil in He|].
      apply list_elem_of_singleton in He as ->. destruct Hans as (Hent & Hm & _). rewrite ops_reaped_last, Eo by done. cbn [tail].
      cbn in Hent. rewrite Hud in Hent. subst ud. rewrite (wire_reaped_send _ cqe h _ _ Hud Eo). etrans; [|exact Hk]. apply prefix_app, prefix_take.
    + unfold whole_requests in *. destruct (Hother g' OP_SEND ltac:(lia) ltac:(done) Hnn) as [-> ->]. done.
  - intros g' Hb. destruct (Hf g' Hb) as [Hf1 Hf2]. split.
    + intros op' Ho. destruct (Hother g' op' ltac:(lia) Ho ltac:(intros [= -> _]; lia)) as [-> _]. auto.
    + destruct (Hother g' OP_SEND ltac:(lia) ltac:(done) ltac:(intros [= -> _]; lia)) as [_ ->]. done.
  - unlink. cbn [asks].
    destruct (same_now OP_CONNECT ltac:(done)) as [-> _]. destruct (same_now OP_RECV ltac:(done)) as [-> _]. destruct (same_now OP_SEND ltac:(done)) as [-> ->].
    destruct Hl as [(? & ? & Hfr & ?)|Hl]; [|by right]. left. split; [done|]. split; [done|]. split; [|done].
    intros op' Ho. destruct (same_now op' Ho) as [-> _]. auto.
Qed.
End reaping.

(** ** The worker *)

Section worker.
Context `{Kernel} `{Memchr} {C : Type} `{CL : ClientLaws C} `{VecGrowth} {SocketAddr : Type}.
Variable patience : nat.
Variable target : target.Target SocketAddr.
Variable https : bool.
Variable budget : budget.Budget.
Variable timeout : option Z.
Variable settings : Settings.

Abbreviation request := (target.request_bytes target).
Abbreviation conn_ok := (conn_ok request https).
Abbreviation served := (http1_inv.served (C := C)).
Abbreviation Worker := (Worker (C := C)).
Abbreviation W := (eff Worker error).
Abbreviation whist w := (hist (w_world w)).
Abbreviation step_ok := (step_ok target https budget).

(** How many connections owe a request. *)
Fixpoint active_count (cs : list (Conn C)) : Z :=
  match cs with [] => 0 | c :: cs' => owed c + active_count cs' end.

Lemma active_count_insert cs i c c' :
  cs !! i = Some c → active_count (<[i := c']> cs) = active_count cs - owed c + owed c'.
Proof.
  revert i. induction cs as [|x cs IH]; intros i Hi; [done|]. destruct i as [|i].
  - injection Hi as ->. change (owed c' + active_count cs = owed c + active_count cs - owed c + owed c'). lia.
  - change (owed x + active_count (<[i := c']> cs) = owed x + active_count cs - owed c + owed c'). rewrite (IH i Hi). lia.
Qed.
Lemma active_count_nonneg cs : 0 ≤ active_count cs ≤ Z.of_nat (length cs).
Proof. induction cs as [|c cs IH]; cbn [active_count length]; [lia|]. unfold owed. destruct (active c); lia. Qed.
Lemma active_count_exists cs : 0 < active_count cs → ∃ i c, cs !! i = Some c ∧ active c = true.
Proof.
  induction cs as [|c cs IH]; cbn [active_count]; [lia|]. unfold owed at 1. destruct (active c) eqn:Ha; [by exists 0%nat, c|].
  intros (i & c' & ? & ?)%IH. by exists (S i), c'.
Qed.

Definition finished (w : Worker) : Z := stats.completed (w_stats w) + stats.errors (w_stats w).

(** Whose an outstanding operation is. *)
Definition owned (n : nat) (e : Entry) : Prop :=
  (entry_ud e = TIMEOUT_USER_DATA ∧ ∃ d, budget = budget.Duration d) ∨ ∃ i, (i < n)%nat ∧ of_conn i e.

Record winv (w : Worker) : Prop := {
  w_some : (0 < length (conns w))%nat;
  w_size : Z.of_nat (length (conns w)) ≤ 2 ^ CONN_IDX_BITS;
  w_conns i c : conns w !! i = Some c → conn_ok (whist w) i c;
  w_owned : Forall (owned (length (conns w))) (outstanding (whist w));
  w_completed : 0 ≤ stats.completed (w_stats w);
  w_errors : 0 ≤ stats.errors (w_stats w);
  w_account : finished w + active_count (conns w) = w_started w;
  w_nonneg : 0 ≤ w_started w ≤ Z.of_nat (length (whist w));
  w_budget : match budget with budget.Requests n => w_started w ≤ n | budget.Duration _ => True end;
  w_stop : stop w = true → ∃ d, budget = budget.Duration d;
}.

(** Every request owed is being worked on, and a connection that owes none has
    none to start. *)
Definition ready (w : Worker) : Prop :=
  (∀ i c, conns w !! i = Some c → served c) ∧
  (stop w = false → ∀ i c, conns w !! i = Some c → active c = false → budget.may_start budget (w_started w) = false).

(** A connection lost its socket and could not have another. *)
Definition orphan (w : Worker) : Prop := ∃ i c, conns w !! i = Some c ∧ active c = true ∧ fd c = -1.

(** *** Triples of the worker *)

Definition wgrows (w w' : Worker) : Prop := grows (w_world w) (w_world w').
#[global] Instance wgrows_preorder : PreOrder wgrows.
Proof. split; [intros w|intros w1 w2 w3]; unfold wgrows; [done|apply transitivity]. Qed.

Definition wok {A} (m : W A) (w : Worker) (Q : A → Worker → Prop) : Prop :=
  holds m w (λ a w', sound (whist w') → Q a w') (λ _ _, True).
Lemma h1_wok_bind {A B} (m : W A) (f : A → W B) w P Q :
  wok m w P → (∀ a, evolves wgrows (f a)) → (∀ a w', sound (whist w') → P a w' → wok (f a) w' Q) → wok (m ≫= f) w Q.
Proof.
  intros Hm Hg Hf. unfold wok, holds in *. rewrite bind_run. destruct (m w) as [[a|e] w1]; [|done].
  specialize (Hg a w1). specialize (Hf a w1). destruct (f a w1) as [[b|e] w2]; [|done]. intros Hs.
  pose proof (sound_suffix _ _ Hg Hs) as Hs1. auto.
Qed.
Lemma h1_wok_mono {A} (m : W A) w (P Q : A → Worker → Prop) : wok m w P → (∀ a w', sound (whist w') → P a w' → Q a w') → wok m w Q.
Proof. unfold wok, holds. destruct (m w) as [[a|e] w']; auto. Qed.
Lemma h1_wok_ret {A} (a : A) w (Q : A → Worker → Prop) : (sound (whist w) → Q a w) → wok (mret a) w Q.
Proof. done. Qed.
Lemma h1_wok_pure {A B} (m : W A) (f : A → W B) w a w1 Q : m w = (Ok a, w1) → wok (f a) w1 Q → wok (m ≫= f) w Q.
Proof. intros Hm. unfold wok, holds. by rewrite bind_run, Hm. Qed.

Lemma at_conn_grows {A} i (m : eff (Local C) error A) : evolves lgrows m → evolves wgrows (at_conn i m).
Proof.
  intros Hm w. unfold at_conn. destruct (conns w !! i) as [c|]; [|apply (reflexivity (w_world w))].
  specialize (Hm (local w c)). by destruct (m (local w c)) as [r l].
Qed.
Lemma of_world_grows {A} (m : eff World error A) : evolves grows m → evolves wgrows (of_world m).
Proof. intros Hm w. unfold of_world. specialize (Hm (w_world w)). by destruct (m (w_world w)). Qed.

(** What a step of the loop leaves. *)
Definition steps (w : Worker) (f : flow) (w' : Worker) : Prop :=
  winv w' ∧ length (conns w') = length (conns w) ∧ stop w' = stop w ∧
  match f with Continue => ready w' | BreakOuter => orphan w' end.

Lemma may_start_mono n n' : n ≤ n' → budget.may_start budget n = false → budget.may_start budget n' = false.
Proof. destruct budget as [k|]; [|done]. cbn. rewrite !Z.ltb_ge. lia. Qed.

(** What a step of one connection keeps, whatever it says about the loop. *)
Definition advance (i : nat) (l l' : Local C) : Prop :=
  0 ≤ stats.completed (stats l') ∧ 0 ≤ stats.errors (stats l') ∧
  total l' + owed (self l') - started l' = total l + owed (self l) - started l ∧
  (started l' = started l ∨ started l' = started l + 1 ∧ budget.may_start budget (started l) = true) ∧
  conn_ok (hist (world l')) i (self l') ∧ started l' ≤ Z.of_nat (length (hist (world l'))).

(** A step of one connection is a step of the worker: the other connections do
    not notice. *)
Lemma h1_at_conn_keeps {A} i c (m : eff (Local C) error A) w Q :
  conns w !! i = Some c →
  Z.of_nat (length (conns w)) ≤ 2 ^ CONN_IDX_BITS →
  (∀ j c', j ≠ i → conns w !! j = Some c' → conn_ok (whist w) j c') →
  Forall (owned (length (conns w))) (outstanding (whist w)) →
  finished w + active_count (conns w) = w_started w → 0 ≤ w_started w →
  match budget with budget.Requests n => w_started w ≤ n | budget.Duration _ => True end →
  (stop w = true → ∃ d, budget = budget.Duration d) →
  ok i m (local w c) (λ a l', advance i (local w c) l' ∧ Q a l') →
  wok (at_conn i m) w (λ a w', winv w' ∧ ∃ l', w' = absorb i w l' ∧ w_started w ≤ started l' ∧ Q a l').
Proof.
  intros Hi Hsz Hco Hown Hacc Hst0 Hbud Hstop Hm. unfold wok, holds, at_conn. rewrite Hi. unfold ok, holds in Hm.
  destruct (m (local w c)) as [[f|e] l']; [|done]. intros Hs. destruct (Hm Hs) as (Hfr & (Hcp & Her & Htot & Hstart & Hok & Hlen) & HQ).
  unfold total, owed in Htot. cbn in Htot. cbn [w_world absorb] in Hs. pose proof Hfr as (Hsuf & (es & Hd & Hes) & _).
  assert (w_started w ≤ started l') as Hmono by (cbn in Hstart; destruct Hstart as [->|[-> _]]; lia).
  assert (length (<[i := self l']> (conns w)) = length (conns w)) as Hlen' by apply length_insert.
  split; [|by exists l'].
  assert (0 < length (conns w))%nat as Hsome by (apply lookup_lt_Some in Hi; lia).
  split; cbn; rewrite ?Hlen'; try done; try lia.
  - intros j c' Hj. destruct (decide (j = i)) as [-> |Hne].
    + rewrite list_lookup_insert_eq in Hj by (by eapply lookup_lt_Some). by injection Hj as <-.
    + rewrite list_lookup_insert_ne in Hj by done. eapply conn_ok_same; [done|exact Hsuf|by eapply h1_frame_other|by eapply Hco].
  - rewrite Hd. apply Forall_app. split; [|done]. eapply Forall_impl; [exact Hes|].
    intros e He. right. exists i. split; [by eapply lookup_lt_Some|done].
  - unfold finished. cbn. rewrite (active_count_insert _ _ _ _ Hi). unfold finished, owed in *. lia.
  - destruct budget as [n|]; [|done]. cbn in Hstart. destruct Hstart as [->|[-> Hms%Z.ltb_lt]]; lia.
Qed.

Lemma at_conn_ok i c (m : eff (Local C) error flow) w :
  conns w !! i = Some c →
  Z.of_nat (length (conns w)) ≤ 2 ^ CONN_IDX_BITS →
  (∀ j c', j ≠ i → conns w !! j = Some c' → conn_ok (whist w) j c') →
  Forall (owned (length (conns w))) (outstanding (whist w)) →
  finished w + active_count (conns w) = w_started w → 0 ≤ w_started w →
  match budget with budget.Requests n => w_started w ≤ n | budget.Duration _ => True end →
  (stop w = true → ∃ d, budget = budget.Duration d) →
  ready w →
  ok i m (local w c) (λ f l', step_ok i (stop w) (local w c) f l' ∧ started l' ≤ Z.of_nat (length (hist (world l')))) →
  wok (at_conn i m) w (λ f w', steps w f w').
Proof.
  intros Hi Hsz Hco Hown Hacc Hst0 Hbud Hstop [Hsv Hidle] Hm.
  eapply h1_wok_mono; [apply (h1_at_conn_keeps i c m w (λ f l', step_ok i (stop w) (local w c) f l')); try done|].
  { eapply h1_ok_mono; [exact Hm|]. intros f l' _ [Hst Hl]. split; [|done]. destruct Hst as (? & ? & ? & ? & ? & _). by split_and!. }
  intros f w' _ (Hw' & l' & -> & Hmono & (_ & _ & _ & _ & _ & Hflow)).
  split; [done|]. split; [apply length_insert|]. split; [done|].
  destruct f; [|exists i, (self l'); cbn; rewrite list_lookup_insert_eq by (by eapply lookup_lt_Some); by destruct Hflow].
  destruct Hflow as [Hsv' Hidle']. split; cbn.
  - intros j c' Hj. apply list_lookup_insert_Some in Hj as [(-> & <- & _)|[_ Hj]]; [done|by eapply Hsv].
  - intros Hstp j c' Hj Ha. specialize (Hidle Hstp). apply list_lookup_insert_Some in Hj as [(-> & <- & _)|[_ Hj]].
    + destruct (Hidle' Ha) as [Hai|[?|?]]; [|congruence|done]. by eapply may_start_mono, (Hidle j c).
    + by eapply may_start_mono, (Hidle j c').
Qed.

(** *** One completion *)

Lemma h1_outstanding_reaped n cqe h : Forall (owned n) (outstanding h) → Forall (owned n) (outstanding (Reaped cqe :: h)).
Proof.
  intros Ho. cbn. destruct (cqe_more cqe); [done|]. rewrite Forall_forall in *. intros e He. apply Ho. by eapply remove_ud_elem.
Qed.

(** Whom a completion is for. *)
Lemma h1_reaped_whose n h cqe :
  Forall (owned n) (outstanding h) → legal (Reaped cqe :: h) →
  (cqe_ud cqe = TIMEOUT_USER_DATA ∧ ∃ d, budget = budget.Duration d) ∨
  ∃ i g op e, (i < n)%nat ∧ well_formed_id i g op ∧ cqe_ud cqe = user_data i g op ∧ e ∈ ops (user_data i g op) h ∧ answers cqe e.
Proof.
  intros Ho [(e & He & Ha) _]. rewrite Forall_forall in Ho. destruct (Ho e He) as [[Hu Hd]|(i & Hi & g & op & Hid & Hu)].
  - left. split; [|done]. by rewrite <- (proj1 Ha).
  - right. exists i, g, op, e. split_and!; try done; [by rewrite <- (proj1 Ha)|]. rewrite <- Hu. by apply elem_of_ops.
Qed.

Definition after_reaped (cqe : Cqe) (w : Worker) : Worker := w <| w_world := w_world w <| hist := Reaped cqe :: whist w |> |>.

Lemma take_cqe_ok cqe w :
  winv w → ready w → wok (take_cqe patience target https budget timeout cqe) w (λ f w',
    winv w' ∧ length (conns w') = length (conns w) ∧ match f with Continue => ready w' | BreakOuter => orphan w' end).
Proof.
  intros Hw Hr. unfold take_cqe. eapply h1_wok_pure; [reflexivity|]. fold (after_reaped cqe w). set (w1 := after_reaped cqe w).
  assert (length (conns w1) = length (conns w)) as Hl1 by done.
  assert (∀ w', sound (whist w') → wgrows w1 w' → sound (Reaped cqe :: whist w)) as Hsd by (intros w' Hs Hg; by apply (sound_suffix _ _ Hg)).
  destruct (Z.eqb_spec (cqe_ud cqe) TIMEOUT_USER_DATA) as [Hto|Hto].
  - eapply h1_wok_pure; [reflexivity|]. apply h1_wok_ret. intros Hs. cbn in Hs.
    destruct (h1_reaped_whose _ _ _ (w_owned _ Hw) (proj1 Hs)) as [[_ Hd]|(i & g & op & e & _ & Hid & Hu & _)]; [|rewrite Hu in Hto; by apply user_data_not_timeout in Hto].
    split; [|split; [done|split; [apply Hr|done]]]. pose proof Hw as []. split; cbn; try done; [|by apply h1_outstanding_reaped|cbn; lia].
    intros j c Hj. eapply conn_ok_same; [done|by exists [Reaped cqe]| |by apply w_conns0].
    intros g op Hid. destruct (ops_reaped_other (user_data j g op) cqe (whist w)) as [? ?]; [|by split_and!]. rewrite Hto. intros Heq. by apply (user_data_not_timeout j g op).
  - destruct (decode_user_data (cqe_ud cqe)) as [[op i] gen] eqn:Hdec. eapply h1_wok_pure; [reflexivity|].
    assert (evolves wgrows (at_conn i (on_cqe patience target https budget timeout i (stop w1) op gen cqe))) as Hgrow by (apply at_conn_grows; grow).
    lazymatch goal with |- wok _ _ ?Q => change (wok (at_conn i (on_cqe patience target https budget timeout i (stop w1) op gen cqe)) w1 Q) end.
    unfold wok, holds. specialize (Hgrow w1). destruct (at_conn i _ w1) as [[f|e] w'] eqn:Erun; [|done]. intros Hs.
    pose proof (Hsd w' Hs Hgrow) as Hs1.
    destruct (h1_reaped_whose _ _ _ (w_owned _ Hw) (proj1 Hs1)) as [[? _]|(i' & g & op' & e & Hi & Hid & Hu & He & Ha)]; [done|].
    rewrite Hu, decode_user_data_encoded in Hdec by (destruct Hid as (? & ? & ?); lia). injection Hdec as -> -> ->.
    destruct (lookup_lt_is_Some_2 (conns w) i Hi) as [c Hc]. pose proof (w_conns _ Hw i c Hc) as Hok. destruct Hr as [Hsv Hidle].
    assert (wok (at_conn i (on_cqe patience target https budget timeout i (stop w1) op gen cqe)) w1 (λ f w', steps w1 f w')) as Hstep.
    { pose proof Hw as []. pose proof (active_count_nonneg (conns w)) as Hac. destruct Hs1 as [Hl Hn]. cbn [length] in Hn.
      assert (room (local w1 c)) as Hroom. { unfold room, total, finished, GENERATION_BITS, CONN_IDX_BITS in *. cbn. lia. }
      apply (at_conn_ok i c); try done.
      - intros j c' Hne Hj. eapply (conn_ok_same _ _ (whist w)); [done|by exists [Reaped cqe]| |by apply w_conns0].
        intros g' op' Hid'. destruct (h1_reaped_same (whist w) cqe i gen op j g' op') as [? ?]; [done|done|done|congruence|by split_and!].
      - by apply h1_outstanding_reaped.
      - apply w_nonneg0.
      - eapply h1_ok_mono; [apply h1_ok_framed|].
        + destruct (Z.eq_dec gen (generation c)) as [-> |Hne].
          * apply (on_cqe_ok patience target https budget timeout i (stop w1) op cqe (local w1 c)); [|by eapply Hsv|done].
            cbn [world local w_world w1 after_reaped self]. eapply (completed_reaped target https _ _ _ _ _ e). split; try done. apply Hid.
          * unfold on_cqe. eapply h1_ok_pure; [reflexivity|reflexivity|]. cbn [self local]. rewrite (proj2 (Z.eqb_neq _ _) Hne). cbn [negb].
            apply (stale_ok target https); [done| |by eapply Hsv]. cbn [self local].
            destruct Hid as (? & ? & ?). by eapply (stale_reaped target https (whist w) cqe i c gen op e).
        + intros f' l' _ [Hf Hst]. split; [done|]. apply h1_frame_length in Hf. cbn in Hf. destruct Hst as (_ & _ & _ & Hst & _). cbn in Hst.
          destruct Hst as [->|[-> _]]; lia. }
    unfold wok, holds in Hstep. rewrite Erun in Hstep. destruct (Hstep Hs) as (? & ? & _ & ?). done.
Qed.

(** *** The passes of a turn *)

Lemma until_grows {A} (l : list A) (body : A → W flow) : (∀ x, evolves wgrows (body x)) → evolves wgrows (until l body).
Proof.
  intros Hb. induction l as [|x l IH]; cbn; [apply evolves_ret, _|]. apply evolves_bind; [apply _|apply Hb|].
  intros []; [exact IH|apply evolves_ret, _].
Qed.
Lemma until_ok {A} (l : list A) (body : A → W flow) (I J : Worker → Prop) w :
  (∀ x, evolves wgrows (body x)) →
  (∀ x w, x ∈ l → I w → wok (body x) w (λ f w', match f with Continue => I w' | BreakOuter => J w' end)) →
  I w → wok (until l body) w (λ f w', match f with Continue => I w' | BreakOuter => J w' end).
Proof.
  intros Hg Hb. revert w. induction l as [|x l IH]; intros w HI; cbn [until]; [by apply h1_wok_ret|].
  eapply h1_wok_bind; [apply Hb; [by left|done]|intros []; [by apply until_grows|apply evolves_ret, _]|].
  intros [] w' _ Hw'; [apply IH; [|done]; intros; apply Hb; [by right|done]|by apply h1_wok_ret].
Qed.

Lemma take_cqe_grows cqe : evolves wgrows (take_cqe patience target https budget timeout cqe).
Proof.
  unfold take_cqe. apply evolves_bind; [apply _| |intros _].
  { apply of_world_grows. intros w. by exists [Reaped cqe]. }
  destruct (_ =? _); [apply evolves_bind; [apply _| |intros; apply evolves_ret, _]; intros w; apply (reflexivity (w_world w))|].
  destruct (decode_user_data _) as [[op i] gen]. apply evolves_bind; [apply _|apply evolves_get, _|intros]. apply at_conn_grows. grow.
Qed.
Lemma deadline_pass_grows : evolves wgrows (deadline_pass (C := C) patience budget timeout).
Proof.
  unfold deadline_pass. destruct timeout; [|apply evolves_ret, _]. apply evolves_bind; [apply _|apply evolves_get, _|intros].
  apply until_grows. intros. apply at_conn_grows. grow.
Qed.
Lemma completion_pass_grows cqes : evolves wgrows (completion_pass patience target https budget timeout cqes).
Proof. apply until_grows. apply take_cqe_grows. Qed.

Lemma completion_pass_ok cqes w :
  winv w → ready w → wok (completion_pass patience target https budget timeout cqes) w (λ f w',
    match f with Continue => winv w' ∧ ready w' | BreakOuter => winv w' ∧ orphan w' end).
Proof.
  intros Hw Hr. apply until_ok; [apply take_cqe_grows| |done]. intros cqe w' _ [Hw' Hr'].
  eapply h1_wok_mono; [by apply take_cqe_ok|]. intros [] w'' _ (? & _ & ?); done.
Qed.

Lemma deadline_pass_ok w :
  winv w → ready w → wok (deadline_pass (C := C) patience budget timeout) w (λ f w',
    match f with Continue => winv w' ∧ ready w' | BreakOuter => winv w' ∧ orphan w' end).
Proof.
  intros Hw Hr. unfold deadline_pass. destruct timeout as [t|]; [|by apply h1_wok_ret]. eapply h1_wok_pure; [reflexivity|].
  set (I := λ w' : Worker, winv w' ∧ ready w' ∧ length (conns w') = length (conns w) ∧ stop w' = stop w). set (J := λ w' : Worker, winv w' ∧ orphan w').
  apply (h1_wok_mono _ _ (λ f w', match f with Continue => I w' | BreakOuter => J w' end)); [|intros [] w' _ Hx; [by destruct Hx as (? & ? & _)|exact Hx]].
  apply until_ok.
  - intros. apply at_conn_grows. grow.
  - intros i w' Hi (Hw' & Hr' & Hl & Hst). apply elem_of_seq in Hi. destruct (lookup_lt_is_Some_2 (conns w') i ltac:(lia)) as [c Hc].
    assert (evolves wgrows (at_conn i (check_deadline (C := C) patience budget i (stop w) (k_now (w_world w))))) as Hgrow by (apply at_conn_grows; grow).
    assert (sound (whist w') → wok (at_conn i (check_deadline patience budget i (stop w) (k_now (w_world w)))) w' (λ f w'', steps w' f w'')) as Hgo.
    { intros [_ Hn]. pose proof Hw' as []. pose proof (active_count_nonneg (conns w')) as Hac.
      apply (at_conn_ok i c); try done; [intros; by apply w_conns0|lia|].
      rewrite <- Hst. eapply h1_ok_mono; [apply (check_deadline_ok patience target https)| ].
      - by apply w_conns0.
      - by eapply Hr'.
      - unfold room, total, finished, GENERATION_BITS, CONN_IDX_BITS in *. cbn. lia.
      - intros f l' _ [Hst' Hlen]. split; [done|]. cbn in Hlen. lia. }
    unfold wok, holds in *. specialize (Hgrow w'). destruct (at_conn i _ w') as [[f|e] w'']; [|done]. intros Hs.
    destruct (Hgo (sound_suffix _ _ Hgrow Hs) Hs) as (? & ? & ? & Hf). destruct f; [|done]. split; [done|]. split; [done|]. split; congruence.
  - done.
Qed.

(** *** A turn, and the loop *)

Lemma winv_quiet w w1 : winv w → sound (hist w1) → did [] (whist w) (hist w1) → winv (w <| w_world := w1 |>).
Proof.
  intros [] Hs Hd. split; cbn; try done.
  - intros i c Hc. eapply conn_ok_same; [done|apply Hd|by apply h1_did_quiet|by apply w_conns0].
  - by rewrite (did_outstanding _ _ _ Hd).
  - pose proof (suffix_length _ _ (did_suffix _ _ _ Hd)). lia.
Qed.
Lemma of_world_quiet {A} (m : eff World error A) w :
  queues m [] → winv w → ready w → wok (of_world m) w (λ _ w', winv w' ∧ ready w' ∧ conns w' = conns w ∧ stop w' = stop w).
Proof.
  intros Hq Hw Hr. unfold wok, holds, of_world. specialize (Hq (w_world w)). destruct (m (w_world w)) as [[a|e] w1]; [|done].
  cbn. intros Hs. split; [by apply winv_quiet|]. done.
Qed.

(** How a turn ends. *)
Definition turned (f : flow) (w : Worker) : Prop :=
  winv w ∧ match f with Continue => ready w ∧ stop w = false | BreakOuter => stop w = true ∨ orphan w end.

Lemma turn_ok w : winv w → ready w → wok (turn patience target https budget timeout settings) w (λ f w', turned f w').
Proof.
  intros Hw Hr. unfold turn. eapply h1_wok_pure; [reflexivity|].
  eapply h1_wok_bind; [apply of_world_quiet; [apply submit_and_wait_queues|done|done]| |].
  { intros _. apply evolves_bind; [apply _|apply evolves_get, _|intros]. apply evolves_bind; [apply _|apply deadline_pass_grows|].
    intros []; [|apply evolves_ret, _]. apply evolves_bind; [apply _|apply completion_pass_grows|].
    intros []; [|apply evolves_ret, _]. apply evolves_bind; [apply _|apply evolves_get, _|intros; apply evolves_ret, _]. }
  intros _ w1 _ (Hw1 & Hr1 & _ & _). eapply h1_wok_pure; [reflexivity|].
  eapply h1_wok_bind; [by apply deadline_pass_ok| |].
  { intros []; [|apply evolves_ret, _]. apply evolves_bind; [apply _|apply completion_pass_grows|].
    intros []; [|apply evolves_ret, _]. apply evolves_bind; [apply _|apply evolves_get, _|intros; apply evolves_ret, _]. }
  intros [] w2 _ Hf; [|apply h1_wok_ret; intros _; split; [apply Hf|right; apply Hf]]. destruct Hf as [Hw2 Hr2].
  eapply h1_wok_bind; [by apply completion_pass_ok| |].
  { intros []; [|apply evolves_ret, _]. apply evolves_bind; [apply _|apply evolves_get, _|intros; apply evolves_ret, _]. }
  intros [] w3 _ Hf; [|apply h1_wok_ret; intros _; split; [apply Hf|right; apply Hf]]. destruct Hf as [Hw3 Hr3].
  eapply h1_wok_pure; [reflexivity|]. apply h1_wok_ret. intros _. destruct (stop w3) eqn:Hs; (split; [done|]); auto.
Qed.

Lemma turn_grows : evolves wgrows (turn patience target https budget timeout settings).
Proof.
  unfold turn. apply evolves_bind; [apply _|apply evolves_get, _|intros]. apply evolves_bind; [apply _| |].
  { apply of_world_grows. eapply queues_grows, submit_and_wait_queues. }
  intros _. apply evolves_bind; [apply _|apply evolves_get, _|intros]. apply evolves_bind; [apply _|apply deadline_pass_grows|].
  intros []; [|apply evolves_ret, _]. apply evolves_bind; [apply _|apply completion_pass_grows|].
  intros []; [|apply evolves_ret, _]. apply evolves_bind; [apply _|apply evolves_get, _|intros; apply evolves_ret, _].
Qed.
Lemma main_loop_grows n : evolves wgrows (main_loop patience target https budget timeout settings n).
Proof.
  induction n as [|n IH]; cbn [main_loop]; (apply evolves_bind; [apply _|apply evolves_get, _|intros w]); destruct (over _ _);
    try (apply evolves_ret, _). apply evolves_bind; [apply _|apply turn_grows|intros []; [done|apply evolves_ret, _]].
Qed.

(** How the loop ends, or where it stands when it waits again. *)
Definition looped (ended : bool) (w : Worker) : Prop :=
  winv w ∧ if ended then over budget w = true ∨ stop w = true ∨ orphan w
           else ready w ∧ stop w = false ∧ over budget w = false.

Lemma main_loop_ok n w :
  winv w → ready w → stop w = false → wok (main_loop patience target https budget timeout settings n) w (λ b w', looped b w').
Proof.
  revert w. induction n as [|n IH]; intros w Hw Hr Hst; cbn [main_loop]; (eapply h1_wok_pure; [reflexivity|]);
    (destruct (over budget w) eqn:Ho; [apply h1_wok_ret; intros _; split; auto|]); [by apply h1_wok_ret|].
  eapply h1_wok_bind; [by apply turn_ok|intros []; [apply main_loop_grows|apply evolves_ret, _]|].
  intros [] w1 _ [Hw1 Hf]; [destruct Hf; by apply IH|]. apply h1_wok_ret. intros _. split; [done|by right].
Qed.

(** *** The first requests *)

Lemma fresh_conn_ok h i t0 :
  Z.of_nat i < 2 ^ CONN_IDX_BITS → (∀ g op, well_formed_id i g op → ops (user_data i g op) h = [] ∧ wire (user_data i g op) h = [] ∧ asks (user_data i g op) h = []) →
  conn_ok h i (fresh_conn target https t0).
Proof.
  intros Hi Hno.
  assert (∀ g, 0 ≤ g < 2 ^ GENERATION_BITS - 1 → fresh h i g) as Hfr.
  { intros g Hg. split; [intros op Ho|]; by apply Hno. }
  split; [split; cbn; [done|lia|lia|]|left].
  - intros g Hg. apply Hfr. lia.
  - split; [done|]. assert (fresh h i 0) as Hf by by apply Hfr. split; [|done]. destruct Hf as (Ho & Hw & Hk). unfold bare. cbn -[ops wire asks].
    split_and!; try done; by apply Ho.
Qed.

Lemma open_first_ok i l :
  conn_ok (hist (world l)) i (self l) → fd (self l) = -1 → active (self l) = false →
  0 ≤ stats.completed (stats l) → 0 ≤ stats.errors (stats l) → 0 ≤ started l → started l + 1 < 2 ^ 64 →
  started l ≤ Z.of_nat (length (hist (world l))) → budget.may_start budget (started l) = true →
  ok i (open_first timeout i) l (λ _ l', advance i l l' ∧ served (self l') ∧ active (self l') = true ∧ started l' = started l + 1).
Proof.
  intros [Hc Hl] Hfd Ha Hcp Her H0' Hmax Hlen Hms.
  assert (idle (hist (world l)) i (self l)) as Hi by (destruct Hl as [?|[(? & _)|(? & _)]]; [done|lia|lia]).
  unfold open_first. eapply h1_ok_pure; [reflexivity|reflexivity|]. eapply h1_ok_pure; [reflexivity|reflexivity|]. eapply h1_ok_pure; [reflexivity|reflexivity|].
  match goal with |- ok _ _ ?x _ => set (l1 := x) end. unfold ok, holds. rewrite bind_run. unfold on_ring.
  pose proof (start_connect_did i (generation (self l1)) (world l1)) as Hd. destruct (start_connect _ _ _) as [[f|e] w']; [|done].
  destruct Hd as [Hf Hd]. cbn [update modify]. intros Hs. cbn [world] in Hs.
  assert (core request https (hist (world l1)) i (self l1)) as Hc1 by by apply (core_eq _ _ _ _ (self l)).
  destruct (connect_links request https _ _ i (self l1) f Hs Hc1 Hi eq_refl) as [Hc' Hcn]; [apply Hf, Hs|done|].
  split. { eapply h1_queued_frame; [exact Hd|]. eapply h1_pair_of_conn; [|exact Hc1]. eapply sound_suffix; [apply Hd|done]. }
  pose proof Hcn as (? & _ & _ & Hcf & _).
  assert (length (hist (world l)) < length (hist w'))%nat as Hgrow.
  { destruct Hd as [[k Hk] Ho _ _]. destruct k; [|cbn in *; rewrite Hk; cbn; rewrite length_app; lia]. exfalso. cbn in Hk, Ho. rewrite Hk in Ho.
    apply (f_equal length) in Ho. cbn in Ho. lia. }
  assert (u64 (started l + 1) = started l + 1) as Hu by (apply u64_small; lia).
  split; [|split; [|split; [done|exact Hu]]].
  - unfold advance, total, owed. cbn. rewrite Hu, Ha. split_and!; try done; try lia; [by right|split; [done|by right; left]].
  - split; [|done]. intros _. split; [done|]. cbn. cbn in Hcf. by rewrite Hcf.
Qed.

(** The first [k] connections have been opened, the others not. *)
Definition opening (k : nat) (w : Worker) : Prop :=
  winv w ∧ stop w = false ∧ ∀ i c, conns w !! i = Some c →
    served c ∧ if (i <? k)%nat then active c = true else active c = false ∧ fd c = -1.

Lemma open_all_grows ids : evolves wgrows (open_all (C := C) budget timeout ids).
Proof.
  induction ids as [|i ids IH]; cbn [open_all]; [apply evolves_ret, _|]. apply evolves_bind; [apply _|apply evolves_get, _|intros].
  destruct (negb _); [apply evolves_ret, _|]. apply evolves_bind; [apply _|apply at_conn_grows; grow|done].
Qed.

Lemma open_all_ok n k w :
  opening k w → (k + n = length (conns w))%nat →
  wok (open_all (C := C) budget timeout (seq k n)) w (λ _ w', winv w' ∧ ready w' ∧ stop w' = false).
Proof.
  revert k w. induction n as [|n IH]; intros k w (Hw & Hst & Hall) Hlen; cbn [seq open_all].
  { apply h1_wok_ret. intros _. split; [done|]. split; [|done]. split; [intros i c Hc; by apply (Hall i)|].
    intros _ i c Hc Ha. pose proof (lookup_lt_Some _ _ _ Hc). destruct (Hall i c Hc) as [_ Hx].
    rewrite (proj2 (Nat.ltb_lt _ _)) in Hx by lia. congruence. }
  eapply h1_wok_pure; [reflexivity|]. destruct (budget.may_start budget (w_started w)) eqn:Hms; cbn [negb].
  2: { apply h1_wok_ret. intros _. split; [done|]. split; [|done]. split; [intros i c Hc; by apply (Hall i)|done]. }
  destruct (lookup_lt_is_Some_2 (conns w) k ltac:(lia)) as [c Hc]. destruct (Hall k c Hc) as [_ Hk]. rewrite Nat.ltb_irrefl in Hk. destruct Hk as [Ha Hfd].
  eapply (h1_wok_bind _ _ _ (λ _ w', opening (S k) w' ∧ length (conns w') = length (conns w))).
  - assert (evolves wgrows (at_conn k (open_first (C := C) timeout k))) as Hgrow by (apply at_conn_grows; grow).
    assert (sound (whist w) → wok (at_conn k (open_first timeout k)) w (λ _ w', winv w' ∧ ∃ l', w' = absorb k w l' ∧ w_started w ≤ started l' ∧
      served (self l') ∧ active (self l') = true)) as Hgo.
    { intros [_ Hn]. pose proof Hw as []. pose proof (active_count_nonneg (conns w)).
      apply (h1_at_conn_keeps k c _ w (λ _ l', served (self l') ∧ active (self l') = true)); try done; [intros; by apply w_conns0|lia|].
      eapply h1_ok_mono; [apply open_first_ok|]; cbn; try done; try lia; [by apply w_conns0|unfold GENERATION_BITS, CONN_IDX_BITS in *; lia|].
      intros _ l' _ (? & ? & ? & _). by split_and!. }
    unfold wok, holds in *. specialize (Hgrow w). destruct (at_conn k _ w) as [[u|e] w']; [|done]. intros Hs.
    destruct (Hgo (sound_suffix _ _ Hgrow Hs) Hs) as (Hw' & l' & -> & _ & Hsv & Hac). split; [|apply length_insert]. split; [done|]. split; [done|].
    intros i c' Hi. cbn in Hi. apply list_lookup_insert_Some in Hi as [(-> & <- & _)|[Hne Hi]].
    + split; [done|]. by rewrite (proj2 (Nat.ltb_lt _ _)) by lia.
    + destruct (Hall i c' Hi) as [? Hx]. split; [done|]. destruct (Nat.ltb_spec i k), (Nat.ltb_spec i (S k)); try done; lia.
  - intros _. apply open_all_grows.
  - intros _ w1 _ [Hop Hl]. apply IH; [done|lia].
Qed.

Lemma setup_ok connections :
  (0 < connections)%nat → Z.of_nat connections ≤ 2 ^ CONN_IDX_BITS → match budget with budget.Requests n => 0 ≤ n | budget.Duration _ => True end →
  wok (setup target https budget timeout connections) cold (λ _ w, winv w ∧ ready w ∧ stop w = false).
Proof.
  intros Hpos Hn Hb. unfold setup. unfold wok, holds. rewrite bind_run. destruct (buf_ring.new _) as [pool|e]; cbn [lift]; [|done].
  rewrite bind_run. cbn [modify].
  set (w1 := mkWorker (C := C) (mkWorld [] []) (replicate connections (fresh_conn target https (k_now (w_world (cold (C := C)))))) stats.default pool 0 false).
  change (wok (_ ← of_world (arm_deadline (budget.deadline budget)); open_all budget timeout (seq 0 connections)) w1 (λ _ w, winv w ∧ ready w ∧ stop w = false)).
  assert (length (conns w1) = connections) as Hl1 by apply length_replicate.
  eapply (h1_wok_bind _ _ _ (λ _ w, opening 0 w ∧ length (conns w) = connections)); [|intros; apply open_all_grows|].
  - unfold wok, holds, of_world. pose proof (arm_deadline_queues (budget.deadline budget) (w_world w1)) as Hq.
    destruct (arm_deadline _ _) as [[u|e] w2]; [|done]. intros Hs. cbn in Hs. split; [|done].
    assert (Forall (λ e, entry_ud e = TIMEOUT_USER_DATA ∧ ∃ d, budget = budget.Duration d) (outstanding (hist w2))) as Hown.
    { rewrite (did_outstanding _ _ _ Hq), app_nil_r. destruct budget; cbn; constructor; [|done]. split; [done|by eexists]. }
    assert (∀ i c, conns w1 !! i = Some c → c = fresh_conn target https (k_now (w_world (cold (C := C)))) ∧ (i < connections)%nat) as Hrep
      by (intros i c Hc; by apply lookup_replicate in Hc).
    assert (active_count (conns w1) = 0) as Hac.
    { subst w1. cbn [conns]. generalize (k_now (w_world (cold (C := C)))) as t0. clear. intros t0. induction connections as [|n IH]; [done|]. cbn [replicate active_count]. rewrite IH. done. }
    split; [|split; [done|]].
    + constructor; try done.
      * change (0 < length (conns w1))%nat. by rewrite Hl1.
      * change (Z.of_nat (length (conns w1)) ≤ 2 ^ CONN_IDX_BITS). by rewrite Hl1.
      * intros i c Hc. destruct (Hrep i c Hc) as [-> Hi]. apply fresh_conn_ok; [lia|]. intros g op Hid.
        change (ops (user_data i g op) (hist w2) = [] ∧ wire (user_data i g op) (hist w2) = [] ∧ asks (user_data i g op) (hist w2) = []).
        rewrite (did_wire _ _ _ Hq), (did_asks _ _ _ Hq). split; [|done]. unfold ops. apply with_ud_other. eapply Forall_impl; [exact Hown|].
        intros e [-> _] Heq. by apply (user_data_not_timeout i g op).
      * eapply Forall_impl; [exact Hown|]. intros e He. by left.
      * cbn. lia.
    + intros i c Hc. destruct (Hrep i c Hc) as [-> _]. split; [|done]. by split.
  - intros _ w2 _ [Hop Hl]. apply open_all_ok; [done|lia].
Qed.
End worker.
End http1_loop.
