(* ===== verification/Http1WorkerTheorems.v ===== *)
(** * What an HTTP/1.1 worker guarantees

    The accounts of a run, the bytes on its sockets and its progress, for every
    kernel that keeps its laws, and a concrete run against a server that takes
    ten bytes at a time. *)

From S2P Require Import Prelude Effects Status Stats Http1Parse Target Uring UringRun Tls Http1Worker Http1WorkerInv Http1WorkerRun Http1WorkerLoop.
From stdpp Require Import relations.
#[local] Open Scope Z_scope.

Module http1_theorems.
Import uring uring_run http1 http1_inv http1_run http1_loop.

Section theorems.
Context `{Kernel} `{Memchr} {C : Type} `{CL : ClientLaws C} `{VecGrowth} {SocketAddr : Type}.
Variable patience : nat.
Variable target : target.Target SocketAddr.
Variable https : bool.
Variable budget : budget.Budget.
Variable timeout : option Z.
Variable settings : Settings.

Abbreviation request := (target.request_bytes target).
Abbreviation Worker := (Worker (C := C)).
Abbreviation whist w := (hist (w_world w)).

(** A worker with this many connections that has been set up and has taken at
    most this many turns of its loop. *)
Definition run (turns connections : nat) : eff Worker error bool :=
  _ ← setup target https budget timeout connections; main_loop patience target https budget timeout settings turns.

Definition sensible (connections : nat) : Prop :=
  (0 < connections)%nat ∧ Z.of_nat connections ≤ 2 ^ CONN_IDX_BITS ∧
  match budget with budget.Requests n => 0 < n | budget.Duration _ => True end.

Lemma run_looped turns connections ended w :
  sensible connections → run turns connections cold = (Ok ended, w) → sound (whist w) → looped target https budget ended w.
Proof.
  intros (Hp & Hn & Hb) Hrun Hs.
  assert (wok (run turns connections) cold (λ b w', looped target https budget b w')) as Hok.
  { eapply h1_wok_bind; [apply (setup_ok target https budget timeout connections Hp Hn); by destruct budget; [lia|]|intros; apply main_loop_grows|].
    intros _ w1 _ (? & ? & ?). by apply main_loop_ok. }
  unfold wok, holds in Hok. rewrite Hrun in Hok. auto.
Qed.

(** ** The accounts *)

(** What retiring leaves alone. *)
Definition counted (l l' : Local C) : Prop := stats l' = stats l ∧ lgrows l l'.
#[global] Instance counted_preorder : PreOrder counted.
Proof. split; [by intros l; split|]. intros l1 l2 l3 [Hs1 Hg1] [Hs2 Hg2]. split; [congruence|by etrans]. Qed.

Lemma counted_ring {A} (m : eff World error A) : evolves grows m → evolves counted (on_ring m).
Proof. intros Hm l. split; [|by apply on_ring_grows]. unfold on_ring. by destruct (m (world l)). Qed.
Lemma counted_update f : evolves counted (update f).
Proof. intros l. by split; [|apply (reflexivity (world l))]. Qed.
Lemma close_counted : evolves counted close.
Proof.
  unfold close. evolve; try apply counted_update; try (intros l; by split; [|apply (reflexivity (world l))]).
  - unfold send_close_notify. evolve; try apply counted_update; try (intros l; by split; [|apply (reflexivity (world l))]).
    + intros l. unfold attempt, on_tls. destruct (tls.take_ciphertext_into _) as [[b|[]] t']; split; try done; apply (reflexivity (world l)).
    + apply counted_ring. eapply queues_grows, raw_send_queues.
  - apply counted_ring. eapply queues_grows, close_fd_queues.
Qed.
Lemma retire_counted i : evolves counted (retire patience i).
Proof.
  unfold retire. evolve; try apply close_counted; try (intros l; by split; [|apply (reflexivity (world l))]); apply counted_ring.
  - eapply queues_grows, drain_sq_queues.
  - eapply queues_grows, sync_cancel_queues.
  - eapply queues_grows, register_files_update_queues.
Qed.

Definition wcounted (w w' : Worker) : Prop := w_stats w' = w_stats w ∧ wgrows w w'.
#[global] Instance wcounted_preorder : PreOrder wcounted.
Proof. split; [by intros w; split|]. intros w1 w2 w3 [Hs1 Hg1] [Hs2 Hg2]. split; [congruence|by etrans]. Qed.
Lemma wcounted_conn {A} i (m : eff (Local C) error A) : evolves counted m → evolves wcounted (at_conn i m).
Proof.
  intros Hm w. unfold at_conn. destruct (conns w !! i) as [c|]; [|by split]. specialize (Hm (local w c)). by destruct (m (local w c)) as [r l].
Qed.

Lemma run_worker_run turns connections s w :
  sensible connections → run_worker patience target https budget timeout settings turns connections cold = (Ok (Some s), w) →
  ∃ w0, run turns connections cold = (Ok true, w0) ∧ s = w_stats w0 ∧ whist w0 `suffix_of` whist w.
Proof.
  intros (Hpos & Hn & Hb) Hrun. unfold run_worker in Hrun. rewrite (proj2 (Nat.eqb_neq _ _)) in Hrun by lia.
  assert (budget.is_empty budget = false) as He by (unfold budget.is_empty; destruct budget; apply bool_decide_eq_false; intros [=]; lia).
  rewrite He in Hrun. cbn [orb] in Hrun. rewrite (proj2 (Z.ltb_ge _ _)) in Hrun by lia. unfold dropping in Hrun. rewrite bind_run in Hrun.
  unfold run. rewrite bind_run. destruct (setup _ _ _ _ _ cold) as [[[]|e] w1]; [|done].
  rewrite bind_run in Hrun. destruct (main_loop _ _ _ _ _ _ turns w1) as [[[|]|e] w2]; [|done|done].
  exists w2. split; [done|]. rewrite bind_run in Hrun.
  assert (evolves wcounted (for_each (seq 0 connections) (λ i, at_conn i (retire (C := C) patience i)))) as Hret
    by (apply evolves_for_each; [apply _|]; intros; apply wcounted_conn, retire_counted).
  specialize (Hret w2). destruct (for_each _ _ w2) as [[[]|e] w3]; [|done]. rewrite bind_run in Hrun. cbn [get mret eff_ret] in Hrun.
  injection Hrun as <- <-. destruct Hret as [Hst Hg]. split; [done|]. etrans; [exact Hg|].
  assert (evolves wcounted (for_each (seq 0 (length (conns w3))) (λ i, at_conn i (close (C := C))))) as Hdrop
    by (apply evolves_for_each; [apply _|]; intros; apply wcounted_conn, close_counted).
  apply (Hdrop w3).
Qed.

(** C4: The report of an HTTP/1.1 worker accounts for every request.  When the
    worker returns, the requests it completed and the errors it counted, with
    the requests its connections still owe, are exactly the requests it started,
    and it started no more than its budget; so a worker with a request budget
    reports exactly that many, unless it was interrupted or a connection that
    owed a request could not be opened again. *)
Theorem http1_accounts (turns connections : nat) s w :
  sensible connections → run_worker patience target https budget timeout settings turns connections cold = (Ok (Some s), w) →
  sound (whist w) →
  ∃ w0, run turns connections cold = (Ok true, w0) ∧ s = w_stats w0 ∧
    stats.completed s + stats.errors s + active_count (conns w0) = w_started w0 ∧
    (∀ n, budget = budget.Requests n → w_started w0 ≤ n ∧
       (stats.completed s + stats.errors s = n ∨ k_shutdown (w_world w0) = true ∨ orphan w0)).
Proof.
  intros Hse Hrun Hs. destruct (run_worker_run turns connections s w Hse Hrun) as (w0 & Hrun0 & -> & Hsuf).
  pose proof (sound_suffix _ _ Hsuf Hs) as Hs0. destruct (run_looped turns connections true w0 Hse Hrun0 Hs0) as [[] Hend].
  exists w0. split; [done|]. split; [done|]. split; [done|]. intros n ->. split; [done|].
  pose proof (active_count_nonneg (conns w0)). unfold finished, GENERATION_BITS, CONN_IDX_BITS in *. destruct Hs0 as [_ Hn].
  destruct Hend as [Ho|[Hst|Hor]]; [|destruct (w_stop0 Hst) as [d ?]; done|auto].
  unfold over in Ho. apply orb_prop in Ho as [Hm|Hsh]; [|auto]. left. cbn in Hm. unfold GENERATION_BITS, CONN_IDX_BITS in Hn.
  rewrite u64_small in Hm by lia. apply Z.leb_le in Hm. lia.
Qed.

(** ** Progress *)





(** ** The wire *)

(** C5: Nothing but whole requests, one after another, goes out.  On every
    socket a plain worker ever had, what the kernel has accepted is the
    beginning of the request repeated, however the sends were cut short and
    whenever responses arrived; over TLS, what it has accepted is the beginning
    of what rustls emitted, of a session that was given whole requests. *)
Theorem http1_wire (turns connections : nat) ended w :
  sensible connections → run turns connections cold = (Ok ended, w) → sound (whist w) →
  (https = false → ∀ i g, (i < length (conns w))%nat → 0 ≤ g < 2 ^ GENERATION_BITS - 1 →
     ∃ k, wire (user_data i g OP_SEND) (whist w) `prefix_of` repeats request k) ∧
  (∀ i c t, conns w !! i = Some c → tls c = Some t →
     wire (user_data i (generation c) OP_SEND) (whist w) `prefix_of` emitted (tls.conn t) ∧
     ∃ k, accepted (tls.conn t) ++ tls.held_back t = repeats request k).
Proof.
  intros Hse Hrun Hs. destruct (run_looped turns connections ended w Hse Hrun Hs) as [Hw _]. split.
  - intros Hh i g Hi Hg. destruct (lookup_lt_is_Some_2 (conns w) i Hi) as [c Hc]. destruct (w_conns _ _ _ _ Hw i c Hc) as [Hcore Hl].
    assert (whole_requests request https (whist w) i g → ∃ k, wire (user_data i g OP_SEND) (whist w) `prefix_of` repeats request k) as Hwh.
    { intros [?|[k Hk]]; [congruence|]. exists k. destruct (ops _ _) as [|[] [|]]; try done. etrans; [|exact Hk]. by apply prefix_app_r. }
    destruct (Z.lt_trichotomy g (generation c)) as [Hlt|[-> |Hgt]].
    + apply Hwh, (c_past _ _ _ _ _ Hcore). lia.
    + apply Hwh. destruct Hl as [(_ & Hb & _)|[(_ & _ & _ & Hb)|Hu]]; [by apply bare_whole|by apply bare_whole|by apply up_whole].
    + destruct (c_future _ _ _ _ _ Hcore g ltac:(lia)) as (_ & -> & _). exists 0%nat. apply prefix_nil.
  - intros i c t Hc Ht. destruct (w_conns _ _ _ _ Hw i c Hc) as [_ [(_ & Hb & _)|[(_ & _ & _ & Hb)|(_ & _ & _ & _ & _ & Hst)]]];
      [destruct Hb as (_ & _ & _ & Hn & _); congruence..|].
    unfold stream in Hst. rewrite Ht in Hst. destruct Hst as (_ & _ & _ & Hk & Hst). split; [|by eexists]. unfold emits in Hst.
    destruct (sending c); [destruct Hst as [_ <-]; by apply prefix_app_r|by rewrite Hst].
Qed.
End theorems.

(** ** A concrete run *)

Section sample.
Import tls.loopback.

Definition response : bytes := bstr "HTTP/1.1 200 OK" ++ [13; 10] ++ bstr "Content-Length: 2" ++ [13; 10; 13; 10] ++ bstr "ok".

(** How many completions of one kind of operation were reaped. *)
Definition reaped (op : Z) (h : list Event) : Z :=
  zlen (List.filter (λ e, match e with Reaped c => (decode_user_data (cqe_ud c)).1.1 =? op | _ => false end) h).

(** A server that answers every request that has been sent, over a kernel that
    takes at most ten bytes of a send and completes everything else at once. *)
#[local] Instance server : Kernel := {
  capacity := 8;
  k_submit w := (IoOk (length (sq w)), length (sq w));
  k_wait w _ _ _ := (IoOk (length (sq w)), length (sq w));
  k_completions w := omap (λ e, match e with
    | Connect _ ud => Some (mkCqe ud 0 false None)
    | LinkTimeout ud => Some (mkCqe ud (-125) false None)
    | Send _ ud d => Some (mkCqe ud (Z.min 10 (zlen d)) false None)
    | RecvMulti _ ud =>
        if (reaped OP_RECV (hist w) <? reaped OP_SEND (hist w) / 2) then Some (mkCqe ud (zlen response) true (Some 0)) else None
    | _ => None
    end) (reverse (outstanding (hist w)));
  k_cancel _ _ := IoOk 0;
  k_register _ _ _ := IoOk 0;
  k_socket _ := Ok 3;
  k_now w := zlen (hist w);
  k_shutdown _ := false;
  k_buffer _ _ := response;
}.
#[local] Instance first_byte : Memchr := λ b l, fst <$> list_find (λ x, x = b) l.

Definition small_target : target.Target Z :=
  target.mkTarget 80 false (bstr "a") (bstr "a") (bstr "/") (bstr "GET") [] []
    (bstr "GET / HTTP/1.1" ++ [13; 10; 13; 10]) false.
Definition sample_settings : Settings := mkSettings DEFAULT_BATCH_LINGER 0 true.
Abbreviation sample_worker turns :=
  (run_worker (C := Loop) 4 small_target false (budget.Requests 3) None sample_settings turns 1).
Abbreviation sample_run turns := (run (C := Loop) 4 small_target false (budget.Requests 3) None sample_settings turns 1).

(** The worker after a few turns, and at the end. *)
Definition halfway : Worker (C := Loop) := Eval vm_compute in (sample_run 5 cold).2.
Definition at_end : Worker (C := Loop) := Eval vm_compute in (sample_worker 40 cold).2.
Definition report : stats.Stats := Eval vm_compute in match (sample_worker 40 cold).1 with Ok (Some s) => s | _ => stats.default end.

Lemma sample_sensible : sensible (budget.Requests 3) 1.
Proof. split_and!; [lia|vm_compute; discriminate|lia]. Qed.
Lemma halfway_sound : sound (hist (w_world halfway)).
Proof. split; [apply legalb_legal; vm_compute; reflexivity|vm_compute; reflexivity]. Qed.
Lemma at_end_sound : sound (hist (w_world at_end)).
Proof. split; [apply legalb_legal; vm_compute; reflexivity|vm_compute; reflexivity]. Qed.

Lemma http1_accounts_witness :
  sample_worker 40 cold = (Ok (Some report), at_end) ∧ stats.completed report = 3 ∧ stats.errors report = 0 ∧
  ∃ w0, sample_run 40 cold = (Ok true, w0) ∧ report = w_stats w0 ∧
    stats.completed report + stats.errors report + active_count (conns w0) = w_started w0 ∧
    (∀ n, budget.Requests 3 = budget.Requests n → w_started w0 ≤ n ∧
       (stats.completed report + stats.errors report = n ∨ k_shutdown (w_world w0) = true ∨ orphan w0)).
Proof.
  assert (sample_worker 40 cold = (Ok (Some report), at_end)) as Hrun by (vm_compute; reflexivity).
  split; [exact Hrun|]. split; [reflexivity|]. split; [reflexivity|].
  exact (http1_accounts 4 small_target false (budget.Requests 3) None sample_settings 40 1 report at_end sample_sensible Hrun at_end_sound).
Defined.


Lemma http1_wire_witness :
  sample_run 5 cold = (Ok false, halfway) ∧
  wire (user_data 0 0 OP_SEND) (hist (w_world halfway)) = repeats (target.request_bytes small_target) 1 ++ bstr "GET / HTTP" ∧
  (false = false → ∀ i g, (i < length (conns halfway))%nat → 0 ≤ g < 2 ^ GENERATION_BITS - 1 →
     ∃ k, wire (user_data i g OP_SEND) (hist (w_world halfway)) `prefix_of` repeats (target.request_bytes small_target) k) ∧
  (∀ i c t, conns halfway !! i = Some c → tls c = Some t →
     wire (user_data i (generation c) OP_SEND) (hist (w_world halfway)) `prefix_of` emitted (tls.conn t) ∧
     ∃ k, accepted (tls.conn t) ++ tls.held_back t = repeats (target.request_bytes small_target) k).
Proof.
  assert (sample_run 5 cold = (Ok false, halfway)) as Hrun by (vm_compute; reflexivity).
  split; [exact Hrun|]. split; [vm_compute; reflexivity|].
  exact (http1_wire 4 small_target false (budget.Requests 3) None sample_settings 5 1 false halfway sample_sensible Hrun halfway_sound).
Defined.
End sample.
End http1_theorems.
