(* ===== verification/Http2Worker.v ===== *)
(** * The HTTP/2 worker — [src/http2.rs]

    One worker thread: its connections, each an HTTP/2 connection
    ([Http2Conn.v]) over a socket, perhaps through a TLS session ([Tls.v]), the
    requests in flight on each ([Inflight.v]), the slots with output to flush,
    and the loop over the completions of its ring ([Uring.v]).

    As in [Http1Worker.v] the kernel and the clock are the parameter [Kernel],
    rustls is [Client], and a run is given a number of turns.  [warn_once] only
    prints; [recycle] of an output buffer only keeps its capacity. *)

From S2P Require Import Prelude Effects Status Stats Inflight Target Requests Http2Conn Uring UringConn Tls.
From stdpp Require Import relations.
#[local] Open Scope Z_scope.

Module http2.
Import uring uring_conn.

Record InFlight := mkInFlight { start : Z; status : Z }.

Record Conn {C : Type} := mkConn {
  fd : Z;
  connected : bool;
  h2 : option http2_conn.Connection;
  tls : option (tls.TlsSession C);
  out : bytes;
  out_off : nat;
  sending : bool;
  recv_armed : bool;
  goaway : bool;
  generation : Z;
  streams : inflight.Ring InFlight;
  answered : Z;
  held : Z;
  idle_since : Z;
}.
Arguments Conn : clear implicits.
#[global] Instance Conn_eta {C} : Eta (Conn C) := λ c,
  mkConn C (fd c) (connected c) (h2 c) (tls c) (out c) (out_off c) (sending c) (recv_armed c) (goaway c) (generation c)
    (streams c) (answered c) (held c) (idle_since c).

(** What the handlers share: [words] are those of [PendingFlush]. *)
Record Shared := mkShared {
  stats : stats.Stats;
  pool : buf_ring.BufRing;
  started : Z;
  words : list Z;
  stop : bool;
}.
#[global] Instance Shared_eta : Eta Shared := λ x, mkShared (stats x) (pool x) (started x) (words x) (stop x).

Definition new_conn {C} (now : Z) : Conn C :=
  mkConn C (-1) false None None [] 0 false false false 0 inflight.new 0 0 now.

Section methods.
Context `{Kernel} {C : Type} `{Client C} `{VecGrowth}.
Abbreviation M := (eff (Local (Conn C) Shared) error).

Definition now : M Z := l ← get; mret (k_now (world l)).
Definition update_stats (f : stats.Stats → stats.Stats) : M unit := update_shared (λ x, x <| stats := f (stats x) |>).

Definition count_errors (n : Z) (s : stats.Stats) : stats.Stats :=
  stats.mkStats (stats.completed s) (u64 (stats.errors s + n)) (stats.connect_errors s) (stats.bytes_received s) (stats.bytes_sent s)
    (stats.latencies_ns s) (stats.status_counts s).
Definition count_connect_error (s : stats.Stats) : stats.Stats :=
  stats.mkStats (stats.completed s) (stats.errors s) (u64 (stats.connect_errors s + 1)) (stats.bytes_received s) (stats.bytes_sent s)
    (stats.latencies_ns s) (stats.status_counts s).
Definition count_received (n : Z) (s : stats.Stats) : stats.Stats :=
  stats.mkStats (stats.completed s) (stats.errors s) (stats.connect_errors s) (u64 (stats.bytes_received s + n)) (stats.bytes_sent s)
    (stats.latencies_ns s) (stats.status_counts s).
Definition count_sent (n : Z) (s : stats.Stats) : stats.Stats :=
  stats.mkStats (stats.completed s) (stats.errors s) (stats.connect_errors s) (stats.bytes_received s) (u64 (stats.bytes_sent s + n))
    (stats.latencies_ns s) (stats.status_counts s).

(** A method of the TLS session. *)
Definition on_tls {A} (t : tls.TlsSession C) (m : eff (tls.TlsSession C) error A) : M A :=
  let '(r, t') := m t in _ ← update (λ c, c <| tls := Some t' |>); lift r.

(** [conn.tls.as_ref().is_some_and(TlsSession::is_handshaking)] *)
Definition handshaking (c : Conn C) : bool := match tls c with Some t => tls.is_handshaking t | None => false end.

(** ** [Conn] *)

Definition close : M unit :=
  c ← me;
  _ ← when (0 <=? fd c) (_ ← on_ring (close_fd (fd c)); update (λ c, c <| fd := -1 |>));
  t ← now;
  update (λ c, c <| connected := false |> <| recv_armed := false |> <| sending := false |> <| goaway := false |>
    <| out := [] |> <| out_off := 0%nat |> <| h2 := None |> <| tls := None |> <| streams := inflight.clear (streams c) |>
    <| answered := 0 |> <| held := 0 |> <| idle_since := t |> <| generation := next_generation (generation c) |>).

Definition fail_inflight : M unit :=
  c ← me;
  _ ← update_stats (count_errors (Z.of_nat (inflight.len (streams c)) + held c));
  update (λ c, c <| streams := inflight.clear (streams c) |> <| held := 0 |>).

(** [now.duration_since(since)] *)
Definition duration_since (now since : Z) : Z := Z.max 0 (now - since).

Definition timed_out (at_ limit : Z) (may_start : bool) : M bool :=
  c ← me;
  match inflight.slot (streams c) 0 with
  | Some oldest => _ ← update (λ c, c <| idle_since := at_ |>); mret (limit <=? duration_since at_ (start oldest))
  | None => mret (connected c && ((0 <? held c) || may_start) && (limit <=? duration_since at_ (idle_since c)))
  end.

(** ** Opening streams *)

Section run.
Context {SocketAddr : Type}.
Variable target : target.Target SocketAddr.
Variable https : bool.                 (* [tls_setup.is_some()] *)
Variable budget : budget.Budget.
Variable timeout : option Z.
Variable parallel : nat.
Abbreviation header_block := (requests.build_header_block target).
Abbreviation body := (target.body target).

Definition may_start : M bool := l ← get; mret (budget.may_start budget (started (shared l))).

(** The [while] of [fill_streams]: every turn but the last opens a stream. *)
Fixpoint open_streams (fuel : nat) (h : http2_conn.Connection) : M http2_conn.Connection :=
  c ← me;
  ms ← may_start;
  if (inflight.len (streams c) <? parallel)%nat && ms then
    match fuel with
    | O => lift (panic "out of fuel")
    | S fuel' =>
        '(id, h) ← lift (http2_conn.start_stream h header_block body);
        _ ← update (λ c, c <| h2 := Some h |>);
        match id with
        | None => mret h
        | Some stream_id =>
            t ← now;
            _ ← update (λ c, c <| streams := inflight.push inflight.H2_SHIFT (streams c) stream_id (mkInFlight t 0) |>);
            _ ← update_shared (λ x, x <| started := u64 (started x + 1) |>);
            open_streams fuel' h
        end
    end
  else mret h.

Definition fill_streams : M unit :=
  c ← me;
  match h2 c with
  | None => mret tt
  | Some h =>
      if handshaking c then mret tt
      else
        h ← lift (http2_conn.pump_bodies h body);
        _ ← update (λ c, c <| h2 := Some h |>);
        l ← get;
        if stop (shared l) || goaway c then mret tt
        else
          h ← open_streams parallel h;
          when (http2_conn.stream_ids_exhausted h) (update (λ c, c <| goaway := true |>))
  end.

(** ** Retiring a connection *)

(** How often [submit] may be interrupted before the submission queue of a
    retiring socket is empty; the loop has no bound of its own. *)
Variable patience : nat.

Definition retire (i : nat) : M unit :=
  c ← me;
  _ ← when (0 <=? fd c)
    (_ ← on_ring (drain_sq patience "io_uring made no progress before HTTP/2 socket retirement"
                    "submit before HTTP/2 socket retirement failed");
     _ ← on_ring (sync_cancel (ByFile i) "cancel retired HTTP/2 I/O failed");
     on_ring (register_files_update i (-1) "unregister retired HTTP/2 socket failed"));
  close.

(** ** Sending *)

(** [conn.out_off = 0; conn.sending = true; push_send_slice(.., &conn.out)] *)
Definition send_out (i : nat) : M unit :=
  _ ← update (λ c, c <| out_off := 0%nat |> <| sending := true |>);
  c ← me;
  on_ring (push_send_slice i (generation c) (out c)).

Definition flush (i : nat) : M unit :=
  c ← me;
  if sending c then mret tt
  else match h2 c with
  | None => mret tt
  | Some h =>
      let '(buf, h) := http2_conn.take_output h in
      _ ← update (λ c, c <| h2 := Some h |>);
      match tls c with
      | Some t =>
          _ ← (match buf with Some buf => on_tls t (tls.write_plaintext buf) | None => mret tt end);
          c ← me;
          t ← lift (match tls c with Some t => Ok t | None => panic "unwrap on None" end);
          bytes ← on_tls t tls.take_ciphertext_into;
          _ ← update (λ c, c <| out := bytes |>);
          if bool_decide (bytes = []) then mret tt else send_out i
      | None =>
          match buf with
          | Some buf => _ ← update (λ c, c <| out := buf |>); send_out i
          | None => mret tt
          end
      end
  end.

(** [PendingFlush::mark] *)
Definition mark (i : nat) : M unit :=
  l ← get;
  w ← lift (match words (shared l) !! (i / 64)%nat with Some w => Ok w | None => panic "index out of bounds" end);
  update_shared (λ x, x <| words := <[(i / 64)%nat := Z.lor w (Z.shiftl 1 (Z.of_nat (i mod 64)))]> (words x) |>).

(** ** Events *)

(** [stats.record_success(inflight.status, inflight.start)] *)
Definition record_success (r : InFlight) : M unit :=
  l ← get;
  s ← lift (stats.record_success (stats (shared l)) (status r) (duration_since (k_now (world l)) (start r)));
  update_stats (λ _, s).

(** [conn.streams.take(stream_id)] *)
Definition take_stream (stream_id : Z) : M (option InFlight) :=
  c ← me;
  let '(taken, r) := inflight.take inflight.H2_SHIFT inflight.H2_OFFSET (streams c) stream_id in
  _ ← update (λ c, c <| streams := r |>);
  mret taken.

Definition process_event (e : http2_conn.Event) : M unit :=
  match e with
  | http2_conn.Status stream_id st =>
      update (λ c, c <| streams := inflight.modify inflight.H2_SHIFT inflight.H2_OFFSET (streams c) stream_id
                                     (λ r, mkInFlight (start r) st) |>)
  | http2_conn.End stream_id =>
      taken ← take_stream stream_id;
      match taken with
      | None => mret tt
      | Some r =>
          if status r =? 0 then update_stats (count_errors 1)
          else
            _ ← record_success r;
            _ ← update (λ c, c <| answered := u64 (answered c + 1) |>);
            c ← me;
            _ ← update_shared (λ x, x <| started := u64 (started x - held c) |>);
            update (λ c, c <| held := 0 |>)
      end
  | http2_conn.Reset stream_id =>
      taken ← take_stream stream_id;
      match taken with None => mret tt | Some _ => update_stats (count_errors 1) end
  | http2_conn.Unprocessed stream_id =>
      taken ← take_stream stream_id;
      match taken with
      | None => mret tt
      | Some _ =>
          c ← me;
          if 0 <? answered c then update_shared (λ x, x <| started := u64 (started x - 1) |>)
          else update (λ c, c <| held := u64 (held c + 1) |>)
      end
  | http2_conn.Goaway => update (λ c, c <| goaway := true |>)
  end.
Definition process_events (events : list http2_conn.Event) : M unit := for_each events process_event.

Definition fail_connect : M unit :=
  ms ← may_start;
  when ms
    (_ ← update_stats (count_errors 1);
     _ ← update_stats count_connect_error;
     update_shared (λ x, x <| started := u64 (started x + 1) |>)).

(** ** Receiving *)

(** [buf_ring.recycle(bid)] *)
Definition recycle (bid : Z) : M unit :=
  _ ← update_shared (λ x, x <| pool := buf_ring.recycle (pool x) bid |>); on_ring (log (Recycled bid)).
Definition recycle_any (bid : option Z) : M unit :=
  match bid with Some bid => recycle bid | None => mret tt end.

(** [buf_ring.data(bid, len)] *)
Definition data (bid len : Z) : M bytes :=
  l ← get;
  _ ← lift (buf_ring.data_range (pool (shared l)) bid len);
  mret (take (Z.to_nat len) (k_buffer (world l) bid)).

Definition push_recv (i : nat) : M unit :=
  c ← me;
  _ ← on_ring (push_recv_multi i (generation c));
  update (λ c, c <| recv_armed := true |>).

Definition SCRATCH : nat := 64 * 1024.
Definition ALPN_H2 : bytes := bstr "h2".

(** What the TLS session hands its plaintext to: the connection and the events
    it has reported. *)
Definition feed_chunk (plain : bytes) : eff (http2_conn.Connection * list http2_conn.Event) error unit := λ '(h, ev),
  match http2_conn.feed h plain ev with
  | (ev', Ok h') => (Ok tt, (h', ev'))
  | (ev', Err e) => (Err e, (h, ev'))
  end.

(** Whether a call succeeded; a panic is not caught. *)
Definition succeeded (r : res unit) : M bool :=
  match r with Ok _ => mret true | Err (Panic msg) => lift (panic msg) | Err _ => mret false end.

(** The events of a receive, whether it was taken ([fed]), and whether the
    handshake ended without HTTP/2. *)
Definition feed_received (h : http2_conn.Connection) (bytes : bytes) : M (list http2_conn.Event * bool * bool) :=
  c ← me;
  match tls c with
  | Some t =>
      let was_handshaking := tls.is_handshaking t in
      let '(r, (t, (h, ev))) := tls.feed_into feed_chunk SCRATCH bytes (t, (h, [])) in
      _ ← update (λ c, c <| tls := Some t |> <| h2 := Some h |>);
      fed ← succeeded r;
      if fed && was_handshaking && negb (tls.is_handshaking t) then
        if bool_decide (tls.alpn_protocol t = Some ALPN_H2) then
          _ ← update (λ c, c <| h2 := Some (http2_conn.initiate h) |>); mret (ev, fed, false)
        else _ ← fail_connect; mret (ev, fed, true)
      else mret (ev, fed, false)
  | None =>
      let '(ev, r) := http2_conn.feed h bytes [] in
      _ ← (match r with Ok h => update (λ c, c <| h2 := Some h |>) | Err _ => mret tt end);
      fed ← succeeded (_ ← r; Ok tt);
      mret (ev, fed, false)
  end.

(** ** One completion: whether the connection is broken *)

Definition on_connect (i : nat) (res : Z) : M bool :=
  if res <? 0 then _ ← fail_connect; mret true
  else
    _ ← update (λ c, c <| connected := true |>);
    _ ← push_recv i;
    _ ← when https (t ← lift tls.new; update (λ c, c <| tls := Some t |>));
    let h := if https then http2_conn.new else http2_conn.initiate http2_conn.new in
    _ ← update (λ c, c <| h2 := Some h |>);
    _ ← fill_streams;
    _ ← mark i;
    mret false.

Definition on_send (i : nat) (res : Z) : M bool :=
  if res <? 0 then mret true
  else
    _ ← update_stats (count_sent res);
    _ ← update (λ c, c <| out_off := (out_off c + Z.to_nat res)%nat |>);
    c ← me;
    if (out_off c <? length (out c))%nat then
      rest ← lift (slice_from (out c) (out_off c));
      _ ← on_ring (push_send_slice i (generation c) rest);
      mret false
    else
      _ ← update (λ c, c <| sending := false |>);
      _ ← (match tls c, h2 c with None, Some _ => update (λ c, c <| out := [] |>) | _, _ => mret tt end);
      _ ← mark i;
      _ ← when (negb (recv_armed c)) (push_recv i);
      mret false.

Definition on_recv (i : nat) (cqe : Cqe) : M bool :=
  let res := cqe_result cqe in
  _ ← when (negb (cqe_more cqe)) (update (λ c, c <| recv_armed := false |>));
  if res <? 0 then
    _ ← recycle_any (cqe_buffer cqe);
    if res =? - ENOBUFS then _ ← push_recv i; mret false else mret true
  else if res =? 0 then _ ← recycle_any (cqe_buffer cqe); mret true
  else
    _ ← update_stats (count_received res);
    bid ← lift (ok_or "recv CQE without buffer id" (cqe_buffer cqe));
    c ← me;
    h ← lift (ok_or "recv without h2 connection" (h2 c));
    bytes ← data bid res;
    '(events, fed, refused) ← feed_received h bytes;
    _ ← recycle bid;
    _ ← process_events events;
    c ← me;
    if negb fed then mret true
    else if (refused : bool) then mret true
    else if goaway c && inflight.is_empty (streams c) then mret true
    else _ ← fill_streams; _ ← mark i; mret false.

(** [match op] *)
Definition on_op (i : nat) (op : Z) (cqe : Cqe) : M bool :=
  if op =? OP_CONNECT then on_connect i (cqe_result cqe)
  else if op =? OP_CONNECT_TIMEOUT then mret false
  else if op =? OP_SEND then on_send i (cqe_result cqe)
  else if op =? OP_RECV then on_recv i cqe
  else lift (panic "unreachable").

(** [match uring::start_connect(..)], if there is something left to start *)
Definition replace (i : nat) : M flow :=
  l ← get;
  if negb (stop (shared l)) && budget.may_start budget (started (shared l)) then
    c ← me;
    got ← attempt (on_ring (start_connect i (generation c)));
    match got with
    | Some f => _ ← update (λ c, c <| fd := f |>); mret Continue
    | None => mret BreakOuter
    end
  else mret Continue.

Definition on_broken (i : nat) : M flow :=
  c ← me;
  _ ← when (handshaking c) fail_connect;
  _ ← fail_inflight;
  _ ← retire i;
  replace i.

Definition on_cqe (i : nat) (op gen : Z) (cqe : Cqe) : M flow :=
  c ← me;
  if negb (gen =? generation c) then _ ← recycle_any (cqe_buffer cqe); mret Continue
  else broken ← on_op i op cqe; if (broken : bool) then on_broken i else mret Continue.

(** The pass over connections that have waited too long. *)
Definition check_timeout (i : nat) (limit at_ : Z) : M flow :=
  ms ← may_start;
  wedged ← timed_out at_ limit ms;
  if negb wedged then mret Continue
  else
    c ← me;
    _ ← when (inflight.is_empty (streams c) && (held c =? 0)) fail_connect;
    _ ← fail_inflight;
    _ ← retire i;
    replace i.

(** The end of the run: a GOAWAY that does not land in the middle of a send *)
Definition say_goodbye : M unit :=
  c ← me;
  match h2 c with
  | Some h =>
      if connected c && negb (sending c) && negb (handshaking c) then
        let '(buf, h) := http2_conn.take_output (http2_conn.send_goaway h) in
        _ ← update (λ c, c <| h2 := Some h |>);
        match buf with
        | None => mret tt
        | Some buf =>
            bytes ← (match tls c with
                     | Some t =>
                         _ ← attempt (on_tls t (tls.write_plaintext buf));
                         c ← me;
                         t ← lift (match tls c with Some t => Ok t | None => panic "unwrap on None" end);
                         got ← attempt (on_tls t tls.take_ciphertext);
                         mret (default [] got)
                     | None => mret buf
                     end);
            if bool_decide (bytes = []) then mret tt else on_ring (raw_send (fd c) bytes)
        end
      else mret tt
  | None => mret tt
  end.

(** One turn of [drain_final_completions], for its connection *)
Definition last_cqe (op gen : Z) (cqe : Cqe) : M unit :=
  c ← me;
  when ((op =? OP_SEND) && (gen =? generation c) && (0 <? cqe_result cqe))
    (_ ← update_stats (count_sent (cqe_result cqe));
     update (λ c, let off := (out_off c + Z.to_nat (cqe_result cqe))%nat in
                  c <| out_off := off |> <| sending := (off <? length (out c))%nat |>)).

(** ** The worker *)

Abbreviation W := (eff (Worker (Conn C) Shared) error).

(** One turn of [for cqe in &mut cq]. *)
Definition take_cqe (cqe : Cqe) : W flow :=
  _ ← on_ring (log (Reaped cqe));
  if cqe_ud cqe =? TIMEOUT_USER_DATA then
    _ ← modify (λ w, w <| w_shared := w_shared w <| stop := true |> |>); mret Continue
  else
    let '(op, i, gen) := decode_user_data (cqe_ud cqe) in
    at_conn i (on_cqe i op gen cqe).

Definition trailing_zeros (x : Z) : nat :=
  default 64%nat (List.find (λ k, Z.testbit x (Z.of_nat k)) (seq 0 64)).

(** [PendingFlush::drain] of one word, bit by bit *)
Fixpoint drain_bits (fuel : nat) (word_idx : nat) (ready : Z) : W unit :=
  if ready =? 0 then mret tt
  else match fuel with
       | O => lift (panic "out of fuel")
       | S fuel' =>
           let i := (word_idx * 64 + trailing_zeros ready)%nat in
           _ ← at_conn i (flush i);
           drain_bits fuel' word_idx (Z.land ready (ready - 1))
       end.
Definition drain_word (word_idx : nat) : W unit :=
  w ← get;
  ready ← lift (match words (w_shared w) !! word_idx with Some x => Ok x | None => panic "index out of bounds" end);
  _ ← modify (λ w, w <| w_shared := w_shared w <| words := <[word_idx := 0]> (words (w_shared w)) |> |>);
  if ready =? U64_MAX then for_each (seq (word_idx * 64) 64) (λ i, at_conn i (flush i))
  else drain_bits 64 word_idx ready.
Definition flush_pending : W unit :=
  w ← get; for_each (seq 0 (length (words (w_shared w)))) drain_word.

Variable settings : Settings.

(** What follows the wait of a turn of [loop]; the completions are the ones
    [cq.sync] has seen. *)
Definition timeout_pass : W flow :=
  match timeout with
  | None => mret Continue
  | Some limit =>
      w ← get;
      let at_ := k_now (w_world w) in
      until (seq 0 (length (conns w))) (λ i, at_conn i (check_timeout i limit at_))
  end.
Definition completion_pass (cqes : list Cqe) : W flow := until cqes take_cqe.

(** Whether the loop ends before it waits again. *)
Definition over (w : Worker (Conn C) Shared) : bool :=
  let s := stats (w_shared w) in
  budget.is_met budget (u64 (stats.completed s + stats.errors s)) || k_shutdown (w_world w).

Definition turn : W flow :=
  _ ← on_ring (submit_and_wait_timeout settings WAIT_TIMEOUT (batch_size_multiplexed settings (Z.of_nat parallel)));
  w ← get;
  let cqes := k_completions (w_world w) in
  f ← timeout_pass;
  match f with
  | BreakOuter => mret BreakOuter
  | Continue =>
      f ← completion_pass cqes;
      match f with
      | BreakOuter => mret BreakOuter
      | Continue =>
          _ ← flush_pending;
          w ← get;
          mret (if stop (w_shared w) then BreakOuter else Continue)
      end
  end.

(** ['outer: loop], for a number of turns: whether it has ended. *)
Fixpoint main_loop (turns : nat) : W bool :=
  w ← get;
  if over w then mret true
  else match turns with
       | O => mret false
       | S turns' => f ← turn; match f with BreakOuter => mret true | Continue => main_loop turns' end
       end.

(** The first connects, one for each request of a small budget. *)
Definition open_first (i : nat) : M unit :=
  c ← me;
  f ← on_ring (start_connect i (generation c));
  update (λ c, c <| fd := f |>).
Fixpoint open_all (ids : list nat) : W unit :=
  match ids with
  | [] => mret tt
  | i :: ids' =>
      if negb (budget.may_start budget (Z.of_nat i)) then mret tt
      else _ ← at_conn i (open_first i); open_all ids'
  end.

(** [next_power_of_two], [div_ceil] *)
Definition next_power_of_two (n : Z) : Z := 2 ^ Z.log2_up n.
Definition div_ceil (n d : nat) : nat := ((n + (d - 1)) / d)%nat.

Definition setup (connections : nat) : W unit :=
  p ← lift (buf_ring.new (clamp 64 32768 (next_power_of_two (Z.of_nat connections * 2))));
  _ ← modify (λ w, w <| conns := replicate connections (new_conn (k_now (w_world w))) |>
                     <| w_shared := w_shared w <| pool := p |> <| words := replicate (div_ceil connections 64) 0 |> |>);
  _ ← on_ring (arm_deadline (budget.deadline budget));
  open_all (seq 0 connections).

(** A worker before it has done anything. *)
Definition cold : Worker (Conn C) Shared :=
  mkWorker (mkWorld [] []) [] (mkShared stats.default (buf_ring.mkBufRing [] 0 0 0 0) 0 [] false).

(** [drain_final_completions] *)
Definition drain_final (cqe : Cqe) : W unit :=
  _ ← on_ring (log (Reaped cqe));
  _ ← (match cqe_buffer cqe with
       | Some bid =>
           _ ← modify (λ w, w <| w_shared := w_shared w <| pool := buf_ring.recycle (pool (w_shared w)) bid |> |>);
           on_ring (log (Recycled bid))
       | None => mret tt
       end);
  if cqe_ud cqe =? TIMEOUT_USER_DATA then mret tt
  else let '(op, i, gen) := decode_user_data (cqe_ud cqe) in at_conn i (last_cqe op gen cqe).
Definition drain_final_completions (cqes : list Cqe) : W unit := for_each cqes drain_final.

(** What follows the loop. *)
Definition finish (connections : nat) : W stats.Stats :=
  _ ← attempt (on_ring (submit_and_wait_timeout settings 0 1));
  w ← get;
  _ ← drain_final_completions (k_completions (w_world w));
  _ ← for_each (seq 0 connections) (λ i, at_conn i (_ ← say_goodbye; retire i));
  w ← get;
  mret (stats (w_shared w)).

(** [Drop for Conn]: every connection is closed, in either case. *)
Definition drop_conns (w : Worker (Conn C) Shared) : Worker (Conn C) Shared :=
  (for_each (seq 0 (length (conns w))) (λ i, at_conn i close) w).2.
Definition dropping {A} (m : W A) : W A := λ w, let '(r, w') := m w in (r, drop_conns w').

(** [run_worker], for a number of turns; [None] when they do not suffice.  The
    ring has been built and registered. *)
Definition run_worker (turns connections : nat) : W (option stats.Stats) :=
  if (connections =? 0)%nat || budget.is_empty budget then mret (Some stats.default)
  else if 2 ^ CONN_IDX_BITS <? Z.of_nat connections then lift (bail "too many connections per thread")
  else dropping (
    _ ← setup connections;
    ended ← main_loop turns;
    if (ended : bool) then s ← finish connections; mret (Some s) else mret None).
End run.
End methods.
End http2.
