(* ===== verification/Http2WorkerInv.v ===== *)
(** * What an HTTP/2 worker keeps true of one connection

    The bytes of a connection, as calls of [Http2Conn] produce them
    ([reached]); the requests in flight, which are the streams that connection
    has open ([table]); the accounts ([books]); and how a connection stands to
    the operations of the ring ([here]). *)

From S2P Require Import Prelude Effects Status Stats Inflight Target Requests Http2Conn Uring UringRun UringConn Tls TlsHandshake Http2Worker.
From stdpp Require Import relations.
#[local] Open Scope Z_scope.

(** What arrives is bytes: received buffers, and what rustls decrypts. *)
Class Octets (C : Type) `{uring.Kernel} `{ClientLaws C} : Prop := {
  buffer_octets w bid : bytes_ok (uring.k_buffer w bid);
  readable_octets c : bytes_ok (readable c);
}.

Module http2_inv.
Import uring uring_run uring_conn http2.

(** ** The bytes of a connection *)

Section trace.
Variables block body : bytes.

(** A connection that has only listened. *)
Inductive primed : http2_conn.Connection → Prop :=
| primed_new : primed http2_conn.new
| primed_feed h data ev ev' h' : primed h → bytes_ok data → http2_conn.feed h data ev = (ev', Ok h') → primed h'.

(** The connection a worker can have got to, and the output it has taken from
    it; it begins with the preface, which goes before anything queued. *)
Inductive reached : http2_conn.Connection → bytes → Prop :=
| reached_initiate h : primed h → reached (http2_conn.initiate h) []
| reached_start h b x h' : reached h b → http2_conn.start_stream h block body = Ok (x, h') → reached h' b
| reached_feed h b data ev ev' h' :
    reached h b → bytes_ok data → http2_conn.feed h data ev = (ev', Ok h') → reached h' b
| reached_pump h b h' : reached h b → http2_conn.pump_bodies h body = Ok h' → reached h' b
| reached_take h b x h' : reached h b → http2_conn.take_output h = (Some x, h') → reached h' (b ++ x).
End trace.

(** ** Histories only grow *)

Section growth.
Context `{Kernel} {C : Type} `{Client C} `{VecGrowth} {SocketAddr : Type}.
Variables (target : target.Target SocketAddr) (https : bool) (budget : budget.Budget) (parallel patience : nat).
Abbreviation grows m := (evolves (sgrows (S := Local (Conn C) Shared)) m).

Lemma h2_now_grows : grows now.
Proof. intros l. apply (reflexivity (world l)). Qed.
Lemma h2_update_stats_grows f : grows (update_stats f).
Proof. apply update_shared_sgrows. Qed.
Lemma h2_on_tls_grows {A} t (m : eff (tls.TlsSession C) error A) : grows (on_tls t m).
Proof. intros l. unfold on_tls. destruct (m t) as [r t']. apply (reflexivity (world l)). Qed.
Lemma h2_may_start_grows : grows (may_start budget).
Proof. intros l. apply (reflexivity (world l)). Qed.
Hint Resolve h2_now_grows h2_update_stats_grows h2_on_tls_grows h2_may_start_grows : rings.
Lemma h2_close_grows : grows close.
Proof. unfold close. grow_ring. Qed.
Lemma h2_fail_inflight_grows : grows fail_inflight.
Proof. unfold fail_inflight. grow_ring. Qed.
Lemma h2_timed_out_grows a b c : grows (timed_out a b c).
Proof. unfold timed_out. grow_ring. Qed.
Lemma h2_open_streams_grows fuel : ∀ h, grows (open_streams target budget parallel fuel h).
Proof. induction fuel as [|fuel IH]; intros h; cbn [open_streams]; grow_ring. Qed.
Hint Resolve h2_close_grows h2_open_streams_grows : rings.
Lemma h2_fill_streams_grows : grows (fill_streams target budget parallel).
Proof. unfold fill_streams. grow_ring. Qed.
Lemma h2_retire_grows i : grows (retire patience i).
Proof. unfold retire. grow_ring. Qed.
Lemma h2_send_out_grows i : grows (send_out i).
Proof. unfold send_out, push_send_slice. grow_ring. Qed.
Hint Resolve h2_send_out_grows : rings.
Lemma h2_flush_grows i : grows (flush i).
Proof. unfold flush. grow_ring. Qed.
Lemma h2_mark_grows i : grows (mark i).
Proof. unfold mark. grow_ring. Qed.
Lemma h2_record_success_grows r : grows (record_success r).
Proof. unfold record_success. grow_ring. Qed.
Lemma h2_take_stream_grows s : grows (take_stream s).
Proof. unfold take_stream. grow_ring. Qed.
Hint Resolve h2_record_success_grows h2_take_stream_grows : rings.
Lemma h2_process_event_grows e : grows (process_event e).
Proof. destruct e; unfold process_event; grow_ring. Qed.
Lemma h2_process_events_grows ev : grows (process_events ev).
Proof. apply evolves_for_each; [apply _|apply h2_process_event_grows]. Qed.
Lemma h2_fail_connect_grows : grows (fail_connect budget).
Proof. unfold fail_connect. grow_ring. Qed.
Lemma h2_recycle_grows b : grows (recycle b).
Proof. unfold recycle. grow_ring. Qed.
Hint Resolve h2_recycle_grows h2_fail_connect_grows : rings.
Lemma h2_recycle_any_grows b : grows (recycle_any b).
Proof. destruct b; cbn; grow_ring. Qed.
Lemma h2_data_grows b n : grows (data b n).
Proof. unfold data. grow_ring. Qed.
Lemma h2_push_recv_grows i : grows (push_recv i).
Proof. unfold push_recv, push_recv_multi. grow_ring. Qed.
Lemma h2_succeeded_grows r : grows (succeeded r).
Proof. unfold succeeded. grow_ring. Qed.
Hint Resolve h2_succeeded_grows : rings.
Lemma h2_feed_received_grows h b : grows (feed_received budget h b).
Proof. unfold feed_received. grow_ring. Qed.
Hint Resolve h2_fail_inflight_grows h2_timed_out_grows h2_fill_streams_grows h2_retire_grows h2_flush_grows h2_mark_grows h2_process_events_grows
  h2_recycle_any_grows h2_data_grows h2_push_recv_grows h2_feed_received_grows : rings.
Lemma h2_on_connect_grows i r : grows (on_connect target https budget parallel i r).
Proof. unfold on_connect. grow_ring. Qed.
Lemma h2_on_send_grows i r : grows (on_send i r).
Proof. unfold on_send, push_send_slice. grow_ring. Qed.
Lemma h2_on_recv_grows i cqe : grows (on_recv target budget parallel i cqe).
Proof. unfold on_recv. grow_ring. Qed.
Hint Resolve h2_on_connect_grows h2_on_send_grows h2_on_recv_grows : rings.
Lemma h2_on_op_grows i op cqe : grows (on_op target https budget parallel i op cqe).
Proof. unfold on_op. grow_ring. Qed.
Lemma h2_replace_grows i : grows (replace budget i).
Proof. unfold replace. grow_ring. Qed.
Hint Resolve h2_on_op_grows h2_replace_grows : rings.
Lemma h2_on_broken_grows i : grows (on_broken budget patience i).
Proof. unfold on_broken. grow_ring. Qed.
Hint Resolve h2_on_broken_grows : rings.
Lemma h2_on_cqe_grows i op g cqe : grows (on_cqe target https budget parallel patience i op g cqe).
Proof. unfold on_cqe. grow_ring. Qed.
Lemma h2_check_timeout_grows i limit at_ : grows (check_timeout budget patience i limit at_).
Proof. unfold check_timeout. grow_ring. Qed.
Lemma h2_say_goodbye_grows : grows say_goodbye.
Proof. unfold say_goodbye. grow_ring. Qed.
Lemma h2_last_cqe_grows op g cqe : grows (last_cqe op g cqe).
Proof. unfold last_cqe. grow_ring. Qed.
Lemma h2_open_first_grows i : grows (open_first i).
Proof. unfold open_first. grow_ring. Qed.
End growth.
#[export] Hint Resolve h2_now_grows h2_update_stats_grows h2_on_tls_grows h2_may_start_grows h2_close_grows h2_fail_inflight_grows h2_timed_out_grows
  h2_open_streams_grows h2_fill_streams_grows h2_retire_grows h2_send_out_grows h2_flush_grows h2_mark_grows h2_record_success_grows h2_take_stream_grows
  h2_process_events_grows h2_fail_connect_grows h2_recycle_grows h2_recycle_any_grows h2_data_grows h2_push_recv_grows h2_succeeded_grows
  h2_feed_received_grows h2_on_connect_grows h2_on_send_grows h2_on_recv_grows h2_on_op_grows h2_replace_grows h2_on_broken_grows h2_on_cqe_grows
  h2_check_timeout_grows h2_say_goodbye_grows h2_last_cqe_grows h2_open_first_grows : rings.

(** ** The requests in flight *)

Abbreviation SH := inflight.H2_SHIFT.
Abbreviation OFF := inflight.H2_OFFSET.
Abbreviation keys r := (inflight.entries SH OFF r).*1.

(** A table of requests: [n] streams were opened, and these are still open. *)
Definition table (n : Z) (ids : list Z) (r : inflight.Ring InFlight) : Prop :=
  inflight.inv SH OFF r ∧ inflight.ends_at r n ∧ keys r ≡ₚ ids.

Lemma table_len n ids r : table n ids r → inflight.len r = length ids.
Proof. intros ((_ & _ & Ho & _) & _ & Hk). unfold inflight.len. rewrite Ho, <- Hk. by rewrite length_fmap. Qed.
Lemma table_new n : table n [] inflight.new.
Proof. split_and!; [|by left|done]. split_and!; cbn; try done; lia. Qed.

Lemma keys_related (r r' : inflight.Ring InFlight) n : inflight.related (λ _ _, True) r r' → inflight.inv SH OFF r → inflight.ends_at r n →
  inflight.inv SH OFF r' ∧ inflight.ends_at r' n ∧ keys r' = keys r.
Proof.
  intros Hr Hi He. destruct (inflight.related_spec _ _ _ _ _ _ Hr Hi He) as (? & ? & Hents). split_and!; [done|done|].
  clear -Hents. induction Hents as [|e e' l l' [H1 _] Hl IH]; [done|]. cbn. by f_equal.
Qed.
Lemma table_modify n ids r s f : table n ids r → table n ids (inflight.modify SH OFF r s f).
Proof.
  intros (Hi & He & Hk). pose proof (inflight.modify_pointwise SH OFF (λ _ _, True) r s f (λ _, I) (λ _, I)) as Hr.
  destruct (keys_related _ _ n Hr Hi He) as (? & ? & Hk'). split_and!; [done|done|by rewrite Hk'].
Qed.
Lemma table_push n ids r x :
  table n ids r → 0 ≤ n → table (n + 1) (ids ++ [2 * n + 1]) (inflight.push SH r (2 * n + 1) x) ∧
    inflight.len (inflight.push SH r (2 * n + 1) x) = S (inflight.len r).
Proof.
  intros (Hi & He & Hk) Hn. assert (2 * n + 1 = inflight.id_of SH OFF n) as -> by (unfold inflight.id_of, SH, OFF; lia).
  destruct (inflight.push_entries SH OFF http2_conn.SH_ok http2_conn.OFF_ok r n x Hi He Hn) as [Hents Hi'].
  split; [|done]. split_and!; [done|by apply (inflight.push_ends SH OFF http2_conn.SH_ok http2_conn.OFF_ok)|]. by rewrite Hents, fmap_app, Hk.
Qed.
(** Taking a stream that is open. *)
Lemma table_take n ids r s :
  table n (s :: ids) r → ∃ x r', inflight.take SH OFF r s = (Some x, r') ∧ table n ids r' ∧ inflight.len r = S (inflight.len r').
Proof.
  intros Ht. pose proof Ht as (Hi & He & Hk). pose proof (inflight.take_ends SH OFF http2_conn.SH_ok http2_conn.OFF_ok r s n Hi He) as Hend.
  assert (is_Some (inflight.get SH OFF r s)) as [x Hx].
  { rewrite inflight.get_abs; [|done..]. unfold inflight.abs.
    assert (s ∈ keys r) as ([s' x] & Heq & Hin)%list_elem_of_fmap by (rewrite Hk; by left). cbn in Heq. subst s'. exists x.
    apply fin_maps.elem_of_list_to_map_1; [|done]. by apply inflight.entries_NoDup. }
  destruct (inflight.take_hit SH OFF http2_conn.SH_ok http2_conn.OFF_ok r s x Hi Hx) as (Hf & Hi' & pre & post & E & E').
  destruct (inflight.take SH OFF r s) as [y r'] eqn:Et. cbn in *. subst y. exists x, r'. split; [done|].
  assert (table n ids r') as Ht'.
  { split_and!; [done|done|]. rewrite E', fmap_app. rewrite E, fmap_app in Hk. cbn in Hk. rewrite <- Permutation_middle in Hk.
    by apply Permutation_cons_inv in Hk. }
  split; [done|]. by rewrite (table_len _ _ _ Ht), (table_len _ _ _ Ht').
Qed.

(** ** Accounts *)

Section accounts.
Context `{Kernel} {C : Type} `{CL : ClientLaws C} `{VecGrowth} {SocketAddr : Type}.
Variables (target : target.Target SocketAddr) (budget : budget.Budget).
Abbreviation L := (Local (Conn C) Shared).
Abbreviation M := (eff L error).

Definition finished (x : Shared) : Z := stats.completed (stats x) + stats.errors (stats x).
(** The requests a connection owes: in flight, or given back and not released. *)
Definition weight (c : Conn C) : Z := Z.of_nat (inflight.len (streams c)) + Z.max 0 (held c).
Lemma weight_nonneg c : 0 ≤ weight c.
Proof. unfold weight. lia. Qed.

(** Every request started is finished, owed by this connection, or one of the
    [others]; there are at most [cap] of them, and no more than the budget. *)
Record books (others cap : Z) (l : L) : Prop := {
  b_completed : 0 ≤ stats.completed (stats (shared l));
  b_errors : 0 ≤ stats.errors (stats (shared l));
  b_held : 0 ≤ held (self l);
  b_balance : finished (shared l) + weight (self l) + others = started (shared l);
  b_others : 0 ≤ others;
  b_cap : started (shared l) ≤ cap < 2 ^ 64;
  b_budget : match budget with budget.Requests n => started (shared l) ≤ n | budget.Duration _ => True end;
}.

(** What accounting leaves alone. *)
Record kept (l l' : L) : Prop := {
  k_ring : world l' = world l;
  k_fd : fd (self l') = fd (self l);
  k_connected : connected (self l') = connected (self l);
  k_h2 : h2 (self l') = h2 (self l);
  k_tls : tls (self l') = tls (self l);
  k_out : out (self l') = out (self l);
  k_out_off : out_off (self l') = out_off (self l);
  k_sending : sending (self l') = sending (self l);
  k_recv : recv_armed (self l') = recv_armed (self l);
  k_generation : generation (self l') = generation (self l);
  k_words : words (shared l') = words (shared l);
  k_stop : stop (shared l') = stop (shared l);
}.
#[global] Instance h2_kept_preorder : PreOrder kept.
Proof. split; [by intros l; split|]. intros l1 l2 l3 [] []. split; congruence. Qed.

Lemma books_same o cap l l' :
  books o cap l → stats.completed (stats (shared l')) = stats.completed (stats (shared l)) →
  stats.errors (stats (shared l')) = stats.errors (stats (shared l)) → started (shared l') = started (shared l) →
  streams (self l') = streams (self l) → held (self l') = held (self l) → books o cap l'.
Proof.
  intros [] E1 E2 E3 E4 E5. unfold finished, weight in *. split; unfold finished, weight; rewrite ?E1, ?E2, ?E3, ?E4, ?E5; done.
Qed.
Lemma books_cap o cap cap' l : books o cap l → cap ≤ cap' < 2 ^ 64 → books o cap' l.
Proof. intros [] ?. split; try done. lia. Qed.

Lemma fail_connect_run o cap l : books o cap l → cap + 1 < 2 ^ 64 →
  ∃ l', fail_connect budget l = (Ok tt, l') ∧ books o (cap + 1) l' ∧ kept l l' ∧ self l' = self l ∧
    started (shared l) ≤ started (shared l').
Proof.
  intros Hb Hc. unfold fail_connect. rewrite bind_run. unfold may_start. rewrite bind_run. cbn [get mret eff_ret].
  destruct (budget.may_start budget (started (shared l))) eqn:Hms; cbn [when].
  2: { exists l. split; [done|]. split; [apply (books_cap o cap); [done|lia]|done]. }
  eexists. split; [reflexivity|]. destruct Hb. unfold finished, weight in *. split; [|split; [by split|split; [done|]]].
  - split; unfold finished, weight; cbn; rewrite ?u64_small by lia; try lia. destruct budget as [n|]; [|done]. apply Z.ltb_lt in Hms. lia.
  - cbn. rewrite u64_small by lia. lia.
Qed.

Lemma fail_inflight_run o cap l : books o cap l →
  ∃ l', fail_inflight l = (Ok tt, l') ∧ books o cap l' ∧ kept l l' ∧ started (shared l') = started (shared l) ∧
    self l' = self l <| streams := inflight.clear (streams (self l)) |> <| held := 0 |>.
Proof.
  intros []. eexists. split; [reflexivity|]. split; [|split; [by split|done]].
  unfold finished, weight in *. split; unfold finished, weight; cbn; rewrite ?u64_small by lia; try done; try lia.
Qed.

Lemma h2_record_success_run r (l : L) :
  match record_success r l with
  | (Ok _, l') => ∃ s, l' = l <| shared := shared l <| stats := s |> |> ∧ stats.errors s = stats.errors (stats (shared l)) ∧
      stats.completed s = u64 (stats.completed (stats (shared l)) + 1)
  | (Err _, _) => True
  end.
Proof.
  unfold record_success. rewrite bind_run. cbn [get]. rewrite bind_run. unfold stats.record_success.
  destruct (_ !! _) as [n|]; [|done]. cbn. eexists. done.
Qed.

(** A request whose stream has ended. *)
Lemma take_stream_run n ids s (l : L) :
  table n (s :: ids) (streams (self l)) →
  ∃ x r, take_stream s l = (Ok (Some x), l <| self := self l <| streams := r |> |>) ∧ table n ids r ∧
    inflight.len (streams (self l)) = S (inflight.len r).
Proof.
  intros Ht. destruct (table_take _ _ _ _ Ht) as (x & r & E & ? & ?). exists x, r. split; [|done].
  unfold take_stream. rewrite bind_run. unfold me. rewrite bind_run. cbn [get mret eff_ret]. by rewrite E.
Qed.

Lemma process_event_run o cap n ids e l :
  books o cap l → table n (http2_conn.ended [e] ++ ids) (streams (self l)) →
  match process_event e l with
  | (Ok _, l') => books o cap l' ∧ kept l l' ∧ table n ids (streams (self l')) ∧ started (shared l') ≤ started (shared l) ∧
      (∀ b, b = true → goaway (self l) = b → goaway (self l') = b)
  | (Err _, _) => True
  end.
Proof.
  intros Hb Ht. destruct e as [s st|s|s|s|]; cbn in Ht; cbn [process_event].
  - cbn. split; [|split; [by split|split; [by apply table_modify|by split]]].
    pose proof (table_len _ _ _ Ht) as Hl. pose proof (table_len _ _ _ (table_modify _ _ _ s (λ r, mkInFlight (start r) st) Ht)) as Hl'.
    destruct Hb. split; unfold weight in *; cbn; try done. rewrite Hl', <- Hl. done.
  - destruct (take_stream_run n ids s l Ht) as (x & r & Hrun & Ht' & Hlen). rewrite bind_run, Hrun. destruct (status x =? 0).
    + cbn. split; [|split; [by split|split; [done|by split]]]. destruct Hb. unfold finished, weight in *.
      split; unfold finished, weight; cbn; rewrite ?u64_small by lia; try done; try lia.
    + rewrite bind_run. set (l1 := l <| self := _ |>). pose proof (h2_record_success_run x l1) as Hs. destruct (record_success x l1) as [[[]|?] l2]; [|done].
      destruct Hs as (s' & -> & He & Hcp). destruct Hb. unfold finished, weight in *. cbn in He, Hcp. rewrite u64_small in Hcp by lia.
      assert (u64 (started (shared l) - held (self l)) = started (shared l) - held (self l)) as Hst by (apply u64_small; lia).
      rewrite bind_run. unfold update at 1. cbn [modify]. rewrite bind_run. unfold me at 1. rewrite bind_run. cbn [get mret eff_ret].
      rewrite bind_run. cbn. split; [|split; [by split|split; [done|split; [rewrite Hst; lia|done]]]].
      split; unfold finished, weight; cbn; rewrite ?Hcp, ?He, ?Hst; try done; try lia. destruct budget; lia || done.
  - destruct (take_stream_run n ids s l Ht) as (x & r & Hrun & Ht' & Hlen). rewrite bind_run, Hrun. cbn. split; [|split; [by split|split; [done|by split]]].
    destruct Hb. unfold finished, weight in *. split; unfold finished, weight; cbn; rewrite ?u64_small by lia; try done; try lia.
  - destruct (take_stream_run n ids s l Ht) as (x & r & Hrun & Ht' & Hlen). rewrite bind_run, Hrun.
    set (l1 := l <| self := _ |>). change ((me ≫= _) l1) with ((if 0 <? answered (self l1)
      then update_shared (λ x, x <| started := u64 (started x - 1) |>) else update (λ c, c <| held := u64 (held c + 1) |>)) l1).
    destruct Hb. unfold finished, weight in *. destruct (0 <? answered (self l1)); cbn.
    + split; [|split; [by split|split; [done|split; [rewrite u64_small by lia; lia|done]]]].
      split; unfold finished, weight; cbn; rewrite ?u64_small by lia; try done; try lia. destruct budget; lia || done.
    + split; [|split; [by split|split; [done|by split]]].
      split; unfold finished, weight; cbn; rewrite ?u64_small by lia; try done; try lia.
  - cbn. split; [|split; [by split|split; [done|]]]; [by apply (books_same o cap l)|]. split; [done|]. by intros b ->.
Qed.

Lemma process_events_run o cap n ids ev l :
  books o cap l → table n (http2_conn.ended ev ++ ids) (streams (self l)) →
  match process_events ev l with
  | (Ok _, l') => books o cap l' ∧ kept l l' ∧ table n ids (streams (self l')) ∧ started (shared l') ≤ started (shared l)
  | (Err _, _) => True
  end.
Proof.
  revert l. induction ev as [|e ev IH]; intros l Hb Ht; unfold process_events; cbn [for_each]; [done|]. rewrite bind_run.
  pose proof (process_event_run o cap n (http2_conn.ended ev ++ ids) e l Hb) as He.
  change (e :: ev) with ([e] ++ ev) in Ht. rewrite http2_conn.ended_app, <- app_assoc in Ht. specialize (He Ht).
  destruct (process_event e l) as [[[]|x] l1]; [|done]. destruct He as (Hb1 & Hk1 & Ht1 & Hs1 & _).
  specialize (IH l1 Hb1 Ht1). unfold process_events in IH. destruct (for_each ev process_event l1) as [[[]|x] l2]; [|done].
  destruct IH as (? & ? & ? & ?). split; [done|]. split; [by etrans|]. split; [done|lia].
Qed.
End accounts.

(** ** How a connection stands to the ring *)

Section links.
Context `{Kernel} {C : Type} `{CL : ClientLaws C} `{VecGrowth} {SocketAddr : Type}.
Variables (target : target.Target SocketAddr) (https : bool).
Abbreviation L := (Local (Conn C) Shared).
Abbreviation M := (eff L error).
Abbreviation events l := (hist (world l)).
Abbreviation reached := (reached (requests.build_header_block target) (target.body target)).
Abbreviation ud i c op := (user_data i (generation c) op).

(** What is with the kernel of the bytes being sent. *)
Definition unsent (c : Conn C) : bytes := if sending c then drop (out_off c) (out c) else [].

(** What a connection has said: nothing while it shakes hands. *)
Definition said (c : Conn C) (h : http2_conn.Connection) (b : bytes) : Prop :=
  match tls c with
  | Some t => tls_handshake.tidy (tls.conn t) ∧ if tls.is_handshaking t then h = http2_conn.new ∧ b = [] else reached h b
  | None => reached h b
  end.
(** What a socket has been sent and is being sent is all the output taken from
    its connection; under TLS, all that rustls made of it. *)
Definition bytes_of (c : Conn C) (h : http2_conn.Connection) (v : View) : Prop :=
  ∃ b, said c h b ∧ (sending c = true → (out_off c < length (out c))%nat) ∧
    match tls c with
    | None => https = false ∧ sent v ++ unsent c = b
    | Some t => https = true ∧ tls.session_ok t ∧ tls.written t = b ∧ sent v ++ unsent c = emitted (tls.conn t)
    end.
(** What a socket may be sent. *)
Definition legit (b : bytes) : Prop :=
  b = [] ∨
  if https then ∃ t : tls.TlsSession C, emitted (tls.conn t) = b ∧ (tls.written t = [] ∨ ∃ h, reached h (tls.written t))
  else ∃ h, reached h b.

Definition up (i : nat) (c : Conn C) (v : View) : Prop :=
  0 ≤ fd c ∧ connected c = true ∧ connects v = [] ∧
  recvs v = (if recv_armed c then [RecvMulti i (ud i c OP_RECV)] else []) ∧
  sends v = (if sending c then [Send i (ud i c OP_SEND) (unsent c)] else []) ∧
  ∃ h n, h2 c = Some h ∧ http2_conn.conn_ok n h ∧ table n (http2_conn.ids (http2_conn.open h)) (streams c) ∧ bytes_of c h v.

(** Nothing received, nothing sent, nothing owed. *)
Definition bare (c : Conn C) (v : View) : Prop :=
  connected c = false ∧ h2 c = None ∧ tls c = None ∧ sending c = false ∧ recv_armed c = false ∧
  streams c = inflight.new ∧ held c = 0 ∧ recvs v = [] ∧ sends v = [] ∧ sent v = [].
Definition idle (c : Conn C) (v : View) : Prop := fd c = -1 ∧ bare c v ∧ connects v = [].
Definition connecting (i : nat) (c : Conn C) (v : View) : Prop :=
  0 ≤ fd c ∧ bare c v ∧ connects v = [Connect i (ud i c OP_CONNECT)].
Definition here (i : nat) (c : Conn C) (v : View) : Prop := idle c v ∨ connecting i c v ∨ up i c v.

Abbreviation past := (within legit).
(** A slot at the connection's generation. *)
Abbreviation at_slot P i l := (slot past P (events l) i (generation (self l))).

Lemma up_past i c v : up i c v → past v.
Proof.
  intros (_ & _ & _ & _ & Hs & h & n & _ & _ & _ & b & Hr & Hlt & Hb). unfold said, unsent, within, legit in *.
  destruct (tls c) as [t|].
  - destruct Hb as (-> & _ & <- & Hem). exists (emitted (tls.conn t)). split; [|rewrite Hs, <- Hem; destruct (sending c); [done|by rewrite app_nil_r]].
    right. exists t. split; [done|]. destruct Hr as [_ Hr], (tls.is_handshaking t); [by left; destruct Hr as [_ ?]|right; by exists h].
  - destruct Hb as (-> & Hb). exists b. split; [right; by exists h|]. rewrite Hs, <- Hb. destruct (sending c); [done|by rewrite app_nil_r].
Qed.
Lemma bare_past c v : bare c v → past v.
Proof. intros (_ & _ & _ & _ & _ & _ & _ & _ & Hs & Hw). exists []. split; [by left|]. by rewrite Hs, Hw. Qed.

(** Whether everything queued has gone to the kernel. *)
Definition settled (c : Conn C) : Prop :=
  sending c = true ∨ ∀ h, h2 c = Some h → http2_conn.out h = [] ∧
    ∀ t, tls c = Some t → wants_write (tls.conn t) = false ∧ (tls.pending_plaintext t = [] ∨ tls.refused t).

(** What flushing leaves alone. *)
Record steady (l l' : L) : Prop := {
  y_shared : shared l' = shared l;
  y_fd : fd (self l') = fd (self l);
  y_connected : connected (self l') = connected (self l);
  y_recv : recv_armed (self l') = recv_armed (self l);
  y_generation : generation (self l') = generation (self l);
  y_streams : streams (self l') = streams (self l);
  y_held : held (self l') = held (self l);
}.

(** Bytes that go to the kernel. *)
Lemma send_out_ok i l P :
  at_slot P i l →
  (∀ v, P v → up i (self l <| out_off := 0%nat |> <| sending := true |>)
                (v <| sends := Send i (ud i (self l) OP_SEND) (out (self l)) :: sends v |>)) →
  ok i (send_out i) l (λ _ l', (∃ w', l' = l <| world := w' |> <| self := self l <| out_off := 0%nat |> <| sending := true |> |>) ∧
    at_slot (up i (self l')) i l').
Proof.
  intros Hs Hup. unfold send_out. eapply ok_pure; [reflexivity|reflexivity|]. eapply ok_pure; [reflexivity|reflexivity|]. cbn [self].
  set (e := Send i (ud i (self l) OP_SEND) (out (self l))). eapply (ok_ring i _ [e]).
  - apply push_sqe_queues.
  - intros Hsd. eapply (slot_of_conn past P _ i _ OP_SEND); [exact Hsd|exact Hs|done|done].
  - intros a w' Hsd Hd. split; [by exists w'|]. cbn. eapply (slot_push past P _ _ _ i _ OP_SEND e); [done|exact Hs|exact Hd|done|done|].
    intros v Hv. exact (Hup v Hv).
Qed.

Lemma take_output_some h b h' : http2_conn.take_output h = (Some b, h') → b ≠ [] ∧ h' = http2_conn.set_out [] h.
Proof. unfold http2_conn.take_output. case_bool_decide; [done|]. by intros [= <- <-]. Qed.
Lemma take_output_none h h' : http2_conn.take_output h = (None, h') → http2_conn.out h = [] ∧ h' = h.
Proof. unfold http2_conn.take_output. case_bool_decide; [|done]. by intros [= <-]. Qed.
End links.
End http2_inv.
