(* ===== verification/Http2WorkerRun.v ===== *)
(** * Handling one completion of an HTTP/2 worker

    Every handler keeps the invariant of [Http2WorkerInv.v]: the frames said so
    far, the table of requests and the accounts; and marks the connections that
    have something to say. *)

From S2P Require Import Prelude Effects Status Stats Inflight Target Requests Http2Conn Uring UringRun UringConn Tls TlsHandshake Http2Worker Http2WorkerInv.
From stdpp Require Import relations.
#[local] Open Scope Z_scope.

Module http2_run.
Import uring uring_run uring_conn http2 http2_inv.

Section methods.
Context `{Kernel} {C : Type} `{CL : ClientLaws C} `{VecGrowth} `{!Octets C} `{!HandshakeLaws C} {SocketAddr : Type}.
Variables (target : target.Target SocketAddr) (https : bool) (budget : budget.Budget) (parallel patience : nat).
Abbreviation L := (Local (Conn C) Shared).
Abbreviation M := (eff L error).
Abbreviation events l := (hist (world l)).
Abbreviation block := (requests.build_header_block target).
Abbreviation body := (target.body target).
Abbreviation reached := (reached block body).
Abbreviation up := (up target https).
Abbreviation here := (here target https).
Abbreviation bytes_of := (bytes_of target https).
Abbreviation past := (within (legit (C := C) target https)).
Abbreviation at_slot P i l := (slot past P (events l) i (generation (self l))).
Abbreviation ud i c op := (user_data i (generation c) op).
Abbreviation ids h := (http2_conn.ids (http2_conn.open h)).

(** [up], given the connection. *)
Lemma up_with i c v h :
  h2 c = Some h → up i c v →
  sends v = (if sending c then [Send i (ud i c OP_SEND) (unsent c)] else []) ∧
  ∃ n, http2_conn.conn_ok n h ∧ table n (ids h) (streams c) ∧ bytes_of c h v.
Proof. intros Hh (_ & _ & _ & _ & Hs & h' & n & Hh' & ? & ? & ?). assert (h' = h) as -> by congruence. split; [done|]. by exists n. Qed.

(** Another connection state behind the same links. *)
Lemma up_change i c c' v v' h h' :
  up i c v → h2 c = Some h → h2 c' = Some h' →
  fd c' = fd c → connected c' = connected c → recv_armed c' = recv_armed c → generation c' = generation c →
  connects v' = connects v → recvs v' = recvs v →
  sends v' = (if sending c' then [Send i (ud i c' OP_SEND) (unsent c')] else []) →
  (∀ n, http2_conn.conn_ok n h → table n (ids h) (streams c) →
     ∃ n', http2_conn.conn_ok n' h' ∧ table n' (ids h') (streams c')) →
  (bytes_of c h v → bytes_of c' h' v') → up i c' v'.
Proof.
  intros Hu Hh Hh' Ef Ec Er Eg E1 E2 Es Hn Hb. pose proof (up_with _ _ _ _ Hh Hu) as (_ & n & Hok & Ht & Hby).
  destruct Hu as (? & ? & ? & Hr & _). destruct (Hn n Hok Ht) as (n' & Hok' & Ht'). unfold http2_inv.up.
  rewrite Ef, Ec, Er, Eg, E1, E2. split_and!; try done; [by rewrite Es, Eg|]. exists h', n'. auto.
Qed.

(** *** Flushing *)

Lemma flush_plain i l h :
  at_slot (up i (self l)) i l → sending (self l) = false → h2 (self l) = Some h → tls (self l) = None →
  let '(buf, h') := http2_conn.take_output h in
  ok i (match buf with Some buf => _ ← update (λ c, c <| out := buf |>); send_out i | None => mret tt end)
    (l <| self := self l <| h2 := Some h' |> |>)
    (λ _ l', at_slot (up i (self l')) i l' ∧ steady l l' ∧ settled (self l')).
Proof.
  intros Hs Hsd Hh Ht. destruct (http2_conn.take_output h) as [buf h'] eqn:Et. set (l1 := l <| self := _ |>). destruct buf as [buf|].
  - destruct (take_output_some _ _ _ Et) as [Hne ->]. eapply ok_pure; [reflexivity|reflexivity|]. set (l2 := l1 <| self := _ |>).
    eapply ok_mono; [apply (send_out_ok target https i l2 (up i (self l))); [exact Hs|]|].
    + intros v Hu. pose proof (up_with _ _ _ _ Hh Hu) as (Hsn & _). rewrite Hsd in Hsn.
      eapply (up_change i (self l) _ v _ h (http2_conn.set_out [] h)); [exact Hu|done..| | |].
      * cbn. by rewrite Hsn.
      * intros n Hok Htb. exists n. destruct (http2_conn.conn_ok_out n h [] Hok) as [? E]. by rewrite E.
      * intros (b & Hr & _ & Hb). unfold http2_inv.bytes_of, said, unsent in *. cbn in *. rewrite Ht, Hsd in *. destruct Hb as [Hhs Hb]. rewrite app_nil_r in Hb.
        exists (b ++ buf). split; [by eapply reached_take|]. split; [intros _; destruct buf; [done|cbn; lia]|]. split; [done|]. by rewrite Hb.
    + intros _ l' _ [(w' & ->) Hsl]. split; [exact Hsl|]. split; [by split|by left].
  - destruct (take_output_none _ _ Et) as [Ho ->]. apply ok_ret. intros _. split; [|split; [by split|]].
    + eapply slot_weaken; [exact Hs|]. intros v Hu. pose proof (up_with _ _ _ _ Hh Hu) as (Hsn & _).
      by eapply (up_change i (self l) _ v v h h); [exact Hu|done..| |intros n ? ?; exists n|].
    + right. cbn. intros h0 [= <-]. split; [done|]. rewrite Ht. done.
Qed.

Lemma flush_tls i l h t :
  at_slot (up i (self l)) i l → sending (self l) = false → h2 (self l) = Some h → tls (self l) = Some t →
  let '(buf, h') := http2_conn.take_output h in
  ok i (_ ← (match buf with Some buf => on_tls t (tls.write_plaintext buf) | None => mret tt end);
        c ← me;
        t ← lift (match tls c with Some t => Ok t | None => panic "unwrap on None" end);
        bytes ← on_tls t tls.take_ciphertext_into;
        _ ← update (λ c, c <| out := bytes |>);
        if bool_decide (bytes = []) then mret tt else send_out i)
    (l <| self := self l <| h2 := Some h' |> |>)
    (λ _ l', at_slot (up i (self l')) i l' ∧ steady l l' ∧ settled (self l')).
Proof.
  intros Hs Hsd Hh Ht. pose proof (s_here Hs) as Hu0. pose proof (up_with _ _ _ _ Hh Hu0) as (_ & _ & _ & _ & b0 & Hr0 & _ & Hb0).
  rewrite Ht in Hb0. destruct Hb0 as (Hhs & Hok & Hw0 & _).
  destruct (http2_conn.take_output h) as [buf h'] eqn:Et. set (l1 := l <| self := _ |>).
  (* after the output of the connection was handed over *)
  assert (h' = http2_conn.set_out [] h ∧ ∀ t', tls.is_handshaking t' = tls.is_handshaking t → tls.same_input t t' →
    said target (self l <| tls := Some t' |>) h' (tls.written t ++ default [] buf)) as [Eh' Hr'].
  { unfold said in *. rewrite Ht in Hr0. cbn. split.
    - destruct buf as [buf|]; [by destruct (take_output_some _ _ _ Et) as [_ ->]|]. destruct (take_output_none _ _ Et) as [Ho ->]. rewrite <- Ho. by destruct h.
    - destruct Hr0 as [Htd Hr0]. intros t' Hph (Hrd & Hdc & _). rewrite Hph. unfold tls_handshake.tidy. rewrite Hrd, Hdc. split; [exact Htd|].
      destruct (tls.is_handshaking t).
      + destruct Hr0 as [-> ->]. destruct (take_output_none http2_conn.new h') as [_ ->]; [by destruct buf|].
        destruct buf; [done|]. by rewrite Hw0.
      + destruct buf as [buf|]; cbn; rewrite Hw0; [by eapply reached_take|]. destruct (take_output_none _ _ Et) as [_ ->]. by rewrite app_nil_r. }
  eapply (ok_bind i _ _ _ (λ _ l', ∃ t', l' = l1 <| self := self l1 <| tls := Some t' |> |> ∧ tls.session_ok t' ∧
    tls.written t' = tls.written t ++ default [] buf ∧ emitted (tls.conn t') = emitted (tls.conn t) ∧ tls.same_input t t' ∧
    tls.is_handshaking t' = tls.is_handshaking t)); [|intros; grow_ring|].
  { destruct buf as [buf|]; [|apply ok_ret; intros _; exists t; split; [|by rewrite app_nil_r]; subst l1; destruct l as [? []]; cbn in *; by rewrite Ht].
    unfold on_tls. pose proof (tls.write_plaintext_safe buf t Hok) as Hwp. unfold tls.safe, holds in Hwp.
    pose proof (tls_handshake.write_plaintext_phase buf t) as Hph.
    destruct (tls.write_plaintext buf t) as [r t']. eapply ok_pure; [reflexivity|reflexivity|]. apply ok_lift. intros [] ->.
    destruct Hwp as (? & ? & ? & ?). by exists t'. }
  intros _ l2 _ _ (t1 & -> & Hok1 & Hw1 & Hem1 & Hin1 & Hph1). eapply ok_pure; [reflexivity|reflexivity|]. eapply ok_pure; [reflexivity|reflexivity|].
  unfold on_tls at 1. pose proof (tls.take_ciphertext_safe t1 Hok1) as Htk. unfold tls.safe, holds in Htk.
  pose proof (tls_handshake.take_ciphertext_phase t1) as Hph2.
  destruct (tls.take_ciphertext_into t1) as [r t2]. unfold ok, holds. rewrite bind_run. rewrite bind_run. cbn [update modify lift]. unfold update. cbn [modify].
  destruct r as [o|e]; [|done]. destruct Htk as (Hok2 & Hin2 & Hw2 & Hww & (b2 & -> & Hem2) & Href). cbn [app] in *. rewrite bind_run. cbn [modify].
  match goal with |- context [(if _ then _ else _) ?x] => set (l3 := x) end.
  match goal with |- match ?m with _ => _ end => change (ok i (if bool_decide (b2 = []) then mret tt else send_out i) l3
    (λ _ l', at_slot (up i (self l')) i l' ∧ steady l l' ∧ settled (self l'))) end.
  assert (∀ c' v v', up i (self l) v → h2 c' = Some h' → tls c' = Some t2 → fd c' = fd (self l) → connected c' = connected (self l) →
    recv_armed c' = recv_armed (self l) → generation c' = generation (self l) → streams c' = streams (self l) →
    connects v' = connects v → recvs v' = recvs v → sends v' = (if sending c' then [Send i (ud i c' OP_SEND) (unsent c')] else []) →
    (sending c' = true → (out_off c' < length (out c'))%nat) → sent v' = sent v → unsent c' = b2 → up i c' v') as Hgo.
  { intros c' v v' Hu E1 E2 E3 E4 E5 E6 E7 E8 E9 E10 E11 E12 E13.
    eapply (up_change i (self l) c' v v' h h'); try done.
    - intros n Hn Htb. exists n. subst h'. destruct (http2_conn.conn_ok_out n h [] Hn) as [? E]. rewrite E7. by rewrite E.
    - intros (b & Hr & _ & Hb). unfold http2_inv.bytes_of. rewrite Ht in Hb. destruct Hb as (_ & _ & Hb & Hem). unfold unsent at 1 in Hem.
      rewrite Hsd, app_nil_r in Hem. exists (tls.written t ++ default [] buf).
      split; [unfold said; rewrite E2; apply (Hr' t2); [unfold tls_handshake.same_phase in Hph2; cbn in Hph2; congruence|by etrans]|]. split; [done|]. rewrite E2.
      split; [done|]. split; [done|]. split; [congruence|]. by rewrite E12, E13, Hem, Hem2, Hem1. }
  case_bool_decide as Hb2.
  - apply ok_ret. intros _. split; [|split; [by split|]].
    + eapply slot_weaken; [exact Hs|]. intros v Hu. pose proof (up_with _ _ _ _ Hh Hu) as (Hsn & _). rewrite Hsd in Hsn.
      apply (Hgo (self l3) v v Hu); try done; cbn; unfold unsent; cbn; rewrite Hsd; try done.
    + right. intros h0 [= <-]. subst h'. split; [done|]. by intros t0 [= <-].
  - eapply ok_mono; [apply (send_out_ok target https i l3 (up i (self l))); [exact Hs|]|].
    + intros v Hu. pose proof (up_with _ _ _ _ Hh Hu) as (Hsn & _). rewrite Hsd in Hsn.
      apply (Hgo _ v _ Hu); try done; cbn; [by rewrite Hsn|]. intros _. destruct b2; [done|cbn; lia].
    + intros _ l' _ [(w' & ->) Hsl]. split; [exact Hsl|]. split; [by split|by left].
Qed.

Lemma flush_settles i l :
  at_slot (up i (self l)) i l → ok i (flush i) l (λ _ l', at_slot (up i (self l')) i l' ∧ steady l l' ∧ settled (self l')).
Proof.
  intros Hs. unfold flush. eapply ok_pure; [reflexivity|reflexivity|]. destruct (sending (self l)) eqn:Hsd.
  { apply ok_ret. intros _. split; [done|]. split; [by split|by left]. }
  pose proof (s_here Hs) as (_ & _ & _ & _ & _ & h & n & Hh & _). rewrite Hh.
  destruct (tls (self l)) as [t|] eqn:Ht.
  - pose proof (flush_tls i l h t Hs Hsd Hh Ht) as Hf. destruct (http2_conn.take_output h) as [buf h'].
    eapply ok_pure; [reflexivity|reflexivity|]. exact Hf.
  - pose proof (flush_plain i l h Hs Hsd Hh Ht) as Hf. destruct (http2_conn.take_output h) as [buf h'].
    eapply ok_pure; [reflexivity|reflexivity|]. exact Hf.
Qed.

(** *** Closing and connecting *)

(** What is left of a connection that was closed. *)
Definition closed (i : nat) (l l' : L) : Prop :=
  at_slot (idle (self l')) i l' ∧ shared l' = shared l ∧ streams (self l') = inflight.new ∧ held (self l') = 0 ∧
  connected (self l') = false ∧ h2 (self l') = None ∧ (length (events l) < length (events l'))%nat.

Lemma close_ends i l P :
  at_slot P i l → 0 ≤ fd (self l) → (∀ v, P v → past v) → ok i close l (λ _ l', closed i l l').
Proof.
  intros Hs Hfd Hp. unfold close. eapply ok_pure; [reflexivity|reflexivity|]. rewrite when_true by by apply Z.leb_le.
  eapply (ok_bind i _ _ _ (λ _ l', ∃ w', l' = l <| world := w' |> <| self := self l <| fd := -1 |> |> ∧ did [] (events l) (hist w') ∧
    (length (events l) < length (hist w'))%nat)); [|intros; grow_ring|].
  - apply ok_log; [done|]. eapply ok_pure_last; [reflexivity|reflexivity|]. intros _. eexists. split; [reflexivity|].
    split; [by apply did_neutral|cbn; lia].
  - intros _ l1 Hs1 _ (w' & -> & Hd & Hlen). eapply ok_pure; [reflexivity|reflexivity|]. eapply ok_pure_last; [reflexivity|reflexivity|].
    intros _. cbn [world] in Hs1. pose proof (slot_quiet past P _ _ _ _ Hs1 Hd Hs) as Hsl.
    split; [|by split_and!]. eapply slot_weaken; [eapply slot_next; [exact Hs1|exact Hsl| |apply Hp, Hsl]|].
    + pose proof (s_gen Hs). cbn. lia.
    + intros v ->. by split_and!.
Qed.

Lemma h2_retire_ends i l P :
  at_slot P i l → 0 ≤ fd (self l) → (∀ v, P v → past v) → ok i (retire patience i) l (λ _ l', closed i l l').
Proof.
  intros Hs Hfd Hp. unfold retire. eapply ok_pure; [reflexivity|reflexivity|]. rewrite when_true by by apply Z.leb_le.
  assert (∀ {A} (m : eff World error A) (l1 : L), queues m [] → at_slot P i l1 →
    ok i (on_ring m) l1 (λ _ l', at_slot P i l' ∧ ∃ w', l' = l1 <| world := w' |>)) as Hq.
  { intros A m l1 Hm Hs1. apply ok_quiet; [done|]. intros a w' Hsd Hd. split; [|by exists w']. by eapply slot_quiet. }
  eapply (ok_bind i _ _ _ (λ _ l', at_slot P i l' ∧ ∃ w', l' = l <| world := w' |>)); [|intros; grow_ring|].
  - eapply ok_bind; [apply Hq; [apply drain_sq_queues|done]|intros; grow_ring|]. intros _ l1 _ _ (Hs1 & w1 & ->).
    eapply ok_bind; [apply Hq; [apply sync_cancel_queues|done]|intros; grow_ring|]. intros _ l2 _ _ (Hs2 & w2 & ->).
    eapply ok_mono; [apply Hq; [apply register_files_update_queues|done]|]. intros _ l3 _ (? & w3 & ->). split; [done|by exists w3].
  - intros _ l1 _ Hf (Hs1 & w1 & ->). apply frame_length in Hf. eapply ok_mono; [by apply (close_ends i _ P)|].
    intros [] l2 _ (? & ? & ? & ? & ? & ? & ?). split_and!; try done. cbn in *. lia.
Qed.

(** Whether a connection has a socket, or needs none. *)
Definition provided (l : L) : Prop :=
  stop (shared l) = true ∨ 0 ≤ fd (self l) ∨ budget.may_start budget (started (shared l)) = false.

Definition stranded (l : L) : Prop := fd (self l) = -1 ∧ budget.may_start budget (started (shared l)) = true.

Lemma replace_provides i l :
  at_slot (idle (self l)) i l →
  ok i (replace budget i) l (λ f l', at_slot (here i (self l')) i l' ∧ shared l' = shared l ∧
    (∃ f', self l' = self l <| fd := f' |>) ∧
    match f with Continue => provided l' | BreakOuter => stranded l' end).
Proof.
  intros Hs. unfold replace. eapply ok_pure; [reflexivity|reflexivity|].
  assert (∃ f', self l = self l <| fd := f' |>) as Hself by (exists (fd (self l)); by destruct (self l)).
  destruct (negb (stop (shared l)) && _) eqn:Hgo.
  2: { apply ok_ret. intros _. split; [eapply slot_weaken; [exact Hs|by left]|]. split; [done|]. split; [done|].
       apply andb_false_iff in Hgo as [Hg%negb_false_iff|Hg]; [by left|by right; right]. }
  eapply ok_pure; [reflexivity|reflexivity|]. unfold ok, holds. rewrite bind_run. unfold attempt, on_ring.
  pose proof (start_connect_did i (generation (self l)) (world l)) as Hd. cbn [ring_of Local_ring].
  destruct (start_connect _ _ _) as [[f|[e|e]] w']; [| |done].
  - destruct Hd as [Hf Hd]. rewrite bind_run. cbn. intros Hsd. pose proof (sound_suffix _ _ (did_suffix _ _ _ Hd) Hsd) as Hs0.
    split; [exists (connect_pair i (generation (self l))); split; [done|by eapply pair_of_conn]|]. split; [|split; [done|split; [by exists f|right; left; apply Hf, Hsd]]].
    eapply slot_connect; [done|exact Hs|done|]. intros v (? & Hb & Hc). right. left. split; [apply Hf, Hsd|]. split; [exact Hb|]. cbn. by rewrite Hc.
  - cbn. intros Hsd. split; [by apply did_frame|]. split; [eapply slot_quiet; [done|exact Hd|]; eapply slot_weaken; [exact Hs|by left]|].
    split; [done|]. split; [done|]. split; [apply Hs|]. by apply andb_prop in Hgo as [_ ?].
Qed.

(** *** Receiving again *)

Lemma push_recv_rearms i (l : L) (P P' : View → Prop) :
  at_slot P i l → (∀ v, P v → P' (v <| recvs := RecvMulti i (ud i (self l) OP_RECV) :: recvs v |>)) →
  ok i (push_recv i) l (λ _ l', (∃ w', l' = l <| world := w' |> <| self := self l <| recv_armed := true |> |>) ∧ at_slot P' i l').
Proof.
  intros Hs HP. unfold push_recv. eapply ok_pure; [reflexivity|reflexivity|].
  set (e := RecvMulti i (ud i (self l) OP_RECV)). eapply (ok_bind i _ _ _ (λ _ l', (∃ w', l' = l <| world := w' |>) ∧ at_slot P' i l')); [|intros; grow_ring|].
  - eapply (ok_ring i _ [e]); [apply push_sqe_queues| |].
    + intros Hsd. eapply (slot_of_conn past P _ i _ OP_RECV); [exact Hsd|exact Hs|done|done].
    + intros a w' Hsd Hd. split; [by exists w'|]. eapply (slot_push past P _ _ _ i _ OP_RECV e); [done|exact Hs|exact Hd|done|done|].
      intros v Hv. exact (HP v Hv).
  - intros _ l' _ _ ((w' & ->) & Hsl). eapply ok_pure_last; [reflexivity|reflexivity|]. intros _. split; [by exists w'|done].
Qed.
Lemma up_rearmed i (c : Conn C) v : up i c v → recv_armed c = false →
  up i (c <| recv_armed := true |>) (v <| recvs := RecvMulti i (ud i c OP_RECV) :: recvs v |>).
Proof.
  intros (? & ? & ? & Hr & Hsn & h & n & ? & ? & ? & ?) Ha. rewrite Ha in Hr. split_and!; try done; [cbn; by rewrite Hr|]. by exists h, n.
Qed.

(** *** The slots to flush *)

Definition marked (ws : list Z) (i : nat) : Prop := ∃ w, ws !! (i / 64)%nat = Some w ∧ Z.testbit w (Z.of_nat (i mod 64)) = true.

Definition words_ok (ws : list Z) : Prop := Forall (λ w, 0 ≤ w < 2 ^ 64) ws.

(** More slots are marked, none less. *)
Definition marks (ws ws' : list Z) : Prop := length ws' = length ws ∧ (words_ok ws → words_ok ws') ∧ ∀ j, marked ws j → marked ws' j.
#[global] Instance marks_preorder : PreOrder marks.
Proof. split; [done|]. intros a b c (? & ? & ?) (? & ? & ?). split_and!; [congruence|auto..]. Qed.

Lemma mark_marks i (l : L) :
  ok i (mark i) l (λ _ l', marks (words (shared l)) (words (shared l')) ∧ marked (words (shared l')) i ∧
    ∃ ws, l' = l <| shared := shared l <| words := ws |> |>).
Proof.
  unfold mark. eapply ok_pure; [reflexivity|reflexivity|]. apply ok_bind_lift. intros w Hw.
  destruct (words (shared l) !! (i / 64)%nat) as [w0|] eqn:E; [|done]. injection Hw as ->.
  eapply ok_pure_last; [reflexivity|reflexivity|]. intros _. cbn -[Nat.modulo Nat.div]. set (w' := Z.lor w _). pose proof (lookup_lt_Some _ _ _ E) as Hlt.
  assert (∀ j, (j / 64)%nat = (i / 64)%nat → Z.testbit w' (Z.of_nat (j mod 64)) = Z.testbit w (Z.of_nat (j mod 64)) || (i mod 64 =? j mod 64)%nat) as Hbit.
  { intros j _. subst w'. rewrite Z.lor_spec, Z.shiftl_1_l, Z.pow2_bits_eqb by lia. f_equal.
    destruct (Nat.eqb_spec (i mod 64) (j mod 64)); [by apply Z.eqb_eq; lia|apply Z.eqb_neq; lia]. }
  split; [split_and!; [apply length_insert| |]|split; [|by eexists]].
  - intros Hok. apply Forall_insert; [done|]. pose proof (proj1 (Forall_lookup _ _) Hok _ _ E) as [? ?]. subst w'.
    pose proof (Nat.mod_upper_bound i 64 ltac:(done)). rewrite Z.shiftl_1_l.
    assert (0 < 2 ^ Z.of_nat (i mod 64) < 2 ^ 64) as [? ?] by (split; [lia|apply Z.pow_lt_mono_r; lia]).
    split; [apply Z.lor_nonneg; lia|]. apply (Z.log2_lt_cancel _ (2 ^ 64)). rewrite Z.log2_lor by lia.
    rewrite !Z.log2_pow2 by lia. destruct (Z.eq_dec w 0) as [-> |]; [change (Z.log2 0) with 0; lia|].
    assert (Z.log2 w < 64) by (apply Z.log2_lt_pow2; lia). lia.
  - intros j (wj & Hj & Hb). destruct (decide ((j / 64)%nat = (i / 64)%nat)) as [Ej|Hne].
    + exists w'. rewrite Ej, list_lookup_insert_eq by done. split; [done|]. rewrite Hbit by done. rewrite Ej, E in Hj. injection Hj as ->. by rewrite Hb.
    + exists wj. by rewrite list_lookup_insert_ne by done.
  - exists w'. rewrite list_lookup_insert_eq by done. split; [done|]. rewrite Hbit by done. by rewrite Nat.eqb_refl, orb_true_r.
Qed.

(** *** Opening streams *)

(** What working on the HTTP/2 connection leaves alone. *)
Record filled (l l' : L) : Prop := {
  f_ring : world l' = world l;
  f_fd : fd (self l') = fd (self l);
  f_connected : connected (self l') = connected (self l);
  f_tls : tls (self l') = tls (self l);
  f_out : out (self l') = out (self l);
  f_out_off : out_off (self l') = out_off (self l);
  f_sending : sending (self l') = sending (self l);
  f_recv : recv_armed (self l') = recv_armed (self l);
  f_generation : generation (self l') = generation (self l);
  f_words : words (shared l') = words (shared l);
  f_stop : stop (shared l') = stop (shared l);
}.
#[global] Instance filled_preorder : PreOrder filled.
Proof. split; [by intros l; split|]. intros l1 l2 l3 [] []. split; congruence. Qed.
Lemma kept_filled l l' : kept l l' → filled l l'.
Proof. intros []. by split. Qed.

(** From one state of the HTTP/2 connection to another: the streams open in it
    stay the requests in the table, and nothing queued is lost. *)
Definition carried (h : http2_conn.Connection) (r : inflight.Ring InFlight) (h' : http2_conn.Connection) (r' : inflight.Ring InFlight) : Prop :=
  (∀ n, http2_conn.conn_ok n h → table n (ids h) r → ∃ n', http2_conn.conn_ok n' h' ∧ table n' (ids h') r') ∧
  (∀ b, reached h b → reached h' b).
Lemma carried_refl h r : carried h r h r.
Proof. split; [intros n ? ?; by exists n|done]. Qed.
Lemma carried_trans h r h1 r1 h2 r2 : carried h r h1 r1 → carried h1 r1 h2 r2 → carried h r h2 r2.
Proof. intros [H01 H01'] [H12 H12']. split; [|auto]. intros n Hok Ht. destruct (H01 n Hok Ht) as (n1 & ? & ?). by eapply H12. Qed.

Lemma filled_up i l l' h h' v :
  filled l l' → handshaking (self l) = false → h2 (self l) = Some h → h2 (self l') = Some h' → carried h (streams (self l)) h' (streams (self l')) →
  up i (self l) v → up i (self l') v.
Proof.
  intros [] Hhs Hh Hh' [Ht Hr] Hu. pose proof (up_with _ _ _ _ Hh Hu) as (Hsn & _).
  eapply (up_change i (self l) (self l') v v h h'); try done.
  - unfold unsent. rewrite f_sending0, f_out0, f_out_off0, f_generation0. exact Hsn.
  - intros (b & Hb & Hlt & Hx). exists b. unfold handshaking, said, unsent in *. rewrite f_tls0, f_sending0, f_out0, f_out_off0.
    split; [|done]. destruct (tls (self l)) as [t|]; [rewrite Hhs in *; destruct Hb; split; auto|auto].
Qed.

Lemma start_stream_carried h x h' r n :
  http2_conn.conn_ok n h → table n (ids h) r → http2_conn.start_stream h block body = Ok (x, h') →
  match x with
  | Some i => i = 2 * n + 1 ∧ 0 ≤ n ∧ http2_conn.conn_ok (n + 1) h' ∧ ids h' = ids h ++ [i]
  | None => h' = h
  end.
Proof.
  intros Hok Ht Hst. pose proof (http2_conn.start_stream_post n h block body Hok) as Hp. rewrite Hst in Hp. cbn in Hp.
  destruct x as [i|]; [|by destruct Hp]. destruct Hok as (((_ & _ & ? & _) & _) & _). by destruct Hp as (? & ? & ?).
Qed.
Lemma start_stream_total n h : http2_conn.conn_ok n h → ∃ x h', http2_conn.start_stream h block body = Ok (x, h').
Proof.
  intros Hok. pose proof (http2_conn.h2_start_stream n h block body Hok) as Hs. destruct (http2_conn.can_open h).
  - destruct Hs as (? & ? & h' & ? & -> & _). by eexists _, _.
  - rewrite Hs. by eexists _, _.
Qed.

(** Every turn opens a stream, so as many turns as streams may be open are
    enough. *)
Lemma open_streams_run o fuel : ∀ h cap n (l : L),
  books budget o cap l → cap + Z.of_nat fuel < 2 ^ 64 → (parallel ≤ inflight.len (streams (self l)) + fuel)%nat →
  h2 (self l) = Some h → http2_conn.conn_ok n h → table n (ids h) (streams (self l)) →
  ∃ h' l', open_streams target budget parallel fuel h l = (Ok h', l') ∧ books budget o (cap + Z.of_nat fuel) l' ∧ filled l l' ∧
    h2 (self l') = Some h' ∧ carried h (streams (self l)) h' (streams (self l')) ∧ held (self l') = held (self l) ∧
    started (shared l) ≤ started (shared l') ∧ goaway (self l') = goaway (self l).
Proof.
  induction fuel as [|fuel IH]; intros h cap n l Hb Hcap Hf Hh Hok Ht; cbn [open_streams]; rewrite bind_run; unfold me at 1; rewrite bind_run;
    cbn [get mret eff_ret]; rewrite bind_run; unfold may_start at 1; rewrite bind_run; cbn [get mret eff_ret];
    destruct (Nat.ltb_spec (inflight.len (streams (self l))) parallel) as [Hlt|Hge]; cbn [andb];
    try (exists h, l; split; [done|]; split; [apply (books_cap budget o cap); [done|lia]|]; split; [done|]; split; [done|]; split; [apply carried_refl|done]).
  { lia. }
  destruct (budget.may_start budget (started (shared l))) eqn:Hms.
  2: { exists h, l. split; [done|]; split; [apply (books_cap budget o cap); [done|lia]|]; split; [done|]; split; [done|]; split; [apply carried_refl|done]. }
  destruct (start_stream_total n h Hok) as (x & h1 & Hst). rewrite bind_run, Hst. cbn [lift]. rewrite bind_run. unfold update at 1. cbn [modify].
  pose proof (start_stream_carried h x h1 _ n Hok Ht Hst) as Hx.
  destruct x as [i|].
  2: { subst h1. eexists h, _. split; [reflexivity|]. split; [apply (books_cap budget o cap); [by apply (books_same budget o cap l)|lia]|].
       split; [by split|]. split; [done|]. split; [apply carried_refl|done]. }
  destruct Hx as (-> & Hn & Hok1 & Hids). rewrite bind_run. unfold now at 1. rewrite bind_run. cbn [get mret eff_ret]. rewrite bind_run.
  unfold update at 1. cbn [modify]. rewrite bind_run. unfold update_shared at 1. cbn [modify]. set (l1 := _ <| shared := _ |>).
  destruct (table_push n (ids h) (streams (self l)) (mkInFlight (k_now (world l)) 0) Ht Hn) as [Ht1 Hlen1].
  assert (started (shared l1) = started (shared l) + 1) as Hst1 by (subst l1; destruct Hb; unfold finished, weight in *; cbn; apply u64_small; lia).
  assert (inflight.len (streams (self l1)) = S (inflight.len (streams (self l)))) as Hl1 by exact Hlen1.
  assert (books budget o (cap + 1) l1) as Hb1.
  { assert (held (self l1) = held (self l)) as Hhe by done. assert (stats (shared l1) = stats (shared l)) as Hs1 by done. clearbody l1.
    destruct Hb. unfold finished, weight in *. split; unfold finished, weight; rewrite ?Hst1, ?Hl1, ?Hhe, ?Hs1; try done; try lia.
    destruct budget as [m|]; [|done]. apply Z.ltb_lt in Hms. lia. }
  rewrite <- Hids in Ht1. destruct (IH h1 (cap + 1) (n + 1) l1 Hb1 ltac:(lia)) as (h' & l' & Hrun & Hb' & Hfl & Hh' & Hca & Hhe & Hsta & Hga); try done.
  { lia. }
  exists h', l'. split; [done|]. split; [replace (cap + Z.of_nat (S fuel)) with (cap + 1 + Z.of_nat fuel) by lia; done|].
  split; [etrans; [|exact Hfl]; by split|]. split; [done|]. split; [|split; [done|split; [lia|done]]].
  eapply carried_trans; [|exact Hca]. split.
  - intros m Hm Htm. assert (m = n) as ->. { destruct Hm as ((_ & Em & _) & _), Hok as ((_ & En & _) & _). lia. } exists (n + 1). by subst l1.
  - intros b Hr. by eapply reached_start.
Qed.

Lemma pump_bodies_carried n h r : http2_conn.conn_ok n h → ∃ h', http2_conn.pump_bodies h body = Ok h' ∧ carried h r h' r ∧ http2_conn.conn_ok n h' ∧ ids h' = ids h.
Proof.
  intros Hok. assert (∃ h', http2_conn.pump_bodies h body = Ok h' ∧ (∀ m, http2_conn.conn_ok m h → http2_conn.conn_ok m h' ∧ ids h' = ids h)) as (h' & Hp & Hm).
  { unfold http2_conn.pump_bodies. case_bool_decide; [by exists h|].
    destruct (http2_conn.pump_slots_spec n body (seq 0 (inflight.live (http2_conn.open h))) h Hok (NoDup_seq _ _)) as (h' & E & _). exists h'. split; [done|].
    intros m Hm. destruct (http2_conn.pump_slots_spec m body (seq 0 (inflight.live (http2_conn.open h))) h Hm (NoDup_seq _ _)) as (h'' & E' & ? & ? & _).
    assert (h'' = h') as -> by congruence. done. }
  exists h'. destruct (Hm n Hok) as [? ?]. split_and!; try done. split; [intros m Hmm Ht; exists m; destruct (Hm m Hmm) as [? ->]; done|].
  intros b Hr. by eapply reached_pump.
Qed.

(** Filling never fails, and starts at most [parallel] requests. *)
Lemma fill_streams_run i o cap (l : L) v :
  up i (self l) v → books budget o cap l → cap + Z.of_nat parallel < 2 ^ 64 →
  ∃ l', fill_streams target budget parallel l = (Ok tt, l') ∧ books budget o (cap + Z.of_nat parallel) l' ∧ filled l l' ∧
    (∀ v, up i (self l) v → up i (self l') v) ∧ started (shared l) ≤ started (shared l').
Proof.
  intros Hu Hb Hcap. pose proof Hu as (_ & _ & _ & _ & _ & h & n & Hh & Hok & Ht & _).
  unfold fill_streams. rewrite bind_run. unfold me at 1. rewrite bind_run. cbn [get mret eff_ret]. rewrite Hh.
  assert (books budget o (cap + Z.of_nat parallel) l) as Hb' by (apply (books_cap budget o cap); [done|lia]).
  destruct (handshaking (self l)) eqn:Hhs; [by exists l|]. rewrite bind_run.
  destruct (pump_bodies_carried n h (streams (self l)) Hok) as (h1 & Hp & Hca & Hok1 & Hids). rewrite Hp. cbn [lift]. rewrite bind_run. unfold update at 1. cbn [modify].
  rewrite bind_run. cbn [get]. set (l1 := l <| self := _ |>). assert (filled l l1) as Hf1 by by split.
  assert (∀ v, up i (self l) v → up i (self l1) v) as Hup1 by (intros; by eapply (filled_up i l l1 h h1)).
  destruct (stop (shared l1) || goaway (self l)). { exists l1. split; [done|]. split; [by apply (books_same budget o _ l)|done]. }
  rewrite bind_run. destruct (open_streams_run o parallel h1 cap n l1) as (h2' & l2 & Hrun & Hb2 & Hf2 & Hh2 & Hca2 & _ & Hst & _); try done.
  { by apply (books_same budget o cap l). } { lia. } { by rewrite Hids. }
  rewrite Hrun. assert (∀ v, up i (self l1) v → up i (self l2) v) as Hup2 by (intros; eapply (filled_up i l1 l2 h1 h2'); try done; destruct Hf1; unfold handshaking; by rewrite f_tls0).
  destruct (http2_conn.stream_ids_exhausted h2'); cbn [when].
  - eexists. split; [reflexivity|]. split; [by apply (books_same budget o _ l2)|]. split; [etrans; [exact Hf1|]; etrans; [exact Hf2|]; by split|].
    split; [|done]. intros v' Hv'. exact (Hup2 _ (Hup1 _ Hv')).
  - exists l2. split; [done|]. split; [done|]. split; [by etrans|]. split; [auto|done].
Qed.

(** *** Completions *)

(** What every step keeps of what the connections share. *)
Definition moves (l l' : L) : Prop := marks (words (shared l)) (words (shared l')) ∧ stop (shared l') = stop (shared l).
#[global] Instance moves_preorder : PreOrder moves.
Proof. split; [done|]. intros l1 l2 l3 [] []. split; [by etrans|congruence]. Qed.
Lemma moves_same l l' : words (shared l') = words (shared l) → stop (shared l') = stop (shared l) → moves l l'.
Proof. intros Hw Hs. split; [by rewrite Hw|done]. Qed.

(** Output that waits is noticed by the next flush. *)
Definition due (i : nat) (l : L) : Prop := settled (self l) ∨ marked (words (shared l)) i.
Lemma due_same i l l' : due i l → h2 (self l') = h2 (self l) → tls (self l') = tls (self l) → sending (self l') = sending (self l) →
  words (shared l') = words (shared l) → due i l'.
Proof. intros [Hs|Hm] E1 E2 E3 E4; [left|right; by rewrite E4]. unfold settled in *. by rewrite E1, E2, E3. Qed.

(** A connection that has to be given up, and one that goes on. *)
Definition broken (i : nat) (o cap : Z) (l l' : L) : Prop :=
  at_slot past i l' ∧ 0 ≤ fd (self l') ∧ books budget o cap l' ∧ moves l l'.
Definition working (i : nat) (o cap : Z) (l l' : L) : Prop :=
  at_slot (up i (self l')) i l' ∧ books budget o cap l' ∧ moves l l' ∧ due i l'.

(** What is left right after a completion of the connection. *)
Definition landed (c : Conn C) (v : View) : Prop := 0 ≤ fd c ∧ bare c v ∧ connects v = [].
Definition sent_back (i : nat) (c : Conn C) (res : Z) (v : View) : Prop := ∃ v0,
  up i c v0 ∧ sending c = true ∧ res ≤ zlen (unsent c) ∧
  v = v0 <| sends := [] |> <| sent := sent v0 ++ take (Z.to_nat res) (unsent c) |>.
Definition received_back (i : nat) (c : Conn C) (cqe : Cqe) (v : View) : Prop :=
  up i (if cqe_more cqe then c else c <| recv_armed := false |>) v ∧ (cqe_more cqe = true → 0 ≤ cqe_result cqe) ∧ recv_armed c = true.

Abbreviation reaped_here := (reaped_here here).
Lemma reaped_connect i c cqe v : reaped_here i c OP_CONNECT cqe v → landed c v.
Proof.
  intros (v0 & e & Hh & He & Ha & ->). cbn in He. destruct Hh as [(_ & _ & Hc)|[(Hfd & Hb & Hc)|(_ & _ & Hc & _)]]; rewrite Hc in He;
    [by apply not_elem_of_nil in He| |by apply not_elem_of_nil in He].
  apply list_elem_of_singleton in He as ->. destruct Ha as [_ Hm]. split; [done|]. split; [done|]. cbn. by rewrite Hm, Hc.
Qed.
Lemma reaped_send i c cqe v : reaped_here i c OP_SEND cqe v → sent_back i c (cqe_result cqe) v.
Proof.
  intros (v0 & e & Hh & He & Ha & ->). cbn in He.
  assert (up i c v0) as Hu.
  { destruct Hh as [(_ & Hb & _)|[(_ & Hb & _)|Hu]]; [..|done]; destruct Hb as (_ & _ & _ & _ & _ & _ & _ & _ & Hs & _); rewrite Hs in He; by apply not_elem_of_nil in He. }
  pose proof Hu as (_ & _ & _ & _ & Hs & _). rewrite Hs in He. destruct (sending c) eqn:Hsd; [|by apply not_elem_of_nil in He].
  apply list_elem_of_singleton in He as ->. destruct Ha as (_ & Hm & Hres). exists v0. split_and!; try done.
  unfold reap. cbn. by rewrite Hm, Hs.
Qed.
Lemma reaped_recv i c cqe v : reaped_here i c OP_RECV cqe v → received_back i c cqe v.
Proof.
  intros (v0 & e & Hh & He & Ha & ->). cbn in He.
  assert (up i c v0) as Hu.
  { destruct Hh as [(_ & Hb & _)|[(_ & Hb & _)|Hu]]; [..|done]; destruct Hb as (_ & _ & _ & _ & _ & _ & _ & Hr & _); rewrite Hr in He; by apply not_elem_of_nil in He. }
  pose proof Hu as (Hfd & Hcn & Hc & Hr & Hs & Hrest). rewrite Hr in He. destruct (recv_armed c) eqn:Hra; [|by apply not_elem_of_nil in He].
  apply list_elem_of_singleton in He as ->. destruct Ha as (_ & Hm & _). split; [|split; [apply Hm|done]].
  unfold reap. cbn. destruct (cqe_more cqe); cbn; rewrite Hr; [|done]. split_and!; try done. cbn. by rewrite Hra.
Qed.

(** More streams, and the flush that will send them. *)
Lemma fill_and_mark_ok i o cap l :
  at_slot (up i (self l)) i l → books budget o cap l → cap + Z.of_nat parallel < 2 ^ 64 →
  ok i (_ ← fill_streams target budget parallel; _ ← mark i; mret false) l (λ b l',
    b = false ∧ working i o (cap + Z.of_nat parallel) l l' ∧ recv_armed (self l') = recv_armed (self l)).
Proof.
  intros Hs Hb Hcap. destruct (fill_streams_run i o cap l _ (s_here Hs) Hb Hcap) as (l1 & Hrun & Hb1 & Hf & Hup & _). pose proof Hf as [].
  eapply ok_pure; [exact Hrun|exact f_ring0|]. eapply ok_bind; [apply mark_marks|intros; grow_ring|].
  intros [] l2 _ _ (Hm & Hm' & ws & ->). apply ok_ret. intros _. split; [done|]. split; [|exact f_recv0].
  split; [|split; [by apply (books_same budget o _ l1)|split; [split; [by rewrite <- f_words0|done]|by right]]].
  change (slot past (up i (self l1)) (events l1) i (generation (self l1))). rewrite f_ring0, f_generation0. eapply slot_weaken; [exact Hs|exact Hup].
Qed.

(** *** A connect *)

Lemma h2_on_connect_ok i res o cap l :
  at_slot (landed (self l)) i l → books budget o cap l → cap + Z.of_nat parallel + 1 < 2 ^ 64 →
  ok i (on_connect target https budget parallel i res) l (λ b l',
    if b then broken i o (cap + 1) l l' else working i o (cap + Z.of_nat parallel) l l' ∧ recv_armed (self l') = true).
Proof.
  intros Hs Hb Hcap. unfold on_connect. pose proof (s_here Hs) as (Hfd & _). destruct (res <? 0).
  { destruct (fail_connect_run budget o cap l Hb ltac:(lia)) as (l1 & Hrun & Hb1 & [] & Hself & _).
    eapply ok_pure; [exact Hrun|exact k_ring0|]. apply ok_ret. intros _. split; [|split; [by rewrite Hself|split; [done|by apply moves_same]]].
    rewrite Hself, k_ring0. eapply slot_weaken; [exact Hs|]. intros v (_ & Hbare & _). by eapply bare_past. }
  eapply ok_pure; [reflexivity|reflexivity|]. set (l1 := l <| self := _ |>).
  eapply ok_bind; [apply (push_recv_rearms i l1 (landed (self l))
    (λ v, ∃ v0, landed (self l) v0 ∧ v = v0 <| recvs := RecvMulti i (ud i (self l) OP_RECV) :: recvs v0 |>)); [exact Hs|by intros v Hv; exists v]|intros; grow_ring|].
  intros [] l2 _ _ [(w2 & ->) Hs2]. set (l2 := l1 <| world := w2 |> <| self := _ |>).
  eapply (ok_bind i _ _ _ (λ _ l', match tls (self l') with
    | Some t => https = true ∧ tls.session_ok t ∧ tls.written t = [] ∧ emitted (tls.conn t) = [] ∧ tls.is_handshaking t = true ∧ tls_handshake.tidy (tls.conn t)
    | None => https = false
    end ∧ ∃ t, l' = l2 <| self := self l2 <| tls := t |> |>)); [|intros; grow_ring|].
  { destruct https eqn:Hh; cbn [when].
    - apply ok_bind_lift. intros t Ht. eapply ok_pure_last; [reflexivity|reflexivity|]. intros _. split; [|by exists (Some t)]. cbn.
      unfold tls.new in Ht. destruct client_new as [c|] eqn:Ec; [|done]. injection Ht as <-. destruct (new_law _ Ec) as (Ha & He & Hr & Hd).
      split; [done|]. split; [by left|]. unfold tls.written, tls.held_back, tls_handshake.tidy. cbn. rewrite Ha, Hr, Hd. split_and!; try done. by apply handshake_new.
    - apply ok_ret. intros _. split; [|exists None; pose proof (s_here Hs) as (_ & (_ & _ & Ht & _) & _); subst l2 l1; destruct l as [? []]; cbn in *; by rewrite Ht].
      pose proof (s_here Hs) as (_ & (_ & _ & Ht & _) & _). cbn. by rewrite Ht. }
  intros [] l3 _ _ (Ht & t & ->). eapply ok_pure; [reflexivity|reflexivity|]. set (l4 := _ <| self := _ |>).
  assert (at_slot (up i (self l4)) i l4) as Hs4.
  { eapply slot_weaken; [exact Hs2|]. intros v (v0 & (_ & (Hcn & _ & Ht0 & Hsd & _ & Hst & Hhe & Hr0 & Hsn0 & Hse0) & Hc) & ->).
    subst l4 l2 l1. cbn in *. unfold http2_inv.up. cbn. rewrite Hr0, Hsd. split_and!; try done.
    eexists _, 0. split; [reflexivity|]. assert (http2_conn.conn_ok 0 (http2_conn.initiate http2_conn.new) ∧ ids (http2_conn.initiate http2_conn.new) = []) as [Hok1 Hids1].
    { unfold http2_conn.initiate. match goal with |- context [http2_conn.set_out ?x _] => destruct (http2_conn.conn_ok_out 0 http2_conn.new x http2_conn.new_ok) as [? E] end.
      split; [done|]. by rewrite E. }
    assert (http2_conn.conn_ok 0 (if https then http2_conn.new else http2_conn.initiate http2_conn.new) ∧
      ids (if https then http2_conn.new else http2_conn.initiate http2_conn.new) = []) as [Hok2 Hids2].
    { destruct https; [by split; [apply http2_conn.new_ok|]|done]. }
    split; [exact Hok2|]. rewrite Hids2, Hst. split; [apply table_new|]. exists []. split.
    - unfold said. cbn. destruct t as [t|]; [destruct Ht as (-> & _ & _ & _ & -> & ?); by split|]. rewrite Ht. apply reached_initiate, primed_new.
    - split; [done|]. rewrite Hse0. destruct t as [t|]; [|done]. destruct Ht as (? & ? & ? & E & _). cbn. rewrite E. done. }
  assert (books budget o cap l4) as Hb4 by by apply (books_same budget o cap l).
  eapply ok_mono; [by apply (fill_and_mark_ok i o cap l4); [| |lia]|]. intros b l5 _ (-> & (Hs5 & Hb5 & Hm5 & Hd5) & Hr5).
  split; [|exact Hr5]. by split_and!.
Qed.

(** *** A send *)

Lemma h2_on_send_ok i res o cap l :
  at_slot (sent_back i (self l) res) i l → books budget o cap l → due i l →
  ok i (on_send i res) l (λ b l', if b then broken i o cap l l' else working i o cap l l' ∧ (recv_armed (self l) = true → recv_armed (self l') = true)).
Proof.
  intros Hs Hb Hdue. pose proof (s_here Hs) as (v0 & Hu0 & Hsd & Hres & _). unfold on_send. destruct (Z.ltb_spec res 0) as [Hneg|Hpos].
  { apply ok_ret. intros _. split; [|split; [by destruct Hu0|done]]. eapply slot_weaken; [exact Hs|]. intros v (v1 & Hu & _ & _ & ->).
    replace (Z.to_nat res) with 0%nat by lia. rewrite take_0, app_nil_r. destruct (up_past _ _ _ _ _ Hu) as (b & Hlb & Hpre). exists b. split; [done|]. cbn.
    destruct (sends v1) as [|[] [|]]; try done. etrans; [|exact Hpre]. by apply prefix_app_r. }
  eapply ok_pure; [reflexivity|reflexivity|]. eapply ok_pure; [reflexivity|reflexivity|]. eapply ok_pure; [reflexivity|reflexivity|].
  set (l1 := _ <| self := _ |>).
  assert (books budget o cap l1) as Hb1 by by apply (books_same budget o cap l).
  unfold unsent, zlen in Hres. rewrite Hsd, length_drop in Hres.
  pose proof Hu0 as (Hfd & _ & _ & _ & _ & h & n & Hh & _ & _ & b0 & _ & Hlt0 & _). specialize (Hlt0 Hsd).
  destruct (Nat.ltb_spec (out_off (self l1)) (length (out (self l1)))) as [Hlt|Hge].
  - (* the rest of it *)
    apply ok_bind_lift. intros rest Hrest. rewrite slice_from_le in Hrest by lia. injection Hrest as <-.
    set (e := Send i (ud i (self l1) OP_SEND) (drop (out_off (self l1)) (out (self l1)))).
    eapply (ok_bind i _ _ _ (λ _ l', (∃ w', l' = l1 <| world := w' |>) ∧ at_slot (up i (self l1)) i l')); [|intros; grow_ring|].
    + eapply (ok_ring i _ [e]); [apply push_sqe_queues| |].
      * intros Hsn. eapply (slot_of_conn past _ _ i _ OP_SEND); [exact Hsn|exact Hs|done|done].
      * intros a w' Hsn Hd. split; [by exists w'|]. eapply (slot_push past _ _ _ _ i _ OP_SEND e); [done|exact Hs|exact Hd|done|done|].
        intros v (v1 & Hu & _ & _ & ->). eapply (up_change i (self l) (self l1) v1 _ h h); [exact Hu|done..| | |].
        -- cbn. unfold unsent. cbn. by rewrite Hsd.
        -- intros m ? ?. by exists m.
        -- intros (b & Hr & _ & Hx). exists b. split; [done|]. split; [done|].
           assert (sent v1 ++ take (Z.to_nat res) (unsent (self l)) ++ unsent (self l1) = sent v1 ++ unsent (self l)) as Hcat.
           { unfold unsent. cbn. rewrite Hsd, <- drop_drop. by rewrite take_drop. }
           cbn in *. rewrite <- app_assoc, Hcat. exact Hx.
    + intros [] l2 _ _ [(w2 & ->) Hs2]. apply ok_ret. intros _. split; [|done]. split; [exact Hs2|]. split; [by apply (books_same budget o cap l)|].
      split; [done|]. eapply due_same; [exact Hdue|done..].
  - (* all of it has gone *)
    eapply ok_pure; [reflexivity|reflexivity|]. set (l2 := _ <| self := _ |>).
    eapply (ok_bind i _ _ _ (λ _ l', ∃ x, l' = l2 <| self := self l2 <| out := x |> |>)); [|intros; grow_ring|].
    { change (tls (self l1)) with (tls (self l)). change (h2 (self l1)) with (h2 (self l)). destruct (tls (self l)) as [t|].
      - apply ok_ret. intros _. exists (out (self l2)). by destruct l2 as [? []].
      - rewrite Hh. eapply ok_pure_last; [reflexivity|reflexivity|]. intros _. by exists []. }
    intros [] l3 _ _ (x & ->). set (l3 := l2 <| self := _ |>).
    assert (at_slot (up i (self l3)) i l3) as Hs3.
    { eapply slot_weaken; [exact Hs|]. intros v (v1 & Hu & _ & _ & ->). eapply (up_change i (self l) (self l3) v1 _ h h); [exact Hu|done..| |].
      - intros m ? ?. by exists m.
      - intros (b & Hr & _ & Hx). exists b. split; [done|]. split; [done|]. cbn in *.
        assert (take (Z.to_nat res) (unsent (self l)) = unsent (self l)) as Ht.
        { apply take_ge. unfold unsent. rewrite Hsd, length_drop. lia. }
        rewrite Ht, app_nil_r. exact Hx. }
    eapply ok_bind; [apply mark_marks|intros; grow_ring|]. intros [] l4 _ _ (Hm4 & Hm4' & ws & ->). set (l4 := l3 <| shared := _ |>).
    assert (books budget o cap l4) as Hb4 by by apply (books_same budget o cap l).
    change (recv_armed (self l1)) with (recv_armed (self l)). destruct (recv_armed (self l)) eqn:Hra; cbn [negb when].
    + eapply ok_pure; [reflexivity|reflexivity|]. apply ok_ret. intros _. split; [|done]. split; [exact Hs3|]. split; [done|]. split; [by split|by right].
    + eapply ok_bind; [apply (push_recv_rearms i l4 (up i (self l3))); [exact Hs3|]|intros; grow_ring|].
      { intros v Hv. exact (up_rearmed i (self l3) v Hv Hra). }
      intros [] l5 _ _ [(w5 & ->) Hs5]. apply ok_ret. intros _. split; [|done]. split; [exact Hs5|]. split; [by apply (books_same budget o cap l4)|].
      split; [by split|by right].
Qed.

(** *** A receive *)

(** A connection whose events have not been worked off yet. *)
Definition up_after (ev : list http2_conn.Event) (i : nat) (c : Conn C) (v : View) : Prop :=
  0 ≤ fd c ∧ connected c = true ∧ connects v = [] ∧
  recvs v = (if recv_armed c then [RecvMulti i (ud i c OP_RECV)] else []) ∧
  sends v = (if sending c then [Send i (ud i c OP_SEND) (unsent c)] else []) ∧
  ∃ h n, h2 c = Some h ∧ http2_conn.conn_ok n h ∧ table n (http2_conn.ended ev ++ ids h) (streams c) ∧ bytes_of c h v.

(** What feeding leaves alone. *)
Record fed_to (l l' : L) : Prop := {
  d_ring : world l' = world l;
  d_fd : fd (self l') = fd (self l);
  d_connected : connected (self l') = connected (self l);
  d_out : out (self l') = out (self l);
  d_out_off : out_off (self l') = out_off (self l);
  d_sending : sending (self l') = sending (self l);
  d_recv : recv_armed (self l') = recv_armed (self l);
  d_generation : generation (self l') = generation (self l);
  d_streams : streams (self l') = streams (self l);
  d_words : words (shared l') = words (shared l);
  d_stop : stop (shared l') = stop (shared l);
}.

(** The connection and the events, after some of what arrived. *)
Definition progress (n : Z) (all : list Z) (R : http2_conn.Connection → Prop) (s : http2_conn.Connection * list http2_conn.Event) : Prop :=
  let '(h, ev) := s in http2_conn.conn_ok n h ∧ http2_conn.ended ev ++ ids h ≡ₚ all ∧ R h.
Definition partial (all : list Z) (s : http2_conn.Connection * list http2_conn.Event) : Prop :=
  ∃ rest, http2_conn.ended s.2 ++ rest ≡ₚ all.
(** What listening keeps. *)
Definition feedable (R : http2_conn.Connection → Prop) : Prop := ∀ h data ev ev' h',
  R h → bytes_ok data → http2_conn.feed h data ev = (ev', Ok h') → R h'.

Lemma feed_chunk_progress n all R data s :
  feedable R → bytes_ok data → progress n all R s → holds (feed_chunk data) s (λ _, progress n all R) (λ _, partial all).
Proof.
  destruct s as [h ev]. intros HR Hd (Hok & Hall & Hr). pose proof (http2_conn.feed_post n all h data ev Hok Hd Hall) as [Hl Hw].
  unfold holds, feed_chunk. destruct (http2_conn.feed h data ev) as [ev' [h'|e]] eqn:E; cbn [fst snd] in *; [|exact Hl].
  destruct Hw as [? ?]. split_and!; try done. by eapply HR.
Qed.
Lemma reached_feedable b : feedable (λ h, reached h b).
Proof. intros h data ev ev' h' ? ? ?. by eapply reached_feed. Qed.
Lemma primed_feedable : feedable primed.
Proof. intros h data ev ev' h' ? ? ?. by eapply primed_feed. Qed.
Lemma initiate_kept n h : http2_conn.conn_ok n h → http2_conn.conn_ok n (http2_conn.initiate h) ∧ ids (http2_conn.initiate h) = ids h.
Proof. intros Hok. unfold http2_conn.initiate. match goal with |- context [http2_conn.set_out ?x h] => apply (http2_conn.conn_ok_out n h x Hok) end. Qed.

Lemma table_perm n a b r : a ≡ₚ b → table n a r → table n b r.
Proof. intros Hp (? & ? & Hk). split_and!; [done|done|]. by rewrite <- Hp. Qed.

(** How the sessions before and after stand to each other. *)
Definition same_out (t t' : option (tls.TlsSession C)) : Prop :=
  match t, t' with
  | None, None => True
  | Some t, Some t' => (tls.session_ok t → tls.session_ok t') ∧ tls.written t' = tls.written t ∧ emitted (tls.conn t') = emitted (tls.conn t)
  | _, _ => False
  end.

Lemma fed_up i l l' h h' ev v :
  fed_to l l' → up i (self l) v → h2 (self l) = Some h → h2 (self l') = Some h' → same_out (tls (self l)) (tls (self l')) →
  (∀ n b, http2_conn.conn_ok n h → said target (self l) h b → progress n (ids h) (λ h', said target (self l') h' b) (h', ev)) →
  up_after ev i (self l') v.
Proof.
  intros [] Hu Hh Hh' Ht Hp. pose proof (up_with _ _ _ _ Hh Hu) as (_ & n & Hok & Htb & b & Hr & Hlt & Hb).
  destruct (Hp n b Hok Hr) as (Hok' & Hids & Hr'). destruct Hu as (? & ? & ? & Hrv & Hsn & _).
  assert (unsent (self l') = unsent (self l)) as Hun by (unfold unsent; by rewrite d_sending0, d_out0, d_out_off0).
  unfold up_after. rewrite Hun, d_fd0, d_connected0, d_sending0, d_recv0, d_generation0, d_streams0. split_and!; try done. exists h', n.
  split_and!; try done; [by eapply table_perm|]. exists b. rewrite Hun, d_sending0, d_out0, d_out_off0. split; [done|]. split; [done|].
  unfold same_out in Ht. destruct (tls (self l)) as [t|], (tls (self l')) as [t'|]; try done.
  destruct Hb as (? & ? & ? & ?), Ht as (? & ? & ?). split_and!; auto; congruence.
Qed.

Lemma feed_into_progress n R h data t :
  feedable R → http2_conn.conn_ok n h → R h →
  holds (tls.feed_into feed_chunk SCRATCH data) (t, (h, [])) (λ _ p, progress n (ids h) R p.2) (λ _ p, partial (ids h) p.2).
Proof.
  intros HR Hok Hr. apply tls.feed_sink; [| |by split_and!].
  - intros c x c' Hx s. apply feed_chunk_progress; [done|]. destruct (read_law _ _ _ _ Hx) as (_ & _ & _ & Hrd & _).
    pose proof (readable_octets c) as Ho. rewrite Hrd in Ho. by apply Forall_app in Ho as [? _].
  - intros [h' ev] (_ & Hp & _). by exists (ids h').
Qed.

(** Whatever arrives, the events name streams that were open; when it was
    taken, what is left open is what the connection says. *)
Definition received (i : nat) (o cap : Z) (l : L) (x : list http2_conn.Event * bool * bool) (l' : L) : Prop :=
  let '(ev, fed, refused) := x in
  books budget o (cap + 1) l' ∧ fed_to l l' ∧ (∃ n rest, table n (http2_conn.ended ev ++ rest) (streams (self l'))) ∧
  (fed = true → refused = false → ∀ v, up i (self l) v → up_after ev i (self l') v).

Lemma feed_received_plain i h data o cap l v :
  up i (self l) v → h2 (self l) = Some h → tls (self l) = None → bytes_ok data → books budget o cap l → cap + 1 < 2 ^ 64 →
  ok i (feed_received budget h data) l (λ x l', received i o cap l x l').
Proof.
  intros Hu Hh Ht Hd Hb Hcap. pose proof (up_with _ _ _ _ Hh Hu) as (_ & n & Hok & Htb & b & Hr & _).
  unfold feed_received. eapply ok_pure; [reflexivity|reflexivity|]. rewrite Ht.
  assert (∀ m R, feedable R → http2_conn.conn_ok m h → R h → holds (feed_chunk data) (h, []) (λ _, progress m (ids h) R) (λ _, partial (ids h))) as Hf
    by (intros; apply feed_chunk_progress; [done|done|by split_and!]).
  unfold said in Hr. rewrite Ht in Hr. unfold holds, feed_chunk in Hf. destruct (http2_conn.feed h data []) as [ev [h'|e]].
  - eapply ok_pure; [reflexivity|reflexivity|]. eapply ok_pure; [reflexivity|reflexivity|]. apply ok_ret. intros _. set (l1 := l <| self := _ |>).
    assert (fed_to l l1) as Hfd by by split. split; [apply (books_cap budget o cap); [by apply (books_same budget o cap l)|destruct Hb; lia]|].
    split; [done|]. split.
    + destruct (Hf n _ (reached_feedable b) Hok Hr) as (_ & Hids & _). exists n, (ids h'). by eapply table_perm.
    + intros _ _ v' Hu'. eapply (fed_up i l l1 h h'); try done; [cbn; by rewrite Ht|]. unfold said. cbn. rewrite Ht. intros m x Hm Hx.
      by apply (Hf m _ (reached_feedable x)).
  - eapply ok_pure; [reflexivity|reflexivity|]. destruct e as [e|e].
    2: { unfold ok, holds. by cbn. }
    eapply ok_pure; [reflexivity|reflexivity|]. apply ok_ret. intros _. split; [apply (books_cap budget o cap); [done|destruct Hb; lia]|].
    split; [by split|]. split; [|done]. destruct (Hf n _ (reached_feedable b) Hok Hr) as [rest Hrest]. exists n, rest. by eapply table_perm.
Qed.

Lemma feed_received_tls i h data o cap l v t :
  up i (self l) v → h2 (self l) = Some h → tls (self l) = Some t → books budget o cap l → cap + 1 < 2 ^ 64 →
  ok i (feed_received budget h data) l (λ x l', received i o cap l x l').
Proof.
  intros Hu Hh Ht Hb Hcap. pose proof (up_with _ _ _ _ Hh Hu) as (_ & n & Hok & Htb & b & Hr & _ & Hb0). rewrite Ht in Hb0. destruct Hb0 as (Hhs & _).
  unfold feed_received. eapply ok_pure; [reflexivity|reflexivity|]. rewrite Ht.
  assert (tls_handshake.tidy (tls.conn t)) as Htidy by (unfold said in Hr; rewrite Ht in Hr; apply Hr).
  pose proof (λ m R HR Hm HRh, feed_into_progress m R h data t HR Hm HRh) as Hf.
  pose proof (tls_handshake.feed_heard feed_chunk SCRATCH data t (h, []) Htidy) as Hq.
  pose proof (tls.feed_output feed_chunk SCRATCH data (t, (h, []))) as Hout. unfold holds in Hf, Hq.
  destruct (tls.feed_into feed_chunk SCRATCH data (t, (h, []))) as [r [t1 [h1 ev]]]. cbn [fst snd] in *.
  destruct (tls.same_output_facts _ _ _ _ Hout) as (Hsok & Hwr & Hem).
  eapply ok_pure; [reflexivity|reflexivity|]. set (l1 := l <| self := _ |>). assert (fed_to l l1) as Hfd by by split.
  assert (same_out (tls (self l)) (tls (self l1))) as Hso by (rewrite Ht; by split_and!).
  assert (books budget o cap l1) as Hb1 by by apply (books_same budget o cap l).
  assert (books budget o (cap + 1) l1) as Hb1' by (apply (books_cap budget o cap); [done|destruct Hb; lia]).
  assert (partial (ids h) (h1, ev)) as [rest Hrest].
  { assert (∃ R, feedable R ∧ R h) as (R & HR & HRh) by by exists (λ _, True).
    destruct r as [[]|e]; [|by apply (Hf n R)]. destruct (Hf n R HR Hok HRh) as (_ & Hp & _). by exists (ids h1). }
  assert (∃ m rest, table m (http2_conn.ended ev ++ rest) (streams (self l1))) as Htab by (exists n, rest; by eapply table_perm).
  destruct r as [[]|[e|e]]; [|by eapply ok_pure; [reflexivity|reflexivity|]; apply ok_ret|by unfold ok, holds].
  destruct Hq as [[Htidy1 Hheard] Hstay]. cbn [fst snd] in *. eapply ok_pure; [reflexivity|reflexivity|]. unfold said in Hr. rewrite Ht in Hr. destruct Hr as [_ Hr].
  destruct (tls.is_handshaking t) eqn:Hhs0; [destruct (tls.is_handshaking t1) eqn:Hhs1|rewrite (Hstay eq_refl)]; cbn [andb negb].
  - (* not over yet: nothing was said *)
    apply ok_ret. intros _. split_and!; try done. intros _ _ v' Hu'. eapply (fed_up i l l1 h h1); try done. intros m x Hm Hx.
    destruct Hheard as [[= -> ->]|Hne]; [|by rewrite (handshake_silent _ Hhs1) in Hne]. split_and!; try done.
    unfold said in *. cbn. rewrite Ht, Hhs0 in Hx. rewrite Hhs1. by destruct Hx.
  - (* the handshake is over *)
    case_bool_decide as Halpn.
    + eapply ok_pure; [reflexivity|reflexivity|]. apply ok_ret. intros _. split_and!; try done; [by apply (books_same budget o _ l1)|]. intros _ _ v' Hu'.
      eapply (fed_up i l _ h (http2_conn.initiate h1)); try done. intros m x Hm Hx. unfold said in Hx. rewrite Ht, Hhs0 in Hx. destruct Hx as [_ [-> ->]].
      destruct (Hf m primed primed_feedable Hm primed_new) as (Hm1 & Hp1 & Hr1). destruct (initiate_kept m h1 Hm1) as [? E]. split_and!; [done|by rewrite E|].
      unfold said. cbn. rewrite Hhs1. split; [done|]. by apply reached_initiate.
    + destruct (fail_connect_run budget o cap l1 Hb1 Hcap) as (l2 & Hrun & Hb2 & [] & Hself & _).
      eapply ok_pure; [exact Hrun|exact k_ring0|]. apply ok_ret. intros _. split; [done|]. rewrite Hself. split; [|by split].
      by split; rewrite ?Hself.
  - apply ok_ret. intros _. split_and!; try done. intros _ _ v' Hu'. eapply (fed_up i l l1 h h1); try done. intros m x Hm Hx.
    unfold said in *. rewrite Ht, Hhs0 in Hx. cbn. rewrite (Hstay eq_refl). destruct Hx as [_ Hx].
    destruct (Hf m _ (reached_feedable x) Hm Hx) as (? & ? & ?). by split_and!.
Qed.

Lemma recycle_quiet i bid (l : L) P :
  at_slot P i l → ok i (recycle bid) l (λ _ l', at_slot P i l' ∧ ∃ w' p, l' = l <| world := w' |> <| shared := shared l <| pool := p |> |>).
Proof.
  intros Hs. unfold recycle. eapply ok_pure; [reflexivity|reflexivity|]. eapply ok_quiet; [by apply queues_log|].
  intros a w' Hsd Hd. split; [by eapply slot_quiet|by eexists _, _].
Qed.
Lemma recycle_any_quiet i bid (l : L) P :
  at_slot P i l → ok i (recycle_any bid) l (λ _ l', at_slot P i l' ∧ ∃ w' p, l' = l <| world := w' |> <| shared := shared l <| pool := p |> |>).
Proof.
  intros Hs. destruct bid as [bid|]; [by apply recycle_quiet|]. apply ok_ret. intros _. split; [done|]. exists (world l), (pool (shared l)). by destruct l as [? ? []].
Qed.

(** After the events: what was ended is out of the table. *)
Lemma worked_off i ev (l l' : L) v :
  kept l l' → up_after ev i (self l) v → (∀ m rest, table m (http2_conn.ended ev ++ rest) (streams (self l)) → table m rest (streams (self l'))) →
  up i (self l') v.
Proof.
  intros [] (? & ? & ? & ? & Hsn & h & m & Hh & Hok & Ht & b & Hr & Hlt & Hb) Hn.
  assert (unsent (self l') = unsent (self l)) as Hun by (unfold unsent; by rewrite k_sending0, k_out0, k_out_off0).
  unfold http2_inv.up. rewrite Hun, k_fd0, k_connected0, k_recv0, k_sending0, k_generation0, k_h3. split_and!; try done.
  exists h, m. split_and!; [done|done|by apply Hn|]. exists b. unfold said in *. by rewrite Hun, k_tls0, k_sending0, k_out0, k_out_off0.
Qed.
Lemma process_events_ok i o cap ev (l : L) :
  books budget o cap l → (∃ n rest, table n (http2_conn.ended ev ++ rest) (streams (self l))) →
  ok i (process_events ev) l (λ _ l', books budget o cap l' ∧ kept l l' ∧
    ∀ m rest, table m (http2_conn.ended ev ++ rest) (streams (self l)) → table m rest (streams (self l'))).
Proof.
  intros Hb (n & rest & Ht). pose proof (λ m r Hm, process_events_run budget o cap m r ev l Hb Hm) as Hp. pose proof (Hp n rest Ht) as Hp0.
  unfold ok, holds. destruct (process_events ev l) as [[[]|e] l']; [|done]. intros _. destruct Hp0 as (Hb' & Hk & _).
  pose proof Hk as []. change (ring_of l) with (world l). change (ring_of l') with (world l'). rewrite k_ring0. split; [apply frame_refl|].
  split; [done|]. split; [done|]. intros m r Hm. by apply Hp.
Qed.

(** Bytes have arrived. *)
Lemma on_data_ok i bid res o cap (l : L) :
  at_slot (up i (self l)) i l → books budget o cap l → cap + Z.of_nat parallel + 1 < 2 ^ 64 →
  ok i (c ← me;
        h ← lift (ok_or "recv without h2 connection" (h2 c));
        bytes ← data bid res;
        '(events, fed, refused) ← feed_received budget h bytes;
        _ ← recycle bid;
        _ ← process_events events;
        c ← me;
        if negb fed then mret true
        else if (refused : bool) then mret true
        else if goaway c && inflight.is_empty (streams c) then mret true
        else _ ← fill_streams target budget parallel; _ ← mark i; mret false) l (λ b l',
    if b then broken i o (cap + 1) l l' else working i o (cap + 1 + Z.of_nat parallel) l l' ∧ recv_armed (self l') = recv_armed (self l)).
Proof.
  intros Hs Hb Hcap. pose proof (s_here Hs) as Hu. pose proof Hu as (Hfd & _ & _ & _ & _ & h & n & Hh & _).
  eapply ok_pure; [reflexivity|reflexivity|]. rewrite Hh. cbn [ok_or]. eapply ok_pure; [reflexivity|reflexivity|].
  eapply (ok_bind i _ _ _ (λ d l', bytes_ok d ∧ l' = l)); [|intros; grow_ring|].
  { unfold data. eapply ok_pure; [reflexivity|reflexivity|]. apply ok_bind_lift. intros _ _. apply ok_ret. intros _. split; [|done].
    apply Forall_take, buffer_octets. }
  intros d l0 _ _ [Hd ->].
  eapply (ok_bind i _ _ _ (λ x l', received i o cap l x l')); [|intros [[? ?] ?]; grow_ring|].
  { destruct (tls (self l)) as [t|] eqn:Ht; [eapply feed_received_tls|eapply feed_received_plain]; try done; lia. }
  intros [[ev fed] refused] l1 _ _ (Hb1 & Hf1 & Htab & Hup). pose proof Hf1 as [].
  set (P := λ v, past v ∧ (fed = true → refused = false → up_after ev i (self l1) v)). assert (at_slot P i l1) as Hs1.
  { rewrite d_ring0, d_generation0. eapply slot_weaken; [exact Hs|]. intros v Hv. split; [by eapply up_past|auto]. }
  eapply ok_bind; [apply (recycle_quiet i bid l1 P Hs1)|intros; grow_ring|].
  intros [] l2 _ _ (Hs2 & w2 & p & ->). set (l2 := l1 <| world := w2 |> <| shared := _ |>).
  eapply ok_bind; [apply (process_events_ok i o (cap + 1) ev l2); [by apply (books_same budget o _ l1)|exact Htab]|intros; grow_ring|].
  intros [] l3 _ _ (Hb3 & Hk3 & Ht3). pose proof Hk3 as []. eapply ok_pure; [reflexivity|reflexivity|].
  assert (at_slot (λ v, past v ∧ (fed = true → refused = false → up i (self l3) v)) i l3) as Hs3.
  { rewrite k_ring0, k_generation0. eapply slot_weaken; [exact Hs2|]. intros v [? Hv]. split; [done|]. intros ? ?. eapply (worked_off i ev l2 l3); auto. }
  assert (moves l l3) as Hmv by (apply moves_same; [rewrite k_words0|rewrite k_stop0]; done).
  assert (broken i o (cap + 1) l l3) as Hbr.
  { split; [|split; [|done]]; [eapply slot_weaken; [exact Hs3|by intros v [? _]]|]. rewrite k_fd0. cbn. by rewrite d_fd0. }
  destruct fed; cbn [negb]; [|by apply ok_ret]. destruct refused; [by apply ok_ret|]. destruct (_ && _); [by apply ok_ret|].
  eapply ok_mono; [apply (fill_and_mark_ok i o (cap + 1) l3); [|done|lia]|].
  { eapply slot_weaken; [exact Hs3|]. intros v [_ Hv]. by apply Hv. }
  intros b l4 _ (-> & (? & ? & ? & ?) & Hr4). split; [|rewrite Hr4, k_recv0; done]. split_and!; try done. by etrans.
Qed.

Lemma h2_on_recv_ok i cqe o cap l :
  at_slot (received_back i (self l) cqe) i l → books budget o cap l → cap + Z.of_nat parallel + 1 < 2 ^ 64 → due i l →
  ok i (on_recv target budget parallel i cqe) l (λ b l',
    if b then broken i o (cap + 1) l l' else working i o (cap + 1 + Z.of_nat parallel) l l' ∧
      ((0 < cqe_result cqe → cqe_more cqe = true) → recv_armed (self l') = true)).
Proof.
  intros Hs Hb Hcap Hdue. unfold on_recv. pose proof (s_here Hs) as (Hu & Hm & Hra).
  set (l1 := l <| self := if cqe_more cqe then self l else self l <| recv_armed := false |> |>).
  eapply (ok_pure i _ _ _ tt l1); [|done|]. { subst l1. destruct (cqe_more cqe); [|done]. by destruct l. }
  assert (fd (self l1) = fd (self l) ∧ generation (self l1) = generation (self l) ∧ streams (self l1) = streams (self l) ∧ held (self l1) = held (self l) ∧
    h2 (self l1) = h2 (self l) ∧ tls (self l1) = tls (self l) ∧ sending (self l1) = sending (self l)) as (E1 & E2 & E3 & E4 & E5 & E6 & E7)
    by (subst l1; by destruct (cqe_more cqe)).
  assert (at_slot (up i (self l1)) i l1) as Hs1.
  { rewrite E2. eapply slot_weaken; [exact Hs|]. intros v (Hv & _). subst l1. by destruct (cqe_more cqe). }
  assert (books budget o cap l1) as Hb1 by by apply (books_same budget o cap l).
  assert (0 ≤ fd (self l1)) as Hfd by by destruct (s_here Hs1).
  assert (∀ w' p, at_slot (up i (self l1)) i (l1 <| world := w' |> <| shared := shared l1 <| pool := p |> |>) →
    broken i o (cap + 1) l (l1 <| world := w' |> <| shared := shared l1 <| pool := p |> |>)) as Hbr.
  { intros w' p Hsl. split; [eapply slot_weaken; [exact Hsl|intros v Hv; by eapply up_past]|]. split; [done|]. split; [|by apply moves_same].
    apply (books_cap budget o cap); [by apply (books_same budget o cap l1)|destruct Hb; lia]. }
  destruct (Z.ltb_spec (cqe_result cqe) 0) as [Hneg|Hpos]; [|destruct (Z.eqb_spec (cqe_result cqe) 0) as [H0'|H0']].
  - eapply ok_bind; [by apply (recycle_any_quiet i _ l1)|intros; grow_ring|]. intros [] l2 _ _ (Hs2 & w2 & p & ->).
    destruct (_ =? _); [|apply ok_ret; intros _; by apply Hbr]. set (l2 := l1 <| world := w2 |> <| shared := _ |>).
    assert (cqe_more cqe = false) as Hmf by (destruct (cqe_more cqe); [specialize (Hm eq_refl); lia|done]).
    assert (recv_armed (self l2) = false) as Hra2 by (subst l2 l1; cbn; by rewrite Hmf).
    eapply ok_bind; [apply (push_recv_rearms i l2 (up i (self l1))); [exact Hs2|intros v Hv; exact (up_rearmed i (self l1) v Hv Hra2)]|intros; grow_ring|].
    intros [] l3 _ _ [(w3 & ->) Hs3]. apply ok_ret. intros _. split; [|done]. split; [exact Hs3|]. split.
    + apply (books_cap budget o cap); [by apply (books_same budget o cap l1)|destruct Hb; lia].
    + split; [by apply moves_same|]. eapply due_same; [exact Hdue|done..].
  - eapply ok_bind; [by apply (recycle_any_quiet i _ l1)|intros; grow_ring|]. intros [] l2 _ _ (Hs2 & w2 & p & ->).
    apply ok_ret. intros _. by apply Hbr.
  - eapply ok_pure; [reflexivity|reflexivity|]. set (l2 := l1 <| shared := _ |>). apply ok_bind_lift. intros bid _.
    eapply ok_mono; [apply (on_data_ok i bid (cqe_result cqe) o cap l2); [exact Hs1|by apply (books_same budget o cap l1)|lia]|].
    intros [] l3 _; [by intros (? & ? & ? & ?)|]. intros [(? & ? & ? & ?) Hr3]. split; [by split_and!|]. intros Hmore. rewrite Hr3.
    subst l2 l1. cbn. rewrite Hmore by lia. done.
Qed.

(** *** One step of a connection *)

(** A connection that is up hears what the server says. *)
Definition listens (c : Conn C) : Prop := connected c = true → recv_armed c = true.

Record stepped (i : nat) (o cap : Z) (listen : Prop) (l : L) (f : flow) (l' : L) : Prop := {
  st_slot : at_slot (here i (self l')) i l';
  st_books : books budget o cap l';
  st_moves : moves l l';
  st_due : due i l';
  st_listens : listen → listens (self l');
  st_flow : match f with
            | Continue => provided l' ∨ fd (self l') = fd (self l) ∧ started (shared l') = started (shared l)
            | BreakOuter => stranded l'
            end;
}.

Lemma books_closed o cap (l l' : L) :
  books budget o cap l → weight (self l) = 0 → shared l' = shared l → streams (self l') = inflight.new → held (self l') = 0 → books budget o cap l'.
Proof.
  intros [] Hw Es Est Eh. unfold weight in *. split; rewrite ?Es; unfold weight; rewrite ?Est, ?Eh; cbn; lia || done.
Qed.

(** A connection is given up: its requests have failed, its socket is retired,
    and it has another if there is something left to start. *)
Lemma renew_ok i o cap listen (l0 l : L) :
  at_slot past i l → 0 ≤ fd (self l) → books budget o cap l → moves l0 l →
  ok i (_ ← fail_inflight; _ ← retire patience i; replace budget i) l (λ f l',
    stepped i o cap listen l0 f l' ∧ (length (events l) < length (events l'))%nat).
Proof.
  intros Hs Hfd Hb Hm. destruct (fail_inflight_run budget o cap l Hb) as (l1 & Hrun & Hb1 & [] & Hst1 & Hself).
  eapply ok_pure; [exact Hrun|exact k_ring0|]. assert (at_slot past i l1) as Hs1 by by rewrite k_ring0, k_generation0.
  eapply ok_bind; [apply (h2_retire_ends i l1 past Hs1); [by rewrite k_fd0|done]|intros; grow_ring|].
  intros [] l2 _ _ (Hs2 & Hsh2 & Hst2 & Hhe2 & Hcn2 & Hh2 & Hlen).
  assert (books budget o cap l2) as Hb2.
  { eapply (books_closed o cap l1); try done. unfold weight. rewrite Hself. done. }
  eapply ok_mono; [by apply ok_framed, replace_provides|]. intros f l3 _ (Hfr & Hs3 & Hsh3 & (f' & Hself3) & Hfl). split.
  2: { apply frame_length in Hfr. cbn in Hfr. rewrite <- k_ring0. lia. }
  split.
  - done.
  - eapply (books_same budget o cap l2); rewrite ?Hsh3, ?Hself3; done.
  - etrans; [exact Hm|]. split; rewrite Hsh3, Hsh2; [by rewrite k_words0|done].
  - left. right. rewrite Hself3. cbn. rewrite Hh2. done.
  - intros _. unfold listens. rewrite Hself3. cbn. congruence.
  - destruct f; auto.
Qed.

Lemma on_broken_ok i o cap listen (l0 l : L) :
  broken i o cap l0 l → cap + 1 < 2 ^ 64 → ok i (on_broken budget patience i) l (λ f l', stepped i o (cap + 1) listen l0 f l').
Proof.
  intros (Hs & Hfd & Hb & Hm) Hcap. unfold on_broken. eapply ok_pure; [reflexivity|reflexivity|].
  eapply (ok_bind i _ _ _ (λ _ l', at_slot past i l' ∧ 0 ≤ fd (self l') ∧ books budget o (cap + 1) l' ∧ moves l0 l')); [|intros; grow_ring|].
  - destruct (handshaking (self l)); cbn [when].
    + destruct (fail_connect_run budget o cap l Hb Hcap) as (l1 & Hrun & Hb1 & [] & Hself & _). eapply ok_pure_last; [exact Hrun|exact k_ring0|]. intros _.
      rewrite Hself, k_ring0. split_and!; try done. etrans; [exact Hm|]. by apply moves_same.
    + apply ok_ret. intros _. split_and!; try done. apply (books_cap budget o cap); [done|destruct Hb; lia].
  - intros [] l1 _ _ (? & ? & ? & ?). eapply ok_mono; [by apply renew_ok|]. by intros f l' _ [? _].
Qed.

(** What is left right after a completion, of any kind. *)
Definition reaped_now (i : nat) (op : Z) (cqe : Cqe) (l : L) : Prop :=
  if decide (op = OP_CONNECT_TIMEOUT) then at_slot (here i (self l)) i l else at_slot (reaped_here i (self l) op cqe) i l.

(** As much as a completion can start. *)
Abbreviation most := (Z.of_nat parallel + 2).
(** The kernel goes on with a receive that has brought something. *)
Definition goes_on (op : Z) (cqe : Cqe) : Prop := op = OP_RECV → 0 < cqe_result cqe → cqe_more cqe = true.

Lemma working_stepped i o cap cap' (listen : Prop) (l l' : L) :
  working i o cap l l' → cap ≤ cap' < 2 ^ 64 → (listen → recv_armed (self l') = true) → stepped i o cap' listen l Continue l'.
Proof.
  intros (Hs & Hb & Hm & Hd) Hcap Hl. split; try done.
  - eapply slot_weaken; [exact Hs|]. intros v Hv. by right; right.
  - by apply (books_cap budget o cap).
  - intros ? _. auto.
  - left. right. left. by destruct (s_here Hs).
Qed.
Lemma h2_on_op_ok i op cqe o cap (l : L) :
  reaped_now i op cqe l → 0 ≤ op < 4 → books budget o cap l → cap + most < 2 ^ 64 → due i l →
  ok i (broken ← on_op target https budget parallel i op cqe; if (broken : bool) then on_broken budget patience i else mret Continue) l
    (λ f l', stepped i o (cap + most) (listens (self l) ∧ goes_on op cqe) l f l').
Proof.
  intros Hs Hop Hb Hcap Hd. unfold reaped_now in Hs. set (listen := listens (self l) ∧ goes_on op cqe).
  assert (∀ l1, broken i o (cap + 1) l l1 → ok i (on_broken budget patience i) l1 (λ f l', stepped i o (cap + most) listen l f l')) as Hbr.
  { intros l1 Hl1. eapply ok_mono; [apply (on_broken_ok i o (cap + 1) listen l l1 Hl1); lia|]. intros f l' _ []. split; try done.
    apply (books_cap budget o (cap + 1 + 1)); [done|destruct Hb; lia]. }
  assert (∀ m, ok i m l (λ (b : bool) l', if b then broken i o (cap + 1) l l'
      else ∃ cap', working i o cap' l l' ∧ cap' ≤ cap + most ∧ (listen → recv_armed (self l') = true)) →
    ok i (b ← m; if (b : bool) then on_broken budget patience i else mret Continue) l (λ f l', stepped i o (cap + most) listen l f l')) as Hgo.
  { intros m Hm. eapply ok_bind; [exact Hm|intros []; grow_ring|]. intros [] l1 _ _ Hl1; [by apply Hbr|]. apply ok_ret. intros _. destruct Hl1 as (cap' & Hw & ? & ?).
    by apply (working_stepped i o cap'). }
  unfold on_op. destruct (Z.eqb_spec op OP_CONNECT) as [-> |Hn1]; [|destruct (Z.eqb_spec op OP_CONNECT_TIMEOUT) as [-> |Hn2];
    [|destruct (Z.eqb_spec op OP_SEND) as [-> |Hn3]; [|destruct (Z.eqb_spec op OP_RECV) as [-> |Hn4]]]].
  - apply Hgo. eapply ok_mono; [apply (h2_on_connect_ok i _ o cap l); [|done|lia]|].
    + eapply slot_weaken; [exact Hs|]. intros v. apply reaped_connect.
    + intros [] l1 _; [done|]. intros [Hw Hr]. eexists. split; [exact Hw|]. split; [lia|done].
  - eapply ok_pure; [reflexivity|reflexivity|]. apply ok_ret. intros _. split; try done; [|by intros []|by right].
    apply (books_cap budget o cap); [done|destruct Hb; lia].
  - rewrite decide_False in Hs by done. pose proof (s_here Hs) as (v0 & e & Hh & He & _). apply Hgo. eapply ok_mono; [apply (h2_on_send_ok i _ o cap l); [|done|done]|].
    + eapply slot_weaken; [exact Hs|]. intros v. apply reaped_send.
    + assert (connected (self l) = true) as Hcn.
      { pose proof (reaped_send _ _ _ _ (s_here Hs)) as (? & (_ & ? & _) & _). done. }
      intros [] l1 _; [intros (? & ? & ? & ?); split_and!; try done; apply (books_cap budget o cap); [done|destruct Hb; lia]|].
      intros [Hw Hr]. eexists. split; [exact Hw|]. split; [lia|]. intros [Hl _]. apply Hr. by apply Hl.
  - rewrite decide_False in Hs by done. apply Hgo. eapply ok_mono; [apply (h2_on_recv_ok i cqe o cap l); [|done|lia|done]|].
    + eapply slot_weaken; [exact Hs|]. intros v. apply reaped_recv.
    + intros [] l1 _; [done|]. intros [Hw Hr]. eexists. split; [exact Hw|]. split; [lia|]. intros [_ Hl]. apply Hr. by apply Hl.
  - unfold OP_CONNECT, OP_CONNECT_TIMEOUT, OP_SEND, OP_RECV in *. lia.
Qed.

(** A completion, whether of the connection's generation or of an earlier one. *)
Lemma h2_on_cqe_ok i op gen cqe o cap (l : L) :
  (if decide (gen = generation (self l)) then reaped_now i op cqe l else at_slot (here i (self l)) i l) →
  0 ≤ op < 4 → books budget o cap l → cap + most < 2 ^ 64 → due i l →
  ok i (on_cqe target https budget parallel patience i op gen cqe) l
    (λ f l', stepped i o (cap + most) (listens (self l) ∧ goes_on op cqe) l f l').
Proof.
  intros Hs Hop Hb Hcap Hd. unfold on_cqe. eapply ok_pure; [reflexivity|reflexivity|]. destruct (Z.eqb_spec gen (generation (self l))) as [Hg|Hg]; cbn [negb].
  - rewrite decide_True in Hs by done. by apply h2_on_op_ok.
  - rewrite decide_False in Hs by done. eapply ok_bind; [apply (recycle_any_quiet i _ l _ Hs)|intros; grow_ring|].
    intros [] l1 _ _ (Hs1 & w1 & p & ->). apply ok_ret. intros _. split; try done; [|by intros []|by right].
    apply (books_cap budget o cap); [by apply (books_same budget o cap l)|destruct Hb; lia].
Qed.

(** *** A connection that has waited too long *)

Lemma timed_out_run at_ limit ms (l : L) :
  ∃ b t, timed_out at_ limit ms l = (Ok b, l <| self := self l <| idle_since := t |> |>) ∧
    (b = true → connected (self l) = true ∨ is_Some (inflight.slot (streams (self l)) 0)).
Proof.
  unfold timed_out. rewrite bind_run. unfold me. rewrite bind_run. cbn [get mret eff_ret].
  destruct (inflight.slot (streams (self l)) 0) as [r|].
  - eexists _, at_. split; [reflexivity|]. intros _. by right.
  - eexists _, (idle_since (self l)). split; [by destruct l as [? []]|]. intros Hb. left. by repeat apply andb_prop in Hb as [Hb ?].
Qed.

Lemma check_timeout_ok i limit at_ o cap (l : L) :
  at_slot (here i (self l)) i l → books budget o cap l → cap + 1 < 2 ^ 64 → due i l →
  ok i (check_timeout budget patience i limit at_) l (λ f l',
    stepped i o cap (listens (self l)) l f l' ∨ stepped i o (cap + 1) (listens (self l)) l f l' ∧ (length (events l) < length (events l'))%nat).
Proof.
  intros Hs Hb Hcap Hd. unfold check_timeout. eapply ok_pure; [reflexivity|reflexivity|].
  destruct (timed_out_run at_ limit (budget.may_start budget (started (shared l))) l) as (b & t & Hrun & Hw).
  eapply ok_pure; [exact Hrun|reflexivity|]. set (l1 := l <| self := _ |>).
  assert (books budget o cap l1) as Hb1 by by apply (books_same budget o cap l).
  destruct b; cbn [negb].
  2: { apply ok_ret. intros _. left. split; try done. by right. }
  assert (up i (self l) (view (events l) i (generation (self l)))) as Hu.
  { destruct (s_here Hs) as [(_ & Hba & _)|[(_ & Hba & _)|Hu]]; [..|done]; exfalso; destruct Hba as (Hc & _ & _ & _ & _ & Hst & _); rewrite Hc, Hst in Hw;
      destruct (Hw eq_refl) as [?|[x Hx]]; done. }
  assert (at_slot past i l1) as Hs1 by (eapply slot_mono; [exact Hs|by eapply up_past]). eapply ok_pure; [reflexivity|reflexivity|].
  eapply (ok_bind i _ _ _ (λ _ l', at_slot past i l' ∧ 0 ≤ fd (self l') ∧ books budget o (cap + 1) l' ∧ moves l l')); [|intros; grow_ring|].
  - destruct (_ && _); cbn [when].
    + destruct (fail_connect_run budget o cap l1 Hb1 Hcap) as (l2 & Hrun2 & Hb2 & [] & Hself & _). eapply ok_pure_last; [exact Hrun2|exact k_ring0|]. intros _.
      rewrite Hself, k_ring0. split_and!; try done; [by destruct Hu|]. by apply moves_same.
    + apply ok_ret. intros _. split_and!; try done; [by destruct Hu|]. apply (books_cap budget o cap); [done|destruct Hb; lia].
  - intros [] l2 _ Hfr (? & ? & ? & ?). apply frame_length in Hfr. cbn in Hfr. eapply ok_mono; [by apply renew_ok|].
    intros f l' _ [? ?]. right. split; [done|]. cbn in *. lia.
Qed.
End methods.
End http2_run.
