(* ===== verification/Http2WorkerLoop.v ===== *)
(** * The loop of an HTTP/2 worker

    From one completion to whole runs: batches of completions, the pass over the
    deadlines, the flush of the connections marked, set-up, and the loop. *)

From S2P Require Import Prelude Effects Status Stats Inflight Target Requests Http2Conn Uring UringRun UringConn Tls TlsHandshake Http2Worker Http2WorkerInv Http2WorkerRun.
From stdpp Require Import relations.
#[local] Open Scope Z_scope.

Module http2_loop.
Import uring uring_run uring_conn http2 http2_inv http2_run.

(** ** The bits of a word *)

(** The places of the ones among the first [n] bits, from the lowest. *)
Definition ones_below (n : nat) (x : Z) : list nat := List.filter (λ k, Z.testbit x (Z.of_nat k)) (seq 0 n).
Abbreviation ones := (ones_below 64).

Lemma elem_of_ones x k : k ∈ ones x ↔ (k < 64)%nat ∧ Z.testbit x (Z.of_nat k) = true.
Proof. unfold ones_below. rewrite list_elem_of_In, List.filter_In, <- list_elem_of_In, elem_of_seq. intuition lia. Qed.
Lemma trailing_zeros_head x : trailing_zeros x = default 64%nat (head (ones x)).
Proof.
  unfold trailing_zeros, ones_below. f_equal. generalize (seq 0 64) as l. induction l as [|k l IH]; [done|]. cbn. by destruct (Z.testbit x (Z.of_nat k)).
Qed.
Lemma ones_zero x : 0 ≤ x < 2 ^ 64 → ones x = [] → x = 0.
Proof.
  intros Hx Ho. apply Z.bits_inj'. intros k Hk. rewrite Z.bits_0. destruct (Z.lt_ge_cases k 64).
  - destruct (Z.testbit x k) eqn:E; [|done]. assert (Z.to_nat k ∈ ones x) as Hin by (apply elem_of_ones; rewrite Z2Nat.id by done; split; [lia|done]).
    rewrite Ho in Hin. by apply not_elem_of_nil in Hin.
  - destruct (Z.eq_dec x 0) as [-> |]; [apply Z.bits_0|]. apply Z.bits_above_log2; [lia|]. assert (Z.log2 x < 64) by (apply Z.log2_lt_pow2; lia). lia.
Qed.

(** Taking one from a number clears its lowest one and sets what is below. *)
Lemma lowest_cleared x k0 :
  0 ≤ k0 → Z.testbit x k0 = true → (∀ k, 0 ≤ k < k0 → Z.testbit x k = false) →
  ∀ k, 0 ≤ k → Z.testbit (Z.land x (x - 1)) k = Z.testbit x k && negb (k =? k0).
Proof.
  intros H0 Hone Hlow k Hk. rewrite Z.land_spec.
  assert (x mod 2 ^ (k0 + 1) = 2 ^ k0) as Hmod.
  { apply Z.bits_inj'. intros m Hm. rewrite Z.pow2_bits_eqb by done. destruct (Z.lt_ge_cases m (k0 + 1)).
    - rewrite Z.mod_pow2_bits_low by lia. destruct (Z.eqb_spec k0 m) as [<- |]; [done|]. apply Hlow. lia.
    - rewrite Z.mod_pow2_bits_high by lia. symmetry. apply Z.eqb_neq. lia. }
  pose proof (Z.div_mod x (2 ^ (k0 + 1)) ltac:(lia)) as Hd. rewrite Hmod in Hd. set (y := x / 2 ^ (k0 + 1)) in *.
  assert (0 < 2 ^ k0) as Hpos by lia. assert (2 ^ (k0 + 1) = 2 * 2 ^ k0) as Hp by (rewrite Z.pow_add_r by lia; lia).
  destruct (Z.lt_trichotomy k k0) as [Hlt|[-> |Hgt]].
  - rewrite (Hlow k) by lia. done.
  - rewrite Z.eqb_refl, andb_false_r, Hone. cbn [andb]. rewrite <- (Z.add_0_l k0) at 1. rewrite <- Z.div_pow2_bits by lia.
    replace ((x - 1) / 2 ^ k0) with (2 * y); [apply Z.testbit_even_0|]. apply (Z.div_unique _ _ _ (2 ^ k0 - 1)); lia.
  - rewrite (proj2 (Z.eqb_neq _ _)) by lia. cbn [negb]. rewrite andb_true_r. replace k with (k - (k0 + 1) + (k0 + 1)) by lia.
    rewrite <- !Z.div_pow2_bits by lia. fold y. replace ((x - 1) / 2 ^ (k0 + 1)) with y; [by destruct (Z.testbit y _)|].
    apply (Z.div_unique _ _ _ (2 ^ k0 - 1)); lia.
Qed.

Lemma filter_seq_head (p : nat → bool) n : ∀ a k rest,
  List.filter p (seq a n) = k :: rest →
  (∀ j, (a ≤ j < k)%nat → p j = false) ∧ p k = true ∧ (a ≤ k)%nat ∧ List.filter (λ j, p j && negb (j =? k)%nat) (seq a n) = rest.
Proof.
  induction n as [|n IH]; intros a k rest Hf; [done|]. cbn [seq List.filter] in *. destruct (p a) eqn:Ha; cbn [andb].
  - injection Hf as -> <-. rewrite Nat.eqb_refl. cbn [negb]. split_and!; [lia|done|lia|]. apply List.filter_ext_in. intros j Hj%List.in_seq.
    rewrite (proj2 (Nat.eqb_neq _ _)) by lia. apply andb_true_r.
  - destruct (IH _ _ _ Hf) as (Hlow & Hk & Hle & Hr). split_and!; [|done|lia|done]. intros j Hj. destruct (Nat.eq_dec j a) as [-> |]; [done|]. apply Hlow. lia.
Qed.
Lemma ones_below_cleared x k n rest : ones_below n x = k :: rest → ones_below n (Z.land x (x - 1)) = rest.
Proof.
  unfold ones_below. intros Ho. destruct (filter_seq_head _ _ _ _ _ Ho) as (Hlow & Hk & _ & <-). clear Ho.
  apply List.filter_ext_in. intros j _. rewrite (lowest_cleared x (Z.of_nat k)); [|lia|done| |lia].
  - f_equal. f_equal. destruct (Nat.eqb_spec j k), (Z.eqb_spec (Z.of_nat j) (Z.of_nat k)); lia || done.
  - intros m Hm. specialize (Hlow (Z.to_nat m) ltac:(lia)). by rewrite Z2Nat.id in Hlow by lia.
Qed.
Lemma ones_cleared x k rest : ones x = k :: rest → ones (Z.land x (x - 1)) = rest ∧ trailing_zeros x = k.
Proof. intros Ho. split; [by eapply ones_below_cleared|]. by rewrite trailing_zeros_head, Ho. Qed.

(** ** Draining *)

Section loop.
Context `{Kernel} {C : Type} `{CL : ClientLaws C} `{VecGrowth} `{!Octets C} `{!HandshakeLaws C} {SocketAddr : Type}.
Variables (target : target.Target SocketAddr) (https : bool) (budget : budget.Budget) (timeout : option Z) (parallel patience : nat).
Variable settings : Settings.
Abbreviation Worker := (Worker (Conn C) Shared).
Abbreviation W := (eff Worker error).
Abbreviation L := (Local (Conn C) Shared).
Abbreviation whist w := (hist (w_world w)).

Definition flush_at (i : nat) : W unit := at_conn i (flush i).

(** Sixty-four turns are enough for a word, and they flush exactly the slots
    that are marked in it, in order. *)
Lemma drain_bits_ones fuel : ∀ word_idx x w,
  0 ≤ x < 2 ^ 64 → (length (ones x) ≤ fuel)%nat →
  drain_bits (C := C) fuel word_idx x w = for_each ((λ k, word_idx * 64 + k)%nat <$> ones x) flush_at w.
Proof.
  induction fuel as [|fuel IH]; intros word_idx x w Hx Hf; cbn [drain_bits].
  - assert (x = 0) as -> by (apply ones_zero; [done|]; by apply length_zero_iff_nil; lia). done.
  - destruct (Z.eqb_spec x 0) as [-> |Hne]; [done|]. destruct (ones x) as [|k rest] eqn:Ho; [by apply ones_zero in Ho|].
    destruct (ones_cleared x k rest Ho) as [Hrest ->]. cbn [fmap list_fmap for_each]. rewrite !bind_run.
    change (at_conn (word_idx * 64 + k) (flush (word_idx * 64 + k))) with (flush_at (word_idx * 64 + k)).
    destruct (flush_at (word_idx * 64 + k) w) as [[[]|e] w1]; [|done]. rewrite IH; [by rewrite Hrest| |].
    + assert (0 ≤ Z.land x (x - 1)) by (apply Z.land_nonneg; lia). split; [done|]. destruct (Z.eq_dec (Z.land x (x - 1)) 0) as [-> |]; [lia|].
      apply Z.log2_lt_pow2; [lia|]. pose proof (Z.log2_land x (x - 1) ltac:(lia) ltac:(lia)). assert (Z.log2 x < 64) by (apply Z.log2_lt_pow2; lia). lia.
    + rewrite Hrest. cbn in Hf. lia.
Qed.

(** The slots marked in a word. *)
Definition slots_of (word_idx : nat) (x : Z) : list nat := (λ k, word_idx * 64 + k)%nat <$> ones x.
Definition cleared (word_idx : nat) (w : Worker) : Worker :=
  w <| w_shared := w_shared w <| words := <[word_idx := 0]> (words (w_shared w)) |> |>.
Lemma elem_of_slots_of word_idx x i :
  i ∈ slots_of word_idx x ↔ (i / 64)%nat = word_idx ∧ Z.testbit x (Z.of_nat (i mod 64)) = true.
Proof.
  unfold slots_of. rewrite list_elem_of_fmap. split.
  - intros (k & -> & [Hk Hb]%elem_of_ones). rewrite Nat.add_comm, Nat.div_add, Nat.div_small, Nat.Div0.mod_add, Nat.mod_small by lia. done.
  - intros [<- Hb]. exists (i mod 64)%nat. split; [pose proof (Nat.div_mod_eq i 64); lia|]. apply elem_of_ones. split; [|done]. by apply Nat.mod_upper_bound.
Qed.
Lemma length_ones x : (length (ones x) ≤ 64)%nat.
Proof. unfold ones_below. etrans; [apply List.filter_length_le|]. by rewrite length_seq. Qed.

(** Either way, draining a word clears it and flushes what was marked in it. *)
Lemma drain_word_slots word_idx x w :
  words (w_shared w) !! word_idx = Some x → 0 ≤ x < 2 ^ 64 →
  drain_word (C := C) word_idx w = for_each (slots_of word_idx x) flush_at (cleared word_idx w).
Proof.
  intros Hx Hb. unfold drain_word. rewrite bind_run. cbn [get]. rewrite bind_run, Hx. cbn [lift]. rewrite bind_run. cbn [modify].
  fold (cleared word_idx w). destruct (Z.eqb_spec x U64_MAX) as [-> |].
  - unfold slots_of. assert (ones U64_MAX = seq 0 64) as -> by (vm_compute; reflexivity). by rewrite fmap_add_seq, Nat.add_0_r.
  - apply drain_bits_ones; [done|apply length_ones].
Qed.

(** ** The worker *)

Abbreviation most := (Z.of_nat parallel + 2).
Definition timed : Prop := ∃ d, budget = budget.Duration d.
Abbreviation slots_ok := (slots_ok (X := Shared) generation (legit (C := C) target https) (here target https) timed).
Abbreviation slots_but := (slots_but (X := Shared) generation (legit (C := C) target https) (here target https) timed).
Abbreviation owing w := (load weight (conns w)).
Abbreviation begun w := (started (w_shared w)).

(** No receive has ended with something received. *)
Definition sustained (h : list Event) : Prop := ∀ cqe, Reaped cqe ∈ h → goes_on ((decode_user_data (cqe_ud cqe)).1.1) cqe.
Lemma sustained_suffix h h' : h `suffix_of` h' → sustained h' → sustained h.
Proof. intros [k ->] Hs cqe Hc. apply Hs. apply elem_of_app. by right. Qed.

(** What holds between completions besides [slots_ok]. *)
Record orderly (w : Worker) : Prop := {
  o_some : (0 < length (conns w))%nat;
  o_completed : 0 ≤ stats.completed (stats (w_shared w));
  o_errors : 0 ≤ stats.errors (stats (w_shared w));
  o_held i c : conns w !! i = Some c → 0 ≤ held c;
  o_balance : finished (w_shared w) + owing w = begun w;
  o_cap : begun w ≤ most * Z.of_nat (length (whist w));
  o_budget : match budget with budget.Requests n => begun w ≤ n | budget.Duration _ => True end;
  o_words : words_ok (words (w_shared w));
  o_listens : sustained (whist w) → ∀ i c, conns w !! i = Some c → listens c;
  o_stop : stop (w_shared w) = true → timed;
}.
(** Output that waits will be flushed. *)
Definition attentive (w : Worker) : Prop := ∀ i c, conns w !! i = Some c → settled c ∨ marked (words (w_shared w)) i.
(** While there is something to start, some connection has a socket. *)
Definition cared (w : Worker) : Prop :=
  stop (w_shared w) = true ∨ (∃ i c, conns w !! i = Some c ∧ 0 ≤ fd c) ∨ budget.may_start budget (begun w) = false.
(** A socket was to be replaced, and could not be. *)
Definition adrift (w : Worker) : Prop := (∃ i c, conns w !! i = Some c ∧ fd c = -1) ∧ budget.may_start budget (begun w) = true.

Hypothesis parallel_small : most ≤ 2 ^ 22.

Lemma room h : sound h → most * (Z.of_nat (length h) + 1) < 2 ^ 64.
Proof. intros [_ Hn]. unfold GENERATION_BITS, CONN_IDX_BITS in Hn. nia. Qed.

Lemma orderly_books w i c : orderly w → sound (whist w) → conns w !! i = Some c →
  books budget (owing w - weight c) (most * Z.of_nat (length (whist w))) (local w c).
Proof.
  intros [] Hs Hc. pose proof (room _ Hs). pose proof (load_elem weight weight_nonneg _ _ _ Hc). split; cbn; try done; try lia.
  by eapply o_held0.
Qed.

Lemma orderly_absorb i c w listen cap l' f :
  orderly w → conns w !! i = Some c → whist w `suffix_of` hist (world l') →
  stepped target https budget i (owing w - weight c) cap listen (local w c) f l' → cap ≤ most * Z.of_nat (length (hist (world l'))) →
  (sustained (hist (world l')) → listen) → orderly (absorb i w l').
Proof.
  intros Ho Hc Hsuf Hst Hcap Hl. pose proof Ho as []. destruct Hst as [_ [] [[Hlen [Hwok _]] Hstop] _ Hlis _].
  assert (∀ j c', <[i := self l']> (conns w) !! j = Some c' → j = i ∧ c' = self l' ∨ conns w !! j = Some c') as Hlook.
  { intros j c' Hj. apply list_lookup_insert_Some in Hj as [(-> & <- & _)|[_ Hj]]; auto. }
  split; cbn; try done.
  - by rewrite length_insert.
  - intros j c' Hj. destruct (Hlook j c' Hj) as [[_ ->]|Hj']; [done|by eapply o_held0].
  - rewrite (load_insert weight _ _ _ _ Hc). lia.
  - lia.
  - auto.
  - intros Hsu j c' Hj. destruct (Hlook j c' Hj) as [[_ ->]|Hj']; [auto|]. eapply o_listens0; [|done]. by eapply sustained_suffix.
  - intros Hst. apply o_stop0. cbn in Hstop. congruence.
Qed.
Lemma attentive_absorb i c w (l' : L) :
  attentive w → conns w !! i = Some c → due i l' → marks (words (w_shared w)) (words (shared l')) → attentive (absorb i w l').
Proof.
  intros Ha Hc Hd (_ & _ & Hm) j c' Hj. cbn in Hj. apply list_lookup_insert_Some in Hj as [(-> & <- & _)|[_ Hj]]; [done|].
  destruct (Ha j c' Hj); [by left|right; by apply Hm].
Qed.
Lemma cared_absorb i c w listen cap o l' f :
  cared w → conns w !! i = Some c → stepped target https budget i o cap listen (local w c) f l' →
  match f with Continue => cared (absorb i w l') | BreakOuter => adrift (absorb i w l') end.
Proof.
  intros Hca Hc [_ _ [_ Hstop] _ _ Hfl]. pose proof (lookup_lt_Some _ _ _ Hc) as Hi.
  assert (<[i := self l']> (conns w) !! i = Some (self l')) as Hself by by apply list_lookup_insert_eq.
  destruct f.
  - cbn in Hstop. destruct Hfl as [[?|[?|?]]|[Hfd Hst]]; [by left|right; left; by exists i, (self l')|by right; right|].
    destruct Hca as [?|[(j & c' & Hj & Hf)|?]]; [left; cbn; congruence| |right; right; cbn in *; congruence]. right. left.
    destruct (decide (j = i)) as [-> |Hne]; [exists i, (self l'); split; [done|]; cbn in Hfd; assert (c' = c) as -> by congruence; lia|].
    exists j, c'. split; [|done]. cbn. by rewrite list_lookup_insert_ne.
  - destruct Hfl as [Hfd Hms]. split; [by exists i, (self l')|done].
Qed.

(** What a step of the loop leaves. *)
Definition steps (w : Worker) (f : flow) (w' : Worker) : Prop :=
  slots_ok w' ∧ orderly w' ∧ attentive w' ∧ length (conns w') = length (conns w) ∧ stop (w_shared w') = stop (w_shared w) ∧
  match f with Continue => cared w' | BreakOuter => adrift w' end.

Lemma at_step i c listen (m : eff L error flow) w :
  conns w !! i = Some c → slots_but i w → orderly w → attentive w → cared w →
  ok i m (local w c) (λ f l', ∃ cap, stepped target https budget i (owing w - weight c) cap listen (local w c) f l' ∧
    cap ≤ most * Z.of_nat (length (hist (world l')))) →
  (∀ h, whist w `suffix_of` h → sustained h → listen) →
  wok (at_conn i m) w (λ f w', steps w f w').
Proof.
  intros Hc Hs Ho Ha Hca Hm Hl. eapply wok_mono.
  - eapply (at_conn_keeps _ _ _ _ i c m w); [done|done|]. eapply ok_mono; [exact Hm|]. intros f l' _ (cap & Hst & Hcap). split; [apply Hst|].
    instantiate (1 := λ f l', ∃ cap, stepped target https budget i (owing w - weight c) cap listen (local w c) f l' ∧
      cap ≤ most * Z.of_nat (length (hist (world l')))). by exists cap.
  - intros f w' _ (Hs' & Hsuf & l' & -> & cap & Hst & Hcap). split; [done|]. split; [eapply orderly_absorb; eauto|].
    split; [eapply attentive_absorb; [done|done|apply Hst|apply Hst]|]. split; [apply length_insert|]. split; [apply Hst|].
    by eapply cared_absorb.
Qed.

(** *** Histories only grow *)

Abbreviation wgrows m := (evolves (E := error) (sgrows (S := Worker)) m).
Ltac grow_worker := grow_ring; try match goal with |- sgrows ?w _ => apply (reflexivity (w_world w)) end.
Lemma h2_take_cqe_grows cqe : wgrows (take_cqe target https budget parallel patience cqe).
Proof. unfold take_cqe. grow_worker. Qed.
Lemma flush_at_grows i : wgrows (flush_at i).
Proof. unfold flush_at. grow_worker. Qed.
#[local] Hint Resolve h2_take_cqe_grows flush_at_grows : rings.
Lemma drain_bits_grows fuel : ∀ k x, wgrows (drain_bits (C := C) fuel k x).
Proof. induction fuel as [|fuel IH]; intros k x; cbn [drain_bits]; grow_worker. Qed.
#[local] Hint Resolve drain_bits_grows : rings.
Lemma drain_word_grows k : wgrows (drain_word (C := C) k).
Proof. unfold drain_word. grow_worker. Qed.
#[local] Hint Resolve drain_word_grows : rings.
Lemma flush_pending_grows : wgrows (flush_pending (C := C)).
Proof. unfold flush_pending. grow_worker. Qed.
Lemma timeout_pass_grows : wgrows (timeout_pass (C := C) budget timeout patience).
Proof. unfold timeout_pass. grow_worker. Qed.
Lemma h2_completion_pass_grows cqes : wgrows (completion_pass target https budget parallel patience cqes).
Proof. unfold completion_pass. grow_worker. Qed.
#[local] Hint Resolve flush_pending_grows timeout_pass_grows h2_completion_pass_grows : rings.
Lemma h2_turn_grows : wgrows (turn target https budget timeout parallel patience settings).
Proof. unfold turn. grow_worker. Qed.
#[local] Hint Resolve h2_turn_grows : rings.
Lemma h2_main_loop_grows n : wgrows (main_loop target https budget timeout parallel patience settings n).
Proof. induction n as [|n IH]; cbn [main_loop]; grow_worker. Qed.
Lemma h2_open_all_grows ids : wgrows (open_all (C := C) budget ids).
Proof. induction ids as [|i ids IH]; cbn [open_all]; grow_worker. Qed.

(** *** Completions *)

Definition fit (w : Worker) : Prop := slots_ok w ∧ orderly w ∧ attentive w.
(** How a pass over connections or completions goes on, or is broken off. *)
Definition passed (f : flow) (w : Worker) : Prop := fit w ∧ match f with Continue => cared w | BreakOuter => adrift w end.

Lemma orderly_longer w x : orderly w → whist w `suffix_of` hist x → orderly (w <| w_world := x |>).
Proof.
  intros [] Hsuf. split; cbn; try done.
  - apply suffix_length in Hsuf. nia.
  - intros Hs. apply o_listens0. by eapply sustained_suffix.
Qed.

Lemma h2_take_cqe_ok cqe w :
  fit w → cared w → wok (take_cqe target https budget parallel patience cqe) w (λ f w', passed f w').
Proof.
  intros (Hsl & Ho & Ha) Hca. unfold take_cqe. eapply wok_pure; [reflexivity|]. change (set_ring _ w) with (after_reaped cqe w).
  assert (orderly (after_reaped cqe w)) as Ho1 by (apply orderly_longer; [done|by exists [Reaped cqe]]).
  destruct (Z.eqb_spec (cqe_ud cqe) TIMEOUT_USER_DATA) as [Hto|Hto].
  - eapply wok_pure; [reflexivity|]. apply wok_ret. intros Hs. destruct (slots_timer _ _ _ _ cqe w Hsl Hs Hto) as [Hsl1 Ht].
    split; [|by left]. split; [by apply slots_shared|]. split; [|done]. destruct Ho1. split; cbn; try done.
  - destruct (decode_user_data (cqe_ud cqe)) as [[op i] g] eqn:Hdec. apply wok_sound; [grow_worker|]. intros Hs.
    destruct (slots_reaped _ _ _ _ cqe w Hsl Hs Hto) as (i' & g' & op' & c & Hdec' & Hop & Hc & Hbut & Hc').
    rewrite Hdec in Hdec'. injection Hdec' as <- <- <-. pose proof (sound_suffix (whist w) _ ltac:(by exists [Reaped cqe]) Hs) as Hs0.
    pose proof (room _ Hs0) as Hroom. eapply wok_mono; [apply (at_step i c (listens c ∧ goes_on op cqe)); try done|].
    + eapply ok_mono; [apply ok_framed, (h2_on_cqe_ok target https budget parallel patience i op g cqe (owing w - weight c) (most * Z.of_nat (length (whist w))))|].
      * unfold reaped_now. cbn [self local]. repeat case_decide; first [exact Hc'|tauto].
      * done.
      * eapply (books_same budget _ _ (local w c)); [by apply (orderly_books w i)|done..].
      * lia.
      * destruct (Ha i c Hc); [by left|by right].
      * intros f l' _ [Hfr Hst]. eexists. split; [exact Hst|]. apply frame_length in Hfr. cbn in Hfr. nia.
    + intros h Hsuf Hsus. split; [eapply o_listens; [exact Ho1| |exact Hc]; by eapply sustained_suffix|].
      specialize (Hsus cqe). rewrite Hdec in Hsus. apply Hsus. destruct Hsuf as [k ->]. apply elem_of_app. right. by left.
    + intros f w' _ (? & ? & ? & _ & _ & ?). by split.
Qed.

Lemma h2_completion_pass_ok cqes w :
  fit w → cared w → wok (completion_pass target https budget parallel patience cqes) w (λ f w', passed f w').
Proof.
  intros Hw Hca. unfold completion_pass.
  apply (wok_mono _ _ (λ f w', match f with Continue => fit w' ∧ cared w' | BreakOuter => fit w' ∧ adrift w' end)); [|by intros []].
  apply until_wok; [apply h2_take_cqe_grows| |done]. intros cqe w' _ [? ?]. eapply wok_mono; [by apply h2_take_cqe_ok|]. by intros [].
Qed.

(** *** Connections that have waited too long *)

Lemma check_timeout_step i limit at_ w :
  fit w → cared w → (i < length (conns w))%nat →
  wok (at_conn i (check_timeout budget patience i limit at_)) w (λ f w', steps w f w').
Proof.
  intros (Hsl & Ho & Ha) Hca Hi. destruct (lookup_lt_is_Some_2 (conns w) i Hi) as [c Hc].
  apply wok_sound; [grow_worker|]. intros Hs. pose proof (room (whist w) Hs) as Hroom.
  apply (at_step i c (listens c)); try done; [by apply slots_but_ok| |].
  - eapply ok_mono; [apply ok_framed, (check_timeout_ok target https budget patience i limit at_ (owing w - weight c) (most * Z.of_nat (length (whist w))))|].
    + by apply Hsl.
    + by apply (orderly_books w i).
    + lia.
    + destruct (Ha i c Hc); [by left|by right].
    + intros f l' _ [Hfr [Hst|[Hst Hlen]]]; (eexists; split; [exact Hst|]); apply frame_length in Hfr; cbn in *; nia.
  - intros h Hsuf Hsus. eapply o_listens; [exact Ho| |exact Hc]. by eapply sustained_suffix.
Qed.

Lemma timeout_pass_ok w :
  fit w → cared w → wok (timeout_pass (C := C) budget timeout patience) w (λ f w', passed f w').
Proof.
  intros Hw Hca. unfold timeout_pass. destruct timeout as [limit|]; [|by apply wok_ret]. eapply wok_pure; [reflexivity|].
  apply (wok_mono _ _ (λ f w', match f with Continue => (fit w' ∧ cared w') ∧ length (conns w') = length (conns w) | BreakOuter => fit w' ∧ adrift w' end)).
  2: { intros [] w' _; [by intros [[? ?] _]|done]. }
  apply (until_wok _ _ (λ w', (fit w' ∧ cared w') ∧ length (conns w') = length (conns w)) (λ w', fit w' ∧ adrift w')); [intros; grow_worker| |done].
  intros i w' Hi [[Hw' Hca'] Hlen]. apply elem_of_seq in Hi. eapply wok_mono; [apply check_timeout_step; [done|done|lia]|].
  intros [] w'' _ (? & ? & ? & ? & _ & ?); [split; [done|congruence]|done].
Qed.

(** *** The flush pass *)

Abbreviation in_slot i l :=
  (slot (within (legit (C := C) target https)) (here target https i (self l)) (hist (world l)) i (generation (self l))).
Lemma h2_flush_ok i (l : L) :
  in_slot i l → ok i (flush i) l (λ _ l', in_slot i l' ∧ steady l l' ∧ settled (self l')).
Proof.
  intros Hs. destruct (s_here Hs) as [(_ & Hb & _)|[(_ & Hb & _)|Hu]].
  1,2: unfold flush; eapply ok_pure; [reflexivity|reflexivity|]; destruct Hb as (_ & Hh & _ & Hsd & _); rewrite Hsd, Hh; apply ok_ret; intros _;
    split; [done|]; split; [by split|]; right; intros h; congruence.
  eapply ok_mono; [apply (flush_settles target https budget); eapply slot_mono; [exact Hs|exact Hu]|]. intros [] l' _ (Hs' & ? & ?). split; [|done].
  eapply slot_weaken; [exact Hs'|]. intros v Hv. by right; right.
Qed.

(** Slots still to come, of these words and of this list. *)
Definition awaited (ks ids : list nat) (w : Worker) : Prop := ∀ i c, conns w !! i = Some c →
  settled c ∨ i ∈ ids ∨ marked (words (w_shared w)) i ∧ (i / 64)%nat ∈ ks.
Definition flushing (n : nat) (w : Worker) : Prop :=
  slots_ok w ∧ orderly w ∧ cared w ∧ length (words (w_shared w)) = n.

Lemma flush_at_ok n i ks ids w :
  flushing n w ∧ awaited ks (i :: ids) w → wok (flush_at i) w (λ _ w', (flushing n w' ∧ awaited ks ids w') ∧ stop (w_shared w') = stop (w_shared w)).
Proof.
  intros [(Hsl & Ho & Hca & Hn) Haw]. destruct (conns w !! i) as [c|] eqn:Hc; [|unfold wok, holds, flush_at, at_conn; by rewrite Hc].
  eapply wok_mono.
  - eapply (at_conn_keeps _ _ _ _ i c (flush i) w (λ _ l', steady (local w c) l' ∧ settled (self l'))); [done|by apply slots_but_ok|].
    eapply ok_mono; [apply (h2_flush_ok i (local w c)); by apply Hsl|]. intros [] l' _ (? & ? & ?). done.
  - intros [] w' _ (Hs' & Hsuf & l' & -> & [] & Hset). cbn in y_shared0, y_fd0, y_connected0, y_recv0, y_streams0, y_held0.
    assert (∀ j c', <[i := self l']> (conns w) !! j = Some c' → j = i ∧ c' = self l' ∨ conns w !! j = Some c' ∧ j ≠ i) as Hlook.
    { intros j c' Hj. apply list_lookup_insert_Some in Hj as [(-> & <- & _)|[? Hj]]; auto. }
    assert (weight (self l') = weight c) as Hwt by (unfold weight; by rewrite y_streams0, y_held0).
    split; [|cbn; by rewrite y_shared0]. split; [|].
    + split; [done|]. split; [|split; [|cbn; by rewrite y_shared0]].
      * destruct Ho. split; cbn; rewrite ?y_shared0; try done.
        -- by rewrite length_insert.
        -- intros j c' Hj. destruct (Hlook j c' Hj) as [[_ ->]|[Hj' _]]; [|by eapply o_held0]. rewrite y_held0. by eapply o_held0.
        -- rewrite (load_insert weight _ _ _ _ Hc). lia.
        -- apply suffix_length in Hsuf. cbn in Hsuf. nia.
        -- intros Hsu j c' Hj. specialize (o_listens0 (sustained_suffix _ _ Hsuf Hsu)). destruct (Hlook j c' Hj) as [[_ ->]|[Hj' _]]; [|by eapply o_listens0].
           unfold listens. rewrite y_connected0, y_recv0. by eapply o_listens0.
      * destruct Hca as [?|[(j & c' & Hj & Hf)|?]]; [left; cbn; by rewrite y_shared0| |right; right; cbn; by rewrite y_shared0]. right. left.
        destruct (decide (j = i)) as [-> |Hne].
        -- exists i, (self l'). split; [cbn; apply list_lookup_insert_eq; by eapply lookup_lt_Some|]. rewrite y_fd0. congruence.
        -- exists j, c'. split; [cbn; by rewrite list_lookup_insert_ne|done].
    + intros j c' Hj. destruct (Hlook j c' Hj) as [[_ ->]|[Hj' Hne]]; [by left|]. cbn. rewrite y_shared0.
      destruct (Haw j c' Hj') as [?|[[?|?]%elem_of_cons|?]]; [by left|done|by right; left|by right; right].
Qed.

Lemma flush_list_ok n ks ids w :
  flushing n w → awaited ks ids w →
  wok (for_each ids flush_at) w (λ _ w', (flushing n w' ∧ awaited ks [] w') ∧ stop (w_shared w') = stop (w_shared w)).
Proof.
  intros Hf Ha. apply (for_each_wok ids flush_at (λ rest w', (flushing n w' ∧ awaited ks rest w') ∧ stop (w_shared w') = stop (w_shared w)));
    [apply flush_at_grows| |done].
  intros i rest w' [Hw' Hst]. eapply wok_mono; [by apply flush_at_ok|]. intros [] w'' _ [? ?]. split; [done|congruence].
Qed.

Lemma drain_word_ok n k ks w :
  flushing n w → awaited (k :: ks) [] w → (k < n)%nat →
  wok (drain_word (C := C) k) w (λ _ w', (flushing n w' ∧ awaited ks [] w') ∧ stop (w_shared w') = stop (w_shared w)).
Proof.
  intros (Hsl & Ho & Hca & Hn) Haw Hk. destruct (lookup_lt_is_Some_2 (words (w_shared w)) k ltac:(lia)) as [x Hx].
  pose proof (proj1 (Forall_lookup _ _) (o_words _ Ho) _ _ Hx) as Hxb. eapply wok_run; [by apply (drain_word_slots k x w)|].
  eapply wok_mono; [apply (flush_list_ok n ks (slots_of k x) (cleared k w))|by intros [] w' _].
  - split; [by apply slots_shared|]. split; [|split; [exact Hca|cbn; by rewrite length_insert]].
    destruct Ho. split; cbn; try done. by apply Forall_insert.
  - intros i c Hc. destruct (Haw i c Hc) as [?|[?%not_elem_of_nil|[(y & Hy & Hb) Hin]]]; [by left|done|]. right.
    destruct (decide ((i / 64)%nat = k)) as [Hik|Hne].
    + left. apply elem_of_slots_of. split; [done|]. rewrite Hik, Hx in Hy. by injection Hy as ->.
    + right. split; [|apply elem_of_cons in Hin as [?|?]; done]. exists y. split; [|done]. cbn -[Nat.div]. by rewrite list_lookup_insert_ne.
Qed.

(** After the flush pass everything that was queued is with the kernel. *)
Definition all_settled (w : Worker) : Prop := ∀ i c, conns w !! i = Some c → settled c.
Lemma flush_pending_ok w :
  fit w → cared w → wok (flush_pending (C := C)) w (λ _ w', fit w' ∧ cared w' ∧ all_settled w' ∧ stop (w_shared w') = stop (w_shared w)).
Proof.
  intros (Hsl & Ho & Ha) Hca. unfold flush_pending. eapply wok_pure; [reflexivity|]. set (n := length (words (w_shared w))).
  eapply wok_mono.
  - apply (for_each_wok (seq 0 n) drain_word (λ rest w', (flushing n w' ∧ awaited rest [] w') ∧ (∀ k, k ∈ rest → (k < n)%nat) ∧ stop (w_shared w') = stop (w_shared w)));
      [apply drain_word_grows| |].
    + intros k rest w' ((? & ?) & Hk & Hst). eapply wok_mono; [apply drain_word_ok; [done|done|apply Hk; by left]|].
      intros [] w'' _ [? ?]. split; [done|]. split; [intros; apply Hk; by right|congruence].
    + split; [split; [by split_and!|]|split; [|done]].
      * intros i c Hc. destruct (Ha i c Hc) as [?|Hm]; [by left|]. right. right. split; [done|]. destruct Hm as (y & Hy & _).
        apply elem_of_seq. apply lookup_lt_Some in Hy. unfold n. lia.
      * intros k Hk%elem_of_seq. lia.
  - intros [] w' _ (((? & ? & ? & _) & Haw) & _ & Hst).
    assert (all_settled w') as Hall by (intros i c Hc; destruct (Haw i c Hc) as [?|[?%not_elem_of_nil|[_ ?%not_elem_of_nil]]]; done).
    split; [|done]. split; [done|]. split; [done|]. intros i c Hc. left. by eapply Hall.
Qed.

(** *** A turn, and the loop *)

Lemma quiet_ok {A} (m : eff World error A) w :
  queues m [] → fit w → cared w → wok (on_ring m) w (λ _ w', fit w' ∧ cared w').
Proof.
  intros Hq (Hsl & Ho & Ha) Hca. apply wok_ring; [done|]. intros a w' Hs Hd. split; [|done]. split; [by apply slots_quiet|].
  split; [|done]. apply orderly_longer; [done|]. by eapply did_suffix.
Qed.

(** How a turn ends. *)
Definition turned (f : flow) (w : Worker) : Prop :=
  fit w ∧ match f with Continue => cared w ∧ all_settled w ∧ stop (w_shared w) = false | BreakOuter => stop (w_shared w) = true ∨ adrift w end.

Lemma h2_turn_ok w : fit w → cared w → wok (turn target https budget timeout parallel patience settings) w (λ f w', turned f w').
Proof.
  intros Hw Hca. unfold turn. eapply wok_bind; [apply quiet_ok; [apply submit_and_wait_queues|done|done]|intros; grow_worker|].
  intros _ w1 _ (Hw1 & Hc1). eapply wok_pure; [reflexivity|]. eapply wok_bind; [by apply timeout_pass_ok|intros; grow_worker|].
  intros [] w2 _ [Hw2 Hc2]; [|apply wok_ret; intros _; split; auto]. eapply wok_bind; [by apply h2_completion_pass_ok|intros; grow_worker|].
  intros [] w3 _ [Hw3 Hc3]; [|apply wok_ret; intros _; split; auto]. eapply wok_bind; [by apply flush_pending_ok|intros; grow_worker|].
  intros [] w4 _ (Hw4 & Hc4 & Hs4 & _). eapply wok_pure; [reflexivity|]. apply wok_ret. intros _.
  destruct (stop (w_shared w4)) eqn:Hst; (split; [done|]); auto.
Qed.

(** How the loop ends, or where it stands when it waits again. *)
Definition looped (ended : bool) (w : Worker) : Prop :=
  fit w ∧ if ended then over budget w = true ∨ stop (w_shared w) = true ∨ adrift w
          else cared w ∧ all_settled w ∧ stop (w_shared w) = false ∧ over budget w = false.

Lemma h2_main_loop_ok n w :
  fit w → cared w → all_settled w → stop (w_shared w) = false →
  wok (main_loop target https budget timeout parallel patience settings n) w (λ b w', looped b w').
Proof.
  revert w. induction n as [|n IH]; intros w Hw Hca Has Hst; cbn [main_loop]; (eapply wok_pure; [reflexivity|]);
    (destruct (over budget w) eqn:Hov; [apply wok_ret; intros _; split; auto|]); [by apply wok_ret|].
  eapply wok_bind; [by apply h2_turn_ok|intros []; [apply h2_main_loop_grows|grow_worker]|].
  intros [] w1 _ [Hw1 Hf]; [destruct Hf as (? & ? & ?); by apply IH|]. apply wok_ret. intros _. split; [done|by right].
Qed.

(** *** The first connects *)

Lemma h2_open_first_ok i o cap (l : L) :
  in_slot i l → fd (self l) = -1 → books budget o cap l →
  ok i (open_first i) l (λ _ l', stepped target https budget i o cap True l Continue l' ∧ 0 ≤ fd (self l') ∧ h2 (self l') = None).
Proof.
  intros Hs Hfd Hb. assert (idle (self l) (view (hist (world l)) i (generation (self l)))) as Hi.
  { destruct (s_here Hs) as [?|[(? & _)|(? & _)]]; [done|lia..]. }
  unfold open_first. eapply ok_pure; [reflexivity|reflexivity|]. unfold ok, holds. rewrite bind_run. unfold on_ring.
  pose proof (start_connect_did i (generation (self l)) (world l)) as Hd. cbn [ring_of Local_ring].
  destruct (start_connect _ _ _) as [[f|e] w']; [|done]. destruct Hd as [Hf Hd]. cbn. intros Hsd.
  pose proof (sound_suffix _ _ (did_suffix _ _ _ Hd) Hsd) as Hs0.
  split; [exists (connect_pair i (generation (self l))); split; [done|by eapply pair_of_conn]|].
  destruct Hi as (_ & Hbare & Hc). pose proof Hbare as (Hcn & Hh & _). split; [|split; [apply Hf, Hsd|exact Hh]]. split.
  - eapply slot_connect; [done|eapply (slot_mono _ _ (λ v, bare (self l) v ∧ connects v = [])); [exact Hs|done]|done|].
    intros v (Hbv & Hcv). right. left. split; [apply Hf, Hsd|]. split; [exact Hbv|]. cbn. by rewrite Hcv.
  - by apply (books_same budget o cap l).
  - by apply moves_same.
  - left. right. intros h. cbn. congruence.
  - intros _ Hx. cbn in Hx. congruence.
  - left. right. left. apply Hf, Hsd.
Qed.

(** The first [k] connections have been opened, the others not. *)
Definition opening (k : nat) (w : Worker) : Prop :=
  fit w ∧ all_settled w ∧ stop (w_shared w) = false ∧ (k = 0%nat ∨ cared w) ∧ ∀ i c, conns w !! i = Some c → (k ≤ i)%nat → fd c = -1.

Lemma open_step k w :
  opening k w → (k < length (conns w))%nat →
  wok (at_conn k (open_first (C := C) k)) w (λ _ w', opening (S k) w' ∧ length (conns w') = length (conns w)).
Proof.
  intros ((Hsl & Ho & Ha) & Has & Hst & _ & Hidle) Hk. destruct (lookup_lt_is_Some_2 (conns w) k Hk) as [c Hc].
  apply wok_sound; [grow_worker|]. intros Hs. eapply wok_mono.
  - eapply (at_conn_keeps _ _ _ _ k c (open_first k) w (λ _ l', stepped target https budget k (owing w - weight c) (most * Z.of_nat (length (whist w))) True (local w c) Continue l' ∧
      0 ≤ fd (self l') ∧ h2 (self l') = None)); [done|by apply slots_but_ok|].
    eapply ok_mono; [apply h2_open_first_ok; [by apply Hsl|by eapply Hidle|by apply (orderly_books w k)]|]. intros [] l' _ (Hstp & ? & ?). split; [apply Hstp|done].
  - intros [] w' _ (Hs' & Hsuf & l' & -> & Hstp & Hfd & Hh).
    assert (∀ j c', <[k := self l']> (conns w) !! j = Some c' → j = k ∧ c' = self l' ∨ conns w !! j = Some c' ∧ j ≠ k) as Hlook.
    { intros j c' Hj. apply list_lookup_insert_Some in Hj as [(-> & <- & _)|[? Hj]]; auto. }
    split; [|apply length_insert]. split_and!.
    + split; [done|]. split; [eapply orderly_absorb; [done|done|done|exact Hstp| |done]; apply suffix_length in Hsuf; cbn in Hsuf; nia|].
      eapply attentive_absorb; [done|done|apply Hstp|apply Hstp].
    + intros j c' Hj. destruct (Hlook j c' Hj) as [[_ ->]|[? _]]; [right; intros h; congruence|by eapply Has].
    + destruct Hstp as [_ _ [_ Hstop] _ _ _]. cbn in Hstop. cbn. congruence.
    + right. right. left. exists k, (self l'). split; [by apply list_lookup_insert_eq|done].
    + intros j c' Hj Hle. destruct (Hlook j c' Hj) as [[-> _]|[? _]]; [lia|]. eapply Hidle; [done|lia].
Qed.

Hypothesis budget_some : budget.may_start budget 0 = true.

Lemma h2_open_all_ok n k w :
  opening k w → (k + n = length (conns w))%nat →
  wok (open_all (C := C) budget (seq k n)) w (λ _ w', fit w' ∧ cared w' ∧ all_settled w' ∧ stop (w_shared w') = false).
Proof.
  assert (∀ k w, opening k w → (0 < k)%nat → fit w ∧ cared w ∧ all_settled w ∧ stop (w_shared w) = false) as Hdone.
  { intros k' w' (? & ? & ? & [?|?] & _) ?; [lia|done]. }
  revert k w. induction n as [|n IH]; intros k w Hop Hlen; cbn [seq open_all].
  { apply wok_ret. intros _. eapply Hdone; [done|]. destruct Hop as ((_ & [] & _) & _). lia. }
  destruct (budget.may_start budget (Z.of_nat k)) eqn:Hms; cbn [negb].
  - eapply wok_bind; [apply open_step; [done|lia]|intros; apply h2_open_all_grows|]. intros [] w1 _ [Hop1 Hl1]. apply IH; [done|lia].
  - apply wok_ret. intros _. eapply Hdone; [done|]. destruct k; [|lia]. change (Z.of_nat 0) with 0 in Hms. congruence.
Qed.

(** Slots nothing was queued for. *)
Lemma new_in_slot h i t :
  Z.of_nat i < 2 ^ CONN_IDX_BITS → (∀ g op, well_formed_id i g op → ops (user_data i g op) h = [] ∧ wire (user_data i g op) h = []) →
  slot (within (legit (C := C) target https)) (here target https i (new_conn t)) h i 0.
Proof.
  intros Hi Hno. assert (∀ g, 0 ≤ g < 2 ^ GENERATION_BITS - 1 → view h i g = nothing) as Hv.
  { intros g Hg. unfold view. rewrite (proj1 (Hno g OP_CONNECT ltac:(done))), (proj1 (Hno g OP_RECV ltac:(done))), (proj1 (Hno g OP_SEND ltac:(done))).
    by rewrite (proj2 (Hno g OP_SEND ltac:(done))). }
  split; [done|lia|lia|intros; apply Hv; lia|]. rewrite Hv by done. left. by split_and!.
Qed.

Lemma h2_setup_ok connections :
  (0 < connections)%nat → Z.of_nat connections ≤ 2 ^ CONN_IDX_BITS →
  wok (setup (C := C) budget connections) cold (λ _ w, fit w ∧ cared w ∧ all_settled w ∧ stop (w_shared w) = false).
Proof.
  intros Hpos Hn. unfold setup. unfold wok, holds. rewrite bind_run. destruct (buf_ring.new _) as [p|e]; cbn [lift]; [|done].
  rewrite bind_run. cbn [modify]. match goal with |- context [(_ ≫= _) ?x] => set (w1 := x) end.
  change (wok (_ ← on_ring (arm_deadline (budget.deadline budget)); open_all budget (seq 0 connections)) w1
    (λ _ w, fit w ∧ cared w ∧ all_settled w ∧ stop (w_shared w) = false)).
  assert (length (conns w1) = connections) as Hl1 by apply length_replicate. set (t := k_now (mkWorld [] [])).
  assert (∀ i c, conns w1 !! i = Some c → c = new_conn t ∧ (i < connections)%nat) as Hrep by (intros i c Hc; by apply lookup_replicate in Hc).
  eapply (wok_bind _ _ _ (λ _ w, opening 0 w ∧ length (conns w) = connections)); [|intros; apply h2_open_all_grows|intros _ w2 _ [? ?]; apply h2_open_all_ok; [done|lia]].
  unfold wok, holds, on_ring. pose proof (arm_deadline_queues (budget.deadline budget) (w_world w1)) as Hq. cbn [ring_of Worker_ring].
  destruct (arm_deadline _ _) as [[u|e] w2]; [|done]. intros _. split; [|done].
  assert (Forall (λ e, entry_ud e = TIMEOUT_USER_DATA ∧ timed) (outstanding (hist w2))) as Hown.
  { rewrite (did_outstanding _ _ _ Hq), app_nil_r. unfold timed. destruct budget; cbn; constructor; [|done]. split; [done|by eexists]. }
  split_and!; [|intros i c [-> _]%Hrep; by right|done|by left|intros i c [-> _]%Hrep _; done].
  split; [|split; [|intros i c [-> _]%Hrep; by left; right]].
  - split; change (conns (set_ring w2 w1)) with (conns w1); change (w_world (set_ring w2 w1)) with w2; rewrite ?Hl1; [done| |].
    + intros i c [-> Hi]%Hrep. apply new_in_slot; [lia|]. intros g op Hid. rewrite (did_wire _ _ _ Hq). split; [|done].
      apply with_ud_other. eapply Forall_impl; [exact Hown|]. intros e [-> _] Heq. by apply (user_data_not_timeout i g op).
    + eapply Forall_impl; [exact Hown|]. intros e He. by left.
  - assert (owing w1 = 0) as Hload by (apply load_zero; intros c (i & Hc)%list_elem_of_lookup; by destruct (Hrep i c Hc) as [-> _]).
    split; change (conns (set_ring w2 w1)) with (conns w1); change (w_shared (set_ring w2 w1)) with (w_shared w1); rewrite ?Hload; try done.
    + lia.
    + intros i c [-> _]%Hrep. done.
    + cbn. lia.
    + destruct budget as [n|]; [|done]. cbn in *. apply Z.ltb_lt in budget_some. lia.
    + by apply Forall_replicate.
    + intros _ i c [-> _]%Hrep. done.
Qed.
End loop.
End http2_loop.
