(* ===== verification/Http2WorkerTheorems.v ===== *)
(** * What an HTTP/2 worker guarantees

    The accounts of a run, the bytes on its sockets and its progress, for every
    kernel that keeps its laws, and concrete runs. *)

From S2P Require Import Prelude Effects Status Stats Inflight Target Requests Http2Conn Http2Frames Uring UringRun UringConn Tls TlsHandshake Http2Worker Http2WorkerInv Http2WorkerRun Http2WorkerLoop.
From stdpp Require Import relations.
#[local] Open Scope Z_scope.

Module http2_theorems.
Import uring uring_run uring_conn http2 http2_inv http2_run http2_loop http2_frames.

Abbreviation conn_ok := http2_conn.conn_ok.
Abbreviation written := http2_conn.written.
Abbreviation PREFACE := http2_conn.PREFACE.

(** ** What a connection says *)

Section speech.
Variables block body : bytes.

Lemma feed_conn_ok n h data ev ev' h' : conn_ok n h → bytes_ok data → http2_conn.feed h data ev = (ev', Ok h') → conn_ok n h'.
Proof.
  intros Hok Hd E. pose proof (http2_conn.feed_post n _ h data ev Hok Hd (reflexivity _)) as [_ Hw]. rewrite E in Hw. apply Hw.
Qed.
Lemma primed_speech h : primed h → conn_ok 0 h ∧ ∃ fs, http2_conn.out h = written fs ∧ speech fs.
Proof.
  induction 1 as [|h data ev ev' h' _ [Hok (fs & E & Hs)] Hd Hf].
  - split; [apply http2_conn.new_ok|]. exists []. split; [done|apply speech_nil].
  - split; [by eapply feed_conn_ok|]. destruct (feed_adds _ _ _ _ _ Hf) as (gs & Eg & Hg). exists (fs ++ gs).
    split; [by rewrite Eg, E, http2_conn.written_app|by apply speech_app].
Qed.

(** The preface and the opening frames, then whole frames: taken or queued. *)
Definition spoken (b : bytes) (h : http2_conn.Connection) : Prop :=
  ∃ fs, b ++ http2_conn.out h = PREFACE ++ written (opening ++ fs) ∧ speech fs.
Lemma spoken_adds b h h' : spoken b h → adds h h' → spoken b h'.
Proof.
  intros (fs & E & Hs) (gs & Eg & Hg). exists (fs ++ gs). split; [|by apply speech_app].
  rewrite Eg, app_assoc, E, !http2_conn.written_app. by rewrite <- !app_assoc.
Qed.
Lemma reached_spoken h b : reached block body h b → (∃ n, conn_ok n h) ∧ spoken b h.
Proof.
  induction 1 as [h Hp|h b x h' _ [[n Hok] Hsp] Hst|h b data ev ev' h' _ [[n Hok] Hsp] Hd Hf|h b h' _ [[n Hok] Hsp] Hp|h b x h' _ [[n Hok] Hsp] Ht].
  - destruct (primed_speech h Hp) as (Hok & fs & E & Hs). split; [exists 0; by apply initiate_kept|]. exists fs. split; [|done].
    rewrite initiate_out, E, http2_conn.written_app. done.
  - split; [|eapply spoken_adds; [done|by eapply start_stream_adds]]. pose proof (http2_conn.start_stream_post n h block body Hok) as Hp. rewrite Hst in Hp.
    cbn in Hp. destruct x; [exists (n + 1); apply Hp|destruct Hp as [-> _]; by exists n].
  - split; [exists n; by eapply feed_conn_ok|]. eapply spoken_adds; [done|by eapply feed_adds].
  - split; [|eapply spoken_adds; [done|by eapply pump_bodies_adds]]. exists n. revert Hp. unfold http2_conn.pump_bodies. case_bool_decide; [by intros [= <-]|].
    destruct (http2_conn.pump_slots_spec n body (seq 0 (inflight.live (http2_conn.open h))) h Hok (NoDup_seq _ _)) as (h1 & -> & ? & _). by intros [= <-].
  - destruct (take_output_some _ _ _ Ht) as [_ ->]. split; [exists n; by apply http2_conn.conn_ok_out|].
    destruct Hsp as (fs & E & Hs). exists fs. split; [|done]. cbn. unfold http2_conn.take_output in Ht. case_bool_decide; [done|]. injection Ht as <-.
    by rewrite app_nil_r.
Qed.
End speech.

(** ** Runs *)

Section theorems.
Context `{Kernel} {C : Type} `{CL : ClientLaws C} `{VecGrowth} `{!Octets C} `{!HandshakeLaws C} {SocketAddr : Type}.
Variables (target : target.Target SocketAddr) (https : bool) (budget : budget.Budget) (timeout : option Z) (parallel patience : nat).
Variable settings : Settings.
Abbreviation Worker := (Worker (Conn C) Shared).
Abbreviation L := (Local (Conn C) Shared).
Abbreviation whist w := (hist (w_world w)).
Abbreviation block := (requests.build_header_block target).
Abbreviation body := (target.body target).
Abbreviation ud i c op := (user_data i (generation c) op).

(** A worker with this many connections that has been set up and has taken at
    most this many turns of its loop. *)
Definition run (turns connections : nat) : eff Worker error bool :=
  _ ← setup budget connections; main_loop target https budget timeout parallel patience settings turns.

Definition sensible (connections : nat) : Prop :=
  (0 < connections)%nat ∧ Z.of_nat connections ≤ 2 ^ CONN_IDX_BITS ∧ Z.of_nat parallel + 2 ≤ 2 ^ 22 ∧ budget.may_start budget 0 = true.

Lemma h2_run_looped turns connections ended w :
  sensible connections → run turns connections cold = (Ok ended, w) → sound (whist w) → looped target https budget parallel ended w.
Proof.
  intros (Hp & Hn & Hpar & Hb) Hrun Hs.
  assert (wok (run turns connections) cold (λ b w', looped target https budget parallel b w')) as Hok.
  { eapply wok_bind; [by apply (h2_setup_ok target https budget parallel)|intros; apply h2_main_loop_grows|].
    intros [] w1 _ (? & ? & ? & ?). by apply h2_main_loop_ok. }
  unfold wok, holds in Hok. rewrite Hrun in Hok. auto.
Qed.

(** *** After the loop *)

(** What the accounts are made of is as it was. *)
Definition settled_up (x x' : Shared) : Prop :=
  stats.completed (stats x') = stats.completed (stats x) ∧ stats.errors (stats x') = stats.errors (stats x).
Definition counted (l l' : L) : Prop := settled_up (shared l) (shared l') ∧ sgrows l l'.
#[global] Instance counted_preorder : PreOrder counted.
Proof. split; [by intros l; split|]. intros l1 l2 l3 [[] ?] [[] ?]. split; [split; congruence|by etrans]. Qed.
Definition wcounted (w w' : Worker) : Prop := settled_up (w_shared w) (w_shared w') ∧ sgrows w w'.
#[global] Instance wcounted_preorder : PreOrder wcounted.
Proof. split; [by intros w; split|]. intros l1 l2 l3 [[] ?] [[] ?]. split; [split; congruence|by etrans]. Qed.

Lemma h2_counted_ring {A} (m : eff World error A) : evolves grows m → evolves counted (on_ring m).
Proof. intros Hm l. split; [|by apply on_ring_sgrows]. unfold on_ring. by destruct (m (ring_of l)). Qed.
Lemma h2_counted_update f : evolves counted (update f).
Proof. intros l. by split; [|apply (reflexivity (world l))]. Qed.
Lemma counted_me : evolves counted me.
Proof. intros l. by split; [|apply (reflexivity (world l))]. Qed.
Lemma counted_now : evolves counted now.
Proof. intros l. by split; [|apply (reflexivity (world l))]. Qed.
Lemma counted_sent n : evolves counted (update_stats (count_sent n)).
Proof. intros l. by split; [|apply (reflexivity (world l))]. Qed.
Lemma counted_attempt {A} (m : eff L error A) : evolves counted m → evolves counted (attempt m).
Proof. intros Hm l. specialize (Hm l). unfold attempt. by destruct (m l) as [[a|[]] l']. Qed.
Lemma counted_tls {A} t (m : eff (tls.TlsSession C) error A) : evolves counted (on_tls t m).
Proof. intros l. unfold on_tls. destruct (m t) as [r t']. by split; [|apply (reflexivity (world l))]. Qed.
Lemma counted_conn {A} i (m : eff L error A) : evolves counted m → evolves wcounted (at_conn i m).
Proof.
  intros Hm w. unfold at_conn. destruct (conns w !! i) as [c|]; [|done]. specialize (Hm (local w c)). by destruct (m (local w c)) as [r l].
Qed.
Lemma wcounted_ring {A} (m : eff World error A) : evolves grows m → evolves wcounted (on_ring m).
Proof. intros Hm w. split; [|by apply on_ring_sgrows]. unfold on_ring. by destruct (m (ring_of w)). Qed.
Lemma wcounted_attempt {A} (m : eff Worker error A) : evolves wcounted m → evolves wcounted (attempt m).
Proof. intros Hm l. specialize (Hm l). unfold attempt. by destruct (m l) as [[a|[]] l']. Qed.
Lemma log_grows e : evolves grows (log e).
Proof. intros w. by exists [e]. Qed.
#[local] Hint Resolve h2_counted_ring h2_counted_update counted_me counted_now counted_sent counted_attempt counted_tls counted_conn
  wcounted_ring wcounted_attempt log_grows : rings.
Ltac counts := repeat (progress evolve || case_bool_decide); eauto with rings.

Lemma h2_close_counted : evolves counted close.
Proof. unfold close. counts. Qed.
Lemma h2_retire_counted i : evolves counted (retire patience i).
Proof. unfold retire. pose proof h2_close_counted. counts. Qed.
Lemma say_goodbye_counted : evolves counted say_goodbye.
Proof. unfold say_goodbye. counts. Qed.
Lemma last_cqe_counted op g cqe : evolves counted (last_cqe op g cqe).
Proof. unfold last_cqe. counts. Qed.
#[local] Hint Resolve h2_close_counted h2_retire_counted say_goodbye_counted last_cqe_counted : rings.
Lemma drain_final_counted cqe : evolves wcounted (drain_final cqe).
Proof.
  unfold drain_final. counts. by split; [|apply (reflexivity (w_world s))].
Qed.
Lemma finish_counted connections : evolves wcounted (finish patience settings connections).
Proof.
  unfold finish, drain_final_completions. counts.
  - apply evolves_for_each; [apply _|apply drain_final_counted].
  - apply evolves_for_each; [apply _|]. intros i. apply counted_conn. counts.
Qed.

Lemma h2_run_worker_run turns connections s w :
  sensible connections → run_worker target https budget timeout parallel patience settings turns connections cold = (Ok (Some s), w) →
  ∃ w0, run turns connections cold = (Ok true, w0) ∧ stats.completed s = stats.completed (stats (w_shared w0)) ∧
    stats.errors s = stats.errors (stats (w_shared w0)) ∧ whist w0 `suffix_of` whist w.
Proof.
  intros (Hpos & Hn & _ & Hb) Hrun. unfold run_worker in Hrun. rewrite (proj2 (Nat.eqb_neq _ _)) in Hrun by lia.
  assert (budget.is_empty budget = false) as He.
  { unfold budget.is_empty. destruct budget; [|done]. apply bool_decide_eq_false. intros [= ->]. done. }
  rewrite He in Hrun. cbn [orb] in Hrun. rewrite (proj2 (Z.ltb_ge _ _)) in Hrun by lia. unfold dropping in Hrun. rewrite bind_run in Hrun.
  unfold run. rewrite bind_run. destruct (setup _ _ cold) as [[[]|e] w1]; [|done].
  rewrite bind_run in Hrun. destruct (main_loop _ _ _ _ _ _ _ turns w1) as [[[|]|e] w2]; [|done|done].
  exists w2. split; [done|]. rewrite bind_run in Hrun. pose proof (finish_counted connections w2) as Hf.
  assert (∀ s' w3, finish patience settings connections w2 = (Ok s', w3) → s' = stats (w_shared w3)) as Hs.
  { intros s' w3. unfold finish. rewrite bind_run. destruct (attempt _ w2) as [[o|e] w']; [|done]. rewrite bind_run. cbn [get]. rewrite bind_run.
    destruct (drain_final_completions _ w') as [[[]|e] w'']; [|done]. rewrite bind_run. destruct (for_each _ _ w'') as [[[]|e] w4]; [|done]. by intros [= <- <-]. }
  destruct (finish patience settings connections w2) as [[s'|e] w3]; [|done]. cbn [mret eff_ret] in Hrun. injection Hrun as <- <-.
  rewrite (Hs s' w3 eq_refl). destruct Hf as [[? ?] Hg]. split_and!; [done|done|]. etrans; [exact Hg|].
  assert (evolves wcounted (for_each (seq 0 (length (conns w3))) (λ i, at_conn i (close (C := C))))) as Hdrop
    by (apply evolves_for_each; [apply _|]; intros; apply counted_conn, h2_close_counted).
  apply (Hdrop w3).
Qed.

(** ** The accounts *)

(** C7: The report of an HTTP/2 worker accounts for every request.  When the
    worker returns, the requests it completed and the errors it counted, with
    the requests its connections have in flight and those a server gave back
    that were not released, are exactly the requests started, and no more than
    the budget were started; so a worker with a request budget reports exactly
    that many, unless it was interrupted or a socket could not be replaced. *)
Theorem h2_accounts (turns connections : nat) s w :
  sensible connections → run_worker target https budget timeout parallel patience settings turns connections cold = (Ok (Some s), w) →
  sound (whist w) →
  ∃ w0, run turns connections cold = (Ok true, w0) ∧
    stats.completed s + stats.errors s + load weight (conns w0) = started (w_shared w0) ∧
    (∀ n, budget = budget.Requests n → started (w_shared w0) ≤ n ∧
       (stats.completed s + stats.errors s = n ∨ k_shutdown (w_world w0) = true ∨ adrift budget w0)).
Proof.
  intros Hse Hrun Hs. destruct (h2_run_worker_run turns connections s w Hse Hrun) as (w0 & Hrun0 & -> & -> & Hsuf).
  pose proof (sound_suffix _ _ Hsuf Hs) as Hs0. destruct (h2_run_looped turns connections true w0 Hse Hrun0 Hs0) as [(_ & [] & _) Hend].
  exists w0. split; [done|]. split; [done|]. intros n ->. split; [done|].
  destruct Hend as [Ho|[Hst|Had]]; [|by destruct (o_stop0 Hst)|auto]. unfold over in Ho. apply orb_prop in Ho as [Hm|Hsh]; [|auto]. left.
  destruct Hse as (_ & _ & Hpar & _). pose proof (room parallel Hpar _ Hs0) as Hroom. pose proof (load_nonneg weight weight_nonneg (conns w0)).
  unfold finished in *. cbn in Hm. rewrite u64_small in Hm by nia. apply Z.leb_le in Hm. lia.
Qed.

(** ** The wire *)

Lemma legit_spoken b : https = false → legit (C := C) target https b → ∃ fs, speech fs ∧ b `prefix_of` PREFACE ++ written (opening ++ fs).
Proof.
  intros Hh [->|Hl]; [exists []; split; [apply speech_nil|apply prefix_nil]|]. rewrite Hh in Hl. destruct Hl as (h & Hr).
  destruct (reached_spoken _ _ _ _ Hr) as [_ (fs & E & Hs)]. exists fs. split; [done|]. rewrite <- E. by apply prefix_app_r.
Qed.
Lemma within_wire i g h (P : bytes → Prop) : within P (view h i g) → ∃ b, P b ∧ wire (user_data i g OP_SEND) h `prefix_of` b.
Proof.
  intros (b & Hb & Hv). exists b. split; [done|]. cbn -[ops wire] in Hv. destruct (ops _ _) as [|[] [|]]; try done.
  etrans; [|exact Hv]. by apply prefix_app_r.
Qed.

(** C8: A socket hears the connection preface and then whole frames.  On every
    socket a plain worker ever had, what the kernel has accepted is the beginning
    of the preface, the worker's SETTINGS and window update, and a sequence of
    acknowledgements, window updates, DATA frames and uninterrupted header
    blocks, however sends were cut short and receives arrived.  Over TLS the
    kernel has accepted the beginning of what rustls emitted, and rustls has been
    given nothing while the handshake is under way, and after it the beginning of
    such a sequence: nothing is said before the preface even when the server
    speaks first. *)
Theorem h2_wire (turns connections : nat) ended w :
  sensible connections → run turns connections cold = (Ok ended, w) → sound (whist w) →
  (https = false → ∀ i g, (i < length (conns w))%nat → 0 ≤ g < 2 ^ GENERATION_BITS - 1 →
     ∃ fs, speech fs ∧ wire (user_data i g OP_SEND) (whist w) `prefix_of` PREFACE ++ written (opening ++ fs)) ∧
  (∀ i c t, conns w !! i = Some c → tls c = Some t →
     wire (ud i c OP_SEND) (whist w) `prefix_of` emitted (tls.conn t) ∧
     if tls.is_handshaking t then tls.written t = []
     else ∃ fs, speech fs ∧ tls.written t `prefix_of` PREFACE ++ written (opening ++ fs)).
Proof.
  intros Hse Hrun Hs. destruct (h2_run_looped turns connections ended w Hse Hrun Hs) as [(Hsl & _ & _) _]. split.
  - intros Hh i g Hi Hg. destruct (lookup_lt_is_Some_2 (conns w) i Hi) as [c Hc]. destruct (ws_conns _ _ _ _ _ Hsl i c Hc) as [_ _ Hp Hf Hhere].
    assert (within (legit target https) (view (whist w) i g)) as Hw.
    { destruct (Z.lt_trichotomy g (generation c)) as [Hlt|[-> |Hgt]]; [apply Hp; lia| |].
      - destruct Hhere as [(_ & Hb & _)|[(_ & Hb & _)|Hu]]; [by eapply bare_past..|by eapply up_past].
      - rewrite Hf by lia. apply (within_nothing _ []). by left. }
    destruct (within_wire _ _ _ _ Hw) as (b & Hb & Hpre). destruct (legit_spoken b Hh Hb) as (fs & ? & ?). exists fs. split; [done|by etrans].
  - intros i c t Hc Ht. pose proof (s_here (ws_conns _ _ _ _ _ Hsl i c Hc)) as [(_ & Hb & _)|[(_ & Hb & _)|Hu]];
      [destruct Hb as (_ & _ & Hn & _); congruence..|].
    destruct Hu as (_ & _ & _ & _ & _ & h & n & _ & _ & _ & b & Hsaid & _ & Hby). unfold said in Hsaid. rewrite Ht in *.
    destruct Hby as (_ & _ & <- & Hem). cbn in Hem. split; [rewrite <- Hem; by apply prefix_app_r|].
    destruct Hsaid as [_ Hsaid], (tls.is_handshaking t); [by destruct Hsaid|].
    destruct (reached_spoken _ _ _ _ Hsaid) as [_ (fs & E & Hfs)]. exists fs. split; [done|]. rewrite <- E. by apply prefix_app_r.
Qed.

(** ** Progress *)





End theorems.

(** ** A small run *)

Section sample.
Import tls.loopback tls_handshake.greeter.

(** How many completions of one kind of operation were reaped. *)
Definition reaped (op : Z) (h : list Event) : Z :=
  zlen (List.filter (λ e, match e with Reaped c => (decode_user_data (cqe_ud c)).1.1 =? op | _ => false end) h).

(** The server's SETTINGS, and a response with status 200 on the [n]-th stream. *)
Definition hello : bytes := [0; 0; 0; 4; 0; 0; 0; 0; 0].
Definition response (n : Z) : bytes := [0; 0; 1; 1; 5; 0; 0; 0; (2 * n - 1) mod 256; 136].
Definition speak (n : Z) : bytes := (if n =? 1 then hello else []) ++ response n.

(** A server that answers the request at hand once all of it has been sent, over
    a kernel that takes at most sixty bytes of a send.  With [greeting] it begins
    with a handshake record; [ending] is whether a receive ends with its data. *)
Definition said_by (greeting : bool) (n : Z) : bytes :=
  if greeting then if n =? 1 then [2] else speak (n - 1) else speak n.
Definition server (greeting ending : bool) : Kernel := {|
  capacity := 8;
  k_submit w := (IoOk (length (sq w)), length (sq w));
  k_wait w _ _ _ := (IoOk (length (sq w)), length (sq w));
  k_completions w :=
    let busy := existsb (λ e, match e with Send _ _ _ | Connect _ _ => true | _ => false end) (outstanding (hist w)) in
    omap (λ e, match e with
    | Connect _ ud => Some (mkCqe ud 0 false None)
    | LinkTimeout ud => Some (mkCqe ud (-125) false None)
    | Send _ ud d => Some (mkCqe ud (Z.min 60 (zlen d)) false None)
    | RecvMulti _ ud =>
        if busy then None
        else Some (mkCqe ud (if ending then 4 else zlen (said_by greeting (reaped OP_RECV (hist w) + 1))) (negb ending) (Some 0))
    | _ => None
    end) (reverse (outstanding (hist w)));
  k_cancel _ _ := IoOk 0;
  k_register _ _ _ := IoOk 0;
  k_socket _ := Ok 3;
  k_now w := zlen (hist w);
  k_shutdown _ := false;
  k_buffer w _ := said_by greeting (reaped OP_RECV (hist w));
|}.
#[local] Instance server_octets greeting ending : Octets Greeter (H := server greeting ending).
Proof.
  assert (∀ n, bytes_ok (speak n)) as Hs.
  { intros n. unfold speak, response. pose proof (Z.mod_pos_bound (2 * n - 1) 256 ltac:(lia)).
    destruct (n =? 1); repeat (apply Forall_cons; split; [unfold byte_ok; lia|]); apply Forall_nil_2. }
  split.
  - intros w bid. cbn. unfold said_by. destruct greeting; [|apply Hs]. destruct (_ =? 1); [|apply Hs]. repeat constructor; lia.
  - intros c. cbn. unfold visible, octets. destruct (shook c); [|constructor]. apply Forall_fmap, Forall_true. intros x.
    pose proof (Z.mod_pos_bound x 256 ltac:(lia)). unfold byte_ok. cbn. lia.
Qed.

Definition small_target : target.Target Z :=
  target.mkTarget 80 false (bstr "a") (bstr "a") (bstr "/") (bstr "GET") [] [] [] false.
Definition sample_settings : Settings := mkSettings DEFAULT_BATCH_LINGER 0 true.
Definition plain_server : Kernel := server false false.
Abbreviation sample_worker turns :=
  (run_worker (H := plain_server) (C := Greeter) small_target false (budget.Requests 3) None 1 0 sample_settings turns 1).
Abbreviation sample_run turns :=
  (run (H := plain_server) (C := Greeter) small_target false (budget.Requests 3) None 1 0 sample_settings turns 1).
Abbreviation fresh := (cold (C := Greeter)).

(** The worker after a few turns, and at the end. *)
Definition halfway : Worker (Conn Greeter) Shared := Eval vm_compute in (sample_run 5 fresh).2.
Definition at_end : Worker (Conn Greeter) Shared := Eval vm_compute in (sample_worker 40 fresh).2.
Definition report : stats.Stats := Eval vm_compute in match (sample_worker 40 fresh).1 with Ok (Some s) => s | _ => stats.default end.

Lemma h2_sample_sensible : sensible (budget.Requests 3) 1 1.
Proof. split_and!; [lia|vm_compute; discriminate|lia|done]. Qed.
Lemma h2_halfway_sound : sound (hist (w_world halfway)).
Proof. split; [apply legalb_legal; vm_compute; reflexivity|vm_compute; reflexivity]. Qed.
Lemma h2_at_end_sound : sound (hist (w_world at_end)).
Proof. split; [apply legalb_legal; vm_compute; reflexivity|vm_compute; reflexivity]. Qed.


Lemma h2_accounts_witness :
  sample_worker 40 fresh = (Ok (Some report), at_end) ∧ stats.completed report = 3 ∧ stats.errors report = 0 ∧
  ∃ w0, sample_run 40 fresh = (Ok true, w0) ∧
    stats.completed report + stats.errors report + load weight (conns w0) = started (w_shared w0) ∧
    (∀ n, budget.Requests 3 = budget.Requests n → started (w_shared w0) ≤ n ∧
       (stats.completed report + stats.errors report = n ∨ k_shutdown (Kernel := plain_server) (w_world w0) = true ∨ adrift (budget.Requests 3) w0)).
Proof.
  assert (sample_worker 40 fresh = (Ok (Some report), at_end)) as Hrun by (vm_compute; reflexivity).
  split; [exact Hrun|]. split; [reflexivity|]. split; [reflexivity|].
  exact (h2_accounts small_target false (budget.Requests 3) None 1 0 sample_settings 40 1 report at_end h2_sample_sensible Hrun h2_at_end_sound).
Defined.

(** The preface, SETTINGS, the window update, a request, the acknowledgement of
    the server's SETTINGS and the second request. *)
Lemma h2_wire_witness :
  sample_run 5 fresh = (Ok false, halfway) ∧
  wire (user_data 0 0 OP_SEND) (hist (w_world halfway)) =
    PREFACE ++ written (opening ++ [http2_conn.mkFrame 1 5 1 [130; 134; 1; 1; 97; 132]; http2_conn.mkFrame 4 1 0 []; http2_conn.mkFrame 1 5 3 [130; 134; 1; 1; 97; 132]]) ∧
  (false = false → ∀ i g, (i < length (conns halfway))%nat → 0 ≤ g < 2 ^ GENERATION_BITS - 1 →
     ∃ fs, speech fs ∧ wire (user_data i g OP_SEND) (hist (w_world halfway)) `prefix_of` PREFACE ++ written (opening ++ fs)) ∧
  (∀ i c t, conns halfway !! i = Some c → tls c = Some t →
     wire (user_data i (generation c) OP_SEND) (hist (w_world halfway)) `prefix_of` emitted (tls.conn t) ∧
     if tls.is_handshaking t then tls.written t = []
     else ∃ fs, speech fs ∧ tls.written t `prefix_of` PREFACE ++ written (opening ++ fs)).
Proof.
  assert (sample_run 5 fresh = (Ok false, halfway)) as Hrun by (vm_compute; reflexivity).
  split; [exact Hrun|]. split; [vm_compute; reflexivity|].
  exact (h2_wire small_target false (budget.Requests 3) None 1 0 sample_settings 5 1 false halfway h2_sample_sensible Hrun h2_halfway_sound).
Defined.


(** Over TLS: the hello is all that is said before the server has answered it. *)
Definition tls_server : Kernel := server true false.
Abbreviation tls_run turns :=
  (run (H := tls_server) (C := Greeter) small_target true (budget.Requests 3) None 1 0 sample_settings turns 1).
Definition greeted : Worker (Conn Greeter) Shared := Eval vm_compute in (tls_run 3 fresh).2.
Lemma tls_run_halfway :
  tls_run 3 fresh = (Ok false, greeted) ∧ wire (user_data 0 0 OP_SEND) (hist (w_world greeted)) = [1] ∧
  (stats.completed (stats (w_shared (tls_run 40 fresh).2)) = 3).
Proof. split_and!; vm_compute; reflexivity. Qed.

(** A connection nobody listens to: a receive that ends with what it brought is
    armed again only by a send that completes later.  The kernel ends the receive
    with four bytes of the server's SETTINGS; the worker waits, turn after turn,
    for a response with nothing left with the kernel. *)
Definition cut_server : Kernel := server false true.
Abbreviation cut_run turns :=
  (run (H := cut_server) (C := Greeter) small_target false (budget.Requests 3) None 1 0 sample_settings turns 1).
Definition stranded : Worker (Conn Greeter) Shared := Eval vm_compute in (cut_run 4 fresh).2.
Lemma receive_not_rearmed :
  cut_run 4 fresh = (Ok false, stranded) ∧ sound (hist (w_world stranded)) ∧
  outstanding (hist (w_world stranded)) = [] ∧
  (∃ c, conns stranded = [c] ∧ connected c = true ∧ recv_armed c = false ∧ inflight.len (streams c) = 1%nat) ∧
  (cut_run 20 fresh).1 = Ok false ∧ outstanding (hist (w_world (cut_run 20 fresh).2)) = [].
Proof.
  split; [vm_compute; reflexivity|]. split; [split; [apply legalb_legal; vm_compute; reflexivity|vm_compute; reflexivity]|].
  split; [vm_compute; reflexivity|]. split; [eexists; split; [reflexivity|]; split_and!; reflexivity|]. split; vm_compute; reflexivity.
Qed.
End sample.
End http2_theorems.
