(* ===== verification/Http3Recv.v ===== *)
(** * UDP receives — [src/http3/recv.rs]

    One completion of a multishot [recvmsg] can carry several datagrams that the
    kernel has joined (UDP GRO); a control message says where to cut.  The
    metadata in front of the payload is read by the io_uring crate, a parameter
    here ([RecvMsg]); the sizes are those of a 64-bit little-endian Linux.

    The same cut, [segments], is what the kernel does to a [SendMsg] with a
    segment size (UDP GSO). *)

From S2P Require Import Prelude.
#[local] Open Scope Z_scope.

(** [RecvMsgOut]: what its methods return. *)
Record RecvMsgOut := mkRecvMsgOut {
  payload_data : bytes;
  control_data : bytes;
  is_payload_truncated : bool;
  is_control_data_truncated : bool;
  incoming_payload_len : Z;
  incoming_control_len : Z;
}.
(** [RecvMsgOut::parse], for the message header [template] builds. *)
Class RecvMsg := recvmsg_parse : bytes → option RecvMsgOut.

Module h3_recv.

Definition PREFIX_SIZE : nat := 16.
Definition CONTROL_SIZE : nat := 24.                  (* CMSG_SPACE(4) *)
Definition PAYLOAD_OFFSET : nat := PREFIX_SIZE + CONTROL_SIZE.
Definition BUFFER_SIZE : Z := Z.of_nat PAYLOAD_OFFSET + 65536.
Definition CMSG_HEADER : nat := 16.                   (* CMSG_LEN(0) *)
Definition IPPROTO_UDP : Z := 17.
Definition UDP_GRO : Z := 104.
Definition U16_MAX : Z := 2 ^ 16 - 1.

Record Received := mkReceived { payload : bytes; segment_size : nat }.

Fixpoint le_value (l : bytes) : Z := match l with [] => 0 | b :: l' => b + 256 * le_value l' end.
(** [i32::from_ne_bytes] *)
Definition i32_le (l : bytes) : Z := let v := le_value l in if v <? 2 ^ 31 then v else v - 2 ^ 32.

(** The segment size a control message gives; [None] refuses the receive. *)
Definition gro_size (control : bytes) (payload_len : nat) : option nat :=
  let whole := Nat.max payload_len 1 in
  if bool_decide (control = []) then Some whole
  else if (length control <? CMSG_HEADER)%nat then None
  else
    let len := le_value (take 8 control) in
    if (len <? Z.of_nat CMSG_HEADER) || (zlen control <? len) then None
    else if (i32_le (take 4 (drop 8 control)) =? IPPROTO_UDP) && (i32_le (take 4 (drop 12 control)) =? UDP_GRO) then
      if negb (len =? Z.of_nat CMSG_HEADER + 4) || (payload_len =? 0)%nat then None
      else
        let size := i32_le (take 4 (drop CMSG_HEADER control)) in
        if (size <=? 0) || (U16_MAX <? size) then None else Some (Z.to_nat size)
    else Some whole.

Section decode.
Context `{RecvMsg}.

Definition decode (buffer : bytes) : option Received :=
  received ← recvmsg_parse buffer;
  let payload_len := length (payload_data received) in
  if is_payload_truncated received || is_control_data_truncated received
     || negb (incoming_payload_len received =? Z.of_nat payload_len)
     || negb (incoming_control_len received =? zlen (control_data received))
     || negb (PAYLOAD_OFFSET + payload_len =? length buffer)%nat
     || (BUFFER_SIZE <? zlen buffer)
  then None
  else
    size ← gro_size (control_data received) payload_len;
    Some (mkReceived (drop PAYLOAD_OFFSET buffer) size).
End decode.

(** [payload.chunks_mut(size)] *)
Fixpoint segments_loop (fuel : nat) (size : nat) (l : bytes) : list bytes :=
  match l, fuel with
  | [], _ | _, O => []
  | _, S fuel' => take size l :: segments_loop fuel' size (drop size l)
  end.
Definition segments (size : nat) (l : bytes) : list bytes := segments_loop (length l) size l.

(** ** Cutting undoes joining *)

(** Datagrams the kernel may join: of one size, but for a shorter last one. *)
Fixpoint joinable (size : nat) (ds : list bytes) : Prop :=
  match ds with
  | [] => True
  | [d] => (0 < length d ≤ size)%nat
  | d :: ds' => length d = size ∧ (0 < size)%nat ∧ joinable size ds'
  end.

Lemma segments_loop_concat size ds : ∀ fuel,
  joinable size ds → (length (concat ds) ≤ fuel)%nat → segments_loop fuel size (concat ds) = ds.
Proof.
  induction ds as [|d ds IH]; intros fuel Hj Hf; [by destruct fuel|]. rewrite concat_cons in *. rewrite length_app in Hf.
  assert (0 < length d)%nat as Hd by (destruct ds; cbn in Hj; [|destruct Hj as (<- & ? & _)]; lia).
  destruct fuel as [|fuel]; [lia|]. destruct (d ++ concat ds) as [|x l] eqn:E; [destruct d; cbn in *; [lia|done]|]. cbn [segments_loop]. rewrite <- E.
  destruct ds as [|d' ds].
  - cbn in Hj |- *. rewrite app_nil_r, take_ge, drop_ge by lia. by destruct fuel.
  - destruct Hj as (Hl & Hp & Hj). rewrite take_app_length', drop_app_length' by done. f_equal. apply IH; [done|lia].
Qed.
Lemma segments_concat size ds : joinable size ds → segments size (concat ds) = ds.
Proof. intros Hj. by apply segments_loop_concat. Qed.

Lemma joinable_snoc size ds d :
  Forall (λ d, length d = size) ds → (0 < length d ≤ size)%nat → joinable size (ds ++ [d]).
Proof.
  intros Hd Hl. induction Hd as [|d' ds Hd' _ IH]; [done|]. cbn. destruct (ds ++ [d]) as [|x l] eqn:E; [by destruct ds|].
  split_and!; [done|lia|exact IH].
Qed.

(** ** What a receive hands to QUIC *)

(** The control message of a joined receive. *)
Definition gro_control (size : Z) : bytes :=
  [20; 0; 0; 0; 0; 0; 0; 0] ++ [17; 0; 0; 0] ++ [104; 0; 0; 0] ++ [size mod 256; size / 256; 0; 0] ++ replicate 4 0.

Lemma gro_size_control (size : nat) n :
  (0 < size)%nat → Z.of_nat size ≤ U16_MAX → (0 < n)%nat → gro_size (gro_control (Z.of_nat size)) n = Some size.
Proof.
  intros Hs Hu Hn. unfold gro_size. rewrite bool_decide_false by done.
  change (length (gro_control _) <? CMSG_HEADER)%nat with false. change (le_value (take 8 (gro_control _))) with 20.
  change ((20 <? Z.of_nat CMSG_HEADER) || (zlen (gro_control _) <? 20)) with false.
  change ((i32_le (take 4 (drop 8 (gro_control _))) =? IPPROTO_UDP) && (i32_le (take 4 (drop 12 (gro_control _))) =? UDP_GRO)) with true.
  change (20 =? Z.of_nat CMSG_HEADER + 4) with true. cbv iota. cbn [negb orb]. rewrite (proj2 (Nat.eqb_neq n 0)) by lia.
  change (take 4 (drop CMSG_HEADER (gro_control (Z.of_nat size)))) with [Z.of_nat size mod 256; Z.of_nat size / 256; 0; 0].
  assert (i32_le [Z.of_nat size mod 256; Z.of_nat size / 256; 0; 0] = Z.of_nat size) as ->.
  { unfold i32_le, U16_MAX in *. cbn [le_value]. pose proof (Z_div_mod_eq_full (Z.of_nat size) 256).
    replace (Z.of_nat size mod 256 + _) with (Z.of_nat size) by lia. rewrite (proj2 (Z.ltb_lt _ _)) by lia. done. }
  rewrite (proj2 (Z.leb_gt _ _)), (proj2 (Z.ltb_ge _ _)) by lia. cbn [orb]. by rewrite Nat2Z.id.
Qed.

(** A receive of datagrams the kernel joined: it fits its buffer, and its
    metadata says how it is to be cut; a single datagram needs no control
    message. *)
Record carries `{RecvMsg} (ds : list bytes) (buffer : bytes) : Prop := {
  c_prefix : ∃ prefix, length prefix = PAYLOAD_OFFSET ∧ buffer = prefix ++ concat ds;
  c_fits : zlen buffer ≤ BUFFER_SIZE;
  c_meta : ∃ control, recvmsg_parse buffer = Some (mkRecvMsgOut (concat ds) control false false (zlen (concat ds)) (zlen control)) ∧
    ((∃ size : nat, Z.of_nat size ≤ U16_MAX ∧ joinable size ds ∧ ds ≠ [] ∧ control = gro_control (Z.of_nat size)) ∨
     (∃ d, ds = [d] ∧ d ≠ [] ∧ control = []));
}.

(** C15: GRO is undone exactly.  Whatever datagrams the kernel joined into one
    receive, the metadata is accepted, what is counted as received is their
    bytes, and the pieces handed to QUIC are those datagrams, in order, none cut
    or merged. *)
Theorem gro_undone `{RecvMsg} (ds : list bytes) (buffer : bytes) :
  carries ds buffer →
  ∃ r, decode buffer = Some r ∧ payload r = concat ds ∧ segments (segment_size r) (payload r) = ds.
Proof.
  intros [(prefix & Hp & ->) Hfit (control & Hmeta & Hc)]. unfold decode. rewrite Hmeta. cbn [mbind option_bind].
  cbn [payload_data control_data is_payload_truncated is_control_data_truncated incoming_payload_len incoming_control_len].
  rewrite !Z.eqb_refl, length_app, Hp, Nat.eqb_refl, (proj2 (Z.ltb_ge _ _)) by done. cbn [orb negb].
  assert (drop PAYLOAD_OFFSET (prefix ++ concat ds) = concat ds) as Hdrop by (by apply drop_app_length').
  destruct Hc as [(size & Hs & Hj & Hne & ->)|(d & -> & Hne & ->)].
  - assert (0 < size)%nat by (destruct ds as [|d [|]]; cbn in Hj; [done|lia|lia]).
    assert (0 < length (concat ds))%nat.
    { destruct ds as [|d ds]; [done|]. rewrite concat_cons, length_app. destruct ds; cbn in Hj; [lia|]. destruct Hj as (? & ? & _). lia. }
    rewrite gro_size_control by (done || lia). eexists. split; [reflexivity|]. cbn [payload segment_size]. rewrite Hdrop. split; [done|by apply segments_concat].
  - change (gro_size [] ?n) with (Some (Nat.max n 1)). eexists. split; [reflexivity|]. cbn [payload segment_size]. rewrite Hdrop. split; [done|].
    apply segments_concat. cbn [joinable concat]. rewrite app_nil_r. destruct d; [done|]. cbn [length]. lia.
Qed.

(** Two datagrams of three bytes and one of one. *)
Definition sample_datagrams : list bytes := [[1; 2; 3]; [4; 5; 6]; [7]].
#[local] Instance sample_recvmsg : RecvMsg := λ b,
  let p := drop PAYLOAD_OFFSET b in
  Some (mkRecvMsgOut p (gro_control 3) false false (zlen p) 24).
Lemma gro_undone_witness :
  carries sample_datagrams (replicate PAYLOAD_OFFSET 0 ++ concat sample_datagrams) ∧
  ∃ r, decode (replicate PAYLOAD_OFFSET 0 ++ concat sample_datagrams) = Some r ∧ payload r = concat sample_datagrams ∧
    segments (segment_size r) (payload r) = sample_datagrams.
Proof.
  assert (carries sample_datagrams (replicate PAYLOAD_OFFSET 0 ++ concat sample_datagrams)) as Hc.
  { split; [by exists (replicate PAYLOAD_OFFSET 0)|vm_compute; discriminate|]. exists (gro_control 3). split; [reflexivity|]. left. exists 3%nat.
    split; [vm_compute; discriminate|]. split; [cbn; lia|]. by split. }
  split; [exact Hc|]. exact (gro_undone _ _ Hc).
Defined.
End h3_recv.
