(* ===== verification/Http3Worker.v ===== *)
(** * The HTTP/3 worker — [src/http3.rs], [src/http3/recv.rs]

    One worker thread: its connections, each a QUIC connection ([QuicConn.v]) on
    a UDP socket with its HTTP/3 streams ([H3Proto.v], [Inflight.v]), the queue
    of datagrams to send, the sends that outlive their connection ([Retired]),
    and the loop over timers and the completions of its ring ([Uring.v]).

    The kernel and the clock are the parameter [Kernel], rustls is [Rustls], the
    io_uring crate's reading of receive metadata is [RecvMsg], and the random
    bytes of connection ids are [Entropy]; a run is given a number of turns.
    [narrate] only prints.  [spare], [readable], [finished] and [transmit_buf]
    only keep capacity between calls; [MsgState] is what a [SendMsg] entry
    carries. *)

From S2P Require Import Prelude Effects Varint QuicPacket QuicRecovery QuicRecvStream QuicStreams QuicConn Status Stats Inflight Target Requests H3Proto Uring UringConn Http3Recv.
From stdpp Require Import relations.
#[local] Open Scope Z_scope.

Class Entropy := entropy : uring.World → bytes * bytes.

Module http3.
Import uring uring_conn.

Definition RECEIVE_WINDOW : Z := Z.shiftl 1 30 - 1.
Definition NEARLY_FULL : nat := connection.MAX_DATAGRAM - 64.
Definition GSO_SEGMENTS : nat := 64.
Definition GSO_MAX_PAYLOAD : Z := 65507.
Definition CLOSE_GRACE : Z := 10 ^ 9.
Definition IDLE_TIMEOUT : Z := 30 * 10 ^ 9.

Definition STREAM_QPACK_ENCODER : Z := 0x02.
Definition STREAM_QPACK_DECODER : Z := 0x03.
Definition H3_NO_ERROR : Z := 0x100.
Definition H3_REQUEST_REJECTED : Z := 0x10b.
Definition H3_REQUEST_CANCELLED : Z := 0x10c.

Record Datagram := mkDatagram { buf : bytes; segment_size : nat }.
Record Retired := mkRetired { r_user_data : Z; r_datagram : Datagram }.

(** [Vec::swap_remove] *)
Definition swap_remove {A} (i : nat) (l : list A) : list A :=
  match last l with Some x => take (length l - 1) (<[i := x]> l) | None => [] end.

Record GiveBacks := mkGiveBacks { completed : Z; unjudged : Z; retried : Z }.
#[global] Instance GiveBacks_eta : Eta GiveBacks := λ g, mkGiveBacks (completed g) (unjudged g) (retried g).

Record InFlight := mkInFlight {
  stream_id : Z;
  start : Z;
  reader : h3_proto.ResponseReader;
  unsent : bytes;
}.
#[global] Instance InFlight_eta : Eta InFlight := λ r, mkInFlight (stream_id r) (start r) (reader r) (unsent r).

Record H3Init := mkH3Init { ids : list Z; preludes : list bytes; written : list nat }.

Section worker.
Context `{RT : Rustls} `{ST : UnstableSort (Z * bytes)} `{KN : Kernel} `{RM : RecvMsg} `{EN : Entropy}.
Abbreviation Connection := (connection.Connection (RT := RT)).

Record Conn := mkConn {
  fd : Z;
  quic : option Connection;
  h3_ready : bool;
  h3_init : option H3Init;
  uni : list (Z * h3_proto.UniReader);
  pending : bool;
  goaway : option Z;
  out_queue : list Datagram;
  sending : bool;
  recv_armed : bool;
  generation : Z;
  streams : inflight.Ring InFlight;
  has_unsent : bool;
  give_backs : GiveBacks;
  closing : option Z;
}.
#[global] Instance Conn_eta : Eta Conn := λ c,
  mkConn (fd c) (quic c) (h3_ready c) (h3_init c) (uni c) (pending c) (goaway c) (out_queue c) (sending c) (recv_armed c)
    (generation c) (streams c) (has_unsent c) (give_backs c) (closing c).

Record Shared := mkShared {
  stats : stats.Stats;
  pool : buf_ring.BufRing;
  started : Z;
  stop : bool;
  retired : list Retired;
}.
#[global] Instance Shared_eta : Eta Shared := λ x, mkShared (stats x) (pool x) (started x) (stop x) (retired x).

Definition no_give_backs : GiveBacks := mkGiveBacks 0 0 0.
Definition new_conn : Conn :=
  mkConn (-1) None false None [] false None [] false false 0 inflight.new false no_give_backs None.

Abbreviation M := (eff (Local Conn Shared) error).

Definition now : M Z := l ← get; mret (k_now (world l)).
Definition update_stats (f : stats.Stats → stats.Stats) : M unit := update_shared (λ x, x <| stats := f (stats x) |>).
Definition count_errors (n : Z) (s : stats.Stats) : stats.Stats :=
  stats.mkStats (stats.completed s) (u64 (stats.errors s + n)) (stats.connect_errors s) (stats.bytes_received s) (stats.bytes_sent s)
    (stats.latencies_ns s) (stats.status_counts s).
Definition count_connect_error (s : stats.Stats) : stats.Stats :=
  stats.mkStats (stats.completed s) (stats.errors s) (u64 (stats.connect_errors s + 1)) (stats.bytes_received s) (stats.bytes_sent s)
    (stats.latencies_ns s) (stats.status_counts s).
Definition count_received (n : Z) (s : stats.Stats) : stats.Stats :=
  stats.mkStats (stats.completed s) (stats.errors s) (stats.connect_errors s) (u64 (stats.bytes_received s + n)) (stats.bytes_sent s)
    (stats.latencies_ns s) (stats.status_counts s).
Definition count_sent (n : Z) (s : stats.Stats) : stats.Stats :=
  stats.mkStats (stats.completed s) (stats.errors s) (stats.connect_errors s) (stats.bytes_received s) (u64 (stats.bytes_sent s + n))
    (stats.latencies_ns s) (stats.status_counts s).

(** An error of the connection, as [anyhow] has it. *)
Definition of_conn_error (e : conn_streams.conn_error) : error :=
  match e with
  | conn_streams.Anyhow e => e
  | conn_streams.Recv e => Bail (connection.recv_error_text e)
  end.

(** Methods of [conn.quic], which is there. *)
Definition on_quic {A} (m : eff Connection conn_streams.conn_error A) : M A :=
  c ← me;
  match quic c with
  | None => lift (panic "unwrap on None")
  | Some q =>
      let '(r, q) := m q in
      _ ← update (λ c, c <| quic := Some q |>);
      lift (match r with Ok a => Ok a | Err e => Err (of_conn_error e) end)
  end.
Definition on_streams {A} (f : conn_streams.Streams → A * conn_streams.Streams) : M A :=
  on_quic (λ q, let '(a, s) := f (connection.st q) in (Ok a, q <| connection.st := s |>)).

(** [now.duration_since(since)] *)
Definition duration_since (now since : Z) : Z := Z.max 0 (now - since).

(** ** [Conn] *)

Definition timed_out (at_ limit : Z) (c : Conn) : bool :=
  match inflight.slot (streams c) 0 with
  | Some oldest => limit <=? duration_since at_ (start oldest)
  | None => false
  end.

Definition arm_recv (i : nat) : M unit :=
  c ← me;
  when (negb (recv_armed c))
    (_ ← on_ring (push_recvmsg_multi i (generation c)); update (λ c, c <| recv_armed := true |>)).

Definition close (i : nat) : M unit :=
  c ← me;
  _ ← (if sending c then
         match out_queue c with
         | d :: queue =>
             _ ← update (λ c, c <| out_queue := queue |>);
             update_shared (λ x, x <| retired := retired x ++ [mkRetired (user_data i (generation c) OP_SEND) d] |>)
         | [] => mret tt
         end
       else mret tt);
  _ ← when (0 <=? fd c) (_ ← on_ring (close_fd (fd c)); update (λ c, c <| fd := -1 |>));
  update (λ c, c <| quic := None |> <| uni := [] |> <| h3_ready := false |> <| h3_init := None |> <| goaway := None |>
    <| out_queue := [] |> <| sending := false |> <| recv_armed := false |> <| streams := inflight.clear (streams c) |>
    <| has_unsent := false |> <| give_backs := no_give_backs |> <| closing := None |>
    <| generation := next_generation (generation c) |>).

Definition fail_inflight : M unit :=
  c ← me;
  _ ← update_stats (count_errors (Z.of_nat (inflight.len (streams c))));
  _ ← update (λ c, c <| streams := inflight.clear (streams c) |> <| has_unsent := false |>);
  _ ← update_stats (count_errors (unjudged (give_backs c)));
  update (λ c, c <| give_backs := give_backs c <| unjudged := 0 |> |>).

(** ** [H3Init] *)

Fixpoint open_unis (n : nat) : M (list Z) :=
  match n with
  | O => mret []
  | S n' =>
      id ← on_streams conn_streams.open_uni;
      id ← lift (ok_or "the peer allowed no uni streams" id);
      rest ← open_unis n';
      mret (id :: rest)
  end.
Definition init_new : M H3Init :=
  opened ← open_unis 3;
  mret (mkH3Init opened [h3_proto.control_stream_prelude; put_varint STREAM_QPACK_ENCODER; put_varint STREAM_QPACK_DECODER] [0; 0; 0]%nat).

(** The loop over the three streams: how much of each is written *)
Fixpoint flush_preludes (l : list (Z * bytes * nat)) : M (list nat) :=
  match l with
  | [] => mret []
  | (id, prelude, done) :: l' =>
      done ← (if (done <? length prelude)%nat
              then n ← on_streams (λ s, conn_streams.write s id (drop done prelude)); mret (done + n)%nat
              else mret done);
      rest ← flush_preludes l';
      mret (done :: rest)
  end.
(** [H3Init::flush]: whether all is written, and the state after it *)
Definition init_flush (init : H3Init) : M (bool * H3Init) :=
  done ← flush_preludes (zip (zip (ids init) (preludes init)) (written init));
  mret (forallb (λ '(prelude, n), n =? length prelude)%nat (zip (preludes init) done), mkH3Init (ids init) (preludes init) done).

(** ** Opening streams *)

Section run.
Context {SocketAddr : Type}.
Variable target : target.Target SocketAddr.
Variable budget : budget.Budget.
Variable connect_timeout : Z.
Variable timeout : option Z.
Variable parallel : nat.
Variable gso : bool.                   (* [probe_gso] *)
Abbreviation request := (requests.h3_request target).

Definition may_start : M bool := l ← get; mret (budget.may_start budget (started (shared l))).

Definition local_params : conn_streams.LocalParamsInput :=
  conn_streams.mkLocalParamsInput RECEIVE_WINDOW RECEIVE_WINDOW 3
    (Z.max IDLE_TIMEOUT (default 0 timeout) / 1000000) (connect_timeout / 1000000).

(** [GiveBacks::give_back] *)
Definition give_back : M unit :=
  c ← me;
  let g := give_backs c in
  if completed g =? 0 then update (λ c, c <| give_backs := g <| unjudged := u64 (unjudged g + 1) |> |>)
  else if retried g <? u64 (Z.of_nat parallel * completed g) then
    _ ← update (λ c, c <| give_backs := g <| retried := u64 (retried g + 1) |> |>);
    update_shared (λ x, x <| started := u64 (started x - 1) |>)
  else update_stats (count_errors 1).

Fixpoint give_back_times (n : nat) : M unit :=
  match n with O => mret tt | S n' => _ ← give_back; give_back_times n' end.

(** [GiveBacks::judge] *)
Definition judge (drained : bool) : M unit :=
  c ← me;
  let g := give_backs c in
  if unjudged g =? 0 then mret tt
  else
    let taken := update (λ c, c <| give_backs := g <| unjudged := 0 |> |>) in
    if 0 <? completed g then _ ← taken; give_back_times (Z.to_nat (unjudged g))
    else if drained then _ ← taken; update_stats (count_errors (unjudged g))
    else mret tt.

(** The loop of [flush_unsent] over the slots of the ring: whether something is
    left *)
Fixpoint flush_slots (s : conn_streams.Streams) (l : list (option InFlight)) : conn_streams.Streams * list (option InFlight) * bool :=
  match l with
  | [] => (s, [], false)
  | Some r :: l' =>
      if bool_decide (unsent r = []) then let '(s, l', rest) := flush_slots s l' in (s, Some r :: l', rest)
      else
        let '(n, s) := conn_streams.write s (stream_id r) (unsent r) in
        let r := r <| unsent := drop n (unsent r) |> in
        let '(s, here) := if bool_decide (unsent r = []) then (conn_streams.finish s (stream_id r), false) else (s, true) in
        let '(s, l', rest) := flush_slots s l' in
        (s, Some r :: l', here || rest)
  | None :: l' => let '(s, l', rest) := flush_slots s l' in (s, None :: l', rest)
  end.
Definition flush_unsent : M unit :=
  c ← me;
  if negb (has_unsent c) then mret tt
  else
    let ring := streams c in
    '(l, rest) ← on_streams (λ s, let '(s, l, rest) := flush_slots s (drop (inflight.head ring) (inflight.slots ring)) in ((l, rest), s));
    update (λ c, c <| streams := inflight.mkRing (take (inflight.head ring) (inflight.slots ring) ++ l) (inflight.head ring)
                                   (inflight.base ring) (inflight.open ring) (inflight.compact_at ring) |>
                   <| has_unsent := rest |>).

(** The [while] of [fill_streams]: every turn but the last opens a stream. *)
Fixpoint open_streams (fuel : nat) : M unit :=
  c ← me;
  ms ← may_start;
  if (inflight.len (streams c) <? parallel)%nat && ms then
    match fuel with
    | O => lift (panic "out of fuel")
    | S fuel' =>
        opened ← on_streams (λ s, conn_streams.send_oneshot s request);
        match opened with
        | None => mret tt
        | Some (qsid, sent) =>
            _ ← when (sent <? length request)%nat (update (λ c, c <| has_unsent := true |>));
            t ← now;
            rest ← lift (slice_from request sent);
            _ ← update (λ c, c <| streams := inflight.push inflight.H3_SHIFT (streams c) qsid (mkInFlight qsid t h3_proto.new_response rest) |>);
            _ ← update_shared (λ x, x <| started := u64 (started x + 1) |>);
            open_streams fuel'
        end
    end
  else mret tt.
Definition fill_streams : M unit :=
  c ← me;
  l ← get;
  if stop (shared l) || (match goaway c with Some _ => true | None => false end) || negb (h3_ready c) then mret tt
  else match quic c with None => mret tt | Some _ => open_streams parallel end.

(** ** Sending *)

Definition push_front_send (i : nat) : M unit :=
  c ← me;
  match out_queue c with
  | [] => mret tt
  | front :: _ =>
      _ ← update (λ c, c <| sending := true |>);
      if (0 <? segment_size front)%nat then
        on_ring (push_sqe (SendMsg i (user_data i (generation c) OP_SEND) (buf front) (u16 (Z.of_nat (segment_size front)))))
      else on_ring (push_send_slice i (generation c) (buf front))
  end.

(** [recycle] *)
Definition pop_front : M unit := update (λ c, c <| out_queue := tail (out_queue c) |>).

Definition complete_retired_send (ud res : Z) : M unit :=
  l ← get;
  match list_find (λ r, r_user_data r = ud) (retired (shared l)) with
  | None => mret tt
  | Some (index, _) =>
      _ ← update_shared (λ x, x <| retired := swap_remove index (retired x) |>);
      when (0 <? res) (update_stats (count_sent res))
  end.

(** The [while] of [pump_transmits]: the batch, the size of its segments, how
    many there are, and a packet too large for it *)
Fixpoint batch_loop (fuel : nat) (at_ : Z) (max : nat) (out : bytes) (size count : nat) : M (bytes * nat * nat * option bytes) :=
  if (max <=? count)%nat then mret (out, size, count, None)
  else match fuel with
       | O => lift (panic "out of fuel")
       | S fuel' =>
           let before := length out in
           '(n, out) ← on_quic (connection.poll_transmit at_ out (if (0 <? count)%nat then Some size else None));
           if (n =? 0)%nat then mret (out, size, count, None)
           else if (count =? 0)%nat then
             let max := Nat.min max (Z.to_nat (GSO_MAX_PAYLOAD / Z.of_nat n)) in
             if (n <? NEARLY_FULL)%nat then mret (out, n, 1%nat, None) else batch_loop fuel' at_ max out n 1
           else if (n <? size)%nat then mret (out, size, (count + 1)%nat, None)
           else if (size <? n)%nat then mret (take before out, size, count, Some (drop before out))
           else batch_loop fuel' at_ max out size (count + 1)
       end.

Definition queue_batch (batch : bytes * nat * nat * option bytes) : M unit :=
  let '(out, size, count, oversize) := batch in
  _ ← (if bool_decide (out = []) then mret tt
       else update (λ c, c <| out_queue := out_queue c ++ [mkDatagram out (if (1 <? count)%nat then size else 0%nat)] |>));
  match oversize with
  | Some b => update (λ c, c <| out_queue := out_queue c ++ [mkDatagram b 0] |>)
  | None => mret tt
  end.

Definition pump_transmits (i : nat) (at_ : Z) : M unit :=
  c ← me;
  _ ← (match quic c with
       | Some q =>
           let max := if connection.probing q then 2%nat else if gso then GSO_SEGMENTS else 1%nat in
           batch ← batch_loop max at_ max [] 0 0;
           queue_batch batch
       | None => mret tt
       end);
  c ← me;
  if sending c then mret tt else push_front_send i.

(** ** [drive] *)

(** [stats.record_success(status, inflight.start)] *)
Definition record_success (st since : Z) : M unit :=
  l ← get;
  s ← lift (stats.record_success (stats (shared l)) st (duration_since (k_now (world l)) since));
  update_stats (λ _, s).

(** What the events of a pass leave to do: streams to read, streams that ended,
    and whether the connection is alive. *)
Record Todo := mkTodo { readable : list Z; finished : list (Z * option Z); alive : bool }.
#[global] Instance Todo_eta : Eta Todo := λ d, mkTodo (readable d) (finished d) (alive d).

Definition on_event (e : conn_streams.Event) (d : Todo) : M Todo :=
  match e with
  | conn_streams.Connected =>
      init ← init_new;
      '(ready, init) ← init_flush init;
      _ ← update (λ c, c <| h3_ready := ready |>);
      _ ← when (negb ready) (update (λ c, c <| h3_init := Some init |>));
      mret d
  | conn_streams.Lost _ => mret (d <| alive := false |>)
  | conn_streams.Readable id | conn_streams.Opened id => mret (d <| readable := readable d ++ [id] |>)
  | conn_streams.Stopped id =>
      _ ← update (λ c, c <| streams := inflight.modify inflight.H3_SHIFT inflight.H3_OFFSET (streams c) id (λ r, r <| unsent := [] |>) |>);
      mret d
  | conn_streams.Finished id reset => mret (d <| finished := finished d ++ [(id, reset)] |>)
  end.
(** [while let Some(event) = quic.poll_event()]: no event adds another *)
Fixpoint on_events (fuel : nat) (d : Todo) : M Todo :=
  e ← on_quic (λ q, let '(e, q) := connection.poll_event q in (Ok e, q));
  match e with
  | None => mret d
  | Some e =>
      match fuel with
      | O => lift (panic "out of fuel")
      | S fuel' => d ← on_event e d; on_events fuel' d
      end
  end.

(** [quic.consume(id, |data| reader.feed(data))]: the reader after it *)
Definition consume {R} (feed : R → bytes → res R) (r : R) (id : Z) : M R :=
  c ← me;
  match quic c with
  | None => lift (panic "unwrap on None")
  | Some q =>
      '(_, s) ← lift (conn_streams.consume (connection.st q) id (λ data, _ ← feed r data; Ok tt));
      _ ← update (λ c, c <| quic := Some (q <| connection.st := s |>) |>);
      match conn_streams.recv_mut (connection.st q) id with
      | Some (stream, _) =>
          if (length (recv_stream.ready stream) =? 0)%nat then mret r else lift (feed r (recv_stream.ready stream))
      | None => mret r
      end
  end.

(** [opt.map_or(id, |prev| prev.min(id))] *)
Definition min_goaway (prev : option Z) (id : Z) : Z := match prev with Some p => Z.min p id | None => id end.

Definition read_stream (id : Z) : M unit :=
  c ← me;
  match inflight.get inflight.H3_SHIFT inflight.H3_OFFSET (streams c) id with
  | Some r =>
      reader' ← consume h3_proto.feed (reader r) id;
      update (λ c, c <| streams := inflight.modify inflight.H3_SHIFT inflight.H3_OFFSET (streams c) id (λ r, r <| reader := reader' |>) |>)
  | None =>
      slot ← (match list_find (λ u, u.1 = id) (uni c) with
              | Some (pos, _) => mret pos
              | None => _ ← update (λ c, c <| uni := uni c ++ [(id, h3_proto.new_uni)] |>); mret (length (uni c))
              end);
      c ← me;
      u ← lift (match uni c !! slot with Some u => Ok u | None => panic "index out of bounds" end);
      reader' ← consume h3_proto.uni_feed u.2 id;
      _ ← update (λ c, c <| uni := <[slot := (u.1, reader')]> (uni c) |>);
      match h3_proto.goaway reader' with
      | Some g => update (λ c, c <| goaway := Some (min_goaway (goaway c) g) |>)
      | None => mret tt
      end
  end.

(** [conn.streams.take(id)] *)
Definition take_stream (id : Z) : M (option InFlight) :=
  c ← me;
  let '(taken, r) := inflight.take inflight.H3_SHIFT inflight.H3_OFFSET (streams c) id in
  _ ← update (λ c, c <| streams := r |>);
  mret taken.
Definition retire_stream (id : Z) : M unit := on_streams (λ s, (tt, conn_streams.retire s id H3_REQUEST_CANCELLED)).

Definition finish_stream (f : Z * option Z) : M unit :=
  let '(id, reset) := f in
  taken ← take_stream id;
  match taken with
  | None => mret tt
  | Some r =>
      let status := h3_proto.status (reader r) in
      c ← me;
      let unprocessed := (status =? 0) && match goaway c with Some g => g <=? id | None => false end in
      let was_reset := match reset with Some _ => true | None => false end in
      _ ← (if bool_decide (reset = Some H3_REQUEST_REJECTED) || (was_reset && unprocessed) then give_back
           else if was_reset || (status =? 0) then update_stats (count_errors 1)
           else
             _ ← record_success status (start r);
             update (λ c, c <| give_backs := give_backs c <| completed := u64 (completed (give_backs c) + 1) |> |>));
      retire_stream id
  end.

(** One request of those at or above a GOAWAY. *)
Definition give_up_stream (id : Z) : M unit :=
  _ ← take_stream id;
  _ ← retire_stream id;
  give_back.
(** What a GOAWAY asks for: whether the connection is still alive *)
Definition on_goaway (still : bool) : M bool :=
  c ← me;
  match goaway c with
  | None => mret still
  | Some g =>
      let unprocessed := List.filter (λ id, g <=? id) (stream_id <$> inflight.iter (streams c)) in
      _ ← for_each unprocessed give_up_stream;
      c ← me;
      if inflight.is_empty (streams c) then
        _ ← on_quic (λ q, (Ok tt, connection.close H3_NO_ERROR [] q)); mret false
      else mret still
  end.

(** The closure of [drive]. *)
Definition drive_body : M bool :=
  c ← me;
  match quic c with
  | None => mret true
  | Some q =>
      d ← on_events (length (conn_streams.events (connection.st q))) (mkTodo [] [] true);
      _ ← for_each (readable d) read_stream;
      _ ← for_each (finished d) finish_stream;
      still ← on_goaway (alive d);
      c ← me;
      _ ← judge (inflight.is_empty (streams c));
      c ← me;
      _ ← (match h3_init c with
           | Some init =>
               '(ready, init) ← init_flush init;
               if (ready : bool) then update (λ c, c <| h3_init := None |> <| h3_ready := true |>)
               else update (λ c, c <| h3_init := Some init |>)
           | None => mret tt
           end);
      _ ← flush_unsent;
      _ ← fill_streams;
      mret still
  end.
Definition drive : M bool := still ← attempt drive_body; mret (default false still).

(** ** Closing *)

(** How often [submit] may be interrupted while the submission queue is emptied,
    and how many waits the end of the run may take; the loops have no bound of
    their own. *)
Variable patience : nat.

(** The connection of a slot: a socket, a handshake begun, a receive *)
Definition open_conn (i : nat) (at_ : M Z) : M unit :=
  f ← on_ring make_socket;
  _ ← update (λ c, c <| fd := f |>);
  _ ← on_ring (register_files_update i f "register_files_update failed");
  t ← at_;
  l ← get;
  let '(r1, r2) := entropy (world l) in
  q ← lift (connection.connect r1 r2 (connection.text (target.host target)) local_params);
  _ ← update (λ c, c <| quic := Some q |>);
  _ ← arm_recv i;
  pump_transmits i t.

Definition finish_close (i : nat) : M unit :=
  _ ← on_ring (drain_sq patience "io_uring made no progress before socket retirement" "submit before socket retirement failed");
  c ← me;
  _ ← when (recv_armed c)
        (on_ring (sync_cancel (ByUserData (user_data i (generation c) OP_RECV)) "cancel retired UDP receive failed"));
  _ ← close i;
  l ← get;
  if stop (shared l) || negb (budget.may_start budget (started (shared l)))
  then on_ring (register_files_update i (-1) "unregister retired UDP socket failed")
  else open_conn i now.

Definition begin_close (i : nat) (at_ : Z) : M unit :=
  c ← me;
  _ ← (match closing c with
       | Some _ => mret tt
       | None =>
           _ ← (if h3_ready c then fail_inflight
                else
                  ms ← may_start;
                  when ms
                    (_ ← update_stats (count_errors 1);
                     _ ← update_stats count_connect_error;
                     update_shared (λ x, x <| started := u64 (started x + 1) |>)));
           update (λ c, c <| closing := Some (at_ + CLOSE_GRACE) |>)
       end);
  c ← me;
  if sending c then mret tt else finish_close i.

(** ** Receiving: [recv::complete] *)

(** [buf_ring.recycle(bid)] *)
Definition recycle (bid : Z) : M unit :=
  _ ← update_shared (λ x, x <| pool := buf_ring.recycle (pool x) bid |>); on_ring (log (Recycled bid)).
Definition recycle_any (bid : option Z) : M unit :=
  match bid with Some bid => recycle bid | None => mret tt end.

(** The datagrams of a receive, until one breaks the connection *)
Fixpoint handle_all (at_ : Z) (ds : list bytes) : M bool :=
  match ds with
  | [] => mret false
  | d :: ds' =>
      handled ← attempt (on_quic (connection.handle_datagram at_ d));
      match handled with Some _ => handle_all at_ ds' | None => mret true end
  end.

Definition received (at_ result : Z) (bid : option Z) : M bool :=
  if result <? 0 then mret (negb ((result =? - ENOBUFS) || (result =? - EMSGSIZE)))
  else match bid with
  | None => mret true
  | Some bid =>
      l ← get;
      _ ← lift (buf_ring.data_range (pool (shared l)) bid result);
      match h3_recv.decode (take (Z.to_nat result) (k_buffer (world l) bid)) with
      | None => mret true
      | Some r =>
          _ ← update_stats (count_received (zlen (h3_recv.payload r)));
          c ← me;
          broken ← (match quic c with
                    | Some _ => handle_all at_ (h3_recv.segments (h3_recv.segment_size r) (h3_recv.payload r))
                    | None => mret false
                    end);
          if (broken : bool) then mret true else _ ← update (λ c, c <| pending := true |>); mret false
      end
  end.
Definition complete (at_ : Z) (cqe : Cqe) : M bool :=
  _ ← when (negb (cqe_more cqe)) (update (λ c, c <| recv_armed := false |>));
  broken ← received at_ (cqe_result cqe) (cqe_buffer cqe);
  _ ← recycle_any (cqe_buffer cqe);
  mret broken.

(** ** One completion *)

Definition on_send (i : nat) (res : Z) : M bool :=
  _ ← update (λ c, c <| sending := false |>);
  broken ← (if res =? - EMSGSIZE then _ ← pop_front; _ ← push_front_send i; mret false
            else if res <? 0 then mret true
            else _ ← update_stats (count_sent res); _ ← pop_front; _ ← push_front_send i; mret false);
  c ← me;
  mret (broken || (match closing c with Some _ => true | None => false end) && negb (sending c)).

Definition on_recv (i : nat) (at_ : Z) (cqe : Cqe) : M bool :=
  broken ← complete at_ cqe;
  _ ← when (negb broken) (arm_recv i);
  mret broken.

Definition on_cqe (i : nat) (op gen at_ : Z) (cqe : Cqe) : M unit :=
  c ← me;
  if negb (gen =? generation c) then
    _ ← recycle_any (cqe_buffer cqe);
    when (op =? OP_SEND) (complete_retired_send (cqe_ud cqe) (cqe_result cqe))
  else
    broken ← (if op =? OP_SEND then on_send i (cqe_result cqe)
              else if op =? OP_RECV then on_recv i at_ cqe
              else lift (panic "unreachable"));
    when broken (begin_close i at_).

(** ** Passes over the connections *)

(** [drive], [pump_transmits] and, if the connection is over, [begin_close] *)
Definition turn_conn (i : nat) (at_ : Z) : M unit :=
  still ← drive;
  _ ← pump_transmits i at_;
  when (negb still) (begin_close i at_).

(** The [while] over the timers that have expired: whether there was one, and
    the next deadline *)
Fixpoint expire (fuel : nat) (at_ : Z) (q : Connection) (expired : bool) : res (Connection * bool * option Z) :=
  match connection.poll_timeout q with
  | None => Ok (q, expired, None)
  | Some deadline =>
      if deadline <=? at_ then
        match fuel with
        | O => panic "out of fuel"
        | S fuel' => expire fuel' at_ (connection.handle_timeout at_ q) true
        end
      else Ok (q, expired, Some deadline)
  end.
Definition TIMER_TURNS : nat := 64.

Definition service (i : nat) (at_ wait : Z) : M Z :=
  c ← me;
  match closing c with
  | Some deadline => if deadline <=? at_ then _ ← finish_close i; mret wait else mret (Z.min wait (deadline - at_))
  | None =>
      match quic c with
      | None => mret wait
      | Some q =>
          '(q, expired, next) ← lift (expire TIMER_TURNS at_ q false);
          _ ← update (λ c, c <| quic := Some q |>);
          let wait := match next with Some deadline => Z.min wait (deadline - at_) | None => wait end in
          _ ← when expired (turn_conn i at_);
          mret wait
      end
  end.

(** After the completions of a batch *)
Definition drive_pending (i : nat) (at_ : Z) : M unit :=
  c ← me;
  _ ← update (λ c, c <| pending := false |>);
  when (pending c && match closing c with None => true | Some _ => false end) (turn_conn i at_).

Definition check_timeout (i : nat) (limit at_ : Z) : M unit :=
  c ← me;
  when (timed_out at_ limit c)
    (_ ← (match quic c with
          | Some _ => on_quic (λ q, (Ok tt, connection.close H3_REQUEST_CANCELLED [] q))
          | None => mret tt
          end);
     _ ← pump_transmits i at_;
     begin_close i at_).

(** The farewell: [quic.close], one datagram, and the socket *)
Definition say_goodbye (i : nat) (at_ : Z) : M unit :=
  c ← me;
  _ ← (match quic c with
       | Some _ =>
           _ ← on_quic (λ q, (Ok tt, connection.close H3_NO_ERROR [] q));
           got ← attempt (on_quic (connection.poll_transmit at_ [] None));
           match got with
           | Some (n, out) => when (0 <? n)%nat (on_ring (raw_send (fd c) (take n out)))
           | None => mret tt
           end
       | None => mret tt
       end);
  close i.

(** One turn of [drain_final_completions], for its connection *)
Definition last_cqe (gen : Z) (cqe : Cqe) : M unit :=
  c ← me;
  if negb (gen =? generation c) then complete_retired_send (cqe_ud cqe) (cqe_result cqe)
  else when (sending c)
    (_ ← when (0 <? cqe_result cqe) (update_stats (count_sent (cqe_result cqe)));
     _ ← update (λ c, c <| sending := false |>);
     pop_front).

(** ** The worker *)

Abbreviation W := (eff (Worker Conn Shared) error).

Definition take_cqe (at_ : Z) (cqe : Cqe) : W unit :=
  _ ← on_ring (log (Reaped cqe));
  if cqe_ud cqe =? TIMEOUT_USER_DATA then modify (λ w, w <| w_shared := w_shared w <| stop := true |> |>)
  else let '(op, i, gen) := decode_user_data (cqe_ud cqe) in at_conn i (on_cqe i op gen at_ cqe).

Variable settings : Settings.

(** Timers, and how long to wait for *)
Fixpoint service_all (idxs : list nat) (at_ wait : Z) : W Z :=
  match idxs with
  | [] => mret wait
  | i :: idxs' => wait ← at_conn i (service i at_ wait); service_all idxs' at_ wait
  end.
Definition for_conns (body : nat → M unit) : W unit := w ← get; for_each (seq 0 (length (conns w))) (λ i, at_conn i (body i)).

Definition over (w : Worker Conn Shared) : bool :=
  let s := stats (w_shared w) in
  budget.is_met budget (u64 (stats.completed s + stats.errors s)) || k_shutdown (w_world w).

(** Serving the timers of every connection: how long to wait for, at most *)
Definition service_timers : W Z := w ← get; service_all (seq 0 (length (conns w))) (k_now (w_world w)) WAIT_TIMEOUT.

Definition turn : W bool :=
  wait ← service_timers;
  w ← get;
  _ ← on_ring (submit_and_wait_timeout settings wait (batch_size settings (Z.of_nat (length (conns w)))));
  w ← get;
  _ ← for_each (k_completions (w_world w)) (take_cqe (k_now (w_world w)));
  w ← get;
  let at_ := k_now (w_world w) in
  _ ← for_conns (λ i, drive_pending i at_);
  _ ← (match timeout with Some limit => for_conns (λ i, check_timeout i limit at_) | None => mret tt end);
  w ← get;
  mret (stop (w_shared w)).

(** [loop], for a number of turns: whether it has ended. *)
Fixpoint main_loop (turns : nat) : W bool :=
  w ← get;
  if over w then mret true
  else match turns with
       | O => mret false
       | S turns' => ended ← turn; if (ended : bool) then mret true else main_loop turns'
       end.

Fixpoint open_all (idxs : list nat) (at_ : Z) : W unit :=
  match idxs with
  | [] => mret tt
  | i :: idxs' =>
      if negb (budget.may_start budget (Z.of_nat i)) then mret tt
      else _ ← at_conn i (open_conn i (mret at_)); open_all idxs' at_
  end.

(** [next_power_of_two] *)
Definition next_power_of_two (n : Z) : Z := 2 ^ Z.log2_up n.

Definition setup (connections : nat) : W unit :=
  p ← lift (buf_ring.with_buffer_size (clamp 64 32768 (next_power_of_two (Z.of_nat connections * 2))) h3_recv.BUFFER_SIZE);
  _ ← modify (λ w, w <| conns := replicate connections new_conn |> <| w_shared := w_shared w <| pool := p |> |>);
  _ ← on_ring (arm_deadline (budget.deadline budget));
  w ← get;
  open_all (seq 0 connections) (k_now (w_world w)).

(** A worker before it has done anything. *)
Definition cold : Worker Conn Shared :=
  mkWorker (mkWorld [] []) [] (mkShared stats.default (buf_ring.mkBufRing [] 0 0 0 0) 0 false []).

(** ** The end of the run *)

Definition drain_final (cqe : Cqe) : W unit :=
  _ ← on_ring (log (Reaped cqe));
  _ ← (match cqe_buffer cqe with
       | Some bid =>
           _ ← modify (λ w, w <| w_shared := w_shared w <| pool := buf_ring.recycle (pool (w_shared w)) bid |> |>);
           on_ring (log (Recycled bid))
       | None => mret tt
       end);
  if cqe_ud cqe =? TIMEOUT_USER_DATA then mret tt
  else let '(op, i, gen) := decode_user_data (cqe_ud cqe) in
       if negb (op =? OP_SEND) then mret tt else at_conn i (last_cqe gen cqe).
Definition drain_final_completions : W unit := w ← get; for_each (k_completions (w_world w)) drain_final.

Fixpoint reap_sends (fuel : nat) (deadline wait : Z) : W unit :=
  _ ← on_ring (submit_and_wait_timeout settings wait 1);
  _ ← drain_final_completions;
  w ← get;
  if negb (existsb sending (conns w)) && bool_decide (retired (w_shared w) = []) then mret tt
  else
    let at_ := k_now (w_world w) in
    if deadline <=? at_ then lift (bail "timed out reaping final UDP sends")
    else match fuel with
         | O => lift (panic "out of fuel")
         | S fuel' => reap_sends fuel' deadline (deadline - at_)
         end.

Definition finish_io : W unit :=
  _ ← on_ring (drain_sq patience "io_uring made no progress before UDP shutdown" "submit before UDP shutdown failed");
  _ ← on_ring (sync_cancel Everything "cancel final UDP I/O failed");
  w ← get;
  reap_sends patience (k_now (w_world w) + CLOSE_GRACE) 0.

Definition finish : W stats.Stats :=
  _ ← finish_io;
  w ← get;
  let at_ := k_now (w_world w) in
  _ ← for_conns (λ i, say_goodbye i at_);
  w ← get;
  mret (stats (w_shared w)).

(** [run_worker], for a number of turns; [None] when they do not suffice.  The
    TLS configuration and the ring have been built. *)
Definition run_worker (turns connections : nat) : W (option stats.Stats) :=
  if (connections =? 0)%nat || budget.is_empty budget then mret (Some stats.default)
  else if 2 ^ CONN_IDX_BITS <? Z.of_nat connections then lift (bail "too many connections per thread")
  else
    _ ← setup connections;
    ended ← main_loop turns;
    if (ended : bool) then s ← finish; mret (Some s) else mret None.
End run.
End worker.
End http3.
