(* ===== verification/Http3Batches.v ===== *)
(** * From QUIC datagrams to what the kernel is told to send

    [poll_transmit] writes a datagram behind what a buffer already holds, and
    [pump_transmits] lets it write one after the other into the same buffer for
    as long as the kernel can cut them apart again (UDP GSO).  Here: writing
    never touches what is there, and the cut gives back the datagrams. *)

From S2P Require Import Prelude Effects Varint QuicFrame QuicAck QuicPacket QuicHeader QuicTransport QuicRecovery QuicRecvStream QuicSendStream QuicStreams QuicConn QuicConnSample Status Stats Inflight Target Requests H3Proto Uring UringRun UringConn Http3Recv Http3Worker.
From stdpp Require Import relations.

Module http3_batches.

(** ** Writing appends *)

Section streams.
Context `{UnstableSort (Z * bytes)}.
Import conn_streams.
Variables (budget start : nat).

Definition grown (f f' : Fill) : Prop := out f `prefix_of` out f'.
#[local] Instance grown_preorder : PreOrder grown.
Proof. split; [by intros f; unfold grown|]. intros f1 f2 f3. unfold grown. apply transitivity. Qed.
Lemma emit_grown b sf c f : grown f (emit b sf (with_conn c f)).
Proof. by exists b. Qed.
Lemma fill_max_data_grown f : grown f (fill_max_data budget start f).
Proof. unfold fill_max_data. cbv zeta. destruct (_ && _); [apply emit_grown|apply (reflexivity (out f))]. Qed.
Lemma fill_credit_grown todo : ∀ f, grown f (fill_credit budget start todo f).
Proof.
  induction todo as [|id todo IH]; intros f; cbn [fill_credit]; [reflexivity|]. destruct (room budget start f <? _)%nat; [reflexivity|]. destruct (recv_mut _ _) as [[r put]|]; [|apply (IH (with_conn _ f))].
  destruct (recv_stream.size_known r); [apply (IH (with_conn _ f))|]. destruct (recv_stream.grant _ _). etrans; [apply emit_grown|apply IH].
Qed.
Lemma fill_retire_grown todo : ∀ f, grown f (fill_retire budget start todo f).
Proof. induction todo as [|seq todo IH]; intros f; cbn [fill_retire]; [reflexivity|]. destruct (room budget start f <? _)%nat; [reflexivity|]. etrans; [apply emit_grown|apply IH]. Qed.
Lemma fill_reset_grown todo : ∀ f, grown f (fill_reset budget start todo f).
Proof. induction todo as [|[[id e] s] todo IH]; intros f; cbn [fill_reset]; [reflexivity|]. destruct (room budget start f <? _)%nat; [reflexivity|]. etrans; [apply emit_grown|apply IH]. Qed.
Lemma send_turn_grown f id s put f' : send_turn budget start f id s put = Ok f' → grown f f'.
Proof.
  unfold send_turn. intros (next & _ & E)%bind_Ok. destruct next as [[[o d] fin]|]; [|apply Ok_inj in E as <-; apply (reflexivity (out f))].
  destruct (send_stream.on_sent _ _ _ _) as [n s']. apply Ok_inj in E as <-. apply emit_grown.
Qed.
Lemma fill_uni_grown n : ∀ i f f', fill_uni budget start n i f = Ok f' → grown f f'.
Proof.
  induction n as [|n IH]; intros i f f'; cbn [fill_uni]; [by intros <-%Ok_inj|]. destruct (room budget start f <? _)%nat; [by intros <-%Ok_inj|]. destruct (_ !! i) as [[id s]|]; [|done].
  intros (f1 & H1 & H2)%bind_Ok. etrans; [by eapply send_turn_grown|by eapply IH].
Qed.
Lemma fill_streams_grown n : ∀ f f', fill_streams budget start n f = Ok f' → grown f f'.
Proof.
  induction n as [|n IH]; intros f f'; cbn [fill_streams]; [by intros <-%Ok_inj|]. destruct (room budget start f <? _)%nat; [by intros <-%Ok_inj|]. destruct (send_queue _) as [|id rest]; [by intros <-%Ok_inj|].
  destruct (stream_index _ _) as [i|]; [|apply (IH (with_conn _ f))]. destruct (slot _ i) as [p|]; [|apply (IH (with_conn _ f))].
  intros (f1 & H1%send_turn_grown & H2%IH)%bind_Ok. etrans; [exact H1|]. etrans; [|exact H2].
  assert (∀ b : bool, grown f1 (if b then with_conn (queue_send id (conn f1)) f1 else f1)) as Hb by (intros []; apply (reflexivity (out f1))). apply Hb.
Qed.
Lemma fill_data_payload_grown c o fs congested f : fill_data_payload budget start c o fs congested = Ok f → o `prefix_of` out f.
Proof.
  unfold fill_data_payload. intros E. change (grown (mkFill c o fs false) f).
  etrans; [apply fill_max_data_grown|]. etrans; [apply fill_credit_grown|]. etrans; [apply fill_retire_grown|]. etrans; [apply fill_reset_grown|].
  destruct congested; [by apply Ok_inj in E as <-|]. apply bind_Ok in E as (f1 & H1%fill_uni_grown & H2%fill_streams_grown). by etrans.
Qed.
End streams.

Section conn.
Context `{RT : Rustls} `{ST : UnstableSort (Z * bytes)}.
Import packet connection.
Abbreviation M := (eff (Connection (RT := RT)) conn_streams.conn_error).
Abbreviation gives m c Q := (holds m c (λ a _, Q a) (λ _ _, True)).

Lemma gives_bind {A B} (m : M A) (f : A → M B) c (P : A → Prop) (Q : B → Prop) : gives m c P → (∀ a c', P a → gives (f a) c' Q) → gives (m ≫= f) c Q.
Proof. intros Hm Hf. apply holds_bind. eapply holds_mono; [exact Hm|auto|done]. Qed.
Lemma gives_step {A B} (m : M A) (f : A → M B) c (Q : B → Prop) : (∀ a c', gives (f a) c' Q) → gives (m ≫= f) c Q.
Proof. intros Hf. apply (gives_bind m f c (λ _, True)); [unfold holds; by destruct (m c) as [[a|e] c']|auto]. Qed.
Lemma gives_lift {A} (r : res A) c (Q : A → Prop) : (∀ a, r = Ok a → Q a) → gives (lift_res r) c Q.
Proof. intros HQ. unfold holds, lift_res, lift. destruct r; cbn; auto. Qed.

Ltac same := apply holds_ret; cbn; first [reflexivity|by eexists].
Section payload.
Variables (space : Space) (now : Z) (budget start : nat).
Lemma fill_ack_grown out c : gives (fill_ack space now budget start out) c (λ r, out `prefix_of` r.1).
Proof.
  unfold fill_ack. apply gives_step. intros s c1. cbv zeta. destruct (_ && _); [|same]. apply gives_step. intros b c2. apply gives_step. intros _ c3. same.
Qed.
Lemma fill_path_response_grown out c : gives (fill_path_response space budget start out) c (λ r, out `prefix_of` r.1).
Proof.
  unfold fill_path_response. apply gives_step. intros s c1. case_decide; [|same]. destruct (path_response s); [|same]. apply gives_step. intros _ c2. destruct (_ <? _)%nat; same.
Qed.
Lemma fill_close_grown out c : gives (fill_close space out) c (λ r, ∀ o, r = Some o → out `prefix_of` o).
Proof.
  unfold fill_close. apply gives_step. intros s c1. case_decide; [|done]. destruct (close_pending s) as [k|]; [|done]. apply gives_step. intros _ c2.
  apply holds_ret. intros o [= <-]. by eexists.
Qed.
Lemma fill_crypto_grown fuel : ∀ out fs e c, gives (fill_crypto space budget start fuel out fs e) c (λ r, out `prefix_of` r.1.1).
Proof.
  induction fuel as [|fuel IH]; intros out fs e c; cbn [fill_crypto]; apply gives_step; intros s c1; cbv zeta; (destruct (_ || _); [same|]); (destruct (_ =? 0)%nat; [same|]); [done|].
  apply gives_step. intros _ c2. eapply holds_mono; [apply IH| |done]. cbv beta. intros r _ Hr. etrans; [|exact Hr]. by eexists.
Qed.
Lemma fill_ping_grown due clear f c : gives (fill_ping budget start due clear f) c (λ r, fl_out f `prefix_of` fl_out r).
Proof. unfold fill_ping. destruct (_ && _); [|same]. apply gives_step. intros _ c1. destruct (fl_ack_eliciting f); same. Qed.
Lemma fill_payload_grown out congested c : gives (fill_payload space now budget start out congested) c (λ r, out `prefix_of` fl_out r).
Proof.
  unfold fill_payload. eapply gives_bind; [apply fill_ack_grown|]. cbv beta. intros [o1 al] c1 H1. eapply gives_bind; [apply fill_path_response_grown|]. cbv beta. intros [o2 e2] c2 H2.
  eapply gives_bind; [apply fill_close_grown|]. cbv beta. intros [o|] c3 H3; [apply holds_ret; cbn; etrans; [exact H1|etrans; [exact H2|by apply H3]]|].
  apply gives_step. intros s c4. eapply gives_bind; [apply fill_crypto_grown|]. cbv beta. intros [[o4 fs4] e4] c5 H4. cbn in H1, H2, H4.
  eapply (gives_bind _ _ _ (λ f, out `prefix_of` fl_out f)).
  - case_decide; [|apply holds_ret; cbn; by do 2 (etrans; [done|])]. apply gives_step. intros s5 c6. eapply gives_bind; [apply gives_lift; intros f E; exact (fill_data_payload_grown _ _ _ _ _ _ _ E)|].
    cbv beta. intros f c7 H5. apply gives_step. intros _ c8. apply holds_ret. cbn. by do 3 (etrans; [done|]).
  - cbv beta. intros f c6 H5. apply gives_step. intros s6 c7. eapply gives_bind; [apply fill_ping_grown|]. cbv beta. intros f' c8 H6. apply gives_step. intros s7 c9.
    eapply holds_mono; [apply fill_ping_grown| |done]. cbv beta. intros r _ Hr. by do 2 (etrans; [done|]).
Qed.
End payload.

Lemma prefix_take (a b : bytes) n : (length a ≤ n)%nat → a `prefix_of` b → a `prefix_of` take n b.
Proof. intros Hn [k ->]. rewrite take_app_ge by done. by apply prefix_app_r. Qed.
Lemma pad_bytes_grown o n : o `prefix_of` pad_bytes o n.
Proof. by eexists. Qed.
Lemma pad_payload_grown o ps pn ds pad : o `prefix_of` pad_payload o ps pn ds pad.
Proof.
  unfold pad_payload. cbv zeta. assert (∀ b : bool, ∀ n, o `prefix_of` if b then pad_bytes o n else o) as H1 by (intros [] n; [apply pad_bytes_grown|done]).
  destruct pad as [target|]; [|apply H1]. etrans; [apply H1|]. destruct (_ <? _)%nat; [apply pad_bytes_grown|done].
Qed.
(** What is before a packet stays as it is when the packet is sealed. *)
Lemma seal_grown space pn pn_len pn_offset payload_start a o c :
  a `prefix_of` o → (length a ≤ payload_start)%nat → (space ≠ Data → length a + 4 ≤ pn_offset)%nat →
  gives (seal space pn pn_len (length a) pn_offset payload_start o) c (λ r, a `prefix_of` r).
Proof.
  intros Ha Hp Hoff. unfold seal. eapply (gives_bind _ _ _ (λ o', a `prefix_of` o')).
  - case_decide as Hs; [by apply holds_ret|]. apply gives_lift. intros o'. unfold header.set_varint_fixed4. destruct (_ <? _)%nat; [done|]. intros <-%Ok_inj.
    apply prefix_app_r, prefix_take; [|done]. specialize (Hoff Hs). lia.
  - cbv beta. intros o' c1 Ho'. apply gives_step. intros s c2. destruct (local_keys s space) as [k|]; [|done]. cbv zeta. destruct (encrypt _ _ _ _) as [[body tag]|e]; [|done].
    apply gives_step. intros p c3. apply holds_ret. apply prefix_app_r. apply prefix_take; [done|]. by apply prefix_app_r, prefix_take.
Qed.
Lemma put_header_length space pn_len c : gives (put_header space pn_len) c (λ h, space ≠ Data → 4 ≤ length h)%nat.
Proof.
  unfold put_header. apply gives_step. intros s c1. case_decide as Hs; [by apply holds_ret|]. apply gives_lift. intros h. unfold header.long_put. intros (kind & _ & E)%bind_Ok _.
  apply Ok_inj in E as <-. rewrite !length_app. assert (length (be_bytes 4 header.VERSION_1) = 4%nat) as -> by done. lia.
Qed.
Lemma write_packet_grown space now o ds congested pad c : gives (write_packet space now o ds congested pad) c (λ r, o `prefix_of` r.2).
Proof.
  unfold write_packet. destruct (_ <? 64)%nat; [by apply holds_ret|]. apply gives_step. intros s c1. cbv zeta. destruct (encode_packet_number _ _) as [t l].
  eapply gives_bind; [apply put_header_length|]. cbv beta. intros h c2 Hh. eapply gives_bind; [apply fill_payload_grown|]. cbv beta. intros f c3 Hf.
  assert (o `prefix_of` fl_out f) as Ho by (etrans; [|exact Hf]; rewrite <- app_assoc; by eexists).
  destruct (_ =? _)%nat; [apply holds_ret; cbn; by apply prefix_take|].
  eapply gives_bind; [eapply seal_grown|]; [etrans; [exact Ho|apply pad_payload_grown]|rewrite !length_app; lia|intros Hs; specialize (Hh Hs); rewrite length_app; lia|].
  cbv beta. intros o' c4 Ho'. apply gives_step. intros _ c5. by apply holds_ret.
Qed.
Lemma transmit_loop_grown spaces : ∀ now o start congested pad c, gives (transmit_loop spaces now o start congested pad) c (λ r, o `prefix_of` r).
Proof.
  induction spaces as [|space spaces IH]; intros now o start congested pad c; cbn [transmit_loop]; [by apply holds_ret|]. destruct (_ <=? _)%nat; [by apply holds_ret|].
  apply gives_step. intros s c1. destruct (local_keys s space); [|apply IH]. cbv zeta. eapply gives_bind; [apply write_packet_grown|]. cbv beta. intros [wrote o'] c2 Ho'. cbn in Ho'.
  apply gives_step. intros s2 c3. apply gives_step. intros _ c4. destruct (_ && _); [by apply holds_ret|]. eapply holds_mono; [apply IH| |done]. cbv beta. intros r _ Hr. by etrans.
Qed.
Lemma poll_transmit_grown now o pad c : gives (poll_transmit now o pad) c (λ r, ∃ d, r = (length d, o ++ d)).
Proof.
  unfold poll_transmit. apply gives_step. intros s c1. destruct (match closed s with Some _ => _ | None => _ end); [apply holds_ret; exists []; by rewrite app_nil_r|].
  apply gives_step. intros _ c2. cbv zeta. apply gives_step. intros s3 c3. eapply gives_bind; [apply transmit_loop_grown|]. cbv beta. intros o' c4 [d ->].
  apply gives_step. intros s5 c5. apply gives_step. intros _ c6. apply holds_ret. exists d. rewrite length_app. f_equal. lia.
Qed.
End conn.

(** ** Batches *)

Section batches.
Context `{RT : Rustls} `{ST : UnstableSort (Z * bytes)} `{KN : uring.Kernel} `{RM : RecvMsg} `{EN : Entropy} {SocketAddr : Type}.
Import h3_recv uring uring_conn http3.
Variable gso : bool.
Abbreviation Connection := (connection.Connection (RT := RT)).
Abbreviation L := (Local (Conn (RT := RT)) Shared).
Abbreviation M := (eff L error).

(** The datagrams a connection hands out, one call after the other; a call that
    has nothing to send hands out none. *)
Inductive polled (at_ : Z) : Connection → list bytes → Connection → Prop :=
| polled_none q : polled at_ q [] q
| polled_idle q o pad q1 ds q2 :
    connection.poll_transmit at_ o pad q = (Ok (0%nat, o), q1) → polled at_ q1 ds q2 → polled at_ q ds q2
| polled_one q o pad d q1 ds q2 :
    connection.poll_transmit at_ o pad q = (Ok (length d, o ++ d), q1) → d ≠ [] → polled at_ q1 ds q2 → polled at_ q (d :: ds) q2.

(** What the kernel puts on the wire for an entry of the queue. *)
Definition on_wire (d : Datagram) : list bytes :=
  if (segment_size d =? 0)%nat then [buf d] else segments (segment_size d) (buf d).
(** An entry the kernel is to cut: few enough pieces, within a UDP payload, and a
    size that fits the field it is passed in. *)
Definition cuttable (d : Datagram) : Prop :=
  segment_size d = 0%nat ∨
  ((2 ≤ length (on_wire d) ≤ GSO_SEGMENTS)%nat ∧ (zlen (buf d) ≤ GSO_MAX_PAYLOAD)%Z ∧ u16 (Z.of_nat (segment_size d)) = Z.of_nat (segment_size d)).

Definition with_quic (q : Connection) (l : L) : L := l <| self := self l <| quic := Some q |> |>.
Lemma on_quic_poll at_ o pad l q n o' l1 : quic (self l) = Some q → on_quic (connection.poll_transmit at_ o pad) l = (Ok (n, o'), l1) →
  ∃ d q', connection.poll_transmit at_ o pad q = (Ok (length d, o ++ d), q') ∧ n = length d ∧ o' = o ++ d ∧ l1 = with_quic q' l.
Proof.
  intros Hq. unfold on_quic, me. rewrite !bind_run. cbn [get mret eff_ret]. rewrite Hq. pose proof (poll_transmit_grown at_ o pad q) as Hg. unfold holds in Hg.
  destruct (connection.poll_transmit at_ o pad q) as [[[n1 o1]|e] q1]; [|by rewrite bind_run]. destruct Hg as [d [= -> ->]]. rewrite bind_run. cbn. intros [= <- <- <-]. by exists d, q1.
Qed.

Lemma joinable_full size ds : Forall (λ d, length d = size) ds → (0 < size)%nat → joinable size ds.
Proof. intros Hd Hs. induction Hd as [|d ds Hd _ IH]; [done|]. cbn. destruct ds; [lia|done]. Qed.
Lemma concat_length_full size (ds : list bytes) : Forall (λ d, length d = size) ds → length (concat ds) = (length ds * size)%nat.
Proof. induction 1 as [|d ds Hd _ IH]; [done|]. cbn. rewrite length_app, IH. lia. Qed.
Lemma joinable_length size ds : joinable size ds → (length (concat ds) ≤ length ds * size)%nat.
Proof.
  induction ds as [|d ds IH]; [done|]. intros Hj. cbn [concat length]. rewrite length_app. destruct ds as [|d' ds]; [cbn in *; lia|]. destruct Hj as (? & ? & Hj). specialize (IH Hj). cbn [length] in *. lia.
Qed.

(** The rest of a batch, behind full datagrams. *)
Lemma batch_more fuel : ∀ at_ max ds0 size l q r l1,
  quic (self l) = Some q → Forall (λ d, length d = size) ds0 → (0 < size)%nat → ds0 ≠ [] →
  batch_loop fuel at_ max (concat ds0) size (length ds0) l = (Ok r, l1) →
  ∃ ds over q', r = (concat (ds0 ++ ds), size, length (ds0 ++ ds), over) ∧ joinable size (ds0 ++ ds) ∧ (ds = [] ∨ length (ds0 ++ ds) ≤ max)%nat ∧
    polled at_ q (ds ++ option_list over) q' ∧ l1 = with_quic q' l.
Proof.
  induction fuel as [|fuel IH]; intros at_ max ds0 size l q r l1 Hq Hd Hs Hne; cbn [batch_loop].
  all: destruct (Nat.leb_spec max (length ds0)) as [Hle|Hlt].
  1,3: intros [= <- <-]; exists [], None, q; rewrite app_nil_r; split; [done|]; split; [by apply joinable_full|]; split; [by left|]; split; [constructor|]; by destruct l as [? [] ?]; cbn in *; subst.
  { done. }
  rewrite (proj2 (Nat.ltb_lt 0 (length ds0))) by (destruct ds0; [done|cbn; lia]). cbv zeta. rewrite bind_run. destruct (on_quic _ l) as [[[n o]|e] l2] eqn:E; [|done].
  destruct (on_quic_poll _ _ _ _ _ _ _ _ Hq E) as (d & q2 & Hp & -> & -> & ->). destruct (Nat.eqb_spec (length d) 0) as [Hz|Hnz].
  { apply length_zero_iff_nil in Hz as ->. rewrite app_nil_r in *. intros [= <- <-]. exists [], None, q2. rewrite app_nil_r. split; [done|]. split; [by apply joinable_full|]. split; [by left|].
    split; [|done]. eapply polled_idle; [exact Hp|constructor]. }
  assert (d ≠ []) as Hdn by (by destruct d). rewrite (proj2 (Nat.eqb_neq _ _)) by (destruct ds0; [done|cbn; lia]).
  assert (concat ds0 ++ d = concat (ds0 ++ [d])) as Ec by (rewrite concat_app; cbn; by rewrite app_nil_r).
  assert (length (ds0 ++ [d]) = (length ds0 + 1)%nat) as El by (by rewrite length_app).
  destruct (Nat.ltb_spec (length d) size) as [Hsm|Hge].
  { intros [= <- <-]. exists [d], None, q2. rewrite Ec, El. split; [done|]. split; [apply joinable_snoc; [done|lia]|]. split; [right; lia|]. split; [|done]. eapply polled_one; [exact Hp|done|constructor]. }
  destruct (Nat.ltb_spec size (length d)) as [Hbig|Hle].
  { intros [= <- <-]. exists [], (Some d), q2. rewrite app_nil_r, take_app_length, drop_app_length. split; [done|]. split; [by apply joinable_full|]. split; [by left|]. split; [|done].
    eapply polled_one; [exact Hp|done|constructor]. }
  rewrite Ec, <- El. intros Hb. destruct (IH at_ max (ds0 ++ [d]) size (with_quic q2 l) q2 r l1) as (ds & over & q' & -> & Hj & Hm & Hpo & ->); [done| |done|by destruct ds0|exact Hb|].
  { apply Forall_app. split; [done|]. constructor; [lia|done]. }
  exists (d :: ds), over, q'. rewrite <- app_assoc in *. cbn [app] in *. split; [done|]. split; [done|]. split; [right; destruct Hm as [->|?]; [rewrite El; lia|done]|]. split; [|done].
  eapply polled_one; [exact Hp|done|done].
Qed.

(** What a batch becomes in the queue. *)
Definition queued (r : bytes * nat * nat * option bytes) : list Datagram :=
  let '(out, size, count, over) := r in
  (if bool_decide (out = []) then [] else [mkDatagram out (if (1 <? count)%nat then size else 0%nat)]) ++ ((λ b, mkDatagram b 0) <$> option_list over).

Lemma batch_all at_ max l q r l1 : quic (self l) = Some q → (0 < max ≤ GSO_SEGMENTS)%nat → batch_loop max at_ max [] 0 0 l = (Ok r, l1) →
  ∃ ds q', polled at_ q ds q' ∧ l1 = with_quic q' l ∧ concat (on_wire <$> queued r) = ds ∧ Forall cuttable (queued r).
Proof.
  intros Hq Hmax. destruct max as [|max]; [lia|]. cbn [batch_loop]. change (S max <=? 0)%nat with false. cbv iota zeta. change (0 <? 0)%nat with false. cbv iota.
  rewrite bind_run. destruct (on_quic _ l) as [[[n o]|e] l2] eqn:E; [|done]. destruct (on_quic_poll _ _ _ _ _ _ _ _ Hq E) as (d & q2 & Hp & -> & -> & ->). cbn [app] in *.
  destruct (Nat.eqb_spec (length d) 0) as [Hz|Hnz].
  { apply length_zero_iff_nil in Hz as ->. intros [= <- <-]. exists [], q2. split; [eapply polled_idle; [exact Hp|constructor]|]. by split. }
  assert (d ≠ []) as Hdn by (by destruct d). change (0 =? 0)%nat with true. cbv iota. destruct (Nat.ltb_spec (length d) NEARLY_FULL) as [Hsm|Hge].
  { intros [= <- <-]. exists [d], q2. split; [eapply polled_one; [exact Hp|done|constructor]|]. split; [done|]. unfold queued. rewrite bool_decide_eq_false_2 by done. cbn. split; [done|].
    constructor; [by left|done]. }
  set (most := Nat.min (S max) _). intros Hb. rewrite <- (app_nil_r d) in Hb at 1. change (d ++ []) with (concat [d]) in Hb. change 1%nat with (length [d]) in Hb.
  destruct (batch_more max at_ most [d] (length d) (with_quic q2 l) q2 r l1) as (ds & over & q' & -> & Hj & Hm & Hpo & ->); [done|by constructor|lia|done|exact Hb|].
  exists (d :: ds ++ option_list over), q'. split; [eapply polled_one; [exact Hp|done|done]|]. split; [done|].
  assert (concat ([d] ++ ds) ≠ []) as Hcn by (cbn; by destruct d). unfold queued. rewrite bool_decide_eq_false_2 by done.
  assert (concat (on_wire <$> ((λ b, mkDatagram b 0) <$> option_list over)) = option_list over) as Ho by by destruct over.
  assert (Forall cuttable ((λ b, mkDatagram b 0) <$> option_list over)) as Hoc by (destruct over; repeat constructor).
  rewrite fmap_app, concat_app, Ho. destruct ds as [|d1 ds].
  { cbn. rewrite app_nil_r. split; [done|]. constructor; [by left|done]. }
  rewrite (proj2 (Nat.ltb_lt 1 _)) by (cbn; lia). change ([d] ++ d1 :: ds) with (d :: d1 :: ds) in *. set (all := d :: d1 :: ds) in *.
  assert (on_wire (mkDatagram (concat all) (length d)) = all) as Hw.
  { unfold on_wire. cbn [segment_size buf]. rewrite (proj2 (Nat.eqb_neq _ _)) by lia. by apply segments_concat. }
  split; [cbn [fmap list_fmap concat]; by rewrite Hw, app_nil_r|]. constructor; [|done]. right. rewrite Hw. cbn [segment_size buf].
  destruct Hm as [?|Hm]; [done|]. pose proof (joinable_length _ _ Hj) as Hl. assert (2 ≤ length all)%nat by (cbn; lia).
  assert (length all ≤ S max)%nat by lia. assert (Z.of_nat (length all) ≤ GSO_MAX_PAYLOAD / Z.of_nat (length d))%Z as Hdiv by (unfold most in Hm; lia).
  pose proof (Z.mul_div_le GSO_MAX_PAYLOAD (Z.of_nat (length d)) ltac:(lia)) as Hle. unfold GSO_MAX_PAYLOAD in *.
  split; [lia|]. split; [unfold zlen; nia|]. apply u16_small. nia.
Qed.

(** C14: What goes on the wire is what QUIC built.  After [pump_transmits], the
    queue has got entries that the kernel, sending the single ones as they are
    and cutting the others at their segment size, turns into exactly the
    datagrams that the connection handed out, in order; an entry that is to be
    cut has no more pieces than the kernel accepts, fits a UDP payload and has a
    segment size that fits its field. *)
Theorem h3_batches i at_ (l l' : L) q :
  quic (self l) = Some q → pump_transmits gso i at_ l = (Ok tt, l') →
  ∃ ds q' news, polled at_ q ds q' ∧ quic (self l') = Some q' ∧ out_queue (self l') = out_queue (self l) ++ news ∧
    concat (on_wire <$> news) = ds ∧ Forall cuttable news.
Proof.
  intros Hq. unfold pump_transmits. rewrite bind_run. unfold me. rewrite bind_run. cbn [get mret eff_ret]. rewrite Hq, !bind_run. set (max := if connection.probing q then _ else _).
  assert (0 < max ≤ GSO_SEGMENTS)%nat as Hmax by (unfold max, GSO_SEGMENTS; destruct (connection.probing q), gso; lia).
  destruct (batch_loop max at_ max [] 0 0 l) as [[r|e] l1] eqn:Hb; [|done]. destruct (batch_all _ _ _ _ _ _ Hq Hmax Hb) as (ds & q' & Hp & -> & Hw & Hc).
  assert (∃ l2, queue_batch r (with_quic q' l) = (Ok tt, l2) ∧ quic (self l2) = Some q' ∧ out_queue (self l2) = out_queue (self l) ++ queued r) as (l2 & -> & Hq2 & Ho2).
  { destruct r as [[[o size] count] over]. unfold queue_batch, queued. rewrite bind_run. case_bool_decide; destruct over as [b|]; cbn; eexists; (split; [reflexivity|]); cbn; rewrite ?app_nil_r; split; try done.
    by rewrite <- app_assoc. }
  intros E. exists ds, q', (queued r). split; [done|].
  assert (∀ m (l3 : L) x l4, on_ring (S := L) m l3 = (Ok (A := unit) x, l4) → self l4 = self l3) as Hring by (intros m l3 x l4; unfold on_ring; destruct (m _); by intros [= _ <-]).
  assert (quic (self l') = quic (self l2) ∧ out_queue (self l') = out_queue (self l2)) as [-> ->]; [|by split_and!].
  rewrite bind_run in E. unfold me in E. rewrite bind_run in E. cbn [get mret eff_ret] in E. destruct (sending (self l2)); [by injection E as <-|]. unfold push_front_send, me in E.
  rewrite !bind_run in E. cbn [get mret eff_ret] in E. destruct (out_queue (self l2)) eqn:Eq; [by injection E as <-|]. rewrite bind_run in E. cbn [update modify] in E. unfold update in E. cbn [modify] in E.
  destruct (0 <? segment_size _)%nat; apply Hring in E; rewrite E; by cbn.
Qed.
End batches.

(** ** A request of four thousand bytes *)

Section example.
Import sample uring uring_conn http3.
#[local] Instance still_kernel : Kernel := {|
  capacity := 8; k_submit w := (IoOk (length (sq w)), length (sq w)); k_wait w _ _ _ := (IoOk 0, 0%nat); k_completions _ := []; k_cancel _ _ := IoOk 0;
  k_register _ _ _ := IoOk 0; k_socket _ := Ok 3%Z; k_now _ := 0%Z; k_shutdown _ := false; k_buffer _ _ := [];
|}.
Definition roomy_params : transport.Params := transport.mkParams 30000 1200 100000 50000 50000 50000 10 3 3 25 2 None None None None.
Definition loaded : connection.Connection (RT := toy_rustls) :=
  Eval vm_compute in connection.on_st (λ s, (conn_streams.send_oneshot s (replicate 4000 7%Z)).2) (connection.on_st (conn_streams.adopt_params roomy_params) established).
Definition before : Local (Conn (RT := toy_rustls)) Shared :=
  mkLocal (mkWorld [] []) (new_conn <| fd := 3%Z |> <| quic := Some loaded |> <| recv_armed := true |>) (mkShared stats.default (buf_ring.mkBufRing [] 0 0 0 0) 1 false []).
Definition after : Local (Conn (RT := toy_rustls)) Shared := Eval vm_compute in (pump_transmits true 0 1000 before).2.
Lemma pumped : pump_transmits true 0 1000 before = (Ok tt, after).
Proof. vm_cast_no_check (eq_refl (A := res unit * Local (Conn (RT := toy_rustls)) Shared) (Ok tt, after)). Qed.
Lemma h3_batches_witness :
  ((λ d, (segment_size d, length <$> on_wire d)) <$> out_queue (self after)) = [(1188, [1188; 1188; 1188; 1188])] ∧
  ∃ ds q' news, polled 1000 loaded ds q' ∧ quic (self after) = Some q' ∧ out_queue (self after) = out_queue (self before) ++ news ∧
    concat (on_wire <$> news) = ds ∧ Forall cuttable news.
Proof. split; [vm_compute; reflexivity|]. exact (h3_batches true 0 1000 before after loaded eq_refl pumped). Defined.
End example.
End http3_batches.
