(* ===== verification/Http3WorkerInv.v ===== *)
(** * What an HTTP/3 worker keeps true of one connection

    The requests in flight are the streams of the ring ([table]); the QUIC
    connection is one that its own rules allow ([in_use], which composes the
    worker with [QuicConnRun.v]); and the accounts balance ([balanced]).  A method
    keeps all of that whether it succeeds or fails with an error value: [drive]
    catches such an error and goes on with the connection. *)

From S2P Require Import Prelude Effects Varint QuicPacket QuicRecovery QuicRecvStream QuicSendStream QuicStreams QuicStreamsInv QuicStreamsRun QuicConn QuicConnTimers QuicConnRun QuicConnHistory QuicConnApp Status Stats Inflight Target Requests H3Proto Uring UringRun UringConn Http3Recv Http3Worker.
From stdpp Require Import relations.
#[local] Open Scope Z_scope.

(** What arrives is bytes. *)
Class BufferOctets `{uring.Kernel} : Prop := buffer_octets w bid : bytes_ok (uring.k_buffer w bid).

Module http3_inv.
Import uring uring_run uring_conn http3 connection_app.

(** ** Methods that keep something, failing or not *)

Section triples.
Context {S : Type}.
Implicit Types (F : S → Prop).

(** The outcome of a method; when it fails, but not by a panic, [F]. *)
Definition sat {A} (m : eff S error A) (l : S) (Q : A → S → Prop) F : Prop :=
  holds m l Q (λ e l', match e with Panic _ => True | _ => F l' end).

Lemma sat_bind {A B} (m : eff S error A) (f : A → eff S error B) l P Q F :
  sat m l P F → (∀ a l', P a l' → sat (f a) l' Q F) → sat (m ≫= f) l Q F.
Proof. intros Hm Hf. apply holds_bind. eapply holds_mono; [exact Hm|exact Hf|done]. Qed.
Lemma sat_mono {A} (m : eff S error A) l (P Q : A → S → Prop) F (G : S → Prop) :
  sat m l P F → (∀ a l', P a l' → Q a l') → (∀ l', F l' → G l') → sat m l Q G.
Proof. intros Hm HQ HF. eapply holds_mono; [exact Hm|exact HQ|]. intros [] l'; auto. Qed.
Lemma sat_ret {A} (a : A) l (Q : A → S → Prop) F : Q a l → sat (mret a) l Q F.
Proof. done. Qed.
Lemma sat_lift {A} (r : res A) l (Q : A → S → Prop) F : (∀ a, r = Ok a → Q a l) → F l → sat (lift r) l Q F.
Proof. intros HQ HF. unfold sat, holds, lift. destruct r as [a|[]]; auto. Qed.
Lemma sat_panic {A} msg l (Q : A → S → Prop) F : sat (lift (panic msg)) l Q F.
Proof. done. Qed.
Lemma sat_run {A B} (m : eff S error A) (f : A → eff S error B) l a l1 Q F : m l = (Ok a, l1) → sat (f a) l1 Q F → sat (m ≫= f) l Q F.
Proof. intros Hm Hf. unfold sat, holds. by rewrite bind_run, Hm. Qed.
Lemma sat_last {A} (m : eff S error A) l a l1 (Q : A → S → Prop) F : m l = (Ok a, l1) → Q a l1 → sat m l Q F.
Proof. intros Hm HQ. unfold sat, holds. by rewrite Hm. Qed.
Lemma sat_for_each {A} (l : list A) (body : A → eff S error unit) (I : S → Prop) s :
  (∀ x s, x ∈ l → I s → sat (body x) s (λ _ s', I s') I) → I s → sat (for_each l body) s (λ _ s', I s') I.
Proof.
  intros Hb. revert s. induction l as [|x l IH]; intros s HI; cbn [for_each]; [by apply sat_ret|].
  eapply sat_bind; [apply Hb; [by left|done]|]. intros [] s' Hs'. apply IH; [|done]. intros; apply Hb; [by right|done].
Qed.
End triples.

(** ** The requests in flight *)

Abbreviation SH := inflight.H3_SHIFT.
Abbreviation OFF := inflight.H3_OFFSET.
Abbreviation entries r := (inflight.entries SH OFF r).
Lemma h3_SH_ok : 0 ≤ SH.
Proof. unfold SH. lia. Qed.
Lemma h3_OFF_ok : 0 ≤ OFF < 2 ^ SH.
Proof. unfold SH, OFF. lia. Qed.
Lemma id_of_four n : inflight.id_of SH OFF n = 4 * n.
Proof. unfold inflight.id_of, SH, OFF. lia. Qed.

(** [n] streams were opened; an entry knows the stream it stands for. *)
Record table (n : Z) (r : inflight.Ring InFlight) : Prop := {
  t_inv : inflight.inv SH OFF r;
  t_end : inflight.ends_at r n;
  t_ids id x : (id, x) ∈ entries r → stream_id x = id;
}.

Lemma h3_table_len n r : table n r → inflight.len r = length (entries r).
Proof. intros [(_ & _ & Ho & _) _ _]. exact Ho. Qed.
Lemma table_none n r : table n r → inflight.len r = 0%nat → inflight.slots r = [].
Proof.
  intros Ht Hl. rewrite (h3_table_len n r Ht) in Hl. destruct (t_inv n r Ht) as (_ & Hh & _ & Hf). unfold inflight.entries in Hl.
  destruct (inflight.slots r) as [|o s] eqn:E; [done|]. destruct Hf as [x Hx]. rewrite <- E in *. exfalso.
  assert (drop (inflight.head r) (inflight.slots r) = Some x :: drop (S (inflight.head r)) (inflight.slots r)) as Hd by by apply drop_S.
  rewrite Hd in Hl. done.
Qed.
Lemma table_empty n m r : table n r → inflight.len r = 0%nat → table m r.
Proof. intros Ht Hl. pose proof (table_none n r Ht Hl). destruct Ht. split; [done|by left|done]. Qed.
Lemma table_clear n r : table n (inflight.clear r).
Proof. split; [split_and!; cbn; try done; lia|by left|]. cbn. intros id x []%not_elem_of_nil. Qed.

(** Entries changed in place keep their stream, and get nothing more to send. *)
Definition eased (x x' : InFlight) : Prop := stream_id x' = stream_id x ∧ (unsent x' ≠ [] → unsent x ≠ []).
Lemma table_related n r r' : inflight.related eased r r' → table n r →
  table n r' ∧ inflight.len r' = inflight.len r ∧
  ∀ id x', (id, x') ∈ entries r' → ∃ x, (id, x) ∈ entries r ∧ eased x x'.
Proof.
  intros Hr Ht. pose proof Ht as [Hi He Hid]. destruct (inflight.related_spec SH OFF _ _ _ _ Hr Hi He) as (Hi' & He' & Hents).
  assert (∀ id x', (id, x') ∈ entries r' → ∃ x, (id, x) ∈ entries r ∧ eased x x') as Hx.
  { intros id x' (j & Hj)%list_elem_of_lookup. destruct (Forall2_lookup_r _ _ _ _ _ Hents Hj) as ([id0 x] & Hj' & Heq & Hxx). cbn in Heq, Hxx. subst id0.
    exists x. split; [by eapply list_elem_of_lookup_2|done]. }
  split; [|split; [|exact Hx]].
  - split; [done|done|]. intros id x' Hin. destruct (Hx id x' Hin) as (x & Hin' & [-> _]). by apply Hid.
  - destruct Hi as (_ & _ & Ho & _). destruct Hi' as (_ & _ & Ho' & _). unfold inflight.len. rewrite Ho, Ho'. symmetry. by eapply Forall2_length.
Qed.
Lemma h3_table_modify n r id f : (∀ x, eased x (f x)) → table n r →
  table n (inflight.modify SH OFF r id f) ∧ inflight.len (inflight.modify SH OFF r id f) = inflight.len r ∧
  ∀ id' x', (id', x') ∈ entries (inflight.modify SH OFF r id f) → ∃ x, (id', x) ∈ entries r ∧ eased x x'.
Proof. intros Hf. apply table_related. apply inflight.modify_pointwise; [done|exact Hf]. Qed.
Lemma h3_table_push n r x : table n r → 0 ≤ n → stream_id x = 4 * n →
  table (n + 1) (inflight.push SH r (4 * n) x) ∧ inflight.len (inflight.push SH r (4 * n) x) = S (inflight.len r) ∧
  entries (inflight.push SH r (4 * n) x) = entries r ++ [(4 * n, x)].
Proof.
  intros [Hi He Hid] Hn Hx. rewrite <- id_of_four in *. destruct (inflight.push_entries SH OFF h3_SH_ok h3_OFF_ok r n x Hi He Hn) as [Hents Hi'].
  split_and!; [|done|done]. split; [done|by apply (inflight.push_ends SH OFF h3_SH_ok h3_OFF_ok)|].
  intros id y. rewrite Hents, elem_of_app, list_elem_of_singleton. intros [?|[= -> ->]]; auto.
Qed.
(** Taking a stream, there or not. *)
Lemma h3_table_take n r id : table n r →
  match inflight.take SH OFF r id with
  | (None, r') => r' = r ∧ id ∉ (entries r).*1
  | (Some x, r') => table n r' ∧ inflight.len r = S (inflight.len r') ∧ (id, x) ∈ entries r ∧
      ∃ pre post, entries r = pre ++ (id, x) :: post ∧ entries r' = pre ++ post
  end.
Proof.
  intros Ht. pose proof Ht as [Hi He Hid]. destruct (inflight.get SH OFF r id) as [x|] eqn:Hg.
  - destruct (inflight.take_hit SH OFF h3_SH_ok h3_OFF_ok r id x Hi Hg) as (Hf & Hi' & pre & post & E & E').
    pose proof (inflight.take_ends SH OFF h3_SH_ok h3_OFF_ok r id n Hi He) as Hend. destruct (inflight.take SH OFF r id) as [y r']. cbn in *. subst y.
    assert (table n r') as Ht'. { split; [done|done|]. intros id' x'. rewrite E'. intros Hin. apply Hid. rewrite E. apply elem_of_app. apply elem_of_app in Hin as [?|?]; [by left|right; by right]. }
    split; [done|]. split; [|split; [|by exists pre, post]].
    + rewrite (h3_table_len _ _ Ht), (h3_table_len _ _ Ht'), E, E', !length_app. cbn. lia.
    + rewrite E. apply elem_of_app. right. by left.
  - rewrite (inflight.take_miss SH OFF r id Hg). split; [done|]. rewrite inflight.get_abs in Hg; [|apply h3_SH_ok|apply h3_OFF_ok|done]. unfold inflight.abs in Hg.
    by apply fin_maps.not_elem_of_list_to_map_2 in Hg.
Qed.
Lemma table_iter n r : table n r → stream_id <$> inflight.iter r = (entries r).*1.
Proof.
  intros [_ _ Hid]. unfold inflight.iter, inflight.entries in *. generalize dependent (inflight.base r). generalize (drop (inflight.head r) (inflight.slots r)).
  induction l as [|[x|] l IH]; intros b Hid; cbn in *; [done| |by apply IH]. f_equal; [apply Hid; by left|]. apply IH. intros; apply Hid. by right.
Qed.
Lemma table_nodup (r : inflight.Ring InFlight) : NoDup (entries r).*1.
Proof. apply inflight.entries_NoDup, h3_SH_ok. Qed.

(** ** One connection *)

Section conn.
Context `{RL : RustlsLaws} `{SL : UnstableSortLaws (Z * bytes)}.
Abbreviation Connection := (connection.Connection (RT := RT)).
Variable local : conn_streams.LocalParamsInput.
Hypothesis Hlocal : connection_run.local_ok local.
Implicit Types (q : Connection) (c : Conn (RT := RT)).
Abbreviation st := connection.st.
Abbreviation next q := (conn_streams.next_bidi (st q)).

(** The calls made on it are permitted, and none of them has failed. *)
Definition reached q : Prop := ∃ polled, connection_run.reachable local (q, polled).

Lemma reached_act q a q' : reached q → (∀ polled, connection_run.permitted (q, polled) a) →
  (∀ polled, ∃ polled', connection_run.perform (q, polled) a = Some (q', polled')) → reached q'.
Proof. intros [polled Hr] Hp Hd. destruct (Hd polled) as [polled' E]. exists polled'. by eapply connection_run.reach_act. Qed.
Lemma reached_worker q o : reached q → (∀ polled, connection_run.permitted (q, polled) (connection_run.Worker o)) →
  reached (q <| connection.st := connection_run.worker_step (st q) o |>).
Proof. intros Hr Hp. eapply reached_act; [exact Hr|exact Hp|]. intros polled. by exists polled. Qed.
(** What the streams of a reached connection look like. *)
Lemma reached_streams q : reached q → next q = conn_streams.base_stream (st q) + zlen (conn_streams.streams (st q)) ∧ 0 ≤ next q < 2 ^ 62.
Proof.
  intros [polled Hr]. destruct (connection_run.conn_reachable_inv local _ Hlocal Hr) as ((g & (Hs & _) & E & _) & _). cbn in E. rewrite E in Hs.
  destruct Hs. split; [done|]. unfold zlen in *. lia.
Qed.

(** A connection and its worker; [sane] is whether no call has failed. *)
Record in_use (sane : bool) c q : Prop := {
  u_reached : sane = true → closing c = None → reached q;
  u_calm : calm q;
  u_tally : (tally q ≤ 1)%nat;
  u_ready : h3_ready c = true ∨ is_Some (h3_init c) → tally q = 0%nat;
  u_init init : h3_init c = Some init → Forall (λ id, id mod 4 = 2) (ids init);
  u_table : table (next q) (streams c);
  u_next : 0 ≤ next q;
  u_unsent id x : (id, x) ∈ entries (streams c) → unsent x ≠ [] → ring_fin (st q) (id / 4) ≠ Some true;
  u_unis : unis_open (st q);
}.
Lemma tally_connected q : tally q = 0%nat → connection.connected q = true.
Proof. unfold tally. destruct (connection.connected q); [done|lia]. Qed.

(** What the network does to a connection in use, and the application's calls
    that open and end nothing. *)
Lemma in_use_aside b b' c q q' : in_use b c q → aside q q' → (b' = true → b = true ∧ (reached q → reached q')) → in_use b' c q'.
Proof.
  intros [] [Hn Hu Hr Ht] Hre. destruct (Ht u_calm0) as [Hc' Ht']. split; rewrite ?Ht', ?Hn; try done.
  - intros Hb Hc. destruct (Hre Hb). auto.
  - intros id x Hin Hx Hf. eapply u_unsent0; [done|done|]. by apply Hr.
  - unfold unis_open. by rewrite Hu.
Qed.
Lemma in_use_leaves b c q s' : in_use b c q → leaves (st q) s' → (reached q → reached (q <| connection.st := s' |>)) → in_use b c (q <| connection.st := s' |>).
Proof.
  intros Hu [Hn Hf He Hr] Hre. eapply in_use_aside; [done| |done]. split; [done|done|exact Hr|]. intros Hc. split; [done|]. unfold tally. cbn. by rewrite He.
Qed.
(** The worker's side changes. *)
Lemma in_use_self b c c' q : in_use b c q → closing c' = closing c → (h3_ready c' = true ∨ is_Some (h3_init c') → tally q = 0%nat) →
  (∀ init, h3_init c' = Some init → Forall (λ id, id mod 4 = 2) (ids init)) → streams c' = streams c → in_use b c' q.
Proof. intros [] Hc Hr Hi Hs. split; rewrite ?Hc, ?Hs; done. Qed.
Lemma in_use_same b c c' q : in_use b c q → closing c' = closing c → h3_ready c' = h3_ready c → h3_init c' = h3_init c → streams c' = streams c → in_use b c' q.
Proof. intros Hu Hc Hr Hi Hs. eapply in_use_self; [exact Hu|done|rewrite Hr, Hi; apply Hu|rewrite Hi; apply Hu|done]. Qed.
(** The ring changes, but for the better. *)
Lemma in_use_ring b c q r : in_use b c q → table (next q) r →
  (∀ id x', (id, x') ∈ entries r → unsent x' ≠ [] → ∃ x, (id, x) ∈ entries (streams c) ∧ unsent x ≠ []) →
  in_use b (c <| streams := r |>) q.
Proof.
  intros [] Ht Hx. split; try done. cbn. intros id x' Hin Hne. destruct (Hx id x' Hin Hne) as (x & ? & ?). by eapply u_unsent0.
Qed.
Lemma in_use_closing b c q at_ : in_use b c q → in_use true (c <| closing := Some at_ |>) q.
Proof. intros []. by split. Qed.

Definition weight c : Z := Z.of_nat (inflight.len (streams c)) + unjudged (give_backs c).
Record conn_inv (sane : bool) c : Prop := {
  c_quic q : quic c = Some q → in_use sane c q;
  c_none : quic c = None → table 0 (streams c) ∧ h3_ready c = false ∧ h3_init c = None;
  c_unready : h3_ready c = false → weight c = 0;
  c_closing : closing c ≠ None → weight c = 0;
  c_unjudged : 0 ≤ unjudged (give_backs c);
}.
Lemma h3_weight_nonneg b c : conn_inv b c → 0 ≤ weight c.
Proof. intros []. unfold weight. lia. Qed.
(** The invariant is about these fields only. *)
Lemma conn_inv_same b c c' :
  conn_inv b c → quic c' = quic c → closing c' = closing c → h3_ready c' = h3_ready c → h3_init c' = h3_init c → streams c' = streams c →
  give_backs c' = give_backs c → conn_inv b c'.
Proof.
  intros [Hq Hn Hu Hc Hj] E1 E2 E3 E4 E5 E6. unfold weight in *. split; unfold weight; rewrite ?E1, ?E2, ?E3, ?E4, ?E5, ?E6; try done.
  intros q Eq. eapply in_use_same; [by apply Hq|done..].
Qed.
Lemma conn_inv_quic b b' c q q' : conn_inv b c → quic c = Some q → in_use b' c q' → conn_inv b' (c <| quic := Some q' |>).
Proof. intros [] Eq Hu. split; try done. intros q0 [= <-]. by eapply in_use_same. Qed.
Lemma conn_inv_weak b c : conn_inv b c → conn_inv false c.
Proof. intros [Hq]. split; try done. intros q Eq. by destruct (Hq q Eq); split. Qed.
End conn.

(** ** Accounts *)

Section accounts.
Variable budget : budget.Budget.
Hypothesis budget_fits : match budget with budget.Requests n => n < 2 ^ 64 | budget.Duration _ => True end.

(** What the books say the requests started are: exactly that many and no more
    than the budget; without a budget, counters wrap. *)
Definition balanced (x started : Z) : Prop :=
  match budget with
  | budget.Requests n => x = started ∧ started ≤ n
  | budget.Duration _ => (x - started) mod 2 ^ 64 = 0
  end.
(** One of the counters wraps; a request starts, or does not count as started. *)
Lemma balanced_wrap a x y s : balanced x s → y = x - a + u64 a → 0 ≤ a ≤ x → balanced y s.
Proof.
  unfold balanced. intros Hx -> Ha. destruct budget as [n|d].
  - destruct Hx. rewrite u64_small by lia. lia.
  - unfold u64. rewrite <- Hx. replace (x - a + a mod 2 ^ 64 - s) with (a mod 2 ^ 64 + (x - a - s)) by lia.
    rewrite Zplus_mod_idemp_l. f_equal. lia.
Qed.
Lemma balanced_start x y s : balanced x s → y = x + 1 → 0 ≤ s → budget.may_start budget s = true → balanced y (u64 (s + 1)).
Proof.
  unfold balanced. intros Hx -> Hs. destruct budget as [n|d]; cbn.
  - intros Hlt%Z.ltb_lt. rewrite u64_small; lia.
  - intros _. unfold u64. rewrite Zminus_mod_idemp_r. rewrite <- Hx. f_equal. lia.
Qed.
Lemma balanced_unstart x y s : balanced x s → x = y + 1 → 0 ≤ y → balanced y (u64 (s - 1)).
Proof.
  unfold balanced. intros Hx -> Hy. destruct budget as [n|d]; cbn.
  - rewrite u64_small; lia.
  - unfold u64. rewrite Zminus_mod_idemp_r. rewrite <- Hx. f_equal. lia.
Qed.
Lemma balanced_eq x y s : balanced x s → y = x → balanced y s.
Proof. by intros ? ->. Qed.
End accounts.
End http3_inv.
