(* ===== verification/Http3WorkerRun.v ===== *)
(** * The methods of one connection of an HTTP/3 worker

    Opening streams, reading responses, judging refused requests and reporting
    events keep the invariant of [Http3WorkerInv.v] and the accounts ([books]). *)

From S2P Require Import Prelude Effects Varint QuicPacket QuicRecovery QuicRecvStream QuicSendStream QuicStreams QuicStreamsInv QuicStreamsRun QuicConn QuicConnTimers QuicConnRun QuicConnHistory QuicConnApp Status Stats Inflight Target Requests H3Proto Uring UringRun UringConn Http3Recv Http3Worker Http3WorkerInv.
From stdpp Require Import relations.
#[local] Open Scope Z_scope.

Module http3_run.
Import uring uring_run uring_conn http3 http3_inv connection_app.

Section methods.
Context `{RL : RustlsLaws} `{SL : UnstableSortLaws (Z * bytes)} `{KN : Kernel} `{RM : RecvMsg} `{EN : Entropy} `{!BufferOctets} {SocketAddr : Type}.
Variables (target : target.Target SocketAddr) (budget : budget.Budget) (connect_timeout : Z) (timeout : option Z) (parallel : nat) (gso : bool).
Hypothesis budget_fits : match budget with budget.Requests n => n < 2 ^ 64 | budget.Duration _ => True end.
Abbreviation L := (Local (Conn (RT := RT)) Shared).
Abbreviation M := (eff L error).
Abbreviation local := (local_params connect_timeout timeout).
Abbreviation reached := (reached local).
Abbreviation in_use := (in_use local).
Abbreviation conn_inv := (conn_inv local).
Abbreviation st := connection.st.
Abbreviation balanced := (balanced budget).
Lemma Hlocal : connection_run.local_ok local.
Proof. by split. Qed.

Lemma h3_me_bind {B} (f : Conn → M B) l : (me ≫= f) l = f (self l) l.
Proof. done. Qed.
Lemma update_bind {B} g (f : unit → M B) l : (update g ≫= f) l = f tt (l <| self := g (self l) |>).
Proof. done. Qed.

Definition finished_so_far (x : Shared) : Z := stats.completed (stats x) + stats.errors (stats x).

(** The accounts, with [others] requests owed elsewhere. *)
Record books (others : Z) (l : L) : Prop := {
  b_completed : 0 ≤ stats.completed (stats (shared l));
  b_errors : 0 ≤ stats.errors (stats (shared l));
  b_others : 0 ≤ others;
  b_started : 0 ≤ started (shared l);
  b_balance : balanced (finished_so_far (shared l) + weight (self l) + others) (started (shared l));
}.
Lemma h3_books_same o l l' :
  books o l → stats.completed (stats (shared l')) = stats.completed (stats (shared l)) → stats.errors (stats (shared l')) = stats.errors (stats (shared l)) →
  started (shared l') = started (shared l) → weight (self l') = weight (self l) → books o l'.
Proof. intros [] E1 E2 E3 E4. unfold finished_so_far in *. split; unfold finished_so_far; rewrite ?E1, ?E2, ?E3, ?E4; done. Qed.
(** A request moves from the connection to elsewhere, or back. *)
Lemma books_move o o' l l' :
  books o l → 0 ≤ o' → stats.completed (stats (shared l')) = stats.completed (stats (shared l)) → stats.errors (stats (shared l')) = stats.errors (stats (shared l)) →
  started (shared l') = started (shared l) → weight (self l') + o' = weight (self l) + o → books o' l'.
Proof.
  intros [] Ho E1 E2 E3 E4. unfold finished_so_far in *. split; unfold finished_so_far; rewrite ?E1, ?E2, ?E3; try done.
  eapply balanced_eq; [exact b_balance0|lia].
Qed.
Lemma books_errors o n l x : 0 ≤ n → 0 ≤ o → 0 ≤ weight (self l) → books (o + n) l → x = shared l <| stats := count_errors n (stats (shared l)) |> → books o (l <| shared := x |>).
Proof.
  intros Hn Ho Hw [] ->. unfold finished_so_far in *. split; unfold finished_so_far; cbn; try done; [apply u64_range|].
  eapply (balanced_wrap budget budget_fits (stats.errors (stats (shared l)) + n)); [exact b_balance0|lia|lia].
Qed.

(** Where [drive] works: an open connection. *)
Record live (o : Z) (l : L) : Prop := {
  l_inv : conn_inv true (self l);
  l_books : books o l;
  l_open : closing (self l) = None;
  l_quic : is_Some (quic (self l));
}.
Lemma live_use o l q : live o l → quic (self l) = Some q → in_use true (self l) q.
Proof. intros [Hc _ _ _]. apply Hc. Qed.
Lemma live_reached o l q : live o l → quic (self l) = Some q → reached q.
Proof. intros Hl Hq. by apply (u_reached _ _ _ _ (live_use o l q Hl Hq)); [|apply Hl]. Qed.
Lemma live_weight o l : live o l → 0 ≤ weight (self l).
Proof. intros [Hc _ _ _]. by apply (h3_weight_nonneg local true). Qed.
(** A ready connection is connected. *)
Lemma live_connected o l q : live o l → quic (self l) = Some q → h3_ready (self l) = true ∨ is_Some (h3_init (self l)) → connection.connected q = true.
Proof. intros Hl Hq Hr. by apply tally_connected, (u_ready _ _ _ _ (live_use o l q Hl Hq)). Qed.

Definition set_quic q (l : L) : L := l <| self := self l <| quic := Some q |> |>.
Lemma live_set_quic o l q q' : live o l → quic (self l) = Some q → in_use true (self l) q' → live o (set_quic q' l).
Proof.
  intros [Hc Hb Ho _] Hq Hu. split; [by eapply conn_inv_quic|by apply (h3_books_same o l)|done|by eexists].
Qed.
(** Fields that do not matter here. *)
Lemma live_same o l c' :
  live o l → quic c' = quic (self l) → closing c' = closing (self l) → h3_ready c' = h3_ready (self l) → h3_init c' = h3_init (self l) →
  streams c' = streams (self l) → give_backs c' = give_backs (self l) → live o (l <| self := c' |>).
Proof.
  intros [Hc Hb Ho Hq] E1 E2 E3 E4 E5 E6. split; cbn; rewrite ?E1, ?E2; try done; [by eapply conn_inv_same|].
  apply (h3_books_same o l); try done. unfold weight. cbn. by rewrite E5, E6.
Qed.

Lemma on_streams_run {A} (f : conn_streams.Streams → A * conn_streams.Streams) l q :
  quic (self l) = Some q → on_streams f l = (Ok (f (st q)).1, set_quic (q <| connection.st := (f (st q)).2 |>) l).
Proof. intros Hq. unfold on_streams, on_quic. rewrite h3_me_bind, Hq. by destruct (f (st q)) as [a s]. Qed.

(** *** The end of a request *)

Lemma retire_stream_run o l id : live o l → h3_ready (self l) = true →
  ∃ q, retire_stream id l = (Ok tt, set_quic q l) ∧ live o (set_quic q l).
Proof.
  intros Hl Hr. pose proof (l_quic o l Hl) as [q Hq]. unfold retire_stream. rewrite (on_streams_run _ l q Hq). eexists. split; [done|].
  eapply live_set_quic; [done|done|]. apply in_use_leaves; [by eapply live_use|apply leaves_retire|].
  intros Hre. apply (reached_worker _ q (connection_run.WRetire id _)); [done|]. intros polled. split; [|done]. by apply (live_connected o l q Hl Hq); left.
Qed.

Lemma h3_take_stream_run o l id : live o l →
  match take_stream id l with
  | (Ok None, l') => l' = l
  | (Ok (Some x), l') => live (o + 1) l' ∧ h3_ready (self l') = true ∧ shared l' = shared l ∧
      ∃ r, self l' = self l <| streams := r |> ∧ ∃ pre post, entries (streams (self l)) = pre ++ (id, x) :: post ∧ entries r = pre ++ post
  | (Err _, _) => False
  end.
Proof.
  intros Hl. pose proof (l_quic o l Hl) as [q Hq]. pose proof (live_use o l q Hl Hq) as Hu. unfold take_stream. rewrite h3_me_bind. pose proof (h3_table_take _ _ id (u_table _ _ _ _ Hu)) as Ht.
  destruct (inflight.take SH OFF (streams (self l)) id) as [[x|] r]; cbn.
  2: { destruct Ht as [-> _]. destruct l as [? c ?]. cbn. by destruct c. }
  destruct Ht as (Ht & Hlen & Hin & Hpp). destruct Hl as [Hc Hb Ho _].
  assert (h3_ready (self l) = true) as Hr.
  { destruct (h3_ready (self l)) eqn:E; [done|]. pose proof (c_unready _ _ _ Hc E) as Hw. pose proof (c_unjudged _ _ _ Hc). unfold weight in Hw. lia. }
  split; [|split; [done|split; [done|by exists r]]]. split; [|..]; cbn; [|..|done|done].
  - destruct Hc. split; cbn; try done; [|congruence|congruence].
    intros q0 Hq0. assert (q0 = q) as -> by congruence. apply in_use_ring; [done|done|]. destruct Hpp as (pre & post & E & E').
    intros id' x'. rewrite E'. intros Hin' Hne. exists x'. split; [|done]. rewrite E. apply elem_of_app. apply elem_of_app in Hin' as [?|?]; [by left|right; by right].
  - eapply books_move; [exact Hb|destruct Hb; lia|done..|]. unfold weight. cbn. lia.
Qed.

(** What ends a request keeps of the connection. *)
Record wound_up (l l' : L) : Prop := {
  w_ready : h3_ready (self l') = h3_ready (self l);
  w_streams : streams (self l') = streams (self l);
}.
#[global] Instance wound_up_preorder : PreOrder wound_up.
Proof. split; [by intros l; split|]. intros a b c [] []. split; congruence. Qed.

Lemma live_give_backs o o' l g x : live o l → h3_ready (self l) = true → 0 ≤ unjudged g →
  books o' (l <| self := self l <| give_backs := g |> |> <| shared := x |>) → live o' (l <| self := self l <| give_backs := g |> |> <| shared := x |>).
Proof.
  intros [Hc Hb Ho Hq] Hr Hg Hb'. split; cbn; try done. destruct Hc. split; cbn; [|done|congruence|congruence|done].
  intros q Eq. eapply in_use_same; [by apply c_quic0|done..].
Qed.

Lemma give_back_run o l : 0 ≤ o → live (o + 1) l → h3_ready (self l) = true →
  ∃ l', give_back parallel l = (Ok tt, l') ∧ live o l' ∧ wound_up l l' ∧ quic (self l') = quic (self l).
Proof.
  intros Ho Hl Hr. unfold give_back. rewrite h3_me_bind. cbv zeta.
  pose proof (live_weight _ _ Hl) as Hw. pose proof (l_books _ _ Hl) as Hb. pose proof (c_unjudged _ _ _ (l_inv _ _ Hl)) as Hj.
  set (g := give_backs (self l)) in *. destruct (completed g =? 0); [|destruct (_ <? _)].
  - eexists. split; [reflexivity|]. split; [|by split]. set (l' := l <| self := _ |>).
    assert (l' = l <| self := self l <| give_backs := g <| unjudged := u64 (unjudged g + 1) |> |> |> <| shared := shared l |>) as -> by (by destruct l).
    eapply live_give_backs; [exact Hl|done|apply u64_range|]. destruct Hb. unfold finished_so_far, weight in *. fold g in b_balance0. split; cbn; try done.
    eapply (balanced_wrap budget budget_fits (unjudged g + 1)); [exact b_balance0|unfold finished_so_far, weight; cbn; lia|lia].
  - eexists. split; [reflexivity|]. split; [|by split]. cbn. eapply (live_give_backs (o + 1)); [exact Hl|done|done|]. destruct Hb. unfold finished_so_far, weight in *. fold g in b_balance0, Hw.
    split; unfold finished_so_far, weight; cbn; try done; [apply u64_range|]. eapply (balanced_unstart budget budget_fits); [exact b_balance0|lia|lia].
  - eexists. split; [reflexivity|]. split; [|by split]. destruct Hl as [Hc _ Hcl Hq]. split; [exact Hc| |done|done].
    by eapply books_errors; [..|exact Hb|].
Qed.
Lemma give_back_times_run n o l : 0 ≤ o → live (o + Z.of_nat n) l → h3_ready (self l) = true →
  ∃ l', give_back_times parallel n l = (Ok tt, l') ∧ live o l' ∧ wound_up l l'.
Proof.
  revert l. induction n as [|n IH]; intros l Ho Hl Hr; cbn [give_back_times].
  { exists l. rewrite Z.add_0_r in Hl. done. }
  rewrite bind_run. destruct (give_back_run (o + Z.of_nat n) l ltac:(lia)) as (l1 & -> & Hl1 & Hw1 & _); [by replace (o + Z.of_nat n + 1) with (o + Z.of_nat (S n)) by lia|done|].
  destruct (IH l1 Ho Hl1) as (l2 & -> & ? & ?); [by rewrite (w_ready _ _ Hw1)|]. exists l2. split; [done|]. split; [done|by etrans].
Qed.
Lemma judge_run drained o l : live o l → ∃ l', judge parallel drained l = (Ok tt, l') ∧ live o l' ∧ wound_up l l'.
Proof.
  intros Hl. pose proof (b_others _ _ (l_books _ _ Hl)) as Ho. pose proof (c_unjudged _ _ _ (l_inv _ _ Hl)) as Hj. pose proof (live_weight _ _ Hl) as Hw.
  unfold judge. rewrite h3_me_bind. cbv zeta.
  destruct (Z.eqb_spec (unjudged (give_backs (self l))) 0) as [E|Hne]; [by exists l|].
  assert (h3_ready (self l) = true) as Hr.
  { destruct (h3_ready (self l)) eqn:E; [done|]. pose proof (c_unready _ _ _ (l_inv _ _ Hl) E) as Hz. unfold weight in Hz. lia. }
  set (l1 := l <| self := self l <| give_backs := give_backs (self l) <| unjudged := 0 |> |> |>).
  assert (live (o + unjudged (give_backs (self l))) l1) as Hl1.
  { assert (l1 = l1 <| shared := shared l |>) as E by (by destruct l). rewrite E. eapply live_give_backs; [exact Hl|done|done|].
    eapply books_move; [apply Hl|lia|done..|]. unfold weight. cbn. lia. }
  destruct (0 <? _); [|destruct drained; [|by exists l]]; rewrite bind_run; change (update _ l) with (Ok (E := error) tt, l1); cbv iota beta.
  - destruct (give_back_times_run (Z.to_nat (unjudged (give_backs (self l)))) o l1 Ho) as (l2 & -> & ? & Hwu); [by rewrite Z2Nat.id|done|].
    exists l2. split; [done|]. split; [done|]. by destruct Hwu; split.
  - eexists. split; [reflexivity|]. split; [|by split]. destruct Hl1 as [Hc Hb Hcl Hq]. split; [exact Hc| |done|done].
    eapply books_errors; [exact Hj|done| |exact Hb|done]. by apply (h3_weight_nonneg local true).
Qed.

Lemma h3_record_success_run s0 since (l : L) :
  match record_success s0 since l with
  | (Ok _, l') => ∃ s, l' = l <| shared := shared l <| stats := s |> |> ∧ stats.errors s = stats.errors (stats (shared l)) ∧
      stats.completed s = u64 (stats.completed (stats (shared l)) + 1)
  | (Err (Panic _), _) => True
  | (Err _, _) => False
  end.
Proof.
  unfold record_success. rewrite bind_run. cbn [get]. rewrite bind_run. unfold stats.record_success.
  destruct (_ !! _) as [n|]; [|done]. cbn. eexists. done.
Qed.

Lemma finish_stream_keeps o f l : live o l → sat (finish_stream parallel f) l (λ _ l', live o l') (live o).
Proof.
  intros Hl. pose proof (b_others _ _ (l_books _ _ Hl)) as Ho. destruct f as [id reset]. unfold finish_stream. pose proof (h3_take_stream_run o l id Hl) as Ht.
  unfold sat, holds. rewrite bind_run. destruct (take_stream id l) as [[[x|]|e] l1]; [|by subst|done]. destruct Ht as (Hl1 & Hr1 & _).
  change (sat (c ← me; _ ← (let unprocessed := (h3_proto.status (reader x) =? 0) && match goaway c with Some g => g <=? id | None => false end in
      let was_reset := match reset with Some _ => true | None => false end in
      if bool_decide (reset = Some H3_REQUEST_REJECTED) || (was_reset && unprocessed) then give_back parallel
      else if was_reset || (h3_proto.status (reader x) =? 0) then update_stats (count_errors 1)
      else _ ← record_success (h3_proto.status (reader x)) (start x);
           update (λ c, c <| give_backs := give_backs c <| completed := u64 (completed (give_backs c) + 1) |> |>)); retire_stream id)
    l1 (λ _ l', live o l') (live o)).
  apply (sat_run _ _ _ (self l1) l1); [done|]. cbv zeta.
  eapply (sat_bind _ _ _ (λ _ l', live o l' ∧ h3_ready (self l') = true)).
  2: { intros _ l2 [Hl2 Hr2]. destruct (retire_stream_run o l2 id Hl2 Hr2) as (q & E & ?). by eapply sat_last; [exact E|]. }
  destruct (_ || _); [|destruct (_ || _)].
  - destruct (give_back_run o l1 Ho Hl1 Hr1) as (l2 & E & ? & Hw & _). eapply sat_last; [exact E|]. split; [done|]. by rewrite (w_ready _ _ Hw).
  - eapply sat_last; [reflexivity|]. split; [|done]. pose proof (live_weight _ _ Hl1). destruct Hl1 as [Hc Hb Hcl Hq]. split; [exact Hc| |done|done].
    by eapply books_errors; [..|exact Hb|].
  - pose proof (h3_record_success_run (h3_proto.status (reader x)) (start x) l1) as Hs. unfold sat, holds. rewrite bind_run.
    destruct (record_success _ _ l1) as [[[]|[]] l2]; [|done..]. destruct Hs as (s & -> & He & Hcp). cbn. split; [|done].
    eapply (live_give_backs (o + 1) o l1); [exact Hl1|done|apply Hl1|]. pose proof (live_weight _ _ Hl1) as Hw. pose proof (l_books _ _ Hl1) as [].
    unfold finished_so_far in *. split; unfold finished_so_far; cbn; rewrite ?He, ?Hcp; try done; [apply u64_range|].
    eapply (balanced_wrap budget budget_fits (stats.completed (stats (shared l1)) + 1)); [exact b_balance0|unfold weight; cbn; lia|lia].
Qed.

(** A stream at or above a GOAWAY, which is in flight. *)
Lemma give_up_stream_run o id l : live o l → id ∈ (entries (streams (self l))).*1 →
  ∃ l', give_up_stream parallel id l = (Ok tt, l') ∧ live o l' ∧
    ∃ x pre post, entries (streams (self l)) = pre ++ (id, x) :: post ∧ entries (streams (self l')) = pre ++ post.
Proof.
  intros Hl Hin. pose proof (b_others _ _ (l_books _ _ Hl)) as Ho. unfold give_up_stream. rewrite bind_run.
  pose proof (l_quic o l Hl) as [q Hq]. pose proof (h3_table_take _ _ id (u_table _ _ _ _ (live_use o l q Hl Hq))) as Htt. pose proof (h3_take_stream_run o l id Hl) as Ht.
  destruct (take_stream id l) as [[[x|]|e] l1] eqn:E; [|exfalso|done].
  2: { unfold take_stream in E. rewrite h3_me_bind in E. destruct (inflight.take SH OFF (streams (self l)) id) as [[x|] r]; [done|]. by destruct Htt as [_ ?]. }
  destruct Ht as (Hl1 & Hr1 & _ & r & Hself & pre & post & Epp & Epp'). rewrite bind_run. destruct (retire_stream_run _ l1 id Hl1 Hr1) as (q' & -> & Hl2).
  destruct (give_back_run o (set_quic q' l1) Ho Hl2 Hr1) as (l3 & -> & Hl3 & Hw3 & _). exists l3. split; [done|]. split; [done|].
  exists x, pre, post. split; [done|]. rewrite (w_streams _ _ Hw3). cbn. by rewrite Hself.
Qed.
Lemma give_up_streams_run o ids l : live o l → NoDup ids → (∀ id, id ∈ ids → id ∈ (entries (streams (self l))).*1) →
  ∃ l', for_each ids (give_up_stream parallel) l = (Ok tt, l') ∧ live o l'.
Proof.
  revert l. induction ids as [|id ids IH]; intros l Hl Hnd Hin; cbn [for_each]; [by exists l|]. apply NoDup_cons in Hnd as [Hni Hnd].
  destruct (give_up_stream_run o id l Hl) as (l1 & E & Hl1 & x & pre & post & E1 & E2); [apply Hin; by left|]. rewrite bind_run, E.
  apply IH; [done|done|]. intros id' Hid'. specialize (Hin id' ltac:(by right)). rewrite E1 in Hin. rewrite E2. rewrite fmap_app in Hin |- *. cbn in Hin.
  apply elem_of_app. apply elem_of_app in Hin as [?|[-> |?]%elem_of_cons]; [by left|done|by right].
Qed.

Lemma on_quic_run {A} (m : eff (connection.Connection (RT := RT)) conn_streams.conn_error A) l q a q' :
  quic (self l) = Some q → m q = (Ok a, q') → on_quic m l = (Ok a, set_quic q' l).
Proof. intros Hq Hm. unfold on_quic. by rewrite h3_me_bind, Hq, Hm. Qed.

Lemma close_in_use b c q code reason : in_use b c q → in_use b c (connection.close code reason q).
Proof.
  intros Hu. eapply in_use_aside; [exact Hu|apply aside_close|]. intros Hb. split; [done|]. intros Hr.
  eapply (reached_act _ q (connection_run.CloseCall code reason)); [done|done|]. intros polled. by exists polled.
Qed.
Lemma on_goaway_keeps still o l : live o l → sat (on_goaway parallel still) l (λ _ l', live o l') (live o).
Proof.
  intros Hl. unfold on_goaway. apply (sat_run _ _ _ (self l) l); [done|]. destruct (goaway (self l)) as [g|]; [|by apply sat_ret]. cbv zeta.
  pose proof (l_quic o l Hl) as [q Hq]. pose proof (u_table _ _ _ _ (live_use o l q Hl Hq)) as Htb.
  destruct (give_up_streams_run o (List.filter (λ id, g <=? id) (stream_id <$> inflight.iter (streams (self l)))) l Hl) as (l1 & E & Hl1).
  - rewrite (table_iter _ _ Htb). apply NoDup_ListNoDup, List.NoDup_filter, NoDup_ListNoDup, table_nodup.
  - intros id. rewrite list_elem_of_In, filter_In, <- list_elem_of_In. intros [Hin _]. by rewrite (table_iter _ _ Htb) in Hin.
  - eapply sat_run; [exact E|]. apply (sat_run _ _ _ (self l1) l1); [done|]. destruct (inflight.is_empty _); [|by apply sat_ret].
    pose proof (l_quic o l1 Hl1) as [q1 Hq1]. eapply sat_run; [by eapply on_quic_run|]. apply sat_ret. eapply live_set_quic; [done|done|].
    apply close_in_use. by eapply live_use.
Qed.

(** *** Streams that are opened and written *)

(** A connected connection, between two states that differ in nothing else. *)
Definition onward (o : Z) (l : L) : Prop := live o l ∧ ∃ q, quic (self l) = Some q ∧ tally q = 0%nat.
Definition beyond (o : Z) (l l' : L) : Prop := onward o l' ∧ ∃ q, l' = set_quic q l.
Lemma beyond_refl o l : onward o l → beyond o l l.
Proof. intros Ho. split; [done|]. destruct Ho as (_ & q & Hq & _). exists q. destruct l as [? c ?]. destruct c. cbn in *. by subst. Qed.
Lemma beyond_trans o l1 l2 l3 : beyond o l1 l2 → beyond o l2 l3 → beyond o l1 l3.
Proof. intros [_ [q ->]] [Ho [q' ->]]. split; [exact Ho|]. by exists q'. Qed.

Lemma beyond_leaves o l q s' : live o l → quic (self l) = Some q → tally q = 0%nat → leaves (st q) s' →
  (reached q → reached (q <| connection.st := s' |>)) → beyond o l (set_quic (q <| connection.st := s' |>) l).
Proof.
  intros Hl Hq Ht Hlv Hr. split; [|by eexists]. split; [eapply live_set_quic; [done|done|]; apply in_use_leaves; [by eapply live_use|done|done]|].
  eexists. split; [done|]. unfold tally in *. cbn. by rewrite (lv_events _ _ Hlv).
Qed.
Lemma write_run o l q id data : live o l → quic (self l) = Some q → tally q = 0%nat → (∀ x, conn_streams_inv.send_at (st q) id = Some x → send_stream.fin x = false) →
  ∃ n l', on_streams (λ s, conn_streams.write s id data) l = (Ok n, l') ∧ beyond o l l'.
Proof.
  intros Hl Hq Ht Hfin. rewrite (on_streams_run _ l q Hq). do 2 eexists. split; [done|]. apply beyond_leaves; [done|done|done|apply leaves_write|].
  intros Hr. apply (reached_worker _ q (connection_run.WWrite id data)); [done|]. intros polled. split; [by apply tally_connected|exact Hfin].
Qed.
Lemma uni_fin o l q id x : live o l → quic (self l) = Some q → id mod 4 = 2 → conn_streams_inv.send_at (st q) id = Some x → send_stream.fin x = false.
Proof. intros Hl Hq Hid Hx. apply send_at_fin in Hx as [[_ ?]|[? _]]; [done|lia|]. apply (u_unis _ _ _ _ (live_use o l q Hl Hq)). Qed.

Lemma flush_preludes_run ps : ∀ o l, onward o l → Forall (λ p, p.1.1 mod 4 = 2) ps →
  ∃ done l', flush_preludes ps l = (Ok done, l') ∧ beyond o l l'.
Proof.
  induction ps as [|[[id prelude] done] ps IH]; intros o l Hon Hps; cbn [flush_preludes].
  { exists [], l. split; [done|]. by apply beyond_refl. }
  apply Forall_cons in Hps as [Hid Hps]. cbn in Hid. rewrite bind_run. pose proof Hon as (Hl & q & Hq & Ht).
  assert (∃ d l', (if (done <? length prelude)%nat then n ← on_streams (λ s, conn_streams.write s id (drop done prelude)); mret (done + n)%nat else mret done) l = (Ok d, l') ∧ beyond o l l') as (d & l1 & -> & Hb1).
  { destruct (_ <? _)%nat; [|exists done, l; split; [done|]; by apply beyond_refl]. rewrite bind_run.
    destruct (write_run o l q id (drop done prelude) Hl Hq Ht) as (n & l' & -> & ?); [intros x Hx; by eapply uni_fin|]. by exists (done + n)%nat, l'. }
  rewrite bind_run. destruct (IH o l1 (proj1 Hb1) Hps) as (ds & l2 & -> & Hb2). exists (d :: ds), l2. split; [done|by eapply beyond_trans].
Qed.
Lemma init_flush_run init o l : onward o l → Forall (λ id, id mod 4 = 2) (ids init) →
  ∃ ready init' l', init_flush init l = (Ok (ready, init'), l') ∧ ids init' = ids init ∧ beyond o l l'.
Proof.
  intros Hon Hids. unfold init_flush. rewrite bind_run.
  destruct (flush_preludes_run (zip (zip (ids init) (preludes init)) (written init)) o l Hon) as (d & l' & -> & ?); [|by eexists _, _, l'].
  apply Forall_forall. intros [[id p] n] Hin. cbn. rewrite Forall_forall in Hids. apply Hids.
  apply elem_of_zip_l in Hin. by apply elem_of_zip_l in Hin.
Qed.
Lemma open_unis_keeps n : ∀ o l, onward o l → sat (open_unis n) l (λ ids l', beyond o l l' ∧ Forall (λ id, id mod 4 = 2) ids) (beyond o l).
Proof.
  induction n as [|n IH]; intros o l Hon; cbn [open_unis]; [apply sat_ret; split; [by apply beyond_refl|done]|].
  pose proof Hon as (Hl & q & Hq & Ht). pose proof (live_use o l q Hl Hq) as Hu. eapply sat_run; [by apply on_streams_run|].
  destruct (open_uni_app (st q) (u_unis _ _ _ _ Hu)) as (Hn & Hc & Hr & Huo & Hid). set (s' := (conn_streams.open_uni (st q)).2) in *.
  assert (beyond o l (set_quic (q <| connection.st := s' |>) l)) as Hb.
  { split; [|by eexists]. split; [|eexists; split; [done|]; unfold tally in *; cbn; by rewrite Hc]. eapply live_set_quic; [done|done|]. destruct Hu. split; cbn; rewrite ?Hn; try done.
    - intros _ Hcl. apply (reached_worker _ q connection_run.WOpenUni); [by apply u_reached0|]. intros polled. split; [by apply tally_connected|done].
    - unfold tally in *. cbn. by rewrite Hc.
    - unfold tally in *. cbn. by rewrite Hc.
    - intros id x Hin Hne. rewrite Hr. by eapply u_unsent0. }
  destruct (conn_streams.open_uni (st q)).1 as [id|]; [|exact Hb]. apply (sat_run _ _ _ id (set_quic (q <| connection.st := s' |>) l)); [done|].
  eapply sat_bind; [eapply sat_mono; [apply (IH o), Hb|intros a l' H1; exact H1|intros l' H1; exact (beyond_trans _ _ _ _ Hb H1)]|].
  cbv beta. intros rest l2 [Hb2 Hf]. apply sat_ret. split; [exact (beyond_trans _ _ _ _ Hb Hb2)|]. constructor; [by apply Hid|done].
Qed.

(** The report of the handshake: nothing was in flight before. *)
Lemma on_connected_keeps d o l : onward o l → h3_ready (self l) = false →
  sat (on_event conn_streams.Connected d) l (λ _ l', live o l') (live o).
Proof.
  intros Hon Hr. cbn [on_event]. eapply sat_bind.
  { eapply sat_bind; [eapply sat_mono; [apply (open_unis_keeps 3 o l Hon)|intros ? ? H1; exact H1|intros l' H1; apply H1]|].
    intros opened l1 Hl1. apply (sat_ret _ _ (λ init l1, beyond o l l1 ∧ Forall (λ id, id mod 4 = 2) (ids init))). exact Hl1. }
  cbv beta. intros init l1 [Hb1 Hids]. destruct (init_flush_run init o l1 (proj1 Hb1) Hids) as (ready & init' & l2 & E & Eids & Hb2).
  eapply sat_run; [exact E|]. cbv beta iota. pose proof (beyond_trans _ _ _ _ Hb1 Hb2) as [(Hl2 & q & Hq & Ht) [q' ->]]. cbn in Hq. injection Hq as ->.
  pose proof (l_inv _ _ Hl2) as Hc. pose proof (c_unready _ _ _ Hc Hr) as Hw.
  assert (∀ h, h = h3_init (self l) ∨ h = Some init' → live o (set_quic q l <| self := self (set_quic q l) <| h3_ready := ready |> <| h3_init := h |> |>)) as Hgo.
  { intros h Hh. destruct Hl2 as [_ Hb Ho _]. split; cbn; [|by apply (h3_books_same o (set_quic q l))|done|by eexists].
    destruct Hc. split; cbn; try done. intros q0 [= <-]. eapply in_use_self; [by apply c_quic0|done|done| |done].
    cbn. intros i ->. destruct Hh as [Hh|[= ->]]; [by apply (u_init _ _ _ _ (c_quic0 q eq_refl))|]. by rewrite Eids. }
  eapply sat_run; [reflexivity|]. destruct ready; cbn [negb when].
  - eapply sat_run; [reflexivity|]. apply sat_ret. by apply (Hgo (h3_init (self l))); left.
  - eapply sat_run; [reflexivity|]. apply sat_ret. by apply (Hgo (Some init')); right.
Qed.

(** *** Events *)

Lemma live_ring o l q r : live o l → quic (self l) = Some q → table (conn_streams.next_bidi (st q)) r → inflight.len r = inflight.len (streams (self l)) →
  (∀ id x', (id, x') ∈ entries r → ∃ x, (id, x) ∈ entries (streams (self l)) ∧ eased x x') → live o (l <| self := self l <| streams := r |> |>).
Proof.
  intros [Hc Hb Ho Hs] Hq Ht Hlen Hx. split; cbn; try done.
  - destruct Hc. unfold weight in *. split; unfold weight; cbn; rewrite ?Hlen; try done; [|congruence]. intros q0 Hq0. assert (q0 = q) as -> by congruence.
    apply in_use_ring; [by apply c_quic0|done|]. intros id x' Hin Hne. destruct (Hx id x' Hin) as (x & ? & _ & ?). exists x. auto.
  - apply (h3_books_same o l); try done. unfold weight. cbn. by rewrite Hlen.
Qed.
Lemma live_modify o l id f : live o l → (∀ x, eased x (f x)) → live o (l <| self := self l <| streams := inflight.modify SH OFF (streams (self l)) id f |> |>).
Proof.
  intros Hl Hf. pose proof (l_quic o l Hl) as [q Hq]. pose proof (u_table _ _ _ _ (live_use o l q Hl Hq)) as Ht.
  destruct (h3_table_modify _ _ id f Hf Ht) as (? & ? & ?). by eapply live_ring.
Qed.

Lemma poll_event_run o l q : live o l → quic (self l) = Some q →
  let '(e, q') := connection.poll_event q in
  live o (set_quic q' l) ∧ (e = Some conn_streams.Connected → onward o (set_quic q' l) ∧ h3_ready (self l) = false).
Proof.
  intros Hl Hq. pose proof (live_use o l q Hl Hq) as Hu. unfold connection.poll_event. destruct (conn_streams.poll_event (st q)) as [e s'] eqn:E.
  assert (conn_streams.next_bidi s' = conn_streams.next_bidi (st q) ∧ uni_fins s' = uni_fins (st q) ∧ (∀ n, ring_fin s' n = ring_fin (st q) n) ∧
    connects (st q) = (connects s' + if decide (e = Some conn_streams.Connected) then 1 else 0)%nat) as (Hn & Hf & Hr & Hc).
  { unfold conn_streams.poll_event in E. destruct (conn_streams.events (st q)) as [|e0 rest] eqn:Ee; injection E as <- <-; [by rewrite Nat.add_0_r|].
    split_and!; try done. unfold connects. rewrite Ee. cbn. case_bool_decide; case_decide; simplify_eq; cbn; lia. }
  assert (live o (set_quic (q <| connection.st := s' |>) l)) as Hl'.
  { eapply live_set_quic; [done|done|]. destruct Hu. unfold unis_open, tally in *. split; unfold unis_open, tally; cbn; rewrite ?Hn, ?Hf; try done.
    - intros _ Hcl. eapply (reached_act _ q connection_run.PollEvent); [by apply u_reached0|done|]. intros polled. cbn. unfold connection.poll_event. rewrite E.
      destruct e; by eexists.
    - lia.
    - intros Hx. specialize (u_ready0 Hx). lia.
    - intros id x Hin Hne. rewrite Hr. by eapply u_unsent0. }
  split; [done|]. intros ->. rewrite decide_True in Hc by done. pose proof (u_tally _ _ _ _ Hu) as Ht. unfold tally in Ht. split.
  - split; [done|]. eexists. split; [done|]. unfold tally. cbn. lia.
  - destruct (h3_ready (self l)) eqn:Er; [|done]. pose proof (u_ready _ _ _ _ Hu ltac:(by left)) as Hz. unfold tally in Hz. lia.
Qed.

Lemma on_event_keeps e d o l : live o l → (e = conn_streams.Connected → onward o l ∧ h3_ready (self l) = false) →
  sat (on_event e d) l (λ _ l', live o l') (live o).
Proof.
  intros Hl Hc. destruct e; try (by apply sat_ret).
  - destruct (Hc eq_refl). by apply on_connected_keeps.
  - cbn [on_event]. eapply sat_run; [reflexivity|]. apply sat_ret. apply live_modify; [done|]. intros x. by split.
Qed.
Lemma on_events_keeps fuel : ∀ d o l, live o l → sat (on_events fuel d) l (λ _ l', live o l') (live o).
Proof.
  induction fuel as [|fuel IH]; intros d o l Hl; cbn [on_events]; pose proof (l_quic o l Hl) as [q Hq]; pose proof (poll_event_run o l q Hl Hq) as Hp;
    destruct (connection.poll_event q) as [e q'] eqn:E; destruct Hp as [Hl' Hc]; (eapply sat_run; [apply (on_quic_run _ l q e q'); [done|by rewrite E]|]);
    (destruct e as [e|]; [|by apply sat_ret]).
  - apply sat_panic.
  - eapply sat_bind; [apply on_event_keeps; [exact Hl'|intros ->; by apply Hc]|]. cbv beta. intros d' l2 Hl2. by apply IH.
Qed.

(** *** Reading *)

Lemma consume_keeps {R} (feed : R → bytes → res R) (r : R) id o l : live o l → sat (consume feed r id) l (λ _ l', live o l' ∧ ∃ q, l' = set_quic q l) (live o).
Proof.
  intros Hl. pose proof (l_quic o l Hl) as [q Hq]. unfold consume. apply (sat_run _ _ _ (self l) l); [done|]. rewrite Hq.
  eapply sat_bind; [apply (sat_lift _ _ (λ x l', l' = l ∧ conn_streams.consume (st q) id (λ data, _ ← feed r data; Ok tt) = Ok x)); [done|exact Hl]|].
  cbv beta. intros [n s] l0 [-> E]. assert (live o (set_quic (q <| connection.st := s |>) l)) as Hl1.
  { eapply live_set_quic; [done|done|]. apply in_use_leaves; [by eapply live_use|by eapply leaves_consume|]. intros Hr.
    pose proof (reached_worker _ q (connection_run.WConsume id (λ data, _ ← feed r data; Ok tt)) Hr) as Hw. cbn in Hw. rewrite E in Hw. apply Hw. by intros polled. }
  eapply sat_run; [reflexivity|]. assert (∃ q', set_quic (q <| connection.st := s |>) l = set_quic q' l) as Hex by by eexists.
  change (l <| self := self l <| quic := Some (q <| connection.st := s |>) |> |>) with (set_quic (q <| connection.st := s |>) l).
  destruct (conn_streams.recv_mut (st q) id) as [[stream put]|]; [|by apply sat_ret]. destruct (_ =? _)%nat; [by apply sat_ret|]. by apply sat_lift.
Qed.
Lemma read_stream_keeps id o l : live o l → sat (read_stream id) l (λ _ l', live o l') (live o).
Proof.
  intros Hl. unfold read_stream. apply (sat_run _ _ _ (self l) l); [done|]. destruct (inflight.get _ _ _ _) as [r|].
  - eapply sat_bind; [by apply consume_keeps|]. cbv beta. intros r' l1 [Hl1 _]. eapply sat_last; [reflexivity|]. apply live_modify; [done|]. intros x. by split.
  - eapply (sat_bind _ _ _ (λ _ l', live o l')).
    { destruct (list_find _ _) as [[pos u]|]; [by apply sat_ret|]. eapply sat_run; [reflexivity|]. apply sat_ret. by apply live_same. }
    cbv beta. intros slot l1 Hl1. apply (sat_run _ _ _ (self l1) l1); [done|].
    eapply sat_bind; [apply (sat_lift _ _ (λ _ l', live o l')); [done|exact Hl1]|]. cbv beta. intros u l2 Hl2.
    eapply sat_bind; [by apply consume_keeps|]. cbv beta. intros r' l3 [Hl3 _]. eapply sat_run; [reflexivity|].
    assert (live o (l3 <| self := self l3 <| uni := <[slot := (u.1, r')]> (uni (self l3)) |> |>)) as Hl4 by by apply live_same.
    destruct (h3_proto.goaway r') as [g|]; [|by apply sat_ret]. eapply sat_last; [reflexivity|]. by apply live_same.
Qed.

(** *** What was not sent at once *)

(** What the loop over the ring does to the streams, from stream number [b] on. *)
Record flushed (q : connection.Connection (RT := RT)) (b : Z) s sl s' sl' : Prop := {
  fl_rel : Forall2 (option_Forall2 eased) sl sl';
  fl_reached : reached (q <| connection.st := s |>) → reached (q <| connection.st := s' |>);
  fl_next : conn_streams.next_bidi s' = conn_streams.next_bidi s;
  fl_connects : connects s' = connects s;
  fl_unis : unis_open s';
  fl_low m : m < b → ring_fin s' m = Some true → ring_fin s m = Some true;
  fl_unsent id x : (id, x) ∈ inflight.entries_from SH OFF b sl' → unsent x ≠ [] → ring_fin s' (id / 4) ≠ Some true;
}.
(** One entry, and the rest of the loop. *)
Lemma flushed_cons q b s s1 x x1 sl s2 sl2 :
  (∀ m, m < b → ring_fin s1 m = Some true → ring_fin s m = Some true) → eased x x1 →
  (reached (q <| connection.st := s |>) → reached (q <| connection.st := s1 |>)) → conn_streams.next_bidi s1 = conn_streams.next_bidi s →
  connects s1 = connects s → (unsent x1 ≠ [] → ring_fin s1 b ≠ Some true) →
  flushed q (b + 1) s1 sl s2 sl2 → flushed q b s (Some x :: sl) s2 (Some x1 :: sl2).
Proof.
  intros Hlow Heas Hre Hn Hc Hhere []. split; [constructor; [by constructor|done]|auto|congruence|congruence|done| |].
  - intros m Hm Hf. apply Hlow; [done|]. apply fl_low0; [lia|done].
  - intros id y [[= -> ->]|Hin]%elem_of_cons Hne; [|by eapply fl_unsent0]. rewrite id_of_four, Z.mul_comm, Z.div_mul by lia.
    intros Hf. apply (Hhere Hne). apply fl_low0; [lia|done].
Qed.
Lemma flush_slots_spec q sl : ∀ s b s' sl' rest,
  flush_slots s sl = (s', sl', rest) → connection.connected q = true → unis_open s →
  (∀ id x, (id, x) ∈ inflight.entries_from SH OFF b sl → stream_id x = id ∧ (unsent x ≠ [] → ring_fin s (id / 4) ≠ Some true)) →
  flushed q b s sl s' sl'.
Proof.
  induction sl as [|[x|] sl IH]; intros s b s' sl' rest; cbn [flush_slots].
  - intros [= <- <- _] Hc Hu Hx. split; try done. by intros id x []%not_elem_of_nil.
  - intros E Hc Hu Hx. destruct (Hx (inflight.id_of SH OFF b) x) as [Hid Hfin]; [by left|]. rewrite id_of_four in Hid, Hfin.
    replace (4 * b / 4) with b in Hfin by (rewrite Z.mul_comm; symmetry; by apply Z.div_mul).
    assert (∀ s1, (∀ m, b < m → ring_fin s1 m = Some true → ring_fin s m = Some true) →
      ∀ id y, (id, y) ∈ inflight.entries_from SH OFF (b + 1) sl → stream_id y = id ∧ (unsent y ≠ [] → ring_fin s1 (id / 4) ≠ Some true)) as Hrest.
    { intros s1 Hup id y Hin. destruct (Hx id y) as [? Hy]; [by right|]. split; [done|]. intros Hne Hf. apply (Hy Hne), Hup; [|done].
      apply (inflight.entries_ids SH OFF) in Hin as (m & Hm & ->). rewrite id_of_four, Z.mul_comm, Z.div_mul by lia. lia. }
    destruct (bool_decide_reflect (unsent x = [])) as [Hun|Hun].
    + destruct (flush_slots s sl) as [[s2 sl2] rest2] eqn:E2. injection E as <- <- _. apply flushed_cons with s; try done. eapply IH; [exact E2|done|done|]. by apply Hrest.
    + pose proof (leaves_write s (stream_id x) (unsent x)) as Hw. destruct (conn_streams.write s (stream_id x) (unsent x)) as [n s1] eqn:Ew. cbn [snd] in Hw.
      set (x1 := x <| unsent := drop n (unsent x) |>) in *.
      assert (eased x x1) as Heas by by split. pose proof (unis_leaves _ _ Hw Hu) as Hu1. destruct Hw as [Wn _ Wc Wr].
      assert (reached (q <| connection.st := s |>) → reached (q <| connection.st := s1 |>)) as Hre1.
      { intros Hr. pose proof (reached_worker _ (q <| connection.st := s |>) (connection_run.WWrite (stream_id x) (unsent x)) Hr) as Hrw. cbn in Hrw. rewrite Ew in Hrw. apply Hrw.
        intros polled. split; [done|]. cbn. intros y Hy. apply send_at_fin in Hy as [[_ ?]|[_ Hy]]; [done| |exact Hu].
        rewrite Hid in Hy. rewrite Z.mul_comm, Z.div_mul in Hy by lia. destruct (send_stream.fin y) eqn:Ey; [|done]. by destruct (Hfin Hun). }
      destruct (bool_decide_reflect (unsent x1 = [])) as [Hd|Hd]; (destruct (flush_slots _ sl) as [[s2 sl2] rest2] eqn:E2); injection E as <- <- _.
      * destruct (finish_app s1 (stream_id x) Hu1) as (Fn & Fc & Fu & Fr); [rewrite Hid, Z.mul_comm; apply Z.mod_mul; lia|].
        assert (stream_id x / 4 = b) as Hdiv by (rewrite Hid, Z.mul_comm; by apply Z.div_mul). rewrite Hdiv in Fr.
        apply flushed_cons with (conn_streams.finish s1 (stream_id x)); try done; [intros m Hm Hf; apply Wr, Fr; [lia|done]| |congruence|congruence|].
        -- intros Hr. by apply (reached_worker _ (q <| connection.st := s1 |>) (connection_run.WFinish (stream_id x)) (Hre1 Hr)).
        -- eapply IH; [exact E2|done|done|]. apply Hrest. intros m Hm Hf. apply Wr, Fr; [lia|done].
      * apply flushed_cons with s1; try done; [intros m Hm Hf; by apply Wr|intros _ Hf; by apply (Hfin Hun), Wr|].
        eapply IH; [exact E2|done|done|]. apply Hrest. intros m Hm Hf. by apply Wr.
  - destruct (flush_slots s sl) as [[s2 sl2] rest2] eqn:E2. intros [= <- <- _] Hc Hu Hx. destruct (IH s (b + 1) s2 sl2 rest2 E2 Hc Hu Hx).
    split; try done; [constructor; [constructor|done]|]. intros m Hm. apply fl_low0. lia.
Qed.
Lemma flush_unsent_keeps o l : live o l → sat flush_unsent l (λ _ l', live o l' ∧ h3_ready (self l') = h3_ready (self l)) (live o).
Proof.
  intros Hl. pose proof (l_quic o l Hl) as [q Hq]. pose proof (live_use o l q Hl Hq) as Hu. unfold flush_unsent. apply (sat_run _ _ _ (self l) l); [done|].
  destruct (has_unsent (self l)); cbn [negb]; [|by apply sat_ret]. cbv zeta. set (r := streams (self l)).
  destruct (flush_slots (st q) (drop (inflight.head r) (inflight.slots r))) as [[s' sl'] rest] eqn:E.
  eapply sat_run; [rewrite (on_streams_run _ l q Hq); cbv beta; rewrite E; reflexivity|]. cbn [fst snd].
  pose proof (u_table _ _ _ _ Hu) as Ht. assert (flushed q (inflight.base r) (st q) (drop (inflight.head r) (inflight.slots r)) s' sl') as [Hrel Hre Hn Hcn Huo _ Hun].
  { destruct (connection.connected q) eqn:Hc.
    { eapply flush_slots_spec; [exact E|done|apply Hu|]. intros id x Hin. split; [by apply (t_ids _ _ Ht)|by apply (u_unsent _ _ _ _ Hu)]. }
    (* nothing is in flight before the handshake is over *)
    assert (inflight.slots r = []) as Hs; [|rewrite Hs, drop_nil in E |- *; injection E as <- <- _; split; try done; [apply Hu|by intros id x []%not_elem_of_nil]].
    eapply table_none; [exact Ht|]. destruct (h3_ready (self l)) eqn:Er.
    - pose proof (u_ready _ _ _ _ Hu ltac:(by left)) as Hz%tally_connected. congruence.
    - pose proof (c_unready _ _ _ (l_inv _ _ Hl) Er) as Hw. pose proof (c_unjudged _ _ _ (l_inv _ _ Hl)). unfold weight in Hw. fold r in Hw. lia. }
  set (r' := inflight.mkRing _ _ _ _ _).
  assert (inflight.related eased r r') as Hrr.
  { split_and!; [done|done|done|]. cbn. rewrite <- (take_drop (inflight.head r) (inflight.slots r)) at 1. apply Forall2_app; [|exact Hrel].
    clear. induction (take (inflight.head r) (inflight.slots r)) as [|[x|] k IH]; repeat constructor; auto. }
  destruct (table_related _ _ _ Hrr Ht) as (Ht' & Hlen & Hents).
  eapply sat_last; [reflexivity|]. split; [|done]. cbn. destruct Hl as [Hc0 Hb Ho _]. split; cbn; [|..|done|done].
  - destruct Hc0. unfold weight in *. split; unfold weight; cbn; rewrite ?Hlen; try done. intros q0 [= <-]. destruct Hu. split; cbn; rewrite ?Hn; try done.
    + intros _ Hcl. apply Hre. replace (q <| connection.st := st q |>) with q by by destruct q. by apply u_reached0.
    + unfold tally in *. cbn. by rewrite Hcn.
    + unfold tally in *. cbn. by rewrite Hcn.
    + intros id x Hin. apply Hun. unfold inflight.entries in Hin. cbn in Hin. rewrite drop_app_length' in Hin; [done|]. rewrite length_take.
      destruct (t_inv _ _ Ht) as (_ & Hh & _). fold r in Hh. lia.
  - by apply (h3_books_same o l).
Qed.

(** *** Opening streams *)

(** A connection with one more stream. *)
Lemma in_use_opened c c' q s' x n data :
  in_use true c q → closing c = None → h3_ready c = true →
  let m := conn_streams.next_bidi (st q) in
  0 ≤ m → reached (q <| connection.st := s' |>) → unis_open s' → connects s' = connects (st q) → conn_streams.next_bidi s' = m + 1 →
  (∀ k b, k ≠ m → ring_fin s' k = Some b → ring_fin (st q) k = Some b) → (ring_fin s' m = Some true → n = length data) →
  stream_id x = 4 * m → unsent x = drop n data →
  closing c' = closing c → h3_ready c' = h3_ready c → h3_init c' = h3_init c → streams c' = inflight.push SH (streams c) (4 * m) x →
  in_use true c' (q <| connection.st := s' |>) ∧ inflight.len (streams c') = S (inflight.len (streams c)).
Proof.
  intros Hu Hcl Hr m Hm Hre Huo Hco Hn Hring Hnew Hx Hxu E1 E2 E3 E4.
  destruct (h3_table_push m (streams c) x (u_table _ _ _ _ Hu) Hm Hx) as (Htb & Hlen & Hents). split; [|by rewrite E4].
  assert (tally (q <| connection.st := s' |>) = tally q) as Ht by (unfold tally; cbn; by rewrite Hco). destruct Hu.
  split; rewrite ?Ht, ?E1, ?E2, ?E3, ?E4; try done; change (st (q <| connection.st := s' |>)) with s'; rewrite ?Hn; [done|fold m in u_next0; lia|].
  intros id y. rewrite Hents, elem_of_app, list_elem_of_singleton. intros Hin Hne. destruct (decide (id = 4 * m)) as [->|Hid].
  - rewrite Z.mul_comm, Z.div_mul by lia. destruct Hin as [Hin|[= ->]].
    + exfalso. pose proof (table_nodup (inflight.push SH (streams c) (4 * m) x)) as Hnd. rewrite Hents, fmap_app in Hnd.
      apply NoDup_app in Hnd as (_ & Hdis & _). apply (Hdis (4 * m)); [by apply (list_elem_of_fmap_2 fst _ (4 * m, y))|by left].
    + intros Hf. apply Hne. specialize (Hnew Hf). rewrite Hxu, Hnew. by apply drop_ge.
  - destruct Hin as [Hin|[= -> _]]; [|done]. intros Hf. apply (u_unsent0 id y Hin Hne). apply Hring; [|done].
    apply (inflight.entries_ids SH OFF) in Hin as (k & _ & ->). rewrite id_of_four in *. rewrite Z.mul_comm, Z.div_mul by lia. lia.
Qed.
Lemma open_streams_keeps fuel : ∀ o l, live o l → h3_ready (self l) = true →
  sat (open_streams target budget parallel fuel) l (λ _ l', live o l') (live o).
Proof.
  induction fuel as [|fuel IH]; intros o l Hl Hr; cbn [open_streams]; (apply (sat_run _ _ _ (self l) l); [done|]); (eapply sat_run; [reflexivity|]);
    (destruct (budget.may_start budget _) eqn:Hms; [|by rewrite andb_false_r; apply sat_ret]); rewrite andb_true_r; (destruct (_ <? _)%nat; [|by apply sat_ret]); [apply sat_panic|].
  pose proof (l_quic o l Hl) as [q Hq]. pose proof (live_use o l q Hl Hq) as Hu. set (data := requests.h3_request target).
  destruct (reached_streams _ Hlocal q (live_reached o l q Hl Hq)) as [Hbase Hrange]. pose proof (live_connected o l q Hl Hq ltac:(by left)) as Hcn.
  pose proof (reached_worker _ q (connection_run.WOneshot data) (live_reached o l q Hl Hq) ltac:(by intros polled)) as Hre. cbn in Hre.
  destruct (oneshot_app (st q) data (u_unis _ _ _ _ Hu) Hbase ltac:(lia) ltac:(lia)) as (Huo & Hco & Hout).
  eapply sat_run; [by apply on_streams_run|]. fold data. set (s' := (conn_streams.send_oneshot (st q) data).2) in *.
  destruct (conn_streams.send_oneshot (st q) data).1 as [[id n]|].
  2: { apply sat_ret. eapply live_set_quic; [done|done|]. rewrite Hout. by destruct q. }
  destruct Hout as (-> & Hn & Hle & Hring & Hnew). set (l1 := set_quic (q <| connection.st := s' |>) l).
  apply (sat_run _ _ _ tt (if (n <? length data)%nat then l1 <| self := self l1 <| has_unsent := true |> |> else l1)); [by destruct (_ <? _)%nat|].
  set (l2 := if (n <? length data)%nat then _ else _). eapply sat_run; [reflexivity|]. rewrite (slice_from_le data n Hle). eapply sat_run; [reflexivity|].
  set (x := mkInFlight _ _ _ _). eapply sat_run; [reflexivity|]. eapply sat_run; [reflexivity|]. set (m := conn_streams.next_bidi (st q)) in *.
  assert (∃ hu, self l2 = self l <| quic := Some (q <| connection.st := s' |>) |> <| has_unsent := hu |>) as [hu Hself].
  { unfold l2. destruct (_ <? _)%nat; [by exists true|]. exists (has_unsent (self l)). unfold l1, set_quic. cbn. by destruct (self l). }
  assert (shared l2 = shared l) as Hsh by (unfold l2; by destruct (_ <? _)%nat).
  set (l3 := l2 <| self := _ |>). assert (in_use true (self l3) (q <| connection.st := s' |>) ∧ inflight.len (streams (self l3)) = S (inflight.len (streams (self l)))) as [Hu3 Hlen].
  { apply (in_use_opened (self l) (self l3) q s' x n data); try done; try (by unfold l3; cbn; rewrite Hself); [by apply Hl|lia]. }
  assert (quic (self l3) = Some (q <| connection.st := s' |>)) as Hq3 by (unfold l3; cbn; by rewrite Hself).
  apply IH; [|unfold l3; cbn; by rewrite Hself]. destruct Hl as [Hc Hb Ho _]. split; [..|unfold l3; cbn; by rewrite Hself|by eexists].
  - destruct Hc. split; unfold l3; cbn -[inflight.push]; rewrite ?Hself; cbn -[inflight.push]; [|done|congruence|congruence|done].
    intros q0 [= <-]. unfold l3 in Hu3. cbn -[inflight.push] in Hu3. rewrite Hself in Hu3. exact Hu3.
  - pose proof Hb as []. unfold finished_so_far, weight in *. split; unfold finished_so_far, weight; cbn -[inflight.push]; rewrite ?Hsh; try done; [apply u64_range|].
    eapply (balanced_start budget budget_fits); [exact b_balance0| |done|done]. unfold l3 in Hlen. cbn -[inflight.push] in Hlen. rewrite Hlen, Hself. cbn. lia.
Qed.
Lemma fill_streams_keeps o l : live o l → sat (fill_streams target budget parallel) l (λ _ l', live o l') (live o).
Proof.
  intros Hl. unfold fill_streams. apply (sat_run _ _ _ (self l) l); [done|]. eapply sat_run; [reflexivity|]. destruct (h3_ready (self l)) eqn:Hr.
  - destruct (_ || _); [by apply sat_ret|]. destruct (quic (self l)); [|by apply sat_ret]. by apply open_streams_keeps.
  - rewrite orb_true_r. by apply sat_ret.
Qed.

(** *** [drive] *)

Lemma flush_init_keeps o l init : live o l → h3_init (self l) = Some init →
  sat ('(ready, init) ← init_flush init;
       if (ready : bool) then update (λ c, c <| h3_init := None |> <| h3_ready := true |>) else update (λ c, c <| h3_init := Some init |>))
    l (λ _ l', live o l') (live o).
Proof.
  intros Hl Hi. pose proof (l_quic o l Hl) as [q Hq]. pose proof (live_use o l q Hl Hq) as Hu.
  assert (onward o l) as Hon. { split; [done|]. exists q. split; [done|]. apply (u_ready _ _ _ _ Hu). right. by rewrite Hi. }
  destruct (init_flush_run init o l Hon (u_init _ _ _ _ Hu init Hi)) as (ready & init' & l' & E & Eids & (Hl' & q1 & Hq1 & Ht1) & q' & ->).
  cbn in Hq1. injection Hq1 as <-. eapply sat_run; [exact E|]. cbv beta iota. pose proof Hl' as [Hc Hb Ho _].
  assert (∀ c', c' = self (set_quic q' l) <| h3_init := None |> <| h3_ready := true |> ∨ c' = self (set_quic q' l) <| h3_init := Some init' |> → live o (set_quic q' l <| self := c' |>)) as Hgo.
  { intros c' Hc'. assert (closing c' = None ∧ quic c' = Some q' ∧ weight c' = weight (self (set_quic q' l)) ∧ streams c' = streams (self l)) as (E1 & E2 & E3 & E4) by (by destruct Hc' as [->| ->]).
    split; cbn; [|by apply (h3_books_same o (set_quic q' l))|done|by eexists]. destruct Hc. split.
    - intros q0 Hq0. assert (q0 = q') as -> by congruence. eapply in_use_self; [by apply c_quic0|rewrite E1; symmetry; exact Ho|done| |done].
      intros i. destruct Hc' as [->| ->]; cbn; [done|]. intros [= <-]. rewrite Eids. by apply (u_init _ _ _ _ Hu).
    - congruence.
    - rewrite E3. destruct Hc' as [->| ->]; cbn; [done|]. apply c_unready0.
    - congruence.
    - destruct Hc' as [->| ->]; apply c_unjudged0. }
  destruct ready; (eapply sat_last; [reflexivity|]); apply Hgo; auto.
Qed.

Lemma drive_body_keeps o l : live o l → sat (drive_body target budget parallel) l (λ _ l', live o l') (live o).
Proof.
  intros Hl. unfold drive_body. apply (sat_run _ _ _ (self l) l); [done|]. destruct (quic (self l)) as [q|]; [|by apply sat_ret].
  eapply sat_bind; [by apply on_events_keeps|]. cbv beta. intros d l1 Hl1.
  eapply sat_bind; [apply (sat_for_each _ _ (live o)); [intros; by apply read_stream_keeps|done]|]. cbv beta. intros _ l2 Hl2.
  eapply sat_bind; [apply (sat_for_each _ _ (live o)); [intros; by apply finish_stream_keeps|done]|]. cbv beta. intros _ l3 Hl3.
  eapply sat_bind; [by apply on_goaway_keeps|]. cbv beta. intros still l4 Hl4. apply (sat_run _ _ _ (self l4) l4); [done|].
  destruct (judge_run (inflight.is_empty (streams (self l4))) o l4 Hl4) as (l5 & E5 & Hl5 & _). eapply sat_run; [exact E5|]. apply (sat_run _ _ _ (self l5) l5); [done|].
  eapply (sat_bind _ _ _ (λ _ l', live o l')); [destruct (h3_init (self l5)) eqn:Ei; [by apply flush_init_keeps|by apply sat_ret]|]. cbv beta. intros _ l6 Hl6.
  eapply sat_bind; [by apply flush_unsent_keeps|]. cbv beta. intros _ l7 [Hl7 _]. eapply sat_bind; [by apply fill_streams_keeps|]. cbv beta. intros _ l8 Hl8. by apply sat_ret.
Qed.
Lemma drive_keeps o l : live o l → sat (drive target budget parallel) l (λ _ l', live o l') (λ _, False).
Proof.
  intros Hl. unfold drive, sat, holds. rewrite bind_run. unfold attempt. pose proof (drive_body_keeps o l Hl) as Hd. unfold sat, holds in Hd.
  by destruct (drive_body _ _ _ l) as [[b|[]] l'].
Qed.
End methods.
End http3_run.
