(* ===== verification/Http3WorkerTurn.v ===== *)
(** * Sending, receiving, closing and opening, in an HTTP/3 worker

    The handlers of completions and timers keep the invariant of
    [Http3WorkerInv.v] and the accounts of [Http3WorkerRun.v]. *)

From S2P Require Import Prelude Effects Varint QuicPacket QuicRecovery QuicRecvStream QuicSendStream QuicStreams QuicStreamsInv QuicStreamsRun QuicConn QuicConnTimers QuicConnRun QuicConnHistory QuicConnApp Status Stats Inflight Target Requests H3Proto Uring UringRun UringConn Http3Recv Http3Worker Http3WorkerInv Http3WorkerRun.
From stdpp Require Import relations.
#[local] Open Scope Z_scope.

Module http3_turn.
Import uring uring_run uring_conn http3 http3_inv http3_run connection_app.

Section methods.
Context `{RL : RustlsLaws} `{SL : UnstableSortLaws (Z * bytes)} `{KN : Kernel} `{RM : RecvMsg} `{EN : Entropy} `{!BufferOctets} {SocketAddr : Type}.
Variables (target : target.Target SocketAddr) (budget : budget.Budget) (connect_timeout : Z) (timeout : option Z) (parallel : nat) (gso : bool) (patience : nat).
Hypothesis budget_fits : match budget with budget.Requests n => n < 2 ^ 64 | budget.Duration _ => True end.
Abbreviation L := (Local (Conn (RT := RT)) Shared).
Abbreviation M := (eff L error).
Abbreviation local := (local_params connect_timeout timeout).
Abbreviation reached := (reached local).
Abbreviation in_use := (in_use local).
Abbreviation conn_inv := (conn_inv local).
Abbreviation books := (books budget).
Abbreviation live := (live budget connect_timeout timeout).
Abbreviation st := connection.st.

(** A connection in any state, and the accounts. *)
Definition kept (sane : bool) (o : Z) (l : L) : Prop := conn_inv sane (self l) ∧ books o l.
(** A method that succeeds. *)
Definition run {A} (m : M A) (l : L) (Q : A → L → Prop) : Prop := sat m l Q (λ _, True).

Lemma run_bind {A B} (m : M A) (f : A → M B) l P Q : run m l P → (∀ a l', P a l' → run (f a) l' Q) → run (m ≫= f) l Q.
Proof. apply sat_bind. Qed.
Lemma run_mono {A} (m : M A) l (P Q : A → L → Prop) : run m l P → (∀ a l', P a l' → Q a l') → run m l Q.
Proof. intros Hm HQ. by eapply sat_mono. Qed.
Lemma run_ret {A} (a : A) l (Q : A → L → Prop) : Q a l → run (mret a) l Q.
Proof. done. Qed.
Lemma run_me {B} (f : Conn → M B) l Q : run (f (self l)) l Q → run (me ≫= f) l Q.
Proof. done. Qed.
Lemma run_get {B} (f : L → M B) l Q : run (f l) l Q → run (get ≫= f) l Q.
Proof. done. Qed.

(** ** What does not touch the accounts *)

Record still (l l' : L) : Prop := {
  s_quic : quic (self l') = quic (self l);
  s_closing : closing (self l') = closing (self l);
  s_ready : h3_ready (self l') = h3_ready (self l);
  s_init : h3_init (self l') = h3_init (self l);
  s_streams : streams (self l') = streams (self l);
  s_gives : give_backs (self l') = give_backs (self l);
  s_completed : stats.completed (stats (shared l')) = stats.completed (stats (shared l));
  s_errors : stats.errors (stats (shared l')) = stats.errors (stats (shared l));
  s_started : started (shared l') = started (shared l);
}.
#[global] Instance still_preorder : PreOrder still.
Proof. split; [by intros l; split|]. intros a b c [] []. split; congruence. Qed.
Lemma kept_still b o l l' : kept b o l → still l l' → kept b o l'.
Proof.
  intros [Hc Hb] []. split; [by eapply conn_inv_same|]. apply (h3_books_same budget o l); try done. unfold weight. by rewrite s_streams0, s_gives0.
Qed.
Lemma run_still {A} b o (m : M A) l : evolves still m → kept b o l → run m l (λ _ l', kept b o l' ∧ still l l').
Proof. intros Hm Hk. specialize (Hm l). unfold run, sat, holds. destruct (m l) as [[a|[]] l']; [|done..]. split; [by eapply kept_still|done]. Qed.

Lemma still_ring {A} (m : eff World error A) : evolves still (on_ring m).
Proof. intros l. unfold on_ring. by destruct (m (ring_of l)). Qed.
Lemma still_me : evolves still me.
Proof. by intros l. Qed.
#[local] Hint Resolve still_ring still_me : rings.
Ltac stays := repeat (progress evolve || case_bool_decide); eauto with rings; try (intros ?; by split).

Lemma arm_recv_still i : evolves still (arm_recv i).
Proof. unfold arm_recv. stays. Qed.
Lemma push_front_send_still i : evolves still (push_front_send i).
Proof. unfold push_front_send. stays. Qed.
Lemma pop_front_still : evolves still pop_front.
Proof. unfold pop_front. stays. Qed.
Lemma queue_batch_still b : evolves still (queue_batch b).
Proof. destruct b as [[[out size] count] oversize]. unfold queue_batch. stays. Qed.
Lemma recycle_still b : evolves still (recycle_any b).
Proof. unfold recycle_any, recycle. stays. Qed.
Lemma retired_send_still ud res : evolves still (complete_retired_send ud res).
Proof. unfold complete_retired_send. stays. Qed.
Lemma count_sent_still n : evolves still (update_stats (count_sent n)).
Proof. unfold update_stats. stays. Qed.
Lemma count_received_still n : evolves still (update_stats (count_received n)).
Proof. unfold update_stats. stays. Qed.

(** ** Sending *)

(** A call that succeeds and that the connection's rules allow. *)
Lemma on_quic_kept {A} (m : eff (connection.Connection (RT := RT)) conn_streams.conn_error A) a b o l :
  evolves aside m → (∀ q polled, connection_run.permitted (q, polled) a) →
  (∀ q x q' polled, m q = (Ok x, q') → connection_run.perform (q, polled) a = Some (q', polled)) →
  kept b o l → run (on_quic m) l (λ _ l', kept b o l' ∧ ∃ q, l' = set_quic q l).
Proof.
  intros Ha Hp Hd [Hc Hb]. unfold on_quic. apply run_me. destruct (quic (self l)) as [q|] eqn:Hq; [|done]. specialize (Ha q).
  destruct (m q) as [[x|e] q'] eqn:E; unfold run, sat, holds; rewrite bind_run; cbn [update modify lift]; unfold update; cbn; [|by destruct (of_conn_error e)].
  split; [|by exists q']. split; [|by apply (h3_books_same budget o l)]. eapply conn_inv_quic; [exact Hc|exact Hq|]. eapply in_use_aside; [by apply Hc|exact Ha|].
  intros Hb1. split; [done|]. intros Hr. eapply (reached_act _ q a); [done|by apply Hp|]. intros polled. exists polled. by eapply Hd.
Qed.
Lemma poll_transmit_kept at_ out pad b o l : kept b o l →
  run (on_quic (connection.poll_transmit at_ out pad)) l (λ _ l', kept b o l' ∧ ∃ q, l' = set_quic q l).
Proof.
  apply (on_quic_kept _ (connection_run.Transmit at_ out pad)); [apply poll_transmit_aside|done|]. intros q x q' polled E. cbn. by rewrite E.
Qed.
Lemma batch_loop_kept fuel : ∀ at_ max out size count b o l, kept b o l →
  run (batch_loop fuel at_ max out size count) l (λ _ l', kept b o l' ∧ (l' = l ∨ ∃ q, l' = set_quic q l)).
Proof.
  induction fuel as [|fuel IH]; intros at_ max out size count b o l Hk; cbn [batch_loop]; (destruct (_ <=? _)%nat; [apply run_ret; auto|]); [done|]. cbv zeta.
  eapply run_bind; [by apply poll_transmit_kept|]. cbv beta. intros [n out'] l1 [Hk1 [q1 E1]].
  assert (∀ x, run (mret x : M (bytes * nat * nat * option bytes)) l1 (λ _ l', kept b o l' ∧ (l' = l ∨ ∃ q, l' = set_quic q l))) as Hret by (intros x; apply run_ret; split; [done|right; by exists q1]).
  assert (∀ max' out' size' count', run (batch_loop fuel at_ max' out' size' count') l1 (λ _ l', kept b o l' ∧ (l' = l ∨ ∃ q, l' = set_quic q l))) as Hgo.
  { intros max' out'' size' count'. eapply run_mono; [by apply IH|]. cbv beta. intros _ l2 [Hk2 H2]. split; [done|]. right. destruct H2 as [->|[q2 ->]]; [by exists q1|].
    exists q2. by rewrite E1. }
  repeat (destruct (_ =? _)%nat || destruct (_ <? _)%nat); auto.
Qed.

(** What sending leaves alone. *)
Record sends_on (l l' : L) : Prop := {
  so_quic : quic (self l') = None ↔ quic (self l) = None;
  so_closing : closing (self l') = closing (self l);
  so_ready : h3_ready (self l') = h3_ready (self l);
  so_weight : weight (self l') = weight (self l);
}.
Lemma sends_on_trans l1 l2 l3 : sends_on l1 l2 → sends_on l2 l3 → sends_on l1 l3.
Proof. intros [] []. split; [by rewrite so_quic1|congruence..]. Qed.
Lemma still_sends_on l l' : still l l' → sends_on l l'.
Proof. intros []. split; [by rewrite s_quic0|done|done|]. unfold weight. by rewrite s_streams0, s_gives0. Qed.
Lemma set_quic_sends_on l q q' : quic (self l) = Some q → sends_on l (set_quic q' l).
Proof. intros Hq. split; try done. cbn. by rewrite Hq. Qed.

Lemma pump_transmits_kept i at_ b o l : kept b o l → run (pump_transmits gso i at_) l (λ _ l', kept b o l' ∧ sends_on l l').
Proof.
  intros Hk. unfold pump_transmits. apply run_me. eapply (run_bind _ _ _ (λ _ l', kept b o l' ∧ sends_on l l')).
  - destruct (quic (self l)) as [q|] eqn:Hq; [|by apply run_ret; split; [|apply still_sends_on]]. cbv zeta.
    eapply run_bind; [by apply batch_loop_kept|]. cbv beta. intros batch l1 [Hk1 H1].
    assert (sends_on l l1) as Hs1 by (destruct H1 as [->|[q1 ->]]; [by apply still_sends_on|by eapply set_quic_sends_on]).
    eapply run_mono; [by apply (run_still b o _ l1), Hk1; apply queue_batch_still|]. cbv beta. intros _ l2 [Hk2 Hs2]. split; [done|].
    eapply sends_on_trans; [exact Hs1|by apply still_sends_on].
  - cbv beta. intros _ l1 [Hk1 Hs1]. apply run_me. destruct (sending (self l1)); [by apply run_ret|].
    eapply run_mono; [apply (run_still b o _ l1); [apply push_front_send_still|done]|]. cbv beta. intros _ l2 [Hk2 Hs2]. split; [done|].
    eapply sends_on_trans; [exact Hs1|by apply still_sends_on].
Qed.

(** ** Closing *)

(** Nothing is owed any more. *)
Lemma weightless c : conn_inv true c ∨ conn_inv false c → weight c = 0 → inflight.len (streams c) = 0%nat ∧ unjudged (give_backs c) = 0.
Proof. intros Hc Hw. unfold weight in Hw. assert (0 ≤ unjudged (give_backs c)) by (by destruct Hc as [[]|[]]). lia. Qed.

(** A connection that has been closed. *)
Definition shut (c : Conn (RT := RT)) : Prop := quic c = None ∧ closing c = None ∧ h3_ready c = false ∧ h3_init c = None ∧ streams c = inflight.new ∧ give_backs c = no_give_backs.
Lemma shut_inv b c : shut c → conn_inv b c ∧ weight c = 0.
Proof.
  intros (E1 & E2 & E3 & E4 & E5 & E6). assert (weight c = 0) as Hw by (unfold weight; by rewrite E5, E6). split; [|done].
  split; rewrite ?E1, ?E2; try done; [|by rewrite E6]. intros _. rewrite E5. split; [|done]. apply (table_clear 0 inflight.new).
Qed.
Lemma books_weightless o l l' : books o l → weight (self l) = 0 → weight (self l') = 0 → shared l' = shared l → books o l'.
Proof. intros Hb H1 H2 E. apply (h3_books_same budget o l); rewrite ?E; try done. congruence. Qed.

Lemma close_shuts b i o l : kept b o l → weight (self l) = 0 → run (close i) l (λ _ l', kept true o l' ∧ shut (self l')).
Proof.
  intros [Hc Hb] Hw. unfold close. apply run_me.
  assert (∀ l1, still l l1 → run (_ ← when (0 <=? fd (self l)) (_ ← on_ring (close_fd (fd (self l))); update (λ c, c <| fd := -1 |>));
    update (λ c, c <| quic := None |> <| uni := [] |> <| h3_ready := false |> <| h3_init := None |> <| goaway := None |>
    <| out_queue := [] |> <| sending := false |> <| recv_armed := false |> <| streams := inflight.clear (streams c) |>
    <| has_unsent := false |> <| give_backs := no_give_backs |> <| closing := None |>
    <| generation := next_generation (generation c) |>)) l1 (λ _ l', kept true o l' ∧ shut (self l'))) as Hgo.
  { intros l1 H1. eapply (run_bind _ _ _ (λ _ l', still l l')).
    - destruct (0 <=? fd (self l)); cbn [when]; [|by apply run_ret]. eapply sat_last; [reflexivity|]. cbn. destruct H1. by split.
    - cbv beta. intros _ l2 H2. eapply sat_last; [reflexivity|]. match goal with |- kept _ _ ?l3 ∧ _ => set (l4 := l3) end.
      assert (shut (self l4)) as Hsh by by split_and!. destruct (shut_inv true _ Hsh) as [? Hw4]. split; [|done]. split; [done|].
      destruct H2. by apply (h3_books_same budget o l). }
  destruct (sending (self l)); [|by apply Hgo]. destruct (out_queue (self l)) as [|d queue]; [by apply Hgo|].
  eapply sat_run; [reflexivity|]. apply Hgo. by split.
Qed.

Lemma h3_fail_inflight_run o l b : kept b o l → h3_ready (self l) = true →
  ∃ l', fail_inflight l = (Ok tt, l') ∧ kept b o l' ∧ weight (self l') = 0 ∧ closing (self l') = closing (self l) ∧ sending (self l') = sending (self l) ∧
    h3_ready (self l') = true.
Proof.
  intros [Hc Hb] Hr. eexists. split; [reflexivity|]. split; [|by split_and!]. split.
  - destruct Hc. split; cbn; try done; [|intros Hq; destruct (c_none0 Hq) as (_ & ? & _); congruence]. intros q Hq. specialize (c_quic0 q Hq). destruct c_quic0. split; try done; [apply table_clear|].
    cbn. intros id x []%not_elem_of_nil.
  - pose proof (c_unjudged _ _ _ Hc) as Hj. pose proof Hb as []. unfold finished_so_far, weight in *. cbn. split; cbn; try done; [apply u64_range|].
    unfold finished_so_far, weight. cbn.
    set (e := stats.errors (stats (shared l))) in *. set (n := Z.of_nat (inflight.len (streams (self l)))) in *. set (u := unjudged (give_backs (self l))) in *.
    assert (0 ≤ n) by (unfold n; lia). pose proof (u64_range (e + n)).
    assert (balanced budget (stats.completed (stats (shared l)) + u64 (e + n) + u + o) (started (shared l))) as Hfirst.
    { eapply (balanced_wrap budget budget_fits (e + n)); [exact b_balance0|lia|lia]. }
    eapply (balanced_wrap budget budget_fits (u64 (e + n) + u)); [exact Hfirst|lia|lia].
Qed.

(** ** Opening *)

Lemma connect_fresh r1 r2 name q : connection.connect r1 r2 name local = Ok q → reached q ∧ calm q ∧ tally q = 1%nat ∧ conn_streams.next_bidi (st q) = 0 ∧ unis_open (st q).
Proof.
  intros E. split; [exists []; by eapply connection_run.reach_connect|]. unfold connection.connect in E. apply bind_Ok in E as (t & _ & E).
  apply bind_Ok in E as (t' & _ & E). apply bind_Ok in E as (k & _ & E). apply Ok_inj in E as <-. by split_and!; [|..|constructor].
Qed.
Lemma open_conn_kept i at_ o l : kept true o l → shut (self l) → evolves still at_ →
  run (open_conn target connect_timeout timeout gso i at_) l (λ _ l', kept true o l').
Proof.
  intros Hk Hsh Hat. unfold open_conn. assert (∀ {A} (m : M A), evolves still m → ∀ l0, kept true o l0 → shut (self l0) → run m l0 (λ _ l', kept true o l' ∧ shut (self l'))) as Hquiet.
  { intros A m Hm l0 Hk0 Hs0. eapply run_mono; [by apply (run_still true o)|]. cbv beta. intros _ l1 [Hk1 []]. split; [done|].
    destruct Hs0 as (? & ? & ? & ? & ? & ?). split_and!; congruence. }
  eapply run_bind; [apply Hquiet; [apply still_ring|done|done]|]. cbv beta. intros f l1 [Hk1 Hs1].
  eapply run_bind; [apply Hquiet; [intros ?; by split|done|done]|]. cbv beta. intros _ l2 [Hk2 Hs2].
  eapply run_bind; [apply Hquiet; [apply still_ring|done|done]|]. cbv beta. intros _ l3 [Hk3 Hs3].
  eapply run_bind; [by apply Hquiet|]. cbv beta. intros t l4 [Hk4 Hs4]. apply run_get. destruct (entropy (world l4)) as [r1 r2].
  unfold run. eapply sat_bind; [apply (sat_lift _ _ (λ q l', l' = l4 ∧ connection.connect r1 r2 (connection.text (target.host target)) local = Ok q)); done|].
  cbv beta. intros q l5 [-> E]. destruct (connect_fresh _ _ _ _ E) as (Hre & Hca & Ht & Hn & Hu).
  eapply sat_run; [reflexivity|]. set (l6 := l4 <| self := _ |>). assert (kept true o l6) as Hk6.
  { destruct Hk4 as [Hc Hb]. destruct Hs4 as (E1 & E2 & E3 & E4 & E5 & E6). split; [|by apply (h3_books_same budget o l4)].
    destruct Hc. split; cbn; try done. intros q0 [= <-]. split; cbn; try done.
    - by rewrite Ht.
    - rewrite E3, E4. by intros [?|[? ?]].
    - rewrite E4. done.
    - rewrite Hn. by apply c_none0.
    - by rewrite Hn.
    - rewrite E5. intros id x []%not_elem_of_nil. }
  eapply run_bind; [apply (run_still true o _ l6); [apply arm_recv_still|done]|]. cbv beta. intros _ l7 [Hk7 _].
  eapply run_mono; [by apply pump_transmits_kept|]. cbv beta. intros _ l8 [Hk8 _]. done.
Qed.

Lemma finish_close_kept b i o l : kept b o l → weight (self l) = 0 →
  run (finish_close target budget connect_timeout timeout gso patience i) l (λ _ l', kept true o l').
Proof.
  intros Hk Hw. unfold finish_close. assert (∀ {A} (m : eff World error A) l0, kept b o l0 → weight (self l0) = 0 → run (on_ring m) l0 (λ _ l', kept b o l' ∧ weight (self l') = 0)) as Hring.
  { intros A m l0 Hk0 Hw0. eapply run_mono; [apply (run_still b o); [apply still_ring|done]|]. cbv beta. intros _ l1 [Hk1 Hs%still_sends_on]. split; [done|].
    by rewrite (so_weight _ _ Hs). }
  eapply run_bind; [by apply Hring|]. cbv beta. intros _ l1 [Hk1 Hw1]. apply run_me.
  eapply (run_bind _ _ _ (λ _ l', kept b o l' ∧ weight (self l') = 0)); [destruct (recv_armed (self l1)); cbn [when]; [by apply Hring|by apply run_ret]|].
  cbv beta. intros _ l2 [Hk2 Hw2]. eapply run_bind; [by eapply close_shuts|]. cbv beta. intros _ l3 [Hk3 Hs3]. apply run_get.
  destruct (_ || _); [eapply run_mono; [apply (run_still true o); [apply still_ring|done]|]; cbv beta; by intros _ l4 [? _]|].
  apply open_conn_kept; [done|done|]. unfold now. intros ?. by split.
Qed.

Lemma begin_close_kept b i at_ o l : kept b o l →
  run (begin_close target budget connect_timeout timeout gso patience i at_) l (λ _ l', kept true o l').
Proof.
  intros Hk. unfold begin_close. apply run_me. eapply (run_bind _ _ _ (λ _ l', kept true o l' ∧ weight (self l') = 0)).
  - destruct (closing (self l)) as [d|] eqn:Hcl.
    + apply run_ret. pose proof (c_closing _ _ _ (proj1 Hk) ltac:(by rewrite Hcl)) as Hw. split; [|done]. destruct Hk as [[Hq] Hb]. split; [|done]. split; try done.
      intros q Eq. specialize (Hq q Eq). destruct Hq. split; try done. congruence.
    + eapply (run_bind _ _ _ (λ _ l', kept b o l' ∧ weight (self l') = 0 ∧ (h3_ready (self l') = false → weight (self l') = 0))).
      * destruct (h3_ready (self l)) eqn:Hr.
        -- destruct (h3_fail_inflight_run o l b Hk Hr) as (l' & E & ? & ? & _). by eapply sat_last; [exact E|].
        -- pose proof (c_unready _ _ _ (proj1 Hk) Hr) as Hw. eapply sat_run; [reflexivity|]. destruct (budget.may_start budget _) eqn:Hms; cbn [when]; [|by apply run_ret].
           eapply sat_last; [reflexivity|]. split; [|done]. destruct Hk as [Hc Hb]. split; [done|]. pose proof Hb as [].
           unfold finished_so_far in *. split; unfold finished_so_far; cbn; try done; [apply u64_range|apply u64_range|].
           eapply (balanced_start budget budget_fits (stats.completed (stats (shared l)) + u64 (stats.errors (stats (shared l)) + 1) - 1 + weight (self l) + o)); [|lia|done|done].
           destruct budget as [n|d]; cbn in *.
           ++ destruct b_balance0. apply Z.ltb_lt in Hms. rewrite u64_small by lia. lia.
           ++ unfold u64. match goal with |- ?x mod _ = 0 => replace x with ((stats.errors (stats (shared l)) + 1) mod 2 ^ 64 + (stats.completed (stats (shared l)) - 1 + weight (self l) + o - started (shared l))) by lia end.
              rewrite Zplus_mod_idemp_l. etrans; [|exact b_balance0]. f_equal. lia.
      * cbv beta. intros _ l1 ([Hc Hb] & Hw & _). eapply sat_last; [reflexivity|]. split; [|done]. split; [|by apply (h3_books_same budget o l1)].
        destruct Hc. split; cbn; try done. intros q Eq. eapply in_use_closing. by apply c_quic0.
  - cbv beta. intros _ l1 [Hk1 Hw1]. apply run_me. destruct (sending (self l1)); [by apply run_ret|]. by eapply finish_close_kept.
Qed.

(** ** Receiving *)

Lemma kept_quiet {A} b o (m : M A) l : evolves still m → kept b o l → run m l (λ _ l', kept b o l').
Proof. intros Hm Hk. eapply run_mono; [by apply (run_still b o)|]. cbv beta. by intros a l' [? _]. Qed.

Lemma handle_all_kept at_ ds : ∀ o l, Forall bytes_ok ds → kept true o l → run (handle_all at_ ds) l (λ broken l', kept (negb broken) o l').
Proof.
  induction ds as [|d ds IH]; intros o l Hds Hk; cbn [handle_all]; [by apply run_ret|]. apply Forall_cons in Hds as [Hd Hds].
  unfold run, sat, holds. rewrite bind_run. unfold attempt, on_quic. rewrite h3_me_bind. destruct (quic (self l)) as [q|] eqn:Hq; [|done].
  pose proof (handle_datagram_aside at_ d q) as Ha. destruct Hk as [Hc Hb]. destruct (connection.handle_datagram at_ d q) as [r q'] eqn:E. rewrite update_bind. cbn [snd] in Ha.
  assert (∀ b, (b = true → ∃ x, r = Ok x) → kept b o (l <| self := self l <| quic := Some q' |> |>)) as Hgo.
  { intros b Hb1. split; [|by apply (h3_books_same budget o l)]. eapply conn_inv_quic; [exact Hc|exact Hq|]. eapply in_use_aside; [by apply Hc|exact Ha|].
    intros ->. split; [done|]. destruct (Hb1 eq_refl) as [x ->]. intros Hr. eapply (reached_act _ q (connection_run.Datagram at_ d)); [done|done|].
    intros polled. exists polled. cbn. by rewrite E. }
  destruct r as [x|e]; cbn [lift].
  - apply IH; [done|]. apply Hgo. by exists x.
  - destruct (of_conn_error e); cbn; [apply Hgo|]; done.
Qed.

Lemma segments_octets size b : bytes_ok b → Forall bytes_ok (h3_recv.segments size b).
Proof.
  unfold h3_recv.segments. generalize (length b). intros n. revert b. induction n as [|n IH]; intros b Hb; destruct b as [|x b]; cbn [h3_recv.segments_loop]; try constructor.
  - by apply Forall_take.
  - apply IH. by apply Forall_drop.
Qed.
Lemma decode_octets b r : bytes_ok b → h3_recv.decode b = Some r → bytes_ok (h3_recv.payload r).
Proof.
  intros Hb. unfold h3_recv.decode. intros (x & _ & Hr)%bind_Some. destruct (_ || _); [done|]. apply bind_Some in Hr as (size & _ & [= <-]). cbn. by apply Forall_drop.
Qed.

Lemma received_kept at_ res bid o l : kept true o l → run (received at_ res bid) l (λ broken l', kept (negb broken) o l').
Proof.
  intros Hk. assert (∀ b, kept true o l → kept (negb b) o l) as Hweak by (intros [] [? ?]; split; [by eapply conn_inv_weak|..]; done).
  unfold received. destruct (_ <? _); [by apply run_ret, Hweak|]. destruct bid as [bid|]; [|by apply run_ret, (Hweak true)]. apply run_get.
  unfold run. eapply sat_bind; [apply (sat_lift _ _ (λ _ l', l' = l)); done|]. cbv beta. intros _ l0 ->.
  destruct (h3_recv.decode _) as [r|] eqn:Ed; [|by apply sat_ret, (Hweak true)].
  apply decode_octets in Ed; [|apply Forall_take, buffer_octets].
  eapply run_bind; [apply (run_still true o); [apply count_received_still|done]|]. cbv beta. intros _ l1 [Hk1 _]. apply run_me.
  eapply (run_bind _ _ _ (λ broken l', kept (negb broken) o l')).
  - destruct (quic (self l1)); [apply handle_all_kept; [by apply segments_octets|done]|by apply run_ret].
  - cbv beta. intros [] l2 Hk2; [by apply run_ret|]. eapply sat_run; [reflexivity|]. apply run_ret. eapply kept_still; [exact Hk2|by split].
Qed.
Lemma complete_kept at_ cqe o l : kept true o l → run (complete at_ cqe) l (λ broken l', kept (negb broken) o l').
Proof.
  intros Hk. unfold complete. eapply (run_bind _ _ _ (λ _ l', kept true o l')); [apply kept_quiet; [stays|done]|]. cbv beta. intros _ l1 Hk1.
  eapply run_bind; [by apply received_kept|]. cbv beta. intros broken l2 Hk2. eapply run_bind; [by apply kept_quiet; [apply recycle_still|]|]. cbv beta. intros _ l3 Hk3. by apply run_ret.
Qed.
Lemma on_recv_kept i at_ cqe o l : kept true o l → run (on_recv i at_ cqe) l (λ broken l', kept (negb broken) o l').
Proof.
  intros Hk. unfold on_recv. eapply run_bind; [by apply complete_kept|]. cbv beta. intros broken l1 Hk1.
  eapply (run_bind _ _ _ (λ _ l', kept (negb broken) o l')); [apply kept_quiet; [|done]|cbv beta; intros _ l2 Hk2; by apply run_ret].
  destruct broken; cbn; [stays|apply arm_recv_still].
Qed.
Lemma on_send_kept i res b o l : kept b o l → run (on_send i res) l (λ _ l', kept b o l').
Proof.
  intros Hk. unfold on_send. eapply (run_bind _ _ _ (λ _ l', kept b o l')); [by apply kept_quiet; [stays|]|]. cbv beta. intros _ l1 Hk1.
  eapply (run_bind _ _ _ (λ _ l', kept b o l')); [|cbv beta; intros broken l2 Hk2; apply run_me; by apply run_ret].
  apply kept_quiet; [|done]. pose proof (push_front_send_still i). pose proof pop_front_still. pose proof (count_sent_still res). stays.
Qed.
Lemma on_cqe_kept i op gen at_ cqe o l : kept true o l →
  run (on_cqe target budget connect_timeout timeout gso patience i op gen at_ cqe) l (λ _ l', kept true o l').
Proof.
  intros Hk. unfold on_cqe. apply run_me. destruct (negb _).
  { apply kept_quiet; [|done]. pose proof (recycle_still (cqe_buffer cqe)). pose proof (retired_send_still (cqe_ud cqe) (cqe_result cqe)). stays. }
  eapply (run_bind _ _ _ (λ broken l', kept (negb broken) o l')).
  - destruct (_ =? _); [eapply run_mono; [by apply (on_send_kept i _ true)|]; cbv beta; intros [] l1 [? ?]; split; [by eapply conn_inv_weak|..]; done|].
    destruct (_ =? _); [by apply on_recv_kept|done].
  - cbv beta. intros [] l1 Hk1; cbn [when negb] in *; [by eapply begin_close_kept|by apply run_ret].
Qed.

(** ** Passes over the connections *)

Lemma kept_live o l : kept true o l → closing (self l) = None → is_Some (quic (self l)) → live o l.
Proof. by intros [? ?] ? ?. Qed.
Lemma turn_conn_kept i at_ o l : kept true o l → closing (self l) = None →
  run (turn_conn target budget connect_timeout timeout parallel gso patience i at_) l (λ _ l', kept true o l').
Proof.
  intros Hk Hcl. unfold turn_conn. eapply (run_bind _ _ _ (λ _ l', kept true o l')).
  - destruct (quic (self l)) as [q|] eqn:Hq; [|unfold run, sat, holds, drive; rewrite bind_run; unfold attempt, drive_body; rewrite h3_me_bind, Hq; done].
    eapply run_mono; [eapply sat_mono; [apply (drive_keeps target budget connect_timeout timeout parallel budget_fits o l); by apply kept_live; [|..|eexists]|intros a l' H1; exact H1|done]|].
    cbv beta. intros _ l1 []. done.
  - cbv beta. intros still l1 Hk1. eapply run_bind; [by apply pump_transmits_kept|]. cbv beta. intros _ l2 [Hk2 _].
    destruct still; cbn [when negb]; [by apply run_ret|by eapply begin_close_kept].
Qed.
Lemma expire_kept fuel : ∀ at_ q expired q' expired' next b c, expire fuel at_ q expired = Ok (q', expired', next) → in_use b c q → in_use b c q'.
Proof.
  induction fuel as [|fuel IH]; intros at_ q expired q' expired' next b c; cbn [expire]; (destruct (connection.poll_timeout q) as [d|]; [|by intros [= <- _ _]]);
    (destruct (d <=? at_); [|by intros [= <- _ _]]); [done|]. intros E Hu. eapply IH; [exact E|]. eapply in_use_aside; [exact Hu|apply aside_timeout|].
  intros Hb. split; [done|]. intros Hr. eapply (reached_act _ q (connection_run.Timeout at_)); [done|done|]. intros polled. by exists polled.
Qed.
Lemma service_kept i at_ wait o l : kept true o l →
  run (service target budget connect_timeout timeout parallel gso patience i at_ wait) l (λ _ l', kept true o l').
Proof.
  intros Hk. unfold service. apply run_me. destruct (closing (self l)) as [d|] eqn:Hcl.
  - destruct (_ <=? _); [|by apply run_ret]. eapply run_bind; [eapply finish_close_kept; [exact Hk|]|cbv beta; intros _ l1 Hk1; by apply run_ret].
    apply (c_closing _ _ _ (proj1 Hk)). by rewrite Hcl.
  - destruct (quic (self l)) as [q|] eqn:Hq; [|by apply run_ret].
    unfold run. eapply sat_bind; [apply (sat_lift _ _ (λ x l', l' = l ∧ expire TIMER_TURNS at_ q false = Ok x)); done|]. cbv beta.
    intros [[q' expired] next] l0 [-> E]. eapply sat_run; [reflexivity|]. set (l1 := l <| self := _ |>). cbv zeta.
    assert (kept true o l1) as Hk1.
    { destruct Hk as [Hc Hb]. split; [|by apply (h3_books_same budget o l)]. eapply conn_inv_quic; [exact Hc|exact Hq|]. eapply expire_kept; [exact E|by apply Hc]. }
    eapply (run_bind _ _ _ (λ _ l', kept true o l')); [destruct expired; cbn [when]; [by apply turn_conn_kept|by apply run_ret]|]. cbv beta. intros _ l2 Hk2. by apply run_ret.
Qed.
Lemma drive_pending_kept i at_ o l : kept true o l →
  run (drive_pending target budget connect_timeout timeout parallel gso patience i at_) l (λ _ l', kept true o l').
Proof.
  intros Hk. unfold drive_pending. apply run_me. eapply sat_run; [reflexivity|]. set (l1 := l <| self := _ |>). assert (kept true o l1) as Hk1 by (eapply kept_still; [exact Hk|by split]).
  destruct (closing (self l)) eqn:Hcl; rewrite ?andb_false_r, ?andb_true_r; [by apply run_ret|]. destruct (pending (self l)); cbn [when]; [by apply turn_conn_kept|by apply run_ret].
Qed.
Lemma check_timeout_kept i limit at_ o l : kept true o l →
  run (check_timeout target budget connect_timeout timeout gso patience i limit at_) l (λ _ l', kept true o l').
Proof.
  intros Hk. unfold check_timeout. apply run_me. destruct (timed_out _ _ _); cbn [when]; [|by apply run_ret].
  eapply (run_bind _ _ _ (λ _ l', kept true o l')).
  - destruct (quic (self l)) as [q|] eqn:Hq; [|by apply run_ret]. eapply sat_last; [by eapply on_quic_run|]. destruct Hk as [Hc Hb]. split; [|by apply (h3_books_same budget o l)].
    eapply conn_inv_quic; [exact Hc|exact Hq|]. apply close_in_use. by apply Hc.
  - cbv beta. intros _ l1 Hk1. eapply run_bind; [by apply pump_transmits_kept|]. cbv beta. intros _ l2 [Hk2 _]. by eapply begin_close_kept.
Qed.
End methods.
End http3_turn.
