(* ===== verification/Http3WorkerRing.v ===== *)
(** * Whose the memory is that the kernel reads and writes

    An io_uring operation is given addresses: the kernel reads the datagram of a
    send, and its message header, until the send has completed.  Here the
    operations outstanding in the history of an HTTP/3 worker are matched, one
    to one, with what the worker keeps for them: the front of the queue of a
    connection that is sending, or an entry of [retired]; the receive of a
    connection that has one armed, or one that was cancelled with its socket
    ([link], for the methods of one connection; [ledger], for the worker). *)

From S2P Require Import Prelude Effects Varint QuicPacket QuicRecovery QuicRecvStream QuicSendStream QuicStreams QuicConn Status Stats Inflight Target Requests H3Proto Uring UringRun UringConn Http3Recv Http3Worker.
From stdpp Require Import relations.
#[local] Open Scope Z_scope.

Module http3_ring.
Import uring uring_run uring_conn http3.

(** ** Histories only grow *)

Section growth.
Context `{RT : Rustls} `{ST : UnstableSort (Z * bytes)} `{KN : Kernel} `{RM : RecvMsg} `{EN : Entropy} {SocketAddr : Type}.
Variables (target : target.Target SocketAddr) (budget : budget.Budget) (connect_timeout : Z) (timeout : option Z) (parallel : nat) (gso : bool) (patience : nat).
Abbreviation grows m := (evolves (sgrows (S := Local (Conn (RT := RT)) Shared)) m).

Lemma h3_now_grows : grows now.
Proof. intros l. apply (reflexivity (world l)). Qed.
Lemma h3_update_stats_grows f : grows (update_stats f).
Proof. apply update_shared_sgrows. Qed.
Lemma h3_may_start_grows : grows (may_start budget).
Proof. intros l. apply (reflexivity (world l)). Qed.
Lemma h3_on_quic_grows {A} (m : eff (connection.Connection (RT := RT)) conn_streams.conn_error A) : grows (on_quic m).
Proof. unfold on_quic. grow_ring. Qed.
Lemma h3_on_streams_grows {A} (f : conn_streams.Streams → A * conn_streams.Streams) : grows (on_streams f).
Proof. apply h3_on_quic_grows. Qed.
Hint Resolve h3_now_grows h3_update_stats_grows h3_may_start_grows h3_on_quic_grows h3_on_streams_grows : rings.
Lemma h3_arm_recv_grows i : grows (arm_recv i).
Proof. unfold arm_recv, push_recvmsg_multi. grow_ring. Qed.
Lemma h3_close_grows i : grows (close i).
Proof. unfold close. grow_ring. Qed.
Lemma h3_push_front_send_grows i : grows (push_front_send i).
Proof. unfold push_front_send, push_send_slice. grow_ring. Qed.
Lemma h3_complete_retired_send_grows ud res : grows (complete_retired_send ud res).
Proof. unfold complete_retired_send. grow_ring. Qed.
Lemma h3_batch_loop_grows fuel : ∀ at_ max out size count, grows (batch_loop fuel at_ max out size count).
Proof. induction fuel as [|fuel IH]; intros at_ max out size count; cbn [batch_loop]; grow_ring. Qed.
Lemma h3_queue_batch_grows b : grows (queue_batch b).
Proof. destruct b as [[[out size] count] oversize]. unfold queue_batch. grow_ring. Qed.
Hint Resolve h3_arm_recv_grows h3_close_grows h3_push_front_send_grows h3_complete_retired_send_grows h3_batch_loop_grows h3_queue_batch_grows : rings.
Lemma h3_pump_transmits_grows i at_ : grows (pump_transmits gso i at_).
Proof. unfold pump_transmits. grow_ring. Qed.
Lemma h3_fail_inflight_grows : grows fail_inflight.
Proof. unfold fail_inflight. grow_ring. Qed.
Lemma h3_open_conn_grows i at_ : grows at_ → grows (open_conn target connect_timeout timeout gso i at_).
Proof. intros Hat. pose proof (h3_pump_transmits_grows i). unfold open_conn. pose proof make_socket_queues as Hm. apply queues_grows in Hm. grow_ring. Qed.
Hint Resolve h3_pump_transmits_grows h3_fail_inflight_grows h3_open_conn_grows : rings.
Lemma h3_finish_close_grows i : grows (finish_close target budget connect_timeout timeout gso patience i).
Proof. unfold finish_close. grow_ring. Qed.
Hint Resolve h3_finish_close_grows : rings.
Lemma h3_begin_close_grows i at_ : grows (begin_close target budget connect_timeout timeout gso patience i at_).
Proof. unfold begin_close. grow_ring. Qed.
Lemma h3_recycle_any_grows b : grows (recycle_any b).
Proof. unfold recycle_any, recycle. grow_ring. Qed.
Lemma h3_handle_all_grows at_ ds : grows (handle_all at_ ds).
Proof. induction ds as [|d ds IH]; cbn [handle_all]; grow_ring. Qed.
Hint Resolve h3_begin_close_grows h3_recycle_any_grows h3_handle_all_grows : rings.
Lemma h3_received_grows at_ res bid : grows (received at_ res bid).
Proof. unfold received. grow_ring. Qed.
Hint Resolve h3_received_grows : rings.
Lemma h3_on_recv_grows i at_ cqe : grows (on_recv i at_ cqe).
Proof. unfold on_recv, complete. grow_ring. Qed.
Lemma h3_on_send_grows i res : grows (on_send i res).
Proof. unfold on_send, pop_front. grow_ring. Qed.
Hint Resolve h3_on_recv_grows h3_on_send_grows : rings.
Lemma h3_on_cqe_grows i op gen at_ cqe : grows (on_cqe target budget connect_timeout timeout gso patience i op gen at_ cqe).
Proof. unfold on_cqe. grow_ring. Qed.
Lemma h3_say_goodbye_grows i at_ : grows (say_goodbye i at_).
Proof. unfold say_goodbye. grow_ring. Qed.
Lemma h3_last_cqe_grows gen cqe : grows (last_cqe gen cqe).
Proof. unfold last_cqe, pop_front. grow_ring. Qed.
End growth.
#[export] Hint Resolve h3_now_grows h3_update_stats_grows h3_may_start_grows h3_on_quic_grows h3_on_streams_grows h3_arm_recv_grows h3_close_grows h3_push_front_send_grows
  h3_complete_retired_send_grows h3_batch_loop_grows h3_queue_batch_grows h3_pump_transmits_grows h3_fail_inflight_grows h3_open_conn_grows h3_finish_close_grows
  h3_begin_close_grows h3_recycle_any_grows h3_handle_all_grows h3_received_grows h3_on_recv_grows h3_on_send_grows h3_on_cqe_grows h3_say_goodbye_grows h3_last_cqe_grows : rings.

Lemma wok_last {S} `{OnRing S} {A} (m : eff S error A) s a s' (Q : A → S → Prop) : m s = (Ok a, s') → Q a s' → wok m s Q.
Proof. intros Hm HQ. unfold wok, holds. by rewrite Hm. Qed.

(** ** What stays away from the ring *)

Section offline.
Context `{RT : Rustls} `{ST : UnstableSort (Z * bytes)} `{KN : Kernel} `{RM : RecvMsg} `{EN : Entropy} {SocketAddr : Type}.
Variables (target : target.Target SocketAddr) (budget : budget.Budget) (connect_timeout : Z) (timeout : option Z) (parallel : nat) (gso : bool) (patience : nat).
Abbreviation L := (Local (Conn (RT := RT)) Shared).
Abbreviation M := (eff L error).

Record offline (l l' : L) : Prop := {
  f_world : world l' = world l;
  f_fd : fd (self l') = fd (self l);
  f_queue : out_queue (self l') = out_queue (self l);
  f_sending : sending (self l') = sending (self l);
  f_armed : recv_armed (self l') = recv_armed (self l);
  f_generation : generation (self l') = generation (self l);
  f_retired : retired (shared l') = retired (shared l);
  f_stop : stop (shared l') = stop (shared l);
  f_closing : closing (self l') = closing (self l);
  f_present : quic (self l') = None ↔ quic (self l) = None;
}.
#[global] Instance offline_preorder : PreOrder offline.
Proof. split; [by intros l; split|]. intros a b c [] []. split; [congruence..|]. by rewrite f_present1. Qed.
Abbreviation off m := (evolves offline m).

Lemma off_me : off me.
Proof. by intros l. Qed.
Lemma off_now : off now.
Proof. by intros l. Qed.
Lemma off_update_stats f : off (update_stats f).
Proof. intros l. by split. Qed.
Lemma off_may_start : off (may_start budget).
Proof. by intros l. Qed.
Lemma off_attempt {A} (m : M A) : off m → off (attempt m).
Proof. intros Hm l. specialize (Hm l). unfold attempt. by destruct (m l) as [[a|[]] l']. Qed.
Lemma off_for_each {A} (l : list A) (body : A → M unit) : (∀ x, off (body x)) → off (for_each l body).
Proof. intros Hb. apply evolves_for_each; [apply _|done]. Qed.
#[local] Hint Resolve off_me off_now off_update_stats off_may_start off_attempt off_for_each : rings.
Ltac offs := repeat (progress evolve || case_bool_decide); eauto with rings; try (intros ?; by split).

Lemma off_on_quic {A} (m : eff (connection.Connection (RT := RT)) conn_streams.conn_error A) : off (on_quic m).
Proof.
  intros l. unfold on_quic. rewrite bind_run. cbn [me get mret eff_ret bind_run]. unfold me. rewrite bind_run. cbn [get mret eff_ret].
  destruct (quic (self l)) as [q|] eqn:Hq; [|done]. destruct (m q) as [r q']. rewrite bind_run. cbn. destruct r; (split; try done; cbn; by rewrite Hq).
Qed.
Lemma off_on_streams {A} (f : conn_streams.Streams → A * conn_streams.Streams) : off (on_streams f).
Proof. apply off_on_quic. Qed.
#[local] Hint Resolve off_on_quic off_on_streams : rings.
Lemma off_fail_inflight : off fail_inflight.
Proof. unfold fail_inflight. offs. Qed.
Lemma off_open_unis n : off (open_unis n).
Proof. induction n as [|n IH]; cbn [open_unis]; offs. Qed.
Lemma off_flush_preludes ps : off (flush_preludes ps).
Proof. induction ps as [|[[id p] d] ps IH]; cbn [flush_preludes]; offs. Qed.
#[local] Hint Resolve off_open_unis off_flush_preludes : rings.
Lemma off_init_flush init : off (init_flush init).
Proof. unfold init_flush. offs. Qed.
Lemma off_give_back : off (give_back parallel).
Proof. unfold give_back. offs. Qed.
#[local] Hint Resolve off_init_flush off_give_back : rings.
Lemma off_give_back_times n : off (give_back_times parallel n).
Proof. induction n as [|n IH]; cbn [give_back_times]; offs. Qed.
#[local] Hint Resolve off_give_back_times : rings.
Lemma off_judge b : off (judge parallel b).
Proof. unfold judge. offs. Qed.
Lemma off_flush_unsent : off flush_unsent.
Proof. unfold flush_unsent. offs. Qed.
Lemma off_open_streams fuel : off (open_streams target budget parallel fuel).
Proof. induction fuel as [|fuel IH]; cbn [open_streams]; offs. Qed.
#[local] Hint Resolve off_open_streams : rings.
Lemma off_fill_streams : off (fill_streams target budget parallel).
Proof. unfold fill_streams. offs. Qed.
Lemma off_record_success st since : off (record_success st since).
Proof. unfold record_success. offs. Qed.
Lemma off_on_event e d : off (on_event e d).
Proof. destruct e; cbn [on_event]; unfold init_new; offs. Qed.
#[local] Hint Resolve off_on_event off_record_success : rings.
Lemma off_on_events fuel : ∀ d, off (on_events fuel d).
Proof. induction fuel as [|fuel IH]; intros d; cbn [on_events]; offs. Qed.
Lemma off_consume {R} (feed : R → bytes → res R) r id : off (consume feed r id).
Proof.
  intros l. unfold consume. rewrite bind_run. unfold me. rewrite bind_run. cbn [get mret eff_ret]. destruct (quic (self l)) as [q|] eqn:Hq; [|done].
  rewrite bind_run. destruct (conn_streams.consume _ _ _) as [[n s]|e]; [|done]. cbn [lift]. rewrite bind_run. cbn [update modify]. unfold update. cbn [modify].
  set (l1 := l <| self := _ |>). assert (offline l l1) as H1 by (split; try done; cbn; by rewrite Hq).
  destruct (conn_streams.recv_mut _ _) as [[stream put]|]; [|done]. by destruct (_ =? _)%nat.
Qed.
#[local] Hint Resolve off_consume : rings.
Lemma off_read_stream id : off (read_stream id).
Proof. unfold read_stream. offs. Qed.
Lemma off_take_stream id : off (take_stream id).
Proof. unfold take_stream. offs. Qed.
Lemma off_retire_stream id : off (retire_stream id).
Proof. apply off_on_streams. Qed.
#[local] Hint Resolve off_take_stream off_retire_stream : rings.
Lemma off_finish_stream f : off (finish_stream parallel f).
Proof. destruct f as [id reset]. unfold finish_stream. offs. Qed.
Lemma off_give_up_stream id : off (give_up_stream parallel id).
Proof. unfold give_up_stream. offs. Qed.
#[local] Hint Resolve off_finish_stream off_give_up_stream off_read_stream off_judge off_flush_unsent off_fill_streams off_on_events : rings.
Lemma off_on_goaway b : off (on_goaway parallel b).
Proof. unfold on_goaway. offs. Qed.
#[local] Hint Resolve off_on_goaway : rings.
Lemma off_drive_body : off (drive_body target budget parallel).
Proof. unfold drive_body. offs. Qed.
Lemma off_drive : off (drive target budget parallel).
Proof. pose proof off_drive_body. unfold drive. offs. Qed.
Lemma off_batch_loop fuel : ∀ at_ max out size count, off (batch_loop fuel at_ max out size count).
Proof. induction fuel as [|fuel IH]; intros at_ max out size count; cbn [batch_loop]; offs. Qed.
Lemma off_handle_all at_ ds : off (handle_all at_ ds).
Proof. induction ds as [|d ds IH]; cbn [handle_all]; offs. Qed.
#[local] Hint Resolve off_handle_all : rings.
Lemma off_received at_ res bid : off (received at_ res bid).
Proof. unfold received. offs. Qed.
End offline.

(** ** The operations of one connection *)

(** What is pushed for a datagram. *)
Definition send_entry (i : nat) (ud : Z) (d : Datagram) : Entry :=
  if (0 <? segment_size d)%nat then SendMsg i ud (buf d) (u16 (Z.of_nat (segment_size d))) else Send i ud (buf d).
Lemma send_entry_ud i ud d : entry_ud (send_entry i ud d) = ud.
Proof. unfold send_entry. by destruct (_ <? _)%nat. Qed.
Definition is_send (e : Entry) : bool := match e with Send _ _ _ | SendMsg _ _ _ _ => true | _ => false end.
Lemma send_entry_send i ud d : is_send (send_entry i ud d) = true.
Proof. unfold send_entry. by destruct (_ <? _)%nat. Qed.

(** Taking the one entry with an id off the list. *)
Lemma remove_ud_perm es e es' : es ≡ₚ e :: es' → NoDup (entry_ud <$> es) → remove_ud (entry_ud e) es ≡ₚ es'.
Proof.
  revert es'. induction es as [|x es IH]; intros es' Hp Hnd; [by apply Permutation_nil_l in Hp|]. cbn in *. apply NoDup_cons in Hnd as [Hx Hnd].
  destruct (Z.eqb_spec (entry_ud x) (entry_ud e)) as [Heq|Hne].
  - assert (e ∈ x :: es) as [->|Hin]%elem_of_cons by (rewrite Hp; by left); [by apply Permutation_cons_inv in Hp|].
    exfalso. apply Hx. rewrite Heq. by apply (list_elem_of_fmap_2 entry_ud).
  - assert (x ∈ e :: es') as [->|Hin]%elem_of_cons by (rewrite <- Hp; by left); [done|]. apply elem_of_Permutation in Hin as [es'' Hes'']. rewrite Hes''.
    constructor. apply IH; [|done]. rewrite Hes'' in Hp. rewrite (Permutation_swap x e) in Hp. by apply Permutation_cons_inv in Hp.
Qed.
Lemma swap_remove_perm {A} (l : list A) i x : l !! i = Some x → l ≡ₚ x :: swap_remove i l.
Proof.
  intros Hi. unfold swap_remove. destruct (last l) as [y|] eqn:Hl; [|apply last_None in Hl; by subst]. apply last_Some in Hl as [l' ->].
  rewrite length_app. cbn. replace (length l' + 1 - 1)%nat with (length l') by lia. destruct (decide (i < length l')%nat) as [Hlt|Hge].
  - rewrite lookup_app_l in Hi by done. rewrite insert_app_l by done. rewrite take_app_length' by (by rewrite length_insert).
    rewrite <- (take_drop_middle l' i x Hi) at 1. rewrite (insert_take_drop l' i y) by (by eapply lookup_lt_Some). solve_Permutation.
  - rewrite lookup_app_r in Hi by lia. assert (i = length l') as ->; [|rewrite Nat.sub_diag in Hi; injection Hi as ->].
    { apply lookup_lt_Some in Hi. cbn in Hi. lia. }
    rewrite insert_app_r_alt by lia. rewrite take_app_length' by done. solve_Permutation.
Qed.

Section link.
Context `{RT : Rustls} `{ST : UnstableSort (Z * bytes)} `{KN : Kernel} `{RM : RecvMsg} `{EN : Entropy} {SocketAddr : Type}.
Variables (target : target.Target SocketAddr) (budget : budget.Budget) (connect_timeout : Z) (timeout : option Z) (parallel : nat) (gso : bool) (patience : nat).
Abbreviation L := (Local (Conn (RT := RT)) Shared).
Abbreviation M := (eff L error).
Abbreviation Conn := (Conn (RT := RT)).
Abbreviation events l := (hist (world l)).
Abbreviation ud i c op := (user_data i (generation c) op).

Definition mine (i : nat) (c : Conn) : list Entry :=
  (match out_queue c with d :: _ => if sending c then [send_entry i (ud i c OP_SEND) d] else [] | [] => [] end)
  ++ (if recv_armed c then [RecvMsgMulti i (ud i c OP_RECV)] else []).
(** The send of a connection that is gone. *)
Definition dead (r : Retired) : Entry := send_entry (decode_user_data (r_user_data r)).1.2 (r_user_data r) (r_datagram r).
(** A receive that went with its socket. *)
Definition stale (i : nat) (g : Z) (e : Entry) : Prop := ∃ g', 0 ≤ g' < g ∧ e = RecvMsgMulti i (user_data i g' OP_RECV).
(** An operation that is not of slot [i]. *)
Definition foreign (i : nat) (e : Entry) : Prop := ∀ g op, well_formed_id i g op → entry_ud e ≠ user_data i g op.

(** The operations outstanding, but for [gone], which has just completed: those
    of this connection, of connections that are gone, and the [others]. *)
Record link (gone others : list Entry) (past : nat → Z → Prop) (i : nat) (l : L) : Prop := {
  k_idx : Z.of_nat i < 2 ^ CONN_IDX_BITS;
  k_gen : 0 ≤ generation (self l) ≤ Z.of_nat (length (events l));
  k_front : sending (self l) = true → out_queue (self l) ≠ [];
  k_all : ∃ olds, gone ++ outstanding (events l) ≡ₚ mine i (self l) ++ (dead <$> retired (shared l)) ++ olds ++ others ∧
    Forall (stale i (generation (self l))) olds;
  k_others : Forall (foreign i) others;
  k_retired r : r ∈ retired (shared l) → ∃ j g, well_formed_id j g OP_SEND ∧ r_user_data r = user_data j g OP_SEND ∧
    (if decide (j = i) then g < generation (self l) else past j g);
  k_nodup : NoDup (entry_ud <$> gone ++ outstanding (events l));
}.

Lemma link_offline gone others past i l l' : link gone others past i l → offline l l' → link gone others past i l'.
Proof.
  intros [] [Ew _ Eq Es Ea Eg Er _ _ _]. split; rewrite ?Ew, ?Eq, ?Es, ?Eg, ?Er; try done. destruct k_all0 as (olds & Hp & Ho). exists olds.
  split; [|done]. rewrite Hp. unfold mine. by rewrite Eq, Es, Ea, Eg.
Qed.
Lemma link_good others past gone i l : link gone others past i l → sound (events l) → good_gen i (generation (self l)).
Proof. intros [] [_ Hn]. split; [done|lia]. Qed.

(** An operation of the connection is queued. *)
Lemma link_push others past i l c' w' e op :
  link [] others past i l → sound (hist w') → did [e] (events l) (hist w') → 0 ≤ op < 4 → entry_ud e = ud i (self l) op →
  mine i c' ≡ₚ e :: mine i (self l) → generation c' = generation (self l) → (sending c' = true → out_queue c' ≠ []) →
  Forall (λ x, entry_ud x ≠ entry_ud e) (mine i (self l)) →
  link [] others past i (l <| world := w' |> <| self := c' |>).
Proof.
  intros Hk Hs Hd Hop He Hm Hg Hf Hown. pose proof (sound_suffix _ _ (did_suffix _ _ _ Hd) Hs) as Hs0. pose proof (link_good _ _ _ _ _ Hk Hs0) as Hgood.
  pose proof (good_id _ _ _ Hgood Hop) as Hid. destruct Hk. destruct k_all0 as (olds & Hp & Ho). pose proof (did_outstanding _ _ _ Hd) as Eo. cbn in Eo, Hp.
  split; cbn; rewrite ?Hg, ?Eo; try done.
  - pose proof (suffix_length _ _ (did_suffix _ _ _ Hd)). lia.
  - exists olds. split; [|done]. cbn. rewrite Hm. cbn. by constructor.
  - constructor; [|done]. intros (x & Hx & Hin)%list_elem_of_fmap. rewrite Hp in Hin. rewrite !elem_of_app in Hin.
    destruct Hin as [Hin|[Hin|[Hin|Hin]]].
    + rewrite Forall_forall in Hown. by apply (Hown x Hin).
    + apply list_elem_of_fmap in Hin as (r & -> & Hr). destruct (k_retired0 r Hr) as (j & g & Hw & Hu & Hj). unfold dead in Hx. rewrite send_entry_ud, Hu, He in Hx.
      apply user_data_inj in Hx as (<- & <- & _); [|done..]. rewrite decide_True in Hj by done. lia.
    + rewrite Forall_forall in Ho. destruct (Ho x Hin) as (g' & Hg' & ->). cbn in Hx. rewrite He in Hx.
      apply user_data_inj in Hx as (_ & ? & _); [lia|done|]. destruct Hgood as [? ?]. split_and!; [done|lia|lia|done|done].
    + rewrite Forall_forall in k_others0. apply (k_others0 x Hin _ _ Hid). congruence.
Qed.
Lemma link_quiet gone others past i l w' : link gone others past i l → did [] (events l) (hist w') → link gone others past i (l <| world := w' |>).
Proof.
  intros [] Hd. pose proof (did_outstanding _ _ _ Hd) as Eo. cbn in Eo. split; cbn; rewrite ?Eo; try done. pose proof (suffix_length _ _ (did_suffix _ _ _ Hd)). lia.
Qed.
Lemma wok_quiet {A} (m : eff World error A) gone others past i l : queues m [] → link gone others past i l →
  wok (on_ring m) l (λ _ l', link gone others past i l' ∧ ∃ w', l' = l <| world := w' |> ∧ did [] (events l) (hist w')).
Proof. intros Hq Hk. apply wok_ring; [done|]. intros a w' _ Hd. split; [by apply link_quiet|by exists w']. Qed.
Lemma wok_offline {A} (m : M A) gone others past i l : evolves offline m → link gone others past i l → wok m l (λ _ l', link gone others past i l' ∧ offline l l').
Proof. intros Hm Hk. specialize (Hm l). unfold wok, holds. destruct (m l) as [[a|e] l']; [|done]. intros _. split; [by eapply link_offline|done]. Qed.

Lemma arm_recv_link others past i l : link [] others past i l →
  wok (arm_recv i) l (λ _ l', link [] others past i l' ∧ self l' = self l <| recv_armed := true |> ∧ shared l' = shared l).
Proof.
  intros Hk. unfold arm_recv. eapply wok_pure; [reflexivity|]. destruct (recv_armed (self l)) eqn:Ha; cbn [negb when].
  { apply wok_ret. intros _. split; [done|]. split; [|done]. destruct (self l). cbn in *. by subst. }
  unfold wok, holds. rewrite bind_run. unfold on_ring, push_recvmsg_multi. pose proof (push_sqe_queues (RecvMsgMulti i (ud i (self l) OP_RECV)) (world l)) as Hq.
  cbn [ring_of Local_ring]. destruct (push_sqe _ (world l)) as [[u|e] w']; [|done]. intros Hs. split; [|done].
  apply (link_push others past i l _ w' (RecvMsgMulti i (ud i (self l) OP_RECV)) OP_RECV); try done.
  - unfold mine. cbn. rewrite Ha. by rewrite app_nil_r, Permutation_app_comm.
  - by apply Hk.
  - unfold mine. rewrite Ha, app_nil_r. destruct (out_queue (self l)) as [|d q]; [done|]. destruct (sending (self l)); [|done]. constructor; [|done]. rewrite send_entry_ud. cbn.
    intros Heq. pose proof (link_good _ _ _ _ _ Hk (sound_suffix _ _ (did_suffix _ _ _ Hq) Hs)) as Hg.
    apply user_data_inj in Heq as (_ & _ & ?); [done|by apply good_id|by apply good_id].
Qed.
Lemma push_front_send_link others past i l : link [] others past i l → sending (self l) = false →
  wok (push_front_send i) l (λ _ l', link [] others past i l' ∧ self l' = self l <| sending := bool_decide (out_queue (self l) ≠ []) |> ∧ shared l' = shared l).
Proof.
  intros Hk Hsd. unfold push_front_send. eapply wok_pure; [reflexivity|]. destruct (out_queue (self l)) as [|d q] eqn:Eq.
  { apply wok_ret. intros _. split; [done|]. split; [|done]. destruct (self l). cbn in *. by subst. }
  eapply wok_pure; [reflexivity|]. set (l1 := l <| self := _ |>).
  assert (∀ m, m = push_sqe (send_entry i (ud i (self l) OP_SEND) d) →
    wok (on_ring m) l1 (λ _ l', link [] others past i l' ∧ self l' = self l <| sending := bool_decide (d :: q ≠ []) |> ∧ shared l' = shared l)) as Hgo.
  { intros m ->. unfold wok, holds, on_ring. pose proof (push_sqe_queues (send_entry i (ud i (self l) OP_SEND) d) (world l)) as Hq.
    change (ring_of l1) with (world l). destruct (push_sqe _ (world l)) as [[u|e] w']; [|done]. intros Hs. split; [|done].
    apply (link_push others past i l (self l1) w' (send_entry i (ud i (self l) OP_SEND) d) OP_SEND); try done.
    - apply send_entry_ud.
    - unfold mine. cbn. by rewrite Eq, Hsd.
    - cbn. by rewrite Eq.
    - unfold mine. rewrite Eq, Hsd. cbn. destruct (recv_armed (self l)); [|done]. constructor; [|done]. rewrite send_entry_ud. cbn.
      intros Heq. pose proof (link_good _ _ _ _ _ Hk (sound_suffix _ _ (did_suffix _ _ _ Hq) Hs)) as Hg.
      apply user_data_inj in Heq as (_ & _ & ?); [done|by apply good_id|by apply good_id]. }
  destruct (0 <? segment_size d)%nat eqn:Es; apply Hgo; unfold send_entry; by rewrite Es.
Qed.

(** *** Sending *)

Lemma update_link gone others past i l c' :
  link gone others past i l → generation c' = generation (self l) → mine i c' = mine i (self l) → (sending c' = true → out_queue c' ≠ []) →
  link gone others past i (l <| self := c' |>).
Proof. intros [] Hg Hm Hf. split; cbn; rewrite ?Hg, ?Hm; done. Qed.
Lemma update_shared_link gone others past i l x : link gone others past i l → retired x = retired (shared l) → link gone others past i (l <| shared := x |>).
Proof. intros [] Hr. split; cbn; rewrite ?Hr; done. Qed.
Lemma enqueue_link others past i l ds : link [] others past i l → link [] others past i (l <| self := self l <| out_queue := out_queue (self l) ++ ds |> |>).
Proof.
  intros Hk. pose proof (k_front _ _ _ _ _ Hk) as Hf. apply update_link; [done|done| |].
  - unfold mine. cbn. destruct (out_queue (self l)) as [|d q]; [|done]. cbn. destruct (sending (self l)); [by destruct (Hf eq_refl)|]. by destruct ds.
  - cbn. intros Hs%Hf. destruct (out_queue (self l)); done.
Qed.

(** What sending leaves as it was. *)
Record flows (l l' : L) : Prop := {
  w_fd : fd (self l') = fd (self l);
  w_armed : recv_armed (self l') = recv_armed (self l);
  w_closing : closing (self l') = closing (self l);
  w_present : quic (self l') = None ↔ quic (self l) = None;
  w_stop : stop (shared l') = stop (shared l);
}.
#[global] Instance flows_preorder : PreOrder flows.
Proof. split; [by intros l; split|]. intros a b c [] []. split; [congruence..|by rewrite w_present1|congruence]. Qed.
Lemma offline_flows l l' : offline l l' → flows l l'.
Proof. by intros []. Qed.

Lemma queue_batch_link others past i b l : link [] others past i l →
  wok (queue_batch b) l (λ _ l', link [] others past i l' ∧ flows l l' ∧ sending (self l') = sending (self l)).
Proof.
  intros Hk. destruct b as [[[out size] count] oversize]. unfold queue_batch.
  assert (∀ l0, link [] others past i l0 → ∀ ds, let l1 := l0 <| self := self l0 <| out_queue := out_queue (self l0) ++ ds |> |> in link [] others past i l1 ∧ flows l0 l1 ∧ sending (self l1) = sending (self l0)) as Hq
    by (intros l0 Hk0 ds; split; [by apply enqueue_link|by split]).
  eapply (wok_bind _ _ _ (λ _ l', link [] others past i l' ∧ flows l l' ∧ sending (self l') = sending (self l))); [|intros; grow_ring|].
  - case_bool_decide; [by apply wok_ret|]. eapply wok_last; [reflexivity|]. by apply Hq.
  - intros _ l1 _ (Hk1 & Hf1 & Hs1). destruct oversize as [b|]; [|by apply wok_ret]. eapply wok_last; [reflexivity|]. destruct (Hq l1 Hk1 [mkDatagram b 0]) as (? & ? & ?).
    split; [done|]. split; [by etrans|congruence].
Qed.
Lemma pump_transmits_link others past i at_ l : link [] others past i l →
  wok (pump_transmits gso i at_) l (λ _ l', link [] others past i l' ∧ flows l l' ∧ (out_queue (self l') ≠ [] → sending (self l') = true)).
Proof.
  intros Hk. unfold pump_transmits. eapply wok_pure; [reflexivity|].
  eapply (wok_bind _ _ _ (λ _ l', link [] others past i l' ∧ flows l l' ∧ sending (self l') = sending (self l))); [|intros; grow_ring|].
  - destruct (quic (self l)); [|by apply wok_ret]. cbv zeta. eapply wok_bind; [apply wok_offline; [apply off_batch_loop|done]|intros; grow_ring|].
    intros b l1 _ [Hk1 Ho1]. eapply wok_mono; [by apply queue_batch_link|]. cbv beta. intros _ l2 _ (? & ? & Hs2). split; [done|]. split; [etrans; [by apply offline_flows|done]|].
    rewrite Hs2. apply Ho1.
  - intros _ l1 _ (Hk1 & Hf1 & Hs1). eapply wok_pure; [reflexivity|]. destruct (sending (self l1)) eqn:Hs; [by apply wok_ret|].
    eapply wok_mono; [by apply push_front_send_link|]. cbv beta. intros _ l2 _ (? & Es & Eh). split; [done|].
    split; [etrans; [exact Hf1|split; rewrite ?Es, ?Eh; done]|]. rewrite Es. cbn. intros Hne. by apply bool_decide_eq_true.
Qed.

(** *** Closing *)

(** An empty slot. *)
Record vacant (c : Conn) : Prop := {
  v_quic : quic c = None;
  v_closing : closing c = None;
  v_sending : sending c = false;
  v_armed : recv_armed c = false;
  v_queue : out_queue c = [];
}.
Lemma close_link others past i l : link [] others past i l → 0 ≤ fd (self l) →
  wok (close i) l (λ _ l', link [] others past i l' ∧ vacant (self l') ∧ stop (shared l') = stop (shared l)).
Proof.
  intros Hk Hfd. apply wok_sound; [grow_ring|]. intros Hs0. pose proof (link_good _ _ _ _ _ Hk Hs0) as Hgood. unfold close. eapply wok_pure; [reflexivity|].
  rewrite (proj2 (Z.leb_le _ _) Hfd). cbn [when].
  set (sent := match out_queue (self l) with d :: _ => if sending (self l) then [d] else [] | [] => [] end).
  eapply (wok_pure _ _ _ tt (l <| self := self l <| out_queue := if sending (self l) then tail (out_queue (self l)) else out_queue (self l) |> |>
    <| shared := shared l <| retired := retired (shared l) ++ (mkRetired (ud i (self l) OP_SEND) <$> sent) |> |>)).
  { unfold sent. clear. destruct l as [w [? ? ? ? ? ? ? q s] x]. cbn. destruct s, q; cbn; rewrite ?app_nil_r; by destruct x. }
  unfold wok, holds. cbn. intros Hs. split; [|split; [by split|done]]. destruct Hk. destruct k_all0 as (olds & Hp & Ho).
  pose proof (suffix_length _ _ (ltac:(by exists [Closed (fd (self l))]) : events l `suffix_of` Closed (fd (self l)) :: events l)) as Hlen. cbn in Hlen.
  destruct Hs0 as [_ Hn]. cbn in Hn. assert (next_generation (generation (self l)) = generation (self l) + 1) as Eg by (apply next_generation_small; lia).
  split; cbn; rewrite ?Eg; try done.
  - lia.
  - exists ((if recv_armed (self l) then [RecvMsgMulti i (ud i (self l) OP_RECV)] else []) ++ olds). split.
    + cbn in Hp. rewrite Hp. unfold mine. cbn. rewrite fmap_app, <- list_fmap_compose.
      assert (dead ∘ mkRetired (ud i (self l) OP_SEND) <$> sent = match out_queue (self l) with d :: _ => if sending (self l) then [send_entry i (ud i (self l) OP_SEND) d] else [] | [] => [] end) as ->.
      { unfold sent. destruct (out_queue (self l)) as [|d q]; [done|]. destruct (sending (self l)); [|done]. cbn. unfold dead. cbn -[decode_user_data].
        destruct Hgood as [? ?]. rewrite decode_user_data_encoded; [done|done|lia|done]. }
      solve_Permutation.
    + apply Forall_app. split; [destruct (recv_armed (self l)); [|done]; constructor; [|done]; exists (generation (self l)); split; [lia|done]|].
      eapply Forall_impl; [exact Ho|]. intros e (g' & ? & ->). exists g'. split; [lia|done].
  - intros r. rewrite elem_of_app. intros [Hr|Hr].
    + destruct (k_retired0 r Hr) as (j & g & ? & ? & Hj). exists j, g. split_and!; try done. case_decide; [lia|done].
    + apply list_elem_of_fmap in Hr as (d & -> & _). exists i, (generation (self l)). split_and!; [by apply good_id|done|]. rewrite decide_True by done. lia.
Qed.

(** A slot is empty, or its socket is listened to and what is queued is being
    sent; a connection that closes waits for a send. *)
Definition attentive (c : Conn) : Prop :=
  match quic c with
  | None => vacant c
  | Some _ => 0 ≤ fd c ∧ match closing c with
                         | Some _ => sending c = true
                         | None => recv_armed c = true ∧ (out_queue c ≠ [] → sending c = true)
                         end
  end.
Definition tended (others : list Entry) (past : nat → Z → Prop) (i : nat) (b : bool) (l : L) : Prop :=
  link [] others past i l ∧ attentive (self l) ∧ stop (shared l) = b.
(** While there is something to start, the slot is in use; or nothing has
    changed that matters. *)
Definition cared (l : L) : Prop := quic (self l) ≠ None ∨ stop (shared l) = true ∨ budget.may_start budget (started (shared l)) = false.
Definition care (l l' : L) : Prop := cared l' ∨ (quic (self l) = None ∧ started (shared l') = started (shared l)).
Lemma care_refl l : care l l.
Proof. unfold care, cared. destruct (quic (self l)); [by left; left|by right]. Qed.
Lemma vacant_attentive c : vacant c → attentive c.
Proof. intros Hv. unfold attentive. by rewrite (v_quic _ Hv). Qed.
Lemma flows_attentive l l' : attentive (self l) → quic (self l) ≠ None → closing (self l) = None → flows l l' → (out_queue (self l') ≠ [] → sending (self l') = true) → attentive (self l').
Proof.
  unfold attentive. intros Ha Hq Hc [Hf Hr Hcl Hp _] Hs. destruct (quic (self l)) eqn:Eq; [|done]. destruct (quic (self l')) eqn:Eq'; [|by destruct (proj1 Hp)].
  rewrite Hcl, Hf, Hr, Hc in *. by destruct Ha as (? & ? & _).
Qed.

Lemma open_conn_link others past i at_ l : link [] others past i l → vacant (self l) → (∀ l, ∃ t, at_ l = (Ok t, l)) →
  wok (open_conn target connect_timeout timeout gso i at_) l (λ _ l', tended others past i (stop (shared l)) l' ∧ quic (self l') ≠ None).
Proof.
  intros Hk Hv Hat. unfold open_conn.
  assert (evolves (sgrows (S := L)) at_) as Hga by (intros l0; destruct (Hat l0) as [t ->]; done).
  eapply (wok_bind _ _ _ (λ f l', link [] others past i l' ∧ 0 ≤ f ∧ ∃ w', l' = l <| world := w' |>)); [|intros; grow_ring|].
  { unfold wok, holds, on_ring, make_socket. rewrite bind_run. cbn [get]. rewrite bind_run. cbn [log modify ring_of Local_ring].
    destruct (k_socket (world l)) as [f|e]; [|done]. cbn. intros [[Hf _] _]. split; [|split; [done|by eexists]]. apply link_quiet; [done|]. by apply did_neutral. }
  intros f l1 _ (Hk1 & Hf & w1 & ->). eapply wok_pure; [reflexivity|].
  eapply wok_bind; [eapply wok_quiet; [apply register_files_update_queues|]; apply update_link; [exact Hk1|done|done|cbn; by rewrite (v_sending _ Hv)]|intros; grow_ring|].
  cbv beta. intros _ l2 _ (Hk2 & w2 & -> & _). edestruct Hat as [t Et]. eapply wok_pure; [exact Et|]. eapply wok_pure; [reflexivity|].
  destruct (entropy _) as [r1 r2]. unfold wok, holds. rewrite bind_run. destruct (connection.connect _ _ _ _) as [q|e]; [|done]. cbn [lift].
  match goal with |- match ?m ?s with _ => _ end => change (wok m s (λ _ l', tended others past i (stop (shared l)) l' ∧ quic (self l') ≠ None)) end.
  eapply wok_pure; [reflexivity|]. match goal with |- wok _ ?x _ => set (l3 := x) end.
  assert (link [] others past i l3) as Hk3 by (apply update_link; [exact Hk2|done|done|cbn; by rewrite (v_sending _ Hv)]).
  eapply wok_bind; [by apply arm_recv_link|intros; grow_ring|]. cbv beta. intros _ l4 _ (Hk4 & E4 & Es4).
  eapply wok_mono; [by apply pump_transmits_link|]. cbv beta. intros _ l5 _ (Hk5 & Hf5 & Hq5). split; [|rewrite (w_present _ _ Hf5), E4; done]. split; [done|]. split; [|rewrite (w_stop _ _ Hf5), Es4; done].
  eapply (flows_attentive l4 l5); try done; [|by rewrite E4|by rewrite E4; apply Hv]. unfold attentive. rewrite E4. cbn. rewrite (v_closing _ Hv).
  split; [done|]. split; [done|]. by rewrite (v_queue _ Hv).
Qed.

Lemma finish_close_link others past i l : link [] others past i l → 0 ≤ fd (self l) →
  wok (finish_close target budget connect_timeout timeout gso patience i) l (λ _ l', tended others past i (stop (shared l)) l' ∧ cared l').
Proof.
  intros Hk Hfd. unfold finish_close. eapply wok_bind; [eapply wok_quiet; [apply drain_sq_queues|exact Hk]|intros; grow_ring|].
  cbv beta. intros _ l1 _ (Hk1 & w1 & -> & _). eapply wok_pure; [reflexivity|].
  eapply (wok_bind _ _ _ (λ _ l', link [] others past i l' ∧ ∃ w', l' = l <| world := w' |>)); [|intros; grow_ring|].
  { cbn [self]. destruct (recv_armed _); cbn [when]; [|apply wok_ret; intros _; split; [done|by eexists]].
    eapply wok_mono; [eapply wok_quiet; [apply sync_cancel_queues|exact Hk1]|]. cbv beta. intros _ l2 _ (Hk2 & w2 & -> & _). split; [done|by exists w2]. }
  cbv beta. intros _ l2 _ (Hk2 & w2 & ->). eapply wok_bind; [by apply close_link|intros; grow_ring|]. cbv beta. intros _ l3 _ (Hk3 & Hv3 & Hs3).
  change (shared (l <| world := w2 |>)) with (shared l) in Hs3. rewrite <- Hs3. eapply wok_pure; [reflexivity|]. destruct (_ || _) eqn:Hms.
  - eapply wok_mono; [eapply wok_quiet; [apply register_files_update_queues|exact Hk3]|]. cbv beta. intros _ l4 _ (Hk4 & w4 & -> & _).
    split; [split; [done|]; split; [by apply vacant_attentive|done]|]. apply orb_prop in Hms as [?|?%negb_true_iff]; [by right; left|by right; right].
  - eapply wok_mono; [apply open_conn_link; [done|done|]; intros l0; by eexists|]. cbv beta. intros _ l4 _ [? ?]. split; [done|by left].
Qed.

Lemma begin_close_link others past i at_ l : link [] others past i l → 0 ≤ fd (self l) → quic (self l) ≠ None →
  wok (begin_close target budget connect_timeout timeout gso patience i at_) l (λ _ l', tended others past i (stop (shared l)) l' ∧ cared l').
Proof.
  intros Hk Hfd Hq. unfold begin_close. eapply wok_pure; [reflexivity|].
  eapply (wok_bind _ _ _ (λ _ l', link [] others past i l' ∧ fd (self l') = fd (self l) ∧ closing (self l') ≠ None ∧ quic (self l') ≠ None ∧ stop (shared l') = stop (shared l))); [|intros; grow_ring|].
  - destruct (closing (self l)) eqn:Hcl; [apply wok_ret; intros _; split_and!; congruence || done|].
    eapply wok_bind; [eapply wok_offline; [|exact Hk]|intros; grow_ring|].
    + pose proof (off_fail_inflight (RT := RT)). pose proof (off_may_start (RT := RT) budget). destruct (h3_ready (self l)); [done|].
      apply evolves_bind; [apply _|done|]. intros []; cbn [when]; intros l0; by split.
    + cbv beta. intros _ l1 _ (Hk1 & Ho). eapply wok_last; [reflexivity|]. split; [apply update_link; [done|done|done|apply Hk1]|]. cbn. split_and!; [apply Ho|done| |apply Ho].
      intros Hn. by apply (f_present _ _ Ho) in Hn.
  - cbv beta. intros _ l1 _ (Hk1 & Hf1 & Hc1 & Hq1 & Hs1). rewrite <- Hs1. eapply wok_pure; [reflexivity|]. destruct (sending (self l1)) eqn:Hsd.
    + apply wok_ret. intros _. split; [|by left]. split; [done|]. split; [|done]. unfold attentive. destruct (quic (self l1)); [|done]. split; [lia|]. by destruct (closing (self l1)).
    + apply finish_close_link; [done|lia].
Qed.

(** *** Completions *)

(** What has completed is no longer the connection's, or was no more. *)
Lemma link_done others past i l c' e :
  link [e] others past i l → generation c' = generation (self l) → mine i (self l) ≡ₚ e :: mine i c' → (sending c' = true → out_queue c' ≠ []) →
  link [] others past i (l <| self := c' |>).
Proof.
  intros [] Hg Hm Hf. destruct k_all0 as (olds & Hp & Ho). split; cbn; rewrite ?Hg; try done.
  - exists olds. split; [|done]. rewrite Hm in Hp. cbn in *. by apply Permutation_cons_inv in Hp.
  - cbn in k_nodup0. by apply NoDup_cons in k_nodup0 as [_ ?].
Qed.
Lemma link_forget others past i l e : link [e] others past i l → sound (events l) → (∃ g, entry_ud e = user_data i g OP_RECV ∧ well_formed_id i g OP_RECV ∧ g ≠ generation (self l)) →
  link [] others past i l.
Proof.
  intros Hk Hs (g & He & Hid & Hne). pose proof (link_good _ _ _ _ _ Hk Hs) as Hgood. destruct Hk. destruct k_all0 as (olds & Hp & Ho).
  assert (e ∈ olds) as Hin.
  { assert (e ∈ [e] ++ outstanding (events l)) as Hin by (cbn; by left). rewrite Hp, !elem_of_app in Hin. destruct Hin as [Hin|[Hin|[?|Hin]]]; [|..|done|]; exfalso.
    - unfold mine in Hin. apply elem_of_app in Hin as [Hin|Hin].
      + destruct (out_queue (self l)) as [|d q]; [by apply not_elem_of_nil in Hin|]. destruct (sending (self l)); [|by apply not_elem_of_nil in Hin].
        apply list_elem_of_singleton in Hin as ->. rewrite send_entry_ud in He. apply user_data_inj in He as (_ & ? & _); [done|by apply good_id|done].
      + destruct (recv_armed (self l)); [|by apply not_elem_of_nil in Hin]. apply list_elem_of_singleton in Hin as ->. cbn in He.
        apply user_data_inj in He as (_ & ? & _); [done|by apply good_id|done].
    - apply list_elem_of_fmap in Hin as (r & -> & Hr). destruct (k_retired0 r Hr) as (j & g' & Hid' & Hu & _). unfold dead in He. rewrite send_entry_ud, Hu in He.
      apply user_data_inj in He as (_ & _ & ?); done.
    - rewrite Forall_forall in k_others0. by apply (k_others0 e Hin g OP_RECV). }
  apply elem_of_Permutation in Hin as [olds' Hin]. rewrite Hin in Hp, Ho. apply Forall_cons in Ho as [_ Ho]. split; try done.
  - exists olds'. split; [|done]. cbn in *. apply (Permutation_cons_inv (a := e)). rewrite Hp. solve_Permutation.
  - cbn in k_nodup0. by apply NoDup_cons in k_nodup0 as [_ ?].
Qed.
(** Whose the operation with this id is. *)
Lemma link_whose gone others past i l e g op :
  link gone others past i l → sound (events l) → e ∈ gone ++ outstanding (events l) → entry_ud e = user_data i g op → well_formed_id i g op →
  if decide (g = generation (self l)) then
    (op = OP_SEND ∧ sending (self l) = true ∧ ∃ d q, out_queue (self l) = d :: q ∧ e = send_entry i (ud i (self l) OP_SEND) d) ∨
    (op = OP_RECV ∧ recv_armed (self l) = true ∧ e = RecvMsgMulti i (ud i (self l) OP_RECV))
  else (op = OP_SEND ∧ ∃ r, r ∈ retired (shared l) ∧ e = dead r) ∨ (op = OP_RECV ∧ e = RecvMsgMulti i (user_data i g OP_RECV)).
Proof.
  intros Hk Hs Hin He Hid. pose proof (link_good _ _ _ _ _ Hk Hs) as Hgood. destruct Hk. destruct k_all0 as (olds & Hp & Ho).
  rewrite Hp, !elem_of_app in Hin. destruct Hin as [Hin|[Hin|[Hin|Hin]]].
  - unfold mine in Hin. apply elem_of_app in Hin as [Hin|Hin].
    + destruct (out_queue (self l)) as [|d q] eqn:Eq; [by apply not_elem_of_nil in Hin|]. destruct (sending (self l)) eqn:Es; [|by apply not_elem_of_nil in Hin].
      apply list_elem_of_singleton in Hin as ->. rewrite send_entry_ud in He. apply user_data_inj in He as (_ & <- & <-); [|by apply good_id|done].
      rewrite decide_True by done. left. split; [done|]. split; [done|]. by exists d, q.
    + destruct (recv_armed (self l)) eqn:Er; [|by apply not_elem_of_nil in Hin]. apply list_elem_of_singleton in Hin as ->. cbn in He.
      apply user_data_inj in He as (_ & <- & <-); [|by apply good_id|done]. rewrite decide_True by done. by right.
  - apply list_elem_of_fmap in Hin as (r & -> & Hr). destruct (k_retired0 r Hr) as (j & g' & Hid' & Hu & Hj). unfold dead in He. rewrite send_entry_ud, Hu in He.
    apply user_data_inj in He as (-> & -> & <-); [|done|done]. rewrite decide_True in Hj by done. rewrite decide_False by lia. left. split; [done|by exists r].
  - rewrite Forall_forall in Ho. destruct (Ho e Hin) as (g' & Hg' & ->). cbn in He.
    apply user_data_inj in He as (_ & -> & <-); [| |done]; [|destruct Hgood as [? ?]; split_and!; [done|lia|lia|done|done]]. rewrite decide_False by lia. by right.
  - rewrite Forall_forall in k_others0. by destruct (k_others0 e Hin g op).
Qed.

Lemma recycle_any_link gone others past i l b : link gone others past i l →
  wok (recycle_any b) l (λ _ l', link gone others past i l' ∧ self l' = self l ∧ retired (shared l') = retired (shared l) ∧ stop (shared l') = stop (shared l) ∧
    started (shared l') = started (shared l)).
Proof.
  intros Hk. destruct b as [b|]; cbn [recycle_any]; [|by apply wok_ret]. unfold recycle. eapply wok_pure; [reflexivity|].
  eapply wok_mono; [eapply wok_quiet; [by apply queues_log|]; apply (update_shared_link _ _ _ _ l); [exact Hk|done]|]. cbv beta. by intros _ l1 _ (Hk1 & w1 & -> & _).
Qed.

Lemma complete_retired_link others past i l r res : link [dead r] others past i l → r ∈ retired (shared l) →
  wok (complete_retired_send (r_user_data r) res) l (λ _ l', link [] others past i l' ∧ self l' = self l ∧ stop (shared l') = stop (shared l) ∧ started (shared l') = started (shared l)).
Proof.
  intros Hk Hr. unfold complete_retired_send. eapply wok_pure; [reflexivity|].
  destruct (list_find (λ x, r_user_data x = r_user_data r) (retired (shared l))) as [[k x]|] eqn:Hf;
    [|apply list_find_None in Hf; rewrite Forall_forall in Hf; by destruct (Hf r Hr)].
  apply list_find_Some in Hf as (Hx & Hu & _). pose proof (swap_remove_perm _ _ _ Hx) as Hp. eapply wok_pure; [reflexivity|].
  set (l1 := l <| shared := _ |>). assert (link [] others past i l1) as Hk1.
  { destruct Hk. destruct k_all0 as (olds & Hall & Ho). split; cbn; try done.
    - exists olds. split; [|done]. cbn in k_nodup0, Hall. rewrite Hp in Hall.
      transitivity (remove_ud (entry_ud (dead x)) (dead r :: outstanding (events l))); [cbn; unfold dead; by rewrite !send_entry_ud, Hu, Z.eqb_refl|].
      apply remove_ud_perm; [rewrite Hall; symmetry; apply Permutation_middle|done].
    - intros y Hy. apply k_retired0. rewrite Hp. by right.
    - cbn in k_nodup0. by apply NoDup_cons in k_nodup0 as [_ ?]. }
  destruct (0 <? res); cbn [when]; [|by apply wok_ret]. eapply wok_last; [reflexivity|]. split; [|done]. by apply (update_shared_link _ _ _ _ l1).
Qed.

Lemma on_send_link others past i l res d q : link [send_entry i (ud i (self l) OP_SEND) d] others past i l → sending (self l) = true → out_queue (self l) = d :: q →
  wok (on_send i res) l (λ broken l', link [] others past i l' ∧ flows l l' ∧
    (broken = false → (out_queue (self l') ≠ [] → sending (self l') = true) ∧ (closing (self l') ≠ None → sending (self l') = true))).
Proof.
  intros Hk Hs Hq. unfold on_send. eapply wok_pure; [reflexivity|]. set (l1 := l <| self := _ |>).
  assert (link [] others past i l1) as Hk1 by (eapply link_done; [exact Hk|done|unfold mine; cbn; by rewrite Hq, Hs|done]).
  assert (∀ l2, link [] others past i l2 → flows l l2 → sending (self l2) = false →
    wok (_ ← pop_front; _ ← push_front_send i; mret false) l2 (λ broken l', link [] others past i l' ∧ flows l l' ∧ (broken = false → out_queue (self l') ≠ [] → sending (self l') = true))) as Hnext.
  { intros l2 Hk2 Hf2 Hs2. eapply wok_pure; [reflexivity|]. set (l3 := l2 <| self := _ |>).
    assert (link [] others past i l3) as Hk3 by (apply update_link; [done|done| |cbn; congruence]; unfold mine; cbn; rewrite Hs2; by destruct (out_queue (self l2)) as [|? []]).
    eapply wok_bind; [by apply push_front_send_link|intros; grow_ring|]. cbv beta. intros _ l4 _ (Hk4 & E4 & Es4). apply wok_ret. intros _. split; [done|].
    split; [etrans; [exact Hf2|]; by split; rewrite ?E4, ?Es4|]. intros _. rewrite E4. cbn. intros Hne. by apply bool_decide_eq_true. }
  eapply (wok_bind _ _ _ (λ broken l', link [] others past i l' ∧ flows l l' ∧ (broken = false → out_queue (self l') ≠ [] → sending (self l') = true))); [|intros; grow_ring|].
  - destruct (_ =? _); [by apply Hnext|]. destruct (_ <? _); [by apply wok_ret|]. eapply wok_pure; [reflexivity|]. apply Hnext; [by apply (update_shared_link _ _ _ _ l1)|done|done].
  - cbv beta. intros broken l2 _ (Hk2 & Hf2 & Hs2). eapply wok_pure; [reflexivity|]. apply wok_ret. intros _. split; [done|]. split; [done|]. intros [-> Hb]%orb_false_elim.
    split; [by apply Hs2|]. destruct (closing (self l2)); [|done]. by destruct (sending (self l2)).
Qed.

Lemma on_recv_link others past i l at_ cqe : link (if cqe_more cqe then [] else [RecvMsgMulti i (ud i (self l) OP_RECV)]) others past i l → recv_armed (self l) = true →
  wok (on_recv i at_ cqe) l (λ broken l', link [] others past i l' ∧ offline l (l' <| world := world l |> <| self := self l' <| recv_armed := recv_armed (self l) |> |>) ∧
    (broken = false → recv_armed (self l') = true)).
Proof.
  intros Hk Ha. unfold on_recv, complete.
  assert (∀ l0 l', offline l0 l' → offline (l0 <| self := self l0 <| recv_armed := recv_armed (self l) |> |>) (l' <| world := world l0 |> <| self := self l' <| recv_armed := recv_armed (self l) |> |>)) as Hoff by (by intros l0 l' []).
  eapply (wok_bind _ _ _ (λ broken l', link [] others past i l' ∧ offline l (l' <| world := world l |> <| self := self l' <| recv_armed := recv_armed (self l) |> |>))); [|intros; grow_ring|].
  - eapply (wok_bind _ _ _ (λ _ l', link [] others past i l' ∧ world l' = world l ∧ l' <| self := self l' <| recv_armed := recv_armed (self l) |> |> = l)); [|intros; grow_ring|].
    + destruct (cqe_more cqe); cbn [negb when]; [apply wok_ret; intros _; split; [done|]; split; [done|by destruct l as [? [] ?]]|].
      eapply wok_last; [reflexivity|]. split; [|split; [done|by destruct l as [? [] ?]]]. eapply link_done; [exact Hk|done| |apply Hk]. unfold mine. cbn. rewrite Ha. solve_Permutation.
    + cbv beta. intros _ l1 _ (Hk1 & Hw1 & E1). eapply wok_bind; [eapply wok_offline; [apply (off_received budget)|exact Hk1]|intros; grow_ring|]. cbv beta. intros broken l2 _ (Hk2 & Ho2).
      eapply wok_bind; [by apply recycle_any_link|intros; grow_ring|]. cbv beta. intros _ l3 _ (Hk3 & E3 & Er3 & Es3 & _). apply wok_ret. intros _. split; [done|].
      apply Hoff in Ho2. rewrite E1, Hw1 in Ho2. destruct Ho2. split; cbn in *; rewrite ?E3, ?Er3, ?Es3; done.
  - cbv beta. intros broken l1 _ (Hk1 & Ho1). destruct broken; cbn [negb when]; [apply wok_ret; intros _; by split_and!|].
    eapply wok_bind; [by apply arm_recv_link|intros; grow_ring|]. cbv beta. intros _ l2 _ (Hk2 & E2 & Es2). apply wok_ret. intros _. split; [done|]. rewrite E2. cbn. split; [|done].
    destruct Ho1. by split; cbn in *; rewrite ?E2, ?Es2.
Qed.

(** The completion of [e], whoever it was for. *)
Lemma on_cqe_link others past i l at_ cqe e op g :
  link (if cqe_more cqe then [] else [e]) others past i l → attentive (self l) → e ∈ (if cqe_more cqe then [] else [e]) ++ outstanding (events l) →
  answers cqe e → entry_ud e = user_data i g op → well_formed_id i g op →
  wok (on_cqe target budget connect_timeout timeout gso patience i op g at_ cqe) l (λ _ l', tended others past i (stop (shared l)) l' ∧ care l l').
Proof.
  intros Hk Hat Hin Hans He Hid. apply wok_sound; [grow_ring|]. intros Hs. pose proof (link_whose _ _ _ _ _ _ _ _ Hk Hs Hin He Hid) as Hwhose.
  unfold on_cqe. eapply wok_pure; [reflexivity|]. case_decide as Hg.
  - subst g. rewrite Z.eqb_refl. cbn [negb].
    assert (∀ l1, link [] others past i l1 → 0 ≤ fd (self l1) → quic (self l1) ≠ None → stop (shared l1) = stop (shared l) →
      wok (begin_close target budget connect_timeout timeout gso patience i at_) l1 (λ _ l', tended others past i (stop (shared l)) l' ∧ care l l')) as Hclose.
    { intros l1 ? ? ? <-. eapply wok_mono; [by apply begin_close_link|]. cbv beta. intros _ l2 _ [? ?]. split; [done|by left]. }
    destruct Hwhose as [(-> & Hsd & d & q & Hq & ->)|(-> & Har & ->)].
    + assert (quic (self l) ≠ None ∧ 0 ≤ fd (self l)) as [Hpr Hfd] by (unfold attentive in Hat; destruct (quic (self l)); [by destruct Hat|destruct Hat; congruence]).
      assert (cqe_more cqe = false) as Hm by (destruct Hans as [_ Hans]; unfold send_entry in Hans; destruct (0 <? _)%nat; apply Hans). rewrite Hm in Hk.
      rewrite Z.eqb_refl. eapply wok_bind; [by eapply on_send_link|intros; grow_ring|]. cbv beta. intros broken l1 _ (Hk1 & Hf1 & Hb1).
      destruct broken; cbn [when]; [apply Hclose; [done|by rewrite (w_fd _ _ Hf1)|by rewrite (w_present _ _ Hf1)|apply Hf1]|]. apply wok_ret. intros _.
      split; [|left; left; by rewrite (w_present _ _ Hf1)]. split; [done|]. split; [|apply Hf1].
      destruct (Hb1 eq_refl) as [Hq1 Hc1]. unfold attentive in *. destruct Hf1 as [Ef Er Ec Ep _]. destruct (quic (self l)) eqn:Eq; [|done].
      destruct (quic (self l1)); [|by destruct (proj1 Ep)]. rewrite Ef, Er, Ec in *. destruct Hat as [_ Hat]. split; [done|]. destruct (closing (self l)); [by apply Hc1|by destruct Hat].
    + assert (quic (self l) ≠ None ∧ 0 ≤ fd (self l)) as [Hpr Hfd] by (unfold attentive in Hat; destruct (quic (self l)); [by destruct Hat|destruct Hat; congruence]).
      change (OP_RECV =? OP_SEND) with false. rewrite Z.eqb_refl. cbv iota.
      eapply wok_bind; [by apply on_recv_link|intros; grow_ring|]. cbv beta. intros broken l1 _ (Hk1 & [_ Ef Eq Esd _ _ _ Est Ec Ep] & Hb1). cbn in Ef, Eq, Esd, Est, Ec, Ep.
      destruct broken; cbn [when]; [apply Hclose; [done|congruence|by rewrite Ep|done]|]. apply wok_ret. intros _.
      split; [|left; left; by rewrite Ep]. split; [done|]. split; [|done].
      unfold attentive in *. destruct (quic (self l)); [|done]. destruct (quic (self l1)); [|by destruct (proj1 Ep)]. rewrite Ef, Ec, Eq, Esd. destruct Hat as [_ Hat]. split; [done|].
      destruct (closing (self l)); [done|]. split; [auto|by destruct Hat].
  - rewrite (proj2 (Z.eqb_neq _ _) Hg). cbn [negb]. eapply wok_bind; [apply recycle_any_link, Hk|intros; grow_ring|]. cbv beta. intros _ l1 Hs1 (Hk1 & E1 & Er1 & Es1 & Est1). rewrite <- Es1.
    assert (∀ l', self l' = self l1 → started (shared l') = started (shared l1) → care l l') as Hcare
      by (intros l' E' Est'; unfold care, cared; rewrite E', Est', E1, Est1; destruct (quic (self l)); [by left; left|by right]).
    destruct Hwhose as [(-> & r & Hr & ->)|(-> & ->)].
    + rewrite Z.eqb_refl. cbn [when]. assert (cqe_more cqe = false) as Hm by (destruct Hans as [_ Hans]; unfold dead, send_entry in Hans; destruct (0 <? _)%nat; apply Hans). rewrite Hm in Hk1.
      assert (cqe_ud cqe = r_user_data r) as -> by (destruct Hans as [<- _]; apply send_entry_ud).
      eapply wok_mono; [apply complete_retired_link; [done|by rewrite Er1]|]. cbv beta. intros _ l2 _ (Hk2 & E2 & Es2 & Est2).
      split; [|by apply Hcare]. split; [done|]. split; [|done]. by rewrite E2, E1.
    + change (OP_RECV =? OP_SEND) with false. cbn [when]. apply wok_ret. intros _. split; [|by apply Hcare]. split; [|by rewrite E1]. destruct (cqe_more cqe); [done|].
      eapply link_forget; [exact Hk1|exact Hs1|]. exists g. by rewrite E1.
Qed.

(** *** Passes *)

Lemma turn_conn_link others past i at_ l b : tended others past i b l → closing (self l) = None →
  wok (turn_conn target budget connect_timeout timeout parallel gso patience i at_) l (λ _ l', tended others past i b l' ∧ care l l').
Proof.
  intros (Hk & Hat & <-) Hcl. unfold turn_conn. destruct (quic (self l)) eqn:Eq.
  - eapply wok_bind; [eapply wok_offline; [apply off_drive|exact Hk]|intros; grow_ring|]. cbv beta. intros still l1 _ (Hk1 & Ho1%offline_flows).
    eapply wok_bind; [by apply pump_transmits_link|intros; grow_ring|]. cbv beta. intros _ l2 _ (Hk2 & Hf2 & Hq2). assert (flows l l2) as Hf by by etrans.
    rewrite <- (w_stop _ _ Hf). destruct still; cbn [negb when].
    + apply wok_ret. intros _. split; [|left; left; rewrite (w_present _ _ Hf); congruence]. split; [done|]. split; [|done]. eapply flows_attentive; [exact Hat|congruence|done|done|done].
    + eapply wok_mono; [apply begin_close_link; [done| |]|cbv beta; intros _ l3 _ [? ?]; split; [done|by left]]. { rewrite (w_fd _ _ Hf). unfold attentive in Hat. rewrite Eq in Hat. apply Hat. } rewrite (w_present _ _ Hf). congruence.
  - assert (drive target budget parallel l = (Ok true, l)) as Hd by (unfold drive, attempt, drive_body; rewrite !bind_run; unfold me; rewrite !bind_run; cbn; by rewrite Eq).
    eapply wok_pure; [exact Hd|]. assert (pump_transmits gso i at_ l = (Ok tt, l)) as Hp.
    { unfold attentive in Hat. rewrite Eq in Hat. assert (∀ B (f : Conn → M B), (me ≫= f) l = f (self l) l) as Hme by done. unfold pump_transmits, push_front_send.
      rewrite Hme, Eq, bind_run. cbn [mret eff_ret]. by rewrite Hme, (v_sending _ Hat), Hme, (v_queue _ Hat). }
    eapply wok_pure; [exact Hp|]. apply wok_ret. intros _. split; [done|by right].
Qed.
Lemma tended_self others past i b l c' : tended others past i b l → generation c' = generation (self l) → mine i c' = mine i (self l) → fd c' = fd (self l) → closing c' = closing (self l) →
  sending c' = sending (self l) → recv_armed c' = recv_armed (self l) → out_queue c' = out_queue (self l) → (quic c' = None ↔ quic (self l) = None) → tended others past i b (l <| self := c' |>).
Proof.
  intros (Hk & Ha & Hs) Eg Em Ef Ec Esd Er Eq Ep. split; [apply update_link; [done|done|done|rewrite Esd, Eq; apply Hk]|]. split; [|done]. unfold attentive in *. cbn.
  destruct (quic (self l)); destruct (quic c') eqn:E'; [by rewrite Ef, Ec, Esd, Er, Eq|by pose proof (proj1 Ep eq_refl)|by pose proof (proj2 Ep eq_refl)|]. destruct Ha. split; congruence.
Qed.
Lemma service_link others past i at_ wait l b : tended others past i b l →
  wok (service target budget connect_timeout timeout parallel gso patience i at_ wait) l (λ _ l', tended others past i b l' ∧ care l l').
Proof.
  intros Ht. unfold service. eapply wok_pure; [reflexivity|]. destruct (closing (self l)) as [d|] eqn:Hcl.
  - destruct (_ <=? _); [|apply wok_ret; intros _; split; [done|by apply care_refl]]. destruct Ht as (Hk & Ha & <-).
    eapply wok_bind; [apply finish_close_link; [done|]|intros; grow_ring|cbv beta; intros _ l1 _ [? ?]; apply wok_ret; intros _; split; [done|by left]]. unfold attentive in Ha. destruct (quic (self l)); [apply Ha|destruct Ha; congruence].
  - destruct (quic (self l)) as [q|] eqn:Hq; [|apply wok_ret; intros _; split; [done|by apply care_refl]]. destruct (expire _ _ _ _) as [[[q' expired] next]|e]; [|done].
    eapply wok_pure; [reflexivity|]. eapply wok_pure; [reflexivity|]. match goal with |- wok _ ?x _ => set (l1 := x) end.
    assert (tended others past i b l1) as Ht1 by (apply tended_self; try done; cbn; by rewrite Hq).
    eapply (wok_bind _ _ _ (λ _ l', tended others past i b l' ∧ care l1 l')); [destruct expired; cbn [when]; [by apply turn_conn_link|apply wok_ret; intros _; split; [done|by apply care_refl]]|intros; grow_ring|].
    cbv beta. intros _ l2 _ [Ht2 Hc2]. apply wok_ret. intros _. split; [done|]. destruct Hc2 as [?|[? _]]; [by left|done].
Qed.
Lemma drive_pending_link others past i at_ l b : tended others past i b l →
  wok (drive_pending target budget connect_timeout timeout parallel gso patience i at_) l (λ _ l', tended others past i b l' ∧ care l l').
Proof.
  intros Ht. unfold drive_pending. eapply wok_pure; [reflexivity|]. eapply wok_pure; [reflexivity|]. match goal with |- wok _ ?x _ => set (l1 := x) end.
  assert (tended others past i b l1) as Ht1 by by apply tended_self.
  destruct (closing (self l)) eqn:Hcl; rewrite ?andb_false_r, ?andb_true_r; [apply wok_ret; intros _; split; [done|by apply (care_refl l1)]|].
  destruct (pending (self l)); cbn [when]; [|apply wok_ret; intros _; split; [done|by apply (care_refl l1)]]. exact (turn_conn_link others past i at_ l1 b Ht1 Hcl).
Qed.
Lemma check_timeout_link others past i limit at_ l b : tended others past i b l → (quic (self l) = None → timed_out at_ limit (self l) = false) →
  wok (check_timeout target budget connect_timeout timeout gso patience i limit at_) l (λ _ l', tended others past i b l' ∧ care l l').
Proof.
  intros Ht Hto. unfold check_timeout. eapply wok_pure; [reflexivity|]. destruct (timed_out _ _ _) eqn:E; cbn [when]; [|apply wok_ret; intros _; split; [done|by apply care_refl]].
  destruct (quic (self l)) as [q|] eqn:Hq; [|by specialize (Hto eq_refl)]. destruct Ht as (Hk & Ha & <-).
  eapply wok_bind; [eapply wok_offline; [apply off_on_quic|exact Hk]|intros; grow_ring|]. cbv beta. intros _ l1 _ (Hk1 & Ho1%offline_flows).
  eapply wok_bind; [by apply pump_transmits_link|intros; grow_ring|]. cbv beta. intros _ l2 _ (Hk2 & Hf2 & Hq2). assert (flows l l2) as Hf by by etrans.
  rewrite <- (w_stop _ _ Hf). eapply wok_mono; [apply begin_close_link; [done| |]|cbv beta; intros _ l3 _ [? ?]; split; [done|by left]]. { rewrite (w_fd _ _ Hf). unfold attentive in Ha. rewrite Hq in Ha. apply Ha. } rewrite (w_present _ _ Hf). congruence.
Qed.
End link.
End http3_ring.
