(* ===== verification/Http3WorkerLoop.v ===== *)
(** * The loop of an HTTP/3 worker

    The accounts of [Http3WorkerTurn.v] and the ring of [Http3WorkerRing.v], for
    all connections of a worker together: what holds whenever the loop looks at
    its connections ([good]), and that every pass of the loop keeps it. *)

From S2P Require Import Prelude Effects Varint QuicPacket QuicRecovery QuicRecvStream QuicSendStream QuicStreams QuicStreamsInv QuicStreamsRun QuicConn QuicConnTimers QuicConnRun QuicConnHistory QuicConnApp Status Stats Inflight Target Requests H3Proto Uring UringRun UringConn Http3Recv Http3Worker Http3WorkerInv Http3WorkerRun Http3WorkerTurn Http3WorkerRing.
From stdpp Require Import relations.
#[local] Open Scope Z_scope.

Module http3_loop.
Import uring uring_run uring_conn http3 http3_inv http3_run http3_turn http3_ring connection_app.

(** ** What the connections own *)

(** One connection apart from the others. *)
Lemma concat_imap_insert {A B} (f : nat → A → list B) cs : ∀ i c, (i < length cs)%nat →
  concat (imap f (<[i := c]> cs)) ≡ₚ f i c ++ concat (imap (λ j x, if (j =? i)%nat then [] else f j x) cs).
Proof.
  revert f. induction cs as [|x cs IH]; intros f i c Hi; [cbn in Hi; lia|]. destruct i as [|i]; cbn.
  - apply Permutation_app_head. by erewrite imap_ext.
  - rewrite (IH (f ∘ S) i c) by (cbn in Hi; lia). cbn. rewrite !app_assoc. apply Permutation_app_tail, Permutation_app_comm.
Qed.
Lemma elem_of_concat_imap {A B} (f : nat → A → list B) cs b : b ∈ concat (imap f cs) ↔ ∃ i c, cs !! i = Some c ∧ b ∈ f i c.
Proof.
  rewrite list_elem_of_In, in_concat. split.
  - intros (l & Hl%list_elem_of_In & Hb%list_elem_of_In). apply list_elem_of_lookup in Hl as (i & Hl). rewrite list_lookup_imap in Hl.
    destruct (cs !! i) as [c|] eqn:E; [|done]. injection Hl as <-. by exists i, c.
  - intros (i & c & Hc & Hb). exists (f i c). split; apply list_elem_of_In; [|done]. apply (list_elem_of_lookup_2 _ i). by rewrite list_lookup_imap, Hc.
Qed.
(** Totals of what is not negative where it matters. *)
Lemma load_sum {K} (f : K → Z) cs : (∀ x, x ∈ cs → 0 ≤ f x) → 0 ≤ load f cs.
Proof.
  induction cs as [|x cs IH]; intros Hall; cbn [load]; [done|]. pose proof (Hall x ltac:(by left)). pose proof (IH ltac:(intros; apply Hall; by right)). lia.
Qed.
Lemma load_rest {K} (f : K → Z) cs : ∀ i c, (∀ x, x ∈ cs → 0 ≤ f x) → cs !! i = Some c → 0 ≤ load f cs - f c.
Proof.
  induction cs as [|x cs IH]; intros i c Hall Hi; [done|]. assert (∀ y, y ∈ cs → 0 ≤ f y) as Hcs by (intros; apply Hall; by right). cbn [load]. destruct i as [|i].
  - injection Hi as ->. pose proof (load_sum f cs Hcs). lia.
  - pose proof (IH i c Hcs Hi). pose proof (Hall x ltac:(by left)). lia.
Qed.

Section ledger.
Context `{RT : Rustls}.
Variable timed : Prop.                       (* whether the run has a deadline *)
Abbreviation Conn := (Conn (RT := RT)).
Abbreviation Worker := (Worker Conn Shared).
Abbreviation L := (Local Conn Shared).
Abbreviation whist w := (hist (w_world w)).
Abbreviation ud i c op := (user_data i (generation c) op).

Definition gone_by (w : Worker) (j : nat) (g : Z) : Prop := ∃ c, conns w !! j = Some c ∧ g < generation c.
(** A receive that went with a socket of slot [j]. *)
Definition old (w : Worker) (e : Entry) (j : nat) : Prop := ∃ c, conns w !! j = Some c ∧ stale j (generation c) e.
Definition timer (e : Entry) : Prop := entry_ud e = TIMEOUT_USER_DATA ∧ is_send e = false ∧ timed.

(** Every operation outstanding is the front of a queue, a retired send, a
    receive that is armed, one that went with its socket, or the run's timer. *)
Record ledger (w : Worker) : Prop := {
  g_size : Z.of_nat (length (conns w)) ≤ 2 ^ CONN_IDX_BITS;
  g_gen i c : conns w !! i = Some c → 0 ≤ generation c ≤ Z.of_nat (length (whist w));
  g_front i c : conns w !! i = Some c → sending c = true → out_queue c ≠ [];
  g_all : ∃ olds timers, outstanding (whist w) ≡ₚ concat (imap mine (conns w)) ++ (dead <$> retired (w_shared w)) ++ olds ++ timers ∧
    Forall (λ e, ∃ j, old w e j) olds ∧ Forall timer timers;
  g_retired r : r ∈ retired (w_shared w) → ∃ j g, well_formed_id j g OP_SEND ∧ r_user_data r = user_data j g OP_SEND ∧ gone_by w j g;
  g_nodup : NoDup (entry_ud <$> outstanding (whist w));
}.

(** What connection [i] has nothing to do with. *)
Definition elsewhere (i : nat) (w : Worker) (others : list Entry) : Prop := ∃ olds timers,
  others ≡ₚ concat (imap (λ j c, if (j =? i)%nat then [] else mine j c) (conns w)) ++ olds ++ timers ∧
  Forall (λ e, ∃ j, j ≠ i ∧ old w e j) olds ∧ Forall timer timers.

Lemma elsewhere_foreign i w others : Z.of_nat (length (conns w)) ≤ 2 ^ CONN_IDX_BITS → (∀ i c, conns w !! i = Some c → 0 ≤ generation c ≤ Z.of_nat (length (whist w))) →
  sound (whist w) → elsewhere i w others → Forall (foreign i) others.
Proof.
  intros Hsz Hgen [_ Hn] (olds & timers & Hp & Ho & Ht). rewrite Hp, !Forall_app. 
  assert (∀ j c, conns w !! j = Some c → good_gen j (generation c)) as Hgood by (intros j c Hc; pose proof (lookup_lt_Some _ _ _ Hc); specialize (Hgen j c Hc); split; lia).
  split_and!; apply Forall_forall; intros e He g op Hid.
  - apply elem_of_concat_imap in He as (j & c & Hc & He). destruct (Nat.eqb_spec j i) as [|Hne]; [by apply not_elem_of_nil in He|]. specialize (Hgood j c Hc).
    assert (∃ op', 0 ≤ op' < 4 ∧ entry_ud e = ud j c op') as (op' & Hop & ->); [|intros Heq; apply user_data_inj in Heq as (? & _); [done|by apply good_id|done]].
    unfold mine in He. apply elem_of_app in He as [He|He].
    + destruct (out_queue c); [by apply not_elem_of_nil in He|]. destruct (sending c); [|by apply not_elem_of_nil in He]. apply list_elem_of_singleton in He as ->. exists OP_SEND. split; [done|apply send_entry_ud].
    + destruct (recv_armed c); [|by apply not_elem_of_nil in He]. apply list_elem_of_singleton in He as ->. by exists OP_RECV.
  - rewrite Forall_forall in Ho. destruct (Ho e He) as (j & Hne & c & Hc & g' & Hg' & ->). cbn. specialize (Hgood j c Hc). destruct Hgood as [? ?].
    intros Heq. apply user_data_inj in Heq as (? & _); [done| |done]. split_and!; [done|lia|lia|done|done].
  - rewrite Forall_forall in Ht. destruct (Ht e He) as [-> _]. intros Heq. by apply (user_data_not_timeout i g op).
Qed.

(** The worker's books, and those of one connection. *)
Lemma ledger_open i c w : ledger w → sound (whist w) → conns w !! i = Some c → ∃ others, elsewhere i w others ∧ link [] others (gone_by w) i (local w c).
Proof.
  intros [] Hs Hc. destruct g_all0 as (olds & timers & Hp & Ho & Ht). pose proof (lookup_lt_Some _ _ _ Hc) as Hi.
  assert (∃ here there, olds ≡ₚ here ++ there ∧ Forall (stale i (generation c)) here ∧ Forall (λ e, ∃ j, j ≠ i ∧ old w e j) there) as (here & there & Hsplit & Hhere & Hthere).
  { clear Hp. induction Ho as [|e olds (j & Hj) _ IH]; [by exists [], []|]. destruct IH as (here & there & Hsp & ? & ?). destruct (decide (j = i)) as [-> |Hne].
    - exists (e :: here), there. split; [by rewrite Hsp|]. split; [|done]. constructor; [|done]. destruct Hj as (c' & Hc' & ?). congruence.
    - exists here, (e :: there). split; [rewrite Hsp; solve_Permutation|]. split; [done|]. constructor; [|done]. by exists j. }
  exists (concat (imap (λ j c, if (j =? i)%nat then [] else mine j c) (conns w)) ++ there ++ timers).
  assert (elsewhere i w (concat (imap (λ j c, if (j =? i)%nat then [] else mine j c) (conns w)) ++ there ++ timers)) as He by by exists there, timers.
  split; [done|]. split; cbn; try done.
  - lia.
  - by apply (g_gen0 i).
  - by apply (g_front0 i).
  - exists here. split; [|done]. rewrite Hp, Hsplit. rewrite <- (list_insert_id (conns w) i c Hc) at 1. rewrite concat_imap_insert by done. solve_Permutation.
  - by eapply elsewhere_foreign.
  - intros r Hr. destruct (g_retired0 r Hr) as (j & g & ? & ? & Hg). exists j, g. split_and!; try done. case_decide as Hj; [|done]. subst j. destruct Hg as (c' & ? & ?). congruence.
Qed.
Lemma ledger_close i c w others l' : Z.of_nat (length (conns w)) ≤ 2 ^ CONN_IDX_BITS → (∀ j c, conns w !! j = Some c → 0 ≤ generation c ≤ Z.of_nat (length (whist w))) →
  (∀ j c, conns w !! j = Some c → j ≠ i → sending c = true → out_queue c ≠ []) →
  conns w !! i = Some c → elsewhere i w others → link [] others (gone_by w) i l' → whist w `suffix_of` hist (world l') → ledger (absorb i w l').
Proof.
  intros Hsz Hgen Hfr Hc (olds & timers & Hp & Ho & Ht) [] Hsuf. pose proof (lookup_lt_Some _ _ _ Hc) as Hi. apply suffix_length in Hsuf.
  assert (∀ j c', <[i := self l']> (conns w) !! j = Some c' → j = i ∧ c' = self l' ∨ j ≠ i ∧ conns w !! j = Some c') as Hlook.
  { intros j c' Hj. apply list_lookup_insert_Some in Hj as [(-> & <- & _)|[? Hj]]; auto. }
  assert (∀ j g, j ≠ i → gone_by w j g → gone_by (absorb i w l') j g) as Hgone by (intros j g Hne (c' & ? & ?); exists c'; cbn; by rewrite list_lookup_insert_ne).
  assert (conns (absorb i w l') !! i = Some (self l')) as Hself by (cbn; by apply list_lookup_insert_eq).
  split; cbn; rewrite ?length_insert; try done.
  - intros j c' [[-> ->]|[_ Hj]]%Hlook; [done|]. specialize (Hgen j c' Hj). lia.
  - intros j c' [[-> ->]|[? Hj]]%Hlook; [done|]. by eapply Hfr.
  - destruct k_all0 as (olds' & Hall & Ho'). exists (olds' ++ olds), timers. cbn in Hall. split; [|split; [|done]].
    + rewrite Hall, Hp, concat_imap_insert by done. solve_Permutation.
    + apply Forall_app. split; [eapply Forall_impl; [exact Ho'|]; intros e He; exists i, (self l'); done|]. eapply Forall_impl; [exact Ho|].
      intros e (j & Hne & c' & Hc' & ?). exists j, c'. split; [|done]. cbn. by rewrite list_lookup_insert_ne.
  - intros r Hr. destruct (k_retired0 r Hr) as (j & g & ? & ? & Hj). exists j, g. split_and!; try done. case_decide as Hd; [subst j; by exists (self l')|by apply Hgone].
Qed.
(** A completion, seen by its connection. *)
Lemma link_reaped others past i l cqe e w' : link [] others past i l → e ∈ outstanding (hist (world l)) → entry_ud e = cqe_ud cqe → hist w' = Reaped cqe :: hist (world l) →
  link (if cqe_more cqe then [] else [e]) others past i (l <| world := w' |>) ∧ e ∈ (if cqe_more cqe then [] else [e]) ++ outstanding (hist w').
Proof.
  intros [] He Hu Hw. apply elem_of_Permutation in He as [rest Hrest].
  assert ((if cqe_more cqe then [] else [e]) ++ outstanding (hist w') ≡ₚ outstanding (hist (world l))) as Heq.
  { rewrite Hw. cbn. destruct (cqe_more cqe); [done|]. rewrite <- Hu. cbn. rewrite remove_ud_perm; [by symmetry|exact Hrest|exact k_nodup0]. }
  split; [|rewrite Heq, Hrest; by left]. split; cbn -[outstanding]; rewrite ?Heq; try done.
  - rewrite Hw. cbn [length]. lia.
  - destruct k_all0 as (olds & Hp & Ho). exists olds. by rewrite Heq.
Qed.
End ledger.

(** ** The worker *)

Section loop.
Context `{RL : RustlsLaws} `{SL : UnstableSortLaws (Z * bytes)} `{KN : Kernel} `{RM : RecvMsg} `{EN : Entropy} `{!BufferOctets} {SocketAddr : Type}.
Variables (target : target.Target SocketAddr) (budget : budget.Budget) (connect_timeout : Z) (timeout : option Z) (parallel : nat) (gso : bool) (patience : nat).
Variable settings : Settings.
Hypothesis budget_fits : match budget with budget.Requests n => n < 2 ^ 64 | budget.Duration _ => True end.
Abbreviation Conn := (Conn (RT := RT)).
Abbreviation Worker := (Worker Conn Shared).
Abbreviation W := (eff Worker error).
Abbreviation L := (Local Conn Shared).
Abbreviation M := (eff L error).
Abbreviation whist w := (hist (w_world w)).
Abbreviation local_params := (local_params connect_timeout timeout).
Abbreviation conn_inv := (conn_inv local_params true).
Abbreviation owing w := (load weight (conns w)).
Abbreviation kept := (kept budget connect_timeout timeout true).

Definition timed : Prop := ∃ d, budget = budget.Duration d.

(** Every connection is fine, somebody listens on it, and the accounts agree. *)
Record orderly (w : Worker) : Prop := {
  o_inv i c : conns w !! i = Some c → conn_inv c;
  o_attentive i c : conns w !! i = Some c → attentive c;
  o_completed : 0 ≤ stats.completed (stats (w_shared w));
  o_errors : 0 ≤ stats.errors (stats (w_shared w));
  o_started : 0 ≤ started (w_shared w);
  o_balance : balanced budget (finished_so_far (w_shared w) + owing w) (started (w_shared w));
  o_stop : stop (w_shared w) = true → timed;
}.
(** While there is something to start, a connection is in use. *)
Definition occupied (w : Worker) : Prop :=
  stop (w_shared w) = true ∨ (∃ i c, conns w !! i = Some c ∧ quic c ≠ None) ∨ budget.may_start budget (started (w_shared w)) = false.
Definition good (w : Worker) : Prop := ledger timed w ∧ orderly w ∧ occupied w.

Lemma orderly_weights w : orderly w → ∀ c, c ∈ conns w → 0 ≤ weight c.
Proof. intros [] c (i & Hc)%list_elem_of_lookup. eapply h3_weight_nonneg. by eapply o_inv0. Qed.
Lemma orderly_kept w i c : orderly w → conns w !! i = Some c → kept (owing w - weight c) (local w c).
Proof.
  intros Ho Hc. pose proof (load_rest weight _ _ _ (orderly_weights w Ho) Hc). destruct Ho. split; [by eapply o_inv0|]. split; cbn; try done.
  eapply balanced_eq; [exact o_balance0|lia].
Qed.
Lemma h3_orderly_absorb w i c l' : orderly w → conns w !! i = Some c → kept (owing w - weight c) l' → attentive (self l') → stop (shared l') = stop (w_shared w) →
  orderly (absorb i w l').
Proof.
  intros [] Hc [Hi []] Ha Hs. pose proof (lookup_lt_Some _ _ _ Hc) as Hlt.
  assert (∀ j c', <[i := self l']> (conns w) !! j = Some c' → j = i ∧ c' = self l' ∨ conns w !! j = Some c') as Hlook.
  { intros j c' Hj. apply list_lookup_insert_Some in Hj as [(-> & <- & _)|[_ Hj]]; auto. }
  split; cbn; try done.
  - intros j c' [[_ ->]|Hj]%Hlook; [done|by eapply o_inv0].
  - intros j c' [[_ ->]|Hj]%Hlook; [done|by eapply o_attentive0].
  - rewrite (load_insert weight _ _ _ _ Hc). eapply balanced_eq; [exact b_balance0|]. lia.
  - rewrite Hs. done.
Qed.
Lemma occupied_absorb w i c l' : occupied w → conns w !! i = Some c → stop (shared l') = stop (w_shared w) → care budget (local w c) l' → occupied (absorb i w l').
Proof.
  intros Ho Hc Hs Hcare. pose proof (lookup_lt_Some _ _ _ Hc) as Hlt. unfold occupied. cbn.
  destruct Hcare as [[?|[?|?]]|[Hq Est]]; [right; left; exists i, (self l'); by rewrite list_lookup_insert_eq|by left|by right; right|]. cbn in Hq, Est. rewrite Hs, Est.
  destruct Ho as [?|[(j & c' & Hj & Hqj)|?]]; [by left| |by right; right]. right. left. exists j, c'. split; [|done]. rewrite list_lookup_insert_ne; [done|]. intros <-. congruence.
Qed.

(** What one connection does leaves the worker in order. *)
Definition stepped (w w' : Worker) : Prop := good w' ∧ length (conns w') = length (conns w) ∧ stop (w_shared w') = stop (w_shared w).
Lemma at_lift {A} i c w others (m : M A) :
  orderly w → occupied w → Z.of_nat (length (conns w)) ≤ 2 ^ CONN_IDX_BITS → (∀ j c, conns w !! j = Some c → 0 ≤ generation c ≤ Z.of_nat (length (whist w))) →
  (∀ j c, conns w !! j = Some c → sending c = true → out_queue c ≠ []) → conns w !! i = Some c → elsewhere timed i w others → evolves sgrows m →
  wok m (local w c) (λ _ l', tended others (gone_by w) i (stop (w_shared w)) l' ∧ care budget (local w c) l') →
  http3_turn.run m (local w c) (λ _ l', kept (owing w - weight c) l') →
  wok (at_conn i m) w (λ _ w', stepped w w').
Proof.
  intros Ho Hoc Hsz Hgen Hfr Hc He Hg Hm Hk. unfold wok, holds, at_conn in *. rewrite Hc. unfold http3_turn.run, sat, holds in Hk. specialize (Hg (local w c)).
  destruct (m (local w c)) as [[a|e] l']; [|done]. intros Hs. cbn in Hs. destruct (Hm Hs) as [(Hl & Hat & Hst) Hcare].
  split; [|split; [apply length_insert|done]]. split; [eapply ledger_close; eauto|]. split; [by eapply h3_orderly_absorb|by eapply occupied_absorb].
Qed.
Lemma at_good {A} i w (m : M A) :
  good w → (i < length (conns w))%nat → evolves sgrows m →
  (∀ others past b l, tended others past i b l → (quic (self l) = None → inflight.slots (streams (self l)) = []) → wok m l (λ _ l', tended others past i b l' ∧ care budget l l')) →
  (∀ o l, kept o l → http3_turn.run m l (λ _ l', kept o l')) →
  wok (at_conn i m) w (λ _ w', stepped w w').
Proof.
  intros (Hl & Ho & Hoc) Hi Hg Hm Hk. destruct (lookup_lt_is_Some_2 _ _ Hi) as [c Hc]. apply wok_sound; [grow_ring|]. intros Hs.
  destruct (ledger_open timed i c w Hl Hs Hc) as (others & He & Hlink). pose proof (o_inv _ Ho i c Hc) as Hinv. pose proof (o_attentive _ Ho i c Hc) as Hat.
  apply (at_lift i c w others m Ho Hoc (g_size _ _ Hl) (g_gen _ _ Hl) (g_front _ _ Hl) Hc He Hg); [|by apply Hk, (orderly_kept w i c)]. apply Hm; [done|]. cbn. intros Hq. destruct (c_none _ _ _ Hinv Hq) as (Ht & Hr & _).
  apply (table_none 0); [done|]. pose proof (c_unready _ _ _ Hinv Hr) as Hw. pose proof (c_unjudged _ _ _ Hinv). unfold weight in Hw. lia.
Qed.

(** *** Histories only grow *)

Abbreviation wgrows m := (evolves (E := error) (sgrows (S := Worker)) m).
Ltac grow_worker := grow_ring; try match goal with |- sgrows ?w _ => apply (reflexivity (w_world w)) end.
Lemma h3_turn_conn_grows i at_ : evolves sgrows (turn_conn target budget connect_timeout timeout parallel gso patience i at_).
Proof.
  unfold turn_conn. assert (evolves (sgrows (S := L)) (drive target budget parallel)); [|grow_ring]. intros l. pose proof (off_drive target budget parallel l) as [E _].
  unfold sgrows. cbn. by rewrite E.
Qed.
#[local] Hint Resolve h3_turn_conn_grows : rings.
Lemma h3_service_grows i at_ wait : evolves sgrows (service target budget connect_timeout timeout parallel gso patience i at_ wait).
Proof. unfold service. grow_ring. Qed.
Lemma h3_drive_pending_grows i at_ : evolves sgrows (drive_pending target budget connect_timeout timeout parallel gso patience i at_).
Proof. unfold drive_pending. grow_ring. Qed.
Lemma h3_check_timeout_grows i limit at_ : evolves sgrows (check_timeout target budget connect_timeout timeout gso patience i limit at_).
Proof. unfold check_timeout. grow_ring. Qed.
#[local] Hint Resolve h3_service_grows h3_drive_pending_grows h3_check_timeout_grows : rings.
Lemma h3_take_cqe_grows at_ cqe : wgrows (take_cqe target budget connect_timeout timeout gso patience at_ cqe).
Proof. unfold take_cqe. grow_worker. Qed.
Lemma h3_service_all_grows idxs at_ : ∀ wait, wgrows (service_all target budget connect_timeout timeout parallel gso patience idxs at_ wait).
Proof. induction idxs as [|i idxs IH]; intros wait; cbn [service_all]; grow_worker. Qed.
Lemma h3_for_conns_grows body : (∀ i, evolves sgrows (body i)) → wgrows (for_conns body).
Proof. intros Hb. unfold for_conns. grow_worker. Qed.
Lemma h3_service_timers_grows : wgrows (service_timers target budget connect_timeout timeout parallel gso patience).
Proof. apply evolves_bind; [apply _|grow_worker|intros w; apply h3_service_all_grows]. Qed.
#[local] Hint Resolve h3_take_cqe_grows h3_service_all_grows h3_for_conns_grows : rings.
Ltac next := apply evolves_bind; [apply _| |intros ?].
Lemma h3_timeouts_grows t at_ : wgrows (match t with Some limit => for_conns (λ i, check_timeout target budget connect_timeout timeout gso patience i limit at_) | None => mret tt end).
Proof. destruct t; [apply h3_for_conns_grows; intros i; apply h3_check_timeout_grows|grow_worker]. Qed.
Lemma h3_turn_grows : wgrows (turn target budget connect_timeout timeout parallel gso patience settings).
Proof.
  unfold turn. next; [apply h3_service_timers_grows|]. next; [grow_worker|]. next; [apply on_ring_sgrows, (queues_grows _ []), submit_and_wait_queues|]. next; [grow_worker|].
  next; [apply for_each_sgrows; intros cqe; apply h3_take_cqe_grows|]. next; [grow_worker|]. next; [apply h3_for_conns_grows; intros i; apply h3_drive_pending_grows|].
  next; [apply h3_timeouts_grows|]. grow_worker.
Qed.
#[local] Hint Resolve h3_turn_grows : rings.
Lemma h3_main_loop_grows n : wgrows (main_loop target budget connect_timeout timeout parallel gso patience settings n).
Proof. induction n as [|n IH]; cbn [main_loop]; grow_worker. Qed.
Lemma h3_open_all_grows idxs at_ : wgrows (open_all (RT := RT) target budget connect_timeout timeout gso idxs at_).
Proof. induction idxs as [|i idxs IH]; cbn [open_all]; grow_worker. Qed.

(** *** Completions *)

(** A completion is for the run's timer or for a connection. *)
Lemma ledger_whose w cqe : ledger timed w → sound (Reaped cqe :: whist w) → ∃ e, e ∈ outstanding (whist w) ∧ answers cqe e ∧
  (timer timed e ∨ ∃ i c g op, conns w !! i = Some c ∧ entry_ud e = user_data i g op ∧ well_formed_id i g op).
Proof.
  intros [] [[(e & He & Ha) _] Hn]. exists e. split; [done|]. split; [done|]. cbn [length] in Hn. destruct g_all0 as (olds & timers & Hp & Ho & Ht).
  assert (∀ j c, conns w !! j = Some c → good_gen j (generation c)) as Hgood by (intros j c Hc; pose proof (lookup_lt_Some _ _ _ Hc); specialize (g_gen0 j c Hc); split; lia).
  rewrite Hp, !elem_of_app in He. destruct He as [He|[He|[He|He]]].
  - right. apply elem_of_concat_imap in He as (i & c & Hc & He). exists i, c, (generation c). unfold mine in He. apply elem_of_app in He as [He|He].
    + destruct (out_queue c); [by apply not_elem_of_nil in He|]. destruct (sending c); [|by apply not_elem_of_nil in He]. apply list_elem_of_singleton in He as ->. exists OP_SEND.
      split; [done|]. split; [apply send_entry_ud|]. apply good_id; [by apply Hgood|done].
    + destruct (recv_armed c); [|by apply not_elem_of_nil in He]. apply list_elem_of_singleton in He as ->. exists OP_RECV. split; [done|]. split; [done|]. apply good_id; [by apply Hgood|done].
  - right. apply list_elem_of_fmap in He as (r & -> & Hr). destruct (g_retired0 r Hr) as (j & g & Hid & Hu & c & Hc & _). exists j, c, g, OP_SEND. split; [done|]. split; [|done].
    unfold dead. by rewrite send_entry_ud.
  - right. rewrite Forall_forall in Ho. destruct (Ho e He) as (j & c & Hc & g & Hg & ->). exists j, c, g, OP_RECV. split; [done|]. split; [done|]. destruct (Hgood j c Hc). split_and!; [done|lia|lia|done|done].
  - left. rewrite Forall_forall in Ht. by apply Ht.
Qed.
Lemma ledger_timer w cqe e : ledger timed w → sound (Reaped cqe :: whist w) → e ∈ outstanding (whist w) → answers cqe e → timer timed e → ledger timed (after_reaped cqe w).
Proof.
  intros [] Hs He [Hu Ha] Hti. destruct g_all0 as (olds & timers & Hp & Ho & Ht).
  split; cbn -[outstanding]; try done.
  - intros i c Hc. specialize (g_gen0 i c Hc). lia.
  - cbn. destruct (cqe_more cqe) eqn:Hm; [by exists olds, timers|]. exists olds.
    assert (e ∈ timers) as Hin.
    { rewrite Hp, !elem_of_app in He. destruct He as [He|[He|[He|He]]]; [| | |done]; exfalso; destruct Hti as [Hto _]; destruct Hs as [_ Hn]; cbn [length] in Hn.
      all: assert (∀ j c g op, conns w !! j = Some c → 0 ≤ g ≤ generation c → 0 ≤ op < 4 → entry_ud e ≠ user_data j g op) as Hno
        by (intros j c g op Hc Hg Hop Heq; pose proof (lookup_lt_Some _ _ _ Hc); specialize (g_gen0 j c Hc); rewrite Heq in Hto; revert Hto; apply user_data_not_timeout; split; lia).
      - apply elem_of_concat_imap in He as (i & c & Hc & He). pose proof (g_gen0 i c Hc). unfold mine in He. apply elem_of_app in He as [He|He].
        + destruct (out_queue c); [by apply not_elem_of_nil in He|]. destruct (sending c); [|by apply not_elem_of_nil in He]. apply list_elem_of_singleton in He as ->.
          apply (Hno i c (generation c) OP_SEND); [done|lia|done|apply send_entry_ud].
        + destruct (recv_armed c); [|by apply not_elem_of_nil in He]. apply list_elem_of_singleton in He as ->. apply (Hno i c (generation c) OP_RECV); [done|lia|done|done].
      - apply list_elem_of_fmap in He as (r & -> & Hr). destruct (g_retired0 r Hr) as (j & g & Hid & Hur & c & Hc & ?). apply (Hno j c g OP_SEND); [done|destruct Hid; lia|done|].
        unfold dead. by rewrite send_entry_ud.
      - rewrite Forall_forall in Ho. destruct (Ho e He) as (j & c & Hc & g & Hg & ->). apply (Hno j c g OP_RECV); [done|lia|done|done]. }
    apply elem_of_Permutation in Hin as [timers' Htm]. exists timers'. split; [|split; [done|]].
    + rewrite <- Hu. apply remove_ud_perm; [|done]. rewrite Hp, Htm. solve_Permutation.
    + rewrite Htm in Ht. by apply Forall_cons in Ht as [_ ?].
  - cbn. destruct (cqe_more cqe); [done|]. apply elem_of_Permutation in He as [rest Hrest]. rewrite <- Hu, (remove_ud_perm _ _ _ Hrest g_nodup0).
    rewrite Hrest in g_nodup0. cbn in g_nodup0. by apply NoDup_cons in g_nodup0 as [_ ?].
Qed.

Lemma h3_take_cqe_ok at_ cqe w : good w → wok (take_cqe target budget connect_timeout timeout gso patience at_ cqe) w (λ _ w', good w' ∧ length (conns w') = length (conns w)).
Proof.
  intros (Hl & Ho & Hoc). unfold take_cqe. eapply wok_pure; [reflexivity|]. change (set_ring _ w) with (after_reaped cqe w).
  set (w1 := after_reaped cqe w). apply wok_sound; [grow_worker|]. intros Hs. change (hist (ring_of w1)) with (Reaped cqe :: whist w) in Hs.
  destruct (ledger_whose w cqe Hl Hs) as (e & He & Ha & Hwho). assert (orderly w1) as Ho1 by (by destruct Ho). destruct (Z.eqb_spec (cqe_ud cqe) TIMEOUT_USER_DATA) as [Hto|Hto].
  - destruct Hwho as [Hti|(i & c & g & op & _ & Hu & Hid)]; [|destruct Ha as [Ha _]; rewrite Hu in Ha; rewrite <- Ha in Hto; by apply user_data_not_timeout in Hto].
    eapply wok_last; [reflexivity|]. split; [|done]. pose proof (ledger_timer w cqe e Hl Hs He Ha Hti) as Hl1. split; [by destruct Hl1|]. split; [|by left].
    destruct Ho1. split; try done. intros _. apply Hti.
  - destruct Hwho as [[Hti _]|(i & c & g & op & Hc & Hu & Hid)]; [destruct Ha; congruence|].
    assert (decode_user_data (cqe_ud cqe) = (op, i, g)) as -> by (destruct Ha as [<- _]; rewrite Hu; apply decode_user_data_encoded; destruct Hid as (? & ? & ?); lia).
    assert (sound (whist w)) as Hs0 by (eapply sound_suffix; [|exact Hs]; by exists [Reaped cqe]).
    destruct (ledger_open timed i c w Hl Hs0 Hc) as (others & Hels & Hk).
    destruct (link_reaped others (gone_by w) i (local w c) cqe e (w_world w1) Hk He (proj1 Ha) eq_refl) as [Hk1 He1].
    eapply wok_mono.
    + eapply (at_lift i c w1 others); [done|done|apply Hl|intros j c' Hj; pose proof (g_gen _ _ Hl j c' Hj); cbn [after_reaped w1 w_world hist length]; cbn; lia|apply Hl|done|done|grow_ring| |].
      * eapply (on_cqe_link target budget connect_timeout timeout gso patience others (gone_by w1) i (local w1 c) at_ cqe e op g); [exact Hk1|by apply (o_attentive _ Ho i c)|exact He1|done|done|done].
      * apply (on_cqe_kept target budget connect_timeout timeout gso patience budget_fits). by apply (orderly_kept w1 i c).
    + cbv beta. by intros _ w2 _ (? & ? & _).
Qed.

(** *** The passes *)

Lemma good_quiet {A} (m : eff World error A) w : queues m [] → good w → wok (on_ring m) w (λ _ w', stepped w w').
Proof.
  intros Hq (Hl & Ho & Hoc). apply wok_ring; [done|]. intros a w' Hs Hd. split; [|done]. split; [|split; [by destruct Ho|done]].
  pose proof (did_outstanding _ _ _ Hd) as Eo. pose proof (suffix_length _ _ (did_suffix _ _ _ Hd)) as Hlen. cbn in Eo. destruct Hl. split; cbn; rewrite ?Eo; try done.
  intros i c Hc. specialize (g_gen0 i c Hc). cbn in Hlen. lia.
Qed.
Lemma stepped_trans w1 w2 w3 : stepped w1 w2 → stepped w2 w3 → stepped w1 w3.
Proof. intros (_ & ? & ?) (? & ? & ?). split; [done|split; congruence]. Qed.

Lemma h3_service_at i at_ wait w : good w → (i < length (conns w))%nat →
  wok (at_conn i (service target budget connect_timeout timeout parallel gso patience i at_ wait)) w (λ _ w', stepped w w').
Proof.
  intros Hw Hi. apply at_good; [done|done|apply h3_service_grows|intros; by apply service_link|]. intros; by apply (service_kept target budget connect_timeout timeout parallel gso patience budget_fits).
Qed.
Lemma h3_service_all_ok idxs at_ : ∀ wait w, good w → (∀ i, i ∈ idxs → (i < length (conns w))%nat) →
  wok (service_all target budget connect_timeout timeout parallel gso patience idxs at_ wait) w (λ _ w', stepped w w').
Proof.
  induction idxs as [|i idxs IH]; intros wait w Hw Hi; cbn [service_all]; [by apply wok_ret|].
  eapply wok_bind; [apply h3_service_at; [done|apply Hi; by left]|intros; apply h3_service_all_grows|]. cbv beta. intros wait' w1 _ Hst.
  eapply wok_mono; [apply IH; [apply Hst|]|]. { intros j Hj. destruct Hst as (_ & -> & _). apply Hi. by right. } cbv beta. intros _ w2 _ ?. by eapply stepped_trans.
Qed.
Lemma h3_service_timers_ok w : good w → wok (service_timers target budget connect_timeout timeout parallel gso patience) w (λ _ w', stepped w w').
Proof. intros Hw. unfold service_timers. eapply wok_pure; [reflexivity|]. apply h3_service_all_ok; [done|]. intros i Hi%elem_of_seq. lia. Qed.
Lemma h3_for_conns_ok body w : (∀ i, evolves sgrows (body i)) → (∀ i w, good w → (i < length (conns w))%nat → wok (at_conn i (body i)) w (λ _ w', stepped w w')) →
  good w → wok (for_conns body) w (λ _ w', stepped w w').
Proof.
  intros Hg Hb Hw. unfold for_conns. eapply wok_pure; [reflexivity|].
  eapply wok_mono; [apply (for_each_wok _ _ (λ rest w', stepped w w' ∧ ∀ i, i ∈ rest → (i < length (conns w))%nat))|].
  - intros i. by apply at_conn_sgrows.
  - intros i rest w1 [Hst Hi]. eapply wok_mono; [apply Hb; [apply Hst|]|]. { destruct Hst as (_ & -> & _). apply Hi. by left. }
    cbv beta. intros _ w2 _ Hst2. split; [by eapply stepped_trans|]. intros j Hj. apply Hi. by right.
  - split; [done|]. intros i Hi%elem_of_seq. lia.
  - by intros _ w1 _ [? _].
Qed.
Lemma h3_timeouts_ok t at_ w : good w →
  wok (match t with Some limit => for_conns (λ i, check_timeout target budget connect_timeout timeout gso patience i limit at_) | None => mret tt end) w (λ _ w', stepped w w').
Proof.
  intros Hw. destruct t as [limit|]; [|by apply wok_ret]. apply h3_for_conns_ok; [intros; apply h3_check_timeout_grows| |done]. intros i w1 Hw1 Hi.
  apply at_good; [done|done|apply h3_check_timeout_grows| |intros; by apply (check_timeout_kept target budget connect_timeout timeout gso patience budget_fits)].
  intros others past b l Ht Hn. apply check_timeout_link; [done|]. intros Hq. unfold timed_out, inflight.slot. by rewrite (Hn Hq).
Qed.

Ltac grow_turn := intros; repeat match goal with |- evolves _ (_ ≫= _) => next end;
  first [apply h3_service_all_grows|apply h3_timeouts_grows|apply for_each_sgrows; intros ?; apply h3_take_cqe_grows|apply h3_for_conns_grows; intros ?; apply h3_drive_pending_grows|
         apply on_ring_sgrows, (queues_grows _ []), submit_and_wait_queues|grow_worker].
Lemma h3_turn_ok w : good w → wok (turn target budget connect_timeout timeout parallel gso patience settings) w (λ b w', good w' ∧ length (conns w') = length (conns w) ∧ stop (w_shared w') = b).
Proof.
  intros Hw. unfold turn. eapply wok_bind; [by apply h3_service_timers_ok|grow_turn|].
  cbv beta. intros wait w1 _ (Hw1 & Hl1 & _). eapply wok_pure; [reflexivity|]. eapply wok_bind; [apply good_quiet; [apply submit_and_wait_queues|done]|grow_turn|].
  cbv beta. intros _ w2 _ (Hw2 & Hl2 & _). eapply wok_pure; [reflexivity|].
  eapply wok_bind; [apply (for_each_wok _ _ (λ _ w', good w' ∧ length (conns w') = length (conns w)))|grow_turn|].
  { intros cqe. apply h3_take_cqe_grows. }
  { intros cqe rest w3 [Hw3 Hl3]. eapply wok_mono; [by apply h3_take_cqe_ok|]. cbv beta. intros _ w4 _ [? ?]. split; [done|congruence]. }
  { split; [done|congruence]. }
  cbv beta. intros _ w3 _ [Hw3 Hl3]. eapply wok_pure; [reflexivity|]. cbv zeta.
  eapply wok_bind; [apply h3_for_conns_ok; [intros; apply h3_drive_pending_grows| |done]|grow_turn|].
  { intros i w4 Hw4 Hi. apply at_good; [done|done|apply h3_drive_pending_grows|intros; by apply drive_pending_link|].
    intros; by apply (drive_pending_kept target budget connect_timeout timeout parallel gso patience budget_fits). }
  cbv beta. intros _ w4 _ (Hw4 & Hl4 & _). eapply wok_bind; [by apply h3_timeouts_ok|grow_turn|]. cbv beta. intros _ w5 _ (Hw5 & Hl5 & _).
  eapply wok_pure; [reflexivity|]. apply wok_ret. intros _. split; [done|]. split; [congruence|done].
Qed.

(** How the loop ends, or where it stands when it waits again. *)
Definition looped (ended : bool) (w : Worker) : Prop :=
  good w ∧ if ended then over budget w = true ∨ stop (w_shared w) = true else stop (w_shared w) = false ∧ over budget w = false.
Lemma h3_main_loop_ok n : ∀ w, good w → stop (w_shared w) = false →
  wok (main_loop target budget connect_timeout timeout parallel gso patience settings n) w (λ b w', looped b w').
Proof.
  induction n as [|n IH]; intros w Hw Hst; cbn [main_loop]; (eapply wok_pure; [reflexivity|]);
    (destruct (over budget w) eqn:Hov; [apply wok_ret; intros _; split; auto|]); [by apply wok_ret|].
  eapply wok_bind; [by apply h3_turn_ok|intros []; [grow_worker|apply h3_main_loop_grows]|].
  cbv beta. intros [] w1 _ (Hw1 & _ & Hst1); [|by apply IH]. apply wok_ret. intros _. split; [done|by right].
Qed.

(** *** The first connections *)

Lemma new_conn_inv : conn_inv new_conn.
Proof. destruct (shut_inv connect_timeout timeout true new_conn) as [? _]; [by split_and!|done]. Qed.
Lemma new_conn_vacant : vacant (RT := RT) new_conn.
Proof. done. Qed.
Definition opening (k : nat) (w : Worker) : Prop :=
  ledger timed w ∧ orderly w ∧ stop (w_shared w) = false ∧ (k = 0%nat ∨ occupied w) ∧ ∀ i c, conns w !! i = Some c → (k ≤ i)%nat → c = new_conn.
Lemma h3_open_step k at_ w : opening k w → (k < length (conns w))%nat →
  wok (at_conn k (open_conn target connect_timeout timeout gso k (mret at_))) w (λ _ w', opening (S k) w' ∧ length (conns w') = length (conns w)).
Proof.
  intros (Hl & Ho & Hst & _ & Hnew) Hk. destruct (lookup_lt_is_Some_2 _ _ Hk) as [c Hc]. pose proof (Hnew k c Hc (le_n k)) as ->.
  apply wok_sound; [grow_worker|]. intros Hs. destruct (ledger_open timed k _ w Hl Hs Hc) as (others & He & Hlink).
  assert (wok (open_conn target connect_timeout timeout gso k (mret at_)) (local w new_conn)
    (λ _ l', tended others (gone_by w) k (stop (w_shared w)) l' ∧ quic (self l') ≠ None)) as Hm by (apply (open_conn_link target budget); [done|done|intros; by eexists]).
  assert (http3_turn.run (open_conn target connect_timeout timeout gso k (mret at_)) (local w new_conn) (λ _ l', kept (owing w - weight new_conn) l')) as Hkp
    by (apply open_conn_kept; [by apply (orderly_kept w k)|by split_and!|by intros ?]).
  assert (evolves sgrows (open_conn target connect_timeout timeout gso k (mret at_))) as Hg by grow_ring.
  unfold wok, holds, at_conn in *. rewrite Hc. unfold http3_turn.run, sat, holds in Hkp. specialize (Hg (local w new_conn)).
  destruct (open_conn _ _ _ _ _ _ (local w new_conn)) as [[a|e] l']; [|done]. intros Hs'. cbn in Hs'. destruct (Hm Hs') as [(Hl' & Hat & Hst') Hq].
  split; [|apply length_insert]. split; [eapply ledger_close; [apply Hl|apply Hl|intros; by eapply (g_front _ _ Hl)|done|done|done|done]|].
  split; [by eapply h3_orderly_absorb|]. split; [cbn in *; congruence|]. split.
  - right. right. left. exists k, (self l'). split; [by apply list_lookup_insert_eq|done].
  - intros j c' Hj Hle. cbn in Hj. rewrite list_lookup_insert_ne in Hj by lia. eapply Hnew; [done|lia].
Qed.

Hypothesis budget_some : budget.may_start budget 0 = true.
Lemma h3_open_all_ok n at_ : ∀ k w, opening k w → (k + n = length (conns w))%nat → (0 < length (conns w))%nat →
  wok (open_all (RT := RT) target budget connect_timeout timeout gso (seq k n) at_) w (λ _ w', good w' ∧ stop (w_shared w') = false).
Proof.
  assert (∀ k w, opening k w → (0 < k)%nat → good w ∧ stop (w_shared w) = false) as Hdone by (intros k w (? & ? & ? & [?|?] & _) ?; [lia|done]).
  induction n as [|n IH]; intros k w Hop Hlen Hpos; cbn [seq open_all]; [apply wok_ret; intros _; eapply Hdone; [done|lia]|].
  destruct (budget.may_start budget (Z.of_nat k)) eqn:Hms; cbn [negb].
  - eapply wok_bind; [apply h3_open_step; [done|lia]|intros; apply h3_open_all_grows|]. cbv beta. intros _ w1 _ [Hop1 Hl1]. apply IH; [done|lia|lia].
  - apply wok_ret. intros _. eapply Hdone; [done|]. destruct k; [|lia]. change (Z.of_nat 0) with 0 in Hms. congruence.
Qed.

Lemma h3_setup_ok connections : (0 < connections)%nat → Z.of_nat connections ≤ 2 ^ CONN_IDX_BITS →
  wok (setup (RT := RT) target budget connect_timeout timeout gso connections) cold (λ _ w, good w ∧ stop (w_shared w) = false).
Proof.
  intros Hpos Hn. unfold setup, wok, holds. rewrite bind_run. destruct (buf_ring.with_buffer_size _ _) as [p|e]; cbn [lift]; [|done].
  rewrite bind_run. cbn [modify]. match goal with |- context [(_ ≫= _) ?x] => set (w1 := x) end.
  change (wok (_ ← on_ring (arm_deadline (budget.deadline budget)); w ← get; open_all target budget connect_timeout timeout gso (seq 0 connections) (k_now (w_world w))) w1
    (λ _ w, good w ∧ stop (w_shared w) = false)).
  assert (length (conns w1) = connections) as Hl1 by apply length_replicate.
  assert (∀ i c, conns w1 !! i = Some c → c = new_conn ∧ (i < connections)%nat) as Hrep by (intros i c Hc; by apply lookup_replicate in Hc).
  eapply (wok_bind _ _ _ (λ _ w, opening 0 w ∧ length (conns w) = connections)); [|intros; apply evolves_bind; [apply _|grow_worker|intros; apply h3_open_all_grows]|
    intros _ w2 _ [? ?]; eapply wok_pure; [reflexivity|]; apply h3_open_all_ok; [done|lia|lia]].
  unfold wok, holds, on_ring. pose proof (arm_deadline_queues (budget.deadline budget) (w_world w1)) as Hq. cbn [ring_of Worker_ring].
  destruct (arm_deadline _ _) as [[u|e] w2]; [|done]. intros _. split; [|done].
  set (tm := match budget.deadline budget with Some after => [Timeout TIMEOUT_USER_DATA after] | None => [] end) in *.
  assert (outstanding (hist w2) = tm) as Eo by (rewrite (did_outstanding _ _ _ Hq); apply app_nil_r).
  assert (Forall (timer timed) tm) as Htm by (unfold tm, timer, timed; destruct budget; cbn; constructor; [split_and!; [done|done|by eexists]|done]).
  assert (owing w1 = 0) as Hload by (apply load_zero; intros c (i & Hc)%list_elem_of_lookup; by destruct (Hrep i c Hc) as [-> _]).
  split_and!; [| |done|by left|intros i c Hc _; by destruct (Hrep i c Hc)].
  - split; change (conns (set_ring w2 w1)) with (conns w1); change (w_world (set_ring w2 w1)) with w2; rewrite ?Hl1; try done.
    + intros i c [-> _]%Hrep. cbn. lia.
    + intros i c [-> _]%Hrep. done.
    + exists [], tm. split; [|done]. rewrite Eo. cbn. assert (concat (imap (mine (RT := RT)) (replicate connections new_conn)) = []) as ->; [|done].
      apply elem_of_nil_inv. intros e (i & c & Hc & He)%elem_of_concat_imap. destruct (Hrep i c Hc) as [-> _]. by apply not_elem_of_nil in He.
    + intros r Hr. by apply not_elem_of_nil in Hr.
    + rewrite Eo. unfold tm. destruct (budget.deadline budget); cbn; [apply NoDup_singleton|apply NoDup_nil_2].
  - split; change (conns (set_ring w2 w1)) with (conns w1); change (w_shared (set_ring w2 w1)) with (w_shared w1); rewrite ?Hload; try done.
    + intros i c [-> _]%Hrep. apply new_conn_inv.
    + intros i c [-> _]%Hrep. by apply vacant_attentive.
    + change (balanced budget 0 0). unfold balanced. destruct budget as [n|]; [|done]. cbn in *. apply Z.ltb_lt in budget_some. lia.
Qed.
End loop.
End http3_loop.
