(* ===== verification/Http3WorkerEnd.v ===== *)
(** * The end of an HTTP/3 worker's run

    After the loop the worker cancels what is with the kernel and waits until
    every send has completed; only then are the sockets closed and the datagrams
    freed.  The counts it reports are no longer touched. *)

From S2P Require Import Prelude Effects Varint QuicPacket QuicRecovery QuicRecvStream QuicSendStream QuicStreams QuicConn Status Stats Inflight Target Requests H3Proto Uring UringRun UringConn Http3Recv Http3Worker Http3WorkerRing Http3WorkerLoop.
From stdpp Require Import relations.
#[local] Open Scope Z_scope.

Module http3_end.
Import uring uring_run uring_conn http3 http3_ring http3_loop.

(** ** Sends *)

Definition sends_of (es : list Entry) : list Entry := filter (λ e, is_send e = true) es.
#[global] Instance sends_of_perm : Proper ((≡ₚ) ==> (≡ₚ)) sends_of.
Proof. intros l l' Hl. unfold sends_of. by rewrite Hl. Qed.
Lemma sends_of_app es es' : sends_of (es ++ es') = sends_of es ++ sends_of es'.
Proof. apply filter_app. Qed.
Lemma sends_of_none es : Forall (λ e, is_send e = false) es → sends_of es = [].
Proof. intros He. unfold sends_of. apply elem_of_nil_inv. intros e [Hs Hin]%list_elem_of_filter. rewrite Forall_forall in He. specialize (He e Hin). congruence. Qed.
Lemma sends_of_all es : Forall (λ e, is_send e = true) es → sends_of es = es.
Proof. intros He. induction He as [|e es He _ IH]; [done|]. unfold sends_of in *. by rewrite filter_cons_True, IH. Qed.
Lemma elem_of_sends e es : e ∈ sends_of es ↔ is_send e = true ∧ e ∈ es.
Proof. unfold sends_of. by rewrite list_elem_of_filter. Qed.

Section after.
Context `{RT : Rustls} `{ST : UnstableSort (Z * bytes)} `{KN : Kernel} `{RM : RecvMsg} `{EN : Entropy} {SocketAddr : Type}.
Variables (target : target.Target SocketAddr) (budget : budget.Budget) (connect_timeout : Z) (timeout : option Z) (parallel : nat) (gso : bool) (patience : nat).
Variable settings : Settings.
Variable timed : Prop.
Abbreviation Conn := (Conn (RT := RT)).
Abbreviation Worker := (Worker Conn Shared).
Abbreviation L := (Local Conn Shared).
Abbreviation M := (eff L error).
Abbreviation whist w := (hist (w_world w)).
Abbreviation ud i c op := (user_data i (generation c) op).

(** The send a connection waits for. *)
Definition front (i : nat) (c : Conn) : list Entry :=
  match out_queue c with d :: _ => if sending c then [send_entry i (ud i c OP_SEND) d] else [] | [] => [] end.
Lemma mine_sends i c : sends_of (mine i c) = front i c.
Proof.
  unfold mine, front. rewrite sends_of_app. assert (sends_of (if recv_armed c then [RecvMsgMulti i (ud i c OP_RECV)] else []) = []) as -> by by destruct (recv_armed c). rewrite app_nil_r.
  destruct (out_queue c) as [|d q]; [done|]. destruct (sending c); [|done]. apply sends_of_all. constructor; [apply send_entry_send|done].
Qed.
Lemma mine_all_sends cs : ∀ f (g : nat → Conn → list Entry), (∀ i c, sends_of (f i c) = g i c) → sends_of (concat (imap f cs)) = concat (imap g cs).
Proof. induction cs as [|c cs IH]; intros f g Hf; [done|]. cbn. rewrite sends_of_app, Hf. f_equal. by apply IH; intros; apply Hf. Qed.

(** Every send outstanding is the front of a queue or retired; what else is
    outstanding has the ids of receives, or the timer's. *)
Record owned (w : Worker) : Prop := {
  q_good i c : conns w !! i = Some c → good_gen i (generation c);
  q_front i c : conns w !! i = Some c → sending c = true → out_queue c ≠ [];
  q_sends : sends_of (outstanding (whist w)) ≡ₚ concat (imap front (conns w)) ++ (dead <$> retired (w_shared w));
  q_rest e : e ∈ outstanding (whist w) → is_send e = false → entry_ud e = TIMEOUT_USER_DATA ∨ ∃ j g, well_formed_id j g OP_RECV ∧ entry_ud e = user_data j g OP_RECV;
  q_retired r : r ∈ retired (w_shared w) → ∃ j g, well_formed_id j g OP_SEND ∧ r_user_data r = user_data j g OP_SEND ∧ gone_by w j g;
  q_nodup : NoDup (entry_ud <$> outstanding (whist w));
}.
Lemma dead_sends rs : sends_of (dead <$> rs) = dead <$> rs.
Proof. apply sends_of_all, Forall_fmap, Forall_true. intros r. apply send_entry_send. Qed.
Lemma ledger_owned w : ledger timed w → sound (whist w) → owned w.
Proof.
  intros [] [_ Hn]. destruct g_all0 as (olds & timers & Hp & Ho & Ht). rewrite Forall_forall in Ho, Ht.
  assert (∀ j c, conns w !! j = Some c → good_gen j (generation c)) as Hgood by (intros j c Hc; pose proof (lookup_lt_Some _ _ _ Hc); specialize (g_gen0 j c Hc); split; lia).
  split; try done.
  - rewrite Hp, !sends_of_app, dead_sends, (sends_of_none olds), (sends_of_none timers), !app_nil_r.
    + by rewrite (mine_all_sends _ mine front mine_sends).
    + apply Forall_forall. intros e He. by apply (Ht e He).
    + apply Forall_forall. intros e He. by destruct (Ho e He) as (j & c & _ & g & _ & ->).
  - intros e He Hse. rewrite Hp, !elem_of_app in He. destruct He as [He|[He|[He|He]]].
    + apply elem_of_concat_imap in He as (i & c & Hc & He). unfold mine in He. apply elem_of_app in He as [He|He].
      * destruct (out_queue c); [by apply not_elem_of_nil in He|]. destruct (sending c); [|by apply not_elem_of_nil in He]. apply list_elem_of_singleton in He as ->. by rewrite send_entry_send in Hse.
      * destruct (recv_armed c); [|by apply not_elem_of_nil in He]. apply list_elem_of_singleton in He as ->. right. exists i, (generation c). split; [|done]. apply good_id; [by apply Hgood|done].
    + apply list_elem_of_fmap in He as (r & -> & _). unfold dead in Hse. by rewrite send_entry_send in Hse.
    + destruct (Ho e He) as (j & c & Hc & g & Hg & ->). right. exists j, g. split; [|done]. destruct (Hgood j c Hc). split_and!; [done|lia|lia|done|done].
    + left. by apply (Ht e He).
Qed.

(** *** Histories only grow *)

Ltac grow_all := grow_ring; try match goal with |- sgrows ?w _ => apply (reflexivity (w_world w)) end.
Abbreviation wgrows m := (evolves (E := error) (sgrows (S := Worker)) m).
Lemma h3_drain_final_grows cqe : wgrows (drain_final cqe).
Proof. unfold drain_final. grow_all. Qed.
Lemma h3_drain_final_completions_grows : wgrows drain_final_completions.
Proof. pose proof h3_drain_final_grows. unfold drain_final_completions. grow_all. Qed.
Lemma h3_reap_sends_grows fuel : ∀ deadline wait, wgrows (reap_sends settings fuel deadline wait).
Proof. pose proof h3_drain_final_completions_grows. induction fuel as [|fuel IH]; intros deadline wait; cbn [reap_sends]; grow_all. Qed.
Lemma h3_goodbyes_grows at_ : wgrows (for_conns (λ i, say_goodbye i at_)).
Proof. unfold for_conns. grow_all. Qed.

Lemma h3_finish_grows : wgrows (finish patience settings).
Proof. pose proof h3_goodbyes_grows. pose proof h3_reap_sends_grows. unfold finish, finish_io. grow_all. Qed.

(** *** One completion *)

(** A completion that is not a send's leaves the sends alone; a send's takes its
    entry off. *)
Lemma sends_reaped h cqe e : NoDup (entry_ud <$> outstanding h) → e ∈ outstanding h → answers cqe e →
  NoDup (entry_ud <$> outstanding (Reaped cqe :: h)) ∧ (∀ x, x ∈ outstanding (Reaped cqe :: h) → x ∈ outstanding h) ∧
  (if is_send e then sends_of (outstanding h) ≡ₚ e :: sends_of (outstanding (Reaped cqe :: h)) else sends_of (outstanding (Reaped cqe :: h)) ≡ₚ sends_of (outstanding h)).
Proof.
  intros Hnd He [Hu Ha]. apply elem_of_Permutation in He as [rest Hr]. cbn [outstanding].
  assert (is_send e = true → cqe_more cqe = false) as Hm by (destruct e; try done; by destruct Ha). destruct (cqe_more cqe).
  - split; [done|]. split; [done|]. destruct (is_send e); [by specialize (Hm eq_refl)|done].
  - rewrite <- Hu. pose proof (remove_ud_perm _ _ _ Hr Hnd) as Hrm. split; [rewrite Hrm; rewrite Hr in Hnd; by apply NoDup_cons in Hnd as [_ ?]|].
    split; [intros x; rewrite Hrm, Hr; by right|]. destruct (is_send e) eqn:Hse; rewrite Hrm, Hr; unfold sends_of; [by rewrite filter_cons_True|rewrite filter_cons_False; [done|congruence]].
Qed.
(** A send's completion is for its connection, or for one that is gone. *)
Lemma owned_whose w e : owned w → e ∈ outstanding (whist w) → is_send e = true →
  ∃ i g c, entry_ud e = user_data i g OP_SEND ∧ well_formed_id i g OP_SEND ∧ conns w !! i = Some c ∧
    (if decide (g = generation c) then sending c = true ∧ front i c = [e] else ∃ r, r ∈ retired (w_shared w) ∧ e = dead r ∧ r_user_data r = user_data i g OP_SEND).
Proof.
  intros [] He Hs. assert (e ∈ sends_of (outstanding (whist w))) as Hin by by apply elem_of_sends. rewrite q_sends0, elem_of_app in Hin. destruct Hin as [Hin|Hin].
  - apply elem_of_concat_imap in Hin as (i & c & Hc & Hin). pose proof (good_id _ _ OP_SEND (q_good0 i c Hc) ltac:(done)) as Hid. unfold front in Hin.
    destruct (out_queue c) as [|d q] eqn:Eq; [by apply not_elem_of_nil in Hin|]. destruct (sending c) eqn:Es; [|by apply not_elem_of_nil in Hin]. apply list_elem_of_singleton in Hin as ->.
    exists i, (generation c), c. rewrite send_entry_ud, decide_True by done. unfold front. by rewrite Eq, Es.
  - apply list_elem_of_fmap in Hin as (r & -> & Hr). destruct (q_retired0 r Hr) as (j & g & Hid & Hu & c & Hc & Hlt). exists j, g, c. unfold dead. rewrite send_entry_ud, decide_False by lia.
    split_and!; try done. by exists r.
Qed.

Lemma nodup_ud_eq (l : list Entry) a b : NoDup (entry_ud <$> l) → a ∈ l → b ∈ l → entry_ud a = entry_ud b → a = b.
Proof.
  intros Hnd Ha Hb Heq. apply elem_of_Permutation in Ha as [rest Hr]. rewrite Hr in Hb, Hnd. apply elem_of_cons in Hb as [->|Hb]; [done|]. exfalso.
  cbn in Hnd. apply NoDup_cons in Hnd as [Hn _]. apply Hn. rewrite Heq. by apply list_elem_of_fmap_2.
Qed.
(** The state of the ring, and what does not matter for sends. *)
Lemma owned_same w w' : owned w → outstanding (whist w') = outstanding (whist w) → conns w' = conns w → retired (w_shared w') = retired (w_shared w) → owned w'.
Proof.
  intros [] Eo Ec Er. split; unfold gone_by in *; rewrite ?Eo, ?Ec, ?Er; done.
Qed.

(** The send of a connection has completed. *)
Lemma owned_popped w w2 i c e x : owned w → conns w !! i = Some c → front i c = [e] → sends_of (outstanding (whist w)) ≡ₚ e :: sends_of (outstanding (hist w2)) →
  NoDup (entry_ud <$> outstanding (hist w2)) → (∀ x, x ∈ outstanding (hist w2) → x ∈ outstanding (whist w)) → retired x = retired (w_shared w) →
  owned (mkWorker w2 (<[i := c <| sending := false |> <| out_queue := tail (out_queue c) |>]> (conns w)) x).
Proof.
  intros [] Hc Hf Hs Hnd Hsub Er. pose proof (lookup_lt_Some _ _ _ Hc) as Hlt.
  assert (∀ j c', <[i := c <| sending := false |> <| out_queue := tail (out_queue c) |>]> (conns w) !! j = Some c' →
    (∃ c0, conns w !! j = Some c0 ∧ generation c' = generation c0) ∧ (sending c' = true → conns w !! j = Some c')) as Hlook.
  { intros j c' Hj. apply list_lookup_insert_Some in Hj as [(-> & <- & _)|[_ Hj]]; [split; [by exists c|done]|split; [by exists c'|done]]. }
  split; cbn; rewrite ?Er; try done.
  - intros j c' [(c0 & Hj & ->) _]%Hlook. by apply q_good0.
  - intros j c' [_ Hj]%Hlook Hsd. eapply q_front0; eauto.
  - rewrite concat_imap_insert by done. rewrite q_sends0 in Hs. rewrite <- (list_insert_id (conns w) i c Hc) in Hs at 1. rewrite concat_imap_insert, Hf in Hs by done.
    cbn in Hs. apply Permutation_cons_inv in Hs. rewrite <- Hs. unfold front at 2. cbn. by destruct (tail (out_queue c)).
  - intros e0 He0. apply q_rest0. by apply Hsub.
  - intros r Hr. destruct (q_retired0 r Hr) as (j & g & ? & ? & c0 & Hc0 & ?). exists j, g. split_and!; try done. destruct (decide (j = i)) as [-> |Hne].
    + eexists. split; [by apply list_lookup_insert_eq|]. cbn. congruence.
    + exists c0. split; [|done]. cbn. by rewrite list_lookup_insert_ne.
Qed.
(** The send of a connection that is gone has completed. *)
Lemma owned_retired w w2 e x k r : owned w → retired (w_shared w) !! k = Some r → dead r = e → sends_of (outstanding (whist w)) ≡ₚ e :: sends_of (outstanding (hist w2)) →
  NoDup (entry_ud <$> outstanding (hist w2)) → (∀ x, x ∈ outstanding (hist w2) → x ∈ outstanding (whist w)) → retired x = swap_remove k (retired (w_shared w)) →
  owned (mkWorker w2 (conns w) x).
Proof.
  intros [] Hk <- Hs Hnd Hsub Er. pose proof (swap_remove_perm _ _ _ Hk) as Hp. split; cbn; rewrite ?Er; try done.
  - rewrite Hp in q_sends0. rewrite q_sends0 in Hs. cbn in Hs. rewrite <- Permutation_middle in Hs. apply Permutation_cons_inv in Hs. by rewrite <- Hs.
  - intros e0 He0. apply q_rest0. by apply Hsub.
  - intros r' Hr'. destruct (q_retired0 r') as (j & g & ? & ? & ?); [rewrite Hp; by right|]. by exists j, g.
Qed.

(** The completions of sends still outstanding, and of what was cancelled. *)
Lemma drain_final_owned cqe w : owned w → wok (drain_final cqe) w (λ _ w', owned w').
Proof.
  intros Hw. unfold drain_final. eapply wok_pure; [reflexivity|]. change (set_ring _ w) with (after_reaped cqe w). set (w1 := after_reaped cqe w).
  apply wok_sound; [grow_all|]. intros Hs. change (hist (ring_of w1)) with (Reaped cqe :: whist w) in Hs. destruct Hs as [[(e & He & Ha) _] _].
  pose proof (sends_reaped _ _ _ (q_nodup _ Hw) He Ha) as (Hnd & Hsub & Hse).
  (* the buffer goes back *)
  eapply (wok_bind _ _ _ (λ _ w', outstanding (whist w') = outstanding (whist w1) ∧ conns w' = conns w ∧ retired (w_shared w') = retired (w_shared w))); [|intros _; grow_all|].
  { destruct (cqe_buffer cqe) as [bid|]; [|by apply wok_ret]. eapply wok_pure; [reflexivity|]. by eapply wok_last; [reflexivity|]. }
  cbv beta. intros _ w2 Hs2 (Eo2 & Ec2 & Er2). change (whist w1) with (Reaped cqe :: whist w) in Eo2. destruct (is_send e) eqn:Hise.
  - destruct (owned_whose w e Hw He Hise) as (i & g & c & Hu & Hid & Hc & Hwho).
    assert (cqe_ud cqe = user_data i g OP_SEND) as Hcu by (destruct Ha; congruence).
    rewrite (proj2 (Z.eqb_neq _ _)) by (rewrite Hcu; by apply user_data_not_timeout).
    assert (decode_user_data (cqe_ud cqe) = (OP_SEND, i, g)) as -> by (rewrite Hcu; apply decode_user_data_encoded; destruct Hid as (? & ? & ?); lia).
    change (negb (OP_SEND =? OP_SEND)) with false. cbv iota. unfold wok, holds, at_conn. rewrite Ec2, Hc. unfold last_cqe.
    rewrite <- Eo2 in Hse, Hnd, Hsub.
    assert (∀ B (f : Conn → M B), (me ≫= f) (local w2 c) = f c (local w2 c)) as Hme by done. rewrite Hme. case_decide as Hg.
    + subst g. destruct Hwho as [Hsd Hfr]. rewrite Z.eqb_refl, Hsd. cbn [negb when].
      assert (∀ x, retired x = retired (w_shared w) → owned (mkWorker (w_world w2) (<[i := c <| sending := false |> <| out_queue := tail (out_queue c) |>]> (conns w2)) x)) as Hgo.
      { intros x Hx. rewrite Ec2. by eapply owned_popped. }
      destruct (0 <? cqe_result cqe); cbn; intros _; apply Hgo; done.
    + destruct Hwho as (r & Hr & -> & Hur). rewrite (proj2 (Z.eqb_neq _ _) Hg). cbn [negb].
      unfold complete_retired_send. assert (∀ B (f : L → M B), (get ≫= f) (local w2 c) = f (local w2 c) (local w2 c)) as Hget by done. rewrite Hget. cbn [shared local]. rewrite Er2, Hcu.
      destruct (list_find _ _) as [[k r']|] eqn:Hfind; [|apply list_find_None in Hfind; rewrite Forall_forall in Hfind; by destruct (Hfind r Hr)].
      apply list_find_Some in Hfind as (Hk & Hu' & _).
      assert (dead r' = dead r) as Hd.
      { assert (∀ x, x ∈ retired (w_shared w) → dead x ∈ outstanding (whist w)) as Hin.
        { intros x Hx. apply (elem_of_sends (dead x)). rewrite (q_sends _ Hw). apply elem_of_app. right. by apply list_elem_of_fmap_2. }
        apply (nodup_ud_eq (outstanding (whist w))); [apply Hw|apply Hin; by eapply list_elem_of_lookup_2|by apply Hin|].
        unfold dead. rewrite !send_entry_ud. congruence. }
      assert (∀ x, retired x = swap_remove k (retired (w_shared w)) → owned (mkWorker (w_world w2) (<[i := c]> (conns w2)) x)) as Hgo.
      { intros x Hx. rewrite Ec2, list_insert_id by done. by eapply owned_retired. }
      destruct (0 <? cqe_result cqe); cbn; intros _; apply Hgo; cbn; by rewrite Er2.
  - assert (owned w2) as Hw2.
    { destruct Hw. split; unfold gone_by in *; rewrite ?Eo2, ?Ec2, ?Er2; try done; [by rewrite Hse|]. intros x Hx. apply q_rest0. by apply Hsub. }
    destruct (q_rest _ Hw e He Hise) as [Hto|(j & g & Hid & Hu)].
    + destruct Ha as [<- _]. rewrite Hto, Z.eqb_refl. by apply wok_ret.
    + destruct Ha as [<- _]. rewrite Hu. rewrite (proj2 (Z.eqb_neq _ _)) by by apply user_data_not_timeout.
      rewrite decode_user_data_encoded; [|destruct Hid as (? & ? & ?); lia..]. by apply wok_ret.
Qed.

(** *** Waiting for the sends *)

Lemma owned_quiet {A} (m : eff World error A) w : queues m [] → owned w → wok (on_ring m) w (λ _ w', owned w').
Proof. intros Hq Hw. apply wok_ring; [done|]. intros a w' _ Hd. apply (owned_same w); [done|by apply (did_outstanding _ _ _ Hd)|done|done]. Qed.

(** Nothing the kernel was given to send is still with it. *)
Definition all_sent (w : Worker) : Prop := sends_of (outstanding (whist w)) = [].
Lemma owned_all_sent w : owned w → existsb sending (conns w) = false → retired (w_shared w) = [] → all_sent w.
Proof.
  intros [] He Hr. unfold all_sent. apply elem_of_nil_inv. intros e Hin. rewrite q_sends0, Hr in Hin. cbn in Hin. rewrite app_nil_r in Hin.
  apply elem_of_concat_imap in Hin as (i & c & Hc & Hin). assert (sending c = false) as Hs.
  { destruct (sending c) eqn:Hs; [|done]. rewrite <- He. symmetry. apply existsb_exists. exists c. split; [|done]. apply list_elem_of_In. by eapply list_elem_of_lookup_2. }
  unfold front in Hin. rewrite Hs in Hin. destruct (out_queue c); by apply not_elem_of_nil in Hin.
Qed.
Lemma drain_final_completions_owned w : owned w → wok drain_final_completions w (λ _ w', owned w').
Proof.
  intros Hw. unfold drain_final_completions. eapply wok_pure; [reflexivity|]. apply (for_each_wok _ _ (λ _ w', owned w')); [apply h3_drain_final_grows| |done].
  intros cqe _ w1 Hw1. by apply drain_final_owned.
Qed.
Lemma reap_sends_all_sent fuel : ∀ deadline wait w, owned w → wok (reap_sends settings fuel deadline wait) w (λ _ w', all_sent w').
Proof.
  pose proof h3_drain_final_completions_grows as Hgd. pose proof h3_reap_sends_grows as Hgr. induction fuel as [|fuel IH]; intros deadline wait w Hw; cbn [reap_sends].
  all: eapply wok_bind; [apply owned_quiet; [apply submit_and_wait_queues|done]|intros; grow_all|]; cbv beta; intros _ w1 _ Hw1.
  all: eapply wok_bind; [by apply drain_final_completions_owned|intros; grow_all|]; cbv beta; intros _ w2 _ Hw2; eapply wok_pure; [reflexivity|].
  all: destruct (negb (existsb sending (conns w2)) && bool_decide (retired (w_shared w2) = [])) eqn:Hd;
    [apply andb_prop in Hd as [Hsd%negb_true_iff Hr%bool_decide_eq_true]; apply wok_ret; intros _; by apply owned_all_sent|].
  - cbv zeta. by destruct (_ <=? _).
  - cbv zeta. destruct (_ <=? _); [done|]. by apply IH.
Qed.

(** *** Nothing is sent, and nothing counted, after that *)

(** What was asked of the kernel stays as it was, and so do the accounts. *)
Definition settled_up (x x' : Shared) : Prop :=
  stats.completed (stats x') = stats.completed (stats x) ∧ stats.errors (stats x') = stats.errors (stats x).
Definition counted (l l' : L) : Prop := settled_up (shared l) (shared l').
#[global] Instance h3_counted_preorder : PreOrder counted.
Proof. split; [by intros l|]. intros l1 l2 l3 [] []. split; congruence. Qed.
Definition wcounted (w w' : Worker) : Prop := settled_up (w_shared w) (w_shared w').
#[global] Instance h3_wcounted_preorder : PreOrder wcounted.
Proof. split; [by intros w|]. intros l1 l2 l3 [] []. split; congruence. Qed.
Lemma h3_counted_ring {A} (m : eff World error A) : evolves counted (on_ring m).
Proof. intros l. unfold on_ring. by destruct (m (ring_of l)). Qed.
Lemma h3_counted_attempt {A} (m : M A) : evolves counted m → evolves counted (attempt m).
Proof. intros Hm l. specialize (Hm l). unfold attempt. by destruct (m l) as [[a|[]] l']. Qed.
Lemma h3_counted_quic {A} (m : eff (connection.Connection (RT := RT)) conn_streams.conn_error A) : evolves counted (on_quic m).
Proof.
  intros l. unfold on_quic. rewrite bind_run. unfold me. rewrite bind_run. cbn. destruct (quic (self l)) as [q|]; [|done]. destruct (m q) as [r q']. rewrite bind_run. cbn. by destruct r.
Qed.
Lemma h3_counted_conn {A} i (m : M A) : evolves counted m → evolves wcounted (at_conn i m).
Proof.
  intros Hm w. unfold at_conn. destruct (conns w !! i) as [c|]; [|done]. specialize (Hm (local w c)). by destruct (m (local w c)) as [r l].
Qed.
Lemma h3_wcounted_ring {A} (m : eff World error A) : evolves wcounted (on_ring m).
Proof. intros w. unfold on_ring. by destruct (m (ring_of w)). Qed.
#[local] Hint Resolve h3_counted_ring h3_counted_attempt h3_counted_quic h3_counted_conn h3_wcounted_ring : rings.
Ltac counts := repeat (progress evolve || case_bool_decide); eauto with rings; try done.
Lemma h3_close_counted i : evolves counted (close i).
Proof. unfold close. counts. Qed.
Lemma h3_say_goodbye_counted i at_ : evolves counted (say_goodbye i at_).
Proof. pose proof (h3_close_counted i). unfold say_goodbye. counts. Qed.
Lemma h3_last_cqe_counted g cqe : evolves counted (last_cqe g cqe).
Proof. unfold last_cqe, complete_retired_send, pop_front. counts. Qed.
#[local] Hint Resolve h3_say_goodbye_counted h3_last_cqe_counted : rings.
Lemma h3_drain_final_counted cqe : evolves wcounted (drain_final cqe).
Proof. unfold drain_final. counts. Qed.
Lemma h3_drain_final_completions_counted : evolves wcounted drain_final_completions.
Proof. unfold drain_final_completions. apply evolves_bind; [apply _|counts|]. intros w. apply evolves_for_each; [apply _|apply h3_drain_final_counted]. Qed.
#[local] Hint Resolve h3_drain_final_completions_counted : rings.
Lemma h3_reap_sends_counted fuel : ∀ deadline wait, evolves wcounted (reap_sends settings fuel deadline wait).
Proof. induction fuel as [|fuel IH]; intros deadline wait; cbn [reap_sends]; counts. Qed.
#[local] Hint Resolve h3_reap_sends_counted : rings.
Lemma h3_finish_counted : evolves wcounted (finish patience settings).
Proof.
  assert (∀ at_, evolves wcounted (for_conns (λ i, say_goodbye i at_))) as Hg.
  { intros at_. unfold for_conns. apply evolves_bind; [apply _|counts|]. intros w. apply evolves_for_each; [apply _|]. intros i. apply h3_counted_conn, h3_say_goodbye_counted. }
  unfold finish, finish_io. counts.
Qed.

(** Closing the sockets queues nothing. *)
Definition lull (l l' : L) : Prop := outstanding (hist (world l')) = outstanding (hist (world l)).
#[global] Instance lull_preorder : PreOrder lull.
Proof. split; [by intros l|]. intros l1 l2 l3 H1 H2. unfold lull in *. congruence. Qed.
Lemma lull_ring {A} (m : eff World error A) : queues m [] → evolves lull (on_ring m).
Proof. intros Hq l. specialize (Hq (world l)). unfold on_ring. cbn. destruct (m (world l)) as [[a|e] w']; apply (did_outstanding _ _ _ Hq). Qed.
Lemma lull_attempt {A} (m : M A) : evolves lull m → evolves lull (attempt m).
Proof. intros Hm l. specialize (Hm l). unfold attempt. by destruct (m l) as [[a|[]] l']. Qed.
Lemma lull_quic {A} (m : eff (connection.Connection (RT := RT)) conn_streams.conn_error A) : evolves lull (on_quic m).
Proof. intros l. unfold lull. by rewrite (f_world _ _ (off_on_quic m l)). Qed.
Lemma say_goodbye_lull i at_ : evolves lull (say_goodbye i at_).
Proof.
  unfold say_goodbye, close.
  repeat (progress evolve || case_bool_decide); eauto using lull_ring, lull_attempt, lull_quic, raw_send_queues, close_fd_queues; try done.
Qed.
Lemma goodbyes_all_sent at_ w : all_sent w → all_sent (for_conns (λ i, say_goodbye i at_) w).2.
Proof.
  intros Hw. unfold for_conns. rewrite bind_run. cbn [get]. generalize (seq 0 (length (conns w))). intros l. revert w Hw.
  induction l as [|i l IH]; intros w Hw; [done|]. cbn [for_each]. rewrite bind_run.
  assert (all_sent (at_conn i (say_goodbye i at_) w).2) as H1.
  { unfold at_conn. destruct (conns w !! i) as [c|]; [|done]. pose proof (say_goodbye_lull i at_ (local w c)) as Hl. destruct (say_goodbye i at_ (local w c)) as [r l'].
    unfold all_sent. cbn in *. unfold lull in Hl. cbn in Hl. by rewrite Hl. }
  destruct (at_conn i (say_goodbye i at_) w) as [[[]|e] w1]; [by apply IH|done].
Qed.

(** A worker that has finished has nothing to send with the kernel. *)
Lemma finish_all_sent w : owned w → wok (finish patience settings) w (λ s w', all_sent w' ∧ s = stats (w_shared w')).
Proof.
  intros Hw. unfold finish, finish_io. pose proof h3_goodbyes_grows as Hgg. pose proof h3_reap_sends_grows as Hgr.
  eapply (wok_bind _ _ _ (λ _ w', all_sent w')); [|intros; grow_all|].
  - eapply wok_bind; [apply owned_quiet; [apply drain_sq_queues|done]|intros; grow_all|]. cbv beta. intros _ w1 _ Hw1.
    eapply wok_bind; [apply owned_quiet; [apply sync_cancel_queues|done]|intros; grow_all|]. cbv beta. intros _ w2 _ Hw2. eapply wok_pure; [reflexivity|]. by apply reap_sends_all_sent.
  - cbv beta. intros _ w1 _ Hw1. eapply wok_pure; [reflexivity|]. cbv zeta. unfold wok, holds. rewrite bind_run. pose proof (goodbyes_all_sent (k_now (w_world w1)) w1 Hw1) as Hg.
    destruct (for_conns _ w1) as [[[]|e] w2]; [|done]. by intros _.
Qed.
End after.
End http3_end.
