(* ===== verification/Http3WorkerTheorems.v ===== *)
(** * What an HTTP/3 worker guarantees

    The accounts of a run, the ownership of its sends, its progress and its use
    of QUIC, for every kernel that keeps its laws, and concrete runs. *)

From S2P Require Import Prelude Effects Varint QuicFrame QuicPacket QuicRecovery QuicRecvStream QuicSendStream QuicStreams QuicStreamsInv QuicStreamsRun QuicConn QuicConnSample QuicConnTimers QuicConnRun QuicConnHistory QuicConnApp Status Stats Inflight Target Requests H3Proto Uring UringRun UringConn Http3Recv Http3Worker Http3WorkerInv Http3WorkerRun Http3WorkerTurn Http3WorkerRing Http3WorkerLoop Http3WorkerEnd.
From stdpp Require Import relations.
#[local] Open Scope Z_scope.

Module http3_theorems.
Import uring uring_run uring_conn http3 http3_inv http3_run http3_ring http3_loop http3_end.

Section theorems.
Context `{RL : RustlsLaws} `{SL : UnstableSortLaws (Z * bytes)} `{KN : Kernel} `{RM : RecvMsg} `{EN : Entropy} `{!BufferOctets} {SocketAddr : Type}.
Variables (target : target.Target SocketAddr) (budget : budget.Budget) (connect_timeout : Z) (timeout : option Z) (parallel : nat) (gso : bool) (patience : nat).
Variable settings : Settings.
Abbreviation Conn := (Conn (RT := RT)).
Abbreviation Worker := (Worker Conn Shared).
Abbreviation whist w := (hist (w_world w)).
Abbreviation ud i c op := (user_data i (generation c) op).

(** A worker with this many connections that has been set up and has taken at
    most this many turns of its loop. *)
Definition run (turns connections : nat) : eff Worker error bool :=
  _ ← setup target budget connect_timeout timeout gso connections;
  main_loop target budget connect_timeout timeout parallel gso patience settings turns.

Definition sensible (connections : nat) : Prop :=
  (0 < connections)%nat ∧ Z.of_nat connections ≤ 2 ^ CONN_IDX_BITS ∧ budget.may_start budget 0 = true ∧
  match budget with budget.Requests n => n < 2 ^ 64 | budget.Duration _ => True end.

Lemma h3_run_looped turns connections ended w :
  sensible connections → run turns connections cold = (Ok ended, w) → sound (whist w) → looped budget connect_timeout timeout ended w.
Proof.
  intros (Hp & Hn & Hb & Hf) Hrun Hs. assert (wok (run turns connections) cold (λ b w', looped budget connect_timeout timeout b w')) as Hok.
  { eapply wok_bind; [by apply (h3_setup_ok target budget connect_timeout timeout gso)|intros; apply h3_main_loop_grows|].
    intros [] w1 _ [? ?]. by apply h3_main_loop_ok. }
  unfold wok, holds in Hok. rewrite Hrun in Hok. auto.
Qed.
Lemma h3_run_owned turns connections ended w : sensible connections → run turns connections cold = (Ok ended, w) → sound (whist w) → owned w.
Proof. intros Hse Hrun Hs. destruct (h3_run_looped turns connections ended w Hse Hrun Hs) as [(Hl & _ & _) _]. by eapply ledger_owned. Qed.

Lemma h3_run_worker_run turns connections s w :
  sensible connections → run_worker target budget connect_timeout timeout parallel gso patience settings turns connections cold = (Ok (Some s), w) → sound (whist w) →
  ∃ w0, run turns connections cold = (Ok true, w0) ∧ sound (whist w0) ∧ stats.completed s = stats.completed (stats (w_shared w0)) ∧
    stats.errors s = stats.errors (stats (w_shared w0)) ∧ all_sent w.
Proof.
  intros Hse Hrun Hs. pose proof Hse as (Hpos & Hn & Hb & _). unfold run_worker in Hrun. rewrite (proj2 (Nat.eqb_neq _ _)) in Hrun by lia.
  assert (budget.is_empty budget = false) as He.
  { unfold budget.is_empty. destruct budget; [|done]. apply bool_decide_eq_false. intros [= ->]. done. }
  rewrite He in Hrun. cbn [orb] in Hrun. rewrite (proj2 (Z.ltb_ge _ _)) in Hrun by lia. rewrite bind_run in Hrun.
  pose proof (h3_run_owned turns connections true) as Hown. unfold run in Hown |- *. rewrite bind_run in Hown |- *. destruct (setup _ _ _ _ _ _ cold) as [[[]|e] w1]; [|done].
  rewrite bind_run in Hrun. destruct (main_loop _ _ _ _ _ _ _ _ turns w1) as [[[|]|e] w2]; [|done|done]. exists w2. split; [done|].
  rewrite bind_run in Hrun. pose proof (h3_finish_counted patience settings w2) as Hc. pose proof (finish_all_sent budget patience settings w2) as Hf.
  pose proof (h3_finish_grows budget patience settings) as Hg.
  specialize (Hg w2). destruct (finish patience settings w2) as [[s'|e] w3] eqn:Ef; [|done]. cbn [mret eff_ret] in Hrun. injection Hrun as <- <-.
  pose proof (sound_suffix _ _ Hg Hs) as Hs2. specialize (Hf (Hown w2 Hse eq_refl Hs2)). unfold wok, holds in Hf. rewrite Ef in Hf. destruct (Hf Hs) as [Hall ->].
  destruct Hc as [? ?]. by split_and!.
Qed.

(** C10: The report of an HTTP/3 worker accounts for every request.  When the
    worker returns, the requests it completed and the errors it counted, with
    the requests in flight on its connections and those a server refused that
    are not judged yet, are exactly the requests started, and no more than the
    budget were started; so a worker with a request budget reports exactly that
    many unless it was interrupted.  With a time budget the same holds up to the
    width of the counters. *)
Theorem h3_accounts (turns connections : nat) s w :
  sensible connections →
  run_worker target budget connect_timeout timeout parallel gso patience settings turns connections cold = (Ok (Some s), w) → sound (whist w) →
  ∃ w0, run turns connections cold = (Ok true, w0) ∧
    match budget with
    | budget.Requests n =>
        stats.completed s + stats.errors s + load weight (conns w0) = started (w_shared w0) ∧ started (w_shared w0) ≤ n ∧
        (stats.completed s + stats.errors s = n ∨ k_shutdown (w_world w0) = true)
    | budget.Duration _ => (stats.completed s + stats.errors s + load weight (conns w0) - started (w_shared w0)) mod 2 ^ 64 = 0
    end.
Proof.
  intros Hse Hrun Hs. destruct (h3_run_worker_run turns connections s w Hse Hrun Hs) as (w0 & Hrun0 & Hs0 & -> & -> & _). exists w0. split; [done|].
  destruct (h3_run_looped turns connections true w0 Hse Hrun0 Hs0) as [(_ & Ho & _) Hend]. pose proof Ho as []. pose proof (load_sum weight _ (orderly_weights _ _ _ _ Ho)) as Hld.
  destruct Hse as (_ & _ & _ & Hfit). unfold balanced, finished_so_far in *. destruct budget as [n|d]; [|done]. destruct o_balance0 as [Hb Hle]. split; [done|]. split; [done|].
  destruct Hend as [Hov|Hst]; [|by destruct (o_stop0 Hst)]. unfold over in Hov. apply orb_prop in Hov as [Hm|?]; [left|by right]. cbn in Hm. rewrite u64_small in Hm by lia. apply Z.leb_le in Hm. lia.
Qed.

(** C11: The worker owns what it has given the kernel to send.  Whenever its loop
    looks at its connections, the sends outstanding are, one to one, the first
    datagrams of the queues of connections that are sending and the datagrams
    kept for connections that are gone, and no two operations outstanding have
    the same id; and when the worker returns, no send is outstanding, so the
    datagrams freed with it are nobody's any more. *)
Theorem h3_sends_owned (turns connections : nat) ended w :
  sensible connections → run turns connections cold = (Ok ended, w) → sound (whist w) →
  sends_of (outstanding (whist w)) ≡ₚ concat (imap front (conns w)) ++ (dead <$> retired (w_shared w)) ∧
  NoDup (entry_ud <$> outstanding (whist w)) ∧
  ∀ s w', run_worker target budget connect_timeout timeout parallel gso patience settings turns connections cold = (Ok (Some s), w') → sound (whist w') →
    sends_of (outstanding (whist w')) = [].
Proof.
  intros Hse Hrun Hs. destruct (h3_run_owned turns connections ended w Hse Hrun Hs) as [_ _ Hp _ _ Hnd]. split; [done|]. split; [done|].
  intros s w' Hrun' Hs'. by destruct (h3_run_worker_run turns connections s w' Hse Hrun' Hs') as (_ & _ & _ & _ & _ & ?).
Qed.

Lemma mine_outstanding w i c e : good budget connect_timeout timeout w → conns w !! i = Some c → e ∈ mine i c → e ∈ outstanding (whist w).
Proof.
  intros ([] & _) Hc He. destruct g_all0 as (olds & timers & Hp & _). rewrite Hp. apply elem_of_app. left. apply elem_of_concat_imap. by exists i, c.
Qed.

(** A worker that has taken this many turns and, if it goes on, has served its
    timers: how long it is about to wait for. *)
Definition to_wait (turns connections : nat) : eff Worker error (option Z) :=
  ended ← run turns connections;
  if (ended : bool) then mret None
  else wait ← service_timers target budget connect_timeout timeout parallel gso patience; mret (Some wait).

Lemma expire_ahead fuel at_ : ∀ q b q' b' next, expire fuel at_ q b = Ok (q', b', Some next) → at_ < next.
Proof.
  induction fuel as [|fuel IH]; intros q b q' b' next; cbn [expire]; (destruct (connection.poll_timeout q) as [d|]; [|done]);
    (destruct (Z.leb_spec d at_); [|by intros [= _ _ <-]]); [done|apply IH].
Qed.
Lemma service_wait i at_ wait l : 0 < wait → holds (service target budget connect_timeout timeout parallel gso patience i at_ wait) l (λ r _, 0 < r ≤ wait) (λ _ _, True).
Proof.
  intros Hw. unfold holds, service, me. rewrite !bind_run. cbn [get mret eff_ret]. destruct (closing (self l)) as [d|].
  - destruct (Z.leb_spec d at_); [|cbn; lia]. rewrite bind_run. by destruct (finish_close _ _ _ _ _ _ _ l) as [[[]|e] l']; [cbn; lia|].
  - destruct (quic (self l)) as [q|]; [|cbn; lia]. rewrite bind_run. destruct (expire _ _ _ _) as [[[q' b] next]|e] eqn:E; [|done]. cbn [lift]. rewrite bind_run. cbn [update modify].
    rewrite bind_run. destruct (when _ _ _) as [[[]|e] l']; [|done]. cbn. destruct next as [d|]; [|lia]. apply expire_ahead in E. lia.
Qed.
Lemma service_all_wait idxs at_ : ∀ wait w, 0 < wait → holds (service_all target budget connect_timeout timeout parallel gso patience idxs at_ wait) w (λ r _, 0 < r ≤ wait) (λ _ _, True).
Proof.
  induction idxs as [|i idxs IH]; intros wait w Hw; [by apply holds_ret|]. cbn [service_all]. apply holds_bind.
  unfold at_conn, holds at 1. destruct (conns w !! i) as [c|]; [|done]. pose proof (service_wait i at_ wait (local w c) Hw) as Hs. unfold holds in Hs.
  destruct (service _ _ _ _ _ _ _ _ _ _ _) as [[r|e] l]; [|done]. eapply holds_mono; [apply IH; lia| |done]. cbv beta. intros r' _ ?. lia.
Qed.

(** A request that is owed is on a connection in use. *)
Lemma owed_in_use w : good budget connect_timeout timeout w → 0 < load weight (conns w) → ∃ i c, conns w !! i = Some c ∧ quic c ≠ None.
Proof.
  intros (_ & [] & _) Hlt. destruct (load_exists weight (conns w) Hlt) as (i & c & Hc & Hw). exists i, c. split; [done|]. intros Hq.
  destruct (o_inv0 i c Hc) as [_ Hn Hu _ _]. destruct (Hn Hq) as (_ & Hr & _). specialize (Hu Hr). lia.
Qed.

Lemma to_wait_good turns connections wait w :
  sensible connections → to_wait turns connections cold = (Ok (Some wait), w) → sound (whist w) →
  0 < wait ≤ WAIT_TIMEOUT ∧ good budget connect_timeout timeout w ∧ stop (w_shared w) = false.
Proof.
  intros Hse Hrun Hs. pose proof (h3_run_looped turns connections false) as Hloop. pose proof Hse as (_ & _ & _ & Hfit). unfold to_wait in Hrun. rewrite bind_run in Hrun. destruct (run turns connections cold) as [[[|]|e] w0]; [done| |done].
  rewrite bind_run in Hrun. pose proof (h3_service_timers_grows target budget connect_timeout timeout parallel gso patience w0) as Hg.
  pose proof (service_all_wait (seq 0 (length (conns w0))) (k_now (w_world w0)) WAIT_TIMEOUT w0 ltac:(done)) as Hwait.
  destruct (service_timers _ _ _ _ _ _ _ w0) as [[r|e] w1] eqn:E; [|done]. cbn in Hrun. injection Hrun as -> ->. specialize (Hloop w0 Hse eq_refl (sound_suffix _ _ Hg Hs)) as [Hgood [Hst _]].
  pose proof (h3_service_timers_ok target budget connect_timeout timeout parallel gso patience Hfit w0 Hgood) as Hok.
  unfold wok, holds in Hok, Hwait. rewrite E in Hok. destruct (Hok Hs) as (Hg1 & _ & Hst1). unfold service_timers in E. rewrite bind_run in E. cbn [get] in E. rewrite E in Hwait.
  split; [done|]. split; [done|congruence].
Qed.

(** C12: A worker never waits for nothing.  When its loop has served the timers
    and is about to wait, it waits for at most a tenth of a second, and some
    connection is in use, or the timers have just ended the last request of the
    budget, so that the loop ends after this wait.  Every connection that is in
    use and not closing has a receive with the kernel; and one that closes, or
    has a datagram queued, has a send with the kernel. *)
Theorem h3_never_stuck (turns connections : nat) wait w :
  sensible connections → to_wait turns connections cold = (Ok (Some wait), w) → sound (whist w) →
  0 < wait ≤ WAIT_TIMEOUT ∧
  ((∃ i c, conns w !! i = Some c ∧ quic c ≠ None) ∨
   budget = budget.Requests (stats.completed (stats (w_shared w)) + stats.errors (stats (w_shared w)))) ∧
  ∀ i c, conns w !! i = Some c → quic c ≠ None →
    (closing c = None → RecvMsgMulti i (ud i c OP_RECV) ∈ outstanding (whist w)) ∧
    (closing c ≠ None ∨ out_queue c ≠ [] → ∃ d, send_entry i (ud i c OP_SEND) d ∈ outstanding (whist w)).
Proof.
  intros Hse Hrun Hs. destruct (to_wait_good turns connections wait w Hse Hrun Hs) as (Hwait & Hgood & Hst). split; [done|]. pose proof Hgood as (Hl & Ho & Hoc). split.
  - destruct Hoc as [?|[?|Hms]]; [congruence|by left|]. destruct (Z.lt_ge_cases 0 (load weight (conns w))); [left; by apply owed_in_use|].
    right. pose proof Ho as []. pose proof (load_sum weight _ (orderly_weights _ _ _ _ Ho)) as Hld.
    unfold balanced, finished_so_far in *. destruct budget as [n|]; [|done]. cbn in Hms. apply Z.ltb_ge in Hms. destruct o_balance0. f_equal. lia.
  - intros i c Hc Hq. pose proof (o_attentive _ _ _ _ Ho i c Hc) as Hat. unfold attentive in Hat. destruct (quic c); [|done]. destruct Hat as [_ Hat].
    assert (sending c = true → ∃ d, send_entry i (ud i c OP_SEND) d ∈ outstanding (whist w)) as Hsend.
    { intros Hsd. pose proof (g_front _ _ Hl i c Hc Hsd) as Hf. destruct (out_queue c) as [|d q] eqn:Eq; [done|]. exists d. apply (mine_outstanding w i c); [done|done|].
      unfold mine. rewrite Eq, Hsd. by left. }
    split.
    + intros Hcl. rewrite Hcl in Hat. apply (mine_outstanding w i c); [done|done|]. unfold mine. destruct Hat as [-> _]. apply elem_of_app. right. by left.
    + intros Hor. apply Hsend. destruct (closing c); [done|]. destruct Hat as [_ Hat]. destruct Hor; auto.
Qed.

(** C13: The worker only does to a QUIC connection what its rules allow.  Whenever
    the loop looks at its connections, the QUIC connection of every one that is
    not closing has been reached from [connect] by calls that are permitted and
    did not fail, so that what is shown of such connections holds of it: here,
    that its streams are numbered without gaps and that the requests in flight
    are streams it has opened. *)
Theorem h3_quic_reachable (turns connections : nat) ended w :
  sensible connections → run turns connections cold = (Ok ended, w) → sound (whist w) →
  ∀ i c q, conns w !! i = Some c → quic c = Some q → closing c = None →
    (∃ polled, connection_run.reachable (local_params connect_timeout timeout) (q, polled)) ∧
    (∀ id, id ∈ (inflight.entries inflight.H3_SHIFT inflight.H3_OFFSET (streams c)).*1 → ∃ n, id = 4 * n ∧ 0 ≤ n < conn_streams.next_bidi (connection.st q)).
Proof.
  intros Hse Hrun Hs i c q Hc Hq Hcl. destruct (h3_run_looped turns connections ended w Hse Hrun Hs) as [(_ & Ho & _) _].
  pose proof (c_quic _ _ _ (o_inv _ _ _ _ Ho i c Hc) q Hq) as Hu. destruct (u_reached _ _ _ _ Hu eq_refl Hcl) as [polled Hr]. split; [by exists polled|].
  intros id ([id' x] & -> & Hin)%list_elem_of_fmap. destruct (u_table _ _ _ _ Hu) as [(Hb & Hh & _) Hend _]. unfold inflight.entries in Hin.
  destruct (inflight.entries_ids _ _ _ _ _ _ Hin) as (m & Hm & ->). rewrite id_of_four. exists m. split; [done|].
  destruct Hend as [Hnil|Hend]; [rewrite Hnil, drop_nil in Hin; by apply not_elem_of_nil in Hin|]. unfold zlen, inflight.live in *. rewrite length_drop in Hm. lia.
Qed.
End theorems.

(** ** A small run *)

Section example.
Import sample.

Definition reaped (op : Z) (h : list Event) : Z :=
  zlen (List.filter (λ e, match e with Reaped c => (decode_user_data (cqe_ud c)).1.1 =? op | _ => false end) h).

(** The server: its flight, the end of the handshake, then a response with status
    200 to one request after the other. *)
Definition says (n : Z) : bytes :=
  if n =? 1 then server_flight
  else if n =? 2 then server_done
  else server_data (n - 2) (frame.put_stream (4 * (n - 3)) 0 true [1; 3; 0; 0; 0xd9]).

(** The same, but the first response comes with a CONNECTION_CLOSE. *)
Definition farewell (n : Z) : bytes :=
  if n <? 3 then says n else server_data (n - 2) (frame.put_stream 0 0 true [1; 3; 0; 0; 0xd9] ++ frame.put_close H3_NO_ERROR []).

(** A kernel that sends everything, and receives when there is nothing to send. *)
#[local] Instance udp : Kernel := {|
  capacity := 8;
  k_submit w := (IoOk (length (sq w)), length (sq w));
  k_wait w _ _ _ := (IoOk (length (sq w)), length (sq w));
  k_completions w :=
    let busy := existsb is_send (outstanding (hist w)) in
    omap (λ e, match e with
    | Send _ ud d | SendMsg _ ud d _ => Some (mkCqe ud (zlen d) false None)
    | RecvMsgMulti _ ud =>
        if busy then None else Some (mkCqe ud (Z.of_nat h3_recv.PAYLOAD_OFFSET + zlen (says (reaped OP_RECV (hist w) + 1))) true (Some 0))
    | _ => None
    end) (reverse (outstanding (hist w)));
  k_cancel _ _ := IoOk 0;
  k_register _ _ _ := IoOk 0;
  k_socket _ := Ok 3;
  k_now w := zlen (hist w) * 1000;
  k_shutdown _ := false;
  k_buffer w _ := u8 <$> (replicate h3_recv.PAYLOAD_OFFSET 0 ++ says (reaped OP_RECV (hist w)));
|}.
#[local] Instance udp_octets : BufferOctets.
Proof. intros w bid. apply Forall_fmap, Forall_true. intros b. apply u8_range. Qed.
#[local] Instance whole_messages : RecvMsg := λ b,
  let data := drop h3_recv.PAYLOAD_OFFSET b in Some (mkRecvMsgOut data [] false false (zlen data) 0).
#[local] Instance fixed_ids : Entropy := λ _, (client_id, first_id).
Definition small_target : target.Target Z :=
  target.mkTarget 443 true (bstr "a") (bstr "a") (bstr "/") (bstr "GET") [] [] [] false.
Definition sample_settings : Settings := mkSettings DEFAULT_BATCH_LINGER 0 true.
Abbreviation sample_worker turns := (run_worker small_target (budget.Requests 2) 5000000000 None 1 true 4 sample_settings turns 1).
Abbreviation sample_run turns := (run small_target (budget.Requests 2) 5000000000 None 1 true 4 sample_settings turns 1).
Abbreviation fresh := (cold (RT := toy_rustls)).
Definition halfway : Worker (Conn (RT := toy_rustls)) Shared := Eval vm_compute in (sample_run 6 fresh).2.
Definition at_end : Worker (Conn (RT := toy_rustls)) Shared := Eval vm_compute in (sample_worker 20 fresh).2.
Definition report : stats.Stats := Eval vm_compute in match (sample_worker 20 fresh).1 with Ok (Some s) => s | _ => stats.default end.

Lemma h3_sample_sensible : sensible (budget.Requests 2) 1.
Proof. split_and!; [lia|vm_compute; discriminate|done|lia]. Qed.
Lemma h3_halfway_sound : sound (hist (w_world halfway)).
Proof. split; [apply legalb_legal; vm_compute; reflexivity|vm_compute; reflexivity]. Qed.
Lemma h3_at_end_sound : sound (hist (w_world at_end)).
Proof. split; [apply legalb_legal; vm_compute; reflexivity|vm_compute; reflexivity]. Qed.

Lemma h3_accounts_witness :
  sample_worker 20 fresh = (Ok (Some report), at_end) ∧ stats.completed report = 2 ∧ stats.errors report = 0 ∧
  ∃ w0, sample_run 20 fresh = (Ok true, w0) ∧
    stats.completed report + stats.errors report + load weight (conns w0) = started (w_shared w0) ∧ started (w_shared w0) ≤ 2 ∧
    (stats.completed report + stats.errors report = 2 ∨ k_shutdown (w_world w0) = true).
Proof.
  assert (sample_worker 20 fresh = (Ok (Some report), at_end)) as Hrun by (vm_compute; reflexivity).
  split; [exact Hrun|]. split; [reflexivity|]. split; [reflexivity|].
  exact (h3_accounts small_target (budget.Requests 2) 5000000000 None 1 true 4 sample_settings 20 1 report at_end h3_sample_sensible Hrun h3_at_end_sound).
Defined.

Lemma h3_sample_halfway : sample_run 6 fresh = (Ok false, halfway).
Proof. vm_cast_no_check (eq_refl (A := res bool * Worker (Conn (RT := toy_rustls)) Shared) (Ok false, halfway)). Qed.
Lemma h3_sends_owned_witness :
  sample_run 6 fresh = (Ok false, halfway) ∧ length (sends_of (outstanding (hist (w_world halfway)))) = 1%nat ∧
  (sends_of (outstanding (hist (w_world halfway))) ≡ₚ concat (imap front (conns halfway)) ++ (dead <$> retired (w_shared halfway)) ∧
   NoDup (entry_ud <$> outstanding (hist (w_world halfway))) ∧
   ∀ s w', sample_worker 6 fresh = (Ok (Some s), w') → sound (hist (w_world w')) → sends_of (outstanding (hist (w_world w'))) = []).
Proof.
  pose proof h3_sample_halfway as Hrun. split; [exact Hrun|]. split; [vm_compute; reflexivity|].
  exact (h3_sends_owned small_target (budget.Requests 2) 5000000000 None 1 true 4 sample_settings 6 1 false halfway h3_sample_sensible Hrun h3_halfway_sound).
Defined.

Abbreviation sample_wait turns := (to_wait small_target (budget.Requests 2) 5000000000 None 1 true 4 sample_settings turns 1).
Definition resting : Worker (Conn (RT := toy_rustls)) Shared := Eval vm_compute in (sample_wait 6 fresh).2.
Lemma h3_sample_resting : sample_wait 6 fresh = (Ok (Some WAIT_TIMEOUT), resting).
Proof. vm_cast_no_check (eq_refl (A := res (option Z) * Worker (Conn (RT := toy_rustls)) Shared) (Ok (Some WAIT_TIMEOUT), resting)). Qed.
Lemma h3_never_stuck_witness :
  sample_wait 6 fresh = (Ok (Some WAIT_TIMEOUT), resting) ∧ stats.completed (stats (w_shared resting)) = 1 ∧
  0 < WAIT_TIMEOUT ≤ WAIT_TIMEOUT ∧
  ((∃ i c, conns resting !! i = Some c ∧ quic c ≠ None) ∨
   budget.Requests 2 = budget.Requests (stats.completed (stats (w_shared resting)) + stats.errors (stats (w_shared resting)))) ∧
  ∀ i c, conns resting !! i = Some c → quic c ≠ None →
    (closing c = None → RecvMsgMulti i (user_data i (generation c) OP_RECV) ∈ outstanding (hist (w_world resting))) ∧
    (closing c ≠ None ∨ out_queue c ≠ [] → ∃ d, send_entry i (user_data i (generation c) OP_SEND) d ∈ outstanding (hist (w_world resting))).
Proof.
  pose proof h3_sample_resting as Hrun. split; [exact Hrun|]. split; [reflexivity|].
  refine (h3_never_stuck small_target (budget.Requests 2) 5000000000 None 1 true 4 sample_settings 6 1 _ resting h3_sample_sensible Hrun _).
  split; [apply legalb_legal; vm_compute; reflexivity|vm_compute; reflexivity].
Defined.

(** With a server that says nothing, the timers end the only request: the worker
    is about to wait with no connection in use, but its budget is met. *)
Definition deaf_udp : Kernel := {|
  capacity := 8;
  k_submit w := (IoOk (length (sq w)), length (sq w));
  k_wait w _ _ _ := (IoOk (length (sq w)), length (sq w));
  k_completions w := omap (λ e, match e with Send _ ud d | SendMsg _ ud d _ => Some (mkCqe ud (zlen d) false None) | _ => None end) (reverse (outstanding (hist w)));
  k_cancel _ _ := IoOk 0;
  k_register _ _ _ := IoOk 0;
  k_socket _ := Ok 3;
  k_now w := if reaped OP_SEND (hist w) =? 0 then 0 else 100 * 10 ^ 9;
  k_shutdown _ := false;
  k_buffer _ _ := [];
|}.
Lemma deaf_server_wait :
  (let '(r, w) := to_wait (KN := deaf_udp) small_target (budget.Requests 1) 5000000000 None 1 true 4 sample_settings 1 1 fresh in
   (r, stats.errors (stats (w_shared w)), (λ c, match quic c with Some _ => true | None => false end) <$> conns w)) = (Ok (Some WAIT_TIMEOUT), 1, [false]).
Proof. vm_compute. reflexivity. Qed.

Lemma h3_quic_reachable_witness :
  sample_run 6 fresh = (Ok false, halfway) ∧
  (c ← conns halfway; q ← option_list (quic c); [(closing c, connection.connected q, conn_streams.next_bidi (connection.st q))]) = [(None, true, 2)] ∧
  ∀ i c q, conns halfway !! i = Some c → quic c = Some q → closing c = None →
    (∃ polled, connection_run.reachable (local_params 5000000000 None) (q, polled)) ∧
    (∀ id, id ∈ (inflight.entries inflight.H3_SHIFT inflight.H3_OFFSET (streams c)).*1 → ∃ n, id = 4 * n ∧ 0 ≤ n < conn_streams.next_bidi (connection.st q)).
Proof.
  pose proof h3_sample_halfway as Hrun. split; [exact Hrun|]. split; [vm_compute; reflexivity|].
  exact (h3_quic_reachable small_target (budget.Requests 2) 5000000000 None 1 true 4 sample_settings 6 1 false halfway h3_sample_sensible Hrun h3_halfway_sound).
Defined.

(** A connection that was lost is given new requests.  The server answers the
    first of two requests and closes the connection, without an error, in the
    same datagram; the pass that sees the close starts the second request on it,
    and counts it as failed, though another connection could have carried it. *)
#[local] Instance closing_udp : Kernel := {|
  capacity := 8;
  k_submit w := (IoOk (length (sq w)), length (sq w));
  k_wait w _ _ _ := (IoOk (length (sq w)), length (sq w));
  k_completions w :=
    let busy := existsb is_send (outstanding (hist w)) in
    omap (λ e, match e with
    | Send _ ud d | SendMsg _ ud d _ => Some (mkCqe ud (zlen d) false None)
    | RecvMsgMulti _ ud =>
        if busy || (3 <=? reaped OP_RECV (hist w)) then None
        else Some (mkCqe ud (Z.of_nat h3_recv.PAYLOAD_OFFSET + zlen (farewell (reaped OP_RECV (hist w) + 1))) true (Some 0))
    | _ => None
    end) (reverse (outstanding (hist w)));
  k_cancel _ _ := IoOk 0;
  k_register _ _ _ := IoOk 0;
  k_socket _ := Ok 3;
  k_now w := zlen (hist w) * 1000;
  k_shutdown _ := false;
  k_buffer w _ := u8 <$> (replicate h3_recv.PAYLOAD_OFFSET 0 ++ farewell (reaped OP_RECV (hist w)));
|}.
Abbreviation closing_run turns := (run (KN := closing_udp) small_target (budget.Requests 2) 5000000000 None 1 true 4 sample_settings turns 1).
(** What happened since the last completion. *)
Fixpoint since_reaped (h : list Event) : list Event :=
  match h with [] | Reaped _ :: _ => [] | e :: h' => e :: since_reaped h' end.
Lemma lost_connection_refilled :
  (closing_run 10 fresh).1 = Ok true ∧
  (let x := w_shared (closing_run 10 fresh).2 in (started x, stats.completed (stats x), stats.errors (stats x))) = (2, 1, 1) ∧
  existsb (λ e, match e with Pushed _ => true | _ => false end) (since_reaped (hist (w_world (closing_run 10 fresh).2))) = false.
Proof. split_and!; vm_compute; reflexivity. Qed.
End example.
End http3_theorems.
